(* ===== verification/_CoqProject ===== *)
-Q . S2P
Prelude.v
Lin.v
LinSearch.v
LinCheck.v
Text.v
Elf.v
ElfWrite.v
ElfRead.v
ElfLayout.v
ElfPlan.v
ElfSyms.v
ElfRoundtrip.v
ElfObject.v
Archive.v
ArchiveRound.v
Asm.v
AsmLink.v
AsmSem.v
OrdMap.v
Oracles.v
OracleOrder.v
OracleMerkle.v
KafkaRecords.v
KafkaRound.v
KafkaMeta.v
Shell.v
ShellVerdict.v
KafkaBatch.v
TlsTypes.v
TlsCrypto.v
TlsKeys.v
TlsBuf.v
TlsMsg.v
TlsMsgRound.v
TlsRecord.v
TlsLayer.v
TlsConn.v
TlsStream.v
TlsSig.v
TlsClient.v
TlsHandshake.v
TlsRounds.v
TlsComplete.v
TlsAfter.v
WasmLeb.v
WasmEnc.v
WasmTypes.v
WasmBuild.v
WasmAnns.v
WasmRead.v
WasmInstr.v
WasmDecode.v
Topic.v
Clocks.v
Causality.v
Consistency.v
Majority.v
Paxos.v
PaxosSafe.v
Raft.v
RaftElect.v
RaftLog.v
RaftRules.v
Stage.v
RaftStages.v
PaxosStages.v
Crdt.v
Replicas.v
RgaWalk.v
CrdtNet.v
CrdtMeaning.v
Proxy.v
ProxySafe.v
Workload.v
Commit.v
CommitSafe.v
CommitThree.v
CommitLog.v
CommitStages.v
Stages.v
