(* ===== verification/Prelude.v ===== *)
(** * Verification of the BuildYourOwn testers

  The repository holds a family of test harnesses for programs one writes
  oneself - a linker, a Kafka broker, a TLS 1.3 server, a WebAssembly runtime, a
  distributed key/value store, a shell - and [byo], the command line that tracks
  them.  Each harness judges a program it did not write, so the code that has to
  be right is the code that makes the inputs and works out the expected answers:
  encoders, parsers, oracles, checkers, and the reference programs the harness
  validates itself with.  That is what this development models, and it proves
  what an author of a program under test relies on.  Paths below are relative to
  [src/].

  ** Conventions

  A Rust [u8] is a [byte], text is its UTF-8 bytes, a wider integer is a [Z]
  whose wrap-around ([wrap_u], [wrap_s]) is written where the code can reach it
  (arithmetic that a build with overflow checks would panic on wraps here, and
  the theorems state the ranges in which it does not).  [Result] is a sum with
  [?] as its bind; a mutable object is a record passed on; a method that can fail
  half-way keeps the state it had reached.  [BTreeMap] and [HashMap] are [gmap],
  iterated in key order where the code does ([OrdMap]); [Text] has UTF-8, [format!]
  and the parsers of numbers.  Code outside the
  repository - hash functions, ciphers, compression, the JSON library, the
  formatter of floats and of quoted text - is a class ([CryptoLib], [JsonText],
  ...), with a second class for the documented laws a theorem relies on, and an
  instance that satisfies them for the witnesses.

  ** The linearizability checker: [disttest/src/lin/mod.rs]

  [Lin] has the history, the sequential model, the memoised search with its bit
  map and budget, the bisection for the blamed operation and the check of a whole
  history.  [LinSearch] says what linearizability is, that it is local to a key
  and that the search decides it, [LinCheck] that the three
  verdicts mean what they say and that the blamed operation is the earliest.

  ** The linker's inputs: [linktest/src/elf/], [linktest/src/asm/mod.rs]

  [Elf], [ElfWrite] and [ElfRead] are the constants, the object writer (planner
  and emitter) and the reader; [ElfLayout], [ElfPlan], [ElfSyms]
  follow one part of an object from the plan to the reader, and
  [ElfRoundtrip] and [ElfObject] put them together: what was put into a builder
  is what a reader gets back, building succeeds, and what a parsed file
  guarantees.  [Archive] and [ArchiveRound] do the same for [ar] archives.
  [Asm] is the assembler; [AsmLink] a linker, a decoder and a machine written
  from the ABI and the encoding tables; [AsmSem] shows that assembled code, linked
  anywhere, decodes to the program that was written and runs as intended.

  ** The oracles: [disttest/src/prim/oracles.rs]

  [Oracles], with [OracleOrder] and [OracleMerkle] for the theorems: clocks and causal delivery, placement, quorums, Merkle trees,
  permutations.

  ** The reference algorithms: [disttest/examples/]

  A topic is a state machine from commands to JSON ([Topic], the readers of
  arguments).  [Paxos] and [Raft] are [alg/paxos.rs] and [alg/raft.rs], one
  handler per command.  The handlers run as distributed protocols: [PaxosSafe]
  (agreement, and that a value can always be chosen), [RaftElect] (one leader per
  term), [RaftLog] (AppendEntries and log matching), [RaftRules] (the commit
  rule, compacted logs, membership changes); [Majority] has the quorums they
  share.  [Commit] is [alg/commit.rs]: [CommitSafe] has transaction commit as a
  specification, shows that two-phase commit implements it and where it blocks,
  [CommitThree] that three-phase commit does under what it assumes of silence,
  [CommitLog] what a participant gets back from its log.

  The stages [s56] to [s65] of [disttest/src/stages] end in a long seeded run
  against a model of the tester's own.  [Stage] is the
  conversation and how lists are printed into it; [RaftStages], [PaxosStages] and
  [CommitStages] have the ten models, and [Stages] shows that the reference gives
  every answer they want whatever the generator draws - the two codings of each
  algorithm agree.

  [Clocks] is [prim/clocks.rs].  [Causality] runs its topics along any computation of
  processes and messages: vector clocks decide happened-before, Lamport and hybrid
  clocks respect it, and version vectors keep the maximal writes; the class
  [ClockLaws] is what the three clocks promise.

  [Consistency] is [alg/consistency.rs] with its theorems: the search over the orders
  of a history decides linearizability and sequential consistency, and sessions read
  what they wrote as long as writes go to replicas that hold the whole log.

  [Crdt] is [prim/crdt.rs].  [Replicas] has what a replicated type promises (a
  class of semilattices, a record of operations with its laws) and a network that
  writes, ships and merges in any order; [RgaWalk] is the order of a sequence,
  [CrdtNet] shows the five types keep the promise, [CrdtMeaning] what they then
  compute: convergence, every increment counted once, a removal removes what it
  has seen, a sequence reads every element.

  ** The cluster's faults: [disttest/src/cluster/]

  [Proxy] is the proxy in front of a member ([proxy.rs]) and what the cluster does
  to its table of links ([mod.rs]): framing, one round of the loop that copies a
  direction, a new connection.  The generator of the [rand] crate is an argument,
  probabilities are rationals, delays nanoseconds, and the counters those of one
  loop.  [ProxySafe] shows that a connection delivers what it was given and that
  a partition cuts.  [Workload] is the schedule of faults ([workload.rs]); starting
  a member and finding the leader are arguments.

  ** Kafka record batches: [kafkatest/src/proto/records.rs]

  [KafkaRecords] is the writer and the reader, [KafkaRound] and [KafkaBatch] the
  round trip, truncation, and what an accepted batch is.  [KafkaMeta] is the codec of
  the cluster-metadata records ([meta.rs]) on the same reader, with their round trip
  and that of the textual form of a topic id.

  ** The shell tester's verdict: [shelltest/src/]

  [Shell] goes from what was captured of a shell to the verdict: the normalizer and
  the placeholders ([normalize.rs]), the matchers ([matchers.rs]), the validation of
  test cases and stages ([loader.rs]) and the checks of [runner/mod.rs].
  [ShellVerdict] shows that a test passes exactly when what it asserts holds, that
  normalized output is its own expectation, that no escape character survives, and
  when a placeholder is replaced.

  ** TLS 1.3: [tlstest/src/tls/]

  Bottom up: [TlsTypes] ([mod.rs]), [TlsBuf] ([buf.rs]), [TlsCrypto] and
  [TlsKeys] ([crypto.rs]), [TlsMsg] and [TlsMsgRound] ([msg.rs]), [TlsRecord] and
  [TlsLayer] ([record.rs]), [TlsConn] and [TlsStream] ([conn.rs]), [TlsSig]
  ([sig.rs]) and [TlsClient] ([client.rs]).  Messages and records parse exactly when
  they are encodings, the schedule is that of RFC 8446, nonces do not repeat and
  records are authentic, and a connection delivers what was sent however it is cut
  up on the way.

  The client is a state and error monad over the connection.  [TlsHandshake] shows
  what a handshake that returns [Ok] has checked, whoever the server is, and ends
  with a small server built from the same schedule, which the witnesses talk to.
  [TlsComplete] is the other direction: with an honest server, however its bytes are
  cut, the handshake does return [Ok] and both sides hold the same keys.
  [TlsRounds] shows that no loop of the client runs out of rounds, [TlsAfter] what
  KeyUpdates and [read_line] do once it is over.

  ** WebAssembly modules: [wasmtest/src/wasm/]

  [WasmLeb], [WasmEnc], [WasmTypes] and [WasmBuild] are [encode.rs] and [hex.rs],
  [WasmInstr] is [instr.rs].  [WasmRead] and [WasmDecode] are readers written
  from the binary format: a built module reads back to the contents of its
  builder, an expression to the instructions its methods name.  [WasmAnns] shows
  that the annotations of a module cover what they name, and that the indices
  handed out are those of the finished module.

  ** Fuel and bounds

  Loops that are not structural take fuel, and it is enough.  The search of [Lin]
  gets one unit per pending operation, and every branch places one
  ([LinSearch.recurse_spec] shows that it returns).  Digit loops and LEB128 get
  more units than a number has digits ([Text], [WasmLeb], [KafkaRecords]);
  loops over bytes that consume at least one byte a round get the length of what
  is left ([Text], [ElfRead.chunks], [TlsRecord.chunks], [TlsBuf.many],
  [WasmRead.split_sections], [Archive.read_loop]).  The loops of a connection get
  one unit per event of the socket and per buffered byte, and [TlsStream] shows
  that they deliver everything; the loops of the client get one unit per byte the
  connection can still give, a flight the six rounds its order checks allow, and
  [TlsRounds] shows that more would change nothing.  Loops over indices get the number of indices
  ([Raft.commit_from], [Raft.run_back], [Paxos.applied_from] with
  [Paxos.progress_exact]).  Seeded runs have at most [Stage.max_rounds] rounds,
  2^60, so that no number in them leaves [i64]; the stages have at most eighty.

  ** Not modelled

  Process spawning, sockets, terminals, the file system and the clock; the
  catalogue of stages and the text of reports; the short fixed conversations of
  the stages beside their seeded runs; the floating-point oracles; the [byo]
  server and its database; the web site - all of them input, output or display.
  The reference topics not named above are state machines of the same shape that
  were not reached; Kafka's requests are encoded by a crate; the etcd client
  is calls over a socket. *)

From stdpp Require Export base gmap sets list strings sorting countable option.
From stdpp Require Export list_numbers.
From Stdlib Require Export ZArith Lia.
From Stdlib Require Export Strings.Byte.

#[export] Set Default Goal Selector "!".
#[global] Open Scope Z_scope.
#[global] Arguments Nat.modulo : simpl never.
#[global] Arguments Nat.div : simpl never.
#[global] Arguments Z.of_nat : simpl never.

(** ** Bytes and machine integers

  A Rust [u8] is a [byte]; every wider integer is a [Z] whose range is stated
  where it matters.  [z2b] is the [as u8] cast (the low eight bits), [b2z] the
  cast back. *)

Abbreviation bytes := (list byte).

Definition b2z (b : byte) : Z := Z.of_N (Byte.to_N b).

Definition z2b (z : Z) : byte :=
  default x00 (Byte.of_N (Z.to_N (z mod 256))).

(** [in_uN w z]: [z] is a value of the unsigned [w]-bit type. *)
Definition in_u (w z : Z) : Prop := 0 <= z < 2 ^ w.
(** [in_s w z]: [z] is a value of the signed [w]-bit type. *)
Definition in_s (w z : Z) : Prop := - 2 ^ (w - 1) <= z < 2 ^ (w - 1).

Definition U64_MAX : Z := 2 ^ 64 - 1.

(** [as uN] and [as iN]: two's complement truncation. *)
Definition wrap_u (w z : Z) : Z := z mod 2 ^ w.
Definition wrap_s (w z : Z) : Z := (z + 2 ^ (w - 1)) mod 2 ^ w - 2 ^ (w - 1).

#[global] Instance byte_eq_dec : EqDecision byte := Byte.byte_eq_dec.

#[global] Program Instance byte_countable : Countable byte :=
  inj_countable Byte.to_N Byte.of_N _.
Next Obligation. intros b. apply Byte.of_to_N. Qed.

Lemma b2z_range b : 0 <= b2z b < 256.
Proof.
  unfold b2z. pose proof (Byte.to_N_bounded b). lia.
Qed.

Lemma b2z_z2b z : b2z (z2b z) = z mod 256.
Proof.
  unfold b2z, z2b. pose proof (Z.mod_pos_bound z 256 ltac:(lia)).
  destruct (Byte.of_N (Z.to_N (z mod 256))) as [b|] eqn:E; simpl.
  - apply Byte.to_of_N in E. rewrite E. lia.
  - apply Byte.of_N_None_iff in E. lia.
Qed.

Lemma z2b_b2z b : z2b (b2z b) = b.
Proof.
  unfold b2z, z2b. pose proof (Byte.to_N_bounded b).
  rewrite Z.mod_small by lia. rewrite N2Z.id, Byte.of_to_N. done.
Qed.

#[global] Instance b2z_inj : Inj (=) (=) b2z.
Proof. intros a b H. by rewrite <- (z2b_b2z a), H, z2b_b2z. Qed.

Lemma z2b_small z : 0 <= z < 256 -> b2z (z2b z) = z.
Proof. intros. rewrite b2z_z2b. by apply Z.mod_small. Qed.

(** ** Little- and big-endian fields *)

(** [le_bytes n z] is [z.to_le_bytes()] of an [n]-byte integer (two's complement
  for a negative [z]); [le_val] is [from_le_bytes] of an unsigned type. *)
Fixpoint le_bytes (n : nat) (z : Z) : bytes :=
  match n with
  | O => []
  | S n => z2b z :: le_bytes n (z / 256)
  end.

Fixpoint le_val (bs : bytes) : Z :=
  match bs with
  | [] => 0
  | b :: bs => b2z b + 256 * le_val bs
  end.

Definition be_bytes (n : nat) (z : Z) : bytes := reverse (le_bytes n z).
Definition be_val (bs : bytes) : Z := le_val (reverse bs).

Lemma length_le_bytes n z : length (le_bytes n z) = n.
Proof. revert z. induction n; intros; simpl; auto. Qed.

Lemma length_be_bytes n z : length (be_bytes n z) = n.
Proof. unfold be_bytes. by rewrite length_reverse, length_le_bytes. Qed.

Lemma le_val_bytes n z : le_val (le_bytes n z) = z mod 256 ^ Z.of_nat n.
Proof.
  revert z. induction n as [|n IH]; intros z.
  - simpl. by rewrite Z.mod_1_r.
  - cbn [le_bytes le_val]. rewrite IH, b2z_z2b, Nat2Z.inj_succ, Z.pow_succ_r by lia.
    rewrite Z.rem_mul_r; lia.
Qed.

Lemma le_val_range bs : 0 <= le_val bs < 256 ^ Z.of_nat (length bs).
Proof.
  induction bs as [|b bs IH]; [simpl; lia|].
  cbn [le_val length]. rewrite Nat2Z.inj_succ, Z.pow_succ_r by lia.
  pose proof (b2z_range b). lia.
Qed.

Lemma le_bytes_val bs : le_bytes (length bs) (le_val bs) = bs.
Proof.
  induction bs as [|b bs IH]; [done|]. cbn [length le_bytes le_val].
  pose proof (b2z_range b).
  replace (b2z b + 256 * le_val bs) with (b2z b + le_val bs * 256) by lia.
  f_equal.
  - apply (inj b2z). rewrite b2z_z2b, Z.mod_add, Z.mod_small; lia.
  - rewrite Z.div_add, Z.div_small by lia. rewrite Z.add_0_l. apply IH.
Qed.

Lemma be_val_bytes n z : be_val (be_bytes n z) = z mod 256 ^ Z.of_nat n.
Proof. unfold be_val, be_bytes. by rewrite reverse_involutive, le_val_bytes. Qed.

Lemma be_val_range bs : 0 <= be_val bs < 256 ^ Z.of_nat (length bs).
Proof. unfold be_val. rewrite <- (length_reverse bs). apply le_val_range. Qed.

Lemma be_bytes_val bs : be_bytes (length bs) (be_val bs) = bs.
Proof.
  unfold be_val, be_bytes. rewrite <- (length_reverse bs), le_bytes_val.
  apply reverse_involutive.
Qed.

(** A field of the right width reads back unchanged: the form the codecs use. *)
Lemma le_val_u n w z :
  w = 8 * Z.of_nat n -> in_u w z -> le_val (le_bytes n z) = z.
Proof.
  intros -> [? Hz]. rewrite le_val_bytes. apply Z.mod_small.
  by rewrite Z.pow_mul_r in Hz by lia.
Qed.

Lemma be_val_u n w z :
  w = 8 * Z.of_nat n -> in_u w z -> be_val (be_bytes n z) = z.
Proof.
  intros -> [? Hz]. rewrite be_val_bytes. apply Z.mod_small.
  by rewrite Z.pow_mul_r in Hz by lia.
Qed.

Lemma wrap_s_small w z : 0 < w -> in_s w z -> wrap_s w z = z.
Proof.
  intros Hw [? ?]. unfold wrap_s.
  assert (2 ^ w = 2 * 2 ^ (w - 1)) as ->.
  { rewrite <- Z.pow_succ_r by lia. f_equal. lia. }
  rewrite Z.mod_small; lia.
Qed.

Lemma wrap_s_mod w z : 0 < w -> wrap_s w (z mod 2 ^ w) = wrap_s w z.
Proof.
  intros Hw. unfold wrap_s. by rewrite Zplus_mod_idemp_l.
Qed.

Lemma be_val_s n w z :
  w = 8 * Z.of_nat n -> 0 < w -> in_s w z -> wrap_s w (be_val (be_bytes n z)) = z.
Proof.
  intros -> ? Hz. rewrite be_val_bytes, <- (Z.pow_mul_r 2 8) by lia.
  rewrite wrap_s_mod by lia. by apply wrap_s_small.
Qed.

Lemma le_val_s n w z :
  w = 8 * Z.of_nat n -> 0 < w -> in_s w z -> wrap_s w (le_val (le_bytes n z)) = z.
Proof.
  intros -> ? Hz. rewrite le_val_bytes, <- (Z.pow_mul_r 2 8) by lia.
  rewrite wrap_s_mod by lia. by apply wrap_s_small.
Qed.

(** ** Rust's [Result]

  [?] is monadic bind; stdpp's [x ← m; k] notation is used for it. *)

Inductive Result (E A : Type) : Type :=
| Ok (a : A)
| Err (e : E).
Arguments Ok {E A} a.
Arguments Err {E A} e.

#[global] Instance result_ret E : MRet (Result E) := fun A a => Ok a.
#[global] Instance result_bind E : MBind (Result E) := fun A B f m =>
  match m with Ok a => f a | Err e => Err e end.
#[global] Instance result_fmap E : FMap (Result E) := fun A B f m =>
  match m with Ok a => Ok (f a) | Err e => Err e end.

(** [Option::ok_or]. *)
Definition ok_or {E A} (o : option A) (e : E) : Result E A :=
  match o with Some a => Ok a | None => Err e end.

(** [Result::ok]. *)
Definition to_option {E A} (r : Result E A) : option A :=
  match r with Ok a => Some a | Err _ => None end.

(** [Result::map_err]. *)
Definition map_err {E F A} (f : E -> F) (r : Result E A) : Result F A :=
  match r with Ok a => Ok a | Err e => Err (f e) end.

Definition is_ok {E A} (r : Result E A) : bool :=
  match r with Ok _ => true | Err _ => false end.

Lemma result_bind_ok {E A B} (f : A -> Result E B) a : (Ok a ≫= f) = f a.
Proof. done. Qed.

Lemma result_bind_Ok_inv {E A B} (m : Result E A) (f : A -> Result E B) b :
  m ≫= f = Ok b -> exists a, m = Ok a /\ f a = Ok b.
Proof. destruct m; [eauto|discriminate]. Qed.

Lemma ok_or_Ok_inv {E A} (o : option A) (e : E) a : ok_or o e = Ok a -> o = Some a.
Proof. destruct o; simpl; congruence. Qed.

(** A loop with [?] in its body: [try_fold f l a] runs [f] over [l] in order and
  stops at the first error. *)
Fixpoint try_fold {E A B} (f : B -> A -> Result E B) (l : list A) (b : B) : Result E B :=
  match l with
  | [] => Ok b
  | a :: l => b ← f b a; try_fold f l b
  end.

(** [try_map f l]: collect [f] over [l] into [Result<Vec<_>, _>]. *)
Fixpoint try_map {E A B} (f : A -> Result E B) (l : list A) : Result E (list B) :=
  match l with
  | [] => Ok []
  | a :: l => b ← f a; bs ← try_map f l; Ok (b :: bs)
  end.

Lemma try_fold_app {E A B} (f : B -> A -> Result E B) l1 l2 b :
  try_fold f (l1 ++ l2) b = b ← try_fold f l1 b; try_fold f l2 b.
Proof. revert b. induction l1 as [|a l1 IH]; intros b; simpl; [done|].
  destruct (f b a); simpl; auto. Qed.

Lemma try_map_Forall2 {E A B} (f : A -> Result E B) l l' :
  try_map f l = Ok l' <-> Forall2 (fun a b => f a = Ok b) l l'.
Proof.
  revert l'. induction l as [|a l IH]; intros l'; simpl.
  - split; [intros [= <-]; constructor|]. by inversion 1.
  - split.
    + intros (b & Hb & H)%result_bind_Ok_inv.
      apply result_bind_Ok_inv in H as (bs & Hbs & [= <-]).
      constructor; [done|]. by apply IH.
    + inversion_clear 1 as [|? b ? bs Hb Hbs]. rewrite Hb. simpl.
      apply IH in Hbs. by rewrite Hbs.
Qed.

(** ** Slices

  Offsets into byte slices are [Z] (a [usize] or a [u64] cast to one); [zlen] is
  [.len()] and [zslice bs a n] is [&bs[a..a + n]].  The code checks bounds before
  it slices, and so do the definitions that use these. *)

Definition zlen {A} (l : list A) : Z := Z.of_nat (length l).
Definition zdrop {A} (n : Z) (l : list A) : list A := drop (Z.to_nat n) l.
Definition ztake {A} (n : Z) (l : list A) : list A := take (Z.to_nat n) l.
Definition zslice {A} (l : list A) (a n : Z) : list A := ztake n (zdrop a l).

Lemma zlen_nonneg {A} (l : list A) : 0 <= zlen l.
Proof. unfold zlen. lia. Qed.

Lemma zlen_app {A} (l k : list A) : zlen (l ++ k) = zlen l + zlen k.
Proof. unfold zlen. rewrite length_app. lia. Qed.

Lemma zlen_nil {A} : zlen (@nil A) = 0.
Proof. done. Qed.

Lemma zlen_cons {A} (a : A) l : zlen (a :: l) = 1 + zlen l.
Proof. unfold zlen. simpl. lia. Qed.

Lemma zlen_replicate {A} n (a : A) : zlen (replicate n a) = Z.of_nat n.
Proof. unfold zlen. by rewrite length_replicate. Qed.

Lemma zlen_le_bytes n z : zlen (le_bytes n z) = Z.of_nat n.
Proof. unfold zlen. by rewrite length_le_bytes. Qed.

Lemma zlen_be_bytes n z : zlen (be_bytes n z) = Z.of_nat n.
Proof. unfold zlen. by rewrite length_be_bytes. Qed.

Lemma zlen_zslice {A} (l : list A) a n :
  0 <= a -> 0 <= n -> a + n <= zlen l -> zlen (zslice l a n) = n.
Proof.
  unfold zlen, zslice, ztake, zdrop. intros.
  rewrite length_take, length_drop. lia.
Qed.

Lemma zslice_app_l {A} (l k : list A) a n :
  0 <= a -> 0 <= n -> a + n <= zlen l -> zslice (l ++ k) a n = zslice l a n.
Proof.
  unfold zlen, zslice, ztake, zdrop. intros.
  rewrite drop_app_le by lia. rewrite take_app_le; [done|].
  rewrite length_drop. lia.
Qed.

Lemma zslice_app_r {A} (l k : list A) a n :
  zlen l <= a -> zslice (l ++ k) a n = zslice k (a - zlen l) n.
Proof.
  unfold zlen, zslice, ztake, zdrop. intros.
  rewrite drop_app_ge by lia. do 2 f_equal. lia.
Qed.

Lemma zslice_all {A} (l : list A) : zslice l 0 (zlen l) = l.
Proof.
  unfold zlen, zslice, ztake, zdrop. rewrite Nat2Z.id. simpl.
  by rewrite drop_0, firstn_all.
Qed.

(** The middle of a concatenation, the shape every layout lemma uses. *)
Lemma zslice_mid {A} (l m k : list A) :
  zslice (l ++ m ++ k) (zlen l) (zlen m) = m.
Proof.
  rewrite zslice_app_r by lia. rewrite Z.sub_diag.
  rewrite zslice_app_l; [apply zslice_all|lia|apply zlen_nonneg|lia].
Qed.

Lemma zslice_zslice {A} (l : list A) a n b m :
  0 <= a -> 0 <= b -> 0 <= m -> b + m <= n ->
  zslice (zslice l a n) b m = zslice l (a + b) m.
Proof.
  unfold zslice, ztake, zdrop. intros.
  rewrite skipn_firstn_comm, drop_drop, take_take.
  f_equal; [lia|]. f_equal. lia.
Qed.

(** ** Rows of equal width *)

Lemma zlen_concat_rows (rows : list bytes) w :
  Forall (fun r => zlen r = w) rows -> zlen (concat rows) = w * zlen rows.
Proof.
  induction 1 as [|r rows Hr _ IH]; [by rewrite Z.mul_comm|].
  rewrite concat_cons, zlen_app, IH, zlen_cons, Hr. lia.
Qed.

Lemma concat_row (rows : list bytes) w i r :
  Forall (fun r => zlen r = w) rows -> rows !! i = Some r ->
  exists post, concat rows = concat (take i rows) ++ r ++ post /\
    zlen (concat (take i rows)) = w * Z.of_nat i.
Proof.
  intros Hw Hi. exists (concat (drop (S i) rows)). split.
  - rewrite <- (take_drop_middle rows i r Hi) at 1. by rewrite concat_app, concat_cons.
  - rewrite (zlen_concat_rows _ w) by by apply Forall_take. unfold zlen.
    rewrite length_take. apply lookup_lt_Some in Hi. f_equal. lia.
Qed.

(** ** Stable sorting

  [slice::sort_by_key] is stable; so is insertion before the first strictly
  larger element. *)

Section sort_by.
Context {A : Type} (le : A -> A -> bool).

Fixpoint insert_by (a : A) (l : list A) : list A :=
  match l with
  | [] => [a]
  | b :: l' => if le a b then a :: l else b :: insert_by a l'
  end.

Definition sort_by (l : list A) : list A := foldr insert_by [] l.

Lemma insert_by_perm a l : insert_by a l ≡ₚ a :: l.
Proof.
  induction l as [|b l IH]; simpl; [done|]. destruct (le a b); [done|].
  rewrite IH. apply Permutation_swap.
Qed.

Lemma sort_by_perm l : sort_by l ≡ₚ l.
Proof. induction l as [|a l IH]; simpl; [done|]. by rewrite insert_by_perm, IH. Qed.

Hypothesis le_total : forall a b, le a b = false -> le b a = true.
Hypothesis le_trans : forall a b c, le a b = true -> le b c = true -> le a c = true.

Lemma insert_by_sorted a l :
  StronglySorted (fun x y => le x y = true) l ->
  StronglySorted (fun x y => le x y = true) (insert_by a l).
Proof.
  induction 1 as [|b l Hl IH Hb]; simpl; [by repeat constructor|].
  destruct (le a b) eqn:E.
  - repeat constructor; auto. eapply Forall_impl; [exact Hb|]. eauto.
  - constructor; [done|]. rewrite insert_by_perm. constructor; eauto.
Qed.

Lemma sort_by_sorted l : StronglySorted (fun x y => le x y = true) (sort_by l).
Proof. induction l; simpl; [constructor|]. by apply insert_by_sorted. Qed.
End sort_by.

(** [Vec::dedup]. *)
Fixpoint dedup_runs {A} `{EqDecision A} (l : list A) : list A :=
  match l with
  | [] => []
  | x :: rest =>
      match rest with
      | [] => [x]
      | y :: _ => if decide (x = y) then dedup_runs rest else x :: dedup_runs rest
      end
  end.

(** An already sorted list is left alone. *)
Lemma sort_by_id {A} (le : A -> A -> bool) l :
  StronglySorted (fun x y => le x y = true) l -> sort_by le l = l.
Proof.
  induction 1 as [|a l Hl IH Ha]; [done|].
  change (insert_by le a (sort_by le l) = a :: l). rewrite IH. destruct Ha as [|b l' Hab]; simpl; [done|].
  by rewrite Hab.
Qed.

(** Filtering a sorted list, and filtering what was sorted. *)
Lemma Forall_filter_keep {A} (P Q : A -> Prop) `{!forall x, Decision (Q x)} l :
  Forall P l -> Forall P (filter Q l).
Proof. rewrite !Forall_forall. intros HP x [_ Hx]%list_elem_of_filter. auto. Qed.

Lemma StronglySorted_filter {A} (R : A -> A -> Prop) (Q : A -> Prop)
    `{!forall x, Decision (Q x)} l :
  StronglySorted R l -> StronglySorted R (filter Q l).
Proof.
  induction 1 as [|a l Hl IH Ha]; [constructor|]. rewrite filter_cons.
  case_decide; [|done]. constructor; [done|]. by apply Forall_filter_keep.
Qed.

Lemma filter_nil_Forall {A} (Q : A -> Prop) `{!forall x, Decision (Q x)} l :
  Forall (fun x => ~ Q x) l -> filter Q l = [].
Proof. induction 1; [done|]. by rewrite filter_cons_False. Qed.

Lemma filter_all_Forall {A} (Q : A -> Prop) `{!forall x, Decision (Q x)} l :
  Forall Q l -> filter Q l = l.
Proof. induction 1; [done|]. rewrite filter_cons_True by done. by f_equal. Qed.

Lemma StronglySorted_lookup_lt {A} (R : A -> A -> Prop) l i j a b :
  StronglySorted R l -> l !! i = Some a -> l !! j = Some b -> (i < j)%nat -> R a b.
Proof.
  intros Hs. revert i j. induction Hs as [|x l Hl IH Hx]; intros i j Hi Hj Hij; [done|].
  destruct j as [|j]; [lia|]. simpl in Hj. destruct i as [|i]; simpl in Hi; simplify_eq.
  - rewrite Forall_forall in Hx. by apply Hx, list_elem_of_lookup_2 with j.
  - eapply IH; eauto. lia.
Qed.

Section filter_sort_by.
Context {A : Type} (le : A -> A -> bool) (Q : A -> Prop) `{!forall x, Decision (Q x)}.
Hypothesis le_total : forall a b, le a b = false -> le b a = true.
Hypothesis le_trans : forall a b c, le a b = true -> le b c = true -> le a c = true.

Lemma filter_insert_by a l :
  StronglySorted (fun x y => le x y = true) l ->
  filter Q (insert_by le a l) = if decide (Q a) then insert_by le a (filter Q l) else filter Q l.
Proof using le_trans.
  induction 1 as [|b l Hl IH Hb]; simpl; [by rewrite filter_cons|].
  destruct (le a b) eqn:E; rewrite !filter_cons.
  - case_decide; [|done]. case_decide; simpl; [by rewrite E|].
    assert (Forall (fun c => le a c = true) (filter Q l)) as Ha.
    { apply Forall_filter_keep. eapply Forall_impl; [exact Hb|]. eauto. }
    destruct Ha as [|c l' Hc]; simpl; [done|]. by rewrite Hc.
  - rewrite IH. repeat case_decide; simpl; rewrite ?E; done.
Qed.

Lemma filter_sort_by l : filter Q (sort_by le l) = sort_by le (filter Q l).
Proof using le_total le_trans.
  induction l as [|a l IH]; [done|].
  change (sort_by le (a :: l)) with (insert_by le a (sort_by le l)).
  rewrite filter_insert_by by (by apply sort_by_sorted).
  rewrite filter_cons, IH. by case_decide.
Qed.
End filter_sort_by.

(** ** Automation *)

(** Split a chain of [?]s that returned [Ok]. *)
Ltac invert_ok :=
  repeat match goal with
  | H : Ok _ = Ok _ |- _ => injection H as H; try subst
  | H : Err _ = Ok _ |- _ => discriminate H
  | H : Ok _ = Err _ |- _ => discriminate H
  | H : (_ ≫= _) = Ok _ |- _ =>
      apply result_bind_Ok_inv in H; destruct H as (? & ? & ?)
  | H : ok_or _ _ = Ok _ |- _ => apply ok_or_Ok_inv in H
  end.

(** Lengths of concatenations, and offsets inside them. *)
Create Rewrite HintDb zlen.
#[export] Hint Rewrite @zlen_app @zlen_cons @zlen_nil @zlen_replicate
  zlen_le_bytes zlen_be_bytes : zlen.
Ltac zlen_solve := autorewrite with zlen; lia.
