(* ===== verification/Lin.v ===== *)
(** * The linearizability checker ([disttest/src/lin/mod.rs])

  The data of a recorded history, the sequential key/value model, the
  Wing-Gong/Lowe search with its memo table, bitmap and budget, the per-key
  check with its bisection for the smallest impossible prefix, and the check of
  a whole history.  The search keeps the mutable fields of [struct Search] in a
  record that every step passes on; its recursion is bounded by fuel, [None]
  meaning that the fuel ran out (LinSearch.v shows that it never does). *)

From S2P Require Import Prelude.

(** ** Operations, answers and histories *)

Inductive Op : Type :=
| Read
| Write (v : bytes)
| Delete
| Cas (expect : option bytes) (new : bytes).

Inductive Outcome : Type :=
| Value (v : option bytes)
| OkAck
| Swapped (held : bool)
| Unknown.

Record Entry : Type := mkEntry {
  id : nat;
  client : nat;
  key : bytes;
  op : Op;
  outcome : Outcome;
  call_ns : Z;
  ret_ns : Z;
  note : bytes
}.

#[global] Instance Op_eq_dec : EqDecision Op.
Proof. solve_decision. Defined.
#[global] Instance Outcome_eq_dec : EqDecision Outcome.
Proof. solve_decision. Defined.
#[global] Instance Entry_eq_dec : EqDecision Entry.
Proof. solve_decision. Defined.

Definition is_unknown (e : Entry) : bool := bool_decide (outcome e = Unknown).

Definition set_id (n : nat) (e : Entry) : Entry :=
  mkEntry n (client e) (key e) (op e) (outcome e) (call_ns e) (ret_ns e) (note e).

(** [struct History] has the one field [entries]. *)
Abbreviation History := (list Entry).

Definition is_value (o : Outcome) : bool := match o with Value _ => true | _ => false end.
Definition is_ack (o : Outcome) : bool := match o with OkAck | Swapped _ => true | _ => false end.

Definition answered_reads (h : History) : nat := length (filter (fun e => is_value (outcome e)) h).

Definition acknowledged_updates (h : History) : nat :=
  length (filter (fun e => is_ack (outcome e)) h).

Definition push (h : History) (e : Entry) : History := h ++ [set_id (length h) e].

Definition unknowns (h : History) : nat := length (filter (fun e => is_unknown e) h).

Definition for_key (h : History) (k : bytes) : list Entry := filter (fun e => key e = k) h.

(** [keys]: every key once, in first-seen order; [seen] is the [HashSet]. *)
Fixpoint keys_from (seen : gset bytes) (h : History) : list bytes :=
  match h with
  | [] => []
  | e :: h =>
      if decide (key e ∈ seen) then keys_from seen h
      else key e :: keys_from ({[ key e ]} ∪ seen) h
  end.

Definition keys (h : History) : list bytes := keys_from ∅ h.

Definition per_key_counts (h : History) : gmap bytes nat :=
  foldl (fun m e => <[ key e := S (default 0%nat (m !! key e)) ]> m) ∅ h.

(** [Recorder::entry]; the clock values are arguments. *)
Definition recorder_entry (client : nat) (key : bytes) (op : Op) (outcome : Outcome)
    (call_ns ret_ns : Z) (note : bytes) : Entry :=
  mkEntry 0 client key op outcome call_ns
    (if bool_decide (outcome = Unknown) then U64_MAX else ret_ns) note.

(** ** The sequential model of one key *)

Abbreviation State := (option bytes).

Definition step (state : State) (e : Entry) : option State :=
  match op e, outcome e with
  | Read, Value v => if decide (state = v) then Some state else None
  | Read, Unknown => Some state
  | Write v, (OkAck | Unknown) => Some (Some v)
  | Delete, (OkAck | Unknown) => Some None
  | Cas expect new, Swapped true => if decide (state = expect) then Some (Some new) else None
  | Cas expect _, Swapped false => if decide (state <> expect) then Some state else None
  | Cas expect new, Unknown => Some (if decide (state = expect) then Some new else state)
  | _, _ => None
  end.

(** ** The search *)

Record Search : Type := mkSearch {
  remaining : list bool;
  mask : list Z;
  order : list nat;
  seen : gset (list Z * State);
  states : Z;
  budget : Z;
  exhausted_budget : bool;
  best_attempt : list nat;
  best_state : option State;
  known_left : nat
}.

Definition new_search (entries : list Entry) (budget : Z) : Search :=
  {| remaining := replicate (length entries) true;
     mask := replicate (Nat.max ((length entries + 63) / 64) 1) 0;
     order := [];
     seen := ∅;
     states := 0;
     budget := budget;
     exhausted_budget := false;
     best_attempt := [];
     best_state := None;
     known_left := length (filter (fun e => is_unknown e = false) entries) |}.

Definition set_linearized (i : nat) (linearized : bool) (s : Search) : Search :=
  {| remaining := <[ i := negb linearized ]> (remaining s);
     mask := alter (fun w => let bit := Z.shiftl 1 (Z.of_nat (i mod 64)) in
                             if linearized then Z.lor w bit else Z.ldiff w bit)
                   (i / 64)%nat (mask s);
     order := order s; seen := seen s; states := states s; budget := budget s;
     exhausted_budget := exhausted_budget s; best_attempt := best_attempt s;
     best_state := best_state s; known_left := known_left s |}.

(** The assignments of [recurse] before its loop. *)
Definition exhaust (s : Search) : Search :=
  {| remaining := remaining s; mask := mask s; order := order s; seen := seen s;
     states := states s; budget := budget s; exhausted_budget := true;
     best_attempt := best_attempt s; best_state := best_state s;
     known_left := known_left s |}.

Definition count_state (s : Search) : Search :=
  {| remaining := remaining s; mask := mask s; order := order s; seen := seen s;
     states := states s + 1; budget := budget s; exhausted_budget := exhausted_budget s;
     best_attempt := best_attempt s; best_state := best_state s;
     known_left := known_left s |}.

Definition remember (state : State) (s : Search) : Search :=
  {| remaining := remaining s; mask := mask s; order := order s;
     seen := {[ (mask s, state) ]} ∪ seen s;
     states := states s; budget := budget s; exhausted_budget := exhausted_budget s;
     best_attempt := best_attempt s; best_state := best_state s;
     known_left := known_left s |}.

Definition record_best (state : State) (s : Search) : Search :=
  if decide (length (best_attempt s) < length (order s))%nat then
    {| remaining := remaining s; mask := mask s; order := order s; seen := seen s;
       states := states s; budget := budget s; exhausted_budget := exhausted_budget s;
       best_attempt := order s; best_state := Some state;
       known_left := known_left s |}
  else s.

(** The bookkeeping around the recursive call: push and pop of one choice. *)
Definition choose (i : nat) (e : Entry) (s : Search) : Search :=
  let s := set_linearized i true s in
  {| remaining := remaining s; mask := mask s; order := order s ++ [id e]; seen := seen s;
     states := states s; budget := budget s; exhausted_budget := exhausted_budget s;
     best_attempt := best_attempt s; best_state := best_state s;
     known_left := if is_unknown e then known_left s else pred (known_left s) |}.

Definition unchoose (i : nat) (e : Entry) (s : Search) : Search :=
  set_linearized i false
  {| remaining := remaining s; mask := mask s; order := removelast (order s); seen := seen s;
     states := states s; budget := budget s; exhausted_budget := exhausted_budget s;
     best_attempt := best_attempt s; best_state := best_state s;
     known_left := if is_unknown e then known_left s else S (known_left s) |}.

(** The smallest return instant among the operations not yet linearized. *)
Definition min_ret (entries : list Entry) (remaining : list bool) : Z :=
  match ret_ns <$> (fst <$> filter (fun p => p.2 = true) (zip entries remaining)) with
  | [] => U64_MAX
  | r :: rs => foldl Z.min r rs
  end.

(** The [for] loop of [recurse]: [rec] is the recursive call, [m] is [min_ret]. *)
Section candidates.
Context (rec : Search -> State -> option (bool * Search)) (m : Z) (state : State).

Fixpoint try_candidates (cands : list (nat * Entry)) (s : Search) : option (bool * Search) :=
  match cands with
  | [] => Some (false, s)
  | (i, e) :: cands =>
      if decide (remaining s !! i = Some true) then
        if decide (m < call_ns e) then try_candidates cands s
        else
          match step state e with
          | None => try_candidates cands s
          | Some next =>
              match rec (choose i e s) next with
              | None => None
              | Some (true, s) => Some (true, s)
              | Some (false, s) =>
                  let s := unchoose i e s in
                  if exhausted_budget s then Some (false, s) else try_candidates cands s
              end
          end
      else try_candidates cands s
  end.
End candidates.

Definition enumerate {A} (l : list A) : list (nat * A) := imap (fun i x => (i, x)) l.

Fixpoint recurse (fuel : nat) (entries : list Entry) (s : Search) (state : State)
    : option (bool * Search) :=
  match fuel with
  | O => None
  | S fuel =>
      if decide (known_left s = 0%nat) then Some (true, s)
      else if decide (budget s <= states s) then Some (false, exhaust s)
      else
        let s := count_state s in
        if decide ((mask s, state) ∈ seen s) then Some (false, s)
        else
          let s := record_best state (remember state s) in
          try_candidates (recurse fuel entries) (min_ret entries (remaining s)) state
            (enumerate entries) s
  end.

(** One more level than there are operations. *)
Definition search_fuel (entries : list Entry) : nat := S (length entries).

Definition run (entries : list Entry) (s : Search) : option (bool * Search) :=
  match entries with
  | [] => Some (true, s)
  | _ => recurse (search_fuel entries) entries s None
  end.

(** ** Verdicts *)

Record Violation : Type := mkViolation {
  v_key : bytes;
  v_entries : list Entry;
  v_culprit : Entry;
  v_best_attempt : list nat;
  v_best_state : State;
  v_states : Z
}.

Inductive Verdict : Type :=
| Linearizable
| NotLinearizable (v : Violation)
| Inconclusive (key : bytes) (states : Z).

Definition verdict_ok (v : Verdict) : bool :=
  match v with NotLinearizable _ => false | _ => true end.

Definition DEFAULT_BUDGET : Z := 400000.

(** ** The history at an instant *)

(** An operation still in flight at [t] becomes one with no answer. *)
Definition cut_entry (t : Z) (e : Entry) : Entry :=
  if decide (t < ret_ns e) then
    mkEntry (id e) (client e) (key e) (op e) Unknown (call_ns e) U64_MAX (note e)
  else e.

Definition prefix_at (entries : list Entry) (t : Z) : list Entry * list Entry :=
  let shown := filter (fun e => call_ns e <= t) entries in
  (shown, cut_entry t <$> shown).

(** ** One key *)

(** [(ret_ns, index)] of every answered operation, sorted. *)
Definition ret_le (a b : Z * nat) : bool :=
  bool_decide (a.1 < b.1 \/ (a.1 = b.1 /\ (a.2 <= b.2)%nat)).

Definition sorted_returns (entries : list Entry) : list (Z * nat) :=
  sort_by ret_le
    ((fun p => (ret_ns p.2, p.1)) <$> filter (fun p => is_unknown p.2 = false) (enumerate entries)).

Abbreviation Best := (nat * list Entry * list nat * State)%type.

(** The [while lo < hi] loop; every turn shrinks [hi - lo], so that difference is
  enough fuel.  [None] is an index out of range or a search without fuel. *)
Fixpoint bisect (fuel : nat) (entries : list Entry) (budget : Z) (returns : list (Z * nat))
    (lo hi : nat) (best : option Best) : option (option Best) :=
  if decide (lo < hi)%nat then
    match fuel with
    | O => None
    | S fuel =>
        let mid := (lo + (hi - lo) / 2)%nat in
        '(t, culprit) ← returns !! mid;
        let '(shown, searched) := prefix_at entries t in
        '(ok, s) ← run searched (new_search searched budget);
        if negb ok && negb (exhausted_budget s) then
          bisect fuel entries budget returns lo mid
            (Some (culprit, shown, best_attempt s, mjoin (best_state s)))
        else bisect fuel entries budget returns (S mid) hi best
    end
  else Some best.

(** [sort_by_key(|e| (e.ret_ns, e.call_ns, e.id))]. *)
Definition entry_le (a b : Entry) : bool :=
  bool_decide (ret_ns a < ret_ns b \/
    (ret_ns a = ret_ns b /\ (call_ns a < call_ns b \/
      (call_ns a = call_ns b /\ (id a <= id b)%nat)))).

Definition check_one_key (key : bytes) (entries : list Entry) (budget : Z) : option Verdict :=
  '(ok, search) ← run entries (new_search entries budget);
  if (ok : bool) then Some Linearizable
  else if exhausted_budget search then Some (Inconclusive key (states search))
  else
    let returns := sorted_returns entries in
    best ← bisect (length returns) entries budget returns 0 (length returns) None;
    match best with
    | Some (culprit, shown, best_attempt, best_state) =>
        c ← entries !! culprit;
        Some (NotLinearizable (mkViolation key shown c best_attempt best_state (states search)))
    | None =>
        let by_return := sort_by entry_le entries in
        c ← (match last by_return with Some c => Some c | None => entries !! 0%nat end);
        Some (NotLinearizable (mkViolation key by_return c (best_attempt search)
                (mjoin (best_state search)) (states search)))
    end.

(** ** A whole history *)

Fixpoint check_keys (h : History) (budget : Z) (ks : list bytes) (undecided : option Verdict)
    : option Verdict :=
  match ks with
  | [] => Some (default Linearizable undecided)
  | k :: ks =>
      v ← check_one_key k (for_key h k) budget;
      match v with
      | Linearizable => check_keys h budget ks undecided
      | Inconclusive _ _ =>
          check_keys h budget ks
            (match undecided with None => Some v | Some u => Some u end)
      | NotLinearizable _ => Some v
      end
  end.

Definition check_with_budget (h : History) (budget : Z) : option Verdict :=
  check_keys h budget (keys h) None.

Definition check (h : History) : option Verdict := check_with_budget h DEFAULT_BUDGET.
