(* ===== verification/LinSearch.v ===== *)
(** * Linearizability, and the search that decides it

  The definition is the one the checker's documentation states: every answered
  operation is placed at an instant inside its own call/return window, an operation
  with no answer is placed or left out, and a sequential store run in the order of
  the instants gives the answers the clients saw.  It is stated for an arbitrary
  store, and used at one key ([step]) and at a whole key/value map ([step_kv]).  The
  property is local, and lost for good: an instant after an impossible one is
  impossible.  The second half shows that the memoised search with its bitmap and
  budget decides it. *)

From S2P Require Import Prelude Lin.

(** A recorded entry: windows are not empty, and no answer means no return. *)
Definition wf_entry (e : Entry) : Prop :=
  0 <= call_ns e <= ret_ns e /\ ret_ns e <= U64_MAX /\
  (is_unknown e -> ret_ns e = U64_MAX).

Definition window (p : Entry * Z) : Prop := call_ns p.1 <= p.2 <= ret_ns p.1.

Section placement.
Context {S : Type} (stp : S -> Entry -> option S).

Fixpoint exec (s : S) (l : list Entry) : option S :=
  match l with
  | [] => Some s
  | e :: l => s' ← stp s e; exec s' l
  end.

(** [placement s entries pl dropped]: [pl] gives an instant to every operation
  that is linearized, [dropped] are the ones left out. *)
Record placement (s : S) (entries : list Entry) (pl : list (Entry * Z))
    (dropped : list Entry) : Prop := {
  pl_all : entries ≡ₚ pl.*1 ++ dropped;
  pl_dropped : Forall (fun e => is_unknown e) dropped;
  pl_window : Forall window pl;
  pl_sorted : StronglySorted Z.le pl.*2;
  pl_exec : is_Some (exec s pl.*1)
}.

Definition linearizable_from (s : S) (entries : list Entry) : Prop :=
  exists pl dropped, placement s entries pl dropped.
End placement.

Definition linearizable (entries : list Entry) : Prop := linearizable_from step None entries.

(** The sequential key/value store of a whole history. *)
Definition step_kv (m : gmap bytes bytes) (e : Entry) : option (gmap bytes bytes) :=
  (fun v => partial_alter (fun _ => v) (key e) m) <$> step (m !! key e) e.

Definition hist_linearizable (h : History) : Prop := linearizable_from step_kv ∅ h.

(** ** Executions *)

Lemma exec_app {S} (stp : S -> Entry -> option S) s l k :
  exec stp s (l ++ k) = s' ← exec stp s l; exec stp s' k.
Proof.
  revert s. induction l as [|e l IH]; intros s; simpl; [done|].
  destruct (stp s e); simpl; auto.
Qed.

Lemma exec_prefix {S} (stp : S -> Entry -> option S) s l k :
  is_Some (exec stp s (l ++ k)) -> is_Some (exec stp s l).
Proof. rewrite exec_app. destruct (exec stp s l); simpl; [eauto|done]. Qed.

(** An answer that was lost accepts whatever the answer accepted. *)
Lemma step_cut t s e s' : step s e = Some s' -> step s (cut_entry t e) = Some s'.
Proof.
  unfold cut_entry. case_decide; [|done]. unfold step. simpl.
  destruct (op e), (outcome e) as [| |[]|]; simpl; try done;
    repeat case_decide; done.
Qed.

Lemma exec_cut t s l s' : exec step s l = Some s' -> exec step s (cut_entry t <$> l) = Some s'.
Proof.
  revert s. induction l as [|e l IH]; intros s; simpl; [done|].
  intros (s1 & He & Hl)%bind_Some. rewrite (step_cut t s e s1 He). simpl. auto.
Qed.

(** ** Locality *)

Definition on_key (k : bytes) (l : list (Entry * Z)) : list (Entry * Z) :=
  filter (fun p => key p.1 = k) l.

Lemma on_key_fst k l : (on_key k l).*1 = for_key l.*1 k.
Proof.
  unfold on_key, for_key. induction l as [|[e t] l IH]; [done|].
  rewrite filter_cons, fmap_cons, filter_cons. simpl. case_decide; by rewrite ?fmap_cons, IH.
Qed.

Lemma exec_kv_on_key k m l m' :
  exec step_kv m l = Some m' -> exec step (m !! k) (for_key l k) = Some (m' !! k).
Proof.
  revert m. induction l as [|e l IH]; intros m; simpl; [by intros [= ->]|].
  intros (m1 & He & Hl)%bind_Some. unfold for_key. rewrite filter_cons.
  unfold step_kv in He. apply fmap_Some in He as (v & Hv & ->).
  apply IH in Hl. case_decide as Hk.
  - subst k. simpl. rewrite Hv. simpl. by rewrite lookup_partial_alter_eq in Hl.
  - by rewrite lookup_partial_alter_ne in Hl.
Qed.

Lemma exec_kv_from_keys m l :
  (forall k, is_Some (exec step (m !! k) (for_key l k))) -> is_Some (exec step_kv m l).
Proof.
  revert m. induction l as [|e l IH]; intros m Hk; simpl; [eauto|].
  pose proof (Hk (key e)) as [s' He]. unfold for_key in He.
  rewrite filter_cons_True in He by done. simpl in He.
  apply bind_Some in He as (v & Hv & Hrest).
  assert (step_kv m e = Some (partial_alter (fun _ => v) (key e) m)) as ->
    by (unfold step_kv; by rewrite Hv).
  simpl. apply IH. intros k.
  destruct (decide (key e = k)) as [<-|Hne].
  - rewrite lookup_partial_alter_eq. eauto.
  - rewrite lookup_partial_alter_ne by done. specialize (Hk k).
    unfold for_key in Hk. by rewrite filter_cons_False in Hk.
Qed.

Lemma on_key_sorted k l : StronglySorted Z.le l.*2 -> StronglySorted Z.le (on_key k l).*2.
Proof.
  unfold on_key. induction l as [|[e t] l IH]; [constructor|]. csimpl.
  intros [Hs Ht]%StronglySorted_inv. rewrite filter_cons.
  case_decide; [|auto]. csimpl. constructor; [auto|].
  rewrite Forall_fmap in *. by apply Forall_filter_keep.
Qed.

Lemma on_key_app k l l' : on_key k (l ++ l') = on_key k l ++ on_key k l'.
Proof. apply filter_app. Qed.

Lemma hist_linearizable_for_key h k :
  hist_linearizable h -> linearizable (for_key h k).
Proof.
  intros (pl & d & [Hall Hd Hw Hs [m' Hx]]).
  exists (on_key k pl), (for_key d k). split.
  - rewrite on_key_fst. unfold for_key. by rewrite <- filter_app, Hall.
  - by apply Forall_filter_keep.
  - by apply Forall_filter_keep.
  - by apply on_key_sorted.
  - apply exec_kv_on_key with (k := k) in Hx. rewrite on_key_fst.
    rewrite lookup_empty in Hx. eauto.
Qed.

Definition on_keys (ks : list bytes) (h : History) : list Entry := filter (fun e => key e ∈ ks) h.

Lemma on_keys_cons k ks h :
  k ∉ ks -> on_keys (k :: ks) h ≡ₚ for_key h k ++ on_keys ks h.
Proof.
  intros Hk. unfold on_keys, for_key. induction h as [|e h IH]; [done|].
  rewrite !filter_cons.
  destruct (decide (key e = k)) as [->|Hne].
  - rewrite decide_True by (rewrite elem_of_cons; auto). rewrite decide_False by done. simpl. by rewrite IH.
  - destruct (decide (key e ∈ ks)).
    + rewrite decide_True by (rewrite elem_of_cons; auto). rewrite IH. apply Permutation_middle.
    + rewrite decide_False by (rewrite elem_of_cons; intuition congruence). done.
Qed.

Lemma on_key_none k pl : Forall (fun p => key p.1 <> k) pl -> on_key k pl = [].
Proof. apply filter_nil_Forall. Qed.

Lemma on_key_id k pl : Forall (fun p => key p.1 = k) pl -> on_key k pl = pl.
Proof. apply filter_all_Forall. Qed.

Lemma placed_Forall {S} (stp : S -> Entry -> option S) (P : Entry -> Prop) s entries pl d :
  placement stp s entries pl d -> Forall P entries -> Forall (fun p => P p.1) pl.
Proof.
  intros [Hall _ _ _ _]. rewrite Hall, Forall_app, Forall_fmap. by intros [? _].
Qed.

Lemma for_key_key h k : Forall (fun e => key e = k) (for_key h k).
Proof. apply Forall_forall. by intros e [? _]%list_elem_of_filter. Qed.

(** Placements of the single keys, side by side. *)
Record side_by_side (ks : list bytes) (h : History) (pl : list (Entry * Z))
    (d : list Entry) : Prop := {
  sbs_all : on_keys ks h ≡ₚ pl.*1 ++ d;
  sbs_dropped : Forall (fun e => is_unknown e) d;
  sbs_window : Forall window pl;
  sbs_keys : Forall (fun p => key p.1 ∈ ks) pl;
  sbs_each k : StronglySorted Z.le (on_key k pl).*2 /\ is_Some (exec step None (on_key k pl).*1)
}.

Lemma side_by_side_keys ks h :
  NoDup ks -> (forall k, k ∈ ks -> linearizable (for_key h k)) ->
  exists pl d, side_by_side ks h pl d.
Proof.
  induction ks as [|k ks IH]; intros Hnd Hlin.
  { exists [], []. split; try constructor; try by constructor; simpl.
    - rewrite app_nil_r. unfold on_keys. apply reflexive_eq, filter_nil_Forall.
      apply Forall_forall. intros e _. apply not_elem_of_nil. 
    - eauto. }
  apply NoDup_cons in Hnd as [Hk Hnd].
  destruct IH as (pl & d & [Hall Hd Hw Hks Heach]);
    [done|intros; apply Hlin, elem_of_cons; auto|].
  destruct (Hlin k) as (pl1 & d1 & Hpl1); [apply elem_of_cons; auto|].
  pose proof (placed_Forall _ _ _ _ _ _ Hpl1 (for_key_key h k)) as Hk1.
  destruct Hpl1 as [Hall1 Hd1 Hw1 Hs1 Hx1].
  exists (pl1 ++ pl), (d1 ++ d). split.
  - rewrite on_keys_cons, Hall, Hall1, fmap_app by done. solve_Permutation.
  - by apply Forall_app.
  - by apply Forall_app.
  - apply Forall_app. split; (eapply Forall_impl; [eassumption|]);
      intros p Hp; simpl in *; apply elem_of_cons; auto.
  - intros k'. rewrite on_key_app. destruct (decide (k' = k)) as [->|Hne].
    + rewrite (on_key_id k pl1), (on_key_none k pl), app_nil_r; [done| |done].
      eapply Forall_impl; [exact Hks|]. simpl. intros p Hp E. by rewrite E in Hp.
    + rewrite (on_key_none k' pl1); [apply Heach|].
      eapply Forall_impl; [exact Hk1|]. simpl. intros p Hp. congruence.
Qed.

Definition instant_le (p q : Entry * Z) : bool := bool_decide (p.2 <= q.2).

Lemma instant_le_total p q : instant_le p q = false -> instant_le q p = true.
Proof. unfold instant_le. rewrite bool_decide_eq_false, bool_decide_eq_true. lia. Qed.

Lemma instant_le_trans p q r :
  instant_le p q = true -> instant_le q r = true -> instant_le p r = true.
Proof. unfold instant_le. rewrite !bool_decide_eq_true. lia. Qed.

Lemma instants_sorted pl :
  StronglySorted (fun p q => instant_le p q = true) pl <-> StronglySorted Z.le pl.*2.
Proof.
  induction pl as [|p pl IH]; [split; constructor|]. csimpl. split.
  - intros [Hs Hp]%StronglySorted_inv. constructor; [by apply IH|].
    rewrite Forall_fmap. eapply Forall_impl; [exact Hp|].
    intros q. unfold instant_le. by rewrite bool_decide_eq_true.
  - intros [Hs Hp]%StronglySorted_inv. constructor; [by apply IH|].
    rewrite Forall_fmap in Hp. eapply Forall_impl; [exact Hp|].
    intros q. unfold instant_le. by rewrite bool_decide_eq_true.
Qed.

(** Sorting by instant interleaves the keys and keeps each key's order. *)
Lemma on_key_sort k pl :
  StronglySorted Z.le (on_key k pl).*2 -> on_key k (sort_by instant_le pl) = on_key k pl.
Proof.
  intros Hs. unfold on_key.
  rewrite (filter_sort_by instant_le _ instant_le_total instant_le_trans).
  apply sort_by_id, instants_sorted, Hs.
Qed.

(** A history is linearizable exactly when each of its keys is. *)
Lemma locality h ks :
  NoDup ks -> (forall e, e ∈ h -> key e ∈ ks) ->
  hist_linearizable h <-> (forall k, k ∈ ks -> linearizable (for_key h k)).
Proof.
  intros Hnd Hcover. split; [intros; by apply hist_linearizable_for_key|]. intros Hlin.
  destruct (side_by_side_keys ks h Hnd Hlin) as (pl & d & [Hall Hd Hw _ Heach]).
  exists (sort_by instant_le pl), d. split; [|done| | |].
  - rewrite sort_by_perm, <- Hall. unfold on_keys.
    apply reflexive_eq. symmetry. apply filter_all_Forall, Forall_forall, Hcover.
  - by rewrite sort_by_perm.
  - apply instants_sorted, sort_by_sorted; eauto using instant_le_total, instant_le_trans.
  - apply exec_kv_from_keys. intros k. rewrite lookup_empty, <- on_key_fst.
    destruct (Heach k) as [Hs Hx]. by rewrite on_key_sort.
Qed.

(** ** What was impossible stays impossible *)

Definition prefix_possible (entries : list Entry) (t : Z) : Prop :=
  linearizable (prefix_at entries t).2.

(** The part of a placement up to an instant. *)
Lemma split_at_instant (pl : list (Entry * Z)) t :
  StronglySorted Z.le pl.*2 ->
  exists before after, pl = before ++ after /\
    Forall (fun p => p.2 <= t) before /\ Forall (fun p => t < p.2) after.
Proof.
  induction pl as [|[e u] pl IH]; csimpl; [exists [], []; auto|].
  intros [Hs Hu]%StronglySorted_inv. destruct (decide (u <= t)) as [Hle|Hgt].
  - destruct IH as (b & a & -> & Hb & Ha); [done|]. exists ((e, u) :: b), a. auto.
  - exists [], ((e, u) :: pl). split; [done|]. split; [constructor|].
    constructor; [simpl; lia|]. rewrite Forall_fmap in Hu.
    eapply Forall_impl; [exact Hu|]. simpl. intros ? ?. lia.
Qed.

Lemma is_unknown_spec e : is_unknown e <-> outcome e = Unknown.
Proof. unfold is_unknown. by rewrite bool_decide_spec. Qed.

Lemma call_cut t e : call_ns (cut_entry t e) = call_ns e.
Proof. unfold cut_entry. by case_decide. Qed.

Lemma cut_unknown t e : is_unknown e -> is_unknown (cut_entry t e).
Proof. unfold cut_entry. rewrite !is_unknown_spec. by case_decide. Qed.

Lemma cut_late t e : t < ret_ns e -> is_unknown (cut_entry t e).
Proof. intros. unfold cut_entry. rewrite is_unknown_spec, decide_True by done. done. Qed.

Lemma cut_cut t t' e : wf_entry e -> t <= t' -> cut_entry t (cut_entry t' e) = cut_entry t e.
Proof.
  intros (_ & ? & _) ?. unfold cut_entry. destruct (decide (t' < ret_ns e)); [|done].
  simpl. rewrite !decide_True by lia. done.
Qed.

Lemma cut_between t t' e :
  wf_entry e -> t <= t' -> (is_unknown e \/ t' < ret_ns e \/ ret_ns e <= t) ->
  cut_entry t e = cut_entry t' e.
Proof.
  intros (? & ? & Hu) ? Hor. unfold cut_entry.
  destruct (decide (t < ret_ns e)), (decide (t' < ret_ns e)); try done; try lia.
  destruct Hor as [Hun|?]; [|lia]. specialize (Hu Hun). apply is_unknown_spec in Hun.
  destruct e; simpl in *; congruence.
Qed.

Lemma wf_cut t e : 0 <= t -> wf_entry e -> wf_entry (cut_entry t e).
Proof.
  intros Ht (? & ? & Hu). unfold cut_entry. case_decide; [|done].
  split_and!; simpl; auto; lia.
Qed.

Lemma filter_call_cut b t (l : list Entry) :
  filter (fun e => call_ns e <= b) (cut_entry t <$> l) =
  cut_entry t <$> filter (fun e => call_ns e <= b) l.
Proof.
  induction l as [|e l IH]; [done|]. rewrite fmap_cons, !filter_cons, call_cut, IH.
  by case_decide.
Qed.

Lemma prefix_at_again entries t t' :
  Forall wf_entry entries -> t <= t' ->
  (prefix_at entries t).2 =
  filter (fun e => call_ns e <= t) (cut_entry t <$> (prefix_at entries t').2).
Proof.
  intros Hwf Ht. unfold prefix_at. simpl.
  rewrite !filter_call_cut, list_filter_filter_l by (intros; lia).
  rewrite <- list_fmap_compose. apply list_fmap_ext. intros i e He. simpl.
  symmetry. apply cut_cut; [|done]. rewrite Forall_forall in Hwf. apply Hwf.
  by apply list_elem_of_lookup_2, list_elem_of_filter in He as [_ ?].
Qed.

Lemma window_cut t p : 0 <= t -> ret_ns p.1 <= U64_MAX -> window p -> window (cut_entry t p.1, p.2).
Proof.
  unfold window, cut_entry. simpl. intros ? ? [? ?]. case_decide; simpl; lia.
Qed.

(** If the history was possible at a later instant it was possible before. *)
Lemma possible_earlier entries t t' :
  Forall wf_entry entries -> 0 <= t <= t' ->
  prefix_possible entries t' -> prefix_possible entries t.
Proof.
  intros Hwf Ht (pl & d & [Hall Hd Hw Hs Hx]). unfold prefix_possible.
  assert (Forall wf_entry (prefix_at entries t').2) as Hwf'.
  { unfold prefix_at. simpl. rewrite Forall_fmap. eapply Forall_impl.
    - apply Forall_filter_keep, Hwf.
    - intros e He. apply wf_cut; [lia|done]. }
  rewrite Hall, Forall_app, Forall_fmap in Hwf'. destruct Hwf' as [Hwp Hwd].
  destruct (split_at_instant pl t Hs) as (b & a & -> & Hb & Ha).
  apply Forall_app in Hw as [Hwb Hwa], Hwp as [Hwpb Hwpa].
  exists ((fun p => (cut_entry t p.1, p.2)) <$> b),
    (filter (fun e => call_ns e <= t) (cut_entry t <$> (a.*1 ++ d))).
  split.
  - rewrite (prefix_at_again entries t t') by (done || lia). rewrite Hall.
    rewrite (fmap_app fst b a), <- app_assoc, (fmap_app _ b.*1), filter_app. apply Permutation_app_tail.
    rewrite filter_all_Forall.
    + by rewrite <- !list_fmap_compose.
    + rewrite !Forall_fmap. rewrite Forall_forall in *. intros p Hp. simpl.
      rewrite call_cut. specialize (Hb p Hp). specialize (Hwb p Hp). unfold window in Hwb. lia.
  - apply Forall_filter_keep. rewrite fmap_app, Forall_app, !Forall_fmap. split.
    + rewrite Forall_forall in *. intros p Hp. simpl. apply cut_late.
      specialize (Ha p Hp). specialize (Hwa p Hp). unfold window in Hwa. lia.
    + eapply Forall_impl; [exact Hd|]. apply cut_unknown.
  - rewrite Forall_fmap, Forall_forall in *. intros p Hp. simpl.
    apply window_cut; [lia| |auto]. apply (Hwpb p Hp).
  - rewrite <- list_fmap_compose. simpl. rewrite fmap_app in Hs.
    by apply StronglySorted_app in Hs as (_ & ? & _).
  - rewrite fmap_app in Hx. apply exec_prefix in Hx as [s' Hx].
    apply (exec_cut t) in Hx. exists s'.
    rewrite <- list_fmap_compose. by rewrite <- list_fmap_compose in Hx.
Qed.

(** Only a return can make a history impossible. *)
Lemma possible_until_return entries t t' :
  Forall wf_entry entries -> 0 <= t <= t' ->
  (forall e, e ∈ entries -> ~ is_unknown e -> ret_ns e <= t' -> ret_ns e <= t) ->
  prefix_possible entries t -> prefix_possible entries t'.
Proof.
  intros Hwf Ht Hret (pl & d & [Hall Hd Hw Hs Hx]).
  exists pl, (d ++ (cut_entry t' <$> filter (fun e => ~ call_ns e <= t)
                (filter (fun e => call_ns e <= t') entries))).
  split; [|apply Forall_app; split; [done|]|done..].
  - rewrite app_assoc, <- Hall. unfold prefix_at. simpl.
    rewrite <- (filter_app_complement (fun e => call_ns e <= t)
      (filter (fun e => call_ns e <= t') entries)) at 1.
    rewrite fmap_app, list_filter_filter_l by (intros; lia).
    apply Permutation_app_tail, reflexive_eq, list_fmap_ext. intros i e He.
    apply list_elem_of_lookup_2, list_elem_of_filter in He as [_ He].
    symmetry. apply cut_between; [by eapply Forall_forall in Hwf|lia|].
    destruct (decide (is_unknown e)); [by left|right].
    destruct (decide (t' < ret_ns e)); [by left|right]. apply Hret; auto. lia.
  - rewrite Forall_fmap, Forall_forall. intros e [Hc [_ He]%list_elem_of_filter]%list_elem_of_filter.
    simpl. rewrite Forall_forall in Hwf. destruct (Hwf e He) as (? & ? & ?).
    destruct (decide (is_unknown e)); [by apply cut_unknown|]. apply cut_late.
    destruct (decide (t' < ret_ns e)); [done|].
    specialize (Hret e He ltac:(done)). lia.
Qed.

(** ** The search decides linearizability

  An index-free search ([comp]) that only knows the multiset of operations still
  waiting relates the placements above to the mutable search of Lin.v.
  The main lemma, [recurse_spec], is proved once for every outcome: the search
  returns (its fuel is enough), a success exhibits a completion, a failure within
  the budget refutes every completion, the choices made on the way are undone,
  and every memo entry it leaves behind is a dead end. *)

(** ** The search on multisets *)

Inductive comp : list Entry -> State -> list Entry -> Prop :=
| comp_done left s : Forall (fun e => is_unknown e) left -> comp left s []
| comp_step left e left' s s' l :
    left ≡ₚ e :: left' ->
    Forall (fun x => call_ns e <= ret_ns x) left ->
    step s e = Some s' ->
    comp left' s' l ->
    comp left s (e :: l).

#[global] Instance comp_perm : Proper ((≡ₚ) ==> eq ==> eq ==> iff) comp.
Proof.
  assert (forall left1 left2 s l, left1 ≡ₚ left2 -> comp left1 s l -> comp left2 s l) as H.
  { intros l1 l2 s l Hp. inversion_clear 1.
    - constructor. by rewrite <- Hp.
    - econstructor; [by rewrite <- Hp| |done..]. by rewrite <- Hp. }
  intros l1 l2 Hp s ? <- l ? <-. split; apply H; [done|by symmetry].
Qed.

Lemma comp_placement left s l t0 :
  comp left s l -> Forall (fun e => call_ns e <= U64_MAX) left ->
  Forall (fun x => t0 <= ret_ns x) left ->
  exists pl dropped, placement step s left pl dropped /\ Forall (fun p => t0 <= p.2) pl.
Proof.
  intros Hc. revert t0. induction Hc as [left s Hu|left e left' s s' l Hp Hr Hs Hc IH];
    intros t0 Hm Ht0.
  { exists [], left. split; [|constructor]. split; simpl; eauto; constructor. }
  rewrite Hp in Hm, Ht0, Hr. apply Forall_cons in Hm as [_ Hm], Ht0 as [Ht0e Ht0], Hr as [Hre Hr].
  destruct (IH (Z.max t0 (call_ns e))) as (pl & d & [Ha Hd Hw Hso [s'' Hx]] & Hb); [done| |].
  { rewrite Forall_forall in *. intros x Hx. specialize (Ht0 x Hx). specialize (Hr x Hx). lia. }
  exists ((e, Z.max t0 (call_ns e)) :: pl), d. split; [split|].
  - rewrite Hp, Ha. done.
  - done.
  - constructor; [unfold window; simpl; lia|done].
  - csimpl. constructor; [done|]. by rewrite Forall_fmap.
  - csimpl. rewrite Hs. simpl. eauto.
  - constructor; [simpl; lia|]. eapply Forall_impl; [exact Hb|]. simpl. intros. lia.
Qed.

Lemma placement_comp left s pl d :
  Forall wf_entry left -> placement step s left pl d -> exists l, comp left s l.
Proof.
  revert left s. induction pl as [|[e t] pl IH]; intros left s Hwf [Ha Hd Hw Hs [s' Hx]]; csimpl in *.
  { exists []. constructor. by rewrite Ha. }
  apply bind_Some in Hx as (s1 & He & Hx).
  apply Forall_cons in Hw as [We Hw]. apply StronglySorted_inv in Hs as [Hs Ht].
  destruct (IH (pl.*1 ++ d) s1) as [l Hl].
  { rewrite Ha in Hwf. by apply Forall_cons in Hwf as [_ ?]. }
  { split; eauto. }
  exists (e :: l). econstructor; [exact Ha| |done|done].
  unfold window in We. simpl in We.
  rewrite Ha in *. apply Forall_cons in Hwf as [(_ & Hce & _) Hwf].
  constructor; [lia|]. apply Forall_app in Hwf as [_ Hwf]. apply Forall_app. split.
  - apply Forall_fmap. pose proof (proj1 (Forall_fmap _ _ _) Ht) as Ht'. rewrite Forall_forall in *. intros p Hp.
    specialize (Hw p Hp). specialize (Ht' p Hp). unfold window in Hw. simpl in *. lia.
  - rewrite Forall_forall in *. intros x Hx'. destruct (Hwf x Hx') as (_ & _ & Hu).
    specialize (Hd x Hx'). specialize (Hu Hd). lia.
Qed.

Lemma linearizable_comp entries :
  Forall wf_entry entries -> linearizable entries <-> exists l, comp entries None l.
Proof.
  intros Hwf. split.
  - intros (pl & d & Hpl). by eapply placement_comp.
  - intros [l Hl]. destruct (comp_placement entries None l 0) as (pl & d & Hpl & _); [done|..].
    + eapply Forall_impl; [exact Hwf|]. intros e (? & ? & _). lia.
    + eapply Forall_impl; [exact Hwf|]. intros e (? & ? & _). lia.
    + by exists pl, d.
Qed.

(** ** The operations still waiting *)

Definition left (entries : list Entry) (rem : list bool) : list Entry :=
  fst <$> filter (fun p => p.2 = true) (zip entries rem).

Lemma left_nil_l rem : left [] rem = [].
Proof. by destruct rem. Qed.

Lemma left_cons e entries b rem :
  left (e :: entries) (b :: rem) = (if b then [e] else []) ++ left entries rem.
Proof. unfold left. simpl. rewrite filter_cons. simpl. by destruct b. Qed.

Lemma left_all entries : left entries (replicate (length entries) true) = entries.
Proof.
  induction entries as [|e entries IH]; [done|]. simpl. rewrite left_cons, IH. done.
Qed.

Lemma left_choose entries rem i e :
  rem !! i = Some true -> entries !! i = Some e ->
  left entries rem ≡ₚ e :: left entries (<[i := false]> rem).
Proof.
  revert entries i. induction rem as [|b rem IH]; intros [|e' entries] [|i] Hr He;
    simplify_eq/=; rewrite !left_cons; [done|].
  rewrite (IH entries i) by done. destruct b; simpl; [apply Permutation_swap|done].
Qed.

Lemma left_elem entries rem e :
  e ∈ left entries rem -> exists i, rem !! i = Some true /\ entries !! i = Some e.
Proof.
  unfold left. intros ([e' b] & -> & [Hb Hin]%list_elem_of_filter)%list_elem_of_fmap.
  simpl in Hb. subst b. apply list_elem_of_lookup in Hin as [i Hi].
  apply lookup_zip_Some in Hi as [? ?]. by exists i.
Qed.

Lemma min_fold_le r rs x : x <= foldl Z.min r rs <-> x <= r /\ Forall (fun y => x <= y) rs.
Proof.
  revert r. induction rs as [|y rs IH]; intros r; simpl.
  - split; [by intros ?|by intros [? _]].
  - rewrite IH, Forall_cons, Z.min_glb_iff. tauto.
Qed.

Lemma min_ret_le entries rem x :
  left entries rem <> [] ->
  x <= min_ret entries rem <-> Forall (fun e => x <= ret_ns e) (left entries rem).
Proof.
  unfold min_ret, left. intros Hne. change (fun e => x <= ret_ns e) with (Z.le x ∘ ret_ns).
  rewrite <- Forall_fmap. destruct (ret_ns <$> _) as [|r rs] eqn:E.
  - apply fmap_nil_inv in E. done.
  - by rewrite min_fold_le, Forall_cons.
Qed.

(** ** The bitmap *)

Definition bit_of (m : list Z) (i : nat) : bool :=
  Z.testbit (default 0 (m !! (i / 64)%nat)) (Z.of_nat (i mod 64)).

(** The [remaining] vector a bitmap stands for. *)
Definition rem_of_mask (n : nat) (m : list Z) : list bool :=
  (fun i => negb (bit_of m i)) <$> seq 0 n.

Lemma rem_of_mask_lookup n m i :
  (i < n)%nat -> rem_of_mask n m !! i = Some (negb (bit_of m i)).
Proof.
  intros. unfold rem_of_mask. rewrite list_lookup_fmap, lookup_seq_lt by done. done.
Qed.

Lemma length_rem_of_mask n m : length (rem_of_mask n m) = n.
Proof. unfold rem_of_mask. by rewrite length_fmap, length_seq. Qed.

Definition set_bit (b : bool) (i : nat) (w : Z) : Z :=
  let bit := Z.shiftl 1 (Z.of_nat (i mod 64)) in if b then Z.lor w bit else Z.ldiff w bit.

#[global] Arguments set_bit : simpl never.

Lemma set_bit_testbit b i w k :
  0 <= k ->
  Z.testbit (set_bit b i w) k = if decide (k = Z.of_nat (i mod 64)) then b else Z.testbit w k.
Proof.
  intros Hk. unfold set_bit. rewrite Z.shiftl_1_l.
  assert (Z.testbit (2 ^ Z.of_nat (i mod 64)) k = bool_decide (k = Z.of_nat (i mod 64))) as E.
  { case_bool_decide as Hd; [subst; apply Z.pow2_bits_true; lia|].
    apply Z.pow2_bits_false. lia. }
  destruct b; rewrite ?Z.lor_spec, ?Z.ldiff_spec, E; case_decide; case_bool_decide;
    try congruence; destruct (Z.testbit w k); done.
Qed.

Lemma rem_of_mask_set n m i b :
  (i < n)%nat -> (i / 64 < length m)%nat ->
  rem_of_mask n (alter (set_bit b i) (i / 64)%nat m) = <[ i := negb b ]> (rem_of_mask n m).
Proof.
  intros Hi Hm. apply list_eq. intros j.
  destruct (decide (j < n)%nat) as [Hj|Hj].
  2: { rewrite !lookup_ge_None_2; [done|..];
       rewrite ?length_insert, length_rem_of_mask; lia. }
  rewrite rem_of_mask_lookup by done.
  destruct (lookup_lt_is_Some_2 m (i / 64)%nat Hm) as [w Hw].
  assert (bit_of (alter (set_bit b i) (i / 64)%nat m) j
    = if decide (j = i) then b else bit_of m j) as ->.
  { unfold bit_of. destruct (decide (j / 64 = i / 64)%nat) as [E|E].
    - rewrite E, list_lookup_alter_eq, Hw. simpl. rewrite set_bit_testbit by lia.
      repeat case_decide; try done.
      + pose proof (Nat.div_mod_eq i 64). pose proof (Nat.div_mod_eq j 64). lia.
      + subst. lia.
    - rewrite list_lookup_alter_ne by congruence.
      rewrite decide_False; [done|]. congruence. }
  case_decide; [subst; by rewrite list_lookup_insert_eq by (by rewrite length_rem_of_mask)|].
  by rewrite list_lookup_insert_ne, rem_of_mask_lookup by done.
Qed.

(** Setting a bit that was clear and clearing it again restores the word. *)
Lemma set_bit_undo m i :
  (i / 64 < length m)%nat -> bit_of m i = false ->
  alter (set_bit false i) (i / 64)%nat (alter (set_bit true i) (i / 64)%nat m) = m.
Proof.
  intros Hm Hb. apply list_eq. intros j.
  destruct (decide (j = (i / 64)%nat)) as [->|Hne];
    [|by rewrite !list_lookup_alter_ne by done].
  rewrite !list_lookup_alter_eq. unfold bit_of in Hb.
  destruct (m !! (i / 64)%nat) as [w|] eqn:Hw; [|done]. simpl in *. f_equal.
  apply Z.bits_inj'. intros k Hk. rewrite !set_bit_testbit by done.
  case_decide; [by subst|done].
Qed.

(** ** Invariants of the search record *)

Section search.
Context (entries : list Entry).
Let n := length entries.

Record inv (s : Search) : Prop := {
  inv_words : forall i, (i < n)%nat -> (i / 64 < length (mask s))%nat;
  inv_bits : remaining s = rem_of_mask n (mask s);
  inv_known : known_left s = length (filter (fun e => ~ is_unknown e) (left entries (remaining s)))
}.

(** No completion from this bitmap and state. *)
Definition dead (x : list Z * State) : Prop :=
  forall l, ~ comp (left entries (rem_of_mask n x.1)) x.2 l.

Definition size_left (rem : list bool) : nat := length (left entries rem).

(** Memo entries are dead ends, or belong to a call still on the stack, which
  has more operations waiting. *)
Definition memo (bound : nat) (s : Search) : Prop :=
  forall x, x ∈ seen s -> dead x \/ (bound < size_left (rem_of_mask n x.1))%nat.

(** The fields a failed call gives back as it found them. *)
Record restored (s s' : Search) : Prop := {
  re_remaining : remaining s' = remaining s;
  re_mask : mask s' = mask s;
  re_order : order s' = order s;
  re_known : known_left s' = known_left s;
  re_budget : budget s' = budget s
}.

#[export] Instance restored_preorder : PreOrder restored.
Proof.
  split; [by intros s|]. intros s1 s2 s3 [] []. split; congruence.
Qed.

(** What a call leaves in the memo table. *)
Definition memo_step (s s' : Search) : Prop :=
  forall x, x ∈ seen s' -> x ∈ seen s \/ dead x.

Record post (s : Search) (state : State) (ok : bool) (s' : Search) : Prop := {
  post_states : states s <= states s';
  post_budget : states s <= budget s -> states s' <= budget s;
  post_true : ok = true -> exists l, comp (left entries (remaining s)) state l;
  post_false : ok = false -> restored s s' /\
    (exhausted_budget s' = true -> budget s <= states s') /\
    (exhausted_budget s' = false ->
      (forall l, ~ comp (left entries (remaining s)) state l) /\ memo_step s s')
}.

Lemma inv_restored s s' : restored s s' -> inv s -> inv s'.
Proof. intros [Hr Hm _ Hk _] [? ? ?]. split; rewrite ?Hr, ?Hm, ?Hk; auto. Qed.

Lemma inv_bit s i : inv s -> (i < n)%nat -> remaining s !! i = Some true -> bit_of (mask s) i = false.
Proof.
  intros [_ Hb _] Hi Hr. rewrite Hb, rem_of_mask_lookup in Hr by done.
  injection Hr as Hr. by apply negb_true_iff in Hr.
Qed.

Lemma choose_remaining i e s : remaining (choose i e s) = <[ i := false ]> (remaining s).
Proof. done. Qed.

Lemma known_choose rem i e :
  rem !! i = Some true -> entries !! i = Some e ->
  length (filter (fun e => ~ is_unknown e) (left entries rem)) =
  ((if is_unknown e then 0 else 1) +
   length (filter (fun e => ~ is_unknown e) (left entries (<[ i := false ]> rem))))%nat.
Proof.
  intros Hr He. rewrite (left_choose _ _ _ _ Hr He), filter_cons.
  by destruct (is_unknown e) eqn:E; case_decide as Hd.
Qed.

Lemma inv_choose i e s :
  inv s -> entries !! i = Some e -> remaining s !! i = Some true -> inv (choose i e s).
Proof.
  intros Hinv He Hr. pose proof (lookup_lt_Some _ _ _ He) as Hi.
  destruct Hinv as [Hw Hb Hk]. split.
  - intros j Hj. simpl. rewrite length_alter. auto.
  - rewrite choose_remaining. simpl. rewrite Hb. symmetry.
    apply (rem_of_mask_set n (mask s) i true); auto.
  - rewrite choose_remaining. simpl. rewrite (known_choose _ _ _ Hr He) in Hk.
    destruct (is_unknown e); lia.
Qed.

Lemma restored_choose i e s s' :
  inv s -> entries !! i = Some e -> remaining s !! i = Some true ->
  restored (choose i e s) s' -> restored s (unchoose i e s').
Proof.
  intros Hinv He Hr [Hre Hm Ho Hk Hb]. pose proof (lookup_lt_Some _ _ _ He) as Hi.
  pose proof (inv_bit s i Hinv Hi Hr) as Hbit. split; simpl; [| | | |done].
  - rewrite Hre. simpl. rewrite list_insert_insert_eq. by apply list_insert_id.
  - rewrite Hm. simpl. apply set_bit_undo; [|done]. by apply (inv_words s Hinv).
  - rewrite Ho. simpl. apply removelast_last.
  - rewrite Hk. simpl. destruct Hinv as [_ _ Hkn].
    rewrite (known_choose _ _ _ Hr He) in Hkn. destruct (is_unknown e); lia.
Qed.

Lemma size_choose rem i e :
  rem !! i = Some true -> entries !! i = Some e ->
  size_left rem = S (size_left (<[ i := false ]> rem)).
Proof. intros Hr He. unfold size_left. by rewrite (left_choose _ _ _ _ Hr He). Qed.

Lemma memo_restored bound s s' :
  restored s s' -> memo bound s -> memo_step s s' -> memo bound s'.
Proof. intros _ Hm Hs x Hx. destruct (Hs x Hx) as [?|?]; auto. Qed.

(** The loop over the candidates, for a recursive call that meets [post]. *)
Section loop.
Context (rec : Search -> State -> option (bool * Search)) (bound : nat) (m : Z).
Hypothesis rec_spec : forall s st,
  inv s -> exhausted_budget s = false -> (size_left (remaining s) < bound)%nat ->
  memo (size_left (remaining s)) s ->
  exists ok s', rec s st = Some (ok, s') /\ post s st ok s'.

Record loop_post (s : Search) (state : State) (cands : list (nat * Entry)) (ok : bool)
    (s' : Search) : Prop := {
  lp_states : states s <= states s';
  lp_budget : states s <= budget s -> states s' <= budget s;
  lp_true : ok = true -> exists i e next l,
    (i, e) ∈ cands /\ remaining s !! i = Some true /\ call_ns e <= m /\
    step state e = Some next /\ comp (left entries (<[ i := false ]> (remaining s))) next l;
  lp_false : ok = false -> restored s s' /\
    (exhausted_budget s' = true -> budget s <= states s') /\
    (exhausted_budget s' = false -> memo_step s s' /\
      forall i e next l, (i, e) ∈ cands -> remaining s !! i = Some true -> call_ns e <= m ->
        step state e = Some next -> ~ comp (left entries (<[ i := false ]> (remaining s))) next l)
}.

Lemma loop_post_skip s state i e cands ok s' :
  ~ (remaining s !! i = Some true /\ call_ns e <= m /\ is_Some (step state e)) ->
  loop_post s state cands ok s' -> loop_post s state ((i, e) :: cands) ok s'.
Proof.
  intros Hskip [H1 H2 H3 H4]. split; [done..| |].
  - intros Hok. destruct (H3 Hok) as (j & f & next & l & Hin & ?).
    exists j, f, next, l. by rewrite elem_of_cons; auto.
  - intros Hok. destruct (H4 Hok) as (? & ? & H5). split_and!; [done..|].
    intros Hex. destruct (H5 Hex) as [? H6]. split; [done|].
    intros j f next l [[= -> ->]|Hin]%elem_of_cons Hr Hc Hs; [|by eapply H6].
    destruct Hskip. eauto.
Qed.

Lemma loop_post_next s state i e next cands s1 ok s' :
  inv s -> entries !! i = Some e -> remaining s !! i = Some true -> call_ns e <= m ->
  step state e = Some next ->
  post (choose i e s) next false s1 -> exhausted_budget s1 = false ->
  loop_post (unchoose i e s1) state cands ok s' ->
  loop_post s state ((i, e) :: cands) ok s'.
Proof.
  intros Hinv He Hr Hc Hs [P1 P2 _ P4] Hex [H1 H2 H3 H4].
  destruct (P4 eq_refl) as (Hre & _ & P5). destruct (P5 Hex) as [Hno Hmemo].
  pose proof (restored_choose i e s s1 Hinv He Hr Hre) as Hre'.
  assert (seen (unchoose i e s1) = seen s1) as Hseen by done.
  assert (remaining (unchoose i e s1) = remaining s) as Hrem by apply Hre'.
  assert (budget (unchoose i e s1) = budget s) as Hbud by apply Hre'.
  assert (memo_step s (unchoose i e s1)) as Hms by exact Hmemo.
  simpl in P1, P2. change (states (unchoose i e s1)) with (states s1) in *.
  rewrite Hrem, Hbud in *. split; [lia|auto| |].
  - intros Hok. destruct (H3 Hok) as (j & f & nx & l & Hin & ?).
    exists j, f, nx, l. by rewrite elem_of_cons; auto.
  - intros Hok. destruct (H4 Hok) as (Hre2 & Hb & H5). split_and!; [by etrans|done|].
    intros Hex'. destruct (H5 Hex') as [Hms2 H6]. split.
    + intros x Hx. destruct (Hms2 x Hx) as [Hx'|]; auto.
    + intros j f nx l [[= -> ->]|Hin]%elem_of_cons Hrj Hcj Hsj; [|by eapply H6].
      rewrite Hs in Hsj. injection Hsj as <-. apply Hno.
Qed.

Lemma loop_post_exhausted s state i e next cands s1 :
  inv s -> entries !! i = Some e -> remaining s !! i = Some true ->
  post (choose i e s) next false s1 -> exhausted_budget s1 = true ->
  loop_post s state cands false (unchoose i e s1).
Proof.
  intros Hinv He Hr [P1 P2 _ P4] Hex. destruct (P4 eq_refl) as (Hre & Hb & _).
  pose proof (restored_choose i e s s1 Hinv He Hr Hre) as Hre'.
  split; [done|auto|done|]. intros _. split; [done|]. split; [auto|].
  simpl. congruence.
Qed.

Lemma try_candidates_spec state cands s :
  inv s -> exhausted_budget s = false -> (size_left (remaining s) <= bound)%nat ->
  memo (pred (size_left (remaining s))) s ->
  (forall i e, (i, e) ∈ cands -> entries !! i = Some e) ->
  exists ok s', try_candidates rec m state cands s = Some (ok, s') /\
    loop_post s state cands ok s'.
Proof.
  revert s. induction cands as [|[i e] cands IH]; intros s Hinv Hex Hsize Hmemo Hc; simpl.
  { exists false, s. split; [done|]. split; [lia|done|done|]. intros _.
    split; [reflexivity|]. split; [congruence|]. intros _.
    split; [by left|]. intros ? ? ? ? []%elem_of_nil. }
  assert (forall j f, (j, f) ∈ cands -> entries !! j = Some f) as Hc'.
  { intros. apply Hc, elem_of_cons. by right. }
  destruct (decide (remaining s !! i = Some true)) as [Hr|Hr].
  2: { destruct (IH s) as (ok & s' & -> & Hp); auto. exists ok, s'. split; [done|].
       apply loop_post_skip; tauto. }
  destruct (decide (m < call_ns e)) as [Hm|Hm].
  { destruct (IH s) as (ok & s' & -> & Hp); auto. exists ok, s'. split; [done|].
    apply loop_post_skip; [lia|done]. }
  destruct (step state e) as [next|] eqn:Hs.
  2: { destruct (IH s) as (ok & s' & -> & Hp); auto. exists ok, s'. split; [done|].
       apply loop_post_skip; [|done]. rewrite Hs. by intros (_ & _ & [? ?]). }
  assert (entries !! i = Some e) as He by (apply Hc, elem_of_cons; by left).
  pose proof (size_choose _ _ _ Hr He) as Hsz.
  destruct (rec_spec (choose i e s) next) as (ok & s1 & -> & Hpost).
  { by apply inv_choose. } { done. } { rewrite choose_remaining. lia. }
  { rewrite choose_remaining. intros x Hx. destruct (Hmemo x Hx); [by left|right; lia]. }
  destruct ok.
  { exists true, s1. split; [done|]. destruct Hpost as [P1 P2 P3 _].
    split; [done|done| |done]. intros _. destruct (P3 eq_refl) as [l Hl].
    exists i, e, next, l. rewrite elem_of_cons. split_and!; auto. lia. }
  change (exhausted_budget (unchoose i e s1)) with (exhausted_budget s1).
  destruct (exhausted_budget s1) eqn:Hex1.
  { exists false, (unchoose i e s1). split; [done|]. by eapply loop_post_exhausted. }
  destruct (post_false _ _ _ _ Hpost eq_refl) as (Hre & _ & Hok).
  destruct (Hok Hex1) as [_ Hms].
  pose proof (restored_choose i e s s1 Hinv He Hr Hre) as Hre'.
  destruct (IH (unchoose i e s1)) as (ok & s' & -> & Hp).
  - by apply (inv_restored s).
  - done.
  - by rewrite (re_remaining _ _ Hre').
  - rewrite (re_remaining _ _ Hre'). by apply (memo_restored _ s).
  - done.
  - exists ok, s'. split; [done|]. eapply loop_post_next; eauto. lia.
Qed.
End loop.
End search.

(** ** The recursive search *)

Section recurse.
Context (entries : list Entry).
Let n := length entries.

Lemma known_left_zero s :
  inv entries s -> known_left s = 0%nat <-> Forall (fun e => is_unknown e) (left entries (remaining s)).
Proof.
  intros [_ _ Hk]. rewrite Hk. split.
  - intros H%nil_length_inv. apply Forall_forall. intros e He.
    destruct (decide (is_unknown e)) as [|Hn]; [done|].
    assert (e ∈ filter (fun e => ~ is_unknown e) (left entries (remaining s))) as Hin
      by (by apply list_elem_of_filter).
    rewrite H in Hin. by apply elem_of_nil in Hin.
  - intros Hf. rewrite filter_nil_Forall; [done|]. eapply Forall_impl; [exact Hf|]. tauto.
Qed.

(** What [recurse] does to the record before its loop. *)
Definition entered (state : State) (s : Search) : Search :=
  record_best state (remember state (count_state s)).

Lemma entered_restored state s : restored s (entered state s).
Proof. unfold entered, record_best. by case_decide. Qed.

Lemma entered_seen state s : seen (entered state s) = {[ (mask s, state) ]} ∪ seen s.
Proof. unfold entered, record_best. by case_decide. Qed.

Lemma entered_states state s : states (entered state s) = states s + 1.
Proof. unfold entered, record_best. by case_decide. Qed.

Lemma entered_exhausted state s : exhausted_budget (entered state s) = exhausted_budget s.
Proof. unfold entered, record_best. by case_decide. Qed.

(** A step of the multiset search is a candidate of the loop. *)
Lemma comp_candidate rem state l :
  comp (left entries rem) state l -> ~ Forall (fun e => is_unknown e) (left entries rem) ->
  exists i e next l', rem !! i = Some true /\ entries !! i = Some e /\
    call_ns e <= min_ret entries rem /\ step state e = Some next /\
    comp (left entries (<[ i := false ]> rem)) next l'.
Proof.
  inversion_clear 1 as [|? e left' ? s' l' Hp Hr Hs Hc]; [done|]. intros _.
  destruct (left_elem entries rem e) as (i & Hi & He).
  { rewrite Hp. apply elem_of_cons. by left. }
  exists i, e, s', l'. split_and!; try done.
  - apply min_ret_le; [|done]. intros E. rewrite E in Hp.
    by apply Permutation_nil_cons in Hp.
  - rewrite (left_choose _ _ _ _ Hi He) in Hp. apply Permutation_cons_inv in Hp. by rewrite Hp.
Qed.

Lemma candidate_comp rem state i e next l :
  rem !! i = Some true -> entries !! i = Some e -> call_ns e <= min_ret entries rem ->
  step state e = Some next -> comp (left entries (<[ i := false ]> rem)) next l ->
  comp (left entries rem) state (e :: l).
Proof.
  intros Hi He Hm Hs Hc. econstructor; [by apply left_choose| |done|done].
  apply min_ret_le; [|done]. pose proof (left_choose _ _ _ _ Hi He) as Hp.
  intros E. rewrite E in Hp. by apply Permutation_nil_cons in Hp.
Qed.

Lemma enumerate_elem {A} (l : list A) i x : (i, x) ∈ enumerate l <-> l !! i = Some x.
Proof.
  unfold enumerate. rewrite list_elem_of_lookup. setoid_rewrite list_lookup_imap_Some.
  split; [intros (? & ? & ? & [= -> ->]); done|]. intros Hl. by exists i, x.
Qed.

Lemma memo_entered state s :
  inv entries s -> known_left s <> 0%nat -> memo entries (size_left entries (remaining s)) s ->
  memo entries (pred (size_left entries (remaining s))) (entered state s).
Proof.
  intros Hinv Hk Hm x Hx. rewrite entered_seen in Hx.
  apply elem_of_union in Hx as [Hx|Hx]; [|destruct (Hm x Hx); [by left|right; lia]].
  apply elem_of_singleton in Hx as ->. right. simpl.
  rewrite <- (inv_bits _ _ Hinv). fold n.
  assert (size_left entries (remaining s) <> 0%nat); [|lia].
  intros E%nil_length_inv. apply Hk, known_left_zero; [done|]. by rewrite E.
Qed.

Lemma loop_post_post s state ok s' :
  inv entries s -> known_left s <> 0%nat -> states s < budget s ->
  loop_post entries (min_ret entries (remaining (entered state s))) (entered state s) state
    (enumerate entries) ok s' ->
  post entries s state ok s'.
Proof.
  intros Hinv Hk Hb [H1 H2 H3 H4]. pose proof (entered_restored state s) as Hre.
  rewrite entered_states, (re_budget _ _ Hre), ?(re_remaining _ _ Hre) in *.
  assert (~ Forall (fun e => is_unknown e) (left entries (remaining s))) as Hnu.
  { by rewrite <- known_left_zero. }
  split; [lia|intros; apply H2; lia| |].
  - intros Hok. destruct (H3 Hok) as (i & e & next & l & Hin & Hr & Hc & Hs & Hl).
    apply enumerate_elem in Hin. exists (e :: l). by eapply candidate_comp.
  - intros Hok. destruct (H4 Hok) as (Hre2 & Hex & H5). split; [by etrans|].
    split; [done|]. intros Hne. destruct (H5 Hne) as [Hms Hno].
    assert (forall l, ~ comp (left entries (remaining s)) state l) as Hdead.
    { intros l Hl. apply comp_candidate in Hl as (i & e & nx & l' & Hi & He & Hc & Hs & Hl);
        [|done]. eapply Hno; eauto. by apply enumerate_elem. }
    split; [done|]. intros x Hx. destruct (Hms x Hx) as [Hx'|]; [|by right].
    rewrite entered_seen in Hx'. apply elem_of_union in Hx' as [Hx'|]; [|by left].
    apply elem_of_singleton in Hx' as ->. right. intros l. simpl.
    rewrite <- (inv_bits _ _ Hinv). apply Hdead.
Qed.

Lemma recurse_spec fuel s state :
  inv entries s -> exhausted_budget s = false -> (size_left entries (remaining s) < fuel)%nat ->
  memo entries (size_left entries (remaining s)) s ->
  exists ok s', recurse fuel entries s state = Some (ok, s') /\ post entries s state ok s'.
Proof.
  revert s state. induction fuel as [|fuel IH]; intros s state Hinv Hex Hf Hm; [lia|].
  cbn [recurse]. case_decide as Hk.
  { exists true, s. split; [done|]. split; [lia|done| |done]. intros _.
    exists []. constructor. by apply known_left_zero. }
  case_decide as Hb.
  { exists false, (exhaust s). split; [done|]. split; simpl; [lia|done|done|].
    intros _. split; [done|]. split; [done|]. done. }
  case_decide as Hs.
  { exists false, (count_state s). split; [done|]. split; simpl; [lia|lia|done|].
    intros _. split; [done|]. split; [congruence|]. intros _. split; [|by left].
    destruct (Hm _ Hs) as [Hd|Hlt]; simpl in *.
    - rewrite (inv_bits _ _ Hinv). apply Hd.
    - rewrite <- (inv_bits _ _ Hinv) in Hlt. fold n in Hlt. lia. }
  fold (entered state s).
  pose proof (entered_restored state s) as Hre.
  destruct (try_candidates_spec entries (recurse fuel entries) fuel
    (min_ret entries (remaining (entered state s))) IH state (enumerate entries) (entered state s))
    as (ok & s' & E & Hp).
  - by apply (inv_restored _ s).
  - by rewrite entered_exhausted.
  - rewrite (re_remaining _ _ Hre). lia.
  - rewrite (re_remaining _ _ Hre). by apply memo_entered.
  - intros i e. by apply enumerate_elem.
  - exists ok, s'. split; [exact E|]. apply loop_post_post; auto. lia.
Qed.
End recurse.

(** ** The whole search *)

Lemma inv_new entries budget : inv entries (new_search entries budget).
Proof.
  split; simpl.
  - intros i Hi. rewrite length_replicate.
    pose proof (Nat.div_mod_eq i 64). pose proof (Nat.mod_upper_bound i 64 ltac:(lia)).
    pose proof (Nat.div_mod_eq (length entries + 63) 64).
    pose proof (Nat.mod_upper_bound (length entries + 63) 64 ltac:(lia)). lia.
  - apply list_eq. intros i. destruct (decide (i < length entries)%nat) as [Hi|Hi].
    + rewrite rem_of_mask_lookup, lookup_replicate_2 by done. unfold bit_of.
      destruct (replicate _ 0 !! _) as [w|] eqn:Hw; simpl.
      * apply lookup_replicate_1 in Hw as [-> _]. by rewrite Z.testbit_0_l.
      * by rewrite Z.testbit_0_l.
    + rewrite !lookup_ge_None_2; [done|..];
        rewrite ?length_rem_of_mask, ?length_replicate; lia.
  - rewrite left_all. f_equal. apply list_filter_iff. intros e. destruct (is_unknown e); naive_solver.
Qed.

Record run_post (entries : list Entry) (budget : Z) (ok : bool) (s : Search) : Prop := {
  rp_bound : 0 <= budget -> 0 <= states s <= budget;
  rp_true : ok = true -> linearizable entries;
  rp_false : ok = false -> exhausted_budget s = false -> ~ linearizable entries;
  rp_exhausted : ok = false -> exhausted_budget s = true -> budget <= states s
}.

(** The search always returns, within the budget, and its answer is right unless
  it says that the budget ran out. *)
Lemma run_spec entries budget :
  Forall wf_entry entries ->
  exists ok s, run entries (new_search entries budget) = Some (ok, s) /\
    run_post entries budget ok s.
Proof.
  intros Hwf. destruct (decide (entries = [])) as [->|Hne].
  { exists true, (new_search [] budget). split; [done|]. split; simpl; [lia| |done|done].
    intros _. apply linearizable_comp; [done|]. exists []. by constructor. }
  destruct (recurse_spec entries (search_fuel entries) (new_search entries budget) None)
    as (ok & s & E & [P1 P2 P3 P4]).
  - apply inv_new.
  - done.
  - simpl. unfold size_left. rewrite left_all. unfold search_fuel. lia.
  - intros x []%elem_of_empty.
  - simpl in *. rewrite left_all in *. exists ok, s. split; [by destruct entries|].
    split; [lia| | |].
    + intros Hok. by apply linearizable_comp, P3.
    + intros Hok Hex. destruct (P4 Hok) as (_ & _ & H). destruct (H Hex) as [Hno _].
      rewrite linearizable_comp by done. intros [l Hl]. by apply (Hno l).
    + intros Hok Hex. destruct (P4 Hok) as (_ & H & _). auto.
Qed.
