(* ===== verification/LinCheck.v ===== *)
(** * The verdicts are right

  [check_one_key] and [check] of Lin.v against LinSearch.v: they always return,
  [Linearizable] and [NotLinearizable] mean what they say for the whole history,
  [Inconclusive] only comes from a search that used its whole budget and never
  hides a broken key, and the operation a violation blames is the one whose
  return made the history impossible. *)

From S2P Require Import Prelude Lin LinSearch.

(** ** The sorted list of returns *)

Lemma ret_le_total a b : ret_le a b = false -> ret_le b a = true.
Proof. unfold ret_le. rewrite bool_decide_eq_false, bool_decide_eq_true. lia. Qed.

Lemma ret_le_trans a b c : ret_le a b = true -> ret_le b c = true -> ret_le a c = true.
Proof. unfold ret_le. rewrite !bool_decide_eq_true. lia. Qed.

Lemma sorted_returns_elem entries t i :
  (t, i) ∈ sorted_returns entries <->
  exists e, entries !! i = Some e /\ ~ is_unknown e /\ t = ret_ns e.
Proof.
  unfold sorted_returns. rewrite sort_by_perm, list_elem_of_fmap.
  setoid_rewrite list_elem_of_filter. split.
  - intros ([j e] & [= -> ->] & Hu & Hin%enumerate_elem). simpl in *. exists e.
    rewrite Hu. split_and!; auto.
  - intros (e & He & Hu & ->). exists (i, e). split_and!; [done| |by apply enumerate_elem].
    simpl. by destruct (is_unknown e).
Qed.

Lemma sorted_returns_le entries j k a b :
  sorted_returns entries !! j = Some a -> sorted_returns entries !! k = Some b ->
  (j <= k)%nat -> a.1 <= b.1.
Proof.
  intros Ha Hb Hjk. destruct (decide (j = k)) as [->|Hne].
  { rewrite Ha in Hb. injection Hb as ->. lia. }
  pose proof (StronglySorted_lookup_lt _ (sorted_returns entries) j k a b
    (sort_by_sorted ret_le ret_le_total ret_le_trans _) Ha Hb) as H.
  specialize (H ltac:(lia)). unfold ret_le in H. rewrite bool_decide_eq_true in H. lia.
Qed.

(** ** The history at an instant *)

Lemma wf_prefix entries t :
  0 <= t -> Forall wf_entry entries -> Forall wf_entry (prefix_at entries t).2.
Proof.
  intros Ht Hwf. unfold prefix_at. simpl. rewrite Forall_fmap.
  eapply Forall_impl; [by apply Forall_filter_keep|]. intros e. by apply wf_cut.
Qed.

Lemma linearizable_unknown entries : Forall (fun e => is_unknown e) entries -> linearizable entries.
Proof. intros Hu. exists [], entries. split; [done|done|constructor|constructor|simpl; eauto]. Qed.

(** The largest element below a bound. *)
Lemma max_below (l : list Z) t :
  (exists r, r ∈ l /\ r <= t) ->
  exists r, r ∈ l /\ r <= t /\ forall x, x ∈ l -> x <= t -> x <= r.
Proof.
  induction l as [|x l IH]; intros (r & Hr & Hle); [by apply elem_of_nil in Hr|].
  destruct (decide (Exists (fun y => y <= t) l)) as [Hex|Hex].
  - apply Exists_exists in Hex as (y & Hy & Hyt).
    destruct IH as (m & Hm & Hmt & Hmax); [eauto|].
    destruct (decide (x <= t /\ m < x)) as [[? ?]|Hx].
    + exists x. rewrite elem_of_cons. split_and!; auto.
      intros z [->|Hz]%elem_of_cons ?; [lia|]. specialize (Hmax z Hz ltac:(done)). lia.
    + exists m. rewrite elem_of_cons. split_and!; auto.
      intros z [->|Hz]%elem_of_cons ?; [lia|auto].
  - assert (forall z, z ∈ l -> ~ z <= t) as Hno.
    { intros z Hz Hzt. apply Hex, Exists_exists. eauto. }
    apply elem_of_cons in Hr as [->|Hr]; [|by destruct (Hno r Hr)].
    exists x. rewrite elem_of_cons. split_and!; auto.
    intros z [->|Hz]%elem_of_cons ?; [lia|]. by destruct (Hno z Hz).
Qed.

(** Between two returns nothing becomes impossible, so the instants of the
  returns are enough to look at. *)
Lemma possible_from_returns entries t :
  Forall wf_entry entries -> 0 <= t ->
  (forall r i, (r, i) ∈ sorted_returns entries -> r <= t -> prefix_possible entries r) ->
  prefix_possible entries t.
Proof.
  intros Hwf Ht Hret.
  destruct (decide (Exists (fun r => r <= t) (sorted_returns entries).*1)) as [Hex|Hex].
  - apply Exists_exists in Hex. destruct (max_below _ _ Hex) as (r & Hr & Hrt & Hmax).
    apply list_elem_of_fmap in Hr as ([r' i] & -> & Hin). simpl in *.
    assert (0 <= r').
    { apply sorted_returns_elem in Hin as (e & He & _ & ->).
      rewrite Forall_lookup in Hwf. destruct (Hwf _ _ He) as [? _]. lia. }
    apply (possible_until_return entries r' t); [done|lia| |by eapply Hret].
    intros e He Hu Het. apply Hmax; [|done]. apply list_elem_of_lookup in He as [j Hj].
    apply list_elem_of_fmap. exists (ret_ns e, j). split; [done|].
    apply sorted_returns_elem. eauto.
  - apply linearizable_unknown. unfold prefix_at. simpl. rewrite Forall_fmap, Forall_forall.
    intros e [_ He]%list_elem_of_filter. simpl.
    destruct (decide (is_unknown e)); [by apply cut_unknown|]. apply cut_late.
    destruct (decide (t < ret_ns e)); [done|]. destruct Hex. apply Exists_exists.
    apply list_elem_of_lookup in He as [j Hj].
    exists (ret_ns e). split; [|lia]. apply list_elem_of_fmap. exists (ret_ns e, j).
    split; [done|]. apply sorted_returns_elem. eauto.
Qed.

Lemma prefix_at_max entries :
  Forall wf_entry entries -> prefix_at entries U64_MAX = (entries, entries).
Proof.
  intros Hwf. unfold prefix_at. rewrite filter_all_Forall.
  - f_equal. rewrite <- (list_fmap_id entries) at 2. apply list_fmap_ext.
    intros i e He. rewrite Forall_lookup in Hwf. destruct (Hwf _ _ He) as (_ & ? & _).
    unfold cut_entry. rewrite decide_False by lia. done.
  - eapply Forall_impl; [exact Hwf|]. intros e (? & ? & _). lia.
Qed.

(** ** The bisection *)

Section bisect.
Context (entries : list Entry) (budget : Z) (Hwf : Forall wf_entry entries).

(** The search of the history at [t] finished within the budget. *)
Definition decided (t : Z) : Prop :=
  forall ok s, run (prefix_at entries t).2 (new_search (prefix_at entries t).2 budget) = Some (ok, s) ->
    ok = false -> exhausted_budget s = false.

(** What a recorded [best] says. *)
Definition best_ok (b : option Best) : Prop :=
  match b with
  | None => True
  | Some (c, shown, _, _) => exists t, (t, c) ∈ sorted_returns entries /\
      shown = (prefix_at entries t).1 /\ ~ prefix_possible entries t
  end.

(** The loop invariant when every search is decided. *)
Definition best_least (lo hi : nat) (b : option Best) : Prop :=
  (forall k a, (k < lo)%nat -> sorted_returns entries !! k = Some a -> prefix_possible entries a.1) /\
  match b with
  | None => hi = length (sorted_returns entries)
  | Some (c, _, _, _) => exists t, sorted_returns entries !! hi = Some (t, c) /\
      ~ prefix_possible entries t
  end.

Lemma return_nonneg k a : sorted_returns entries !! k = Some a -> 0 <= a.1.
Proof using Hwf.
  intros Ha%list_elem_of_lookup_2. destruct a as [t i].
  apply sorted_returns_elem in Ha as (e & He & _ & ->).
  rewrite Forall_lookup in Hwf. destruct (Hwf _ _ He) as [? _]. simpl. lia.
Qed.

Lemma bisect_spec fuel lo hi b :
  (hi - lo <= fuel)%nat -> (lo <= hi)%nat -> (hi <= length (sorted_returns entries))%nat ->
  best_ok b ->
  exists b', bisect fuel entries budget (sorted_returns entries) lo hi b = Some b' /\ best_ok b' /\
    ((forall t i, (t, i) ∈ sorted_returns entries -> decided t) ->
      best_least lo hi b -> exists k, best_least k k b').
Proof using Hwf.
  revert lo hi b. induction fuel as [|fuel IH]; intros lo hi b Hf Hlo Hhi Hb.
  { simpl. rewrite decide_False by lia. exists b. split_and!; [done|done|].
    intros _ Hl. exists lo. by replace hi with lo in Hl by lia. }
  simpl. case_decide as Hlt.
  2: { exists b. split_and!; [done|done|]. intros _ Hl. exists lo. by replace hi with lo in Hl by lia. }
  pose proof (Nat.div_lt (hi - lo) 2 ltac:(lia) ltac:(lia)).
  set (mid := (lo + (hi - lo) / 2)%nat) in *.
  destruct (lookup_lt_is_Some_2 (sorted_returns entries) mid) as [[t c] Hmid]; [lia|].
  rewrite Hmid. simpl. pose proof (return_nonneg _ _ Hmid) as Ht. simpl in Ht.
  pose proof (list_elem_of_lookup_2 _ _ _ Hmid) as Hin.
  destruct (run_spec (prefix_at entries t).2 budget) as (ok & s & Erun & [_ Htrue Hfalse _]).
  { by apply wf_prefix. }
  unfold prefix_at in Erun. simpl in Erun. rewrite Erun. simpl.
  destruct (negb ok && negb (exhausted_budget s)) eqn:Ecase.
  - apply andb_true_iff in Ecase as [->%negb_true_iff Hex%negb_true_iff].
    assert (~ prefix_possible entries t) as Hno by (by apply Hfalse).
    destruct (IH lo mid (Some (c, (prefix_at entries t).1, best_attempt s, mjoin (best_state s))))
      as (b' & E & Hb' & Hl'); [lia|lia|lia|by exists t|].
    exists b'. split_and!; [exact E|done|]. intros Hdec [Hk _]. apply Hl'; [done|].
    split; [done|]. by exists t.
  - destruct (IH (S mid) hi b) as (b' & E & Hb' & Hl'); [lia|lia|lia|done|].
    exists b'. split_and!; [exact E|done|]. intros Hdec [Hk Hrest]. apply Hl'; [done|].
    assert (prefix_possible entries t) as Hyes.
    { destruct ok; [by apply Htrue|]. specialize (Hdec t c Hin false s).
      rewrite Hdec in Ecase by done. done. }
    split; [|done]. intros k a Hk' Ha. apply (possible_earlier entries a.1 t); [done| |done].
    split; [by eapply return_nonneg|].
    apply (sorted_returns_le entries k mid a (t, c)); [done|done|lia].
Qed.

(** If the whole history is impossible, so is it at the last return. *)
Lemma impossible_somewhere k :
  ~ linearizable entries ->
  (forall j a, (j < k)%nat -> sorted_returns entries !! j = Some a -> prefix_possible entries a.1) ->
  (k < length (sorted_returns entries))%nat.
Proof using Hwf.
  intros Hno Hk. destruct (decide (k < length (sorted_returns entries))%nat) as [|Hge]; [done|].
  destruct Hno. pose proof (possible_from_returns entries U64_MAX Hwf) as H.
  unfold prefix_possible in H at 2. rewrite prefix_at_max in H by done. apply H.
  - unfold U64_MAX. lia.
  - intros r i [j Hj]%list_elem_of_lookup _. apply (Hk j (r, i)); [|done].
    apply lookup_lt_Some in Hj. lia.
Qed.
End bisect.

(** ** One key *)

Definition verdict_right (k : bytes) (entries : list Entry) (budget : Z) (v : Verdict) : Prop :=
  match v with
  | Linearizable => linearizable entries
  | NotLinearizable w => ~ linearizable entries /\ v_key w = k
  | Inconclusive k' n => k' = k /\ budget <= n /\ (0 <= budget -> n = budget)
  end.

(** The violation names a prefix of the history that is impossible by itself. *)
Definition evidence (entries : list Entry) (w : Violation) : Prop :=
  v_culprit w ∈ entries /\
  ((exists t, ret_ns (v_culprit w) = t /\ ~ is_unknown (v_culprit w) /\
     v_entries w = (prefix_at entries t).1 /\ ~ prefix_possible entries t) \/
   v_entries w ≡ₚ entries).

Lemma check_one_key_spec k entries budget :
  Forall wf_entry entries ->
  exists v, check_one_key k entries budget = Some v /\ verdict_right k entries budget v /\
    (forall w, v = NotLinearizable w -> evidence entries w).
Proof.
  intros Hwf. unfold check_one_key.
  destruct (run_spec entries budget Hwf) as (ok & s & -> & [Hb Ht Hf He]). simpl.
  destruct ok; [eexists; split_and!; [done|by apply Ht|done]|].
  destruct (exhausted_budget s) eqn:Hex.
  { eexists. split_and!; [done| |done]. split; [done|]. specialize (He eq_refl eq_refl). lia. }
  specialize (Hf eq_refl eq_refl).
  destruct (bisect_spec entries budget Hwf (length (sorted_returns entries)) 0
    (length (sorted_returns entries)) None) as (b & -> & Hb' & _); [lia|lia|lia|done|]. simpl.
  destruct b as [[[[c shown] ba] bst]|]; simpl.
  - destruct Hb' as (t & (e & Hc & Hu & ->)%sorted_returns_elem & -> & Hno). rewrite Hc. simpl.
    eexists. split_and!; [done|by split|]. intros w [= <-].
    split; [by apply list_elem_of_lookup_2 with c|]. left. by exists (ret_ns e).
  - assert (sort_by entry_le entries ≡ₚ entries) as Hp by apply sort_by_perm.
    destruct (last (sort_by entry_le entries)) as [e|] eqn:Hl.
    + simpl. eexists. split_and!; [done|by split|]. intros w [= <-].
      split; [|by right]. simpl. rewrite <- Hp.
      by apply last_Some_elem_of.
    + apply last_None in Hl. rewrite Hl in Hp. apply Permutation_nil_l in Hp. subst entries.
      destruct Hf. by apply linearizable_unknown.
Qed.

Lemma wf_for_key h k : Forall wf_entry h -> Forall wf_entry (for_key h k).
Proof. apply Forall_filter_keep. Qed.

(** ** A whole history *)

Lemma keys_from_spec seen h :
  NoDup (keys_from seen h) /\
  (forall k, k ∈ keys_from seen h <-> k ∉ seen /\ exists e, e ∈ h /\ key e = k).
Proof.
  revert seen. induction h as [|e h IH]; intros seen; cbn [keys_from].
  { split; [constructor|]. intros k. split; [by intros []%elem_of_nil|].
    by intros (_ & e & []%elem_of_nil & _). }
  case_decide as Hs.
  - destruct (IH seen) as [Hnd Hk]. split; [done|]. intros k. rewrite Hk.
    split; intros (Hn & f & Hf & <-); (split; [done|]).
    + exists f. split; [|done]. apply elem_of_cons. by right.
    + apply elem_of_cons in Hf as [->|Hf]; [done|]. eauto.
  - destruct (IH ({[ key e ]} ∪ seen)) as [Hnd Hk]. split.
    + constructor; [|done]. rewrite Hk. set_solver.
    + intros k. rewrite elem_of_cons, Hk. split.
      * intros [->|(Hn & f & Hf & <-)].
        -- split; [done|]. exists e. split; [|done]. apply elem_of_cons. by left.
        -- split; [set_solver|]. exists f. split; [|done]. apply elem_of_cons. by right.
      * intros (Hn & f & [->|Hf]%elem_of_cons & <-); [by left|].
        destruct (decide (key f = key e)) as [->|Hne]; [by left|right].
        split; [set_solver|eauto].
Qed.

Lemma keys_NoDup h : NoDup (keys h).
Proof. apply keys_from_spec. Qed.

Lemma elem_of_keys h k : k ∈ keys h <-> exists e, e ∈ h /\ key e = k.
Proof. unfold keys. rewrite (proj2 (keys_from_spec ∅ h)). set_solver. Qed.

Record keys_post (h : History) (budget : Z) (ks : list bytes) (und : option Verdict)
    (v : Verdict) : Prop := {
  kp_lin : v = Linearizable -> und = None /\ forall k, k ∈ ks -> linearizable (for_key h k);
  kp_not w : v = NotLinearizable w ->
    v_key w ∈ ks /\ ~ linearizable (for_key h (v_key w)) /\ evidence (for_key h (v_key w)) w;
  kp_inc k n : v = Inconclusive k n ->
    (und = Some (Inconclusive k n) \/
     (k ∈ ks /\ check_one_key k (for_key h k) budget = Some v)) /\
    forall k', k' ∈ ks -> forall w, check_one_key k' (for_key h k') budget <> Some (NotLinearizable w)
}.

Lemma check_keys_spec h budget ks und :
  Forall wf_entry h ->
  (forall u, und = Some u -> exists k n, u = Inconclusive k n) ->
  exists v, check_keys h budget ks und = Some v /\ keys_post h budget ks und v.
Proof.
  intros Hwf. revert und. induction ks as [|k ks IH]; intros und Hund.
  { simpl. eexists. split; [done|]. destruct und as [u|]; simpl.
    - destruct (Hund u eq_refl) as (k & n & ->). split; try done.
      intros ? ? [= -> ->]. split; [by left|]. by intros ? []%elem_of_nil.
    - split; [|done|done]. intros _. split; [done|]. by intros ? []%elem_of_nil. }
  cbn [check_keys].
  destruct (check_one_key_spec k (for_key h k) budget) as (v & E & Hr & Hev);
    [by apply wf_for_key|]. rewrite E. simpl. destruct v as [|w|k' n].
  - destruct (IH und Hund) as (v & -> & [H1 H2 H3]). exists v. split; [done|]. split.
    + intros Hv. destruct (H1 Hv) as [? Hk]. split; [done|].
      intros k' [->|Hk']%elem_of_cons; auto.
    + intros w Hv. destruct (H2 w Hv) as (? & ? & ?). split_and!; try done.
      apply elem_of_cons. by right.
    + intros k' n Hv. destruct (H3 k' n Hv) as [Hor Hno]. split.
      * destruct Hor as [?|[? ?]]; [by left|right]. split; [|done]. apply elem_of_cons. by right.
      * intros k'' [->|Hk'']%elem_of_cons; [congruence|auto].
  - exists (NotLinearizable w). split; [done|]. destruct Hr as [Hno Hk]. split; try done.
    intros w' [= <-]. rewrite Hk. split_and!; [apply elem_of_cons; by left|done|auto].
  - destruct Hr as (-> & _).
    destruct (IH (Some (match und with None => Inconclusive k n | Some u => u end)))
      as (v & E' & [H1 H2 H3]).
    { intros u [= <-]. destruct und as [u|]; [by apply Hund|eauto]. }
    exists v. split; [by destruct und|]. split.
    + intros Hv. by destruct (H1 Hv).
    + intros w Hv. destruct (H2 w Hv) as (? & ? & ?). split_and!; try done.
      apply elem_of_cons. by right.
    + intros k' n' Hv. destruct (H3 k' n' Hv) as [Hor Hno]. split.
      * destruct Hor as [Hu|[? ?]]; [|right; split; [apply elem_of_cons; by right|done]].
        destruct und as [u|]; [by left|]. injection Hu as -> ->.
        right. split; [apply elem_of_cons; by left|by rewrite Hv].
      * intros k'' [->|Hk'']%elem_of_cons; [congruence|auto].
Qed.

(** C1: The checker is total and right about the whole history.  On any recorded
  history (windows not empty, no return for a lost answer) and any budget it
  returns a verdict; [Linearizable] means that the history has a linearization
  against one key/value store; [NotLinearizable] means that it has none, and the
  key it names is broken by itself; [Inconclusive] means that the named key's
  search visited exactly the budget and that no key was found broken. *)
Theorem check_correct (h : History) (budget : Z) :
  Forall wf_entry h ->
  exists v, check_with_budget h budget = Some v /\
    match v with
    | Linearizable => hist_linearizable h
    | NotLinearizable w =>
        ~ hist_linearizable h /\ ~ linearizable (for_key h (v_key w)) /\
        evidence (for_key h (v_key w)) w
    | Inconclusive k n =>
        k ∈ keys h /\ (0 <= budget -> n = budget) /\
        forall k' w, k' ∈ keys h ->
          check_one_key k' (for_key h k') budget <> Some (NotLinearizable w)
    end.
Proof.
  intros Hwf. destruct (check_keys_spec h budget (keys h) None) as (v & E & [H1 H2 H3]); [done..|].
  exists v. split; [exact E|]. destruct v as [|w|k n].
  - apply (locality h (keys h)); [apply keys_NoDup| |by apply H1].
    intros e He. apply elem_of_keys. eauto.
  - destruct (H2 w eq_refl) as (Hk & Hno & Hev). split_and!; [|done..].
    intros Hl. by apply Hno, hist_linearizable_for_key.
  - destruct (H3 k n eq_refl) as [[?|[Hk Hc]] Hno]; [done|].
    destruct (check_one_key_spec k (for_key h k) budget) as (v & E' & Hr & _);
      [by apply wf_for_key|].
    rewrite Hc in E'. injection E' as <-. destruct Hr as (_ & _ & Hn). split_and!; auto.
Qed.

(** C2: The search for one key is sound and complete.  Within its budget the
  memoised, bitmap-keyed search answers [true] exactly when the sub-history is
  linearizable; [false] with the budget exhausted says nothing. *)
Theorem search_decides (entries : list Entry) (budget : Z) :
  Forall wf_entry entries ->
  exists ok s, run entries (new_search entries budget) = Some (ok, s) /\
    (0 <= budget -> 0 <= states s <= budget) /\
    (ok = true -> linearizable entries) /\
    (ok = false -> exhausted_budget s = false -> ~ linearizable entries) /\
    (ok = false -> exhausted_budget s = true -> budget <= states s).
Proof.
  intros Hwf. destruct (run_spec entries budget Hwf) as (ok & s & E & []). eauto 10.
Qed.

(** The culprit is the first return that made the history impossible.  When
  every prefix search stays within the budget, a violation carries the history
  as it stood when the culprit returned; that prefix is impossible, and at every
  earlier instant the history was still possible. *)
Theorem culprit_is_earliest (k : bytes) (entries : list Entry) (budget : Z) (w : Violation) :
  Forall wf_entry entries ->
  (forall t i, (t, i) ∈ sorted_returns entries -> decided entries budget t) ->
  check_one_key k entries budget = Some (NotLinearizable w) ->
  let t := ret_ns (v_culprit w) in
  v_entries w = (prefix_at entries t).1 /\ ~ prefix_possible entries t /\
  forall t', 0 <= t' < t -> prefix_possible entries t'.
Proof.
  intros Hwf Hdec. unfold check_one_key.
  destruct (run_spec entries budget Hwf) as (ok & s & -> & [_ _ Hf _]). simpl.
  destruct ok; [done|]. destruct (exhausted_budget s) eqn:Hex; [done|].
  specialize (Hf eq_refl eq_refl).
  destruct (bisect_spec entries budget Hwf (length (sorted_returns entries)) 0
    (length (sorted_returns entries)) None) as (b & -> & Hb & Hl); [lia|lia|lia|done|]. simpl.
  destruct Hl as [x [Hk Hx]]; [done|split; [lia|done]|].
  pose proof (impossible_somewhere entries Hwf x Hf Hk).
  destruct b as [[[[c shown] ba] bst]|]; [|lia].
  destruct Hx as (t & Hxt & Hno).
  pose proof (list_elem_of_lookup_2 _ _ _ Hxt) as (e & Hc & Hu & ->)%sorted_returns_elem.
  destruct Hb as (t2 & (e2 & Hc2 & _ & ->)%sorted_returns_elem & -> & _).
  rewrite Hc in *. injection Hc2 as <-. simpl. intros [= <-]. simpl.
  split_and!; [done|done|]. intros t' Ht'. apply possible_from_returns; [done|lia|].
  intros r i [j Hj]%list_elem_of_lookup Hr. apply (Hk j (r, i)); [|done].
  destruct (decide (j < x)%nat) as [|Hge]; [done|].
  pose proof (sorted_returns_le entries x j _ _ Hxt Hj ltac:(lia)). simpl in *. lia.
Qed.

(** A history of several keys is linearizable against one key/value store
  exactly when the sub-history of every key it mentions is. *)
Theorem keys_are_independent (h : History) :
  hist_linearizable h <-> (forall k, k ∈ keys h -> linearizable (for_key h k)).
Proof.
  apply locality; [apply keys_NoDup|]. intros e He. apply elem_of_keys. eauto.
Qed.

(** ** Concrete histories *)

(** A write answered at 10, a read of its value, and a read that misses it. *)
Definition sample_write : Entry := mkEntry 0 1 [x6b] (Write [x31]) OkAck 0 10 [].
Definition sample_read (v : option bytes) : Entry := mkEntry 1 2 [x6b] Read (Value v) 12 20 [].
Definition good_history : History := [sample_write; sample_read (Some [x31])].
Definition bad_history : History := [sample_write; sample_read None].

Lemma sample_history_wf v : Forall wf_entry [sample_write; sample_read v].
Proof.
  apply Forall_cons_2; [|apply Forall_cons_2; [|apply Forall_nil_2]];
    (split; [split|split]; vm_compute; congruence || tauto).
Qed.

Definition bad_violation : Violation :=
  mkViolation [x6b] bad_history (sample_read None) [0%nat] (Some [x31]) 2.

Lemma check_correct_witness : hist_linearizable good_history /\ ~ hist_linearizable bad_history.
Proof.
  split.
  - destruct (check_correct good_history 1000 (sample_history_wf _)) as (v & E & H).
    assert (check_with_budget good_history 1000 = Some Linearizable) as E' by (by vm_compute).
    rewrite E' in E. by injection E as <-.
  - destruct (check_correct bad_history 1000 (sample_history_wf _)) as (v & E & H).
    assert (check_with_budget bad_history 1000 = Some (NotLinearizable bad_violation)) as E'
      by (by vm_compute).
    rewrite E' in E. injection E as <-. by destruct H.
Defined.

Lemma search_decides_witness : ~ linearizable bad_history.
Proof.
  destruct (search_decides bad_history 1000 (sample_history_wf _)) as (ok & s & E & _ & _ & H & _).
  assert ((fun p => (p.1, exhausted_budget p.2)) <$> run bad_history (new_search bad_history 1000)
          = Some (false, false)) as E' by (by vm_compute).
  rewrite E in E'. injection E' as -> Hs. by apply H.
Defined.

Lemma culprit_is_earliest_witness :
  v_entries bad_violation = (prefix_at bad_history 20).1 /\ ~ prefix_possible bad_history 20 /\
  prefix_possible bad_history 10.
Proof.
  destruct (culprit_is_earliest [x6b] bad_history 1000 bad_violation) as (H1 & H2 & H3).
  - apply sample_history_wf.
  - intros t i Hin ok s E ->.
    assert (forall t, t ∈ [10; 20] -> exhausted_budget <$> (snd <$> run (prefix_at bad_history t).2
      (new_search (prefix_at bad_history t).2 1000)) = Some false) as Hd.
    { intros t' Ht. repeat (apply elem_of_cons in Ht as [->|Ht]; [by vm_compute|]). by apply elem_of_nil in Ht. }
    assert (t ∈ [10; 20]) as Ht.
    { change [10; 20] with ((sorted_returns bad_history).*1). apply list_elem_of_fmap. by exists (t, i). }
    specialize (Hd t Ht). rewrite E in Hd. by injection Hd.
  - by vm_compute.
  - split; [exact H1|]. split; [exact H2|]. apply H3. by vm_compute.
Defined.
