(* ===== verification/Text.v ===== *)
(** * Text: UTF-8, formatting and parsing

  The behaviour of [String::from_utf8_lossy] and [str::from_utf8] that the
  parsers use on names - a Rust [String] is modelled by its bytes, and the invariant
  of the type is [utf8_valid] - and the parts of [format!] and of [str] that the
  components use. *)

From S2P Require Import Prelude.

Definition between (lo hi : Z) (b : byte) : bool := (lo <=? b2z b) && (b2z b <=? hi).

(** A continuation byte at the head of [bs]. *)
Definition cont (bs : bytes) : bool :=
  match bs with b :: _ => between 0x80 0xBF b | [] => false end.

(** The second byte of a three- and a four-byte sequence. *)
Definition second3 (b : byte) (bs : bytes) : bool :=
  match bs with
  | c :: _ =>
      (between 0xE0 0xE0 b && between 0xA0 0xBF c) || (between 0xE1 0xEC b && between 0x80 0xBF c) ||
      (between 0xED 0xED b && between 0x80 0x9F c) || (between 0xEE 0xEF b && between 0x80 0xBF c)
  | [] => false
  end.

Definition second4 (b : byte) (bs : bytes) : bool :=
  match bs with
  | c :: _ =>
      (between 0xF0 0xF0 b && between 0x90 0xBF c) || (between 0xF1 0xF3 b && between 0x80 0xBF c) ||
      (between 0xF4 0xF4 b && between 0x80 0x8F c)
  | [] => false
  end.

(** [utf8_head b rest]: how many bytes of [rest] belong to the chunk [b] starts,
  and whether the chunk is a character. *)
Definition utf8_head (b : byte) (rest : bytes) : nat * bool :=
  if between 0 0x7F b then (0%nat, true)
  else if between 0xC2 0xDF b then if cont rest then (1%nat, true) else (0%nat, false)
  else if between 0xE0 0xEF b then
    if second3 b rest then if cont (drop 1 rest) then (2%nat, true) else (1%nat, false)
    else (0%nat, false)
  else if between 0xF0 0xF4 b then
    if second4 b rest then
      if cont (drop 1 rest) then
        if cont (drop 2 rest) then (3%nat, true) else (2%nat, false)
      else (1%nat, false)
    else (0%nat, false)
  else (0%nat, false).

(** U+FFFD. *)
Definition replacement : bytes := [xef; xbf; xbd].

Fixpoint utf8_lossy_fuel (fuel : nat) (bs : bytes) : bytes :=
  match fuel, bs with
  | S fuel, b :: rest =>
      let '(k, ok) := utf8_head b rest in
      (if ok then b :: take k rest else replacement) ++ utf8_lossy_fuel fuel (drop k rest)
  | _, _ => []
  end.

(** [String::from_utf8_lossy]. *)
Definition utf8_lossy (bs : bytes) : bytes := utf8_lossy_fuel (length bs) bs.

Fixpoint utf8_valid_fuel (fuel : nat) (bs : bytes) : bool :=
  match fuel, bs with
  | S fuel, b :: rest =>
      let '(k, ok) := utf8_head b rest in ok && utf8_valid_fuel fuel (drop k rest)
  | _, [] => true
  | _, _ => false
  end.

(** [str::from_utf8(bs).is_ok()]. *)
Definition utf8_valid (bs : bytes) : bool := utf8_valid_fuel (length bs) bs.

Lemma utf8_lossy_valid_fuel fuel bs :
  utf8_valid_fuel fuel bs = true -> utf8_lossy_fuel fuel bs = bs.
Proof.
  revert bs. induction fuel as [|fuel IH]; intros [|b rest]; simpl; try done.
  destruct (utf8_head b rest) as [k ok].
  intros [-> Hv]%andb_true_iff. rewrite (IH _ Hv). simpl. by rewrite take_drop.
Qed.

(** Decoding what is valid changes nothing. *)
Lemma utf8_lossy_valid bs : utf8_valid bs = true -> utf8_lossy bs = bs.
Proof. apply utf8_lossy_valid_fuel. Qed.

(** More fuel than bytes changes nothing. *)
Lemma utf8_valid_enough f g bs :
  (length bs <= f)%nat -> (length bs <= g)%nat -> utf8_valid_fuel f bs = utf8_valid_fuel g bs.
Proof.
  revert g bs. induction f as [|f IH]; intros g [|b rest] Hf Hg; simpl in *; try lia.
  - by destruct g.
  - by destruct g.
  - destruct g as [|g]; [lia|]. simpl. destruct (utf8_head b rest) as [k ok]. f_equal.
    apply IH; rewrite length_drop; lia.
Qed.

Lemma utf8_valid_cons b rest :
  utf8_valid (b :: rest) =
  snd (utf8_head b rest) && utf8_valid (drop (fst (utf8_head b rest)) rest).
Proof.
  unfold utf8_valid. simpl. destruct (utf8_head b rest) as [k ok]. simpl. f_equal.
  apply utf8_valid_enough; rewrite length_drop; lia.
Qed.

(** ASCII text is valid. *)
Lemma utf8_valid_ascii bs : Forall (fun b => b2z b <= 0x7F) bs -> utf8_valid bs = true.
Proof.
  induction 1 as [|b rest Hb _ IH]; [done|]. rewrite utf8_valid_cons.
  assert (between 0 0x7F b = true) as E.
  { unfold between. pose proof (b2z_range b). lia. }
  unfold utf8_head. rewrite E. done.
Qed.

(** Valid text concatenates. *)
Lemma utf8_valid_app bs cs : utf8_valid bs = true -> utf8_valid cs = true -> utf8_valid (bs ++ cs) = true.
Proof.
  intros Hb Hc. revert bs Hb.
  assert (forall n bs, (length bs <= n)%nat -> utf8_valid bs = true -> utf8_valid (bs ++ cs) = true) as H.
  { induction n as [|n IH]; intros [|b rest] Hn Hb; simpl in Hn; try done; try lia.
    rewrite utf8_valid_cons in Hb. apply andb_true_iff in Hb as [Hok Hv].
    simpl. rewrite utf8_valid_cons.
    destruct (utf8_head b rest) as [k ok] eqn:E. simpl in *. subst ok.
    assert (utf8_head b (rest ++ cs) = (k, true) /\ (k <= length rest)%nat) as [-> Hk].
    { revert E. unfold utf8_head. destruct rest as [|c1 [|c2 [|c3 rest]]]; simpl;
        repeat case_match; try done; intros [= <-]; split; try done; simpl; lia. }
    simpl. rewrite drop_app_le by done. apply IH; [|done]. rewrite length_drop. lia. }
  intros bs. by apply (H (length bs)).
Qed.

(** ** Text formatting and parsing

  The parts of [format!] and of [str] that the components use: decimal and
  hexadecimal display, padding ([{:<w}] counts characters, not bytes), trimming
  and [str::parse::<usize>]. *)

Definition str (s : string) : bytes := String.list_byte_of_string s.

(** ** Display *)

Definition digit_char (d : Z) : byte := z2b (if d <? 10 then 48 + d else 87 + d).

Fixpoint digits_fuel (fuel : nat) (base z : Z) (acc : bytes) : bytes :=
  match fuel with
  | O => acc
  | S fuel =>
      let acc := digit_char (z mod base) :: acc in
      if z <? base then acc else digits_fuel fuel base (z / base) acc
  end.

(** [{}] and [{:x}] of an unsigned integer: no more digits than bits. *)
Definition digits (base z : Z) : bytes := digits_fuel (S (Z.to_nat (Z.log2 z))) base z [].
Definition dec (z : Z) : bytes := digits 10 z.
Definition hex (z : Z) : bytes := digits 16 z.

Definition space : byte := x20.

(** The number of [char]s of valid text: every byte that is not a continuation. *)
Definition char_count (bs : bytes) : nat :=
  length (filter (fun b => between 0x80 0xBF b = false) bs).

(** [{s:<w}]. *)
Definition pad_right (w : nat) (bs : bytes) : bytes := bs ++ replicate (w - char_count bs) space.

(** [{:0w$}] of text that is digits: zeros on the left. *)
Definition pad_zero (w : nat) (bs : bytes) : bytes := replicate (w - length bs) x30 ++ bs.

(** [{}] of a signed integer. *)
Definition dec_signed (z : Z) : bytes := if z <? 0 then x2d :: dec (- z) else dec z.

(** [slice::join] and [{:?}] of a vector of printed items. *)
Fixpoint join (sep : bytes) (items : list bytes) : bytes :=
  match items with
  | [] => []
  | [a] => a
  | a :: rest => a ++ sep ++ join sep rest
  end.
Definition debug_list (items : list bytes) : bytes := str "[" ++ join (str ", ") items ++ str "]".

(** ** Parsing *)

Definition digit_val (b : byte) : option Z :=
  if between 48 57 b then Some (b2z b - 48) else None.

(** [checked_mul] and [checked_add] on [usize], digit by digit. *)
Fixpoint parse_digits (acc : Z) (bs : bytes) : option Z :=
  match bs with
  | [] => Some acc
  | b :: bs =>
      d ← digit_val b;
      if U64_MAX <? acc * 10 then None
      else if U64_MAX <? acc * 10 + d then None
      else parse_digits (acc * 10 + d) bs
  end.

(** [str::parse::<usize>]: digits after an optional [+]. *)
Definition parse_usize (bs : bytes) : option Z :=
  match bs with
  | [] => None
  | b :: rest =>
      if decide (b = x2b) then match rest with [] => None | _ => parse_digits 0 rest end
      else parse_digits 0 bs
  end.

(** ** Trimming *)

(** One [White_Space] character at the front of [bs]: how many bytes it has. *)
Definition ws_front (bs : bytes) : nat :=
  match bs with
  | [] => 0
  | b :: rest =>
      if between 9 13 b || between 0x20 0x20 b then 1
      else match b, rest with
           | xc2, c :: _ => if between 0x85 0x85 c || between 0xA0 0xA0 c then 2 else 0
           | xe1, x9a :: x80 :: _ => 3
           | xe2, x80 :: c :: _ =>
               if between 0x80 0x8A c || between 0xA8 0xA9 c || between 0xAF 0xAF c then 3 else 0
           | xe2, x81 :: x9f :: _ => 3
           | xe3, x80 :: x80 :: _ => 3
           | _, _ => 0
           end
  end%nat.

Fixpoint trim_start_fuel (fuel : nat) (bs : bytes) : bytes :=
  match fuel with
  | O => bs
  | S fuel => match ws_front bs with O => bs | k => trim_start_fuel fuel (drop k bs) end
  end.
Definition trim_start (bs : bytes) : bytes := trim_start_fuel (length bs) bs.

(** One [White_Space] character at the end of [bs]. *)
Definition ws_back (bs : bytes) : nat :=
  let n := length bs in
  if bool_decide (1 <= n)%nat && bool_decide (ws_front (drop (n - 1) bs) = 1%nat) then 1
  else if bool_decide (2 <= n)%nat && bool_decide (ws_front (drop (n - 2) bs) = 2%nat) then 2
  else if bool_decide (3 <= n)%nat && bool_decide (ws_front (drop (n - 3) bs) = 3%nat) then 3
  else 0%nat.

Fixpoint trim_end_fuel (fuel : nat) (bs : bytes) : bytes :=
  match fuel with
  | O => bs
  | S fuel => match ws_back bs with O => bs | k => trim_end_fuel fuel (take (length bs - k) bs) end
  end.
Definition trim_end (bs : bytes) : bytes := trim_end_fuel (length bs) bs.
Definition trim (bs : bytes) : bytes := trim_end (trim_start bs).

(** [trim_end_matches(c)] for an ASCII character. *)
Fixpoint drop_while_eq (c : byte) (bs : bytes) : bytes :=
  match bs with b :: bs' => if decide (b = c) then drop_while_eq c bs' else bs | [] => [] end.
Definition trim_end_matches (c : byte) (bs : bytes) : bytes := reverse (drop_while_eq c (reverse bs)).

(** [split(c).next()]: everything before the first [c]. *)
Fixpoint split_first (c : byte) (bs : bytes) : bytes :=
  match bs with b :: bs' => if decide (b = c) then [] else b :: split_first c bs' | [] => [] end.

(** ** Searching and splitting *)

(** [str::find] of a text, and the first window of a slice. *)
Fixpoint find_bytes (haystack needle : bytes) : option nat :=
  if decide (take (length needle) haystack = needle) then Some 0%nat
  else match haystack with [] => None | _ :: rest => S <$> find_bytes rest needle end.

Definition contains (text needle : bytes) : bool := bool_decide (is_Some (find_bytes text needle)).

(** [str::lines]. *)
Fixpoint split_lines (cur : bytes) (text : bytes) : list bytes :=
  match text with
  | [] => match cur with [] => [] | _ => [reverse cur] end
  | b :: text =>
      if decide (b = x0a) then
        match cur with
        | x0d :: cur => reverse cur :: split_lines [] text
        | _ => reverse cur :: split_lines [] text
        end
      else split_lines (b :: cur) text
  end.
Definition lines (text : bytes) : list bytes := split_lines [] text.

Definition strip_prefix (prefix text : bytes) : option bytes :=
  if decide (take (length prefix) text = prefix) then Some (drop (length prefix) text) else None.

(** [split] by a byte, and by an ASCII character. *)
Fixpoint split_on (c : byte) (bs : bytes) : list bytes :=
  match bs with
  | [] => [[]]
  | b :: bs =>
      if decide (b = c) then [] :: split_on c bs
      else match split_on c bs with
           | s :: ss => (b :: s) :: ss
           | [] => [[b]]
           end
  end.

Lemma find_bytes_bound h n i : find_bytes h n = Some i -> (i + length n <= length h)%nat.
Proof.
  revert i. induction h as [|x h IH]; intros i; cbn [find_bytes].
  - destruct (decide _) as [E|]; [|done]. intros [= <-]. rewrite <- E, length_take. cbn. lia.
  - destruct (decide _) as [E|].
    + intros [= <-]. rewrite <- E at 1. rewrite length_take. cbn. lia.
    + destruct (find_bytes h n) as [j|]; cbn; [|done]. intros [= <-]. specialize (IH j eq_refl). lia.
Qed.

Lemma split_on_cut c s rest : c ∉ s -> split_on c (s ++ c :: rest) = s :: split_on c rest.
Proof.
  induction s as [|b s IH]; intros Hn; simpl; [by rewrite decide_True|].
  apply not_elem_of_cons in Hn as [Hb Hs]. rewrite decide_False by congruence. by rewrite (IH Hs).
Qed.

Definition good_entry (e : Z * bytes) : Prop := in_u 32 e.1 /\ utf8_valid e.2 = true /\ x00 ∉ e.2.

(** ** Decimal round trip *)

Lemma digit_char_dec d : 0 <= d < 10 -> digit_val (digit_char d) = Some d.
Proof.
  intros Hd. unfold digit_val, digit_char, between. rewrite (proj2 (Z.ltb_lt d 10)) by lia.
  rewrite z2b_small by lia. replace ((48 <=? 48 + d) && (48 + d <=? 57)) with true by lia.
  f_equal. lia.
Qed.

Lemma digit_char_not_plus d : 0 <= d < 10 -> digit_char d <> x2b.
Proof.
  intros Hd E. apply (f_equal digit_val) in E. rewrite digit_char_dec in E by done. done.
Qed.

Lemma digits_fuel_app fuel base z acc :
  digits_fuel fuel base z acc = digits_fuel fuel base z [] ++ acc.
Proof.
  revert z acc. induction fuel as [|fuel IH]; intros z acc; simpl; [done|].
  destruct (z <? base); [done|]. rewrite IH, (IH _ [_]), <- app_assoc. done.
Qed.

Lemma digits_unfold fuel z :
  0 <= z -> (Z.to_nat (Z.log2 z) < fuel)%nat ->
  digits_fuel fuel 10 z [] =
    (if z <? 10 then [] else digits_fuel (pred fuel) 10 (z / 10) []) ++ [digit_char (z mod 10)].
Proof.
  intros Hz Hf. destruct fuel as [|fuel]; [lia|]. simpl.
  destruct (z <? 10); [done|]. apply digits_fuel_app.
Qed.

Lemma log2_div10 z : 10 <= z -> (Z.to_nat (Z.log2 (z / 10)) < Z.to_nat (Z.log2 z))%nat.
Proof.
  intros Hz. assert (Z.log2 (z / 10) < Z.log2 z); [|pose proof (Z.log2_nonneg (z / 10)); lia].
  assert (z / 10 <= z / 2) by (apply Z.div_le_compat_l; lia).
  pose proof (Z.log2_le_mono (z / 10) (z / 2) ltac:(lia)).
  rewrite <- Z.div2_div in H0. pose proof (Z.log2_shiftr z 1 ltac:(lia)) as E.
  rewrite Z.shiftr_div_pow2 in E by lia. change (2 ^ 1) with 2 in E.
  rewrite Z.div2_div in H0. pose proof (Z.log2_pos z ltac:(lia)). lia.
Qed.

Lemma parse_digits_app acc a b :
  parse_digits acc (a ++ b) = acc' ← parse_digits acc a; parse_digits acc' b.
Proof.
  revert acc. induction a as [|x a IH]; intros acc; simpl; [done|].
  destruct (digit_val x); simpl; [|done]. repeat case_match; auto.
Qed.

Lemma parse_digits_fuel fuel z :
  0 <= z <= U64_MAX -> (Z.to_nat (Z.log2 z) < fuel)%nat ->
  parse_digits 0 (digits_fuel fuel 10 z []) = Some z.
Proof.
  revert z. induction fuel as [|fuel IH]; intros z Hz Hf; [lia|].
  rewrite digits_unfold by lia. pose proof (Z.mod_pos_bound z 10 ltac:(lia)).
  pose proof (Z.div_mod z 10 ltac:(lia)).
  rewrite parse_digits_app. simpl pred.
  assert (parse_digits 0 (if z <? 10 then [] else digits_fuel fuel 10 (z / 10) []) = Some (z / 10)) as ->.
  { destruct (Z.ltb_spec z 10).
    - rewrite Z.div_small by lia. done.
    - apply IH; [|pose proof (log2_div10 z); lia]. lia. }
  cbn [mbind option_bind parse_digits]. rewrite digit_char_dec by lia. simpl.
  rewrite !(proj2 (Z.ltb_ge _ _)) by lia. f_equal. lia.
Qed.

Lemma digits_head fuel z acc :
  0 <= z -> exists d rest, 0 <= d < 10 /\ digits_fuel (S fuel) 10 z acc = digit_char d :: rest.
Proof.
  revert z acc. induction fuel as [|fuel IH]; intros z acc Hz.
  - pose proof (Z.mod_pos_bound z 10 ltac:(lia)). simpl. destruct (z <? 10); eauto.
  - pose proof (Z.mod_pos_bound z 10 ltac:(lia)).
    change (digits_fuel (S (S fuel)) 10 z acc) with
      (if z <? 10 then digit_char (z mod 10) :: acc
       else digits_fuel (S fuel) 10 (z / 10) (digit_char (z mod 10) :: acc)).
    destruct (z <? 10); [eauto|]. apply IH. apply Z.div_pos; lia.
Qed.

(** Printing an unsigned integer and parsing it back. *)
Lemma parse_usize_dec z : 0 <= z <= U64_MAX -> parse_usize (dec z) = Some z.
Proof.
  intros Hz. unfold dec, digits.
  destruct (digits_head (Z.to_nat (Z.log2 z)) z [] ltac:(lia)) as (d & rest & Hd & E).
  unfold parse_usize. rewrite E. rewrite decide_False by (by apply digit_char_not_plus).
  rewrite <- E. apply parse_digits_fuel; [done|lia].
Qed.
