(* ===== verification/Elf.v ===== *)
(** * ELF64 constants and packed fields ([linktest/src/elf/mod.rs])

  The constants keep the names of the ELF-64 gABI; [st_info] and [r_info] pack
  two fields into one integer, with the widths of the source written out. *)

From S2P Require Import Prelude Text.

(** ** Constants *)

Definition ELF_MAGIC : bytes := [x7f; x45; x4c; x46].
Definition EI_NIDENT : nat := 16.
Definition ELFCLASS32 : byte := x01.
Definition ELFCLASS64 : byte := x02.
Definition ELFDATA2LSB : byte := x01.
Definition ELFDATA2MSB : byte := x02.
Definition EV_CURRENT : byte := x01.
Definition ELFOSABI_SYSV : byte := x00.

Definition ET_NONE : Z := 0.
Definition ET_REL : Z := 1.
Definition ET_EXEC : Z := 2.
Definition ET_DYN : Z := 3.
Definition ET_CORE : Z := 4.
Definition EM_X86_64 : Z := 62.
Definition EM_386 : Z := 3.
Definition EM_AARCH64 : Z := 183.

Definition EHDR_SIZE : Z := 64.
Definition PHDR_SIZE : Z := 56.
Definition SHDR_SIZE : Z := 64.
Definition SYM_SIZE : Z := 24.
Definition RELA_SIZE : Z := 24.
Definition REL_SIZE : Z := 16.
Definition PAGE_SIZE : Z := 0x1000.

Definition SHT_NULL : Z := 0.
Definition SHT_PROGBITS : Z := 1.
Definition SHT_SYMTAB : Z := 2.
Definition SHT_STRTAB : Z := 3.
Definition SHT_RELA : Z := 4.
Definition SHT_HASH : Z := 5.
Definition SHT_DYNAMIC : Z := 6.
Definition SHT_NOTE : Z := 7.
Definition SHT_NOBITS : Z := 8.
Definition SHT_REL : Z := 9.
Definition SHT_INIT_ARRAY : Z := 14.
Definition SHT_FINI_ARRAY : Z := 15.
Definition SHT_PREINIT_ARRAY : Z := 16.
Definition SHT_UNKNOWN_OS : Z := 0x60000042.

Definition SHF_ALLOC : Z := 0x2.
Definition SHF_WRITE : Z := 0x1.
Definition SHF_EXECINSTR : Z := 0x4.
Definition SHF_MERGE : Z := 0x10.
Definition SHF_STRINGS : Z := 0x20.
Definition SHF_INFO_LINK : Z := 0x40.
Definition SHF_GROUP : Z := 0x200.
Definition SHF_TLS : Z := 0x400.

Definition SHN_UNDEF : Z := 0.
Definition SHN_ABS : Z := 0xfff1.
Definition SHN_COMMON : Z := 0xfff2.
Definition SHN_XINDEX : Z := 0xffff.
Definition SHN_LORESERVE : Z := 0xff00.

Definition PT_NULL : Z := 0.
Definition PT_LOAD : Z := 1.
Definition PT_DYNAMIC : Z := 2.
Definition PT_INTERP : Z := 3.
Definition PT_NOTE : Z := 4.
Definition PT_PHDR : Z := 6.
Definition PT_TLS : Z := 7.
Definition PT_GNU_EH_FRAME : Z := 0x6474e550.
Definition PT_GNU_STACK : Z := 0x6474e551.
Definition PT_GNU_PROPERTY : Z := 0x6474e553.

Definition PF_X : Z := 0x1.
Definition PF_W : Z := 0x2.
Definition PF_R : Z := 0x4.

(** [flags & bit != 0]. *)
Definition has_flag (flags bit : Z) : bool := negb (Z.land flags bit =? 0).

Definition flags_string (flags : Z) : bytes :=
  [ if has_flag flags PF_R then x52 else space;
    if has_flag flags PF_W then x57 else space;
    if has_flag flags PF_X then x58 else space ].

Definition STB_LOCAL : Z := 0.
Definition STB_GLOBAL : Z := 1.
Definition STB_WEAK : Z := 2.

Definition STT_NOTYPE : Z := 0.
Definition STT_OBJECT : Z := 1.
Definition STT_FUNC : Z := 2.
Definition STT_SECTION : Z := 3.
Definition STT_FILE : Z := 4.
Definition STT_COMMON : Z := 5.

Definition STV_DEFAULT : Z := 0.
Definition STV_INTERNAL : Z := 1.
Definition STV_HIDDEN : Z := 2.
Definition STV_PROTECTED : Z := 3.

(** ** Packed fields *)

(** [(bind << 4) | (stype & 0xf)] on [u8]. *)
Definition st_info (bind stype : Z) : Z := Z.lor (wrap_u 8 (Z.shiftl bind 4)) (Z.land stype 0xf).
Definition st_bind (info : Z) : Z := Z.shiftr info 4.
Definition st_type (info : Z) : Z := Z.land info 0xf.

(** [((sym as u64) << 32) | (kind as u64)]. *)
Definition r_info (sym kind : Z) : Z := Z.lor (wrap_u 64 (Z.shiftl sym 32)) kind.
Definition r_sym (info : Z) : Z := wrap_u 32 (Z.shiftr info 32).
Definition r_type (info : Z) : Z := wrap_u 32 (Z.land info 0xffffffff).

(** ** Relocation types *)

Definition R_X86_64_NONE : Z := 0.
Definition R_X86_64_64 : Z := 1.
Definition R_X86_64_PC32 : Z := 2.
Definition R_X86_64_GOT32 : Z := 3.
Definition R_X86_64_PLT32 : Z := 4.
Definition R_X86_64_GOTPCREL : Z := 9.
Definition R_X86_64_32 : Z := 10.
Definition R_X86_64_32S : Z := 11.
Definition R_X86_64_16 : Z := 12.
Definition R_X86_64_PC16 : Z := 13.
Definition R_X86_64_8 : Z := 14.
Definition R_X86_64_PC8 : Z := 15.
Definition R_X86_64_PC64 : Z := 24.
Definition R_X86_64_TPOFF32 : Z := 23.
Definition R_X86_64_GOTPCRELX : Z := 41.
Definition R_X86_64_REX_GOTPCRELX : Z := 42.

Definition reloc_name (kind : Z) : bytes :=
  match kind with
  | 0 => str "R_X86_64_NONE"
  | 1 => str "R_X86_64_64"
  | 2 => str "R_X86_64_PC32"
  | 3 => str "R_X86_64_GOT32"
  | 4 => str "R_X86_64_PLT32"
  | 9 => str "R_X86_64_GOTPCREL"
  | 10 => str "R_X86_64_32"
  | 11 => str "R_X86_64_32S"
  | 12 => str "R_X86_64_16"
  | 13 => str "R_X86_64_PC16"
  | 14 => str "R_X86_64_8"
  | 15 => str "R_X86_64_PC8"
  | 24 => str "R_X86_64_PC64"
  | 41 => str "R_X86_64_GOTPCRELX"
  | 42 => str "R_X86_64_REX_GOTPCRELX"
  | other => str "R_X86_64_<" ++ dec other ++ str ">"
  end.

Definition section_type_name (sh_type : Z) : bytes :=
  match sh_type with
  | 0 => str "NULL"
  | 1 => str "PROGBITS"
  | 2 => str "SYMTAB"
  | 3 => str "STRTAB"
  | 4 => str "RELA"
  | 5 => str "HASH"
  | 6 => str "DYNAMIC"
  | 7 => str "NOTE"
  | 8 => str "NOBITS"
  | 14 => str "INIT_ARRAY"
  | 15 => str "FINI_ARRAY"
  | 16 => str "PREINIT_ARRAY"
  | 9 => str "REL"
  | other => str "0x" ++ hex other
  end.

Definition segment_type_name (p_type : Z) : bytes :=
  match p_type with
  | 0 => str "NULL"
  | 1 => str "LOAD"
  | 2 => str "DYNAMIC"
  | 3 => str "INTERP"
  | 4 => str "NOTE"
  | 6 => str "PHDR"
  | 7 => str "TLS"
  | 0x6474e550 => str "GNU_EH_FRAME"
  | 0x6474e551 => str "GNU_STACK"
  | 0x6474e553 => str "GNU_PROPERTY"
  | other => str "0x" ++ hex other
  end.

(** ** Packing and unpacking *)

Lemma land_shift_low a b k : 0 <= k -> 0 <= b < 2 ^ k -> Z.land (Z.shiftl a k) b = 0.
Proof.
  intros Hk Hb. apply Z.bits_inj'. intros i Hi. rewrite Z.land_spec, Z.bits_0.
  destruct (decide (i < k)); [by rewrite Z.shiftl_spec_low|].
  assert (Z.testbit b i = false) as ->; [|apply andb_false_r].
  rewrite <- (Z.mod_small b (2 ^ k)) by done. apply Z.mod_pow2_bits_high. lia.
Qed.

Lemma lor_shift_low a b k : 0 <= k -> 0 <= b < 2 ^ k -> Z.lor (Z.shiftl a k) b = a * 2 ^ k + b.
Proof.
  intros Hk Hb. pose proof (land_shift_low a b k Hk Hb) as E.
  rewrite <- Z.lxor_lor, <- Z.add_nocarry_lxor, Z.shiftl_mul_pow2 by done. done.
Qed.

Lemma land_low a k : 0 <= k -> Z.land a (2 ^ k - 1) = a mod 2 ^ k.
Proof. intros. rewrite <- Z.land_ones, Z.ones_equiv by done. do 2 f_equal. Qed.

Lemma r_info_val sym kind :
  in_u 32 sym -> in_u 32 kind -> r_info sym kind = sym * 2 ^ 32 + kind.
Proof.
  unfold in_u, r_info, wrap_u. intros Hs Hk. rewrite Z.mod_small.
  - by apply lor_shift_low.
  - rewrite Z.shiftl_mul_pow2 by lia. lia.
Qed.

Lemma r_sym_info sym kind : in_u 32 sym -> in_u 32 kind -> r_sym (r_info sym kind) = sym.
Proof.
  intros Hs Hk. rewrite r_info_val by done. unfold r_sym, wrap_u, in_u in *.
  rewrite Z.shiftr_div_pow2, Z.div_add_l, Z.div_small, Z.mod_small; lia.
Qed.

Lemma r_type_info sym kind : in_u 32 sym -> in_u 32 kind -> r_type (r_info sym kind) = kind.
Proof.
  intros Hs Hk. rewrite r_info_val by done. unfold r_type, wrap_u, in_u in *.
  change 0xffffffff with (2 ^ 32 - 1). rewrite land_low by lia.
  rewrite Z.mod_mod, Z.add_comm, Z.mod_add, Z.mod_small; lia.
Qed.

Lemma r_info_u64 sym kind : in_u 32 sym -> in_u 32 kind -> in_u 64 (r_info sym kind).
Proof. intros Hs Hk. rewrite r_info_val by done. unfold in_u in *. lia. Qed.

Lemma st_info_val bind stype :
  0 <= bind < 16 -> 0 <= stype < 16 -> st_info bind stype = bind * 16 + stype.
Proof.
  intros Hb Ht. unfold st_info, wrap_u. rewrite Z.mod_small.
  2: { rewrite Z.shiftl_mul_pow2 by lia. lia. }
  change 0xf with (2 ^ 4 - 1). rewrite land_low by lia.
  rewrite (Z.mod_small stype) by lia. by apply (lor_shift_low bind stype 4).
Qed.

Lemma st_bind_info bind stype :
  0 <= bind < 16 -> 0 <= stype < 16 -> st_bind (st_info bind stype) = bind.
Proof.
  intros Hb Ht. rewrite st_info_val by done. unfold st_bind.
  rewrite Z.shiftr_div_pow2, Z.div_add_l, Z.div_small; lia.
Qed.

Lemma st_type_info bind stype :
  0 <= bind < 16 -> 0 <= stype < 16 -> st_type (st_info bind stype) = stype.
Proof.
  intros Hb Ht. rewrite st_info_val by done. unfold st_type.
  change 0xf with (2 ^ 4 - 1). rewrite land_low, Z.add_comm, Z.mod_add, Z.mod_small; lia.
Qed.
