(* ===== verification/ElfWrite.v ===== *)
(** * The relocatable-object writer ([linktest/src/elf/write.rs])

  [ObjectBuilder] and its parts are records with the source's fields; [plan]
  decides every index, string offset and relocation, [emit] lays the bytes out.
  Both thread the source's mutable vectors through loops with early returns. *)

From S2P Require Import Prelude Text Elf.

(** ** What a builder holds *)

Inductive SymSection : Type :=
| Undefined
| Absolute
| Common
| InSection (name : bytes)
| RawShndx (v : Z).

Inductive RelTarget : Type :=
| ToSymbol (name : bytes)
| ToSection (name : bytes)
| ToRaw (i : Z).

Record Reloc : Type := mkReloc {
  r_offset : Z;
  r_target : RelTarget;
  r_kind : Z;
  r_addend : Z
}.

Definition reloc_sym (offset : Z) (name : bytes) (kind addend : Z) : Reloc :=
  mkReloc offset (ToSymbol name) kind addend.
Definition reloc_section (offset : Z) (section : bytes) (kind addend : Z) : Reloc :=
  mkReloc offset (ToSection section) kind addend.

Record SectionSpec : Type := mkSection {
  ss_name : bytes;
  ss_type : Z;
  ss_flags : Z;
  ss_align : Z;
  ss_data : bytes;
  ss_nobits_size : Z;
  ss_entsize : Z;
  ss_addr : Z;
  ss_relocs : list Reloc;
  ss_offset_override : option Z;
  ss_size_override : option Z;
  ss_link_override : option Z;
  ss_info_override : option Z
}.

(** [SectionSpec::new] and the constructors built on it. *)
Definition section_new (name : bytes) (sh_type flags : Z) (data : bytes) : SectionSpec :=
  mkSection name sh_type flags 1 data 0 0 0 [] None None None None.

Definition with_align (align : Z) (s : SectionSpec) : SectionSpec :=
  mkSection (ss_name s) (ss_type s) (ss_flags s) align (ss_data s) (ss_nobits_size s)
    (ss_entsize s) (ss_addr s) (ss_relocs s) (ss_offset_override s) (ss_size_override s)
    (ss_link_override s) (ss_info_override s).
Definition with_entsize (entsize : Z) (s : SectionSpec) : SectionSpec :=
  mkSection (ss_name s) (ss_type s) (ss_flags s) (ss_align s) (ss_data s) (ss_nobits_size s)
    entsize (ss_addr s) (ss_relocs s) (ss_offset_override s) (ss_size_override s)
    (ss_link_override s) (ss_info_override s).
Definition with_relocs (rs : list Reloc) (s : SectionSpec) : SectionSpec :=
  mkSection (ss_name s) (ss_type s) (ss_flags s) (ss_align s) (ss_data s) (ss_nobits_size s)
    (ss_entsize s) (ss_addr s) (ss_relocs s ++ rs) (ss_offset_override s) (ss_size_override s)
    (ss_link_override s) (ss_info_override s).
Definition with_reloc (r : Reloc) (s : SectionSpec) : SectionSpec := with_relocs [r] s.
Definition with_offset_override (v : Z) (s : SectionSpec) : SectionSpec :=
  mkSection (ss_name s) (ss_type s) (ss_flags s) (ss_align s) (ss_data s) (ss_nobits_size s)
    (ss_entsize s) (ss_addr s) (ss_relocs s) (Some v) (ss_size_override s)
    (ss_link_override s) (ss_info_override s).
Definition with_size_override (v : Z) (s : SectionSpec) : SectionSpec :=
  mkSection (ss_name s) (ss_type s) (ss_flags s) (ss_align s) (ss_data s) (ss_nobits_size s)
    (ss_entsize s) (ss_addr s) (ss_relocs s) (ss_offset_override s) (Some v)
    (ss_link_override s) (ss_info_override s).
Definition with_link_override (v : Z) (s : SectionSpec) : SectionSpec :=
  mkSection (ss_name s) (ss_type s) (ss_flags s) (ss_align s) (ss_data s) (ss_nobits_size s)
    (ss_entsize s) (ss_addr s) (ss_relocs s) (ss_offset_override s) (ss_size_override s)
    (Some v) (ss_info_override s).

Definition section_text (name : bytes) (data : bytes) : SectionSpec :=
  with_align 16 (section_new name SHT_PROGBITS (Z.lor SHF_ALLOC SHF_EXECINSTR) data).
Definition section_rodata (name : bytes) (data : bytes) : SectionSpec :=
  section_new name SHT_PROGBITS SHF_ALLOC data.
Definition section_data (name : bytes) (data : bytes) : SectionSpec :=
  section_new name SHT_PROGBITS (Z.lor SHF_ALLOC SHF_WRITE) data.
Definition section_bss (name : bytes) (size : Z) : SectionSpec :=
  mkSection name SHT_NOBITS (Z.lor SHF_ALLOC SHF_WRITE) 1 [] size 0 0 [] None None None None.

(** [SectionSpec::size]: what the section reports. *)
Definition ss_size (s : SectionSpec) : Z :=
  match ss_size_override s with
  | Some v => v
  | None => if ss_type s =? SHT_NOBITS then ss_nobits_size s else zlen (ss_data s)
  end.

Record SymbolSpec : Type := mkSymbol {
  sy_name : bytes;
  sy_bind : Z;
  sy_type : Z;
  sy_visibility : Z;
  sy_section : SymSection;
  sy_value : Z;
  sy_size : Z
}.

Definition symbol_global (name section : bytes) (value : Z) : SymbolSpec :=
  mkSymbol name STB_GLOBAL STT_NOTYPE STV_DEFAULT (InSection section) value 0.
Definition with_bind (bind : Z) (s : SymbolSpec) : SymbolSpec :=
  mkSymbol (sy_name s) bind (sy_type s) (sy_visibility s) (sy_section s) (sy_value s) (sy_size s).
Definition symbol_local (name section : bytes) (value : Z) : SymbolSpec :=
  with_bind STB_LOCAL (symbol_global name section value).
Definition symbol_weak (name section : bytes) (value : Z) : SymbolSpec :=
  with_bind STB_WEAK (symbol_global name section value).
Definition symbol_undefined (name : bytes) : SymbolSpec :=
  mkSymbol name STB_GLOBAL STT_NOTYPE STV_DEFAULT Undefined 0 0.
Definition symbol_weak_undefined (name : bytes) : SymbolSpec :=
  with_bind STB_WEAK (symbol_undefined name).
Definition symbol_absolute (name : bytes) (value : Z) : SymbolSpec :=
  mkSymbol name STB_GLOBAL STT_NOTYPE STV_DEFAULT Absolute value 0.
Definition symbol_common (name : bytes) (size align : Z) : SymbolSpec :=
  mkSymbol name STB_GLOBAL STT_OBJECT STV_DEFAULT Common align size.
Definition with_func (s : SymbolSpec) : SymbolSpec :=
  mkSymbol (sy_name s) (sy_bind s) STT_FUNC (sy_visibility s) (sy_section s) (sy_value s) (sy_size s).
Definition with_object (size : Z) (s : SymbolSpec) : SymbolSpec :=
  mkSymbol (sy_name s) (sy_bind s) STT_OBJECT (sy_visibility s) (sy_section s) (sy_value s) size.
Definition with_size (size : Z) (s : SymbolSpec) : SymbolSpec :=
  mkSymbol (sy_name s) (sy_bind s) (sy_type s) (sy_visibility s) (sy_section s) (sy_value s) size.
Definition with_visibility (v : Z) (s : SymbolSpec) : SymbolSpec :=
  mkSymbol (sy_name s) (sy_bind s) (sy_type s) v (sy_section s) (sy_value s) (sy_size s).
Definition weaken (s : SymbolSpec) : SymbolSpec := with_bind STB_WEAK s.

Record HeaderOverrides : Type := mkHeader {
  h_magic : option bytes;
  h_class : option byte;
  h_endianness : option byte;
  h_ident_version : option byte;
  h_osabi : option byte;
  h_e_type : option Z;
  h_e_machine : option Z;
  h_e_version : option Z;
  h_e_ehsize : option Z;
  h_e_shoff : option Z;
  h_e_shnum : option Z;
  h_e_shentsize : option Z;
  h_e_shstrndx : option Z;
  h_e_entry : option Z
}.

Definition no_overrides : HeaderOverrides :=
  mkHeader None None None None None None None None None None None None None None.

Record ObjectBuilder : Type := mkBuilder {
  ob_sections : list SectionSpec;
  ob_symbols : list SymbolSpec;
  ob_header : HeaderOverrides;
  ob_truncate_to : option nat;
  ob_rela_before_target : bool;
  ob_symtab_first : bool;
  ob_omit_section_symbols : bool
}.

Definition builder_new : ObjectBuilder := mkBuilder [] [] no_overrides None false false false.
Definition add_section (s : SectionSpec) (b : ObjectBuilder) : ObjectBuilder :=
  mkBuilder (ob_sections b ++ [s]) (ob_symbols b) (ob_header b) (ob_truncate_to b)
    (ob_rela_before_target b) (ob_symtab_first b) (ob_omit_section_symbols b).
Definition add_symbols (s : list SymbolSpec) (b : ObjectBuilder) : ObjectBuilder :=
  mkBuilder (ob_sections b) (ob_symbols b ++ s) (ob_header b) (ob_truncate_to b)
    (ob_rela_before_target b) (ob_symtab_first b) (ob_omit_section_symbols b).
Definition add_symbol (s : SymbolSpec) (b : ObjectBuilder) : ObjectBuilder := add_symbols [s] b.
Definition set_header (h : HeaderOverrides) (b : ObjectBuilder) : ObjectBuilder :=
  mkBuilder (ob_sections b) (ob_symbols b) h (ob_truncate_to b)
    (ob_rela_before_target b) (ob_symtab_first b) (ob_omit_section_symbols b).
Definition truncate_to (n : nat) (b : ObjectBuilder) : ObjectBuilder :=
  mkBuilder (ob_sections b) (ob_symbols b) (ob_header b) (Some n)
    (ob_rela_before_target b) (ob_symtab_first b) (ob_omit_section_symbols b).
Definition rela_before_target (b : ObjectBuilder) : ObjectBuilder :=
  mkBuilder (ob_sections b) (ob_symbols b) (ob_header b) (ob_truncate_to b)
    true (ob_symtab_first b) (ob_omit_section_symbols b).
Definition symtab_first (b : ObjectBuilder) : ObjectBuilder :=
  mkBuilder (ob_sections b) (ob_symbols b) (ob_header b) (ob_truncate_to b)
    (ob_rela_before_target b) true (ob_omit_section_symbols b).
Definition without_section_symbols (b : ObjectBuilder) : ObjectBuilder :=
  mkBuilder (ob_sections b) (ob_symbols b) (ob_header b) (ob_truncate_to b)
    (ob_rela_before_target b) (ob_symtab_first b) true.

(** ** String tables *)

Definition strtab_new : bytes := [x00].

(** [StrTab::add]: the table and the offset of the string. *)
Definition strtab_add (tab s : bytes) : bytes * Z :=
  match s with
  | [] => (tab, 0)
  | _ => (tab ++ s ++ [x00], wrap_u 32 (zlen tab))
  end.

(** ** Planning *)

Inductive WriteError : Type :=
| CannotCombine
| NoSuchSection (name : bytes)
| UndeclaredSymbol (section name : bytes)
| NoSectionSymbol (section name : bytes)
| BadIndices (got expected : list Z)
| NoShstrtab
| BadHeaderSize (len : Z).

Record Shdr : Type := mkShdr {
  sh_name : bytes;
  sh_type : Z;
  sh_flags : Z;
  sh_addr : Z;
  sh_size : Z;
  sh_link : Z;
  sh_info : Z;
  sh_align : Z;
  sh_entsize : Z;
  sh_data : bytes;
  sh_offset_override : option Z;
  sh_occupies : bool
}.

(** The fields [plan] fills in. *)
Record Layout : Type := mkLayout {
  l_shdrs : list Shdr;
  l_name_offsets : list Z;
  l_shstrtab_index : Z
}.

(** [find(|(n, _)| n == name).map(|(_, i)| *i)]: the first pair with the name. *)
Fixpoint find_name {A} (name : bytes) (l : list (bytes * A)) : option A :=
  match l with
  | [] => None
  | (n, a) :: l => if decide (n = name) then Some a else find_name name l
  end.

Definition section_index (index_of : list (bytes * Z)) (name : bytes) : Result WriteError Z :=
  ok_or (find_name name index_of) (NoSuchSection name).

Definition has_relocs (s : SectionSpec) : bool := match ss_relocs s with [] => false | _ => true end.

Definition content_base (b : ObjectBuilder) : Z := if ob_symtab_first b then 4 else 1.

(** The loop that numbers the user sections. *)
Fixpoint assign_indices (rela_before : bool) (next : Z) (l : list SectionSpec) : list (bytes * Z) :=
  match l with
  | [] => []
  | s :: l =>
      let next := if rela_before && has_relocs s then next + 1 else next in
      (ss_name s, next) :: assign_indices rela_before (next + 1) l
  end.

Definition index_of (b : ObjectBuilder) : list (bytes * Z) :=
  assign_indices (ob_rela_before_target b) (content_base b) (ob_sections b).

Definition n_user (b : ObjectBuilder) : Z := wrap_u 32 (zlen (ob_sections b)).
Definition n_rela (b : ObjectBuilder) : Z :=
  wrap_u 32 (zlen (filter (fun s => has_relocs s) (ob_sections b))).

Definition symtab_index (b : ObjectBuilder) : Z :=
  if ob_symtab_first b then 1 else content_base b + n_user b + n_rela b.

(** One 24-byte [Elf64_Sym]. *)
Definition sym_bytes (name info other shndx value size : Z) : bytes :=
  le_bytes 4 name ++ [z2b info; z2b other] ++ le_bytes 2 shndx ++ le_bytes 8 value ++ le_bytes 8 size.

(** The vectors the symbol loops push to. *)
Record SymState : Type := mkSyms {
  syms : list (bytes * bytes);
  sym_index : list (bytes * Z);
  section_sym_index : list (bytes * Z);
  strtab : bytes
}.

Definition syms_new : SymState := mkSyms [([], replicate 24 x00)] [] [] strtab_new.

Definition syms_len (st : SymState) : Z := wrap_u 32 (zlen (syms st)).

Definition push_section_sym (idx : list (bytes * Z)) (st : SymState) (s : SectionSpec)
    : Result WriteError SymState :=
  shndx ← section_index idx (ss_name s);
  Ok (mkSyms
    (syms st ++ [(ss_name s,
       sym_bytes 0 (st_info STB_LOCAL STT_SECTION) STV_DEFAULT (wrap_u 16 shndx) 0 0)])
    (sym_index st)
    (section_sym_index st ++ [(ss_name s, syms_len st)])
    (strtab st)).

Definition spec_shndx (idx : list (bytes * Z)) (s : SymSection) : Result WriteError Z :=
  match s with
  | Undefined => Ok SHN_UNDEF
  | Absolute => Ok SHN_ABS
  | Common => Ok SHN_COMMON
  | RawShndx v => Ok v
  | InSection name => i ← section_index idx name; Ok (wrap_u 16 i)
  end.

Definition push_sym (idx : list (bytes * Z)) (st : SymState) (spec : SymbolSpec)
    : Result WriteError SymState :=
  shndx ← spec_shndx idx (sy_section spec);
  let '(tab, name_off) := strtab_add (strtab st) (sy_name spec) in
  Ok (mkSyms
    (syms st ++ [(sy_name spec,
       sym_bytes name_off (st_info (sy_bind spec) (sy_type spec)) (sy_visibility spec) shndx
         (sy_value spec) (sy_size spec))])
    (match sy_name spec with
     | [] => sym_index st
     | _ => sym_index st ++ [(sy_name spec, syms_len st)]
     end)
    (section_sym_index st)
    tab).

(** The symbol a relocation names. *)
Definition reloc_symbol (st : SymState) (s : SectionSpec) (r : Reloc) : Result WriteError Z :=
  match r_target r with
  | ToRaw i => Ok i
  | ToSymbol name => ok_or (find_name name (sym_index st)) (UndeclaredSymbol (ss_name s) name)
  | ToSection name => ok_or (find_name name (section_sym_index st)) (NoSectionSymbol (ss_name s) name)
  end.

Definition rela_bytes (sym : Z) (r : Reloc) : bytes :=
  le_bytes 8 (r_offset r) ++ le_bytes 8 (r_info sym (r_kind r)) ++ le_bytes 8 (r_addend r).

Definition section_rela (st : SymState) (s : SectionSpec) : Result WriteError bytes :=
  try_fold (fun bytes r => sym ← reloc_symbol st s r; Ok (bytes ++ rela_bytes sym r)) (ss_relocs s) [].

(** [rela_for]: the relocation bytes of every section that has any. *)
Definition push_rela (st : SymState) (acc : list (bytes * bytes)) (s : SectionSpec)
    : Result WriteError (list (bytes * bytes)) :=
  if has_relocs s then bs ← section_rela st s; Ok (acc ++ [(ss_name s, bs)])
  else Ok acc.

(** [rela_for.iter().position(|(n, _)| n == name)], 0 when there is none. *)
Fixpoint position_name {A} (name : bytes) (l : list (bytes * A)) : option Z :=
  match l with
  | [] => None
  | (n, _) :: l => if decide (n = name) then Some 0 else Z.succ <$> position_name name l
  end.

Definition null_shdr : Shdr := mkShdr [] SHT_NULL 0 0 0 0 0 0 0 [] None false.

Definition rela_shdr (b : ObjectBuilder) (s : SectionSpec) (idx : Z) (bs : bytes) : Shdr :=
  mkShdr (str ".rela" ++ ss_name s) SHT_RELA SHF_INFO_LINK 0 (zlen bs) (symtab_index b) idx 8
    RELA_SIZE bs None true.

Definition user_shdr (s : SectionSpec) : Shdr :=
  mkShdr (ss_name s) (ss_type s) (ss_flags s) (ss_addr s) (ss_size s)
    (default 0 (ss_link_override s)) (default 0 (ss_info_override s)) (ss_align s) (ss_entsize s)
    (ss_data s) (ss_offset_override s) (negb (ss_type s =? SHT_NOBITS)).

(** The entries one user section contributes: its [.rela] section, then itself. *)
Definition push_entries (b : ObjectBuilder) (rela_for : list (bytes * bytes))
    (entries : list (Z * Shdr)) (s : SectionSpec) : Result WriteError (list (Z * Shdr)) :=
  idx ← section_index (index_of b) (ss_name s);
  let entries :=
    match find_name (ss_name s) rela_for with
    | Some bs =>
        let rela_index :=
          if ob_rela_before_target b then idx - 1
          else content_base b + n_user b + default 0 (position_name (ss_name s) rela_for) in
        entries ++ [(rela_index, rela_shdr b s idx bs)]
    | None => entries
    end in
  Ok (entries ++ [(idx, user_shdr s)]).

Definition table_shdr (name : bytes) (sh_type : Z) (link info align entsize : Z) (data : bytes) : Shdr :=
  mkShdr name sh_type 0 0 (zlen data) link info align entsize data None true.

(** Every section name into [.shstrtab], in table order. *)
Definition name_table (shdrs : list Shdr) : bytes * list Z :=
  foldl (fun '(tab, offs) s => let '(tab, off) := strtab_add tab (sh_name s) in (tab, offs ++ [off]))
    (strtab_new, []) shdrs.

Definition set_data (data : bytes) (s : Shdr) : Shdr :=
  mkShdr (sh_name s) (sh_type s) (sh_flags s) (sh_addr s) (zlen data) (sh_link s) (sh_info s)
    (sh_align s) (sh_entsize s) data (sh_offset_override s) (sh_occupies s).

Definition idx_le (a b : Z * Shdr) : bool := a.1 <=? b.1.

(** The indices of the table, once sorted, are [0, 1, 2, ...]. *)
Definition finish_entries (entries : list (Z * Shdr)) : Result WriteError (list Shdr) :=
  let sorted := sort_by idx_le entries in
  let expected := Z.of_nat <$> seq 0 (length sorted) in
  if decide (sorted.*1 = expected) then Ok (sorted.*2) else Err (BadIndices (sorted.*1) expected).

(** The symbol loops: section symbols, locals, then the rest; the middle number
  is [first_global]. *)
Definition plan_symbols (b : ObjectBuilder) : Result WriteError (SymState * Z) :=
  st ← (if ob_omit_section_symbols b then Ok syms_new
        else try_fold (push_section_sym (index_of b)) (ob_sections b) syms_new);
  st ← try_fold (push_sym (index_of b)) (filter (fun s => sy_bind s = STB_LOCAL) (ob_symbols b)) st;
  let first_global := syms_len st in
  st ← try_fold (push_sym (index_of b)) (filter (fun s => sy_bind s <> STB_LOCAL) (ob_symbols b)) st;
  Ok (st, first_global).

Definition plan (b : ObjectBuilder) : Result WriteError Layout :=
  if ob_rela_before_target b && ob_symtab_first b then Err CannotCombine
  else
    '(st, first_global) ← plan_symbols b;
    rela_for ← try_fold (push_rela st) (ob_sections b) [];
    entries ← try_fold (push_entries b rela_for) (ob_sections b) [(0, null_shdr)];
    let i := symtab_index b in
    let symtab_bytes := concat ((syms st).*2) in
    shdrs ← finish_entries (entries ++
      [(i, table_shdr (str ".symtab") SHT_SYMTAB (i + 1) first_global 8 SYM_SIZE symtab_bytes);
       (i + 1, table_shdr (str ".strtab") SHT_STRTAB 0 0 1 0 (strtab st));
       (i + 2, table_shdr (str ".shstrtab") SHT_STRTAB 0 0 1 0 [])]);
    let '(shstr, name_offsets) := name_table shdrs in
    match shdrs !! Z.to_nat (i + 2) with
    | None => Err NoShstrtab
    | Some _ =>
        Ok (mkLayout (alter (set_data shstr) (Z.to_nat (i + 2)) shdrs) name_offsets
              (wrap_u 16 (i + 2)))
    end.

(** ** Emission *)

(** How many zero bytes the [while !len.is_multiple_of(align)] loop pushes. *)
Definition padding (len align : Z) : nat := Z.to_nat ((- len) mod align).

Definition pad_to (align : Z) (out : bytes) : bytes := out ++ replicate (padding (zlen out) align) x00.

Definition emit_section (acc : bytes * list Z) (s : Shdr) : bytes * list Z :=
  let '(out, offsets) := acc in
  if sh_type s =? SHT_NULL then (out, offsets ++ [0])
  else
    let out := pad_to (Z.max (sh_align s) 1) out in
    (if sh_occupies s then out ++ sh_data s else out,
     offsets ++ [default (zlen out) (sh_offset_override s)]).

Definition shdr_bytes (name_off offset : Z) (s : Shdr) : bytes :=
  le_bytes 4 name_off ++ le_bytes 4 (sh_type s) ++ le_bytes 8 (sh_flags s) ++
  le_bytes 8 (sh_addr s) ++ le_bytes 8 offset ++ le_bytes 8 (sh_size s) ++
  le_bytes 4 (sh_link s) ++ le_bytes 4 (sh_info s) ++ le_bytes 8 (sh_align s) ++
  le_bytes 8 (sh_entsize s).

Definition ident_bytes (h : HeaderOverrides) : bytes :=
  default ELF_MAGIC (h_magic h) ++
  [default ELFCLASS64 (h_class h); default ELFDATA2LSB (h_endianness h);
   default EV_CURRENT (h_ident_version h); default ELFOSABI_SYSV (h_osabi h)] ++ replicate 8 x00.

Definition header_bytes (h : HeaderOverrides) (shoff n_shdrs shstrtab_index : Z) : bytes :=
  ident_bytes h ++
  le_bytes 2 (default ET_REL (h_e_type h)) ++
  le_bytes 2 (default EM_X86_64 (h_e_machine h)) ++
  le_bytes 4 (default (b2z EV_CURRENT) (h_e_version h)) ++
  le_bytes 8 (default 0 (h_e_entry h)) ++
  le_bytes 8 0 ++
  le_bytes 8 (default shoff (h_e_shoff h)) ++
  le_bytes 4 0 ++
  le_bytes 2 (default EHDR_SIZE (h_e_ehsize h)) ++
  le_bytes 2 0 ++
  le_bytes 2 0 ++
  le_bytes 2 (default SHDR_SIZE (h_e_shentsize h)) ++
  le_bytes 2 (default (wrap_u 16 n_shdrs) (h_e_shnum h)) ++
  le_bytes 2 (default shstrtab_index (h_e_shstrndx h)).

(** The section header table: [name_offsets] and [offsets] run alongside. *)
Definition shdr_table (shdrs : list Shdr) (name_offsets offsets : list Z) : bytes :=
  concat (imap (fun i s =>
    shdr_bytes (default 0 (name_offsets !! i)) (default 0 (offsets !! i)) s) shdrs).

Definition emit (b : ObjectBuilder) (l : Layout) : Result WriteError bytes :=
  let '(out, offsets) := foldl emit_section (replicate (Z.to_nat EHDR_SIZE) x00, []) (l_shdrs l) in
  let out := pad_to 8 out in
  let shoff := zlen out in
  let out := out ++ shdr_table (l_shdrs l) (l_name_offsets l) offsets in
  let hdr := header_bytes (ob_header b) shoff (zlen (l_shdrs l)) (l_shstrtab_index l) in
  if negb (zlen hdr =? EHDR_SIZE) then Err (BadHeaderSize (zlen hdr))
  else
    let out := hdr ++ zdrop EHDR_SIZE out in
    Ok (match ob_truncate_to b with Some n => take n out | None => out end).

Definition build (b : ObjectBuilder) : Result WriteError bytes := l ← plan b; emit b l.
