(* ===== verification/ElfRead.v ===== *)
(** * The ELF64 reader ([linktest/src/elf/read.rs])

  The reader is given bytes a half-finished linker produced: every access is
  bounds-checked and every failure is an error value.  Offsets are [Z]s in the
  range of [usize]; the checked and saturating operations of the source are
  written out. *)

From S2P Require Import Prelude Text Elf.

(** ** Errors *)

Inductive ElfError : Type :=
| ShortRead (wanted at_ len : Z)
| EntryPastEnd (base i entry_size len : Z)
| TooShort (len : Z)
| BadMagic (magic : bytes)
| BadClass (b : byte)
| BadEndianness (b : byte)
| BadPhentsize (n : Z)
| BadShentsize (n : Z)
| BadSymEntsize (n : Z)
| SliceOverflows (offset size : Z)
| SlicePastEnd (start end_ len : Z)
| NoSectionNamed (name : bytes)
| NoSymbolNamed (name : bytes)
| StillUndefined (name : bytes)
| NoSegmentMaps (addr : Z)
| PastFileBytes (addr vaddr filesz : Z)
| SegmentOverflows (vaddr offset : Z).

(** [usize] operations. *)
Definition checked_add (a b : Z) : option Z := if U64_MAX <? a + b then None else Some (a + b).
Definition checked_mul (a b : Z) : option Z := if U64_MAX <? a * b then None else Some (a * b).
Definition saturating_add (a b : Z) : Z := Z.min (a + b) U64_MAX.

(** ** Parsed records *)

Record Section_ : Type := mkSec {
  sec_index : Z;
  sec_name : bytes;
  sec_type : Z;
  sec_flags : Z;
  sec_addr : Z;
  sec_offset : Z;
  sec_size : Z;
  sec_link : Z;
  sec_info : Z;
  sec_align : Z;
  sec_entsize : Z
}.

Definition is_alloc (s : Section_) : bool := has_flag (sec_flags s) SHF_ALLOC.
Definition is_write (s : Section_) : bool := has_flag (sec_flags s) SHF_WRITE.
Definition is_exec (s : Section_) : bool := has_flag (sec_flags s) SHF_EXECINSTR.
Definition is_nobits (s : Section_) : bool := sec_type s =? SHT_NOBITS.

Record Segment : Type := mkSeg {
  seg_index : Z;
  seg_type : Z;
  seg_flags : Z;
  seg_offset : Z;
  seg_vaddr : Z;
  seg_paddr : Z;
  seg_filesz : Z;
  seg_memsz : Z;
  seg_align : Z
}.

Definition readable (s : Segment) : bool := has_flag (seg_flags s) PF_R.
Definition writable (s : Segment) : bool := has_flag (seg_flags s) PF_W.
Definition executable (s : Segment) : bool := has_flag (seg_flags s) PF_X.
Definition seg_contains (s : Segment) (addr : Z) : bool :=
  (seg_vaddr s <=? addr) && (addr <? saturating_add (seg_vaddr s) (seg_memsz s)).

Definition segment_describe (s : Segment) : bytes :=
  segment_type_name (seg_type s) ++ str " vaddr 0x" ++ hex (seg_vaddr s) ++
  str " offset 0x" ++ hex (seg_offset s) ++ str " filesz 0x" ++ hex (seg_filesz s) ++
  str " memsz 0x" ++ hex (seg_memsz s) ++ str " flags " ++ flags_string (seg_flags s) ++
  str " align 0x" ++ hex (seg_align s).

Record Symbol : Type := mkSym {
  sym_idx : Z;
  sym_name : bytes;
  sym_bind : Z;
  sym_type : Z;
  sym_visibility : Z;
  sym_shndx : Z;
  sym_value : Z;
  sym_size : Z
}.

Definition is_undefined (s : Symbol) : bool := sym_shndx s =? SHN_UNDEF.
Definition is_absolute (s : Symbol) : bool := sym_shndx s =? SHN_ABS.
Definition is_common (s : Symbol) : bool := sym_shndx s =? SHN_COMMON.

Record Relocation : Type := mkRel {
  rel_target_section : Z;
  rel_offset : Z;
  rel_sym : Z;
  rel_kind : Z;
  rel_addend : Z
}.

Record Elf : Type := mkElf {
  e_bytes : bytes;
  e_ident : bytes;
  e_type : Z;
  e_machine : Z;
  e_version : Z;
  e_entry : Z;
  e_phoff : Z;
  e_shoff : Z;
  e_flags : Z;
  e_ehsize : Z;
  e_phentsize : Z;
  e_phnum : Z;
  e_shentsize : Z;
  e_shnum : Z;
  e_shstrndx : Z;
  e_sections : list Section_;
  e_segments : list Segment;
  e_symbols : list Symbol;
  e_relocations : list Relocation
}.

Definition set_tables (sections : list Section_) (segments : list Segment) (symbols : list Symbol)
    (relocations : list Relocation) (e : Elf) : Elf :=
  mkElf (e_bytes e) (e_ident e) (e_type e) (e_machine e) (e_version e) (e_entry e) (e_phoff e)
    (e_shoff e) (e_flags e) (e_ehsize e) (e_phentsize e) (e_phnum e) (e_shentsize e) (e_shnum e)
    (e_shstrndx e) sections segments symbols relocations.

(** ** Reading fields *)

(** [u16le], [u32le] and [u64le] for [n] = 2, 4 and 8. *)
Definition read_le (n : Z) (b : bytes) (at_ : Z) : Result ElfError Z :=
  let end_ := default U64_MAX (checked_add at_ n) in
  if zlen b <? end_ then Err (ShortRead n at_ (zlen b))
  else Ok (le_val (zslice b at_ n)).

Definition u16le := read_le 2.
Definition u32le := read_le 4.
Definition u64le := read_le 8.

Definition entry_at (base i entry_size len : Z) : Result ElfError Z :=
  ok_or (o ← checked_mul i entry_size;
         at_ ← checked_add base o;
         end_ ← checked_add at_ entry_size;
         if end_ <=? len then Some at_ else None)
    (EntryPastEnd base i entry_size len).

(** A NUL-terminated string starting at [at_]. *)
Definition cstr (table : bytes) (at_ : Z) : bytes :=
  if zlen table <=? at_ then [] else utf8_lossy (split_first x00 (zdrop at_ table)).

(** [Elf::slice]: a bounds-checked slice of the file. *)
Definition slice (e : Elf) (offset size : Z) : Result ElfError bytes :=
  end_ ← ok_or (checked_add offset size) (SliceOverflows offset size);
  if end_ <=? zlen (e_bytes e) then Ok (zslice (e_bytes e) offset size)
  else Err (SlicePastEnd offset end_ (zlen (e_bytes e))).

(** [data.chunks(step)]; the last chunk may be short. *)
Fixpoint chunks_fuel {A} (fuel : nat) (step : Z) (l : list A) : list (list A) :=
  match fuel, l with
  | S fuel, _ :: _ =>
      let k := Z.min step (zlen l) in ztake k l :: chunks_fuel fuel step (zdrop k l)
  | _, _ => []
  end.
Definition chunks {A} (step : Z) (l : list A) : list (list A) := chunks_fuel (length l) step l.

(** ** Parsing *)

Definition parse_segment (b : bytes) (i at_ : Z) : Result ElfError Segment :=
  p_type ← u32le b at_;
  flags ← u32le b (at_ + 4);
  offset ← u64le b (at_ + 8);
  vaddr ← u64le b (at_ + 16);
  paddr ← u64le b (at_ + 24);
  filesz ← u64le b (at_ + 32);
  memsz ← u64le b (at_ + 40);
  align ← u64le b (at_ + 48);
  Ok (mkSeg i p_type flags offset vaddr paddr filesz memsz align).

Definition segment_entry (e : Elf) (i : Z) : Result ElfError Segment :=
  at_ ← entry_at (e_phoff e) i (e_phentsize e) (zlen (e_bytes e));
  parse_segment (e_bytes e) i at_.

Definition parse_segments (e : Elf) : Result ElfError (list Segment) :=
  if e_phnum e =? 0 then Ok []
  else if e_phentsize e <? PHDR_SIZE then Err (BadPhentsize (e_phentsize e))
  else try_map (segment_entry e) (seqZ 0 (e_phnum e)).

(** One raw section header: its [sh_name] and the section without a name. *)
Definition parse_section (b : bytes) (i at_ : Z) : Result ElfError (Z * Section_) :=
  name ← u32le b at_;
  sh_type ← u32le b (at_ + 4);
  flags ← u64le b (at_ + 8);
  addr ← u64le b (at_ + 16);
  offset ← u64le b (at_ + 24);
  size ← u64le b (at_ + 32);
  link ← u32le b (at_ + 40);
  info ← u32le b (at_ + 44);
  align ← u64le b (at_ + 48);
  entsize ← u64le b (at_ + 56);
  Ok (name, mkSec i [] sh_type flags addr offset size link info align entsize).

Definition set_name (name : bytes) (s : Section_) : Section_ :=
  mkSec (sec_index s) name (sec_type s) (sec_flags s) (sec_addr s) (sec_offset s) (sec_size s)
    (sec_link s) (sec_info s) (sec_align s) (sec_entsize s).

Definition section_entry (e : Elf) (i : Z) : Result ElfError (Z * Section_) :=
  at_ ← entry_at (e_shoff e) i (e_shentsize e) (zlen (e_bytes e));
  parse_section (e_bytes e) i at_.

(** The bytes of the section [e_shstrndx] names; nothing when it is nonsense. *)
Definition section_names (e : Elf) (raw : list (Z * Section_)) : bytes :=
  match raw !! Z.to_nat (e_shstrndx e) with
  | Some (_, s) => default [] (to_option (slice e (sec_offset s) (sec_size s)))
  | None => []
  end.

Definition parse_sections (e : Elf) : Result ElfError (list Section_) :=
  if (e_shnum e =? 0) || (e_shoff e =? 0) then Ok []
  else if e_shentsize e <? SHDR_SIZE then Err (BadShentsize (e_shentsize e))
  else
    raw ← try_map (section_entry e) (seqZ 0 (e_shnum e));
    Ok ((fun p => set_name (cstr (section_names e raw) p.1) p.2) <$> raw).

Definition parse_symbol (strings : bytes) (i : Z) (chunk : bytes) : Result ElfError Symbol :=
  name_off ← u32le chunk 0;
  let info := b2z (default x00 (chunk !! 4%nat)) in
  shndx ← u16le chunk 6;
  value ← u64le chunk 8;
  size ← u64le chunk 16;
  Ok (mkSym i (cstr strings name_off) (st_bind info) (st_type info)
    (Z.land (b2z (default x00 (chunk !! 5%nat))) 0x3) shndx value size).

(** The loop over the chunks, which stops at a short one. *)
Fixpoint parse_symbol_chunks (strings : bytes) (i : Z) (cs : list bytes)
    : Result ElfError (list Symbol) :=
  match cs with
  | [] => Ok []
  | c :: cs =>
      if zlen c <? SYM_SIZE then Ok []
      else s ← parse_symbol strings i c; ss ← parse_symbol_chunks strings (i + 1) cs; Ok (s :: ss)
  end.

Definition parse_symbols (e : Elf) : Result ElfError (list Symbol) :=
  match snd <$> list_find (fun s => sec_type s = SHT_SYMTAB) (e_sections e) with
  | None => Ok []
  | Some symtab =>
      let strings :=
        default [] (s ← e_sections e !! Z.to_nat (sec_link symtab);
                    to_option (slice e (sec_offset s) (sec_size s))) in
      data ← slice e (sec_offset symtab) (sec_size symtab);
      let step := if sec_entsize symtab =? 0 then SYM_SIZE else sec_entsize symtab in
      if step <? SYM_SIZE then Err (BadSymEntsize step)
      else parse_symbol_chunks strings 0 (chunks step data)
  end.

Fixpoint parse_reloc_chunks (explicit : bool) (step target : Z) (cs : list bytes)
    : Result ElfError (list Relocation) :=
  match cs with
  | [] => Ok []
  | c :: cs =>
      if zlen c <? step then Ok []
      else
        info ← u64le c 8;
        offset ← u64le c 0;
        addend ← (if explicit then wrap_s 64 <$> u64le c 16 else Ok 0);
        rs ← parse_reloc_chunks explicit step target cs;
        Ok (mkRel target offset (r_sym info) (r_type info) addend :: rs)
  end.

Definition parse_reloc_section (e : Elf) (s : Section_) : Result ElfError (list Relocation) :=
  let explicit := sec_type s =? SHT_RELA in
  let step := if explicit then RELA_SIZE else REL_SIZE in
  data ← slice e (sec_offset s) (sec_size s);
  parse_reloc_chunks explicit step (sec_info s) (chunks step data).

Definition parse_relocations (e : Elf) : Result ElfError (list Relocation) :=
  (fun ls => concat ls) <$> try_map (parse_reloc_section e)
    (filter (fun s => sec_type s = SHT_RELA \/ sec_type s = SHT_REL) (e_sections e)).

(** The file header, with empty tables. *)
Definition parse_header (bs : bytes) : Result ElfError Elf :=
  if zlen bs <? EHDR_SIZE then Err (TooShort (zlen bs))
  else if decide (ztake 4 bs <> ELF_MAGIC) then Err (BadMagic (ztake 4 bs))
  else if decide (bs !! 4%nat <> Some ELFCLASS64) then Err (BadClass (default x00 (bs !! 4%nat)))
  else if decide (bs !! 5%nat <> Some ELFDATA2LSB) then Err (BadEndianness (default x00 (bs !! 5%nat)))
  else
    e_type ← u16le bs 16;
    e_machine ← u16le bs 18;
    e_version ← u32le bs 20;
    entry ← u64le bs 24;
    phoff ← u64le bs 32;
    shoff ← u64le bs 40;
    e_flags ← u32le bs 48;
    ehsize ← u16le bs 52;
    phentsize ← u16le bs 54;
    phnum ← u16le bs 56;
    shentsize ← u16le bs 58;
    shnum ← u16le bs 60;
    shstrndx ← u16le bs 62;
    Ok (mkElf bs (take EI_NIDENT bs) e_type e_machine e_version entry phoff shoff e_flags ehsize
      phentsize phnum shentsize shnum shstrndx [] [] [] []).

Definition parse (bs : bytes) : Result ElfError Elf :=
  e ← parse_header bs;
  segments ← parse_segments e;
  let e := set_tables [] segments [] [] e in
  sections ← parse_sections e;
  let e := set_tables sections segments [] [] e in
  symbols ← parse_symbols e;
  let e := set_tables sections segments symbols [] e in
  relocations ← parse_relocations e;
  Ok (set_tables sections segments symbols relocations e).

(** ** Lookups *)

Definition find_section (e : Elf) (name : bytes) : option Section_ :=
  snd <$> list_find (fun s => sec_name s = name) (e_sections e).

Definition sections_named (e : Elf) (name : bytes) : list Section_ :=
  filter (fun s => sec_name s = name) (e_sections e).

Definition section_bytes (e : Elf) (name : bytes) : Result ElfError bytes :=
  s ← ok_or (find_section e name) (NoSectionNamed name);
  if is_nobits s then Ok [] else slice e (sec_offset s) (sec_size s).

Definition find_symbol (e : Elf) (name : bytes) : option Symbol :=
  snd <$> list_find (fun s => sym_name s = name) (e_symbols e).

Definition symbol_address (e : Elf) (name : bytes) : Result ElfError Z :=
  s ← ok_or (find_symbol e name) (NoSymbolNamed name);
  if is_undefined s then Err (StillUndefined name) else Ok (sym_value s).

Definition loads (e : Elf) : list Segment := filter (fun s => seg_type s = PT_LOAD) (e_segments e).

Definition segment_at (e : Elf) (addr : Z) : option Segment :=
  snd <$> list_find (fun s => seg_contains s addr) (loads e).

Definition read_at_vaddr (e : Elf) (addr len : Z) : Result ElfError bytes :=
  seg ← ok_or (segment_at e addr) (NoSegmentMaps addr);
  let delta := addr - seg_vaddr seg in
  if seg_filesz seg <? saturating_add delta len then
    Err (PastFileBytes addr (seg_vaddr seg) (seg_filesz seg))
  else
    offset ← ok_or (checked_add (seg_offset seg) delta)
               (SegmentOverflows (seg_vaddr seg) (seg_offset seg));
    slice e offset len.

(** [u8_at_vaddr], [u16_at_vaddr], [u32_at_vaddr], [u64_at_vaddr]. *)
Definition uint_at_vaddr (n : Z) (e : Elf) (addr : Z) : Result ElfError Z :=
  le_val <$> read_at_vaddr e addr n.
Definition u8_at_vaddr := uint_at_vaddr 1.
Definition u16_at_vaddr := uint_at_vaddr 2.
Definition u32_at_vaddr := uint_at_vaddr 4.
Definition u64_at_vaddr := uint_at_vaddr 8.
Definition i32_at_vaddr (e : Elf) (addr : Z) : Result ElfError Z := wrap_s 32 <$> u32_at_vaddr e addr.

Definition elf_describe (e : Elf) : bytes :=
  str "e_type " ++
  match e_type e with
  | 1 => str "ET_REL"
  | 2 => str "ET_EXEC"
  | 3 => str "ET_DYN"
  | other => dec other
  end ++
  str " entry 0x" ++ hex (e_entry e) ++ str ", " ++ dec (zlen (e_segments e)) ++
  str " program headers, " ++ dec (zlen (e_sections e)) ++ str " sections, " ++
  dec (zlen (e_symbols e)) ++ str " symbols".
