(* ===== verification/ElfLayout.v ===== *)
(** * Where the writer puts things, and the reader on an emitted file

  Facts about the writer alone - fields read back from a concatenation, strings
  found in a string table, section contents found at their recorded offset - and
  what [parse_header] and [parse_sections] make of what [emit] lays out. *)

From S2P Require Import Prelude Text Elf ElfWrite ElfRead.

(** ** Little-endian records *)

(** A record written field by field: widths in bytes, and values. *)
Definition fields (fs : list (nat * Z)) : bytes := concat ((fun p => le_bytes p.1 p.2) <$> fs).
Definition width (fs : list (nat * Z)) : Z := foldr (fun p acc => Z.of_nat p.1 + acc) 0 fs.

Lemma fields_cons n v fs : fields ((n, v) :: fs) = le_bytes n v ++ fields fs.
Proof. done. Qed.

Lemma fields_app fs gs : fields (fs ++ gs) = fields fs ++ fields gs.
Proof. unfold fields. by rewrite fmap_app, concat_app. Qed.

Lemma zlen_fields fs : zlen (fields fs) = width fs.
Proof.
  induction fs as [|[n v] fs IH]; [done|]. rewrite fields_cons, zlen_app, IH. simpl.
  by rewrite zlen_le_bytes.
Qed.

Lemma read_le_at n v pre post :
  zlen (pre ++ le_bytes n v ++ post) <= U64_MAX ->
  read_le (Z.of_nat n) (pre ++ le_bytes n v ++ post) (zlen pre) = Ok (v mod 256 ^ Z.of_nat n).
Proof.
  intros Hl. unfold read_le, checked_add. rewrite !zlen_app, zlen_le_bytes in *.
  pose proof (zlen_nonneg post). rewrite (proj2 (Z.ltb_ge U64_MAX _)) by lia. simpl.
  rewrite (proj2 (Z.ltb_ge _ _)) by lia.
  assert (zslice (pre ++ le_bytes n v ++ post) (zlen pre) (Z.of_nat n) = le_bytes n v) as ->.
  { rewrite <- (zlen_le_bytes n v). apply zslice_mid. }
  by rewrite le_val_bytes.
Qed.

(** Field [i] of a record in the middle of a file. *)
Lemma read_field n v fs gs pre post at_ :
  zlen (pre ++ (fields (fs ++ (n, v) :: gs)) ++ post) <= U64_MAX ->
  at_ = zlen pre + width fs ->
  read_le (Z.of_nat n) (pre ++ (fields (fs ++ (n, v) :: gs)) ++ post) at_
  = Ok (v mod 256 ^ Z.of_nat n).
Proof.
  rewrite fields_app, fields_cons. intros Hl ->.
  rewrite <- zlen_fields, <- zlen_app.
  replace (pre ++ (fields fs ++ le_bytes n v ++ fields gs) ++ post)
    with ((pre ++ fields fs) ++ le_bytes n v ++ (fields gs ++ post)) in *
    by (by rewrite <- !app_assoc).
  by apply read_le_at.
Qed.

Lemma read_le_u n w v pre fs gs post at_ :
  w = 8 * Z.of_nat n -> in_u w v ->
  zlen (pre ++ (fields (fs ++ (n, v) :: gs)) ++ post) <= U64_MAX ->
  at_ = zlen pre + width fs ->
  read_le (Z.of_nat n) (pre ++ (fields (fs ++ (n, v) :: gs)) ++ post) at_ = Ok v.
Proof.
  intros -> [? Hv] Hl Hat. rewrite (read_field n v fs gs) by done. f_equal. apply Z.mod_small.
  by rewrite Z.pow_mul_r in Hv by lia.
Qed.

(** ** Strings in a table *)

Definition nul_free (s : bytes) : Prop := x00 ∉ s.
Definition good_name (s : bytes) : Prop := utf8_valid s = true /\ nul_free s.

(** [tab] holds the NUL-terminated [name] at [off]. *)
Definition has_string (tab : bytes) (off : Z) (name : bytes) : Prop :=
  exists pre post, tab = pre ++ name ++ x00 :: post /\ off = zlen pre.

Lemma has_string_app tab ext off name : has_string tab off name -> has_string (tab ++ ext) off name.
Proof.
  intros (pre & post & -> & ->). exists pre, (post ++ ext). split; [|done].
  by rewrite <- !app_assoc.
Qed.

Lemma has_string_bound tab off name : has_string tab off name -> 0 <= off < zlen tab.
Proof.
  intros (pre & post & -> & ->). rewrite !zlen_app, zlen_cons.
  pose proof (zlen_nonneg pre). pose proof (zlen_nonneg name). pose proof (zlen_nonneg post). lia.
Qed.

Lemma split_first_app s post : nul_free s -> split_first x00 (s ++ x00 :: post) = s.
Proof.
  unfold nul_free. induction s as [|b s IH]; intros Hn; simpl; [done|].
  apply not_elem_of_cons in Hn as [Hb Hs].
  rewrite decide_False by congruence. by rewrite IH.
Qed.

Lemma cstr_has_string tab off name :
  good_name name -> has_string tab off name -> cstr tab off = name.
Proof.
  intros [Hv Hn] Hs. pose proof (has_string_bound _ _ _ Hs).
  destruct Hs as (pre & post & -> & ->). unfold cstr.
  rewrite (proj2 (Z.leb_gt _ _)) by lia. unfold zdrop, zlen. rewrite Nat2Z.id, drop_app_length.
  rewrite split_first_app by done. by apply utf8_lossy_valid.
Qed.

(** Every table starts with a NUL, so offset 0 is the empty string. *)
Definition starts_nul (tab : bytes) : Prop := exists post, tab = x00 :: post.

Lemma starts_nul_app tab ext : starts_nul tab -> starts_nul (tab ++ ext).
Proof. intros [post ->]. by exists (post ++ ext). Qed.

Lemma starts_nul_string tab : starts_nul tab -> has_string tab 0 [].
Proof. intros [post ->]. by exists [], post. Qed.

Lemma strtab_add_spec tab s tab' off :
  strtab_add tab s = (tab', off) -> starts_nul tab -> zlen tab < 2 ^ 32 ->
  starts_nul tab' /\ has_string tab' off s /\ (exists ext, tab' = tab ++ ext).
Proof.
  intros E Hnul Hlen. destruct s as [|b s]; simpl in E; injection E as <- <-.
  - split_and!; [done|by apply starts_nul_string|exists []; by rewrite app_nil_r].
  - split_and!; [by apply starts_nul_app| |eauto].
    exists tab, []. split; [done|]. unfold wrap_u. apply Z.mod_small.
    pose proof (zlen_nonneg tab). lia.
Qed.

Lemma name_table_fold shdrs tab offs tab' offs' :
  foldl (fun '(tab, offs) s => let '(tab, off) := strtab_add tab (sh_name s) in (tab, offs ++ [off]))
    (tab, offs) shdrs = (tab', offs') ->
  starts_nul tab -> zlen tab' < 2 ^ 32 ->
  (exists ext, tab' = tab ++ ext) /\
  (exists os, offs' = offs ++ os /\ Forall2 (fun s o => has_string tab' o (sh_name s)) shdrs os).
Proof.
  revert tab offs. induction shdrs as [|s shdrs IH]; intros tab offs E Hnul Hlen; simpl in E.
  { injection E as <- <-. split; [exists []|exists []; split; [|constructor]];
      by rewrite app_nil_r. }
  destruct (strtab_add tab (sh_name s)) as [tab1 o] eqn:E1.
  assert (exists ext, tab1 = tab ++ ext) as [ext1 Hext1].
  { destruct (sh_name s); simpl in E1; injection E1 as <- <-;
      [exists []; by rewrite app_nil_r|eauto]. }
  assert (starts_nul tab1) as Hnul1 by (rewrite Hext1; by apply starts_nul_app).
  destruct (IH tab1 (offs ++ [o]) E Hnul1 Hlen) as [[ext Hext] (os & -> & Hos)].
  destruct (strtab_add_spec tab (sh_name s) tab1 o E1 Hnul) as (_ & Hs & _).
  { rewrite Hext, Hext1, !zlen_app in Hlen.
    pose proof (zlen_nonneg ext). pose proof (zlen_nonneg ext1). lia. }
  split.
  - exists (ext1 ++ ext). rewrite Hext, Hext1. by rewrite app_assoc.
  - exists (o :: os). split; [by rewrite <- app_assoc|]. constructor; [|done].
    rewrite Hext. by apply has_string_app.
Qed.

(** The section names are where the headers say. *)
Lemma name_table_spec shdrs tab offs :
  name_table shdrs = (tab, offs) -> zlen tab < 2 ^ 32 ->
  Forall2 (fun s o => has_string tab o (sh_name s)) shdrs offs.
Proof.
  intros E Hl. destruct (name_table_fold _ _ _ _ _ E) as [_ (os & -> & H)]; [by exists []|done|].
  done.
Qed.

(** ** Padding *)

Lemma padding_aligned len align : 0 < align -> (len + Z.of_nat (padding len align)) mod align = 0.
Proof.
  intros Ha. unfold padding. rewrite Z2Nat.id by (apply Z.mod_pos_bound; lia).
  rewrite Zplus_mod_idemp_r. by rewrite Z.add_opp_diag_r.
Qed.

(** No smaller number of zero bytes ends the loop: it stops at the first multiple. *)
Lemma padding_least len align k :
  0 < align -> 0 <= k < Z.of_nat (padding len align) -> (len + k) mod align <> 0.
Proof.
  unfold padding. intros Ha Hk. pose proof (Z.mod_pos_bound (- len) align Ha).
  rewrite Z2Nat.id in Hk by lia. intros E.
  apply Z.mod_divide in E as [q Hq]; [|lia].
  assert ((- len) mod align = k) as Hm; [|lia].
  replace (- len) with (k + (- q) * align) by lia.
  rewrite Z.mod_add by lia. apply Z.mod_small. lia.
Qed.

(** ** Section contents *)

(** [s] was emitted into [out] at offset [o]. *)
Definition placed (out : bytes) (s : Shdr) (o : Z) : Prop :=
  if sh_type s =? SHT_NULL then o = 0
  else
    match sh_offset_override s with
    | Some v => o = v
    | None => EHDR_SIZE <= o <= zlen out /\ o mod Z.max (sh_align s) 1 = 0 /\
        (sh_occupies s = true ->
           o + zlen (sh_data s) <= zlen out /\ zslice out o (zlen (sh_data s)) = sh_data s)
    end.

Lemma placed_app out ext s o : placed out s o -> placed (out ++ ext) s o.
Proof.
  unfold placed. case_match; [done|]. case_match; [done|]. rewrite zlen_app.
  pose proof (zlen_nonneg ext). intros (? & ? & H2). split_and!; [lia|lia|done|].
  intros Hs. destruct (H2 Hs) as [? ?]. split; [lia|]. rewrite zslice_app_l; [done|..|lia].
  - unfold EHDR_SIZE in *. lia.
  - apply zlen_nonneg.
Qed.

Lemma emit_section_spec out offs s :
  EHDR_SIZE <= zlen out ->
  exists ext o, emit_section (out, offs) s = (out ++ ext, offs ++ [o]) /\ placed (out ++ ext) s o.
Proof.
  intros Hlen. unfold emit_section, placed. destruct (sh_type s =? SHT_NULL).
  { exists [], 0. by rewrite app_nil_r. }
  set (align := Z.max (sh_align s) 1).
  pose proof (padding_aligned (zlen out) align ltac:(lia)) as Hmod.
  unfold pad_to. set (zeros := replicate (padding (zlen out) align) x00).
  assert (zlen zeros = Z.of_nat (padding (zlen out) align)) as Hz by apply zlen_replicate.
  pose proof (zlen_nonneg zeros).
  destruct (sh_occupies s).
  - exists (zeros ++ sh_data s), (default (zlen (out ++ zeros)) (sh_offset_override s)).
    split; [by rewrite <- app_assoc|]. destruct (sh_offset_override s); simpl; [done|].
    rewrite !zlen_app, Hz. pose proof (zlen_nonneg (sh_data s)). split_and!; [lia|lia|done|].
    intros _. split; [lia|]. rewrite app_assoc.
    rewrite zslice_app_r by (rewrite zlen_app; lia). rewrite zlen_app, Hz, Z.sub_diag.
    apply zslice_all.
  - exists zeros, (default (zlen (out ++ zeros)) (sh_offset_override s)).
    split; [done|]. destruct (sh_offset_override s); simpl; [done|].
    rewrite zlen_app, Hz. split_and!; [lia|lia|done|done].
Qed.

Lemma emit_fold shdrs out offs :
  EHDR_SIZE <= zlen out ->
  exists ext os, foldl emit_section (out, offs) shdrs = (out ++ ext, offs ++ os) /\
    Forall2 (placed (out ++ ext)) shdrs os.
Proof.
  revert out offs. induction shdrs as [|s shdrs IH]; intros out offs Hlen; cbn [foldl].
  { exists [], []. by rewrite !app_nil_r. }
  destruct (emit_section_spec out offs s Hlen) as (ext & o & -> & Hp).
  destruct (IH (out ++ ext) (offs ++ [o])) as (ext' & os & -> & Hps).
  { rewrite zlen_app. pose proof (zlen_nonneg ext). lia. }
  exists (ext ++ ext'), (o :: os). rewrite <- !app_assoc. split; [done|].
  rewrite <- app_assoc in Hps. constructor; [|done].
  rewrite app_assoc. by apply placed_app.
Qed.

(** ** The reader on an emitted file: header and section table

  What [emit] lays out, and what [parse_header] and [parse_sections] make of it. *)

(** ** Fields by offset *)

(** The field of a record at byte [off]. *)
Fixpoint field_at (fs : list (nat * Z)) (off : Z) : option (nat * Z) :=
  match fs with
  | [] => None
  | f :: fs => if off =? 0 then Some f else field_at fs (off - Z.of_nat f.1)
  end.

Lemma field_at_split fs off f :
  field_at fs off = Some f -> exists l k, fs = l ++ f :: k /\ off = width l.
Proof.
  revert off. induction fs as [|g fs IH]; intros off; simpl; [done|].
  destruct (Z.eqb_spec off 0).
  - intros [= ->]. by exists [], fs.
  - intros (l & k & -> & E)%IH. exists (g :: l), k. split; [done|]. simpl. lia.
Qed.

Lemma read_field_at fs off n v pre post len :
  field_at fs off = Some (n, v) -> len = Z.of_nat n ->
  in_u (8 * len) v -> zlen (pre ++ fields fs ++ post) <= U64_MAX ->
  read_le len (pre ++ fields fs ++ post) (zlen pre + off) = Ok v.
Proof.
  intros (l & k & -> & ->)%field_at_split -> Hv Hl.
  by apply (read_le_u n (8 * Z.of_nat n)).
Qed.

(** ** The emitted file *)

Definition plain (b : ObjectBuilder) : Prop :=
  ob_header b = no_overrides /\ ob_truncate_to b = None.

Lemma zlen_header h a n k : h_magic h = None -> zlen (header_bytes h a n k) = EHDR_SIZE.
Proof. intros E. unfold header_bytes, ident_bytes. rewrite E. autorewrite with zlen. done. Qed.

Lemma zslice_swap_head {A} (a c x : list A) o k :
  length a = length c -> zlen a <= o -> zslice (a ++ x) o k = zslice (c ++ x) o k.
Proof.
  intros E Ho. rewrite !zslice_app_r by (unfold zlen in *; lia). unfold zlen. by rewrite E.
Qed.

Lemma placed_swap_head a c x s o :
  length a = length c -> zlen a = EHDR_SIZE -> placed (a ++ x) s o -> placed (c ++ x) s o.
Proof.
  intros E Ha. unfold placed. case_match; [done|]. case_match; [done|].
  intros (H1 & H2 & H3). assert (zlen (c ++ x) = zlen (a ++ x)) as ->.
  { rewrite !zlen_app. unfold zlen. by rewrite E. }
  split; [done|split; [done|]]. intros Hs. destruct (H3 Hs) as [? H4]. split; [done|].
  rewrite <- H4 at 2. symmetry. apply zslice_swap_head; [done|lia].
Qed.

(** [hdr], then the section contents, then the section header table. *)
Lemma emit_Ok b l out :
  plain b -> emit b l = Ok out ->
  exists hdr body offs,
    hdr = header_bytes no_overrides (EHDR_SIZE + zlen body) (zlen (l_shdrs l)) (l_shstrtab_index l) /\
    out = hdr ++ body ++ shdr_table (l_shdrs l) (l_name_offsets l) offs /\
    Forall2 (placed (hdr ++ body)) (l_shdrs l) offs /\
    zlen body mod 8 = 0.
Proof.
  intros [Hh Ht]. unfold emit. rewrite Hh, Ht.
  pose proof (zlen_replicate (Z.to_nat EHDR_SIZE) x00) as Hz.
  change (Z.of_nat _) with EHDR_SIZE in Hz. remember (replicate (Z.to_nat EHDR_SIZE) x00) as zero eqn:E0. clear E0.
  destruct (emit_fold (l_shdrs l) zero []) as (ext & offs & -> & Hp); [lia|].
  unfold pad_to. pose proof (padding_aligned (zlen (zero ++ ext)) 8 ltac:(lia)) as Hm.
  rewrite <- (zlen_replicate _ x00) in Hm. set (pad := replicate _ x00) in *.
  assert (zlen ((zero ++ ext) ++ pad) = EHDR_SIZE + zlen (ext ++ pad)) as ->.
  { rewrite !zlen_app, Hz. lia. }
  pose proof (zlen_header no_overrides (EHDR_SIZE + zlen (ext ++ pad)) (zlen (l_shdrs l))
      (l_shstrtab_index l) eq_refl) as Hhdr. rewrite Hhdr. simpl negb. cbv iota.
  remember (header_bytes _ _ _ _) as hdr eqn:Eh. intros [= <-].
  exists hdr, (ext ++ pad), offs. split; [done|]. split; [|split].
  - f_equal. rewrite <- !app_assoc. unfold zdrop. rewrite drop_app_ge by (unfold zlen in Hz; lia).
    replace (Z.to_nat EHDR_SIZE - length zero)%nat with 0%nat by (unfold zlen in Hz; lia).
    done.
  - eapply Forall2_impl; [exact Hp|]. intros s o Ho.
    apply (placed_app _ pad) in Ho. rewrite <- app_assoc in Ho.
    eapply placed_swap_head; [|exact Hz|exact Ho]. unfold zlen in *. lia.
  - rewrite zlen_app. rewrite zlen_app, Hz in Hm. unfold EHDR_SIZE in *. rewrite <- Hm.
    rewrite <- (Z.mod_add (zlen ext + _) 8 8) by lia. f_equal. lia.
Qed.

(** ** The header *)

Definition header_fields (shoff n k : Z) : list (nat * Z) :=
  [(2%nat, ET_REL); (2%nat, EM_X86_64); (4%nat, b2z EV_CURRENT); (8%nat, 0); (8%nat, 0); (8%nat, shoff);
   (4%nat, 0); (2%nat, EHDR_SIZE); (2%nat, 0); (2%nat, 0); (2%nat, SHDR_SIZE); (2%nat, n); (2%nat, k)].

Lemma header_bytes_fields shoff n k :
  header_bytes no_overrides shoff n k =
  ident_bytes no_overrides ++ fields (header_fields shoff (wrap_u 16 n) k).
Proof. unfold header_bytes, fields. cbn -[le_bytes ident_bytes wrap_u]. by rewrite ?app_nil_r. Qed.

(** A constant or a hypothesis in the range of a field. *)
Ltac field_range := first [assumption | by split; vm_compute].

Definition rel_header (bs : bytes) (shoff n k : Z) : Elf :=
  mkElf bs (ident_bytes no_overrides) ET_REL EM_X86_64 (b2z EV_CURRENT) 0 0 shoff 0 EHDR_SIZE 0 0
    SHDR_SIZE n k [] [] [] [].

Lemma parse_header_emitted shoff n k rest bs :
  in_u 64 shoff -> in_u 16 n -> in_u 16 k ->
  bs = header_bytes no_overrides shoff n k ++ rest -> zlen bs <= U64_MAX ->
  parse_header bs = Ok (rel_header bs shoff n k).
Proof.
  intros Hs Hn Hk E Hl.
  assert (zlen bs = EHDR_SIZE + zlen rest) as Hlen by (by rewrite E, zlen_app, zlen_header).
  pose proof (zlen_nonneg rest). rewrite header_bytes_fields, <- app_assoc in E.
  assert (wrap_u 16 n = n) as Hw by (by apply Z.mod_small). rewrite Hw in E.
  unfold parse_header. rewrite (proj2 (Z.ltb_ge _ _)) by lia.
  assert (forall len off v m, 16 <= off -> field_at (header_fields shoff n k) (off - 16) = Some (m, v) ->
            len = Z.of_nat m -> in_u (8 * len) v -> read_le len bs off = Ok v) as Hread.
  { intros len off v m Ho Hf Hm Hv. rewrite E. replace off with (zlen (ident_bytes no_overrides) + (off - 16)).
    - eapply read_field_at; [exact Hf|done..|]. by rewrite <- E.
    - change (zlen (ident_bytes no_overrides)) with 16. lia. }
  assert (exists tl, bs = [x7f; x45; x4c; x46; x02; x01; x01; x00] ++ replicate 8 x00 ++ tl) as [tl Etl]
    by (rewrite E; eauto).
  assert (ztake 4 bs = ELF_MAGIC) as -> by (by rewrite Etl).
  rewrite decide_False by congruence.
  assert (bs !! 4%nat = Some ELFCLASS64) as -> by (by rewrite Etl). rewrite decide_False by congruence.
  assert (bs !! 5%nat = Some ELFDATA2LSB) as -> by (by rewrite Etl). rewrite decide_False by congruence.
  unfold u16le, u32le, u64le.
  repeat (erewrite Hread; [|lia|reflexivity|done|field_range]). rewrite !result_bind_ok.
  assert (take EI_NIDENT bs = ident_bytes no_overrides) as -> by (by rewrite E). done.
Qed.

(** ** The section header table *)

Definition shdr_fields (name_off offset : Z) (s : Shdr) : list (nat * Z) :=
  [(4%nat, name_off); (4%nat, sh_type s); (8%nat, sh_flags s); (8%nat, sh_addr s); (8%nat, offset);
   (8%nat, sh_size s); (4%nat, sh_link s); (4%nat, sh_info s); (8%nat, sh_align s); (8%nat, sh_entsize s)].

Lemma shdr_bytes_fields name_off offset s :
  shdr_bytes name_off offset s = fields (shdr_fields name_off offset s).
Proof. unfold shdr_bytes, fields. cbn -[le_bytes]. by rewrite ?app_nil_r. Qed.

Record wf_shdr (s : Shdr) : Prop := {
  wf_sh_name : good_name (sh_name s);
  wf_sh_type : in_u 32 (sh_type s);
  wf_sh_flags : in_u 64 (sh_flags s);
  wf_sh_addr : in_u 64 (sh_addr s);
  wf_sh_size : in_u 64 (sh_size s);
  wf_sh_link : in_u 32 (sh_link s);
  wf_sh_info : in_u 32 (sh_info s);
  wf_sh_align : in_u 64 (sh_align s);
  wf_sh_entsize : in_u 64 (sh_entsize s)
}.

(** What the reader makes of a section header, once it has its name. *)
Definition section_of (i : nat) (offset : Z) (s : Shdr) : Section_ :=
  mkSec (Z.of_nat i) (sh_name s) (sh_type s) (sh_flags s) (sh_addr s) offset (sh_size s)
    (sh_link s) (sh_info s) (sh_align s) (sh_entsize s).

Definition raw_section (i : nat) (name_off offset : Z) (s : Shdr) : Z * Section_ :=
  (name_off, set_name [] (section_of i offset s)).

Lemma parse_section_emitted pre post i name_off offset s :
  wf_shdr s -> in_u 32 name_off -> in_u 64 offset ->
  zlen (pre ++ shdr_bytes name_off offset s ++ post) <= U64_MAX ->
  parse_section (pre ++ shdr_bytes name_off offset s ++ post) (Z.of_nat i) (zlen pre)
  = Ok (raw_section i name_off offset s).
Proof.
  rewrite shdr_bytes_fields. intros [] Hn Ho Hl. unfold parse_section, u32le, u64le.
  set (bs := pre ++ _ ++ post) in *.
  assert (forall len off v m, field_at (shdr_fields name_off offset s) off = Some (m, v) ->
            len = Z.of_nat m -> in_u (8 * len) v -> read_le len bs (zlen pre + off) = Ok v) as Hread.
  { intros len off v m Hf Hm Hv. by eapply read_field_at. }
  replace (read_le 4 bs (zlen pre)) with (read_le 4 bs (zlen pre + 0)) by (f_equal; lia).
  repeat (erewrite Hread; [|reflexivity|done|assumption]). rewrite !result_bind_ok. done.
Qed.

Section table.
Context (e : Elf) (pre : bytes) (shdrs : list Shdr) (names offs : list Z).
Hypothesis Hbytes : e_bytes e = pre ++ shdr_table shdrs names offs.
Hypothesis Hshoff : e_shoff e = zlen pre.
Hypothesis Hentsize : e_shentsize e = SHDR_SIZE.
Hypothesis Hshnum : e_shnum e = zlen shdrs.
Hypothesis Hlen : zlen (e_bytes e) <= U64_MAX.
Hypothesis Hwf : Forall wf_shdr shdrs.
Hypothesis Hnames : length names = length shdrs.
Hypothesis Hoffs : length offs = length shdrs.
Hypothesis Hnames32 : Forall (in_u 32) names.
Hypothesis Hoffs64 : Forall (in_u 64) offs.

Definition row (i : nat) (s : Shdr) : bytes :=
  shdr_bytes (default 0 (names !! i)) (default 0 (offs !! i)) s.

Lemma rows_width : Forall (fun r => zlen r = SHDR_SIZE) (imap row shdrs).
Proof using.
  apply Forall_lookup. intros i r. rewrite list_lookup_imap. destruct (shdrs !! i); simpl; [|done].
  intros [= <-]. unfold row. rewrite shdr_bytes_fields. by rewrite zlen_fields.
Qed.

Lemma default_lookup_Forall (P : Z -> Prop) l i :
  Forall P l -> (i < length l)%nat -> P (default 0 (l !! i)).
Proof using.
  intros HP [x Hx]%lookup_lt_is_Some. rewrite Hx. simpl. by apply (Forall_lookup_1 P l i).
Qed.

Definition raw_sections : list (Z * Section_) :=
  imap (fun i s => raw_section i (default 0 (names !! i)) (default 0 (offs !! i)) s) shdrs.

Lemma section_entry_emitted i s :
  shdrs !! i = Some s ->
  section_entry e (Z.of_nat i) = Ok (raw_section i (default 0 (names !! i)) (default 0 (offs !! i)) s).
Proof using All.
  intros Hi. pose proof (lookup_lt_Some _ _ _ Hi) as Hlt.
  destruct (concat_row (imap row shdrs) SHDR_SIZE i (row i s) rows_width) as (post & Ec & Hpre).
  { by rewrite list_lookup_imap, Hi. }
  unfold section_entry. rewrite Hbytes, Hshoff, Hentsize in *.
  unfold shdr_table in *. change (imap _ shdrs) with (imap row shdrs) in *.
  set (mid := concat (take i (imap row shdrs))) in *. rewrite Ec, app_assoc in *.
  assert (zlen (row i s) = SHDR_SIZE) as Hrow.
  { unfold row. by rewrite shdr_bytes_fields, zlen_fields. }
  assert (SHDR_SIZE = 64) by done. pose proof Hlen as Hl. rewrite !zlen_app, Hrow in Hl. pose proof (zlen_nonneg post).
  pose proof (zlen_nonneg pre). pose proof (zlen_nonneg mid).
  unfold entry_at, checked_mul, checked_add.
  replace (Z.of_nat i * SHDR_SIZE) with (zlen mid) by lia.
  rewrite (proj2 (Z.ltb_ge _ _)) by lia. cbn [mbind option_bind].
  rewrite (proj2 (Z.ltb_ge _ _)) by lia. cbn [mbind option_bind].
  rewrite (proj2 (Z.ltb_ge _ _)) by lia. cbn [mbind option_bind].
  rewrite (proj2 (Z.leb_le _ _)) by (rewrite !zlen_app; lia). cbn [ok_or]. rewrite result_bind_ok.
  rewrite <- zlen_app. apply parse_section_emitted; [by apply (Forall_lookup_1 wf_shdr shdrs i)|..].
  - apply default_lookup_Forall; [done|lia].
  - apply default_lookup_Forall; [done|lia].
  - done.
Qed.

Lemma raw_sections_parsed :
  try_map (section_entry e) (seqZ 0 (e_shnum e)) = Ok raw_sections.
Proof using All.
  apply try_map_Forall2. apply Forall2_same_length_lookup_2.
  - unfold raw_sections. rewrite length_imap, length_seqZ, Hshnum. unfold zlen. lia.
  - intros i z p [-> ?]%lookup_seqZ. unfold raw_sections. rewrite list_lookup_imap.
    intros (s & Hs & ->)%fmap_Some. rewrite Z.add_0_l. by apply section_entry_emitted.
Qed.

(** The name table is read back from the section [e_shstrndx] names. *)
Context (strs : bytes).
Hypothesis Hstrs : section_names e raw_sections = strs.
Hypothesis Hnonzero : shdrs <> [] /\ pre <> [].
Hypothesis Hplaced : Forall2 (fun s o => has_string strs o (sh_name s)) shdrs names.

Lemma parse_sections_emitted :
  parse_sections e = Ok (imap (fun i s => section_of i (default 0 (offs !! i)) s) shdrs).
Proof using All.
  unfold parse_sections. destruct Hnonzero as [Hn Hp].
  assert ((e_shnum e =? 0) || (e_shoff e =? 0) = false) as ->.
  { rewrite Hshnum, Hshoff. destruct shdrs; [done|]. destruct pre; [done|].
    rewrite !zlen_cons. pose proof (zlen_nonneg l). pose proof (zlen_nonneg l0). lia. }
  rewrite Hentsize. cbv [SHDR_SIZE]. rewrite Z.ltb_irrefl.
  rewrite raw_sections_parsed, result_bind_ok, Hstrs. f_equal.
  apply list_eq. intros i. unfold raw_sections. rewrite list_lookup_fmap, !list_lookup_imap.
  destruct (shdrs !! i) as [s|] eqn:Hi; simpl; [|done]. f_equal.
  destruct (Forall2_lookup_l _ _ _ _ _ Hplaced Hi) as (o & Ho & Hs). rewrite Ho. simpl.
  rewrite (cstr_has_string strs o (sh_name s)); [done| |done].
  apply wf_sh_name. by apply (Forall_lookup_1 wf_shdr shdrs i).
Qed.
End table.
