(* ===== verification/ElfPlan.v ===== *)
(** * What the writer plans

  The section indices [plan] hands out, the entries it collects, and when the
  final index check passes. *)

From S2P Require Import Prelude Text Elf ElfWrite ElfRead ElfLayout.

(** ** Association lists *)

Lemma find_name_In {A} name (l : list (bytes * A)) a :
  find_name name l = Some a -> (name, a) ∈ l.
Proof.
  induction l as [|[n x] l IH]; simpl; [done|]. case_decide; [intros [= ->]; subst; left|].
  right. auto.
Qed.

Lemma find_name_None {A} name (l : list (bytes * A)) :
  find_name name l = None <-> name ∉ l.*1.
Proof.
  induction l as [|[n x] l IH]; simpl; [split; [intros _ H; inversion H|done]|].
  rewrite not_elem_of_cons. case_decide; [split; [done|intros []; congruence]|].
  rewrite IH.
  split; [split; [congruence|done]|by intros [_ ?]].
Qed.

Lemma find_name_NoDup {A} name (l : list (bytes * A)) a :
  NoDup l.*1 -> (name, a) ∈ l -> find_name name l = Some a.
Proof.
  induction l as [|[n x] l IH]; simpl; [by intros _ H%elem_of_nil|].
  intros [Hn Hd]%NoDup_cons [[= -> ->]|Hin]%elem_of_cons; [by rewrite decide_True|].
  rewrite decide_False; [auto|]. intros ->. apply Hn. apply list_elem_of_fmap.
  by exists (name, a).
Qed.

Lemma find_name_app {A} name (l k : list (bytes * A)) :
  find_name name (l ++ k) =
  match find_name name l with Some a => Some a | None => find_name name k end.
Proof. induction l as [|[n x] l IH]; simpl; [done|]. by case_decide. Qed.

(** ** The final index check *)

Lemma idx_le_total a b : idx_le a b = false -> idx_le b a = true.
Proof. unfold idx_le. lia. Qed.
Lemma idx_le_trans a b c : idx_le a b = true -> idx_le b c = true -> idx_le a c = true.
Proof. unfold idx_le. lia. Qed.

Definition iota (n : nat) : list Z := Z.of_nat <$> seq 0 n.

Lemma iota_lookup n i z : iota n !! i = Some z -> z = Z.of_nat i /\ (i < n)%nat.
Proof.
  unfold iota. rewrite list_lookup_fmap_Some. intros (k & -> & [-> ?]%lookup_seq). lia.
Qed.

Lemma NoDup_iota n : NoDup (iota n).
Proof. apply NoDup_fmap_2; [|apply NoDup_seq]. intros ???. lia. Qed.

Lemma finish_entries_Ok E shdrs :
  finish_entries E = Ok shdrs ->
  NoDup E.*1 /\ length shdrs = length E /\
  (forall i s, shdrs !! i = Some s <-> (Z.of_nat i, s) ∈ E) /\
  forall p, p ∈ E -> 0 <= p.1.
Proof.
  unfold finish_entries. case_decide as Hs; [|done]. intros [= <-].
  pose proof (sort_by_perm idx_le E) as Hp. set (S := sort_by idx_le E) in *.
  change (S.*1 = iota (length S)) in Hs.
  split_and!.
  - rewrite <- Hp, Hs. apply NoDup_iota.
  - by rewrite length_fmap, Hp.
  - intros i s. rewrite <- Hp, list_elem_of_lookup, list_lookup_fmap_Some. split.
    + intros ([z s'] & [= ->] & Hi). exists i. rewrite Hi. do 2 f_equal.
      assert (iota (length S) !! i = Some z) as [-> _]%iota_lookup; [|done].
      by rewrite <- Hs, list_lookup_fmap, Hi.
    + intros [k Hk]. assert (k = i) as ->; [|by exists (Z.of_nat i, s)].
      assert (iota (length S) !! k = Some (Z.of_nat i)) as [? _]%iota_lookup; [|lia].
      by rewrite <- Hs, list_lookup_fmap, Hk.
  - intros p. rewrite <- Hp. intros [j Hj]%list_elem_of_lookup.
    assert (iota (length S) !! j = Some p.1) as [-> _]%iota_lookup; [|lia].
    by rewrite <- Hs, list_lookup_fmap, Hj.
Qed.

Lemma sorted_perm_iota (l : list Z) n :
  l ≡ₚ iota n -> StronglySorted Z.le l -> l = iota n.
Proof.
  intros Hp Hs. apply (StronglySorted_unique_strong Z.le); [intros; lia|done| |done].
  clear. unfold iota. generalize 0%nat. induction n as [|n IH]; intros k; simpl; [constructor|].
  constructor; [apply IH|]. rewrite Forall_fmap, Forall_forall. intros x Hx%elem_of_seq. simpl. lia.
Qed.

(** The check passes exactly when the indices are a permutation of [0 .. n-1]. *)
Lemma finish_entries_perm E :
  E.*1 ≡ₚ iota (length E) -> exists shdrs, finish_entries E = Ok shdrs.
Proof.
  intros Hp. unfold finish_entries.
  assert ((sort_by idx_le E).*1 = Z.of_nat <$> seq 0 (length (sort_by idx_le E))) as ->.
  { rewrite (Permutation_length (sort_by_perm idx_le E)). apply sorted_perm_iota.
    - by rewrite sort_by_perm.
    - pose proof (sort_by_sorted idx_le idx_le_total idx_le_trans E) as Hs.
      induction Hs as [|a l Hl IH Ha]; simpl; constructor; [done|].
      rewrite Forall_fmap. eapply Forall_impl; [exact Ha|]. unfold idx_le. simpl. lia. }
  rewrite decide_True by done. eauto.
Qed.

(** ** Section indices *)

Lemma assign_indices_names rb next l : (assign_indices rb next l).*1 = ss_name <$> l.
Proof. revert next. induction l as [|s l IH]; intros next; simpl; [done|]. by rewrite IH. Qed.

Lemma index_of_names b : (index_of b).*1 = ss_name <$> ob_sections b.
Proof. apply assign_indices_names. Qed.

(** The index of a user section. *)
Definition user_idx (b : ObjectBuilder) (name : bytes) : Z :=
  default 0 (find_name name (index_of b)).

Lemma section_index_user b s :
  s ∈ ob_sections b -> section_index (index_of b) (ss_name s) = Ok (user_idx b (ss_name s)).
Proof.
  intros Hs. unfold section_index, user_idx.
  destruct (find_name (ss_name s) (index_of b)) eqn:E; [done|].
  apply find_name_None in E. exfalso. apply E. rewrite index_of_names.
  apply list_elem_of_fmap. eauto.
Qed.

Lemma assign_indices_bound rb next l n i :
  (n, i) ∈ assign_indices rb next l ->
  next <= i < next + 2 * zlen l.
Proof.
  revert next. induction l as [|s l IH]; intros next; simpl; [by intros ?%elem_of_nil|].
  rewrite zlen_cons. pose proof (zlen_nonneg l).
  intros [[= -> ->]|Hi%IH]%elem_of_cons; destruct (rb && has_relocs s); lia.
Qed.

Lemma content_base_range b : 1 <= content_base b <= 4.
Proof. unfold content_base. destruct (ob_symtab_first b); lia. Qed.

Lemma user_idx_range b s :
  s ∈ ob_sections b -> 1 <= user_idx b (ss_name s) < 4 + 2 * zlen (ob_sections b).
Proof.
  intros Hs. pose proof (section_index_user b s Hs) as H.
  apply ok_or_Ok_inv, find_name_In, assign_indices_bound in H.
  pose proof (content_base_range b). lia.
Qed.

(** ** The entries *)

Definition rela_entry (b : ObjectBuilder) (rela_for : list (bytes * bytes)) (s : SectionSpec)
    : list (Z * Shdr) :=
  match find_name (ss_name s) rela_for with
  | Some bs =>
      [(if ob_rela_before_target b then user_idx b (ss_name s) - 1
        else content_base b + n_user b + default 0 (position_name (ss_name s) rela_for),
        rela_shdr b s (user_idx b (ss_name s)) bs)]
  | None => []
  end.

Definition entries_of (b : ObjectBuilder) (rela_for : list (bytes * bytes)) (s : SectionSpec)
    : list (Z * Shdr) :=
  rela_entry b rela_for s ++ [(user_idx b (ss_name s), user_shdr s)].

Definition table_entries (b : ObjectBuilder) (st : SymState) (first_global : Z) : list (Z * Shdr) :=
  let i := symtab_index b in
  [(i, table_shdr (str ".symtab") SHT_SYMTAB (i + 1) first_global 8 SYM_SIZE (concat ((syms st).*2)));
   (i + 1, table_shdr (str ".strtab") SHT_STRTAB 0 0 1 0 (strtab st));
   (i + 2, table_shdr (str ".shstrtab") SHT_STRTAB 0 0 1 0 [])].

Definition all_entries b rela_for st first_global : list (Z * Shdr) :=
  ((0, null_shdr) :: concat (entries_of b rela_for <$> ob_sections b)) ++
  table_entries b st first_global.

Lemma push_entries_user b rf acc s :
  s ∈ ob_sections b -> push_entries b rf acc s = Ok (acc ++ entries_of b rf s).
Proof.
  intros Hs. unfold push_entries. rewrite section_index_user by done. rewrite result_bind_ok.
  unfold entries_of, rela_entry. f_equal. destruct (find_name (ss_name s) rf); simpl;
    by rewrite <- ?app_assoc.
Qed.

Lemma push_entries_fold b rf l acc :
  (forall s, s ∈ l -> s ∈ ob_sections b) ->
  try_fold (push_entries b rf) l acc = Ok (acc ++ concat (entries_of b rf <$> l)).
Proof.
  revert acc. induction l as [|s l IH]; intros acc Hl; [simpl; by rewrite app_nil_r|].
  cbn [try_fold]. rewrite fmap_cons, concat_cons.
  rewrite push_entries_user by (apply Hl; left). rewrite result_bind_ok, app_assoc.
  apply IH. intros; apply Hl; by right.
Qed.

Lemma push_rela_fold st l acc rf :
  try_fold (push_rela st) l acc = Ok rf ->
  exists k, rf = acc ++ k /\
    Forall2 (fun s p => p.1 = ss_name s /\ section_rela st s = Ok p.2)
      (filter (fun s => has_relocs s) l) k.
Proof.
  revert acc. induction l as [|s l IH]; intros acc; simpl.
  { intros [= <-]. exists []. by rewrite app_nil_r. }
  intros (acc1 & H1 & H)%result_bind_Ok_inv. unfold push_rela in H1. rewrite filter_cons.
  destruct (has_relocs s) eqn:Er.
  - apply result_bind_Ok_inv in H1 as (bs & Hbs & [= <-]). apply IH in H as (k & -> & Hk).
    exists ((ss_name s, bs) :: k). rewrite <- app_assoc. split; [done|].
    rewrite decide_True by done. by constructor.
  - injection H1 as <-. rewrite decide_False by (by intros ?). by apply IH.
Qed.

(** Everything a successful plan went through. *)
Lemma plan_Ok b l :
  plan b = Ok l ->
  exists st first_global rela_for shdrs shstr offs,
    plan_symbols b = Ok (st, first_global) /\
    Forall2 (fun s p => p.1 = ss_name s /\ section_rela st s = Ok p.2)
      (filter (fun s => has_relocs s) (ob_sections b)) rela_for /\
    finish_entries (all_entries b rela_for st first_global) = Ok shdrs /\
    name_table shdrs = (shstr, offs) /\
    l = mkLayout (alter (set_data shstr) (Z.to_nat (symtab_index b + 2)) shdrs) offs
          (wrap_u 16 (symtab_index b + 2)).
Proof.
  unfold plan. destruct (_ && _); [done|].
  intros ([st fg] & Hst & H)%result_bind_Ok_inv.
  apply result_bind_Ok_inv in H as (rf & Hrf & H).
  apply push_rela_fold in Hrf as (k & -> & Hk). simpl in H.
  rewrite push_entries_fold in H by done. rewrite result_bind_ok in H.
  apply result_bind_Ok_inv in H as (shdrs & Hf & H).
  destruct (name_table shdrs) as [shstr offs] eqn:En.
  destruct (shdrs !! _); [|done]. injection H as <-.
  exists st, fg, k, shdrs, shstr, offs. done.
Qed.

(** ** Distinct names *)

Lemma user_entry_In b rf s l :
  s ∈ l -> (user_idx b (ss_name s), user_shdr s) ∈ concat (entries_of b rf <$> l).
Proof.
  intros Hs. apply list_elem_of_In, in_concat. exists (entries_of b rf s).
  rewrite <- !list_elem_of_In. split; [by apply list_elem_of_fmap_2|].
  unfold entries_of. set_solver.
Qed.

Lemma NoDup_entries_idx b rf l :
  NoDup (concat (entries_of b rf <$> l)).*1 -> NoDup ((fun s => user_idx b (ss_name s)) <$> l).
Proof.
  induction l as [|s l IH]; [constructor|].
  rewrite !fmap_cons, concat_cons, fmap_app. intros (_ & Hd & Hl)%NoDup_app.
  apply NoDup_cons. split; [|auto]. intros (s' & E & Hs')%list_elem_of_fmap.
  assert (user_idx b (ss_name s) ∈ (entries_of b rf s).*1) as H1.
  { unfold entries_of. rewrite fmap_app. set_solver. }
  apply (Hd _ H1). rewrite E. apply list_elem_of_fmap.
  exists (user_idx b (ss_name s'), user_shdr s'). split; [done|]. by apply user_entry_In.
Qed.

Lemma all_entries_idx b rf st fg :
  NoDup (all_entries b rf st fg).*1 -> NoDup (user_idx b <$> (ss_name <$> ob_sections b)).
Proof.
  unfold all_entries. rewrite fmap_app, fmap_cons. intros (Hd & _)%NoDup_app.
  apply NoDup_cons in Hd as [_ Hd]. apply NoDup_entries_idx in Hd.
  by rewrite <- list_fmap_compose.
Qed.

Lemma plan_NoDup b l : plan b = Ok l -> NoDup (ss_name <$> ob_sections b).
Proof.
  intros (st & fg & rf & shdrs & shstr & offs & _ & _ & Hf & _ & _)%plan_Ok.
  apply finish_entries_Ok in Hf as (Hd & _). apply all_entries_idx in Hd.
  by apply NoDup_fmap_1 in Hd.
Qed.

(** Equal images under a map that is injective on the list. *)
Lemma NoDup_fmap_inj {A B} (f : A -> B) l x y :
  NoDup (f <$> l) -> x ∈ l -> y ∈ l -> f x = f y -> x = y.
Proof.
  intros Hd [i Hi]%list_elem_of_lookup [j Hj]%list_elem_of_lookup E.
  assert (i = j) as ->; [|congruence].
  apply (NoDup_lookup _ i j (f x) Hd); rewrite list_lookup_fmap; [by rewrite Hi|].
  rewrite Hj. simpl. by f_equal.
Qed.

(** Names that occur once are looked up where they were assigned. *)
Lemma find_name_map {A} (d : A) (l : list (bytes * A)) :
  NoDup l.*1 -> (fun n => default d (find_name n l)) <$> l.*1 = l.*2.
Proof.
  induction l as [|[n a] l IH]; [done|]. csimpl. intros [Hn Hd]%NoDup_cons.
  rewrite decide_True by done. csimpl. rewrite <- (IH Hd). f_equal.
  apply list_fmap_ext. intros i m Hm. rewrite decide_False; [done|]. intros ->.
  by apply Hn, list_elem_of_lookup_2 with i.
Qed.

Lemma position_name_map {A} (l : list (bytes * A)) :
  NoDup l.*1 -> (fun n => default 0 (position_name n l)) <$> l.*1 = iota (length l).
Proof.
  induction l as [|[n a] l IH]; [done|]. csimpl. intros [Hn Hd]%NoDup_cons.
  unfold iota. csimpl. rewrite decide_True by done. apply (f_equal2 cons); [done|].
  rewrite <- fmap_S_seq, <- (list_fmap_compose S).
  transitivity (Z.succ <$> iota (length l)).
  - rewrite <- (IH Hd), <- (list_fmap_compose _ Z.succ). apply list_fmap_ext. intros i m Hm.
    rewrite decide_False by (intros ->; by apply Hn, list_elem_of_lookup_2 with i). simpl.
    destruct (position_name m l) eqn:E; [done|]. exfalso.
    assert (m ∈ l.*1) as Hin by (by apply list_elem_of_lookup_2 with i). revert E Hin. clear.
    induction l as [|[n a] l IH]; simpl; [by intros _ ?%elem_of_nil|].
    case_decide; [done|]. intros E Hin. apply elem_of_cons in Hin as [->|Hin]; [done|].
    destruct (position_name m l); [done|auto].
  - unfold iota. rewrite <- list_fmap_compose. apply list_fmap_ext. intros; simpl; lia.
Qed.

Lemma user_idx_map b :
  NoDup (ss_name <$> ob_sections b) ->
  user_idx b <$> (ss_name <$> ob_sections b) = (index_of b).*2.
Proof.
  intros Hd. rewrite <- (index_of_names b) in *. by apply find_name_map.
Qed.

(** ** The index check always passes on distinct names *)

Lemma iota_seqZ k : iota k = seqZ 0 (Z.of_nat k).
Proof. unfold iota, seqZ. rewrite Nat2Z.id. apply list_fmap_ext. intros; simpl; lia. Qed.

Lemma add_iota c k : Z.add c <$> iota k = seqZ c (Z.of_nat k).
Proof. rewrite iota_seqZ, fmap_add_seqZ. f_equal. lia. Qed.

Lemma assign_indices_false next l :
  (assign_indices false next l).*2 = seqZ next (zlen l).
Proof.
  revert next. induction l as [|s l IH]; intros next; [done|]. csimpl.
  rewrite IH, zlen_cons, Z.add_1_l, (seqZ_cons next) by (pose proof (zlen_nonneg l); lia).
  f_equal. f_equal; lia.
Qed.

(** What a section and its relocations take in the interleaved layout. *)
Definition pair_idx (s : SectionSpec) (i : Z) : list Z :=
  (if has_relocs s then [i - 1] else []) ++ [i].

Lemma assign_indices_true next l :
  concat (zip_with pair_idx l (assign_indices true next l).*2) =
  seqZ next (zlen l + zlen (filter (fun s => has_relocs s) l)).
Proof.
  revert next. induction l as [|s l IH]; intros next; [done|]. csimpl. rewrite IH, filter_cons.
  unfold pair_idx. pose proof (zlen_nonneg l).
  pose proof (zlen_nonneg (filter (fun s => has_relocs s) l)).
  destruct (has_relocs s) eqn:E.
  - rewrite decide_True by done. rewrite !zlen_cons. simpl.
    rewrite (seqZ_cons next), (seqZ_cons (Z.succ next)) by lia.
    repeat (apply (f_equal2 cons); [lia|]). f_equal; lia.
  - rewrite decide_False by (by intros ?). rewrite zlen_cons. simpl.
    rewrite (seqZ_cons next) by lia. apply (f_equal2 cons); [done|]. f_equal; lia.
Qed.

Section indices.
Context (b : ObjectBuilder) (st : SymState) (rf : list (bytes * bytes)) (fg : Z).
Hypothesis Hnames : NoDup (ss_name <$> ob_sections b).
Hypothesis Hrf : rf.*1 = ss_name <$> filter (fun s => has_relocs s) (ob_sections b).
Hypothesis Hcount : 2 * zlen (ob_sections b) < 2 ^ 32.

Let n := zlen (ob_sections b).
Let m := zlen (filter (fun s => has_relocs s) (ob_sections b)).

Lemma n_user_eq : n_user b = n.
Proof using Hcount. apply Z.mod_small. subst n. pose proof (zlen_nonneg (ob_sections b)). lia. Qed.

Lemma n_rela_le : 0 <= m <= n.
Proof using.
  subst m n. unfold zlen. pose proof (length_filter (fun s => has_relocs s) (ob_sections b)). lia.
Qed.

Lemma n_rela_eq : n_rela b = m.
Proof using Hcount. apply Z.mod_small. pose proof n_rela_le. subst n. lia. Qed.

Lemma zlen_rf : zlen rf = m.
Proof using Hrf. subst m. unfold zlen. rewrite <- (length_fmap fst rf), Hrf, length_fmap. done. Qed.

Lemma find_rf s : s ∈ ob_sections b -> (exists bs, find_name (ss_name s) rf = Some bs) <-> has_relocs s.
Proof using Hnames Hrf.
  intros Hs. destruct (find_name (ss_name s) rf) as [bs|] eqn:E.
  - split; [|eauto]. intros _. apply find_name_In in E.
    apply (list_elem_of_fmap_2 fst) in E. simpl in E. rewrite Hrf in E.
    apply list_elem_of_fmap in E as (s' & En & [Hr Hs']%list_elem_of_filter).
    by rewrite (NoDup_fmap_inj ss_name _ s s' Hnames).
  - split; [by intros []|]. intros Hr. apply find_name_None in E. exfalso. apply E.
    rewrite Hrf. apply list_elem_of_fmap. exists s. split; [done|]. by apply list_elem_of_filter.
Qed.

(** The [.rela] indices of the sections, when they follow all the sections. *)
Lemma rela_idx_trailing l :
  ob_rela_before_target b = false -> (forall s, s ∈ l -> s ∈ ob_sections b) ->
  (concat (rela_entry b rf <$> l)).*1 =
  (fun nm => content_base b + n + default 0 (position_name nm rf)) <$>
    (ss_name <$> filter (fun s => has_relocs s) l).
Proof using Hnames Hrf Hcount.
  intros Hb. induction l as [|s l IH]; intros Hl; [done|].
  rewrite fmap_cons, concat_cons, fmap_app, IH by (intros; apply Hl; by right).
  rewrite filter_cons. unfold rela_entry. pose proof (find_rf s ltac:(apply Hl; left)) as Hf.
  destruct (find_name (ss_name s) rf).
  - rewrite decide_True by (apply Hf; eauto). csimpl. by rewrite Hb, n_user_eq.
  - rewrite decide_False; [done|]. intros Hr. by apply Hf in Hr as [? ?].
Qed.

Lemma entries_split l :
  (concat (entries_of b rf <$> l)).*1 ≡ₚ
  (user_idx b <$> (ss_name <$> l)) ++ (concat (rela_entry b rf <$> l)).*1.
Proof using.
  induction l as [|s l IH]; [done|]. rewrite !fmap_cons, !concat_cons, !fmap_app, IH.
  unfold entries_of. rewrite fmap_app. simpl. solve_Permutation.
Qed.

Lemma entries_interleaved l :
  ob_rela_before_target b = true -> (forall s, s ∈ l -> s ∈ ob_sections b) ->
  (concat (entries_of b rf <$> l)).*1 = concat (zip_with pair_idx l (user_idx b <$> (ss_name <$> l))).
Proof using Hnames Hrf.
  intros Hb. induction l as [|s l IH]; intros Hl; [done|].
  rewrite !fmap_cons, concat_cons, fmap_app, IH by (intros; apply Hl; by right).
  csimpl. f_equal. unfold entries_of, rela_entry, pair_idx. rewrite fmap_app. f_equal.
  pose proof (find_rf s ltac:(apply Hl; left)) as Hf.
  destruct (find_name (ss_name s) rf); destruct (has_relocs s); csimpl; [by rewrite Hb| | |done].
  - by destruct (proj1 Hf ltac:(eauto)).
  - by destruct (proj2 Hf I).
Qed.

Lemma user_idx_before :
  ob_rela_before_target b = false ->
  user_idx b <$> (ss_name <$> ob_sections b) = seqZ (content_base b) n.
Proof using Hnames.
  intros Hb. rewrite user_idx_map by done. unfold index_of. rewrite Hb. apply assign_indices_false.
Qed.

Lemma NoDup_rf : NoDup rf.*1.
Proof using Hnames Hrf.
  rewrite Hrf. eapply sublist_NoDup; [exact Hnames|]. apply fmap_sublist, sublist_filter.
Qed.

Lemma content_indices :
  ob_rela_before_target b && ob_symtab_first b = false ->
  (concat (entries_of b rf <$> ob_sections b)).*1 ≡ₚ seqZ (content_base b) (n + m).
Proof using Hnames Hrf Hcount.
  intros Hflags. pose proof n_rela_le as Hm. destruct (ob_rela_before_target b) eqn:Hb.
  - simpl in Hflags. rewrite entries_interleaved by done. rewrite user_idx_map by done.
    unfold index_of, content_base. rewrite Hb, Hflags. by rewrite assign_indices_true.
  - rewrite entries_split, user_idx_before, rela_idx_trailing by done. rewrite <- Hrf.
    rewrite (list_fmap_compose (fun nm => default 0 (position_name nm rf))
               (fun p => content_base b + n + p)).
    rewrite position_name_map by apply NoDup_rf.
    rewrite (add_iota (content_base b + n)).
    change (Z.of_nat (length rf)) with (zlen rf). rewrite zlen_rf.
    by rewrite <- seqZ_app by lia.
Qed.

Lemma all_entries_perm :
  ob_rela_before_target b && ob_symtab_first b = false ->
  (all_entries b rf st fg).*1 ≡ₚ iota (length (all_entries b rf st fg)).
Proof using Hnames Hrf Hcount.
  intros Hflags. pose proof n_rela_le as Hm.
  assert ((all_entries b rf st fg).*1 ≡ₚ seqZ 0 (n + m + 4)) as Hp.
  { unfold all_entries, table_entries. rewrite fmap_app, fmap_cons, content_indices by done.
    csimpl. unfold symtab_index, content_base. rewrite n_user_eq, n_rela_eq.
    replace (n + m + 4) with (1 + (n + m) + 3) by lia. rewrite (seqZ_app 0 (1 + (n + m)) 3) by lia.
    rewrite (seqZ_app 0 1), !Z.add_0_l by lia. destruct (ob_symtab_first b).
    - change (seqZ 0 1) with [0]. cbn [app].
      apply Permutation_cons; [done|]. rewrite Permutation_app_comm.
      change [1; 1 + 1; 1 + 2] with (seqZ 1 3).
      change (seqZ 4) with (seqZ (1 + 3)). rewrite <- (seqZ_app 1 3 (n + m)), <- (seqZ_app 1 (n + m) 3) by lia.
      by rewrite (Z.add_comm 3).
    - change (seqZ 0 1) with [0]. cbn [app]. apply Permutation_cons; [done|].
      apply Permutation_app; [done|]. simpl. rewrite !(seqZ_cons (1 + _)) by lia.
      rewrite (seqZ_cons (Z.succ (1 + _))), (seqZ_cons (Z.succ (Z.succ _))), seqZ_nil by lia.
      apply reflexive_eq. rewrite !Z.add_assoc. f_equal. repeat f_equal; lia. }
  rewrite Hp. apply reflexive_eq. rewrite iota_seqZ. f_equal.
  apply Permutation_length in Hp. rewrite length_fmap, length_seqZ in Hp. lia.
Qed.
End indices.

Lemma rela_for_names st (l : list SectionSpec) (rf : list (bytes * bytes)) :
  Forall2 (fun s p => p.1 = ss_name s /\ section_rela st s = Ok p.2) l rf ->
  rf.*1 = ss_name <$> l.
Proof. induction 1 as [|s p l rf [E _] _ IH]; [done|]. csimpl. by rewrite E, IH. Qed.

(** With distinct names, [plan] fails only on a symbol or relocation. *)
Lemma plan_total b st fg rf :
  NoDup (ss_name <$> ob_sections b) -> 2 * zlen (ob_sections b) < 2 ^ 32 ->
  ob_rela_before_target b && ob_symtab_first b = false ->
  plan_symbols b = Ok (st, fg) -> try_fold (push_rela st) (ob_sections b) [] = Ok rf ->
  exists l, plan b = Ok l.
Proof.
  intros Hd Hc Hf Hst Hrf. unfold plan. rewrite Hf, Hst. cbn [mbind result_bind].
  rewrite Hrf. cbn [mbind result_bind]. rewrite push_entries_fold by done. cbn [mbind result_bind].
  apply push_rela_fold in Hrf as (k & -> & Hk). apply rela_for_names in Hk.
  pose proof (all_entries_perm b st k fg Hd Hk Hc Hf) as Hp.
  destruct (finish_entries_perm _ Hp) as [shdrs Hs]. unfold all_entries, table_entries in Hs.
  cbn [app] in *. rewrite Hs. cbn [mbind result_bind].
  destruct (name_table shdrs) as [shstr offs].
  assert (shdrs !! Z.to_nat (symtab_index b + 2) =
          Some (table_shdr (str ".shstrtab") SHT_STRTAB 0 0 1 0 [])) as ->; [|eauto].
  apply finish_entries_Ok in Hs as (_ & _ & H & _). rewrite H.
  rewrite Z2Nat.id; [set_solver|]. unfold symtab_index, n_user, n_rela, wrap_u.
  pose proof (content_base_range b). pose proof (Z.mod_pos_bound (zlen (ob_sections b)) (2 ^ 32)).
  pose proof (Z.mod_pos_bound (zlen (filter (fun s => has_relocs s) (ob_sections b))) (2 ^ 32)).
  destruct (ob_symtab_first b); lia.
Qed.
