(* ===== verification/ElfSyms.v ===== *)
(** * Symbols and relocations: what the writer plans and what the reader gets back *)

From S2P Require Import Prelude Text Elf ElfWrite ElfRead ElfLayout ElfPlan.

(** ** The symbols of a builder *)

Definition shndx_of (b : ObjectBuilder) (s : SymSection) : Z :=
  match s with
  | Undefined => SHN_UNDEF
  | Absolute => SHN_ABS
  | Common => SHN_COMMON
  | RawShndx v => v
  | InSection name => wrap_u 16 (user_idx b name)
  end.

Definition set_sym_idx (i : Z) (s : Symbol) : Symbol :=
  mkSym i (sym_name s) (sym_bind s) (sym_type s) (sym_visibility s) (sym_shndx s) (sym_value s)
    (sym_size s).

Definition null_symbol : Symbol := mkSym 0 [] 0 0 0 0 0 0.

Definition section_symbol (b : ObjectBuilder) (s : SectionSpec) : Symbol :=
  mkSym 0 [] STB_LOCAL STT_SECTION STV_DEFAULT (wrap_u 16 (user_idx b (ss_name s))) 0 0.

Definition symbol_of (b : ObjectBuilder) (s : SymbolSpec) : Symbol :=
  mkSym 0 (sy_name s) (sy_bind s) (sy_type s) (sy_visibility s) (shndx_of b (sy_section s))
    (sy_value s) (sy_size s).

Definition local_symbols (b : ObjectBuilder) : list SymbolSpec :=
  filter (fun s => sy_bind s = STB_LOCAL) (ob_symbols b).
Definition other_symbols (b : ObjectBuilder) : list SymbolSpec :=
  filter (fun s => sy_bind s <> STB_LOCAL) (ob_symbols b).

(** The symbol table, in order: null, one per section, locals, the rest. *)
Definition section_symbols (b : ObjectBuilder) : list Symbol :=
  if ob_omit_section_symbols b then [] else section_symbol b <$> ob_sections b.

Definition symbol_table (b : ObjectBuilder) : list Symbol :=
  [null_symbol] ++ section_symbols b ++ (symbol_of b <$> local_symbols b) ++
  (symbol_of b <$> other_symbols b).

Definition numbered (l : list Symbol) : list Symbol := imap (fun i => set_sym_idx (Z.of_nat i)) l.

(** ** The invariant of the symbol loops *)

Definition row_of (tab : bytes) (r : bytes * bytes) (s : Symbol) : Prop :=
  exists off, has_string tab off (sym_name s) /\
    r.2 = sym_bytes off (st_info (sym_bind s) (sym_type s)) (sym_visibility s) (sym_shndx s)
            (sym_value s) (sym_size s).

Record sym_inv (b : ObjectBuilder) (st : SymState) (ss : list Symbol) : Prop := {
  si_rows : Forall2 (row_of (strtab st)) (syms st) ss;
  si_nul : starts_nul (strtab st);
  si_index : forall n i, (n, i) ∈ sym_index st -> 0 <= i /\
    exists s, ss !! Z.to_nat i = Some s /\ sym_name s = n /\ n <> [];
  si_section : forall n i, (n, i) ∈ section_sym_index st -> 0 <= i /\
    exists s, ss !! Z.to_nat i = Some (section_symbol b s) /\ s ∈ ob_sections b /\ ss_name s = n
}.

Lemma sym_inv_new b : sym_inv b syms_new [null_symbol].
Proof.
  split.
  - constructor; [|constructor]. exists 0. split; [by exists [], []|done].
  - by exists [].
  - intros n i ?%elem_of_nil. done.
  - intros n i ?%elem_of_nil. done.
Qed.

Lemma Forall2_row_app tab ext l ss :
  Forall2 (row_of tab) l ss -> Forall2 (row_of (tab ++ ext)) l ss.
Proof.
  intros H. eapply Forall2_impl; [exact H|]. intros r s (off & Hs & Hr). exists off.
  split; [by apply has_string_app|done].
Qed.

Lemma syms_len_inv b st ss : sym_inv b st ss -> zlen (syms st) < 2 ^ 32 -> syms_len st = zlen ss.
Proof.
  intros [Hr _ _ _] Hl. unfold syms_len, wrap_u. apply Forall2_length in Hr.
  unfold zlen in *. rewrite Hr in *. apply Z.mod_small. lia.
Qed.

Lemma lookup_old {A} (l k : list A) i a : l !! i = Some a -> (l ++ k) !! i = Some a.
Proof. intros H. by rewrite lookup_app_l by (by apply lookup_lt_Some in H). Qed.

Lemma lookup_new {A} (l : list A) a : (l ++ [a]) !! Z.to_nat (zlen l) = Some a.
Proof. unfold zlen. rewrite Nat2Z.id. by apply list_lookup_middle. Qed.

Lemma push_section_sym_inv b st s st' ss :
  s ∈ ob_sections b -> zlen (syms st) < 2 ^ 32 ->
  push_section_sym (index_of b) st s = Ok st' -> sym_inv b st ss ->
  sym_inv b st' (ss ++ [section_symbol b s]).
Proof.
  intros Hs Hl E Hinv. pose proof (syms_len_inv _ _ _ Hinv Hl) as Hn. destruct Hinv as [H1 H2 H3 H4].
  unfold push_section_sym in E. rewrite section_index_user in E by done.
  injection E as <-. split; simpl.
  - apply Forall2_app; [done|]. constructor; [|constructor]. exists 0.
    split; [by apply starts_nul_string|done].
  - done.
  - intros n i Hi. destruct (H3 n i Hi) as (? & x & Hx & ?). split; [done|].
    exists x. split; [by apply lookup_old|done].
  - intros n i [Hi|[= -> ->]%list_elem_of_singleton]%elem_of_app.
    + destruct (H4 n i Hi) as (? & x & Hx & ?). split; [done|].
      exists x. split; [by apply lookup_old|done].
    + rewrite Hn. split; [apply zlen_nonneg|]. exists s. by rewrite lookup_new.
Qed.

Lemma spec_shndx_Ok b s v : spec_shndx (index_of b) s = Ok v -> v = shndx_of b s.
Proof.
  destruct s; simpl; try congruence. intros (i & Hi & [= <-])%result_bind_Ok_inv.
  unfold section_index in Hi. apply ok_or_Ok_inv in Hi. unfold user_idx. by rewrite Hi.
Qed.

Lemma push_sym_inv b st s st' ss :
  zlen (syms st) < 2 ^ 32 -> zlen (strtab st') < 2 ^ 32 ->
  push_sym (index_of b) st s = Ok st' -> sym_inv b st ss ->
  sym_inv b st' (ss ++ [symbol_of b s]).
Proof.
  intros Hl Ht E Hinv. pose proof (syms_len_inv _ _ _ Hinv Hl) as Hn. destruct Hinv as [H1 H2 H3 H4].
  unfold push_sym in E. apply result_bind_Ok_inv in E as (v & ->%spec_shndx_Ok & E).
  destruct (strtab_add (strtab st) (sy_name s)) as [tab off] eqn:Ea. injection E as <-. simpl in *.
  assert (zlen (strtab st) <= zlen tab) as Hle.
  { destruct (sy_name s); simpl in Ea; injection Ea as <- <-; autorewrite with zlen; [lia|].
    pose proof (zlen_nonneg l). lia. }
  destruct (strtab_add_spec _ _ _ _ Ea H2 ltac:(lia)) as (Hnul & Hstr & ext & ->). split; simpl.
  - apply Forall2_app; [by apply Forall2_row_app|]. constructor; [|constructor]. by exists off.
  - done.
  - assert (forall n i, (n, i) ∈ sym_index st -> 0 <= i /\ exists x,
      (ss ++ [symbol_of b s]) !! Z.to_nat i = Some x /\ sym_name x = n /\ n <> []) as Hold.
    { intros n i Hi. destruct (H3 n i Hi) as (? & x & Hx & ?). split; [done|].
      exists x. split; [by apply lookup_old|done]. }
    destruct (sy_name s) as [|c nm] eqn:En; [done|].
    intros n i [Hi|[= -> ->]%list_elem_of_singleton]%elem_of_app; [by apply Hold|].
    rewrite Hn. split; [apply zlen_nonneg|]. exists (symbol_of b s). by rewrite lookup_new.
  - intros n i Hi. destruct (H4 n i Hi) as (? & x & Hx & ?). split; [done|].
    exists x. split; [by apply lookup_old|done].
Qed.

(** ** The loops *)

(** The tables fit the 32-bit offsets and indices that point into them. *)
Definition small (st : SymState) : Prop := zlen (syms st) < 2 ^ 32 /\ zlen (strtab st) < 2 ^ 32.

Lemma push_section_sym_small b st s st' :
  push_section_sym (index_of b) st s = Ok st' -> small st' -> small st.
Proof.
  unfold push_section_sym, small. intros (i & _ & [= <-])%result_bind_Ok_inv. simpl.
  autorewrite with zlen. lia.
Qed.

Lemma push_sym_small b st s st' : push_sym (index_of b) st s = Ok st' -> small st' -> small st.
Proof.
  unfold push_sym, small. intros (i & _ & E)%result_bind_Ok_inv.
  destruct (sy_name s) as [|c nm]; simpl in E; injection E as <-; simpl; autorewrite with zlen; [lia|].
  pose proof (zlen_nonneg nm). lia.
Qed.

Lemma try_fold_small {X} (f : SymState -> X -> Result WriteError SymState) l st st' :
  (forall st x st', f st x = Ok st' -> small st' -> small st) ->
  try_fold f l st = Ok st' -> small st' -> small st.
Proof.
  intros Hf. revert st. induction l as [|x l IH]; intros st; simpl; [by intros [= ->]|].
  intros (st1 & E1 & E)%result_bind_Ok_inv Hs. eauto.
Qed.

Lemma try_fold_inv {X} b (f : SymState -> X -> Result WriteError SymState) (g : X -> Symbol) l st st' ss :
  (forall st x st', f st x = Ok st' -> small st' -> small st) ->
  (forall st x st' ss, x ∈ l -> f st x = Ok st' -> small st -> small st' ->
     sym_inv b st ss -> sym_inv b st' (ss ++ [g x])) ->
  try_fold f l st = Ok st' -> small st' -> sym_inv b st ss -> sym_inv b st' (ss ++ (g <$> l)).
Proof.
  intros Hs Hstep. revert st ss. induction l as [|x l IH]; intros st ss.
  { intros [= ->] _. by rewrite app_nil_r. }
  cbn [try_fold]. intros (st1 & E1 & E)%result_bind_Ok_inv Hsm Hinv.
  pose proof (try_fold_small f l st1 st' Hs E Hsm) as Hsm1.
  rewrite fmap_cons, cons_middle, app_assoc. apply (IH ltac:(intros; eapply Hstep; eauto; by right) st1); [done..|].
  eapply Hstep; eauto. by left.
Qed.

Lemma plan_symbols_inv b st fg :
  plan_symbols b = Ok (st, fg) -> small st ->
  sym_inv b st (symbol_table b) /\
  fg = 1 + zlen (section_symbols b) + zlen (local_symbols b).
Proof.
  unfold plan_symbols. intros (st1 & E1 & E)%result_bind_Ok_inv.
  apply result_bind_Ok_inv in E as (st2 & E2 & E). apply result_bind_Ok_inv in E as (st3 & E3 & [= -> <-]).
  intros Hs3. pose proof (try_fold_small _ _ _ _ (push_sym_small b) E3 Hs3) as Hs2.
  pose proof (try_fold_small _ _ _ _ (push_sym_small b) E2 Hs2) as Hs1.
  assert (forall l st st' ss, try_fold (push_sym (index_of b)) l st = Ok st' -> small st' ->
    sym_inv b st ss -> sym_inv b st' (ss ++ (symbol_of b <$> l))) as Hloop.
  { intros l s s' ss El Hsm Hi.
    refine (try_fold_inv b (push_sym (index_of b)) (symbol_of b) l s s' ss (push_sym_small b) _ El Hsm Hi).
    intros ???? _ E [? _] [_ ?] ?. by eapply push_sym_inv. }
  assert (sym_inv b st1 ([null_symbol] ++ section_symbols b)) as Hi1.
  { unfold section_symbols. destruct (ob_omit_section_symbols b).
    - injection E1 as <-. rewrite app_nil_r. apply sym_inv_new.
    - refine (try_fold_inv b (push_section_sym (index_of b)) (section_symbol b) _ _ _ _
        (push_section_sym_small b) _ E1 Hs1 (sym_inv_new b)).
      intros ???? ? E [? _] [_ ?] ?. by eapply push_section_sym_inv. }
  pose proof (Hloop _ _ _ _ E2 Hs2 Hi1) as Hi2. pose proof (Hloop _ _ _ _ E3 Hs3 Hi2) as Hi3.
  rewrite <- !app_assoc in Hi3. split; [done|].
  rewrite (syms_len_inv _ _ _ Hi2 ltac:(apply Hs2)).
  autorewrite with zlen. unfold zlen at 2. rewrite length_fmap. fold (zlen (local_symbols b)).
  unfold local_symbols, zlen. lia.
Qed.

(** ** Reading the table back *)

Record wf_sym (s : Symbol) : Prop := {
  wf_s_name : good_name (sym_name s);
  wf_s_bind : 0 <= sym_bind s < 16;
  wf_s_type : 0 <= sym_type s < 16;
  wf_s_vis : 0 <= sym_visibility s < 4;
  wf_s_shndx : in_u 16 (sym_shndx s);
  wf_s_value : in_u 64 (sym_value s);
  wf_s_size : in_u 64 (sym_size s)
}.

Definition sym_fields (name info other shndx value size : Z) : list (nat * Z) :=
  [(4%nat, name); (1%nat, info); (1%nat, other); (2%nat, shndx); (8%nat, value); (8%nat, size)].

Lemma sym_bytes_fields name info other shndx value size :
  sym_bytes name info other shndx value size = fields (sym_fields name info other shndx value size).
Proof. unfold sym_bytes, fields. cbn -[z2b]. by rewrite ?app_nil_r. Qed.

Lemma zlen_sym_bytes name info other shndx value size :
  zlen (sym_bytes name info other shndx value size) = SYM_SIZE.
Proof. by rewrite sym_bytes_fields, zlen_fields. Qed.

Lemma parse_symbol_row strings i r s :
  wf_sym s -> row_of strings r s -> zlen strings < 2 ^ 32 ->
  parse_symbol strings i r.2 = Ok (set_sym_idx i s).
Proof.
  intros [] (off & Hs & ->) Hl. unfold parse_symbol, u32le, u16le, u64le.
  set (info := st_info _ _). set (row := sym_bytes _ _ _ _ _ _).
  pose proof (has_string_bound _ _ _ Hs). assert (in_u 32 off) by (unfold in_u; lia).
  assert (forall len o v m, field_at (sym_fields off info (sym_visibility s) (sym_shndx s) (sym_value s) (sym_size s)) o
    = Some (m, v) -> len = Z.of_nat m -> in_u (8 * len) v -> read_le len row o = Ok v) as Hread.
  { intros len o v m Hf Hm Hv. subst row. rewrite sym_bytes_fields.
    pose proof (read_field_at _ o m v [] [] len Hf Hm Hv) as Hrd.
    rewrite app_nil_r in Hrd. cbn [app] in Hrd. rewrite zlen_nil, Z.add_0_l in Hrd.
    apply Hrd. rewrite zlen_fields. by vm_compute. }
  assert (0 <= info < 256).
  { subst info. rewrite st_info_val by done. lia. }
  assert (row !! 4%nat = Some (z2b info)) as -> by done.
  assert (row !! 5%nat = Some (z2b (sym_visibility s))) as -> by done. cbn [default id].
  rewrite !z2b_small by lia.
  repeat (erewrite Hread; [|reflexivity|done|assumption]). rewrite !result_bind_ok.
  subst info. unfold set_sym_idx. rewrite st_bind_info, st_type_info by done.
  rewrite (cstr_has_string _ _ _ wf_s_name0 Hs). do 2 f_equal.
  change 0x3 with (2 ^ 2 - 1). rewrite land_low by lia. apply Z.mod_small. lia.
Qed.

(** Every row has the size of an [Elf64_Sym]. *)
Definition sym_rows (st : SymState) : Prop := Forall (fun r => zlen r = SYM_SIZE) (syms st).*2.

Lemma sym_rows_push st st' n row :
  syms st' = syms st ++ [(n, row)] -> zlen row = SYM_SIZE -> sym_rows st -> sym_rows st'.
Proof.
  unfold sym_rows. intros -> Hr Hst. rewrite fmap_app. apply Forall_app. split; [done|]. by constructor.
Qed.

Lemma try_fold_pres {S X} (P : S -> Prop) (f : S -> X -> Result WriteError S) l st st' :
  (forall st x st', f st x = Ok st' -> P st -> P st') -> try_fold f l st = Ok st' -> P st -> P st'.
Proof.
  intros Hf. revert st. induction l as [|x l IH]; intros st; simpl; [by intros [= ->]|].
  intros (st1 & E1 & E)%result_bind_Ok_inv Hs. eauto.
Qed.

Lemma plan_symbols_rows b st fg : plan_symbols b = Ok (st, fg) -> sym_rows st.
Proof.
  unfold plan_symbols. intros (st1 & E1 & E)%result_bind_Ok_inv.
  apply result_bind_Ok_inv in E as (st2 & E2 & E). apply result_bind_Ok_inv in E as (st3 & E3 & [= -> <-]).
  assert (forall st x st', push_sym (index_of b) st x = Ok st' -> sym_rows st -> sym_rows st') as Hstep.
  { unfold push_sym. intros s x s' (v & _ & E)%result_bind_Ok_inv.
    destruct (strtab_add _ _). injection E as <-. eapply sym_rows_push; [done|apply zlen_sym_bytes]. }
  eapply try_fold_pres; [exact Hstep|exact E3|]. eapply try_fold_pres; [exact Hstep|exact E2|].
  assert (sym_rows syms_new) as Hnew by by constructor.
  destruct (ob_omit_section_symbols b); [by injection E1 as <-|].
  eapply try_fold_pres; [|exact E1|done]. unfold push_section_sym.
  intros s x s' (v & _ & [= <-])%result_bind_Ok_inv. eapply sym_rows_push; [done|apply zlen_sym_bytes].
Qed.

Lemma chunks_rows (rows : list bytes) w :
  0 < w -> Forall (fun r => zlen r = w) rows -> chunks w (concat rows) = rows.
Proof.
  intros Hw Hr. unfold chunks.
  assert (forall fuel, (length (concat rows) <= fuel)%nat -> chunks_fuel fuel w (concat rows) = rows)
    as H; [|by apply H].
  induction Hr as [|r rows Hr0 _ IH]; intros fuel Hf; [by destruct fuel|].
  rewrite concat_cons, length_app in *. unfold zlen in Hr0.
  destruct fuel as [|fuel]; [lia|]. destruct r as [|c r]; [simpl in Hr0; lia|].
  cbn [chunks_fuel app]. change (c :: r ++ concat rows) with ((c :: r) ++ concat rows).
  rewrite Z.min_l by (unfold zlen; rewrite length_app; lia).
  unfold ztake, zdrop. replace (Z.to_nat w) with (length (c :: r)) by lia.
  rewrite take_app_length, drop_app_length, IH by (simpl in Hf; lia). done.
Qed.

Lemma parse_symbol_chunks_rows strings rows ss k :
  Forall2 (row_of strings) rows ss -> Forall wf_sym ss -> zlen strings < 2 ^ 32 ->
  parse_symbol_chunks strings (Z.of_nat k) rows.*2 =
  Ok (imap (fun i => set_sym_idx (Z.of_nat (k + i))) ss).
Proof.
  intros Hr Hw Hl. revert k. induction Hr as [|r s rows ss Hrow _ IH]; intros k; [done|].
  inversion_clear Hw as [|?? Hs Hss]. rewrite fmap_cons. cbn [parse_symbol_chunks].
  assert (zlen r.2 = SYM_SIZE) as -> by (destruct Hrow as (? & _ & ->); apply zlen_sym_bytes).
  rewrite Z.ltb_irrefl, (parse_symbol_row _ _ _ _ Hs Hrow Hl), result_bind_ok.
  replace (Z.of_nat k + 1) with (Z.of_nat (S k)) by lia. rewrite (IH Hss), result_bind_ok.
  rewrite imap_cons, Nat.add_0_r. do 2 f_equal. apply imap_ext. intros i x _. simpl.
  by rewrite Nat.add_succ_r.
Qed.

(** ** Relocations: what the writer plans and what the reader gets back *)

Record wf_reloc (r : Reloc) : Prop := {
  wf_r_offset : in_u 64 (r_offset r);
  wf_r_kind : in_u 32 (r_kind r);
  wf_r_addend : in_s 64 (r_addend r);
  wf_r_raw : forall i, r_target r = ToRaw i -> in_u 32 i
}.

(** What the reader makes of relocation [r] against symbol [y]. *)
Definition relocation_of (target : Z) (r : Reloc) (y : Z) : Relocation :=
  mkRel target (r_offset r) y (r_kind r) (r_addend r).

(** Symbol [y] of the table is the one the relocation names. *)
Definition names_symbol (b : ObjectBuilder) (r : Reloc) (y : Z) : Prop :=
  match r_target r with
  | ToRaw i => y = i
  | ToSymbol n => exists x, symbol_table b !! Z.to_nat y = Some x /\ sym_name x = n /\ n <> []
  | ToSection n => exists s, symbol_table b !! Z.to_nat y = Some (section_symbol b s) /\
      s ∈ ob_sections b /\ ss_name s = n
  end.

Lemma reloc_symbol_names b st s r y :
  sym_inv b st (symbol_table b) -> zlen (symbol_table b) < 2 ^ 32 -> wf_reloc r ->
  reloc_symbol st s r = Ok y -> in_u 32 y /\ names_symbol b r y.
Proof.
  intros [_ _ Hi Hs] Hl [_ _ _ Hraw]. unfold reloc_symbol, names_symbol, in_u.
  destruct (r_target r) as [n|n|i].
  - intros H%ok_or_Ok_inv%find_name_In. apply Hi in H as (H0 & x & Hx & Hn). split; [|eauto].
    apply lookup_lt_Some in Hx. unfold zlen in Hl. lia.
  - intros H%ok_or_Ok_inv%find_name_In. apply Hs in H as (H0 & x & Hx & Hn). split; [|eauto].
    apply lookup_lt_Some in Hx. unfold zlen in Hl. lia.
  - intros [= <-]. split; [|done]. by apply Hraw.
Qed.

Lemma section_rela_fold st s rs acc bs :
  try_fold (fun bytes r => sym ← reloc_symbol st s r; Ok (bytes ++ rela_bytes sym r)) rs acc = Ok bs ->
  exists ys, Forall2 (fun r y => reloc_symbol st s r = Ok y) rs ys /\
    bs = acc ++ concat (zip_with (fun r y => rela_bytes y r) rs ys).
Proof.
  revert acc. induction rs as [|r rs IH]; intros acc.
  { intros [= <-]. exists []. by rewrite app_nil_r. }
  cbn [try_fold]. intros (acc1 & H1 & H)%result_bind_Ok_inv.
  apply result_bind_Ok_inv in H1 as (y & Hy & [= <-]). apply IH in H as (ys & Hys & ->).
  exists (y :: ys). split; [by constructor|]. simpl. by rewrite <- app_assoc.
Qed.

Definition rela_fields (y : Z) (r : Reloc) : list (nat * Z) :=
  [(8%nat, r_offset r); (8%nat, r_info y (r_kind r))].

Lemma rela_bytes_fields y r : rela_bytes y r = fields (rela_fields y r) ++ le_bytes 8 (r_addend r).
Proof. unfold rela_bytes, fields. cbn -[le_bytes]. by rewrite <- !app_assoc, app_nil_l. Qed.

Lemma zlen_rela_bytes y r : zlen (rela_bytes y r) = RELA_SIZE.
Proof. rewrite rela_bytes_fields, zlen_app, zlen_fields, zlen_le_bytes. done. Qed.

Lemma parse_reloc_row target r y :
  wf_reloc r -> in_u 32 y ->
  u64le (rela_bytes y r) 8 = Ok (r_info y (r_kind r)) /\
  u64le (rela_bytes y r) 0 = Ok (r_offset r) /\
  (wrap_s 64 <$> u64le (rela_bytes y r) 16) = Ok (r_addend r) /\
  relocation_of target r y =
    mkRel target (r_offset r) (r_sym (r_info y (r_kind r))) (r_type (r_info y (r_kind r))) (r_addend r).
Proof.
  intros [Ho Hk Ha _] Hy. pose proof (r_info_u64 y (r_kind r) Hy Hk) as Hi. rewrite rela_bytes_fields.
  assert (forall len o v m, field_at (rela_fields y r) o = Some (m, v) -> len = Z.of_nat m ->
            in_u (8 * len) v -> read_le len (fields (rela_fields y r) ++ le_bytes 8 (r_addend r)) o = Ok v)
    as Hread.
  { intros len o v m Hf Hm Hv. apply (read_field_at _ o m v [] _ len Hf Hm Hv).
    cbn [app]. rewrite zlen_app, zlen_fields, zlen_le_bytes. by vm_compute. }
  unfold u64le. split_and!.
  - by eapply Hread.
  - by eapply Hread.
  - pose proof (read_le_at 8 (r_addend r) (fields (rela_fields y r)) []) as H.
    rewrite app_nil_r, zlen_fields in H. change (width _) with 16 in H. change (Z.of_nat 8) with 8 in H.
    rewrite H.
    + cbn [fmap result_fmap]. f_equal. change (256 ^ 8) with (2 ^ 64). rewrite wrap_s_mod by lia.
      by apply wrap_s_small.
    + rewrite zlen_app, zlen_fields, zlen_le_bytes. by vm_compute.
  - unfold relocation_of. by rewrite r_sym_info, r_type_info.
Qed.

Lemma parse_reloc_rows target rs ys :
  Forall wf_reloc rs -> Forall (in_u 32) ys -> length rs = length ys ->
  parse_reloc_chunks true RELA_SIZE target (zip_with (fun r y => rela_bytes y r) rs ys) =
  Ok (zip_with (relocation_of target) rs ys).
Proof.
  intros Hr Hy Hl. revert rs Hr Hl. induction Hy as [|y ys Hy _ IH]; intros [|r rs] Hr Hl; try done.
  inversion_clear Hr as [|?? Hr1 Hrs]. cbn [zip_with parse_reloc_chunks].
  rewrite zlen_rela_bytes, Z.ltb_irrefl.
  destruct (parse_reloc_row target r y Hr1 Hy) as (-> & -> & -> & ->).
  rewrite !result_bind_ok, IH by (try done; by injection Hl). done.
Qed.

(** The relocations of a section, parsed from its [.rela] section's bytes. *)
Lemma section_rela_parse b st s bs target :
  sym_inv b st (symbol_table b) -> zlen (symbol_table b) < 2 ^ 32 -> Forall wf_reloc (ss_relocs s) ->
  section_rela st s = Ok bs ->
  exists ys, Forall2 (names_symbol b) (ss_relocs s) ys /\
    parse_reloc_chunks true RELA_SIZE target (chunks RELA_SIZE bs) =
    Ok (zip_with (relocation_of target) (ss_relocs s) ys).
Proof.
  intros Hinv Hl Hwf (ys & Hys & ->)%section_rela_fold. cbn [app]. exists ys.
  assert (Forall2 (fun r y => in_u 32 y /\ names_symbol b r y) (ss_relocs s) ys) as Hy.
  { clear - Hinv Hl Hwf Hys. revert Hys Hwf. generalize (ss_relocs s). intros rs Hys.
    induction Hys as [|r y rs ys Hr _ IH]; [constructor|]. intros [H1 H2]%Forall_cons.
    constructor; [by eapply reloc_symbol_names|auto]. }
  split; [eapply Forall2_impl; [exact Hy|]; by intros ?? []|].
  rewrite chunks_rows; [|done|].
  - apply parse_reloc_rows; [done| |by eapply Forall2_length].
    eapply Forall2_Forall_r; [exact Hy|]. apply Forall_forall. by intros ? _ ? [].
  - apply Forall_lookup. intros i x. rewrite lookup_zip_with_Some. intros (?&?&->&_). apply zlen_rela_bytes.
Qed.

(** ** Picking one section's relocations out of all of them *)

Lemma filter_concat_one {A} (P : A -> Prop) `{!forall x, Decision (P x)} (ls : list (list A)) i l :
  ls !! i = Some l -> Forall P l ->
  (forall j k, ls !! j = Some k -> j <> i -> Forall (fun x => ~ P x) k) ->
  filter P (concat ls) = l.
Proof.
  revert i. induction ls as [|k ls IH]; intros i Hi Hl Hother; [done|].
  rewrite concat_cons, filter_app. destruct i as [|i]; simpl in Hi.
  - injection Hi as ->. rewrite (filter_all_Forall P l) by done.
    rewrite (filter_nil_Forall P (concat ls)); [by rewrite app_nil_r|].
    apply Forall_concat, Forall_lookup. intros j k Hj. by apply (Hother (S j) k).
  - rewrite (filter_nil_Forall P k) by (by apply (Hother 0%nat k)). apply (IH i); [done..|].
    intros j k' Hj Hne. apply (Hother (S j) k'); [done|congruence].
Qed.

Lemma filter_concat_none {A} (P : A -> Prop) `{!forall x, Decision (P x)} (ls : list (list A)) :
  (forall k, k ∈ ls -> Forall (fun x => ~ P x) k) -> filter P (concat ls) = [].
Proof. intros Hl. apply filter_nil_Forall, Forall_concat, Forall_forall, Hl. Qed.
