(* ===== verification/ElfRoundtrip.v ===== *)
(** * Writing an object and reading it back

  For a builder with no deliberate damage ([wf_builder]), [parse (build b)] gives
  the header, the sections with their contents, the symbol table and every
  section's relocations. *)

From S2P Require Import Prelude Text Elf ElfWrite ElfRead ElfLayout ElfPlan ElfSyms.

(** ** Builders without damage *)

Record wf_section (s : SectionSpec) : Prop := {
  wf_ss_name : good_name (ss_name s);
  wf_ss_type : in_u 32 (ss_type s);
  wf_ss_user : ss_type s <> SHT_NULL /\ ss_type s <> SHT_SYMTAB /\ ss_type s <> SHT_RELA /\
               ss_type s <> SHT_REL;
  wf_ss_flags : in_u 64 (ss_flags s);
  wf_ss_addr : in_u 64 (ss_addr s);
  wf_ss_align : in_u 64 (ss_align s);
  wf_ss_entsize : in_u 64 (ss_entsize s);
  wf_ss_nobits : in_u 64 (ss_nobits_size s);
  wf_ss_plain : ss_offset_override s = None /\ ss_size_override s = None /\
                ss_link_override s = None /\ ss_info_override s = None;
  wf_ss_relocs : Forall wf_reloc (ss_relocs s)
}.

Record wf_symbol (s : SymbolSpec) : Prop := {
  wf_sy_name : good_name (sy_name s);
  wf_sy_bind : 0 <= sy_bind s < 16;
  wf_sy_type : 0 <= sy_type s < 16;
  wf_sy_vis : 0 <= sy_visibility s < 4;
  wf_sy_raw : forall v, sy_section s = RawShndx v -> in_u 16 v;
  wf_sy_value : in_u 64 (sy_value s);
  wf_sy_size : in_u 64 (sy_size s)
}.

Record wf_builder (b : ObjectBuilder) : Prop := {
  wf_plain : plain b;
  wf_sections : Forall wf_section (ob_sections b);
  wf_symbols : Forall wf_symbol (ob_symbols b);
  wf_count : 2 * zlen (ob_sections b) + 4 < 2 ^ 16
}.

(** ** The planned section headers *)

(** A header whose recorded size is the size of its data, if it has any. *)
Record ok_shdr (s : Shdr) : Prop := {
  ok_name : good_name (sh_name s);
  ok_type : in_u 32 (sh_type s);
  ok_flags : in_u 64 (sh_flags s);
  ok_addr : in_u 64 (sh_addr s);
  ok_link : in_u 32 (sh_link s);
  ok_info : in_u 32 (sh_info s);
  ok_align : in_u 64 (sh_align s);
  ok_entsize : in_u 64 (sh_entsize s);
  ok_plain : sh_offset_override s = None;
  ok_null : sh_type s = SHT_NULL -> s = null_shdr;
  ok_size : if sh_occupies s then sh_size s = zlen (sh_data s) else in_u 64 (sh_size s)
}.

Ltac const_range := split; vm_compute; congruence.

Lemma good_name_ascii s : forallb (fun b => (0 <? b2z b) && (b2z b <=? 0x7F)) s = true -> good_name s.
Proof.
  intros Hb. rewrite forallb_forall in Hb. split.
  - apply utf8_valid_ascii, Forall_forall. intros x Hx%list_elem_of_In%Hb. lia.
  - intros Hx%list_elem_of_In%Hb. done.
Qed.

Lemma good_name_app s t : good_name s -> good_name t -> good_name (s ++ t).
Proof.
  intros [Hs Hs0] [Ht Ht0]. split; [by apply utf8_valid_app|].
  unfold nul_free. rewrite elem_of_app. by intros [?|?].
Qed.

Lemma ok_null_shdr : ok_shdr null_shdr.
Proof. split; try done; try const_range. by apply good_name_ascii. Qed.

Lemma ok_table name ty link info al es data :
  good_name name -> in_u 32 ty -> ty <> SHT_NULL -> in_u 32 link -> in_u 32 info -> in_u 64 al ->
  in_u 64 es -> ok_shdr (table_shdr name ty link info al es data).
Proof. intros. split; try done; const_range. Qed.

Lemma ok_user s : wf_section s -> ok_shdr (user_shdr s).
Proof.
  intros [Hn Ht Hu Hf Ha Hal He Hnb (Ho & Hs & Hl & Hi) _].
  split; simpl; rewrite ?Hl, ?Hi; try done; try const_range.
  - intros E. by destruct Hu.
  - unfold ss_size. rewrite Hs. destruct (ss_type s =? SHT_NOBITS); simpl; done.
Qed.

Section plan.
Context (b : ObjectBuilder) (Hwf : wf_builder b).

Lemma symtab_index_range : 1 <= symtab_index b < 2 ^ 16 - 2.
Proof using Hwf.
  destruct Hwf as [_ _ _ Hc]. pose proof (zlen_nonneg (ob_sections b)).
  unfold symtab_index. rewrite n_user_eq, n_rela_eq by lia. pose proof (n_rela_le b).
  unfold content_base. destruct (ob_symtab_first b); lia.
Qed.

Lemma ok_rela s bs : s ∈ ob_sections b -> ok_shdr (rela_shdr b s (user_idx b (ss_name s)) bs).
Proof using Hwf.
  intros Hs. pose proof symtab_index_range. pose proof (user_idx_range b s Hs).
  destruct Hwf as [_ Hw _ Hc]. rewrite Forall_forall in Hw. destruct (Hw s Hs).
  assert (in_u 32 (symtab_index b)) by (unfold in_u; lia).
  assert (in_u 32 (user_idx b (ss_name s))) by (unfold in_u; lia).
  split; cbn [rela_shdr sh_name sh_type sh_flags sh_addr sh_size sh_link sh_info sh_align sh_entsize
    sh_data sh_offset_override sh_occupies]; try assumption; try reflexivity; try const_range; [|done].
  apply good_name_app; [by apply good_name_ascii|assumption].
Qed.

(** Every kind of entry. *)
Lemma all_entries_cases rf st fg i s :
  (i, s) ∈ all_entries b rf st fg ->
  (i = 0 /\ s = null_shdr) \/
  (exists u, u ∈ ob_sections b /\ i = user_idx b (ss_name u) /\ s = user_shdr u) \/
  (exists u bs, u ∈ ob_sections b /\ find_name (ss_name u) rf = Some bs /\
     s = rela_shdr b u (user_idx b (ss_name u)) bs /\ (i, s) ∈ rela_entry b rf u) \/
  (i, s) ∈ table_entries b st fg.
Proof using.
  unfold all_entries. rewrite elem_of_app, elem_of_cons. intros [[[= -> ->]|H]|H]; [tauto| |tauto].
  right. apply list_elem_of_In, in_concat in H as (l & Hl & Hin).
  apply list_elem_of_In in Hl. apply list_elem_of_In in Hin. apply list_elem_of_fmap in Hl as (u & -> & Hu).
  unfold entries_of in Hin. apply elem_of_app in Hin as [Hr|[= -> ->]%list_elem_of_singleton].
  - right. left. unfold rela_entry in Hr |- *. destruct (find_name (ss_name u) rf) as [bs|] eqn:E.
    + apply list_elem_of_singleton in Hr as Hr'. injection Hr' as -> ->. exists u, bs. rewrite E. done.
    + by apply elem_of_nil in Hr.
  - left. eauto.
Qed.

Lemma ok_entries rf st fg :
  in_u 32 fg -> Forall (fun p => ok_shdr p.2) (all_entries b rf st fg).
Proof using Hwf.
  intros Hfg. pose proof symtab_index_range as Hi. destruct Hwf as [_ Hw _ _].
  rewrite Forall_forall in Hw. apply Forall_forall. intros [i s] Hin. simpl.
  apply all_entries_cases in Hin as [[-> ->]|[(u & Hu & -> & ->)|[(u & bs & Hu & _ & -> & _)|Hin]]].
  - apply ok_null_shdr.
  - by apply ok_user, Hw.
  - by apply ok_rela.
  - unfold table_entries in Hin. remember (symtab_index b) as k eqn:Ek. clear Ek.
    assert (in_u 32 (k + 1)) by (unfold in_u; lia).
    repeat (apply elem_of_cons in Hin as [[= -> ->]|Hin]); [| | |by apply elem_of_nil in Hin];
      apply ok_table;
      first [assumption | by apply good_name_ascii | const_range | discriminate].
Qed.

Lemma length_entries_of rf l : zlen (concat (entries_of b rf <$> l)) <= 2 * zlen l.
Proof using.
  induction l as [|s l IH]; [done|]. rewrite fmap_cons, concat_cons, zlen_app, zlen_cons.
  assert (zlen (entries_of b rf s) <= 2); [|lia]. unfold entries_of, rela_entry.
  destruct (find_name (ss_name s) rf); done.
Qed.

Lemma zlen_all_entries rf st fg : 0 < zlen (all_entries b rf st fg) < 2 ^ 16.
Proof using Hwf.
  destruct Hwf as [_ _ _ Hc]. pose proof (length_entries_of rf (ob_sections b)).
  unfold all_entries, table_entries. autorewrite with zlen. 
  pose proof (zlen_nonneg (concat (entries_of b rf <$> ob_sections b))). lia.
Qed.
End plan.

(** ** Reading the emitted file *)

Lemma fmap_names (l : list Shdr) k d :
  sh_name <$> alter (set_data d) k l = sh_name <$> l.
Proof.
  apply list_eq. intros i. rewrite !list_lookup_fmap, list_lookup_alter.
  case_decide; [subst k|done]. by destruct (l !! i).
Qed.

Lemma Forall2_exists_r {A B} (P : A -> B -> Prop) l :
  Forall (fun a => exists b, P a b) l -> exists k, Forall2 P l k.
Proof.
  induction 1 as [|a l [b Hb] _ [k Hk]]; [by exists []|]. exists (b :: k). by constructor.
Qed.

Lemma find_rela_Ok st l rf u bs :
  Forall2 (fun s p => p.1 = ss_name s /\ section_rela st s = Ok p.2) l rf ->
  NoDup (ss_name <$> l) -> u ∈ l -> find_name (ss_name u) rf = Some bs -> section_rela st u = Ok bs.
Proof.
  intros HF Hd Hu Hf. pose proof (rela_for_names _ _ _ HF) as En.
  apply find_name_In, list_elem_of_lookup in Hf as [j Hj].
  destruct (Forall2_lookup_r _ _ _ _ _ HF Hj) as (u' & Hu' & E & Hr). simpl in *.
  by rewrite (NoDup_fmap_inj ss_name l u u' Hd Hu (list_elem_of_lookup_2 _ _ _ Hu') E).
Qed.

Lemma fg_u32 b st fg : plan_symbols b = Ok (st, fg) -> in_u 32 fg.
Proof.
  unfold plan_symbols. intros (s1 & _ & H1)%result_bind_Ok_inv.
  apply result_bind_Ok_inv in H1 as (s2 & _ & H2). apply result_bind_Ok_inv in H2 as (s3 & _ & [= _ <-]).
  apply Z.mod_pos_bound. lia.
Qed.

Lemma wf_section_symbol b s : wf_sym (section_symbol b s).
Proof. split; try const_range; [by apply good_name_ascii|]. apply Z.mod_pos_bound. lia. Qed.

Lemma wf_symbol_of b s : wf_symbol s -> wf_sym (symbol_of b s).
Proof.
  intros [? ? ? ? Hraw ? ?]. split; try assumption. unfold symbol_of. cbn [sym_shndx].
  destruct (sy_section s) eqn:E; try const_range; [|by apply Hraw].
  apply Z.mod_pos_bound. lia.
Qed.

Lemma wf_symbol_table b : wf_builder b -> Forall wf_sym (symbol_table b).
Proof.
  intros [_ _ Hs _]. unfold symbol_table. rewrite !Forall_app. split_and!.
  - constructor; [|constructor]. split; try const_range. by apply good_name_ascii.
  - unfold section_symbols. destruct (ob_omit_section_symbols b); [constructor|].
    apply Forall_fmap, Forall_forall. intros s _. apply wf_section_symbol.
  - apply Forall_fmap. eapply Forall_impl; [apply Forall_filter_keep, Hs|]. apply wf_symbol_of.
  - apply Forall_fmap. eapply Forall_impl; [apply Forall_filter_keep, Hs|]. apply wf_symbol_of.
Qed.

Section emitted.
Context (b : ObjectBuilder) (st : SymState) (fg : Z) (rf : list (bytes * bytes)).
Context (shdrs : list Shdr) (shstr : bytes) (names offs : list Z) (hdr body out : bytes).
Hypothesis Hwf : wf_builder b.
Hypothesis Hst : plan_symbols b = Ok (st, fg).
Hypothesis Hrf : Forall2 (fun s p => p.1 = ss_name s /\ section_rela st s = Ok p.2)
    (filter (fun s => has_relocs s) (ob_sections b)) rf.
Hypothesis Hfin : finish_entries (all_entries b rf st fg) = Ok shdrs.
Hypothesis Hnt : name_table shdrs = (shstr, names).
Let k := Z.to_nat (symtab_index b + 2).
Let fin := alter (set_data shstr) k shdrs.
Hypothesis Hhdr : hdr = header_bytes no_overrides (EHDR_SIZE + zlen body) (zlen fin)
                          (wrap_u 16 (symtab_index b + 2)).
Hypothesis Hout : out = hdr ++ body ++ shdr_table fin names offs.
Hypothesis Hplaced : Forall2 (placed (hdr ++ body)) fin offs.
Hypothesis Hlen : zlen out < 2 ^ 32.

Let E := all_entries b rf st fg.

Lemma shdrs_E i s : shdrs !! i = Some s <-> (Z.of_nat i, s) ∈ E.
Proof using Hfin. by apply (finish_entries_Ok _ _ Hfin). Qed.

Lemma E_NoDup : NoDup E.*1.
Proof using Hfin. by apply (finish_entries_Ok _ _ Hfin). Qed.

Lemma E_lookup i s : (i, s) ∈ E -> 0 <= i /\ shdrs !! Z.to_nat i = Some s.
Proof using Hfin.
  intros Hin. assert (0 <= i) as Hi by (by apply (finish_entries_Ok _ _ Hfin) in Hin).
  split; [done|]. apply shdrs_E. by rewrite Z2Nat.id.
Qed.

Lemma E_unique i s s' : (i, s) ∈ E -> (i, s') ∈ E -> s = s'.
Proof using Hfin.
  intros H1 H2. by injection (NoDup_fmap_inj fst E _ _ E_NoDup H1 H2 eq_refl).
Qed.


(** The final table: [.shstrtab] has its contents, the rest is as planned. *)
Lemma fin_lookup i s : fin !! i = Some s ->
  exists s0, (Z.of_nat i, s0) ∈ E /\ s = if decide (k = i) then set_data shstr s0 else s0.
Proof using Hfin.
  subst fin. rewrite list_lookup_alter. intros Hi. case_decide as Hik.
  - apply fmap_Some in Hi as (s0 & Hs0 & ->). exists s0.
    split; [apply shdrs_E; congruence|done].
  - exists s. split; [by apply shdrs_E|done].
Qed.

Lemma fin_lookup_ne i s :
  (i, s) ∈ E -> i <> symtab_index b + 2 -> 0 <= i /\ fin !! Z.to_nat i = Some s.
Proof using Hfin Hwf.
  intros Hin Hne. pose proof (symtab_index_range b Hwf). apply E_lookup in Hin as [H0 Hs].
  split; [done|]. subst fin k. rewrite list_lookup_alter_ne; [done|lia].
Qed.

Lemma table_In i s : (i, s) ∈ table_entries b st fg -> (i, s) ∈ E.
Proof using. intros H. apply elem_of_app. by right. Qed.

Definition shstrtab_shdr : Shdr := set_data shstr (table_shdr (str ".shstrtab") SHT_STRTAB 0 0 1 0 []).
Definition symtab_shdr : Shdr :=
  table_shdr (str ".symtab") SHT_SYMTAB (symtab_index b + 1) fg 8 SYM_SIZE (concat ((syms st).*2)).
Definition strtab_shdr : Shdr := table_shdr (str ".strtab") SHT_STRTAB 0 0 1 0 (strtab st).

Lemma fin_shstrtab : fin !! k = Some shstrtab_shdr.
Proof using Hfin Hwf.
  unfold fin. rewrite list_lookup_alter, decide_True by done. unfold k.
  destruct (E_lookup (symtab_index b + 2) (table_shdr (str ".shstrtab") SHT_STRTAB 0 0 1 0 []))
    as [_ ->]; [|done].
  apply table_In. unfold table_entries. do 2 (apply elem_of_cons; right). by left.
Qed.

Lemma fin_symtab : fin !! Z.to_nat (symtab_index b) = Some symtab_shdr.
Proof using Hfin Hwf.
  apply fin_lookup_ne; [|lia]. apply table_In. by left.
Qed.

Lemma fin_strtab : fin !! Z.to_nat (symtab_index b + 1) = Some strtab_shdr.
Proof using Hfin Hwf.
  apply fin_lookup_ne; [|lia]. apply table_In. unfold table_entries. right. by left.
Qed.

Lemma fin_ok : Forall ok_shdr fin.
Proof using Hfin Hwf Hst.
  apply Forall_lookup. intros i s Hi. destruct (decide (k = i)) as [<-|Hne].
  - rewrite fin_shstrtab in Hi. injection Hi as <-.
    split; first [by apply good_name_ascii | const_range | discriminate | reflexivity].
  - apply fin_lookup in Hi as (s0 & Hin & ->). rewrite decide_False by done.
    pose proof (ok_entries b Hwf rf st fg (fg_u32 b st fg Hst)) as Hok. rewrite Forall_forall in Hok.
    exact (Hok _ Hin).
Qed.

Lemma zlen_fin : zlen fin = zlen E.
Proof using Hfin.
  subst fin. unfold zlen. rewrite length_alter. by destruct (finish_entries_Ok _ _ Hfin) as (_ & -> & _).
Qed.

Lemma fin_placed i s : fin !! i = Some s -> exists o, offs !! i = Some o /\ placed out s o.
Proof using Hplaced Hout.
  intros Hi. destruct (Forall2_lookup_l _ _ _ _ _ Hplaced Hi) as (o & Ho & Hp).
  exists o. split; [done|]. rewrite Hout, app_assoc. by apply placed_app.
Qed.

(** The contents of every section that occupies the file are at its offset. *)
Lemma fin_contents i s : fin !! i = Some s -> sh_occupies s = true ->
  exists o, offs !! i = Some o /\ EHDR_SIZE <= o /\ o mod Z.max (sh_align s) 1 = 0 /\
    o + zlen (sh_data s) <= zlen out /\ zslice out o (zlen (sh_data s)) = sh_data s.
Proof using Hplaced Hout Hfin Hwf Hst.
  intros Hi Hs. destruct (fin_placed i s Hi) as (o & Ho & Hp). exists o. split; [done|].
  pose proof (Forall_lookup_1 _ _ _ _ fin_ok Hi) as Hok. unfold placed in Hp.
  destruct (Z.eqb_spec (sh_type s) SHT_NULL) as [En|_].
  - apply Hok in En. by subst s.
  - rewrite (ok_plain s Hok) in Hp. destruct Hp as (? & ? & Hd). destruct (Hd Hs). split_and!; lia || done.
Qed.

Lemma fin_wf : Forall wf_shdr fin.
Proof using Hplaced Hout Hfin Hwf Hst Hlen.
  apply Forall_lookup. intros i s Hi. pose proof (Forall_lookup_1 _ _ _ _ fin_ok Hi) as Hok.
  destruct Hok as [? ? ? ? ? ? ? ? ? ? Hsize]. split; try assumption.
  destruct (sh_occupies s) eqn:Hs; [|done]. rewrite Hsize.
  destruct (fin_contents i s Hi Hs) as (o & _ & ? & _ & ? & _). pose proof (zlen_nonneg (sh_data s)).
  unfold in_u, EHDR_SIZE in *. lia.
Qed.

Lemma offs_u64 : Forall (in_u 64) offs.
Proof using Hplaced Hout Hhdr Hfin Hwf Hst Hlen.
  apply Forall_lookup. intros i o Ho.
  destruct (Forall2_lookup_r _ _ _ _ _ Hplaced Ho) as (s & Hi & _).
  destruct (fin_placed i s Hi) as (o' & Ho' & Hp). simplify_eq.
  pose proof (Forall_lookup_1 _ _ _ _ fin_ok Hi) as Hok. unfold placed in Hp.
  rewrite (ok_plain s Hok) in Hp. unfold in_u, EHDR_SIZE in *.
  destruct (sh_type s =? SHT_NULL); lia.
Qed.

(** *** The header and the section table *)

Definition parsed_header : Elf :=
  rel_header out (EHDR_SIZE + zlen body) (zlen fin) (symtab_index b + 2).

Lemma zlen_hdr : zlen hdr = EHDR_SIZE.
Proof using Hhdr. rewrite Hhdr. by apply zlen_header. Qed.

Lemma parse_header_out : parse_header out = Ok parsed_header.
Proof using Hhdr Hout Hlen Hfin Hwf.
  pose proof (symtab_index_range b Hwf). pose proof (zlen_all_entries b Hwf rf st fg).
  pose proof zlen_hdr as Hh. pose proof zlen_fin. subst E.
  assert (zlen out = EHDR_SIZE + zlen body + zlen (shdr_table fin names offs)) as Ho.
  { rewrite Hout, !zlen_app. lia. }
  pose proof (zlen_nonneg body). pose proof (zlen_nonneg (shdr_table fin names offs)).
  unfold parsed_header. replace (symtab_index b + 2) with (wrap_u 16 (symtab_index b + 2))
    by (apply Z.mod_small; lia).
  apply parse_header_emitted with (rest := body ++ shdr_table fin names offs).
  - unfold in_u, EHDR_SIZE in *. lia.
  - unfold in_u. lia.
  - apply Z.mod_pos_bound. lia.
  - by rewrite Hout, Hhdr at 1.
  - unfold U64_MAX. lia.
Qed.

Lemma slice_contents e i s : e_bytes e = out -> fin !! i = Some s -> sh_occupies s = true ->
  slice e (default 0 (offs !! i)) (sh_size s) = Ok (sh_data s).
Proof using Hplaced Hout Hfin Hwf Hst Hlen.
  intros He Hi Hs. destruct (fin_contents i s Hi Hs) as (o & -> & ? & _ & ? & Hd). simpl.
  pose proof (Forall_lookup_1 _ _ _ _ fin_ok Hi) as Hok. pose proof (ok_size s Hok) as Hsz.
  rewrite Hs in Hsz. unfold slice, checked_add. rewrite He, Hsz.
  rewrite (proj2 (Z.ltb_ge _ _)) by (unfold U64_MAX; lia). cbn [ok_or]. rewrite result_bind_ok.
  rewrite (proj2 (Z.leb_le _ _)) by lia. by rewrite Hd.
Qed.

Lemma shstr_small : zlen shstr < 2 ^ 32.
Proof using Hplaced Hout Hfin Hwf Hst Hlen.
  destruct (fin_contents k shstrtab_shdr fin_shstrtab eq_refl) as (o & _ & ? & _ & Hb & _).
  change (zlen (sh_data shstrtab_shdr)) with (zlen shstr) in Hb. unfold EHDR_SIZE in *. lia.
Qed.

Lemma fin_names : Forall2 (fun s o => has_string shstr o (sh_name s)) fin names.
Proof using Hplaced Hout Hfin Hwf Hst Hlen Hnt.
  pose proof (name_table_spec _ _ _ Hnt shstr_small) as Hn.
  apply Forall2_same_length_lookup_2.
  - rewrite <- (Forall2_length _ _ _ Hn). apply length_alter.
  - intros i s o Hi Ho. destruct (Forall2_lookup_r _ _ _ _ _ Hn Ho) as (s0 & Hs0 & Hstr).
    assert (sh_name s = sh_name s0) as ->; [|done].
    pose proof (fmap_names shdrs k shstr) as Hf. apply (f_equal (lookup i)) in Hf.
    fold fin in Hf. rewrite !list_lookup_fmap, Hi, Hs0 in Hf. by injection Hf.
Qed.

Definition parsed_sections : list Section_ :=
  imap (fun i s => section_of i (default 0 (offs !! i)) s) fin.

Lemma parse_sections_out : parse_sections parsed_header = Ok parsed_sections.
Proof using All.
  pose proof zlen_fin as Hz. pose proof (zlen_all_entries b Hwf rf st fg) as Hc. fold E in Hc.
  assert (section_names parsed_header (raw_sections fin names offs) = shstr) as Hs.
  { unfold section_names. change (e_shstrndx parsed_header) with (symtab_index b + 2). fold k.
    unfold raw_sections. rewrite list_lookup_imap, fin_shstrtab. cbn [fmap option_fmap option_map].
    change (default [] (to_option (slice parsed_header (default 0 (offs !! k)) (sh_size shstrtab_shdr)))
            = shstr).
    by rewrite (slice_contents parsed_header k shstrtab_shdr eq_refl fin_shstrtab eq_refl). }
  apply (parse_sections_emitted parsed_header (hdr ++ body) fin names offs) with (strs := shstr);
    try done.
  - change (e_bytes parsed_header) with out. by rewrite <- app_assoc.
  - rewrite zlen_app, zlen_hdr. done.
  - change (e_bytes parsed_header) with out. unfold U64_MAX. lia.
  - apply fin_wf.
  - symmetry. apply (Forall2_length _ _ _ fin_names).
  - symmetry. apply (Forall2_length _ _ _ Hplaced).
  - eapply Forall2_Forall_r; [apply fin_names|]. apply Forall_forall. intros s _ o Ho%has_string_bound.
    pose proof shstr_small. unfold in_u. lia.
  - apply offs_u64.
  - split.
    + intros Ef. rewrite Ef, zlen_nil in Hz. lia.
    + pose proof zlen_hdr as Hh. destruct hdr; [done|]. by intros ?.
  - apply fin_names.
Qed.

Lemma parsed_sections_lookup i sec :
  parsed_sections !! i = Some sec <->
  exists s, fin !! i = Some s /\ sec = section_of i (default 0 (offs !! i)) s.
Proof using.
  unfold parsed_sections. by rewrite list_lookup_imap, fmap_Some.
Qed.

(** *** The symbol table *)

Lemma st_small : small st.
Proof using Hplaced Hout Hfin Hwf Hst Hlen.
  pose proof (plan_symbols_rows b st fg Hst) as Hr. split.
  - destruct (fin_contents _ _ fin_symtab eq_refl) as (o & _ & ? & _ & Hb & _).
    change (zlen (sh_data symtab_shdr)) with (zlen (concat ((syms st).*2))) in Hb.
    rewrite (zlen_concat_rows _ _ Hr) in Hb. unfold zlen at 1 in Hb. rewrite length_fmap in Hb.
    unfold zlen, SYM_SIZE, EHDR_SIZE in *. lia.
  - destruct (fin_contents _ _ fin_strtab eq_refl) as (o & _ & ? & _ & Hb & _).
    change (zlen (sh_data strtab_shdr)) with (zlen (strtab st)) in Hb. unfold EHDR_SIZE in *. lia.
Qed.

(** The types that only one kind of entry has. *)
Lemma E_symtab i s : (i, s) ∈ E -> sh_type s = SHT_SYMTAB -> i = symtab_index b.
Proof using Hwf.
  intros Hin Ht. destruct Hwf as [_ Hw _ _]. rewrite Forall_forall in Hw.
  apply all_entries_cases in Hin as [[-> ->]|[(u & Hu & -> & ->)|[(u & bs & Hu & _ & -> & _)|Hin]]];
    [done| |done|].
  - destruct (Hw u Hu) as [_ _ (_ & Hn & _) _ _ _ _ _ _ _]. done.
  - unfold table_entries in Hin.
    repeat (apply elem_of_cons in Hin as [[= -> ->]|Hin]); [done..|]. by apply elem_of_nil in Hin.
Qed.

Lemma E_reloc i s : (i, s) ∈ E -> sh_type s = SHT_RELA \/ sh_type s = SHT_REL ->
  exists u bs, u ∈ ob_sections b /\ find_name (ss_name u) rf = Some bs /\
    s = rela_shdr b u (user_idx b (ss_name u)) bs /\ (i, s) ∈ rela_entry b rf u.
Proof using Hwf.
  intros Hin Ht. destruct Hwf as [_ Hw _ _]. rewrite Forall_forall in Hw.
  apply all_entries_cases in Hin as [[-> ->]|[(u & Hu & -> & ->)|[H|Hin]]]; [by destruct Ht| |done|].
  - destruct (Hw u Hu) as [_ _ (_ & _ & Hn1 & Hn2) _ _ _ _ _ _ _]. by destruct Ht.
  - unfold table_entries in Hin.
    repeat (apply elem_of_cons in Hin as [[= -> ->]|Hin]); [by destruct Ht..|].
    by apply elem_of_nil in Hin.
Qed.

Definition with_sections : Elf := set_tables parsed_sections [] [] [] parsed_header.

Lemma find_symtab : list_find (fun s => sec_type s = SHT_SYMTAB) parsed_sections =
  Some (Z.to_nat (symtab_index b),
    section_of (Z.to_nat (symtab_index b)) (default 0 (offs !! Z.to_nat (symtab_index b))) symtab_shdr).
Proof using Hfin Hwf.
  apply list_find_Some. split; [|split; [done|]].
  - apply parsed_sections_lookup. exists symtab_shdr. split; [apply fin_symtab|done].
  - intros j y Hj Hlt Ht. apply parsed_sections_lookup in Hj as (s & Hs & ->).
    apply fin_lookup in Hs as (s0 & Hin & ->).
    assert (sh_type s0 = SHT_SYMTAB) as Ht0 by (by destruct (decide (k = j))).
    apply (E_symtab _ _ Hin) in Ht0. lia.
Qed.

Lemma parse_symbols_out : parse_symbols with_sections = Ok (numbered (symbol_table b)).
Proof using Hplaced Hout Hfin Hwf Hst Hlen.
  pose proof (plan_symbols_inv b st fg Hst st_small) as [[Hrows _ _ _] _].
  pose proof (symtab_index_range b Hwf) as Hi.
  unfold parse_symbols. change (e_sections with_sections) with parsed_sections.
  rewrite find_symtab. cbn [fmap option_fmap option_map snd].
  change (sec_link _) with (symtab_index b + 1).
  assert (parsed_sections !! Z.to_nat (symtab_index b + 1) = Some (section_of (Z.to_nat (symtab_index b + 1))
    (default 0 (offs !! Z.to_nat (symtab_index b + 1))) strtab_shdr)) as ->.
  { apply parsed_sections_lookup. exists strtab_shdr. split; [apply fin_strtab|done]. }
  cbn [mbind option_bind section_of sec_offset sec_size sec_entsize].
  rewrite (slice_contents with_sections _ _ eq_refl fin_strtab eq_refl).
  rewrite (slice_contents with_sections _ _ eq_refl fin_symtab eq_refl). rewrite result_bind_ok.
  change (if sh_entsize symtab_shdr =? 0 then SYM_SIZE else sh_entsize symtab_shdr) with SYM_SIZE.
  cbv zeta. rewrite Z.ltb_irrefl. cbn [to_option from_option id].
  change (sh_data symtab_shdr) with (concat ((syms st).*2)).
  change (sh_data strtab_shdr) with (strtab st).
  rewrite chunks_rows; [|done|by eapply plan_symbols_rows].
  apply (parse_symbol_chunks_rows (strtab st) (syms st) (symbol_table b) 0%nat); [done| |apply st_small].
  by apply wf_symbol_table.
Qed.

(** *** The relocations *)

Lemma names_NoDup : NoDup (ss_name <$> ob_sections b).
Proof using Hfin.
  pose proof (all_entries_idx b rf st fg E_NoDup) as Hd. by apply NoDup_fmap_1 in Hd.
Qed.

Lemma user_idx_inj u v : u ∈ ob_sections b -> v ∈ ob_sections b ->
  user_idx b (ss_name u) = user_idx b (ss_name v) -> u = v.
Proof using Hfin.
  intros Hu Hv Eq. pose proof (all_entries_idx b rf st fg E_NoDup) as Hd.
  rewrite <- list_fmap_compose in Hd.
  exact (NoDup_fmap_inj _ _ u v Hd Hu Hv Eq).
Qed.

Lemma shstrtab_not_rela s0 : (Z.of_nat k, s0) ∈ E -> sh_type s0 = SHT_STRTAB.
Proof using Hfin Hwf.
  intros Hin. pose proof (symtab_index_range b Hwf).
  rewrite (E_unique (Z.of_nat k) s0 (table_shdr (str ".shstrtab") SHT_STRTAB 0 0 1 0 []) Hin); [done|].
  apply table_In. unfold k. rewrite Z2Nat.id by lia. unfold table_entries.
  do 2 (apply elem_of_cons; right). by left.
Qed.

Lemma fin_reloc i s : fin !! i = Some s -> sh_type s = SHT_RELA \/ sh_type s = SHT_REL ->
  exists u bs, u ∈ ob_sections b /\ find_name (ss_name u) rf = Some bs /\
    s = rela_shdr b u (user_idx b (ss_name u)) bs /\ (Z.of_nat i, s) ∈ rela_entry b rf u.
Proof using Hfin Hwf.
  intros (s0 & Hin & ->)%fin_lookup Ht. destruct (decide (k = i)) as [<-|].
  - apply shstrtab_not_rela in Hin. simpl in Ht. rewrite Hin in Ht. by destruct Ht.
  - by apply E_reloc.
Qed.

Lemma rela_in_fin u bs : u ∈ ob_sections b -> find_name (ss_name u) rf = Some bs ->
  exists i, (Z.of_nat i, rela_shdr b u (user_idx b (ss_name u)) bs) ∈ rela_entry b rf u /\
    fin !! i = Some (rela_shdr b u (user_idx b (ss_name u)) bs).
Proof using Hfin Hwf.
  intros Hu Hb. set (s := rela_shdr b u _ bs).
  assert (exists z, (z, s) ∈ rela_entry b rf u) as [z Hz].
  { unfold rela_entry. rewrite Hb. eexists. by left. }
  assert ((z, s) ∈ E) as HE.
  { apply elem_of_app. left. right. apply list_elem_of_In, in_concat. exists (entries_of b rf u).
    rewrite <- list_elem_of_In. split; [by apply list_elem_of_fmap_2|].
    apply list_elem_of_In, elem_of_app. by left. }
  destruct (E_lookup z s HE) as [Hz0 _].
  destruct (fin_lookup_ne z s HE) as [_ Hf].
  { intros Hk. pose proof (symtab_index_range b Hwf). subst z.
    assert (sh_type s = SHT_STRTAB); [|done]. apply shstrtab_not_rela. unfold k. by rewrite Z2Nat.id by lia. }
  exists (Z.to_nat z). by rewrite Z2Nat.id.
Qed.

(** What one relocation section contributes. *)
Record reloc_part (e : Elf) (sec : Section_) (l : list Relocation) (u : SectionSpec) (i : nat) : Prop := {
  rp_user : u ∈ ob_sections b;
  rp_some : has_relocs u;
  rp_place : exists s, sec = section_of i (default 0 (offs !! i)) s /\ (Z.of_nat i, s) ∈ rela_entry b rf u;
  rp_syms : exists ys, Forall2 (names_symbol b) (ss_relocs u) ys /\
    l = zip_with (relocation_of (user_idx b (ss_name u))) (ss_relocs u) ys;
  rp_parse : parse_reloc_section e sec = Ok l
}.

Lemma symbol_table_small : zlen (symbol_table b) < 2 ^ 32.
Proof using Hplaced Hout Hfin Hwf Hst Hlen.
  pose proof (plan_symbols_inv b st fg Hst st_small) as [[Hrows _ _ _] _].
  apply Forall2_length in Hrows. unfold zlen. rewrite <- Hrows. apply st_small.
Qed.

Lemma reloc_section_part e sec :
  e_bytes e = out -> sec ∈ filter (fun s => sec_type s = SHT_RELA \/ sec_type s = SHT_REL) parsed_sections ->
  exists l u i, reloc_part e sec l u i.
Proof using Hplaced Hout Hfin Hwf Hst Hlen Hrf.
  intros He [Ht [i Hi]%list_elem_of_lookup]%list_elem_of_filter.
  apply parsed_sections_lookup in Hi as (s & Hs & ->).
  destruct (fin_reloc i s Hs Ht) as (u & bs & Hu & Hb & -> & Hentry).
  assert (has_relocs u) as Hr.
  { apply (find_rf b rf names_NoDup (rela_for_names _ _ _ Hrf)); eauto. }
  assert (section_rela st u = Ok bs) as Hbs.
  { apply (find_rela_Ok st _ rf u bs Hrf); [| |done].
    - eapply sublist_NoDup; [exact names_NoDup|]. apply fmap_sublist, sublist_filter.
    - by apply list_elem_of_filter. }
  destruct Hwf as [_ Hw _ _]. rewrite Forall_forall in Hw.
  destruct (plan_symbols_inv b st fg Hst st_small) as [Hinv _].
  destruct (section_rela_parse b st u bs (user_idx b (ss_name u)) Hinv symbol_table_small
    (wf_ss_relocs u (Hw u Hu)) Hbs) as (ys & Hys & Hparse).
  eexists _, u, i. split; [done|done|by eexists|by exists ys|].
  unfold parse_reloc_section. cbn [section_of sec_type sec_offset sec_size sec_info].
  rewrite (slice_contents e i _ He Hs eq_refl), result_bind_ok. exact Hparse.
Qed.

Definition reloc_sections : list Section_ :=
  filter (fun s => sec_type s = SHT_RELA \/ sec_type s = SHT_REL) parsed_sections.

Lemma parsed_sections_NoDup : NoDup parsed_sections.
Proof using.
  apply NoDup_alt. intros i j x Hi Hj.
  apply parsed_sections_lookup in Hi as (s & _ & ->). apply parsed_sections_lookup in Hj as (s' & _ & Eq).
  apply (f_equal sec_index) in Eq. simpl in Eq. lia.
Qed.

Lemma rela_entry_unique u i j s s' :
  (Z.of_nat i, s) ∈ rela_entry b rf u -> (Z.of_nat j, s') ∈ rela_entry b rf u -> i = j /\ s = s'.
Proof using.
  unfold rela_entry. destruct (find_name _ _); [|by intros ?%elem_of_nil].
  intros [= H1 ->]%list_elem_of_singleton [= H2 ->]%list_elem_of_singleton. split; [lia|done].
Qed.

Lemma reloc_part_targets e sec l u i :
  reloc_part e sec l u i -> Forall (fun r => rel_target_section r = user_idx b (ss_name u)) l.
Proof using.
  intros [_ _ _ (ys & _ & ->) _]. apply Forall_lookup. intros j r.
  rewrite lookup_zip_with_Some. by intros (?&?&->&_).
Qed.

(** The relocations of section [u] among all that were parsed. *)
Definition has_relocations (u : SectionSpec) (rels : list Relocation) : Prop :=
  exists ys, Forall2 (names_symbol b) (ss_relocs u) ys /\
    filter (fun r => rel_target_section r = user_idx b (ss_name u)) rels =
    zip_with (relocation_of (user_idx b (ss_name u))) (ss_relocs u) ys.

Lemma relocs_of_section e ls u :
  Forall2 (fun sec l => exists u i, reloc_part e sec l u i) reloc_sections ls ->
  e_bytes e = out -> u ∈ ob_sections b -> has_relocations u (concat ls).
Proof using Hplaced Hout Hfin Hwf Hst Hlen Hrf.
  intros Hls He Hu. pose proof (find_rf b rf names_NoDup (rela_for_names _ _ _ Hrf) u Hu) as Hrel.
  assert (forall j sec l v i, reloc_sections !! j = Some sec -> reloc_part e sec l v i ->
    v <> u -> Forall (fun r => ~ rel_target_section r = user_idx b (ss_name u)) l) as Hother.
  { intros j sec l v i _ Hp Hne. eapply Forall_impl; [by eapply reloc_part_targets|].
    intros r -> Eq. apply Hne, user_idx_inj; [apply Hp|done..]. }
  destruct (find_name (ss_name u) rf) as [bs|] eqn:Eb.
  - destruct (rela_in_fin u bs Hu Eb) as (i & Hi & Hf).
    set (sec := section_of i (default 0 (offs !! i)) (rela_shdr b u (user_idx b (ss_name u)) bs)).
    assert (sec ∈ reloc_sections) as [j Hj]%list_elem_of_lookup.
    { apply list_elem_of_filter. split; [by left|]. apply list_elem_of_lookup. exists i.
      apply parsed_sections_lookup. by eexists. }
    destruct (Forall2_lookup_l _ _ _ _ _ Hls Hj) as (l & Hl & v & i' & Hp).
    assert (v = u) as ->.
    { destruct Hp as [Hv _ (s & Hs & Hin) _ _]. apply (f_equal sec_info) in Hs. simpl in Hs.
      apply user_idx_inj; [done..|]. rewrite Hs. unfold rela_entry in Hin.
      destruct (find_name (ss_name v) rf); [|by apply elem_of_nil in Hin].
      by apply list_elem_of_singleton in Hin as [= _ ->]. }
    pose proof (reloc_part_targets _ _ _ _ _ Hp) as Ht.
    destruct (rp_syms _ _ _ _ _ Hp) as (ys & Hys & El). exists ys. split; [done|]. rewrite <- El.
    apply (filter_concat_one _ ls j l Hl Ht). intros j' l' Hl' Hne.
    destruct (Forall2_lookup_r _ _ _ _ _ Hls Hl') as (sec' & Hj' & v & i2 & Hp').
    apply (Hother j' sec' l' v i2 Hj' Hp'). intros ->. apply Hne.
    destruct (rp_place _ _ _ _ _ Hp) as (s1 & E1 & Hin1), (rp_place _ _ _ _ _ Hp') as (s2 & E2 & Hin2).
    destruct (rela_entry_unique _ _ _ _ _ Hin1 Hin2) as [-> ->].
    eapply (NoDup_lookup reloc_sections); [apply NoDup_filter, parsed_sections_NoDup|exact Hj'|].
    by rewrite Hj, E1, E2.
  - assert (ss_relocs u = []) as Hnil.
    { destruct (ss_relocs u) eqn:Er; [done|]. exfalso. destruct (proj2 Hrel) as [? [=]].
      unfold has_relocs. by rewrite Er. }
    exists []. rewrite Hnil. split; [constructor|]. apply filter_concat_none.
    intros l [j Hl]%list_elem_of_lookup.
    destruct (Forall2_lookup_r _ _ _ _ _ Hls Hl) as (sec & Hj & v & i & Hp).
    apply (Hother j sec l v i Hj Hp). intros ->. destruct Hp as [_ Hr _ _ _].
    apply Hrel in Hr as [? [=]].
Qed.

Lemma parse_relocations_out e :
  e_bytes e = out -> e_sections e = parsed_sections ->
  exists rels, parse_relocations e = Ok rels /\
    (forall u, u ∈ ob_sections b -> has_relocations u rels) /\
    (forall r, r ∈ rels -> exists u, u ∈ ob_sections b /\ rel_target_section r = user_idx b (ss_name u)).
Proof using Hplaced Hout Hfin Hwf Hst Hlen Hrf.
  intros He Hsec.
  assert (exists ls, Forall2 (fun sec l => exists u i, reloc_part e sec l u i) reloc_sections ls) as [ls Hls].
  { apply Forall2_exists_r, Forall_forall. intros sec. by apply reloc_section_part. }
  exists (concat ls). split_and!.
  - unfold parse_relocations. rewrite Hsec. fold reloc_sections.
    rewrite (proj2 (try_map_Forall2 _ _ ls)); [done|].
    eapply Forall2_impl; [exact Hls|]. intros sec l (u & i & Hp). apply Hp.
  - intros u Hu. by apply (relocs_of_section e).
  - intros r Hr. apply list_elem_of_In, in_concat in Hr as (l & Hl & Hrl).
    apply list_elem_of_In, list_elem_of_lookup in Hl as [j Hl].
    destruct (Forall2_lookup_r _ _ _ _ _ Hls Hl) as (sec & _ & u & i & Hp).
    exists u. split; [apply Hp|]. pose proof (reloc_part_targets _ _ _ _ _ Hp) as Ht.
    rewrite Forall_forall in Ht. apply Ht. by apply list_elem_of_In.
Qed.
End emitted.
