(* ===== verification/ElfObject.v ===== *)
(** * What the object writer and reader promise

  The properties of [ObjectBuilder::build] and [Elf::parse]: the round trip,
  when building succeeds, and what a parsed file guarantees to its readers. *)

From S2P Require Import Prelude Text Elf ElfWrite ElfRead ElfLayout ElfPlan ElfSyms ElfRoundtrip.

(** ** The round trip *)

(** The header [sec] describes the section [s] of the builder, and its contents
  are where it says. *)
Record describes (b : ObjectBuilder) (e : Elf) (s : SectionSpec) (sec : Section_) : Prop := {
  ds_index : sec_index sec = user_idx b (ss_name s);
  ds_name : sec_name sec = ss_name s;
  ds_type : sec_type sec = ss_type s;
  ds_flags : sec_flags sec = ss_flags s;
  ds_addr : sec_addr sec = ss_addr s;
  ds_size : sec_size sec = ss_size s;
  ds_align : sec_align sec = ss_align s;
  ds_entsize : sec_entsize sec = ss_entsize s;
  ds_aligned : sec_offset sec mod Z.max (ss_align s) 1 = 0;
  ds_bytes : ss_type s <> SHT_NOBITS -> slice e (sec_offset sec) (sec_size sec) = Ok (ss_data s)
}.

Lemma build_parse b out :
  wf_builder b -> build b = Ok out -> zlen out < 2 ^ 32 ->
  exists e, parse out = Ok e /\ e_bytes e = out /\
    (e_type e = ET_REL /\ e_machine e = EM_X86_64 /\ e_phnum e = 0 /\ e_segments e = []) /\
    (forall s, s ∈ ob_sections b -> exists sec,
       e_sections e !! Z.to_nat (user_idx b (ss_name s)) = Some sec /\ describes b e s sec) /\
    e_symbols e = numbered (symbol_table b) /\
    (forall u, u ∈ ob_sections b -> has_relocations b u (e_relocations e)) /\
    (forall r, r ∈ e_relocations e ->
       exists u, u ∈ ob_sections b /\ rel_target_section r = user_idx b (ss_name u)).
Proof.
  intros Hwf (l & Hplan & Hemit)%result_bind_Ok_inv Hlen.
  apply plan_Ok in Hplan as (st & fg & rf & shdrs & shstr & names & Hst & Hrf & Hfin & Hnt & ->).
  apply emit_Ok in Hemit as (hdr & body & offs & Hhdr & Hout & Hpl & _); [|apply Hwf].
  cbn [l_shdrs l_name_offsets l_shstrtab_index] in *.
  set (fin := alter _ _ _) in *.
  set (ss := parsed_sections b shdrs shstr offs).
  destruct (parse_relocations_out b st fg rf shdrs shstr names offs hdr body out Hwf Hst Hrf Hfin Hout
    Hpl Hlen (set_tables ss [] (numbered (symbol_table b)) [] (parsed_header b shdrs shstr body out)))
    as (rels & Hrels & Hhas & Hall); [done|done|].
  exists (set_tables ss [] (numbered (symbol_table b)) rels (parsed_header b shdrs shstr body out)).
  assert (parse out = Ok (set_tables ss [] (numbered (symbol_table b)) rels
    (parsed_header b shdrs shstr body out))) as Hparse.
  { unfold parse.
    rewrite (parse_header_out b st fg rf shdrs shstr names offs hdr body out) by done.
    rewrite result_bind_ok. unfold parse_segments.
    change (e_phnum _ =? 0) with true. cbv iota. rewrite result_bind_ok.
    change (set_tables [] [] [] [] (parsed_header b shdrs shstr body out))
      with (parsed_header b shdrs shstr body out).
    rewrite (parse_sections_out b st fg rf shdrs shstr names offs hdr body out) by done.
    rewrite result_bind_ok. cbv zeta.
    pose proof (parse_symbols_out b st fg rf shdrs shstr names offs hdr body out Hwf Hst Hfin Hout Hpl Hlen)
      as Hsym. unfold with_sections in Hsym. rewrite Hsym, result_bind_ok.
    change (set_tables (parsed_sections b shdrs shstr offs) [] (numbered (symbol_table b)) []
      (set_tables (parsed_sections b shdrs shstr offs) [] [] [] (parsed_header b shdrs shstr body out)))
      with (set_tables ss [] (numbered (symbol_table b)) [] (parsed_header b shdrs shstr body out)).
    rewrite Hrels. done. }
  split; [exact Hparse|]. split; [done|]. split; [done|]. split; [|done].
  intros s Hs. set (e := set_tables _ _ _ _ _).
  assert ((user_idx b (ss_name s), user_shdr s) ∈ all_entries b rf st fg) as Hin.
  { apply elem_of_app. left. right. by apply user_entry_In. }
  pose proof (wf_sections b Hwf) as Hws. rewrite Forall_forall in Hws.
  destruct (Hws s Hs) as [_ _ (Hn0 & _) _ _ _ _ _ (Ho & _) _].
  destruct (fin_lookup_ne b st fg rf shdrs shstr Hwf Hfin _ _ Hin) as [H0 Hf].
  { intros Hk.
    pose proof (finish_entries_Ok _ _ Hfin) as (Hd & _). unfold all_entries in Hd.
    rewrite fmap_app in Hd. apply NoDup_app in Hd as (_ & Hd & _).
    apply (Hd (user_idx b (ss_name s))).
    - apply list_elem_of_fmap. exists (user_idx b (ss_name s), user_shdr s). split; [done|].
      right. by apply user_entry_In.
    - rewrite Hk. unfold table_entries. cbn. do 2 (apply elem_of_cons; right). by left. }
  set (i := Z.to_nat (user_idx b (ss_name s))) in *.
  exists (section_of i (default 0 (offs !! i)) (user_shdr s)). split.
  { change (e_sections e) with ss. apply parsed_sections_lookup. by eexists. }
  split; try done.
  - simpl. unfold i. by rewrite Z2Nat.id.
  - destruct (fin_placed b shdrs shstr names offs hdr body out Hout Hpl i _ Hf) as (o & Hoff & Hp).
    cbn [section_of sec_offset]. rewrite Hoff. unfold placed in Hp.
    cbn [user_shdr sh_type sh_offset_override sh_align] in Hp.
    rewrite (proj2 (Z.eqb_neq _ _) Hn0), Ho in Hp. simpl. tauto.
  - intros Hnb. apply (slice_contents b st fg rf shdrs shstr names offs hdr body out Hwf Hst Hfin Hout Hpl Hlen
      e i (user_shdr s) eq_refl Hf). simpl. by rewrite (proj2 (Z.eqb_neq _ _) Hnb).
Qed.

(** ** When building succeeds *)

Definition declared (b : ObjectBuilder) (name : bytes) : Prop := name ∈ ss_name <$> ob_sections b.

(** Every name the symbols and relocations use is declared. *)
Record resolved (b : ObjectBuilder) : Prop := {
  rs_symbols : forall y n, y ∈ ob_symbols b -> sy_section y = InSection n -> declared b n;
  rs_to_symbol : forall s r n, s ∈ ob_sections b -> r ∈ ss_relocs s -> r_target r = ToSymbol n ->
    n <> [] /\ n ∈ sy_name <$> ob_symbols b;
  rs_to_section : forall s r n, s ∈ ob_sections b -> r ∈ ss_relocs s -> r_target r = ToSection n ->
    ob_omit_section_symbols b = false /\ declared b n
}.

Lemma find_name_some {A} name (l : list (bytes * A)) : name ∈ l.*1 -> exists a, find_name name l = Some a.
Proof.
  intros H. destruct (find_name name l) eqn:E; [eauto|]. by apply find_name_None in E.
Qed.

Lemma spec_shndx_declared b s :
  (forall n, s = InSection n -> declared b n) -> exists v, spec_shndx (index_of b) s = Ok v.
Proof.
  intros Hd. destruct s; simpl; eauto. unfold section_index.
  destruct (find_name_some name (index_of b)) as [i ->]; [|simpl; eauto].
  rewrite index_of_names. by apply Hd.
Qed.

(** The symbol loops only add names, and they add every one they pass. *)
Lemma push_sym_total b st y :
  (forall n, sy_section y = InSection n -> declared b n) ->
  exists st', push_sym (index_of b) st y = Ok st' /\
    (sym_index st').*1 = (sym_index st).*1 ++ (match sy_name y with [] => [] | n => [n] end) /\
    section_sym_index st' = section_sym_index st.
Proof.
  intros Hd. unfold push_sym. destruct (spec_shndx_declared b (sy_section y) Hd) as [v ->].
  rewrite result_bind_ok. destruct (strtab_add _ _) as [tab off]. eexists. split; [done|].
  split; [|done]. destruct (sy_name y); simpl; [by rewrite app_nil_r|by rewrite fmap_app].
Qed.

Lemma push_syms_total b l st :
  (forall y n, y ∈ l -> sy_section y = InSection n -> declared b n) ->
  exists st', try_fold (push_sym (index_of b)) l st = Ok st' /\
    (forall n, n <> [] -> n ∈ sy_name <$> l \/ n ∈ (sym_index st).*1 -> n ∈ (sym_index st').*1) /\
    section_sym_index st' = section_sym_index st.
Proof.
  revert st. induction l as [|y l IH]; intros st Hd.
  { exists st. split; [done|]. split; [|done]. intros n _ [H|H]; [by apply elem_of_nil in H|done]. }
  destruct (push_sym_total b st y) as (st1 & E1 & Hn1 & Hs1); [intros n; apply Hd; left|].
  destruct (IH st1) as (st2 & E2 & Hn2 & Hs2); [intros z n Hz; apply Hd; by right|].
  exists st2. cbn [try_fold]. rewrite E1, result_bind_ok. split; [done|]. split; [|congruence].
  intros n Hne Hn. apply Hn2; [done|]. rewrite Hn1, elem_of_app. rewrite fmap_cons, elem_of_cons in Hn.
  destruct Hn as [[->|?]|?]; [|tauto..]. right. right. destruct (sy_name y); [done|by left].
Qed.

Lemma push_section_syms_total b l st :
  (forall s, s ∈ l -> s ∈ ob_sections b) ->
  exists st', try_fold (push_section_sym (index_of b)) l st = Ok st' /\
    (section_sym_index st').*1 = (section_sym_index st).*1 ++ (ss_name <$> l).
Proof.
  revert st. induction l as [|s l IH]; intros st Hl.
  { exists st. split; [done|]. by rewrite app_nil_r. }
  assert (exists st1, push_section_sym (index_of b) st s = Ok st1 /\
    (section_sym_index st1).*1 = (section_sym_index st).*1 ++ [ss_name s]) as (st1 & E1 & Hs1).
  { unfold push_section_sym. rewrite section_index_user by (apply Hl; left). rewrite result_bind_ok.
    eexists. split; [done|]. simpl. by rewrite fmap_app. }
  destruct (IH st1) as (st' & E & Hs); [intros z Hz; apply Hl; by right|].
  exists st'. cbn [try_fold]. rewrite E1, result_bind_ok. split; [exact E|].
  by rewrite Hs, Hs1, <- app_assoc.
Qed.

Lemma plan_symbols_total b :
  (forall y n, y ∈ ob_symbols b -> sy_section y = InSection n -> declared b n) ->
  exists st fg, plan_symbols b = Ok (st, fg) /\
    (forall n, n <> [] -> n ∈ sy_name <$> ob_symbols b -> n ∈ (sym_index st).*1) /\
    (ob_omit_section_symbols b = false -> (section_sym_index st).*1 = ss_name <$> ob_sections b).
Proof.
  intros Hd. unfold plan_symbols.
  assert (exists st, (if ob_omit_section_symbols b then Ok syms_new
    else try_fold (push_section_sym (index_of b)) (ob_sections b) syms_new) = Ok st /\
    (ob_omit_section_symbols b = false -> (section_sym_index st).*1 = ss_name <$> ob_sections b))
    as (st1 & E1 & Hs1).
  { destruct (ob_omit_section_symbols b); [by eexists|].
    destruct (push_section_syms_total b (ob_sections b) syms_new) as (st & E & Hs); [done|].
    exists st. split; [exact E|]. intros _. by rewrite Hs. }
  rewrite E1, result_bind_ok.
  destruct (push_syms_total b (local_symbols b) st1) as (st2 & E2 & Hn2 & Hs2).
  { intros y n [_ Hy]%list_elem_of_filter. by apply Hd. }
  unfold local_symbols in E2. rewrite E2, result_bind_ok. cbv zeta.
  destruct (push_syms_total b (other_symbols b) st2) as (st3 & E3 & Hn3 & Hs3).
  { intros y n [_ Hy]%list_elem_of_filter. by apply Hd. }
  unfold other_symbols in E3. rewrite E3, result_bind_ok.
  eexists st3, _. split; [done|]. split; [|by rewrite Hs3, Hs2].
  intros n Hne (y & -> & Hy)%list_elem_of_fmap. apply Hn3; [done|].
  destruct (decide (sy_bind y = STB_LOCAL)).
  - right. apply Hn2; [done|]. left. apply list_elem_of_fmap. exists y. split; [done|].
    by apply list_elem_of_filter.
  - left. apply list_elem_of_fmap. exists y. split; [done|]. by apply list_elem_of_filter.
Qed.

Lemma section_rela_total st s rs acc :
  (forall r, r ∈ rs -> exists y, reloc_symbol st s r = Ok y) ->
  exists bs, try_fold (fun bytes r => sym ← reloc_symbol st s r; Ok (bytes ++ rela_bytes sym r)) rs acc = Ok bs.
Proof.
  revert acc. induction rs as [|r rs IH]; intros acc Hr; [by eexists|].
  cbn [try_fold]. destruct (Hr r ltac:(left)) as [y ->]. rewrite !result_bind_ok.
  apply IH. intros r' Hr'. apply Hr. by right.
Qed.

Lemma push_rela_total st l acc :
  (forall s r, s ∈ l -> r ∈ ss_relocs s -> exists y, reloc_symbol st s r = Ok y) ->
  exists rf, try_fold (push_rela st) l acc = Ok rf.
Proof.
  revert acc. induction l as [|s l IH]; intros acc Hr; [by eexists|].
  assert (exists acc1, push_rela st acc s = Ok acc1) as [acc1 E1].
  { unfold push_rela. destruct (has_relocs s); [|by eexists].
    destruct (section_rela_total st s (ss_relocs s) []) as [bs Hbs]; [intros; apply Hr; [left|done]|].
    unfold section_rela. rewrite Hbs. by eexists. }
  cbn [try_fold]. rewrite E1, result_bind_ok. apply IH. intros z r Hz. apply Hr. by right.
Qed.

Lemma build_total b :
  plain b -> NoDup (ss_name <$> ob_sections b) -> 2 * zlen (ob_sections b) < 2 ^ 32 ->
  ob_rela_before_target b && ob_symtab_first b = false -> resolved b ->
  exists out, build b = Ok out.
Proof.
  intros [Hh Ht] Hd Hc Hf [Hy Hr1 Hr2].
  destruct (plan_symbols_total b Hy) as (st & fg & Hst & Hsyms & Hsecs).
  destruct (push_rela_total st (ob_sections b) []) as [rf Hrf].
  { intros s r Hs Hr. unfold reloc_symbol. destruct (r_target r) as [n|n|i] eqn:Et; [| |by eexists].
    - destruct (Hr1 s r n Hs Hr Et) as [Hne Hn].
      destruct (find_name_some n (sym_index st)) as [i ->]; [by apply Hsyms|by eexists].
    - destruct (Hr2 s r n Hs Hr Et) as [Ho Hn].
      destruct (find_name_some n (section_sym_index st)) as [i ->]; [by rewrite Hsecs|by eexists]. }
  destruct (plan_total b st fg rf Hd Hc Hf Hst Hrf) as [l Hl].
  unfold build. rewrite Hl, result_bind_ok. unfold emit. rewrite Hh, Ht.
  destruct (foldl emit_section _ _) as [o offs]. rewrite zlen_header by done. simpl negb. cbv iota.
  by eexists.
Qed.

(** ** What a parsed file guarantees *)

Lemma read_le_range n bs at_ v : 0 <= n -> 0 <= at_ -> zlen bs < U64_MAX ->
  read_le n bs at_ = Ok v -> in_u (8 * n) v /\ at_ + n <= zlen bs.
Proof.
  intros Hn Ha Hl. unfold read_le, checked_add. destruct (U64_MAX <? at_ + n) eqn:E; cbn [default].
  - simpl. destruct (Z.ltb_spec (zlen bs) U64_MAX); [done|]. unfold id. lia.
  - simpl. destruct (Z.ltb_spec (zlen bs) (at_ + n)); [done|]. intros [= <-]. split; [|done].
    pose proof (le_val_range (zslice bs at_ n)) as Hr. pose proof (zlen_zslice bs at_ n ltac:(lia) ltac:(lia) ltac:(lia)) as Hz.
    unfold zlen in Hz. rewrite Hz in Hr. unfold in_u. by rewrite Z.pow_mul_r by lia.
Qed.

Record wf_segment (s : Segment) : Prop := {
  wg_offset : in_u 64 (seg_offset s);
  wg_vaddr : in_u 64 (seg_vaddr s);
  wg_filesz : in_u 64 (seg_filesz s);
  wg_memsz : in_u 64 (seg_memsz s)
}.

Lemma entry_at_spec base i size len at_ :
  0 <= base -> 0 <= i -> 0 <= size -> len <= U64_MAX ->
  entry_at base i size len = Ok at_ <-> at_ = base + i * size /\ at_ + size <= len.
Proof.
  intros Hb Hi Hs Hl. assert (0 <= i * size) by nia. unfold entry_at, checked_mul, checked_add.
  destruct (Z.ltb_spec U64_MAX (i * size)); cbn [mbind option_bind ok_or];
    [split; [done|lia]|].
  destruct (Z.ltb_spec U64_MAX (base + i * size)); cbn [mbind option_bind ok_or]; [split; [done|lia]|].
  destruct (Z.ltb_spec U64_MAX (base + i * size + size)); cbn [mbind option_bind ok_or]; [split; [done|lia]|].
  destruct (Z.leb_spec (base + i * size + size) len); cbn [ok_or].
  - split; [intros [= <-]; lia|]. by intros [-> _].
  - split; [done|lia].
Qed.

Lemma parse_segment_wf bs i at_ s : 0 <= at_ -> zlen bs < U64_MAX ->
  parse_segment bs i at_ = Ok s -> wf_segment s /\ seg_index s = i /\ at_ + PHDR_SIZE <= zlen bs.
Proof.
  intros Ha Hl. unfold parse_segment, u32le, u64le. intros H. invert_ok.
  repeat match goal with H : read_le _ _ _ = Ok _ |- _ => apply read_le_range in H; [|lia..] end.
  split; [split; simpl; tauto|]. split; [done|]. unfold PHDR_SIZE. lia.
Qed.

(** The header fields are values of their types. *)
Lemma parse_header_wf bs e : zlen bs < U64_MAX -> parse_header bs = Ok e ->
  e_bytes e = bs /\ in_u 64 (e_phoff e) /\ in_u 64 (e_shoff e) /\ in_u 16 (e_phnum e) /\
  in_u 16 (e_phentsize e) /\ in_u 16 (e_shnum e) /\ in_u 16 (e_shentsize e) /\ in_u 16 (e_shstrndx e).
Proof.
  intros Hl. unfold parse_header. destruct (_ <? _); [done|]. repeat (case_decide; [done|]).
  unfold u16le, u32le, u64le. intros He. invert_ok.
  repeat match goal with H : read_le _ _ _ = Ok _ |- _ => apply read_le_range in H; [|lia..] end.
  simpl. tauto.
Qed.

Lemma try_map_seqZ {A} (f : Z -> Result ElfError A) n l :
  0 <= n -> try_map f (seqZ 0 n) = Ok l ->
  zlen l = n /\ forall i a, l !! i = Some a -> f (Z.of_nat i) = Ok a.
Proof.
  intros Hn H%try_map_Forall2. pose proof (Forall2_length _ _ _ H) as Hlen. rewrite length_seqZ in Hlen.
  split; [unfold zlen; lia|]. intros i a Ha.
  destruct (Forall2_lookup_r _ _ _ _ _ H Ha) as (z & [-> _]%lookup_seqZ & Hz). by rewrite Z.add_0_l in Hz.
Qed.

(** What [parse] went through. *)
Lemma parse_Ok bs e : zlen bs < U64_MAX -> parse bs = Ok e ->
  exists h, parse_header bs = Ok h /\ parse_segments h = Ok (e_segments e) /\
    parse_sections (set_tables [] (e_segments e) [] [] h) = Ok (e_sections e) /\
    e = set_tables (e_sections e) (e_segments e) (e_symbols e) (e_relocations e) h.
Proof.
  intros Hl. unfold parse. intros (h & Hh & H)%result_bind_Ok_inv. exists h.
  apply result_bind_Ok_inv in H as (segs & Hsegs & H).
  apply result_bind_Ok_inv in H as (secs & Hsecs & H).
  apply result_bind_Ok_inv in H as (syms & Hsyms & H).
  apply result_bind_Ok_inv in H as (rels & Hrels & [= <-]). done.
Qed.

Lemma parse_segments_wf bs e : zlen bs < U64_MAX -> parse bs = Ok e -> Forall wf_segment (e_segments e).
Proof.
  intros Hl He. destruct (parse_Ok bs e Hl He) as (h & Hh & Hs & _ & _).
  destruct (parse_header_wf bs h Hl Hh) as (Hb & Hpo & _ & Hpn & Hpe & _).
  unfold parse_segments in Hs. destruct (_ =? 0); [injection Hs as <-; constructor|].
  destruct (_ <? _); [done|]. apply try_map_seqZ in Hs as [_ Hs]; [|unfold in_u in *; lia].
  apply Forall_lookup. intros i s Hi. apply Hs in Hi. unfold segment_entry in Hi. rewrite Hb in Hi.
  apply result_bind_Ok_inv in Hi as (at_ & Ha & Hp). unfold in_u in *.
  apply entry_at_spec in Ha as [-> _]; [|lia..].
  apply parse_segment_wf in Hp; [tauto|nia|done].
Qed.

Lemma parse_e_bytes bs e : zlen bs < U64_MAX -> parse bs = Ok e -> e_bytes e = bs.
Proof.
  intros Hl He. destruct (parse_Ok bs e Hl He) as (h & Hh & _ & _ & ->). simpl.
  by apply (parse_header_wf bs h Hl Hh).
Qed.

Lemma segment_at_wf bs e addr seg :
  zlen bs < U64_MAX -> parse bs = Ok e -> segment_at e addr = Some seg ->
  wf_segment seg /\ seg_type seg = PT_LOAD /\ seg_contains seg addr = true.
Proof.
  intros Hl He. unfold segment_at. intros ([i s] & Hf & Eq)%fmap_Some. simpl in Eq. subst s.
  apply list_find_Some in Hf as (Hi & Hc & _). apply list_elem_of_lookup_2 in Hi.
  unfold loads in Hi. apply list_elem_of_filter in Hi as [Ht Hin].
  pose proof (parse_segments_wf bs e Hl He) as Hw. rewrite Forall_forall in Hw.
  split; [auto|]. split; [done|]. by destruct (seg_contains seg addr).
Qed.

(** ** Properties *)

(** C26: Building an object and parsing the bytes gives back what the builder held.
  Every section is at the index the writer assigned, with its name, type, flags,
  address, size, alignment and entry size, at an offset that honours its alignment,
  and with exactly its contents there (a [NOBITS] section has none).  The symbol table
  is the null symbol, one section symbol per section (unless the builder omits them),
  the local symbols in the order they were added, then the others in order, each with
  its name, binding, type, visibility, value, size and section.  The relocations that
  target a section are exactly that section's, in order, with their offset, type and
  addend, each against a symbol of the table that has the name (or is the section
  symbol) it asked for; and none targets anything but a section of the builder. *)
Theorem object_survives b out :
  wf_builder b -> build b = Ok out -> zlen out < 2 ^ 32 ->
  exists e, parse out = Ok e /\ e_type e = ET_REL /\ e_machine e = EM_X86_64 /\ e_segments e = [] /\
    (forall s, s ∈ ob_sections b -> exists sec,
      e_sections e !! Z.to_nat (user_idx b (ss_name s)) = Some sec /\ describes b e s sec) /\
    e_symbols e = numbered (symbol_table b) /\
    (forall u, u ∈ ob_sections b -> has_relocations b u (e_relocations e)) /\
    (forall r, r ∈ e_relocations e ->
       exists u, u ∈ ob_sections b /\ rel_target_section r = user_idx b (ss_name u)).
Proof.
  intros Hw Hb Hl. destruct (build_parse b out Hw Hb Hl) as (e & He & _ & (? & ? & _ & ?) & Hs & Hy & H1 & H2).
  by exists e.
Qed.

(** A builder with distinct section names whose symbols and relocations name
  only declared things always builds: whichever of the three table layouts it asks
  for, the indices it hands out are a permutation of [0 .. n-1], so the internal
  index check never fires. *)
Theorem object_builds b :
  plain b -> NoDup (ss_name <$> ob_sections b) -> 2 * zlen (ob_sections b) < 2 ^ 32 ->
  ob_rela_before_target b && ob_symtab_first b = false -> resolved b ->
  exists out, build b = Ok out.
Proof. apply build_total. Qed.

(** Two sections with the same name are never built: the second lookup finds
  the first's index and the check on the indices rejects the table. *)
Theorem duplicate_sections_rejected b :
  ~ NoDup (ss_name <$> ob_sections b) -> exists err, build b = Err err.
Proof.
  intros Hd. unfold build. destruct (plan b) as [l|err] eqn:E; [|by exists err].
  by apply plan_NoDup in E.
Qed.

(** Reading at a virtual address of a parsed file succeeds exactly when the
  first loadable segment that maps the address has that many bytes of file behind
  it, inside the file; and the bytes are the ones at that file offset.  A read in
  the zero-filled tail of a segment, or a lying header, is an error. *)
Theorem read_at_vaddr_exact bs e addr len res :
  zlen bs < U64_MAX -> parse bs = Ok e -> in_u 64 addr -> in_u 64 len ->
  read_at_vaddr e addr len = Ok res <->
  exists seg, segment_at e addr = Some seg /\
    addr - seg_vaddr seg + len <= seg_filesz seg /\
    seg_offset seg + (addr - seg_vaddr seg) + len <= zlen bs /\
    res = zslice bs (seg_offset seg + (addr - seg_vaddr seg)) len.
Proof.
  intros Hl He Ha Hn. unfold read_at_vaddr.
  destruct (segment_at e addr) as [seg|] eqn:Es; cbn [ok_or].
  2: { rewrite <- (parse_e_bytes bs e Hl He). split; [done|]. by intros (? & [=] & _). }
  destruct (segment_at_wf bs e addr seg Hl He Es) as ([Ho Hv Hf _] & _ & Hc).
  unfold seg_contains, in_u in *. assert (seg_vaddr seg <= addr) by lia.
  rewrite result_bind_ok. unfold slice, checked_add, saturating_add. rewrite (parse_e_bytes bs e Hl He).
  assert (U64_MAX = 2 ^ 64 - 1) as HM by done. set (delta := addr - seg_vaddr seg) in *.
  assert (0 <= delta) by lia. split.
  - intros Hr. exists seg. split; [done|]. revert Hr.
    destruct (Z.ltb_spec (seg_filesz seg) (Z.min (delta + len) U64_MAX)); [done|].
    destruct (Z.ltb_spec U64_MAX (seg_offset seg + delta)); cbn [ok_or mbind result_bind]; [done|].
    destruct (Z.ltb_spec U64_MAX (seg_offset seg + delta + len)); cbn [ok_or mbind result_bind]; [done|].
    destruct (Z.leb_spec (seg_offset seg + delta + len) (zlen bs)); [|done].
    intros [= <-]. split_and!; [lia|lia|done].
  - intros (s & [= <-] & H1 & H2 & ->). fold delta in H1, H2 |- *.
    rewrite (proj2 (Z.ltb_ge _ _)) by lia. rewrite (proj2 (Z.ltb_ge _ _)) by lia.
    cbn [ok_or mbind result_bind]. rewrite (proj2 (Z.ltb_ge _ _)) by lia.
    cbn [ok_or mbind result_bind]. by rewrite (proj2 (Z.leb_le _ _)) by lia.
Qed.

(** A parse that succeeds read whole tables: the section and program header
  counts are the header's (none where the header says there is no table), every
  entry lies inside the file at [offset + i * entry size], and entry [i] is
  recorded under index [i]. *)
Theorem parse_tables_exact bs e :
  zlen bs < U64_MAX -> parse bs = Ok e ->
  (zlen (e_segments e) = e_phnum e /\
   forall i s, e_segments e !! i = Some s ->
     seg_index s = Z.of_nat i /\ e_phoff e + (Z.of_nat i + 1) * e_phentsize e <= zlen bs) /\
  (e_shnum e <> 0 -> e_shoff e <> 0 -> zlen (e_sections e) = e_shnum e /\
   forall i s, e_sections e !! i = Some s ->
     sec_index s = Z.of_nat i /\ e_shoff e + (Z.of_nat i + 1) * e_shentsize e <= zlen bs) /\
  (e_shnum e = 0 \/ e_shoff e = 0 -> e_sections e = []).
Proof.
  intros Hl He. destruct (parse_Ok bs e Hl He) as (h & Hh & Hseg & Hsec & Ee).
  destruct (parse_header_wf bs h Hl Hh) as (Hb & Hpo & Hso & Hpn & Hpe & Hsn & Hse & _).
  unfold in_u in *. rewrite Ee. cbn [set_tables e_segments e_sections e_phnum e_phoff e_phentsize
    e_shnum e_shoff e_shentsize].
  split.
  - unfold parse_segments in Hseg. destruct (Z.eqb_spec (e_phnum h) 0) as [E0|].
    { injection Hseg as <-. rewrite E0. split; [done|]. by intros i s Hi. }
    destruct (_ <? _); [done|]. apply try_map_seqZ in Hseg as [Hn Hi]; [|lia]. split; [done|].
    intros i s Hs. apply Hi in Hs. unfold segment_entry in Hs. rewrite Hb in Hs.
    apply result_bind_Ok_inv in Hs as (at_ & Hat & Hp). apply entry_at_spec in Hat as [-> Hat]; [|lia..].
    apply parse_segment_wf in Hp as (_ & -> & _); [|nia|done]. split; [done|lia].
  - unfold parse_sections in Hsec.
    cbn [set_tables e_shnum e_shoff e_shentsize] in Hsec.
    destruct (Z.eqb_spec (e_shnum h) 0) as [E0|]; simpl orb in Hsec.
    { injection Hsec as <-. split; [done|]. by intros _. }
    destruct (Z.eqb_spec (e_shoff h) 0) as [E0|].
    { injection Hsec as <-. split; [done|]. by intros _. }
    destruct (_ <? _); [done|]. split; [intros _ _|by intros [?|?]].
    apply result_bind_Ok_inv in Hsec as (raw & Hraw & [= <-]).
    apply try_map_seqZ in Hraw as [Hn Hi]; [|lia]. split; [unfold zlen; by rewrite length_fmap|].
    intros i s. rewrite list_lookup_fmap. intros ([nm s'] & Hs & ->)%fmap_Some.
    apply Hi in Hs. unfold section_entry in Hs. cbn [set_tables e_shoff e_shentsize e_bytes] in Hs.
    rewrite Hb in Hs. apply result_bind_Ok_inv in Hs as (at_ & Hat & Hp).
    apply entry_at_spec in Hat as [-> Hat]; [|lia..]. unfold parse_section in Hp. invert_ok.
    simpl. split; [done|lia].
Qed.

(** ** A concrete object *)

(** [.text] with one relocation against the undefined [f] and one against [.data]. *)
Definition sample : ObjectBuilder :=
  add_symbols [symbol_global (str "main") (str ".text") 0; symbol_undefined (str "f");
               symbol_local (str "here") (str ".data") 4]
    (add_section (section_data (str ".data") [x01; x02; x03; x04; x05])
      (add_section
        (with_relocs [reloc_sym 1 (str "f") R_X86_64_PLT32 (-4);
                      reloc_section 6 (str ".data") R_X86_64_PC32 0]
          (section_text (str ".text") [xe8; x00; x00; x00; x00; x90; x00; x00; x00; x00]))
        builder_new)).

Definition sample_bytes : bytes := default [] (to_option (build sample)).

Ltac concrete_range :=
  match goal with
  | |- good_name _ => by apply good_name_ascii
  | |- in_u _ _ => by split; vm_compute
  | |- in_s _ _ => by split; vm_compute
  | |- _ => first [done | by split; vm_compute]
  end.

(** A decidable fact about constants. *)
Ltac decide_it := unfold declared; apply (bool_decide_unpack _); vm_compute; exact I.

Lemma sample_wf : wf_builder sample.
Proof.
  split; [done| | |done].
  - repeat (apply Forall_cons; split); [| |constructor].
    + split; try concrete_range. repeat (apply Forall_cons; split); [| |constructor];
        (split; try concrete_range; by intros i [=]).
    + split; try concrete_range.
  - repeat (apply Forall_cons; split); [| | |constructor];
      (split; try concrete_range; by intros v [=]).
Qed.

Lemma sample_built : build sample = Ok sample_bytes /\ zlen sample_bytes < 2 ^ 32.
Proof. by vm_compute. Qed.

Lemma object_survives_witness :
  exists e, parse sample_bytes = Ok e /\ e_type e = ET_REL /\ e_machine e = EM_X86_64 /\ e_segments e = [] /\
    (forall s, s ∈ ob_sections sample -> exists sec,
      e_sections e !! Z.to_nat (user_idx sample (ss_name s)) = Some sec /\ describes sample e s sec) /\
    e_symbols e = numbered (symbol_table sample) /\
    (forall u, u ∈ ob_sections sample -> has_relocations sample u (e_relocations e)) /\
    (forall r, r ∈ e_relocations e ->
       exists u, u ∈ ob_sections sample /\ rel_target_section r = user_idx sample (ss_name u)).
Proof. apply (object_survives sample sample_bytes sample_wf); apply sample_built. Defined.

Lemma sample_resolved : resolved sample.
Proof.
  split.
  - intros y n Hy E.
    repeat (apply elem_of_cons in Hy as [->|Hy]); [..|by apply elem_of_nil in Hy]; try done;
      injection E as <-; decide_it.
  - intros s r n Hs Hr E.
    repeat (apply elem_of_cons in Hs as [->|Hs]); [..|by apply elem_of_nil in Hs];
    repeat (apply elem_of_cons in Hr as [->|Hr]); try (by apply elem_of_nil in Hr); try done;
      injection E as <-; split; [done|]; decide_it.
  - intros s r n Hs Hr E.
    repeat (apply elem_of_cons in Hs as [->|Hs]); [..|by apply elem_of_nil in Hs];
    repeat (apply elem_of_cons in Hr as [->|Hr]); try (by apply elem_of_nil in Hr); try done;
      injection E as <-; split; [done|]; decide_it.
Qed.

Lemma object_builds_witness : exists out, build sample = Ok out.
Proof.
  apply object_builds; [done| |done|done|apply sample_resolved].
  decide_it.
Defined.

Lemma duplicate_sections_rejected_witness :
  exists err, build (add_section (section_rodata (str ".text") []) sample) = Err err.
Proof.
  apply duplicate_sections_rejected. decide_it.
Defined.

(** A 176-byte executable: one header, one [PT_LOAD] of 8 bytes at 0x400000 with
  16 bytes in memory. *)
Definition tiny_exec : bytes :=
  ident_bytes no_overrides ++
  le_bytes 2 ET_EXEC ++ le_bytes 2 EM_X86_64 ++ le_bytes 4 1 ++ le_bytes 8 0x400000 ++
  le_bytes 8 64 ++ le_bytes 8 0 ++ le_bytes 4 0 ++ le_bytes 2 64 ++ le_bytes 2 56 ++ le_bytes 2 1 ++
  le_bytes 2 0 ++ le_bytes 2 0 ++ le_bytes 2 0 ++
  le_bytes 4 PT_LOAD ++ le_bytes 4 5 ++ le_bytes 8 120 ++ le_bytes 8 0x400000 ++ le_bytes 8 0x400000 ++
  le_bytes 8 8 ++ le_bytes 8 16 ++ le_bytes 8 0x1000 ++
  [x0a; x0b; x0c; x0d; x0e; x0f; x10; x11].

Definition tiny_parsed : Elf :=
  match parse tiny_exec with
  | Ok e => e
  | Err _ => mkElf [] [] 0 0 0 0 0 0 0 0 0 0 0 0 0 [] [] [] []
  end.

Lemma tiny_parses : parse tiny_exec = Ok tiny_parsed.
Proof. by vm_compute. Qed.

Lemma read_at_vaddr_exact_witness :
  read_at_vaddr tiny_parsed 0x400002 4 = Ok [x0c; x0d; x0e; x0f] /\
  is_ok (read_at_vaddr tiny_parsed 0x400006 4) = false.
Proof.
  split; [|by vm_compute].
  apply (read_at_vaddr_exact tiny_exec); [by vm_compute|apply tiny_parses|by split; vm_compute..|].
  eexists. split; [vm_compute; reflexivity|]. split; [by vm_compute|]. split; by vm_compute.
Defined.

Lemma parse_tables_exact_witness :
  (zlen (e_segments tiny_parsed) = e_phnum tiny_parsed /\
   forall i s, e_segments tiny_parsed !! i = Some s ->
     seg_index s = Z.of_nat i /\
     e_phoff tiny_parsed + (Z.of_nat i + 1) * e_phentsize tiny_parsed <= zlen tiny_exec) /\
  e_sections tiny_parsed = [].
Proof.
  destruct (parse_tables_exact tiny_exec tiny_parsed) as (H1 & _ & H3); [by vm_compute|apply tiny_parses|].
  split; [exact H1|]. apply H3. by vm_compute; left.
Defined.
