(* ===== verification/Archive.v ===== *)
(** * The [ar] archive writer and reader ([linktest/src/elf/archive.rs])

  [archive_build] lays members out behind an optional symbol index ([/]) and an
  optional long-name table ([//]); [archive_parse] reads them back. *)

From S2P Require Import Prelude Text.

Definition ARCHIVE_MAGIC : bytes := str "!<arch>" ++ [x0a].
Definition HEADER_TERMINATOR : bytes := [x60; x0a].
Definition MEMBER_HEADER_SIZE : Z := 60.
Definition slash : byte := x2f.

Record Member : Type := mkMember { m_name : bytes; m_data : bytes; m_symbols : list bytes }.

Inductive IndexMode : Type := Correct | Omitted | Stale | Phantom.

#[global] Instance index_mode_eq_dec : EqDecision IndexMode.
Proof. solve_decision. Defined.

Record ArchiveBuilder : Type := mkArchive {
  ar_members : list Member;
  ar_index : IndexMode;
  ar_magic_override : option bytes;
  ar_truncate_to : option nat
}.

Definition archive_new : ArchiveBuilder := mkArchive [] Correct None None.
Definition ar_member (m : Member) (b : ArchiveBuilder) : ArchiveBuilder :=
  mkArchive (ar_members b ++ [m]) (ar_index b) (ar_magic_override b) (ar_truncate_to b).
Definition ar_with_index (mode : IndexMode) (b : ArchiveBuilder) : ArchiveBuilder :=
  mkArchive (ar_members b) mode (ar_magic_override b) (ar_truncate_to b).
Definition ar_with_magic (magic : bytes) (b : ArchiveBuilder) : ArchiveBuilder :=
  mkArchive (ar_members b) (ar_index b) (Some magic) (ar_truncate_to b).
Definition ar_truncate (n : nat) (b : ArchiveBuilder) : ArchiveBuilder :=
  mkArchive (ar_members b) (ar_index b) (ar_magic_override b) (Some n).

Inductive ArError : Type :=
| NameTooLong (name : bytes)
| HeaderLength (got : Z)
| NotAnArchive
| BadTerminator (at_ : Z)
| BadSize (at_ : Z)
| PastEnd (at_ size : Z)
| BadLongName (raw : bytes)
| IndexTooShort
| IndexClaims (count len : Z)
| IndexMissingName (i : Z).

(** ** Writing *)

Definition pad_even (n : Z) : Z := n + n mod 2.

(** [write_member]: the header is built as a [String] and checked for its length. *)
Definition write_member (out name data : bytes) : Result ArError bytes :=
  if 16 <? zlen name then Err (NameTooLong name)
  else
    let header := pad_right 16 name ++ pad_right 12 (dec 0) ++ pad_right 6 (dec 0) ++
      pad_right 6 (dec 0) ++ pad_right 8 (str "644") ++ pad_right 10 (dec (zlen data)) in
    if negb (zlen header =? MEMBER_HEADER_SIZE - 2) then Err (HeaderLength (zlen header + 2))
    else Ok (out ++ header ++ HEADER_TERMINATOR ++ data ++
             (if zlen data mod 2 =? 0 then [] else [x0a])).

(** The name loop: the long-name table and the stored names. *)
Definition store_name (acc : bytes * list bytes) (m : Member) : bytes * list bytes :=
  let '(long_names, stored) := acc in
  if zlen (m_name m) <=? 15 then (long_names, stored ++ [m_name m ++ [slash]])
  else (long_names ++ m_name m ++ [slash; x0a], stored ++ [slash :: dec (zlen long_names)]).

Definition store_names (ms : list Member) : bytes * list bytes := foldl store_name ([], []) ms.

Definition phantom_symbol : bytes := str "linktest_phantom_symbol".

Definition sum_map {A} (f : A -> Z) (l : list A) : Z := foldr (fun a acc => f a + acc) 0 l.

Definition index_payload_len (b : ArchiveBuilder) : Z :=
  if decide (ar_index b = Omitted) then 0
  else
    let symbol_count := sum_map (fun m => zlen (m_symbols m)) (ar_members b) in
    let names := sum_map (fun m => sum_map (fun s => zlen s + 1) (m_symbols m)) (ar_members b) in
    let phantom := if decide (ar_index b = Phantom) then zlen phantom_symbol + 1 + 4 else 0 in
    4 + 4 * symbol_count + names + phantom.

(** Where each member header lands. *)
Fixpoint member_offsets (cursor : Z) (ms : list Member) : list Z :=
  match ms with
  | [] => []
  | m :: ms => wrap_u 32 cursor ::
      member_offsets (cursor + (MEMBER_HEADER_SIZE + pad_even (zlen (m_data m)))) ms
  end.

Definition first_cursor (b : ArchiveBuilder) : Z :=
  let long_names := fst (store_names (ar_members b)) in
  zlen ARCHIVE_MAGIC +
  (if 0 <? index_payload_len b then MEMBER_HEADER_SIZE + pad_even (index_payload_len b) else 0) +
  (match long_names with [] => 0 | _ => MEMBER_HEADER_SIZE + pad_even (zlen long_names) end).

Definition index_entries (b : ArchiveBuilder) : list (Z * bytes) :=
  let offsets := member_offsets (first_cursor b) (ar_members b) in
  let first := default 0 (head offsets) in
  concat (zip_with (fun m o =>
    let offset := match ar_index b with Stale => first | _ => o end in
    (fun s => (offset, s)) <$> m_symbols m) (ar_members b) offsets) ++
  (if decide (ar_index b = Phantom) then [(first, phantom_symbol)] else []).

Definition index_payload (entries : list (Z * bytes)) : bytes :=
  be_bytes 4 (zlen entries) ++ concat ((fun e => be_bytes 4 e.1) <$> entries) ++
  concat ((fun e => e.2 ++ [x00]) <$> entries).

Definition archive_build (b : ArchiveBuilder) : Result ArError bytes :=
  let '(long_names, stored) := store_names (ar_members b) in
  let out := default ARCHIVE_MAGIC (ar_magic_override b) in
  out ← (if 0 <? index_payload_len b then write_member out [slash] (index_payload (index_entries b))
         else Ok out);
  out ← (match long_names with [] => Ok out | _ => write_member out [slash; slash] long_names end);
  out ← try_fold (fun out p => write_member out p.2 (m_data p.1)) (zip (ar_members b) stored) out;
  Ok (match ar_truncate_to b with Some n => take n out | None => out end).

(** ** Reading *)

Record ParsedMember : Type := mkParsed { pm_name : bytes; pm_offset : Z; pm_data : bytes }.

(** The loop over [0..count]: the names iterator runs alongside. *)
Fixpoint parse_index_entries (data : bytes) (i : Z) (fuel : nat) (names : list bytes)
    : Result ArError (list (bytes * Z)) :=
  match fuel with
  | O => Ok []
  | S fuel =>
      match names with
      | [] => Err (IndexMissingName i)
      | n :: names =>
          es ← parse_index_entries data (i + 1) fuel names;
          Ok ((utf8_lossy n, be_val (zslice data (4 + 4 * i) 4)) :: es)
      end
  end.

Definition parse_index (data : bytes) : Result ArError (list (bytes * Z)) :=
  if zlen data <? 4 then Err IndexTooShort
  else
    let count := be_val (ztake 4 data) in
    let offsets_end := 4 + 4 * count in
    if zlen data <? offsets_end then Err (IndexClaims count (zlen data))
    else parse_index_entries data 0 (Z.to_nat count) (split_on x00 (zdrop offsets_end data)).

(** [text.get(at..)]: nothing unless [at] is a character boundary of [text]. *)
Definition str_get_from (text : bytes) (at_ : Z) : option bytes :=
  if at_ =? zlen text then Some []
  else if zlen text <? at_ then None
  else
    match text !! Z.to_nat at_ with
    | Some b => if between 0x80 0xBF b then None else Some (zdrop at_ text)
    | None => None
    end.

Definition member_name (long_names raw_name : bytes) : Result ArError bytes :=
  match raw_name with
  | c :: offset =>
      if decide (c = slash) then
        at_ ← ok_or (parse_usize offset) (BadLongName raw_name);
        Ok (default [] (split_first slash <$> str_get_from (utf8_lossy long_names) at_))
      else Ok (trim_end_matches slash raw_name)
  | [] => Ok []
  end.

Record ReadState : Type := mkRead {
  rd_members : list ParsedMember;
  rd_index : option (list (bytes * Z));
  rd_long_names : bytes
}.

(** One iteration of the [while] loop at [at_]: the new state and the new [at]. *)
Definition read_member (bs : bytes) (at_ : Z) (st : ReadState) : Result ArError (Z * ReadState) :=
  let header := zslice bs at_ MEMBER_HEADER_SIZE in
  if decide (zslice header 58 2 <> HEADER_TERMINATOR) then Err (BadTerminator at_)
  else
    let raw_name := trim_end (utf8_lossy (ztake 16 header)) in
    size ← ok_or (parse_usize (trim (utf8_lossy (zslice header 48 10)))) (BadSize at_);
    let start := at_ + MEMBER_HEADER_SIZE in
    if (U64_MAX <? start + size) || (zlen bs <? start + size) then Err (PastEnd at_ size)
    else
      let data := zslice bs start size in
      let next := start + size + (start + size) mod 2 in
      if decide (raw_name = [slash]) then
        ix ← parse_index data; Ok (next, mkRead (rd_members st) (Some ix) (rd_long_names st))
      else if decide (raw_name = [slash; slash]) then
        Ok (next, mkRead (rd_members st) (rd_index st) data)
      else
        name ← member_name (rd_long_names st) raw_name;
        Ok (next, mkRead (rd_members st ++ [mkParsed name at_ data]) (rd_index st) (rd_long_names st)).

(** Every iteration advances by at least a header: [length bs] is enough fuel. *)
Fixpoint read_loop (fuel : nat) (bs : bytes) (at_ : Z) (st : ReadState) : Result ArError ReadState :=
  match fuel with
  | O => Ok st
  | S fuel =>
      if at_ + MEMBER_HEADER_SIZE <=? zlen bs then
        '(next, st) ← read_member bs at_ st; read_loop fuel bs next st
      else Ok st
  end.

Definition archive_parse (bs : bytes) : Result ArError (list ParsedMember * option (list (bytes * Z))) :=
  if decide (ztake 8 bs <> ARCHIVE_MAGIC) then Err NotAnArchive
  else
    st ← read_loop (length bs) bs (zlen ARCHIVE_MAGIC) (mkRead [] None []);
    Ok (rd_members st, rd_index st).

(** ** Headers *)

Lemma char_count_le bs : (char_count bs <= length bs)%nat.
Proof. apply length_filter. Qed.

Lemma length_pad_right w bs : length (pad_right w bs) = (length bs + (w - char_count bs))%nat.
Proof. unfold pad_right. by rewrite length_app, length_replicate. Qed.

(** What [write_member] appends. *)
Definition middle_columns : bytes :=
  pad_right 12 (dec 0) ++ pad_right 6 (dec 0) ++ pad_right 6 (dec 0) ++ pad_right 8 (str "644").

Definition member_header (name : bytes) (size : Z) : bytes :=
  pad_right 16 name ++ middle_columns ++ pad_right 10 (dec size).

Definition member_block (name data : bytes) : bytes :=
  member_header name (zlen data) ++ HEADER_TERMINATOR ++ data ++
  (if zlen data mod 2 =? 0 then [] else [x0a]).

(** The fields are at their columns. *)
Definition aligned (name : bytes) (size : Z) : Prop :=
  zlen (pad_right 16 name) = 16 /\ zlen (pad_right 10 (dec size)) = 10.

(** Every field is at least its width, so a header of the right total length has
  every field at its own: the length check rejects names that are not ASCII. *)
Lemma write_member_Ok out name data out' :
  write_member out name data = Ok out' ->
  out' = out ++ member_block name data /\ aligned name (zlen data).
Proof.
  unfold write_member. destruct (_ <? _); [done|].
  set (hdr := pad_right 16 name ++ _).
  assert (hdr = member_header name (zlen data)) as -> 
    by (unfold hdr, member_header, middle_columns; by rewrite <- !app_assoc).
  destruct (zlen (member_header name (zlen data)) =? MEMBER_HEADER_SIZE - 2) eqn:E; [|done].
  intros [= <-]. split; [done|].
  unfold member_header in E. rewrite !zlen_app in E.
  change (zlen middle_columns) with 32 in E. unfold MEMBER_HEADER_SIZE in E.
  unfold aligned, zlen in *. rewrite !length_pad_right in *.
  apply Z.eqb_eq in E. revert E. pose proof (char_count_le name).
  pose proof (char_count_le (dec (Z.of_nat (length data)))). lia.
Qed.

Lemma zlen_member_header name size : aligned name size -> zlen (member_header name size) = 58.
Proof.
  intros [H1 H2]. unfold member_header. rewrite zlen_app, H1, zlen_app, H2. done.
Qed.

Lemma zlen_member_block name data : aligned name (zlen data) ->
  zlen (member_block name data) = MEMBER_HEADER_SIZE + pad_even (zlen data).
Proof.
  intros H. unfold member_block. rewrite !zlen_app, zlen_member_header by done.
  change (zlen HEADER_TERMINATOR) with 2. unfold MEMBER_HEADER_SIZE, pad_even.
  pose proof (Z.mod_pos_bound (zlen data) 2 ltac:(lia)).
  destruct (Z.eqb_spec (zlen data mod 2) 0) as [->|]; [rewrite zlen_nil|rewrite zlen_cons, zlen_nil]; lia.
Qed.

(** ** Trimming *)

Definition visible (b : byte) : bool := between 0x21 0x7E b.

Lemma ws_front_ascii b rest : between 0 0x7F b = true -> visible b = true -> ws_front (b :: rest) = 0%nat.
Proof. destruct b; try done; by intros ? ?. Qed.

Lemma ws_back_visible s b : visible b = true -> ws_back (s ++ [b]) = 0%nat.
Proof.
  intros Hb. unfold ws_back. rewrite length_app. cbn [length].
  replace (length s + 1 - 1)%nat with (length s) by lia. rewrite drop_app_length.
  rewrite (bool_decide_eq_false_2 (ws_front [b] = 1%nat)) by (by destruct b). rewrite andb_false_r.
  destruct (bool_decide (2 <= length s + 1)%nat && _) eqn:E2.
  { exfalso. apply andb_true_iff in E2 as [H1%bool_decide_eq_true H2%bool_decide_eq_true].
    destruct s as [|a s _] using rev_ind; [simpl in H1; lia|].
    rewrite length_app in H2. cbn [length] in H2.
    replace (length s + 1 + 1 - 2)%nat with (length s) in H2 by lia.
    rewrite <- app_assoc, drop_app_length in H2. revert H2 Hb. clear.
    destruct a; try done; destruct b; done. }
  destruct (bool_decide (3 <= length s + 1)%nat && _) eqn:E3; [|done].
  exfalso. apply andb_true_iff in E3 as [H1%bool_decide_eq_true H2%bool_decide_eq_true].
  destruct s as [|a s _] using rev_ind; [simpl in H1; lia|].
  destruct s as [|c s _] using rev_ind; [simpl in H1; lia|].
  rewrite !length_app in H2. cbn [length] in H2.
  replace (length s + 1 + 1 + 1 - 3)%nat with (length s) in H2 by lia.
  rewrite <- !app_assoc, drop_app_length in H2. revert H2 Hb. clear.
  destruct c; try done; destruct a; try done; destruct b; done.
Qed.

Lemma ws_back_space s : ws_back (s ++ [space]) = 1%nat.
Proof.
  unfold ws_back. rewrite length_app. cbn [length].
  replace (length s + 1 - 1)%nat with (length s) by lia. rewrite drop_app_length.
  rewrite (bool_decide_eq_true_2 (1 <= length s + 1)%nat) by lia. done.
Qed.

Lemma trim_end_spaces s b k : visible b = true ->
  trim_end ((s ++ [b]) ++ replicate k space) = s ++ [b].
Proof.
  intros Hb. unfold trim_end. rewrite !length_app, length_replicate. cbn [length].
  assert (k <= length s + 1 + k)%nat as Hf by lia. revert Hf. generalize (length s + 1 + k)%nat.
  induction k as [|k IH]; intros fuel Hf.
  - rewrite app_nil_r. destruct fuel as [|fuel]; [done|]. simpl. by rewrite ws_back_visible.
  - destruct fuel as [|fuel]; [lia|]. rewrite replicate_S_end, app_assoc. cbn [trim_end_fuel].
    rewrite ws_back_space. rewrite length_app. cbn [length].
    rewrite Nat.add_sub, take_app_length. apply IH. lia.
Qed.

Lemma trim_visible s b k c s' : visible b = true -> visible c = true -> s ++ [b] = c :: s' ->
  trim ((s ++ [b]) ++ replicate k space) = s ++ [b].
Proof.
  intros Hb Hc E. unfold trim. assert (trim_start ((s ++ [b]) ++ replicate k space) =
    (s ++ [b]) ++ replicate k space) as ->; [|by apply trim_end_spaces].
  rewrite E. unfold trim_start. cbn [app length trim_start_fuel].
  rewrite ws_front_ascii; [done| |done]. unfold visible, between in *. pose proof (b2z_range c). lia.
Qed.

(** ** Decimal text *)

Definition is_digit (b : byte) : bool := between 48 57 b.

Lemma digit_char_is_digit d : 0 <= d < 10 -> is_digit (digit_char d) = true.
Proof.
  intros Hd. unfold is_digit, between, digit_char. rewrite (proj2 (Z.ltb_lt d 10)) by lia.
  rewrite z2b_small by lia. lia.
Qed.

Lemma digits_fuel_digits fuel z acc :
  Forall (fun b => is_digit b = true) acc -> Forall (fun b => is_digit b = true) (digits_fuel fuel 10 z acc).
Proof.
  revert z acc. induction fuel as [|fuel IH]; intros z acc Ha; [done|]. cbn [digits_fuel]. cbv zeta.
  assert (Forall (fun b => is_digit b = true) (digit_char (z mod 10) :: acc)) as H.
  { constructor; [|done]. apply digit_char_is_digit. apply Z.mod_pos_bound. lia. }
  destruct (z <? 10); auto.
Qed.

Lemma dec_digits z : Forall (fun b => is_digit b = true) (dec z).
Proof. by apply digits_fuel_digits. Qed.

Lemma dec_ends z : 0 <= z -> exists s b, dec z = s ++ [b] /\ is_digit b = true.
Proof.
  intros Hz. pose proof (dec_digits z) as Hd.
  destruct (digits_head (Z.to_nat (Z.log2 z)) z [] Hz) as (d & rest & _ & E).
  unfold dec, digits in *. rewrite E in Hd |- *.
  destruct (rest) as [|x l _] using rev_ind.
  - exists [], (digit_char d). split; [done|]. by inversion Hd.
  - exists (digit_char d :: l), x. split; [done|]. rewrite app_comm_cons in Hd.
    apply Forall_app in Hd as [_ Hd]. by inversion Hd.
Qed.

Lemma is_digit_visible b : is_digit b = true -> visible b = true.
Proof. unfold is_digit, visible, between. lia. Qed.

Lemma ascii_valid bs : Forall (fun b => is_digit b = true) bs -> utf8_valid bs = true.
Proof.
  intros H. apply utf8_valid_ascii. eapply Forall_impl; [exact H|]. unfold is_digit, between.
  intros b Hb. simpl in Hb. lia.
Qed.

Lemma spaces_valid k : utf8_valid (replicate k space) = true.
Proof. apply utf8_valid_ascii, Forall_replicate. by vm_compute. Qed.

(** ** Names *)

(** A stored name reads back from its padded field. *)
Definition name_field (name : bytes) : Prop :=
  utf8_valid name = true /\ exists s b, name = s ++ [b] /\ visible b = true.

Lemma read_name_field name : name_field name -> trim_end (utf8_lossy (pad_right 16 name)) = name.
Proof.
  intros (Hv & s & b & -> & Hb). unfold pad_right.
  rewrite utf8_lossy_valid by (apply utf8_valid_app; [done|apply spaces_valid]).
  by apply trim_end_spaces.
Qed.

Lemma read_size_field n : 0 <= n <= U64_MAX ->
  parse_usize (trim (utf8_lossy (pad_right 10 (dec n)))) = Some n.
Proof.
  intros Hn. unfold pad_right.
  rewrite utf8_lossy_valid by (apply utf8_valid_app; [apply ascii_valid, dec_digits|apply spaces_valid]).
  destruct (dec_ends n) as (s & b & E & Hb); [lia|]. pose proof (dec_digits n) as Hd.
  generalize (10 - char_count (dec n))%nat. intros k.
  assert (exists c s', s ++ [b] = c :: s' /\ is_digit c = true) as (c & s' & Es & Hc).
  { rewrite E in Hd. destruct s as [|c s]; [by exists b, []|]. exists c, (s ++ [b]). split; [done|].
    by inversion Hd. }
  rewrite E, (trim_visible s b k c s') by (done || by apply is_digit_visible). rewrite <- E.
  by apply parse_usize_dec.
Qed.

Lemma trim_end_matches_app c s : (forall x, last s = Some x -> x <> c) ->
  trim_end_matches c (s ++ [c]) = s.
Proof.
  intros Hl. unfold trim_end_matches. rewrite reverse_app.
  change (reverse [c]) with [c]. cbn [app drop_while_eq]. rewrite decide_True by done.
  destruct (reverse s) as [|x r] eqn:E; [by apply (f_equal reverse) in E; rewrite reverse_involutive in E|].
  cbn [drop_while_eq]. rewrite decide_False; [by rewrite <- E, reverse_involutive|].
  apply (f_equal reverse) in E. rewrite reverse_involutive, reverse_cons in E. subst s.
  apply Hl. by rewrite last_snoc.
Qed.

Lemma split_first_cut c s post : c ∉ s -> split_first c (s ++ c :: post) = s.
Proof.
  induction s as [|b s IH]; intros Hn; simpl; [by rewrite decide_True|].
  apply not_elem_of_cons in Hn as [Hb Hs]. rewrite decide_False by congruence. by rewrite IH.
Qed.

(** The first byte of valid text is not a continuation byte. *)
Lemma utf8_valid_head b rest : utf8_valid (b :: rest) = true -> between 0x80 0xBF b = false.
Proof.
  rewrite utf8_valid_cons. intros [H _]%andb_true_iff. unfold utf8_head in H.
  destruct (between 0 127 b) eqn:E1; [unfold between in *; lia|].
  destruct (between 194 223 b) eqn:E2; [unfold between in *; lia|].
  destruct (between 224 239 b) eqn:E3; [unfold between in *; lia|].
  destruct (between 240 244 b) eqn:E4; [unfold between in *; lia|done].
Qed.
