(* ===== verification/ArchiveRound.v ===== *)
(** * Writing an archive and reading it back *)

From S2P Require Import Prelude Text Archive.

(** ** Names *)

Record good_member (m : Member) : Prop := {
  gm_valid : utf8_valid (m_name m) = true;
  gm_nonempty : m_name m <> [];
  gm_noslash : slash ∉ m_name m;
  gm_symbols : Forall (fun s => utf8_valid s = true /\ x00 ∉ s) (m_symbols m)
}.

(** How a member's name is stored, given the finished long-name table. *)
Definition stored_as (table : bytes) (m : Member) (s : bytes) : Prop :=
  s = m_name m ++ [slash] \/
  exists pre post, table = pre ++ m_name m ++ [slash; x0a] ++ post /\ s = slash :: dec (zlen pre).

Lemma stored_as_app table ext m s : stored_as table m s -> stored_as (table ++ ext) m s.
Proof.
  intros [->|(pre & post & -> & ->)]; [by left|]. right. exists pre, (post ++ ext).
  split; [by rewrite <- !app_assoc|done].
Qed.

Lemma store_names_fold ms L ks :
  Forall (fun m => utf8_valid (m_name m) = true) ms -> utf8_valid L = true ->
  exists ext ks', foldl store_name (L, ks) ms = (L ++ ext, ks ++ ks') /\
    utf8_valid (L ++ ext) = true /\ Forall2 (stored_as (L ++ ext)) ms ks'.
Proof.
  intros Hms. revert L ks. induction Hms as [|m ms Hm _ IH]; intros L ks HL.
  { exists [], []. rewrite !app_nil_r. done. }
  cbn [foldl store_name]. destruct (zlen (m_name m) <=? 15).
  - destruct (IH L (ks ++ [m_name m ++ [slash]]) HL) as (ext & ks' & -> & Hv & HF).
    exists ext, ((m_name m ++ [slash]) :: ks'). rewrite <- app_assoc. split; [done|]. split; [done|].
    constructor; [by left|done].
  - destruct (IH (L ++ m_name m ++ [slash; x0a]) (ks ++ [slash :: dec (zlen L)])) as (ext & ks' & -> & Hv & HF).
    { apply utf8_valid_app; [done|]. by apply utf8_valid_app. }
    exists ((m_name m ++ [slash; x0a]) ++ ext), ((slash :: dec (zlen L)) :: ks').
    rewrite (app_assoc L _ ext), <- (app_assoc ks). split; [done|]. split; [done|]. constructor; [|done].
    right. exists L, ext. by rewrite <- !app_assoc.
Qed.

Lemma store_names_spec ms :
  Forall good_member ms ->
  exists ks, store_names ms = (fst (store_names ms), ks) /\ utf8_valid (fst (store_names ms)) = true /\
    Forall2 (stored_as (fst (store_names ms))) ms ks.
Proof.
  intros Hms. destruct (store_names_fold ms [] []) as (ext & ks & E & Hv & HF); [|done|].
  - eapply Forall_impl; [exact Hms|]. by intros m [].
  - unfold store_names. rewrite E. simpl in *. by exists ks.
Qed.

Lemma stored_name_field table m s : good_member m -> stored_as table m s -> name_field s.
Proof.
  intros [Hv _ _ _] [->|(pre & post & _ & ->)]; split.
  - by apply utf8_valid_app.
  - by exists (m_name m), slash.
  - change (slash :: dec (zlen pre)) with ([slash] ++ dec (zlen pre)).
    apply utf8_valid_app; [done|]. apply ascii_valid, dec_digits.
  - destruct (dec_ends (zlen pre) (zlen_nonneg pre)) as (d & b & -> & Hb).
    exists (slash :: d), b. split; [done|]. by apply is_digit_visible.
Qed.

(** A stored name is neither of the special names. *)
Lemma stored_not_special table m s :
  good_member m -> stored_as table m s -> s <> [slash] /\ s <> [slash; slash].
Proof.
  intros [_ Hne Hns _] [->|(pre & post & _ & ->)].
  - destruct (m_name m) as [|c n]; [done|]. apply not_elem_of_cons in Hns as [Hc _].
    split; intros [= E _]; congruence.
  - pose proof (dec_digits (zlen pre)) as Hd. destruct (dec_ends (zlen pre) (zlen_nonneg pre)) as (d & b & E & Hb).
    split; intros [= E2]; rewrite E2 in Hd; [by rewrite E in E2; destruct d|by inversion Hd].
Qed.

Lemma member_name_stored table m s :
  good_member m -> utf8_valid table = true -> zlen table <= U64_MAX -> stored_as table m s ->
  member_name table s = Ok (m_name m).
Proof.
  intros [Hv Hne Hns _] Ht Hl [->|(pre & post & Et & ->)].
  - assert (trim_end_matches slash (m_name m ++ [slash]) = m_name m) as Htrim.
    { apply trim_end_matches_app. intros x Hx ->. apply Hns. by apply last_Some_elem_of in Hx. }
    destruct (m_name m) as [|c n]; [done|]. apply not_elem_of_cons in Hns as [Hc _].
    unfold member_name. cbn [app] in *. rewrite decide_False by congruence. by rewrite Htrim.
  - unfold member_name. rewrite decide_True by done.
    rewrite Et in Hl. autorewrite with zlen in Hl. pose proof (zlen_nonneg pre). pose proof (zlen_nonneg (m_name m)).
    pose proof (zlen_nonneg post).
    rewrite parse_usize_dec by lia. cbn [ok_or]. rewrite result_bind_ok, utf8_lossy_valid by done.
    destruct (m_name m) as [|c n] eqn:E; [done|]. unfold str_get_from.
    pose proof (zlen_nonneg n). rewrite Et. autorewrite with zlen. rewrite (proj2 (Z.eqb_neq _ _)) by lia.
    rewrite (proj2 (Z.ltb_ge _ _)) by lia.
    assert (Z.to_nat (zlen pre) = length pre) as El by (unfold zlen; lia). rewrite El.
    cbn [app]. rewrite list_lookup_middle by done. rewrite (utf8_valid_head c n Hv).
    unfold zdrop. rewrite El, drop_app_length. cbn [fmap option_fmap option_map default].
    f_equal. change (c :: n ++ slash :: x0a :: post) with ((c :: n) ++ slash :: x0a :: post).
    by apply split_first_cut.
Qed.

(** ** The reading loop over blocks *)

(** What one member does to the reader's state. *)
Definition absorb (st : ReadState) (at_ : Z) (name data : bytes) : Result ArError ReadState :=
  if decide (name = [slash]) then
    ix ← parse_index data; Ok (mkRead (rd_members st) (Some ix) (rd_long_names st))
  else if decide (name = [slash; slash]) then Ok (mkRead (rd_members st) (rd_index st) data)
  else
    n ← member_name (rd_long_names st) name;
    Ok (mkRead (rd_members st ++ [mkParsed n at_ data]) (rd_index st) (rd_long_names st)).

Definition block_size (data : bytes) : Z := MEMBER_HEADER_SIZE + pad_even (zlen data).

Fixpoint absorb_all (st : ReadState) (at_ : Z) (l : list (bytes * bytes)) : Result ArError ReadState :=
  match l with
  | [] => Ok st
  | (n, d) :: l => st ← absorb st at_ n d; absorb_all st (at_ + block_size d) l
  end.

Definition good_block (p : bytes * bytes) : Prop := aligned p.1 (zlen p.2) /\ name_field p.1.

Definition blocks (l : list (bytes * bytes)) : bytes := concat ((fun p => member_block p.1 p.2) <$> l).

Lemma pad_even_mod n : 0 <= n -> (pad_even n) mod 2 = 0.
Proof.
  intros Hn. unfold pad_even. pose proof (Z.mod_pos_bound n 2 ltac:(lia)).
  pose proof (Z.div_mod n 2 ltac:(lia)). assert (n mod 2 = 0 \/ n mod 2 = 1) as [E|E] by lia; rewrite E.
  - by rewrite Z.add_0_r.
  - replace (n + 1) with ((n / 2 + 1) * 2) by lia. apply Z.mod_mul. lia.
Qed.

Lemma read_member_block pre name data post st :
  aligned name (zlen data) -> name_field name -> zlen pre mod 2 = 0 ->
  zlen (pre ++ member_block name data ++ post) <= U64_MAX ->
  read_member (pre ++ member_block name data ++ post) (zlen pre) st =
  (st' ← absorb st (zlen pre) name data; Ok (zlen pre + block_size data, st')).
Proof.
  intros Ha Hn He Hl. pose proof (zlen_member_header name (zlen data) Ha) as Hh.
  pose proof (zlen_nonneg pre). pose proof (zlen_nonneg data). pose proof (zlen_nonneg post).
  destruct Ha as [Ha1 Ha2]. rewrite !zlen_app, zlen_member_block in Hl by done.
  unfold MEMBER_HEADER_SIZE in *.
  assert (zlen data <= pad_even (zlen data)) as Hpad.
  { unfold pad_even. pose proof (Z.mod_pos_bound (zlen data) 2 ltac:(lia)). lia. }
  set (hdr := member_header name (zlen data) ++ HEADER_TERMINATOR).
  assert (zlen hdr = 60) as H60 by (unfold hdr; rewrite zlen_app, Hh; done).
  set (tail := if zlen data mod 2 =? 0 then [] else [x0a]).
  set (bs := pre ++ member_block name data ++ post).
  assert (bs = pre ++ hdr ++ (data ++ tail ++ post)) as Ebs.
  { unfold bs, member_block, hdr, tail. by rewrite <- !app_assoc. }
  assert (bs = (pre ++ hdr) ++ data ++ (tail ++ post)) as Ebs2 by (rewrite Ebs; by rewrite <- !app_assoc).
  assert (zlen bs = zlen pre + (60 + pad_even (zlen data) + zlen post)) as Hbs.
  { unfold bs. rewrite !zlen_app, zlen_member_block by done. unfold MEMBER_HEADER_SIZE. lia. }
  assert (zslice bs (zlen pre) 60 = hdr) as Es by (rewrite Ebs, <- H60; apply zslice_mid).
  unfold read_member, MEMBER_HEADER_SIZE. rewrite Es.
  assert (zslice hdr 58 2 = HEADER_TERMINATOR) as ->.
  { unfold hdr. rewrite <- Hh. rewrite <- (app_nil_r HEADER_TERMINATOR) at 1.
    change 2 with (zlen HEADER_TERMINATOR). apply zslice_mid. }
  rewrite decide_False by congruence.
  assert (ztake 16 hdr = pad_right 16 name) as ->.
  { unfold hdr, member_header, ztake. rewrite <- !app_assoc.
    replace (Z.to_nat 16) with (length (pad_right 16 name)) by (unfold zlen in Ha1; lia).
    apply take_app_length. }
  assert (zslice hdr 48 10 = pad_right 10 (dec (zlen data))) as ->.
  { unfold hdr, member_header. rewrite (app_assoc (pad_right 16 name)), <- app_assoc.
    assert (48 = zlen (pad_right 16 name ++ middle_columns)) as -> by (rewrite zlen_app, Ha1; done).
    rewrite <- Ha2. apply zslice_mid. }
  rewrite read_size_field by lia. cbn [ok_or]. rewrite result_bind_ok, read_name_field by done.
  rewrite (proj2 (Z.ltb_ge _ _)) by lia. rewrite (proj2 (Z.ltb_ge _ _)) by lia. cbn [orb].
  assert (zslice bs (zlen pre + 60) (zlen data) = data) as ->.
  { rewrite Ebs2, <- H60, <- zlen_app. apply zslice_mid. }
  assert (zlen pre + 60 + zlen data + (zlen pre + 60 + zlen data) mod 2 = zlen pre + block_size data) as ->.
  { unfold block_size, MEMBER_HEADER_SIZE, pad_even.
    assert ((zlen pre + 60 + zlen data) mod 2 = zlen data mod 2) as ->; [|lia].
    rewrite <- Zplus_mod_idemp_l. replace ((zlen pre + 60) mod 2) with 0; [done|].
    rewrite <- Zplus_mod_idemp_l, He. done. }
  unfold absorb. destruct (decide (name = [slash])); [by destruct (parse_index data)|].
  destruct (decide (name = [slash; slash])); [done|]. by destruct (member_name _ _).
Qed.

Lemma read_loop_blocks l pre st fuel :
  Forall good_block l -> zlen pre mod 2 = 0 -> zlen (pre ++ blocks l) <= U64_MAX -> (length l <= fuel)%nat ->
  read_loop fuel (pre ++ blocks l) (zlen pre) st = absorb_all st (zlen pre) l.
Proof.
  intros Hl. revert pre st fuel. induction Hl as [|[n d] l [Ha Hn] _ IH]; intros pre st fuel He Hb Hf.
  - rewrite app_nil_r. destruct fuel as [|fuel]; [done|]. cbn [read_loop absorb_all].
    by rewrite (proj2 (Z.leb_gt _ _)) by (unfold MEMBER_HEADER_SIZE; lia).
  - cbn [fst snd] in *. destruct fuel as [|fuel]; [simpl in Hf; lia|]. cbn [read_loop absorb_all].
    change (blocks ((n, d) :: l)) with (member_block n d ++ blocks l) in *.
    assert (zlen (member_block n d) = block_size d) as Hs by by apply zlen_member_block.
    assert (0 <= zlen d <= pad_even (zlen d)) as Hp.
    { pose proof (zlen_nonneg d). unfold pad_even. pose proof (Z.mod_pos_bound (zlen d) 2 ltac:(lia)). lia. }
    rewrite (proj2 (Z.leb_le _ _)).
    2: { rewrite !zlen_app, Hs. unfold block_size. pose proof (zlen_nonneg (blocks l)). lia. }
    rewrite read_member_block by done. destruct (absorb st (zlen pre) n d) as [st'|]; [|done].
    cbn [mbind result_bind]. rewrite <- Hs, <- zlen_app, app_assoc. apply IH.
    + rewrite zlen_app, Hs. unfold block_size, MEMBER_HEADER_SIZE.
      pose proof (pad_even_mod (zlen d) ltac:(lia)). Z.div_mod_to_equations. lia.
    + by rewrite <- app_assoc.
    + simpl in Hf. lia.
Qed.

(** ** The symbol index *)

Lemma split_on_entries (es : list (Z * bytes)) :
  Forall good_entry es -> split_on x00 (concat ((fun e => e.2 ++ [x00]) <$> es)) = (es.*2) ++ [[]].
Proof.
  induction 1 as [|e es (_ & _ & He) _ IH]; [done|].
  rewrite fmap_cons, concat_cons, <- app_assoc. cbn [app]. rewrite split_on_cut by done. by rewrite IH.
Qed.

Lemma parse_index_entries_spec data es i rest :
  Forall good_entry es -> 0 <= i ->
  (forall j e, es !! j = Some e -> zslice data (4 + 4 * (i + Z.of_nat j)) 4 = be_bytes 4 e.1) ->
  parse_index_entries data i (length es) ((es.*2) ++ rest) = Ok ((fun e => (e.2, e.1)) <$> es).
Proof.
  intros Hes. revert i. induction Hes as [|e es (Hu & Hv & _) _ IH]; intros i Hi Hd; [done|].
  cbn [length]. csimpl. cbn [app parse_index_entries].
  rewrite IH; [|lia|].
  2: { intros j e' Hj. rewrite <- (Hd (S j) e') by done. f_equal. lia. }
  rewrite result_bind_ok, utf8_lossy_valid by done.
  pose proof (Hd 0%nat e eq_refl) as Hd0. rewrite Z.add_0_r in Hd0. rewrite Hd0.
  by rewrite (be_val_u 4 32).
Qed.

Lemma zlen_offsets (es : list (Z * bytes)) : zlen (concat ((fun e => be_bytes 4 e.1) <$> es)) = 4 * zlen es.
Proof.
  rewrite (zlen_concat_rows _ 4); [unfold zlen; by rewrite length_fmap|].
  apply Forall_fmap, Forall_forall. intros e _. apply zlen_be_bytes.
Qed.

Lemma parse_index_payload es :
  Forall good_entry es -> zlen es < 2 ^ 32 ->
  parse_index (index_payload es) = Ok ((fun e => (e.2, e.1)) <$> es).
Proof.
  intros Hes Hl. unfold index_payload. set (offs := concat (_ <$> es)).
  set (names := concat ((fun e => e.2 ++ [x00]) <$> es)).
  pose proof (zlen_offsets es) as Ho. fold offs in Ho.
  pose proof (zlen_nonneg names). pose proof (zlen_nonneg es).
  unfold parse_index. rewrite !zlen_app, zlen_be_bytes, Ho.
  rewrite (proj2 (Z.ltb_ge _ _)) by lia.
  assert (ztake 4 (be_bytes 4 (zlen es) ++ offs ++ names) = be_bytes 4 (zlen es)) as ->.
  { unfold ztake. replace (Z.to_nat 4) with (length (be_bytes 4 (zlen es))) by by rewrite length_be_bytes.
    apply take_app_length. }
  rewrite (be_val_u 4 32) by (unfold in_u; lia). rewrite (proj2 (Z.ltb_ge _ _)) by lia.
  assert (zdrop (4 + 4 * zlen es) (be_bytes 4 (zlen es) ++ offs ++ names) = names) as ->.
  { unfold zdrop. rewrite app_assoc.
    replace (Z.to_nat (4 + 4 * zlen es)) with (length (be_bytes 4 (zlen es) ++ offs)); [apply drop_app_length|].
    rewrite length_app, length_be_bytes. unfold zlen in *. lia. }
  unfold names at 2. rewrite split_on_entries by done.
  replace (Z.to_nat (zlen es)) with (length es) by (unfold zlen; lia).
  apply parse_index_entries_spec; [done|lia|]. intros j e Hj.
  destruct (concat_row ((fun e => be_bytes 4 e.1) <$> es) 4 j (be_bytes 4 e.1)) as (post & Ec & Hp).
  { apply Forall_fmap, Forall_forall. intros x _. apply zlen_be_bytes. }
  { by rewrite list_lookup_fmap, Hj. }
  unfold offs. rewrite Ec, <- !app_assoc, (app_assoc (be_bytes 4 (zlen es))).
  assert (4 + 4 * (0 + Z.of_nat j) = zlen (be_bytes 4 (zlen es) ++
    concat (take j ((fun e => be_bytes 4 e.1) <$> es)))) as ->.
  { rewrite zlen_app, zlen_be_bytes, Hp. lia. }
  rewrite <- (zlen_be_bytes 4 e.1 : _ = 4). apply zslice_mid.
Qed.

(** ** The layout of a finished archive *)

Lemma length_member_offsets c ms : length (member_offsets c ms) = length ms.
Proof. revert c. induction ms as [|m ms IH]; intros c; simpl; [done|]. by rewrite IH. Qed.

Definition sum_names (es : list (Z * bytes)) : Z := sum_map (fun e => zlen e.2 + 1) es.

Lemma zlen_names es : zlen (concat ((fun e => e.2 ++ [x00]) <$> es)) = sum_names es.
Proof.
  unfold sum_names. induction es as [|e es IH]; [done|]. rewrite fmap_cons, concat_cons, zlen_app, IH.
  cbn [sum_map foldr]. by rewrite zlen_app.
Qed.

Lemma zlen_index_payload es : zlen (index_payload es) = 4 + 4 * zlen es + sum_names es.
Proof. unfold index_payload. rewrite !zlen_app, zlen_be_bytes, zlen_offsets, zlen_names. lia. Qed.

Lemma sum_map_app {A} (f : A -> Z) l k : sum_map f (l ++ k) = sum_map f l + sum_map f k.
Proof. induction l as [|a l IH]; [done|]. cbn [sum_map foldr app]. fold (sum_map f). unfold sum_map in *. lia. Qed.

Lemma entries_sums (f : Z -> Z) ms offs : length offs = length ms ->
  let es := concat (zip_with (fun m o => (fun s => (f o, s)) <$> m_symbols m) ms offs) in
  zlen es = sum_map (fun m => zlen (m_symbols m)) ms /\
  sum_names es = sum_map (fun m => sum_map (fun s => zlen s + 1) (m_symbols m)) ms.
Proof.
  revert offs. induction ms as [|m ms IH]; intros [|o offs] Hl; try done.
  cbn [zip_with]. cbv zeta. rewrite concat_cons, zlen_app. unfold sum_names. rewrite sum_map_app.
  destruct (IH offs) as [H1 H2]; [by injection Hl|]. cbv zeta in H1, H2. unfold sum_names in H2.
  rewrite H1, H2. cbn [sum_map foldr]. split.
  - f_equal. unfold zlen. by rewrite length_fmap.
  - f_equal. induction (m_symbols m) as [|s ss IHs]; [done|]. csimpl. cbn [sum_map foldr].
    unfold sum_map in *. simpl. by rewrite IHs.
Qed.

(** The placeholder length is the length of the index that is written. *)
Lemma index_payload_len_eq b : ar_index b <> Omitted ->
  index_payload_len b = zlen (index_payload (index_entries b)).
Proof.
  intros Hm. rewrite zlen_index_payload. unfold index_payload_len, index_entries. rewrite decide_False by done.
  set (offs := member_offsets _ _). set (first := default 0 (head offs)).
  pose proof (entries_sums (fun o => match ar_index b with Stale => first | _ => o end)
    (ar_members b) offs (length_member_offsets _ _)) as [H1 H2]. cbv zeta in H1, H2.
  rewrite zlen_app. unfold sum_names in *. rewrite sum_map_app, H1, H2.
  destruct (ar_index b); cbn [decide decide_rel]; try done;
    rewrite ?decide_False by done; rewrite ?decide_True by done; cbn [sum_map foldr snd];
    autorewrite with zlen; unfold zlen; simpl; lia.
Qed.

(** The blocks of a finished archive. *)
Definition index_block (b : ArchiveBuilder) : list (bytes * bytes) :=
  if decide (ar_index b = Omitted) then [] else [([slash], index_payload (index_entries b))].
Definition long_block (b : ArchiveBuilder) : list (bytes * bytes) :=
  let table := fst (store_names (ar_members b)) in
  match table with [] => [] | _ => [([slash; slash], table)] end.
Definition member_blocks (ms : list Member) (stored : list bytes) : list (bytes * bytes) :=
  zip_with (fun m s => (s, m_data m)) ms stored.
Definition all_blocks (b : ArchiveBuilder) (stored : list bytes) : list (bytes * bytes) :=
  index_block b ++ long_block b ++ member_blocks (ar_members b) stored.

Definition all_aligned (l : list (bytes * bytes)) : Prop := Forall (fun p => aligned p.1 (zlen p.2)) l.

Lemma write_members_Ok ms ks out out' :
  try_fold (fun out p => write_member out p.2 (m_data p.1)) (zip ms ks) out = Ok out' ->
  out' = out ++ blocks (member_blocks ms ks) /\ all_aligned (member_blocks ms ks).
Proof.
  unfold all_aligned, member_blocks. revert ks out. induction ms as [|m ms IH]; intros [|s ks] out H; simpl in H;
    try (injection H as <-; by rewrite app_nil_r).
  apply result_bind_Ok_inv in H as (o & [-> Ha]%write_member_Ok & H). apply IH in H as [-> HF].
  cbn [zip_with]. split; [|by constructor]. unfold blocks. by rewrite fmap_cons, concat_cons, <- app_assoc.
Qed.

Lemma payload_positive b : (0 <? index_payload_len b) = negb (bool_decide (ar_index b = Omitted)).
Proof.
  destruct (decide (ar_index b = Omitted)) as [E|E].
  - unfold index_payload_len. rewrite decide_True, bool_decide_eq_true_2 by done. done.
  - rewrite index_payload_len_eq, bool_decide_eq_false_2 by done. rewrite zlen_index_payload.
    assert (0 <= sum_names (index_entries b)).
    { unfold sum_names. induction (index_entries b) as [|e es IH]; [done|]. cbn [sum_map foldr].
      unfold sum_map in *. pose proof (zlen_nonneg e.2). lia. }
    pose proof (zlen_nonneg (index_entries b)). apply Z.ltb_lt. lia.
Qed.

Lemma archive_build_Ok b out :
  Forall good_member (ar_members b) -> ar_magic_override b = None -> ar_truncate_to b = None ->
  archive_build b = Ok out ->
  exists stored, Forall2 (stored_as (fst (store_names (ar_members b)))) (ar_members b) stored /\
    utf8_valid (fst (store_names (ar_members b))) = true /\
    out = ARCHIVE_MAGIC ++ blocks (all_blocks b stored) /\
    all_aligned (all_blocks b stored).
Proof.
  intros Hg Hm Ht. destruct (store_names_spec _ Hg) as (stored & E & Hv & HF).
  unfold archive_build. rewrite E, Hm, Ht, payload_positive. cbn [default]. intros H.
  apply result_bind_Ok_inv in H as (o1 & H1 & H). apply result_bind_Ok_inv in H as (o2 & H2 & H).
  apply result_bind_Ok_inv in H as (o3 & [-> Ha3]%write_members_Ok & [= <-]).
  exists stored. split; [done|]. split; [done|].
  assert (exists l1, o1 = ARCHIVE_MAGIC ++ blocks l1 /\ all_aligned l1 /\ l1 = index_block b)
    as (l1 & -> & Ha1 & El1).
  { case_bool_decide as Em; cbn [negb] in H1.
    - injection H1 as <-. exists []. unfold index_block. rewrite app_nil_r, decide_True by done. by split; [|split; [constructor|]].
    - apply write_member_Ok in H1 as [-> Ha]. eexists [_]. unfold index_block. rewrite decide_False by done.
      split; [|split; [|done]]; [by rewrite <- (app_nil_r (member_block _ _))|by constructor]. }
  set (t := fst (store_names (ar_members b))) in *.
  assert (exists l2, o2 = (ARCHIVE_MAGIC ++ blocks l1) ++ blocks l2 /\
    all_aligned l2 /\ l2 = long_block b) as (l2 & -> & Ha2 & El2).
  { unfold long_block. fold t. destruct t as [|c t'] eqn:Et.
    - injection H2 as <-. exists []. rewrite app_nil_r. by split; [|split; [constructor|]].
    - apply write_member_Ok in H2 as [-> Ha]. eexists [_].
      split; [|split; [|done]]; [by rewrite <- (app_nil_r (member_block _ _))|by constructor]. }
  assert (all_blocks b stored = l1 ++ l2 ++ member_blocks (ar_members b) stored)
    as -> by (unfold all_blocks; by rewrite El1, El2).
  split.
  - unfold blocks. by rewrite !fmap_app, !concat_app, <- !app_assoc.
  - unfold all_aligned. by rewrite !Forall_app.
Qed.

Lemma zlen_blocks_cons n d l : aligned n (zlen d) -> zlen (blocks ((n, d) :: l)) = block_size d + zlen (blocks l).
Proof.
  intros Ha. unfold blocks. rewrite fmap_cons, concat_cons, zlen_app. cbn [fst snd].
  by rewrite zlen_member_block.
Qed.

Lemma block_size_pos d : 60 + zlen d <= block_size d.
Proof.
  unfold block_size, MEMBER_HEADER_SIZE, pad_even. pose proof (Z.mod_pos_bound (zlen d) 2 ltac:(lia)). lia.
Qed.

Definition parsed_members (at_ : Z) (ms : list Member) : list ParsedMember :=
  zip_with (fun m o => mkParsed (m_name m) o (m_data m)) ms (member_offsets at_ ms).

Lemma zlen_blocks_app l k : zlen (blocks (l ++ k)) = zlen (blocks l) + zlen (blocks k).
Proof. unfold blocks. by rewrite fmap_app, concat_app, zlen_app. Qed.

Lemma zlen_blocks_length l : all_aligned l -> zlen l <= zlen (blocks l).
Proof.
  induction 1 as [|[n d] l Hp _ IH]; [done|]. rewrite zlen_blocks_cons by done.
  rewrite zlen_cons. pose proof (block_size_pos d). pose proof (zlen_nonneg d). lia.
Qed.

Lemma absorb_all_app l k st at_ : all_aligned l ->
  absorb_all st at_ (l ++ k) = st' ← absorb_all st at_ l; absorb_all st' (at_ + zlen (blocks l)) k.
Proof.
  intros Ha. revert st at_. induction Ha as [|[n d] l Hp _ IH]; intros st at_.
  { cbn [app absorb_all]. by rewrite result_bind_ok, Z.add_0_r. }
  cbn [app absorb_all]. destruct (absorb st at_ n d) as [st'|]; [|done].
  rewrite !result_bind_ok, IH, zlen_blocks_cons by done. by rewrite Z.add_assoc.
Qed.

Lemma absorb_members table ms ks acc ix at_ :
  utf8_valid table = true -> zlen table <= U64_MAX -> Forall good_member ms ->
  Forall2 (stored_as table) ms ks -> all_aligned (member_blocks ms ks) ->
  0 <= at_ -> at_ + zlen (blocks (member_blocks ms ks)) < 2 ^ 32 ->
  absorb_all (mkRead acc ix table) at_ (member_blocks ms ks) =
  Ok (mkRead (acc ++ parsed_members at_ ms) ix table).
Proof.
  intros Hv Hl Hg HF. unfold member_blocks.
  revert acc at_ Hg. induction HF as [|m s ms ks Hs _ IH]; intros acc at_ Hg Ha H0 Hb.
  { by rewrite app_nil_r. }
  inversion_clear Hg as [|?? Hm Hms]. cbn [zip_with] in *. inversion_clear Ha as [|?? Ha1 Ha2].
  rewrite zlen_blocks_cons in Hb by done. pose proof (block_size_pos (m_data m)) as Hp.
  pose proof (zlen_nonneg (m_data m)). pose proof (zlen_nonneg (blocks (zip_with (fun m s => (s, m_data m)) ms ks))).
  cbn [absorb_all]. unfold absorb. destruct (stored_not_special table m s Hm Hs) as [Hn1 Hn2].
  rewrite !decide_False by done. cbn [rd_long_names rd_members rd_index].
  rewrite (member_name_stored table m s) by done. rewrite !result_bind_ok.
  rewrite IH by (done || lia). rewrite <- app_assoc. unfold parsed_members. cbn [member_offsets zip_with app].
  do 5 f_equal. unfold wrap_u. rewrite Z.mod_small; [done|]. lia.
Qed.

Lemma member_offsets_u32 c ms : Forall (in_u 32) (member_offsets c ms).
Proof.
  revert c. induction ms as [|m ms IH]; intros c; constructor; [|apply IH]. apply Z.mod_pos_bound. lia.
Qed.

Lemma good_entries b : Forall good_member (ar_members b) -> Forall good_entry (index_entries b).
Proof.
  intros Hg. unfold index_entries. set (offs := member_offsets _ _).
  pose proof (member_offsets_u32 (first_cursor b) (ar_members b)) as Hu. fold offs in Hu.
  assert (in_u 32 (default 0 (head offs))) as Hf by (destruct Hu; [by split|done]).
  apply Forall_app. split.
  - apply Forall_concat, Forall_lookup. intros i l. rewrite lookup_zip_with_Some.
    intros (m & o & -> & Hm & Ho). apply Forall_fmap. pose proof (Forall_lookup_1 _ _ _ _ Hg Hm) as [_ _ _ Hs].
    eapply Forall_impl; [exact Hs|]. intros s [Hv Hn]. split; [|done]. simpl.
    pose proof (Forall_lookup_1 _ _ _ _ Hu Ho). by destruct (ar_index b).
  - destruct (decide _); [|done]. constructor; [|done]. split; [done|]. split; [done|].
    by apply (bool_decide_unpack _).
Qed.

Definition parsed_index (b : ArchiveBuilder) : option (list (bytes * Z)) :=
  if decide (ar_index b = Omitted) then None else Some ((fun e => (e.2, e.1)) <$> index_entries b).

Lemma sum_names_nonneg es : 0 <= sum_names es.
Proof.
  unfold sum_names. induction es as [|e es IH]; [done|]. cbn [sum_map foldr].
  unfold sum_map in *. pose proof (zlen_nonneg e.2). lia.
Qed.

Lemma absorb_index b at_ : Forall good_member (ar_members b) -> all_aligned (index_block b) ->
  zlen (blocks (index_block b)) < 2 ^ 32 ->
  absorb_all (mkRead [] None []) at_ (index_block b) = Ok (mkRead [] (parsed_index b) []).
Proof.
  intros Hg Ha Hl. unfold parsed_index, index_block in *. destruct (decide (ar_index b = Omitted)); [done|].
  inversion_clear Ha as [|?? Ha1 _]. rewrite zlen_blocks_cons in Hl by done.
  cbn [absorb_all]. unfold absorb. rewrite decide_True by done. rewrite parse_index_payload; [done| |].
  - by apply good_entries.
  - pose proof (block_size_pos (index_payload (index_entries b))) as Hp. rewrite zlen_index_payload in Hp.
    pose proof (sum_names_nonneg (index_entries b)). pose proof (zlen_nonneg (blocks [])). lia.
Qed.

Lemma absorb_long b at_ ix :
  absorb_all (mkRead [] ix []) at_ (long_block b) = Ok (mkRead [] ix (fst (store_names (ar_members b)))).
Proof. unfold long_block. cbv zeta. by destruct (fst (store_names (ar_members b))). Qed.

Lemma first_cursor_eq b : all_aligned (index_block b) -> all_aligned (long_block b) ->
  first_cursor b = zlen ARCHIVE_MAGIC + zlen (blocks (index_block b)) + zlen (blocks (long_block b)).
Proof.
  intros H1 H2. unfold first_cursor. rewrite payload_positive. f_equal; [f_equal|].
  - unfold index_block in *. destruct (decide (ar_index b = Omitted)) as [|Hn].
    { by rewrite bool_decide_eq_true_2. }
    rewrite bool_decide_eq_false_2 by done. inversion_clear H1 as [|?? Ha _].
    rewrite zlen_blocks_cons by done. rewrite Z.add_0_r. unfold block_size. by rewrite index_payload_len_eq.
  - unfold long_block in *. cbv zeta in *. destruct (fst (store_names (ar_members b))); [done|].
    inversion_clear H2 as [|?? Ha _]. rewrite zlen_blocks_cons by done. by rewrite Z.add_0_r.
Qed.

Lemma all_blocks_good b ks :
  Forall good_member (ar_members b) -> Forall2 (stored_as (fst (store_names (ar_members b)))) (ar_members b) ks ->
  all_aligned (all_blocks b ks) -> Forall good_block (all_blocks b ks).
Proof.
  intros Hg HF Ha. apply Forall_forall. intros p Hp. unfold all_aligned in Ha. rewrite Forall_forall in Ha.
  split; [by apply Ha|]. unfold all_blocks, index_block, long_block in Hp. cbv zeta in Hp.
  rewrite !elem_of_app in Hp. destruct Hp as [Hp|[Hp|Hp]].
  - destruct (decide _); [by apply elem_of_nil in Hp|]. apply list_elem_of_singleton in Hp as ->.
    split; [done|]. by exists [], slash.
  - clear HF. destruct (fst (store_names (ar_members b))); [by apply elem_of_nil in Hp|].
    apply list_elem_of_singleton in Hp as ->. split; [done|]. by exists [slash], slash.
  - apply list_elem_of_lookup in Hp as [i Hi]. apply lookup_zip_with_Some in Hi as (m & s & -> & Hmi & Hsi).
    eapply stored_name_field; [by apply (Forall_lookup_1 _ _ _ _ Hg Hmi)|].
    destruct (Forall2_lookup_l _ _ _ _ _ HF Hmi) as (s' & Hs' & Hst). simplify_eq. exact Hst.
Qed.

(** Reading back what was built. *)
Lemma archive_parse_build b out :
  Forall good_member (ar_members b) -> ar_magic_override b = None -> ar_truncate_to b = None ->
  archive_build b = Ok out -> zlen out < 2 ^ 32 ->
  archive_parse out = Ok (parsed_members (first_cursor b) (ar_members b), parsed_index b).
Proof.
  intros Hg Hm Ht Hb Hlen. destruct (archive_build_Ok b out Hg Hm Ht Hb) as (ks & HF & Hv & Eo & Ha).
  pose proof (all_blocks_good b ks Hg HF Ha) as Hgb.
  pose proof (zlen_blocks_length _ Ha) as Hcount.
  assert (zlen out = zlen ARCHIVE_MAGIC + zlen (blocks (all_blocks b ks))) as Hlo by by rewrite Eo, zlen_app.
  change (zlen ARCHIVE_MAGIC) with 8 in Hlo.
  unfold archive_parse. rewrite decide_False by (rewrite Eo; intros Hc; by apply Hc).
  rewrite Eo at 2. rewrite read_loop_blocks; [|done|done| |].
  2: { rewrite <- Eo. unfold U64_MAX. lia. }
  2: { unfold zlen in *. lia. }
  unfold all_blocks in *. unfold all_aligned in Ha. rewrite !Forall_app in Ha. destruct Ha as (Ha1 & Ha2 & Ha3).
  rewrite !zlen_blocks_app in Hlo. pose proof (first_cursor_eq b Ha1 Ha2) as Hc.
  change (zlen ARCHIVE_MAGIC) with 8 in Hc.
  pose proof (zlen_nonneg (blocks (index_block b))). pose proof (zlen_nonneg (blocks (long_block b))).
  pose proof (zlen_nonneg (blocks (member_blocks (ar_members b) ks))).
  rewrite absorb_all_app, absorb_index by (done || lia). rewrite result_bind_ok.
  rewrite absorb_all_app, absorb_long, result_bind_ok by done.
  change (zlen ARCHIVE_MAGIC) with 8. rewrite <- Hc.
  assert (zlen (fst (store_names (ar_members b))) <= U64_MAX) as Ht'.
  { unfold long_block in *. cbv zeta in *. destruct (fst (store_names (ar_members b))) as [|c t]; [done|].
    inversion_clear Ha2 as [|?? Hal _]. rewrite zlen_blocks_cons in Hlo by done.
    pose proof (block_size_pos (c :: t)). pose proof (zlen_nonneg (blocks [])). unfold U64_MAX. lia. }
  rewrite absorb_members by (done || lia). done.
Qed.

(** ** Which member an index entry names *)

Lemma concat_zip_In {A B C} (f : A -> B -> list C) l k x :
  x ∈ concat (zip_with f l k) <-> exists i a b, l !! i = Some a /\ k !! i = Some b /\ x ∈ f a b.
Proof.
  rewrite list_elem_of_In, in_concat. split.
  - intros (c & Hc & Hx). apply list_elem_of_In, list_elem_of_lookup in Hc as [i Hi].
    apply lookup_zip_with_Some in Hi as (a & b & -> & Ha & Hb). exists i, a, b. by rewrite list_elem_of_In.
  - intros (i & a & b & Ha & Hb & Hx). exists (f a b). rewrite <- !list_elem_of_In. split; [|done].
    apply list_elem_of_lookup. exists i. apply lookup_zip_with_Some. eauto.
Qed.

Lemma parsed_members_lookup c ms i pm :
  parsed_members c ms !! i = Some pm <->
  exists m o, ms !! i = Some m /\ member_offsets c ms !! i = Some o /\ pm = mkParsed (m_name m) o (m_data m).
Proof. unfold parsed_members. rewrite lookup_zip_with_Some. naive_solver. Qed.

Lemma write_member_ascii out name data out' :
  write_member out name data = Ok out' -> (char_count name = length name).
Proof.
  intros (_ & [H _])%write_member_Ok. unfold zlen in H. rewrite length_pad_right in H.
  pose proof (char_count_le name). lia.
Qed.

Lemma store_fold_ext ms L ks L' ks' :
  foldl store_name (L, ks) ms = (L', ks') -> exists r, ks' = ks ++ r.
Proof.
  revert L ks. induction ms as [|y ms IH]; intros L ks E; simpl in E.
  - injection E as _ <-. exists []. by rewrite app_nil_r.
  - destruct (zlen (m_name y) <=? 15); apply IH in E as [r ->]; eexists; by rewrite <- app_assoc.
Qed.

(** A short name is stored at its member's position. *)
Lemma store_fold_short m ms L ks L' ks' j :
  zlen (m_name m) <= 15 -> foldl store_name (L, ks) ms = (L', ks') -> ms !! j = Some m ->
  ks' !! (length ks + j)%nat = Some (m_name m ++ [slash]).
Proof.
  intros Hs. revert L ks j. induction ms as [|x ms IH]; intros L ks j E Hj; [done|].
  cbn [foldl store_name] in E. destruct j as [|j]; simpl in Hj.
  - injection Hj as ->. rewrite (proj2 (Z.leb_le _ _)) in E by done.
    apply store_fold_ext in E as [r ->]. rewrite Nat.add_0_r, <- app_assoc. by apply list_lookup_middle.
  - destruct (zlen (m_name x) <=? 15); (eapply IH in E; [|exact Hj]); rewrite length_app in E;
      cbn [length] in E; by replace (length ks + S j)%nat with (length ks + 1 + j)%nat by lia.
Qed.

(** ** Properties *)

(** C27: Building an archive and parsing it gives back every member in order, with
  its name (short or long), its header's offset and its bytes, and the symbol
  index exactly as the mode asked for it (none when it is omitted). *)
Theorem archive_members_survive b out :
  Forall good_member (ar_members b) -> ar_magic_override b = None -> ar_truncate_to b = None ->
  archive_build b = Ok out -> zlen out < 2 ^ 32 ->
  archive_parse out = Ok (parsed_members (first_cursor b) (ar_members b), parsed_index b).
Proof. apply archive_parse_build. Qed.

(** In the default mode the index answers which member defines a symbol: a
  symbol is listed at an offset exactly when a member whose header is at that
  offset lists it. *)
Theorem archive_index_resolves b out :
  Forall good_member (ar_members b) -> ar_magic_override b = None -> ar_truncate_to b = None ->
  ar_index b = Correct -> archive_build b = Ok out -> zlen out < 2 ^ 32 ->
  exists pms ix, archive_parse out = Ok (pms, Some ix) /\
    forall s o, (s, o) ∈ ix <->
      exists i m pm, ar_members b !! i = Some m /\ pms !! i = Some pm /\ pm_offset pm = o /\ s ∈ m_symbols m.
Proof.
  intros Hg Hm Ht Hi Hb Hl. pose proof (archive_parse_build b out Hg Hm Ht Hb Hl) as Hp.
  unfold parsed_index in Hp. rewrite Hi, decide_False in Hp by done.
  eexists _, _. split; [exact Hp|]. intros s o.
  unfold index_entries. rewrite Hi, decide_False, app_nil_r by done.
  rewrite list_elem_of_fmap. split.
  - intros ([o' s'] & [= -> ->] & Hin). apply concat_zip_In in Hin as (i & m & o2 & Hmi & Hoi & Hin).
    apply list_elem_of_fmap in Hin as (s2 & [= -> ->] & Hs). exists i, m, (mkParsed (m_name m) o2 (m_data m)).
    split; [done|]. split; [|done]. apply parsed_members_lookup. eauto.
  - intros (i & m & pm & Hmi & Hpm & <- & Hs). apply parsed_members_lookup in Hpm as (m' & o' & Hm' & Ho & ->).
    simplify_eq. exists (o', s). split; [done|]. apply concat_zip_In. exists i, m, o'.
    split; [done|]. split; [done|]. apply list_elem_of_fmap. eauto.
Qed.

(** A stale index points every symbol at the first member's header, wherever
  the symbol is really defined. *)
Theorem archive_stale_index b out :
  Forall good_member (ar_members b) -> ar_magic_override b = None -> ar_truncate_to b = None ->
  ar_index b = Stale -> archive_build b = Ok out -> zlen out < 2 ^ 32 ->
  exists pms ix, archive_parse out = Ok (pms, Some ix) /\
    (forall s, s ∈ ix.*1 <-> exists m, m ∈ ar_members b /\ s ∈ m_symbols m) /\
    forall s o, (s, o) ∈ ix -> exists pm, head pms = Some pm /\ pm_offset pm = o.
Proof.
  intros Hg Hm Ht Hi Hb Hl. pose proof (archive_parse_build b out Hg Hm Ht Hb Hl) as Hp.
  unfold parsed_index in Hp. rewrite Hi, decide_False in Hp by done.
  eexists _, _. split; [exact Hp|]. unfold index_entries. rewrite Hi, decide_False, app_nil_r by done.
  set (offs := member_offsets (first_cursor b) (ar_members b)). split.
  - intros s. rewrite <- list_fmap_compose, list_elem_of_fmap. split.
    + intros ([o' s'] & -> & Hin). apply concat_zip_In in Hin as (i & m & o2 & Hmi & _ & Hin).
      apply list_elem_of_fmap in Hin as (s2 & [= -> ->] & Hs). exists m.
      split; [by apply list_elem_of_lookup_2 in Hmi|done].
    + intros (m & [i Hmi]%list_elem_of_lookup & Hs). exists (default 0 (head offs), s). split; [done|].
      destruct (lookup_lt_is_Some_2 offs i) as [o Ho].
      { unfold offs. rewrite length_member_offsets. by apply lookup_lt_Some in Hmi. }
      apply concat_zip_In. exists i, m, o. split; [done|]. split; [done|]. apply list_elem_of_fmap. eauto.
  - intros s o (e & [= -> ->] & Hin)%list_elem_of_fmap.
    apply concat_zip_In in Hin as (i & m & o2 & Hmi & _ & Hin).
    apply list_elem_of_fmap in Hin as (s2 & -> & _). unfold offs. revert Hmi.
    destruct (ar_members b) as [|m0 ms]; [done|]. intros _. by eexists.
Qed.

(** The archive writer takes a short member name only if it is ASCII: the
  header pads to sixteen characters and then insists on sixteen bytes, so a
  name with a longer UTF-8 encoding is refused. *)
Theorem archive_short_names_are_ascii b out m :
  archive_build b = Ok out -> m ∈ ar_members b -> zlen (m_name m) <= 15 ->
  char_count (m_name m) = length (m_name m).
Proof.
  unfold archive_build. destruct (store_names (ar_members b)) as [table stored] eqn:Es.
  intros H [i Hi]%list_elem_of_lookup Hshort.
  apply result_bind_Ok_inv in H as (o1 & _ & H). apply result_bind_Ok_inv in H as (o2 & _ & H).
  apply result_bind_Ok_inv in H as (o3 & [_ Ha]%write_members_Ok & _).
  pose proof (store_fold_short m (ar_members b) [] [] table stored i Hshort Es Hi) as Hst. simpl in Hst. unfold all_aligned in Ha.
  assert (member_blocks (ar_members b) stored !! i = Some (m_name m ++ [slash], m_data m)) as Hb.
  { apply lookup_zip_with_Some. eauto. }
  pose proof (Forall_lookup_1 _ _ _ _ Ha Hb) as [Hal _]. cbn [fst] in Hal. unfold zlen in Hal.
  rewrite length_pad_right in Hal. pose proof (char_count_le (m_name m ++ [slash])).
  assert (char_count (m_name m ++ [slash]) = (char_count (m_name m) + 1)%nat) as Hcc.
  { unfold char_count. rewrite filter_app, length_app. done. }
  rewrite length_app in *. cbn [length] in *. rewrite Hcc in *. pose proof (char_count_le (m_name m)). lia.
Qed.

(** ** A concrete archive *)

Definition sample_archive (mode : IndexMode) : ArchiveBuilder :=
  ar_with_index mode
    (ar_member (mkMember (str "a_very_long_member_name.o") [x04; x05; x06; x07] [str "beta"; str "gamma"])
      (ar_member (mkMember (str "a.o") [x01; x02; x03] [str "alpha"]) archive_new)).

Definition sample_archive_bytes (mode : IndexMode) : bytes :=
  default [] (to_option (archive_build (sample_archive mode))).

Lemma sample_archive_good mode : Forall good_member (ar_members (sample_archive mode)).
Proof.
  assert (forall s, utf8_valid s = true -> bool_decide (x00 ∈ s) = false -> utf8_valid s = true /\ x00 ∉ s)
    as Hsym by (intros s ? ?%bool_decide_eq_false; done).
  apply Forall_cons_2; [|apply Forall_cons_2; [|apply Forall_nil_2]];
    (split; [done|done|apply (bool_decide_unpack _); vm_compute; exact I|]).
  - apply Forall_cons_2; [by apply Hsym|apply Forall_nil_2].
  - apply Forall_cons_2; [by apply Hsym|]. apply Forall_cons_2; [by apply Hsym|apply Forall_nil_2].
Qed.

Lemma sample_archive_built mode :
  archive_build (sample_archive mode) = Ok (sample_archive_bytes mode) /\
  zlen (sample_archive_bytes mode) < 2 ^ 32.
Proof. by destruct mode; vm_compute. Qed.

Lemma archive_members_survive_witness :
  archive_parse (sample_archive_bytes Phantom) =
  Ok (parsed_members (first_cursor (sample_archive Phantom)) (ar_members (sample_archive Phantom)),
      parsed_index (sample_archive Phantom)).
Proof.
  apply archive_members_survive; [apply sample_archive_good|done|done|apply sample_archive_built..].
Defined.

Lemma archive_index_resolves_witness :
  exists pms ix, archive_parse (sample_archive_bytes Correct) = Ok (pms, Some ix) /\
    forall s o, (s, o) ∈ ix <->
      exists i m pm, ar_members (sample_archive Correct) !! i = Some m /\ pms !! i = Some pm /\
        pm_offset pm = o /\ s ∈ m_symbols m.
Proof.
  apply (archive_index_resolves (sample_archive Correct));
    [apply sample_archive_good|done|done|done|apply sample_archive_built..].
Defined.

Lemma archive_stale_index_witness :
  exists pms ix, archive_parse (sample_archive_bytes Stale) = Ok (pms, Some ix) /\
    (forall s, s ∈ ix.*1 <-> exists m, m ∈ ar_members (sample_archive Stale) /\ s ∈ m_symbols m) /\
    forall s o, (s, o) ∈ ix -> exists pm, head pms = Some pm /\ pm_offset pm = o.
Proof.
  apply (archive_stale_index (sample_archive Stale));
    [apply sample_archive_good|done|done|done|apply sample_archive_built..].
Defined.

(** The name [é.o] is refused. *)
Definition accented : ArchiveBuilder := ar_member (mkMember [xc3; xa9; x2e; x6f] [] []) archive_new.

Example accented_refused : is_ok (archive_build accented) = false.
Proof. by vm_compute. Qed.

Lemma archive_short_names_are_ascii_witness :
  char_count (str "a.o") = length (str "a.o") /\ ~ (exists out, archive_build accented = Ok out).
Proof.
  split.
  - apply (archive_short_names_are_ascii (sample_archive Correct) (sample_archive_bytes Correct)
      (mkMember (str "a.o") [x01; x02; x03] [str "alpha"])); [apply sample_archive_built|by left|done].
  - intros [out H]. pose proof (archive_short_names_are_ascii accented out
      (mkMember [xc3; xa9; x2e; x6f] [] []) H) as Hc.
    by discriminate (Hc ltac:(by left) ltac:(done)).
Defined.
