(* ===== verification/Asm.v ===== *)
(** * Hand-assembled x86-64 code ([linktest/src/asm/mod.rs])

  [Code] is the block being assembled: its bytes and the relocations its
  references need.  Every method of the source's [impl Code] is a function from
  the block before the call to the block after it (the source returns
  [&mut self], so calls chain the same way).  Names of symbols and sections are
  their bytes, as in the object writer. *)

From S2P Require Import Prelude Elf ElfWrite.

(** ** Registers and ModRM bytes *)

Inductive Reg : Type :=
| Rax | Rcx | Rdx | Rbx | Rsp | Rbp | Rsi | Rdi.

#[global] Instance Reg_eq_dec : EqDecision Reg.
Proof. solve_decision. Defined.

Definition num (r : Reg) : Z :=
  match r with
  | Rax => 0 | Rcx => 1 | Rdx => 2 | Rbx => 3
  | Rsp => 4 | Rbp => 5 | Rsi => 6 | Rdi => 7
  end.

Definition name64 (r : Reg) : string :=
  match r with
  | Rax => "rax" | Rcx => "rcx" | Rdx => "rdx" | Rbx => "rbx"
  | Rsp => "rsp" | Rbp => "rbp" | Rsi => "rsi" | Rdi => "rdi"
  end%string.

Definition REX_W : byte := x48.

Definition modrm_reg (reg rm : Reg) : byte :=
  z2b (Z.lor (Z.lor 0xc0 (Z.shiftl (num reg) 3)) (num rm)).

Definition modrm_rip (reg : Reg) : byte :=
  z2b (Z.lor (Z.shiftl (num reg) 3) 5).

(** ** Blocks of code *)

Record Code : Type := mkCode {
  c_bytes : bytes;
  c_relocs : list Reloc
}.

Definition new : Code := mkCode [] [].

Definition len (c : Code) : Z := zlen (c_bytes c).

Definition is_empty (c : Code) : bool :=
  match c_bytes c with [] => true | _ :: _ => false end.

Definition raw (bs : bytes) (c : Code) : Code :=
  mkCode (c_bytes c ++ bs) (c_relocs c).

(** The relocation's offset is a [u64]; the addition wraps at its width. *)
Definition shift_reloc (base : Z) (r : Reloc) : Reloc :=
  mkReloc (wrap_u 64 (r_offset r + base)) (r_target r) (r_kind r) (r_addend r).

Definition append (other : Code) (c : Code) : Code :=
  let base := len c in
  mkCode (c_bytes c ++ c_bytes other) (c_relocs c ++ map (shift_reloc base) (c_relocs other)).

Definition reloc_here (target : RelTarget) (kind addend : Z) (c : Code) : Code :=
  mkCode (c_bytes c) (c_relocs c ++ [mkReloc (len c) target kind addend]).

(** ** Instructions without operands *)

Definition syscall (c : Code) : Code := raw [x0f; x05] c.
Definition ret (c : Code) : Code := raw [xc3] c.
Definition nop (c : Code) : Code := raw [x90] c.
Definition ud2 (c : Code) : Code := raw [x0f; x0b] c.
Definition push (r : Reg) (c : Code) : Code := raw [z2b (0x50 + num r)] c.
Definition pop (r : Reg) (c : Code) : Code := raw [z2b (0x58 + num r)] c.

(** ** Immediates *)

Definition mov_r32_imm32 (r : Reg) (v : Z) (c : Code) : Code :=
  let c := raw [z2b (0xb8 + num r)] c in
  raw (le_bytes 4 v) c.

Definition mov_r64_imm64 (r : Reg) (v : Z) (c : Code) : Code :=
  let c := raw [REX_W; z2b (0xb8 + num r)] c in
  raw (le_bytes 8 v) c.

Definition add_r32_imm32 (r : Reg) (v : Z) (c : Code) : Code :=
  let c := raw [x81; z2b (Z.lor 0xc0 (num r))] c in
  raw (le_bytes 4 v) c.

Definition cmp_r32_imm32 (r : Reg) (v : Z) (c : Code) : Code :=
  let c := raw [x81; z2b (Z.lor 0xf8 (num r))] c in
  raw (le_bytes 4 v) c.

(** ** Register to register *)

Definition mov_r32_r32 (dst src : Reg) (c : Code) : Code :=
  raw [x89; modrm_reg src dst] c.
Definition mov_r64_r64 (dst src : Reg) (c : Code) : Code :=
  raw [REX_W; x89; modrm_reg src dst] c.
Definition add_r32_r32 (dst src : Reg) (c : Code) : Code :=
  raw [x01; modrm_reg src dst] c.
Definition sub_r32_r32 (dst src : Reg) (c : Code) : Code :=
  raw [x29; modrm_reg src dst] c.
Definition imul_r32_r32 (dst src : Reg) (c : Code) : Code :=
  raw [x0f; xaf; modrm_reg dst src] c.
Definition xor_r32_r32 (dst src : Reg) (c : Code) : Code :=
  raw [x31; modrm_reg src dst] c.
Definition test_r64_r64 (a b : Reg) (c : Code) : Code :=
  raw [REX_W; x85; modrm_reg b a] c.

(** ** RIP-relative references

  [-4 + addend] is [i64] arithmetic. *)

Definition minus4 (addend : Z) : Z := wrap_s 64 (-4 + addend).

Definition lea_rip (r : Reg) (target : bytes) (addend : Z) (c : Code) : Code :=
  let c := raw [REX_W; x8d; modrm_rip r] c in
  let c := reloc_here (ToSymbol target) R_X86_64_PC32 (minus4 addend) c in
  raw (le_bytes 4 0) c.

Definition lea_rip_section (r : Reg) (section : bytes) (addend : Z) (c : Code) : Code :=
  let c := raw [REX_W; x8d; modrm_rip r] c in
  let c := reloc_here (ToSection section) R_X86_64_PC32 (minus4 addend) c in
  raw (le_bytes 4 0) c.

Definition mov_r64_rip (r : Reg) (target : bytes) (kind addend : Z) (c : Code) : Code :=
  let c := raw [REX_W; x8b; modrm_rip r] c in
  let c := reloc_here (ToSymbol target) kind addend c in
  raw (le_bytes 4 0) c.

Definition mov_r32_rip (r : Reg) (target : bytes) (addend : Z) (c : Code) : Code :=
  let c := raw [x8b; modrm_rip r] c in
  let c := reloc_here (ToSymbol target) R_X86_64_PC32 (minus4 addend) c in
  raw (le_bytes 4 0) c.

Definition mov_rip_r32 (target : bytes) (r : Reg) (addend : Z) (c : Code) : Code :=
  let c := raw [x89; modrm_rip r] c in
  let c := reloc_here (ToSymbol target) R_X86_64_PC32 (minus4 addend) c in
  raw (le_bytes 4 0) c.

Definition add_r32_rip (r : Reg) (target : bytes) (addend : Z) (c : Code) : Code :=
  let c := raw [x03; modrm_rip r] c in
  let c := reloc_here (ToSymbol target) R_X86_64_PC32 (minus4 addend) c in
  raw (le_bytes 4 0) c.

Definition movzx_r32_byte_rip (r : Reg) (target : bytes) (addend : Z) (c : Code) : Code :=
  let c := raw [x0f; xb6; modrm_rip r] c in
  let c := reloc_here (ToSymbol target) R_X86_64_PC32 (minus4 addend) c in
  raw (le_bytes 4 0) c.

Definition mov_r32_symbol_addr32 (r : Reg) (target : bytes) (addend : Z) (c : Code) : Code :=
  let c := raw [z2b (0xb8 + num r)] c in
  let c := reloc_here (ToSymbol target) R_X86_64_32 addend c in
  raw (le_bytes 4 0) c.

Definition mov_r64_symbol_addr32s (r : Reg) (target : bytes) (addend : Z) (c : Code) : Code :=
  let c := raw [REX_W; xc7; z2b (Z.lor 0xc0 (num r))] c in
  let c := reloc_here (ToSymbol target) R_X86_64_32S addend c in
  raw (le_bytes 4 0) c.

(** ** Control flow *)

Definition call (target : bytes) (c : Code) : Code :=
  let c := raw [xe8] c in
  let c := reloc_here (ToSymbol target) R_X86_64_PLT32 (-4) c in
  raw (le_bytes 4 0) c.

Definition call_pc32 (target : bytes) (c : Code) : Code :=
  let c := raw [xe8] c in
  let c := reloc_here (ToSymbol target) R_X86_64_PC32 (-4) c in
  raw (le_bytes 4 0) c.

Definition jmp (target : bytes) (c : Code) : Code :=
  let c := raw [xe9] c in
  let c := reloc_here (ToSymbol target) R_X86_64_PLT32 (-4) c in
  raw (le_bytes 4 0) c.

(** [rel as u8] keeps the low eight bits. *)
Definition je_rel8 (rel : Z) (c : Code) : Code := raw [x74; z2b rel] c.
Definition jne_rel8 (rel : Z) (c : Code) : Code := raw [x75; z2b rel] c.

(** ** The system calls of the fixtures *)

Definition SYS_WRITE : Z := 1.
Definition SYS_EXIT : Z := 60.
Definition SYS_READ : Z := 0.
Definition STDOUT : Z := 1.
Definition STDERR : Z := 2.

Definition sys_write (fd : Z) (symbol : bytes) (n : Z) (c : Code) : Code :=
  let c := mov_r32_imm32 Rax SYS_WRITE c in
  let c := mov_r32_imm32 Rdi fd c in
  let c := lea_rip Rsi symbol 0 c in
  let c := mov_r32_imm32 Rdx n c in
  syscall c.

Definition sys_write_section (fd : Z) (section : bytes) (offset n : Z) (c : Code) : Code :=
  let c := mov_r32_imm32 Rax SYS_WRITE c in
  let c := mov_r32_imm32 Rdi fd c in
  let c := lea_rip_section Rsi section offset c in
  let c := mov_r32_imm32 Rdx n c in
  syscall c.

Definition sys_write_rsi (fd n : Z) (c : Code) : Code :=
  let c := mov_r32_imm32 Rax SYS_WRITE c in
  let c := mov_r32_imm32 Rdi fd c in
  let c := mov_r32_imm32 Rdx n c in
  syscall c.

Definition sys_exit (code : Z) (c : Code) : Code :=
  let c := mov_r32_imm32 Rax SYS_EXIT c in
  let c := mov_r32_imm32 Rdi code c in
  syscall c.

Definition sys_exit_eax (c : Code) : Code :=
  let c := mov_r32_r32 Rdi Rax c in
  let c := mov_r32_imm32 Rax SYS_EXIT c in
  syscall c.

Definition pointer_to (symbol : bytes) (addend : Z) : bytes * Reloc :=
  (replicate 8 x00, reloc_sym 0 symbol R_X86_64_64 addend).

(** ** Programs

  A program is the sequence of the builder calls that append one instruction. *)

Inductive Op : Type :=
| OpSyscall | OpRet | OpNop | OpUd2
| OpPush (r : Reg) | OpPop (r : Reg)
| OpMovImm32 (r : Reg) (v : Z) | OpMovImm64 (r : Reg) (v : Z)
| OpAddImm32 (r : Reg) (v : Z) | OpCmpImm32 (r : Reg) (v : Z)
| OpMov32 (dst src : Reg) | OpMov64 (dst src : Reg) | OpAdd32 (dst src : Reg)
| OpSub32 (dst src : Reg) | OpImul32 (dst src : Reg) | OpXor32 (dst src : Reg)
| OpTest64 (a b : Reg)
| OpLea (r : Reg) (target : bytes) (addend : Z)
| OpLeaSection (r : Reg) (section : bytes) (addend : Z)
| OpLoad64 (r : Reg) (target : bytes) (kind addend : Z)
| OpLoad32 (r : Reg) (target : bytes) (addend : Z)
| OpStore32 (target : bytes) (r : Reg) (addend : Z)
| OpAddLoad32 (r : Reg) (target : bytes) (addend : Z)
| OpMovzx8 (r : Reg) (target : bytes) (addend : Z)
| OpAddr32 (r : Reg) (target : bytes) (addend : Z)
| OpAddr32s (r : Reg) (target : bytes) (addend : Z)
| OpCall (target : bytes) | OpCallPc32 (target : bytes) | OpJmp (target : bytes)
| OpJe (rel : Z) | OpJne (rel : Z).

Definition emit_op (o : Op) : Code -> Code :=
  match o with
  | OpSyscall => syscall | OpRet => ret | OpNop => nop | OpUd2 => ud2
  | OpPush r => push r | OpPop r => pop r
  | OpMovImm32 r v => mov_r32_imm32 r v | OpMovImm64 r v => mov_r64_imm64 r v
  | OpAddImm32 r v => add_r32_imm32 r v | OpCmpImm32 r v => cmp_r32_imm32 r v
  | OpMov32 d s => mov_r32_r32 d s | OpMov64 d s => mov_r64_r64 d s
  | OpAdd32 d s => add_r32_r32 d s | OpSub32 d s => sub_r32_r32 d s
  | OpImul32 d s => imul_r32_r32 d s | OpXor32 d s => xor_r32_r32 d s
  | OpTest64 a b => test_r64_r64 a b
  | OpLea r t a => lea_rip r t a | OpLeaSection r s a => lea_rip_section r s a
  | OpLoad64 r t k a => mov_r64_rip r t k a | OpLoad32 r t a => mov_r32_rip r t a
  | OpStore32 t r a => mov_rip_r32 t r a | OpAddLoad32 r t a => add_r32_rip r t a
  | OpMovzx8 r t a => movzx_r32_byte_rip r t a
  | OpAddr32 r t a => mov_r32_symbol_addr32 r t a
  | OpAddr32s r t a => mov_r64_symbol_addr32s r t a
  | OpCall t => call t | OpCallPc32 t => call_pc32 t | OpJmp t => jmp t
  | OpJe rel => je_rel8 rel | OpJne rel => jne_rel8 rel
  end.

(** [assemble p c]: the calls of [p], in order, on the block [c]. *)
Fixpoint assemble (p : list Op) (c : Code) : Code :=
  match p with
  | [] => c
  | o :: p => assemble p (emit_op o c)
  end.
