(* ===== verification/AsmLink.v ===== *)
(** * What assembled code means once it is linked

  A specification for [Asm]: the relocation arithmetic of the x86-64 ABI for the
  kinds the assembler emits, a decoder for the instructions it emits, written
  from the encoding tables and not from the encoder, and a small machine that
  runs straight-line code up to its system calls. *)

From S2P Require Import Prelude Elf ElfWrite Asm.

(** ** Relocation *)

Definition patch (bs : bytes) (off : Z) (field : bytes) : bytes :=
  ztake off bs ++ field ++ zdrop (off + zlen field) bs.

Definition pc_relative (k : Z) : bool :=
  (k =? R_X86_64_PC32) || (k =? R_X86_64_PLT32) || (k =? R_X86_64_GOTPCREL).

Section link.
(** The final address of each target, and of its slot in the global offset table. *)
Context (addr got : RelTarget -> Z).

Definition reloc_value (k : Z) (t : RelTarget) : Z :=
  if k =? R_X86_64_GOTPCREL then got t else addr t.

Definition reloc_field (base : Z) (r : Reloc) : option bytes :=
  let v := reloc_value (r_kind r) (r_target r) + r_addend r in
  if pc_relative (r_kind r) then Some (le_bytes 4 (v - (base + r_offset r)))
  else if (r_kind r =? R_X86_64_32) || (r_kind r =? R_X86_64_32S) then Some (le_bytes 4 v)
  else if r_kind r =? R_X86_64_64 then Some (le_bytes 8 v)
  else None.

Definition apply_reloc (base : Z) (bs : bytes) (r : Reloc) : bytes :=
  match reloc_field base r with
  | Some f => patch bs (r_offset r) f
  | None => bs
  end.

(** The bytes of a block loaded at [base]. *)
Definition link (base : Z) (c : Code) : bytes :=
  foldl (apply_reloc base) (c_bytes c) (c_relocs c).
End link.

(** ** Decoding *)

(** Operands are resolved: memory operands and jump targets are addresses. *)
Inductive Insn : Type :=
| ISyscall | IRet | INop | IUd2
| IPush (r : Reg) | IPop (r : Reg)
| IMovImm32 (r : Reg) (v : Z) | IMovImm64 (r : Reg) (v : Z) | IMovImm32s (r : Reg) (v : Z)
| IAddImm32 (r : Reg) (v : Z) | ICmpImm32 (r : Reg) (v : Z)
| IMov32 (dst src : Reg) | IMov64 (dst src : Reg) | IAdd32 (dst src : Reg)
| ISub32 (dst src : Reg) | IImul32 (dst src : Reg) | IXor32 (dst src : Reg)
| ITest64 (a b : Reg)
| ILea (r : Reg) (ea : Z) | ILoad64 (r : Reg) (ea : Z) | ILoad32 (r : Reg) (ea : Z)
| IStore32 (ea : Z) (r : Reg) | IAddLoad32 (r : Reg) (ea : Z) | IMovzx8 (r : Reg) (ea : Z)
| ICall (target : Z) | IJmp (target : Z) | IJe (target : Z) | IJne (target : Z).

#[global] Instance Insn_eq_dec : EqDecision Insn.
Proof. solve_decision. Defined.

(** What follows the opcode and ModRM bytes. *)
Inductive Shape : Type :=
| Plain (i : Insn)
| Imm32 (f : Z -> Insn)
| Imm64 (f : Z -> Insn)
| Rel8 (f : Z -> Insn)
| Rel32 (f : Z -> Insn).

Definition reg_of (n : Z) : option Reg :=
  match n with
  | 0 => Some Rax | 1 => Some Rcx | 2 => Some Rdx | 3 => Some Rbx
  | 4 => Some Rsp | 5 => Some Rbp | 6 => Some Rsi | 7 => Some Rdi
  | _ => None
  end.

Definition mod_of (m : Z) : Z := m / 64.
Definition reg_field (m : Z) : Z := m / 8 mod 8.
Definition rm_field (m : Z) : Z := m mod 8.

Definition with_modrm (bs : bytes) (f : Z -> Z -> Z -> option Shape) : option (Shape * bytes) :=
  match bs with
  | [] => None
  | m :: t =>
    let m := b2z m in
    s ← f (mod_of m) (reg_field m) (rm_field m); Some (s, t)
  end.

(** Two registers: [f reg rm]. *)
Definition rr (f : Reg -> Reg -> Insn) (md reg rm : Z) : option Shape :=
  if md =? 3 then r ← reg_of reg; m ← reg_of rm; Some (Plain (f r m)) else None.

(** A register and a RIP-relative operand. *)
Definition rip (f : Reg -> Z -> Insn) (md reg rm : Z) : option Shape :=
  if (md =? 0) && (rm =? 5) then r ← reg_of reg; Some (Rel32 (f r)) else None.

(** An opcode extension in the [reg] field and an immediate. *)
Definition ext (e : Z) (f : Reg -> Z -> Insn) (md reg rm : Z) : option Shape :=
  if (md =? 3) && (reg =? e) then r ← reg_of rm; Some (Imm32 (f r)) else None.

Definition either (f g : Z -> Z -> Z -> option Shape) (md reg rm : Z) : option Shape :=
  match f md reg rm with Some s => Some s | None => g md reg rm end.

Definition plus_reg (base n : Z) (f : Reg -> Shape) : option Shape := r ← reg_of (n - base); Some (f r).

Definition opcode_0f (bs : bytes) : option (Shape * bytes) :=
  match bs with
  | [] => None
  | b :: t =>
    match b2z b with
    | 0x05 => Some (Plain ISyscall, t)
    | 0x0b => Some (Plain IUd2, t)
    | 0xaf => with_modrm t (rr IImul32)
    | 0xb6 => with_modrm t (rip IMovzx8)
    | _ => None
    end
  end.

Definition opcode_rexw (bs : bytes) : option (Shape * bytes) :=
  match bs with
  | [] => None
  | b :: t =>
    match b2z b with
    | 0x85 => with_modrm t (rr (fun reg rm => ITest64 rm reg))
    | 0x89 => with_modrm t (rr (fun reg rm => IMov64 rm reg))
    | 0x8b => with_modrm t (rip ILoad64)
    | 0x8d => with_modrm t (rip ILea)
    | 0xc7 => with_modrm t (ext 0 (fun r v => IMovImm32s r (wrap_s 32 v)))
    | n => s ← plus_reg 0xb8 n (fun r => Imm64 (IMovImm64 r)); Some (s, t)
    end
  end.

Definition opcode (bs : bytes) : option (Shape * bytes) :=
  match bs with
  | [] => None
  | b :: t =>
    match b2z b with
    | 0x0f => opcode_0f t
    | 0x48 => opcode_rexw t
    | 0x01 => with_modrm t (rr (fun reg rm => IAdd32 rm reg))
    | 0x03 => with_modrm t (rip IAddLoad32)
    | 0x29 => with_modrm t (rr (fun reg rm => ISub32 rm reg))
    | 0x31 => with_modrm t (rr (fun reg rm => IXor32 rm reg))
    | 0x81 => with_modrm t (either (ext 0 IAddImm32) (ext 7 ICmpImm32))
    | 0x89 => with_modrm t (either (rr (fun reg rm => IMov32 rm reg)) (rip (fun r ea => IStore32 ea r)))
    | 0x8b => with_modrm t (rip ILoad32)
    | 0x90 => Some (Plain INop, t)
    | 0xc3 => Some (Plain IRet, t)
    | 0xe8 => Some (Rel32 ICall, t)
    | 0xe9 => Some (Rel32 IJmp, t)
    | 0x74 => Some (Rel8 IJe, t)
    | 0x75 => Some (Rel8 IJne, t)
    | n =>
      if n <? 0x58 then s ← plus_reg 0x50 n (fun r => Plain (IPush r)); Some (s, t)
      else if n <? 0x60 then s ← plus_reg 0x58 n (fun r => Plain (IPop r)); Some (s, t)
      else s ← plus_reg 0xb8 n (fun r => Imm32 (IMovImm32 r)); Some (s, t)
    end
  end.

(** An [n]-byte field at the front. *)
Definition field (n : nat) (bs : bytes) : option (Z * bytes) :=
  if decide (n <= length bs)%nat then Some (le_val (take n bs), drop n bs) else None.

(** One instruction at the address [ip]: displacements count from its end. *)
Definition decode1 (ip : Z) (bs : bytes) : option (Insn * bytes) :=
  '(s, t) ← opcode bs;
  match s with
  | Plain i => Some (i, t)
  | Imm32 f => '(v, t) ← field 4 t; Some (f v, t)
  | Imm64 f => '(v, t) ← field 8 t; Some (f v, t)
  | Rel8 f => '(v, t) ← field 1 t; Some (f (wrap_u 64 (ip + (zlen bs - zlen t) + wrap_s 8 v)), t)
  | Rel32 f => '(v, t) ← field 4 t; Some (f (wrap_u 64 (ip + (zlen bs - zlen t) + wrap_s 32 v)), t)
  end.

(** Every instruction is at least a byte long: the length is enough fuel. *)
Fixpoint decode_all (fuel : nat) (ip : Z) (bs : bytes) : option (list Insn) :=
  match bs, fuel with
  | [], _ => Some []
  | _, O => None
  | _, S fuel =>
    '(i, t) ← decode1 ip bs;
    rest ← decode_all fuel (ip + (zlen bs - zlen t)) t;
    Some (i :: rest)
  end.

Definition disassemble (ip : Z) (bs : bytes) : option (list Insn) := decode_all (length bs) ip bs.

(** ** Running straight-line code

  [kernel] chooses what a system call returns in [rax] and leaves in [rcx]; the
  other registers of the module survive it.  Memory and jumps are not run. *)

Record Call : Type := mkCall { nr : Z; arg1 : Z; arg2 : Z; arg3 : Z }.

Record Machine : Type := mkMachine {
  regs : Reg -> Z;
  calls : list Call;
  exited : bool
}.

Definition set_reg (r : Reg) (v : Z) (m : Machine) : Machine :=
  mkMachine (fun r' => if decide (r = r') then v else regs m r') (calls m) (exited m).

Section machine.
Context (kernel : list Call -> Z * Z).

Definition do_syscall (m : Machine) : Machine :=
  let c := mkCall (regs m Rax) (regs m Rdi) (regs m Rsi) (regs m Rdx) in
  let '(rax, rcx) := kernel (calls m ++ [c]) in
  let m' := set_reg Rcx rcx (set_reg Rax rax m) in
  mkMachine (regs m') (calls m ++ [c]) (nr c =? SYS_EXIT).

Definition exec (i : Insn) (m : Machine) : option Machine :=
  let g := regs m in
  match i with
  | INop => Some m
  | IMovImm32 r v => Some (set_reg r v m)
  | IMovImm64 r v => Some (set_reg r v m)
  | IMovImm32s r v => Some (set_reg r (wrap_u 64 v) m)
  | IMov32 d s => Some (set_reg d (wrap_u 32 (g s)) m)
  | IMov64 d s => Some (set_reg d (g s) m)
  | IAddImm32 d v => Some (set_reg d (wrap_u 32 (g d + v)) m)
  | IAdd32 d s => Some (set_reg d (wrap_u 32 (g d + g s)) m)
  | ISub32 d s => Some (set_reg d (wrap_u 32 (g d - g s)) m)
  | IImul32 d s => Some (set_reg d (wrap_u 32 (g d * g s)) m)
  | IXor32 d s => Some (set_reg d (wrap_u 32 (Z.lxor (g d) (g s))) m)
  | ILea r ea => Some (set_reg r ea m)
  | ISyscall => Some (do_syscall m)
  | _ => None
  end.

Fixpoint run (l : list Insn) (m : Machine) : option Machine :=
  match l with
  | [] => Some m
  | i :: l => if exited m then Some m else m ← exec i m; run l m
  end.
End machine.

(** ** What each call of the assembler is meant to emit *)

(** The reference an instruction makes: target, relocation kind and addend. *)
Definition op_fix (o : Op) : option (RelTarget * Z * Z) :=
  match o with
  | OpLea _ t a | OpLoad32 _ t a | OpStore32 t _ a | OpAddLoad32 _ t a | OpMovzx8 _ t a =>
      Some (ToSymbol t, R_X86_64_PC32, minus4 a)
  | OpLeaSection _ s a => Some (ToSection s, R_X86_64_PC32, minus4 a)
  | OpLoad64 _ t k a => Some (ToSymbol t, k, a)
  | OpAddr32 _ t a => Some (ToSymbol t, R_X86_64_32, a)
  | OpAddr32s _ t a => Some (ToSymbol t, R_X86_64_32S, a)
  | OpCall t | OpJmp t => Some (ToSymbol t, R_X86_64_PLT32, -4)
  | OpCallPc32 t => Some (ToSymbol t, R_X86_64_PC32, -4)
  | _ => None
  end.

(** Operands in the range of their Rust types; a load names a kind its encoding
  supports. *)
Definition op_valid (o : Op) : Prop :=
  match o with
  | OpMovImm32 _ v | OpAddImm32 _ v | OpCmpImm32 _ v => in_u 32 v
  | OpMovImm64 _ v => in_u 64 v
  | OpLoad64 _ _ k _ => k = R_X86_64_PC32 \/ k = R_X86_64_GOTPCREL
  | OpJe rel | OpJne rel => in_s 8 rel
  | _ => True
  end.

(** Bytes before the four-byte field a relocation fills. *)
Definition op_head_len (o : Op) : Z :=
  match o with
  | OpLea _ _ _ | OpLeaSection _ _ _ | OpLoad64 _ _ _ _ | OpMovzx8 _ _ _ | OpAddr32s _ _ _ => 3
  | OpLoad32 _ _ _ | OpStore32 _ _ _ | OpAddLoad32 _ _ _ => 2
  | _ => 1
  end.

Section meaning.
Context (addr got : RelTarget -> Z).

(** The linker can fill the field of [o] placed at [ip] without overflow. *)
Definition op_fits (ip : Z) (o : Op) : Prop :=
  match op_fix o with
  | Some (t, k, a) =>
    if pc_relative k then in_s 32 (reloc_value addr got k t + a - (ip + op_head_len o))
    else if k =? R_X86_64_32 then in_u 32 (addr t + a) else in_s 32 (addr t + a)
  | None => True
  end.

Definition meaning (ip : Z) (o : Op) : Insn :=
  let sym t := addr (ToSymbol t) in
  match o with
  | OpSyscall => ISyscall | OpRet => IRet | OpNop => INop | OpUd2 => IUd2
  | OpPush r => IPush r | OpPop r => IPop r
  | OpMovImm32 r v => IMovImm32 r v | OpMovImm64 r v => IMovImm64 r v
  | OpAddImm32 r v => IAddImm32 r v | OpCmpImm32 r v => ICmpImm32 r v
  | OpMov32 d s => IMov32 d s | OpMov64 d s => IMov64 d s | OpAdd32 d s => IAdd32 d s
  | OpSub32 d s => ISub32 d s | OpImul32 d s => IImul32 d s | OpXor32 d s => IXor32 d s
  | OpTest64 a b => ITest64 a b
  | OpLea r t a => ILea r (wrap_u 64 (sym t + a))
  | OpLeaSection r s a => ILea r (wrap_u 64 (addr (ToSection s) + a))
  | OpLoad64 r t k a => ILoad64 r (wrap_u 64 (reloc_value addr got k (ToSymbol t) + (a + 4)))
  | OpLoad32 r t a => ILoad32 r (wrap_u 64 (sym t + a))
  | OpStore32 t r a => IStore32 (wrap_u 64 (sym t + a)) r
  | OpAddLoad32 r t a => IAddLoad32 r (wrap_u 64 (sym t + a))
  | OpMovzx8 r t a => IMovzx8 r (wrap_u 64 (sym t + a))
  | OpAddr32 r t a => IMovImm32 r (sym t + a)
  | OpAddr32s r t a => IMovImm32s r (sym t + a)
  | OpCall t | OpCallPc32 t => ICall (wrap_u 64 (sym t))
  | OpJmp t => IJmp (wrap_u 64 (sym t))
  | OpJe rel => IJe (wrap_u 64 (ip + 2 + rel))
  | OpJne rel => IJne (wrap_u 64 (ip + 2 + rel))
  end.

(** The same for a program laid out from [ip]. *)
Definition op_len (o : Op) : Z := len (emit_op o new).

Fixpoint fits (ip : Z) (p : list Op) : Prop :=
  match p with
  | [] => True
  | o :: p => op_fits ip o /\ fits (ip + op_len o) p
  end.

Fixpoint meanings (ip : Z) (p : list Op) : list Insn :=
  match p with
  | [] => []
  | o :: p => meaning ip o :: meanings (ip + op_len o) p
  end.
End meaning.
