(* ===== verification/AsmSem.v ===== *)
(** * Assembled programs link, decode and run as intended

  Every call of the assembler appends a head (opcode and ModRM) and a
  little-endian field; relocations only touch the field.  Linking and decoding
  therefore work instruction by instruction. *)

From S2P Require Import Prelude Elf ElfWrite Asm AsmLink.

(** ** Splitting an instruction *)

Definition op_bytes (o : Op) : bytes := c_bytes (emit_op o new).

(** Width and initial value of the field at the end of the instruction. *)
Definition op_width (o : Op) : nat :=
  match o with
  | OpMovImm32 _ _ | OpAddImm32 _ _ | OpCmpImm32 _ _ => 4
  | OpMovImm64 _ _ => 8
  | OpJe _ | OpJne _ => 1
  | _ => if op_fix o then 4 else 0
  end.

Definition op_imm (o : Op) : Z :=
  match o with
  | OpMovImm32 _ v | OpAddImm32 _ v | OpCmpImm32 _ v | OpMovImm64 _ v => v
  | OpJe rel | OpJne rel => rel
  | _ => 0
  end.

Definition op_head (o : Op) : bytes :=
  take (length (op_bytes o) - op_width o) (op_bytes o).

Definition op_shape (o : Op) : Shape :=
  match o with
  | OpMovImm32 r _ | OpAddr32 r _ _ => Imm32 (IMovImm32 r)
  | OpMovImm64 r _ => Imm64 (IMovImm64 r)
  | OpAddr32s r _ _ => Imm32 (fun v => IMovImm32s r (wrap_s 32 v))
  | OpAddImm32 r _ => Imm32 (IAddImm32 r) | OpCmpImm32 r _ => Imm32 (ICmpImm32 r)
  | OpLea r _ _ | OpLeaSection r _ _ => Rel32 (ILea r)
  | OpLoad64 r _ _ _ => Rel32 (ILoad64 r) | OpLoad32 r _ _ => Rel32 (ILoad32 r)
  | OpStore32 _ r _ => Rel32 (fun ea => IStore32 ea r)
  | OpAddLoad32 r _ _ => Rel32 (IAddLoad32 r) | OpMovzx8 r _ _ => Rel32 (IMovzx8 r)
  | OpCall _ | OpCallPc32 _ => Rel32 ICall | OpJmp _ => Rel32 IJmp
  | OpJe _ => Rel8 IJe | OpJne _ => Rel8 IJne
  | o => Plain (meaning (fun _ => 0) (fun _ => 0) 0 o)
  end.

Definition fix_relocs (off : Z) (o : Op) : list Reloc :=
  match op_fix o with
  | Some (t, k, a) => [mkReloc off t k a]
  | None => []
  end.

Section fill.
Context (addr got : RelTarget -> Z).

(** The value the linker leaves in the field of [o] placed at [ip]. *)
Definition op_fill (ip : Z) (o : Op) : Z :=
  match op_fix o with
  | Some (t, k, a) =>
    if pc_relative k then reloc_value addr got k t + a - (ip + op_head_len o)
    else reloc_value addr got k t + a
  | None => op_imm o
  end.

Definition op_linked (ip : Z) (o : Op) : bytes :=
  op_head o ++ le_bytes (op_width o) (op_fill ip o).

Fixpoint linked (ip : Z) (p : list Op) : bytes :=
  match p with
  | [] => []
  | o :: p => op_linked ip o ++ linked (ip + op_len o) p
  end.
End fill.

Lemma emit_op_split o c :
  emit_op o c =
    mkCode (c_bytes c ++ op_bytes o) (c_relocs c ++ fix_relocs (len c + op_head_len o) o).
Proof.
  destruct c as [bs rs].
  destruct o; cbv -[app zlen z2b le_bytes minus4 modrm_reg modrm_rip Z.add Z.lor num];
    rewrite <- ?app_assoc, ?app_nil_r, ?zlen_app; reflexivity.
Qed.

Lemma op_bytes_split o : op_bytes o = op_head o ++ le_bytes (op_width o) (op_imm o).
Proof. by destruct o. Qed.

Lemma zlen_op_head o : op_fix o <> None -> zlen (op_head o) = op_head_len o.
Proof. by destruct o. Qed.

Lemma op_len_split o : op_len o = zlen (op_head o) + Z.of_nat (op_width o).
Proof.
  unfold op_len, len. fold (op_bytes o).
  by rewrite op_bytes_split, zlen_app, zlen_le_bytes.
Qed.

Lemma op_fix_width o : op_fix o <> None -> op_width o = 4%nat /\ op_imm o = 0.
Proof. by destruct o. Qed.

Lemma op_head_nonempty o : (0 < length (op_head o))%nat.
Proof. destruct o; cbn; lia. Qed.

Lemma zlen_op_linked addr got ip o : zlen (op_linked addr got ip o) = op_len o.
Proof. unfold op_linked. by rewrite zlen_app, zlen_le_bytes, op_len_split. Qed.

(** ** Patching *)

Lemma patch_app_r a b o f : 0 <= o -> patch (a ++ b) (zlen a + o) f = a ++ patch b o f.
Proof.
  intros Ho. unfold patch, ztake, zdrop, zlen.
  rewrite take_app_ge, drop_app_ge by lia. rewrite <- app_assoc.
  do 2 f_equal; [f_equal; lia|]. do 2 f_equal; lia.
Qed.

Lemma patch_app_l a b o f :
  0 <= o -> o + zlen f <= zlen a -> patch (a ++ b) o f = patch a o f ++ b.
Proof.
  unfold patch, ztake, zdrop, zlen. intros ??.
  rewrite take_app_le, drop_app_le by lia. by rewrite <- !app_assoc.
Qed.

Lemma patch_field h z f : zlen z = zlen f -> patch (h ++ z) (zlen h) f = h ++ f.
Proof.
  intros Hz. rewrite <- (Z.add_0_r (zlen h)), patch_app_r by lia. f_equal.
  unfold patch, ztake, zdrop, zlen in *. simpl.
  rewrite drop_ge by lia. by rewrite app_nil_r.
Qed.

Lemma zlen_patch bs o f : 0 <= o -> o + zlen f <= zlen bs -> zlen (patch bs o f) = zlen bs.
Proof.
  unfold patch, ztake, zdrop, zlen. intros ??.
  rewrite !length_app, length_take, length_drop. lia.
Qed.

(** ** Linking instruction by instruction *)

Section link_program.
Context (addr got : RelTarget -> Z).

(** A relocation whose four-byte field lies inside a block of [n] bytes. *)
Definition reloc_inside (n : Z) (r : Reloc) : Prop :=
  0 <= r_offset r /\ r_offset r + 4 <= n /\ r_kind r <> R_X86_64_64.

Lemma reloc_field_width base r f :
  r_kind r <> R_X86_64_64 -> reloc_field addr got base r = Some f -> zlen f = 4.
Proof.
  unfold reloc_field. intros Hk.
  repeat case_match; intros [= <-]; try done. by apply Z.eqb_eq in H1.
Qed.

Lemma apply_reloc_app base a b r :
  reloc_inside (zlen a) r ->
  apply_reloc addr got base (a ++ b) r = apply_reloc addr got base a r ++ b /\
  zlen (apply_reloc addr got base a r) = zlen a.
Proof.
  intros (H0 & Hin & Hk). unfold apply_reloc.
  destruct (reloc_field _ _ _ _) as [f|] eqn:Hf; [|done].
  apply reloc_field_width in Hf; [|done].
  split; [apply patch_app_l|apply zlen_patch]; lia.
Qed.

Lemma apply_relocs_app base rs a b :
  Forall (reloc_inside (zlen a)) rs ->
  foldl (apply_reloc addr got base) (a ++ b) rs =
    foldl (apply_reloc addr got base) a rs ++ b /\
  zlen (foldl (apply_reloc addr got base) a rs) = zlen a.
Proof.
  revert a. induction rs as [|r rs IH]; intros a Hrs; [done|].
  apply Forall_cons_1 in Hrs as [Hr Hrs].
  destruct (apply_reloc_app base a b r Hr) as [Heq Hlen]. cbn [foldl].
  rewrite Heq. rewrite <- Hlen in Hrs.
  destruct (IH _ Hrs) as [-> Hl]. split; [done|]. by rewrite Hl.
Qed.

Lemma op_fix_kind o t k a :
  op_valid o -> op_fix o = Some (t, k, a) ->
  k = R_X86_64_PC32 \/ k = R_X86_64_PLT32 \/ k = R_X86_64_GOTPCREL \/
  k = R_X86_64_32 \/ k = R_X86_64_32S.
Proof. destruct o; cbn [op_fix op_valid]; intros Hv [=]; subst; tauto. Qed.

Lemma reloc_field_fill base n o t k a :
  op_valid o -> op_fix o = Some (t, k, a) ->
  reloc_field addr got base (mkReloc (n + op_head_len o) t k a) =
    Some (le_bytes 4 (op_fill addr got (base + n) o)).
Proof.
  intros Hv Hf. unfold reloc_field, op_fill. rewrite Hf. cbn [r_kind r_offset r_addend r_target].
  replace (base + (n + op_head_len o)) with (base + n + op_head_len o) by lia.
  by destruct (op_fix_kind o t k a Hv Hf) as [-> | [-> | [-> | [-> | ->]]]].
Qed.

Lemma link_emit base c o :
  op_valid o -> Forall (reloc_inside (len c)) (c_relocs c) ->
  link addr got base (emit_op o c) = link addr got base c ++ op_linked addr got (base + len c) o.
Proof.
  intros Hv Hc. rewrite emit_op_split. unfold link. cbn [c_bytes c_relocs].
  rewrite foldl_app. destruct (apply_relocs_app base (c_relocs c) (c_bytes c) (op_bytes o) Hc) as [-> Hl].
  unfold fix_relocs. destruct (op_fix o) as [[[t k] a]|] eqn:Hf; cbn [foldl].
  - unfold apply_reloc at 1. rewrite (reloc_field_fill _ _ _ _ _ _ Hv Hf). cbn [r_offset].
    destruct (op_fix_width o ltac:(congruence)) as [Hw _].
    unfold len. rewrite <- Hl at 1. rewrite patch_app_r by (by destruct o). f_equal.
    rewrite op_bytes_split, <- zlen_op_head by congruence. unfold op_linked. rewrite Hw.
    apply patch_field. by rewrite !zlen_le_bytes.
  - f_equal. unfold op_linked, op_fill. rewrite Hf. apply op_bytes_split.
Qed.

Lemma emit_op_inside c o :
  op_valid o -> Forall (reloc_inside (len c)) (c_relocs c) ->
  Forall (reloc_inside (len (emit_op o c))) (c_relocs (emit_op o c)).
Proof.
  intros Hv Hc. rewrite emit_op_split. unfold len in *. cbn [c_bytes c_relocs].
  rewrite zlen_app. fold (op_bytes o) in *. pose proof (op_len_split o) as Hlen.
  unfold op_len, len in Hlen. fold (op_bytes o) in Hlen. pose proof (zlen_nonneg (op_bytes o)).
  pose proof (zlen_nonneg (c_bytes c)).
  apply Forall_app. split.
  - eapply Forall_impl; [exact Hc|]. unfold reloc_inside. intros r (? & ? & ?). repeat split; lia || done.
  - unfold fix_relocs. destruct (op_fix o) as [[[t k] a]|] eqn:Hf; [|constructor].
    destruct (op_fix_width o ltac:(congruence)) as [Hw _].
    rewrite zlen_op_head, Hw in Hlen by congruence.
    apply Forall_cons_2; [|constructor]. unfold reloc_inside. cbn [r_offset r_kind].
    pose proof (zlen_nonneg (op_head o)). rewrite zlen_op_head in * by congruence.
    repeat split; [lia|lia|].
    by destruct (op_fix_kind o t k a Hv Hf) as [-> | [-> | [-> | [-> | ->]]]].
Qed.

Lemma len_emit_op c o : len (emit_op o c) = len c + op_len o.
Proof. rewrite emit_op_split. unfold len at 1. cbn [c_bytes]. by rewrite zlen_app. Qed.

Lemma link_assemble base p c :
  Forall op_valid p -> Forall (reloc_inside (len c)) (c_relocs c) ->
  link addr got base (assemble p c) = link addr got base c ++ linked addr got (base + len c) p.
Proof.
  revert c. induction p as [|o p IH]; intros c Hp Hc; [by rewrite app_nil_r|].
  apply Forall_cons_1 in Hp as [Ho Hp]. cbn [assemble linked].
  rewrite IH by auto using emit_op_inside. rewrite link_emit by done.
  by rewrite len_emit_op, <- app_assoc, Z.add_assoc.
Qed.

Lemma assemble_inside p c :
  Forall op_valid p -> Forall (reloc_inside (len c)) (c_relocs c) ->
  Forall (reloc_inside (len (assemble p c))) (c_relocs (assemble p c)).
Proof.
  revert c. induction p as [|o p IH]; intros c Hp Hc; [done|].
  apply Forall_cons_1 in Hp as [Ho Hp]. cbn [assemble]. auto using emit_op_inside.
Qed.
End link_program.

(** ** Decoding one instruction *)

Lemma field_le_bytes n v t : field n (le_bytes n v ++ t) = Some (v mod 256 ^ Z.of_nat n, t).
Proof.
  unfold field. rewrite decide_True by (rewrite length_app, length_le_bytes; lia).
  pose proof (length_le_bytes n v) as Hl.
  by rewrite take_app_length', drop_app_length', le_val_bytes.
Qed.

Lemma opcode_op o t : opcode (op_head o ++ t) = Some (op_shape o, t).
Proof.
  destruct o; repeat match goal with r : Reg |- _ => destruct r end; reflexivity.
Qed.

Lemma wrap_u_mod_add w a v : 0 <= w -> wrap_u w (a + wrap_s w v) = wrap_u w (a + v).
Proof.
  intros Hw. unfold wrap_u, wrap_s. rewrite Z.add_sub_assoc, Zminus_mod, Zplus_mod.
  rewrite Z.mod_mod by lia. rewrite <- Zplus_mod, <- Zminus_mod. f_equal. lia.
Qed.

Lemma minus4_wrap a v : wrap_u 64 (v + (minus4 a + 4)) = wrap_u 64 (v + a).
Proof.
  unfold minus4. replace (v + (wrap_s 64 (-4 + a) + 4)) with ((v + 4) + wrap_s 64 (-4 + a)) by lia.
  rewrite wrap_u_mod_add by lia. f_equal. lia.
Qed.

(** A four-byte field that holds a value of the 32-bit range reads back. *)
Lemma field_s32 v : in_s 32 v -> wrap_s 32 (v mod 256 ^ Z.of_nat 4) = v.
Proof. intros. change (256 ^ Z.of_nat 4) with (2 ^ 32). rewrite wrap_s_mod by lia. by apply wrap_s_small. Qed.

Lemma field_u32 v : in_u 32 v -> v mod 256 ^ Z.of_nat 4 = v.
Proof. intros. by apply Z.mod_small. Qed.

Lemma field_u64 v : in_u 64 v -> v mod 256 ^ Z.of_nat 8 = v.
Proof. intros. by apply Z.mod_small. Qed.

Lemma field_s8 v : in_s 8 v -> wrap_s 8 (v mod 256 ^ Z.of_nat 1) = v.
Proof. intros. change (256 ^ Z.of_nat 1) with (2 ^ 8). rewrite wrap_s_mod by lia. by apply wrap_s_small. Qed.

Section decode_program.
Context (addr got : RelTarget -> Z).

Lemma ripped ip n v w :
  in_s 32 (v - (ip + n)) -> wrap_u 64 (v + 4) = w ->
  wrap_u 64 (ip + (n + 4) + wrap_s 32 ((v - (ip + n)) mod 256 ^ Z.of_nat 4)) = w.
Proof. intros Hs <-. rewrite field_s32 by done. f_equal. lia. Qed.

(** The instruction a shape makes of the field's value. *)
Definition shape_insn (ip n : Z) (s : Shape) (v : Z) : Insn :=
  match s with
  | Plain i => i
  | Imm32 f => f (v mod 256 ^ Z.of_nat 4)
  | Imm64 f => f (v mod 256 ^ Z.of_nat 8)
  | Rel8 f => f (wrap_u 64 (ip + (n + 1) + wrap_s 8 (v mod 256 ^ Z.of_nat 1)))
  | Rel32 f => f (wrap_u 64 (ip + (n + 4) + wrap_s 32 (v mod 256 ^ Z.of_nat 4)))
  end.

Definition shape_width (s : Shape) : nat :=
  match s with Plain _ => 0 | Imm32 _ | Rel32 _ => 4 | Imm64 _ => 8 | Rel8 _ => 1 end.

Lemma op_shape_width o : shape_width (op_shape o) = op_width o.
Proof. by destruct o. Qed.

Lemma decode1_shape ip o t :
  decode1 ip (op_linked addr got ip o ++ t) =
    Some (shape_insn ip (zlen (op_head o)) (op_shape o) (op_fill addr got ip o), t).
Proof.
  unfold decode1, op_linked. rewrite <- app_assoc, opcode_op, !zlen_app.
  rewrite <- op_shape_width, zlen_le_bytes.
  destruct (op_shape o) as [i|f|f|f|f]; cbn [shape_width mbind option_bind shape_insn];
    rewrite ?field_le_bytes; cbn [mbind option_bind le_bytes app]; repeat f_equal; lia.
Qed.

Lemma shape_meaning ip o :
  op_valid o -> op_fits addr got ip o ->
  shape_insn ip (zlen (op_head o)) (op_shape o) (op_fill addr got ip o) = meaning addr got ip o.
Proof.
  intros Hv Hfit. destruct (op_fix o) as [[[t k] a]|] eqn:Hf.
  - rewrite zlen_op_head by congruence. unfold op_fits in Hfit. rewrite Hf in Hfit.
    unfold op_fill. rewrite Hf.
    destruct o; cbn [op_fix] in Hf; simplify_eq; cbn [op_shape shape_insn meaning op_head_len op_valid] in *;
      try (f_equal; apply ripped; [exact Hfit|]; cbn; rewrite <- Z.add_assoc; first [apply minus4_wrap | f_equal; lia]).
    + destruct Hv as [-> | ->]; f_equal; apply ripped; try exact Hfit; f_equal; lia.
    + f_equal. by apply field_u32.
    + f_equal. by apply field_s32.
  - unfold op_fill. rewrite Hf.
    destruct o; try discriminate Hf; cbn [op_shape shape_insn meaning op_valid op_imm] in *; try reflexivity;
      f_equal; first [by apply field_u32 | by apply field_u64 | rewrite field_s8 by done; f_equal; cbn; lia].
Qed.

Lemma decode1_op ip o t :
  op_valid o -> op_fits addr got ip o ->
  decode1 ip (op_linked addr got ip o ++ t) = Some (meaning addr got ip o, t).
Proof. intros. by rewrite decode1_shape, shape_meaning. Qed.

Lemma decode_all_linked fuel ip p :
  Forall op_valid p -> fits addr got ip p ->
  (length (linked addr got ip p) <= fuel)%nat ->
  decode_all fuel ip (linked addr got ip p) = Some (meanings addr got ip p).
Proof.
  revert fuel ip. induction p as [|o p IH]; intros fuel ip Hp Hf Hfuel; [by destruct fuel|].
  apply Forall_cons_1 in Hp as [Ho Hp]. destruct Hf as [Hfo Hf]. cbn [linked meanings] in *.
  pose proof (op_head_nonempty o) as Hne. rewrite length_app in Hfuel.
  assert (length (op_head o) <= length (op_linked addr got ip o))%nat.
  { unfold op_linked. rewrite length_app. lia. }
  destruct fuel as [|fuel]; [lia|].
  pose proof (decode1_op ip o (linked addr got (ip + op_len o) p) Ho Hfo) as Hd.
  pose proof (zlen_op_linked addr got ip o) as Hz.
  destruct (op_linked addr got ip o ++ linked addr got (ip + op_len o) p) as [|b bs] eqn:E.
  { apply (f_equal length) in E. rewrite length_app in E. simpl in E. lia. }
  cbn [decode_all]. rewrite Hd. cbn [mbind option_bind].
  rewrite <- E, zlen_app, Hz, Z.add_simpl_r. rewrite IH by (done || lia). done.
Qed.

Lemma link_disassembles base p :
  Forall op_valid p -> fits addr got base p ->
  disassemble base (link addr got base (assemble p new)) = Some (meanings addr got base p).
Proof.
  intros Hp Hf. rewrite link_assemble by (done || constructor).
  cbn. rewrite Z.add_0_r. apply decode_all_linked; done.
Qed.

(** C28: Linked code decodes to the program: the bytes of an assembled block, with
  its relocations applied for a load address and an assignment of addresses,
  disassemble to the sequence of instructions the builder calls name, every
  RIP-relative operand and every call or jump target resolved to the address of
  its symbol (or of its GOT slot) plus the addend. *)
Theorem linked_code_decodes (base : Z) (p : list Op) :
  Forall op_valid p -> fits addr got base p ->
  disassemble base (link addr got base (assemble p new)) = Some (meanings addr got base p).
Proof. apply link_disassembles. Qed.
End decode_program.

(** ** Blocks *)

Definition reloc_pending (c : Code) (r : Reloc) : Prop :=
  0 <= r_offset r /\ r_offset r + 4 <= len c /\
  zslice (c_bytes c) (r_offset r) 4 = le_bytes 4 0 /\ r_kind r <> R_X86_64_64.

Lemma emit_op_pending c o :
  op_valid o -> Forall (reloc_pending c) (c_relocs c) ->
  Forall (reloc_pending (emit_op o c)) (c_relocs (emit_op o c)).
Proof.
  intros Hv Hc. rewrite emit_op_split. unfold reloc_pending, len in *. cbn [c_bytes c_relocs].
  apply Forall_app. split.
  - eapply Forall_impl; [exact Hc|]. intros r (? & ? & Hz & ?). pose proof (zlen_nonneg (op_bytes o)).
    rewrite zlen_app, zslice_app_l by lia. auto with lia.
  - unfold fix_relocs. destruct (op_fix o) as [[[t k] a]|] eqn:Hf; [|constructor].
    apply Forall_cons_2; [|constructor]. cbn [r_offset r_kind].
    destruct (op_fix_width o ltac:(congruence)) as [Hw Hi].
    rewrite op_bytes_split, Hw, Hi, <- zlen_op_head by congruence.
    pose proof (zlen_nonneg (c_bytes c)). pose proof (zlen_nonneg (op_head o)).
    repeat split; [lia|zlen_solve| |].
    + rewrite app_assoc, <- zlen_app. rewrite <- (app_nil_r (le_bytes 4 0)) at 1.
      apply (zslice_mid _ (le_bytes 4 0)).
    + by destruct (op_fix_kind o t k a Hv Hf) as [-> | [-> | [-> | [-> | ->]]]].
Qed.

Lemma assemble_pending p c :
  Forall op_valid p -> Forall (reloc_pending c) (c_relocs c) ->
  Forall (reloc_pending (assemble p c)) (c_relocs (assemble p c)).
Proof.
  revert c. induction p as [|o p IH]; intros c Hp Hc; [done|].
  apply Forall_cons_1 in Hp as [Ho Hp]. cbn [assemble]. auto using emit_op_pending.
Qed.

(** Every relocation of an assembled block names four bytes inside the block
  that are still zero, and its kind is never the eight-byte one. *)
Theorem relocations_lie_inside (p : list Op) :
  Forall op_valid p ->
  let c := assemble p new in
  Forall (fun r => 0 <= r_offset r /\ r_offset r + 4 <= len c /\
    zslice (c_bytes c) (r_offset r) 4 = le_bytes 4 0 /\ r_kind r <> R_X86_64_64) (c_relocs c).
Proof. intros Hp. apply (assemble_pending p new Hp). constructor. Qed.

(** [append] is assembling on: a program assembled after another is the other
  block with the first one's length added to its offsets. *)
Lemma emit_op_append o c d :
  Forall (fun r => 0 <= r_offset r <= len d) (c_relocs d) ->
  len c + len (emit_op o d) < 2 ^ 64 ->
  emit_op o (append d c) = append (emit_op o d) c.
Proof.
  intros Hd Hlen. rewrite !emit_op_split. rewrite emit_op_split in Hlen.
  unfold append, len in *. cbn [c_bytes c_relocs] in *.
  rewrite map_app, <- !app_assoc. do 2 f_equal. f_equal.
  unfold fix_relocs. destruct (op_fix o) as [[[t k] a]|] eqn:Hf; [|done].
  cbn [map]. unfold shift_reloc. cbn [r_offset r_target r_kind r_addend]. do 2 f_equal.
  rewrite zlen_app in *. unfold wrap_u. rewrite Z.mod_small; [lia|].
  pose proof (zlen_nonneg (c_bytes c)). pose proof (zlen_nonneg (c_bytes d)).
  pose proof (zlen_nonneg (op_head o)).
  rewrite op_bytes_split, zlen_app, zlen_le_bytes, zlen_op_head in Hlen by congruence.
  rewrite zlen_op_head in * by congruence. lia.
Qed.

Lemma len_assemble_le p c : len c <= len (assemble p c).
Proof.
  revert c. induction p as [|o p IH]; intros c; cbn [assemble]; [lia|].
  specialize (IH (emit_op o c)). rewrite len_emit_op in IH.
  rewrite op_len_split in IH. pose proof (zlen_nonneg (op_head o)). lia.
Qed.

Lemma emit_op_offsets c o :
  Forall (fun r => 0 <= r_offset r <= len c) (c_relocs c) ->
  Forall (fun r => 0 <= r_offset r <= len (emit_op o c)) (c_relocs (emit_op o c)).
Proof.
  intros Hc. rewrite len_emit_op. rewrite emit_op_split. cbn [c_relocs].
  pose proof (op_len_split o) as Hl. pose proof (zlen_nonneg (op_head o)).
  apply Forall_app. split; [eapply Forall_impl; [exact Hc|]; cbn; lia|].
  unfold fix_relocs. destruct (op_fix o) as [[[t k] a]|] eqn:Hf; [|constructor].
  apply Forall_cons_2; [|constructor]. cbn [r_offset]. pose proof (zlen_nonneg (c_bytes c)).
  rewrite zlen_op_head in * by congruence. unfold len. lia.
Qed.

Lemma assemble_append p c d :
  Forall (fun r => 0 <= r_offset r <= len d) (c_relocs d) ->
  len c + len (assemble p d) < 2 ^ 64 ->
  assemble p (append d c) = append (assemble p d) c.
Proof.
  revert d. induction p as [|o p IH]; intros d Hd Hlen; [done|]. cbn [assemble] in *.
  pose proof (len_assemble_le p (emit_op o d)).
  rewrite emit_op_append by (done || lia). apply IH; [by apply emit_op_offsets|done].
Qed.

(** Appending blocks composes programs: assembling [q] after [p] in one
  block gives the bytes and relocations of appending the separately assembled
  block of [q] to that of [p] (shorter than the address space). *)
Theorem append_composes (p q : list Op) :
  len (assemble p new) + len (assemble q new) < 2 ^ 64 ->
  assemble (p ++ q) new = append (assemble q new) (assemble p new).
Proof.
  intros Hlen. assert (forall c, assemble (p ++ q) c = assemble q (assemble p c)) as ->.
  { induction p as [|o p' IH] in |- *; intros c; [done|]. apply IH. }
  rewrite <- assemble_append by (constructor || done). f_equal.
  unfold append. cbn. rewrite !app_nil_r. by destruct (assemble p new).
Qed.

(** ** Running *)

(** Link a block at [base], disassemble it and run it. *)
Definition run_linked (addr got : RelTarget -> Z) (kernel : list Call -> Z * Z)
    (base : Z) (c : Code) (m : Machine) : option Machine :=
  l ← disassemble base (link addr got base c); run kernel l m.

Lemma run_app kernel l1 l2 m :
  run kernel (l1 ++ l2) m = m' ← run kernel l1 m; run kernel l2 m'.
Proof.
  revert m. induction l1 as [|i l1 IH]; intros m; [done|]. cbn [run app].
  destruct (exited m) eqn:E.
  - cbn. destruct l2; cbn [run]; [done|]. by rewrite E.
  - destruct (exec kernel i m); cbn; [apply IH|done].
Qed.

Lemma assemble_app p q c : assemble (p ++ q) c = assemble q (assemble p c).
Proof. revert c. induction p; intros c; [done|]. cbn. auto. Qed.


Lemma do_syscall_exited kernel m : exited (do_syscall kernel m) = (regs m Rax =? SYS_EXIT).
Proof. unfold do_syscall. by destruct (kernel _). Qed.

Lemma do_syscall_calls kernel m :
  calls (do_syscall kernel m) =
    calls m ++ [mkCall (regs m Rax) (regs m Rdi) (regs m Rsi) (regs m Rdx)].
Proof. unfold do_syscall. by destruct (kernel _). Qed.

Lemma do_syscall_regs kernel m r :
  r <> Rax -> r <> Rcx -> regs (do_syscall kernel m) r = regs m r.
Proof. unfold do_syscall. destruct (kernel _). cbn. intros. by rewrite !decide_False by congruence. Qed.

(** The calls the two helpers stand for. *)
Definition write_ops (fd : Z) (symbol : bytes) (n : Z) : list Op :=
  [OpMovImm32 Rax SYS_WRITE; OpMovImm32 Rdi fd; OpLea Rsi symbol 0; OpMovImm32 Rdx n; OpSyscall].
Definition exit_ops (code : Z) : list Op :=
  [OpMovImm32 Rax SYS_EXIT; OpMovImm32 Rdi code; OpSyscall].

Lemma sys_write_ops fd symbol n c : sys_write fd symbol n c = assemble (write_ops fd symbol n) c.
Proof. done. Qed.

Lemma sys_exit_ops code c : sys_exit code c = assemble (exit_ops code) c.
Proof. done. Qed.

(** The fixtures' hello-world block does what its comments say: linked at
  any address from which the symbol is within reach of a 32-bit displacement and
  run from any machine state, it makes exactly two system calls, write(fd,
  address of the symbol, n) and exit(code), and stops there. *)
Theorem write_then_exit_runs (addr got : RelTarget -> Z) (kernel : list Call -> Z * Z)
    (base fd n code : Z) (symbol : bytes) (m : Machine) :
  in_u 32 fd -> in_u 32 n -> in_u 32 code ->
  in_u 64 (addr (ToSymbol symbol)) ->
  in_s 32 (addr (ToSymbol symbol) - (base + 17)) ->
  exited m = false ->
  exists m', run_linked addr got kernel base (sys_exit code (sys_write fd symbol n new)) m = Some m' /\
    exited m' = true /\
    calls m' = calls m ++ [mkCall SYS_WRITE fd (addr (ToSymbol symbol)) n;
                           mkCall SYS_EXIT code (addr (ToSymbol symbol)) n].
Proof.
  intros Hfd Hn Hcode Haddr Hreach Hm.
  rewrite sys_write_ops, sys_exit_ops, <- assemble_app. unfold run_linked.
  rewrite link_disassembles.
  - cbn [mbind option_bind]. rewrite <- (Z.add_0_r (addr _)) in Haddr.
    cbn -[wrap_u Z.add do_syscall]. rewrite Hm, !do_syscall_exited.
    cbn -[wrap_u Z.add do_syscall]. eexists. split; [done|].
    rewrite do_syscall_exited, !do_syscall_calls. cbn -[wrap_u Z.add do_syscall].
    rewrite do_syscall_calls, (do_syscall_regs _ _ Rsi), (do_syscall_regs _ _ Rdx) by done.
    cbn -[wrap_u Z.add do_syscall]. split; [done|].
    unfold wrap_u. by rewrite (Z.mod_small _ _ Haddr), Z.add_0_r, <- app_assoc.
  - repeat (apply Forall_cons_2; [done|]). by apply Forall_nil.
  - cbn -[in_s Z.sub Z.add]. unfold op_fits. cbn -[in_s Z.sub Z.add].
    change (op_len (OpMovImm32 Rax SYS_WRITE)) with 5. change (op_len (OpMovImm32 Rdi fd)) with 5.
    change (minus4 0) with (-4). do 2 (split; [done|]). split; [|tauto].
    revert Hreach. unfold in_s. lia.
Qed.

(** Fixtures that compute a status end with [sys_exit_eax]. *)
Definition exit_eax_ops : list Op := [OpMov32 Rdi Rax; OpMovImm32 Rax SYS_EXIT; OpSyscall].

Lemma meanings_app addr got ip p q :
  meanings addr got ip (p ++ q) =
    meanings addr got ip p ++ meanings addr got (ip + foldr (fun o => Z.add (op_len o)) 0 p) q.
Proof.
  revert ip. induction p as [|o p IH]; intros ip; cbn [app meanings foldr].
  - by rewrite Z.add_0_r.
  - rewrite IH. by rewrite Z.add_assoc.
Qed.

Lemma fits_app addr got ip p q :
  fits addr got ip (p ++ q) <->
    fits addr got ip p /\ fits addr got (ip + foldr (fun o => Z.add (op_len o)) 0 p) q.
Proof.
  revert ip. induction p as [|o p IH]; intros ip; cbn [app fits foldr].
  - rewrite Z.add_0_r. tauto.
  - rewrite IH, Z.add_assoc. tauto.
Qed.

(** A fixture that computes in [eax] and ends with [sys_exit_eax] reports
  what it computed: if the linked program runs to a state that has not exited,
  the program followed by [sys_exit_eax] makes one more call, exit, with the low
  32 bits of the accumulator, and stops. *)
Theorem exit_eax_reports (addr got : RelTarget -> Z) (kernel : list Call -> Z * Z)
    (base : Z) (p : list Op) (m m' : Machine) :
  Forall op_valid p -> fits addr got base p ->
  run_linked addr got kernel base (assemble p new) m = Some m' -> exited m' = false ->
  exists m2, run_linked addr got kernel base (sys_exit_eax (assemble p new)) m = Some m2 /\
    exited m2 = true /\
    calls m2 = calls m' ++ [mkCall SYS_EXIT (wrap_u 32 (regs m' Rax)) (regs m' Rsi) (regs m' Rdx)].
Proof.
  intros Hp Hf. change (sys_exit_eax (assemble p new)) with (assemble exit_eax_ops (assemble p new)).
  assert (Forall op_valid (p ++ exit_eax_ops)) as Hp2 by (apply Forall_app; split; [done|by repeat constructor]).
  assert (fits addr got base (p ++ exit_eax_ops)) as Hf2 by (apply fits_app; split; [done|by cbn]).
  rewrite <- assemble_app. unfold run_linked. rewrite !link_disassembles by done.
  cbn [mbind option_bind]. intros Hrun Hex. rewrite meanings_app, run_app, Hrun.
  cbn -[wrap_u do_syscall]. rewrite Hex. eexists. split; [done|].
  rewrite do_syscall_exited, do_syscall_calls. done.
Qed.

(** ** The theorems at a small program *)

Definition demo_addr (t : RelTarget) : Z :=
  match t with ToSection _ => 0x402000 | _ => 0x401800 end.
Definition demo_got (t : RelTarget) : Z := 0x403000.
Definition demo_program : list Op :=
  [OpMovImm32 Rdi 7; OpLea Rsi [x6d] 2; OpLoad64 Rax [x6d] R_X86_64_GOTPCREL (-4);
   OpCall [x66]; OpJne (-2); OpAddr32s Rbx [x6d] 0; OpXor32 Rax Rax].

Lemma demo_program_valid : Forall op_valid demo_program.
Proof. repeat first [apply Forall_nil | apply Forall_cons_2]; try exact I; cbn; (lia || tauto || done). Defined.

Lemma demo_program_fits : fits demo_addr demo_got 0x401000 demo_program.
Proof. cbn. unfold op_fits, in_s, in_u. cbn. repeat split; (lia || done). Defined.

Lemma linked_code_decodes_witness :
  Forall op_valid demo_program /\ fits demo_addr demo_got 0x401000 demo_program /\
  disassemble 0x401000 (link demo_addr demo_got 0x401000 (assemble demo_program new)) =
    Some [IMovImm32 Rdi 7; ILea Rsi 0x401802; ILoad64 Rax 0x403000; ICall 0x401800;
          IJne 0x401018; IMovImm32s Rbx 0x401800; IXor32 Rax Rax].
Proof.
  split; [exact demo_program_valid|]. split; [exact demo_program_fits|].
  exact (linked_code_decodes demo_addr demo_got 0x401000 demo_program
           demo_program_valid demo_program_fits).
Defined.

Lemma relocations_lie_inside_witness :
  Forall op_valid demo_program /\ length (c_relocs (assemble demo_program new)) = 4%nat /\
  Forall (fun r => 0 <= r_offset r /\ r_offset r + 4 <= len (assemble demo_program new) /\
    zslice (c_bytes (assemble demo_program new)) (r_offset r) 4 = le_bytes 4 0 /\
    r_kind r <> R_X86_64_64) (c_relocs (assemble demo_program new)).
Proof.
  split; [exact demo_program_valid|]. split; [reflexivity|].
  exact (relocations_lie_inside demo_program demo_program_valid).
Defined.

Lemma append_composes_witness :
  len (assemble demo_program new) + len (assemble [OpCall [x67]] new) < 2 ^ 64 /\
  assemble (demo_program ++ [OpCall [x67]]) new =
    append (assemble [OpCall [x67]] new) (assemble demo_program new).
Proof. split; [reflexivity|]. apply append_composes. reflexivity. Defined.

Definition demo_machine : Machine := mkMachine (fun _ => 0) [] false.
Definition demo_kernel (l : list Call) : Z * Z := (-1, 9).

Lemma write_then_exit_runs_witness :
  in_u 32 1 /\ in_u 64 (demo_addr (ToSymbol [x6d])) /\
  exists m', run_linked demo_addr demo_got demo_kernel 0x401000
      (sys_exit 3 (sys_write 1 [x6d] 6 new)) demo_machine = Some m' /\
    exited m' = true /\
    calls m' = [] ++ [mkCall SYS_WRITE 1 0x401800 6; mkCall SYS_EXIT 3 0x401800 6].
Proof.
  split; [unfold in_u; lia|]. split; [unfold in_u; cbn; lia|].
  apply (write_then_exit_runs demo_addr demo_got demo_kernel 0x401000 1 6 3 [x6d] demo_machine);
    unfold in_u, in_s; cbn; (lia || reflexivity).
Defined.

Lemma exit_eax_reports_witness :
  exists m', run_linked demo_addr demo_got demo_kernel 0x401000
      (assemble [OpMovImm32 Rax 40; OpAddImm32 Rax 2] new) demo_machine = Some m' /\
    exited m' = false /\
    exists m2, run_linked demo_addr demo_got demo_kernel 0x401000
        (sys_exit_eax (assemble [OpMovImm32 Rax 40; OpAddImm32 Rax 2] new)) demo_machine = Some m2 /\
      exited m2 = true /\ calls m2 = [] ++ [mkCall SYS_EXIT 42 0 0].
Proof.
  eexists. split; [reflexivity|]. split; [reflexivity|].
  apply (exit_eax_reports demo_addr demo_got demo_kernel 0x401000
           [OpMovImm32 Rax 40; OpAddImm32 Rax 2] demo_machine
           (set_reg Rax 42 (set_reg Rax 40 demo_machine))).
  - repeat first [apply Forall_nil | apply Forall_cons_2]; unfold op_valid, in_u; lia.
  - cbn. tauto.
  - reflexivity.
  - reflexivity.
Defined.
