(* ===== verification/OrdMap.v ===== *)
(** * Ordered maps

  A [BTreeMap] keyed by strings is a [gmap] that is iterated in key order. *)

From S2P Require Import Prelude.

(** Rust orders strings by their bytes. *)
Fixpoint bytes_le (a b : bytes) : bool :=
  match a, b with
  | [], _ => true
  | _ :: _, [] => false
  | x :: a, y :: b =>
    if b2z x <? b2z y then true else if b2z y <? b2z x then false else bytes_le a b
  end.

Definition entries {A} (m : gmap bytes A) : list (bytes * A) :=
  sort_by (fun p q => bytes_le p.1 q.1) (map_to_list m).

Definition map_keys {A} (m : gmap bytes A) : list bytes := (entries m).*1.

Lemma list_elem_of_entries {A} (m : gmap bytes A) k v : (k, v) ∈ entries m <-> m !! k = Some v.
Proof.
  unfold entries. rewrite <- elem_of_map_to_list. by rewrite (sort_by_perm _ (map_to_list m)).
Qed.

Lemma list_elem_of_map_keys {A} (m : gmap bytes A) k : k ∈ map_keys m <-> is_Some (m !! k).
Proof.
  unfold map_keys. rewrite list_elem_of_fmap. split.
  - intros ([k' v] & -> & Hk). apply list_elem_of_entries in Hk. eauto.
  - intros [v Hv]. exists (k, v). by rewrite list_elem_of_entries.
Qed.

Lemma bytes_le_total a b : bytes_le a b = false -> bytes_le b a = true.
Proof.
  revert b. induction a as [|x a IH]; intros [|y b]; cbn; try done.
  destruct (Z.ltb_spec (b2z x) (b2z y)), (Z.ltb_spec (b2z y) (b2z x)); auto.
Qed.

Lemma bytes_le_trans a b c : bytes_le a b = true -> bytes_le b c = true -> bytes_le a c = true.
Proof.
  revert b c. induction a as [|x a IH]; intros [|y b] [|z c]; cbn; try done.
  destruct (Z.ltb_spec (b2z x) (b2z y)), (Z.ltb_spec (b2z y) (b2z x));
    destruct (Z.ltb_spec (b2z y) (b2z z)), (Z.ltb_spec (b2z z) (b2z y));
    destruct (Z.ltb_spec (b2z x) (b2z z)), (Z.ltb_spec (b2z z) (b2z x)); try lia; eauto; done.
Qed.

Lemma bytes_le_refl a : bytes_le a a = true.
Proof. induction a as [|x a IH]; cbn; [done|]. by rewrite Z.ltb_irrefl. Qed.

Lemma bytes_le_antisym a b : bytes_le a b = true -> bytes_le b a = true -> a = b.
Proof.
  revert b. induction a as [|x a IH]; intros [|y b]; cbn; try done.
  destruct (Z.ltb_spec (b2z x) (b2z y)), (Z.ltb_spec (b2z y) (b2z x)); try done; try lia.
  intros. f_equal; [apply (inj b2z); lia|auto].
Qed.

#[export] Instance bytes_le_antisymm : AntiSymm (=) (fun a b => bytes_le a b = true).
Proof. intros a b. apply bytes_le_antisym. Qed.

(** Sorting decides whether two lists have the same elements as often. *)
Lemma sort_bytes_eq l k : sort_by bytes_le l = sort_by bytes_le k <-> l ≡ₚ k.
Proof.
  split; intros H; [by rewrite <- (sort_by_perm bytes_le l), H, sort_by_perm|].
  apply (StronglySorted_unique (fun a b => bytes_le a b = true)).
  - apply sort_by_sorted; [apply bytes_le_total|apply bytes_le_trans].
  - apply sort_by_sorted; [apply bytes_le_total|apply bytes_le_trans].
  - by rewrite !sort_by_perm.
Qed.

Lemma StronglySorted_fmap {A B} (R : B -> B -> Prop) (f : A -> B) l :
  StronglySorted (fun x y => R (f x) (f y)) l -> StronglySorted R (f <$> l).
Proof.
  induction 1 as [|a l Hl IH Ha]; cbn; constructor; [done|]. by apply Forall_fmap.
Qed.

Lemma map_keys_sorted {A} (m : gmap bytes A) :
  StronglySorted (fun a b => bytes_le a b = true) (map_keys m).
Proof.
  unfold map_keys, entries. apply StronglySorted_fmap, sort_by_sorted.
  - intros a b. apply bytes_le_total.
  - intros a b c. apply bytes_le_trans.
Qed.

Lemma NoDup_map_keys {A} (m : gmap bytes A) : NoDup (map_keys m).
Proof.
  unfold map_keys, entries. rewrite (sort_by_perm _ (map_to_list m)). apply NoDup_fst_map_to_list.
Qed.

Lemma list_to_map_entries {A} (m : gmap bytes A) : list_to_map (entries m) = m.
Proof.
  rewrite <- (list_to_map_to_list m) at 2. apply list_to_map_proper.
  - apply NoDup_map_keys.
  - apply sort_by_perm.
Qed.
