(* ===== verification/Oracles.v ===== *)
(** * The oracles of the distributed-systems tester ([disttest/src/prim/oracles.rs])

  What the program under test should answer, worked out by the tester: vector
  clocks, causal delivery, placement changes, quorums, Merkle trees, permutations.
  A [BTreeMap] is a [gmap] that is iterated in key order ([entries]); SHA-256 is
  a parameter.  The floating-point oracles (sketches, jitter, the two buckets)
  are not modelled. *)

From S2P Require Import Prelude Text OrdMap.

(** ** Lists of keys *)

(** [Vec::dedup]: runs of equal elements shrink to one. *)
Fixpoint dedup (l : list bytes) : list bytes :=
  match l with
  | [] => []
  | x :: rest =>
    match rest with
    | [] => [x]
    | y :: _ => if decide (x = y) then dedup rest else x :: dedup rest
    end
  end.

(** ** Causality *)

Inductive Relation : Type := Before | After | Equal | Concurrent.

Definition Relation_as_str (r : Relation) : bytes :=
  match r with
  | Before => str "before"
  | After => str "after"
  | Equal => str "equal"
  | Concurrent => str "concurrent"
  end.

Abbreviation Clock := (gmap bytes Z).

(** [*c.get(k).unwrap_or(&0)]. *)
Definition component (c : Clock) (k : bytes) : Z := default 0 (c !! k).

Definition compare_step (a b : Clock) (st : bool * bool) (k : bytes) : bool * bool :=
  let '(le, ge) := st in
  let x := component a k in
  let y := component b k in
  (if y <? x then false else le, if x <? y then false else ge).

Definition compare_clocks (a b : Clock) : Relation :=
  let keys := dedup (sort_by bytes_le (map_keys a ++ map_keys b)) in
  match foldl (compare_step a b) (true, true) keys with
  | (true, true) => Equal
  | (true, false) => Before
  | (false, true) => After
  | (false, false) => Concurrent
  end.

(** [collect()] keeps the last value of a repeated key. *)
Definition clock (pairs : list (bytes * Z)) : Clock :=
  foldl (fun c p => <[p.1 := p.2]> c) ∅ pairs.

(** [+ 1] is [i64] arithmetic. *)
Definition causally_deliverable (local : Clock) (sender : bytes) (msg : Clock) : bool :=
  let want := wrap_s 64 (component local sender + 1) in
  if decide (component msg sender <> want) then false
  else
    forallb (fun p => p.2 <=? component local p.1)
      (filter (fun p => p.1 <> sender) (entries msg)).

(** ** Placement *)

Record Movement : Type := mkMovement {
  stayed : Z;
  moved_to_new : Z;
  moved_off_gone : Z;
  moved_between_survivors : list bytes
}.

Definition Movement_default : Movement := mkMovement 0 0 0 [].

Definition movement_step (after : gmap bytes bytes) (nodes_before nodes_after : list bytes)
    (m : Movement) (p : bytes * bytes) : Movement :=
  let '(key, was) := p in
  match after !! key with
  | None => m
  | Some now =>
    if decide (was = now) then
      mkMovement (stayed m + 1) (moved_to_new m) (moved_off_gone m) (moved_between_survivors m)
    else if decide (now ∉ nodes_before) then
      mkMovement (stayed m) (moved_to_new m + 1) (moved_off_gone m) (moved_between_survivors m)
    else if decide (was ∉ nodes_after) then
      mkMovement (stayed m) (moved_to_new m) (moved_off_gone m + 1) (moved_between_survivors m)
    else
      mkMovement (stayed m) (moved_to_new m) (moved_off_gone m) (moved_between_survivors m ++ [key])
  end.

Definition movement (before after : gmap bytes bytes) (nodes_before nodes_after : list bytes)
    : Movement :=
  foldl (movement_step after nodes_before nodes_after) Movement_default (entries before).

(** ** Quorums

  The sums are [i64] arithmetic. *)

Definition quorum_overlaps (n r w : Z) : bool := n <? wrap_s 64 (r + w).
Definition write_conflict_possible (n w : Z) : bool := wrap_s 64 (2 * w) <=? n.
Definition smallest_read_quorum (n w : Z) : Z := Z.max (wrap_s 64 (wrap_s 64 (n - w) + 1)) 1.

(** ** Merkle trees *)

(** [format!("{b:02x}")], byte by byte. *)
Definition hex_byte (b : byte) : bytes := [digit_char (b2z b / 16); digit_char (b2z b mod 16)].
Definition hex (bs : bytes) : bytes := concat (map hex_byte bs).

Section merkle.
(** [sha2::Sha256::digest]. *)
Context (sha256 : bytes -> bytes).

Definition merkle_leaf (leaf : bytes) : bytes := hex (sha256 (x00 :: leaf)).
Definition merkle_node (left right : bytes) : bytes := hex (sha256 (x01 :: left ++ right)).

(** The inner loop: pairs from the left, an odd node is carried up. *)
Fixpoint next_level (last : list bytes) : list bytes :=
  match last with
  | l :: r :: rest => merkle_node l r :: next_level rest
  | [odd] => [odd]
  | [] => []
  end.

(** The outer loop: [last] and the levels above it.  A level of more than one
  node is longer than the next, so its length is enough fuel. *)
Fixpoint levels_from (fuel : nat) (last : list bytes) : list (list bytes) :=
  if decide (1 < length last)%nat then
    match fuel with
    | O => [last]
    | S fuel => last :: levels_from fuel (next_level last)
    end
  else [last].

Definition merkle_levels (leaves : list bytes) : list (list bytes) :=
  match leaves with
  | [] => [[hex (sha256 [])]]
  | _ => levels_from (length leaves) (map merkle_leaf leaves)
  end.

Definition merkle_root (leaves : list bytes) : bytes :=
  default [] (l ← last (merkle_levels leaves); head l).
End merkle.

(** [out.last_mut()] is the last range pushed. *)
Definition differing_step (a b : list bytes) (out : list (nat * nat)) (i : nat) : list (nat * nat) :=
  if decide (a !! i <> b !! i) then
    match last out with
    | Some r =>
      if decide (r.2 + 1 = i)%nat then take (length out - 1) out ++ [(r.1, i)]
      else out ++ [(i, i)]
    | None => out ++ [(i, i)]
    end
  else out.

Definition differing_ranges (a b : list bytes) : list (nat * nat) :=
  let n := Nat.max (length a) (length b) in
  foldl (differing_step a b) [] (seq 0 n).

(** [usize::next_power_of_two] and [usize::BITS - leading_zeros]; the counts are
  lengths of lists in memory, far below the bounds of [usize]. *)
Definition next_power_of_two (n : Z) : Z := 2 ^ Z.log2_up n.
Definition bit_length (n : Z) : Z := if n =? 0 then 0 else Z.log2 n + 1.

Definition descent_bound (leaves differing : Z) : Z :=
  if differing =? 0 then 1
  else
    let depth := bit_length (next_power_of_two leaves) + 1 in
    2 * depth * differing + 2.

(** ** Failure detection *)

Inductive Suspicion : Type := Alive | Suspect | Dead.

Definition Suspicion_as_str (s : Suspicion) : bytes :=
  match s with
  | Alive => str "alive"
  | Suspect => str "suspect"
  | Dead => str "dead"
  end.

Definition suspicion (since_last_ack_ms suspect_after_ms dead_after_ms : Z) : Suspicion :=
  if since_last_ack_ms <? suspect_after_ms then Alive
  else if since_last_ack_ms <? dead_after_ms then Suspect
  else Dead.

(** ** Replay *)

(** [Vec::swap]; every index is in range. *)
Definition swap (i j : nat) (items : list nat) : list nat :=
  match items !! i, items !! j with
  | Some x, Some y => <[j := x]> (<[i := y]> items)
  | _, _ => items
  end.

(** [permute] threads both mutable vectors; [todo] is [items.len() - k], and the
  inner loop runs over [k..items.len()]. *)
Fixpoint permute (todo : nat) (items : list nat) (k : nat) (out : list (list nat))
    : list nat * list (list nat) :=
  match todo with
  | O => (items, out ++ [items])
  | S todo =>
    foldl
      (fun '(items, out) i =>
        let items := swap k i items in
        let '(items, out) := permute todo items (k + 1) out in
        (swap k i items, out))
      (items, out) (seq k (length items - k))
  end.

Definition permutations (n : nat) : list (list nat) :=
  let current := seq 0 n in
  (permute (length current) current 0 []).2.
