(* ===== verification/OracleOrder.v ===== *)
(** * Vector clocks, causal delivery, placement, quorums and permutations

  The oracles agree with the definitions they stand for: the pointwise order on
  clocks, the causal-broadcast rule as a merge, the classification of moved keys,
  the intersection of quorums; and [permute] enumerates every order once. *)

From S2P Require Import Prelude Text OrdMap Oracles.
From Stdlib Require Import Factorial.

(** ** Iterating a map *)

Lemma list_elem_of_dedup (l : list bytes) x : x ∈ dedup l <-> x ∈ l.
Proof.
  induction l as [|y l IH]; [done|]. cbn [dedup]. destruct l as [|z l].
  { done. }
  case_decide; [rewrite IH; set_solver|]. rewrite elem_of_cons, IH. set_solver.
Qed.

(** ** Comparing clocks *)

(** The pointwise order; a missing process counts as zero. *)
Definition clock_le (a b : Clock) : Prop := forall k, component a k <= component b k.

Lemma compare_fold a b ks le ge :
  foldl (compare_step a b) (le, ge) ks =
    (le && forallb (fun k => component a k <=? component b k) ks,
     ge && forallb (fun k => component b k <=? component a k) ks).
Proof.
  revert le ge. induction ks as [|k ks IH]; intros le ge; cbn [foldl forallb].
  - by rewrite !andb_true_r.
  - unfold compare_step at 2. rewrite IH, !Z.ltb_antisym.
    destruct (component a k <=? component b k), (component b k <=? component a k), le, ge; done.
Qed.

Lemma component_absent (c : Clock) k : ~ is_Some (c !! k) -> component c k = 0.
Proof. intros H. apply eq_None_not_Some in H. unfold component. by rewrite H. Qed.

Lemma forallb_clock_le (a b : Clock) ks :
  (forall k, is_Some (a !! k) \/ is_Some (b !! k) -> k ∈ ks) ->
  forallb (fun k => component a k <=? component b k) ks = true <-> clock_le a b.
Proof.
  intros Hks. rewrite forallb_forall. split; intros H k.
  - destruct (decide (is_Some (a !! k) \/ is_Some (b !! k))) as [Hin|Hout].
    + apply Z.leb_le, H, list_elem_of_In, Hks, Hin.
    + rewrite !component_absent by tauto. lia.
  - intros _. by apply Z.leb_le.
Qed.

Definition clock_keys (a b : Clock) : list bytes :=
  dedup (sort_by bytes_le (map_keys a ++ map_keys b)).

Lemma list_elem_of_clock_keys a b k :
  k ∈ clock_keys a b <-> is_Some (a !! k) \/ is_Some (b !! k).
Proof.
  unfold clock_keys. rewrite list_elem_of_dedup.
  rewrite (sort_by_perm bytes_le), elem_of_app, !list_elem_of_map_keys. done.
Qed.

Lemma compare_clocks_flags a b :
  exists le ge, (le = true <-> clock_le a b) /\ (ge = true <-> clock_le b a) /\
    compare_clocks a b =
      match le, ge with
      | true, true => Equal | true, false => Before
      | false, true => After | false, false => Concurrent
      end.
Proof.
  unfold compare_clocks. fold (clock_keys a b). rewrite compare_fold. cbn [andb].
  eexists _, _. split; [|split; [|done]]; apply forallb_clock_le; intros k;
    rewrite list_elem_of_clock_keys; tauto.
Qed.

(** [compare_clocks] decides the happened-before order: on any two clocks it
  answers by their pointwise comparison, where a process missing from a clock
  counts as zero, and it says equal exactly when no process distinguishes them. *)
Theorem compare_clocks_pointwise (a b : Clock) :
  match compare_clocks a b with
  | Before => clock_le a b /\ ~ clock_le b a
  | After => clock_le b a /\ ~ clock_le a b
  | Equal => forall k, component a k = component b k
  | Concurrent => ~ clock_le a b /\ ~ clock_le b a
  end.
Proof.
  destruct (compare_clocks_flags a b) as ([] & [] & Hle & Hge & ->).
  - intros k. apply Z.le_antisymm; [by apply Hle|by apply Hge].
  - intuition congruence.
  - intuition congruence.
  - intuition congruence.
Qed.

(** ** Causal delivery *)

(** The clock after seeing [msg]: the pointwise maximum. *)
Definition merge (local msg : Clock) : Clock :=
  union_with (fun x y => Some (Z.max x y)) local msg.

Definition clock_nonneg (c : Clock) : Prop := forall k, 0 <= component c k.

Lemma component_merge local msg k :
  clock_nonneg local -> clock_nonneg msg ->
  component (merge local msg) k = Z.max (component local k) (component msg k).
Proof.
  intros Hl Hm. specialize (Hl k). specialize (Hm k). unfold component, merge in *.
  rewrite lookup_union_with. destruct (local !! k), (msg !! k); cbn in *; lia.
Qed.

Lemma deliverable_true local sender msg :
  clock_nonneg local -> component local sender < 2 ^ 63 - 1 ->
  causally_deliverable local sender msg = true <->
    component msg sender = component local sender + 1 /\
    forall k, k <> sender -> component msg k <= component local k.
Proof.
  intros Hl Hmax. unfold causally_deliverable. cbv zeta.
  pose proof (Hl sender). rewrite wrap_s_small by (try (unfold in_s; cbn); lia).
  case_decide as Hs; [split; [done|intros []; lia]|].
  rewrite forallb_forall. split.
  - intros Hall. split; [lia|]. intros k Hk. pose proof (Hl k) as Hlk.
    destruct (msg !! k) as [v|] eqn:Hv.
    + unfold component at 1. rewrite Hv. cbn. apply Z.leb_le.
      refine (Hall (k, v) _). apply list_elem_of_In, list_elem_of_filter.
      by rewrite list_elem_of_entries.
    + unfold component at 1. by rewrite Hv.
  - intros [_ Hall] [k v] Hin%list_elem_of_In. apply list_elem_of_filter in Hin as [Hk Hin].
    apply list_elem_of_entries in Hin. cbn in *. apply Z.leb_le.
    specialize (Hall k Hk). unfold component at 1 in Hall. by rewrite Hin in Hall.
Qed.

(** The causal-broadcast rule is the merge that changes one component by one:
  a message is deliverable exactly when merging its clock into the receiver's
  adds one to the sender's component and leaves every other component alone. *)
Theorem deliverable_is_one_step (local msg : Clock) (sender : bytes) :
  clock_nonneg local -> clock_nonneg msg -> component local sender < 2 ^ 63 - 1 ->
  causally_deliverable local sender msg = true <->
    forall k, component (merge local msg) k =
      component local k + (if decide (k = sender) then 1 else 0).
Proof.
  intros Hl Hm Hmax. rewrite deliverable_true by done. split.
  - intros [Hs Ho] k. rewrite component_merge by done. case_decide as Hk.
    + subst. lia.
    + specialize (Ho k Hk). lia.
  - intros H. split.
    + specialize (H sender). rewrite component_merge, decide_True in H by done. lia.
    + intros k Hk. specialize (H k). rewrite component_merge, decide_False in H by done. lia.
Qed.

(** A receiver that applies the rule to what arrives: it holds back what is not
  deliverable (here: the run stops) and merges what is. *)
Fixpoint deliver_all (local : Clock) (msgs : list (bytes * Clock)) : option Clock :=
  match msgs with
  | [] => Some local
  | (s, m) :: msgs =>
    if causally_deliverable local s m then deliver_all (merge local m) msgs else None
  end.

Definition sent_by (k : bytes) (msgs : list (bytes * Clock)) : Z :=
  zlen (filter (fun p => p.1 = k) msgs).

Lemma sent_by_app k l1 l2 : sent_by k (l1 ++ l2) = sent_by k l1 + sent_by k l2.
Proof. unfold sent_by. by rewrite filter_app, zlen_app. Qed.

Lemma sent_by_one k s m : sent_by k [(s, m)] = if decide (k = s) then 1 else 0.
Proof.
  unfold sent_by. rewrite filter_cons. cbn. repeat case_decide; subst; done.
Qed.

Lemma sent_by_le k l : 0 <= sent_by k l <= zlen l.
Proof.
  unfold sent_by, zlen. pose proof (length_filter (fun p : bytes * Clock => p.1 = k) l). lia.
Qed.

Lemma deliver_all_counts done_ msgs local final :
  clock_nonneg local -> Forall (fun p => clock_nonneg p.2) msgs ->
  (forall k, component local k = sent_by k done_) ->
  zlen (done_ ++ msgs) < 2 ^ 63 - 1 ->
  deliver_all local msgs = Some final ->
  (forall k, component final k = sent_by k (done_ ++ msgs)) /\
  (forall i s m, msgs !! i = Some (s, m) ->
    component m s = sent_by s (done_ ++ take i msgs) + 1 /\
    forall k, k <> s -> component m k <= sent_by k (done_ ++ take i msgs)).
Proof.
  revert done_ local. induction msgs as [|[s m] msgs IH]; intros done_ local Hl Hms Hc Hlen Hd.
  { injection Hd as <-. rewrite app_nil_r. split; [done|]. by intros []. }
  apply Forall_cons_1 in Hms as [Hm Hms]. cbn [deliver_all] in Hd. cbn in Hm.
  destruct (causally_deliverable local s m) eqn:Hdel; [|done].
  assert (component local s < 2 ^ 63 - 1) as Hmax.
  { rewrite Hc. pose proof (sent_by_le s done_). rewrite zlen_app in Hlen.
    pose proof (zlen_nonneg ((s, m) :: msgs)). lia. }
  pose proof (proj1 (deliverable_true local s m Hl Hmax) Hdel) as [Hs Ho].
  assert (forall k, component (merge local m) k = sent_by k (done_ ++ [(s, m)])) as Hc'.
  { intros k. rewrite sent_by_app, sent_by_one, component_merge, <- Hc by done.
    case_decide; [subst; lia|]. specialize (Ho k ltac:(done)). lia. }
  destruct (IH (done_ ++ [(s, m)]) (merge local m)) as [Hfin Hprev]; [|done|done| |done|].
  { intros k. rewrite Hc'. apply sent_by_le. }
  { by rewrite <- app_assoc. }
  split; [by setoid_rewrite <- app_assoc in Hfin|].
  intros [|i] s' m' Hi; cbn in Hi; simplify_eq; cbn [take].
  - rewrite app_nil_r, <- Hc. split; [done|]. intros k Hk. rewrite <- Hc. auto.
  - specialize (Hprev i s' m' Hi). by setoid_rewrite <- app_assoc in Hprev.
Qed.

(** Delivering by the rule preserves causal order: a receiver that starts
  from the empty clock and accepts every message of a sequence by
  [causally_deliverable], merging each, has counted exactly the messages of each
  sender; and each message accepted was the sender's next one and depended only
  on messages accepted before it. *)
Theorem delivery_is_causal (msgs : list (bytes * Clock)) (final : Clock) :
  Forall (fun p => clock_nonneg p.2) msgs -> zlen msgs < 2 ^ 63 - 1 ->
  deliver_all ∅ msgs = Some final ->
  (forall k, component final k = sent_by k msgs) /\
  (forall i s m, msgs !! i = Some (s, m) ->
    component m s = sent_by s (take i msgs) + 1 /\
    forall k, k <> s -> component m k <= sent_by k (take i msgs)).
Proof.
  intros Hm Hlen Hd. apply (deliver_all_counts [] msgs ∅ final); try done.
Qed.

(** ** Placement *)

(** A key whose node changed although both nodes are in both sets. *)
Definition shuffled (after : gmap bytes bytes) (nb na : list bytes) (p : bytes * bytes) : Prop :=
  exists now, after !! p.1 = Some now /\ p.2 <> now /\ now ∈ nb /\ p.2 ∈ na.

#[global] Instance shuffled_dec after nb na p : Decision (shuffled after nb na p).
Proof.
  unfold shuffled. destruct (after !! p.1) as [now|].
  - destruct (decide (p.2 <> now /\ now ∈ nb /\ p.2 ∈ na)) as [H|H]; [left; eauto|right].
    intros (? & [= <-] & H'). auto.
  - right. by intros (? & [=] & _).
Defined.

Definition kept (after : gmap bytes bytes) (p : bytes * bytes) : Prop := after !! p.1 = Some p.2.

#[global] Instance kept_dec after p : Decision (kept after p).
Proof. unfold kept. apply _. Defined.

Lemma movement_fold after nb na l m :
  let m' := foldl (movement_step after nb na) m l in
  moved_between_survivors m' =
    moved_between_survivors m ++ (filter (shuffled after nb na) l).*1 /\
  stayed m' = stayed m + zlen (filter (kept after) l) /\
  stayed m' + moved_to_new m' + moved_off_gone m' + zlen (moved_between_survivors m') =
    stayed m + moved_to_new m + moved_off_gone m + zlen (moved_between_survivors m) +
    zlen (filter (fun p => is_Some (after !! p.1)) l).
Proof.
  revert m. induction l as [|[k was] l IH]; intros m; cbn [foldl].
  { cbn. rewrite app_nil_r, !zlen_nil. split; [done|]. lia. }
  destruct (IH (movement_step after nb na m (k, was))) as (Hb & Hs & Ht). clear IH.
  rewrite !filter_cons. cbn [fst].
  unfold movement_step in *. destruct (after !! k) as [now|] eqn:Hk.
  - rewrite (decide_True (P := is_Some _)) by eauto.
    assert (kept after (k, was) <-> was = now) as Hkept.
    { unfold kept. cbn. rewrite Hk. split; congruence. }
    assert (shuffled after nb na (k, was) <-> was <> now /\ now ∈ nb /\ was ∈ na) as Hsh.
    { unfold shuffled. cbn. rewrite Hk. split; [by intros (? & [= <-] & ?)|eauto]. }
    destruct (decide (was = now)) as [|Hne];
      [|destruct (decide (now ∉ nb)) as [|Hnb]; [|destruct (decide (was ∉ na)) as [|Hna]]];
      repeat (case_decide; try tauto); cbn [stayed moved_to_new moved_off_gone moved_between_survivors] in *;
      rewrite Hb, Hs, ?zlen_cons in *; rewrite ?zlen_app, ?zlen_cons, ?zlen_nil in *;
      rewrite <- ?app_assoc; (split; [done|]); lia.
  - assert (~ kept after (k, was)) by (unfold kept; cbn; congruence).
    assert (~ shuffled after nb na (k, was)) by (intros (? & ? & _); cbn in *; congruence).
    rewrite !decide_False by (done || rewrite Hk; by intros [? [=]]). auto.
Qed.

(** [movement] reports every key once and the shuffled ones by name: the keys
  it lists are, in order and without repetition, exactly those that moved between
  two nodes present before and after; it counts as stayed the keys whose node is
  the same; and its four counts add up to the keys placed both times. *)
Theorem movement_classifies (before after : gmap bytes bytes) (nb na : list bytes) :
  let m := movement before after nb na in
  (forall k, k ∈ moved_between_survivors m <->
    exists was now, before !! k = Some was /\ after !! k = Some now /\
      was <> now /\ now ∈ nb /\ was ∈ na) /\
  NoDup (moved_between_survivors m) /\
  StronglySorted (fun a b => bytes_le a b = true) (moved_between_survivors m) /\
  stayed m = zlen (filter (kept after) (entries before)) /\
  stayed m + moved_to_new m + moved_off_gone m + zlen (moved_between_survivors m) =
    zlen (filter (fun p => is_Some (after !! p.1)) (entries before)).
Proof.
  intros m. subst m. unfold movement.
  destruct (movement_fold after nb na (entries before) Movement_default) as (Hb & Hs & Ht).
  change (moved_between_survivors Movement_default) with (@nil bytes) in Hb, Ht.
  change (stayed Movement_default) with 0 in Hs, Ht.
  change (moved_to_new Movement_default) with 0 in Ht.
  change (moved_off_gone Movement_default) with 0 in Ht.
  change (zlen (@nil bytes)) with 0 in Ht. rewrite app_nil_l in Hb. rewrite Hb in *. split; [|split; [|split; [|split; [lia|lia]]]].
  - intros k. rewrite list_elem_of_fmap. split.
    + intros ([k' was] & -> & [(now & Hn & Hrest) Hin%list_elem_of_entries]%list_elem_of_filter).
      exists was, now. by cbn in *.
    + intros (was & now & Hw & Hn & Hrest). exists (k, was). split; [done|].
      apply list_elem_of_filter. split; [by exists now|]. by apply list_elem_of_entries.
  - eapply sublist_NoDup; [apply (NoDup_map_keys before)|]. apply fmap_sublist, sublist_filter.
  - apply StronglySorted_fmap, StronglySorted_filter, sort_by_sorted.
    + intros x y. apply bytes_le_total.
    + intros x y z. apply bytes_le_trans.
Qed.

(** ** Quorums *)

(** The replicas are [0 .. n - 1]. *)
Definition replicas (n : Z) : gset nat := set_seq 0 (Z.to_nat n).

Definition quorum (n s : Z) (Q : gset nat) : Prop := Q ⊆ replicas n /\ Z.of_nat (size Q) = s.

Lemma quorum_prefix n s : 0 <= s <= n -> quorum n s (set_seq 0 (Z.to_nat s)).
Proof.
  intros. split; [intros x; unfold replicas; rewrite !elem_of_set_seq; lia|].
  rewrite size_set_seq. lia.
Qed.

Lemma quorum_suffix n s : 0 <= s <= n -> quorum n s (set_seq (Z.to_nat (n - s)) (Z.to_nat s)).
Proof.
  intros. split; [intros x; unfold replicas; rewrite !elem_of_set_seq; lia|].
  rewrite size_set_seq. lia.
Qed.

Lemma quorums_meet n r w R W :
  0 <= n -> n < r + w -> quorum n r R -> quorum n w W -> exists x, x ∈ R ∩ W.
Proof.
  intros H0 Hn [HR Hr] [HW Hw]. destruct (decide (R ∩ W = ∅)) as [He|He].
  - assert (size (R ∪ W) <= size (replicas n))%nat by (apply subseteq_size; set_solver).
    rewrite size_union in H by set_solver. unfold replicas in H. rewrite size_set_seq in H.
    lia.
  - by apply set_choose_L.
Qed.

Lemma quorum_range n s Q : quorum n s Q -> 0 <= s.
Proof. intros [_ <-]. lia. Qed.

(** The overlap test is exactly intersection: for counts of replicas in range,
  it answers yes if and only if every set of [r] replicas shares a member with
  every set of [w] replicas. *)
Theorem quorum_overlaps_iff (n r w : Z) :
  0 <= r <= n -> 0 <= w <= n -> n < 2 ^ 62 ->
  quorum_overlaps n r w = true <->
    forall R W, quorum n r R -> quorum n w W -> exists x, x ∈ R ∩ W.
Proof.
  intros Hr Hw Hn. unfold quorum_overlaps.
  rewrite wrap_s_small by (try (unfold in_s; cbn); lia). rewrite Z.ltb_lt. split.
  - intros H R W. apply quorums_meet; lia.
  - intros H. destruct (H _ _ (quorum_prefix n r Hr) (quorum_suffix n w Hw)) as [x Hx].
    rewrite elem_of_intersection, !elem_of_set_seq in Hx. lia.
Qed.

(** The smallest read quorum is the least that works: it is a size between 1
  and [n] that overlaps every write of [w], no smaller positive size does, and
  two writes can miss each other exactly when [write_conflict_possible] says so. *)
Theorem smallest_read_quorum_least (n w : Z) :
  0 < w <= n -> n < 2 ^ 62 ->
  let r := smallest_read_quorum n w in
  1 <= r <= n /\ quorum_overlaps n r w = true /\
  (forall r', 1 <= r' -> r' <= n -> quorum_overlaps n r' w = true -> r <= r') /\
  (write_conflict_possible n w = true <->
    exists W1 W2, quorum n w W1 /\ quorum n w W2 /\ W1 ∩ W2 = ∅).
Proof.
  intros Hw Hn r. subst r. unfold smallest_read_quorum, quorum_overlaps, write_conflict_possible.
  rewrite !(wrap_s_small 64 (n - w)) by (try (unfold in_s; cbn); lia).
  rewrite !wrap_s_small by (try (unfold in_s; cbn); lia).
  rewrite Z.ltb_lt, Z.leb_le. split; [lia|]. split; [lia|]. split.
  - intros r' H1 Hr'. rewrite wrap_s_small by (try (unfold in_s; cbn); lia). rewrite Z.ltb_lt. lia.
  - split.
    + intros H. exists (set_seq 0 (Z.to_nat w)), (set_seq (Z.to_nat (n - w)) (Z.to_nat w)).
      split; [apply quorum_prefix; lia|]. split; [apply quorum_suffix; lia|].
      apply set_eq. intros x. rewrite elem_of_intersection, !elem_of_set_seq. set_solver by lia.
    + intros (W1 & W2 & H1 & H2 & He). destruct (decide (2 * w <= n)); [done|].
      destruct (quorums_meet n w w W1 W2 ltac:(lia) ltac:(lia) H1 H2) as [x Hx]. set_solver.
Qed.

(** ** The theorems at concrete clocks and sizes *)

Definition demo_local : Clock := clock [([x61], 1); ([x62], 0)].
Definition demo_msg : Clock := clock [([x61], 1); ([x62], 1)].

Lemma clock_nonneg_dec (c : Clock) :
  forallb (fun p => 0 <=? p.2) (entries c) = true -> clock_nonneg c.
Proof.
  rewrite forallb_forall. intros H k. unfold component.
  destruct (c !! k) as [v|] eqn:E; [|done]. cbn.
  apply Z.leb_le. refine (H (k, v) _). by apply list_elem_of_In, list_elem_of_entries.
Qed.

Lemma deliverable_is_one_step_witness :
  clock_nonneg demo_local /\ clock_nonneg demo_msg /\
  causally_deliverable demo_local [x62] demo_msg = true /\
  forall k, component (merge demo_local demo_msg) k =
    component demo_local k + (if decide (k = [x62]) then 1 else 0).
Proof.
  assert (clock_nonneg demo_local) as Hl by (apply clock_nonneg_dec; reflexivity).
  assert (clock_nonneg demo_msg) as Hm by (apply clock_nonneg_dec; reflexivity).
  split; [exact Hl|]. split; [exact Hm|]. split; [reflexivity|].
  apply (deliverable_is_one_step demo_local demo_msg [x62] Hl Hm); reflexivity.
Defined.

Definition demo_run : list (bytes * Clock) :=
  [([x61], clock [([x61], 1)]); ([x62], demo_msg); ([x61], clock [([x61], 2); ([x62], 1)])].

Lemma delivery_is_causal_witness :
  exists final, deliver_all ∅ demo_run = Some final /\
    (forall k, component final k = sent_by k demo_run) /\
    (forall i s m, demo_run !! i = Some (s, m) ->
      component m s = sent_by s (take i demo_run) + 1 /\
      forall k, k <> s -> component m k <= sent_by k (take i demo_run)).
Proof.
  eexists. split; [reflexivity|]. apply delivery_is_causal.
  - repeat first [by apply Forall_nil | apply Forall_cons_2]; apply clock_nonneg_dec; reflexivity.
  - reflexivity.
  - reflexivity.
Defined.

Lemma quorum_overlaps_iff_witness :
  0 <= 2 <= 3 /\
  (quorum_overlaps 3 2 2 = true <->
    forall R W, quorum 3 2 R -> quorum 3 2 W -> exists x, x ∈ R ∩ W).
Proof. split; [lia|]. apply (quorum_overlaps_iff 3 2 2); lia. Defined.

Lemma smallest_read_quorum_least_witness :
  smallest_read_quorum 5 2 = 4 /\ 1 <= 4 <= 5 /\ quorum_overlaps 5 4 2 = true /\
  (forall r', 1 <= r' -> r' <= 5 -> quorum_overlaps 5 r' 2 = true -> 4 <= r') /\
  (write_conflict_possible 5 2 = true <->
    exists W1 W2, quorum 5 2 W1 /\ quorum 5 2 W2 /\ W1 ∩ W2 = ∅).
Proof. split; [reflexivity|]. apply (smallest_read_quorum_least 5 2); lia. Defined.

(** ** The permutation oracle

  [permute] swaps in place and restores what it swapped; it enumerates every
  order of its items exactly once. *)

(** ** Swapping *)

Definition transpose (i j n : nat) : nat :=
  if decide (n = i) then j else if decide (n = j) then i else n.

Lemma length_swap i j l : length (swap i j l) = length l.
Proof. unfold swap. destruct (l !! i), (l !! j); by rewrite ?length_insert. Qed.

Lemma lookup_swap i j l n :
  (i < length l)%nat -> (j < length l)%nat -> swap i j l !! n = l !! transpose i j n.
Proof.
  intros Hi Hj. unfold swap, transpose.
  destruct (lookup_lt_is_Some_2 l i Hi) as [x Hx], (lookup_lt_is_Some_2 l j Hj) as [y Hy].
  rewrite Hx, Hy. destruct (decide (n = j)) as [->|Hnj].
  - rewrite list_lookup_insert_eq by (by rewrite length_insert).
    case_decide; subst; congruence.
  - rewrite list_lookup_insert_ne by done. case_decide; subst.
    + by rewrite list_lookup_insert_eq.
    + by rewrite list_lookup_insert_ne.
Qed.

Lemma transpose_involutive i j n : transpose i j (transpose i j n) = n.
Proof. unfold transpose. repeat case_decide; congruence. Qed.

Lemma transpose_lt i j n m :
  (i < m)%nat -> (j < m)%nat -> (n < m)%nat -> (transpose i j n < m)%nat.
Proof. unfold transpose. repeat case_decide; lia. Qed.

Lemma swap_swap i j l :
  (i < length l)%nat -> (j < length l)%nat -> swap i j (swap i j l) = l.
Proof.
  intros Hi Hj. apply list_eq. intros n.
  rewrite !lookup_swap by (by rewrite ?length_swap). by rewrite transpose_involutive.
Qed.

Lemma swap_perm i j l : (i < length l)%nat -> (j < length l)%nat -> swap i j l ≡ₚ l.
Proof.
  intros Hi Hj. apply Permutation_inj. split; [apply length_swap|].
  exists (transpose i j). split; [|intros n; by apply lookup_swap].
  intros x y H. by rewrite <- (transpose_involutive i j x), H, transpose_involutive.
Qed.

Lemma take_swap k i l :
  (k <= i)%nat -> (i < length l)%nat -> take k (swap k i l) = take k l.
Proof.
  intros Hk Hi. apply list_eq. intros n. destruct (decide (n < k)%nat).
  - rewrite !lookup_take_lt, lookup_swap by lia. unfold transpose. by rewrite !decide_False by lia.
  - rewrite !lookup_take_ge by lia. done.
Qed.

(** ** The enumeration *)

Abbreviation orders todo items k := ((permute todo items k []).2).

(** The body of the inner loop. *)
Definition permute_step (todo k : nat)
    : list nat * list (list nat) -> nat -> list nat * list (list nat) :=
  fun '(items, out) i =>
    let items := swap k i items in
    let '(items, out) := permute todo items (k + 1) out in
    (swap k i items, out).

Lemma permute_S todo items k out :
  permute (S todo) items k out =
    foldl (permute_step todo k) (items, out) (seq k (length items - k)).
Proof. done. Qed.

Lemma permute_loop todo items k js out :
  (forall items out, length items = (k + 1 + todo)%nat ->
    permute todo items (k + 1) out = (items, out ++ orders todo items (k + 1))) ->
  length items = (k + S todo)%nat -> Forall (fun i => (k <= i < length items)%nat) js ->
  foldl (permute_step todo k) (items, out) js =
    (items, out ++ concat (map (fun i => orders todo (swap k i items) (k + 1)) js)).
Proof.
  intros IH Hl. revert out. induction js as [|i js IHj]; intros out Hjs; [cbn; by rewrite app_nil_r|].
  apply Forall_cons_1 in Hjs as [Hi Hjs]. cbn [foldl map concat]. unfold permute_step at 2.
  rewrite IH by (rewrite length_swap; lia). rewrite swap_swap by lia.
  rewrite IHj by done. by rewrite <- app_assoc.
Qed.

Lemma seq_in_range k n : Forall (fun i => (k <= i < k + n)%nat) (seq k n).
Proof. apply Forall_forall. intros i Hi%elem_of_seq. lia. Qed.

Lemma permute_frame todo items k out :
  length items = (k + todo)%nat ->
  permute todo items k out = (items, out ++ orders todo items k).
Proof.
  revert items k out. induction todo as [|todo IH]; intros items k out Hl; [done|].
  rewrite !permute_S, Hl. replace (k + S todo - k)%nat with (S todo) by lia.
  rewrite !permute_loop; try done; rewrite ?Hl; auto using seq_in_range.
Qed.

Lemma permute_unfold todo items k :
  length items = (k + S todo)%nat ->
  orders (S todo) items k =
    concat (map (fun i => orders todo (swap k i items) (k + 1)) (seq k (S todo))).
Proof.
  intros Hl. rewrite permute_S, Hl. replace (k + S todo - k)%nat with (S todo) by lia.
  rewrite permute_loop; [done|intros; by apply permute_frame|done|]. rewrite Hl. apply seq_in_range.
Qed.

Lemma elem_of_concat_map {A B} (f : A -> list B) l y :
  y ∈ concat (map f l) <-> exists x, x ∈ l /\ y ∈ f x.
Proof.
  induction l as [|a l IH]; cbn; [set_solver|]. rewrite elem_of_app, IH. set_solver.
Qed.

Lemma NoDup_concat_map {A B} (f : A -> list B) l :
  NoDup l -> (forall x, x ∈ l -> NoDup (f x)) ->
  (forall x x' y, x ∈ l -> x' ∈ l -> y ∈ f x -> y ∈ f x' -> x = x') ->
  NoDup (concat (map f l)).
Proof.
  induction 1 as [|a l Ha Hl IH]; intros Hf Hd; cbn; [constructor|].
  apply NoDup_app. split; [apply Hf; set_solver|]. split.
  - intros y Hy (x & Hx & Hyx)%elem_of_concat_map.
    assert (a = x) by (apply (Hd a x y); set_solver). by subst.
  - apply IH; [intros x Hx; apply Hf; set_solver|]. intros x x' y Hx Hx'. apply Hd; set_solver.
Qed.

(** The orders of [items] that agree with it on the first [k]. *)
Definition order_of (items : list nat) (k : nat) (p : list nat) : Prop :=
  take k p = take k items /\ p ≡ₚ items.

Lemma order_of_step items k p :
  (k < length items)%nat ->
  order_of items k p <->
    exists i, (k <= i < length items)%nat /\ order_of (swap k i items) (k + 1) p.
Proof.
  intros Hk. unfold order_of. split.
  - intros [Ht Hp]. assert (length p = length items) as Hlp by (by rewrite Hp).
    destruct (lookup_lt_is_Some_2 p k) as [x Hx]; [lia|].
    assert (drop k p ≡ₚ drop k items) as Hd.
    { apply (Permutation_app_inv_l (take k items)). rewrite take_drop, <- Ht, take_drop. done. }
    assert (x ∈ drop k items) as [j Hj]%list_elem_of_lookup.
    { rewrite <- Hd. apply list_elem_of_lookup. exists 0%nat. by rewrite lookup_drop, Nat.add_0_r. }
    rewrite lookup_drop in Hj. pose proof (lookup_lt_Some _ _ _ Hj).
    exists (k + j)%nat. split; [lia|]. split; [|by rewrite Hp, swap_perm by lia].
    rewrite !Nat.add_1_r. rewrite (take_S_r p k x), (take_S_r _ k x); [|..|done].
    + rewrite take_swap by lia. by rewrite Ht.
    + rewrite lookup_swap by lia. unfold transpose. by rewrite decide_True.
  - intros (i & Hi & Ht & Hp). rewrite swap_perm in Hp by lia. split; [|done].
    apply (f_equal (take k)) in Ht. rewrite !take_take in Ht.
    rewrite Nat.min_l in Ht by lia. by rewrite take_swap in Ht by lia.
Qed.

Lemma permute_orders todo items k p :
  length items = (k + todo)%nat -> p ∈ orders todo items k <-> order_of items k p.
Proof.
  revert items k. induction todo as [|todo IH]; intros items k Hl.
  - cbn. rewrite list_elem_of_singleton. unfold order_of. split; [intros ->; auto|].
    intros [Ht Hp]. assert (length p = length items) by (by rewrite Hp).
    rewrite !take_ge in Ht by lia. done.
  - rewrite permute_unfold by done. rewrite elem_of_concat_map, order_of_step by lia.
    split; intros (i & Hi & H); exists i.
    + apply elem_of_seq in Hi. rewrite IH in H by (rewrite length_swap; lia). auto with lia.
    + rewrite IH by (rewrite length_swap; lia). rewrite elem_of_seq. auto with lia.
Qed.

Lemma permute_nodup todo items k :
  length items = (k + todo)%nat -> NoDup items -> NoDup (orders todo items k).
Proof.
  revert items k. induction todo as [|todo IH]; intros items k Hl Hn.
  - cbn. apply NoDup_singleton.
  - rewrite permute_unfold by done. apply NoDup_concat_map; [apply NoDup_seq| |].
    + intros i Hi%elem_of_seq. apply IH; [rewrite length_swap; lia|]. by rewrite swap_perm by lia.
    + intros i j p Hi%elem_of_seq Hj%elem_of_seq Hp Hp'.
      apply permute_orders in Hp as [Hp _]; [|rewrite length_swap; lia].
      apply permute_orders in Hp' as [Hp' _]; [|rewrite length_swap; lia].
      apply (f_equal (fun l => l !! k)) in Hp, Hp'.
      rewrite !lookup_take_lt, lookup_swap in Hp, Hp' by lia.
      unfold transpose in Hp, Hp'. rewrite decide_True in Hp, Hp' by done.
      apply (NoDup_lookup items i j (default 0%nat (items !! i)) Hn);
        destruct (lookup_lt_is_Some_2 items i) as [x Hx]; try lia; rewrite Hx in *; cbn; congruence.
Qed.

Lemma length_concat_map {A B} (f : A -> list B) l n :
  (forall x, x ∈ l -> length (f x) = n) -> length (concat (map f l)) = (length l * n)%nat.
Proof.
  induction l as [|a l IH]; intros H; [done|]. cbn. rewrite length_app, H, IH by set_solver. done.
Qed.

Lemma permute_length todo items k :
  length items = (k + todo)%nat -> length (orders todo items k) = fact todo.
Proof.
  revert items k. induction todo as [|todo IH]; intros items k Hl; [done|].
  rewrite permute_unfold by done. rewrite (length_concat_map _ _ (fact todo)).
  - rewrite length_seq. done.
  - intros i Hi%elem_of_seq. apply IH. rewrite length_swap. lia.
Qed.

(** [permutations n] is every delivery order exactly once: its members are the
  rearrangements of [0 .. n - 1], none is repeated, and there are [n!]. *)
Theorem permutations_complete (n : nat) :
  (forall p, p ∈ permutations n <-> p ≡ₚ seq 0 n) /\
  NoDup (permutations n) /\ length (permutations n) = fact n.
Proof.
  unfold permutations. rewrite length_seq.
  assert (length (seq 0 n) = (0 + n)%nat) as Hl by apply length_seq.
  split; [|split; [apply permute_nodup; [done|apply NoDup_seq]|by apply permute_length]].
  intros p. rewrite permute_orders by done. unfold order_of. cbn [take]. tauto.
Qed.
