(* ===== verification/OracleMerkle.v ===== *)
(** * Merkle trees

  [merkle_levels] hashes the tree its levels describe: a binary tree over the
  leaves in order, whose root binds the leaves up to a hash collision, and which
  a top-down walk compares within [descent_bound].  [differing_ranges] lists the
  differences exactly. *)

From S2P Require Import Prelude Text Oracles.

(** ** Hexadecimal is injective *)

Lemma digit_char_inj x y :
  0 <= x < 16 -> 0 <= y < 16 -> digit_char x = digit_char y -> x = y.
Proof.
  intros Hx Hy H. apply (f_equal b2z) in H. unfold digit_char in H.
  rewrite !b2z_z2b in H. revert H.
  destruct (Z.ltb_spec x 10), (Z.ltb_spec y 10); rewrite !Z.mod_small by lia; lia.
Qed.

Lemma hex_byte_inj x y : hex_byte x = hex_byte y -> x = y.
Proof.
  pose proof (b2z_range x). pose proof (b2z_range y).
  intros [= H1 H2]. apply (inj b2z).
  apply digit_char_inj in H1; [|Z.to_euclidean_division_equations; lia..].
  apply digit_char_inj in H2; [|apply Z.mod_pos_bound; lia..].
  rewrite (Z.div_mod (b2z x) 16), (Z.div_mod (b2z y) 16) by lia. congruence.
Qed.

Lemma hex_cons b bs : hex (b :: bs) = hex_byte b ++ hex bs.
Proof. done. Qed.

Lemma hex_inj x y : hex x = hex y -> x = y.
Proof.
  revert y. induction x as [|a x IH]; intros [|b y]; rewrite ?hex_cons; try done.
  intros [H1 H2]%app_inj_1; [|done]. apply hex_byte_inj in H1. f_equal; auto.
Qed.

Lemma length_hex x : length (hex x) = (2 * length x)%nat.
Proof. induction x as [|a x IH]; [done|]. rewrite hex_cons, length_app, IH. cbn. lia. Qed.

(** ** The tree behind the levels *)

Inductive Tree : Type :=
| Leaf (d : bytes)
| Node (l r : Tree).

Fixpoint tree_leaves (t : Tree) : list bytes :=
  match t with
  | Leaf d => [d]
  | Node l r => tree_leaves l ++ tree_leaves r
  end.

Fixpoint depth (t : Tree) : Z :=
  match t with
  | Leaf _ => 0
  | Node l r => 1 + Z.max (depth l) (depth r)
  end.

Fixpoint pair_up (ts : list Tree) : list Tree :=
  match ts with
  | l :: r :: rest => Node l r :: pair_up rest
  | ts => ts
  end.

Fixpoint raise (fuel : nat) (ts : list Tree) : list Tree :=
  match fuel with
  | O => ts
  | S fuel => if decide (1 < length ts)%nat then raise fuel (pair_up ts) else ts
  end.

Definition tree_of (leaves : list bytes) : Tree :=
  default (Leaf []) (head (raise (length leaves) (map Leaf leaves))).

(** Two at a time. *)
Lemma list_pair_ind {A} (P : list A -> Prop) :
  P [] -> (forall x, P [x]) -> (forall x y l, P l -> P (x :: y :: l)) -> forall l, P l.
Proof.
  intros H0 H1 H2 l. enough (P l /\ forall x, P (x :: l)) by tauto.
  induction l as [|y l [IH1 IH2]]; split; auto.
Qed.

Lemma length_pair_up ts : length (pair_up ts) = Nat.div2 (length ts + 1).
Proof.
  induction ts as [|x|x y ts IH] using list_pair_ind; [done|done|].
  cbn [pair_up length]. rewrite IH. done.
Qed.

Lemma pair_up_leaves ts : concat (map tree_leaves (pair_up ts)) = concat (map tree_leaves ts).
Proof.
  induction ts as [|x|x y ts IH] using list_pair_ind; [done|done|].
  cbn [pair_up map concat tree_leaves concat]. cbn [concat] in IH.
  rewrite IH. by rewrite <- app_assoc.
Qed.

Lemma pair_up_depth ts d :
  0 <= d -> Forall (fun t => depth t <= d) ts -> Forall (fun t => depth t <= d + 1) (pair_up ts).
Proof.
  intros Hd. induction ts as [|x|x y ts IH] using list_pair_ind; intros H; [done| |].
  - eapply Forall_impl; [exact H|]. cbn. lia.
  - apply Forall_cons_1 in H as [Hx [Hy H]%Forall_cons_1]. cbn [pair_up].
    apply Forall_cons_2; [cbn; lia|auto].
Qed.

Lemma div2_lt n : (1 < n)%nat -> (0 < Nat.div2 (n + 1) < n)%nat.
Proof. intros. rewrite Nat.div2_div.
  pose proof (Nat.div_mod_eq (n + 1) 2). pose proof (Nat.mod_upper_bound (n + 1) 2). lia. Qed.

(** Each round halves the number of trees: the length is enough fuel. *)
Lemma raise_one fuel ts :
  ts <> [] -> (length ts <= fuel)%nat -> exists t, raise fuel ts = [t].
Proof.
  revert ts. induction fuel as [|fuel IH]; intros ts Hne Hl; [by destruct ts; cbn in Hl; [|lia]|].
  cbn [raise]. case_decide as Hlen.
  - pose proof (div2_lt _ Hlen) as Hd. rewrite <- length_pair_up in Hd. apply IH; [|lia].
    intros E. rewrite E in Hd. cbn in Hd. lia.
  - destruct ts as [|t [|]]; cbn in Hlen; try done; [by exists t|lia].
Qed.

Lemma raise_leaves fuel ts :
  concat (map tree_leaves (raise fuel ts)) = concat (map tree_leaves ts).
Proof.
  revert ts. induction fuel as [|fuel IH]; intros ts; [done|]. cbn [raise].
  case_decide; [|done]. by rewrite IH, pair_up_leaves.
Qed.

Lemma tree_of_spec leaves :
  leaves <> [] ->
  raise (length leaves) (map Leaf leaves) = [tree_of leaves] /\
  tree_leaves (tree_of leaves) = leaves.
Proof.
  intros Hne. destruct (raise_one (length leaves) (map Leaf leaves)) as [t Ht].
  { by destruct leaves. }
  { by rewrite length_map. }
  unfold tree_of. rewrite Ht. split; [done|]. cbn.
  pose proof (raise_leaves (length leaves) (map Leaf leaves)) as H.
  rewrite Ht in H. cbn in H. rewrite app_nil_r in H. rewrite H.
  clear. induction leaves as [|d l IH]; [done|]. cbn. by f_equal.
Qed.

(** ** Hashing the tree *)

Section hash.
Context (sha256 : bytes -> bytes).
Abbreviation merkle_leaf := (merkle_leaf sha256).
Abbreviation merkle_node := (merkle_node sha256).
Abbreviation next_level := (next_level sha256).
Abbreviation levels_from := (levels_from sha256).
Abbreviation merkle_levels := (merkle_levels sha256).
Abbreviation merkle_root := (merkle_root sha256).

Fixpoint tree_hash (t : Tree) : bytes :=
  match t with
  | Leaf d => merkle_leaf d
  | Node l r => merkle_node (tree_hash l) (tree_hash r)
  end.

Lemma next_level_hash ts : next_level (map tree_hash ts) = map tree_hash (pair_up ts).
Proof.
  induction ts as [|x|x y ts IH] using list_pair_ind; [done|done|].
  cbn [map pair_up Oracles.next_level]. by rewrite IH.
Qed.

Lemma levels_from_nonempty fuel l : levels_from fuel l <> [].
Proof. destruct fuel; cbn; by case_decide. Qed.

Lemma last_cons_nonempty {A} (x : A) l : l <> [] -> last (x :: l) = last l.
Proof. by destruct l. Qed.

Lemma levels_from_last fuel ts :
  last (levels_from fuel (map tree_hash ts)) = Some (map tree_hash (raise fuel ts)).
Proof.
  revert ts. induction fuel as [|fuel IH]; intros ts; cbn [Oracles.levels_from raise].
  - by case_decide.
  - rewrite length_map. case_decide; [|done].
    rewrite last_cons_nonempty by apply levels_from_nonempty. rewrite next_level_hash. apply IH.
Qed.

Lemma merkle_levels_cons leaves :
  leaves <> [] ->
  merkle_levels leaves = levels_from (length leaves) (map tree_hash (map Leaf leaves)).
Proof. intros. destruct leaves; [done|]. by rewrite map_map. Qed.

Lemma merkle_levels_last leaves :
  leaves <> [] -> last (merkle_levels leaves) = Some [tree_hash (tree_of leaves)].
Proof.
  intros Hne. rewrite merkle_levels_cons, levels_from_last by done.
  by rewrite (proj1 (tree_of_spec leaves Hne)).
Qed.

Lemma merkle_root_tree leaves :
  leaves <> [] -> merkle_root leaves = tree_hash (tree_of leaves).
Proof. intros. unfold Oracles.merkle_root. by rewrite merkle_levels_last. Qed.

(** ** The shape of the levels *)

Lemma length_next_level l : length (next_level l) = Nat.div2 (length l + 1).
Proof.
  induction l as [|x|x y l IH] using list_pair_ind; [done|done|].
  cbn [Oracles.next_level length]. rewrite IH. done.
Qed.

Lemma log2_up_half n : 1 < n -> Z.log2_up ((n + 1) / 2) = Z.log2_up n - 1.
Proof.
  intros Hn. pose proof (Z.log2_up_spec n Hn) as Hs. pose proof (Z.log2_up_pos n Hn).
  set (k := Z.log2_up n) in *. destruct (decide (k = 1)) as [Hk|Hk].
  - rewrite Hk in *. cbn in Hs. by replace n with 2 by lia.
  - apply Z.log2_up_unique; [lia|].
    assert (2 ^ k = 2 * 2 ^ (k - 1)) as E1 by (rewrite <- Z.pow_succ_r by lia; f_equal; lia).
    assert (2 ^ Z.pred k = 2 * 2 ^ Z.pred (k - 1)) as E2 by (rewrite <- Z.pow_succ_r by lia; f_equal; lia).
    rewrite E1, E2 in Hs. Z.to_euclidean_division_equations. lia.
Qed.

Lemma levels_from_count fuel l :
  l <> [] -> (length l <= fuel)%nat ->
  zlen (levels_from fuel l) = Z.log2_up (zlen l) + 1.
Proof.
  revert l. induction fuel as [|fuel IH]; intros l Hne Hl; [by destruct l; cbn in Hl; [|lia]|].
  cbn [Oracles.levels_from]. case_decide as Hlen.
  - pose proof (div2_lt _ Hlen) as Hd. rewrite <- length_next_level in Hd.
    rewrite zlen_cons, IH; [|intros E; rewrite E in Hd; cbn in Hd; lia|lia].
    assert (zlen (next_level l) = (zlen l + 1) / 2) as ->.
    { unfold zlen. rewrite length_next_level, Nat.div2_div, Nat2Z.inj_div. f_equal. lia. }
    rewrite log2_up_half by (unfold zlen; lia). lia.
  - destruct l as [|x [|]]; cbn in Hlen; try done. lia.
Qed.

Lemma levels_from_steps fuel l i x y :
  levels_from fuel l !! i = Some x -> levels_from fuel l !! S i = Some y -> y = next_level x.
Proof.
  revert l i. induction fuel as [|fuel IH]; intros l i; cbn [Oracles.levels_from]; case_decide; try done.
  destruct i as [|i].
  - cbn. intros [= <-]. destruct fuel; cbn; case_decide; intros Hy; cbn in Hy; by simplify_eq.
  - apply IH.
Qed.

(** The levels are the tree, leaves first: the first level hashes the leaves,
  each following one pairs the one before it and has half its length rounded up,
  the last is the root alone, and there are [log2_up n + 1] of them. *)
Theorem merkle_levels_shape (leaves : list bytes) :
  leaves <> [] ->
  head (merkle_levels leaves) = Some (map merkle_leaf leaves) /\
  (forall i x y, merkle_levels leaves !! i = Some x -> merkle_levels leaves !! S i = Some y ->
    y = next_level x /\ length y = Nat.div2 (length x + 1)) /\
  last (merkle_levels leaves) = Some [merkle_root leaves] /\
  zlen (merkle_levels leaves) = Z.log2_up (zlen leaves) + 1.
Proof.
  intros Hne. rewrite merkle_root_tree, merkle_levels_last, merkle_levels_cons by done.
  split; [|split; [|split; [done|]]].
  - rewrite map_map. cbn. destruct (length leaves); cbn; by case_decide.
  - intros i x y Hx Hy. pose proof (levels_from_steps _ _ _ _ _ Hx Hy) as ->.
    split; [done|apply length_next_level].
  - rewrite levels_from_count; [by unfold zlen; rewrite !length_map|by destruct leaves|by rewrite !length_map].
Qed.

(** ** The root binds the leaves *)

(** The strings that are hashed for a level, and for a list of leaves. *)
Fixpoint level_inputs (l : list bytes) : list bytes :=
  match l with
  | x :: y :: rest => (x01 :: x ++ y) :: level_inputs rest
  | _ => []
  end.

Definition hashed (leaves : list bytes) : list bytes :=
  match leaves with
  | [] => [[]]
  | _ => map (cons x00) leaves ++ concat (map level_inputs (merkle_levels leaves))
  end.

Definition tree_input (t : Tree) : bytes :=
  match t with
  | Leaf d => x00 :: d
  | Node l r => x01 :: tree_hash l ++ tree_hash r
  end.

Fixpoint tree_inputs (t : Tree) : list bytes :=
  match t with
  | Leaf _ => [tree_input t]
  | Node l r => tree_input t :: tree_inputs l ++ tree_inputs r
  end.

Lemma tree_hash_input t : tree_hash t = hex (sha256 (tree_input t)).
Proof. by destruct t. Qed.

Lemma tree_input_in t : tree_input t ∈ tree_inputs t.
Proof. destruct t; cbn; set_solver. Qed.

Lemma pair_up_inputs ts x :
  x ∈ concat (map tree_inputs (pair_up ts)) ->
  x ∈ concat (map tree_inputs ts) \/ x ∈ level_inputs (map tree_hash ts).
Proof.
  induction ts as [|t|t u ts IH] using list_pair_ind; [by left|by left|].
  cbn [pair_up map level_inputs concat tree_inputs tree_input app] in *.
  set_solver.
Qed.

Lemma raise_inputs fuel ts x :
  x ∈ concat (map tree_inputs (raise fuel ts)) ->
  x ∈ concat (map tree_inputs ts) \/
  x ∈ concat (map level_inputs (levels_from fuel (map tree_hash ts))).
Proof.
  revert ts. induction fuel as [|fuel IH]; intros ts; cbn [raise Oracles.levels_from]; [tauto|].
  rewrite length_map. case_decide; [|tauto].
  intros [H1%pair_up_inputs|H2]%IH.
  - cbn [map concat]. set_solver.
  - rewrite <- next_level_hash in H2. cbn [map concat] in *. set_solver.
Qed.

Lemma tree_inputs_hashed leaves x :
  leaves <> [] -> x ∈ tree_inputs (tree_of leaves) -> x ∈ hashed leaves.
Proof.
  intros Hne Hx. pose proof (raise_inputs (length leaves) (map Leaf leaves) x) as H.
  rewrite (proj1 (tree_of_spec leaves Hne)) in H. cbn [map concat] in H.
  rewrite app_nil_r in H. specialize (H Hx). rewrite <- merkle_levels_cons in H by done.
  assert (concat (map tree_inputs (map Leaf leaves)) = map (cons x00) leaves) as E.
  { clear. induction leaves as [|d l IH]; [done|]. cbn in *. by f_equal. }
  cbn [concat] in E. rewrite E in H.
  destruct leaves; [done|]. unfold hashed. rewrite elem_of_app. exact H.
Qed.

Hypothesis sha256_length : forall x, length (sha256 x) = 32%nat.

Lemma length_tree_hash t : length (tree_hash t) = 64%nat.
Proof using sha256_length. rewrite tree_hash_input, length_hex, sha256_length. done. Qed.

(** Equal digests of different strings. *)
Definition collision (xs ys : list bytes) : Prop :=
  exists x y, x ∈ xs /\ y ∈ ys /\ x <> y /\ sha256 x = sha256 y.

Lemma collision_mono xs ys xs' ys' :
  xs ⊆ xs' -> ys ⊆ ys' -> collision xs ys -> collision xs' ys'.
Proof. intros Hx Hy (x & y & ? & ? & ? & ?). exists x, y. auto. Qed.

Lemma tree_hash_input_eq t u :
  tree_hash t = tree_hash u ->
  tree_input t = tree_input u \/ collision (tree_inputs t) (tree_inputs u).
Proof.
  rewrite !tree_hash_input. intros H%hex_inj.
  destruct (decide (tree_input t = tree_input u)) as [|Hne]; [by left|right].
  exists (tree_input t), (tree_input u). auto using tree_input_in.
Qed.

Lemma tree_hash_binds t u :
  tree_hash t = tree_hash u -> t = u \/ collision (tree_inputs t) (tree_inputs u).
Proof using sha256_length.
  revert u. induction t as [d|l IHl r IHr]; intros u H;
    (destruct (tree_hash_input_eq _ _ H) as [Hin|]; [|by right]); destruct u as [d'|l' r'];
    cbn in Hin; simplify_eq; [by left|].
  apply app_inj_1 in Hin as [Hl Hr]; [|by rewrite !length_tree_hash].
  destruct (IHl _ Hl) as [->|Hc]; [destruct (IHr _ Hr) as [->|Hc]; [by left|]|];
    right; (eapply collision_mono; [| |exact Hc]); cbn [tree_inputs]; set_solver.
Qed.

(** The root binds the leaves: if two lists of leaves have the same root then
  they are the same list, or among the strings hashed for the one and for the
  other there are two different ones with the same digest. *)
Theorem merkle_root_binds (a b : list bytes) :
  merkle_root a = merkle_root b -> a = b \/ collision (hashed a) (hashed b).
Proof using sha256_length.
  assert (forall l, l <> [] -> merkle_root [] = merkle_root l ->
    exists x, x ∈ hashed l /\ [] <> x /\ sha256 [] = sha256 x) as Hempty.
  { intros l Hl. rewrite (merkle_root_tree l Hl). cbn. rewrite tree_hash_input. intros H%hex_inj.
    exists (tree_input (tree_of l)). split; [|split; [by destruct (tree_of l)|done]].
    apply tree_inputs_hashed, tree_input_in. done. }
  intros H. destruct (decide (a = [])) as [->|Ha], (decide (b = [])) as [->|Hb]; [by left| | |].
  - destruct (Hempty b Hb H) as (x & ? & ? & ?). right. exists [], x. cbn. set_solver.
  - destruct (Hempty a Ha (eq_sym H)) as (x & ? & ? & ?). right. exists x, []. cbn. set_solver.
  - rewrite !merkle_root_tree in H by done. destruct (tree_hash_binds _ _ H) as [He|Hc].
    + left. rewrite <- (proj2 (tree_of_spec a Ha)), <- (proj2 (tree_of_spec b Hb)). by rewrite He.
    + right. eapply collision_mono; [| |exact Hc]; intros x; by apply tree_inputs_hashed.
Qed.
End hash.

(** ** Differences *)

Definition differs (a b : list bytes) (i : nat) : Prop := a !! i <> b !! i.

Definition covers (out : list (nat * nat)) (i : nat) : Prop :=
  exists r, r ∈ out /\ (r.1 <= i <= r.2)%nat.

(** Ranges in order, apart by at least one index. *)
Definition apart (r r' : nat * nat) : Prop := (r.2 + 1 < r'.1)%nat.

Lemma covers_app out r i : covers (out ++ [r]) i <-> covers out i \/ (r.1 <= i <= r.2)%nat.
Proof. unfold covers. set_solver. Qed.

Lemma StronglySorted_snoc {A} (R : A -> A -> Prop) l x :
  StronglySorted R (l ++ [x]) <-> StronglySorted R l /\ Forall (fun y => R y x) l.
Proof.
  rewrite StronglySorted_app, Forall_forall. split.
  - intros (H & Hl & _). split; [done|]. intros y Hy. apply H; set_solver.
  - intros [Hl H]. split; [|split; [done|repeat constructor]].
    intros y z Hy ->%list_elem_of_singleton. auto.
Qed.

Record ranges_ok (a b : list bytes) (n : nat) (out : list (nat * nat)) : Prop := {
  ok_cover : forall i, covers out i <-> (i < n)%nat /\ differs a b i;
  ok_order : Forall (fun r => (r.1 <= r.2)%nat) out;
  ok_apart : StronglySorted apart out
}.

Lemma covers_in_range a b n out r :
  ranges_ok a b n out -> r ∈ out -> (r.2 < n)%nat.
Proof.
  intros [Hc Ho _] Hr. rewrite Forall_forall in Ho. specialize (Ho r Hr).
  apply (Hc r.2). exists r. auto with lia.
Qed.

Lemma ranges_ok_new a b n out :
  ranges_ok a b n out -> differs a b n ->
  (forall r, r ∈ out -> (r.2 + 1 < n)%nat) -> ranges_ok a b (S n) (out ++ [(n, n)]).
Proof.
  intros [Hc Ho Ha] Hd Hgap. split.
  - intros i. rewrite covers_app, Hc. cbn.
    destruct (decide (i = n)) as [->|]; [|intuition lia]. split; [auto with lia|]. right. lia.
  - apply Forall_app. split; [done|]. by apply Forall_singleton.
  - apply StronglySorted_snoc. split; [done|]. apply Forall_forall. exact Hgap.
Qed.

Lemma ranges_ok_extend a b n out lo :
  ranges_ok a b (S n) (out ++ [(lo, n)]) -> differs a b (S n) ->
  ranges_ok a b (S (S n)) (out ++ [(lo, S n)]).
Proof.
  intros [Hc Ho Ha] Hd. apply Forall_app in Ho as [Ho [Hlo _]%Forall_cons_1].
  apply StronglySorted_snoc in Ha as [Ha Hx]. cbn in Hlo. split.
  - intros i. specialize (Hc i). rewrite covers_app in *. cbn in *.
    destruct (decide (i = S n)) as [->|].
    + split; [auto with lia|]. right. lia.
    + assert ((lo <= i <= S n)%nat <-> (lo <= i <= n)%nat) as -> by lia.
      assert ((i < S (S n))%nat <-> (i < S n)%nat) as -> by lia. exact Hc.
  - apply Forall_app. split; [done|]. apply Forall_singleton. cbn. lia.
  - apply StronglySorted_snoc. auto.
Qed.

Lemma ranges_ok_skip a b n out :
  ranges_ok a b n out -> ~ differs a b n -> ranges_ok a b (S n) out.
Proof.
  intros [Hc Ho Ha] Hd. split; [|done|done]. intros i. rewrite Hc.
  destruct (decide (i = n)) as [->|]; [|intuition lia]. intuition lia.
Qed.

Lemma differing_step_ok a b n out :
  ranges_ok a b n out -> ranges_ok a b (S n) (differing_step a b out n).
Proof.
  intros Hok. unfold differing_step. case_decide as Hd; [|apply ranges_ok_skip; unfold differs; tauto].
  destruct out as [|[lo hi] out _] using rev_ind.
  { apply (ranges_ok_new _ _ _ []); [done|done|]. intros r Hr. inversion Hr. }
  rewrite last_snoc. cbn [fst snd]. case_decide as Hadj.
  - rewrite length_app, Nat.add_sub, take_app_length. subst n. rewrite Nat.add_1_r in *.
    by apply ranges_ok_extend.
  - apply ranges_ok_new; [done|done|]. intros r Hr.
    pose proof (covers_in_range _ _ _ _ (lo, hi) Hok ltac:(set_solver)) as Hhi. cbn in Hhi.
    apply elem_of_app in Hr as [Hr|Hr%list_elem_of_singleton]; [|subst; cbn; lia].
    destruct Hok as [_ Ho Ha]. apply StronglySorted_snoc in Ha as [_ Hx].
    rewrite Forall_forall in Hx, Ho. specialize (Hx r Hr). specialize (Ho (lo, hi) ltac:(set_solver)).
    unfold apart in Hx. cbn in *. lia.
Qed.

(** [differing_ranges] is exact and maximal: an index lies in one of the
  ranges exactly when the two lists differ there (a missing leaf differs from any
  present one), every range is non-empty, and successive ranges are separated by
  an index where the lists agree. *)
Theorem differing_ranges_exact (a b : list bytes) :
  (forall i, covers (differing_ranges a b) i <-> a !! i <> b !! i) /\
  Forall (fun r => (r.1 <= r.2)%nat) (differing_ranges a b) /\
  StronglySorted apart (differing_ranges a b).
Proof.
  assert (ranges_ok a b (Nat.max (length a) (length b)) (differing_ranges a b)) as [Hc Ho Ha].
  { unfold differing_ranges. induction (Nat.max (length a) (length b)) as [|n IH].
    - cbn. split; [|done|constructor]. intros i. unfold covers. set_solver by lia.
    - rewrite seq_S, foldl_app. cbn. by apply differing_step_ok. }
  split; [|done]. intros i. rewrite Hc. split; [by intros [_ ?]|]. intros Hd. split; [|done].
  destruct (decide (i < Nat.max (length a) (length b))%nat); [done|]. destruct Hd.
  rewrite !lookup_ge_None_2 by lia. done.
Qed.

(** ** The descent *)

(** A top-down walk over two trees: compare the nodes, and their children when
  the hashes differ; the result is the number of comparisons. *)
Fixpoint descend (sha256 : bytes -> bytes) (t u : Tree) : Z :=
  if decide (tree_hash sha256 t = tree_hash sha256 u) then 1
  else
    match t, u with
    | Node l r, Node l' r' => 1 + descend sha256 l l' + descend sha256 r r'
    | _, _ => 1
    end.

Definition differing (a b : list bytes) : Z :=
  zlen (filter (fun p => p.1 <> p.2) (zip a b)).

Fixpoint same_shape (t u : Tree) : Prop :=
  match t, u with
  | Leaf _, Leaf _ => True
  | Node l r, Node l' r' => same_shape l l' /\ same_shape r r'
  | _, _ => False
  end.

Lemma same_shape_leaves t u :
  same_shape t u -> length (tree_leaves t) = length (tree_leaves u).
Proof.
  revert u. induction t as [d|l IHl r IHr]; intros [d'|l' r']; cbn; try done.
  intros [Hl Hr]. rewrite !length_app. auto.
Qed.

Lemma pair_up_same_shape ts us :
  Forall2 same_shape ts us -> Forall2 same_shape (pair_up ts) (pair_up us).
Proof.
  revert us. induction ts as [|x|x y ts IH] using list_pair_ind; intros us H.
  - by inversion H.
  - inversion H as [|? x' ? us' Hx Hr]; subst. inversion Hr; subst. by constructor.
  - inversion H as [|? x' ? us' Hx Hr]; subst. inversion Hr as [|? y' ? us2 Hy Hr2]; subst.
    cbn [pair_up]. constructor; [done|auto].
Qed.

Lemma raise_same_shape fuel ts us :
  Forall2 same_shape ts us -> Forall2 same_shape (raise fuel ts) (raise fuel us).
Proof.
  revert ts us. induction fuel as [|fuel IH]; intros ts us H; [done|]. cbn [raise].
  rewrite <- (Forall2_length _ _ _ H). case_decide; auto using pair_up_same_shape.
Qed.

Lemma tree_of_same_shape a b :
  a <> [] -> length a = length b -> same_shape (tree_of a) (tree_of b).
Proof.
  intros Ha Hl. assert (b <> []) as Hb by (by destruct a, b).
  assert (Forall2 same_shape (map Leaf a) (map Leaf b)) as H.
  { clear -Hl. revert b Hl. induction a as [|x a IH]; intros [|y b] [=]; cbn; constructor; auto. done. }
  apply (raise_same_shape (length a)) in H. rewrite (proj1 (tree_of_spec a Ha)) in H.
  rewrite Hl, (proj1 (tree_of_spec b Hb)) in H. by inversion H.
Qed.

Lemma raise_depth fuel ts d :
  ts <> [] -> (length ts <= fuel)%nat -> 0 <= d -> Forall (fun t => depth t <= d) ts ->
  Forall (fun t => depth t <= d + Z.log2_up (zlen ts)) (raise fuel ts).
Proof.
  revert ts d. induction fuel as [|fuel IH]; intros ts d Hne Hl Hd Hts;
    [by destruct ts; cbn in Hl; [|lia]|].
  cbn [raise]. case_decide as Hlen.
  - pose proof (div2_lt _ Hlen) as Hlt. rewrite <- length_pair_up in Hlt.
    assert (pair_up ts <> []) as Hne' by (intros E; rewrite E in Hlt; cbn in Hlt; lia).
    pose proof (IH (pair_up ts) (d + 1) Hne' ltac:(lia) ltac:(lia) (pair_up_depth _ _ Hd Hts)) as H.
    assert (zlen (pair_up ts) = (zlen ts + 1) / 2) as E.
    { unfold zlen. rewrite length_pair_up, Nat.div2_div, Nat2Z.inj_div. f_equal. lia. }
    rewrite E, log2_up_half in H by (unfold zlen; lia).
    eapply Forall_impl; [exact H|]. cbn. lia.
  - eapply Forall_impl; [exact Hts|]. cbn. pose proof (Z.log2_up_nonneg (zlen ts)). lia.
Qed.

Lemma tree_of_depth leaves : leaves <> [] -> depth (tree_of leaves) <= Z.log2_up (zlen leaves).
Proof.
  intros Hne. pose proof (raise_depth (length leaves) (map Leaf leaves) 0) as H.
  rewrite (proj1 (tree_of_spec leaves Hne)) in H.
  assert (zlen (map Leaf leaves) = zlen leaves) as E by (unfold zlen; by rewrite length_map).
  rewrite E in H. apply Forall_cons_1 in H as [H _]; [done| | |lia|].
  - by destruct leaves.
  - by rewrite length_map.
  - apply Forall_forall. intros t (d & -> & _)%list_elem_of_fmap. done.
Qed.

Lemma differing_app a b a' b' :
  length a = length a' -> differing (a ++ b) (a' ++ b') = differing a a' + differing b b'.
Proof.
  intros. unfold differing. by rewrite zip_with_app, filter_app, zlen_app.
Qed.

Lemma differing_refl a : differing a a = 0.
Proof.
  unfold differing. induction a as [|x a IH]; [done|]. cbn [zip_with].
  rewrite filter_cons_False; [done|]. cbn. tauto.
Qed.

Lemma differing_zero a b : length a = length b -> differing a b = 0 -> a = b.
Proof.
  unfold differing. revert b. induction a as [|x a IH]; intros [|y b] [=]; cbn [zip_with]; [done|].
  rewrite filter_cons. cbn. case_decide as Hxy; rewrite ?zlen_cons.
  - pose proof (zlen_nonneg (filter (fun p : bytes * bytes => p.1 <> p.2) (zip a b))). lia.
  - intros Hz. f_equal; [|auto]. destruct (decide (x = y)); tauto.
Qed.

Lemma same_shape_eq t u : same_shape t u -> tree_leaves t = tree_leaves u -> t = u.
Proof.
  revert u. induction t as [d|l IHl r IHr]; intros [d'|l' r'] Hs; try done; cbn in *.
  - by intros [= ->].
  - destruct Hs as [Hl Hr]. intros [Hll Hrr]%app_inj_1; [|by apply same_shape_leaves].
    f_equal; auto.
Qed.

Lemma differing_positive sha256 t u :
  same_shape t u -> tree_hash sha256 t <> tree_hash sha256 u ->
  1 <= differing (tree_leaves t) (tree_leaves u).
Proof.
  intros Hs Hh. pose proof (zlen_nonneg (filter (fun p => p.1 <> p.2) (zip (tree_leaves t) (tree_leaves u)))) as H.
  fold (differing (tree_leaves t) (tree_leaves u)) in H.
  destruct (decide (differing (tree_leaves t) (tree_leaves u) = 0)) as [Hz|]; [|lia].
  apply differing_zero in Hz; [|by apply same_shape_leaves]. apply same_shape_eq in Hz; [|done].
  by subst.
Qed.

Lemma depth_nonneg t : 0 <= depth t.
Proof. induction t; cbn; lia. Qed.

Lemma descend_bound sha256 t u :
  same_shape t u ->
  descend sha256 t u <= 1 + 2 * depth t * differing (tree_leaves t) (tree_leaves u).
Proof.
  assert (forall a b, 0 <= differing a b) as Hpos by (intros; apply zlen_nonneg).
  revert u. induction t as [d|l IHl r IHr]; intros u Hs.
  { cbn. case_decide; [lia|]. destruct u; lia. }
  destruct u as [|l' r']; [done|]. pose proof (differing_positive sha256 _ _ Hs) as Hd.
  destruct Hs as [Hl Hr]. specialize (IHl _ Hl). specialize (IHr _ Hr). cbn [tree_leaves] in *.
  rewrite differing_app in * by (by apply same_shape_leaves).
  pose proof (Hpos (tree_leaves l) (tree_leaves l')) as P1.
  pose proof (Hpos (tree_leaves r) (tree_leaves r')) as P2.
  pose proof (depth_nonneg l). pose proof (depth_nonneg r).
  cbn [descend depth]. case_decide as Hh; [nia|]. specialize (Hd Hh).
  set (m := Z.max (depth l) (depth r)). assert (depth l <= m /\ depth r <= m) as [? ?] by lia.
  nia.
Qed.

Lemma descent_bound_depth n d : 0 < n -> d <> 0 -> descent_bound n d = 2 * (Z.log2_up n + 2) * d + 2.
Proof.
  intros Hn Hd. unfold descent_bound. rewrite (proj2 (Z.eqb_neq d 0)) by done.
  unfold bit_length, next_power_of_two. pose proof (Z.log2_up_nonneg n).
  rewrite (proj2 (Z.eqb_neq (2 ^ _) 0)) by (apply Z.pow_nonzero; lia).
  rewrite Z.log2_pow2 by done. lia.
Qed.

(** [descent_bound] bounds a sane descent: for two lists of equally many
  leaves, a top-down walk over their trees that looks below a node only when the
  hashes there differ makes no more comparisons than the bound for the number of
  leaves that differ; and the trees walked are those of [merkle_root]. *)
Theorem descent_within_bound (sha256 : bytes -> bytes) (a b : list bytes) :
  a <> [] -> length a = length b ->
  tree_hash sha256 (tree_of a) = merkle_root sha256 a /\
  tree_hash sha256 (tree_of b) = merkle_root sha256 b /\
  descend sha256 (tree_of a) (tree_of b) <= descent_bound (zlen a) (differing a b).
Proof.
  intros Ha Hl. assert (b <> []) as Hb by (by destruct a, b).
  split; [by rewrite merkle_root_tree|]. split; [by rewrite merkle_root_tree|].
  pose proof (tree_of_same_shape a b Ha Hl) as Hs.
  pose proof (descend_bound sha256 _ _ Hs) as H.
  rewrite (proj2 (tree_of_spec a Ha)), (proj2 (tree_of_spec b Hb)) in H.
  pose proof (tree_of_depth a Ha) as Hd. pose proof (depth_nonneg (tree_of a)).
  assert (0 <= differing a b) by apply zlen_nonneg.
  destruct (decide (differing a b = 0)) as [Hz|Hz].
  - rewrite Hz in *. unfold descent_bound. cbn. lia.
  - rewrite descent_bound_depth; [nia| |done]. destruct a; [done|]. rewrite zlen_cons.
    pose proof (zlen_nonneg a). lia.
Qed.

(** ** The theorems at small lists *)

(** A 32-byte digest to evaluate with: the first bytes, padded. *)
Definition demo_digest (x : bytes) : bytes := take 32 (x ++ replicate 32 x00).

Lemma demo_digest_length x : length (demo_digest x) = 32%nat.
Proof. unfold demo_digest. rewrite length_take, length_app, length_replicate. lia. Defined.

Definition demo_leaves : list bytes := [[x61]; [x62]; [x63]].

Lemma merkle_levels_shape_witness :
  demo_leaves <> [] /\
  head (merkle_levels demo_digest demo_leaves) = Some (map (merkle_leaf demo_digest) demo_leaves) /\
  (forall i x y, merkle_levels demo_digest demo_leaves !! i = Some x ->
    merkle_levels demo_digest demo_leaves !! S i = Some y ->
    y = next_level demo_digest x /\ length y = Nat.div2 (length x + 1)) /\
  last (merkle_levels demo_digest demo_leaves) = Some [merkle_root demo_digest demo_leaves] /\
  zlen (merkle_levels demo_digest demo_leaves) = Z.log2_up (zlen demo_leaves) + 1.
Proof. split; [discriminate|]. apply (merkle_levels_shape demo_digest demo_leaves). discriminate. Defined.

(** The padded prefix is no hash function: long leaves collide, and the strings
  that do are found. *)
Lemma merkle_root_binds_witness :
  merkle_root demo_digest [replicate 40 x07] = merkle_root demo_digest [replicate 41 x07] /\
  ([replicate 40 x07] = [replicate 41 x07] \/
   collision demo_digest (hashed demo_digest [replicate 40 x07])
     (hashed demo_digest [replicate 41 x07])).
Proof.
  split; [vm_compute; reflexivity|].
  apply (merkle_root_binds demo_digest demo_digest_length). vm_compute. reflexivity.
Defined.

Lemma descent_within_bound_witness :
  demo_leaves <> [] /\
  tree_hash demo_digest (tree_of demo_leaves) = merkle_root demo_digest demo_leaves /\
  tree_hash demo_digest (tree_of [[x61]; [x00]; [x63]]) = merkle_root demo_digest [[x61]; [x00]; [x63]] /\
  descend demo_digest (tree_of demo_leaves) (tree_of [[x61]; [x00]; [x63]]) <=
    descent_bound (zlen demo_leaves) (differing demo_leaves [[x61]; [x00]; [x63]]).
Proof.
  split; [discriminate|].
  apply (descent_within_bound demo_digest demo_leaves [[x61]; [x00]; [x63]]); [discriminate|reflexivity].
Defined.
