(* ===== verification/KafkaRecords.v ===== *)
(** * Kafka record batches ([kafkatest/src/proto/records.rs])

  The writer appends to a buffer; the reader is a [Cursor] threaded through a
  monad of reads that stop at the first error.  The compression libraries and
  CRC-32C are parameters.  [anyhow] errors are a type with a constructor per
  [bail!], of this file and of [meta.rs], and one for the [context] around it. *)

From S2P Require Import Prelude Text.

Definition BATCH_HEADER_AFTER_LENGTH : Z := 49.
Definition MAGIC_V2 : Z := 2.
Definition NO_PRODUCER_ID : Z := -1.
Definition NO_PRODUCER_EPOCH : Z := -1.
Definition NO_SEQUENCE : Z := -1.
Definition COMPRESSION_MASK : Z := 0x07.
Definition NO_COMPRESSION : Z := 0.
Definition GZIP : Z := 1.
Definition SNAPPY : Z := 2.
Definition LZ4 : Z := 3.
Definition ZSTD : Z := 4.

Definition codec_name (codec : Z) : string :=
  if codec =? NO_COMPRESSION then "none"%string
  else if codec =? GZIP then "gzip"%string
  else if codec =? SNAPPY then "snappy"%string
  else if codec =? LZ4 then "lz4"%string
  else if codec =? ZSTD then "zstd"%string
  else "unknown"%string.

Inductive Error : Type :=
| UnknownCodec (codec : Z)
| LibraryError
| NeedBytes (n remain : Z)
| VarintTooLong
| VarintTooWide
| NegativeLength (n : Z)
| BatchTooShort (batch_length : Z)
| BatchTruncated (total available : Z)
| UnsupportedMagic (magic : Z)
| CrcMismatch (header computed : Z)
| NegativeCount (count : Z)
| LeftOver (leftover count : Z)
| RecordNegativeLength (n : Z)
| RecordTruncated (n left_ : Z)
| RecordHeaderCount (n : Z)
| RecordKeyLength (i : Z)
| RecordLengthMismatch (n decoded : Z)
| SubtractOverflow
| NotUtf8
| NullCompactString
| FrameVersion (v : Z)
| InField (field : string) (e : Error)
| InItem (field : string) (i : Z) (e : Error).

(** ** Records and batches *)

Record RecordItem : Type := mkRecordItem {
  ri_attributes : Z;
  timestamp_delta : Z;
  offset_delta : Z;
  ri_key : option bytes;
  ri_value : option bytes;
  headers : list (bytes * option bytes)
}.

Definition RecordItem_default : RecordItem := mkRecordItem 0 0 0 None None [].
Definition record_value (v : bytes) : RecordItem := mkRecordItem 0 0 0 None (Some v) [].
Definition record_keyed (k v : bytes) : RecordItem := mkRecordItem 0 0 0 (Some k) (Some v) [].

Record RecordBatch : Type := mkRecordBatch {
  base_offset : Z;
  partition_leader_epoch : Z;
  attributes : Z;
  last_offset_delta : Z;
  base_timestamp : Z;
  max_timestamp : Z;
  producer_id : Z;
  producer_epoch : Z;
  base_sequence : Z;
  records : list RecordItem;
  record_count_override : option Z;
  crc_override : option Z
}.

Definition RecordBatch_default : RecordBatch :=
  mkRecordBatch 0 0 0 0 0 0 NO_PRODUCER_ID NO_PRODUCER_EPOCH NO_SEQUENCE [] None None.

(** [i as i32] and the saturating [len - 1] cast to [i32]. *)
Definition number_record (i : nat) (r : RecordItem) : RecordItem :=
  mkRecordItem (ri_attributes r) 0 (wrap_s 32 (Z.of_nat i)) (ri_key r) (ri_value r) (headers r).

Definition batch_of (base_offset base_timestamp : Z) (values : list RecordItem) : RecordBatch :=
  let rs := imap number_record values in
  mkRecordBatch base_offset 0 0 (wrap_s 32 (Z.max 0 (zlen rs - 1))) base_timestamp base_timestamp
    NO_PRODUCER_ID NO_PRODUCER_EPOCH NO_SEQUENCE rs None None.

Definition next_offset (b : RecordBatch) : Z := wrap_s 64 (base_offset b + zlen (records b)).
Definition is_control (b : RecordBatch) : bool := negb (Z.land (attributes b) (Z.shiftl 1 5) =? 0).
Definition compression (b : RecordBatch) : Z := Z.land (attributes b) COMPRESSION_MASK.

Definition with_compression (codec : Z) (b : RecordBatch) : RecordBatch :=
  mkRecordBatch (base_offset b) (partition_leader_epoch b)
    (Z.lor (Z.land (attributes b) (Z.lnot COMPRESSION_MASK)) (Z.land codec COMPRESSION_MASK))
    (last_offset_delta b) (base_timestamp b) (max_timestamp b) (producer_id b)
    (producer_epoch b) (base_sequence b) (records b) (record_count_override b) (crc_override b).

(** ** Writing *)

(** A [u64] is ten groups of seven bits at most. *)
Fixpoint put_uvarlong_fuel (fuel : nat) (out : bytes) (v : Z) : bytes :=
  match fuel with
  | O => out ++ [z2b v]
  | S fuel =>
    if 0x80 <=? v then
      put_uvarlong_fuel fuel (out ++ [z2b (Z.lor (v mod 256) 0x80)]) (Z.shiftr v 7)
    else out ++ [z2b v]
  end.
Definition put_uvarlong (out : bytes) (v : Z) : bytes := put_uvarlong_fuel 9 out v.

Definition put_varint (out : bytes) (v : Z) : bytes :=
  put_uvarlong out (wrap_u 32 (Z.lxor (wrap_s 32 (Z.shiftl v 1)) (Z.shiftr v 31))).
Definition put_varlong (out : bytes) (v : Z) : bytes :=
  put_uvarlong out (wrap_u 64 (Z.lxor (wrap_s 64 (Z.shiftl v 1)) (Z.shiftr v 63))).

(** [b.len() as i32]. *)
Definition len_i32 {A} (l : list A) : Z := wrap_s 32 (zlen l).

Definition put_nullable (out : bytes) (v : option bytes) : bytes :=
  match v with
  | None => put_varint out (-1)
  | Some b => put_varint out (len_i32 b) ++ b
  end.

Definition put_header (body : bytes) (h : bytes * option bytes) : bytes :=
  let '(k, v) := h in
  let body := put_varint body (len_i32 k) in
  let body := body ++ k in
  put_nullable body v.

Definition encode_record (out : bytes) (r : RecordItem) : bytes :=
  let body := [z2b (ri_attributes r)] in
  let body := put_varlong body (timestamp_delta r) in
  let body := put_varint body (offset_delta r) in
  let body := put_nullable body (ri_key r) in
  let body := put_nullable body (ri_value r) in
  let body := put_varint body (len_i32 (headers r)) in
  let body := foldl put_header body (headers r) in
  let out := put_varint out (len_i32 body) in
  out ++ body.

(** ** Reading *)

Record Cursor : Type := mkCursor { buf : bytes; pos : Z }.

Definition Cursor_new (buf : bytes) : Cursor := mkCursor buf 0.
Definition remaining (c : Cursor) : Z := Z.max 0 (zlen (buf c) - pos c).

Definition M (A : Type) : Type := Cursor -> Result Error (A * Cursor).

#[global] Instance M_ret : MRet M := fun A a c => Ok (a, c).
#[global] Instance M_bind : MBind M := fun A B f m c =>
  match m c with Ok (a, c) => f a c | Err e => Err e end.

Definition bail {A} (e : Error) : M A := fun _ => Err e.
Definition lift {A} (r : Result Error A) : M A := fun c => a ← r; Ok (a, c).
Definition here : M Cursor := fun c => Ok (c, c).
Definition context {A} (field : string) (m : M A) : M A := fun c => map_err (InField field) (m c).
Definition context_item {A} (field : string) (i : Z) (m : M A) : M A :=
  fun c => map_err (InItem field i) (m c).

Definition take (n : Z) : M bytes := fun c =>
  if remaining c <? n then Err (NeedBytes n (remaining c))
  else Ok (zslice (buf c) (pos c) n, mkCursor (buf c) (pos c + n)).

Definition read_i8 : M Z := b ← take 1; mret (wrap_s 8 (be_val b)).
Definition read_i16 : M Z := b ← take 2; mret (wrap_s 16 (be_val b)).
Definition read_i32 : M Z := b ← take 4; mret (wrap_s 32 (be_val b)).
Definition read_u32 : M Z := v ← read_i32; mret (wrap_u 32 v).
Definition read_i64 : M Z := b ← take 8; mret (wrap_s 64 (be_val b)).

(** The shift grows by 7 and may not pass 63: eleven rounds reach the error. *)
Fixpoint uvarlong_loop (fuel : nat) (out shift : Z) : M Z :=
  match fuel with
  | O => bail VarintTooLong
  | S fuel =>
    if 63 <? shift then bail VarintTooLong
    else
      b ← take 1;
      let b := be_val b in
      let out := Z.lor out (wrap_u 64 (Z.shiftl (Z.land b 0x7f) shift)) in
      if Z.land b 0x80 =? 0 then mret out else uvarlong_loop fuel out (shift + 7)
  end.
Definition uvarlong : M Z := uvarlong_loop 11 0 0.

Definition varint : M Z :=
  v ← uvarlong;
  if 2 ^ 32 - 1 <? v then bail VarintTooWide
  else mret (Z.lxor (wrap_s 32 (Z.shiftr v 1)) (- Z.land v 1)).

Definition varlong : M Z :=
  v ← uvarlong;
  mret (Z.lxor (wrap_s 64 (Z.shiftr v 1)) (- Z.land v 1)).

Definition nullable : M (option bytes) :=
  n ← varint;
  if n =? -1 then mret None
  else if n <? 0 then bail (NegativeLength n)
  else b ← take n; mret (Some b).

Definition decode_header (i : Z) : M (bytes * option bytes) :=
  klen ← context_item "headers.key_length" i varint;
  if klen <? 0 then bail (RecordKeyLength i)
  else
    kb ← context_item "headers.key" i (take klen);
    k ← context_item "headers.key is not utf-8" i
          (lift (if utf8_valid kb then Ok kb else Err NotUtf8));
    v ← context_item "headers.value" i nullable;
    mret (k, v).

(** [for i in from..from + n]. *)
Fixpoint for_range {A} (n : nat) (from : Z) (body : Z -> M A) : M (list A) :=
  match n with
  | O => mret []
  | S n => x ← body from; xs ← for_range n (from + 1) body; mret (x :: xs)
  end.

(** The last check computes [end - c.pos] in [usize] for its message: when the
  fields ran past the record's end the subtraction overflows. *)
Definition check_end (n end_ : Z) : M unit :=
  c ← here;
  if pos c =? end_ then mret tt
  else if end_ <? pos c then bail SubtractOverflow
  else bail (RecordLengthMismatch n (end_ - (end_ - pos c))).

(** The fields, from the attributes to the headers. *)
Definition decode_fields : M RecordItem :=
  attributes ← context "record.attributes" read_i8;
  timestamp_delta ← context "record.timestamp_delta" varlong;
  offset_delta ← context "record.offset_delta" varint;
  key ← context "record.key" nullable;
  value ← context "record.value" nullable;
  nheaders ← context "record.header_count" varint;
  if nheaders <? 0 then bail (RecordHeaderCount nheaders)
  else
    headers ← for_range (Z.to_nat nheaders) 0 decode_header;
    mret (mkRecordItem attributes timestamp_delta offset_delta key value headers).

Definition decode_record : M RecordItem :=
  n ← context "record.length" varint;
  if n <? 0 then bail (RecordNegativeLength n)
  else
    c ← here;
    let end_ := pos c + n in
    if zlen (buf c) <? end_ then bail (RecordTruncated n (zlen (buf c) - pos c))
    else
      r ← decode_fields;
      _ ← check_end n end_;
      mret r.

Definition decode_records (count : Z) : M (list RecordItem) :=
  for_range (Z.to_nat count) 0 (fun i => context_item "records" i decode_record).

(** ** Batches *)

Section libraries.
(** [Compressor::compress] and [Decompressor::decompress] of the codecs 1 to 4,
  and [crc32c::crc32c]. *)
Context (lib_compress lib_decompress : Z -> bytes -> Result Error bytes) (crc32c : bytes -> Z).

Definition known_codec (codec : Z) : bool :=
  (codec =? GZIP) || (codec =? SNAPPY) || (codec =? LZ4) || (codec =? ZSTD).

Definition compress_records (codec : Z) (raw : bytes) : Result Error bytes :=
  if codec =? NO_COMPRESSION then Ok raw
  else if known_codec codec then lib_compress codec raw
  else Err (UnknownCodec codec).

Definition decompress_records (codec : Z) (payload : bytes) : Result Error bytes :=
  if codec =? NO_COMPRESSION then Ok payload
  else if known_codec codec then lib_decompress codec payload
  else Err (UnknownCodec codec).

(** What the CRC covers. *)
Definition batch_body (b : RecordBatch) (payload : bytes) : bytes :=
  be_bytes 2 (attributes b) ++ be_bytes 4 (last_offset_delta b) ++
  be_bytes 8 (base_timestamp b) ++ be_bytes 8 (max_timestamp b) ++
  be_bytes 8 (producer_id b) ++ be_bytes 2 (producer_epoch b) ++
  be_bytes 4 (base_sequence b) ++
  be_bytes 4 (default (len_i32 (records b)) (record_count_override b)) ++ payload.

Definition try_encode (b : RecordBatch) : Result Error bytes :=
  let payload := foldl encode_record [] (records b) in
  let codec := compression b in
  payload ← (if negb (codec =? NO_COMPRESSION) then
               map_err (InField "compressing the batch payload") (compress_records codec payload)
             else Ok payload);
  let body := batch_body b payload in
  let crc := default (crc32c body) (crc_override b) in
  let batch_length := wrap_s 32 (4 + 1 + 4 + zlen body) in
  Ok (be_bytes 8 (base_offset b) ++ be_bytes 4 batch_length ++
      be_bytes 4 (partition_leader_epoch b) ++ [z2b MAGIC_V2] ++ be_bytes 4 crc ++ body).

Definition encode (b : RecordBatch) : bytes :=
  match try_encode b with
  | Ok bs => bs
  | Err _ => default [] (to_option (try_encode (with_compression NO_COMPRESSION b)))
  end.

(** The records of a payload, and what is left of it. *)
Definition decode_payload (codec count : Z) (payload : bytes) : Result Error (list RecordItem * Z) :=
  raw ← (if negb (codec =? NO_COMPRESSION) then
           map_err (InField "decompressing the batch") (decompress_records codec payload)
         else Ok payload);
  '(rs, rc) ← decode_records count (Cursor_new raw);
  Ok (rs, remaining rc).

(** The whole batch, and the end of it in the buffer. *)
Definition decode_batch : M (RecordBatch * Z) :=
  base_offset ← context "batch.base_offset" read_i64;
  batch_length ← context "batch.batch_length" read_i32;
  if batch_length <? BATCH_HEADER_AFTER_LENGTH then bail (BatchTooShort batch_length)
  else
    c ← here;
    let total := pos c + batch_length in
    if zlen (buf c) <? total then bail (BatchTruncated total (zlen (buf c)))
    else
      partition_leader_epoch ← context "batch.partition_leader_epoch" read_i32;
      magic ← context "batch.magic" read_i8;
      if negb (magic =? MAGIC_V2) then bail (UnsupportedMagic magic)
      else
        crc ← context "batch.crc" read_u32;
        c ← here;
        let actual_crc := crc32c (zslice (buf c) (pos c) (total - pos c)) in
        if negb (actual_crc =? crc) then bail (CrcMismatch crc actual_crc)
        else
          attributes ← context "batch.attributes" read_i16;
          last_offset_delta ← context "batch.last_offset_delta" read_i32;
          base_timestamp ← context "batch.base_timestamp" read_i64;
          max_timestamp ← context "batch.max_timestamp" read_i64;
          producer_id ← context "batch.producer_id" read_i64;
          producer_epoch ← context "batch.producer_epoch" read_i16;
          base_sequence ← context "batch.base_sequence" read_i32;
          count ← context "batch.record_count" read_i32;
          let codec := Z.land attributes COMPRESSION_MASK in
          if count <? 0 then bail (NegativeCount count)
          else
            c ← here;
            let payload := if pos c <=? total then zslice (buf c) (pos c) (total - pos c) else [] in
            '(records, leftover) ← lift (decode_payload codec count payload);
            if negb (leftover =? 0) then bail (LeftOver leftover count)
            else
              mret (mkRecordBatch base_offset partition_leader_epoch attributes last_offset_delta
                      base_timestamp max_timestamp producer_id producer_epoch base_sequence
                      records None None, total).

Definition decode (buf : bytes) : Result Error (RecordBatch * Z) :=
  '(r, _) ← decode_batch (Cursor_new buf); Ok r.

(** A batch is at least 61 bytes long: the length is enough fuel. *)
Fixpoint decode_all_from (fuel : nat) (at_ : Z) (buf : bytes) : Result Error (list RecordBatch) :=
  if at_ + 12 <=? zlen buf then
    match fuel with
    | O => Ok []
    | S fuel =>
      '(b, used) ← map_err (InItem "batch at byte" at_) (decode (zdrop at_ buf));
      bs ← decode_all_from fuel (at_ + used) buf;
      Ok (b :: bs)
    end
  else Ok [].
Definition decode_all (buf : bytes) : Result Error (list RecordBatch) :=
  decode_all_from (length buf) 0 buf.

Definition encode_batches (batches : list RecordBatch) : bytes :=
  foldl (fun out b => out ++ encode b) [] batches.
End libraries.
