(* ===== verification/KafkaRound.v ===== *)
(** * Record batches survive the wire

  Reads are characterised by the bytes they consume ([reads]): a read of [x]
  advances the cursor past [x] wherever [x] is next.  The writer's output is a
  sequence of such [x]. *)

From S2P Require Import Prelude Text KafkaRecords.

(** ** Cursors *)

Definition valid (c : Cursor) : Prop := 0 <= pos c <= zlen (buf c).
Definition rest (c : Cursor) : bytes := zdrop (pos c) (buf c).
Definition adv (n : Z) (c : Cursor) : Cursor := mkCursor (buf c) (pos c + n).

Definition reads_at {A} (c : Cursor) (m : M A) (x : bytes) (a : A) : Prop :=
  forall tl, valid c -> rest c = x ++ tl -> m c = Ok (a, adv (zlen x) c).

Definition reads {A} (m : M A) (x : bytes) (a : A) : Prop := forall c, reads_at c m x a.

Lemma adv_0 c : adv 0 c = c.
Proof. destruct c. unfold adv. cbn. by rewrite Z.add_0_r. Qed.

Lemma adv_adv n m c : adv m (adv n c) = adv (n + m) c.
Proof. unfold adv. cbn. by rewrite Z.add_assoc. Qed.

Lemma zlen_rest c : valid c -> zlen (rest c) = zlen (buf c) - pos c.
Proof. unfold valid, rest, zdrop, zlen. rewrite length_drop. lia. Qed.

Lemma rest_adv c x tl :
  valid c -> rest c = x ++ tl -> rest (adv (zlen x) c) = tl /\ valid (adv (zlen x) c).
Proof.
  intros Hv Hr. split.
  - unfold rest, adv, zdrop, valid, zlen in *. cbn.
    replace (Z.to_nat (pos c + Z.of_nat (length x))) with (Z.to_nat (pos c) + length x)%nat by lia.
    rewrite <- drop_drop, Hr. by rewrite drop_app_length.
  - pose proof (zlen_rest c Hv) as Hl. rewrite Hr, zlen_app in Hl.
    unfold valid, adv in *. cbn. pose proof (zlen_nonneg x). pose proof (zlen_nonneg tl). lia.
Qed.

Lemma reads_at_ret {A} c (a : A) : reads_at c (mret a) [] a.
Proof. intros tl _ _. unfold mret, M_ret. rewrite zlen_nil. by rewrite adv_0. Qed.

Lemma reads_at_bind {A B} c (m : M A) (f : A -> M B) x y a b :
  reads_at c m x a -> reads_at (adv (zlen x) c) (f a) y b -> reads_at c (m ≫= f) (x ++ y) b.
Proof.
  intros Hm Hf tl Hv Hr. rewrite <- app_assoc in Hr. unfold mbind, M_bind.
  rewrite (Hm _ Hv Hr). destruct (rest_adv c x _ Hv Hr) as [Hr' Hv'].
  rewrite (Hf tl Hv' Hr'). by rewrite adv_adv, zlen_app.
Qed.

Lemma reads_at_bind_last {A B} c (m : M A) (f : A -> M B) x a b :
  reads_at c m x a -> reads_at (adv (zlen x) c) (f a) [] b -> reads_at c (m ≫= f) x b.
Proof. intros Hm Hf. rewrite <- (app_nil_r x). by apply reads_at_bind with a. Qed.

Lemma reads_at_map {A B} c (m : M A) (g : A -> B) x a :
  reads_at c m x a -> reads_at c (a ← m; mret (g a)) x (g a).
Proof. intros Hm. eapply reads_at_bind_last; [exact Hm|]. apply reads_at_ret. Qed.

Lemma bind_step {A B} (m : M A) (f : A -> M B) c a c' :
  m c = Ok (a, c') -> (m ≫= f) c = f a c'.
Proof. intros H. unfold mbind, M_bind. by rewrite H. Qed.

Lemma bind_here {A} (f : Cursor -> M A) c : (here ≫= f) c = f c c.
Proof. done. Qed.

Lemma reads_at_context {A} c s (m : M A) x a : reads_at c m x a -> reads_at c (context s m) x a.
Proof. intros Hm tl Hv Hr. unfold context. by rewrite (Hm tl Hv Hr). Qed.

Lemma reads_at_context_item {A} c s i (m : M A) x a :
  reads_at c m x a -> reads_at c (context_item s i m) x a.
Proof. intros Hm tl Hv Hr. unfold context_item. by rewrite (Hm tl Hv Hr). Qed.

Lemma reads_take n x : zlen x = n -> reads (take n) x x.
Proof.
  intros <- c tl Hv Hr. unfold take.
  pose proof (zlen_rest c Hv) as Hl. rewrite Hr, zlen_app in Hl.
  pose proof (zlen_nonneg tl). pose proof (zlen_nonneg x).
  rewrite (proj2 (Z.ltb_ge _ _)) by (unfold remaining; lia).
  unfold zslice. fold (rest c). rewrite Hr. unfold ztake, zlen. rewrite Nat2Z.id.
  by rewrite take_app_length.
Qed.

Lemma reads_be_s n w v :
  w = 8 * Z.of_nat n -> 0 < w -> in_s w v ->
  reads (b ← take (Z.of_nat n); mret (wrap_s w (be_val b))) (be_bytes n v) v.
Proof.
  intros Hw H0 Hv c. replace v with (wrap_s w (be_val (be_bytes n v))) at 2 by (by apply be_val_s).
  apply (reads_at_map c _ (fun b => wrap_s w (be_val b))), reads_take, zlen_be_bytes.
Qed.

Lemma reads_i8 v : in_s 8 v -> reads read_i8 (be_bytes 1 v) v.
Proof. by apply (reads_be_s 1). Qed.
Lemma reads_i16 v : in_s 16 v -> reads read_i16 (be_bytes 2 v) v.
Proof. by apply (reads_be_s 2). Qed.
Lemma reads_i32 v : in_s 32 v -> reads read_i32 (be_bytes 4 v) v.
Proof. by apply (reads_be_s 4). Qed.
Lemma reads_i64 v : in_s 64 v -> reads read_i64 (be_bytes 8 v) v.
Proof. by apply (reads_be_s 8). Qed.

Lemma wrap_u_wrap_s w v : 0 < w -> wrap_u w (wrap_s w v) = wrap_u w v.
Proof.
  intros Hw. unfold wrap_u, wrap_s. rewrite Zminus_mod, Z.mod_mod, <- Zminus_mod by lia.
  f_equal. lia.
Qed.

Lemma reads_u32 v : in_u 32 v -> reads read_u32 (be_bytes 4 v) v.
Proof.
  intros Hv c. unfold read_u32, read_i32.
  replace v with (wrap_u 32 (wrap_s 32 (be_val (be_bytes 4 v)))) at 2.
  - apply (reads_at_map c _ (fun v => wrap_u 32 v)),
      (reads_at_map c _ (fun b => wrap_s 32 (be_val b))), reads_take, zlen_be_bytes.
  - rewrite wrap_u_wrap_s, (be_val_u 4 32) by done. by apply Z.mod_small.
Qed.

Lemma reads_for_range {A} (body : Z -> M A) xs ys from :
  Forall2 (fun x y => forall i, reads (body i) x y) xs ys ->
  reads (for_range (length ys) from body) (concat xs) ys.
Proof.
  intros H. revert from. induction H as [|x y xs ys Hx _ IH]; intros from c; cbn [for_range length concat].
  - apply reads_at_ret.
  - eapply reads_at_bind; [apply Hx|]. apply (reads_at_map _ _ (cons y)), IH.
Qed.

(** ** Varints *)

Lemma byte_low7 b : Z.land (b2z b) 0x7f = b2z b mod 128.
Proof. by destruct b. Qed.

Lemma byte_high b : (Z.land (b2z b) 0x80 =? 0) = (b2z b <? 128).
Proof. by destruct b. Qed.

Lemma byte_set_high b : Z.lor (b2z b) 0x80 = b2z b mod 128 + 128.
Proof. by destruct b. Qed.

Lemma lor_shiftl a x n : 0 <= n -> 0 <= a < 2 ^ n -> Z.lor a (Z.shiftl x n) = a + x * 2 ^ n.
Proof.
  intros Hn Ha. rewrite <- Z.shiftl_mul_pow2 by done.
  assert (Z.land a (Z.shiftl x n) = 0) as Hl.
  { apply Z.bits_inj'. intros i Hi. rewrite Z.land_spec, Z.bits_0, Z.shiftl_spec by done.
    destruct (Z.ltb_spec i n).
    - rewrite (Z.testbit_neg_r _ (i - n)) by lia. apply andb_false_r.
    - rewrite <- (Z.mod_small a (2 ^ n)), Z.mod_pow2_bits_high by lia. done. }
  by rewrite Z.add_nocarry_lxor, Z.lxor_lor.
Qed.

Lemma be_val_1 b : be_val [b] = b2z b.
Proof. unfold be_val. cbn. lia. Qed.

Lemma put_uvarlong_app fuel out v :
  put_uvarlong_fuel fuel out v = out ++ put_uvarlong_fuel fuel [] v.
Proof.
  revert out v. induction fuel as [|fuel IH]; intros out v; [done|]. cbn [put_uvarlong_fuel].
  case_match; [|done]. rewrite IH, (IH ([] ++ _)). by rewrite <- app_assoc.
Qed.

Lemma byte_more v : b2z (z2b (Z.lor (v mod 256) 0x80)) = v mod 128 + 128.
Proof.
  rewrite <- (b2z_z2b v), byte_set_high.
  pose proof (Z.mod_pos_bound (b2z (z2b v)) 128). rewrite z2b_small by lia.
  f_equal. rewrite b2z_z2b. apply Z.mod_mod_divide. by exists 2.
Qed.

(** One group, the byte [b] at [shift]. *)
Definition group (out shift : Z) (b : byte) : Z :=
  Z.lor out (wrap_u 64 (Z.shiftl (Z.land (b2z b) 0x7f) shift)).

Lemma group_add out shift b :
  0 <= shift -> 0 <= out < 2 ^ shift -> (b2z b mod 128) * 2 ^ shift < 2 ^ 64 ->
  group out shift b = out + b2z b mod 128 * 2 ^ shift.
Proof.
  intros Hs Ho Hb. unfold group. rewrite byte_low7. unfold wrap_u.
  rewrite Z.mod_small; [by apply lor_shiftl|]. rewrite Z.shiftl_mul_pow2 by done.
  pose proof (Z.mod_pos_bound (b2z b) 128). lia.
Qed.

Lemma reads_group fuel out shift b x v :
  0 <= shift <= 63 ->
  (if b2z b <? 128 then x = [] /\ v = group out shift b
   else reads (uvarlong_loop fuel (group out shift b) (shift + 7)) x v) ->
  reads (uvarlong_loop (S fuel) out shift) (b :: x) v.
Proof.
  intros Hs H c. cbn [uvarlong_loop]. rewrite (proj2 (Z.ltb_ge 63 shift)) by lia.
  eapply (reads_at_bind c _ _ [b] x); [by apply reads_take|].
  rewrite be_val_1. rewrite byte_high. fold (group out shift b).
  destruct (b2z b <? 128); [|apply H]. destruct H as [-> ->]. apply reads_at_ret.
Qed.

Lemma reads_last_group fuel out shift v :
  0 <= shift <= 63 -> 0 <= out < 2 ^ shift -> 0 <= v < 128 -> v * 2 ^ shift < 2 ^ 64 ->
  reads (uvarlong_loop (S fuel) out shift) [z2b v] (out + v * 2 ^ shift).
Proof.
  intros Hs Ho Hv Hmax. apply reads_group; [done|]. rewrite z2b_small by lia.
  rewrite (proj2 (Z.ltb_lt v 128)) by lia. split; [done|].
  rewrite group_add; rewrite ?z2b_small, ?Z.mod_small by lia; lia.
Qed.

(** The loop after [9 - fw] groups. *)
Lemma reads_uvarlong_loop fw out v shift :
  (fw <= 9)%nat -> shift = 7 * (9 - Z.of_nat fw) ->
  0 <= out < 2 ^ shift -> 0 <= v < 2 ^ (64 - shift) ->
  reads (uvarlong_loop (S (S fw)) out shift) (put_uvarlong_fuel fw [] v) (out + v * 2 ^ shift).
Proof.
  revert out v shift. induction fw as [|fw IH]; intros out v shift Hfw Hshift Hout Hv.
  all: pose proof (Z.pow_pos_nonneg 2 shift ltac:(lia) ltac:(lia)) as Hpos.
  all: assert (v * 2 ^ shift < 2 ^ 64) as Hmax
    by (replace 64 with ((64 - shift) + shift) by lia; rewrite Z.pow_add_r by lia; nia).
  { cbn [put_uvarlong_fuel app]. apply reads_last_group; [lia|done| |done].
    replace (64 - shift) with 1 in Hv by lia. lia. }
  cbn [put_uvarlong_fuel]. case_match eqn:E; [|apply reads_last_group; lia].
  apply Z.leb_le in E. rewrite put_uvarlong_app. cbn [app].
  pose proof (Z.mod_pos_bound v 128 ltac:(lia)) as Hm. pose proof (Z.div_mod v 128 ltac:(lia)) as Hd.
  assert (2 ^ (shift + 7) = 2 ^ shift * 128) as Hp by (by rewrite Z.pow_add_r by lia).
  apply reads_group; [lia|]. rewrite byte_more. rewrite (proj2 (Z.ltb_ge _ 128)) by lia.
  rewrite group_add; rewrite ?byte_more; try done; try lia.
  all: replace ((v mod 128 + 128) mod 128) with (v mod 128)
    by (rewrite <- Z.add_mod_idemp_r, Z.mod_same, Z.add_0_r, Z.mod_mod by lia; done).
  2: nia.
  replace (out + v * 2 ^ shift) with (out + v mod 128 * 2 ^ shift + Z.shiftr v 7 * 2 ^ (shift + 7)).
  2: { rewrite Z.shiftr_div_pow2 by lia. change (2 ^ 7) with 128. nia. }
  rewrite Z.shiftr_div_pow2 by lia. change (2 ^ 7) with 128.
  apply IH; [lia|lia|nia|].
  replace (64 - shift) with (64 - (shift + 7) + 7) in Hv by lia.
  rewrite Z.pow_add_r in Hv by lia. change (2 ^ 7) with 128 in Hv. nia.
Qed.

Lemma reads_uvarlong v : in_u 64 v -> reads uvarlong (put_uvarlong [] v) v.
Proof.
  intros Hv. pose proof (reads_uvarlong_loop 9 0 v 0 ltac:(lia) ltac:(lia) ltac:(lia) Hv) as H.
  by rewrite Z.mul_1_r in H.
Qed.

(** ** Zig-zag *)

Definition zigzag (w v : Z) : Z := wrap_u w (Z.lxor (wrap_s w (Z.shiftl v 1)) (Z.shiftr v (w - 1))).
Definition unzigzag (w u : Z) : Z := Z.lxor (wrap_s w (Z.shiftr u 1)) (- Z.land u 1).

Lemma zigzag_value w v : 1 < w -> in_s w v -> zigzag w v = if v <? 0 then -2 * v - 1 else 2 * v.
Proof.
  intros Hw [Hlo Hhi]. unfold zigzag. rewrite Z.shiftl_mul_pow2, Z.shiftr_div_pow2 by lia.
  change (2 ^ 1) with 2. assert (2 ^ w = 2 * 2 ^ (w - 1)) as Hp
    by (rewrite <- Z.pow_succ_r by lia; f_equal; lia).
  pose proof (Z.pow_pos_nonneg 2 (w - 1) ltac:(lia) ltac:(lia)).
  destruct (Z.ltb_spec v 0).
  - replace (v / 2 ^ (w - 1)) with (-1) by (apply (Z.div_unique _ _ _ (v + 2 ^ (w - 1))); lia).
    rewrite Z.lxor_m1_r. unfold Z.lnot. unfold wrap_u.
    replace (Z.pred (- wrap_s w (v * 2))) with (-1 - wrap_s w (v * 2)) by lia.
    rewrite Zminus_mod. fold (wrap_u w (wrap_s w (v * 2))). rewrite wrap_u_wrap_s by lia.
    unfold wrap_u. rewrite <- Zminus_mod, Z.mod_small; lia.
  - rewrite Z.div_small, Z.lxor_0_r by lia. rewrite wrap_u_wrap_s by lia.
    unfold wrap_u. rewrite Z.mod_small; lia.
Qed.

Lemma unzigzag_zigzag w v : 1 < w -> in_s w v -> unzigzag w (zigzag w v) = v.
Proof.
  intros Hw Hv. rewrite zigzag_value by done. destruct Hv as [Hlo Hhi]. unfold unzigzag.
  assert (forall u, Z.land u 1 = u mod 2) as Hland by (intros u; by apply (Z.land_ones u 1)).
  rewrite Hland, Z.shiftr_div_pow2 by lia. change (2 ^ 1) with 2.
  destruct (Z.ltb_spec v 0).
  - replace ((-2 * v - 1) / 2) with (-v - 1) by (Z.to_euclidean_division_equations; lia).
    replace ((-2 * v - 1) mod 2) with 1 by (Z.to_euclidean_division_equations; lia).
    rewrite wrap_s_small by (try (unfold in_s); lia). rewrite Z.lxor_m1_r. unfold Z.lnot. lia.
  - replace (2 * v / 2) with v by (Z.to_euclidean_division_equations; lia).
    replace (2 * v mod 2) with 0 by (Z.to_euclidean_division_equations; lia).
    rewrite wrap_s_small by (try (unfold in_s); lia). apply Z.lxor_0_r.
Qed.

Lemma zigzag_range w v : 0 <= w -> in_u w (zigzag w v).
Proof. intros. apply Z.mod_pos_bound. apply Z.pow_pos_nonneg; lia. Qed.

Lemma reads_varint v : in_s 32 v -> reads varint (put_varint [] v) v.
Proof.
  intros Hv c. change (put_varint [] v) with (put_uvarlong [] (zigzag 32 v)). unfold varint.
  pose proof (zigzag_range 32 v ltac:(lia)) as [Hz0 Hz1].
  eapply reads_at_bind_last; [apply reads_uvarlong; unfold in_u; lia|].
  rewrite (proj2 (Z.ltb_ge _ _)) by lia. fold (unzigzag 32 (zigzag 32 v)).
  rewrite unzigzag_zigzag by (done || lia). apply reads_at_ret.
Qed.

Lemma reads_varlong v : in_s 64 v -> reads varlong (put_varlong [] v) v.
Proof.
  intros Hv c. change (put_varlong [] v) with (put_uvarlong [] (zigzag 64 v)). unfold varlong.
  pose proof (zigzag_range 64 v ltac:(lia)).
  eapply reads_at_bind_last; [by apply reads_uvarlong|]. fold (unzigzag 64 (zigzag 64 v)).
  rewrite unzigzag_zigzag by (done || lia). apply reads_at_ret.
Qed.

(** ** Records *)

Lemma to_nat_zlen {A} (l : list A) : Z.to_nat (zlen l) = length l.
Proof. apply Nat2Z.id. Qed.

Definition len_ok {A} (l : list A) : Prop := zlen l < 2 ^ 31.
Definition opt_ok (o : option bytes) : Prop := match o with Some b => len_ok b | None => True end.

Lemma len_i32_ok {A} (l : list A) : len_ok l -> len_i32 l = zlen l /\ in_s 32 (zlen l).
Proof.
  unfold len_ok. intros H. pose proof (zlen_nonneg l).
  assert (in_s 32 (zlen l)) by (unfold in_s; lia). split; [by apply wrap_s_small|done].
Qed.

Lemma put_varint_app out v : put_varint out v = out ++ put_varint [] v.
Proof. apply put_uvarlong_app. Qed.
Lemma put_varlong_app out v : put_varlong out v = out ++ put_varlong [] v.
Proof. apply put_uvarlong_app. Qed.

Lemma put_nullable_app out o : put_nullable out o = out ++ put_nullable [] o.
Proof.
  destruct o; cbn [put_nullable]; rewrite put_varint_app; [by rewrite <- app_assoc|done].
Qed.

Lemma put_header_app out h : put_header out h = out ++ put_header [] h.
Proof.
  destruct h as [k v]. unfold put_header.
  rewrite put_nullable_app, (put_nullable_app (_ ++ k)), put_varint_app.
  by rewrite <- !app_assoc.
Qed.

Lemma put_headers_app out hs : foldl put_header out hs = out ++ concat (map (put_header []) hs).
Proof.
  revert out. induction hs as [|h hs IH]; intros out; cbn; [by rewrite app_nil_r|].
  by rewrite IH, put_header_app, <- app_assoc.
Qed.

(** The bytes of a record after its length. *)
Definition record_body (r : RecordItem) : bytes :=
  be_bytes 1 (ri_attributes r) ++ put_varlong [] (timestamp_delta r) ++
  put_varint [] (offset_delta r) ++ put_nullable [] (ri_key r) ++
  put_nullable [] (ri_value r) ++ put_varint [] (len_i32 (headers r)) ++
  concat (map (put_header []) (headers r)).

Definition record_bytes (r : RecordItem) : bytes :=
  put_varint [] (len_i32 (record_body r)) ++ record_body r.

(** Conversion leaves the loop of the varints alone. *)
#[local] Strategy 1000 [put_uvarlong put_uvarlong_fuel].

Lemma record_bytes_eq r :
  record_bytes r = put_varint [] (len_i32 (record_body r)) ++ record_body r.
Proof. reflexivity. Qed.

Lemma encode_record_bytes out r : encode_record out r = out ++ record_bytes r.
Proof.
  unfold encode_record. cbv zeta. rewrite put_varint_app, <- app_assoc. unfold record_bytes.
  set (body := foldl put_header _ _). assert (body = record_body r) as ->; [|done]. subst body.
  rewrite put_headers_app, (put_varint_app (put_nullable _ _)), (put_nullable_app (put_nullable _ _)),
    (put_nullable_app (put_varint _ _)), (put_varint_app (put_varlong _ _)), (put_varlong_app [_]).
  by rewrite <- !app_assoc.
Qed.

Lemma reads_nullable o : opt_ok o -> reads nullable (put_nullable [] o) o.
Proof.
  intros Ho c. unfold nullable. destruct o as [b|]; cbn [put_nullable].
  - destruct (len_i32_ok b Ho) as [-> Hl]. pose proof (zlen_nonneg b).
    eapply reads_at_bind; [by apply reads_varint|].
    rewrite (proj2 (Z.eqb_neq _ _)), (proj2 (Z.ltb_ge _ _)) by lia.
    apply (reads_at_map _ _ Some). by apply reads_take.
  - eapply reads_at_bind_last; [by apply reads_varint|]. apply reads_at_ret.
Qed.

Definition header_ok (h : bytes * option bytes) : Prop :=
  len_ok h.1 /\ utf8_valid h.1 = true /\ opt_ok h.2.

Lemma reads_header h i : header_ok h -> reads (decode_header i) (put_header [] h) h.
Proof.
  destruct h as [k v]. intros (Hk & Hu & Hv) c. cbn [fst snd] in Hk, Hu, Hv.
  unfold decode_header, put_header. rewrite put_nullable_app, <- app_assoc.
  destruct (len_i32_ok k Hk) as [-> Hl]. pose proof (zlen_nonneg k).
  eapply reads_at_bind; [by apply reads_at_context_item, reads_varint|].
  rewrite (proj2 (Z.ltb_ge _ _)) by lia.
  eapply reads_at_bind; [by apply reads_at_context_item, reads_take|].
  change (put_nullable [] v) with ([] ++ put_nullable [] v).
  eapply (reads_at_bind _ _ _ [] _ k).
  { intros tl _ _. rewrite Hu. unfold context_item, lift. cbn. by rewrite zlen_nil, adv_0. }
  by apply (reads_at_map _ _ (pair k)), reads_at_context_item, reads_nullable.
Qed.

Lemma header_reads hs :
  Forall header_ok hs ->
  Forall2 (fun x h => forall i, reads (decode_header i) x h) (map (put_header []) hs) hs.
Proof. induction 1; cbn; constructor; auto using reads_header. Qed.

Record record_ok (r : RecordItem) : Prop := {
  ok_attributes : in_s 8 (ri_attributes r);
  ok_timestamp : in_s 64 (timestamp_delta r);
  ok_offset : in_s 32 (offset_delta r);
  ok_key : opt_ok (ri_key r);
  ok_value : opt_ok (ri_value r);
  ok_header_count : len_ok (headers r);
  ok_headers : Forall header_ok (headers r);
  ok_body : len_ok (record_body r)
}.

Lemma reads_check_end c n end_ : pos c = end_ -> reads_at c (check_end n end_) [] tt.
Proof.
  intros H tl _ _. unfold check_end, here, mbind, M_bind. rewrite (proj2 (Z.eqb_eq _ _) H).
  unfold mret, M_ret. by rewrite zlen_nil, adv_0.
Qed.

Lemma reads_fields r : record_ok r -> reads decode_fields (record_body r) r.
Proof.
  intros [Ha Ht Ho Hk Hv Hn Hh _] c. unfold decode_fields, record_body.
  eapply reads_at_bind; [by apply reads_at_context, reads_i8|].
  eapply reads_at_bind; [by apply reads_at_context, reads_varlong|].
  eapply reads_at_bind; [by apply reads_at_context, reads_varint|].
  eapply reads_at_bind; [by apply reads_at_context, reads_nullable|].
  eapply reads_at_bind; [by apply reads_at_context, reads_nullable|].
  destruct (len_i32_ok _ Hn) as [-> Hl]. pose proof (zlen_nonneg (headers r)).
  eapply reads_at_bind; [by apply reads_at_context, reads_varint|].
  rewrite (proj2 (Z.ltb_ge _ _)) by lia. rewrite to_nat_zlen.
  eapply reads_at_bind_last; [by apply (reads_for_range decode_header), header_reads|].
  destruct r. apply reads_at_ret.
Qed.

(** A record after its length field [n], whatever [n] claims. *)
Lemma record_after_length r n c tl :
  record_ok r -> in_s 32 n -> 0 <= n -> n <= zlen (record_body r) ->
  valid c -> rest c = (put_varint [] n ++ record_body r) ++ tl ->
  decode_record c =
    (_ ← check_end n (pos c + zlen (put_varint [] n) + n); mret r)
      (adv (zlen (put_varint [] n ++ record_body r)) c).
Proof.
  intros Hr Hn H0 Hle Hv Hrest. rewrite <- app_assoc in Hrest. unfold decode_record.
  pose proof (reads_at_context c "record.length" varint _ n (reads_varint n Hn c) _ Hv Hrest) as H1.
  destruct (rest_adv _ _ _ Hv Hrest) as [Hr1 Hv1]. rewrite (bind_step _ _ _ _ _ H1). clear H1.
  rewrite zlen_app, <- adv_adv. change (pos c + zlen (put_varint [] n)) with (pos (adv (zlen (put_varint [] n)) c)).
  generalize dependent (adv (zlen (put_varint [] n)) c). intros c1 Hr1 Hv1.
  rewrite (proj2 (Z.ltb_ge _ _)) by lia. rewrite bind_here.
  pose proof (zlen_rest c1 Hv1) as Hl. rewrite Hr1, zlen_app in Hl. pose proof (zlen_nonneg tl).
  rewrite (proj2 (Z.ltb_ge _ _)) by lia.
  by rewrite (bind_step _ _ _ _ _ (reads_fields r Hr c1 tl Hv1 Hr1)).
Qed.

Lemma reads_record r : record_ok r -> reads decode_record (record_bytes r) r.
Proof.
  intros Hr c tl Hv Hrest. rewrite record_bytes_eq in *.
  destruct (len_i32_ok _ (ok_body _ Hr)) as [E Hl]. rewrite E in *.
  pose proof (zlen_nonneg (record_body r)).
  rewrite (record_after_length r _ c tl Hr Hl) by (done || lia).
  destruct (rest_adv _ _ _ Hv Hrest) as [Hr1 Hv1].
  assert (pos (adv (zlen (put_varint [] (zlen (record_body r)) ++ record_body r)) c) =
    pos c + zlen (put_varint [] (zlen (record_body r))) + zlen (record_body r)) as Hend.
  { unfold adv. cbn [pos]. rewrite zlen_app. lia. }
  rewrite (bind_step _ _ _ _ _ (reads_check_end _ _ _ Hend tl Hv1 Hr1)).
  by rewrite zlen_nil, adv_0.
Qed.

Lemma reads_records rs :
  Forall record_ok rs ->
  reads (decode_records (zlen rs)) (concat (map record_bytes rs)) rs.
Proof.
  intros Hrs. unfold decode_records. rewrite to_nat_zlen. apply reads_for_range.
  induction Hrs as [|r rs Hr _ IH]; [constructor|]. cbn [map]. constructor; [|exact IH].
  intros i c. apply reads_at_context_item. exact (reads_record r Hr c).
Qed.

Lemma encode_records_bytes out rs :
  foldl encode_record out rs = out ++ concat (map record_bytes rs).
Proof.
  revert out. induction rs as [|r rs IH]; intros out; cbn [foldl map concat];
    [by rewrite app_nil_r|].
  rewrite IH, encode_record_bytes. symmetry. apply app_assoc.
Qed.
