(* ===== verification/KafkaMeta.v ===== *)
(** * Cluster-metadata records ([kafkatest/src/proto/meta.rs])

  The hand-written codec of the three [__cluster_metadata-0] records the
  fixtures write: the [Enc] writer of Kafka's compact encoding, the framing,
  the records, and [decode_record], which reads them back with the [Cursor] of
  [records.rs].  A [String] is the list of its bytes, known to be UTF-8, and a
  [Uuid] its sixteen bytes.  [metadata_survives] is the round trip;
  [base64_unbase64] says that the textual form of a topic id determines it. *)

From S2P Require Import Prelude Text KafkaRecords KafkaRound.

Definition TOPIC : Z := 2.
Definition PARTITION : Z := 3.
Definition FEATURE_LEVEL : Z := 12.
Definition FRAME_VERSION : Z := 1.

(** ** The textual form of a topic id *)

Definition ALPHABET : bytes :=
  str "ABCDEFGHIJKLMNOPQRSTUVWXYZabcdefghijklmnopqrstuvwxyz0123456789-_".

(** [ALPHABET[(n >> shift) as usize & 0x3f]]: always in range. *)
Definition sextet (n shift : Z) : byte :=
  nth (Z.to_nat (Z.land (Z.shiftr n shift) 0x3f)) ALPHABET x00.

(** One chunk of one, two or three bytes; the absent ones are 0. *)
Definition base64_chunk (chunk : bytes) : bytes :=
  let b i := b2z (nth i chunk x00) in
  let n := Z.lor (Z.lor (Z.shiftl (b 0%nat) 16) (Z.shiftl (b 1%nat) 8)) (b 2%nat) in
  let keep := match length chunk with 1%nat => 2%nat | 2%nat => 3%nat | _ => 4%nat end in
  firstn keep [sextet n 18; sextet n 12; sextet n 6; sextet n 0].

(** [bytes.chunks(3)]. *)
Fixpoint base64_url_nopad (bs : bytes) : bytes :=
  match bs with
  | [] => []
  | a :: b :: c :: rest => base64_chunk [a; b; c] ++ base64_url_nopad rest
  | chunk => base64_chunk chunk
  end.

Definition uuid_to_kafka_string (id : bytes) : bytes := base64_url_nopad id.

(** ** The writer: each operation extends the buffer *)

(** A [u32] is five groups of seven bits at most. *)
Fixpoint uvarint_fuel (fuel : nat) (buf : bytes) (v : Z) : bytes :=
  match fuel with
  | O => buf ++ [z2b v]
  | S fuel =>
    if 0x80 <=? v then
      uvarint_fuel fuel (buf ++ [z2b (Z.lor (v mod 256) 0x80)]) (Z.shiftr v 7)
    else buf ++ [z2b v]
  end.
Definition Enc_uvarint (buf : bytes) (v : Z) : bytes := uvarint_fuel 4 buf v.
Definition Enc_u8 (buf : bytes) (v : Z) : bytes := buf ++ [z2b v].
Definition Enc_i16 (buf : bytes) (v : Z) : bytes := buf ++ be_bytes 2 v.
Definition Enc_i32 (buf : bytes) (v : Z) : bytes := buf ++ be_bytes 4 v.

(** [len as u32 + 1]; at [u32::MAX] the sum overflows, written here as the wrap
  of a release build. *)
Definition compact_len {A} (l : list A) : Z := wrap_u 32 (wrap_u 32 (zlen l) + 1).

Definition Enc_compact_string (buf s : bytes) : bytes := Enc_uvarint buf (compact_len s) ++ s.
Definition Enc_uuid (buf id : bytes) : bytes := buf ++ id.
Definition Enc_compact_i32_array (buf : bytes) (items : list Z) : bytes :=
  foldl Enc_i32 (Enc_uvarint buf (compact_len items)) items.
Definition Enc_compact_uuid_array (buf : bytes) (items : list bytes) : bytes :=
  foldl Enc_uuid (Enc_uvarint buf (compact_len items)) items.
Definition Enc_empty_tagged_fields (buf : bytes) : bytes := Enc_uvarint buf 0.

Definition frame (buf : bytes) (type_id version : Z) : bytes :=
  Enc_uvarint (Enc_uvarint (Enc_u8 buf FRAME_VERSION) type_id) version.

(** ** Records *)

Record FeatureLevelRecord : Type := mkFeatureLevelRecord { fl_name : bytes; fl_level : Z }.

Definition FeatureLevelRecord_encode (r : FeatureLevelRecord) : bytes :=
  let e := frame [] FEATURE_LEVEL 0 in
  let e := Enc_compact_string e (fl_name r) in
  let e := Enc_i16 e (fl_level r) in
  Enc_empty_tagged_fields e.

Record TopicRecord : Type := mkTopicRecord { topic_name : bytes; topic_uuid : bytes }.

Definition TopicRecord_encode (r : TopicRecord) : bytes :=
  let e := frame [] TOPIC 0 in
  let e := Enc_compact_string e (topic_name r) in
  let e := Enc_uuid e (topic_uuid r) in
  Enc_empty_tagged_fields e.

Record PartitionRecord : Type := mkPartitionRecord {
  partition_id : Z;
  topic_id : bytes;
  replicas : list Z;
  isr : list Z;
  leader : Z;
  leader_epoch : Z;
  partition_epoch : Z;
  directories : list bytes
}.

Definition PartitionRecord_single (partition_id : Z) (topic_id : bytes) (broker : Z) (dir : bytes) :
    PartitionRecord :=
  mkPartitionRecord partition_id topic_id [broker] [broker] broker 0 0 [dir].

Definition PartitionRecord_encode (r : PartitionRecord) : bytes :=
  let e := frame [] PARTITION 1 in
  let e := Enc_i32 e (partition_id r) in
  let e := Enc_uuid e (topic_id r) in
  let e := Enc_compact_i32_array e (replicas r) in
  let e := Enc_compact_i32_array e (isr r) in
  let e := Enc_compact_i32_array e [] in
  let e := Enc_compact_i32_array e [] in
  let e := Enc_i32 e (leader r) in
  let e := Enc_i32 e (leader_epoch r) in
  let e := Enc_i32 e (partition_epoch r) in
  let e := Enc_compact_uuid_array e (directories r) in
  Enc_empty_tagged_fields e.

Inductive MetadataRecord : Type :=
| FeatureLevel (r : FeatureLevelRecord)
| Topic (r : TopicRecord)
| Partition (r : PartitionRecord)
| OtherRecord (type_id version : Z).

(** ** The reader *)

Definition compact_string : M bytes :=
  n ← uvarlong;
  if n =? 0 then bail NullCompactString
  else
    bs ← take (n - 1);
    context "compact string is not utf-8" (lift (if utf8_valid bs then Ok bs else Err NotUtf8)).

Definition read_uuid : M bytes := take 16.

Definition compact_i32_array : M (list Z) :=
  n ← uvarlong;
  if n =? 0 then mret [] else for_range (Z.to_nat (n - 1)) 0 (fun _ => read_i32).

Definition compact_uuid_array : M (list bytes) :=
  n ← uvarlong;
  if n =? 0 then mret [] else for_range (Z.to_nat (n - 1)) 0 (fun _ => read_uuid).

Definition decode_feature : M MetadataRecord :=
  name ← context "feature_level.name" compact_string;
  level ← context "feature_level.level" read_i16;
  mret (FeatureLevel (mkFeatureLevelRecord name level)).

Definition decode_topic : M MetadataRecord :=
  name ← context "topic.name" compact_string;
  id ← context "topic.id" read_uuid;
  mret (Topic (mkTopicRecord name id)).

Definition decode_partition (version : Z) : M MetadataRecord :=
  partition_id ← context "partition.partition_id" read_i32;
  topic_id ← context "partition.topic_id" read_uuid;
  replicas ← context "partition.replicas" compact_i32_array;
  isr ← context "partition.isr" compact_i32_array;
  _ ← context "partition.removing_replicas" compact_i32_array;
  _ ← context "partition.adding_replicas" compact_i32_array;
  leader ← context "partition.leader" read_i32;
  leader_epoch ← context "partition.leader_epoch" read_i32;
  partition_epoch ← context "partition.partition_epoch" read_i32;
  directories ← (if 1 <=? version then context "partition.directories" compact_uuid_array
                 else mret []);
  mret (Partition (mkPartitionRecord partition_id topic_id replicas isr leader leader_epoch
                     partition_epoch directories)).

Definition decode_metadata : M MetadataRecord :=
  frame_version ← context "metadata record frame version" read_i8;
  if negb (frame_version =? wrap_s 8 FRAME_VERSION) then bail (FrameVersion frame_version)
  else
    t ← context "metadata record type" uvarlong;
    v ← context "metadata record version" uvarlong;
    let type_id := wrap_u 32 t in
    let version := wrap_u 32 v in
    if type_id =? FEATURE_LEVEL then decode_feature
    else if type_id =? TOPIC then decode_topic
    else if type_id =? PARTITION then decode_partition version
    else mret (OtherRecord type_id version).

(** [decode_record]: what is left after the record is not looked at. *)
Definition decode_metadata_record (value : bytes) : Result Error MetadataRecord :=
  '(r, _) ← decode_metadata (Cursor_new value); Ok r.

(** ** The writer appends *)

Lemma uvarint_app fuel buf v : uvarint_fuel fuel buf v = buf ++ uvarint_fuel fuel [] v.
Proof.
  revert buf v. induction fuel as [|fuel IH]; intros buf v; [done|]. cbn [uvarint_fuel].
  case_match; [|done]. rewrite IH, (IH ([] ++ _)). by rewrite <- app_assoc.
Qed.

(** Five groups hold what [records.rs] writes with up to ten. *)
Lemma uvarint_put fuel more buf v :
  0 <= v < 2 ^ (7 * Z.of_nat (S fuel)) ->
  uvarint_fuel fuel buf v = put_uvarlong_fuel (fuel + more) buf v.
Proof.
  revert buf v. induction fuel as [|fuel IH]; intros buf v Hv; cbn [uvarint_fuel Nat.add].
  - destruct more; [done|]. cbn [put_uvarlong_fuel]. change (2 ^ _) with 128 in Hv.
    by rewrite (proj2 (Z.leb_gt _ _)) by lia.
  - cbn [put_uvarlong_fuel]. case_match; [|done]. apply IH.
    rewrite Z.shiftr_div_pow2 by lia. change (2 ^ 7) with 128.
    replace (7 * Z.of_nat (S (S fuel))) with (7 * Z.of_nat (S fuel) + 7) in Hv by lia.
    rewrite Z.pow_add_r in Hv by lia. change (2 ^ 7) with 128 in Hv.
    split; [apply Z.div_pos; lia|]. apply Z.div_lt_upper_bound; lia.
Qed.

Lemma reads_Enc_uvarint v : in_u 32 v -> reads uvarlong (Enc_uvarint [] v) v.
Proof.
  intros [H0 H1]. unfold Enc_uvarint. rewrite (uvarint_put 4 5) by lia.
  apply reads_uvarlong. unfold in_u. lia.
Qed.

Lemma foldl_append {A} (f : bytes -> A -> bytes) (g : A -> bytes) buf xs :
  (forall b x, f b x = b ++ g x) -> foldl f buf xs = buf ++ concat (map g xs).
Proof.
  intros H. revert buf. induction xs as [|x xs IH]; intros buf; cbn; [by rewrite app_nil_r|].
  by rewrite IH, H, <- app_assoc.
Qed.

(** ** Each read undoes its write *)

(** What the writer can announce: [u32::MAX] items overflow the length. *)
Definition writable {A} (l : list A) : Prop := zlen l < 2 ^ 32 - 1.
Definition name_ok (s : bytes) : Prop := utf8_valid s = true /\ writable s.
Definition uuid_ok (id : bytes) : Prop := zlen id = 16.

Lemma compact_len_ok {A} (l : list A) :
  writable l -> compact_len l = zlen l + 1 /\ in_u 32 (zlen l + 1).
Proof.
  unfold writable, compact_len, in_u, wrap_u. intros H. pose proof (zlen_nonneg l).
  rewrite (Z.mod_small (zlen l)) by lia. rewrite Z.mod_small; lia.
Qed.

Definition string_bytes (s : bytes) : bytes := Enc_uvarint [] (zlen s + 1) ++ s.
Definition array_bytes {A} (g : A -> bytes) (xs : list A) : bytes :=
  Enc_uvarint [] (zlen xs + 1) ++ concat (map g xs).

Lemma Enc_uvarint_app buf v : Enc_uvarint buf v = buf ++ Enc_uvarint [] v.
Proof. apply uvarint_app. Qed.

Lemma Enc_compact_string_app buf s : writable s -> Enc_compact_string buf s = buf ++ string_bytes s.
Proof.
  intros H. unfold Enc_compact_string, string_bytes.
  rewrite (proj1 (compact_len_ok s H)), Enc_uvarint_app. by rewrite <- app_assoc.
Qed.

Lemma Enc_i32s_app buf xs :
  writable xs -> Enc_compact_i32_array buf xs = buf ++ array_bytes (be_bytes 4) xs.
Proof.
  intros H. unfold Enc_compact_i32_array, array_bytes.
  rewrite (foldl_append _ (be_bytes 4)) by done.
  rewrite (proj1 (compact_len_ok xs H)), Enc_uvarint_app. by rewrite <- app_assoc.
Qed.

Lemma Enc_uuids_app buf xs :
  writable xs -> Enc_compact_uuid_array buf xs = buf ++ array_bytes id xs.
Proof.
  intros H. unfold Enc_compact_uuid_array, array_bytes.
  rewrite (foldl_append _ id) by done.
  rewrite (proj1 (compact_len_ok xs H)), Enc_uvarint_app. by rewrite <- app_assoc.
Qed.

Lemma reads_compact_string s : name_ok s -> reads compact_string (string_bytes s) s.
Proof.
  intros [Hu Hw] c. destruct (compact_len_ok s Hw) as [_ Hr]. pose proof (zlen_nonneg s).
  unfold compact_string, string_bytes.
  eapply reads_at_bind; [by apply reads_Enc_uvarint|].
  rewrite (proj2 (Z.eqb_neq _ _)) by lia.
  eapply reads_at_bind_last; [apply reads_take; lia|].
  apply reads_at_context. rewrite Hu. apply reads_at_ret.
Qed.

Lemma reads_array {A} (read : M A) (g : A -> bytes) xs :
  writable xs -> Forall (fun x => reads read (g x) x) xs ->
  reads (n ← uvarlong; if n =? 0 then mret [] else for_range (Z.to_nat (n - 1)) 0 (fun _ => read))
    (array_bytes g xs) xs.
Proof.
  intros Hw Hall c. destruct (compact_len_ok xs Hw) as [_ Hr]. pose proof (zlen_nonneg xs).
  eapply reads_at_bind; [by apply reads_Enc_uvarint|].
  rewrite (proj2 (Z.eqb_neq _ _)) by lia.
  replace (Z.to_nat (zlen xs + 1 - 1)) with (length xs) by (unfold zlen; lia).
  apply reads_for_range. clear Hw Hr H. induction Hall; constructor; auto.
Qed.

Lemma reads_i32s xs :
  writable xs -> Forall (in_s 32) xs -> reads compact_i32_array (array_bytes (be_bytes 4) xs) xs.
Proof. intros Hw H. apply reads_array; [done|]. eapply Forall_impl; [exact H|]. apply reads_i32. Qed.

Lemma reads_uuid i : uuid_ok i -> reads read_uuid i i.
Proof. apply reads_take. Qed.

Lemma reads_uuids xs :
  writable xs -> Forall uuid_ok xs -> reads compact_uuid_array (array_bytes id xs) xs.
Proof. intros Hw H. apply (reads_array read_uuid id); [done|]. eapply Forall_impl; [exact H|]. apply reads_uuid. Qed.

(** ** Records survive *)

Definition record_ok (r : MetadataRecord) : Prop :=
  match r with
  | FeatureLevel f => name_ok (fl_name f) /\ in_s 16 (fl_level f)
  | Topic t => name_ok (topic_name t) /\ uuid_ok (topic_uuid t)
  | Partition p =>
    in_s 32 (partition_id p) /\ uuid_ok (topic_id p) /\
    (writable (replicas p) /\ Forall (in_s 32) (replicas p)) /\
    (writable (isr p) /\ Forall (in_s 32) (isr p)) /\
    in_s 32 (leader p) /\ in_s 32 (leader_epoch p) /\ in_s 32 (partition_epoch p) /\
    (writable (directories p) /\ Forall uuid_ok (directories p))
  | OtherRecord _ _ => False
  end.

Definition encode_metadata (r : MetadataRecord) : bytes :=
  match r with
  | FeatureLevel f => FeatureLevelRecord_encode f
  | Topic t => TopicRecord_encode t
  | Partition p => PartitionRecord_encode p
  | OtherRecord _ _ => []
  end.

(** A read followed by a use of its value. *)
Ltac read_next H := eapply reads_at_bind; [first [apply reads_at_context; apply H | apply H]; auto|].

Lemma reads_metadata r (type_id version : Z) body (read : M MetadataRecord) :
  in_u 32 type_id -> in_u 32 version -> reads read body r ->
  (forall c,
     (if type_id =? FEATURE_LEVEL then decode_feature
      else if type_id =? TOPIC then decode_topic
      else if type_id =? PARTITION then decode_partition version
      else mret (OtherRecord type_id version)) c = read c) ->
  reads decode_metadata
    (Enc_u8 [] FRAME_VERSION ++ Enc_uvarint [] type_id ++ Enc_uvarint [] version ++ body) r.
Proof.
  intros Ht Hv Hb Hread c. unfold decode_metadata.
  eapply (reads_at_bind _ _ _ _ _ FRAME_VERSION).
  { apply reads_at_context. apply (reads_i8 FRAME_VERSION). unfold in_s, FRAME_VERSION. lia. }
  change (negb _) with false. cbn iota.
  read_next reads_Enc_uvarint. read_next reads_Enc_uvarint. cbn zeta.
  unfold wrap_u. rewrite !Z.mod_small by (unfold in_u in *; lia).
  intros tl Hvalid Hrest. rewrite Hread. by apply Hb with tl.
Qed.

Lemma reads_feature f :
  name_ok (fl_name f) -> in_s 16 (fl_level f) ->
  reads decode_feature (string_bytes (fl_name f) ++ be_bytes 2 (fl_level f)) (FeatureLevel f).
Proof.
  destruct f as [name level]. cbn. intros Hn Hl c. unfold decode_feature.
  read_next reads_compact_string. eapply reads_at_bind_last; [apply reads_at_context; by apply reads_i16|].
  apply reads_at_ret.
Qed.

Lemma reads_topic t :
  name_ok (topic_name t) -> uuid_ok (topic_uuid t) ->
  reads decode_topic (string_bytes (topic_name t) ++ topic_uuid t) (Topic t).
Proof.
  destruct t as [name id]. cbn. intros Hn Hl c. unfold decode_topic.
  read_next reads_compact_string. eapply reads_at_bind_last; [apply reads_at_context; by apply reads_uuid|].
  apply reads_at_ret.
Qed.

Definition partition_bytes (p : PartitionRecord) : bytes :=
  be_bytes 4 (partition_id p) ++ topic_id p ++ array_bytes (be_bytes 4) (replicas p) ++
  array_bytes (be_bytes 4) (isr p) ++ array_bytes (be_bytes 4) [] ++ array_bytes (be_bytes 4) [] ++
  be_bytes 4 (leader p) ++ be_bytes 4 (leader_epoch p) ++ be_bytes 4 (partition_epoch p) ++
  array_bytes id (directories p).

Lemma reads_partition p :
  record_ok (Partition p) -> reads (decode_partition 1) (partition_bytes p) (Partition p).
Proof.
  intros (Hi & Ht & [Hrw Hr] & [Hiw His] & Hl & Hle & Hpe & [Hdw Hd]) c.
  assert (writable (@nil Z)) as Hnil by (unfold writable; rewrite zlen_nil; lia).
  unfold decode_partition, partition_bytes.
  read_next reads_i32. read_next reads_uuid. read_next reads_i32s. read_next reads_i32s.
  read_next (reads_i32s []). read_next (reads_i32s []).
  read_next reads_i32. read_next reads_i32. read_next reads_i32.
  eapply reads_at_bind_last; [apply reads_at_context; by apply reads_uuids|].
  destruct p. apply reads_at_ret.
Qed.

Lemma decode_whole r x tl :
  reads decode_metadata x r -> decode_metadata_record (x ++ tl) = Ok r.
Proof.
  intros H. unfold decode_metadata_record.
  rewrite (H (Cursor_new (x ++ tl)) tl); [done| |done].
  unfold valid, Cursor_new. cbn. pose proof (zlen_nonneg (x ++ tl)). lia.
Qed.

Lemma frame_app type_id version :
  frame [] type_id version =
  Enc_u8 [] FRAME_VERSION ++ Enc_uvarint [] type_id ++ Enc_uvarint [] version.
Proof.
  unfold frame. rewrite Enc_uvarint_app, (Enc_uvarint_app (Enc_u8 _ _)). by rewrite <- app_assoc.
Qed.

(** What follows the frame: the fields and the empty tagged fields. *)
Lemma feature_encoded f :
  writable (fl_name f) ->
  FeatureLevelRecord_encode f =
  frame [] FEATURE_LEVEL 0 ++ (string_bytes (fl_name f) ++ be_bytes 2 (fl_level f)) ++ [x00].
Proof.
  intros H. unfold FeatureLevelRecord_encode, Enc_i16. cbn zeta.
  rewrite Enc_compact_string_app by done. unfold Enc_empty_tagged_fields.
  rewrite (Enc_uvarint_app (_ ++ _)). rewrite <- !app_assoc. reflexivity.
Qed.

Lemma topic_encoded t :
  writable (topic_name t) ->
  TopicRecord_encode t = frame [] TOPIC 0 ++ (string_bytes (topic_name t) ++ topic_uuid t) ++ [x00].
Proof.
  intros H. unfold TopicRecord_encode, Enc_uuid. cbn zeta.
  rewrite Enc_compact_string_app by done. unfold Enc_empty_tagged_fields.
  rewrite (Enc_uvarint_app (_ ++ _)). rewrite <- !app_assoc. reflexivity.
Qed.

Lemma partition_encoded p :
  writable (replicas p) -> writable (isr p) -> writable (directories p) ->
  PartitionRecord_encode p = frame [] PARTITION 1 ++ partition_bytes p ++ [x00].
Proof.
  intros Hr Hi Hd. assert (writable (@nil Z)) as Hnil by (unfold writable; rewrite zlen_nil; lia).
  unfold PartitionRecord_encode, partition_bytes, Enc_uuid. cbn zeta.
  rewrite Enc_uuids_app, !Enc_i32s_app by done. unfold Enc_i32.
  unfold Enc_empty_tagged_fields.
  rewrite (Enc_uvarint_app (_ ++ _)). rewrite <- !app_assoc. reflexivity.
Qed.

(** Every record the fixtures write is read back as it was, whatever follows
  it in the value. *)
Theorem metadata_survives r tl :
  record_ok r -> decode_metadata_record (encode_metadata r ++ tl) = Ok r.
Proof.
  intros H. assert (exists body, encode_metadata r = body ++ [x00] /\ reads decode_metadata body r)
    as (body & -> & Hb); [|rewrite <- app_assoc; by apply decode_whole].
  destruct r as [f|t|p|]; cbn [encode_metadata]; [| | |done].
  - destruct H as [Hn Hl]. rewrite feature_encoded, frame_app by apply Hn. rewrite app_assoc.
    eexists. split; [done|]. rewrite <- !app_assoc.
    apply (reads_metadata _ FEATURE_LEVEL 0 _ decode_feature); try done. by apply reads_feature.
  - destruct H as [Hn Hl]. rewrite topic_encoded, frame_app by apply Hn. rewrite app_assoc.
    eexists. split; [done|]. rewrite <- !app_assoc.
    apply (reads_metadata _ TOPIC 0 _ decode_topic); try done. by apply reads_topic.
  - pose proof H as (_ & _ & [Hr _] & [Hi _] & _ & _ & _ & [Hd _]).
    rewrite partition_encoded, frame_app by done. rewrite app_assoc.
    eexists. split; [done|]. rewrite <- !app_assoc.
    apply (reads_metadata _ PARTITION 1 _ (decode_partition 1)); try done. by apply reads_partition.
Qed.

(** The segment of the tests, lifted from a real broker. *)
Example feature_level_matches_a_real_segment :
  FeatureLevelRecord_encode (mkFeatureLevelRecord (str "metadata.version") 27) =
  map z2b [0x01; 0x0c; 0x00; 0x11] ++ str "metadata.version" ++ map z2b [0x00; 0x1b; 0x00].
Proof. vm_compute. reflexivity. Qed.

(** Type ids are 32-bit: one above them is read as its low half, so an id no
  broker uses is taken for a topic. *)
Example wide_type_id_is_truncated :
  decode_metadata_record
    ([z2b 1] ++ put_uvarlong [] (2 ^ 32 + TOPIC) ++ [x00] ++ string_bytes (str "a") ++ replicate 16 x00) =
  Ok (Topic (mkTopicRecord (str "a") (replicate 16 x00))).
Proof. vm_compute. reflexivity. Qed.

(** ** The textual form determines the id *)

(** RFC 4648's decoding of the URL-safe alphabet without padding. *)
Definition char_val (c : byte) : option Z :=
  Z.of_nat ∘ fst <$> list_find (c =.) ALPHABET.

Fixpoint unbase64 (cs : bytes) : option bytes :=
  match cs with
  | [] => Some []
  | c1 :: c2 :: c3 :: c4 :: rest =>
    a ← char_val c1; b ← char_val c2; c ← char_val c3; d ← char_val c4;
    tl ← unbase64 rest;
    Some (z2b (a * 4 + b / 16) :: z2b (b * 16 + c / 4) :: z2b (c * 64 + d) :: tl)
  | [c1; c2; c3] =>
    a ← char_val c1; b ← char_val c2; c ← char_val c3;
    Some [z2b (a * 4 + b / 16); z2b (b * 16 + c / 4)]
  | [c1; c2] => a ← char_val c1; b ← char_val c2; Some [z2b (a * 4 + b / 16)]
  | [_] => None
  end.

Lemma char_val_alphabet k : (k < 64)%nat -> char_val (nth k ALPHABET x00) = Some (Z.of_nat k).
Proof.
  intros Hk. assert (forallb (fun k => bool_decide (char_val (nth k ALPHABET x00) = Some (Z.of_nat k)))
    (seq 0 64) = true) as H by (vm_compute; reflexivity).
  rewrite forallb_forall in H. eapply bool_decide_eq_true, H. apply in_seq. lia.
Qed.

Lemma sextet_val n s : 0 <= s -> char_val (sextet n s) = Some (n / 2 ^ s mod 64).
Proof.
  intros Hs. unfold sextet. rewrite (Z.land_ones _ 6), Z.shiftr_div_pow2 by lia. change (2 ^ 6) with 64.
  pose proof (Z.mod_pos_bound (n / 2 ^ s) 64 ltac:(lia)).
  rewrite char_val_alphabet by lia. by rewrite Z2Nat.id by lia.
Qed.

(** The 24 bits of three bytes. *)
Definition pack3 (a b c : byte) : Z :=
  Z.lor (Z.lor (Z.shiftl (b2z a) 16) (Z.shiftl (b2z b) 8)) (b2z c).

Lemma pack3_value a b c : pack3 a b c = b2z a * 65536 + b2z b * 256 + b2z c.
Proof.
  unfold pack3. rewrite (Z.lor_comm _ (b2z c)), (Z.lor_comm (Z.shiftl _ 16)).
  pose proof (b2z_range a). pose proof (b2z_range b). pose proof (b2z_range c).
  rewrite (Z.shiftl_mul_pow2 _ 8) by lia. rewrite (lor_shiftl _ _ 16) by lia.
  replace (b2z b * 2 ^ 8 + b2z a * 2 ^ 16) with (Z.shiftl (b2z b + b2z a * 2 ^ 8) 8)
    by (rewrite Z.shiftl_mul_pow2 by lia; lia).
  rewrite lor_shiftl by lia. lia.
Qed.

Lemma sextets_of a b c n :
  0 <= a < 256 -> 0 <= b < 256 -> 0 <= c < 256 -> n = a * 65536 + b * 256 + c ->
  n / 2 ^ 18 mod 64 = a / 4 /\ n / 2 ^ 12 mod 64 = a mod 4 * 16 + b / 16 /\
  n / 2 ^ 6 mod 64 = b mod 16 * 4 + c / 64 /\ n / 2 ^ 0 mod 64 = c mod 64.
Proof.
  intros Ha Hb Hc ->. change (2 ^ 18) with 262144. change (2 ^ 12) with 4096.
  change (2 ^ 6) with 64. change (2 ^ 0) with 1.
  repeat split; Z.to_euclidean_division_equations; lia.
Qed.

Lemma unpack3 a b c n :
  n = b2z a * 65536 + b2z b * 256 + b2z c ->
  z2b (n / 2 ^ 18 mod 64 * 4 + n / 2 ^ 12 mod 64 / 16) = a /\
  z2b (n / 2 ^ 12 mod 64 * 16 + n / 2 ^ 6 mod 64 / 4) = b /\
  z2b (n / 2 ^ 6 mod 64 * 64 + n / 2 ^ 0 mod 64) = c.
Proof.
  intros Hn. pose proof (b2z_range a). pose proof (b2z_range b). pose proof (b2z_range c).
  destruct (sextets_of (b2z a) (b2z b) (b2z c) n) as (-> & -> & -> & ->); try done.
  repeat split; apply (inj b2z); rewrite b2z_z2b; Z.to_euclidean_division_equations; lia.
Qed.

Lemma unbase64_three a b c out tl :
  unbase64 out = Some tl -> unbase64 (base64_chunk [a; b; c] ++ out) = Some (a :: b :: c :: tl).
Proof.
  intros H. unfold base64_chunk. cbn [length firstn app nth unbase64]. fold (pack3 a b c).
  rewrite !sextet_val by lia. cbn [mbind option_bind]. rewrite H. cbn [mbind option_bind].
  destruct (unpack3 a b c _ (pack3_value a b c)) as (-> & -> & ->). done.
Qed.

Lemma unbase64_two a b : unbase64 (base64_chunk [a; b]) = Some [a; b].
Proof.
  unfold base64_chunk. cbn [length firstn app nth unbase64]. fold (pack3 a b x00).
  rewrite !sextet_val by lia. cbn [mbind option_bind].
  destruct (unpack3 a b x00 _ (pack3_value a b x00)) as (-> & -> & _). done.
Qed.

Lemma unbase64_one a : unbase64 (base64_chunk [a]) = Some [a].
Proof.
  unfold base64_chunk. cbn [length firstn app nth unbase64]. fold (pack3 a x00 x00).
  rewrite !sextet_val by lia. cbn [mbind option_bind].
  destruct (unpack3 a x00 x00 _ (pack3_value a x00 x00)) as (-> & _ & _). done.
Qed.

(** Kafka's textual form of an id is read back by the standard decoding. *)
Theorem base64_unbase64 bs : unbase64 (base64_url_nopad bs) = Some bs.
Proof.
  assert (forall n bs, (length bs <= n)%nat -> unbase64 (base64_url_nopad bs) = Some bs) as H;
    [|by apply (H (length bs))]. clear bs. intros n.
  induction n as [|n IH]; intros [|a [|b [|c bs]]] Hn; try done; try (cbn in Hn; lia);
    [apply unbase64_one|apply unbase64_two|].
  apply unbase64_three, IH. cbn in Hn. lia.
Qed.

Lemma uuid_to_kafka_string_inj i j : uuid_to_kafka_string i = uuid_to_kafka_string j -> i = j.
Proof.
  intros H. apply (inj Some). unfold uuid_to_kafka_string in H.
  by rewrite <- (base64_unbase64 i), H, base64_unbase64.
Qed.

Example topic_id_of_a_real_segment :
  uuid_to_kafka_string
    (map z2b [0xfe; 0xe6; 0x98; 0xcf; 0xbc; 0x13; 0x46; 0xbd; 0x8e; 0x81; 0xd7; 0x35; 0x94; 0xfb; 0x65; 0xf0]) =
  str "_uaYz7wTRr2Ogdc1lPtl8A".
Proof. vm_compute. reflexivity. Qed.
