(* ===== verification/Shell.v ===== *)
(** * The shell tester: normalizing, matching and judging
      ([shelltest/src/normalize.rs], [matchers.rs], [loader.rs], [runner/mod.rs])

  What decides whether a shell passes a test: the output captured from it is
  normalized, the expectations of the test case have their placeholders replaced,
  and matchers compare the two.  A [String] is its bytes, known to be UTF-8, and
  where the code walks over characters the model does ([chars]).  The regular
  expressions, the YAML values and the reading of files are the crates' and the
  system's and are parameters.  [ShellVerdict] says what the verdict means. *)

From S2P Require Import Prelude Text OrdMap.

(** ** Escape sequences *)

(** [str::chars]. *)
Fixpoint chars_fuel (fuel : nat) (bs : bytes) : list bytes :=
  match fuel, bs with
  | S fuel, b :: rest =>
    let '(k, _) := utf8_head b rest in (b :: take k rest) :: chars_fuel fuel (drop k rest)
  | _, _ => []
  end.
Definition chars (bs : bytes) : list bytes := chars_fuel (length bs) bs.

Definition csi_final (c : bytes) : bool :=
  match c with [b] => between 0x40 0x7e b | _ => false end.

Fixpoint skip_csi (cs : list bytes) : list bytes :=
  match cs with
  | [] => []
  | n :: cs => if csi_final n then cs else skip_csi cs
  end.

Fixpoint skip_osc (prev : bytes) (cs : list bytes) : list bytes :=
  match cs with
  | [] => []
  | n :: cs => if decide (n = [x07] \/ prev = [x1b] /\ n = [x5c]) then cs else skip_osc n cs
  end.

(** What follows an escape character, after the sequence it starts. *)
Definition after_escape (cs : list bytes) : list bytes :=
  match cs with
  | [x5b] :: cs => skip_csi cs
  | [x5d] :: cs => skip_osc [x00] cs
  | [x28] :: cs | [x29] :: cs | [x23] :: cs => drop 1 cs
  | _ :: cs => cs
  | [] => []
  end.

Fixpoint strip_ansi_fuel (fuel : nat) (cs : list bytes) : list bytes :=
  match fuel, cs with
  | S fuel, c :: cs =>
    if decide (c = [x1b]) then strip_ansi_fuel fuel (after_escape cs)
    else c :: strip_ansi_fuel fuel cs
  | _, _ => []
  end.
Definition strip_ansi (s : bytes) : bytes :=
  concat (strip_ansi_fuel (length (chars s)) (chars s)).

(** ** Normalizing *)

Record NormalizeOpts : Type := mkNormalizeOpts {
  o_strip_prompt : option bool; o_strip_ansi : option bool;
  o_strip_cr : option bool; o_trim_lines : option bool
}.

Record Normalizer : Type := mkNormalizer {
  prompt : bytes; n_strip_prompt : bool; n_strip_ansi : bool; n_strip_cr : bool; n_trim_lines : bool
}.

Definition Normalizer_pipe (prompt : bytes) (o : NormalizeOpts) : Normalizer :=
  mkNormalizer prompt (default true (o_strip_prompt o)) (default false (o_strip_ansi o))
    (default false (o_strip_cr o)) (default true (o_trim_lines o)).

Definition Normalizer_pty (prompt : bytes) (o : NormalizeOpts) : Normalizer :=
  mkNormalizer prompt (default false (o_strip_prompt o)) (default true (o_strip_ansi o))
    (default true (o_strip_cr o)) (default false (o_trim_lines o)).

(** [while let Some(rest) = l.strip_prefix(prompt)]: the prompt is not empty, so
  every round shortens the line. *)
Fixpoint strip_prompts (fuel : nat) (prompt l : bytes) : bytes :=
  match fuel with
  | O => l
  | S fuel =>
    match strip_prefix prompt l with Some rest => strip_prompts fuel prompt rest | None => l end
  end.

Definition tidy_line (n : Normalizer) (line : bytes) : bytes :=
  let l := if n_strip_prompt n && bool_decide (prompt n <> [])
           then strip_prompts (length line) (prompt n) line else line in
  if n_trim_lines n then trim_end l else l.

(** [lines.len() > 1 && lines.last().is_some_and(|l| l.is_empty())]. *)
Definition ends_blank (lines : list bytes) : bool :=
  bool_decide (1 < length lines)%nat && bool_decide (last lines = Some []).

Fixpoint pop_blanks_fuel (fuel : nat) (lines : list bytes) : list bytes :=
  match fuel with
  | O => lines
  | S fuel => if ends_blank lines then pop_blanks_fuel fuel (removelast lines) else lines
  end.
Definition pop_blanks (lines : list bytes) : list bytes := pop_blanks_fuel (length lines) lines.

Definition Normalizer_lines (n : Normalizer) (text : bytes) : list bytes :=
  let t := if n_strip_ansi n then strip_ansi text else text in
  let t := if n_strip_cr n then filter (.≠ x0d) t else t in
  let lines := map (tidy_line n) (split_on x0a t) in
  if n_trim_lines n then pop_blanks lines
  else if ends_blank lines then removelast lines else lines.

Definition Normalizer_apply (n : Normalizer) (text : bytes) : bytes :=
  join [x0a] (Normalizer_lines n text).

Definition expected_normalizer : Normalizer := mkNormalizer [] false false false true.
Definition normalize_expected (text : bytes) : bytes := Normalizer_apply expected_normalizer text.

(** ** Placeholders *)

Definition ends_with (c : byte) (s : bytes) : bool := bool_decide (last s = Some c).

(** The loop over the occurrences of one key; a key is not empty, so every round
  shortens the rest. *)
Fixpoint replace_fuel (fuel : nat) (k v result rest : bytes) : bytes :=
  match fuel with
  | O => result ++ rest
  | S fuel =>
    match find_bytes rest k with
    | None => result ++ rest
    | Some i =>
      let escaped := (ends_with x24 result && (i =? 0)%nat) || ends_with x24 (take i rest) in
      replace_fuel fuel k v ((result ++ take i rest) ++ (if escaped then k else v))
        (drop (i + length k) rest)
    end
  end.
Definition replace (out k v : bytes) : bytes := replace_fuel (S (length out)) k v [] out.

Definition Placeholders : Type := list (bytes * bytes).
Definition Placeholders_apply (pairs : Placeholders) (s : bytes) : bytes :=
  foldl (fun out p => replace out p.1 p.2) s pairs.

(** ** Matchers *)

Inductive Matcher : Type :=
| Exact (s : bytes)
| Regex (s : bytes)
| Contains (s : bytes)
| NotContains (s : bytes)
| LinesUnordered (v : list bytes)
| LinesOrderedSubset (v : list bytes).

Definition map_text (f : bytes -> bytes) (m : Matcher) : Matcher :=
  match m with
  | Exact s => Exact (f s)
  | Regex s => Regex (f s)
  | Contains s => Contains (f s)
  | NotContains s => NotContains (f s)
  | LinesUnordered v => LinesUnordered (map f v)
  | LinesOrderedSubset v => LinesOrderedSubset (map f v)
  end.

Definition map_exact (f : bytes -> bytes) (m : Matcher) : Matcher :=
  match m with
  | Exact _ | LinesUnordered _ | LinesOrderedSubset _ => map_text f m
  | other => other
  end.

Definition expected_text (m : Matcher) : option bytes :=
  match m with
  | Exact s => Some s
  | LinesUnordered v | LinesOrderedSubset v => Some (join [x0a] v)
  | _ => None
  end.

(** Why a matcher fails: the text of the report, with its argument. *)
Inductive Why : Type :=
| OutputDiffers
| InvalidRegex (e : bytes)
| RegexDidNotMatch (r : bytes)
| SubstringNotFound (s : bytes)
| ForbiddenFound (s : bytes)
| MultisetDiffers
| LineMissing (want : bytes).

(** [then_some(()).ok_or_else]. *)
Definition require {E} (b : bool) (e : E) : Result E unit := if b then Ok tt else Err e.

(** [it.any(|l| l == want)] leaves the iterator behind the line it found. *)
Fixpoint any_line (want : bytes) (it : list bytes) : option (list bytes) :=
  match it with
  | [] => None
  | l :: it => if decide (l = want) then Some it else any_line want it
  end.

Fixpoint in_order (exp it : list bytes) : Result Why unit :=
  match exp with
  | [] => Ok tt
  | want :: exp =>
    match any_line want it with Some it => in_order exp it | None => Err (LineMissing want) end
  end.

(** How the YAML library prints a number, and the regular expressions. *)
Class Crates : Type := {
  Number : Type;
  number_to_string : Number -> bytes;
  regex_new : bytes -> Result bytes (bytes -> bool)
}.

Section crates.
Context {cr : Crates}.

(** [serde_yaml::Value]. *)
Inductive Value : Type :=
| VNull
| VBool (b : bool)
| VNumber (n : Number)
| VString (s : bytes)
| VSequence (items : list Value)
| VMapping (entries : list (Value * Value))
| VTagged (tag : bytes) (v : Value).

Definition scalar (v : Value) : option bytes :=
  match v with
  | VString s => Some s
  | VNumber n => Some (number_to_string n)
  | VBool b => Some (if b then str "true" else str "false")
  | VNull => Some []
  | _ => None
  end.

Inductive ParseError : Type :=
| EntriesMustBeStrings (key : bytes)
| ExpectsLines (key : bytes)
| NotAMatcher
| NotOneKey
| ExpectsString (key : bytes)
| BadRegex (r e : bytes)
| UnknownMatcher (other : bytes).

Fixpoint scalars (key : bytes) (items : list Value) : Result ParseError (list bytes) :=
  match items with
  | [] => Ok []
  | i :: items =>
    s ← ok_or (scalar i) (EntriesMustBeStrings key);
    rest ← scalars key items;
    Ok (s :: rest)
  end.

Definition value_lines (v : Value) (key : bytes) : Result ParseError (list bytes) :=
  match v with
  | VSequence items => scalars key items
  | _ => Err (ExpectsLines key)
  end.

(** [as_str] looks through tags. *)
Fixpoint as_str (v : Value) : option bytes :=
  match v with VString s => Some s | VTagged _ v => as_str v | _ => None end.

Definition keyed_matcher (key : bytes) (val : Value) : Result ParseError Matcher :=
  let text := ok_or (scalar val) (ExpectsString key) in
  if decide (key = str "exact") then Exact <$> text
  else if decide (key = str "regex") then
    r ← text; _ ← map_err (BadRegex r) (regex_new r); Ok (Regex r)
  else if decide (key = str "contains") then Contains <$> text
  else if decide (key = str "not_contains") then NotContains <$> text
  else if decide (key = str "lines_unordered") then LinesUnordered <$> value_lines val key
  else if decide (key = str "lines_ordered_subset") then LinesOrderedSubset <$> value_lines val key
  else Err (UnknownMatcher key).

Definition from_value (v : Value) : Result ParseError Matcher :=
  match scalar v with
  | Some s => Ok (Exact s)
  | None =>
    match v with
    | VMapping [(k, val)] => keyed_matcher (default [] (as_str k)) val
    | VMapping _ => Err NotOneKey
    | _ => Err NotAMatcher
    end
  end.

Definition check (m : Matcher) (actual : bytes) : Result Why unit :=
  match m with
  | Exact e => require (bool_decide (actual = e)) OutputDiffers
  | Regex r =>
    re ← map_err InvalidRegex (regex_new r);
    require (re actual) (RegexDidNotMatch r)
  | Contains s => require (contains actual s) (SubstringNotFound s)
  | NotContains s => require (negb (contains actual s)) (ForbiddenFound s)
  | LinesUnordered exp =>
    require (bool_decide (sort_by bytes_le (lines actual) = sort_by bytes_le exp)) MultisetDiffers
  | LinesOrderedSubset exp => in_order exp (lines actual)
  end.

(** ** Test cases *)

Inductive Mode : Type := Pipe | Pty.

Inductive Step : Type :=
| Send (t : bytes)
| Wait (t : bytes)
| SleepMs (ms : Z).

Definition Step_try_from (send wait : option bytes) (sleep_ms : option Z) : Result unit Step :=
  match send, wait, sleep_ms with
  | Some s, None, None => Ok (Send s)
  | None, Some w, None => Ok (Wait w)
  | None, None, Some ms => Ok (SleepMs ms)
  | _, _, _ => Err tt
  end.

(** A [BTreeMap]: the entries in the order of their keys. *)
Record Expect : Type := mkExpect {
  e_stdout : option Matcher;
  e_stderr : option Matcher;
  e_terminal : option Matcher;
  e_exit_code : option Z;
  e_files : list (bytes * Matcher);
  e_file_absent : list bytes
}.

(** What of a test case the verdict depends on; the fixtures, the shell's
  arguments and the timeouts go to the sandbox and the processes. *)
Record TestCase : Type := mkTestCase {
  tc_name : bytes;
  tc_mode : Mode;
  tc_input : list bytes;
  tc_steps : list Step;
  tc_keys : list bytes;
  tc_expect : Expect;
  tc_skip_on : list bytes;
  tc_reason : option bytes;
  tc_normalize : NormalizeOpts
}.

Inductive Invalid : Type :=
| StepsOutsidePty | TerminalOutsidePty | InputOutsidePipe | KeysAndSteps | StreamsInPty
| SkipWithoutReason | NoAssertions.

Definition nonempty {A} (l : list A) : bool := match l with [] => false | _ => true end.
Definition is_some {A} (o : option A) : bool := match o with Some _ => true | None => false end.

Definition nothing (e : Expect) : bool :=
  negb (is_some (e_stdout e)) && negb (is_some (e_stderr e)) && negb (is_some (e_terminal e)) &&
  negb (is_some (e_exit_code e)) && negb (nonempty (e_files e)) && negb (nonempty (e_file_absent e)).

Definition validate (tc : TestCase) : Result Invalid unit :=
  let e := tc_expect tc in
  _ ← match tc_mode tc with
      | Pipe =>
        if nonempty (tc_steps tc) || nonempty (tc_keys tc) then Err StepsOutsidePty
        else if is_some (e_terminal e) then Err TerminalOutsidePty else Ok tt
      | Pty =>
        if nonempty (tc_input tc) then Err InputOutsidePipe
        else if nonempty (tc_steps tc) && nonempty (tc_keys tc) then Err KeysAndSteps
        else if is_some (e_stdout e) || is_some (e_stderr e) then Err StreamsInPty else Ok tt
      end;
  if nonempty (tc_skip_on tc) && negb (nonempty (trim (default [] (tc_reason tc))))
  then Err SkipWithoutReason
  else if nothing e then Err NoAssertions else Ok tt.

(** [k.ends_with('\r') || k.ends_with('\n')]. *)
Definition key_steps (prompt : bytes) (delay_ms : Z) (k : bytes) : list Step :=
  [Send k; if ends_with x0d k || ends_with x0a k then Wait prompt else SleepMs delay_ms].

Definition keys_to_steps (keys : list bytes) (prompt : bytes) (delay_ms : Z) : list Step :=
  Wait prompt :: concat (map (key_steps prompt delay_ms) keys).

(** ** Loading *)

Inductive LoadError : Type :=
| NotATest (e : bytes)
| InvalidTest (name : bytes) (e : Invalid)
| DuplicateTest (name : bytes)
| NoTests
| StageTwice (stage : Z).

(** The loop of [load_stage] over the raw tests: [serde] has parsed each, or not. *)
Fixpoint load_tests (raw : list (Result bytes TestCase)) (tests : list TestCase)
    : Result LoadError (list TestCase) :=
  match raw with
  | [] => match tests with [] => Err NoTests | _ => Ok tests end
  | r :: raw =>
    tc ← map_err NotATest r;
    _ ← map_err (InvalidTest (tc_name tc)) (validate tc);
    if existsb (fun t => bool_decide (tc_name t = tc_name tc)) tests then Err (DuplicateTest (tc_name tc))
    else load_tests raw (tests ++ [tc])
  end.

(** [stages.windows(2)]. *)
Fixpoint adjacent_distinct {A} (stage : A -> Z) (stages : list A) : Result LoadError unit :=
  match stages with
  | a :: ((b :: _) as rest) =>
    if stage a =? stage b then Err (StageTwice (stage a)) else adjacent_distinct stage rest
  | _ => Ok tt
  end.

(** The end of [load_dir], on the stages in the order of their paths. *)
Definition order_stages {A} (stage : A -> Z) (stages : list A) : Result LoadError (list A) :=
  let stages := sort_by (fun a b => stage a <=? stage b) stages in
  _ ← adjacent_distinct stage stages;
  Ok stages.

(** ** The verdict *)

Inductive ExitInfo : Type := Code (c : Z) | Signal (s : Z) | Killed.

#[global] Instance ExitInfo_eq_dec : EqDecision ExitInfo.
Proof. solve_decision. Defined.

Definition ExitInfo_from (code signal : option Z) : ExitInfo :=
  match code, signal with
  | Some c, _ => Code c
  | None, Some s => Signal s
  | None, None => Killed
  end.

Record Captured : Type := mkCaptured {
  c_stdout : bytes;
  c_stderr : bytes;
  c_terminal : bytes;
  c_exit : option ExitInfo;
  c_timed_out : bool;
  c_step_error : option bytes
}.

Inductive Label : Type := Stdout | Stderr | Terminal | File (path : bytes).

Inductive Failure : Type :=
| TimedOut
| StepFailed (e : bytes)
| Mismatch (label : Label) (why : Why)
| CannotRead (label : Label) (e : bytes)
| ShouldNotExist (label : Label)
| WrongExit (expected : Z) (got : ExitInfo)
| HarnessError (e : bytes).

(** What an expectation is compared as: placeholders replaced, and lines trimmed
  where the output's were. *)
Definition adjusted (trim : bool) (sub : bytes -> bytes) (m : Matcher) : Matcher :=
  let m := map_text sub m in if trim then map_exact normalize_expected m else m.

(** [Checks::check]; the rows of the report are not kept. *)
Definition Checks_check (failures : list Failure) (label : Label) (m : option Matcher)
    (actual : bytes) (trim : bool) (sub : bytes -> bytes) : list Failure :=
  match m with
  | None => failures
  | Some m =>
    match check (adjusted trim sub m) actual with
    | Ok _ => failures
    | Err why => failures ++ [Mismatch label why]
    end
  end.

(** The sandbox: its placeholders, where a path of a test case is, and what the
  test left there. *)
Record Sandbox : Type := mkSandbox {
  vars : Placeholders;
  join_tmp : bytes -> bytes;
  read_file : bytes -> Result bytes bytes;
  file_exists : bytes -> bool
}.

Definition resolve (sb : Sandbox) (path : bytes) : bytes :=
  join_tmp sb (Placeholders_apply (vars sb) path).

Definition check_file (sb : Sandbox) (failures : list Failure) (f : bytes * Matcher) : list Failure :=
  let '(path, m) := f in
  let p := resolve sb path in
  match read_file sb p with
  | Ok bs => Checks_check failures (File p) (Some m) (utf8_lossy bs) false (Placeholders_apply (vars sb))
  | Err e => failures ++ [CannotRead (File p) e]
  end.

Definition check_absent (sb : Sandbox) (failures : list Failure) (path : bytes) : list Failure :=
  let p := resolve sb path in
  if file_exists sb p then failures ++ [ShouldNotExist (File p)] else failures.

Definition check_streams (tc : TestCase) (shell_prompt : bytes) (sb : Sandbox) (cap : Captured)
    (failures : list Failure) : list Failure :=
  let sub := Placeholders_apply (vars sb) in
  match tc_mode tc with
  | Pipe =>
    let n := Normalizer_pipe shell_prompt (tc_normalize tc) in
    let stdout := Normalizer_apply n (utf8_lossy (c_stdout cap)) in
    let stderr := Normalizer_apply n (utf8_lossy (c_stderr cap)) in
    let failures := Checks_check failures Stdout (e_stdout (tc_expect tc)) stdout (n_trim_lines n) sub in
    Checks_check failures Stderr (e_stderr (tc_expect tc)) stderr (n_trim_lines n) sub
  | Pty =>
    let n := Normalizer_pty shell_prompt (tc_normalize tc) in
    let term := Normalizer_apply n (utf8_lossy (c_terminal cap)) in
    Checks_check failures Terminal (e_terminal (tc_expect tc)) term (n_trim_lines n) sub
  end.

(** [run_inner], from what was captured to the failures. *)
Definition judge (tc : TestCase) (shell_prompt : bytes) (sb : Sandbox) (cap : Captured) : list Failure :=
  let failures := if c_timed_out cap then [TimedOut] else [] in
  let failures := match c_step_error cap with Some e => failures ++ [StepFailed e] | None => failures end in
  let failures := check_streams tc shell_prompt sb cap failures in
  let failures := foldl (check_file sb) failures (e_files (tc_expect tc)) in
  let failures := foldl (check_absent sb) failures (e_file_absent (tc_expect tc)) in
  let exit := default Killed (c_exit cap) in
  match e_exit_code (tc_expect tc) with
  | Some code => if decide (exit = Code code) then failures else failures ++ [WrongExit code exit]
  | None => failures
  end.

Inductive Status : Type := Pass | Failed | Skip.

(** [run_test]: the capture, or why there is none. *)
Definition run_test (tc : TestCase) (shell_name shell_prompt : bytes)
    (ran : Result bytes (Sandbox * Captured)) : Status * list Failure :=
  if existsb (fun s => bool_decide (s = shell_name)) (tc_skip_on tc) then (Skip, [])
  else
    match ran with
    | Ok (sb, cap) =>
      let failures := judge tc shell_prompt sb cap in
      (match failures with [] => Pass | _ => Failed end, failures)
    | Err e => (Failed, [HarnessError e])
    end.
End crates.
