(* ===== verification/ShellVerdict.v ===== *)
(** * What the shell tester's verdict means

  [verdict_decides]: a validated test passes exactly when the shell did what the
  test case asserts, each assertion read declaratively - equal lines, the same
  lines in any order, a subsequence of the lines, a substring.  Below it: the
  search and line matchers are complete, normalizing leaves a canonical text, and
  escape sequences and placeholders are handled as documented. *)

From S2P Require Import Prelude Text OrdMap Shell.

(** ** Matchers *)

Definition occurs (s t : bytes) : Prop := exists a b, t = a ++ s ++ b.

Lemma find_bytes_occurs t s : is_Some (find_bytes t s) <-> occurs s t.
Proof.
  induction t as [|x t IH]; cbn [find_bytes]; destruct (decide _) as [E|E].
  - split; [intros _|eauto]. exists [], []. destruct s; [done|by cbn in E].
  - split; [by intros []|]. intros (a & b & H). destruct a, s; [|done..]. by destruct E.
  - split; [intros _|eauto]. exists [], (drop (length s) (x :: t)). rewrite <- E at 1. by rewrite take_drop.
  - rewrite fmap_is_Some, IH. split; intros (a & b & H).
    + exists (x :: a), b. by rewrite H.
    + destruct a as [|y a]; [|injection H as -> H; by exists a, b].
      destruct E. cbn [app] in H. rewrite H. apply take_app_length.
Qed.

Lemma contains_occurs t s : contains t s = true <-> occurs s t.
Proof. unfold contains. by rewrite bool_decide_eq_true, find_bytes_occurs. Qed.

(** Taking the first line that fits loses nothing. *)
Lemma any_line_sublist want it l :
  match any_line want it with
  | Some rest => want :: l `sublist_of` it <-> l `sublist_of` rest
  | None => ~ want :: l `sublist_of` it
  end.
Proof.
  induction it as [|x it IH]; cbn [any_line].
  - intros H. inversion H.
  - destruct (decide (x = want)) as [->|Hn].
    + split; intros H; [|by constructor]. inversion H; subst; [done|].
      etrans; [|done]. by apply sublist_cons.
    + assert (want :: l `sublist_of` x :: it <-> want :: l `sublist_of` it) as E
        by (split; intros H; [inversion H; by subst|by constructor]).
      destruct (any_line want it); by rewrite E.
Qed.

Lemma in_order_sublist exp it : in_order exp it = Ok tt <-> exp `sublist_of` it.
Proof.
  revert it. induction exp as [|want exp IH]; intros it; cbn [in_order].
  - split; [intros _; apply sublist_nil_l|done].
  - pose proof (any_line_sublist want it exp) as H. destruct (any_line want it) as [rest|].
    + by rewrite IH, H.
    + split; [done|]. by intros ?%H.
Qed.

Lemma require_ok {E} b (e : E) : require b e = Ok tt <-> b = true.
Proof. by destruct b. Qed.

(** ** Lines *)

Lemma split_on_free c bs l : l ∈ split_on c bs -> c ∉ l.
Proof.
  revert l. induction bs as [|b bs IH]; cbn [split_on].
  - intros l ->%list_elem_of_singleton. by apply not_elem_of_nil.
  - destruct (decide (b = c)) as [->|Hn].
    + intros l [->|Hl]%elem_of_cons; [by apply not_elem_of_nil|auto].
    + destruct (split_on c bs) as [|s ss].
      * intros l ->%list_elem_of_singleton. rewrite list_elem_of_singleton. congruence.
      * intros l [->|Hl]%elem_of_cons; [|by apply IH; right].
        rewrite not_elem_of_cons. split; [congruence|]. apply IH. by left.
Qed.

Lemma split_on_whole c s : c ∉ s -> split_on c s = [s].
Proof.
  induction s as [|b s IH]; cbn [split_on]; [done|]. rewrite not_elem_of_cons. intros [Hb Hs].
  rewrite decide_False by congruence. by rewrite IH.
Qed.

Lemma split_on_nonempty c bs : split_on c bs <> [].
Proof. destruct bs as [|b bs]; cbn; [done|]. destruct (decide _); [done|]. by destruct (split_on c bs). Qed.

Lemma split_on_join c ls : ls <> [] -> (forall l, l ∈ ls -> c ∉ l) -> split_on c (join [c] ls) = ls.
Proof.
  induction ls as [|l [|l' ls] IH]; intros Hne Hf; [done| |].
  - cbn [join]. apply split_on_whole, Hf. by left.
  - change (join [c] (l :: l' :: ls)) with (l ++ c :: join [c] (l' :: ls)).
    rewrite split_on_cut by (apply Hf; by left). f_equal. apply IH; [done|].
    intros k Hk. apply Hf. by right.
Qed.

(** ** Trimming *)

Lemma ws_back_bound bs : (ws_back bs <= length bs)%nat.
Proof.
  unfold ws_back.
  do 3 (destruct (_ && _) eqn:E; [by apply andb_prop in E as [?%bool_decide_eq_true _]|clear E]). lia.
Qed.

Lemma trim_end_fuel_done fuel bs : (length bs <= fuel)%nat -> ws_back (trim_end_fuel fuel bs) = 0%nat.
Proof.
  revert bs. induction fuel as [|fuel IH]; intros bs Hl; cbn [trim_end_fuel].
  - by destruct bs; [|cbn in Hl; lia].
  - destruct (ws_back bs) as [|k] eqn:E; [done|]. apply IH. rewrite length_take. lia.
Qed.

Lemma trim_end_fixed bs : ws_back bs = 0%nat -> trim_end bs = bs.
Proof. intros H. unfold trim_end. destruct bs as [|b bs]; cbn [length trim_end_fuel]; [done|]. by rewrite H. Qed.

Lemma trim_end_idemp bs : trim_end (trim_end bs) = trim_end bs.
Proof. apply trim_end_fixed, trim_end_fuel_done. done. Qed.

Lemma trim_end_prefix bs : trim_end bs `prefix_of` bs.
Proof.
  unfold trim_end. generalize (length bs) at 1. intros fuel. revert bs.
  induction fuel as [|fuel IH]; intros bs; cbn [trim_end_fuel]; [done|].
  destruct (ws_back bs); [done|]. etrans; [apply IH|]. apply prefix_take.
Qed.

(** ** Canonical texts *)

Lemma strip_prefix_spec p l rest : strip_prefix p l = Some rest <-> l = p ++ rest.
Proof.
  unfold strip_prefix. split.
  - destruct (decide _) as [E|]; [|done]. intros [= <-]. rewrite <- E at 1. by rewrite take_drop.
  - intros ->. by rewrite decide_True, drop_app_length by apply take_app_length.
Qed.

Lemma strip_prompts_suffix fuel p l : strip_prompts fuel p l `suffix_of` l.
Proof.
  revert l. induction fuel as [|fuel IH]; intros l; cbn [strip_prompts]; [done|].
  destruct (strip_prefix p l) as [rest|] eqn:E; [|done]. apply strip_prefix_spec in E as ->.
  etrans; [apply IH|]. by exists p.
Qed.

Lemma strip_prompts_done fuel p l :
  p <> [] -> (length l <= fuel)%nat -> ~ p `prefix_of` strip_prompts fuel p l.
Proof.
  intros Hp. revert l. induction fuel as [|fuel IH]; intros l Hl; cbn [strip_prompts].
  - destruct l; [|cbn in Hl; lia]. intros ->%prefix_nil_inv. done.
  - destruct (strip_prefix p l) as [rest|] eqn:E.
    + apply strip_prefix_spec in E as ->. apply IH. rewrite length_app in Hl.
      destruct p; [done|]. cbn in Hl. lia.
    + intros [rest ->]. by rewrite (proj2 (strip_prefix_spec _ _ _) eq_refl) in E.
Qed.

Lemma tidy_line_sub n l b : b ∈ tidy_line n l -> b ∈ l.
Proof.
  unfold tidy_line. intros H.
  assert (b ∈ (if n_strip_prompt n && bool_decide (prompt n <> []) then strip_prompts (length l) (prompt n) l else l)) as H'.
  { destruct (n_trim_lines n); [|done]. eapply elem_of_prefix; [exact H|apply trim_end_prefix]. }
  destruct (_ && _); [|done]. destruct (strip_prompts_suffix (length l) (prompt n) l) as [k ->].
  apply elem_of_app. by right.
Qed.

(** No tidied line starts with the prompt. *)
Lemma tidy_line_no_prompt n l :
  n_strip_prompt n = true -> prompt n <> [] -> ~ prompt n `prefix_of` tidy_line n l.
Proof.
  intros Hs Hp Hpre. apply (strip_prompts_done (length l) (prompt n) l Hp); [done|].
  unfold tidy_line in Hpre. rewrite Hs, bool_decide_true in Hpre by done. cbn in Hpre.
  destruct (n_trim_lines n); [|done]. etrans; [done|]. apply trim_end_prefix.
Qed.

Lemma ends_blank_snoc ls : ends_blank ls = true -> exists ls', ls = ls' ++ [[]] /\ ls' <> [].
Proof.
  unfold ends_blank. intros [H1%bool_decide_eq_true H2%bool_decide_eq_true]%andb_prop.
  apply last_Some in H2 as [ls' ->]. exists ls'. split; [done|]. intros ->. cbn in H1. lia.
Qed.

Lemma pop_blanks_prefix fuel ls : exists k, ls = pop_blanks_fuel fuel ls ++ replicate k [].
Proof.
  revert ls. induction fuel as [|fuel IH]; intros ls; cbn [pop_blanks_fuel].
  - exists 0%nat. by rewrite app_nil_r.
  - destruct (ends_blank ls) eqn:E; [|exists 0%nat; by rewrite app_nil_r].
    apply ends_blank_snoc in E as (ls' & -> & _). rewrite removelast_last.
    destruct (IH ls') as [k Hk]. exists (S k). rewrite replicate_S_end.
    by rewrite app_assoc, <- Hk.
Qed.

Lemma pop_blanks_done fuel ls : (length ls <= fuel)%nat -> ends_blank (pop_blanks_fuel fuel ls) = false.
Proof.
  revert ls. induction fuel as [|fuel IH]; intros ls Hl; cbn [pop_blanks_fuel].
  - by destruct ls; [|cbn in Hl; lia].
  - destruct (ends_blank ls) eqn:E; [|done].
    apply ends_blank_snoc in E as (ls' & -> & _). rewrite removelast_last. apply IH.
    rewrite length_app in Hl. cbn in Hl. lia.
Qed.

Lemma pop_blanks_fixed ls : ends_blank ls = false -> pop_blanks ls = ls.
Proof. intros H. unfold pop_blanks. destruct ls; cbn [length pop_blanks_fuel]; [done|]. by rewrite H. Qed.

Lemma pop_blanks_nonempty fuel ls : ls <> [] -> pop_blanks_fuel fuel ls <> [].
Proof.
  revert ls. induction fuel as [|fuel IH]; intros ls Hl; cbn [pop_blanks_fuel]; [done|].
  destruct (ends_blank ls) eqn:E; [|done].
  apply ends_blank_snoc in E as (ls' & -> & Hne). rewrite removelast_last. by apply IH.
Qed.

(** The text after the escape sequences and carriage returns are gone. *)
Definition cleaned (n : Normalizer) (text : bytes) : bytes :=
  let t := if n_strip_ansi n then strip_ansi text else text in
  if n_strip_cr n then filter (.≠ x0d) t else t.
Definition tidied (n : Normalizer) (text : bytes) : list bytes :=
  map (tidy_line n) (split_on x0a (cleaned n text)).

Lemma Normalizer_lines_prefix n text :
  exists k, tidied n text = Normalizer_lines n text ++ replicate k [] /\ Normalizer_lines n text <> [].
Proof.
  assert (tidied n text <> []) as Hne.
  { unfold tidied. pose proof (split_on_nonempty x0a (cleaned n text)). by destruct (split_on _ _). }
  unfold Normalizer_lines. fold (cleaned n text). fold (tidied n text).
  destruct (n_trim_lines n).
  - destruct (pop_blanks_prefix (length (tidied n text)) (tidied n text)) as [k Hk].
    exists k. split; [done|]. by apply pop_blanks_nonempty.
  - destruct (ends_blank _) eqn:E; [|exists 0%nat; by rewrite app_nil_r].
    apply ends_blank_snoc in E as (ls & -> & ?). rewrite removelast_last. by exists 1%nat.
Qed.

Lemma Normalizer_lines_tidied n text l : l ∈ Normalizer_lines n text -> exists k, l = tidy_line n k /\ x0a ∉ l.
Proof.
  intros Hl. destruct (Normalizer_lines_prefix n text) as (k & Ht & _).
  assert (l ∈ tidied n text) as Hin by (rewrite Ht; apply elem_of_app; by left).
  apply list_elem_of_fmap in Hin as (u & -> & Hu). exists u. split; [done|].
  intros Hb%tidy_line_sub. by apply (split_on_free x0a) in Hu.
Qed.

Lemma lines_of_apply n text : split_on x0a (Normalizer_apply n text) = Normalizer_lines n text.
Proof.
  destruct (Normalizer_lines_prefix n text) as (_ & _ & Hne). apply split_on_join; [done|].
  intros l (? & _ & ?)%Normalizer_lines_tidied. done.
Qed.

(** Normalized texts are equal when their lines are. *)
Lemma normalized_eq n t n' t' :
  Normalizer_apply n t = Normalizer_apply n' t' <-> Normalizer_lines n t = Normalizer_lines n' t'.
Proof.
  split; intros H; [by rewrite <- !lines_of_apply, H|]. unfold Normalizer_apply. by rewrite H.
Qed.

(** What a trimming normalizer printed is its own expectation: a test written
  from the report of a run passes on that output. *)
Lemma normalized_is_expected n t :
  n_trim_lines n = true -> normalize_expected (Normalizer_apply n t) = Normalizer_apply n t.
Proof.
  intros Hn. unfold normalize_expected, Normalizer_apply at 1.
  unfold Normalizer_lines at 1. cbn [n_strip_ansi n_strip_cr n_trim_lines expected_normalizer].
  rewrite lines_of_apply.
  assert (map (tidy_line expected_normalizer) (Normalizer_lines n t) = Normalizer_lines n t) as ->.
  { rewrite <- (list_fmap_id (Normalizer_lines n t)) at 2. apply list_fmap_ext.
    intros i l (u & -> & _)%list_elem_of_lookup_2%Normalizer_lines_tidied.
    unfold tidy_line. rewrite Hn. cbn. apply trim_end_idemp. }
  rewrite pop_blanks_fixed; [done|]. unfold Normalizer_lines. rewrite Hn. by apply pop_blanks_done.
Qed.

(** ** Escape sequences *)

Lemma concat_chars_fuel fuel bs : (length bs <= fuel)%nat -> concat (chars_fuel fuel bs) = bs.
Proof.
  revert bs. induction fuel as [|fuel IH]; intros [|b bs] Hl; cbn [chars_fuel]; try done; [cbn in Hl; lia|].
  destruct (utf8_head b bs) as [k ok]. cbn [concat app]. f_equal. cbn in Hl.
  rewrite IH by (rewrite length_drop; lia). apply take_drop.
Qed.

Lemma concat_chars bs : concat (chars bs) = bs.
Proof. by apply concat_chars_fuel. Qed.

Lemma between_spec lo hi b : between lo hi b = true <-> lo <= b2z b <= hi.
Proof. unfold between. rewrite andb_true_iff, !Z.leb_le. done. Qed.

(** A character is one byte or none of its bytes is ASCII. *)
Definition char_ok (c : bytes) : Prop := (exists b, c = [b]) \/ Forall (fun b => 0x80 <= b2z b) c.

Lemma cont_high bs : cont bs = true -> exists b rest, bs = b :: rest /\ 0x80 <= b2z b.
Proof. destruct bs as [|b bs]; cbn; [done|]. intros ?%between_spec. exists b, bs. split; [done|lia]. Qed.

Lemma second3_high b bs : second3 b bs = true -> exists c rest, bs = c :: rest /\ 0x80 <= b2z c.
Proof.
  destruct bs as [|c bs]; cbn; [done|]. intros H. exists c, bs. split; [done|].
  rewrite ?orb_true_iff, ?andb_true_iff, !between_spec in H. lia.
Qed.

Lemma second4_high b bs : second4 b bs = true -> exists c rest, bs = c :: rest /\ 0x80 <= b2z c.
Proof.
  destruct bs as [|c bs]; cbn; [done|]. intros H. exists c, bs. split; [done|].
  rewrite ?orb_true_iff, ?andb_true_iff, !between_spec in H. lia.
Qed.

Lemma utf8_head_ok b rest k ok : utf8_head b rest = (k, ok) -> char_ok (b :: take k rest).
Proof.
  assert (forall k, (k <> 0%nat -> 0x80 <= b2z b) -> Forall (fun c => 0x80 <= b2z c) (take k rest) ->
    char_ok (b :: take k rest)) as done_.
  { intros [|k'] Hb Hr; [left; by exists b|right]. constructor; [by apply Hb|done]. }
  unfold utf8_head. intros H. apply done_; clear done_.
  - intros Hk. repeat case_match; simplify_eq/=; rewrite ?between_spec in *; lia.
  - repeat case_match; simplify_eq/=; try done;
      repeat match goal with
      | H : cont _ = true |- _ => apply cont_high in H as (? & ? & ? & ?)
      | H : second3 _ _ = true |- _ => apply second3_high in H as (? & ? & ? & ?)
      | H : second4 _ _ = true |- _ => apply second4_high in H as (? & ? & ? & ?)
      end; do 3 (subst; simpl in *; rewrite ?drop_0 in *); rewrite ?take_0;
      repeat (apply Forall_cons; split; [done|]); rewrite ?take_0; by apply Forall_nil.
Qed.

Lemma chars_ok fuel bs : Forall char_ok (chars_fuel fuel bs).
Proof.
  revert bs. induction fuel as [|fuel IH]; intros [|b bs]; cbn [chars_fuel]; try done.
  destruct (utf8_head b bs) as [k ok] eqn:E. constructor; [by eapply utf8_head_ok|apply IH].
Qed.

Lemma escape_in_chars cs : Forall char_ok cs -> x1b ∈ concat cs -> [x1b] ∈ cs.
Proof.
  induction 1 as [|c cs Hc _ IH]; cbn; [by intros ?%elem_of_nil|].
  rewrite elem_of_app, elem_of_cons. intros [H|H]; [left|right; auto].
  destruct Hc as [[b ->]|Hc]; [by apply list_elem_of_singleton in H as ->|].
  rewrite Forall_forall in Hc. specialize (Hc _ H). by vm_compute in Hc.
Qed.

Lemma skip_csi_suffix cs : skip_csi cs `suffix_of` cs.
Proof.
  induction cs as [|c cs IH]; cbn; [done|]. destruct (csi_final c); [by exists [c]|].
  etrans; [exact IH|by exists [c]].
Qed.

Lemma skip_osc_suffix prev cs : skip_osc prev cs `suffix_of` cs.
Proof.
  revert prev. induction cs as [|c cs IH]; intros prev; cbn; [done|].
  destruct (decide _); [by exists [c]|]. etrans; [apply IH|by exists [c]].
Qed.

Lemma suffix_cons_of {A} (l k : list A) x : l `suffix_of` k -> l `suffix_of` x :: k.
Proof. intros H. by apply suffix_cons_r. Qed.

Lemma after_escape_suffix cs : after_escape cs `suffix_of` cs.
Proof.
  destruct cs as [|c cs]; [done|]. unfold after_escape.
  repeat case_match; subst; apply suffix_cons_of; try done.
  all: first [apply skip_csi_suffix|apply skip_osc_suffix|apply suffix_drop].
Qed.

Lemma strip_ansi_no_escape fuel cs : [x1b] ∉ strip_ansi_fuel fuel cs.
Proof.
  revert cs. induction fuel as [|fuel IH]; intros [|c cs]; cbn [strip_ansi_fuel]; try apply not_elem_of_nil.
  destruct (decide (c = [x1b])) as [->|Hn]; [apply IH|]. rewrite not_elem_of_cons. split; [congruence|apply IH].
Qed.

Lemma strip_ansi_sub fuel cs c : c ∈ strip_ansi_fuel fuel cs -> c ∈ cs.
Proof.
  revert cs. induction fuel as [|fuel IH]; intros [|d cs]; cbn [strip_ansi_fuel]; try by intros ?%elem_of_nil.
  destruct (decide (d = [x1b])) as [->|Hn].
  - intros H%IH. right. destruct (after_escape_suffix cs) as [k ->]. apply elem_of_app. by right.
  - intros [->|H%IH]%elem_of_cons; [by left|by right].
Qed.

Lemma strip_ansi_fuel_id fuel cs :
  (length cs <= fuel)%nat -> [x1b] ∉ cs -> strip_ansi_fuel fuel cs = cs.
Proof.
  revert cs. induction fuel as [|fuel IH]; intros [|c cs] Hl Hc; cbn [strip_ansi_fuel]; try done; [cbn in Hl; lia|].
  apply not_elem_of_cons in Hc as [Hc1 Hc2]. rewrite decide_False by congruence. cbn in Hl. by rewrite IH by (done || lia).
Qed.

(** No escape character is left, and a text without one is left alone. *)
Lemma strip_ansi_clean s : x1b ∉ strip_ansi s.
Proof.
  unfold strip_ansi. intros H. apply escape_in_chars in H; [by apply strip_ansi_no_escape in H|].
  apply Forall_forall. intros c Hc%strip_ansi_sub. pose proof (chars_ok (length s) s) as Hok.
  rewrite Forall_forall in Hok. by apply Hok.
Qed.

Lemma strip_ansi_id s : x1b ∉ s -> strip_ansi s = s.
Proof.
  intros Hs. unfold strip_ansi. rewrite strip_ansi_fuel_id; [apply concat_chars|done|].
  intros Hc. apply Hs. rewrite <- (concat_chars s). apply list_elem_of_In, in_concat.
  exists [x1b]. rewrite <- !list_elem_of_In. split; [done|by left].
Qed.

Lemma strip_ansi_idemp s : strip_ansi (strip_ansi s) = strip_ansi s.
Proof. apply strip_ansi_id, strip_ansi_clean. Qed.

(** ** Placeholders *)

Lemma find_bytes_split t s i : find_bytes t s = Some i -> t = take i t ++ s ++ drop (i + length s) t.
Proof.
  revert i. induction t as [|x t IH]; intros i; cbn [find_bytes]; destruct (decide _) as [E|E]; try done.
  - intros [= <-]. cbn [Nat.add take app]. by rewrite <- E at 1; rewrite take_drop.
  - intros [= <-]. cbn [Nat.add]. rewrite take_0. cbn [app]. rewrite <- E at 1. by rewrite take_drop.
  - destruct (find_bytes t s) as [j|]; cbn; [|done]. intros [= <-]. cbn. f_equal. by apply IH.
Qed.

Section placeholder.
Context (k v : bytes).
Hypothesis k_nonempty : k <> [].
Hypothesis k_no_dollar : ends_with x24 k = false.
Hypothesis v_nonempty : v <> [].
Hypothesis v_no_dollar : ends_with x24 v = false.

Lemma ends_with_app c a b : b <> [] -> ends_with c (a ++ b) = ends_with c b.
Proof.
  intros Hb. unfold ends_with. destruct b as [|x b _] using rev_ind; [done|].
  by rewrite app_assoc, !last_snoc.
Qed.

(** What stands for an occurrence after [a]. *)
Definition stands (a : bytes) : bytes := if ends_with x24 a then k else v.

Lemma stands_end a b : ends_with x24 (b ++ stands a) = false.
Proof. unfold stands. destruct (ends_with x24 a); by rewrite ends_with_app. Qed.

Lemma replace_fuel_app n f g result rest :
  (length rest < n)%nat -> (length rest < f)%nat -> (length rest < g)%nat ->
  ends_with x24 result = false ->
  replace_fuel f k v result rest = result ++ replace_fuel g k v [] rest.
Proof.
  revert f g result rest. induction n as [|n IH]; intros [|f] [|g] result rest Hn Hf Hg Hr; try lia.
  cbn [replace_fuel]. destruct (find_bytes rest k) as [i|] eqn:E; [|done].
  rewrite Hr. change (ends_with x24 []) with false. cbn [andb orb app]. fold (stands (take i rest)).
  pose proof (find_bytes_bound _ _ _ E). assert (0 < length k)%nat by (destruct k; [done|cbn; lia]).
  assert (length (drop (i + length k) rest) < length rest)%nat by (rewrite length_drop; lia).
  rewrite (IH f g), (IH g g (take i rest ++ _)) by (apply stands_end || lia). by rewrite <- !app_assoc.
Qed.

(** A text is read to its first occurrence: the [$] before the brace decides. *)
Lemma replace_step a rest :
  find_bytes (a ++ k ++ rest) k = Some (length a) ->
  replace (a ++ k ++ rest) k v = a ++ stands a ++ replace rest k v.
Proof.
  intros E. unfold replace at 1. cbn [replace_fuel]. rewrite E.
  change (ends_with x24 []) with false. cbn [andb orb app].
  rewrite take_app_length, <- length_app, app_assoc, drop_app_length. fold (stands a).
  assert (0 < length k)%nat by (destruct k; [done|cbn; lia]).
  unfold replace. rewrite (replace_fuel_app (S (length rest)) _ (S (length rest)));
    [by rewrite <- app_assoc|lia| |lia|apply stands_end].
  rewrite !length_app. lia.
Qed.

Lemma replace_none s : ~ occurs k s -> replace s k v = s.
Proof.
  intros H. unfold replace. cbn [replace_fuel]. destruct (find_bytes s k) eqn:E; [|done].
  destruct H. apply find_bytes_occurs. by rewrite E.
Qed.
End placeholder.

(** The [$] of a value counts as well: after a directory whose name ends with one
  a placeholder is left as shell syntax. *)
Example dollar_of_a_value_escapes :
  replace (str "{TMP}{TMP}") (str "{TMP}") (str "/t$") = str "/t${TMP}".
Proof. vm_compute. reflexivity. Qed.

Example placeholders_of_the_tests :
  Placeholders_apply [(str "{TMP}", str "/t"); (str "{BIN}", str "/t/bin")] (str "${TMP} {BIN} x${TMP}") =
  str "${TMP} /t/bin x${TMP}".
Proof. vm_compute. reflexivity. Qed.

Section crates.
Context {cr : Crates}.

(** What a matcher asks of a text. *)
Definition satisfied (m : Matcher) (actual : bytes) : Prop :=
  match m with
  | Exact e => actual = e
  | Regex r => exists re, regex_new r = Ok re /\ re actual = true
  | Contains s => occurs s actual
  | NotContains s => ~ occurs s actual
  | LinesUnordered exp => lines actual ≡ₚ exp
  | LinesOrderedSubset exp => exp `sublist_of` lines actual
  end.

Lemma check_satisfied m actual : check m actual = Ok tt <-> satisfied m actual.
Proof.
  destruct m as [e|r|s|s|exp|exp]; cbn [check satisfied].
  - by rewrite require_ok, bool_decide_eq_true.
  - destruct (regex_new r) as [re|e]; cbn.
    + rewrite require_ok. split; [by exists re|]. by intros (re' & [= ->] & ?).
    + split; [done|]. by intros (? & ? & _).
  - by rewrite require_ok, contains_occurs.
  - rewrite require_ok, negb_true_iff, <- not_true_iff_false, contains_occurs. done.
  - by rewrite require_ok, bool_decide_eq_true, sort_bytes_eq.
  - apply in_order_sublist.
Qed.

(** ** The verdict *)

(** What an expectation asks of an output that [n] normalizes. *)
Definition stream_meets (n : Normalizer) (sub : bytes -> bytes) (m : Matcher) (out : bytes) : Prop :=
  let line l := if n_trim_lines n then normalize_expected (sub l) else sub l in
  match m with
  | Exact e =>
    if n_trim_lines n then Normalizer_lines n out = Normalizer_lines expected_normalizer (sub e)
    else Normalizer_apply n out = sub e
  | Regex r => exists re, regex_new (sub r) = Ok re /\ re (Normalizer_apply n out) = true
  | Contains s => occurs (sub s) (Normalizer_apply n out)
  | NotContains s => ~ occurs (sub s) (Normalizer_apply n out)
  | LinesUnordered exp => lines (Normalizer_apply n out) ≡ₚ map line exp
  | LinesOrderedSubset exp => map line exp `sublist_of` lines (Normalizer_apply n out)
  end.

Lemma adjusted_meets n sub m out :
  satisfied (adjusted (n_trim_lines n) sub m) (Normalizer_apply n out) <-> stream_meets n sub m out.
Proof.
  unfold adjusted, stream_meets. destruct (n_trim_lines n), m; cbn [map_text map_exact satisfied]; try done.
  - apply normalized_eq.
  - by rewrite map_map.
  - by rewrite map_map.
Qed.

Definition asserted (tc : TestCase) (label : Label) : option Matcher :=
  match label with
  | Stdout => e_stdout (tc_expect tc)
  | Stderr => e_stderr (tc_expect tc)
  | Terminal => e_terminal (tc_expect tc)
  | File _ => None
  end.

(** The streams a mode captures, and how each is normalized. *)
Definition stream (tc : TestCase) (shell_prompt : bytes) (cap : Captured) (label : Label) :
    option (Normalizer * bytes) :=
  match tc_mode tc, label with
  | Pipe, Stdout => Some (Normalizer_pipe shell_prompt (tc_normalize tc), utf8_lossy (c_stdout cap))
  | Pipe, Stderr => Some (Normalizer_pipe shell_prompt (tc_normalize tc), utf8_lossy (c_stderr cap))
  | Pty, Terminal => Some (Normalizer_pty shell_prompt (tc_normalize tc), utf8_lossy (c_terminal cap))
  | _, _ => None
  end.

Definition streams_meet (tc : TestCase) (shell_prompt : bytes) (sb : Sandbox) (cap : Captured) : Prop :=
  forall label m, asserted tc label = Some m ->
    exists n out, stream tc shell_prompt cap label = Some (n, out) /\
      stream_meets n (Placeholders_apply (vars sb)) m out.

Definition file_meets (sb : Sandbox) (f : bytes * Matcher) : Prop :=
  exists bs, read_file sb (resolve sb f.1) = Ok bs /\
    satisfied (map_text (Placeholders_apply (vars sb)) f.2) (utf8_lossy bs).

(** The shell did everything the test case asserts. *)
Record passes (tc : TestCase) (shell_prompt : bytes) (sb : Sandbox) (cap : Captured) : Prop := {
  pass_in_time : c_timed_out cap = false;
  pass_steps : c_step_error cap = None;
  pass_streams : streams_meet tc shell_prompt sb cap;
  pass_files : Forall (file_meets sb) (e_files (tc_expect tc));
  pass_absent : Forall (fun p => file_exists sb (resolve sb p) = false) (e_file_absent (tc_expect tc));
  pass_exit : forall code, e_exit_code (tc_expect tc) = Some code -> c_exit cap = Some (Code code)
}.

Definition asserts_something (tc : TestCase) : Prop :=
  (exists label m, asserted tc label = Some m) \/ is_Some (e_exit_code (tc_expect tc)) \/
  e_files (tc_expect tc) <> [] \/ e_file_absent (tc_expect tc) <> [].

Lemma foldl_nil {A} (f : list Failure -> A -> list Failure) (P : A -> Prop) fs xs :
  (forall fs x, f fs x = [] <-> fs = [] /\ P x) -> foldl f fs xs = [] <-> fs = [] /\ Forall P xs.
Proof.
  intros H. revert fs. induction xs as [|x xs IH]; intros fs; cbn [foldl].
  - rewrite Forall_nil. tauto.
  - rewrite IH, H, Forall_cons. tauto.
Qed.

Lemma app_cons_nil {A} (l : list A) x : l ++ [x] = [] <-> False.
Proof. split; [by destruct l|done]. Qed.

Lemma Checks_check_nil fs label m actual trim sub :
  Checks_check fs label m actual trim sub = [] <->
  fs = [] /\ forall m', m = Some m' -> satisfied (adjusted trim sub m') actual.
Proof.
  destruct m as [m|]; cbn [Checks_check].
  - pose proof (check_satisfied (adjusted trim sub m) actual) as Hc.
    destruct (check (adjusted trim sub m) actual) as [[]|why].
    + split; [|by intros [? _]]. intros ->. split; [done|]. intros m' [= <-]. by apply Hc.
    + rewrite app_cons_nil. split; [done|]. intros [_ Hm]. specialize (Hm m eq_refl). by apply Hc in Hm.
  - split; [done|]. by intros [? _].
Qed.

Lemma check_file_nil sb fs f : check_file sb fs f = [] <-> fs = [] /\ file_meets sb f.
Proof.
  destruct f as [path m]. unfold check_file, file_meets. cbn [fst snd].
  destruct (read_file sb (resolve sb path)) as [bs|e].
  - rewrite Checks_check_nil. unfold adjusted. split; intros [-> Hm]; (split; [done|]).
    + exists bs. split; [done|]. by apply Hm.
    + destruct Hm as (bs' & [= <-] & Hs). by intros m' [= <-].
  - rewrite app_cons_nil. split; [done|]. by intros [_ (? & ? & _)].
Qed.

Lemma check_absent_nil sb fs path :
  check_absent sb fs path = [] <-> fs = [] /\ file_exists sb (resolve sb path) = false.
Proof.
  unfold check_absent. destruct (file_exists _ _); [|tauto]. rewrite app_cons_nil. naive_solver.
Qed.

(** A validated test asserts only streams that its mode captures. *)
Lemma validate_asserted tc label m :
  validate tc = Ok tt -> asserted tc label = Some m -> 
  match tc_mode tc with Pipe => label = Stdout \/ label = Stderr | Pty => label = Terminal end.
Proof.
  unfold validate, asserted, is_some. destruct tc as [nm mode inp st ks e sk rs nz]. cbn.
  intros Hv Ha. destruct mode, label; cbn in Ha; try done; auto; rewrite Ha in Hv; cbn in Hv.
  all: repeat (case_match; cbn in *; try done).
Qed.

Lemma check_streams_nil tc shell_prompt sb cap fs :
  validate tc = Ok tt ->
  check_streams tc shell_prompt sb cap fs = [] <-> fs = [] /\ streams_meet tc shell_prompt sb cap.
Proof.
  intros Hv. unfold check_streams, streams_meet, stream.
  destruct (tc_mode tc) eqn:Em; rewrite !Checks_check_nil; setoid_rewrite adjusted_meets.
  - split.
    + intros [[-> Ho] He]. split; [done|]. intros label m Ha.
      pose proof (validate_asserted tc label m Hv Ha) as Hl. rewrite Em in Hl.
      destruct Hl as [->| ->]; eauto.
    + intros [-> Hs]. split; [split; [done|]|]; intros m Ha.
      * by destruct (Hs Stdout m Ha) as (n & out & [= <- <-] & ?).
      * by destruct (Hs Stderr m Ha) as (n & out & [= <- <-] & ?).
  - split.
    + intros [-> Ht]. split; [done|]. intros label m Ha.
      pose proof (validate_asserted tc label m Hv Ha) as Hl. rewrite Em in Hl. subst label. eauto.
    + intros [-> Hs]. split; [done|]. intros m Ha.
      by destruct (Hs Terminal m Ha) as (n & out & [= <- <-] & ?).
Qed.

Lemma exit_nil fs (code : option Z) exit :
  match code with
  | Some c => if decide (default Killed exit = Code c) then fs else fs ++ [WrongExit c (default Killed exit)]
  | None => fs
  end = [] <-> fs = [] /\ forall c, code = Some c -> exit = Some (Code c).
Proof.
  destruct code as [c|]; [|naive_solver]. destruct (decide _) as [E|E].
  - split; [intros ->|tauto]. split; [done|]. intros ? [= <-]. destruct exit; cbn in E; congruence.
  - rewrite app_cons_nil. split; [done|]. intros [_ Hc]. destruct E. by rewrite (Hc c eq_refl).
Qed.

Lemma judge_nil tc shell_prompt sb cap :
  validate tc = Ok tt -> judge tc shell_prompt sb cap = [] <-> passes tc shell_prompt sb cap.
Proof.
  intros Hv. unfold judge. rewrite exit_nil.
  rewrite (foldl_nil (check_absent sb) _ _ _ (check_absent_nil sb)).
  rewrite (foldl_nil (check_file sb) _ _ _ (check_file_nil sb)). rewrite check_streams_nil by done.
  assert (match c_step_error cap with
          | Some e => (if c_timed_out cap then [TimedOut] else []) ++ [StepFailed e]
          | None => if c_timed_out cap then [TimedOut] else []
          end = [] <-> c_timed_out cap = false /\ c_step_error cap = None) as ->.
  { destruct (c_step_error cap); [rewrite app_cons_nil; naive_solver|].
    by destruct (c_timed_out cap); naive_solver. }
  split; [by intros (((([] & ?) & ?) & ?) & ?); constructor|by intros []].
Qed.

Lemma validate_asserts tc : validate tc = Ok tt -> asserts_something tc.
Proof.
  unfold validate. intros Hv. assert (nothing (tc_expect tc) = false) as Hn.
  { destruct (match tc_mode tc with Pipe => _ | Pty => _ end) as [[]|]; cbn in Hv; [|done].
    destruct (_ && _); [done|]. by destruct (nothing _). }
  unfold nothing, is_some in Hn. unfold asserts_something.
  destruct (e_stdout (tc_expect tc)) as [m|] eqn:E1; [left; by exists Stdout, m|].
  destruct (e_stderr (tc_expect tc)) as [m|] eqn:E2; [left; by exists Stderr, m|].
  destruct (e_terminal (tc_expect tc)) as [m|] eqn:E3; [left; by exists Terminal, m|].
  destruct (e_exit_code (tc_expect tc)) as [c|]; [right; left; by exists c|].
  destruct (e_files (tc_expect tc)); [|auto]. by destruct (e_file_absent (tc_expect tc)); [|auto].
Qed.

Lemma skipped_spec (shell_name : bytes) l :
  existsb (fun s => bool_decide (s = shell_name)) l = true <-> shell_name ∈ l.
Proof.
  rewrite existsb_exists. setoid_rewrite bool_decide_eq_true. setoid_rewrite <- list_elem_of_In.
  naive_solver.
Qed.

(** ** Loading *)

(** A stage that loads has tests, all valid, with names of their own. *)
Lemma load_tests_ok raw tests out :
  NoDup (map tc_name tests) -> Forall (fun t => validate t = Ok tt) tests ->
  load_tests raw tests = Ok out ->
  out <> [] /\ map Ok tests ++ raw = map Ok out /\
  NoDup (map tc_name out) /\ Forall (fun t => validate t = Ok tt) out.
Proof.
  revert tests. induction raw as [|r raw IH]; intros tests Hnd Hv; cbn [load_tests].
  - destruct tests as [|t ts] eqn:E; [done|]. intros [= <-]. by rewrite app_nil_r.
  - destruct r as [tc|e]; [|done]. cbn. destruct (validate tc) as [[]|e] eqn:Ev; [|done]. cbn.
    destruct (existsb _ tests) eqn:Ex; [done|]. intros Hl%IH.
    + rewrite map_app in Hl. cbn in Hl. by rewrite <- app_assoc in Hl.
    + rewrite map_app. apply NoDup_app. split; [done|]. split; [|apply NoDup_singleton].
      intros n Hn ->%list_elem_of_singleton. apply not_true_iff_false in Ex. destruct Ex.
      apply list_elem_of_fmap in Hn as (t & Ht & Hin). apply existsb_exists. exists t.
      split; [by apply list_elem_of_In|by apply bool_decide_eq_true].
    + apply Forall_app. split; [done|by repeat constructor].
Qed.

Lemma adjacent_distinct_sorted {A} (stage : A -> Z) l :
  StronglySorted (fun a b => (stage a <=? stage b) = true) l ->
  adjacent_distinct stage l = Ok tt <-> NoDup (map stage l).
Proof.
  induction 1 as [|a l Hl IH Ha]; [split; [constructor|done]|].
  destruct l as [|b l]; [split; [intros _; apply NoDup_singleton|done]|].
  change (adjacent_distinct stage (a :: b :: l)) with
    (if stage a =? stage b then Err (StageTwice (stage a)) else adjacent_distinct stage (b :: l)).
  change (map stage (a :: b :: l)) with (stage a :: map stage (b :: l)). rewrite NoDup_cons, <- IH.
  destruct (Z.eqb_spec (stage a) (stage b)) as [E|E].
  - split; [done|]. intros [Hn _]. destruct Hn. cbn. rewrite E. by left.
  - split; [|tauto]. intros Hd. split; [|done]. intros Hin%list_elem_of_fmap. destruct Hin as (c & Hc & Hin).
    rewrite Forall_cons in Ha. destruct Ha as [Hab _]. apply Z.leb_le in Hab.
    apply StronglySorted_inv in Hl as [_ Hb]. apply elem_of_cons in Hin as [->|Hin]; [lia|].
    rewrite Forall_forall in Hb. specialize (Hb c Hin). apply Z.leb_le in Hb. lia.
Qed.

(** The stages are loaded exactly when no number is used twice, and in the order
  of their numbers. *)
Lemma order_stages_spec {A} (stage : A -> Z) l out :
  order_stages stage l = Ok out <->
  NoDup (map stage l) /\ out = sort_by (fun a b => stage a <=? stage b) l.
Proof.
  unfold order_stages. set (s := sort_by _ l).
  assert (StronglySorted (fun a b => (stage a <=? stage b) = true) s) as Hs.
  { apply sort_by_sorted; intros; rewrite ?Z.leb_le, ?Z.leb_gt in *; lia. }
  assert (NoDup (map stage s) <-> NoDup (map stage l)) as Hp
    by (subst s; by rewrite (sort_by_perm _ l)).
  apply adjacent_distinct_sorted in Hs. rewrite <- Hp, <- Hs. clear Hs Hp.
  destruct (adjacent_distinct stage s) as [[]|e]; cbn; naive_solver.
Qed.

(** C40: A test case that the loader accepts asserts something, and a run of it is
  reported as passed exactly when the shell is not one the case is skipped on and
  did everything the case asserts: it finished in time and every step was served;
  every asserted stream, normalized, meets its expectation with the placeholders
  replaced - the same lines up to trailing blanks for an exact text, the same lines
  in any order or a subsequence of them for the line lists, an occurrence or none
  for the substrings, a match for a regular expression; every asserted file can be
  read and meets its expectation; the files that must be absent are; and the exit
  code is the one asserted. *)
Theorem verdict_decides tc shell_name shell_prompt sb cap :
  validate tc = Ok tt ->
  asserts_something tc /\
  ((run_test tc shell_name shell_prompt (Ok (sb, cap))).1 = Pass <->
   shell_name ∉ tc_skip_on tc /\ passes tc shell_prompt sb cap).
Proof.
  intros Hv. split; [by apply validate_asserts|]. rewrite <- judge_nil, <- skipped_spec by done.
  unfold run_test. destruct (existsb _ _); [split; [done|by intros []]|]. cbn [fst].
  destruct (judge tc shell_prompt sb cap); naive_solver.
Qed.
End crates.

(** Regular expressions that are found literally. *)
Definition plain_crates : Crates :=
  {| Number := Z; number_to_string := dec; regex_new := fun r => Ok (fun t => contains t r) |}.

Definition echo_test : TestCase :=
  mkTestCase (str "echo") Pipe [str "echo b; echo a"] [] []
    (mkExpect (Some (LinesUnordered [str "a"; str "b "])) (Some (Exact [])) None (Some 0)
       [(str "{TMP}/out", Contains (str "x"))] [str "gone"])
    [str "zsh"] (Some (str "word splitting")) (mkNormalizeOpts None None None None).

Definition echo_sandbox : Sandbox :=
  mkSandbox [(str "{TMP}", str "/t")] (fun p => p)
    (fun p => if decide (p = str "/t/out") then Ok (str "axb") else Err (str "no such file")) (fun _ => false).

Definition echo_captured : Captured :=
  mkCaptured (str "$ $ b" ++ [x0a] ++ str "a  " ++ [x0a] ++ str "$ ") [] [] (Some (Code 0)) false None.

Lemma verdict_decides_witness :
  str "bash" ∉ tc_skip_on echo_test /\
  passes (cr := plain_crates) echo_test (str "$ ") echo_sandbox echo_captured.
Proof.
  apply (verdict_decides (cr := plain_crates) echo_test (str "bash") (str "$ ") echo_sandbox echo_captured);
    vm_compute; reflexivity.
Defined.

(** In a terminal session one final newline of the output is dropped and the
  expectation keeps its own: the text on the terminal does not match itself. *)
Example exact_terminal_text_fails :
  Normalizer_apply (Normalizer_pty [] (mkNormalizeOpts None None None None)) (str "a" ++ [x0a]) <> str "a" ++ [x0a] /\
  Normalizer_apply (Normalizer_pty [] (mkNormalizeOpts None None None None)) (str "a" ++ [x0a; x0a]) = str "a" ++ [x0a].
Proof. vm_compute. done. Qed.
