(* ===== verification/KafkaBatch.v ===== *)
(** * Batches: round trip, truncation and what an accepted batch is

  The header reads one field after the other; the checks between them look at
  the cursor and at the bytes ahead ([reads_in]). *)

From S2P Require Import Prelude Text KafkaRecords KafkaRound.

Definition reads_in {A} (c : Cursor) (tl : bytes) (m : M A) (x : bytes) (a : A) : Prop :=
  valid c -> rest c = x ++ tl -> m c = Ok (a, adv (zlen x) c).

Lemma reads_in_at {A} c tl (m : M A) x a : reads_at c m x a -> reads_in c tl m x a.
Proof. intros H Hv Hr. by apply (H tl). Qed.

Lemma reads_in_bind {A B} c tl (m : M A) (f : A -> M B) x y a b :
  reads_in c (y ++ tl) m x a -> reads_in (adv (zlen x) c) tl (f a) y b ->
  reads_in c tl (m ≫= f) (x ++ y) b.
Proof.
  intros Hm Hf Hv Hr. rewrite <- app_assoc in Hr. unfold mbind, M_bind.
  rewrite (Hm Hv Hr). destruct (rest_adv c x _ Hv Hr) as [Hr' Hv'].
  rewrite (Hf Hv' Hr'). by rewrite adv_adv, zlen_app.
Qed.

Lemma reads_in_field {A B} c tl s (m : M A) (f : A -> M B) x y a b :
  reads m x a -> reads_in (adv (zlen x) c) tl (f a) y b ->
  reads_in c tl (context s m ≫= f) (x ++ y) b.
Proof.
  intros Hm. apply reads_in_bind, reads_in_at, reads_at_context, Hm.
Qed.

Lemma reads_in_here {A} c tl (f : Cursor -> M A) x a :
  (valid c -> rest c = x ++ tl -> reads_in c tl (f c) x a) -> reads_in c tl (here ≫= f) x a.
Proof. intros H Hv Hr. by apply H. Qed.

Lemma slice_rest c x tl n :
  rest c = x ++ tl -> n = zlen x -> zslice (buf c) (pos c) n = x.
Proof.
  intros Hr ->. unfold zslice. fold (rest c). rewrite Hr. unfold ztake. rewrite to_nat_zlen.
  by rewrite take_app_length.
Qed.

(** ** Writing a batch *)

Section batches.
Context (lib_compress lib_decompress : Z -> bytes -> Result Error bytes) (crc32c : bytes -> Z).
Abbreviation try_encode := (try_encode lib_compress crc32c).
Abbreviation encode := (encode lib_compress crc32c).
Abbreviation decode := (decode lib_decompress crc32c).
Abbreviation decode_batch := (decode_batch lib_decompress crc32c).
Abbreviation decode_payload := (decode_payload lib_decompress).

(** What the compression libraries and the checksum promise. *)
Hypothesis lib_roundtrip : forall codec x y, lib_compress codec x = Ok y -> lib_decompress codec y = Ok x.
Hypothesis crc32c_range : forall x, in_u 32 (crc32c x).

Record batch_ok (b : RecordBatch) : Prop := {
  ok_base_offset : in_s 64 (base_offset b);
  ok_epoch : in_s 32 (partition_leader_epoch b);
  ok_batch_attributes : in_s 16 (attributes b);
  ok_last_offset_delta : in_s 32 (last_offset_delta b);
  ok_base_timestamp : in_s 64 (base_timestamp b);
  ok_max_timestamp : in_s 64 (max_timestamp b);
  ok_producer_id : in_s 64 (producer_id b);
  ok_producer_epoch : in_s 16 (producer_epoch b);
  ok_base_sequence : in_s 32 (base_sequence b);
  ok_count : len_ok (records b);
  ok_records : Forall record_ok (records b);
  ok_no_count_override : record_count_override b = None;
  ok_no_crc_override : crc_override b = None
}.

(** The header before the CRC, and the fields after it. *)
Definition head_bytes (b : RecordBatch) (n : Z) : bytes :=
  be_bytes 8 (base_offset b) ++ be_bytes 4 n.
Definition field_bytes (b : RecordBatch) : bytes :=
  be_bytes 2 (attributes b) ++ be_bytes 4 (last_offset_delta b) ++
  be_bytes 8 (base_timestamp b) ++ be_bytes 8 (max_timestamp b) ++
  be_bytes 8 (producer_id b) ++ be_bytes 2 (producer_epoch b) ++
  be_bytes 4 (base_sequence b) ++
  be_bytes 4 (default (len_i32 (records b)) (record_count_override b)).

Lemma batch_body_fields b payload : batch_body b payload = field_bytes b ++ payload.
Proof. unfold batch_body, field_bytes. by rewrite <- !app_assoc. Qed.

Lemma zlen_field_bytes b : zlen (field_bytes b) = 40.
Proof. unfold field_bytes. by autorewrite with zlen. Qed.

Definition batch_payload (b : RecordBatch) : Result Error bytes :=
  compress_records lib_compress (compression b) (concat (map record_bytes (records b))).

Definition mid_bytes (b : RecordBatch) (payload : bytes) : bytes :=
  be_bytes 4 (partition_leader_epoch b) ++ be_bytes 1 MAGIC_V2 ++
  be_bytes 4 (default (crc32c (field_bytes b ++ payload)) (crc_override b)).

Lemma try_encode_bytes b bs :
  try_encode b = Ok bs ->
  exists payload, batch_payload b = Ok payload /\
    bs = head_bytes b (wrap_s 32 (49 + zlen payload)) ++ mid_bytes b payload ++ field_bytes b ++ payload.
Proof.
  unfold KafkaRecords.try_encode, batch_payload. rewrite encode_records_bytes, app_nil_l. cbv zeta.
  intros (payload & Hp & [= <-])%result_bind_Ok_inv. exists payload. split.
  - destruct (compression b =? NO_COMPRESSION) eqn:E; cbn in Hp.
    + injection Hp as <-. unfold compress_records. by rewrite E.
    + unfold map_err in Hp. by case_match; simplify_eq.
  - rewrite batch_body_fields, zlen_app, zlen_field_bytes.
    replace (4 + 1 + 4 + (40 + zlen payload)) with (49 + zlen payload) by lia.
    unfold head_bytes, mid_bytes. by rewrite <- !app_assoc.
Qed.

(** ** Reading it back *)

Lemma decode_payload_ok b payload :
  Forall record_ok (records b) -> batch_payload b = Ok payload ->
  decode_payload (compression b) (zlen (records b)) payload = Ok (records b, 0).
Proof using lib_roundtrip.
  intros Hrs Hp. unfold KafkaRecords.decode_payload.
  set (raw := concat (map record_bytes (records b))) in *.
  assert ((if negb (compression b =? NO_COMPRESSION) then
      map_err (InField "decompressing the batch")
        (decompress_records lib_decompress (compression b) payload)
    else Ok payload) = Ok raw) as ->.
  { unfold batch_payload, compress_records, decompress_records in *. fold raw in Hp.
    destruct (compression b =? NO_COMPRESSION); cbn; [by simplify_eq|].
    destruct (known_codec (compression b)); [|done]. by rewrite (lib_roundtrip _ _ _ Hp). }
  cbn [mbind result_bind].
  assert (valid (Cursor_new raw)) as Hv by (split; [done|apply zlen_nonneg]).
  rewrite (reads_records (records b) Hrs (Cursor_new raw) [] Hv);
    [|by rewrite app_nil_r].
  cbn [mbind result_bind]. unfold remaining, adv, Cursor_new. cbn [pos buf].
  by rewrite Z.add_0_l, Z.sub_diag.
Qed.

Lemma wire_batch_reads b payload tl n :
  batch_ok b -> batch_payload b = Ok payload -> n = 49 + zlen payload -> n < 2 ^ 31 ->
  let bs := head_bytes b n ++ mid_bytes b payload ++ field_bytes b in
  decode_batch (Cursor_new (bs ++ payload ++ tl)) =
    Ok ((b, 12 + n), adv 61 (Cursor_new (bs ++ payload ++ tl))).
Proof using lib_roundtrip crc32c_range.
  intros Hb Hp Hn Hmax bs. pose proof (zlen_nonneg payload).
  assert (zlen bs = 61) as Hbs by (subst bs; unfold head_bytes, mid_bytes, field_bytes; by autorewrite with zlen).
  rewrite <- Hbs. set (c0 := Cursor_new _).
  enough (reads_in c0 (payload ++ tl) decode_batch bs (b, 12 + n)) as H0.
  { apply H0; [split; [done|apply zlen_nonneg]|].
    unfold rest, c0. cbn [pos buf Cursor_new]. apply drop_0. }
  subst bs. destruct Hb. unfold head_bytes, mid_bytes, field_bytes, KafkaRecords.decode_batch.
  rewrite <- !app_assoc.
  apply (reads_in_field _ _ _ _ _ _ _ _ _ (reads_i64 _ ok_base_offset0)).
  eapply reads_in_field; [apply (reads_i32 n); unfold in_s; lia|].
  rewrite (proj2 (Z.ltb_ge _ _)) by (unfold BATCH_HEADER_AFTER_LENGTH; lia).
  apply reads_in_here. intros Hv1 Hr1. set (c1 := adv _ (adv _ c0)) in *.
  assert (pos c1 = 12) as Hpos1 by (subst c1; unfold adv; cbn [pos]; by rewrite !zlen_be_bytes).
  assert (pos c1 + n <= zlen (buf c1)) as Hlen.
  { pose proof (zlen_rest c1 Hv1) as Hl. rewrite Hr1 in Hl. autorewrite with zlen in Hl.
    pose proof (zlen_nonneg tl). lia. }
  rewrite (proj2 (Z.ltb_ge _ _)) by lia.
  eapply reads_in_field; [by apply reads_i32|].
  eapply reads_in_field; [apply (reads_i8 MAGIC_V2); by unfold in_s, MAGIC_V2|].
  rewrite Z.eqb_refl. cbn [negb]. rewrite ok_no_crc_override0. cbn [default].
  eapply reads_in_field; [apply reads_u32, crc32c_range|].
  apply reads_in_here. intros Hv2 Hr2. set (c2 := adv _ (adv _ (adv _ c1))) in *.
  assert (pos c2 = 21) as Hpos2
    by (subst c2; unfold adv; cbn [pos]; rewrite !zlen_be_bytes, Hpos1; done).
  assert (zslice (buf c2) (pos c2) (pos c1 + n - pos c2) = field_bytes b ++ payload) as ->.
  { eapply (slice_rest _ _ tl).
    - rewrite Hr2. unfold field_bytes. by rewrite <- !app_assoc.
    - rewrite zlen_app, zlen_field_bytes. lia. }
  rewrite Z.eqb_refl. cbn [negb].
  eapply reads_in_field; [by apply reads_i16|]. eapply reads_in_field; [by apply reads_i32|].
  eapply reads_in_field; [by apply reads_i64|]. eapply reads_in_field; [by apply reads_i64|].
  eapply reads_in_field; [by apply reads_i64|]. eapply reads_in_field; [by apply reads_i16|].
  eapply reads_in_field; [by apply reads_i32|].
  rewrite ok_no_count_override0. cbn [default]. destruct (len_i32_ok _ ok_count0) as [-> Hcount].
  rewrite <- (app_nil_r (be_bytes 4 (zlen (records b)))).
  eapply reads_in_field; [by apply reads_i32|]. pose proof (zlen_nonneg (records b)).
  rewrite (proj2 (Z.ltb_ge _ _)) by lia.
  apply reads_in_here. intros Hv3 Hr3.
  set (c3 := adv _ (adv _ (adv _ (adv _ (adv _ (adv _ (adv _ (adv _ c2)))))))) in *.
  assert (pos c3 = 61) as Hpos3.
  { subst c3. unfold adv. cbn [pos]. rewrite !zlen_be_bytes, Hpos2. done. }
  rewrite (proj2 (Z.leb_le _ _)) by lia.
  rewrite (slice_rest c3 payload tl) by (rewrite ?Hr3; (done || lia)).
  fold (compression b). intros Hv4 Hr4. unfold lift, mbind at 1, M_bind at 1.
  rewrite (decode_payload_ok b payload) by done. cbn [mbind result_bind].
  rewrite Z.eqb_refl. cbn [negb]. unfold mret, M_ret. rewrite zlen_nil, adv_0.
  do 2 f_equal. rewrite Hpos1. f_equal. destruct b; cbn in *; by subst.
Qed.

(** The whole wire form of a batch whose payload is [payload]. *)
Definition wire (b : RecordBatch) (payload : bytes) : bytes :=
  head_bytes b (49 + zlen payload) ++ mid_bytes b payload ++ field_bytes b ++ payload.

Lemma zlen_wire b payload : zlen (wire b payload) = 61 + zlen payload.
Proof.
  unfold wire, head_bytes, mid_bytes. rewrite !zlen_app, zlen_field_bytes, !zlen_be_bytes. lia.
Qed.

Lemma decode_wire b payload tl :
  batch_ok b -> batch_payload b = Ok payload -> zlen (wire b payload) < 2 ^ 31 ->
  decode (wire b payload ++ tl) = Ok (b, zlen (wire b payload)).
Proof using lib_roundtrip crc32c_range.
  intros Hb Hp Hmax. rewrite zlen_wire in *. unfold KafkaRecords.decode.
  pose proof (wire_batch_reads b payload tl _ Hb Hp eq_refl ltac:(lia)) as H. cbv zeta in H.
  unfold wire. rewrite <- !app_assoc. rewrite <- !app_assoc in H. rewrite H.
  cbn [mbind result_bind]. do 2 f_equal. lia.
Qed.

Lemma try_encode_wire b bs :
  try_encode b = Ok bs -> zlen bs < 2 ^ 31 ->
  exists payload, batch_payload b = Ok payload /\ bs = wire b payload.
Proof.
  intros (payload & Hp & ->)%try_encode_bytes Hmax. exists payload. split; [done|].
  unfold wire. rewrite wrap_s_small; [done|lia|].
  unfold head_bytes, mid_bytes in Hmax. rewrite !zlen_app, zlen_field_bytes, !zlen_be_bytes in Hmax.
  pose proof (zlen_nonneg payload). unfold in_s. lia.
Qed.

(** The fallback of [encode]: the same batch, its codec bits cleared. *)
Definition written (b : RecordBatch) : RecordBatch :=
  if is_ok (try_encode b) then b else with_compression NO_COMPRESSION b.


Lemma land_7 a : Z.land a 7 = a mod 8.
Proof. by apply (Z.land_ones a 3). Qed.

Lemma clear_codec a :
  Z.lor (Z.land a (Z.lnot COMPRESSION_MASK)) (Z.land NO_COMPRESSION COMPRESSION_MASK) = a - a mod 8.
Proof. cbn. rewrite Z.lor_0_r, <- land_7. symmetry. apply Z.sub_land_same_l. Qed.

Lemma compression_cleared b : compression (with_compression NO_COMPRESSION b) = 0.
Proof.
  unfold compression, with_compression. cbn [attributes]. rewrite clear_codec.
  unfold COMPRESSION_MASK. rewrite land_7. rewrite Zminus_mod, Z.mod_mod, Z.sub_diag; done.
Qed.

Lemma batch_ok_cleared b : batch_ok b -> batch_ok (with_compression NO_COMPRESSION b).
Proof.
  intros []. constructor; try done. unfold with_compression. cbn [attributes].
  rewrite clear_codec. unfold in_s in *. change (2 ^ (16 - 1)) with 32768 in *.
  pose proof (Z.mod_pos_bound (attributes b) 8). Z.to_euclidean_division_equations. lia.
Qed.

Lemma try_encode_cleared b : exists bs, try_encode (with_compression NO_COMPRESSION b) = Ok bs.
Proof.
  unfold KafkaRecords.try_encode. rewrite compression_cleared. cbn -[batch_body with_compression].
  eauto.
Qed.

(** [encode] always writes some wire form, of [written b]. *)
Lemma encode_wire b :
  batch_ok b -> zlen (encode b) < 2 ^ 31 ->
  batch_ok (written b) /\
  exists payload, batch_payload (written b) = Ok payload /\ encode b = wire (written b) payload.
Proof.
  intros Hb. unfold KafkaRecords.encode, written.
  destruct (try_encode b) as [bs|e] eqn:E; cbn [is_ok].
  - intros Hmax. split; [done|]. by apply try_encode_wire.
  - destruct (try_encode_cleared b) as [bs Hbs]. rewrite Hbs. cbn [to_option default].
    intros Hmax. split; [by apply batch_ok_cleared|]. by apply try_encode_wire.
Qed.

Lemma decode_encode b tl :
  batch_ok b -> zlen (encode b) < 2 ^ 31 ->
  decode (encode b ++ tl) = Ok (written b, zlen (encode b)) /\ 61 <= zlen (encode b).
Proof using lib_roundtrip crc32c_range.
  intros Hb Hmax. destruct (encode_wire b Hb Hmax) as (Hw & payload & Hp & E).
  rewrite E in *. split; [by apply decode_wire|]. rewrite zlen_wire.
  pose proof (zlen_nonneg payload). lia.
Qed.

(** ** Several batches *)

Lemma zdrop_zlen {A} (l k : list A) : zdrop (zlen l) (l ++ k) = k.
Proof. unfold zdrop. by rewrite to_nat_zlen, drop_app_length. Qed.

Lemma encode_batches_app out bs :
  foldl (fun out b => out ++ encode b) out bs = out ++ concat (map encode bs).
Proof.
  revert out. induction bs as [|b bs IH]; intros out; cbn [foldl map concat].
  - by rewrite app_nil_r.
  - rewrite IH. symmetry. apply app_assoc.
Qed.

Lemma decode_all_from_encoded fuel pre bs tl :
  Forall (fun b => batch_ok b /\ zlen (encode b) < 2 ^ 31) bs -> zlen tl < 12 ->
  (length bs <= fuel)%nat ->
  decode_all_from lib_decompress crc32c fuel (zlen pre) (pre ++ concat (map encode bs) ++ tl) =
    Ok (map written bs).
Proof using lib_roundtrip crc32c_range.
  intros Hbs Htl. revert fuel pre. induction Hbs as [|b bs [Hb Hmax] _ IH]; intros fuel pre Hfuel.
  - cbn [map concat app]. destruct fuel; cbn [decode_all_from];
      rewrite zlen_app, (proj2 (Z.leb_gt _ _)) by lia; done.
  - destruct fuel as [|fuel]; cbn [length] in Hfuel; [lia|].
    cbn [map concat decode_all_from]. rewrite <- app_assoc.
    destruct (decode_encode b (concat (map encode bs) ++ tl) Hb Hmax) as [Hd Hlen].
    pose proof (zlen_nonneg (concat (map encode bs) ++ tl)).
    rewrite (proj2 (Z.leb_le _ _)) by (rewrite !(zlen_app pre), (zlen_app (encode b)); lia).
    rewrite zdrop_zlen, Hd. cbn [map_err mbind result_bind].
    specialize (IH fuel (pre ++ encode b) ltac:(lia)). rewrite <- app_assoc, zlen_app in IH.
    by rewrite IH.
Qed.

(** A log segment survives: decoding the concatenation of encoded batches
  gives the batches in order, and a tail of fewer than twelve bytes is ignored. *)
Theorem batches_survive (bs : list RecordBatch) (tl : bytes) :
  Forall (fun b => batch_ok b /\ zlen (encode b) < 2 ^ 31) bs -> zlen tl < 12 ->
  decode_all lib_decompress crc32c (encode_batches lib_compress crc32c bs ++ tl) =
    Ok (map written bs).
Proof using lib_roundtrip crc32c_range.
  intros Hbs Htl. unfold decode_all, encode_batches. rewrite encode_batches_app, app_nil_l.
  apply (decode_all_from_encoded _ []); [done|done|].
  rewrite length_app. enough (length bs <= length (concat (map encode bs)))%nat by lia.
  induction Hbs as [|b bs [Hb Hmax] _ IH]; cbn [length map concat]; [lia|].
  rewrite length_app. pose proof (proj2 (decode_encode b [] Hb Hmax)). unfold zlen in *. lia.
Qed.

(** ** Damage *)

(** A fixed-width read fails when too little is left, and otherwise takes its bytes. *)
Lemma take_short n c : zlen (buf c) - pos c < n -> 0 < n -> exists e, take n c = Err e.
Proof.
  intros H H0. unfold take. rewrite (proj2 (Z.ltb_lt _ _)) by (unfold remaining; lia). eauto.
Qed.

Lemma take_Ok n c x c' :
  take n c = Ok (x, c') -> x = zslice (buf c) (pos c) n /\ c' = adv n c.
Proof. unfold take. case_match; intros [= <- <-]. done. Qed.

Lemma bind_Ok {A B} (m : M A) (f : A -> M B) c r :
  (m ≫= f) c = Ok r -> exists a c', m c = Ok (a, c') /\ f a c' = Ok r.
Proof. unfold mbind, M_bind. destruct (m c) as [[a c']|]; [eauto|done]. Qed.

Lemma context_Ok {A} s (m : M A) c r : context s m c = Ok r -> m c = Ok r.
Proof. unfold context, map_err. by case_match; intros [= <-]. Qed.

(** Every fixed-width read is a function of its bytes. *)
Definition fixed (m : M Z) (n : Z) (f : bytes -> Z) : Prop :=
  forall c v c', m c = Ok (v, c') -> v = f (zslice (buf c) (pos c) n) /\ c' = adv n c.

Lemma fixed_take n f : fixed (b ← take n; mret (f b)) n f.
Proof.
  intros c v c' (b & c1 & Ht & H)%bind_Ok. apply take_Ok in Ht as [-> ->]. by injection H as <- <-.
Qed.

Lemma fixed_u32 : fixed read_u32 4 (fun b => wrap_u 32 (wrap_s 32 (be_val b))).
Proof.
  intros c v c' (b & c1 & Ht & H)%bind_Ok. apply (fixed_take 4 (fun b => wrap_s 32 (be_val b))) in Ht as [-> ->].
  by injection H as <- <-.
Qed.

Lemma fixed_context {B} s m n f (k : Z -> M B) c r :
  fixed m n f -> (context s m ≫= k) c = Ok r ->
  k (f (zslice (buf c) (pos c) n)) (adv n c) = Ok r.
Proof. intros Hm (v & c' & [-> ->]%context_Ok%Hm & H)%bind_Ok. done. Qed.

(** A batch the reader accepts is intact: it begins with at least 61 bytes that
  are all in the buffer, the length field counts exactly the rest of it, and the
  CRC of everything after the CRC field is the one stored there. *)
Lemma accepted_intact (bs : bytes) (b : RecordBatch) (total : Z) :
  decode bs = Ok (b, total) ->
  61 <= total <= zlen bs /\
  total = 12 + wrap_s 32 (be_val (zslice bs 8 4)) /\
  crc32c (zslice bs 21 (total - 21)) = wrap_u 32 (wrap_s 32 (be_val (zslice bs 17 4))).
Proof.
  unfold KafkaRecords.decode. intros ([r c'] & H & [= ->])%result_bind_Ok_inv.
  unfold KafkaRecords.decode_batch in H.
  apply (fixed_context _ _ 8 _ _ _ _ (fixed_take 8 _)) in H.
  apply (fixed_context _ _ 4 _ _ _ _ (fixed_take 4 _)) in H.
  unfold adv in H. cbn [buf pos Cursor_new] in H. rewrite Z.add_0_l in H.
  set (n := wrap_s 32 (be_val (zslice bs 8 4))) in *.
  destruct (n <? BATCH_HEADER_AFTER_LENGTH) eqn:E1; [done|]. apply Z.ltb_ge in E1.
  unfold BATCH_HEADER_AFTER_LENGTH in E1. rewrite bind_here in H. cbn [buf pos] in H.
  destruct (zlen bs <? 8 + 4 + n) eqn:E2; [done|]. apply Z.ltb_ge in E2.
  apply (fixed_context _ _ 4 _ _ _ _ (fixed_take 4 _)) in H.
  apply (fixed_context _ _ 1 _ _ _ _ (fixed_take 1 _)) in H.
  cbv beta in H. destruct (negb _) in H; [done|]. apply (fixed_context _ _ 4 _ _ _ _ fixed_u32) in H.
  cbv beta in H. rewrite bind_here in H. unfold adv in H. cbn [buf pos] in H.
  destruct (crc32c _ =? _) eqn:E3; cbn [negb] in H; [|done]. apply Z.eqb_eq in E3.
  enough (total = 12 + n) as -> by (split; [lia|]; split; [done|exact E3]).
  do 7 apply bind_Ok in H as (? & ? & _ & H). apply bind_Ok in H as (cnt & ? & _ & H).
  destruct (cnt <? 0); [done|]. rewrite bind_here in H. apply bind_Ok in H as ([? left_] & ? & _ & H).
  destruct (negb (left_ =? 0)); [done|]. by injection H as _ <- _.
Qed.

(** Truncation is an error: a strict prefix of an encoded batch is never
  decoded, whatever the cut. *)
Lemma truncated_rejected (b : RecordBatch) (n : Z) :
  batch_ok b -> zlen (encode b) < 2 ^ 31 -> 0 <= n < zlen (encode b) ->
  exists e, decode (ztake n (encode b)) = Err e.
Proof using lib_roundtrip crc32c_range.
  intros Hb Hmax Hn. destruct (decode (ztake n (encode b))) as [[b' total]|e] eqn:E; [|eauto].
  exfalso. apply accepted_intact in E as (Ht & Hlen & _).
  destruct (encode_wire b Hb Hmax) as (Hw & payload & Hp & He).
  pose proof (zlen_wire (written b) payload) as Hz. rewrite <- He in Hz.
  assert (zlen (ztake n (encode b)) = n) as Hzn.
  { unfold ztake, zlen in *. rewrite length_take. lia. }
  assert (forall k m, 0 <= k -> 0 <= m -> k + m <= n -> zslice (ztake n (encode b)) k m = zslice (encode b) k m) as Hs.
  { intros k m H0 H1 H2. rewrite <- (take_drop (Z.to_nat n) (encode b)) at 2. symmetry.
    apply zslice_app_l; [done|done|]. change (firstn (Z.to_nat n) (encode b)) with (ztake n (encode b)). lia. }
  rewrite Hs in Hlen by lia.
  assert (zslice (encode b) 8 4 = be_bytes 4 (49 + zlen payload)) as Hf.
  { rewrite He. unfold wire, head_bytes. rewrite <- !app_assoc.
    pose proof (zslice_mid (be_bytes 8 (base_offset (written b))) (be_bytes 4 (49 + zlen payload))
      (mid_bytes (written b) payload ++ field_bytes (written b) ++ payload)) as Hm.
    by rewrite !zlen_be_bytes in Hm. }
  pose proof (zlen_nonneg payload). rewrite Hf, (be_val_s 4 32) in Hlen by (unfold in_s; lia). lia.
Qed.

(** C29: A batch survives the wire: what [encode] writes, followed by anything, is
  decoded to the batch, and the bytes consumed are those written; a batch whose
  payload cannot be compressed is the same batch with its codec bits cleared.  Cut
  anywhere before its end, what was written is an error and never a batch. *)
Theorem batch_survives (b : RecordBatch) (tl : bytes) :
  batch_ok b -> zlen (encode b) < 2 ^ 31 ->
  decode (encode b ++ tl) = Ok (written b, zlen (encode b)) /\
  forall n, 0 <= n < zlen (encode b) -> exists e, decode (ztake n (encode b)) = Err e.
Proof using lib_roundtrip crc32c_range.
  intros Hb Hmax. split; [by apply decode_encode|]. intros n. by apply truncated_rejected.
Qed.

(** A batch the reader accepts is intact: it begins with at least 61 bytes that
  are all in the buffer, the length field counts exactly the rest of it, and the
  CRC of everything after the CRC field is the one stored there. *)
Theorem accepted_batch_is_intact (bs : bytes) (b : RecordBatch) (total : Z) :
  decode bs = Ok (b, total) ->
  61 <= total <= zlen bs /\
  total = 12 + wrap_s 32 (be_val (zslice bs 8 4)) /\
  crc32c (zslice bs 21 (total - 21)) = wrap_u 32 (wrap_s 32 (be_val (zslice bs 17 4))).
Proof. apply accepted_intact. Qed.
End batches.

(** A record whose length field claims fewer bytes than its fields occupy is
  refused by the overflow of [end - c.pos], not by the message about the length:
  a build with overflow checks stops there. *)
Theorem short_record_length_overflows (r : RecordItem) (n : Z) (tl : bytes) :
  record_ok r -> 0 <= n < zlen (record_body r) ->
  decode_record (Cursor_new ((put_varint [] n ++ record_body r) ++ tl)) = Err SubtractOverflow.
Proof.
  intros Hr Hn. pose proof (ok_body _ Hr) as Hb. unfold len_ok in Hb.
  pose proof (zlen_nonneg ((put_varint [] n ++ record_body r) ++ tl)) as Hl.
  rewrite (record_after_length r n _ tl Hr); [|unfold in_s; lia|lia|lia|by split|apply drop_0].
  unfold check_end, adv, mbind, M_bind, here. cbn [pos Cursor_new]. rewrite !zlen_app.
  by rewrite (proj2 (Z.eqb_neq _ _)), (proj2 (Z.ltb_lt _ _)) by lia.
Qed.

(** ** The theorems at a small batch

  The codecs are the identity and the checksum a sum of bytes: they have the
  promised properties and can be evaluated. *)

Definition demo_codec (codec : Z) (x : bytes) : Result Error bytes := Ok x.
Definition demo_crc (x : bytes) : Z := foldr (fun b s => (b2z b + s) mod 2 ^ 32) 0 x.

Lemma demo_codec_roundtrip codec x y : demo_codec codec x = Ok y -> demo_codec codec y = Ok x.
Proof. by intros [= ->]. Defined.

Lemma demo_crc_range x : in_u 32 (demo_crc x).
Proof. destruct x; unfold in_u; cbn [demo_crc foldr]; [lia|]. apply Z.mod_pos_bound. lia. Defined.

Definition demo_record : RecordItem :=
  mkRecordItem 0 0 0 (Some [x6b]) (Some [x76; x31]) [([x68], None)].
Definition demo_batch : RecordBatch :=
  with_compression GZIP (batch_of 17 1700000000000 [demo_record; record_value [x61]]).

(** Closed range facts. *)
Ltac range :=
  lazymatch goal with
  | |- in_s _ _ => split; [vm_compute; discriminate|reflexivity]
  | |- len_ok _ => vm_compute; reflexivity
  | |- opt_ok _ => first [exact I | vm_compute; reflexivity]
  | |- _ = _ => reflexivity
  end.

Lemma demo_record_ok : record_ok demo_record.
Proof.
  constructor; try range. apply Forall_cons_2; [|by apply Forall_nil].
  split; [range|]. split; [reflexivity|exact I].
Defined.

Lemma demo_batch_ok : batch_ok demo_batch.
Proof.
  constructor; try range. apply Forall_cons_2.
  - exact demo_record_ok.
  - apply Forall_cons_2; [|by apply Forall_nil].
    constructor; try range. by apply Forall_nil.
Defined.

Abbreviation demo_encode := (encode demo_codec demo_crc).
Abbreviation demo_decode := (decode demo_codec demo_crc).

Lemma batch_survives_witness :
  batch_ok demo_batch /\ zlen (demo_encode demo_batch) = 82 /\
  demo_decode (demo_encode demo_batch ++ [x00; x01]) = Ok (demo_batch, 82) /\
  exists e, demo_decode (ztake 81 (demo_encode demo_batch)) = Err e.
Proof.
  split; [exact demo_batch_ok|]. split; [reflexivity|].
  destruct (batch_survives demo_codec demo_codec demo_crc demo_codec_roundtrip demo_crc_range
           demo_batch [x00; x01] demo_batch_ok) as [H1 H2]; [reflexivity|].
  split; [exact H1|]. apply (H2 81). change (zlen (demo_encode demo_batch)) with 82. lia.
Defined.

Lemma batches_survive_witness :
  Forall (fun b => batch_ok b /\ zlen (demo_encode b) < 2 ^ 31) [demo_batch; demo_batch] /\
  decode_all demo_codec demo_crc
    (encode_batches demo_codec demo_crc [demo_batch; demo_batch] ++ [x00; x01]) =
    Ok [demo_batch; demo_batch].
Proof.
  assert (Forall (fun b => batch_ok b /\ zlen (demo_encode b) < 2 ^ 31) [demo_batch; demo_batch]) as H.
  { repeat (apply Forall_cons_2; [split; [exact demo_batch_ok|reflexivity]|]). by apply Forall_nil. }
  split; [exact H|].
  apply (batches_survive demo_codec demo_codec demo_crc demo_codec_roundtrip demo_crc_range
           [demo_batch; demo_batch] [x00; x01] H). reflexivity.
Defined.

Lemma accepted_batch_is_intact_witness :
  demo_decode (demo_encode demo_batch) = Ok (demo_batch, 82) /\
  61 <= 82 <= zlen (demo_encode demo_batch) /\
  82 = 12 + wrap_s 32 (be_val (zslice (demo_encode demo_batch) 8 4)) /\
  demo_crc (zslice (demo_encode demo_batch) 21 (82 - 21)) =
    wrap_u 32 (wrap_s 32 (be_val (zslice (demo_encode demo_batch) 17 4))).
Proof.
  assert (demo_decode (demo_encode demo_batch) = Ok (demo_batch, 82)) as H by (vm_compute; reflexivity).
  split; [exact H|].
  exact (accepted_batch_is_intact demo_codec demo_crc (demo_encode demo_batch) demo_batch 82 H).
Defined.

Lemma short_record_length_overflows_witness :
  record_ok demo_record /\
  decode_record (Cursor_new ((put_varint [] 3 ++ record_body demo_record) ++ [])) = Err SubtractOverflow.
Proof.
  split; [exact demo_record_ok|].
  apply (short_record_length_overflows demo_record 3 [] demo_record_ok).
  change (zlen (record_body demo_record)) with 12. lia.
Defined.
