(* ===== verification/TlsTypes.v ===== *)
(** * TLS code points, names and errors ([tlstest/src/tls/mod.rs])

  A [u8] is a [byte], a [u16] a [Z].  Report text is a list of bytes.  The
  theorems: type bytes survive, the GREASE test is membership in the list of
  GREASE values, and [unhex] undoes [hex]. *)

From S2P Require Import Prelude Text.

(** ** Formatting used by the names *)

(** [{:0<w>x}] of an unsigned integer. *)
Definition hex_pad (w : nat) (z : Z) : bytes :=
  let ds := digits 16 z in replicate (w - length ds) x30 ++ ds.

Definition unknown_dec (z : Z) : bytes := str "unknown(" ++ dec z ++ str ")".
Definition unknown_hex (z : Z) : bytes := str "unknown(0x" ++ hex_pad 4 z ++ str ")".
Definition grease_hex (z : Z) : bytes := str "GREASE(0x" ++ hex_pad 4 z ++ str ")".
Definition named (n : string) (code : Z) : bytes := str n ++ str "(" ++ dec code ++ str ")".

(** ** Record and handshake type codes *)

Inductive ContentType : Type :=
| ChangeCipherSpec
| Alert
| Handshake
| ApplicationData
| OtherType (b : byte).

#[global] Instance ContentType_eq_dec : EqDecision ContentType.
Proof. solve_decision. Defined.

Definition ContentType_as_u8 (ct : ContentType) : byte :=
  match ct with
  | ChangeCipherSpec => x14
  | Alert => x15
  | Handshake => x16
  | ApplicationData => x17
  | OtherType b => b
  end.

Definition ContentType_from_u8 (b : byte) : ContentType :=
  match b with
  | x14 => ChangeCipherSpec
  | x15 => Alert
  | x16 => Handshake
  | x17 => ApplicationData
  | other => OtherType other
  end.

Definition ContentType_name (ct : ContentType) : bytes :=
  match ct with
  | ChangeCipherSpec => str "change_cipher_spec(20)"
  | Alert => str "alert(21)"
  | Handshake => str "handshake(22)"
  | ApplicationData => str "application_data(23)"
  | OtherType b => unknown_dec (b2z b)
  end.

(** [HandshakeType] and [AlertDescription] are newtypes of [u8]. *)
Definition HandshakeType : Type := byte.
Definition CLIENT_HELLO : HandshakeType := x01.
Definition SERVER_HELLO : HandshakeType := x02.
Definition NEW_SESSION_TICKET : HandshakeType := x04.
Definition END_OF_EARLY_DATA : HandshakeType := x05.
Definition ENCRYPTED_EXTENSIONS : HandshakeType := x08.
Definition CERTIFICATE : HandshakeType := x0b.
Definition CERTIFICATE_REQUEST : HandshakeType := x0d.
Definition CERTIFICATE_VERIFY : HandshakeType := x0f.
Definition FINISHED : HandshakeType := x14.
Definition KEY_UPDATE : HandshakeType := x18.
Definition MESSAGE_HASH : HandshakeType := xfe.
Definition HELLO_REQUEST : HandshakeType := x00.

Definition HandshakeType_name (t : HandshakeType) : bytes :=
  let code := b2z t in
  match code with
  | 0 => named "hello_request_RESERVED" code
  | 1 => named "client_hello" code
  | 2 => named "server_hello" code
  | 4 => named "new_session_ticket" code
  | 5 => named "end_of_early_data" code
  | 8 => named "encrypted_extensions" code
  | 11 => named "certificate" code
  | 13 => named "certificate_request" code
  | 15 => named "certificate_verify" code
  | 20 => named "finished" code
  | 24 => named "key_update" code
  | 254 => named "message_hash" code
  | _ => unknown_dec code
  end.

Inductive AlertLevel : Type :=
| Warning
| Fatal
| OtherLevel (b : byte).

#[global] Instance AlertLevel_eq_dec : EqDecision AlertLevel.
Proof. solve_decision. Defined.

Definition AlertLevel_from_u8 (b : byte) : AlertLevel :=
  match b with x01 => Warning | x02 => Fatal | other => OtherLevel other end.

Definition AlertLevel_as_u8 (l : AlertLevel) : byte :=
  match l with Warning => x01 | Fatal => x02 | OtherLevel b => b end.

Definition AlertLevel_name (l : AlertLevel) : bytes :=
  match l with
  | Warning => str "warning(1)"
  | Fatal => str "fatal(2)"
  | OtherLevel b => unknown_dec (b2z b)
  end.

Definition AlertDescription : Type := byte.
Definition CLOSE_NOTIFY : AlertDescription := z2b 0.
Definition UNEXPECTED_MESSAGE : AlertDescription := z2b 10.
Definition BAD_RECORD_MAC : AlertDescription := z2b 20.
Definition RECORD_OVERFLOW : AlertDescription := z2b 22.
Definition HANDSHAKE_FAILURE : AlertDescription := z2b 40.
Definition BAD_CERTIFICATE : AlertDescription := z2b 42.
Definition ILLEGAL_PARAMETER : AlertDescription := z2b 47.
Definition DECODE_ERROR : AlertDescription := z2b 50.
Definition DECRYPT_ERROR : AlertDescription := z2b 51.
Definition PROTOCOL_VERSION : AlertDescription := z2b 70.
Definition INSUFFICIENT_SECURITY : AlertDescription := z2b 71.
Definition INTERNAL_ERROR : AlertDescription := z2b 80.
Definition INAPPROPRIATE_FALLBACK : AlertDescription := z2b 86.
Definition USER_CANCELED : AlertDescription := z2b 90.
Definition MISSING_EXTENSION : AlertDescription := z2b 109.
Definition UNSUPPORTED_EXTENSION : AlertDescription := z2b 110.
Definition UNRECOGNIZED_NAME : AlertDescription := z2b 112.
Definition NO_RENEGOTIATION : AlertDescription := z2b 100.
Definition CERTIFICATE_REQUIRED : AlertDescription := z2b 116.
Definition UNKNOWN_CA : AlertDescription := z2b 48.
Definition CERTIFICATE_UNKNOWN : AlertDescription := z2b 46.
Definition NO_APPLICATION_PROTOCOL : AlertDescription := z2b 120.

Definition AlertDescription_name (d : AlertDescription) : bytes :=
  let code := b2z d in
  match code with
  | 0 => named "close_notify" code
  | 10 => named "unexpected_message" code
  | 20 => named "bad_record_mac" code
  | 21 => named "decryption_failed_RESERVED" code
  | 22 => named "record_overflow" code
  | 40 => named "handshake_failure" code
  | 42 => named "bad_certificate" code
  | 43 => named "unsupported_certificate" code
  | 44 => named "certificate_revoked" code
  | 45 => named "certificate_expired" code
  | 46 => named "certificate_unknown" code
  | 47 => named "illegal_parameter" code
  | 48 => named "unknown_ca" code
  | 49 => named "access_denied" code
  | 50 => named "decode_error" code
  | 51 => named "decrypt_error" code
  | 70 => named "protocol_version" code
  | 71 => named "insufficient_security" code
  | 80 => named "internal_error" code
  | 86 => named "inappropriate_fallback" code
  | 90 => named "user_canceled" code
  | 100 => named "no_renegotiation_RESERVED" code
  | 109 => named "missing_extension" code
  | 110 => named "unsupported_extension" code
  | 112 => named "unrecognized_name" code
  | 113 => named "bad_certificate_status_response" code
  | 115 => named "unknown_psk_identity" code
  | 116 => named "certificate_required" code
  | 120 => named "no_application_protocol" code
  | _ => unknown_dec code
  end.

(** ** Negotiation code points *)

Definition TLS_AES_128_GCM_SHA256 : Z := 0x1301.
Definition TLS_AES_256_GCM_SHA384 : Z := 0x1302.
Definition TLS_CHACHA20_POLY1305_SHA256 : Z := 0x1303.
Definition ALL_SUITES : list Z :=
  [TLS_AES_256_GCM_SHA384; TLS_CHACHA20_POLY1305_SHA256; TLS_AES_128_GCM_SHA256].

Definition suite_name (suite : Z) : bytes :=
  if suite =? TLS_AES_128_GCM_SHA256 then str "TLS_AES_128_GCM_SHA256(0x1301)"
  else if suite =? TLS_AES_256_GCM_SHA384 then str "TLS_AES_256_GCM_SHA384(0x1302)"
  else if suite =? TLS_CHACHA20_POLY1305_SHA256 then str "TLS_CHACHA20_POLY1305_SHA256(0x1303)"
  else if suite =? 0x1304 then str "TLS_AES_128_CCM_SHA256(0x1304)"
  else if suite =? 0x1305 then str "TLS_AES_128_CCM_8_SHA256(0x1305)"
  else unknown_hex suite.

(** [value & 0x0f0f == 0x0a0a && (value >> 12) == ((value >> 4) & 0x0f)]. *)
Definition is_grease (value : Z) : bool :=
  (Z.land value 0x0f0f =? 0x0a0a) && (Z.shiftr value 12 =? Z.land (Z.shiftr value 4) 0x0f).

Definition grease_values : list Z :=
  map (fun i => Z.lor (Z.lor (wrap_u 16 (Z.shiftl i 12)) (wrap_u 16 (Z.shiftl i 4))) 0x0a0a) (seqZ 0 16).

Definition GROUP_X25519 : Z := 0x001d.
Definition GROUP_SECP256R1 : Z := 0x0017.
Definition GROUP_SECP384R1 : Z := 0x0018.
Definition GROUP_FFDHE2048 : Z := 0x0100.

Definition group_name (group : Z) : bytes :=
  if group =? GROUP_SECP256R1 then str "secp256r1(0x0017)"
  else if group =? GROUP_SECP384R1 then str "secp384r1(0x0018)"
  else if group =? 0x0019 then str "secp521r1(0x0019)"
  else if group =? GROUP_X25519 then str "x25519(0x001d)"
  else if group =? 0x001e then str "x448(0x001e)"
  else if group =? GROUP_FFDHE2048 then str "ffdhe2048(0x0100)"
  else if group =? 0x11ec then str "X25519MLKEM768(0x11ec)"
  else if is_grease group then grease_hex group
  else unknown_hex group.

Definition SIG_RSA_PKCS1_SHA256 : Z := 0x0401.
Definition SIG_ECDSA_SECP256R1_SHA256 : Z := 0x0403.
Definition SIG_RSA_PSS_RSAE_SHA256 : Z := 0x0804.
Definition SIG_RSA_PSS_RSAE_SHA384 : Z := 0x0805.
Definition SIG_RSA_PSS_RSAE_SHA512 : Z := 0x0806.
Definition SIG_ED25519 : Z := 0x0807.

Definition sig_name (scheme : Z) : bytes :=
  if scheme =? 0x0201 then str "rsa_pkcs1_sha1(0x0201)"
  else if scheme =? SIG_RSA_PKCS1_SHA256 then str "rsa_pkcs1_sha256(0x0401)"
  else if scheme =? 0x0501 then str "rsa_pkcs1_sha384(0x0501)"
  else if scheme =? 0x0601 then str "rsa_pkcs1_sha512(0x0601)"
  else if scheme =? SIG_ECDSA_SECP256R1_SHA256 then str "ecdsa_secp256r1_sha256(0x0403)"
  else if scheme =? 0x0503 then str "ecdsa_secp384r1_sha384(0x0503)"
  else if scheme =? 0x0603 then str "ecdsa_secp521r1_sha512(0x0603)"
  else if scheme =? SIG_RSA_PSS_RSAE_SHA256 then str "rsa_pss_rsae_sha256(0x0804)"
  else if scheme =? SIG_RSA_PSS_RSAE_SHA384 then str "rsa_pss_rsae_sha384(0x0805)"
  else if scheme =? SIG_RSA_PSS_RSAE_SHA512 then str "rsa_pss_rsae_sha512(0x0806)"
  else if scheme =? SIG_ED25519 then str "ed25519(0x0807)"
  else if scheme =? 0x0809 then str "rsa_pss_pss_sha256(0x0809)"
  else if is_grease scheme then grease_hex scheme
  else unknown_hex scheme.

Definition EXT_SERVER_NAME : Z := 0.
Definition EXT_MAX_FRAGMENT_LENGTH : Z := 1.
Definition EXT_SUPPORTED_GROUPS : Z := 10.
Definition EXT_SIGNATURE_ALGORITHMS : Z := 13.
Definition EXT_ALPN : Z := 16.
Definition EXT_PRE_SHARED_KEY : Z := 41.
Definition EXT_EARLY_DATA : Z := 42.
Definition EXT_SUPPORTED_VERSIONS : Z := 43.
Definition EXT_COOKIE : Z := 44.
Definition EXT_PSK_KEY_EXCHANGE_MODES : Z := 45.
Definition EXT_KEY_SHARE : Z := 51.

Definition ext_name (ext : Z) : bytes :=
  match ext with
  | 0 => named "server_name" ext
  | 1 => named "max_fragment_length" ext
  | 5 => named "status_request" ext
  | 10 => named "supported_groups" ext
  | 13 => named "signature_algorithms" ext
  | 14 => named "use_srtp" ext
  | 15 => named "heartbeat" ext
  | 16 => named "application_layer_protocol_negotiation" ext
  | 18 => named "signed_certificate_timestamp" ext
  | 19 => named "client_certificate_type" ext
  | 20 => named "server_certificate_type" ext
  | 21 => named "padding" ext
  | 41 => named "pre_shared_key" ext
  | 42 => named "early_data" ext
  | 43 => named "supported_versions" ext
  | 44 => named "cookie" ext
  | 45 => named "psk_key_exchange_modes" ext
  | 47 => named "certificate_authorities" ext
  | 48 => named "oid_filters" ext
  | 49 => named "post_handshake_auth" ext
  | 50 => named "signature_algorithms_cert" ext
  | 51 => named "key_share" ext
  | other => if is_grease other then grease_hex other else unknown_dec other
  end.

Definition LEGACY_VERSION_TLS12 : Z := 0x0303.
Definition LEGACY_VERSION_TLS10 : Z := 0x0301.
Definition TLS13_VERSION : Z := 0x0304.
Definition TLS12_VERSION : Z := 0x0303.
Definition MAX_PLAINTEXT : Z := 16384.
Definition MAX_CIPHERTEXT : Z := 16384 + 256.

Definition DOWNGRADE_SENTINEL_TLS12 : bytes := [x44; x4f; x57; x4e; x47; x52; x44; x01].
Definition DOWNGRADE_SENTINEL_TLS11 : bytes := [x44; x4f; x57; x4e; x47; x52; x44; x00].
Definition HELLO_RETRY_REQUEST_RANDOM : bytes :=
  [xcf; x21; xad; x74; xe5; x9a; x61; x11; xbe; x1d; x8c; x02; x1e; x65; xb8; x91;
   xc2; xa2; x11; x16; x7a; xbb; x8c; x5e; x07; x9e; x09; xe2; xc8; xa8; x33; x9c].

Definition SERVER_CV_CONTEXT : bytes := str "TLS 1.3, server CertificateVerify".
Definition CLIENT_CV_CONTEXT : bytes := str "TLS 1.3, client CertificateVerify".

(** ** Errors *)

(** The kinds of [std::io::Error] the code looks at. *)
Inductive IoKind : Type := ConnectionReset | BrokenPipe | OtherKind (code : Z).

Inductive TlsError : Type :=
| Closed
| Timeout (what : bytes)
| Io (kind : IoKind)
| RecordError (m : bytes)
| Decode (m : bytes)
| Crypto (m : bytes)
| AlertError (level : AlertLevel) (description : AlertDescription)
| Protocol (m : bytes).

Abbreviation TlsResult := (Result TlsError).

(** [Display]; the text of an I/O error is the operating system's. *)
Definition TlsError_display (io : IoKind -> bytes) (e : TlsError) : bytes :=
  match e with
  | Closed => str "the server closed the connection"
  | Timeout what => str "timed out waiting for " ++ what
  | Io kind => str "socket error: " ++ io kind
  | RecordError m => str "bad record: " ++ m
  | Decode m => str "cannot decode: " ++ m
  | Crypto m => str "crypto check failed: " ++ m
  | AlertError level desc =>
      str "the server sent alert " ++ AlertLevel_name level ++ str " " ++ AlertDescription_name desc
  | Protocol m => str "protocol violation: " ++ m
  end.

(** ** Hex *)

Definition hex_byte (b : byte) : bytes := [digit_char (b2z b / 16); digit_char (b2z b mod 16)].
Definition hex (bs : bytes) : bytes := concat (map hex_byte bs).

(** [chars().filter(|c| !c.is_whitespace())]. *)
Fixpoint strip_ws_fuel (fuel : nat) (s : bytes) : bytes :=
  match fuel, s with
  | S fuel, b :: rest =>
      match ws_front s with
      | O => b :: strip_ws_fuel fuel rest
      | k => strip_ws_fuel fuel (drop k s)
      end
  | _, _ => []
  end.
Definition strip_ws (s : bytes) : bytes := strip_ws_fuel (length s) s.

Definition hex_digit_val (b : byte) : option Z :=
  if between 48 57 b then Some (b2z b - 48)
  else if between 97 102 b then Some (b2z b - 87)
  else if between 65 70 b then Some (b2z b - 55)
  else None.

(** [u8::from_str_radix(s, 16)] of two bytes: two digits, or one after a [+]. *)
Definition from_hex2 (a b : byte) : option byte :=
  if decide (a = x2b) then z2b <$> hex_digit_val b
  else hi ← hex_digit_val a; lo ← hex_digit_val b; Some (z2b (16 * hi + lo)).

(** [&s[i..i + 2]] panics when it would cut a character: the slice may start and
  end only where no continuation byte follows. *)
Inductive Panic : Type := NotCharBoundary.

Fixpoint unhex_pairs (s : bytes) : Result Panic (option bytes) :=
  match s with
  | a :: b :: rest =>
      if cont (a :: b :: rest) || cont rest then Err NotCharBoundary
      else match from_hex2 a b with
           | None => Ok None
           | Some c => match unhex_pairs rest with
                       | Ok (Some cs) => Ok (Some (c :: cs))
                       | r => r
                       end
           end
  | _ => Ok (Some [])
  end.

Definition unhex (s : bytes) : Result Panic (option bytes) :=
  let s := strip_ws s in
  if negb (Nat.even (length s)) then Ok None else unhex_pairs s.

(** The ellipsis is U+2026. *)
Definition hex_prefix (bs : bytes) (n : nat) : bytes :=
  if (length bs <=? n)%nat then hex bs
  else hex (take n bs) ++ [xe2; x80; xa6] ++ str " (" ++ dec (zlen bs) ++ str " bytes)".

(** ** Lemmas *)

Lemma ContentType_as_from b : ContentType_as_u8 (ContentType_from_u8 b) = b.
Proof. by destruct b. Qed.

(** The content types a byte can be read as: [OtherType] only of other bytes. *)
Definition canonical (ct : ContentType) : Prop :=
  ContentType_from_u8 (ContentType_as_u8 ct) = ct.

Lemma canonical_from_u8 b : canonical (ContentType_from_u8 b).
Proof. unfold canonical. by rewrite ContentType_as_from. Qed.

Lemma AlertLevel_as_from b : AlertLevel_as_u8 (AlertLevel_from_u8 b) = b.
Proof. by destruct b. Qed.

Lemma length_hex_text bs : length (hex bs) = (2 * length bs)%nat.
Proof. unfold hex. induction bs as [|b bs IH]; simpl; [done|]. simpl in IH. rewrite IH. lia. Qed.

Lemma hex_digit_char d : 0 <= d < 16 -> hex_digit_val (digit_char d) = Some d.
Proof.
  intros Hd. assert (Z.of_nat (Z.to_nat d) = d) as <- by lia.
  assert (Z.to_nat d < 16)%nat as H by lia. revert H. generalize (Z.to_nat d). intros n Hn.
  do 16 (destruct n as [|n]; [reflexivity|]). lia.
Qed.

Lemma digit_char_plain d : 0 <= d < 16 ->
  digit_char d <> x2b /\ cont [digit_char d] = false /\ forall r, ws_front (digit_char d :: r) = 0%nat.
Proof.
  intros Hd. assert (Z.of_nat (Z.to_nat d) = d) as <- by lia.
  assert (Z.to_nat d < 16)%nat as H by lia. revert H. generalize (Z.to_nat d). intros n Hn.
  do 16 (destruct n as [|n]; [by repeat split|]). lia.
Qed.

Lemma byte_nibbles b : 0 <= b2z b / 16 < 16 /\ 0 <= b2z b mod 16 < 16 /\
  16 * (b2z b / 16) + b2z b mod 16 = b2z b.
Proof.
  pose proof (b2z_range b). pose proof (Z.mod_pos_bound (b2z b) 16 ltac:(lia)).
  pose proof (Z.div_mod (b2z b) 16 ltac:(lia)). lia.
Qed.

Lemma strip_ws_hex bs fuel : (2 * length bs <= fuel)%nat -> strip_ws_fuel fuel (hex bs) = hex bs.
Proof.
  revert fuel. induction bs as [|b bs IH]; intros fuel Hf; [by destruct fuel|].
  destruct fuel as [|[|fuel]]; [simpl in Hf; lia..|].
  change (hex (b :: bs)) with
    (digit_char (b2z b / 16) :: digit_char (b2z b mod 16) :: hex bs).
  destruct (byte_nibbles b) as (H1 & H2 & _). cbn [strip_ws_fuel].
  rewrite (proj2 (proj2 (digit_char_plain _ H1))), (proj2 (proj2 (digit_char_plain _ H2))).
  rewrite IH by (simpl in Hf; lia). done.
Qed.

Lemma cont_hex bs : cont (hex bs) = false.
Proof. destruct bs as [|b bs]; [done|]. apply (digit_char_plain _ (proj1 (byte_nibbles b))). Qed.

Lemma unhex_pairs_hex bs : unhex_pairs (hex bs) = Ok (Some bs).
Proof.
  induction bs as [|b bs IH]; [done|].
  change (hex (b :: bs)) with
    (digit_char (b2z b / 16) :: digit_char (b2z b mod 16) :: hex bs).
  destruct (byte_nibbles b) as (H1 & H2 & E). cbn [unhex_pairs].
  rewrite (cont_hex bs), orb_false_r.
  replace (cont (_ :: _)) with false by (symmetry; apply (digit_char_plain _ H1)).
  unfold from_hex2. rewrite decide_False by apply (digit_char_plain _ H1).
  rewrite !hex_digit_char by done. cbn [mbind option_bind]. by rewrite IH, E, z2b_b2z.
Qed.

(** [unhex] undoes [hex] and never panics on what [hex] writes. *)
Lemma unhex_hex bs : unhex (hex bs) = Ok (Some bs).
Proof.
  unfold unhex, strip_ws. rewrite strip_ws_hex by (by rewrite length_hex_text).
  rewrite length_hex_text, Nat.even_even. apply unhex_pairs_hex.
Qed.

(** What it takes besides: a sign for a digit, and it cuts characters. *)
Lemma unhex_is_lax :
  unhex (str "+f") = Ok (Some [x0f]) /\ unhex [x61; xc3; xa9; x62] = Err NotCharBoundary.
Proof. done. Qed.

(** The GREASE test on every 16-bit value. *)
Definition grease_check (v : Z) : bool :=
  Bool.eqb (is_grease v) (bool_decide (v ∈ grease_values)).

Lemma is_grease_table :
  forallb (fun hi => forallb (fun lo => grease_check (256 * hi + lo)) (seqZ 0 256)) (seqZ 0 256) = true.
Proof. vm_cast_no_check (eq_refl true). Qed.

Lemma is_grease_exact v : in_u 16 v -> is_grease v = true <-> v ∈ grease_values.
Proof.
  intros Hv. unfold in_u in Hv. change (2 ^ 16) with (256 * 256) in Hv.
  assert (H : v / 256 ∈ seqZ 0 256 /\ v mod 256 ∈ seqZ 0 256).
  { rewrite !elem_of_seqZ. pose proof (Z.mod_pos_bound v 256 ltac:(lia)).
    pose proof (Z.div_pos v 256 ltac:(lia) ltac:(lia)).
    pose proof (Z.div_lt_upper_bound v 256 256 ltac:(lia) ltac:(lia)). lia. }
  rewrite !list_elem_of_In in H. destruct H as [Hhi Hlo].
  pose proof (proj1 (forallb_forall _ _) is_grease_table _ Hhi) as H.
  pose proof (proj1 (forallb_forall _ _) H _ Hlo) as H'.
  cbv beta in H'. rewrite <- Z.div_mod in H' by lia. unfold grease_check in H'. apply Bool.eqb_prop in H'.
  rewrite H'. apply bool_decide_eq_true.
Qed.
