(* ===== verification/TlsCrypto.v ===== *)
(** * The TLS 1.3 key schedule ([tlstest/src/tls/crypto.rs])

  The hash, HMAC and AEAD crates are the class [CryptoLib]; the laws the code
  relies on are the class [CryptoLaws].  HKDF, the labels, the traffic keys, the
  transcript and the schedule are modelled in full.  A method that can fail
  half-way keeps the state it had reached ([K]). *)

From S2P Require Import Prelude Text TlsTypes.

(** ** Hash agility *)

Inductive HashAlg : Type := Sha256 | Sha384.
#[global] Instance HashAlg_eq_dec : EqDecision HashAlg.
Proof. solve_decision. Defined.

Definition HashAlg_len (h : HashAlg) : Z := match h with Sha256 => 32 | Sha384 => 48 end.
Definition HashAlg_name (h : HashAlg) : bytes :=
  match h with Sha256 => str "SHA-256" | Sha384 => str "SHA-384" end.

Inductive AeadAlg : Type := Aes128Gcm | Aes256Gcm | ChaCha20Poly1305.
#[global] Instance AeadAlg_eq_dec : EqDecision AeadAlg.
Proof. solve_decision. Defined.

Definition key_len (a : AeadAlg) : Z :=
  match a with Aes128Gcm => 16 | Aes256Gcm | ChaCha20Poly1305 => 32 end.
Definition iv_len (a : AeadAlg) : Z := 12.
Definition tag_len (a : AeadAlg) : Z := 16.
Definition AeadAlg_name (a : AeadAlg) : bytes :=
  match a with
  | Aes128Gcm => str "AES-128-GCM"
  | Aes256Gcm => str "AES-256-GCM"
  | ChaCha20Poly1305 => str "ChaCha20-Poly1305"
  end.

(** The crates [sha2], [hmac], [aes_gcm] and [chacha20poly1305]: [digest],
  [Mac], [new_from_slice], [encrypt] and [decrypt]. *)
Class CryptoLib : Type := {
  digest : HashAlg -> bytes -> bytes;
  hmac : HashAlg -> bytes -> bytes -> bytes;
  aead_key : AeadAlg -> bytes -> bool;
  aead_encrypt : AeadAlg -> bytes -> bytes -> bytes -> bytes -> option bytes;
  aead_decrypt : AeadAlg -> bytes -> bytes -> bytes -> bytes -> option bytes
}.

(** What their documentation says: output sizes, the key sizes, that decryption
  accepts exactly what encryption under the same key, nonce and additional data
  produces, and that the tag is what it takes off. *)
Class CryptoLaws (lib : CryptoLib) : Prop := {
  digest_len : forall h d, zlen (digest h d) = HashAlg_len h;
  hmac_len : forall h k d, zlen (hmac h k d) = HashAlg_len h;
  aead_key_len : forall a k, aead_key a k = bool_decide (zlen k = key_len a);
  aead_encrypt_total : forall a k n aad p, aead_key a k = true -> zlen n = iv_len a ->
    zlen p <= MAX_CIPHERTEXT ->
    exists c, aead_encrypt a k n aad p = Some c /\ zlen c = zlen p + tag_len a;
  aead_decrypt_iff : forall a k n aad c p,
    aead_key a k = true -> zlen n = iv_len a ->
    aead_decrypt a k n aad c = Some p <-> aead_encrypt a k n aad p = Some c;
  aead_decrypt_len : forall a k n aad c p, aead_decrypt a k n aad c = Some p -> zlen c = zlen p + tag_len a
}.

Section crypto.
Context {lib : CryptoLib}.

Definition empty_hash (h : HashAlg) : bytes := digest h [].
Definition zeros (h : HashAlg) : bytes := replicate (Z.to_nat (HashAlg_len h)) x00.

(** ** HKDF *)

Definition hkdf_extract (alg : HashAlg) (salt ikm : bytes) : bytes := hmac alg salt ikm.

(** [for counter in counter..counter + n]. *)
Fixpoint expand_loop (alg : HashAlg) (prk info : bytes) (n : nat) (counter : Z)
    (previous out : bytes) : bytes :=
  match n with
  | O => out
  | S n =>
      let input := previous ++ info ++ [z2b counter] in
      let previous := hmac alg prk input in
      expand_loop alg prk info n (counter + 1) previous (out ++ previous)
  end.

Definition div_ceil (a b : Z) : Z := (a + b - 1) / b.

Definition hkdf_expand (alg : HashAlg) (prk info : bytes) (length : Z) : TlsResult bytes :=
  let hash_len := HashAlg_len alg in
  let n := div_ceil length hash_len in
  if 255 <? n then
    Err (Crypto (str "HKDF-Expand asked for " ++ dec length ++ str " bytes, more than 255 * " ++ dec hash_len))
  else Ok (ztake length (expand_loop alg prk info (Z.to_nat n) 1 [] [])).

Definition tls13_ : bytes := str "tls13 ".

Definition hkdf_label (label context : bytes) (length : Z) : bytes :=
  let full := tls13_ ++ label in
  be_bytes 2 (wrap_u 16 length) ++ [z2b (zlen full)] ++ full ++ [z2b (zlen context)] ++ context.

Definition hkdf_expand_label (alg : HashAlg) (secret label context : bytes) (length : Z) : TlsResult bytes :=
  hkdf_expand alg secret (hkdf_label label context length) length.

Definition derive_secret (alg : HashAlg) (secret label transcript_hash : bytes) : TlsResult bytes :=
  hkdf_expand_label alg secret label transcript_hash (HashAlg_len alg).

(** ** AEAD *)

Definition needs_key_text (a : AeadAlg) : bytes :=
  match a with
  | Aes128Gcm => str "AES-128-GCM needs a 16-byte key"
  | Aes256Gcm => str "AES-256-GCM needs a 32-byte key"
  | ChaCha20Poly1305 => str "ChaCha20-Poly1305 needs a 32-byte key"
  end.

Definition aead_seal (a : AeadAlg) (key nonce aad plaintext : bytes) : TlsResult bytes :=
  if negb (aead_key a key) then Err (Crypto (needs_key_text a))
  else ok_or (aead_encrypt a key nonce aad plaintext) (Crypto (AeadAlg_name a ++ str " sealing failed")).

Definition aead_open (a : AeadAlg) (key nonce aad ciphertext : bytes) : TlsResult bytes :=
  if negb (aead_key a key) then Err (Crypto (needs_key_text a))
  else ok_or (aead_decrypt a key nonce aad ciphertext)
         (Crypto (AeadAlg_name a ++ str " could not authenticate the record (bad tag)")).

(** ** Cipher suites *)

Record Suite : Type := mkSuite { s_code : Z; s_hash : HashAlg; s_aead : AeadAlg }.

Definition Suite_from_code (code : Z) : option Suite :=
  if code =? TLS_AES_128_GCM_SHA256 then Some (mkSuite code Sha256 Aes128Gcm)
  else if code =? TLS_AES_256_GCM_SHA384 then Some (mkSuite code Sha384 Aes256Gcm)
  else if code =? TLS_CHACHA20_POLY1305_SHA256 then Some (mkSuite code Sha256 ChaCha20Poly1305)
  else None.

Definition Suite_name (s : Suite) : bytes := suite_name (s_code s).

(** ** Traffic keys *)

Record TrafficKeys : Type := mkTrafficKeys {
  tk_secret : bytes;
  tk_key : bytes;
  tk_iv : bytes;
  tk_aead : AeadAlg;
  tk_hash : HashAlg
}.

Definition TrafficKeys_derive (suite : Suite) (secret : bytes) : TlsResult TrafficKeys :=
  key ← hkdf_expand_label (s_hash suite) secret (str "key") [] (key_len (s_aead suite));
  iv ← hkdf_expand_label (s_hash suite) secret (str "iv") [] (iv_len (s_aead suite));
  Ok (mkTrafficKeys secret key iv (s_aead suite) (s_hash suite)).

Definition byte_xor (a b : byte) : byte := z2b (Z.lxor (b2z a) (b2z b)).

(** [for (i, b) in seq { nonce[start + i] ^= b }].  An IV shorter than eight
  bytes would be indexed out of range; [derive] makes twelve. *)
Fixpoint xor_from (start : nat) (seq nonce : bytes) : bytes :=
  match seq with
  | [] => nonce
  | b :: seq => xor_from (S start) seq (alter (fun x => byte_xor x b) start nonce)
  end.

Definition nonce (k : TrafficKeys) (sequence : Z) : bytes :=
  xor_from (length (tk_iv k) - 8) (be_bytes 8 sequence) (tk_iv k).

Definition updated (k : TrafficKeys) : TlsResult TrafficKeys :=
  next ← hkdf_expand_label (tk_hash k) (tk_secret k) (str "traffic upd") [] (HashAlg_len (tk_hash k));
  TrafficKeys_derive (mkSuite 0 (tk_hash k) (tk_aead k)) next.

Definition finished_key (k : TrafficKeys) : TlsResult bytes :=
  hkdf_expand_label (tk_hash k) (tk_secret k) (str "finished") [] (HashAlg_len (tk_hash k)).

(** ** The transcript *)

Record Transcript : Type := mkTranscript {
  t_hash : HashAlg;
  t_bytes : bytes;
  checkpoints : list (bytes * bytes)
}.

Definition Transcript_new (h : HashAlg) : Transcript := mkTranscript h [] [].
Definition rehash (h : HashAlg) (t : Transcript) : Transcript := mkTranscript h (t_bytes t) [].
Definition current (t : Transcript) : bytes := digest (t_hash t) (t_bytes t).
Definition mark (label : bytes) (t : Transcript) : Transcript :=
  mkTranscript (t_hash t) (t_bytes t) (checkpoints t ++ [(label, current t)]).
Definition push (message label : bytes) (t : Transcript) : Transcript :=
  mark label (mkTranscript (t_hash t) (t_bytes t ++ message) (checkpoints t)).
Definition replace_with_message_hash (t : Transcript) : Transcript :=
  let synthetic := [z2b 254; x00; x00; z2b (HashAlg_len (t_hash t))] ++ digest (t_hash t) (t_bytes t) in
  mark (str "message_hash (HelloRetryRequest)") (mkTranscript (t_hash t) synthetic (checkpoints t)).
Definition at_ (label : bytes) (t : Transcript) : option bytes :=
  snd <$> head (filter (fun c => c.1 = label) (checkpoints t)).

(** ** The key schedule *)

Record Step : Type := mkStep {
  st_label : bytes;
  st_output : bytes;
  st_transcript_hash : option bytes;
  st_secret : bytes
}.

Record KeySchedule : Type := mkKeySchedule {
  ks_suite : Suite;
  steps : list Step;
  early_secret : bytes;
  handshake_secret : bytes;
  master_secret : bytes;
  client_handshake : option TrafficKeys;
  server_handshake : option TrafficKeys;
  client_application : option TrafficKeys;
  server_application : option TrafficKeys;
  resumption_master : option bytes;
  exporter_master : option bytes;
  binder_key : option bytes
}.

(** Methods on [&mut self]: what an error leaves behind is kept. *)
Definition K (A : Type) : Type := KeySchedule -> TlsResult A * KeySchedule.
#[global] Instance K_ret : MRet K := fun A a ks => (Ok a, ks).
#[global] Instance K_bind : MBind K := fun A B f m ks =>
  match m ks with (Ok a, ks) => f a ks | (Err e, ks) => (Err e, ks) end.
Definition try_ {A} (r : TlsResult A) : K A := fun ks => (r, ks).
Definition get : K KeySchedule := fun ks => (Ok ks, ks).
Definition modify (f : KeySchedule -> KeySchedule) : K unit := fun ks => (Ok tt, f ks).

Definition record_step (label output : bytes) (transcript : option bytes) (secret : bytes)
    (ks : KeySchedule) : KeySchedule :=
  mkKeySchedule (ks_suite ks) (steps ks ++ [mkStep label output transcript secret])
    (early_secret ks) (handshake_secret ks) (master_secret ks) (client_handshake ks)
    (server_handshake ks) (client_application ks) (server_application ks) (resumption_master ks)
    (exporter_master ks) (binder_key ks).
Definition record_ (label output : bytes) (transcript : option bytes) (secret : bytes) : K unit :=
  modify (record_step label output transcript secret).

Definition set_handshake_secret (s : bytes) (ks : KeySchedule) : KeySchedule :=
  mkKeySchedule (ks_suite ks) (steps ks) (early_secret ks) s (master_secret ks) (client_handshake ks)
    (server_handshake ks) (client_application ks) (server_application ks) (resumption_master ks)
    (exporter_master ks) (binder_key ks).
Definition set_master_secret (s : bytes) (ks : KeySchedule) : KeySchedule :=
  mkKeySchedule (ks_suite ks) (steps ks) (early_secret ks) (handshake_secret ks) s (client_handshake ks)
    (server_handshake ks) (client_application ks) (server_application ks) (resumption_master ks)
    (exporter_master ks) (binder_key ks).
Definition set_client_handshake (k : TrafficKeys) (ks : KeySchedule) : KeySchedule :=
  mkKeySchedule (ks_suite ks) (steps ks) (early_secret ks) (handshake_secret ks) (master_secret ks) (Some k)
    (server_handshake ks) (client_application ks) (server_application ks) (resumption_master ks)
    (exporter_master ks) (binder_key ks).
Definition set_server_handshake (k : TrafficKeys) (ks : KeySchedule) : KeySchedule :=
  mkKeySchedule (ks_suite ks) (steps ks) (early_secret ks) (handshake_secret ks) (master_secret ks)
    (client_handshake ks) (Some k) (client_application ks) (server_application ks) (resumption_master ks)
    (exporter_master ks) (binder_key ks).
Definition set_client_application (k : TrafficKeys) (ks : KeySchedule) : KeySchedule :=
  mkKeySchedule (ks_suite ks) (steps ks) (early_secret ks) (handshake_secret ks) (master_secret ks)
    (client_handshake ks) (server_handshake ks) (Some k) (server_application ks) (resumption_master ks)
    (exporter_master ks) (binder_key ks).
Definition set_server_application (k : TrafficKeys) (ks : KeySchedule) : KeySchedule :=
  mkKeySchedule (ks_suite ks) (steps ks) (early_secret ks) (handshake_secret ks) (master_secret ks)
    (client_handshake ks) (server_handshake ks) (client_application ks) (Some k) (resumption_master ks)
    (exporter_master ks) (binder_key ks).
Definition set_resumption_master (s : bytes) (ks : KeySchedule) : KeySchedule :=
  mkKeySchedule (ks_suite ks) (steps ks) (early_secret ks) (handshake_secret ks) (master_secret ks)
    (client_handshake ks) (server_handshake ks) (client_application ks) (server_application ks) (Some s)
    (exporter_master ks) (binder_key ks).
Definition set_exporter_master (s : bytes) (ks : KeySchedule) : KeySchedule :=
  mkKeySchedule (ks_suite ks) (steps ks) (early_secret ks) (handshake_secret ks) (master_secret ks)
    (client_handshake ks) (server_handshake ks) (client_application ks) (server_application ks)
    (resumption_master ks) (Some s) (binder_key ks).
Definition set_binder_key (s : bytes) (ks : KeySchedule) : KeySchedule :=
  mkKeySchedule (ks_suite ks) (steps ks) (early_secret ks) (handshake_secret ks) (master_secret ks)
    (client_handshake ks) (server_handshake ks) (client_application ks) (server_application ks)
    (resumption_master ks) (exporter_master ks) (Some s).

Definition KeySchedule_new (suite : Suite) (psk : option bytes) : KeySchedule :=
  let h := s_hash suite in
  let ikm := default (zeros h) psk in
  let early_secret := hkdf_extract h (zeros h) ikm in
  record_step (str "HKDF-Extract(0, PSK)") (str "Early Secret") None early_secret
    (mkKeySchedule suite [] early_secret [] [] None None None None None None None).

Definition derive_binder_key : K bytes :=
  ks ← get;
  let h := s_hash (ks_suite ks) in
  let empty := empty_hash h in
  key ← try_ (derive_secret h (early_secret ks) (str "res binder") empty);
  _ ← record_ (str "res binder") (str "binder_key") (Some empty) key;
  _ ← modify (set_binder_key key);
  mret key.

Definition derive_early_traffic (transcript_hash : bytes) : K TrafficKeys :=
  ks ← get;
  let h := s_hash (ks_suite ks) in
  secret ← try_ (derive_secret h (early_secret ks) (str "c e traffic") transcript_hash);
  _ ← record_ (str "c e traffic") (str "client_early_traffic_secret") (Some transcript_hash) secret;
  try_ (TrafficKeys_derive (ks_suite ks) secret).

Definition enter_handshake (shared_secret transcript_hash : bytes) : K unit :=
  ks ← get;
  let h := s_hash (ks_suite ks) in
  let empty := empty_hash h in
  derived ← try_ (derive_secret h (early_secret ks) (str "derived") empty);
  _ ← record_ (str "derived") (str "Derived Secret") (Some empty) derived;
  let handshake_secret := hkdf_extract h derived shared_secret in
  _ ← record_ (str "HKDF-Extract(Derived, (EC)DHE)") (str "Handshake Secret") None handshake_secret;
  _ ← modify (set_handshake_secret handshake_secret);
  c ← try_ (derive_secret h handshake_secret (str "c hs traffic") transcript_hash);
  _ ← record_ (str "c hs traffic") (str "client_handshake_traffic_secret") (Some transcript_hash) c;
  s ← try_ (derive_secret h handshake_secret (str "s hs traffic") transcript_hash);
  _ ← record_ (str "s hs traffic") (str "server_handshake_traffic_secret") (Some transcript_hash) s;
  ck ← try_ (TrafficKeys_derive (ks_suite ks) c);
  _ ← modify (set_client_handshake ck);
  sk ← try_ (TrafficKeys_derive (ks_suite ks) s);
  _ ← modify (set_server_handshake sk);
  derived2 ← try_ (derive_secret h handshake_secret (str "derived") empty);
  _ ← record_ (str "derived") (str "Derived Secret") (Some empty) derived2;
  let master := hkdf_extract h derived2 (zeros h) in
  _ ← record_ (str "HKDF-Extract(Derived, 0)") (str "Master Secret") None master;
  modify (set_master_secret master).

Definition enter_application (transcript_hash : bytes) : K unit :=
  ks ← get;
  let h := s_hash (ks_suite ks) in
  let master := master_secret ks in
  c ← try_ (derive_secret h master (str "c ap traffic") transcript_hash);
  _ ← record_ (str "c ap traffic") (str "client_application_traffic_secret_0") (Some transcript_hash) c;
  s ← try_ (derive_secret h master (str "s ap traffic") transcript_hash);
  _ ← record_ (str "s ap traffic") (str "server_application_traffic_secret_0") (Some transcript_hash) s;
  e ← try_ (derive_secret h master (str "exp master") transcript_hash);
  _ ← record_ (str "exp master") (str "exporter_master_secret") (Some transcript_hash) e;
  ck ← try_ (TrafficKeys_derive (ks_suite ks) c);
  _ ← modify (set_client_application ck);
  sk ← try_ (TrafficKeys_derive (ks_suite ks) s);
  _ ← modify (set_server_application sk);
  modify (set_exporter_master e).

Definition derive_resumption_master (transcript_hash : bytes) : K bytes :=
  ks ← get;
  let h := s_hash (ks_suite ks) in
  r ← try_ (derive_secret h (master_secret ks) (str "res master") transcript_hash);
  _ ← record_ (str "res master") (str "resumption_master_secret") (Some transcript_hash) r;
  _ ← modify (set_resumption_master r);
  mret r.

Definition resumption_psk (ks : KeySchedule) (ticket_nonce : bytes) : TlsResult bytes :=
  rms ← ok_or (resumption_master ks) (Crypto (str "no resumption_master_secret has been derived"));
  let h := s_hash (ks_suite ks) in
  hkdf_expand_label h rms (str "resumption") ticket_nonce (HashAlg_len h).

Definition verify_data (ks : KeySchedule) (keys : TrafficKeys) (transcript_hash : bytes) : TlsResult bytes :=
  fk ← finished_key keys;
  Ok (hmac (s_hash (ks_suite ks)) fk transcript_hash).

(** The arrow of the reports is U+2192. *)
Definition arrow : bytes := [x20; xe2; x86; x92; x20].

Definition last_label (ks : KeySchedule) : bytes :=
  match last (steps ks) with
  | Some s => st_label s ++ arrow ++ st_output s
  | None => str "nothing derived yet"
  end.

Definition report_line (s : Step) : bytes :=
  let over := match st_transcript_hash s with
              | Some h => str " over transcript " ++ hex_prefix h 8
              | None => []
              end in
  pad_right 32 (st_label s) ++ arrow ++ pad_right 38 (st_output s) ++ str " " ++
  hex_prefix (st_secret s) 8 ++ over.
Definition report_lines (ks : KeySchedule) : list bytes := map report_line (steps ks).
End crypto.

(** ** A library that obeys the laws

  No cryptography: hashes and MACs are zeros, a tag is sixteen zeros.  It shows
  that the laws can hold, and lets the definitions run. *)

Definition toy_encrypt (a : AeadAlg) (k n aad p : bytes) : option bytes := Some (p ++ replicate 16 x00).
Definition toy_decrypt (a : AeadAlg) (k n aad c : bytes) : option bytes :=
  if decide (drop (length c - 16) c = replicate 16 x00) then Some (take (length c - 16) c) else None.

#[local] Instance toy_lib : CryptoLib := {|
  digest h d := replicate (Z.to_nat (HashAlg_len h)) x00;
  hmac h k d := replicate (Z.to_nat (HashAlg_len h)) x00;
  aead_key a k := bool_decide (zlen k = key_len a);
  aead_encrypt := toy_encrypt;
  aead_decrypt := toy_decrypt
|}.

#[local] Instance toy_laws : CryptoLaws toy_lib.
Proof.
  split; cbn [digest hmac aead_key aead_encrypt aead_decrypt toy_lib].
  - intros h d. rewrite zlen_replicate. by destruct h.
  - intros h k d. rewrite zlen_replicate. by destruct h.
  - done.
  - intros a k n aad p _ _ _. eexists. split; [reflexivity|]. by rewrite zlen_app, zlen_replicate.
  - intros a k n aad c p _ _. unfold toy_decrypt, toy_encrypt. split.
    + case_decide as Hd; [|done]. intros [= <-]. f_equal. rewrite <- Hd at 1. by rewrite take_drop.
    + intros <-%(inj Some). rewrite length_app, length_replicate, Nat.add_sub.
      by rewrite drop_app_length, take_app_length, decide_True.
  - intros a k n aad c p. unfold toy_decrypt. case_decide as Hd; [|done]. intros [= <-].
    apply (f_equal length) in Hd. rewrite length_drop, length_replicate in Hd.
    unfold zlen, tag_len. rewrite length_take. lia.
Qed.
