(* ===== verification/TlsKeys.v ===== *)
(** * The key schedule follows RFC 8446

  HKDF-Expand against the block stream of RFC 5869, the labels and what
  Derive-Secret binds, the record nonces, and the schedule against the diagram
  of RFC 8446 section 7.1. *)

From S2P Require Import Prelude Text TlsTypes TlsCrypto.

Section keys.
Context {lib : CryptoLib}.

(** ** HKDF-Expand *)

(** The blocks [T(1), T(2), ...] of RFC 5869. *)
Fixpoint block (alg : HashAlg) (prk info : bytes) (k : nat) : bytes :=
  match k with
  | O => []
  | S k => hmac alg prk (block alg prk info k ++ info ++ [z2b (Z.of_nat (S k))])
  end.

(** All the output there is: 255 blocks. *)
Definition stream (alg : HashAlg) (prk info : bytes) : bytes :=
  concat (map (block alg prk info) (seq 1 255)).

Lemma expand_loop_blocks alg prk info n k out :
  expand_loop alg prk info n (Z.of_nat (S k)) (block alg prk info k) out =
  out ++ concat (map (block alg prk info) (seq (S k) n)).
Proof.
  revert k out. induction n as [|n IH]; intros k out; cbn [expand_loop seq map concat].
  - by rewrite app_nil_r.
  - replace (Z.of_nat (S k) + 1) with (Z.of_nat (S (S k))) by lia.
    change (hmac alg prk (block alg prk info k ++ info ++ [z2b (Z.of_nat (S k))]))
      with (block alg prk info (S k)).
    by rewrite IH, app_assoc.
Qed.

Lemma HashAlg_len_pos alg : 32 <= HashAlg_len alg.
Proof. destruct alg; cbn; lia. Qed.

Lemma div_ceil_bounds a b : 0 <= a -> 0 < b -> a <= b * div_ceil a b < a + b.
Proof.
  intros Ha Hb. unfold div_ceil. pose proof (Z.div_mod (a + b - 1) b ltac:(lia)).
  pose proof (Z.mod_pos_bound (a + b - 1) b ltac:(lia)). lia.
Qed.

Lemma zlen_blocks {laws : CryptoLaws lib} alg prk info k n :
  zlen (concat (map (block alg prk info) (seq (S k) n))) = HashAlg_len alg * Z.of_nat n.
Proof.
  rewrite (zlen_concat_rows _ (HashAlg_len alg)).
  - unfold zlen. by rewrite length_map, length_seq.
  - apply Forall_map, Forall_forall. intros i Hi. apply elem_of_seq in Hi.
    destruct i as [|i]; [lia|]. apply hmac_len.
Qed.

Lemma hkdf_expand_stream {laws : CryptoLaws lib} alg prk info length :
  0 <= length <= 255 * HashAlg_len alg ->
  hkdf_expand alg prk info length = Ok (ztake length (stream alg prk info)).
Proof.
  intros Hl. pose proof (HashAlg_len_pos alg). unfold hkdf_expand.
  pose proof (div_ceil_bounds length (HashAlg_len alg) ltac:(lia) ltac:(lia)) as Hn.
  set (n := div_ceil length (HashAlg_len alg)) in *.
  assert (0 <= n <= 255) by nia.
  rewrite (proj2 (Z.ltb_ge _ _)) by lia. f_equal.
  pose proof (expand_loop_blocks alg prk info (Z.to_nat n) 0 []) as E.
  change (Z.of_nat 1) with 1 in E. cbn [block app] in E. rewrite E.
  unfold stream, ztake. replace 255%nat with (Z.to_nat n + (255 - Z.to_nat n))%nat by lia.
  rewrite seq_app, map_app, concat_app. cbn [app]. rewrite take_app_le; [done|].
  pose proof (zlen_blocks alg prk info 0 (Z.to_nat n)) as Hz. unfold zlen in Hz. lia.
Qed.

Lemma zlen_stream {laws : CryptoLaws lib} alg prk info :
  zlen (stream alg prk info) = 255 * HashAlg_len alg.
Proof. unfold stream. rewrite zlen_blocks. lia. Qed.

(** One block is enough for every secret, key and IV of the schedule. *)
Definition expand_one (alg : HashAlg) (prk info : bytes) (length : Z) : bytes :=
  ztake length (hmac alg prk (info ++ [x01])).

Lemma hkdf_expand_one alg prk info length :
  0 < length <= HashAlg_len alg ->
  hkdf_expand alg prk info length = Ok (expand_one alg prk info length).
Proof.
  intros Hl. unfold hkdf_expand.
  assert (div_ceil length (HashAlg_len alg) = 1) as ->.
  { unfold div_ceil. symmetry. apply (Z.div_unique_pos _ _ _ (length - 1)); lia. }
  reflexivity.
Qed.

(** ** Labels *)

Lemma be_bytes_inj n w a b : w = 8 * Z.of_nat n -> in_u w a -> in_u w b -> be_bytes n a = be_bytes n b -> a = b.
Proof. intros Hw Ha Hb E%(f_equal be_val). by rewrite !(be_val_u n w) in E. Qed.

Lemma z2b_inj a b : 0 <= a < 256 -> 0 <= b < 256 -> z2b a = z2b b -> a = b.
Proof. intros Ha Hb E%(f_equal b2z). by rewrite !z2b_small in E. Qed.

Lemma zlen_inj_app {A} (a b c d : list A) : zlen a = zlen c -> a ++ b = c ++ d -> a = c /\ b = d.
Proof. unfold zlen. intros Hl. apply app_inj_1. lia. Qed.

(** What the length prefixes can hold. *)
Definition label_ok (label context : bytes) (length : Z) : Prop :=
  zlen label <= 249 /\ zlen context <= 255 /\ in_u 16 length.

Lemma hkdf_label_inj l c n l' c' n' :
  label_ok l c n -> label_ok l' c' n' -> hkdf_label l c n = hkdf_label l' c' n' ->
  l = l' /\ c = c' /\ n = n'.
Proof.
  intros (Hl & Hc & Hn) (Hl' & Hc' & Hn') E. unfold hkdf_label in E.
  pose proof (zlen_nonneg l). pose proof (zlen_nonneg c). pose proof (zlen_nonneg l'). pose proof (zlen_nonneg c').
  assert (Hf : forall x, zlen (tls13_ ++ x) = 6 + zlen x) by (intros x; by rewrite zlen_app).
  unfold wrap_u in E. rewrite !Z.mod_small in E by done.
  apply zlen_inj_app in E as [En E]; [|by rewrite !zlen_be_bytes].
  apply (be_bytes_inj 2 16) in En as ->; [|done..].
  apply zlen_inj_app in E as [Ez E]; [|done].
  assert (zlen (tls13_ ++ l) = zlen (tls13_ ++ l')) as Ez'.
  { apply z2b_inj; [rewrite Hf; lia..|]. by apply (f_equal (default x00 ∘ head)) in Ez. }
  clear Ez. rename Ez' into Ez.
  rewrite <- !app_assoc in E. apply (zlen_inj_app tls13_) in E as [_ E]; [|done].
  rewrite !Hf in Ez. apply zlen_inj_app in E as [-> E]; [|lia].
  by injection E as _ ->.
Qed.

(** A pair of HMAC inputs with one output. *)
Definition hmac_collision (alg : HashAlg) : Prop :=
  exists k d k' d', (k, d) <> (k', d') /\ hmac alg k d = hmac alg k' d'.

Definition ds (alg : HashAlg) (secret label transcript_hash : bytes) : bytes :=
  expand_one alg secret (hkdf_label label transcript_hash (HashAlg_len alg)) (HashAlg_len alg).

Lemma derive_secret_eq alg secret label h : derive_secret alg secret label h = Ok (ds alg secret label h).
Proof. apply hkdf_expand_one. pose proof (HashAlg_len_pos alg). lia. Qed.

Lemma ds_binds {laws : CryptoLaws lib} alg s l h s' l' h' :
  label_ok l h (HashAlg_len alg) -> label_ok l' h' (HashAlg_len alg) ->
  ds alg s l h = ds alg s' l' h' -> (s, l, h) = (s', l', h') \/ hmac_collision alg.
Proof.
  intros Hl Hl' E. unfold ds, expand_one in E.
  assert (Hall : forall k d, ztake (HashAlg_len alg) (hmac alg k d) = hmac alg k d).
  { intros k d. unfold ztake. apply take_ge. pose proof (hmac_len alg k d) as H. unfold zlen in H. lia. }
  rewrite !Hall in E.
  set (d := hkdf_label l h _ ++ [x01]) in E. set (d' := hkdf_label l' h' _ ++ [x01]) in E.
  destruct (decide ((s, d) = (s', d'))) as [Hd|Hd]; [left|right; unfold hmac_collision; eauto 8].
  apply pair_equal_spec in Hd as [-> Hd]. unfold d, d' in Hd. apply (inj (fun x => x ++ [x01])) in Hd.
  by apply hkdf_label_inj in Hd as (-> & -> & _).
Qed.

(** ** Traffic keys *)

Definition keys_of (suite : Suite) (secret : bytes) : TrafficKeys :=
  let h := s_hash suite in
  mkTrafficKeys secret
    (expand_one h secret (hkdf_label (str "key") [] (key_len (s_aead suite))) (key_len (s_aead suite)))
    (expand_one h secret (hkdf_label (str "iv") [] (iv_len (s_aead suite))) (iv_len (s_aead suite)))
    (s_aead suite) h.

Lemma TrafficKeys_derive_eq suite secret : TrafficKeys_derive suite secret = Ok (keys_of suite secret).
Proof.
  unfold TrafficKeys_derive, hkdf_expand_label. pose proof (HashAlg_len_pos (s_hash suite)).
  rewrite (hkdf_expand_one _ _ _ (key_len _)) by (destruct (s_aead suite); cbn [key_len]; lia).
  cbn [mbind result_bind]. rewrite (hkdf_expand_one _ _ _ (iv_len _)) by (unfold iv_len; lia). done.
Qed.

(** Keys and IV of the sizes the AEAD wants. *)
Definition keys_ok (k : TrafficKeys) : Prop :=
  zlen (tk_key k) = key_len (tk_aead k) /\ zlen (tk_iv k) = iv_len (tk_aead k).

Lemma zlen_expand_one {laws : CryptoLaws lib} alg prk info n :
  0 <= n <= HashAlg_len alg -> zlen (expand_one alg prk info n) = n.
Proof.
  intros Hn. unfold expand_one, ztake. pose proof (hmac_len alg prk (info ++ [x01])) as H.
  unfold zlen in *. rewrite length_take. lia.
Qed.

Lemma keys_of_ok {laws : CryptoLaws lib} suite secret : keys_ok (keys_of suite secret).
Proof.
  pose proof (HashAlg_len_pos (s_hash suite)).
  split; cbn [keys_of tk_key tk_iv tk_aead]; apply zlen_expand_one; destruct (s_aead suite); unfold iv_len; cbn [key_len]; lia.
Qed.

Lemma updated_ok {laws : CryptoLaws lib} k : exists k', updated k = Ok k' /\ keys_ok k' /\ tk_aead k' = tk_aead k.
Proof.
  unfold updated, hkdf_expand_label. pose proof (HashAlg_len_pos (tk_hash k)).
  rewrite hkdf_expand_one by lia. cbn [mbind result_bind]. rewrite TrafficKeys_derive_eq.
  eexists. split; [done|]. split; [apply keys_of_ok|done].
Qed.

(** ** Nonces *)

Lemma byte_xor_b2z a b : b2z (byte_xor a b) = Z.lxor (b2z a) (b2z b).
Proof.
  unfold byte_xor. apply z2b_small. pose proof (b2z_range a). pose proof (b2z_range b).
  assert (0 <= Z.lxor (b2z a) (b2z b)) by (apply Z.lxor_nonneg; lia). split; [done|].
  destruct (Z.eq_dec (Z.lxor (b2z a) (b2z b)) 0) as [->|]; [lia|].
  apply (Z.log2_lt_pow2 _ 8); [lia|]. eapply Z.le_lt_trans; [apply Z.log2_lxor; lia|].
  apply Z.max_lub_lt; (destruct (Z.eq_dec (b2z a) 0), (Z.eq_dec (b2z b) 0));
    try (rewrite ?e, ?e0; cbn; lia); apply Z.log2_lt_pow2; lia.
Qed.

#[local] Instance byte_xor_inj a : Inj (=) (=) (byte_xor a).
Proof.
  intros b c E. apply (f_equal b2z) in E. rewrite !byte_xor_b2z in E. apply (inj b2z).
  rewrite <- (Z.lxor_0_l (b2z b)), <- (Z.lxor_0_l (b2z c)), <- (Z.lxor_nilpotent (b2z a)).
  by rewrite !Z.lxor_assoc, E.
Qed.

(** [a ++ s ++ c] with [x] XORed into the middle. *)
Lemma xor_from_mid (a m c x : bytes) :
  length x = length m ->
  xor_from (length a) x (a ++ m ++ c) = a ++ zip_with byte_xor m x ++ c.
Proof.
  revert a m. induction x as [|b x IH]; intros a [|y m] Hl; try done.
  cbn [xor_from zip_with]. cbn [length] in Hl. injection Hl as Hl.
  assert (alter (λ z, byte_xor z b) (length a) (a ++ (y :: m) ++ c) = (a ++ [byte_xor y b]) ++ m ++ c) as ->.
  { rewrite <- (Nat.add_0_r (length a)), alter_app_r. cbn. by rewrite <- app_assoc. }
  replace (S (length a)) with (length (a ++ [byte_xor y b])) by (rewrite length_app; simpl; lia).
  rewrite IH by done. by rewrite <- app_assoc.
Qed.

(** The static IV with the sequence number XORed into its right end. *)
Lemma nonce_eq k s : zlen (tk_iv k) = 12 ->
  nonce k s = take 4 (tk_iv k) ++ zip_with byte_xor (drop 4 (tk_iv k)) (be_bytes 8 s).
Proof.
  intros Hl. assert (length (tk_iv k) = 12%nat) as Hl' by (unfold zlen in Hl; lia). unfold nonce.
  assert (length (tk_iv k) - 8 = length (take 4 (tk_iv k)))%nat as -> by (rewrite length_take; lia).
  rewrite <- (take_drop 4 (tk_iv k)) at 2. rewrite <- (app_nil_r (drop 4 (tk_iv k))) at 1.
  rewrite xor_from_mid, app_nil_r; [done|]. rewrite length_be_bytes, length_drop. lia.
Qed.

Lemma zlen_nonce k s : zlen (tk_iv k) = 12 -> zlen (nonce k s) = 12.
Proof.
  intros Hl. rewrite nonce_eq by done. unfold zlen in *.
  rewrite length_app, length_take, length_zip_with, length_drop, length_be_bytes. lia.
Qed.

Lemma zip_xor_inj m x y :
  length x = length m -> length y = length m ->
  zip_with byte_xor m x = zip_with byte_xor m y -> x = y.
Proof.
  revert x y. induction m as [|a m IH]; intros [|b x] [|c y]; try done. cbn. intros [= Hx] [= Hy] [= E1 E2].
  apply (inj (byte_xor a)) in E1 as ->. f_equal. auto.
Qed.

Lemma nonce_inj k s s' :
  zlen (tk_iv k) = 12 -> in_u 64 s -> in_u 64 s' -> nonce k s = nonce k s' -> s = s'.
Proof.
  intros Hl Hs Hs' E. rewrite !nonce_eq in E by done. apply app_inv_head in E.
  apply zip_xor_inj in E; [by apply (be_bytes_inj 8 64) in E|..];
    rewrite length_be_bytes, length_drop; unfold zlen in Hl; lia.
Qed.

(** ** The schedule *)

(** The diagram of RFC 8446 section 7.1. *)
Definition rfc_early (alg : HashAlg) (psk : option bytes) : bytes := hmac alg (zeros alg) (default (zeros alg) psk).
Definition rfc_next (alg : HashAlg) (secret ikm : bytes) : bytes :=
  hmac alg (ds alg secret (str "derived") (empty_hash alg)) ikm.

Lemma bind_try {A B} (r : TlsResult A) (f : A -> K B) a ks : r = Ok a -> (try_ r ≫= f) ks = f a ks.
Proof. by intros ->. Qed.
Lemma bind_modify {B} g (f : unit -> K B) ks : (modify g ≫= f) ks = f tt (g ks).
Proof. done. Qed.
Lemma bind_record {B} l o t s (f : unit -> K B) ks :
  (record_ l o t s ≫= f) ks = f tt (record_step l o t s ks).
Proof. done. Qed.
Lemma bind_get {B} (f : KeySchedule -> K B) ks : (get ≫= f) ks = f ks ks.
Proof. done. Qed.

(** Follow one method: the fallible derivations all succeed. *)
Ltac derivations :=
  cbv zeta;
  repeat (rewrite bind_get || rewrite bind_record || rewrite bind_modify ||
          rewrite (bind_try _ _ _ _ (derive_secret_eq _ _ _ _)) ||
          rewrite (bind_try _ _ _ _ (TrafficKeys_derive_eq _ _))).

(** What [enter_handshake] leaves in the schedule. *)
Definition after_handshake (suite : Suite) (psk : option bytes) (dhe h1 : bytes) (ks : KeySchedule) : Prop :=
  let alg := s_hash suite in
  let early := rfc_early alg psk in
  let hs := rfc_next alg early dhe in
  ks_suite ks = suite /\ early_secret ks = early /\ handshake_secret ks = hs /\
  master_secret ks = rfc_next alg hs (zeros alg) /\
  client_handshake ks = Some (keys_of suite (ds alg hs (str "c hs traffic") h1)) /\
  server_handshake ks = Some (keys_of suite (ds alg hs (str "s hs traffic") h1)) /\
  map st_label (steps ks) =
    [str "HKDF-Extract(0, PSK)"; str "derived"; str "HKDF-Extract(Derived, (EC)DHE)"; str "c hs traffic";
     str "s hs traffic"; str "derived"; str "HKDF-Extract(Derived, 0)"].

Lemma enter_handshake_ok suite psk dhe h1 :
  exists ks, enter_handshake dhe h1 (KeySchedule_new suite psk) = (Ok tt, ks) /\
    after_handshake suite psk dhe h1 ks.
Proof. unfold enter_handshake. derivations. eexists. split; [reflexivity|]. by repeat split. Qed.

(** What [enter_application] and [derive_resumption_master] add. *)
Lemma enter_application_ok suite ms ks h2 :
  ks_suite ks = suite -> master_secret ks = ms ->
  exists ks', enter_application h2 ks = (Ok tt, ks') /\
    client_application ks' = Some (keys_of suite (ds (s_hash suite) ms (str "c ap traffic") h2)) /\
    server_application ks' = Some (keys_of suite (ds (s_hash suite) ms (str "s ap traffic") h2)) /\
    exporter_master ks' = Some (ds (s_hash suite) ms (str "exp master") h2) /\
    (ks_suite ks', early_secret ks', handshake_secret ks', master_secret ks',
     client_handshake ks', server_handshake ks') =
    (ks_suite ks, early_secret ks, handshake_secret ks, master_secret ks,
     client_handshake ks, server_handshake ks) /\
    map st_label (steps ks') =
      map st_label (steps ks) ++ [str "c ap traffic"; str "s ap traffic"; str "exp master"].
Proof.
  intros <- <-. unfold enter_application. derivations. eexists. split; [reflexivity|].
  repeat split. cbn [steps record_step set_exporter_master set_server_application set_client_application].
  by rewrite !map_app, <- !app_assoc.
Qed.

Lemma derive_resumption_master_ok ks h3 :
  let r := ds (s_hash (ks_suite ks)) (master_secret ks) (str "res master") h3 in
  derive_resumption_master h3 ks =
    (Ok r, set_resumption_master r
             (record_step (str "res master") (str "resumption_master_secret") (Some h3) r ks)).
Proof. unfold derive_resumption_master. derivations. reflexivity. Qed.
End keys.

(** HKDF-Expand returns the first [length] bytes of the block stream of RFC
  5869, all of them, for every length up to 255 blocks, and refuses every longer
  one; so a shorter output is a prefix of a longer one. *)
Theorem hkdf_expand_is_rfc5869 {lib : CryptoLib} {laws : CryptoLaws lib} alg prk info length :
  0 <= length ->
  (length <= 255 * HashAlg_len alg ->
     hkdf_expand alg prk info length = Ok (ztake length (stream alg prk info)) /\
     zlen (ztake length (stream alg prk info)) = length) /\
  (255 * HashAlg_len alg < length -> exists t, hkdf_expand alg prk info length = Err (Crypto t)).
Proof.
  intros Hl. pose proof (HashAlg_len_pos alg). split.
  - intros Hm. split; [by apply hkdf_expand_stream|]. pose proof (zlen_stream alg prk info) as Hz.
    unfold ztake, zlen in *. rewrite length_take. lia.
  - intros Hm. unfold hkdf_expand. pose proof (div_ceil_bounds length (HashAlg_len alg) ltac:(lia) ltac:(lia)).
    rewrite (proj2 (Z.ltb_lt _ _)) by nia. by eexists.
Qed.

Lemma hkdf_expand_is_rfc5869_witness :
  let lib := toy_lib in
  (exists t, hkdf_expand Sha384 [x01] [x02] 12241 = Err (Crypto t)) /\
  hkdf_expand Sha256 [x01] [x02] 40 = Ok (ztake 40 (stream Sha256 [x01] [x02])).
Proof.
  intros lib. split.
  - apply (hkdf_expand_is_rfc5869 (laws := toy_laws) Sha384 [x01] [x02] 12241); [lia|cbn; lia].
  - apply (hkdf_expand_is_rfc5869 (laws := toy_laws) Sha256 [x01] [x02] 40); [lia|cbn; lia].
Defined.

(** A derived secret binds everything it was derived from: two calls of
  [derive_secret] never fail, and give one output only for the same parent
  secret, label and transcript hash - or they exhibit two HMAC inputs with one
  output. *)
Theorem derive_secret_binds {lib : CryptoLib} {laws : CryptoLaws lib} alg s l h s' l' h' :
  zlen l <= 249 -> zlen h <= 255 -> zlen l' <= 249 -> zlen h' <= 255 ->
  exists k k', derive_secret alg s l h = Ok k /\ derive_secret alg s' l' h' = Ok k' /\
    (k = k' -> (s, l, h) = (s', l', h') \/ hmac_collision alg).
Proof.
  intros. exists (ds alg s l h), (ds alg s' l' h'). rewrite !derive_secret_eq. split; [done|]. split; [done|].
  apply ds_binds; by (split_and!; [done|done|destruct alg; done]).
Qed.

Lemma derive_secret_binds_witness :
  let lib := toy_lib in
  exists k k', derive_secret Sha256 [x01] (str "c hs traffic") [] = Ok k /\
    derive_secret Sha256 [x01] (str "s hs traffic") [] = Ok k' /\
    (k = k' -> ([x01], str "c hs traffic", []) = ([x01], str "s hs traffic", [] : bytes) \/ hmac_collision Sha256).
Proof.
  intros lib. apply (derive_secret_binds (laws := toy_laws)); vm_compute; congruence.
Defined.

(** Whatever the PSK, the shared secret and the three transcript hashes, the
  schedule runs to its end and leaves exactly the secrets and traffic keys of
  the RFC 8446 diagram, with a recorded step per derivation. *)
Theorem schedule_follows_rfc {lib : CryptoLib} suite psk dhe h1 h2 h3 :
  let alg := s_hash suite in
  let early := rfc_early alg psk in
  let hs := rfc_next alg early dhe in
  let ms := rfc_next alg hs (zeros alg) in
  exists ks,
    (_ ← enter_handshake dhe h1; _ ← enter_application h2; derive_resumption_master h3)
      (KeySchedule_new suite psk) = (Ok (ds alg ms (str "res master") h3), ks) /\
    (early_secret ks, handshake_secret ks, master_secret ks) = (early, hs, ms) /\
    client_handshake ks = Some (keys_of suite (ds alg hs (str "c hs traffic") h1)) /\
    server_handshake ks = Some (keys_of suite (ds alg hs (str "s hs traffic") h1)) /\
    client_application ks = Some (keys_of suite (ds alg ms (str "c ap traffic") h2)) /\
    server_application ks = Some (keys_of suite (ds alg ms (str "s ap traffic") h2)) /\
    exporter_master ks = Some (ds alg ms (str "exp master") h2) /\
    resumption_master ks = Some (ds alg ms (str "res master") h3) /\
    length (steps ks) = 11%nat.
Proof.
  intros alg early hs ms.
  destruct (enter_handshake_ok suite psk dhe h1) as (k1 & R1 & Hsu & He & Hh & Hm & Hc & Hs & Hl1).
  destruct (enter_application_ok suite ms k1 h2 Hsu Hm)
    as (k2 & R2 & Hca & Hsa & Hex & Hkeep & Hl2).
  apply pair_equal_spec in Hkeep as [Hkeep Ks]. apply pair_equal_spec in Hkeep as [Hkeep Kc].
  apply pair_equal_spec in Hkeep as [Hkeep Km]. apply pair_equal_spec in Hkeep as [Hkeep Kh].
  apply pair_equal_spec in Hkeep as [Ku Ke].
  pose proof (derive_resumption_master_ok k2 h3) as R3. cbv zeta in R3. rewrite Ku, Km, Hsu, Hm in R3.
  eexists. split.
  { unfold mbind, K_bind in *. rewrite R1, R2. exact R3. }
  cbn [early_secret handshake_secret master_secret client_handshake server_handshake client_application
       server_application exporter_master resumption_master steps set_resumption_master record_step].
  rewrite Ke, Kh, Km, Kc, Ks, He, Hh, Hm. split_and!; try done.
  rewrite length_app, <- (length_map st_label (steps k2)), Hl2, Hl1. done.
Qed.
