(* ===== verification/TlsBuf.v ===== *)
(** * The TLS byte grammar ([tlstest/src/tls/buf.rs])

  [Writer] methods are functions on the writer, [Reader] methods actions of a
  state-and-error monad.  [parses] and [finishes] say of an action exactly which
  bytes it accepts; the message parsers are composed from them. *)

From S2P Require Import Prelude Text TlsTypes.

(** ** Writer *)

Record Writer : Type := mkWriter { w_bytes : bytes }.

Definition Writer_new : Writer := mkWriter [].
Definition Writer_from (bs : bytes) : Writer := mkWriter bs.
Definition Writer_len (w : Writer) : Z := zlen (w_bytes w).
Definition Writer_is_empty (w : Writer) : bool := bool_decide (w_bytes w = []).

Definition raw (v : bytes) (w : Writer) : Writer := mkWriter (w_bytes w ++ v).
Definition w_u8 (v : byte) (w : Writer) : Writer := raw [v] w.
Definition w_u16 (v : Z) (w : Writer) : Writer := raw (be_bytes 2 v) w.
(** [v.to_be_bytes()[1..]] of a [u32]. *)
Definition w_u24 (v : Z) (w : Writer) : Writer := raw (drop 1 (be_bytes 4 v)) w.
Definition w_u32 (v : Z) (w : Writer) : Writer := raw (be_bytes 4 v) w.
Definition w_u64 (v : Z) (w : Writer) : Writer := raw (be_bytes 8 v) w.

Definition w_vec8 (v : bytes) (w : Writer) : Writer := raw v (w_u8 (z2b (zlen v)) w).
Definition w_vec16 (v : bytes) (w : Writer) : Writer := raw v (w_u16 (wrap_u 16 (zlen v)) w).
Definition w_vec24 (v : bytes) (w : Writer) : Writer := raw v (w_u24 (wrap_u 32 (zlen v)) w).

Definition nest8 (f : Writer -> Writer) (w : Writer) : Writer := w_vec8 (w_bytes (f Writer_new)) w.
Definition nest16 (f : Writer -> Writer) (w : Writer) : Writer := w_vec16 (w_bytes (f Writer_new)) w.
Definition nest24 (f : Writer -> Writer) (w : Writer) : Writer := w_vec24 (w_bytes (f Writer_new)) w.

(** [bytes[a..a + n].copy_from_slice(v)]. *)
Definition overwrite (bs : bytes) (a : nat) (v : bytes) : bytes :=
  take a bs ++ v ++ drop (a + length v) bs.

Definition patch_u16 (offset : nat) (value : Z) (w : Writer) : Writer :=
  if (offset + 2 <=? length (w_bytes w))%nat
  then mkWriter (overwrite (w_bytes w) offset (be_bytes 2 value)) else w.

Definition patch_u24 (offset : nat) (value : Z) (w : Writer) : Writer :=
  if (offset + 3 <=? length (w_bytes w))%nat
  then mkWriter (overwrite (w_bytes w) offset (drop 1 (be_bytes 4 value))) else w.

(** [for x in l { f(x, w) }]. *)
Definition w_each {A} (f : A -> Writer -> Writer) (l : list A) (w : Writer) : Writer :=
  foldl (fun w x => f x w) w l.

Declare Scope writer_scope.
Delimit Scope writer_scope with writer.
(** Method chaining: [w |> f |> g] is [w.f().g()]. *)
Notation "w |> f" := (f w) (at level 50, left associativity, only parsing) : writer_scope.

(** ** Reader *)

Record Reader : Type := mkReader { r_bytes : bytes; r_pos : Z; r_path : bytes }.

Definition Reader_new (bs path : bytes) : Reader := mkReader bs 0 path.
Definition left_ (r : Reader) : Z := Z.max 0 (zlen (r_bytes r) - r_pos r).
Definition done_ (r : Reader) : bool := left_ r =? 0.
Definition rest (r : Reader) : bytes := zdrop (Z.min (r_pos r) (zlen (r_bytes r))) (r_bytes r).

Definition M (A : Type) : Type := Reader -> TlsResult (A * Reader).
#[global] Instance M_ret : MRet M := fun A a r => Ok (a, r).
#[global] Instance M_bind : MBind M := fun A B f m r =>
  match m r with Ok (a, r) => f a r | Err e => Err e end.
Definition lift {A} (x : TlsResult A) : M A := fun r => a ← x; Ok (a, r).

Definition short_text (r : Reader) (field : bytes) (want : Z) : bytes :=
  r_path r ++ str "." ++ field ++ str ": wanted " ++ dec want ++ str " byte(s), " ++
  dec (left_ r) ++ str " left at offset " ++ dec (r_pos r).

Definition fail {A} (field : bytes) (want : Z) : M A := fun r => Err (Decode (short_text r field want)).

Definition advance (n : Z) (r : Reader) : Reader := mkReader (r_bytes r) (r_pos r + n) (r_path r).

Definition take (n : Z) (field : bytes) : M bytes := fun r =>
  if left_ r <? n then fail field n r
  else Ok (zslice (r_bytes r) (r_pos r) n, advance n r).

Definition u8 (field : bytes) : M byte := b ← take 1 field; mret (default x00 (head b)).
Definition u16 (field : bytes) : M Z := b ← take 2 field; mret (be_val b).
Definition u24 (field : bytes) : M Z := b ← take 3 field; mret (be_val (x00 :: b)).
Definition u32 (field : bytes) : M Z := b ← take 4 field; mret (be_val b).

Definition length_field (field : bytes) : bytes := field ++ str ".length".
Definition vec8 (field : bytes) : M bytes := n ← u8 (length_field field); take (b2z n) field.
Definition vec16 (field : bytes) : M bytes := n ← u16 (length_field field); take n field.
Definition vec24 (field : bytes) : M bytes := n ← u24 (length_field field); take n field.

Definition sub_path (r : Reader) (field : bytes) : bytes := r_path r ++ str "." ++ field.
Definition sub16 (field : bytes) : M Reader := fun r =>
  '(bs, r) ← vec16 field r; Ok (Reader_new bs (sub_path r field), r).
Definition sub8 (field : bytes) : M Reader := fun r =>
  '(bs, r) ← vec8 field r; Ok (Reader_new bs (sub_path r field), r).

Definition expect_done (field : bytes) : M unit := fun r =>
  if done_ r then Ok (tt, r)
  else Err (Decode (r_path r ++ str "." ++ field ++ str ": " ++ dec (left_ r) ++
                    str " byte(s) left over after the structure ended")).

(** A reader made for one parse and dropped after it. *)
Definition run {A} (m : M A) (bs path : bytes) : TlsResult A :=
  '(a, _) ← m (Reader_new bs path); Ok a.

(** [while !r.done() { out.push(item(out.len())) }]: every item takes at least a
  byte, so the number of bytes left bounds the rounds. *)
Fixpoint many_fuel {A} (fuel i : nat) (item : nat -> M A) : M (list A) := fun r =>
  if done_ r then Ok ([], r)
  else match fuel with
       | O => Ok ([], r)
       | S fuel => '(a, r) ← item i r; '(l, r) ← many_fuel fuel (S i) item r; Ok (a :: l, r)
       end.
Definition many {A} (item : nat -> M A) : M (list A) := fun r =>
  many_fuel (Z.to_nat (left_ r)) 0 item r.

(** ** What an action accepts *)

Definition valid (r : Reader) : Prop := 0 <= r_pos r <= zlen (r_bytes r).

(** [parses m enc P]: in any context, [m] accepts exactly the encodings of the
  values with [P], stops behind them, and otherwise reports a decoding error. *)
Record parses {A} (m : M A) (enc : A -> bytes) (P : A -> Prop) : Prop := mkParses {
  parses_complete : forall r a tl, valid r -> P a -> rest r = enc a ++ tl ->
    m r = Ok (a, advance (zlen (enc a)) r);
  parses_sound : forall r a r', valid r -> m r = Ok (a, r') ->
    P a /\ (exists tl, rest r = enc a ++ tl) /\ r' = advance (zlen (enc a)) r;
  parses_error : forall r e, valid r -> m r = Err e -> exists t, e = Decode t
}.

(** [finishes m enc P]: the same for an action that insists on reading
  everything. *)
Record finishes {A} (m : M A) (enc : A -> bytes) (P : A -> Prop) : Prop := mkFinishes {
  finishes_complete : forall r a, valid r -> P a -> rest r = enc a ->
    exists r', m r = Ok (a, r');
  finishes_sound : forall r a r', valid r -> m r = Ok (a, r') -> P a /\ rest r = enc a;
  finishes_error : forall r e, valid r -> m r = Err e -> exists t, e = Decode t
}.

(** [exact g enc P]: the same for a whole parser. *)
Record exact {A} (g : bytes -> TlsResult A) (enc : A -> bytes) (P : A -> Prop) : Prop := mkExact {
  exact_iff : forall bs a, g bs = Ok a <-> P a /\ bs = enc a;
  exact_error : forall bs e, g bs = Err e -> exists t, e = Decode t
}.

(** ** Readers *)

Lemma rest_valid r : valid r -> rest r = zdrop (r_pos r) (r_bytes r).
Proof. intros [? ?]. unfold rest. by rewrite Z.min_l. Qed.

Lemma zlen_unread r : valid r -> zlen (rest r) = left_ r.
Proof.
  intros Hv. rewrite rest_valid by done. unfold valid, left_, zlen, zdrop in *.
  rewrite length_drop. lia.
Qed.

Lemma rest_advance r x tl :
  valid r -> rest r = x ++ tl -> valid (advance (zlen x) r) /\ rest (advance (zlen x) r) = tl.
Proof.
  intros Hv Hr. pose proof (zlen_unread r Hv) as Hl. rewrite Hr, zlen_app in Hl.
  pose proof (zlen_nonneg x). pose proof (zlen_nonneg tl).
  assert (Hv' : valid (advance (zlen x) r)).
  { unfold valid, advance, left_ in *. cbn. lia. }
  split; [done|]. rewrite rest_valid in Hr |- * by done. unfold advance, zdrop, valid in *. cbn.
  rewrite Z2Nat.inj_add, <- drop_drop, Hr by lia. unfold zlen. rewrite Nat2Z.id.
  by rewrite drop_app_length.
Qed.

Lemma valid_new bs path : valid (Reader_new bs path).
Proof. unfold valid. cbn. pose proof (zlen_nonneg bs). lia. Qed.

Lemma rest_new bs path : rest (Reader_new bs path) = bs.
Proof. rewrite rest_valid by apply valid_new. done. Qed.

Lemma advance_0 r : advance 0 r = r.
Proof. destruct r. unfold advance. cbn. by rewrite Z.add_0_r. Qed.

Lemma advance_advance a b r : advance b (advance a r) = advance (a + b) r.
Proof. unfold advance. cbn. by rewrite Z.add_assoc. Qed.

Lemma done_rest r : valid r -> done_ r = true <-> rest r = [].
Proof.
  intros Hv. unfold done_. rewrite Z.eqb_eq, <- zlen_unread by done. unfold zlen.
  rewrite <- length_zero_iff_nil. lia.
Qed.

(** ** Composition *)

Section composition.
Context {A B C : Type}.

Lemma parses_ext (m m' : M A) enc enc' P P' :
  (forall r, valid r -> m r = m' r) -> (forall a, enc a = enc' a) -> (forall a, P a <-> P' a) ->
  parses m enc P -> parses m' enc' P'.
Proof.
  intros Hm He HP [Hc Hs Hf]. split.
  - intros r a tl Hv Ha Hr. rewrite <- Hm, <- He by done. rewrite <- He in Hr. apply HP in Ha. eauto.
  - intros r a r' Hv Hr. rewrite <- Hm in Hr by done. rewrite <- He, <- HP. eauto.
  - intros r e Hv Hr. rewrite <- Hm in Hr by done. eauto.
Qed.

Lemma finishes_ext (m : M A) enc enc' P P' :
  (forall a, enc a = enc' a) -> (forall a, P a <-> P' a) ->
  finishes m enc P -> finishes m enc' P'.
Proof.
  intros He HP [Hc Hs Hf]. split; [| |done].
  - intros r a Hv Ha Hr. rewrite <- He in Hr. apply HP in Ha. eauto.
  - intros r a r' Hv Hr. rewrite <- He, <- HP. eauto.
Qed.

Lemma parses_ret (c : C) (P : C -> Prop) :
  (forall c', P c' <-> c' = c) -> parses (mret c) (fun _ => []) P.
Proof.
  intros HP. split.
  - intros r c' tl _ ->%HP _. by rewrite zlen_nil, advance_0.
  - intros r c' r' _ [= <- <-]. rewrite zlen_nil, advance_0. split; [by apply HP|]. split; [by eexists|done].
  - discriminate.
Qed.

(** The value [pa c] that [m] reads is a part of the value [c] read in all. *)
Lemma parses_bind (pa : C -> A) m (f : A -> M C) encA encR (PA : A -> Prop) (PR : C -> Prop) :
  parses m encA PA ->
  (forall a, PA a -> parses (f a) encR (fun c => PR c /\ pa c = a)) ->
  parses (m ≫= f) (fun c => encA (pa c) ++ encR c) (fun c => PA (pa c) /\ PR c).
Proof.
  intros [Hc Hs Hf] Hk. unfold mbind, M_bind. split.
  - intros r c tl Hv [Ha Hr'] Hr. rewrite <- app_assoc in Hr.
    rewrite (Hc r _ _ Hv Ha Hr). destruct (rest_advance _ _ _ Hv Hr) as [Hv1 Hr1].
    rewrite (parses_complete _ _ _ (Hk _ Ha) _ c tl Hv1 (conj Hr' eq_refl) Hr1).
    by rewrite advance_advance, zlen_app.
  - intros r c r' Hv E. destruct (m r) as [[a r1]|] eqn:Em; [|done].
    destruct (Hs _ _ _ Hv Em) as (Ha & [tl Hr] & ->).
    destruct (rest_advance _ _ _ Hv Hr) as [Hv1 Hr1].
    destruct (parses_sound _ _ _ (Hk _ Ha) _ _ _ Hv1 E) as ([HP <-] & [tl' Hr'] & ->).
    split; [done|]. split; [|by rewrite advance_advance, zlen_app].
    exists tl'. by rewrite Hr, <- Hr1, Hr', <- app_assoc.
  - intros r e Hv E. destruct (m r) as [[a r1]|] eqn:Em; [|injection E as <-; eauto].
    destruct (Hs _ _ _ Hv Em) as (Ha & [tl Hr] & ->).
    destruct (rest_advance _ _ _ Hv Hr) as [Hv1 _].
    by apply (parses_error _ _ _ (Hk _ Ha) _ _ Hv1 E).
Qed.

Lemma finishes_bind (pa : C -> A) m (f : A -> M C) encA encR (PA : A -> Prop) (PR : C -> Prop) :
  parses m encA PA ->
  (forall a, PA a -> finishes (f a) encR (fun c => PR c /\ pa c = a)) ->
  finishes (m ≫= f) (fun c => encA (pa c) ++ encR c) (fun c => PA (pa c) /\ PR c).
Proof.
  intros [Hc Hs Hf] Hk. unfold mbind, M_bind. split.
  - intros r c Hv [Ha Hr'] Hr.
    rewrite (Hc r _ _ Hv Ha Hr). destruct (rest_advance _ _ _ Hv Hr) as [Hv1 Hr1].
    by apply (finishes_complete _ _ _ (Hk _ Ha) _ c Hv1 (conj Hr' eq_refl) Hr1).
  - intros r c r' Hv E. destruct (m r) as [[a r1]|] eqn:Em; [|done].
    destruct (Hs _ _ _ Hv Em) as (Ha & [tl Hr] & ->).
    destruct (rest_advance _ _ _ Hv Hr) as [Hv1 Hr1].
    destruct (finishes_sound _ _ _ (Hk _ Ha) _ _ _ Hv1 E) as ([HP <-] & Hr').
    split; [done|]. by rewrite Hr, <- Hr1, Hr'.
  - intros r e Hv E. destruct (m r) as [[a r1]|] eqn:Em; [|injection E as <-; eauto].
    destruct (Hs _ _ _ Hv Em) as (Ha & [tl Hr] & ->).
    destruct (rest_advance _ _ _ Hv Hr) as [Hv1 _].
    by apply (finishes_error _ _ _ (Hk _ Ha) _ _ Hv1 E).
Qed.

(** The forms the message parsers use: [Q] is the condition on the whole
  message, to which every read adds what it found out. *)
Lemma parses_step (pa : C -> A) (Q : C -> Prop) m (f : A -> M C) encA encR (PA : A -> Prop) :
  parses m encA PA -> (forall c, Q c -> PA (pa c)) ->
  (forall a, PA a -> parses (f a) encR (fun c => Q c /\ pa c = a)) ->
  parses (m ≫= f) (fun c => encA (pa c) ++ encR c) Q.
Proof.
  intros Hm HQ Hf. destruct (parses_bind pa m f encA encR PA Q Hm Hf) as [Hc Hs He].
  split; [| |done].
  - intros r c tl Hv HC Hr. eauto.
  - intros r c r' Hv E. by destruct (Hs r c r' Hv E) as [[_ ?] ?].
Qed.

Lemma finishes_step (pa : C -> A) (Q : C -> Prop) m (f : A -> M C) encA encR (PA : A -> Prop) :
  parses m encA PA -> (forall c, Q c -> PA (pa c)) ->
  (forall a, PA a -> finishes (f a) encR (fun c => Q c /\ pa c = a)) ->
  finishes (m ≫= f) (fun c => encA (pa c) ++ encR c) Q.
Proof.
  intros Hm HQ Hf. destruct (finishes_bind pa m f encA encR PA Q Hm Hf) as [Hc Hs He].
  split; [| |done].
  - intros r c Hv HC Hr. eauto.
  - intros r c r' Hv E. by destruct (Hs r c r' Hv E) as [[_ ?] ?].
Qed.

(** The last read of a message, its [expect_done], and what follows it. *)
Lemma finishes_expect_done field (k : M C) (P : C -> Prop) :
  parses k (fun _ => []) P -> finishes (_ ← expect_done field; k) (fun _ => []) P.
Proof.
  intros [Hc Hs Hf]. unfold mbind, M_bind, expect_done. split.
  - intros r c Hv Ha Hr. rewrite (proj2 (done_rest r Hv) Hr).
    rewrite (Hc r c [] Hv Ha Hr). by eexists.
  - intros r c r' Hv E. destruct (done_ r) eqn:Ed; [|done]. apply done_rest in Ed; [|done].
    by destruct (Hs _ _ _ Hv E).
  - intros r e Hv E. destruct (done_ r) eqn:Ed; [eauto|]. injection E as <-. by eexists.
Qed.

Lemma exact_run m path (enc : C -> bytes) P :
  finishes m enc P -> exact (fun bs => run m bs path) enc P.
Proof.
  intros [Hc Hs Hf]. unfold run. split.
  - intros bs c. pose proof (valid_new bs path) as Hv. split.
    + intros E. destruct (m _) as [[c' r']|] eqn:Em; [|done]. injection E as ->.
      destruct (Hs _ _ _ Hv Em) as [HP Hr]. by rewrite rest_new in Hr.
    + intros [HP ->]. destruct (Hc _ c Hv HP (rest_new _ _)) as [r' E]. by rewrite E.
  - intros bs e E. destruct (m _) as [[c' r']|] eqn:Em; [done|]. injection E as <-.
    by apply (Hf _ _ (valid_new bs path) Em).
Qed.

(** A parse of bytes that were read before. *)
Lemma parses_lift (g : bytes -> TlsResult C) enc P x :
  exact g enc P -> parses (lift (g x)) (fun _ => []) (fun c => P c /\ enc c = x).
Proof.
  intros [Hi He]. unfold lift. split.
  - intros r c tl _ [HP Hx] _. rewrite (proj2 (Hi x c) (conj HP (eq_sym Hx))).
    by rewrite zlen_nil, advance_0.
  - intros r c r' _ E. destruct (g x) as [c'|] eqn:Eg; [|done]. injection E as -> <-.
    apply Hi in Eg as [HP ->]. rewrite zlen_nil, advance_0. split; [done|]. split; [by eexists|done].
  - intros r e _ E. destruct (g x) as [c'|] eqn:Eg; [done|]. injection E as <-. eauto.
Qed.
End composition.

(** ** Single fields *)

Lemma take_ok n field r : valid r -> 0 <= n <= left_ r ->
  take n field r = Ok (zslice (r_bytes r) (r_pos r) n, advance n r).
Proof. intros Hv Hn. unfold take. by rewrite (proj2 (Z.ltb_ge _ _)) by lia. Qed.

Lemma parses_take n field : 0 <= n -> parses (take n field) id (fun v => zlen v = n).
Proof.
  intros Hn. split.
  - intros r v tl Hv <- Hr. unfold id in *. pose proof (zlen_unread r Hv) as Hl.
    rewrite Hr, zlen_app in Hl. pose proof (zlen_nonneg tl).
    rewrite take_ok by (done || lia). do 2 f_equal. unfold zslice.
    rewrite <- rest_valid, Hr by done. unfold ztake, zlen. by rewrite Nat2Z.id, take_app_length.
  - intros r v r' Hv E. unfold take in E. destruct (Z.ltb_spec (left_ r) n) as [|Hle]; [done|].
    injection E as <- <-. unfold id. unfold left_, valid in *.
    assert (zlen (zslice (r_bytes r) (r_pos r) n) = n) as Hz by (apply zlen_zslice; lia).
    split; [done|]. rewrite Hz. split; [|done]. exists (zdrop n (rest r)).
    rewrite rest_valid by done. unfold zslice, ztake, zdrop. by rewrite take_drop.
  - intros r e Hv E. unfold take in E. destruct (left_ r <? n); [|done].
    injection E as <-. by eexists.
Qed.

(** Reading [n] bytes and converting them. *)
Lemma parses_take_map {A} n field (g : bytes -> A) (enc : A -> bytes) (P : A -> Prop) :
  0 <= n -> (forall b, zlen b = n -> P (g b) /\ enc (g b) = b) ->
  (forall a, P a -> zlen (enc a) = n /\ g (enc a) = a) ->
  parses (b ← take n field; mret (g b)) enc P.
Proof.
  intros Hn Hg He. destruct (parses_take n field Hn) as [Hc Hs Hf]. unfold mbind, M_bind. split.
  - intros r a tl Hv Ha Hr. destruct (He a Ha) as [Hz Ea].
    rewrite (Hc r (enc a) tl Hv Hz Hr). by rewrite <- Ea at 3.
  - intros r a r' Hv E. destruct (take n field r) as [[b r1]|] eqn:Et; [|done].
    injection E as <- <-. destruct (Hs _ _ _ Hv Et) as (Hz & Hr & ->).
    destruct (Hg b Hz) as [HP Eb]. rewrite Eb. by split.
  - intros r e Hv E. destruct (take n field r) as [[b r1]|] eqn:Et; [done|].
    injection E as <-. eauto.
Qed.

Lemma parses_be n w field :
  w = 8 * Z.of_nat n -> parses (b ← take (Z.of_nat n) field; mret (be_val b)) (be_bytes n) (in_u w).
Proof.
  intros ->. apply parses_take_map; [lia|intros b Hb|intros v Hv].
  - assert (length b = n) as <- by (unfold zlen in Hb; lia). rewrite be_bytes_val. split; [|done].
    unfold in_u. rewrite Z.pow_mul_r by lia. apply be_val_range.
  - rewrite zlen_be_bytes. split; [done|]. by apply (be_val_u n (8 * Z.of_nat n)).
Qed.

Lemma parses_u8 field : parses (u8 field) (fun b => [b]) (fun _ => True).
Proof.
  apply parses_take_map; [lia|intros b Hb|done].
  destruct b as [|x [|y b]]; unfold zlen in Hb; cbn [length] in Hb; [lia|done|lia].
Qed.

Lemma parses_u16 field : parses (u16 field) (be_bytes 2) (in_u 16).
Proof. by apply (parses_be 2). Qed.

Lemma be_val_cons_0 b : be_val (x00 :: b) = be_val b.
Proof.
  unfold be_val. rewrite reverse_cons. generalize (reverse b). clear b. intros b.
  induction b as [|x b IH]; [done|]. cbn [app le_val]. by rewrite IH.
Qed.

Lemma parses_u24 field : parses (u24 field) (be_bytes 3) (in_u 24).
Proof.
  eapply parses_ext; [|intros a; reflexivity|intros a; reflexivity|apply (parses_be 3 24 field); reflexivity].
  intros r. unfold u24, mbind, M_bind. change (Z.of_nat 3) with 3.
  destruct (take 3 field r) as [[b r']|]; [|done]. unfold mret, M_ret. by rewrite be_val_cons_0.
Qed.

Lemma parses_u32 field : parses (u32 field) (be_bytes 4) (in_u 32).
Proof. by apply (parses_be 4). Qed.

(** A length and that many bytes. *)
Definition vec_enc (n : nat) (v : bytes) : bytes := be_bytes n (zlen v) ++ v.

Lemma parses_vec {A} n w (len : M A) (size : A -> Z) (inv : Z -> A) encA PA field :
  parses len encA PA ->
  (forall z, in_u w z -> encA (inv z) = be_bytes n z /\ PA (inv z) /\ size (inv z) = z) ->
  (forall a, PA a -> in_u w (size a) /\ inv (size a) = a) ->
  parses (k ← len; take (size k) field) (vec_enc n) (fun v => in_u w (zlen v)).
Proof.
  intros Hl Hof Hsz.
  assert (Hb : parses (k ← len; take (size k) field) (fun v => encA (inv (zlen v)) ++ v)
            (fun v => PA (inv (zlen v)) /\ in_u w (zlen v))).
  { apply (parses_bind (fun v => inv (zlen v)) len _ encA id PA _ Hl). intros a Ha.
    destruct (Hsz a Ha) as [Hs Ea].
    eapply parses_ext; [done|done| |apply parses_take, Hs]. intros v. cbv beta. split.
    - intros ->. by rewrite Ea.
    - intros [Hv <-]. by destruct (Hof _ Hv) as (_ & _ & ->). }
  destruct Hb as [Hc Hs Hf]. split; [| |done].
  - intros r v tl Hv Hz Hr. destruct (Hof _ Hz) as (E & HP & _). unfold vec_enc in *.
    rewrite <- E in Hr |- *. by apply Hc with tl.
  - intros r v r' Hv E. destruct (Hs r v r' Hv E) as ([HP Hz] & Hr).
    destruct (Hof _ Hz) as (Ee & _). unfold vec_enc. by rewrite <- Ee.
Qed.

Lemma parses_vec8 field : parses (vec8 field) (vec_enc 1) (fun v => in_u 8 (zlen v)).
Proof.
  apply (parses_vec 1 8 _ b2z z2b _ _ field (parses_u8 _)).
  - intros z Hz. by rewrite z2b_small.
  - intros b _. rewrite z2b_b2z. split; [apply b2z_range|done].
Qed.

Lemma parses_vec16 field : parses (vec16 field) (vec_enc 2) (fun v => in_u 16 (zlen v)).
Proof. by apply (parses_vec 2 16 _ id id _ _ field (parses_u16 _)). Qed.

Lemma parses_vec24 field : parses (vec24 field) (vec_enc 3) (fun v => in_u 24 (zlen v)).
Proof. by apply (parses_vec 3 24 _ id id _ _ field (parses_u24 _)). Qed.

(** ** Lists to the end *)

Lemma many_fuel_complete {A} (item : nat -> M A) enc P fuel i l r :
  (forall i, parses (item i) enc P) -> Forall (fun a => P a /\ enc a <> []) l ->
  valid r -> rest r = concat (map enc l) -> (length l <= fuel)%nat ->
  many_fuel fuel i item r = Ok (l, advance (zlen (rest r)) r).
Proof.
  intros Hi Hl. revert fuel i r. induction Hl as [|a l [Ha Hne] _ IH]; intros fuel i r Hv Hr Hf.
  - assert (done_ r = true) as Hd by by apply done_rest.
    rewrite Hr. cbn [map concat]. rewrite zlen_nil, advance_0. destruct fuel; cbn [many_fuel]; by rewrite Hd.
  - cbn [map concat length] in Hr, Hf. destruct fuel as [|fuel]; [lia|]. cbn [many_fuel].
    destruct (done_ r) eqn:Hd.
    { apply done_rest in Hd; [|done]. rewrite Hr in Hd. by apply app_eq_nil in Hd as [? _]. }
    rewrite (parses_complete _ _ _ (Hi i) r a _ Hv Ha Hr).
    destruct (rest_advance _ _ _ Hv Hr) as [Hv' Hr'].
    cbn [mbind result_bind]. rewrite (IH fuel (S i) _ Hv' Hr') by lia.
    cbn. by rewrite advance_advance, Hr', Hr, zlen_app.
Qed.

Lemma many_fuel_sound {A} (item : nat -> M A) enc P fuel i l r r' :
  (forall i, parses (item i) enc P) -> (forall a, P a -> enc a <> []) ->
  valid r -> left_ r <= Z.of_nat fuel ->
  many_fuel fuel i item r = Ok (l, r') -> Forall P l /\ rest r = concat (map enc l).
Proof.
  intros Hi Hne. revert i l r r'. induction fuel as [|fuel IH]; intros i l r r' Hv Hf E;
    cbn [many_fuel] in E; destruct (done_ r) eqn:Hd.
  1,3: injection E as <- <-; split; [done|by apply done_rest].
  - unfold done_, left_ in *. lia.
  - destruct (item i r) as [[a r1]|] eqn:Ea; [|done]. cbn [mbind result_bind] in E.
    destruct (many_fuel fuel (S i) item r1) as [[l' r2]|] eqn:El; [|done]. injection E as <- <-.
    destruct (parses_sound _ _ _ (Hi i) _ _ _ Hv Ea) as (Ha & [tl Hr] & ->).
    destruct (rest_advance _ _ _ Hv Hr) as [Hv' Hr']. apply IH in El as [Hl E].
    + split; [by constructor|]. by rewrite Hr, <- Hr', E.
    + done.
    + pose proof (zlen_unread r Hv). pose proof (zlen_unread _ Hv'). rewrite Hr' in *.
      rewrite Hr, zlen_app in *. assert (zlen (enc a) <> 0); [|pose proof (zlen_nonneg (enc a)); lia].
      unfold zlen. specialize (Hne a Ha). destruct (enc a); [done|]. cbn [length]. lia.
Qed.

Lemma many_fuel_error {A} (item : nat -> M A) enc P fuel i r e :
  (forall i, parses (item i) enc P) -> valid r ->
  many_fuel fuel i item r = Err e -> exists t, e = Decode t.
Proof.
  intros Hi. revert i r. induction fuel as [|fuel IH]; intros i r Hv E;
    cbn [many_fuel] in E; destruct (done_ r); try done.
  destruct (item i r) as [[a r1]|] eqn:Ea; cbn [mbind result_bind] in E.
  - destruct (parses_sound _ _ _ (Hi i) _ _ _ Hv Ea) as (Ha & [tl Hr] & ->).
    destruct (rest_advance _ _ _ Hv Hr) as [Hv' Hr'].
    destruct (many_fuel fuel (S i) item _) as [[l' r2]|] eqn:El; [done|]. injection E as <-. eauto.
  - injection E as <-. by apply (parses_error _ _ _ (Hi i) _ _ Hv Ea).
Qed.

(** A parser that is a loop over items accepts exactly the concatenations of
  items. *)
Lemma exact_many {A} (item : nat -> M A) enc P path :
  (forall i, parses (item i) enc P) -> (forall a, P a -> enc a <> []) ->
  exact (fun bs => run (many item) bs path) (fun l => concat (map enc l)) (Forall P).
Proof.
  intros Hi Hne. apply exact_run. unfold many. split.
  - intros r l Hv Hl Hr. eexists. apply (many_fuel_complete item enc P); try done.
    + eapply Forall_impl; [exact Hl|]. eauto.
    + pose proof (zlen_unread r Hv) as Hz. rewrite <- Hz, Hr. unfold zlen. rewrite Nat2Z.id.
      clear -Hl Hne. induction Hl as [|a l Ha _ IH]; [done|]. cbn [map concat length].
      rewrite length_app. specialize (Hne a Ha). destruct (enc a); [done|]. cbn [length]. lia.
  - intros r l r' Hv E. eapply (many_fuel_sound item enc P); [done|done|done| |exact E].
    unfold left_. lia.
  - intros r e Hv E. by eapply (many_fuel_error item enc P).
Qed.

(** ** What the writer writes *)

Lemma be_bytes_mod n w z : w = 8 * Z.of_nat n -> be_bytes n (wrap_u w z) = be_bytes n z.
Proof.
  intros ->. apply (inj reverse). unfold be_bytes, wrap_u. rewrite !reverse_involutive.
  rewrite Z.pow_mul_r by lia. change (2 ^ 8) with 256.
  rewrite <- (le_val_bytes n z). rewrite <- (length_le_bytes n z) at 1. apply le_bytes_val.
Qed.

Lemma le_bytes_S n z : le_bytes (S n) z = le_bytes n z ++ [z2b (z / 256 ^ Z.of_nat n)].
Proof.
  revert z. induction n as [|n IH]; intros z; [by rewrite Z.div_1_r|].
  change (le_bytes (S (S n)) z) with (z2b z :: le_bytes (S n) (z / 256)). rewrite IH.
  rewrite Z.div_div, <- Z.pow_succ_r, Nat2Z.inj_succ by lia. done.
Qed.

Lemma drop_be_bytes n z : drop 1 (be_bytes (S n) z) = be_bytes n z.
Proof. unfold be_bytes. by rewrite le_bytes_S, reverse_app. Qed.

Section writer_bytes.
Context (w : Writer).

Lemma bytes_raw v : w_bytes (raw v w) = w_bytes w ++ v.
Proof. done. Qed.
Lemma bytes_u8 b : w_bytes (w_u8 b w) = w_bytes w ++ [b].
Proof. done. Qed.
Lemma bytes_u16 v : w_bytes (w_u16 v w) = w_bytes w ++ be_bytes 2 v.
Proof. done. Qed.
Lemma bytes_u24 v : w_bytes (w_u24 v w) = w_bytes w ++ be_bytes 3 v.
Proof. unfold w_u24, raw. by rewrite drop_be_bytes. Qed.
Lemma bytes_u32 v : w_bytes (w_u32 v w) = w_bytes w ++ be_bytes 4 v.
Proof. done. Qed.
Lemma bytes_vec8 v : w_bytes (w_vec8 v w) = w_bytes w ++ vec_enc 1 v.
Proof. unfold w_vec8, w_u8, raw, vec_enc. cbn [w_bytes]. by rewrite <- app_assoc. Qed.
Lemma bytes_vec16 v : w_bytes (w_vec16 v w) = w_bytes w ++ vec_enc 2 v.
Proof.
  unfold w_vec16, w_u16, raw, vec_enc. cbn [w_bytes]. by rewrite (be_bytes_mod 2), <- app_assoc.
Qed.
Lemma bytes_vec24 v : w_bytes (w_vec24 v w) = w_bytes w ++ vec_enc 3 v.
Proof.
  unfold w_vec24, w_u24, raw, vec_enc. cbn [w_bytes].
  by rewrite (be_bytes_mod 4), drop_be_bytes, <- app_assoc.
Qed.

Lemma bytes_nest8 f : w_bytes (nest8 f w) = w_bytes w ++ vec_enc 1 (w_bytes (f Writer_new)).
Proof. apply bytes_vec8. Qed.
Lemma bytes_nest16 f : w_bytes (nest16 f w) = w_bytes w ++ vec_enc 2 (w_bytes (f Writer_new)).
Proof. apply bytes_vec16. Qed.
Lemma bytes_nest24 f : w_bytes (nest24 f w) = w_bytes w ++ vec_enc 3 (w_bytes (f Writer_new)).
Proof. apply bytes_vec24. Qed.

Lemma bytes_each {A} (f : A -> Writer -> Writer) enc l :
  (forall a w, w_bytes (f a w) = w_bytes w ++ enc a) ->
  w_bytes (w_each f l w) = w_bytes w ++ concat (map enc l).
Proof.
  intros Hf. unfold w_each. generalize w. induction l as [|a l IH]; intros w'.
  - by rewrite app_nil_r.
  - cbn [foldl map concat]. by rewrite IH, Hf, <- app_assoc.
Qed.
End writer_bytes.

Lemma bytes_each_u16 w l : w_bytes (w_each w_u16 l w) = w_bytes w ++ concat (map (be_bytes 2) l).
Proof. apply bytes_each. intros. apply bytes_u16. Qed.
Lemma bytes_each_vec8 w l : w_bytes (w_each w_vec8 l w) = w_bytes w ++ concat (map (vec_enc 1) l).
Proof. apply bytes_each. intros. apply bytes_vec8. Qed.
Lemma bytes_each_u8 w l : w_bytes (w_each w_u8 l w) = w_bytes w ++ l.
Proof.
  rewrite (bytes_each _ _ (fun b => [b])) by (intros; apply bytes_u8). f_equal.
  induction l as [|b l IH]; [done|]. cbn [map concat app]. by rewrite IH.
Qed.

Create HintDb writer.
#[export] Hint Rewrite bytes_raw bytes_u8 bytes_u16 bytes_u24 bytes_u32
  bytes_vec8 bytes_vec16 bytes_vec24 bytes_nest8 bytes_nest16 bytes_nest24
  bytes_each_u8 bytes_each_u16 bytes_each_vec8 : writer.

(** The bytes of a chain of writer calls that starts from an empty writer. *)
Ltac writer_bytes := autorewrite with writer; cbn [w_bytes Writer_new app]; rewrite <- ?app_assoc, ?app_nil_r.

Lemma zlen_vec_enc n v : zlen (vec_enc n v) = Z.of_nat n + zlen v.
Proof. unfold vec_enc. by rewrite zlen_app, zlen_be_bytes. Qed.

Lemma vec_enc_nonempty n v : (0 < n)%nat -> vec_enc n v <> [].
Proof. intros Hn E%(f_equal zlen). rewrite zlen_vec_enc, zlen_nil in E. pose proof (zlen_nonneg v). lia. Qed.

Lemma be_bytes_nonempty n v : (0 < n)%nat -> be_bytes n v <> [].
Proof. intros Hn E%(f_equal zlen). rewrite zlen_be_bytes, zlen_nil in E. lia. Qed.

(** A patched length is the only thing that changes. *)
Lemma patch_u16_written a b v v' :
  w_bytes (patch_u16 (length a) v' (mkWriter (a ++ be_bytes 2 v ++ b))) = a ++ be_bytes 2 v' ++ b.
Proof.
  unfold patch_u16. cbn [w_bytes]. rewrite !length_app, !length_be_bytes.
  rewrite (proj2 (Nat.leb_le _ _)) by lia. cbn [w_bytes]. unfold overwrite.
  rewrite take_app_length, length_be_bytes, <- drop_drop, drop_app_length.
  change 2%nat with (length (be_bytes 2 v)) at 2. by rewrite drop_app_length.
Qed.

Lemma patch_u16_outside n v w : (length (w_bytes w) < n + 2)%nat -> patch_u16 n v w = w.
Proof. intros Hn. unfold patch_u16. by rewrite (proj2 (Nat.leb_gt _ _)) by lia. Qed.
