(* ===== verification/TlsMsgRound.v ===== *)
(** * Handshake messages survive the wire

  Every parser of [TlsMsg] accepts exactly the encodings of well-formed
  messages, so it inverts the builder and accepts one encoding per message. *)

From S2P Require Import Prelude Text TlsTypes TlsCrypto TlsBuf TlsMsg.

(** ** Well-formed messages: every field fits its type and its length prefix *)

Definition ext_enc (e : Extension) : bytes := be_bytes 2 (ext_type e) ++ vec_enc 2 (ext_data e).
Definition exts_enc (l : list Extension) : bytes := concat (map ext_enc l).
Definition ext_ok (e : Extension) : Prop := in_u 16 (ext_type e) /\ in_u 16 (zlen (ext_data e)).
Definition exts_ok (l : list Extension) : Prop := Forall ext_ok l /\ in_u 16 (zlen (exts_enc l)).

Definition u16s_enc (l : list Z) : bytes := concat (map (be_bytes 2) l).
Definition u16s_ok (l : list Z) : Prop := Forall (in_u 16) l /\ in_u 16 (zlen (u16s_enc l)).

Definition hello_ok (h : ClientHello) : Prop :=
  in_u 16 (ch_legacy_version h) /\ zlen (ch_random h) = 32 /\
  in_u 8 (zlen (ch_legacy_session_id h)) /\ u16s_ok (ch_cipher_suites h) /\
  in_u 8 (zlen (ch_legacy_compression_methods h)) /\ exts_ok (ch_extensions h).

Definition server_hello_ok (h : ServerHello) : Prop :=
  in_u 16 (sh_legacy_version h) /\ zlen (sh_random h) = 32 /\
  in_u 8 (zlen (sh_legacy_session_id_echo h)) /\ in_u 16 (sh_cipher_suite h) /\
  exts_ok (sh_extensions h).

(** What RFC 8446 says a ServerHello looks like; the client never writes one. *)
Definition server_hello_enc (h : ServerHello) : bytes :=
  be_bytes 2 (sh_legacy_version h) ++ sh_random h ++ vec_enc 1 (sh_legacy_session_id_echo h) ++
  be_bytes 2 (sh_cipher_suite h) ++ [sh_legacy_compression_method h] ++
  vec_enc 2 (exts_enc (sh_extensions h)).

Definition entry_enc (e : bytes * list Extension) : bytes := vec_enc 3 e.1 ++ vec_enc 2 (exts_enc e.2).
Definition entry_ok (e : bytes * list Extension) : Prop := in_u 24 (zlen e.1) /\ exts_ok e.2.
Definition entries_enc (l : list (bytes * list Extension)) : bytes := concat (map entry_enc l).

Definition certificate_ok (m : CertificateMsg) : Prop :=
  in_u 8 (zlen (request_context m)) /\ Forall entry_ok (entries m) /\
  in_u 24 (zlen (entries_enc (entries m))).

Definition ticket_ok (t : NewSessionTicket) : Prop :=
  in_u 32 (ticket_lifetime t) /\ in_u 32 (ticket_age_add t) /\
  in_u 8 (zlen (ticket_nonce t)) /\ in_u 16 (zlen (ticket t)) /\ exts_ok (nst_extensions t).

Definition ticket_enc (t : NewSessionTicket) : bytes :=
  be_bytes 4 (ticket_lifetime t) ++ be_bytes 4 (ticket_age_add t) ++
  vec_enc 1 (ticket_nonce t) ++ vec_enc 2 (ticket t) ++ vec_enc 2 (exts_enc (nst_extensions t)).

(** ** Proof steps *)

Create HintDb wire.
#[local] Hint Unfold ext_ok exts_ok u16s_ok hello_ok server_hello_ok entry_ok certificate_ok ticket_ok : wire.

(** The end of a parser: the fields read so far are the fields of the message. *)
Ltac parsed :=
  apply parses_ret; intros ?c; cbv beta;
  split; [intros; destruct_and?; destruct c; simplify_eq/=; done
         |intros ->; autounfold with wire; cbn; unfold id in *; destruct_and?; subst; split_and!; (assumption || auto)].

Lemma exact_ext {A} (g g' : bytes -> TlsResult A) enc enc' P P' :
  (forall bs, g bs = g' bs) -> (forall a, enc a = enc' a) -> (forall a, P a <-> P' a) ->
  exact g enc P -> exact g' enc' P'.
Proof.
  intros Hg He HP [Hi Hf]. split; intros bs ?; rewrite <- Hg; [|apply Hf].
  by rewrite Hi, He, HP.
Qed.

Lemma exact_finishes {C} m path (enc enc' : C -> bytes) P :
  finishes m enc' P -> (forall c, enc' c = enc c) -> exact (fun bs => run m bs path) enc P.
Proof. intros Hm He. eapply exact_ext; [done|exact He|done|]. by apply exact_run. Qed.

Lemma parses_enc {C} (m : M C) (enc enc' : C -> bytes) P :
  parses m enc' P -> (forall c, enc' c = enc c) -> parses m enc P.
Proof. intros Hm He. by eapply parses_ext; [..|exact Hm]. Qed.

(** ** Lists *)

Lemma parses_extension i : parses (parse_extension i) ext_enc ext_ok.
Proof.
  eapply parses_enc.
  - eapply (parses_step ext_type); [apply parses_u16|by intros c [? ?]|intros ty Hty].
    eapply (parses_step ext_data); [apply parses_vec16|by intros c [[? ?] ?]|intros d Hd].
    parsed.
  - intros e. cbv beta. by rewrite app_nil_r.
Qed.

Lemma exact_extensions path : exact (fun bs => parse_extensions bs path) exts_enc (Forall ext_ok).
Proof.
  apply exact_many; [apply parses_extension|]. intros e _ H. unfold ext_enc in H.
  apply app_eq_nil in H as [H _]. by eapply be_bytes_nonempty; [|exact H]; lia.
Qed.

Lemma exact_u16s path field : exact (fun bs => parse_u16s bs path field) u16s_enc (Forall (in_u 16)).
Proof.
  apply (exact_many (fun _ => u16 field)); [intros _; apply parses_u16|].
  intros e _. apply be_bytes_nonempty. lia.
Qed.

Lemma parses_sub_extensions bs path :
  parses (lift (parse_extensions bs path)) (fun _ => []) (fun l => Forall ext_ok l /\ exts_enc l = bs).
Proof. apply (parses_lift (fun bs => parse_extensions bs path)), exact_extensions. Qed.

Lemma parses_sub_u16s bs path field :
  parses (lift (parse_u16s bs path field)) (fun _ => []) (fun l => Forall (in_u 16) l /\ u16s_enc l = bs).
Proof. apply (parses_lift (fun bs => parse_u16s bs path field)), exact_u16s. Qed.

Lemma parses_random message : parses (random_field message) id (fun v => zlen v = 32).
Proof.
  apply (parses_ext (take 32 (str "random")) _ id id (fun v => zlen v = 32) _);
    [|done|done|by apply parses_take].
  intros r Hv. unfold random_field, mbind, M_bind.
  destruct (take 32 (str "random") r) as [[b r']|] eqn:E; [|done].
  apply (parses_sound _ _ _ (parses_take 32 (str "random") ltac:(lia))) in E as [Hz _]; [|done].
  unfold array32. by rewrite Hz.
Qed.

(** The condition on a whole message gives the condition on each field. *)
Ltac field_ok := intros ?c ?; autounfold with wire in *; destruct_and?; unfold id; auto.

Ltac field_by pa tac :=
  lazymatch goal with
  | |- finishes _ _ _ => eapply (finishes_step pa)
  | |- parses _ _ _ => eapply (parses_step pa)
  end;
  [tac|field_ok|intros ?a ?Ha; cbv beta in *].
Tactic Notation "field" uconstr(pa) uconstr(lemma) := field_by pa ltac:(apply lemma).
Tactic Notation "done_field" := apply finishes_expect_done; parsed.

(** ** The builders *)

Lemma bytes_extension e w : w_bytes (Extension_encode e w) = w_bytes w ++ ext_enc e.
Proof. unfold Extension_encode, ext_enc. by writer_bytes. Qed.

Lemma encode_extensions_eq l : encode_extensions l = vec_enc 2 (exts_enc l).
Proof. unfold encode_extensions. writer_bytes. by rewrite (bytes_each _ _ ext_enc) by apply bytes_extension. Qed.

Lemma bytes_certificate_entry e w : w_bytes (write_certificate_entry e w) = w_bytes w ++ entry_enc e.
Proof. unfold write_certificate_entry, entry_enc. writer_bytes. by rewrite encode_extensions_eq. Qed.

#[local] Hint Rewrite bytes_extension encode_extensions_eq bytes_certificate_entry : writer.

(** ** The messages *)

Lemma exact_client_hello : exact ClientHello_parse_body ClientHello_encode_body hello_ok.
Proof.
  eapply exact_finishes.
  - field ch_legacy_version parses_u16. field ch_random parses_random.
    field ch_legacy_session_id parses_vec8.
    field (fun h => u16s_enc (ch_cipher_suites h)) parses_vec16.
    field ch_cipher_suites parses_sub_u16s.
    field ch_legacy_compression_methods parses_vec8.
    field (fun h => exts_enc (ch_extensions h)) parses_vec16.
    field ch_extensions parses_sub_extensions.
    done_field.
  - intros h. unfold ClientHello_encode_body. writer_bytes. done.
Qed.

Lemma exact_server_hello : exact ServerHello_parse server_hello_enc server_hello_ok.
Proof.
  eapply exact_finishes.
  - field sh_legacy_version parses_u16. field sh_random parses_random.
    field sh_legacy_session_id_echo parses_vec8.
    field sh_cipher_suite parses_u16.
    field sh_legacy_compression_method parses_u8.
    field (fun h => exts_enc (sh_extensions h)) parses_vec16.
    field sh_extensions parses_sub_extensions.
    done_field.
  - intros h. cbv beta. unfold server_hello_enc. by rewrite !app_nil_r.
Qed.

Lemma parses_certificate_entry i : parses (parse_certificate_entry i) entry_enc entry_ok.
Proof.
  eapply parses_enc.
  - field (fst : bytes * list Extension -> _) parses_vec24.
    field (fun e : bytes * list Extension => exts_enc e.2) parses_vec16.
    field (snd : bytes * list Extension -> _) parses_sub_extensions.
    parsed.
  - intros h. cbv beta. by rewrite !app_nil_r.
Qed.

Lemma parses_sub_certificates bs path :
  parses (lift (parse_certificate_list bs path)) (fun _ => [])
    (fun l => Forall entry_ok l /\ entries_enc l = bs).
Proof.
  apply (parses_lift (fun bs => parse_certificate_list bs path)).
  apply exact_many; [apply parses_certificate_entry|]. intros e _ H. unfold entry_enc in H.
  apply app_eq_nil in H as [H _]. by eapply vec_enc_nonempty; [|exact H]; lia.
Qed.

Lemma exact_certificate : exact CertificateMsg_parse CertificateMsg_encode_body certificate_ok.
Proof.
  eapply exact_finishes.
  - field request_context parses_vec8.
    field (fun m => entries_enc (entries m)) parses_vec24.
    apply finishes_expect_done.
    eapply parses_enc; [field entries parses_sub_certificates; parsed|done].
  - intros m. unfold CertificateMsg_encode_body. writer_bytes.
    by rewrite (bytes_each _ _ entry_enc) by apply bytes_certificate_entry.
Qed.

Definition request_ok (m : CertificateRequestMsg) : Prop :=
  in_u 8 (zlen (cr_context m)) /\ exts_ok (cr_extensions m).
Definition request_enc (m : CertificateRequestMsg) : bytes :=
  vec_enc 1 (cr_context m) ++ vec_enc 2 (exts_enc (cr_extensions m)).
#[local] Hint Unfold request_ok : wire.

Lemma exact_certificate_request : exact CertificateRequestMsg_parse request_enc request_ok.
Proof.
  eapply exact_finishes.
  - field cr_context parses_vec8.
    field (fun m => exts_enc (cr_extensions m)) parses_vec16.
    apply finishes_expect_done.
    eapply parses_enc; [field cr_extensions parses_sub_extensions; parsed|done].
  - intros m. cbv beta. unfold request_enc. by rewrite !app_nil_r.
Qed.

Definition verify_ok (m : CertificateVerifyMsg) : Prop :=
  in_u 16 (cv_algorithm m) /\ in_u 16 (zlen (cv_signature m)).
#[local] Hint Unfold verify_ok : wire.

Lemma exact_certificate_verify :
  exact CertificateVerifyMsg_parse CertificateVerifyMsg_encode_body verify_ok.
Proof.
  eapply exact_finishes.
  - field cv_algorithm parses_u16. field cv_signature parses_vec16. done_field.
  - intros m. unfold CertificateVerifyMsg_encode_body. by writer_bytes.
Qed.

Lemma exact_ticket : exact NewSessionTicket_parse ticket_enc ticket_ok.
Proof.
  eapply exact_finishes.
  - field ticket_lifetime parses_u32. field ticket_age_add parses_u32.
    field ticket_nonce parses_vec8. field ticket parses_vec16.
    field (fun t => exts_enc (nst_extensions t)) parses_vec16.
    field nst_extensions parses_sub_extensions. done_field.
  - intros t. cbv beta. unfold ticket_enc. by rewrite !app_nil_r.
Qed.

Lemma exact_key_update : exact KeyUpdate_parse (fun k => [request_update k]) (fun _ => True).
Proof.
  eapply exact_finishes.
  - field request_update parses_u8. done_field.
  - done.
Qed.

Lemma Alert_parse_iff bs a :
  Alert_parse bs = Ok a <-> AlertLevel_from_u8 (AlertLevel_as_u8 (al_level a)) = al_level a /\ bs = Alert_encode a.
Proof.
  split.
  - destruct bs as [|x [|y [|z bs]]]; try discriminate. intros [= <-]. unfold Alert_encode. cbn.
    by rewrite AlertLevel_as_from.
  - intros [Hl ->]. unfold Alert_encode. cbn. rewrite Hl. by destruct a.
Qed.

(** ** The framing inside records *)

Lemma encode_handshake_eq ty body : encode_handshake ty body = ty :: vec_enc 3 body.
Proof. unfold encode_handshake, vec_enc. by rewrite (be_bytes_mod 4), drop_be_bytes. Qed.

Lemma handshake_header bs : 4 <= zlen bs ->
  exists ty n body, in_u 24 n /\ bs = ty :: be_bytes 3 n ++ body.
Proof.
  intros Hl. destruct bs as [|ty [|b1 [|b2 [|b3 body]]]]; unfold zlen in Hl; cbn [length] in Hl; try lia.
  exists ty, (be_val [b1; b2; b3]), body. split; [apply (be_val_range [b1; b2; b3])|].
  f_equal. change (b1 :: b2 :: b3 :: body) with ([b1; b2; b3] ++ body). f_equal.
  symmetry. apply (be_bytes_val [b1; b2; b3]).
Qed.

Lemma HandshakeMessage_parse_eq ty n body :
  in_u 24 n ->
  HandshakeMessage_parse (ty :: be_bytes 3 n ++ body) =
    if zlen body <? n then
      Err (Decode (str "handshake message " ++ HandshakeType_name ty ++ str " claims a " ++ dec n ++
                   str "-byte body, " ++ dec (zlen body) ++ str " arrived"))
    else Ok (mkHandshakeMessage ty (ztake n body) (ty :: be_bytes 3 n ++ ztake n body), 4 + n).
Proof.
  intros Hn. unfold HandshakeMessage_parse. rewrite zlen_cons, zlen_app, zlen_be_bytes.
  pose proof (zlen_nonneg body). rewrite (proj2 (Z.ltb_ge _ 4)) by lia.
  assert (zslice (ty :: be_bytes 3 n ++ body) 1 3 = be_bytes 3 n) as Hs.
  { pose proof (zslice_mid [ty] (be_bytes 3 n) body) as H'. by rewrite zlen_be_bytes in H'. }
  rewrite Hs, be_val_cons_0, (be_val_u 3 24) by done. cbn [lookup list_lookup default].
  change (Z.of_nat 3) with 3. replace (1 + (3 + zlen body) - 4) with (zlen body) by lia.
  replace (1 + (3 + zlen body) <? 4 + n) with (zlen body <? n)
    by (destruct (Z.ltb_spec (zlen body) n); symmetry; [apply Z.ltb_lt|apply Z.ltb_ge]; lia).
  destruct (zlen body <? n); [done|]. unfold in_u in Hn.
  assert (ty :: be_bytes 3 n ++ body = (ty :: be_bytes 3 n) ++ body) as -> by done.
  assert (zlen (ty :: be_bytes 3 n) = 4) as Hh by (by rewrite zlen_cons, zlen_be_bytes).
  assert (zslice ((ty :: be_bytes 3 n) ++ body) 4 n = ztake n body) as ->.
  { unfold zslice, zdrop. by f_equal. }
  assert (ztake (4 + n) ((ty :: be_bytes 3 n) ++ body) = ty :: be_bytes 3 n ++ ztake n body) as ->; [|done].
  unfold ztake, zlen in *. rewrite firstn_app, take_ge by lia. cbn [app]. do 3 f_equal. lia.
Qed.

Lemma Ok_pair_inj {E A B} (a a' : A) (b b' : B) : @Ok E _ (a, b) = Ok (a', b') -> a = a' /\ b = b'.
Proof. by intros [= -> ->]. Qed.

(** The message is what the type byte, the length and that many bytes say. *)
Lemma HandshakeMessage_parse_iff bs m used :
  HandshakeMessage_parse bs = Ok (m, used) <->
  in_u 24 (zlen (hm_body m)) /\ hm_raw m = encode_handshake (msg_type m) (hm_body m) /\
  used = zlen (hm_raw m) /\ exists tl, bs = hm_raw m ++ tl.
Proof.
  rewrite encode_handshake_eq. unfold vec_enc. split.
  - intros E. destruct (Z.ltb_spec (zlen bs) 4) as [Hl|Hl].
    { unfold HandshakeMessage_parse in E. by rewrite (proj2 (Z.ltb_lt _ _) Hl) in E. }
    destruct (handshake_header bs Hl) as (ty & n & body & Hn & ->).
    rewrite HandshakeMessage_parse_eq in E by done.
    destruct (Z.ltb_spec (zlen body) n) as [|Hb]; [done|]. apply Ok_pair_inj in E as [<- <-]. cbn [hm_body hm_raw msg_type].
    assert (zlen (ztake n body) = n) as ->.
    { unfold ztake, zlen, in_u in *. rewrite length_take. lia. }
    split; [done|]. split; [done|]. split.
    { rewrite zlen_cons, zlen_app, zlen_be_bytes. unfold ztake, zlen, in_u in *. rewrite length_take. lia. }
    exists (zdrop n body). unfold ztake, zdrop.
    rewrite <- (take_drop (Z.to_nat n) body) at 1. done.
  - intros (Hn & Hr & -> & tl & ->). destruct m as [ty body raw]; cbn [hm_body hm_raw msg_type] in *. subst raw.
    cbn [app]. rewrite <- app_assoc, HandshakeMessage_parse_eq by done.
    rewrite zlen_app. pose proof (zlen_nonneg tl). rewrite (proj2 (Z.ltb_ge _ _)) by lia.
    assert (ztake (zlen body) (body ++ tl) = body) as ->.
    { unfold ztake, zlen. by rewrite Nat2Z.id, take_app_length. }
    do 2 f_equal. rewrite zlen_cons, zlen_app, zlen_be_bytes. lia.
Qed.

Lemma HandshakeMessage_parse_error bs e :
  HandshakeMessage_parse bs = Err e -> exists t, e = Decode t.
Proof. unfold HandshakeMessage_parse. repeat case_match; intros [= <-]; eauto. Qed.

(** ** Key agreement *)

Section agreement.
Context {lib : CryptoLib} {curves : CurveLib}.

Lemma p256_scalar_ok rounds round entropy bs kx :
  p256_scalar rounds round entropy bs = Ok kx ->
  exists secret, kx = P256 secret (p256_public secret) /\ p256_accepts secret = true.
Proof.
  revert round bs. induction rounds as [|rounds IH]; intros round bs E; [done|].
  cbn [p256_scalar] in E. destruct (p256_accepts bs) eqn:Ha.
  - injection E as <-. eauto.
  - apply result_bind_Ok_inv in E as (bs' & _ & E). eauto.
Qed.
End agreement.

(** ** Claims *)

(** C36: the parser of every handshake message - the ClientHello, what the server
  sends, what the client sends back, and the framing around them - accepts exactly
  what the builder writes for messages whose fields fit their length prefixes: one
  parse per encoding, one encoding per message, and a hello that is no encoding is
  reported as a decoding error. *)
Theorem handshake_messages_parse_exactly body :
  (forall h, ClientHello_parse_body body = Ok h <-> hello_ok h /\ body = ClientHello_encode_body h) /\
  (forall e, ClientHello_parse_body body = Err e -> exists t, e = Decode t) /\
  (forall m, ServerHello_parse body = Ok m <-> server_hello_ok m /\ body = server_hello_enc m) /\
  (forall m, CertificateMsg_parse body = Ok m <-> certificate_ok m /\ body = CertificateMsg_encode_body m) /\
  (forall m, CertificateRequestMsg_parse body = Ok m <-> request_ok m /\ body = request_enc m) /\
  (forall m, CertificateVerifyMsg_parse body = Ok m <-> verify_ok m /\ body = CertificateVerifyMsg_encode_body m) /\
  (forall m, NewSessionTicket_parse body = Ok m <-> ticket_ok m /\ body = ticket_enc m) /\
  (forall m, KeyUpdate_parse body = Ok m <-> body = [request_update m]) /\
  (forall m used, HandshakeMessage_parse body = Ok (m, used) <->
     in_u 24 (zlen (hm_body m)) /\ hm_raw m = encode_handshake (msg_type m) (hm_body m) /\
     used = zlen (hm_raw m) /\ exists tl, body = hm_raw m ++ tl).
Proof.
  split_and!; intros m.
  - apply (exact_iff _ _ _ exact_client_hello).
  - apply (exact_error _ _ _ exact_client_hello).
  - apply (exact_iff _ _ _ exact_server_hello).
  - apply (exact_iff _ _ _ exact_certificate).
  - apply (exact_iff _ _ _ exact_certificate_request).
  - apply (exact_iff _ _ _ exact_certificate_verify).
  - apply (exact_iff _ _ _ exact_ticket).
  - rewrite (exact_iff _ _ _ exact_key_update). tauto.
  - apply HandshakeMessage_parse_iff.
Qed.
