(* ===== verification/TlsRecord.v ===== *)
(** * The TLS record layer ([tlstest/src/tls/record.rs])

  Records on the wire, the inner plaintext of a protected record, and the layer
  that holds keys and sequence numbers.  The sequence numbers are [u64]: [+= 1]
  wraps here where a build with overflow checks panics, and every theorem bounds
  the number of records.  The theorems on records and inner plaintexts say
  exactly which bytes parse. *)

From S2P Require Import Prelude Text TlsTypes TlsCrypto TlsKeys.

(** ** Records *)

Record TlsRecord : Type := mkRecord {
  content_type : ContentType;
  legacy_version : Z;
  fragment : bytes;
  raw : bytes
}.

Definition header (r : TlsRecord) : bytes :=
  let len := wrap_u 16 (zlen (fragment r)) in
  [ContentType_as_u8 (content_type r);
   z2b (Z.shiftr (legacy_version r) 8); z2b (legacy_version r); z2b (Z.shiftr len 8); z2b len].

Definition Record_build_with_length (ct : byte) (version claimed_length : Z) (fragment : bytes) : bytes :=
  [ct] ++ be_bytes 2 version ++ be_bytes 2 claimed_length ++ fragment.

Definition Record_build (ct : byte) (version : Z) (fragment : bytes) : bytes :=
  [ct] ++ be_bytes 2 version ++ be_bytes 2 (wrap_u 16 (zlen fragment)) ++ fragment.

Definition Record_parse (bs : bytes) : TlsResult (TlsRecord * Z) :=
  if zlen bs <? 5 then
    Err (RecordError (str "a record header is five bytes; only " ++ dec (zlen bs) ++ str " arrived"))
  else
    let length := be_val (zslice bs 3 2) in
    if zlen bs <? 5 + length then
      Err (RecordError (str "the record header claims " ++ dec length ++ str " fragment bytes, " ++
                        dec (zlen bs - 5) ++ str " arrived"))
    else Ok (mkRecord (ContentType_from_u8 (default x00 (bs !! 0%nat))) (be_val (zslice bs 1 2))
               (zslice bs 5 length) (ztake (5 + length) bs), 5 + length).

Definition check_length (r : TlsRecord) (encrypted : bool) : TlsResult unit :=
  let limit := if encrypted then MAX_CIPHERTEXT else MAX_PLAINTEXT in
  if limit <? zlen (fragment r) then
    Err (RecordError (str "record.length is " ++ dec (zlen (fragment r)) ++ str ", more than the " ++
                      dec limit ++ str " byte limit of RFC 8446 section 5.1"))
  else Ok tt.

(** ** Inner plaintext *)

Record InnerPlaintext : Type := mkInner {
  in_content_type : ContentType;
  in_content : bytes;
  in_padding : nat
}.

Definition InnerPlaintext_build (ct : ContentType) (content : bytes) (padding : nat) : bytes :=
  content ++ [ContentType_as_u8 ct] ++ replicate padding x00.

(** [iter().rposition(|b| *b != 0)]. *)
Fixpoint rposition_nonzero (bs : bytes) : option nat :=
  match bs with
  | [] => None
  | b :: bs => match rposition_nonzero bs with
               | Some i => Some (S i)
               | None => if decide (b = x00) then None else Some 0%nat
               end
  end.

Definition all_zeros_text : bytes :=
  str "the decrypted record is all zeros: TLSInnerPlaintext has no content type byte (RFC 8446 section 5.4)".

Definition InnerPlaintext_parse (decrypted : bytes) : TlsResult InnerPlaintext :=
  match rposition_nonzero decrypted with
  | None => Err (RecordError all_zeros_text)
  | Some end_ =>
      Ok (mkInner (ContentType_from_u8 (default x00 (decrypted !! end_))) (take end_ decrypted)
            (length decrypted - end_ - 1))
  end.

(** ** The layer *)

Record RecordLayer : Type := mkLayer {
  write : option TrafficKeys;
  write_seq : Z;
  read : option TrafficKeys;
  read_seq : Z;
  write_version : Z
}.

Definition RecordLayer_new : RecordLayer := mkLayer None 0 None 0 LEGACY_VERSION_TLS12.
Definition set_write (k : TrafficKeys) (l : RecordLayer) : RecordLayer :=
  mkLayer (Some k) 0 (read l) (read_seq l) (write_version l).
Definition set_read (k : TrafficKeys) (l : RecordLayer) : RecordLayer :=
  mkLayer (write l) (write_seq l) (Some k) 0 (write_version l).
Definition writing_encrypted (l : RecordLayer) : bool := bool_decide (is_Some (write l)).
Definition reading_encrypted (l : RecordLayer) : bool := bool_decide (is_Some (read l)).

Definition bump_write (l : RecordLayer) : RecordLayer :=
  mkLayer (write l) (wrap_u 64 (write_seq l + 1)) (read l) (read_seq l) (write_version l).
Definition bump_read (l : RecordLayer) : RecordLayer :=
  mkLayer (write l) (write_seq l) (read l) (wrap_u 64 (read_seq l + 1)) (write_version l).

Section layer.
Context {lib : CryptoLib}.

(** A method on [&mut self]: the result and the layer it leaves. *)
Definition seal (ct : ContentType) (content : bytes) (padding : nat) (l : RecordLayer) :
    TlsResult bytes * RecordLayer :=
  match write l with
  | None => (Ok (Record_build (ContentType_as_u8 ct) (write_version l) content), l)
  | Some keys =>
      let inner := InnerPlaintext_build ct content padding in
      let length := zlen inner + tag_len (tk_aead keys) in
      if MAX_CIPHERTEXT <? length then
        (Err (RecordError (str "a protected record would be " ++ dec length ++ str " bytes, more than the " ++
                           dec MAX_CIPHERTEXT ++ str " limit")), l)
      else
        let aad := [ContentType_as_u8 ApplicationData;
                    z2b (Z.shiftr (write_version l) 8); z2b (write_version l);
                    z2b (Z.shiftr length 8); z2b length] in
        match aead_seal (tk_aead keys) (tk_key keys) (nonce keys (write_seq l)) aad inner with
        | Err e => (Err e, l)
        | Ok sealed => (Ok (aad ++ sealed), bump_write l)
        end
  end.

Definition open_error (l : RecordLayer) (n : bytes) (e : TlsError) : TlsError :=
  match e with
  | Crypto m => Crypto (m ++ [x20; xe2; x80; x94; x20] ++ str "read sequence number " ++ dec (read_seq l) ++
                        str ", nonce " ++ hex n)
  | other => other
  end.

Definition open (r : TlsRecord) (l : RecordLayer) : TlsResult InnerPlaintext * RecordLayer :=
  match read l with
  | None => (Err (RecordError (str "cannot open a record: no read keys are in force yet")), l)
  | Some keys =>
      let n := nonce keys (read_seq l) in
      match map_err (open_error l n) (aead_open (tk_aead keys) (tk_key keys) n (header r) (fragment r)) with
      | Err e => (Err e, l)
      | Ok plain => (InnerPlaintext_parse plain, bump_read l)
      end
  end.

Definition next_write_nonce (l : RecordLayer) : option bytes := (fun k => nonce k (write_seq l)) <$> write l.
Definition next_read_nonce (l : RecordLayer) : option bytes := (fun k => nonce k (read_seq l)) <$> read l.
End layer.

(** [payload.chunks(n)]: at most as many pieces as bytes. *)
Fixpoint chunks_fuel (fuel : nat) (n : nat) (payload : bytes) : list bytes :=
  match fuel, payload with
  | S fuel, _ :: _ => take n payload :: chunks_fuel fuel n (drop n payload)
  | _, _ => []
  end.
Definition chunks (n : nat) (payload : bytes) : list bytes := chunks_fuel (length payload) n payload.

Definition fragments (payload : bytes) (max : nat) : list bytes :=
  match payload with [] => [[]] | _ => chunks (Nat.max max 1) payload end.

(** ** Parsing records *)

Lemma Ok_inj {E A} (a b : A) : @Ok E A a = Ok b -> a = b.
Proof. by intros [= ->]. Qed.

Lemma record_header_split bs : 5 <= zlen bs ->
  exists ct v n body, in_u 16 v /\ in_u 16 n /\ bs = ct :: be_bytes 2 v ++ be_bytes 2 n ++ body.
Proof.
  intros Hl. destruct bs as [|ct [|b1 [|b2 [|b3 [|b4 body]]]]]; unfold zlen in Hl; cbn [length] in Hl; try lia.
  exists ct, (be_val [b1; b2]), (be_val [b3; b4]), body.
  split; [apply (be_val_range [b1; b2])|]. split; [apply (be_val_range [b3; b4])|].
  pose proof (be_bytes_val [b1; b2]) as E1. pose proof (be_bytes_val [b3; b4]) as E2.
  cbn [length] in E1, E2. by rewrite E1, E2.
Qed.

Lemma Record_parse_eq ct v n body :
  in_u 16 v -> in_u 16 n ->
  Record_parse (ct :: be_bytes 2 v ++ be_bytes 2 n ++ body) =
    if zlen body <? n then
      Err (RecordError (str "the record header claims " ++ dec n ++ str " fragment bytes, " ++
                        dec (zlen body) ++ str " arrived"))
    else Ok (mkRecord (ContentType_from_u8 ct) v (ztake n body)
               (ct :: be_bytes 2 v ++ be_bytes 2 n ++ ztake n body), 5 + n).
Proof.
  intros Hv Hn. unfold Record_parse.
  set (bs := ct :: be_bytes 2 v ++ be_bytes 2 n ++ body).
  assert (zlen bs = 5 + zlen body) as Hz.
  { unfold bs. rewrite zlen_cons, !zlen_app, !zlen_be_bytes. lia. }
  assert (zslice bs 3 2 = be_bytes 2 n) as ->.
  { pose proof (zslice_mid (ct :: be_bytes 2 v) (be_bytes 2 n) body) as H. exact H. }
  assert (zslice bs 1 2 = be_bytes 2 v) as ->.
  { pose proof (zslice_mid [ct] (be_bytes 2 v) (be_bytes 2 n ++ body)) as H. exact H. }
  rewrite !(be_val_u 2 16) by done. rewrite Hz. pose proof (zlen_nonneg body).
  rewrite (proj2 (Z.ltb_ge _ 5)) by lia. replace (5 + zlen body - 5) with (zlen body) by lia.
  replace (5 + zlen body <? 5 + n) with (zlen body <? n)
    by (destruct (Z.ltb_spec (zlen body) n); symmetry; [apply Z.ltb_lt|apply Z.ltb_ge]; lia).
  destruct (zlen body <? n); [done|]. unfold in_u in Hn.
  assert (zslice bs 5 n = ztake n body) as -> by done.
  assert (ztake (5 + n) bs = ct :: be_bytes 2 v ++ be_bytes 2 n ++ ztake n body) as ->; [|done].
  unfold ztake. rewrite Z2Nat.inj_add by lia. done.
Qed.

Lemma Record_build_eq ct v f : Record_build ct v f = ct :: be_bytes 2 v ++ be_bytes 2 (wrap_u 16 (zlen f)) ++ f.
Proof. done. Qed.

(** Parsing splits the buffer into a record and the rest. *)
Lemma Record_parse_iff bs r used :
  Record_parse bs = Ok (r, used) <->
  in_u 16 (legacy_version r) /\ in_u 16 (zlen (fragment r)) /\ canonical (content_type r) /\
  raw r = Record_build (ContentType_as_u8 (content_type r)) (legacy_version r) (fragment r) /\
  used = zlen (raw r) /\ exists tl, bs = raw r ++ tl.
Proof.
  rewrite Record_build_eq. split.
  - intros E. destruct (Z.ltb_spec (zlen bs) 5) as [Hl|Hl].
    { unfold Record_parse in E. by rewrite (proj2 (Z.ltb_lt _ _) Hl) in E. }
    destruct (record_header_split bs Hl) as (ct & v & n & body & Hv & Hn & ->).
    rewrite Record_parse_eq in E by done.
    destruct (Z.ltb_spec (zlen body) n) as [|Hb]; [done|]. apply Ok_inj, pair_equal_spec in E as [<- <-].
    cbn [content_type legacy_version fragment raw].
    assert (zlen (ztake n body) = n) as Ez.
    { unfold ztake, zlen, in_u in *. rewrite length_take. lia. }
    rewrite Ez, ContentType_as_from. unfold wrap_u. rewrite Z.mod_small by done.
    repeat split; try apply Hv; try apply Hn; [apply canonical_from_u8| |].
    + rewrite zlen_cons, !zlen_app, !zlen_be_bytes, Ez. lia.
    + exists (zdrop n body). unfold ztake, zdrop. rewrite <- (take_drop (Z.to_nat n) body) at 1. done.
  - intros (Hv & Hn & Hc & Hr & -> & tl & ->). destruct r as [ct v f r]; cbn [content_type legacy_version fragment raw] in *.
    subst r. unfold wrap_u. rewrite Z.mod_small by done.
    change ((ContentType_as_u8 ct :: be_bytes 2 v ++ be_bytes 2 (zlen f) ++ f) ++ tl)
      with (ContentType_as_u8 ct :: be_bytes 2 v ++ be_bytes 2 (zlen f) ++ f ++ tl).
    rewrite Record_parse_eq by done. rewrite zlen_app. pose proof (zlen_nonneg tl).
    rewrite (proj2 (Z.ltb_ge _ _)) by lia. rewrite Hc.
    assert (ztake (zlen f) (f ++ tl) = f) as ->.
    { unfold ztake, zlen. by rewrite Nat2Z.id, take_app_length. }
    do 2 f_equal. rewrite zlen_cons, !zlen_app, !zlen_be_bytes. lia.
Qed.

Lemma Record_parse_error bs e : Record_parse bs = Err e -> exists t, e = RecordError t.
Proof. unfold Record_parse. repeat case_match; intros [= <-]; eauto. Qed.

(** The five header bytes are the front of the record. *)
Lemma header_eq r : in_u 16 (legacy_version r) ->
  header r = [ContentType_as_u8 (content_type r)] ++ be_bytes 2 (legacy_version r) ++
             be_bytes 2 (wrap_u 16 (zlen (fragment r))).
Proof.
  intros Hv. unfold header, be_bytes. cbn [le_bytes]. unfold reverse. cbn [rev_append app].
  assert (H8 : forall z, Z.shiftr z 8 = z / 256) by (intros z; by rewrite Z.shiftr_div_pow2).
  by rewrite !H8.
Qed.

(** ** Inner plaintexts *)

Lemma rposition_zeros n : rposition_nonzero (replicate n x00) = None.
Proof. induction n as [|n IH]; [done|]. cbn. by rewrite IH. Qed.

Lemma rposition_app a b n : b <> x00 -> rposition_nonzero (a ++ b :: replicate n x00) = Some (length a).
Proof.
  intros Hb. induction a as [|x a IH]; cbn.
  - rewrite rposition_zeros. by rewrite decide_False.
  - cbn in IH. by rewrite IH.
Qed.

(** Every byte string is zeros behind its last non-zero byte. *)
Lemma rposition_None bs : rposition_nonzero bs = None -> bs = replicate (length bs) x00.
Proof.
  induction bs as [|b bs IH]; [done|]. cbn. destruct (rposition_nonzero bs); [done|].
  destruct (decide (b = x00)) as [->|]; [|done]. intros _. by rewrite <- IH.
Qed.

Lemma rposition_Some bs i : rposition_nonzero bs = Some i ->
  exists a b n, bs = a ++ b :: replicate n x00 /\ b <> x00 /\ i = length a.
Proof.
  revert i. induction bs as [|x bs IH]; intros i; [done|]. cbn.
  destruct (rposition_nonzero bs) as [j|] eqn:E.
  - intros [= <-]. destruct (IH j eq_refl) as (a & b & n & -> & Hb & ->).
    by exists (x :: a), b, n.
  - destruct (decide (x = x00)); [done|]. intros [= <-]. apply rposition_None in E.
    by exists [], x, (length bs); rewrite <- E.
Qed.

Lemma InnerPlaintext_parse_iff bs p :
  InnerPlaintext_parse bs = Ok p <->
  canonical (in_content_type p) /\ ContentType_as_u8 (in_content_type p) <> x00 /\
  bs = InnerPlaintext_build (in_content_type p) (in_content p) (in_padding p).
Proof.
  assert (Hlen : forall a b n, (length (a ++ b :: replicate n x00) - length a - 1 = n)%nat).
  { intros a b n. rewrite length_app. cbn [length]. rewrite length_replicate. lia. }
  unfold InnerPlaintext_parse, InnerPlaintext_build. cbn [app]. split.
  - destruct (rposition_nonzero bs) as [i|] eqn:E; [|done].
    apply rposition_Some in E as (a & b & n & -> & Hb & ->). intros <-%Ok_inj.
    cbn [in_content_type in_content in_padding].
    rewrite Hlen, take_app_length, list_lookup_middle by done. cbn [default].
    rewrite ContentType_as_from. repeat split; [apply canonical_from_u8|done].
  - intros (Hc & Hb & ->). rewrite rposition_app by done.
    rewrite Hlen, take_app_length, list_lookup_middle by done. cbn [default].
    unfold canonical, id in *. rewrite Hc. by destruct p.
Qed.

Lemma InnerPlaintext_parse_error bs e :
  InnerPlaintext_parse bs = Err e -> e = RecordError all_zeros_text /\ bs = replicate (length bs) x00.
Proof.
  unfold InnerPlaintext_parse. destruct (rposition_nonzero bs) eqn:E; [done|].
  apply rposition_None in E. by intros [= <-].
Qed.

(** ** Fragments *)

Lemma chunks_fuel_concat fuel n payload :
  (0 < n)%nat -> (length payload <= fuel)%nat -> concat (chunks_fuel fuel n payload) = payload.
Proof.
  intros Hn. revert payload. induction fuel as [|fuel IH]; intros [|b p] Hf; cbn [length] in Hf; try done; [lia|].
  change (chunks_fuel (S fuel) n (b :: p)) with (take n (b :: p) :: chunks_fuel fuel n (drop n (b :: p))).
  rewrite concat_cons, IH; [apply take_drop|]. rewrite length_drop. cbn [length]. lia.
Qed.

Lemma chunks_fuel_sizes fuel n payload :
  (0 < n)%nat -> Forall (fun f => (0 < length f <= n)%nat) (chunks_fuel fuel n payload).
Proof.
  intros Hn. revert payload. induction fuel as [|fuel IH]; intros [|b p]; try by constructor.
  change (chunks_fuel (S fuel) n (b :: p)) with (take n (b :: p) :: chunks_fuel fuel n (drop n (b :: p))).
  constructor; [|done]. rewrite length_take. cbn [length]. lia.
Qed.

Lemma fragments_concat payload max : concat (fragments payload max) = payload.
Proof. destruct payload; [done|]. apply chunks_fuel_concat; lia. Qed.

Lemma fragments_sizes payload max :
  fragments payload max <> [] /\ Forall (fun f => (length f <= Nat.max max 1)%nat) (fragments payload max).
Proof.
  destruct payload as [|b p].
  - split; [done|]. repeat constructor. simpl. lia.
  - split; [done|]. eapply Forall_impl; [apply (chunks_fuel_sizes _ (Nat.max max 1)); lia|]. simpl. lia.
Qed.

(** ** Claims *)

(** A buffer parses as a record exactly when it starts with one - header,
  claimed length and that many bytes - and a decrypted fragment parses exactly
  when it is a content, a non-zero type byte and padding; cutting a payload into
  fragments loses nothing and keeps every fragment within the limit. *)
Theorem records_parse_exactly bs payload max :
  (forall r used, Record_parse bs = Ok (r, used) <->
     in_u 16 (legacy_version r) /\ in_u 16 (zlen (fragment r)) /\ canonical (content_type r) /\
     raw r = Record_build (ContentType_as_u8 (content_type r)) (legacy_version r) (fragment r) /\
     used = zlen (raw r) /\ exists tl, bs = raw r ++ tl) /\
  (forall p, InnerPlaintext_parse bs = Ok p <->
     canonical (in_content_type p) /\ ContentType_as_u8 (in_content_type p) <> x00 /\
     bs = InnerPlaintext_build (in_content_type p) (in_content p) (in_padding p)) /\
  concat (fragments payload max) = payload /\
  Forall (fun f => (length f <= Nat.max max 1)%nat) (fragments payload max).
Proof.
  split_and!.
  - intros r used. apply Record_parse_iff.
  - intros p. apply InnerPlaintext_parse_iff.
  - apply fragments_concat.
  - apply fragments_sizes.
Qed.
