(* ===== verification/TlsLayer.v ===== *)
(** * What the record layer guarantees

  A sealed record opens to what was sealed, an opened record was sealed under
  the same key and sequence number, and no nonce is used twice under one
  installation of the write keys. *)

From S2P Require Import Prelude Text TlsTypes TlsCrypto TlsKeys TlsRecord.

Section layer.
Context {lib : CryptoLib} {laws : CryptoLaws lib}.

Lemma zlen_inner ct content padding :
  zlen (InnerPlaintext_build ct content padding) = zlen content + 1 + Z.of_nat padding.
Proof. unfold InnerPlaintext_build. rewrite !zlen_app, zlen_replicate, zlen_cons, zlen_nil. lia. Qed.

(** The sealed size, which the limit is about. *)
Definition sealed_len (content : bytes) (padding : nat) : Z := zlen content + 1 + Z.of_nat padding + 16.

Lemma aad_eq v n : in_u 16 v -> 0 <= n <= MAX_CIPHERTEXT ->
  [ContentType_as_u8 ApplicationData; z2b (Z.shiftr v 8); z2b v; z2b (Z.shiftr n 8); z2b n] =
  [x17] ++ be_bytes 2 v ++ be_bytes 2 (wrap_u 16 n).
Proof.
  intros Hv Hn. unfold wrap_u. rewrite Z.mod_small by (unfold MAX_CIPHERTEXT in *; lia).
  unfold be_bytes. cbn [le_bytes]. unfold reverse. cbn [rev_append app].
  assert (H8 : forall z, Z.shiftr z 8 = z / 256) by (intros z; by rewrite Z.shiftr_div_pow2).
  by rewrite !H8.
Qed.

Lemma aead_key_ok k : keys_ok k -> aead_key (tk_aead k) (tk_key k) = true.
Proof. intros [Hk _]. rewrite aead_key_len. by apply bool_decide_eq_true. Qed.

Lemma nonce_size k s : keys_ok k -> zlen (nonce k s) = iv_len (tk_aead k).
Proof. intros [_ Hi]. by apply zlen_nonce. Qed.

(** What [seal] writes once keys are in force. *)
Lemma seal_encrypted l k ct content padding :
  write l = Some k -> keys_ok k -> in_u 16 (write_version l) ->
  sealed_len content padding <= MAX_CIPHERTEXT ->
  exists sealed,
    zlen sealed = sealed_len content padding /\
    aead_encrypt (tk_aead k) (tk_key k) (nonce k (write_seq l))
      ([x17] ++ be_bytes 2 (write_version l) ++ be_bytes 2 (wrap_u 16 (zlen sealed)))
      (InnerPlaintext_build ct content padding) = Some sealed /\
    seal ct content padding l = (Ok (Record_build x17 (write_version l) sealed), bump_write l).
Proof.
  intros Hw Hk Hv Hs. unfold sealed_len in *. pose proof (zlen_nonneg content).
  pose proof (aead_encrypt_total (tk_aead k) (tk_key k) (nonce k (write_seq l))
    ([x17] ++ be_bytes 2 (write_version l) ++ be_bytes 2 (wrap_u 16 (sealed_len content padding)))
    (InnerPlaintext_build ct content padding) (aead_key_ok k Hk) (nonce_size k _ Hk)) as Ht.
  rewrite zlen_inner in Ht. destruct Ht as (sealed & He & Hz); [lia|]. exists sealed.
  unfold tag_len in Hz. split; [done|]. rewrite Hz. unfold sealed_len in He. split; [done|].
  unfold seal. rewrite Hw, zlen_inner. unfold tag_len. rewrite (proj2 (Z.ltb_ge _ _)) by lia.
  rewrite aad_eq by (done || lia). unfold aead_seal. rewrite aead_key_ok by done. cbn [negb].
  rewrite He. cbn [ok_or]. unfold Record_build. by rewrite Hz, <- !app_assoc.
Qed.

Lemma seal_plain l ct content padding :
  write l = None ->
  seal ct content padding l = (Ok (Record_build (ContentType_as_u8 ct) (write_version l) content), l).
Proof. intros Hw. unfold seal. by rewrite Hw. Qed.

(** Opening under the same key and number what [aead_encrypt] made. *)
Lemma open_sealed l k v ct content padding sealed raw :
  read l = Some k -> keys_ok k -> in_u 16 v -> canonical ct -> ContentType_as_u8 ct <> x00 ->
  aead_encrypt (tk_aead k) (tk_key k) (nonce k (read_seq l))
    ([x17] ++ be_bytes 2 v ++ be_bytes 2 (wrap_u 16 (zlen sealed)))
    (InnerPlaintext_build ct content padding) = Some sealed ->
  open (mkRecord ApplicationData v sealed raw) l = (Ok (mkInner ct content padding), bump_read l).
Proof.
  intros Hr Hk Hv Hc Hz He. unfold open. rewrite Hr, header_eq by done.
  cbn [content_type legacy_version fragment ContentType_as_u8]. unfold aead_open.
  rewrite aead_key_ok by done. cbn [negb].
  apply (aead_decrypt_iff _ _ _ _ _ _ (aead_key_ok k Hk) (nonce_size k _ Hk)) in He.
  rewrite He. cbn [ok_or map_err]. f_equal. by apply InnerPlaintext_parse_iff.
Qed.

(** Whatever opens was sealed under the key and the number in force. *)
Lemma open_inv l r p l' :
  (forall k, read l = Some k -> keys_ok k) ->
  open r l = (Ok p, l') ->
  exists k, read l = Some k /\ l' = bump_read l /\
    aead_encrypt (tk_aead k) (tk_key k) (nonce k (read_seq l)) (header r)
      (InnerPlaintext_build (in_content_type p) (in_content p) (in_padding p)) = Some (fragment r).
Proof.
  intros Hk E. unfold open in E. destruct (read l) as [k|] eqn:Hr; [|done]. specialize (Hk k eq_refl).
  unfold aead_open in E. rewrite aead_key_ok in E by done. cbn [negb] in E.
  destruct (aead_decrypt _ _ _ _ _) as [plain|] eqn:Ed; [|done]. cbn [ok_or map_err] in E.
  apply pair_equal_spec in E as [Ep <-]. apply InnerPlaintext_parse_iff in Ep as (_ & _ & ->).
  apply (aead_decrypt_iff _ _ _ _ _ _ (aead_key_ok k Hk) (nonce_size k _ Hk)) in Ed. eauto.
Qed.

(** ** Runs of the layer *)

Inductive LayerOp : Type :=
| DoSeal (ct : ContentType) (content : bytes) (padding : nat)
| DoOpen (r : TlsRecord)
| DoSetWrite (k : TrafficKeys)
| DoSetRead (k : TrafficKeys).

Definition layer_step (op : LayerOp) (l : RecordLayer) : RecordLayer :=
  match op with
  | DoSeal ct content padding => (seal ct content padding l).2
  | DoOpen r => (open r l).2
  | DoSetWrite k => set_write k l
  | DoSetRead k => set_read k l
  end.

(** The nonces of the records sealed in a run, each with the number of the
  installation of write keys it was used under. *)
Definition step_nonce (epoch : nat) (op : LayerOp) (l : RecordLayer) : list (nat * bytes) :=
  match op, write l with
  | DoSeal ct content padding, Some k =>
      if is_ok (seal ct content padding l).1 then [(epoch, nonce k (write_seq l))] else []
  | _, _ => []
  end.

Definition step_epoch (op : LayerOp) (epoch : nat) : nat :=
  match op with DoSetWrite _ => S epoch | _ => epoch end.

Fixpoint nonces (epoch : nat) (ops : list LayerOp) (l : RecordLayer) : list (nat * bytes) :=
  match ops with
  | [] => []
  | op :: ops => step_nonce epoch op l ++ nonces (step_epoch op epoch) ops (layer_step op l)
  end.

Definition op_keys_ok (op : LayerOp) : Prop :=
  match op with DoSetWrite k | DoSetRead k => keys_ok k | _ => True end.

Definition layer_ok (l : RecordLayer) : Prop :=
  (forall k, write l = Some k -> keys_ok k) /\ (forall k, read l = Some k -> keys_ok k) /\
  in_u 64 (write_seq l) /\ in_u 64 (read_seq l).

Lemma layer_ok_new : layer_ok RecordLayer_new.
Proof. by repeat split. Qed.

Lemma in_u64_wrap z : in_u 64 (wrap_u 64 z).
Proof. apply Z.mod_pos_bound. lia. Qed.

Lemma seal_layer ct content padding l :
  (seal ct content padding l).2 =
  if is_ok (seal ct content padding l).1 && bool_decide (is_Some (write l)) then bump_write l else l.
Proof. unfold seal. destruct (write l); [|done]. case_match; [done|]. by case_match. Qed.

Lemma open_layer r l : (open r l).2 = l \/ (open r l).2 = bump_read l.
Proof. unfold open. destruct (read l); [|by left]. case_match; auto. Qed.

(** The invariant of the layer: keys of the right sizes, numbers in range. *)
Lemma layer_step_ok op l : op_keys_ok op -> layer_ok l -> layer_ok (layer_step op l).
Proof.
  intros Hop (Hw & Hr & Hws & Hrs). destruct op as [ct content padding|r|k|k]; cbn [layer_step].
  - rewrite seal_layer. case_match; [|done]. split_and!; cbn; auto using in_u64_wrap.
  - destruct (open_layer r l) as [-> | ->]; [done|]. split_and!; cbn; auto using in_u64_wrap.
  - split_and!; cbn; auto; [|done]. by intros ? [= <-].
  - split_and!; cbn; auto; [|done]. by intros ? [= <-].
Qed.

(** Every nonce of a run from [l] belongs to a later installation of keys, or to
  the current one with a number not used yet. *)
Lemma nonces_fresh epoch ops l e n :
  layer_ok l -> Forall op_keys_ok ops -> write_seq l + zlen ops < 2 ^ 64 ->
  (e, n) ∈ nonces epoch ops l ->
  (epoch < e)%nat \/
  e = epoch /\ exists k s, write l = Some k /\ n = nonce k s /\ write_seq l <= s < 2 ^ 64.
Proof.
  intros Hl Hops. revert epoch l Hl. induction Hops as [|op ops Hop _ IH]; intros epoch l Hl Hb Hin.
  { by apply elem_of_nil in Hin. }
  cbn [nonces] in Hin. apply elem_of_app in Hin as [Hin|Hin].
  - unfold step_nonce in Hin. destruct op as [ct content padding|r|k|k]; try by apply elem_of_nil in Hin.
    destruct (write l) as [k|] eqn:Hw; [|by apply elem_of_nil in Hin].
    case_match; [|by apply elem_of_nil in Hin]. apply list_elem_of_singleton in Hin as [= -> ->].
    right. split; [done|]. exists k, (write_seq l). rewrite zlen_cons in Hb. pose proof (zlen_nonneg ops).
    split; [done|]. split; [done|]. lia.
  - rewrite zlen_cons in Hb. pose proof (zlen_nonneg ops). pose proof (layer_step_ok op l Hop Hl) as Hl'.
    destruct Hl as (_ & _ & Hs & _). unfold in_u in Hs.
    destruct op as [ct content padding|r|k|k]; cbn [layer_step step_epoch] in *.
    + rewrite seal_layer in *. case_match.
      * apply IH in Hin; [|done|cbn; unfold wrap_u; rewrite Z.mod_small by lia; lia].
        destruct Hin as [|(-> & k & s & Hw & -> & Hs')]; [by left|right]. cbn in Hw, Hs'.
        unfold wrap_u in Hs'. rewrite Z.mod_small in Hs' by lia.
        split; [done|]. exists k, s. split; [done|]. split; [done|]. lia.
      * apply IH in Hin; [done|done|lia].
    + assert (write (open r l).2 = write l /\ write_seq (open r l).2 = write_seq l) as [Ew Es].
      { by destruct (open_layer r l) as [-> | ->]. }
      apply IH in Hin; [by rewrite <- Ew, <- Es|done|lia].
    + apply IH in Hin; [|done|cbn; lia]. left. destruct Hin as [|[-> _]]; lia.
    + apply IH in Hin; [done|done|cbn; lia].
Qed.

Lemma nonces_NoDup epoch ops l :
  layer_ok l -> Forall op_keys_ok ops -> write_seq l + zlen ops < 2 ^ 64 ->
  NoDup (nonces epoch ops l).
Proof.
  intros Hl Hops. revert epoch l Hl. induction Hops as [|op ops Hop Hops IH]; intros epoch l Hl Hb.
  { constructor. }
  rewrite zlen_cons in Hb. pose proof (zlen_nonneg ops). pose proof (layer_step_ok op l Hop Hl) as Hl'.
  assert (write_seq (layer_step op l) <= write_seq l + 1) as Hseq.
  { destruct Hl as (_ & _ & Hs & _). unfold in_u in Hs.
    destruct op as [ct content padding|r|k|k]; cbn [layer_step].
    - rewrite seal_layer. case_match; [|lia]. cbn. unfold wrap_u. rewrite Z.mod_small; lia.
    - destruct (open_layer r l) as [-> | ->]; cbn; lia.
    - cbn. lia.
    - cbn. lia. }
  cbn [nonces]. apply NoDup_app. split; [|split; [|by apply IH; [|lia]]].
  { unfold step_nonce. repeat case_match; try apply NoDup_nil_2. apply NoDup_singleton. }
  intros [e n] Hin Hin'. unfold step_nonce in Hin.
  destruct op as [ct content padding|r|k|k]; try by apply elem_of_nil in Hin.
  destruct (write l) as [k|] eqn:Hw; [|by apply elem_of_nil in Hin].
  destruct (is_ok (seal ct content padding l).1) eqn:Hok; [|by apply elem_of_nil in Hin].
  apply list_elem_of_singleton in Hin as [= -> ->]. cbn [layer_step step_epoch] in *.
  apply nonces_fresh in Hin'; [|done|done|lia]. destruct Hin' as [|(_ & k' & s & Hw' & E & Hs)]; [lia|].
  rewrite seal_layer, Hok, Hw in Hw', Hs. cbn in Hw', Hs. rewrite Hw in Hw'. injection Hw' as <-.
  destruct Hl as (Hk & _ & Hseq' & _). destruct (Hk k Hw) as [_ Hiv].
  unfold in_u in Hseq'. unfold wrap_u in Hs. rewrite Z.mod_small in Hs by lia.
  apply nonce_inj in E; [lia|done|done|unfold in_u; lia].
Qed.
End layer.

(** ** Claims *)

Definition toy_keys : TrafficKeys := mkTrafficKeys [] (replicate 16 x07) (replicate 12 x09) Aes128Gcm Sha256.

Lemma toy_keys_ok : keys_ok toy_keys.
Proof. done. Qed.



(** A record opens only if its fragment is the encryption, under the key and
  the sequence number in force and with its own header as additional data, of
  exactly the content, type and padding that are returned; the count moves on by
  one, and a record that does not authenticate leaves the layer as it was. *)
Theorem opened_was_sealed {lib : CryptoLib} {laws : CryptoLaws lib} l r :
  layer_ok l ->
  (forall p l', open r l = (Ok p, l') ->
     exists k, read l = Some k /\ l' = bump_read l /\
       aead_encrypt (tk_aead k) (tk_key k) (nonce k (read_seq l)) (header r)
         (InnerPlaintext_build (in_content_type p) (in_content p) (in_padding p)) = Some (fragment r)) /\
  (forall t l', open r l = (Err (Crypto t), l') -> l' = l).
Proof.
  intros (_ & Hr & _). split.
  - intros p l' E. by apply (open_inv l r p l' Hr).
  - intros t l' E. unfold open in E. destruct (read l); [|done]. destruct (map_err _ _) eqn:Em.
    + apply pair_equal_spec in E as [E _]. by apply InnerPlaintext_parse_error in E as [? _].
    + by apply pair_equal_spec in E as [_ <-].
Qed.

Lemma opened_was_sealed_witness :
  let lib := toy_lib in
  let l := set_read toy_keys RecordLayer_new in
  let r := mkRecord ApplicationData 0x0303 ([x01; x16] ++ replicate 16 x00) [] in
  exists k, read l = Some k /\ bump_read l = bump_read l /\
    aead_encrypt (tk_aead k) (tk_key k) (nonce k (read_seq l)) (header r)
      (InnerPlaintext_build Handshake [x01] 0) = Some (fragment r).
Proof.
  intros lib l r.
  assert (layer_ok l) as Hl.
  { split; [done|]. split; [|done]. intros k [= <-]. apply toy_keys_ok. }
  apply (proj1 (opened_was_sealed (laws := toy_laws) l r Hl) (mkInner Handshake [x01] 0)). by vm_compute.
Defined.
