(* ===== verification/TlsConn.v ===== *)
(** * One TLS connection ([tlstest/src/tls/conn.rs])

  The state of a connection, its write methods and the read loops.  The socket
  is the list of what will happen on it: a read takes the next event.  Deadlines
  are events too: [Late] is a deadline found to have passed when the code looks
  at the clock, [Stall] one that passes while it waits.  A method that fails
  keeps the state it had reached ([C]). *)

From S2P Require Import Prelude Text TlsTypes TlsCrypto TlsMsg TlsRecord.

(** ** State *)

Inductive Direction : Type := Sent | Received.
Definition arrow_of (d : Direction) : bytes :=
  match d with Sent => str "-->" | Received => str "<--" end.

Record TraceEntry : Type := mkTraceEntry {
  te_direction : Direction;
  te_what : bytes;
  te_bytes : bytes;
  te_encrypted : bool
}.

(** [{:>w}]. *)
Definition pad_left (w : nat) (bs : bytes) : bytes := replicate (w - char_count bs) space ++ bs.

Definition TraceEntry_line (t : TraceEntry) : bytes :=
  arrow_of (te_direction t) ++ str " " ++ pad_right 34 (te_what t) ++ str " " ++
  pad_left 5 (dec (zlen (te_bytes t))) ++ str " bytes  " ++
  (if te_encrypted t then str "[encrypted] " else []) ++ hex_prefix (te_bytes t) 12.

Inductive Incoming : Type :=
| InHandshake (m : HandshakeMessage)
| InAlert (a : AlertMsg)
| InAppData (d : bytes)
| InChangeCipherSpec (r : TlsRecord)
| InUnexpected (r : TlsRecord).

Definition Incoming_describe (i : Incoming) : bytes :=
  match i with
  | InHandshake m => str "handshake " ++ HandshakeMessage_name m
  | InAlert a => str "alert " ++ Alert_describe a
  | InAppData d => str "application_data, " ++ dec (zlen d) ++ str " bytes"
  | InChangeCipherSpec _ => str "change_cipher_spec"
  | InUnexpected r => str "a " ++ ContentType_name (content_type r) ++ str " record"
  end.

(** What the next operations of the socket will do.  [Data] is what the peer has
  sent; a read returns at most a buffer of it. *)
Inductive SockEvent : Type :=
| Data (bs : bytes)
| PeerClosed
| ReadError (k : IoKind)
| Stall
| Late.

(** [outgoing]: what was written; a write fails when [out_error] is set. *)
Record Socket : Type := mkSocket {
  incoming : list SockEvent;
  outgoing : bytes;
  out_error : option IoKind;
  out_shut : bool
}.

Record TlsConn : Type := mkConn {
  stream : Socket;
  layer : RecordLayer;
  inbuf : bytes;
  hs_buf : bytes;
  app_buf : list bytes;
  trace : list TraceEntry;
  records_in : list TlsRecord;
  last_alert : option AlertMsg;
  server_closed : bool
}.

Definition with_stream (s : Socket) (c : TlsConn) : TlsConn :=
  mkConn s (layer c) (inbuf c) (hs_buf c) (app_buf c) (trace c) (records_in c) (last_alert c) (server_closed c).
Definition with_layer (l : RecordLayer) (c : TlsConn) : TlsConn :=
  mkConn (stream c) l (inbuf c) (hs_buf c) (app_buf c) (trace c) (records_in c) (last_alert c) (server_closed c).
Definition with_inbuf (b : bytes) (c : TlsConn) : TlsConn :=
  mkConn (stream c) (layer c) b (hs_buf c) (app_buf c) (trace c) (records_in c) (last_alert c) (server_closed c).
Definition with_hs_buf (b : bytes) (c : TlsConn) : TlsConn :=
  mkConn (stream c) (layer c) (inbuf c) b (app_buf c) (trace c) (records_in c) (last_alert c) (server_closed c).
Definition with_app_buf (b : list bytes) (c : TlsConn) : TlsConn :=
  mkConn (stream c) (layer c) (inbuf c) (hs_buf c) b (trace c) (records_in c) (last_alert c) (server_closed c).
Definition with_trace (t : list TraceEntry) (c : TlsConn) : TlsConn :=
  mkConn (stream c) (layer c) (inbuf c) (hs_buf c) (app_buf c) t (records_in c) (last_alert c) (server_closed c).
Definition with_records_in (r : list TlsRecord) (c : TlsConn) : TlsConn :=
  mkConn (stream c) (layer c) (inbuf c) (hs_buf c) (app_buf c) (trace c) r (last_alert c) (server_closed c).
Definition with_last_alert (a : option AlertMsg) (c : TlsConn) : TlsConn :=
  mkConn (stream c) (layer c) (inbuf c) (hs_buf c) (app_buf c) (trace c) (records_in c) a (server_closed c).
Definition with_server_closed (b : bool) (c : TlsConn) : TlsConn :=
  mkConn (stream c) (layer c) (inbuf c) (hs_buf c) (app_buf c) (trace c) (records_in c) (last_alert c) b.

(** What [connect] returns once the TCP connection is there. *)
Definition TlsConn_new (s : Socket) : TlsConn := mkConn s RecordLayer_new [] [] [] [] [] None false.

(** ** Methods *)

Definition C (A : Type) : Type := TlsConn -> TlsResult A * TlsConn.
#[global] Instance C_ret : MRet C := fun A a c => (Ok a, c).
#[global] Instance C_bind : MBind C := fun A B f m c =>
  match m c with (Ok a, c) => f a c | (Err e, c) => (Err e, c) end.
Definition c_get : C TlsConn := fun c => (Ok c, c).
Definition c_err {A} (e : TlsError) : C A := fun c => (Err e, c).
Definition c_try {A} (r : TlsResult A) : C A := fun c => (r, c).
Definition c_modify (f : TlsConn -> TlsConn) : C unit := fun c => (Ok tt, f c).
(** A method of the record layer. *)
Definition c_layer {A} (m : RecordLayer -> TlsResult A * RecordLayer) : C A := fun c =>
  let '(r, l) := m (layer c) in (r, with_layer l c).

Definition c_trace (d : Direction) (what bs : bytes) (enc : bool) : C unit :=
  c_modify (fun c => with_trace (trace c ++ [mkTraceEntry d what bs enc]) c).
Definition note (what : bytes) : C unit := c_trace Sent what [] false.

(** [write_all] and [flush]. *)
Definition c_write (bs : bytes) : C unit := fun c =>
  let s := stream c in
  match out_error s with
  | Some k => (Err (Io k), c)
  | None => (Ok tt, with_stream (mkSocket (incoming s) (outgoing s ++ bs) None (out_shut s)) c)
  end.

Definition write_raw (bs : bytes) : C unit := _ ← c_write bs; c_trace Sent (str "raw bytes") bs false.

Section conn.
Context {lib : CryptoLib}.

Definition write_record_padded (ct : ContentType) (content : bytes) (padding : nat) : C unit :=
  c ← c_get;
  let encrypted := writing_encrypted (layer c) in
  bs ← c_layer (seal ct content padding);
  _ ← c_write bs;
  c_trace Sent (str "record " ++ ContentType_name ct) bs encrypted.

Definition write_record (ct : ContentType) (content : bytes) : C unit := write_record_padded ct content 0.

Definition handshake_name (message : bytes) : bytes :=
  match HandshakeMessage_parse message with
  | Ok (m, _) => HandshakeMessage_name m
  | Err _ => str "handshake (unparsable)"
  end.

Definition write_handshake (message : bytes) : C unit :=
  c ← c_get;
  let encrypted := writing_encrypted (layer c) in
  bs ← c_layer (seal Handshake message 0);
  _ ← c_write bs;
  c_trace Sent (handshake_name message) message encrypted.

Definition write_app_data (data : bytes) : C unit := write_record ApplicationData data.

Definition write_change_cipher_spec : C unit :=
  let bs := Record_build (ContentType_as_u8 ChangeCipherSpec) LEGACY_VERSION_TLS12 [x01] in
  _ ← c_write bs;
  c_trace Sent (str "record change_cipher_spec(20)") bs false.

Definition write_alert (a : AlertMsg) : C unit := write_record Alert (Alert_encode a).

Definition shutdown_write : C unit :=
  c ← c_get;
  let s := stream c in
  match out_error s with
  | Some k => c_err (Io k)
  | None =>
      _ ← c_modify (with_stream (mkSocket (incoming s) (outgoing s) None true));
      c_trace Sent (str "TCP FIN (write half closed)") [] false
  end.

(** ** Reading *)

Definition is_reset (k : IoKind) : bool :=
  match k with ConnectionReset | BrokenPipe => true | OtherKind _ => false end.

Definition set_incoming (evs : list SockEvent) (c : TlsConn) : TlsConn :=
  with_stream (mkSocket evs (outgoing (stream c)) (out_error (stream c)) (out_shut (stream c))) c.

(** What one [read] of at most [n] bytes under a timeout returns: [Ok(n)] with
  the bytes, [Ok(0)], an error, or nothing in time.  The end of the stream
  stays. *)
Inductive ReadResult : Type := RdBytes (bs : bytes) | RdClosed | RdError (k : IoKind) | RdElapsed.

Definition sock_read (n : nat) (c : TlsConn) : ReadResult * TlsConn :=
  match incoming (stream c) with
  | [] => (RdElapsed, c)
  | Data [] :: evs => (RdClosed, c)
  | Data bs :: evs =>
      (RdBytes (take n bs),
       set_incoming (match drop n bs with [] => evs | more => Data more :: evs end) c)
  | PeerClosed :: _ => (RdClosed, c)
  | ReadError k :: evs => (RdError k, set_incoming evs c)
  | Stall :: evs | Late :: evs => (RdElapsed, set_incoming evs c)
  end.

(** [false] when the peer closed. *)
Definition fill (what : bytes) : C bool := fun c =>
  match sock_read 16384 c with
  | (RdElapsed, c) => (Err (Timeout what), c)
  | (RdClosed, c) => (Ok false, with_server_closed true c)
  | (RdBytes bs, c) => (Ok true, with_inbuf (inbuf c ++ bs) c)
  | (RdError k, c) => if is_reset k then (Ok false, with_server_closed true c) else (Err (Io k), c)
  end.

(** [left.is_zero()]: a passed deadline is reported once; the next call starts
  with a new one. *)
Definition check_deadline (what : bytes) : C unit := fun c =>
  match incoming (stream c) with
  | Late :: evs => (Err (Timeout what), set_incoming evs c)
  | _ => (Ok tt, c)
  end.

Definition a_record : bytes := str "a record from the server".

(** A whole record at the front of the buffer. *)
Definition record_ready (c : TlsConn) : bool :=
  (5 <=? zlen (inbuf c)) && (5 + be_val (zslice (inbuf c) 3 2) <=? zlen (inbuf c)).

Definition take_record : C TlsRecord :=
  c ← c_get;
  '(record, used) ← c_try (Record_parse (inbuf c));
  _ ← c_modify (with_inbuf (zdrop used (inbuf c)));
  let enc := bool_decide (content_type record = ApplicationData) && reading_encrypted (layer c) in
  _ ← c_trace Received (str "record " ++ ContentType_name (content_type record)) (raw record) enc;
  _ ← c_modify (fun c => with_records_in (records_in c ++ [record]) c);
  mret record.

(** Every round but the last takes bytes from the socket. *)
Fixpoint read_record_loop (fuel : nat) : C TlsRecord :=
  c ← c_get;
  if record_ready c then take_record
  else match fuel with
       | O => c_err (Timeout a_record)
       | S fuel =>
           _ ← check_deadline a_record;
           more ← fill a_record;
           if more : bool then read_record_loop fuel else c_err Closed
       end.

(** The bytes still to come. *)
Definition event_bytes (e : SockEvent) : nat := match e with Data bs => length bs | _ => 0%nat end.
Definition coming (c : TlsConn) : nat := list_sum (map event_bytes (incoming (stream c))).

Definition read_record_within : C TlsRecord := fun c => read_record_loop (S (coming c)) c.
Definition read_record : C TlsRecord := read_record_within.

Definition pop_handshake : C (option HandshakeMessage) :=
  c ← c_get;
  if zlen (hs_buf c) <? 4 then mret None
  else if zlen (hs_buf c) <? 4 + be_val (x00 :: zslice (hs_buf c) 1 3) then mret None
  else
    '(message, used) ← c_try (HandshakeMessage_parse (hs_buf c));
    _ ← c_modify (with_hs_buf (zdrop used (hs_buf c)));
    mret (Some message).

Definition receive_alert (body : bytes) : C Incoming :=
  alert ← c_try (Alert_parse body);
  _ ← c_modify (with_last_alert (Some alert));
  mret (InAlert alert).

(** What a record contributes: something to return, or bytes to a buffer. *)
Definition classify (record : TlsRecord) : C (option Incoming) :=
  c ← c_get;
  let enc := reading_encrypted (layer c) in
  match content_type record with
  | ChangeCipherSpec => mret (Some (InChangeCipherSpec record))
  | ApplicationData =>
      if enc then
        inner ← c_layer (open record);
        _ ← c_trace Received (str "decrypted " ++ ContentType_name (in_content_type inner)) (in_content inner) true;
        match in_content_type inner with
        | Handshake =>
            _ ← c_modify (fun c => with_hs_buf (hs_buf c ++ in_content inner) c); mret None
        | Alert => i ← receive_alert (in_content inner); mret (Some i)
        | ApplicationData =>
            _ ← c_modify (fun c => with_app_buf (app_buf c ++ [in_content inner]) c); mret None
        | _ => mret (Some (InUnexpected record))
        end
      else mret (Some (InUnexpected record))
  | Handshake =>
      if negb enc then
        _ ← c_modify (fun c => with_hs_buf (hs_buf c ++ fragment record) c); mret None
      else mret (Some (InUnexpected record))
  | Alert =>
      if zlen (fragment record) =? 2 then i ← receive_alert (fragment record); mret (Some i)
      else mret (Some (InUnexpected record))
  | OtherType _ => mret (Some (InUnexpected record))
  end.

Definition next_message_text : bytes := str "the next TLS message".

(** Every round but the last takes a record, and a record is at least five
  bytes. *)
Fixpoint next_message_loop (fuel : nat) : C Incoming :=
  message ← pop_handshake;
  match message with
  | Some m => mret (InHandshake m)
  | None =>
      c ← c_get;
      match app_buf c with
      | d :: rest => _ ← c_modify (with_app_buf rest); mret (InAppData d)
      | [] =>
          match fuel with
          | O => c_err (Timeout next_message_text)
          | S fuel =>
              _ ← check_deadline next_message_text;
              record ← read_record_within;
              i ← classify record;
              match i with Some i => mret i | None => next_message_loop fuel end
          end
      end
  end.

Definition next_message_within : C Incoming := fun c =>
  next_message_loop (S (length (inbuf c) + coming c)) c.
Definition next_message : C Incoming := next_message_within.

Definition has_partial_handshake (c : TlsConn) : bool := bool_decide (hs_buf c <> []).
Definition buffered_app_data : C (list bytes) :=
  c ← c_get; _ ← c_modify (with_app_buf []); mret (app_buf c).

Definition to_close : bytes := str "the server to close the connection".

(** [seen] is the local accumulator; the loop puts what [fill] read into it. *)
Fixpoint expect_closed_loop (fuel : nat) (seen : bytes) : C bytes := fun c =>
  match incoming (stream c), fuel with
  | Late :: evs, _ => (Err (Timeout to_close), with_inbuf seen (set_incoming evs c))
  | _, O => (Err (Timeout to_close), with_inbuf seen c)
  | _, S fuel =>
      (before ← mret (length (inbuf c));
       more ← fill to_close;
       c ← c_get;
       if more : bool then
         _ ← c_modify (with_inbuf (take before (inbuf c)));
         expect_closed_loop fuel (seen ++ drop before (inbuf c))
       else
         _ ← c_modify (with_inbuf []);
         _ ← c_trace Received (str "TCP FIN (server closed)") [] false;
         mret (seen ++ inbuf c)) c
  end.

Definition expect_closed : C bytes :=
  c ← c_get;
  _ ← c_modify (with_inbuf []);
  expect_closed_loop (S (coming c)) (inbuf c).

Definition read_silence : C bytes := fun c =>
  match sock_read 4096 c with
  | (RdElapsed, c) => (Ok [], c)
  | (RdClosed, c) => (Err Closed, with_server_closed true c)
  | (RdBytes bs, c) => (Ok bs, with_inbuf (inbuf c ++ bs) c)
  | (RdError k, c) => if is_reset k then (Err Closed, with_server_closed true c) else (Err (Io k), c)
  end.

(** ** Reactions *)

Inductive Reaction : Type :=
| RxAlert (a : AlertMsg)
| RxClosed
| RxSilence
| RxMessage (what : bytes)
| RxError (what : bytes).

Definition reaction (io : IoKind -> bytes) (c : TlsConn) : Reaction * TlsConn :=
  match next_message_within c with
  | (Ok (InAlert a), c) => (RxAlert a, c)
  | (Ok other, c) => (RxMessage (Incoming_describe other), c)
  | (Err Closed, c) => (RxClosed, c)
  | (Err (Timeout _), c) => (RxSilence, c)
  | (Err e, c) => (RxError (TlsError_display io e), c)
  end.
End conn.

Definition trace_lines (c : TlsConn) : list bytes := map TraceEntry_line (trace c).
Definition last_record_bytes (c : TlsConn) : option bytes := raw <$> last (records_in c).

Definition Reaction_describe (r : Reaction) : bytes :=
  match r with
  | RxAlert a => str "alert " ++ Alert_describe a
  | RxClosed => str "the connection was closed"
  | RxSilence => str "nothing at all, connection left open"
  | RxMessage m => str "a normal message: " ++ m
  | RxError e => str "an error: " ++ e
  end.

Definition is_refusal (r : Reaction) : bool :=
  match r with RxAlert _ | RxClosed => true | _ => false end.
Definition is_refusal_with (d : AlertDescription) (r : Reaction) : bool :=
  match r with RxAlert a => bool_decide (al_description a = d) | RxClosed => true | _ => false end.
Definition Reaction_alert (r : Reaction) : option AlertMsg :=
  match r with RxAlert a => Some a | _ => None end.
