(* ===== verification/TlsStream.v ===== *)
(** * A connection delivers what was sent

  However the peer cuts its handshake messages into records and however TCP cuts
  the records into chunks, [next_message] returns the messages, alerts and data
  that were sent, in order. *)

From S2P Require Import Prelude Text TlsTypes TlsCrypto TlsKeys TlsMsg TlsMsgRound TlsRecord TlsLayer TlsConn.

(** ** Bytes on their way *)

(** What reads will return before anything else happens on the socket. *)
Fixpoint avail (evs : list SockEvent) : bytes :=
  match evs with
  | Data (b :: bs) :: evs => (b :: bs) ++ avail evs
  | _ => []
  end.

Definition pending (c : TlsConn) : bytes := inbuf c ++ avail (incoming (stream c)).

(** No deadline passes before the next read that has to wait. *)
Fixpoint punctual (evs : list SockEvent) : Prop :=
  match evs with
  | Late :: _ => False
  | Data (_ :: _) :: evs => punctual evs
  | _ => True
  end.

Definition supplies (c : TlsConn) (x : bytes) : Prop := pending c = x /\ punctual (incoming (stream c)).

(** The parts of the state that decide what [next_message] returns. *)
Definition same_core (c c' : TlsConn) : Prop :=
  layer c' = layer c /\ hs_buf c' = hs_buf c /\ app_buf c' = app_buf c.

#[global] Instance same_core_po : PreOrder same_core.
Proof. split; [by intros c|]. intros c c' c'' (? & ? & ?) (? & ? & ?). unfold same_core. split_and!; congruence. Qed.

Lemma c_bind_ok {A B} (m : C A) (f : A -> C B) c a c' : m c = (Ok a, c') -> (m ≫= f) c = f a c'.
Proof. intros H. unfold mbind, C_bind. by rewrite H. Qed.

Lemma c_bind_get {B} (f : TlsConn -> C B) c : (c_get ≫= f) c = f c c.
Proof. done. Qed.

Lemma c_bind_modify {B} g (f : unit -> C B) c : (c_modify g ≫= f) c = f tt (g c).
Proof. done. Qed.

Lemma c_bind_trace {B} d w b e (f : unit -> C B) c :
  (c_trace d w b e ≫= f) c = f tt (with_trace (trace c ++ [mkTraceEntry d w b e]) c).
Proof. done. Qed.

(** A read takes bytes off the socket. *)
Lemma sock_read_avail n c :
  (0 < n)%nat -> avail (incoming (stream c)) <> [] ->
  exists bs evs, sock_read n c = (RdBytes bs, set_incoming evs c) /\
    avail (incoming (stream c)) = bs ++ avail evs /\
    (punctual (incoming (stream c)) -> punctual evs) /\
    (list_sum (map event_bytes evs) < coming c)%nat.
Proof.
  intros Hn Hne. unfold sock_read, coming.
  destruct (incoming (stream c)) as [|[[|b bs]| | | |] evs] eqn:E; try done.
  eexists _, _. split; [reflexivity|]. pose proof (length_drop (b :: bs) n) as Hd.
  pose proof (take_drop n (b :: bs)) as Ht. cbn [avail]. rewrite <- Ht at 1. rewrite <- app_assoc.
  change (list_sum (map event_bytes (Data (b :: bs) :: evs)))
    with (length (b :: bs) + list_sum (map event_bytes evs))%nat.
  destruct (drop n (b :: bs)) as [|x l]; cbn [length] in Hd |- *; split_and!; try done; [lia|].
  change (list_sum (map event_bytes (Data (x :: l) :: evs)))
    with (S (length l) + list_sum (map event_bytes evs))%nat. lia.
Qed.

(** [fill] moves bytes from the socket to the buffer. *)
Lemma fill_avail what c :
  avail (incoming (stream c)) <> [] ->
  check_deadline what c = (Ok tt, c) /\
  exists c', fill what c = (Ok true, c') /\
    (forall x, supplies c x -> supplies c' x) /\ same_core c c' /\ (coming c' < coming c)%nat.
Proof.
  intros Hne. split.
  { unfold check_deadline. by destruct (incoming (stream c)) as [|[| | | |] evs]. }
  destruct (sock_read_avail 16384 c) as (bs & evs & Hr & Ha & Hp & Hlt); [apply Nat.lt_0_succ|done|].
  unfold fill. rewrite Hr. eexists. split; [reflexivity|]. split; [|by split].
  intros x [Hx Hpu]. unfold supplies, pending in *. cbn [inbuf with_inbuf set_incoming with_stream stream incoming].
  split; [|by apply Hp]. by rewrite <- app_assoc, <- Ha.
Qed.

(** ** Whole records *)

(** A record as it can appear on the wire. *)
Definition on_wire (r : TlsRecord) : Prop :=
  in_u 16 (legacy_version r) /\ in_u 16 (zlen (fragment r)) /\ canonical (content_type r) /\
  raw r = Record_build (ContentType_as_u8 (content_type r)) (legacy_version r) (fragment r).

Lemma on_wire_parse r tl : on_wire r -> Record_parse (raw r ++ tl) = Ok (r, zlen (raw r)).
Proof. intros (? & ? & ? & ?). apply Record_parse_iff. eauto 8. Qed.

Lemma record_ready_iff c : record_ready c = is_ok (Record_parse (inbuf c)).
Proof.
  unfold record_ready, Record_parse. destruct (Z.ltb_spec (zlen (inbuf c)) 5); cbn [is_ok].
  - by rewrite (proj2 (Z.leb_gt _ _)) by lia.
  - rewrite (proj2 (Z.leb_le _ _)) by lia. cbn [andb].
    destruct (Z.ltb_spec (zlen (inbuf c)) (5 + be_val (zslice (inbuf c) 3 2))); cbn [is_ok];
      [apply Z.leb_gt|apply Z.leb_le]; lia.
Qed.

Lemma take_record_ok c r tl :
  on_wire r -> record_ready c = true -> supplies c (raw r ++ tl) ->
  exists c', take_record c = (Ok r, c') /\ supplies c' tl /\ same_core c c'.
Proof.
  intros Hr Hready [Hp Hpu]. rewrite record_ready_iff in Hready. unfold take_record. rewrite c_bind_get.
  destruct (Record_parse (inbuf c)) as [[r' used]|] eqn:E; [|done].
  assert (r' = r /\ exists tl', inbuf c = raw r ++ tl' /\ used = zlen (raw r)) as (-> & tl' & Hi & ->).
  { apply Record_parse_iff in E as (H1 & H2 & H3 & H4 & -> & tl' & Hi).
    assert (on_wire r') as Hr' by done. unfold pending in Hp. rewrite Hi, <- app_assoc in Hp.
    pose proof (on_wire_parse r' (tl' ++ avail (incoming (stream c))) Hr') as E'.
    rewrite Hp, on_wire_parse in E' by done. apply Ok_inj, pair_equal_spec in E' as [-> _]. eauto. }
  rewrite (c_bind_ok _ _ _ _ _ (eq_refl : c_try (Ok (r, zlen (raw r))) c = _)).
  rewrite c_bind_modify. cbv zeta. rewrite c_bind_trace, c_bind_modify.
  eexists. split; [reflexivity|]. split; [|done]. split; [|done].
  unfold pending in *. cbn [inbuf with_records_in with_trace with_inbuf stream].
  rewrite Hi in Hp |- *. rewrite <- app_assoc in Hp. apply app_inv_head in Hp. rewrite <- Hp. f_equal.
  unfold zdrop, zlen. by rewrite Nat2Z.id, drop_app_length.
Qed.

Lemma read_record_ok fuel c r tl :
  on_wire r -> supplies c (raw r ++ tl) -> (coming c < fuel)%nat ->
  exists c', read_record_loop fuel c = (Ok r, c') /\ supplies c' tl /\ same_core c c'.
Proof.
  intros Hr. revert c. induction fuel as [|fuel IH]; intros c Hp Hf; [lia|].
  cbn [read_record_loop]. rewrite c_bind_get. destruct (record_ready c) eqn:Hready.
  { by apply take_record_ok. }
  destruct (fill_avail a_record c) as (Hd & c1 & Hfill & Hp1 & Hc1 & Hlt).
  { intros Ha. destruct Hp as [Hp _]. unfold pending in Hp. rewrite Ha, app_nil_r in Hp.
    by rewrite record_ready_iff, Hp, on_wire_parse in Hready. }
  rewrite (c_bind_ok _ _ _ _ _ Hd), (c_bind_ok _ _ _ _ _ Hfill).
  destruct (IH c1) as (c2 & H2 & Hp2 & Hc2); [by apply Hp1|lia|].
  exists c2. split; [done|]. split; [done|]. by etrans.
Qed.

Lemma read_record_within_ok c r tl :
  on_wire r -> supplies c (raw r ++ tl) ->
  exists c', read_record_within c = (Ok r, c') /\ supplies c' tl /\ same_core c c'.
Proof. intros Hr Hp. apply (read_record_ok (S (coming c))); [done|done|apply Nat.lt_succ_diag_r]. Qed.

Lemma sum_cons e evs :
  list_sum (map event_bytes (e :: evs)) = (event_bytes e + list_sum (map event_bytes evs))%nat.
Proof. done. Qed.

Lemma length_pending c : (length (pending c) <= length (inbuf c) + coming c)%nat.
Proof.
  unfold pending, coming. rewrite length_app. apply Nat.add_le_mono_l.
  induction (incoming (stream c)) as [|[[|b bs]| | | |] evs IH];
    rewrite ?sum_cons; cbn [avail event_bytes]; rewrite ?length_app; cbn [length]; lia.
Qed.

(** ** Handshake messages in the buffer *)

Lemma pop_handshake_eq c :
  pop_handshake c =
    match HandshakeMessage_parse (hs_buf c) with
    | Ok (m, used) => (Ok (Some m), with_hs_buf (zdrop used (hs_buf c)) c)
    | Err _ => (Ok None, c)
    end.
Proof.
  unfold pop_handshake. rewrite c_bind_get. unfold HandshakeMessage_parse.
  destruct (zlen (hs_buf c) <? 4) eqn:E4; [done|].
  destruct (zlen (hs_buf c) <? 4 + be_val (x00 :: zslice (hs_buf c) 1 3)) eqn:El; [done|].
  reflexivity.
Qed.

Definition msg_ok (m : HandshakeMessage) : Prop :=
  in_u 24 (zlen (hm_body m)) /\ hm_raw m = encode_handshake (msg_type m) (hm_body m).

Lemma msg_ok_parse m tl : msg_ok m -> HandshakeMessage_parse (hm_raw m ++ tl) = Ok (m, zlen (hm_raw m)).
Proof. intros [? ?]. apply HandshakeMessage_parse_iff. eauto. Qed.

Lemma msg_ok_unique m m' tl tl' : msg_ok m -> msg_ok m' -> hm_raw m ++ tl = hm_raw m' ++ tl' -> m = m' /\ tl = tl'.
Proof.
  intros Hm Hm' E. pose proof (msg_ok_parse m tl Hm) as P. rewrite E, msg_ok_parse in P by done.
  apply Ok_inj, pair_equal_spec in P as [-> _]. split; [done|]. by apply app_inv_head in E.
Qed.

Lemma hm_raw_nonempty m : msg_ok m -> hm_raw m <> [].
Proof. intros [_ ->]. by rewrite encode_handshake_eq. Qed.

(** Either the next message is complete, or nothing is popped. *)
Lemma pop_next c m more x :
  msg_ok m -> hs_buf c ++ x = hm_raw m ++ more ->
  (exists b, hs_buf c = hm_raw m ++ b /\ b ++ x = more /\
     pop_handshake c = (Ok (Some m), with_hs_buf b c)) \/
  (pop_handshake c = (Ok None, c) /\ x <> []).
Proof.
  intros Hm Hx. rewrite pop_handshake_eq.
  destruct (HandshakeMessage_parse (hs_buf c)) as [[m' used]|] eqn:E.
  - left. apply HandshakeMessage_parse_iff in E as (H1 & H2 & -> & b & Hb).
    rewrite Hb, <- app_assoc in Hx. assert (msg_ok m') as Hm' by done.
    destruct (msg_ok_unique _ _ _ _ Hm' Hm Hx) as [-> Hmore]. exists b. split; [done|]. split; [done|].
    do 2 f_equal. rewrite Hb. unfold zdrop, zlen. by rewrite Nat2Z.id, drop_app_length.
  - right. split; [done|]. intros ->. rewrite app_nil_r in Hx. by rewrite Hx, msg_ok_parse in E.
Qed.

(** ** What a peer sends *)

(** A record with its padding, or the [ChangeCipherSpec] of middleboxes. *)
Inductive Item : Type :=
| IRec (ct : ContentType) (content : bytes) (padding : nat)
| ICcs.

Definition ccs_record : TlsRecord :=
  mkRecord ChangeCipherSpec LEGACY_VERSION_TLS12 [x01]
    (Record_build (ContentType_as_u8 ChangeCipherSpec) LEGACY_VERSION_TLS12 [x01]).

Section stream.
Context {lib : CryptoLib} {laws : CryptoLaws lib}.

Definition send_item (i : Item) (w : RecordLayer) : TlsResult bytes * RecordLayer :=
  match i with
  | IRec ct content padding => seal ct content padding w
  | ICcs => (Ok (raw ccs_record), w)
  end.

Fixpoint send_all (items : list Item) (w : RecordLayer) : TlsResult bytes * RecordLayer :=
  match items with
  | [] => (Ok [], w)
  | i :: items =>
      match send_item i w with
      | (Err e, w) => (Err e, w)
      | (Ok bs, w) => match send_all items w with
                      | (Ok bs', w) => (Ok (bs ++ bs'), w)
                      | r => r
                      end
      end
  end.

(** What such a record is to the reader: something to return, handshake bytes,
  or data. *)
Definition item_ok (enc : bool) (i : Item) : Prop :=
  match i with
  | ICcs => True
  | IRec ct content padding =>
      sealed_len content padding <= MAX_CIPHERTEXT /\
      match ct with
      | Handshake => True
      | ApplicationData => enc = true
      | Alert => exists a, content = Alert_encode a /\ AlertLevel_from_u8 (AlertLevel_as_u8 (al_level a)) = al_level a
      | _ => False
      end
  end.

Definition item_event (i : Item) : option Incoming :=
  match i with
  | ICcs => Some (InChangeCipherSpec ccs_record)
  | IRec Alert content _ => InAlert <$> to_option (Alert_parse content)
  | _ => None
  end.
Definition item_hs (i : Item) : bytes := match i with IRec Handshake content _ => content | _ => [] end.
Definition item_app (i : Item) : list bytes := match i with IRec ApplicationData content _ => [content] | _ => [] end.

(** The writer's keys and count are the reader's. *)
Definition synced (w l : RecordLayer) : Prop :=
  read l = write w /\ read_seq l = write_seq w /\ in_u 16 (write_version w) /\
  (forall k, write w = Some k -> keys_ok k).

Definition protected (l : RecordLayer) : bool := bool_decide (is_Some (write l)).

(** The reader's state once it has classified the record of [i]. *)
Definition received (i : Item) (w' : RecordLayer) (c c' : TlsConn) : Prop :=
  inbuf c' = inbuf c /\ stream c' = stream c /\ synced w' (layer c') /\
  hs_buf c' = hs_buf c ++ item_hs i /\ app_buf c' = app_buf c ++ item_app i.

Lemma reading_synced w l : synced w l -> reading_encrypted l = protected w.
Proof. intros (Hr & _). unfold reading_encrypted, protected. by rewrite Hr. Qed.

Lemma classify_ccs c w :
  synced w (layer c) ->
  exists c', classify ccs_record c = (Ok (item_event ICcs), c') /\ received ICcs w c c'.
Proof.
  intros Hs. eexists. split; [reflexivity|]. unfold received. by rewrite !app_nil_r.
Qed.

Lemma classify_plain c ct content padding w raw :
  synced w (layer c) -> write w = None -> item_ok false (IRec ct content padding) ->
  exists c', classify (mkRecord ct (write_version w) content raw) c =
      (Ok (item_event (IRec ct content padding)), c') /\
    received (IRec ct content padding) w c c'.
Proof.
  intros Hs Hw [_ Hi]. unfold classify. rewrite c_bind_get, (reading_synced w) by done.
  unfold protected. rewrite Hw. change (bool_decide (is_Some None)) with false. cbn [content_type fragment negb].
  destruct ct; try done.
  - destruct Hi as (a & -> & Ha). change (zlen (Alert_encode a) =? 2) with true.
    unfold item_event. rewrite (proj2 (Alert_parse_iff _ a) (conj Ha eq_refl)).
    unfold receive_alert. rewrite (proj2 (Alert_parse_iff _ a) (conj Ha eq_refl)).
    eexists. split; [reflexivity|]. unfold received. cbn. by rewrite !app_nil_r.
  - eexists. split; [reflexivity|]. unfold received. cbn. by rewrite !app_nil_r.
Qed.

Lemma classify_sealed c ct content padding w k sealed raw :
  synced w (layer c) -> write w = Some k -> item_ok true (IRec ct content padding) ->
  aead_encrypt (tk_aead k) (tk_key k) (nonce k (write_seq w))
    ([x17] ++ be_bytes 2 (write_version w) ++ be_bytes 2 (wrap_u 16 (zlen sealed)))
    (InnerPlaintext_build ct content padding) = Some sealed ->
  exists c', classify (mkRecord ApplicationData (write_version w) sealed raw) c =
      (Ok (item_event (IRec ct content padding)), c') /\
    received (IRec ct content padding) (bump_write w) c c'.
Proof.
  intros Hs Hw [_ Hi] He. unfold classify. rewrite c_bind_get, (reading_synced w) by done.
  unfold protected. rewrite Hw. change (bool_decide (is_Some (Some k))) with true. cbn [content_type].
  destruct Hs as (Hr & Hseq & Hv & Hk). rewrite Hw in Hr. specialize (Hk k Hw).
  assert (Hopen : open (mkRecord ApplicationData (write_version w) sealed raw) (layer c) =
    (Ok (mkInner ct content padding), bump_read (layer c))).
  { apply (open_sealed _ k); try done; [by destruct ct|by destruct ct|by rewrite Hseq]. }
  assert (Hl : c_layer (open (mkRecord ApplicationData (write_version w) sealed raw)) c =
    (Ok (mkInner ct content padding), with_layer (bump_read (layer c)) c)).
  { unfold c_layer. by rewrite Hopen. }
  assert (Hs' : synced (bump_write w) (bump_read (layer c))).
  { split_and!; cbn; [by rewrite Hw|by rewrite Hseq|done|]. rewrite Hw. by intros ? [= <-]. }
  rewrite (c_bind_ok _ _ _ _ _ Hl), c_bind_trace. cbn [in_content_type in_content].
  destruct ct; try done.
  - destruct Hi as (a & -> & Ha). unfold item_event. rewrite (proj2 (Alert_parse_iff _ a) (conj Ha eq_refl)).
    unfold receive_alert. rewrite (proj2 (Alert_parse_iff _ a) (conj Ha eq_refl)).
    eexists. split; [reflexivity|]. unfold received. cbn. by rewrite !app_nil_r.
  - eexists. split; [reflexivity|]. unfold received. cbn. by rewrite !app_nil_r.
  - eexists. split; [reflexivity|]. unfold received. cbn. by rewrite !app_nil_r.
Qed.

(** Sending a well-formed item works, and reading its record does what the item
  says. *)
Lemma item_received w i :
  item_ok (protected w) i -> in_u 16 (write_version w) -> (forall k, write w = Some k -> keys_ok k) ->
  exists r w', send_item i w = (Ok (raw r), w') /\ on_wire r /\ protected w' = protected w /\
    forall c, synced w (layer c) ->
      exists c', classify r c = (Ok (item_event i), c') /\ received i w' c c'.
Proof.
  intros Hi Hv Hk. destruct i as [ct content padding|].
  2: { exists ccs_record, w. split; [done|]. split; [by repeat split|]. split; [done|].
       intros c. apply classify_ccs. }
  destruct (write w) as [k|] eqn:Hw.
  - assert (protected w = true) as Hp by (unfold protected; by rewrite Hw). rewrite Hp in Hi.
    destruct (seal_encrypted w k ct content padding Hw (Hk k eq_refl) Hv (proj1 Hi)) as (sealed & Hz & He & Hseal).
    exists (mkRecord ApplicationData (write_version w) sealed (Record_build x17 (write_version w) sealed)), (bump_write w).
    split; [done|]. split; [|split; [done|intros c Hs; by apply classify_sealed with k]].
    repeat split; try apply Hv; cbn [fragment]; rewrite Hz; destruct Hi as [Hi _]; unfold MAX_CIPHERTEXT in Hi;
      unfold sealed_len in *; pose proof (zlen_nonneg content); lia.
  - assert (protected w = false) as Hp by (unfold protected; by rewrite Hw). rewrite Hp in Hi.
    exists (mkRecord ct (write_version w) content (Record_build (ContentType_as_u8 ct) (write_version w) content)), w.
    split; [by apply seal_plain|]. split; [|split; [done|intros c Hs; by apply classify_plain]].
    destruct Hi as [Hi Hc]. unfold sealed_len, MAX_CIPHERTEXT in Hi. pose proof (zlen_nonneg content).
    repeat split; try apply Hv; cbn [fragment content_type]; [lia|lia|by destruct ct].
Qed.

Lemma loop_reads fuel c i items w wire w' tl :
  pop_handshake c = (Ok None, c) -> app_buf c = [] -> synced w (layer c) ->
  item_ok (protected w) i -> send_all (i :: items) w = (Ok wire, w') -> supplies c (wire ++ tl) ->
  exists w1 wire1 c', send_all items w1 = (Ok wire1, w') /\ protected w1 = protected w /\
    supplies c' (wire1 ++ tl) /\ synced w1 (layer c') /\
    hs_buf c' = hs_buf c ++ item_hs i /\ app_buf c' = item_app i /\
    next_message_loop (S fuel) c =
      match item_event i with Some e => (Ok e, c') | None => next_message_loop fuel c' end.
Proof.
  intros Hpop Happ Hs Hi Hsend Hsup. pose proof Hs as (_ & _ & Hv & Hk).
  destruct (item_received w i Hi Hv Hk) as (r & w1 & Hs1 & Hr & Hw1 & Hclass).
  cbn [send_all] in Hsend. rewrite Hs1 in Hsend.
  destruct (send_all items w1) as [[wire1|] w2] eqn:Hs2; [|done].
  apply pair_equal_spec in Hsend as [[= <-] <-]. rewrite <- app_assoc in Hsup.
  destruct (read_record_within_ok c r (wire1 ++ tl) Hr Hsup) as (c1 & Hread & Hsup1 & Hl & Hh & Ha).
  destruct (Hclass c1) as (c2 & Hc2 & Hin & Hst & Hs' & Hhs & Happ'); [by rewrite Hl|].
  exists w1, wire1, c2. split_and!; try done.
  - unfold supplies, pending in *. by rewrite Hin, Hst.
  - by rewrite Hhs, Hh.
  - by rewrite Happ', Ha, Happ.
  - cbn [next_message_loop]. rewrite (c_bind_ok _ _ _ _ _ Hpop), c_bind_get, Happ.
    assert (check_deadline next_message_text c = (Ok tt, c)) as Hd.
    { unfold check_deadline. destruct Hsup as [_ Hp]. by destruct (incoming (stream c)) as [|[| | | |] ?]. }
    rewrite (c_bind_ok _ _ _ _ _ Hd), (c_bind_ok _ _ _ _ _ Hread), (c_bind_ok _ _ _ _ _ Hc2).
    by destruct (item_event i).
Qed.

(** ** What the reader should get *)

Definition item_delivers (i : Item) : option Incoming :=
  match i with
  | IRec ApplicationData content _ => Some (InAppData content)
  | _ => item_event i
  end.

Definition hs_item (f : bytes * nat) : Item := IRec Handshake f.1 f.2.

(** [renders enc buffered events items]: with [buffered] handshake bytes read
  already, [items] carry [events].  A run of handshake messages is cut into
  non-empty fragments anywhere; other records carry one event each and do not
  interrupt a message. *)
Inductive renders (enc : bool) : bytes -> list Incoming -> list Item -> Prop :=
| renders_nil : renders enc [] [] []
| renders_handshake buffered ms frags events items :
    Forall msg_ok ms ->
    Forall (fun f => f.1 <> [] /\ item_ok enc (hs_item f)) frags ->
    buffered ++ concat (map fst frags) = concat (map hm_raw ms) ->
    renders enc [] events items ->
    renders enc buffered (map InHandshake ms ++ events) (map hs_item frags ++ items)
| renders_record i e events items :
    item_ok enc i -> item_delivers i = Some e ->
    renders enc [] events items ->
    renders enc [] (e :: events) (i :: items).

(** The state between two messages: [items] are on their way. *)
Definition expects (c : TlsConn) (events : list Incoming) (w' : RecordLayer) (tl : bytes) : Prop :=
  exists w items wire, renders (protected w) (hs_buf c) events items /\
    send_all items w = (Ok wire, w') /\ supplies c (wire ++ tl) /\ synced w (layer c) /\ app_buf c = [].

Lemma item_delivers_cases i e : item_delivers i = Some e ->
  item_hs i = [] /\
  (item_event i = Some e /\ item_app i = [] \/
   exists d, item_event i = None /\ item_app i = [d] /\ e = InAppData d).
Proof.
  destruct i as [ct content padding|]; [|naive_solver].
  destruct ct; cbn; intros E; naive_solver.
Qed.

Lemma loop_pops fuel c m c1 :
  pop_handshake c = (Ok (Some m), c1) -> next_message_loop fuel c = (Ok (InHandshake m), c1).
Proof. intros H. destruct fuel; cbn [next_message_loop]; by rewrite (c_bind_ok _ _ _ _ _ H). Qed.

Lemma loop_app_data fuel c d :
  pop_handshake c = (Ok None, c) -> app_buf c = [d] ->
  next_message_loop fuel c = (Ok (InAppData d), with_app_buf [] c).
Proof.
  intros H Ha. destruct fuel; cbn [next_message_loop];
    rewrite (c_bind_ok _ _ _ _ _ H), c_bind_get, Ha; reflexivity.
Qed.

Lemma pop_empty c : hs_buf c = [] -> pop_handshake c = (Ok None, c).
Proof. intros H. by rewrite pop_handshake_eq, H. Qed.

(** A record that carries one event by itself. *)
Lemma loop_record fuel c i items e w wire w' tl events :
  hs_buf c = [] -> app_buf c = [] -> synced w (layer c) -> item_ok (protected w) i ->
  item_delivers i = Some e -> renders (protected w) [] events items ->
  send_all (i :: items) w = (Ok wire, w') -> supplies c (wire ++ tl) ->
  exists c', next_message_loop (S fuel) c = (Ok e, c') /\ expects c' events w' tl.
Proof.
  intros Hh Ha Hs Hi He Hr Hsend Hsup. apply item_delivers_cases in He as [Ehs He].
  destruct (loop_reads fuel c i items w wire w' tl (pop_empty c Hh) Ha Hs Hi Hsend Hsup)
    as (w1 & wire1 & c1 & Hsend1 & Hp1 & Hsup1 & Hs1 & Hh1 & Ha1 & Hloop).
  rewrite Hh, Ehs in Hh1. rewrite Hloop. destruct He as [[-> Eapp]|(d & -> & Eapp & ->)].
  - exists c1. split; [done|]. exists w1, items, wire1. rewrite Hh1, Hp1, Ha1. done.
  - rewrite (loop_app_data _ _ d (pop_empty _ Hh1)) by (by rewrite Ha1).
    eexists. split; [reflexivity|]. exists w1, items, wire1.
    cbn [hs_buf with_app_buf app_buf layer]. by rewrite Hh1, Hp1.
Qed.

(** The next message of a run, however it was cut. *)
Lemma loop_handshake frags fuel c m ms events items w wire w' tl :
  Forall msg_ok (m :: ms) ->
  Forall (fun f => f.1 <> [] /\ item_ok (protected w) (hs_item f)) frags ->
  hs_buf c ++ concat (map fst frags) = concat (map hm_raw (m :: ms)) ->
  renders (protected w) [] events items ->
  app_buf c = [] -> synced w (layer c) -> (length frags <= fuel)%nat ->
  send_all (map hs_item frags ++ items) w = (Ok wire, w') -> supplies c (wire ++ tl) ->
  exists c', next_message_loop fuel c = (Ok (InHandshake m), c') /\
    expects c' (map InHandshake ms ++ events) w' tl.
Proof.
  intros [Hm Hms]%Forall_cons_1. revert fuel c w wire. induction frags as [|f frags IH];
    intros fuel c w wire Hf Hcat Hr Ha Hs Hfuel Hsend Hsup; cbn [map concat] in Hcat;
    destruct (pop_next c m (concat (map hm_raw ms)) _ Hm Hcat) as [(b & Hb & Hbx & Hpop)|[Hpop Hne]].
  2: done.
  1,2: eexists; split; [by apply loop_pops|]; exists w; eexists _, wire; split_and!; try done;
    by apply renders_handshake.
  apply Forall_cons_1 in Hf as [[_ Hfi] Hf]. cbn [length] in Hfuel.
  destruct fuel as [|fuel]; [lia|]. cbn [map app] in Hsend.
  destruct (loop_reads fuel c _ _ w wire w' tl Hpop Ha Hs Hfi Hsend Hsup)
    as (w1 & wire1 & c1 & Hsend1 & Hp1 & Hsup1 & Hs1 & Hh1 & Ha1 & Hloop).
  cbn [item_event hs_item] in Hloop. rewrite Hloop. rewrite <- Hp1 in Hf, Hr.
  apply (IH fuel c1 w1 wire1); try done; [|lia].
  rewrite Hh1, <- app_assoc. exact Hcat.
Qed.

(** Fuel for every record on its way. *)
Lemma length_send_all items w wire w' :
  send_all items w = (Ok wire, w') -> (length items <= length wire)%nat.
Proof.
  revert w wire w'. induction items as [|i items IH]; intros w wire w' E; [simpl; lia|].
  cbn [send_all] in E. destruct (send_item i w) as [[bs|] w1] eqn:Ei; [|done].
  destruct (send_all items w1) as [[wire1|] w2] eqn:Es; [|done].
  apply pair_equal_spec in E as [[= <-] _]. apply IH in Es. rewrite length_app. cbn [length].
  assert (bs <> []); [|destruct bs; [done|cbn [length]; lia]]. intros ->.
  destruct i as [ct content padding|]; [|done].
  unfold send_item, seal in Ei. destruct (write w) as [k|]; [|done]. by repeat case_match.
Qed.

(** One call delivers the next event and leaves the rest to come. *)
Lemma next_message_step c e events w' tl :
  expects c (e :: events) w' tl ->
  exists c', next_message c = (Ok e, c') /\ expects c' events w' tl.
Proof.
  intros (w & items & wire & Hr & Hsend & Hsup & Hs & Ha).
  assert (length items <= length (inbuf c) + coming c)%nat as Hfuel.
  { etrans; [|apply length_pending]. destruct Hsup as [-> _]. rewrite length_app.
    pose proof (length_send_all _ _ _ _ Hsend). lia. }
  unfold next_message, next_message_within. revert Hfuel. generalize (length (inbuf c) + coming c)%nat.
  intros fuel Hfuel. remember (protected w) as enc eqn:Henc. remember (hs_buf c) as b eqn:Hb.
  remember (e :: events) as evs eqn:Hevs.
  induction Hr as [|b ms frags events' items Hms Hf Hcat Hr IH|i e' events' items Hi He Hr _]; [done| |].
  - destruct ms as [|m ms].
    + cbn [map concat app] in Hcat, Hevs. apply app_eq_nil in Hcat as [-> Hcat].
      assert (frags = []) as ->.
      { destruct Hf as [|f frags [Hne _] _]; [done|]. cbn in Hcat. by apply app_eq_nil in Hcat as [? _]. }
      by apply IH.
    + cbn [map app] in Hevs. injection Hevs as <- <-. subst enc b.
      apply (loop_handshake frags (S fuel) c m ms events' items w wire); try done.
      rewrite length_app, length_map in Hfuel. lia.
  - injection Hevs as -> ->. subst enc. symmetry in Hb.
    by apply (loop_record fuel c i items e w wire w' tl events).
Qed.

(** [n] calls. *)
Fixpoint drain (n : nat) : C (list Incoming) :=
  match n with
  | O => mret []
  | S n => e ← next_message; events ← drain n; mret (e :: events)
  end.

Lemma drain_expects events c w' tl :
  expects c events w' tl ->
  exists c', drain (length events) c = (Ok events, c') /\ expects c' [] w' tl.
Proof.
  revert c. induction events as [|e events IH]; intros c Hc; [by exists c|].
  destruct (next_message_step _ _ _ _ _ Hc) as (c1 & H1 & Hc1).
  destruct (IH c1 Hc1) as (c2 & H2 & Hc2). exists c2. split; [|done].
  cbn [length drain]. rewrite (c_bind_ok _ _ _ _ _ H1), (c_bind_ok _ _ _ _ _ H2). done.
Qed.

(** Nothing left to come: the buffers are empty and the layers agree. *)
Lemma expects_nil c w' tl :
  expects c [] w' tl -> hs_buf c = [] /\ app_buf c = [] /\ supplies c tl /\ synced w' (layer c).
Proof.
  intros (w & items & wire & Hr & Hsend & Hsup & Hs & Ha).
  remember (protected w) as enc eqn:Henc. remember (hs_buf c) as b eqn:Hb. remember [] as evs eqn:Hevs.
  induction Hr as [|b ms frags events' items Hms Hf Hcat Hr IH|]; [| |done].
  - cbn [send_all] in Hsend. by apply pair_equal_spec in Hsend as [[= <-] <-].
  - destruct ms as [|m ms]; [|done]. cbn [map concat app] in Hcat, Hevs.
    apply app_eq_nil in Hcat as [-> Hcat].
    assert (frags = []) as ->.
    { destruct Hf as [|f frags [Hne _] _]; [done|]. cbn in Hcat. by apply app_eq_nil in Hcat as [? _]. }
    by apply IH.
Qed.
End stream.

(** ** Waiting for the end of the connection *)

(** The bytes that were buffered are put back when the deadline is found to have
  passed, and lost when it passes while [expect_closed] waits. *)
Lemma expect_closed_timeout {lib : CryptoLib} c evs :
  (incoming (stream c) = Late :: evs ->
     exists c', expect_closed c = (Err (Timeout to_close), c') /\ inbuf c' = inbuf c) /\
  (incoming (stream c) = Stall :: evs ->
     exists c', expect_closed c = (Err (Timeout to_close), c') /\ inbuf c' = []).
Proof.
  unfold expect_closed. rewrite c_bind_get, c_bind_modify. cbn [expect_closed_loop stream with_inbuf].
  split; intros E; rewrite E.
  - by eexists.
  - unfold mbind, C_bind, fill, sock_read, mret, C_ret. cbn [stream with_inbuf]. rewrite E. by eexists.
Qed.

(** ** Claims *)

(** C34: a connection is an in-order channel.  However a peer with the same keys
  cuts its handshake messages into records, pads them and mixes them with
  alerts, data and ChangeCipherSpec records, and however TCP cuts the bytes into
  chunks, as many calls of [next_message] as there are events return exactly the
  events, in order; nothing is left in the buffers, what follows on the wire is
  untouched, and the two layers still agree. *)
Theorem connection_delivers_in_order {lib : CryptoLib} {laws : CryptoLaws lib} events items w w' wire c tl :
  renders (protected w) [] events items -> send_all items w = (Ok wire, w') ->
  supplies c (wire ++ tl) -> synced w (layer c) -> hs_buf c = [] -> app_buf c = [] ->
  exists c', drain (length events) c = (Ok events, c') /\
    hs_buf c' = [] /\ app_buf c' = [] /\ supplies c' tl /\ synced w' (layer c').
Proof.
  intros Hr Hsend Hsup Hs Hh Ha.
  destruct (drain_expects events c w' tl) as (c' & Hd & Hc').
  { exists w, items, wire. by rewrite Hh. }
  exists c'. split; [done|]. by apply expects_nil in Hc'.
Qed.

(** A Finished and a KeyUpdate cut across three records, then data, all
  encrypted, arriving in two chunks. *)
Lemma connection_delivers_in_order_witness :
  let lib := toy_lib in
  let m1 := mkHandshakeMessage FINISHED [xaa; xbb] (encode_handshake FINISHED [xaa; xbb]) in
  let m2 := mkHandshakeMessage KEY_UPDATE [x01] (encode_handshake KEY_UPDATE [x01]) in
  let items := map hs_item [([x14; x00], 0%nat); ([x00; x02; xaa], 5%nat); ([xbb; x18; x00; x00; x01; x01], 0%nat)]
               ++ [IRec ApplicationData [x68; x69] 2] in
  let w := set_write toy_keys RecordLayer_new in
  let wire := match send_all items w with (Ok bs, _) => bs | _ => [] end in
  let sock := mkSocket [Data (take 30 wire); Data (drop 30 wire); PeerClosed] [] None false in
  let c := with_layer (set_read toy_keys RecordLayer_new) (TlsConn_new sock) in
  exists c', drain 3 c = (Ok [InHandshake m1; InHandshake m2; InAppData [x68; x69]], c') /\
    hs_buf c' = [] /\ app_buf c' = [] /\ supplies c' [] /\ synced (bump_write (bump_write (bump_write (bump_write w)))) (layer c').
Proof.
  intros lib m1 m2 items w wire sock c.
  apply (connection_delivers_in_order (laws := toy_laws)
    [InHandshake m1; InHandshake m2; InAppData [x68; x69]] items w _ wire c []); try done.
  - apply (renders_handshake true [] [m1; m2] [_; _; _] [InAppData [x68; x69]] [_]).
    + by repeat constructor.
    + by repeat constructor.
    + by vm_compute.
    + by repeat constructor.
  - split_and!; try done. intros k [= <-]. apply toy_keys_ok.
Defined.
