(* ===== verification/TlsSig.v ===== *)
(** * Certificate signatures ([tlstest/src/tls/sig.rs])

  What CertificateVerify signs, the key of a certificate, and which scheme checks
  with which key.  X.509, RSA, ECDSA and Ed25519 are the class [SigLib]: the calls
  of the crates, each with the text of its error. *)

From S2P Require Import Prelude Text TlsTypes TlsCrypto.

(** ** What is signed *)

Definition signed_content (context transcript_hash : bytes) : bytes :=
  replicate 64 x20 ++ context ++ [x00] ++ transcript_hash.
Definition server_signed_content (transcript_hash : bytes) : bytes := signed_content SERVER_CV_CONTEXT transcript_hash.
Definition client_signed_content (transcript_hash : bytes) : bytes := signed_content CLIENT_CV_CONTEXT transcript_hash.

(** ** The crates *)

Inductive PssDigest : Type := PssSha256 | PssSha384 | PssSha512.

Class SigLib : Type := {
  RsaKey : Type;
  EcKey : Type;
  EdKey : Type;
  (** The algorithm, the key bits and the whole SubjectPublicKeyInfo of a certificate. *)
  x509_spki : bytes -> Result bytes (bytes * bytes * bytes);
  rsa_from_pkcs1_der : bytes -> Result bytes RsaKey;
  rsa_from_public_key_der : bytes -> Result bytes RsaKey;
  ec_from_sec1_bytes : bytes -> Result bytes EcKey;
  ed_from_bytes : bytes -> Result bytes EdKey;
  pss_signature : PssDigest -> bytes -> Result bytes bytes;
  pss_verify : PssDigest -> RsaKey -> bytes -> bytes -> Result bytes unit;
  pkcs1_signature : bytes -> Result bytes bytes;
  pkcs1_verify : RsaKey -> bytes -> bytes -> Result bytes unit;
  ecdsa_signature : bytes -> Result bytes bytes;
  ecdsa_verify : EcKey -> bytes -> bytes -> Result bytes unit;
  ed_verify : EdKey -> bytes -> bytes -> Result bytes unit;
  p256_from_pkcs8_pem : bytes -> Result bytes bytes;
  p256_sign_der : bytes -> bytes -> bytes;
}.

Section sig.
Context {sigs : SigLib}.

(** ** Keys *)

Inductive PublicKey : Type :=
| Rsa (k : RsaKey)
| EcdsaP256 (k : EcKey)
| Ed25519 (k : EdKey).

Definition algorithm (k : PublicKey) : bytes :=
  match k with
  | Rsa _ => str "RSA"
  | EcdsaP256 _ => str "ECDSA P-256"
  | Ed25519 _ => str "Ed25519"
  end.

Definition from_certificate (der : bytes) : TlsResult PublicKey :=
  '(oid, key_bytes, spki_raw) ← map_err (fun e => Decode (str "certificate[0].cert_data is not X.509: " ++ e)) (x509_spki der);
  if decide (oid = str "1.2.840.113549.1.1.1") then
    Rsa <$> map_err (fun e => Decode (str "the RSA public key does not parse: " ++ e))
      (match rsa_from_pkcs1_der key_bytes with
       | Ok k => Ok k
       | Err _ => rsa_from_public_key_der spki_raw
       end)
  else if decide (oid = str "1.2.840.10045.2.1") then
    EcdsaP256 <$> map_err
      (fun e => Decode (str "the EC public key is not a secp256r1 point (this client only implements P-256): " ++ e))
      (ec_from_sec1_bytes key_bytes)
  else if decide (oid = str "1.3.101.112") then
    if zlen key_bytes =? 32 then
      Ed25519 <$> map_err (fun e => Decode (str "the Ed25519 public key: " ++ e)) (ed_from_bytes key_bytes)
    else Err (Decode (str "an Ed25519 public key is 32 bytes, this one is " ++ dec (zlen key_bytes)))
  else Err (Decode (str "the certificate's public key algorithm " ++ oid ++ str " is not one this client verifies")).

Definition accepts (k : PublicKey) (scheme : Z) : bool :=
  match k with
  | Rsa _ => bool_decide (scheme ∈ [SIG_RSA_PSS_RSAE_SHA256; SIG_RSA_PSS_RSAE_SHA384; SIG_RSA_PSS_RSAE_SHA512; SIG_RSA_PKCS1_SHA256])
  | EcdsaP256 _ => scheme =? SIG_ECDSA_SECP256R1_SHA256
  | Ed25519 _ => scheme =? SIG_ED25519
  end.

(** ** Signing and verifying *)

Definition sign_pem (key_pkcs8_pem : bytes) (scheme : Z) (content : bytes) : TlsResult bytes :=
  if scheme =? SIG_ECDSA_SECP256R1_SHA256 then
    key ← map_err (fun e => Crypto (str "cannot read the P-256 client key: " ++ e)) (p256_from_pkcs8_pem key_pkcs8_pem);
    Ok (p256_sign_der key content)
  else Err (Crypto (str "the suite cannot sign with scheme 0x" ++ hex_pad 4 scheme)).

(** A signature is decoded, then checked, each with its own error. *)
Definition check_with {A} (not_one fails : bytes) (parsed : Result bytes A) (verify : A -> Result bytes unit) : TlsResult unit :=
  s ← map_err (fun e => Crypto (str "certificate_verify.signature is not " ++ not_one ++ str ": " ++ e)) parsed;
  map_err (fun e => Crypto (str "the " ++ fails ++ str " signature does not verify against the presented key: " ++ e)) (verify s).

Definition verify_pss (d : PssDigest) (k : RsaKey) (signature content : bytes) : TlsResult unit :=
  check_with (str "an RSA-PSS signature") (str "RSA-PSS") (pss_signature d signature) (pss_verify d k content).

Definition verify_content (key : PublicKey) (scheme : Z) (signature content : bytes) : TlsResult unit :=
  if negb (accepts key scheme) then
    Err (Crypto (str "certificate_verify.algorithm is " ++ sig_name scheme ++ str " but the certificate carries a " ++
                 algorithm key ++ str " key"))
  else
    match key with
    | Rsa k =>
        if scheme =? SIG_RSA_PSS_RSAE_SHA256 then verify_pss PssSha256 k signature content
        else if scheme =? SIG_RSA_PSS_RSAE_SHA384 then verify_pss PssSha384 k signature content
        else if scheme =? SIG_RSA_PSS_RSAE_SHA512 then verify_pss PssSha512 k signature content
        else if scheme =? SIG_RSA_PKCS1_SHA256 then
          check_with (str "an RSA signature") (str "RSA PKCS#1 v1.5") (pkcs1_signature signature) (pkcs1_verify k content)
        else Err (Crypto (str "this client cannot verify " ++ sig_name scheme))
    | EcdsaP256 k =>
        if scheme =? SIG_ECDSA_SECP256R1_SHA256 then
          check_with (str "a DER-encoded ECDSA signature") (str "ECDSA P-256") (ecdsa_signature signature) (ecdsa_verify k content)
        else Err (Crypto (str "this client cannot verify " ++ sig_name scheme))
    | Ed25519 k =>
        if scheme =? SIG_ED25519 then
          if zlen signature =? 64 then
            map_err (fun e => Crypto (str "the Ed25519 signature does not verify against the presented key: " ++ e))
              (ed_verify k content signature)
          else Err (Crypto (str "an Ed25519 signature is 64 bytes, this one is " ++ dec (zlen signature)))
        else Err (Crypto (str "this client cannot verify " ++ sig_name scheme))
    end.

Definition verify (key : PublicKey) (scheme : Z) (signature transcript_hash : bytes) : TlsResult unit :=
  verify_content key scheme signature (server_signed_content transcript_hash).
End sig.

Definition scheme_hash (scheme : Z) : option HashAlg :=
  if bool_decide (scheme ∈ [SIG_RSA_PSS_RSAE_SHA256; SIG_ECDSA_SECP256R1_SHA256; SIG_RSA_PKCS1_SHA256]) then Some Sha256
  else if scheme =? SIG_RSA_PSS_RSAE_SHA384 then Some Sha384
  else None.

(** ** What a signature cannot be replayed for *)

Lemma signed_content_inj context h context' h' :
  x00 ∉ context -> x00 ∉ context' -> signed_content context h = signed_content context' h' ->
  context = context' /\ h = h'.
Proof.
  unfold signed_content. intros Hc Hc' E. apply app_inv_head in E. revert context' Hc' E.
  induction context as [|b context IH]; intros [|b' context'] Hc' E; cbn in E.
  - by injection E.
  - injection E as <- _. by destruct Hc'; left.
  - injection E as -> _. by destruct Hc; left.
  - injection E as <- E. destruct (IH ltac:(intros ?; apply Hc; by right) context') as [<- <-]; [|exact E|done].
    intros ?; apply Hc'; by right.
Qed.

(** A signature for one role, or over another transcript hash, is over other bytes. *)
Lemma contents_differ h h' : server_signed_content h <> client_signed_content h'.
Proof.
  intros E. apply signed_content_inj in E as [E _]; [done|..]; apply (bool_decide_eq_true_1 (x00 ∉ _)); vm_compute; reflexivity.
Qed.
