(* ===== verification/TlsClient.v ===== *)
(** * The client ([tlstest/src/tls/client.rs])

  A whole TLS 1.3 handshake, one flight at a time, and what comes after it.  A
  method keeps the state it had reached when it fails ([T]): the tester asserts on
  it.  The socket, the deadlines and their events are those of [TlsConn]; the
  instants at which tickets arrive are an argument. *)

From S2P Require Import Prelude Text TlsTypes TlsBuf TlsCrypto TlsMsg TlsRecord TlsConn TlsSig.
#[local] Open Scope writer_scope.

(** [{ field: x, ..c }]: the record [eta c] with one projection replaced. *)
Ltac set_field eta proj x c :=
  let e := eval cbv beta delta [eta] in (eta c) in
  match eval pattern (proj c) in e with
  | ?f _ => let r := eval cbv beta in (f x) in exact r
  end.

(** ** What the ClientHello is built from *)

Record PskOffer : Type := mkPskOffer {
  identity : bytes;
  obfuscated_ticket_age : Z;
  po_psk : bytes;
  po_suite : Suite;
}.

Record ClientConfig : Type := mkConfig {
  cfg_legacy_version : Z;
  cfg_cipher_suites : list Z;
  cfg_groups : list Z;
  cfg_share_groups : list Z;
  cfg_signature_algorithms : list Z;
  cfg_versions : list Z;
  cfg_session_id : bytes;
  cfg_server_name : option bytes;
  cfg_alpn : list bytes;
  cfg_extra_extensions : list Extension;
  cfg_send_ccs : bool;
  cfg_follow_hello_retry : bool;
  cfg_entropy : bytes;
  cfg_psk : option PskOffer;
  cfg_offer_early_data : bool;
  cfg_corrupt_psk_binder : bool;
}.

Definition ClientConfig_eta (c : ClientConfig) : ClientConfig :=
  mkConfig (cfg_legacy_version c) (cfg_cipher_suites c) (cfg_groups c) (cfg_share_groups c)
  (cfg_signature_algorithms c) (cfg_versions c) (cfg_session_id c) (cfg_server_name c) (cfg_alpn c)
  (cfg_extra_extensions c) (cfg_send_ccs c) (cfg_follow_hello_retry c) (cfg_entropy c) (cfg_psk c)
  (cfg_offer_early_data c) (cfg_corrupt_psk_binder c).

Definition set_cfg_cipher_suites (x : list Z) (c : ClientConfig) : ClientConfig := ltac:(set_field ClientConfig_eta cfg_cipher_suites x c).
Definition set_cfg_groups (x : list Z) (c : ClientConfig) : ClientConfig := ltac:(set_field ClientConfig_eta cfg_groups x c).
Definition set_cfg_share_groups (x : list Z) (c : ClientConfig) : ClientConfig := ltac:(set_field ClientConfig_eta cfg_share_groups x c).
Definition set_cfg_signature_algorithms (x : list Z) (c : ClientConfig) : ClientConfig := ltac:(set_field ClientConfig_eta cfg_signature_algorithms x c).
Definition set_cfg_session_id (x : bytes) (c : ClientConfig) : ClientConfig := ltac:(set_field ClientConfig_eta cfg_session_id x c).
Definition set_cfg_server_name (x : option bytes) (c : ClientConfig) : ClientConfig := ltac:(set_field ClientConfig_eta cfg_server_name x c).
Definition set_cfg_alpn (x : list bytes) (c : ClientConfig) : ClientConfig := ltac:(set_field ClientConfig_eta cfg_alpn x c).
Definition set_cfg_extra_extensions (x : list Extension) (c : ClientConfig) : ClientConfig := ltac:(set_field ClientConfig_eta cfg_extra_extensions x c).
Definition set_cfg_send_ccs (x : bool) (c : ClientConfig) : ClientConfig := ltac:(set_field ClientConfig_eta cfg_send_ccs x c).
Definition set_cfg_entropy (x : bytes) (c : ClientConfig) : ClientConfig := ltac:(set_field ClientConfig_eta cfg_entropy x c).
Definition set_cfg_psk (x : option PskOffer) (c : ClientConfig) : ClientConfig := ltac:(set_field ClientConfig_eta cfg_psk x c).
Definition set_cfg_corrupt_psk_binder (x : bool) (c : ClientConfig) : ClientConfig := ltac:(set_field ClientConfig_eta cfg_corrupt_psk_binder x c).

Definition ClientConfig_default : ClientConfig :=
  mkConfig LEGACY_VERSION_TLS12 ALL_SUITES [GROUP_X25519; GROUP_SECP256R1] [GROUP_X25519] default_signature_algorithms
    [TLS13_VERSION] (replicate 32 x5a) (Some (str "localhost")) [] [] true true (replicate 32 x2c) None false false.

Definition with_suites (suites : list Z) : ClientConfig -> ClientConfig := set_cfg_cipher_suites suites.
Definition with_groups (groups : list Z) (c : ClientConfig) : ClientConfig :=
  set_cfg_share_groups groups (set_cfg_groups groups c).
Definition with_group_shares (groups shares : list Z) (c : ClientConfig) : ClientConfig :=
  set_cfg_share_groups shares (set_cfg_groups groups c).
Definition with_signature_algorithms (schemes : list Z) : ClientConfig -> ClientConfig := set_cfg_signature_algorithms schemes.
Definition with_alpn (protocols : list bytes) : ClientConfig -> ClientConfig := set_cfg_alpn protocols.
Definition with_server_name (name : option bytes) : ClientConfig -> ClientConfig := set_cfg_server_name name.
Definition with_session_id (id : bytes) : ClientConfig -> ClientConfig := set_cfg_session_id id.
Definition config_with_extension (e : Extension) (c : ClientConfig) : ClientConfig :=
  set_cfg_extra_extensions (cfg_extra_extensions c ++ [e]) c.
Definition with_ccs (send : bool) : ClientConfig -> ClientConfig := set_cfg_send_ccs send.
Definition with_psk (psk : PskOffer) : ClientConfig -> ClientConfig := set_cfg_psk (Some psk).
Definition with_broken_psk (psk : PskOffer) (c : ClientConfig) : ClientConfig :=
  set_cfg_corrupt_psk_binder true (set_cfg_psk (Some psk) c).

Section config.
Context {lib : CryptoLib} {curves : CurveLib}.

Definition seeded (seed : Z) : ClientConfig :=
  let entropy := digest Sha256 (be_bytes 8 seed) in
  let session_id := imap (fun i b => byte_xor b (nth (i mod 32) entropy x00)) (digest Sha256 (str "session-id")) in
  set_cfg_session_id session_id (set_cfg_entropy entropy ClientConfig_default).

Definition share_entropy (c : ClientConfig) (n : nat) : bytes :=
  digest Sha256 (cfg_entropy c ++ [z2b (Z.of_nat n)] ++ str "key share").
Definition config_random (c : ClientConfig) : bytes := digest Sha256 (cfg_entropy c ++ str "random").

(** The key shares of the groups from the [i]th on. *)
Fixpoint make_shares (c : ClientConfig) (i : nat) (groups : list Z) : TlsResult (list KeyExchange) :=
  match groups with
  | [] => Ok []
  | g :: groups => kx ← from_entropy g (share_entropy c i); kxs ← make_shares c (S i) groups; Ok (kx :: kxs)
  end.

Definition hello_extensions (c : ClientConfig) (shares : list (Z * bytes)) : list Extension :=
  match cfg_server_name c with Some name => [server_name_extension name] | None => [] end ++
  [supported_versions_extension (cfg_versions c); supported_groups_extension (cfg_groups c);
   signature_algorithms_extension (cfg_signature_algorithms c); client_key_share_extension shares] ++
  (if decide (cfg_alpn c = []) then [] else [alpn_extension (cfg_alpn c)]) ++
  match cfg_psk c with Some _ => [psk_key_exchange_modes_extension [x01]] | None => [] end ++
  cfg_extra_extensions c ++
  (if cfg_offer_early_data c then [early_data_extension] else []).

Definition build_hello (c : ClientConfig) : TlsResult (ClientHello * list KeyExchange) :=
  key_shares ← make_shares c 0 (cfg_share_groups c);
  let shares := zip_with (fun g kx => (g, kx_public kx)) (cfg_share_groups c) key_shares in
  Ok (mkClientHello (cfg_legacy_version c) (config_random c) (cfg_session_id c) (cfg_cipher_suites c) [x00]
        (hello_extensions c shares), key_shares).
End config.

(** The ALPN protocol an EncryptedExtensions block selects. *)
Definition alpn_choice (extensions : list Extension) : option bytes :=
  e ← find_extension extensions EXT_ALPN;
  to_option (run (
    list ← sub16 (str "protocol_name_list");
    lift ((fun p => utf8_lossy p.1) <$> vec8 (str "protocol_name") list))
    (ext_data e) (str "encrypted_extensions.alpn")).

Definition negotiated_version (h : ServerHello) : Z :=
  default (sh_legacy_version h)
    (e ← find_extension (sh_extensions h) EXT_SUPPORTED_VERSIONS;
     if zlen (ext_data e) =? 2 then Some (be_val (ext_data e)) else None).

Definition has_key_share (h : ServerHello) : bool := bool_decide (is_Some (find_extension (sh_extensions h) EXT_KEY_SHARE)).

(** ** The client *)

Section client.
Context {lib : CryptoLib} {curves : CurveLib} {sigs : SigLib}.

Record Client : Type := mkClient {
  conn : TlsConn;
  config : ClientConfig;
  key_shares : list KeyExchange;
  client_hello : option ClientHello;
  client_hello_bytes : bytes;
  hello_retry_request : option ServerHello;
  server_hello : option ServerHello;
  server_hello_bytes : bytes;
  suite : option Suite;
  selected_group : option Z;
  shared_secret : bytes;
  schedule : option KeySchedule;
  transcript : option Transcript;
  encrypted_extensions : list Extension;
  encrypted_extensions_bytes : bytes;
  certificate : option CertificateMsg;
  certificate_bytes : bytes;
  certificate_verify : option CertificateVerifyMsg;
  certificate_verify_bytes : bytes;
  certificate_request : option bytes;
  certificate_request_msg : option CertificateRequestMsg;
  client_handshake_keys_installed : bool;
  client_certificate_bytes : bytes;
  client_certificate_verify_bytes : bytes;
  server_finished_bytes : bytes;
  server_verify_data : bytes;
  client_finished_bytes : bytes;
  server_public_key : option PublicKey;
  hash_after_client_hello : bytes;
  hash_after_server_hello : bytes;
  hash_after_encrypted_extensions : bytes;
  hash_after_certificate : bytes;
  hash_after_certificate_verify : bytes;
  hash_before_server_finished : bytes;
  hash_after_server_finished : bytes;
  hash_after_client_finished : bytes;
  server_ccs_records : Z;
  server_ccs_before_encrypted : bool;
  alpn_selected : option bytes;
  tickets : list NewSessionTicket;
  ticket_arrivals : list Z;
  server_key_updates : list KeyUpdate;
  pending_app : bytes;
  finished : bool;
}.

Definition Client_eta (c : Client) : Client :=
  mkClient (conn c) (config c) (key_shares c) (client_hello c) (client_hello_bytes c) (hello_retry_request c)
  (server_hello c) (server_hello_bytes c) (suite c) (selected_group c) (shared_secret c) (schedule c)
  (transcript c) (encrypted_extensions c) (encrypted_extensions_bytes c) (certificate c) (certificate_bytes c)
  (certificate_verify c) (certificate_verify_bytes c) (certificate_request c) (certificate_request_msg c)
  (client_handshake_keys_installed c) (client_certificate_bytes c) (client_certificate_verify_bytes c)
  (server_finished_bytes c) (server_verify_data c) (client_finished_bytes c) (server_public_key c)
  (hash_after_client_hello c) (hash_after_server_hello c) (hash_after_encrypted_extensions c)
  (hash_after_certificate c) (hash_after_certificate_verify c) (hash_before_server_finished c)
  (hash_after_server_finished c) (hash_after_client_finished c) (server_ccs_records c)
  (server_ccs_before_encrypted c) (alpn_selected c) (tickets c) (ticket_arrivals c) (server_key_updates c)
  (pending_app c) (finished c).

Definition with_conn (x : TlsConn) (c : Client) : Client := ltac:(set_field Client_eta conn x c).
Definition with_config (x : ClientConfig) (c : Client) : Client := ltac:(set_field Client_eta config x c).
Definition with_key_shares (x : list KeyExchange) (c : Client) : Client := ltac:(set_field Client_eta key_shares x c).
Definition with_client_hello (x : option ClientHello) (c : Client) : Client := ltac:(set_field Client_eta client_hello x c).
Definition with_client_hello_bytes (x : bytes) (c : Client) : Client := ltac:(set_field Client_eta client_hello_bytes x c).
Definition with_hello_retry_request (x : option ServerHello) (c : Client) : Client := ltac:(set_field Client_eta hello_retry_request x c).
Definition with_server_hello (x : option ServerHello) (c : Client) : Client := ltac:(set_field Client_eta server_hello x c).
Definition with_server_hello_bytes (x : bytes) (c : Client) : Client := ltac:(set_field Client_eta server_hello_bytes x c).
Definition with_suite (x : option Suite) (c : Client) : Client := ltac:(set_field Client_eta suite x c).
Definition with_selected_group (x : option Z) (c : Client) : Client := ltac:(set_field Client_eta selected_group x c).
Definition with_shared_secret (x : bytes) (c : Client) : Client := ltac:(set_field Client_eta shared_secret x c).
Definition with_schedule (x : option KeySchedule) (c : Client) : Client := ltac:(set_field Client_eta schedule x c).
Definition with_transcript (x : option Transcript) (c : Client) : Client := ltac:(set_field Client_eta transcript x c).
Definition with_encrypted_extensions (x : list Extension) (c : Client) : Client := ltac:(set_field Client_eta encrypted_extensions x c).
Definition with_encrypted_extensions_bytes (x : bytes) (c : Client) : Client := ltac:(set_field Client_eta encrypted_extensions_bytes x c).
Definition with_certificate (x : option CertificateMsg) (c : Client) : Client := ltac:(set_field Client_eta certificate x c).
Definition with_certificate_bytes (x : bytes) (c : Client) : Client := ltac:(set_field Client_eta certificate_bytes x c).
Definition with_certificate_verify (x : option CertificateVerifyMsg) (c : Client) : Client := ltac:(set_field Client_eta certificate_verify x c).
Definition with_certificate_verify_bytes (x : bytes) (c : Client) : Client := ltac:(set_field Client_eta certificate_verify_bytes x c).
Definition with_certificate_request (x : option bytes) (c : Client) : Client := ltac:(set_field Client_eta certificate_request x c).
Definition with_certificate_request_msg (x : option CertificateRequestMsg) (c : Client) : Client := ltac:(set_field Client_eta certificate_request_msg x c).
Definition with_client_handshake_keys_installed (x : bool) (c : Client) : Client := ltac:(set_field Client_eta client_handshake_keys_installed x c).
Definition with_client_certificate_bytes (x : bytes) (c : Client) : Client := ltac:(set_field Client_eta client_certificate_bytes x c).
Definition with_client_certificate_verify_bytes (x : bytes) (c : Client) : Client := ltac:(set_field Client_eta client_certificate_verify_bytes x c).
Definition with_server_finished_bytes (x : bytes) (c : Client) : Client := ltac:(set_field Client_eta server_finished_bytes x c).
Definition with_server_verify_data (x : bytes) (c : Client) : Client := ltac:(set_field Client_eta server_verify_data x c).
Definition with_client_finished_bytes (x : bytes) (c : Client) : Client := ltac:(set_field Client_eta client_finished_bytes x c).
Definition with_server_public_key (x : option PublicKey) (c : Client) : Client := ltac:(set_field Client_eta server_public_key x c).
Definition with_hash_after_client_hello (x : bytes) (c : Client) : Client := ltac:(set_field Client_eta hash_after_client_hello x c).
Definition with_hash_after_server_hello (x : bytes) (c : Client) : Client := ltac:(set_field Client_eta hash_after_server_hello x c).
Definition with_hash_after_encrypted_extensions (x : bytes) (c : Client) : Client := ltac:(set_field Client_eta hash_after_encrypted_extensions x c).
Definition with_hash_after_certificate (x : bytes) (c : Client) : Client := ltac:(set_field Client_eta hash_after_certificate x c).
Definition with_hash_after_certificate_verify (x : bytes) (c : Client) : Client := ltac:(set_field Client_eta hash_after_certificate_verify x c).
Definition with_hash_before_server_finished (x : bytes) (c : Client) : Client := ltac:(set_field Client_eta hash_before_server_finished x c).
Definition with_hash_after_server_finished (x : bytes) (c : Client) : Client := ltac:(set_field Client_eta hash_after_server_finished x c).
Definition with_hash_after_client_finished (x : bytes) (c : Client) : Client := ltac:(set_field Client_eta hash_after_client_finished x c).
Definition with_server_ccs_records (x : Z) (c : Client) : Client := ltac:(set_field Client_eta server_ccs_records x c).
Definition with_server_ccs_before_encrypted (x : bool) (c : Client) : Client := ltac:(set_field Client_eta server_ccs_before_encrypted x c).
Definition with_alpn_selected (x : option bytes) (c : Client) : Client := ltac:(set_field Client_eta alpn_selected x c).
Definition with_tickets (x : list NewSessionTicket) (c : Client) : Client := ltac:(set_field Client_eta tickets x c).
Definition with_ticket_arrivals (x : list Z) (c : Client) : Client := ltac:(set_field Client_eta ticket_arrivals x c).
Definition with_server_key_updates (x : list KeyUpdate) (c : Client) : Client := ltac:(set_field Client_eta server_key_updates x c).
Definition with_pending_app (x : bytes) (c : Client) : Client := ltac:(set_field Client_eta pending_app x c).
Definition with_finished (x : bool) (c : Client) : Client := ltac:(set_field Client_eta finished x c).

(** What [over] makes of an open connection. *)
Definition over (conn : TlsConn) (config : ClientConfig) : Client :=
  mkClient conn config [] None [] None None [] None None [] None None [] [] None [] None [] None None false [] [] [] [] []
    None [] [] [] [] [] [] [] [] 0 false None [] [] [] [] false.

(** *** Methods *)

Definition T (A : Type) : Type := Client -> TlsResult A * Client.
#[global] Instance T_ret : MRet T := fun A a c => (Ok a, c).
#[global] Instance T_bind : MBind T := fun A B f m c =>
  match m c with (Ok a, c) => f a c | (Err e, c) => (Err e, c) end.
Definition t_get : T Client := fun c => (Ok c, c).
Definition t_err {A} (e : TlsError) : T A := fun c => (Err e, c).
Definition t_try {A} (r : TlsResult A) : T A := fun c => (r, c).
Definition t_modify (f : Client -> Client) : T unit := fun c => (Ok tt, f c).
Definition protocol {A} (text : bytes) : T A := t_err (Protocol text).

(** A method of the connection, of its record layer, of the schedule, of the transcript. *)
Definition on_conn {A} (m : C A) : T A := fun c => let '(r, k) := m (conn c) in (r, with_conn k c).
Definition on_layer (f : RecordLayer -> RecordLayer) : T unit :=
  t_modify (fun c => with_conn (with_layer (f (layer (conn c))) (conn c)) c).
Definition no_schedule : TlsError := Crypto (str "no key schedule").
Definition on_schedule {A} (m : K A) : T A := fun c =>
  match schedule c with
  | None => (Err no_schedule, c)
  | Some ks => let '(r, ks) := m ks in (r, with_schedule (Some ks) c)
  end.
Definition no_transcript : TlsError := Protocol (str "no transcript").
Definition no_client_hello : TlsError := Protocol (str "no ClientHello has been sent").
Definition on_transcript (missing : TlsError) (f : Transcript -> Transcript) : T unit := fun c =>
  match transcript c with
  | None => (Err missing, c)
  | Some t => (Ok tt, with_transcript (Some (f t)) c)
  end.
Definition transcript_hash (c : Client) : bytes := match transcript c with Some t => current t | None => [] end.

(** *** Flight 1: the ClientHello *)

Definition build_client_hello : T ClientHello :=
  c ← t_get;
  '(hello, shares) ← t_try (build_hello (config c));
  _ ← t_modify (with_key_shares shares);
  mret hello.

Definition prepare_client_hello : T (ClientHello * bytes) :=
  hello ← build_client_hello; mret (hello, ClientHello_encode hello).

Definition note_client_hello (hello : ClientHello) (bs : bytes) : T unit :=
  c ← t_get;
  let hash := match cfg_psk (config c) with Some p => s_hash (po_suite p) | None => Sha256 end in
  let t := push bs (str "client_hello") (Transcript_new hash) in
  _ ← t_modify (with_hash_after_client_hello (current t));
  _ ← t_modify (with_transcript (Some t));
  _ ← t_modify (with_client_hello_bytes bs);
  t_modify (with_client_hello (Some hello)).

(** The [pre_shared_key] extension with a binder of zeros. *)
Definition psk_identities (offer : PskOffer) : bytes :=
  w_bytes (nest16 (fun l => l |> w_vec16 (identity offer) |> w_u32 (obfuscated_ticket_age offer)) Writer_new).
Definition psk_binders (binder_len : Z) : bytes :=
  w_bytes (nest16 (w_vec8 (replicate (Z.to_nat binder_len) x00)) Writer_new).
Definition push_extension (e : Extension) (h : ClientHello) : ClientHello :=
  mkClientHello (ch_legacy_version h) (ch_random h) (ch_legacy_session_id h) (ch_cipher_suites h)
    (ch_legacy_compression_methods h) (ch_extensions h ++ [e]).
Definition hello_with_psk (offer : PskOffer) (hello : ClientHello) : ClientHello :=
  push_extension (mkExtension EXT_PRE_SHARED_KEY
    (psk_identities offer ++ psk_binders (HashAlg_len (s_hash (po_suite offer))))) hello.

(** The binder over a truncated hello, and the schedule it was derived with. *)
Definition psk_binder (offer : PskOffer) (truncated : bytes) : TlsResult (bytes * KeySchedule) :=
  let hash := s_hash (po_suite offer) in
  match derive_binder_key (KeySchedule_new (po_suite offer) (Some (po_psk offer))) with
  | (Err e, _) => Err e
  | (Ok binder_key, ks) =>
      binder_keys ← TrafficKeys_derive (po_suite offer) binder_key;
      fk ← finished_key binder_keys;
      Ok (hmac hash fk (digest hash truncated), ks)
  end.

Definition attach_psk_binder (hello : ClientHello) : T bytes :=
  c ← t_get;
  match cfg_psk (config c) with
  | None => mret (ClientHello_encode hello)
  | Some offer =>
      let full := ClientHello_encode (hello_with_psk offer hello) in
      let binders := psk_binders (HashAlg_len (s_hash (po_suite offer))) in
      let truncated_len := zlen full - zlen binders in
      '(binder, ks) ← t_try (psk_binder offer (ztake truncated_len full));
      let start := truncated_len + 3 in
      let out := ztake start full ++ binder ++ zdrop (start + zlen binder) full in
      let out := if cfg_corrupt_psk_binder (config c) then alter (fun b => byte_xor b x01) (Z.to_nat start) out else out in
      _ ← t_modify (with_schedule (Some ks));
      mret out
  end.

Definition send_built_client_hello (hello : ClientHello) : T unit :=
  c ← t_get;
  bs ← (if decide (is_Some (cfg_psk (config c))) then attach_psk_binder hello else mret (ClientHello_encode hello));
  _ ← on_conn (write_handshake bs);
  note_client_hello hello bs.

Definition send_client_hello : T unit := hello ← build_client_hello; send_built_client_hello hello.

Definition maybe_send_ccs : T unit :=
  c ← t_get; if cfg_send_ccs (config c) then on_conn write_change_cipher_spec else mret tt.

(** *** Reading *)

(** [Instant::now] when the [n]th ticket arrives, in milliseconds. *)
Context (instant : nat -> Z).

Definition keep_ticket (m : HandshakeMessage) : T unit :=
  t ← t_try (NewSessionTicket_parse (hm_body m));
  _ ← t_modify (fun c => with_tickets (tickets c ++ [t]) c);
  t_modify (fun c => with_ticket_arrivals (ticket_arrivals c ++ [instant (length (ticket_arrivals c))]) c).

Definition count_ccs : T unit := t_modify (fun c => with_server_ccs_records (server_ccs_records c + 1) c).
Definition keep_app (d : bytes) : T unit := t_modify (fun c => with_pending_app (pending_app c ++ d) c).

(** Every message a connection returns takes at least a byte off it. *)
Definition backlog (c : TlsConn) : nat := length (inbuf c) + coming c + length (hs_buf c) + length (app_buf c).

Definition waiting_text (record : TlsRecord) (what : bytes) : bytes :=
  str "a " ++ ContentType_name (content_type record) ++ str " record arrived while waiting for " ++ what.

Fixpoint next_handshake_loop (fuel : nat) (what : bytes) : T HandshakeMessage :=
  match fuel with
  | O => t_err (Timeout next_message_text)
  | S fuel =>
      i ← on_conn next_message;
      match i with
      | InHandshake m =>
          if decide (msg_type m = NEW_SESSION_TICKET) then _ ← keep_ticket m; next_handshake_loop fuel what
          else mret m
      | InChangeCipherSpec _ =>
          _ ← count_ccs;
          _ ← t_modify (fun c =>
                if bool_decide (server_hello c = None) || bool_decide (encrypted_extensions c = [])
                then with_server_ccs_before_encrypted true c else c);
          next_handshake_loop fuel what
      | InAlert a => t_err (AlertError (al_level a) (al_description a))
      | InAppData d => _ ← keep_app d; next_handshake_loop fuel what
      | InUnexpected r => protocol (waiting_text r what)
      end
  end.

Definition next_handshake (what : bytes) : T HandshakeMessage := fun c =>
  next_handshake_loop (S (backlog (conn c))) what c.

(** *** Flight 2: the ServerHello *)

(** A transcript that started under another hash is taken again under the suite's. *)
Definition take_hash (h : HashAlg) (t : Transcript) : Transcript :=
  if decide (t_hash t = h) then t else mark (str "client_hello") (rehash h t).

Definition note_hash_after_client_hello : T unit :=
  t_modify (fun c => with_hash_after_client_hello (transcript_hash c) c).

Definition retry_refused (group : Z) (shared : bool) : bytes :=
  str "hello_retry_request.key_share.selected_group is " ++ group_name group ++ str ", which is " ++
  (if shared then str "a group the ClientHello already sent a share for" else str "not in the ClientHello's supported_groups") ++
  str " (RFC 8446 section 4.1.4)".

(** Answer a HelloRetryRequest with a second ClientHello. *)
Definition handle_hello_retry (retry : ServerHello) (retry_bytes : bytes) : T unit :=
  st ← t_try (ok_or (Suite_from_code (sh_cipher_suite retry))
              (Protocol (str "hello_retry_request.cipher_suite is " ++ suite_name (sh_cipher_suite retry))));
  g ← t_try (retry_group retry);
  group ← t_try (ok_or g (Protocol
    (str "hello_retry_request carries no key_share telling the client which group to use")));
  _ ← on_transcript no_client_hello (take_hash (s_hash st));
  _ ← note_hash_after_client_hello;
  _ ← on_transcript no_client_hello (fun t => push retry_bytes (str "hello_retry_request") (replace_with_message_hash t));
  c ← t_get;
  let shared := bool_decide (group ∈ cfg_share_groups (config c)) in
  if negb (bool_decide (group ∈ cfg_groups (config c))) || shared then protocol (retry_refused group shared)
  else
    _ ← t_modify (fun c => with_config (set_cfg_share_groups [group] (config c)) c);
    hello ← build_client_hello;
    ck ← t_try (cookie retry);
    let hello := match ck with Some ck => push_extension (cookie_extension ck) hello | None => hello end in
    let bs := ClientHello_encode hello in
    _ ← on_conn (write_handshake bs);
    _ ← on_transcript no_transcript (push bs (str "client_hello (second)"));
    _ ← note_hash_after_client_hello;
    _ ← t_modify (with_client_hello_bytes bs);
    _ ← t_modify (with_client_hello (Some hello));
    maybe_send_ccs.

Definition first_message_text (m : HandshakeMessage) : bytes :=
  str "the server's first handshake message must be server_hello(2); it sent " ++ HandshakeMessage_name m.
Definition second_retry_text : bytes :=
  str "the server sent a second hello_retry_request: RFC 8446 section 4.1.4 allows one per connection".
Definition no_follow_text : bytes :=
  str "the server asked for a HelloRetryRequest and this client was told not to follow one".
Definition unknown_suite_text (code : Z) : bytes :=
  str "server_hello.cipher_suite is " ++ suite_name code ++
  str ", which is not one of the three TLS 1.3 suites this client offered".
Definition not_offered_text (code : Z) : bytes :=
  str "server_hello.cipher_suite is " ++ suite_name code ++ str ", which the ClientHello never offered".
Definition other_suite_text (code retry : Z) : bytes :=
  str "server_hello.cipher_suite is " ++ suite_name code ++ str " but the hello_retry_request chose " ++ suite_name retry ++
  str " (RFC 8446 section 4.1.4)".
Definition no_key_share_text : bytes :=
  str "server_hello carries no key_share extension: a TLS 1.3 server that is not resuming with psk_ke must send one (RFC 8446 section 4.2.8)".
Definition no_share_text (group : Z) : bytes :=
  str "server_hello.key_share names " ++ group_name group ++ str ", for which the ClientHello sent no share".
Definition identity_text (index : Z) (offered : bool) : bytes :=
  str "server_hello.pre_shared_key.selected_identity is " ++ dec index ++ str ", but the ClientHello offered " ++
  dec (if offered then 1 else 0) ++ str " identities".

(** The checks on the suite. *)
Definition choose_suite (hello : ServerHello) (c : Client) : TlsResult Suite :=
  let code := sh_cipher_suite hello in
  st ← ok_or (Suite_from_code code) (Protocol (unknown_suite_text code));
  if negb (bool_decide (code ∈ cfg_cipher_suites (config c))) then Err (Protocol (not_offered_text code))
  else
    match hello_retry_request c with
    | Some retry =>
        if sh_cipher_suite retry =? code then Ok st
        else Err (Protocol (other_suite_text code (sh_cipher_suite retry)))
    | None => Ok st
    end.

(** The PSK the server accepted, if any. *)
Definition accepted_psk (hello : ServerHello) (psk : option bytes) : TlsResult (option bytes) :=
  index ← selected_psk hello;
  match index with
  | None => Ok None
  | Some index =>
      if (index =? 0) && bool_decide (is_Some psk) then Ok psk
      else Err (Protocol (identity_text index (bool_decide (is_Some psk))))
  end.

(** A ServerHello that is not a retry request. *)
Definition accept_server_hello (hello : ServerHello) (raw : bytes) : T unit :=
  _ ← t_modify (with_server_hello_bytes raw);
  c ← t_get;
  st ← t_try (choose_suite hello c);
  _ ← t_modify (with_suite (Some st));
  _ ← on_transcript no_client_hello (take_hash (s_hash st));
  _ ← note_hash_after_client_hello;
  _ ← on_transcript no_client_hello (push raw (str "server_hello"));
  _ ← t_modify (fun c => with_hash_after_server_hello (transcript_hash c) c);
  share ← t_try (key_share hello);
  '(group, peer_share) ← t_try (ok_or share (Protocol no_key_share_text));
  c ← t_get;
  kx ← t_try (ok_or (snd <$> list_find (fun k => kx_group k = group) (key_shares c)) (Protocol (no_share_text group)));
  _ ← t_modify (with_selected_group (Some group));
  secret ← t_try (complete kx peer_share);
  _ ← t_modify (with_shared_secret secret);
  _ ← t_modify (with_server_hello (Some hello));
  psk ← t_try (accepted_psk hello (po_psk <$> cfg_psk (config c)));
  c ← t_get;
  match enter_handshake secret (hash_after_server_hello c) (KeySchedule_new st psk) with
  | (Err e, _) => t_err e
  | (Ok _, ks) =>
      keys ← t_try (ok_or (server_handshake ks) (Crypto (str "no server handshake traffic keys")));
      _ ← on_layer (set_read keys);
      t_modify (with_schedule (Some ks))
  end.

(** Read a ServerHello; [again] reads the one that follows a retry request. *)
Definition read_server_hello_then (again : T unit) : T unit :=
  m ← next_handshake (str "server_hello");
  if negb (bool_decide (msg_type m = SERVER_HELLO)) then protocol (first_message_text m)
  else
    hello ← t_try (ServerHello_parse (hm_body m));
    if is_hello_retry_request hello then
      c ← t_get;
      if decide (is_Some (hello_retry_request c)) then protocol second_retry_text
      else
        _ ← t_modify (with_hello_retry_request (Some hello));
        _ ← t_modify (with_server_hello_bytes (hm_raw m));
        if negb (cfg_follow_hello_retry (config c)) then protocol no_follow_text
        else _ ← handle_hello_retry hello (hm_raw m); again
    else accept_server_hello hello (hm_raw m).

(** The recursion is one deep: a second retry request is refused. *)
Definition read_server_hello : T unit := read_server_hello_then (read_server_hello_then (protocol second_retry_text)).

(** *** Flight 2 continued: the encrypted flight *)

Definition out_of_order (resumed saw_ee has_cert : bool) (previous : option HandshakeType) (ty : HandshakeType) : option bytes :=
  if decide (ty = ENCRYPTED_EXTENSIONS) then None
  else if negb saw_ee then
    Some (str "RFC 8446 section 4.3.1 makes EncryptedExtensions the first message of the encrypted flight")
  else if bool_decide (ty = CERTIFICATE_REQUEST) && resumed then
    Some (str "a resumed handshake carries no CertificateRequest (section 4.3.2)")
  else if bool_decide (ty = CERTIFICATE_REQUEST) && negb (bool_decide (previous = Some ENCRYPTED_EXTENSIONS)) then
    Some (str "CertificateRequest comes straight after EncryptedExtensions")
  else if bool_decide (ty = CERTIFICATE) && resumed then
    Some (str "the server accepted a PSK, so it authenticates with that and sends no Certificate (section 4.4)")
  else if bool_decide (ty = CERTIFICATE) && has_cert then Some (str "the server sent its Certificate twice")
  else if bool_decide (ty = CERTIFICATE_VERIFY) && negb (bool_decide (previous = Some CERTIFICATE)) then
    Some (str "CertificateVerify comes immediately after the Certificate it proves")
  else if bool_decide (ty = FINISHED) && negb resumed && negb (bool_decide (previous = Some CERTIFICATE_VERIFY)) then
    Some (str "a handshake that is not resuming must authenticate the server with Certificate and CertificateVerify before its Finished (section 4.4)")
  else if bool_decide (ty = FINISHED) && resumed && negb (bool_decide (previous = Some ENCRYPTED_EXTENSIONS)) then
    Some (str "a resumed handshake goes EncryptedExtensions, Finished")
  else None.

Definition order_text (m : HandshakeMessage) (previous : option HandshakeType) (why : bytes) : bytes :=
  HandshakeMessage_name m ++ str " arrived " ++
  match previous with Some p => str "after " ++ HandshakeType_name p | None => str "first" end ++ str ": " ++ why.

Definition push_message (m : HandshakeMessage) (label : bytes) : T unit := on_transcript no_transcript (push (hm_raw m) label).

Definition read_encrypted_extensions (m : HandshakeMessage) : T unit :=
  exts ← t_try (run (
    ext_bytes ← vec16 (str "extensions");
    _ ← expect_done (str "encrypted_extensions");
    lift (parse_extensions ext_bytes (str "encrypted_extensions"))) (hm_body m) (str "encrypted_extensions"));
  _ ← t_modify (with_encrypted_extensions exts);
  _ ← t_modify (with_encrypted_extensions_bytes (hm_raw m));
  _ ← t_modify (with_alpn_selected (alpn_choice exts));
  _ ← push_message m (str "encrypted_extensions");
  t_modify (fun c => with_hash_after_encrypted_extensions (transcript_hash c) c).

Definition read_certificate_request (m : HandshakeMessage) : T unit :=
  cr ← t_try (CertificateRequestMsg_parse (hm_body m));
  _ ← t_modify (with_certificate_request_msg (Some cr));
  _ ← t_modify (with_certificate_request (Some (hm_raw m)));
  push_message m (str "certificate_request").

Definition read_certificate (m : HandshakeMessage) : T unit :=
  cert ← t_try (CertificateMsg_parse (hm_body m));
  der ← t_try (leaf cert);
  key ← t_try (from_certificate der);
  _ ← t_modify (with_server_public_key (Some key));
  _ ← t_modify (with_certificate (Some cert));
  _ ← t_modify (with_certificate_bytes (hm_raw m));
  _ ← push_message m (str "certificate");
  t_modify (fun c => with_hash_after_certificate (transcript_hash c) c).

Definition bad_scheme_text (scheme : Z) : bytes :=
  str "certificate_verify.algorithm is " ++ sig_name scheme ++ str ", which " ++
  (if scheme =? SIG_RSA_PKCS1_SHA256 then str "TLS 1.3 never uses in CertificateVerify: RSA signs with PSS"
   else str "the ClientHello's signature_algorithms did not offer") ++ str " (RFC 8446 section 4.4.3)".

Definition read_certificate_verify (m : HandshakeMessage) : T unit :=
  cv ← t_try (CertificateVerifyMsg_parse (hm_body m));
  c ← t_get;
  if negb (bool_decide (cv_algorithm cv ∈ cfg_signature_algorithms (config c))) || (cv_algorithm cv =? SIG_RSA_PKCS1_SHA256)
  then protocol (bad_scheme_text (cv_algorithm cv))
  else
    key ← t_try (ok_or (server_public_key c) (Protocol (str "certificate_verify arrived before certificate")));
    _ ← t_try (verify key (cv_algorithm cv) (cv_signature cv) (hash_after_certificate c));
    _ ← t_modify (with_certificate_verify (Some cv));
    _ ← t_modify (with_certificate_verify_bytes (hm_raw m));
    _ ← push_message m (str "certificate_verify");
    t_modify (fun c => with_hash_after_certificate_verify (transcript_hash c) c).

Definition finished_text (want got over : bytes) : bytes :=
  str "the server's Finished does not match: expected verify_data " ++ hex want ++ str ", got " ++ hex got ++
  str " (HMAC of the finished key over the transcript hash " ++ hex over ++ str ")".

Definition read_finished (m : HandshakeMessage) : T unit :=
  _ ← t_modify (fun c => with_hash_before_server_finished (transcript_hash c) c);
  c ← t_get;
  let over := hash_before_server_finished c in
  ks ← t_try (ok_or (schedule c) no_schedule);
  keys ← t_try (ok_or (server_handshake ks) (Crypto (str "no server handshake keys")));
  want ← t_try (verify_data ks keys over);
  if negb (bool_decide (want = hm_body m)) then t_err (Crypto (finished_text want (hm_body m) over))
  else
    _ ← t_modify (with_server_verify_data (hm_body m));
    _ ← t_modify (with_server_finished_bytes (hm_raw m));
    _ ← push_message m (str "server finished");
    _ ← t_modify (fun c => with_hash_after_server_finished (transcript_hash c) c);
    c ← t_get;
    on_schedule (enter_application (hash_after_server_finished c)).

Definition resumed (c : Client) : bool :=
  match server_hello c with
  | Some h => match selected_psk h with Ok (Some _) => true | _ => false end
  | None => false
  end.

(** One message; [true] when it was the Finished. *)
Definition flight_message (was_resumed saw_ee : bool) (previous : option HandshakeType) (m : HandshakeMessage) : T bool :=
  c ← t_get;
  match out_of_order was_resumed saw_ee (bool_decide (is_Some (certificate c))) previous (msg_type m) with
  | Some why => protocol (order_text m previous why)
  | None =>
      _ ← on_transcript no_transcript (fun t => t);
      if decide (msg_type m = ENCRYPTED_EXTENSIONS) then
        if saw_ee then protocol (str "the server sent encrypted_extensions twice")
        else _ ← read_encrypted_extensions m; mret false
      else if decide (msg_type m = CERTIFICATE_REQUEST) then _ ← read_certificate_request m; mret false
      else if decide (msg_type m = CERTIFICATE) then _ ← read_certificate m; mret false
      else if decide (msg_type m = CERTIFICATE_VERIFY) then _ ← read_certificate_verify m; mret false
      else if decide (msg_type m = FINISHED) then _ ← read_finished m; mret true
      else protocol (HandshakeMessage_name m ++ str " has no place in a server's first flight")
  end.

(** The order leaves room for five messages. *)
Fixpoint flight_loop (fuel : nat) (was_resumed saw_ee : bool) (previous : option HandshakeType) : T unit :=
  match fuel with
  | O => t_err (Timeout next_message_text)
  | S fuel =>
      m ← next_handshake (str "the server's encrypted flight");
      last ← flight_message was_resumed saw_ee previous m;
      if last : bool then mret tt else flight_loop fuel was_resumed true (Some (msg_type m))
  end.

Definition read_server_flight : T unit := c ← t_get; flight_loop 6 (resumed c) false None.

(** *** Flight 3: the client's Finished *)

(** What the tester's client certificate comes with ([ClientAuth] of [certs.rs]). *)
Record ClientAuth : Type := mkClientAuth { client_der : bytes; key_pkcs8_pem : bytes; scheme : Z }.

(** Installing the keys starts their sequence over, so it happens once. *)
Definition ensure_client_handshake_keys : T unit :=
  c ← t_get;
  if client_handshake_keys_installed c then mret tt
  else
    ks ← t_try (ok_or (schedule c) no_schedule);
    keys ← t_try (ok_or (client_handshake ks) (Crypto (str "no client handshake keys")));
    _ ← on_layer (set_write keys);
    t_modify (with_client_handshake_keys_installed true).

Definition write_client_handshake (message : bytes) : T unit :=
  _ ← ensure_client_handshake_keys; on_conn (write_handshake message).

Definition send_client_certificate_bytes (message : bytes) : T unit :=
  _ ← write_client_handshake message;
  _ ← t_modify (with_client_certificate_bytes message);
  on_transcript no_transcript (push message (str "client certificate")).

Definition send_client_certificate_verify_bytes (message : bytes) : T unit :=
  _ ← write_client_handshake message;
  _ ← t_modify (with_client_certificate_verify_bytes message);
  on_transcript no_transcript (push message (str "client certificate_verify")).

Definition no_request_text : bytes :=
  str "the server never sent a certificate_request, so there is nothing to answer".
Definition scheme_text (scheme : Z) : bytes :=
  str "the server's certificate_request does not accept 0x" ++ hex_pad 4 scheme ++
  str ", the scheme the suite's client certificate uses".

Definition send_client_auth (auth : ClientAuth) : T unit :=
  c ← t_get;
  request ← t_try (ok_or (certificate_request_msg c) (Protocol no_request_text));
  accepted ← t_try (signature_algorithms request);
  if negb (bool_decide (scheme auth ∈ accepted)) then protocol (scheme_text (scheme auth))
  else
    let cert := CertificateMsg_one (cr_context request) (client_der auth) in
    _ ← send_client_certificate_bytes (encode_handshake CERTIFICATE (CertificateMsg_encode_body cert));
    c ← t_get;
    t ← t_try (ok_or (transcript c) no_transcript);
    signature ← t_try (sign_pem (key_pkcs8_pem auth) (scheme auth) (client_signed_content (current t)));
    let cv := mkCertificateVerifyMsg (scheme auth) signature in
    send_client_certificate_verify_bytes (encode_handshake CERTIFICATE_VERIFY (CertificateVerifyMsg_encode_body cv)).

Definition send_empty_client_certificate : T unit :=
  c ← t_get;
  let context := match certificate_request_msg c with Some r => cr_context r | None => [] end in
  send_client_certificate_bytes (encode_handshake CERTIFICATE (CertificateMsg_encode_body (CertificateMsg_none context))).

(** Over the transcript as it stands when the client has authenticated. *)
Definition client_verify_data : T bytes :=
  c ← t_get;
  ks ← t_try (ok_or (schedule c) no_schedule);
  keys ← t_try (ok_or (client_handshake ks) (Crypto (str "no client handshake keys")));
  hash ← (if decide (client_certificate_bytes c = []) then mret (hash_after_server_finished c)
          else t_try (current <$> ok_or (transcript c) no_transcript));
  t_try (verify_data ks keys hash).

(** The transcript, the resumption secret, and both directions to the application keys. *)
Definition client_finished_sent (message : bytes) : T unit :=
  _ ← t_modify (with_client_finished_bytes message);
  _ ← on_transcript no_transcript (push message (str "client finished"));
  _ ← t_modify (fun c => with_hash_after_client_finished (transcript_hash c) c);
  c ← t_get;
  _ ← on_schedule (derive_resumption_master (hash_after_client_finished c));
  c ← t_get;
  _ ← match schedule c ≫= client_application with Some keys => on_layer (set_write keys) | None => mret tt end;
  _ ← match schedule c ≫= server_application with Some keys => on_layer (set_read keys) | None => mret tt end;
  t_modify (with_finished true).

(** The result of a write that is looked at later. *)
Definition attempt {A} (m : T A) : T (TlsResult A) := fun c => let '(r, c) := m c in (Ok r, c).

Definition send_client_finished_bytes (message : bytes) : T unit :=
  _ ← ensure_client_handshake_keys;
  written ← attempt (on_conn (write_handshake message));
  _ ← client_finished_sent message;
  t_try written.

Definition send_client_finished : T unit :=
  vd ← client_verify_data; send_client_finished_bytes (encode_handshake FINISHED vd).

Definition send_ccs_and_finished_together : T unit :=
  _ ← ensure_client_handshake_keys;
  vd ← client_verify_data;
  let message := encode_handshake FINISHED vd in
  let ccs := Record_build (ContentType_as_u8 ChangeCipherSpec) LEGACY_VERSION_TLS12 [x01] in
  sealed ← on_conn (c_layer (seal Handshake message 0));
  written ← attempt (on_conn (write_raw (ccs ++ sealed)));
  _ ← client_finished_sent message;
  t_try written.

(** *** Whole handshakes *)

Definition handshake_through_server_flight : T unit :=
  _ ← send_client_hello; _ ← maybe_send_ccs; _ ← read_server_hello; read_server_flight.

Definition handshake : T unit :=
  _ ← send_client_hello; _ ← maybe_send_ccs; _ ← read_server_hello; _ ← read_server_flight;
  send_client_finished.

Definition handshake_with_client_auth (auth : ClientAuth) : T unit :=
  _ ← send_client_hello; _ ← maybe_send_ccs; _ ← read_server_hello; _ ← read_server_flight;
  _ ← send_client_auth auth;
  send_client_finished.

Definition handshake_declining_client_auth : T unit :=
  _ ← send_client_hello; _ ← maybe_send_ccs; _ ← read_server_hello; _ ← read_server_flight;
  _ ← send_empty_client_certificate;
  send_client_finished.

(** *** After the handshake *)

Definition client_write_app_data (data : bytes) : T unit := on_conn (write_app_data data).

Definition rekey_read : T unit :=
  c ← t_get;
  ks ← t_try (ok_or (schedule c) no_schedule);
  old ← t_try (ok_or (server_application ks) (Crypto (str "no server application keys")));
  keys ← t_try (updated old);
  _ ← t_modify (with_schedule (Some (set_server_application keys ks)));
  on_layer (set_read keys).

Definition rekey_write : T unit :=
  c ← t_get;
  ks ← t_try (ok_or (schedule c) no_schedule);
  old ← t_try (ok_or (client_application ks) (Crypto (str "no client application keys")));
  keys ← t_try (updated old);
  _ ← t_modify (with_schedule (Some (set_client_application keys ks)));
  on_layer (set_write keys).

Definition send_key_update (update : KeyUpdate) : T unit :=
  _ ← on_conn (write_handshake (KeyUpdate_encode update)); rekey_write.

(** A ticket, or a KeyUpdate that has to be answered. *)
Definition post_handshake (m : HandshakeMessage) : T unit :=
  if decide (msg_type m = NEW_SESSION_TICKET) then keep_ticket m
  else if decide (msg_type m = KEY_UPDATE) then
    update ← t_try (KeyUpdate_parse (hm_body m));
    _ ← t_modify (fun c => with_server_key_updates (server_key_updates c ++ [update]) c);
    _ ← rekey_read;
    if decide (request_update update = x01) then send_key_update NOT_REQUESTED else mret tt
  else protocol (HandshakeMessage_name m ++ str " is not a post-handshake message a TLS 1.3 server may send").

Definition app_data_text : bytes := str "application data from the server".

Fixpoint read_app_data_loop (fuel : nat) : T bytes :=
  match fuel with
  | O => t_err (Timeout app_data_text)
  | S fuel =>
      _ ← on_conn (check_deadline app_data_text);
      i ← on_conn next_message_within;
      match i with
      | InAppData d => if decide (d = []) then read_app_data_loop fuel else mret d
      | InHandshake m => _ ← post_handshake m; read_app_data_loop fuel
      | InChangeCipherSpec _ => _ ← count_ccs; read_app_data_loop fuel
      | InAlert a => t_err (AlertError (al_level a) (al_description a))
      | InUnexpected r =>
          protocol (str "a " ++ ContentType_name (content_type r) ++ str " record arrived where application data was expected")
      end
  end.

Definition read_app_data : T bytes :=
  c ← t_get;
  if decide (pending_app c = []) then read_app_data_loop (S (backlog (conn c)))
  else _ ← t_modify (with_pending_app []); mret (pending_app c).

Fixpoint collect_tickets_loop (fuel before : nat) : T nat :=
  match fuel with
  | O => c ← t_get; mret (length (tickets c) - before)%nat
  | S fuel =>
      late ← attempt (on_conn (check_deadline []));
      match late with
      | Err _ => c ← t_get; mret (length (tickets c) - before)%nat
      | Ok _ =>
          i ← attempt (on_conn next_message_within);
          match i with
          | Ok (InHandshake m) => _ ← post_handshake m; collect_tickets_loop fuel before
          | Ok (InChangeCipherSpec _) => _ ← count_ccs; collect_tickets_loop fuel before
          | Ok (InAppData d) => _ ← keep_app d; collect_tickets_loop fuel before
          | Ok (InAlert a) => t_err (AlertError (al_level a) (al_description a))
          | Ok (InUnexpected _) => collect_tickets_loop fuel before
          | Err (Timeout _) => c ← t_get; mret (length (tickets c) - before)%nat
          | Err e => t_err e
          end
      end
  end.

Definition collect_tickets : T nat :=
  c ← t_get; collect_tickets_loop (S (backlog (conn c))) (length (tickets c)).

(** The place of the first newline. *)
Definition newline_at (bs : bytes) : option nat := fst <$> list_find (fun b => b = x0a) bs.

(** How Rust prints a string with [{:?}]. *)
Context (debug_str : bytes -> bytes).

Definition no_newline_text (bs : bytes) : bytes :=
  str "a newline-terminated answer (got " ++ dec (zlen bs) ++ str " byte(s) so far: " ++ debug_str (utf8_lossy bs) ++ str ")".

(** The rounds are as many as the time allows; running out of them is the deadline. *)
Fixpoint read_line_loop (rounds : nat) : T bytes :=
  c ← t_get;
  match newline_at (pending_app c) with
  | Some at_ =>
      _ ← t_modify (with_pending_app (drop (S at_) (pending_app c)));
      mret (utf8_lossy (firstn at_ (pending_app c)))
  | None =>
      match rounds with
      | O => t_err (Timeout (no_newline_text (pending_app c)))
      | S rounds =>
          _ ← on_conn (check_deadline (no_newline_text (pending_app c)));
          more ← read_app_data;
          _ ← keep_app more;
          read_line_loop rounds
      end
  end.

Definition echo_line (rounds : nat) (line : bytes) : T bytes :=
  _ ← client_write_app_data (line ++ [x0a]); read_line_loop rounds.

Definition close : T unit := on_conn (write_alert Alert_close_notify).

Fixpoint close_loop (fuel : nat) : T AlertMsg :=
  match fuel with
  | O => t_err (Timeout next_message_text)
  | S fuel =>
      i ← on_conn next_message_within;
      match i with
      | InAlert a => mret a
      | InHandshake m => _ ← post_handshake m; close_loop fuel
      | InAppData d => _ ← keep_app d; close_loop fuel
      | InChangeCipherSpec _ => _ ← count_ccs; close_loop fuel
      | InUnexpected _ => close_loop fuel
      end
  end.

Definition close_both_ways : T AlertMsg := _ ← close; c ← t_get; close_loop (S (backlog (conn c))).

Definition send_fatal (d : AlertDescription) : T unit := on_conn (write_record Alert (Alert_encode (Alert_fatal d))).

(** The age of the ticket in milliseconds at [now], as a [u32]. *)
Definition age_ms (now : Z) (ticket_ : NewSessionTicket) (c : Client) : Z :=
  match list_find (fun t => ticket t = ticket ticket_ /\ ticket_nonce t = ticket_nonce ticket_) (tickets c) with
  | Some (i, _) =>
      match ticket_arrivals c !! i with
      | Some at_ => Z.min (Z.max 0 (now - at_)) (2 ^ 32 - 1)
      | None => 0
      end
  | None => 0
  end.

Definition psk_from_ticket (now : Z) (ticket_ : NewSessionTicket) (c : Client) : TlsResult PskOffer :=
  ks ← ok_or (schedule c) no_schedule;
  st ← ok_or (suite c) (Crypto (str "no cipher suite was negotiated"));
  psk ← resumption_psk ks (ticket_nonce ticket_);
  Ok (mkPskOffer (ticket ticket_) (wrap_u 32 (ticket_age_add ticket_ + age_ms now ticket_ c)) psk st).

Definition schedule_lines (c : Client) : list bytes := match schedule c with Some ks => report_lines ks | None => [] end.

Definition transcript_line (p : bytes * bytes) : bytes := str "after " ++ pad_right 28 p.1 ++ str " " ++ hex p.2.
Definition transcript_lines (c : Client) : list bytes :=
  match transcript c with Some t => map transcript_line (checkpoints t) | None => [] end.
End client.
