(* ===== verification/TlsHandshake.v ===== *)
(** * What a finished handshake has established

  Partial correctness of [Client.handshake]: when it returns [Ok], the suite, the
  key share, the certificate, the signature and the server's Finished were checked
  against one transcript, and the keys in force are those of RFC 8446 over it. *)

From S2P Require Import Prelude Text TlsTypes TlsBuf TlsCrypto TlsKeys TlsMsg TlsMsgRound TlsRecord TlsConn TlsStream TlsSig TlsClient.

Section handshake.
Context {lib : CryptoLib} {curves : CurveLib} {sigs : SigLib}.

(** ** What is established *)

(** [message_hash] of RFC 8446 section 4.4.1. *)
Definition message_hash (alg : HashAlg) (hello : bytes) : bytes :=
  [z2b 254; x00; x00; z2b (HashAlg_len alg)] ++ digest alg hello.

(** The transcript before the ServerHello: the ClientHello, or after a retry request
  the digest of the first one, the request and the second. *)
Definition hellos (c : Client) (p : bytes) : Prop :=
  match hello_retry_request c with
  | None => p = client_hello_bytes c
  | Some retry =>
      exists st first body, Suite_from_code (sh_cipher_suite retry) = Some st /\ ServerHello_parse body = Ok retry /\
    p = message_hash (s_hash st) first ++ encode_handshake SERVER_HELLO body ++ client_hello_bytes c
  end.

(** A retry request changes the groups shares are sent for, and nothing else. *)
Definition follows (cfg : ClientConfig) (c : Client) : Prop :=
  match hello_retry_request c with
  | None => config c = cfg
  | Some retry =>
      exists g, retry_group retry = Ok (Some g) /\ g ∈ cfg_groups cfg /\ g ∉ cfg_share_groups cfg /\
    config c = set_cfg_share_groups [g] cfg
  end.

Record negotiated (cfg : ClientConfig) (c : Client) (st : Suite) (hello : ServerHello) (p : bytes) (psk : option bytes) : Prop := {
  ng_follows : follows cfg c;
  ng_hellos : hellos c p;
  ng_server_hello : exists body,
    server_hello_bytes c = encode_handshake SERVER_HELLO body /\ ServerHello_parse body = Ok hello /\
    is_hello_retry_request hello = false;
  ng_hello : server_hello c = Some hello;
  ng_suite : suite c = Some st /\ Suite_from_code (sh_cipher_suite hello) = Some st;
  ng_offered : sh_cipher_suite hello ∈ cfg_cipher_suites cfg;
  ng_retry : forall retry, hello_retry_request c = Some retry -> sh_cipher_suite retry = sh_cipher_suite hello;
  ng_share : exists kx peer,
    kx ∈ key_shares c /\ kx_group kx ∈ cfg_share_groups (config c) /\ selected_group c = Some (kx_group kx) /\
    key_share hello = Ok (Some (kx_group kx, peer)) /\ complete kx peer = Ok (shared_secret c);
  ng_psk : accepted_psk hello (po_psk <$> cfg_psk cfg) = Ok psk;
}.

(** The server's encrypted flight up to its Finished, as it was received. *)
Definition signed_part (c : Client) : bytes :=
  encrypted_extensions_bytes c ++ default [] (certificate_request c) ++ certificate_bytes c.
Definition flight (c : Client) : bytes := signed_part c ++ certificate_verify_bytes c.

Definition certified (c : Client) (key : PublicKey) : Prop :=
  exists body cert der,
    certificate_bytes c = encode_handshake CERTIFICATE body /\ CertificateMsg_parse body = Ok cert /\
    leaf cert = Ok der /\ from_certificate der = Ok key.

(** The signature covers the transcript up to the Certificate. *)
Definition authenticated (cfg : ClientConfig) (c : Client) (alg : HashAlg) (base : bytes) : Prop :=
  exists key body cv,
    certified c key /\
    certificate_verify_bytes c = encode_handshake CERTIFICATE_VERIFY body /\ CertificateVerifyMsg_parse body = Ok cv /\
    cv_algorithm cv ∈ cfg_signature_algorithms cfg /\ cv_algorithm cv <> SIG_RSA_PKCS1_SHA256 /\
    verify key (cv_algorithm cv) (cv_signature cv) (digest alg (base ++ signed_part c)) = Ok tt.

(** The Finished MAC under a traffic secret. *)
Definition mac_of (alg : HashAlg) (secret hash : bytes) : bytes :=
  hmac alg (expand_one alg secret (hkdf_label (str "finished") [] (HashAlg_len alg)) (HashAlg_len alg)) hash.

Definition taken (alg : HashAlg) (bs : bytes) (c : Client) : Prop :=
  exists t, transcript c = Some t /\ t_hash t = alg /\ t_bytes t = bs.

(** *** Where a handshake has got to *)

(** Nothing of the encrypted flight has been read. *)
Definition blank (c : Client) : Prop :=
  encrypted_extensions_bytes c = [] /\ certificate_request c = None /\ certificate c = None /\ certificate_bytes c = [] /\
    certificate_verify_bytes c = [] /\ client_certificate_bytes c = [].

Definition greeted (cfg : ClientConfig) (c : Client) : Prop :=
  follows cfg c /\ make_shares (config c) 0 (cfg_share_groups (config c)) = Ok (key_shares c) /\
    (exists t, transcript c = Some t /\ hellos c (t_bytes t)) /\ blank c.

Definition secrets (c : Client) (st : Suite) (psk : option bytes) (base : bytes) : Prop :=
  exists ks, schedule c = Some ks /\ after_handshake st psk (shared_secret c) (digest (s_hash st) base) ks.

(** By the last message of the flight. *)
Inductive stage (cfg : ClientConfig) (was_resumed : bool) (alg : HashAlg) (base : bytes) (c : Client) : option HandshakeType -> Prop :=
| at_start : blank c -> stage cfg was_resumed alg base c None
| after_extensions :
    certificate_request c = None -> certificate c = None -> certificate_bytes c = [] -> certificate_verify_bytes c = [] ->
    stage cfg was_resumed alg base c (Some ENCRYPTED_EXTENSIONS)
| after_request :
    was_resumed = false -> certificate c = None -> certificate_bytes c = [] -> certificate_verify_bytes c = [] ->
    stage cfg was_resumed alg base c (Some CERTIFICATE_REQUEST)
| after_certificate key :
    was_resumed = false -> is_Some (certificate c) -> server_public_key c = Some key -> certified c key ->
    hash_after_certificate c = digest alg (base ++ signed_part c) -> certificate_verify_bytes c = [] ->
    stage cfg was_resumed alg base c (Some CERTIFICATE)
| after_verify :
    was_resumed = false -> is_Some (certificate c) -> authenticated cfg c alg base -> stage cfg was_resumed alg base c (Some CERTIFICATE_VERIFY).

(** ** Inverting a method that returned [Ok] *)

Lemma t_bind_inv {A B} (m : T A) (f : A -> T B) c b c' :
  (m ≫= f) c = (Ok b, c') -> exists a c1, m c = (Ok a, c1) /\ f a c1 = (Ok b, c').
Proof. unfold mbind, T_bind. destruct (m c) as [[a|e] c1]; [eauto|done]. Qed.

Lemma t_ret_inv {A} (a b : A) (c c' : Client) : (mret a : T A) c = (Ok b, c') -> a = b /\ c' = c.
Proof. intros [= -> ->]. done. Qed.
Lemma t_get_inv (c a c' : Client) : t_get c = (Ok a, c') -> a = c /\ c' = c.
Proof. intros [= -> ->]. done. Qed.
Lemma t_modify_inv f (c : Client) u c' : t_modify f c = (Ok u, c') -> c' = f c.
Proof. by intros [= _ ->]. Qed.
Lemma t_try_inv {A} (r : TlsResult A) (c : Client) a c' : t_try r c = (Ok a, c') -> r = Ok a /\ c' = c.
Proof. intros [= -> ->]. done. Qed.
Lemma t_err_inv {A} e (c : Client) (a : A) c' : t_err e c = (Ok a, c') -> False.
Proof. done. Qed.
Lemma on_conn_inv {A} (m : C A) (c : Client) a c' :
  on_conn m c = (Ok a, c') -> exists k, m (conn c) = (Ok a, k) /\ c' = with_conn k c.
Proof. unfold on_conn. destruct (m (conn c)) as [r k]. intros [= -> <-]. eauto. Qed.
Lemma on_transcript_inv e f (c : Client) u c' :
  on_transcript e f c = (Ok u, c') -> exists t, transcript c = Some t /\ c' = with_transcript (Some (f t)) c.
Proof. unfold on_transcript. destruct (transcript c); [|done]. intros [= _ <-]. eauto. Qed.
Lemma on_schedule_inv {A} (m : K A) (c : Client) a c' :
  on_schedule m c = (Ok a, c') ->
  exists ks ks', schedule c = Some ks /\ m ks = (Ok a, ks') /\ c' = with_schedule (Some ks') c.
Proof. unfold on_schedule. destruct (schedule c) as [ks|]; [|done]. destruct (m ks) as [r ks'] eqn:E. intros [= -> <-]. eauto 6. Qed.
End handshake.

(** One method, and whole chains of them. *)
Ltac t_step :=
  match goal with
  | H : t_err _ _ = (Ok _, _) |- _ => by apply t_err_inv in H
  | H : protocol _ _ = (Ok _, _) |- _ => by apply t_err_inv in H
  | H : t_get _ = (Ok _, _) |- _ => apply t_get_inv in H as [? ?]; subst
  | H : t_modify _ _ = (Ok _, _) |- _ => apply t_modify_inv in H; subst
  | H : t_try _ _ = (Ok _, _) |- _ => apply t_try_inv in H as [? ?]; subst
  | H : on_layer _ _ = (Ok _, _) |- _ => apply t_modify_inv in H; subst
  | H : on_transcript _ _ _ = (Ok _, _) |- _ => apply on_transcript_inv in H as (? & ? & ?); subst
  | H : on_schedule _ _ = (Ok _, _) |- _ => apply on_schedule_inv in H as (? & ? & ? & ? & ?); subst
  | H : on_conn _ _ = (Ok _, _) |- _ => apply on_conn_inv in H as (? & ? & ?); subst
  | H : mret _ _ = (Ok _, _) |- _ => apply t_ret_inv in H as [? ?]; subst
  | H : (_ ≫= _) _ = (Ok _, _) |- _ => apply t_bind_inv in H as (? & ? & ? & ?)
  | H : (let '(_, _) := ?x in _) _ = (Ok _, _) |- _ => is_var x; destruct x
  | H : (if ?b then protocol _ else _) _ = (Ok _, _) |- _ => destruct b eqn:?; [by apply t_err_inv in H|]
  | H : (if ?b then t_err _ else _) _ = (Ok _, _) |- _ => destruct b eqn:?; [by apply t_err_inv in H|]
  end.
Ltac t_inv := repeat (t_step; cbv beta iota zeta in *); invert_ok.

(** Read every field off the record the setters make. *)
Ltac fields :=
  cbn [conn config key_shares client_hello client_hello_bytes hello_retry_request server_hello 
    server_hello_bytes suite selected_group shared_secret schedule transcript encrypted_extensions 
    encrypted_extensions_bytes certificate certificate_bytes certificate_verify certificate_verify_bytes 
    certificate_request certificate_request_msg client_handshake_keys_installed client_certificate_bytes 
    client_certificate_verify_bytes server_finished_bytes server_verify_data client_finished_bytes server_public_key 
    hash_after_client_hello hash_after_server_hello hash_after_encrypted_extensions hash_after_certificate 
    hash_after_certificate_verify hash_before_server_finished hash_after_server_finished hash_after_client_finished 
    server_ccs_records server_ccs_before_encrypted alpn_selected tickets ticket_arrivals server_key_updates 
    pending_app finished with_conn with_config with_key_shares with_client_hello with_client_hello_bytes 
    with_hello_retry_request with_server_hello with_server_hello_bytes with_suite with_selected_group 
    with_shared_secret with_schedule with_transcript with_encrypted_extensions with_encrypted_extensions_bytes 
    with_certificate with_certificate_bytes with_certificate_verify with_certificate_verify_bytes 
    with_certificate_request with_certificate_request_msg with_client_handshake_keys_installed 
    with_client_certificate_bytes with_client_certificate_verify_bytes with_server_finished_bytes 
    with_server_verify_data with_client_finished_bytes with_server_public_key with_hash_after_client_hello 
    with_hash_after_server_hello with_hash_after_encrypted_extensions with_hash_after_certificate 
    with_hash_after_certificate_verify with_hash_before_server_finished with_hash_after_server_finished 
    with_hash_after_client_finished with_server_ccs_records with_server_ccs_before_encrypted with_alpn_selected 
    with_tickets with_ticket_arrivals with_server_key_updates with_pending_app with_finished transcript_hash] in *.

(** ** What waiting for a message changes *)

Section aside.
Context {lib : CryptoLib} {curves : CurveLib} {sigs : SigLib} (instant : nat -> Z).

(** All but the connection, the tickets, the ChangeCipherSpec counts and early data. *)
Definition core (c : Client) : Client :=
  with_conn (TlsConn_new (mkSocket [] [] None false)) (with_tickets [] (with_ticket_arrivals []
    (with_server_ccs_records 0 (with_server_ccs_before_encrypted false (with_pending_app [] c))))).
Definition aside (c c' : Client) : Prop := core c' = core c.

#[local] Instance aside_po : PreOrder aside.
Proof. split; [by intros c|]. intros c c' c'' H H'. unfold aside in *. by rewrite H', H. Qed.

(** A property that does not mention those fields. *)
Lemma aside_keeps (P : Client -> Prop) c c' : (forall d, P (core d) <-> P d) -> aside c c' -> P c -> P c'.
Proof. intros HP H Hc. apply HP. rewrite H. by apply HP. Qed.

Lemma aside_retry c c' : aside c c' -> hello_retry_request c' = hello_retry_request c.
Proof. intros H. exact (f_equal hello_retry_request H). Qed.

Lemma pop_handshake_msg_ok c m c' : pop_handshake c = (Ok (Some m), c') -> msg_ok m.
Proof.
  rewrite pop_handshake_eq. destruct (HandshakeMessage_parse (hs_buf c)) as [[m' used]|] eqn:E; [|done].
  intros [= -> _]. by apply HandshakeMessage_parse_iff in E as (? & ? & _).
Qed.

Lemma c_bind_inv {A B} (m : C A) (f : A -> C B) c b c' :
  (m ≫= f) c = (Ok b, c') -> exists a c1, m c = (Ok a, c1) /\ f a c1 = (Ok b, c').
Proof. unfold mbind, C_bind. destruct (m c) as [[a|e] c1]; [eauto|done]. Qed.

Lemma receive_alert_inv body c i c' : receive_alert body c = (Ok i, c') -> exists a, i = InAlert a.
Proof.
  unfold receive_alert. intros H. repeat apply c_bind_inv in H as (? & ? & ? & H). injection H as <- _. eauto.
Qed.

Lemma classify_no_handshake r c m c' : classify r c <> (Ok (Some (InHandshake m)), c').
Proof.
  unfold classify. intros H. apply c_bind_inv in H as (k & c1 & [= <- <-] & H). cbv zeta in H.
  assert (forall body c0, (receive_alert body ≫= fun i => mret (Some i)) c0 = (Ok (Some (InHandshake m)), c') -> False) as Halert.
  { intros body c0 H0. apply c_bind_inv in H0 as (i & ? & [a ->]%receive_alert_inv & H0). done. }
  destruct (content_type r); [done| | | |done].
  - destruct (_ =? 2); [by apply Halert in H|done].
  - by destruct (negb _).
  - destruct (reading_encrypted _); [|done]. apply c_bind_inv in H as (i & c2 & _ & H).
    apply c_bind_inv in H as (? & c3 & _ & H).
    destruct (in_content_type i); [done|by apply Halert in H|..]; done.
Qed.

Lemma next_message_msg_ok c m c' : next_message c = (Ok (InHandshake m), c') -> msg_ok m.
Proof.
  unfold next_message, next_message_within. generalize (S (length (inbuf c) + coming c)). intros fuel.
  revert c. induction fuel as [|fuel IH]; intros c H; cbn [next_message_loop] in H;
    apply c_bind_inv in H as ([m'|] & c1 & Hp & H).
  1,3: injection H as -> _; by eapply pop_handshake_msg_ok.
  all: apply c_bind_inv in H as (k & c2 & [= <- <-] & H); destruct (app_buf c1).
  2,4: by apply c_bind_inv in H as (? & ? & _ & H).
  { done. }
  apply c_bind_inv in H as (? & c2 & _ & H). apply c_bind_inv in H as (r & c3 & _ & H).
  apply c_bind_inv in H as ([i|] & c4 & Hc & H); [|by apply (IH c4)].
  injection H as -> _. by apply classify_no_handshake in Hc.
Qed.

Lemma keep_ticket_aside m c u c' : keep_ticket instant m c = (Ok u, c') -> aside c c'.
Proof. unfold keep_ticket. intros H. t_inv. done. Qed.

Lemma next_handshake_ok what c m c' : next_handshake instant what c = (Ok m, c') -> aside c c' /\ msg_ok m.
Proof.
  unfold next_handshake. generalize (S (backlog (conn c))). intros fuel.
  revert c. induction fuel as [|fuel IH]; intros c H; cbn [next_handshake_loop] in H; [done|].
  apply t_bind_inv in H as (i & c1 & H1 & H). apply on_conn_inv in H1 as (k & Hk & ->).
  destruct i as [m'| | | |]; [|done| | |done].
  - case_decide.
    + apply t_bind_inv in H as (? & c2 & H2 & H). apply keep_ticket_aside in H2.
      apply IH in H as [Ha Hm]. split; [|done]. etrans; [|exact Ha]. by rewrite <- H2.
    + injection H as <- <-. split; [done|]. by apply next_message_msg_ok in Hk.
  - unfold keep_app in H. t_inv.
    match goal with E : next_handshake_loop _ _ _ _ = _ |- _ => apply IH in E as [Ha Hm] end.
    split; [exact Ha|done].
  - unfold count_ccs in H. t_inv.
    match goal with E : next_handshake_loop _ _ _ _ = _ |- _ => apply IH in E as [Ha Hm] end.
    split; [|done]. etrans; [|exact Ha]. by case_match.
Qed.
End aside.

(** ** Flights 1 and 2 *)

Section hello.
Context {lib : CryptoLib} {curves : CurveLib} {sigs : SigLib} (instant : nat -> Z).

Lemma p256_scalar_group rounds round entropy bs kx :
  p256_scalar rounds round entropy bs = Ok kx -> kx_group kx = GROUP_SECP256R1.
Proof.
  revert round bs. induction rounds as [|rounds IH]; intros round bs; cbn [p256_scalar]; [done|].
  destruct (p256_accepts bs); [by intros [= <-]|]. intros H. invert_ok. eauto.
Qed.

Lemma from_entropy_group g entropy kx : from_entropy g entropy = Ok kx -> kx_group kx = g.
Proof.
  unfold from_entropy. destruct (Z.eqb_spec g GROUP_X25519) as [->|]; [by intros [= <-]|].
  destruct (Z.eqb_spec g GROUP_SECP256R1) as [->|]; [|done]. apply p256_scalar_group.
Qed.

Lemma make_shares_groups c i groups kxs : make_shares c i groups = Ok kxs -> map kx_group kxs = groups.
Proof.
  revert i kxs. induction groups as [|g groups IH]; intros i kxs; cbn [make_shares]; [by intros [= <-]|].
  intros H. invert_ok. cbn [map]. f_equal; [by eapply from_entropy_group|eauto].
Qed.

Lemma build_hello_ok cfg h kxs : build_hello cfg = Ok (h, kxs) -> make_shares cfg 0 (cfg_share_groups cfg) = Ok kxs.
Proof. unfold build_hello. intros H. invert_ok. by subst. Qed.

Lemma with_schedule_id (c : Client) : with_schedule (schedule c) c = c.
Proof. by destruct c. Qed.

Lemma attach_psk_binder_ok hello c bs c' : attach_psk_binder hello c = (Ok bs, c') -> exists s, c' = with_schedule s c.
Proof.
  unfold attach_psk_binder. intros H. t_inv. destruct (cfg_psk (config c)) as [offer|].
  - t_inv. eauto.
  - t_inv. exists (schedule c). by rewrite with_schedule_id.
Qed.

Lemma hello_bytes_ok hello c bs c' (d : {is_Some (cfg_psk (config c))} + {~ is_Some (cfg_psk (config c))}) :
  (if d then attach_psk_binder hello else mret (ClientHello_encode hello)) c = (Ok bs, c') ->
  exists s, c' = with_schedule s c.
Proof.
  destruct d; intros H; [by eapply attach_psk_binder_ok|]. t_inv. exists (schedule c). by rewrite with_schedule_id.
Qed.

Lemma build_client_hello_ok c hello c' :
  build_client_hello c = (Ok hello, c') ->
  exists kxs, make_shares (config c) 0 (cfg_share_groups (config c)) = Ok kxs /\ c' = with_key_shares kxs c.
Proof.
  unfold build_client_hello. intros H. t_inv. eexists. split; [by eapply build_hello_ok|done].
Qed.

Lemma send_client_hello_ok c0 u c :
  hello_retry_request c0 = None -> blank c0 -> send_client_hello c0 = (Ok u, c) ->
  greeted (config c0) c /\ hello_retry_request c = None.
Proof.
  unfold send_client_hello, send_built_client_hello. intros Hr Hb H. t_inv.
  match goal with E : build_client_hello _ = _ |- _ => apply build_client_hello_ok in E as (kxs & Hs & ->) end.
  match goal with E : context [attach_psk_binder] |- _ => apply hello_bytes_ok in E as [s ->] end.
  unfold note_client_hello in *. t_inv. unfold greeted, follows, hellos, blank in *. fields. rewrite Hr.
  split; [|done]. split; [done|]. split; [done|]. split; [|done]. by eexists.
Qed.

Lemma maybe_send_ccs_ok c u c' : maybe_send_ccs c = (Ok u, c') -> aside c c'.
Proof. unfold maybe_send_ccs. intros H. t_inv. destruct (cfg_send_ccs _); by t_inv. Qed.

Lemma greeted_aside cfg c c' : aside c c' -> greeted cfg c -> greeted cfg c'.
Proof. apply aside_keeps. by intros d. Qed.

Lemma take_hash_bytes h t : t_bytes (take_hash h t) = t_bytes t.
Proof. unfold take_hash. by case_decide. Qed.
Lemma take_hash_hash h t : t_hash (take_hash h t) = h.
Proof. unfold take_hash. by case_decide. Qed.

Lemma handle_hello_retry_ok cfg retry body c u c' :
  greeted cfg c -> hello_retry_request c = None -> ServerHello_parse body = Ok retry ->
  handle_hello_retry retry (encode_handshake SERVER_HELLO body)
    (with_server_hello_bytes (encode_handshake SERVER_HELLO body) (with_hello_retry_request (Some retry) c)) = (Ok u, c') ->
  greeted cfg c' /\ hello_retry_request c' = Some retry.
Proof.
  intros (Hf & _ & _ & Hb) Hr Hp H. unfold follows in Hf. rewrite Hr in Hf.
  unfold handle_hello_retry, note_hash_after_client_hello in H. t_inv.
  match goal with E : build_client_hello _ = _ |- _ => apply build_client_hello_ok in E as (kxs & Hs & ->) end.
  match goal with E : maybe_send_ccs _ = _ |- _ => apply maybe_send_ccs_ok in E; rename E into Ha end.
  match goal with E : _ || _ = false |- _ => apply orb_false_iff in E as [Hg Hsh%bool_decide_eq_false_1] end.
  apply negb_false_iff, bool_decide_eq_true_1 in Hg.
  split; [|by rewrite (aside_retry _ _ Ha)].
  apply (greeted_aside _ _ _ Ha). clear Ha. unfold greeted, follows, hellos, blank in *. fields. subst.
  simplify_eq. split; [by exists x1|]. split; [done|]. split; [|done].
  eexists. split; [reflexivity|]. exists x, (t_bytes x4), body. split_and!; [done..|].
  cbn [push mark replace_with_message_hash t_bytes]. rewrite take_hash_hash, take_hash_bytes, <- app_assoc. done.
Qed.

Lemma find_share_ok g (kxs : list KeyExchange) kx :
  snd <$> list_find (fun k => kx_group k = g) kxs = Some kx -> kx ∈ kxs /\ kx_group kx = g.
Proof.
  destruct (list_find _ kxs) as [[i k]|] eqn:E; [|done]. intros [= ->].
  apply list_find_Some in E as (Hi & Hk & _). split; [by eapply list_elem_of_lookup_2|done].
Qed.

Lemma choose_suite_ok hello c st :
  choose_suite hello c = Ok st ->
  Suite_from_code (sh_cipher_suite hello) = Some st /\ sh_cipher_suite hello ∈ cfg_cipher_suites (config c) /\
  forall retry, hello_retry_request c = Some retry -> sh_cipher_suite retry = sh_cipher_suite hello.
Proof.
  unfold choose_suite. cbv zeta. intros H. apply result_bind_Ok_inv in H as (st' & Hs%ok_or_Ok_inv & H).
  case_bool_decide as Hin; [|done]. cbn [negb] in H.
  destruct (hello_retry_request c) as [r|] eqn:Er; [|injection H as <-; by split].
  destruct (Z.eqb_spec (sh_cipher_suite r) (sh_cipher_suite hello)); [|done]. injection H as <-.
  split; [done|]. split; [done|]. by intros ? [= <-].
Qed.

Lemma follows_config cfg c : follows cfg c ->
  cfg_cipher_suites (config c) = cfg_cipher_suites cfg /\ cfg_signature_algorithms (config c) = cfg_signature_algorithms cfg /\
  cfg_psk (config c) = cfg_psk cfg.
Proof. unfold follows. destruct (hello_retry_request c); [intros (g & _ & _ & _ & ->)|intros ->]; done. Qed.

Lemma accept_server_hello_ok cfg c hello body u c' :
  greeted cfg c -> ServerHello_parse body = Ok hello -> is_hello_retry_request hello = false ->
  accept_server_hello hello (encode_handshake SERVER_HELLO body) c = (Ok u, c') ->
  exists st p psk, negotiated cfg c' st hello p psk /\ secrets c' st psk (p ++ server_hello_bytes c') /\
    taken (s_hash st) (p ++ server_hello_bytes c') c' /\ blank c'.
Proof.
  intros (Hf & Hs & (t & Ht & Hh) & Hb) Hp Hnr H. pose proof (follows_config _ _ Hf) as (Hcs & _ & Hpsk).
  unfold accept_server_hello, note_hash_after_client_hello in H. t_inv. fields.
  simplify_eq. rewrite Hpsk in H6.
  destruct (enter_handshake_ok x0 x14 x11 (current (push (encode_handshake SERVER_HELLO body) (str "server_hello") (take_hash (s_hash x0) t))))
    as (ks & He & Hks). rewrite He in H8. t_inv. clear He.
  apply find_share_ok in H4 as [Hkx <-]. apply choose_suite_ok in H as (Hst & Hin & Hretry).
  exists x0, (t_bytes t), x14. split.
  - split; try done.
    + by eexists.
    + by rewrite <- Hcs.
    + exists x9, l. split; [done|]. split; [|done]. fields.
      rewrite <- (make_shares_groups _ _ _ _ Hs). by apply list_elem_of_fmap_2.
  - unfold secrets, taken, blank in *. fields. split; [|split; [|done]]; eexists; (split; [reflexivity|]).
    + unfold current in Hks. cbn [push mark t_hash t_bytes] in Hks. rewrite take_hash_hash, take_hash_bytes in Hks. done.
    + cbn [push mark t_hash t_bytes]. by rewrite take_hash_hash, take_hash_bytes.
Qed.

Lemma raw_of m ty : msg_ok m -> msg_type m = ty -> hm_raw m = encode_handshake ty (hm_body m).
Proof. by intros [_ ->] <-. Qed.

(** What a ServerHello leaves, whether or not a retry request came first. *)
Definition greeted_back (cfg : ClientConfig) (c : Client) : Prop :=
  exists st p psk hello, negotiated cfg c st hello p psk /\ secrets c st psk (p ++ server_hello_bytes c) /\
    taken (s_hash st) (p ++ server_hello_bytes c) c /\ blank c.

Lemma read_server_hello_then_ok cfg again c u c' :
  greeted cfg c -> read_server_hello_then instant again c = (Ok u, c') ->
  greeted_back cfg c' \/ hello_retry_request c = None /\ exists c1, greeted cfg c1 /\ hello_retry_request c1 <> None /\ again c1 = (Ok u, c').
Proof.
  intros Hg H. unfold read_server_hello_then in H. t_inv.
  match goal with E : next_handshake _ _ _ = _ |- _ => apply next_handshake_ok in E as [Ha Hm] end. pose proof (greeted_aside _ _ _ Ha Hg) as Hg1.
  apply negb_false_iff, bool_decide_eq_true_1 in Heqb. rewrite !(raw_of _ _ Hm Heqb) in *.
  destruct (is_hello_retry_request x1) eqn:Hr.
  - right. t_inv.
    match goal with E : ~ is_Some _ |- _ => pose proof (proj2 (eq_None_not_Some _) E) as Hn end.
    split; [by rewrite <- (aside_retry _ _ Ha)|].
    match goal with E : handle_hello_retry _ _ _ = _ |- _ => apply (handle_hello_retry_ok cfg) in E as [Hg2 Hr2]; [|done..] end.
    eexists. split; [exact Hg2|]. split; [by rewrite Hr2|done].
  - left. match goal with E : accept_server_hello _ _ _ = _ |- _ =>
      eapply accept_server_hello_ok in E as (st & p & psk & Hn & Hs & Ht & Hb); [|done..] end.
    by exists st, p, psk, x1.
Qed.

Lemma read_server_hello_ok cfg c u c' :
  greeted cfg c -> read_server_hello instant c = (Ok u, c') -> greeted_back cfg c'.
Proof.
  intros Hg H. apply (read_server_hello_then_ok cfg) in H as [H|(_ & c1 & Hg1 & Hr1 & H)]; [done| |done].
  apply (read_server_hello_then_ok cfg) in H as [H|(Hr & _)]; done.
Qed.
End hello.

(** ** The encrypted flight *)

Section flight.
Context {lib : CryptoLib} {curves : CurveLib} {sigs : SigLib} (instant : nat -> Z).

(** The encrypted flight leaves what the hellos settled. *)
Definition settled (c : Client) :=
  (config c, key_shares c, hello_retry_request c, client_hello_bytes c, server_hello_bytes c, server_hello c, suite c,
   selected_group c, shared_secret c, client_certificate_bytes c).

Lemma negotiated_settled cfg c c' st hello p psk :
  settled c' = settled c -> negotiated cfg c st hello p psk -> negotiated cfg c' st hello p psk.
Proof.
  unfold settled. intros E [H1 H2 H3 H4 H5 H6 H7 H8 H9]. injection E as E1 E2 E3 E4 E5 E6 E7 E8 E9 _.
  unfold follows, hellos in *. split; unfold follows, hellos; rewrite ?E1, ?E2, ?E3, ?E4, ?E5, ?E6, ?E7, ?E8, ?E9; done.
Qed.

Lemma verify_data_eq ks st secret h :
  ks_suite ks = st -> verify_data ks (keys_of st secret) h = Ok (mac_of (s_hash st) secret h).
Proof.
  intros <-. unfold verify_data, finished_key, hkdf_expand_label. cbn [tk_hash tk_secret keys_of].
  pose proof (HashAlg_len_pos (s_hash (ks_suite ks))). by rewrite hkdf_expand_one by lia.
Qed.

(** *** The order the checks leave *)

Definition begun (previous : option HandshakeType) : bool := match previous with None => false | Some _ => true end.

(** Decide the tests on the type of the message, then the others. *)
Ltac order ty :=
  unfold out_of_order; rewrite decide_False by done; rewrite ?(bool_decide_eq_true_2 (ty = ty)) by done;
  repeat match goal with |- context [bool_decide (ty = ?x)] => rewrite (bool_decide_eq_false_2 (ty = x)) by done end;
  cbn [andb negb];
  match goal with |- context [begun ?p] => destruct (begun p) eqn:?; cbn [negb] end; [|done].

Lemma order_request wr hc previous :
  out_of_order wr (begun previous) hc previous CERTIFICATE_REQUEST = None -> wr = false /\ previous = Some ENCRYPTED_EXTENSIONS.
Proof. order CERTIFICATE_REQUEST. destruct wr; [done|]. by case_bool_decide. Qed.
Lemma order_certificate wr hc previous :
  out_of_order wr (begun previous) hc previous CERTIFICATE = None -> wr = false /\ hc = false /\ begun previous = true.
Proof. order CERTIFICATE. by destruct wr, hc. Qed.
Lemma order_verify wr hc previous :
  out_of_order wr (begun previous) hc previous CERTIFICATE_VERIFY = None -> previous = Some CERTIFICATE.
Proof. order CERTIFICATE_VERIFY. by case_bool_decide. Qed.
Lemma order_finished wr hc previous :
  out_of_order wr (begun previous) hc previous FINISHED = None ->
  previous = Some (if wr then ENCRYPTED_EXTENSIONS else CERTIFICATE_VERIFY).
Proof. order FINISHED. destruct wr; cbn [andb negb]; by case_bool_decide. Qed.

(** *** One message *)

Definition flown (cfg : ClientConfig) (wr : bool) (alg : HashAlg) (base : bytes) (previous : option HandshakeType) (c : Client) : Prop :=
  taken alg (base ++ flight c) c /\ stage cfg wr alg base c previous.
Definition kept (c c' : Client) : Prop := settled c' = settled c /\ schedule c' = schedule c.

Lemma taken_push alg bs bs' bs2 label t c c' :
  taken alg bs c -> transcript c = Some t -> transcript c' = Some (push bs' label t) -> bs ++ bs' = bs2 ->
  taken alg bs2 c'.
Proof. intros (t' & Ht & <- & <-) E E' <-. simplify_eq. by eexists. Qed.

Lemma taken_hash alg bs c : taken alg bs c -> transcript_hash c = digest alg bs.
Proof. unfold transcript_hash. by intros (t & -> & <- & <-). Qed.

(** The flight of a client, and the one with a message more. *)
Ltac pieces :=
  unfold flight, signed_part; fields;
  repeat match goal with H : _ ?c0 = [] |- _ => rewrite H | H : _ ?c0 = None |- _ => rewrite H end;
  cbn [default]; rewrite ?app_nil_r, <- ?app_assoc; cbn [app]; rewrite ?app_nil_r; done.
Ltac one_more Ht := eapply taken_push; [exact Ht|eassumption|reflexivity|pieces].

Lemma read_encrypted_extensions_ok cfg wr alg base m c u c' :
  flown cfg wr alg base None c -> read_encrypted_extensions m c = (Ok u, c') ->
  kept c c' /\ flown cfg wr alg base (Some ENCRYPTED_EXTENSIONS) c'.
Proof.
  intros [Ht Hs] H. inversion Hs as [Hb| | | |]; subst. destruct Hb as (Hee & Hcr & Hc & Hcb & Hcv & Hcc).
  unfold read_encrypted_extensions, push_message in H. t_inv. fields.
  unfold kept, settled. fields. split; [done|]. split; [|by constructor]. one_more Ht.
Qed.

Lemma read_certificate_request_ok cfg wr alg base m c u c' :
  wr = false -> flown cfg wr alg base (Some ENCRYPTED_EXTENSIONS) c -> read_certificate_request m c = (Ok u, c') ->
  kept c c' /\ flown cfg wr alg base (Some CERTIFICATE_REQUEST) c'.
Proof.
  intros Hwr [Ht Hs] H. inversion Hs as [|Hcr Hc Hcb Hcv| | |]; subst.
  unfold read_certificate_request, push_message in H. t_inv. fields.
  unfold kept, settled. fields. split; [done|]. split; [|by constructor]. one_more Ht.
Qed.

Lemma read_certificate_ok cfg wr alg base previous m c u c' :
  wr = false -> begun previous = true -> certificate c = None -> msg_ok m -> msg_type m = CERTIFICATE ->
  flown cfg wr alg base previous c -> read_certificate m c = (Ok u, c') ->
  kept c c' /\ flown cfg wr alg base (Some CERTIFICATE) c'.
Proof.
  intros Hwr Hbeg Hc Hm Hty [Ht Hs] H. pose proof (raw_of _ _ Hm Hty) as Hraw.
  assert (certificate_bytes c = [] /\ certificate_verify_bytes c = []) as [Hcb Hcv].
  { inversion Hs; subst; try done; rewrite Hc in *; by destruct (is_Some_None (A := CertificateMsg)). }
  unfold read_certificate, push_message in H. t_inv. fields.
  unfold kept, settled. fields. split; [done|]. split; [one_more Ht|].
  eapply after_certificate; fields; try done.
  - by exists (hm_body m), x, x0.
  - match goal with |- _ = digest alg (base ++ signed_part ?c') => assert (taken alg (base ++ signed_part c') c') as Ht' by one_more Ht end.
    by apply taken_hash in Ht'.
Qed.

Lemma read_certificate_verify_ok cfg wr alg base m c u c' :
  cfg_signature_algorithms (config c) = cfg_signature_algorithms cfg -> msg_ok m -> msg_type m = CERTIFICATE_VERIFY ->
  flown cfg wr alg base (Some CERTIFICATE) c -> read_certificate_verify m c = (Ok u, c') ->
  kept c c' /\ flown cfg wr alg base (Some CERTIFICATE_VERIFY) c'.
Proof.
  intros Hcfg Hm Hty [Ht Hs] H. pose proof (raw_of _ _ Hm Hty) as Hraw.
  inversion Hs as [| | |key Hwr Hcert Hkey Hcd Hhash Hcv|]; subst.
  unfold read_certificate_verify, push_message in H. t_inv. fields.
  match goal with E : _ || _ = false |- _ => apply orb_false_iff in E as [Ha Hp] end.
  apply negb_false_iff, bool_decide_eq_true_1 in Ha. apply Z.eqb_neq in Hp. rewrite Hcfg in Ha.
  unfold kept, settled. fields. split; [done|]. split; [one_more Ht|].
  apply after_verify; [done|done|]. simplify_eq. eexists _, (hm_body m), x.
  unfold certified, signed_part in *. fields. rewrite Hhash in *. match goal with E : verify _ _ _ _ = Ok ?r |- _ => destruct r end. by split_and!.
Qed.
(** The server's Finished was checked; the application keys are derived. *)
Definition served (cfg : ClientConfig) (wr : bool) (st : Suite) (psk : option bytes) (base : bytes) (c : Client) : Prop :=
  let alg := s_hash st in
  let hs := rfc_next alg (rfc_early alg psk) (shared_secret c) in
  let ms := rfc_next alg hs (zeros alg) in
  let all := base ++ flight c ++ server_finished_bytes c in
  (if wr then flight c = encrypted_extensions_bytes c else authenticated cfg c alg base) /\
  server_finished_bytes c = encode_handshake FINISHED
    (mac_of alg (ds alg hs (str "s hs traffic") (digest alg base)) (digest alg (base ++ flight c))) /\
  taken alg all c /\ hash_after_server_finished c = digest alg all /\
  exists ks, schedule c = Some ks /\ ks_suite ks = st /\ master_secret ks = ms /\
    client_handshake ks = Some (keys_of st (ds alg hs (str "c hs traffic") (digest alg base))) /\
    client_application ks = Some (keys_of st (ds alg ms (str "c ap traffic") (digest alg all))) /\
    server_application ks = Some (keys_of st (ds alg ms (str "s ap traffic") (digest alg all))).

Lemma read_finished_ok cfg wr st psk base m c u c' :
  msg_ok m -> msg_type m = FINISHED -> secrets c st psk base ->
  flown cfg wr (s_hash st) base (Some (if wr then ENCRYPTED_EXTENSIONS else CERTIFICATE_VERIFY)) c ->
  read_finished m c = (Ok u, c') ->
  settled c' = settled c /\ served cfg wr st psk base c'.
Proof.
  intros Hm Hty (ks0 & Hks0 & Hsu & He & Hh & Hms & Hc & Hs & _) [Ht Hst] H. pose proof (raw_of _ _ Hm Hty) as Hraw.
  pose proof (taken_hash _ _ _ Ht) as Hth.
  unfold read_finished, push_message in H. t_inv. fields. simplify_eq.
  match goal with E : verify_data _ _ _ = _ |- _ => rewrite (verify_data_eq _ _ _ _ eq_refl), Hth in E; injection E as <- end.
  match goal with E : negb _ = false |- _ => apply negb_false_iff, bool_decide_eq_true_1 in E; rename E into Hmac end.
  match goal with E : enter_application ?h _ = _ |- _ =>
    destruct (enter_application_ok _ _ ks0 h eq_refl Hms) as (ks & Hap & Hca & Hsa & _ & Hkeep & _); rewrite Hap in E end.
  simplify_eq.
  match goal with |- settled ?c1 = _ /\ _ => set (c' := c1) end.
  assert (flight c' = flight c) as Hfl by (unfold flight, signed_part, c'; fields; done).
  assert (shared_secret c' = shared_secret c) as Hss by (unfold c'; fields; done).
  assert (server_finished_bytes c' = hm_raw m) as Hsf by (unfold c'; fields; done).
  assert (taken (s_hash (ks_suite ks0)) (base ++ flight c ++ hm_raw m) c') as Ht'.
  { eapply taken_push; [exact Ht|eassumption|reflexivity|by rewrite app_assoc]. }
  pose proof (taken_hash _ _ _ Ht') as Hth'. split; [unfold settled, c'; fields; done|].
  unfold served. rewrite Hfl, Hss, Hsf, Hraw, Hmac. rewrite Hraw in Ht', Hth'. split; [|split; [done|split; [done|]]].
  - inversion Hst as [|Hcr Hc' Hcb Hcv| |key Hwr _ _ _ _|Hwr _ Ha]; destruct wr; simplify_eq.
    + unfold c'. pieces.
    + done.
  - split; [exact Hth'|]. eexists. split; [unfold c'; fields; reflexivity|].
    rewrite <- Hth'. split_and!; congruence || done.
Qed.
(** *** The whole flight *)

Lemma secrets_kept c c' st psk base : kept c c' -> secrets c st psk base -> secrets c' st psk base.
Proof. intros [Hs Hk] (ks & Hks & Ha). injection Hs as _ _ _ _ _ _ _ _ Hss _. exists ks. by rewrite Hk, Hss. Qed.

Lemma flight_message_ok cfg wr st psk base previous m c last c' :
  cfg_signature_algorithms (config c) = cfg_signature_algorithms cfg -> msg_ok m ->
  secrets c st psk base -> flown cfg wr (s_hash st) base previous c ->
  flight_message wr (begun previous) previous m c = (Ok last, c') ->
  settled c' = settled c /\
  if last then served cfg wr st psk base c'
  else secrets c' st psk base /\ flown cfg wr (s_hash st) base (Some (msg_type m)) c'.
Proof.
  intros Hcfg Hm Hsec Hfl H. unfold flight_message in H. t_inv.
  destruct (out_of_order _ _ _ _ _) eqn:Ho; [by t_step|]. t_inv.
  match goal with E : transcript c = Some ?t |- _ =>
    assert (with_transcript (Some t) c = c) as Heq by (rewrite <- E; by destruct c); rewrite Heq in *; clear Heq end.
  assert (forall c1, kept c c1 /\ flown cfg wr (s_hash st) base (Some (msg_type m)) c1 ->
    settled c1 = settled c /\ secrets c1 st psk base /\ flown cfg wr (s_hash st) base (Some (msg_type m)) c1) as Hnext.
  { intros c1 [Hk Hf]. split; [apply Hk|]. split; [by eapply secrets_kept|done]. }
  repeat case_decide; try match goal with E : msg_type m = _ |- _ => rewrite E in Ho, Hnext |- *; rename E into Hty end.
  - destruct previous; cbn [begun] in *; [by t_step|]. t_inv. apply Hnext. by eapply read_encrypted_extensions_ok.
  - apply order_request in Ho as [-> ->]. t_inv. apply Hnext. by eapply read_certificate_request_ok.
  - apply order_certificate in Ho as (-> & Hc%bool_decide_eq_false_1%eq_None_not_Some & Hb). t_inv.
    apply Hnext. by eapply read_certificate_ok.
  - apply order_verify in Ho as ->. t_inv. apply Hnext. by eapply read_certificate_verify_ok.
  - apply order_finished in Ho as ->. t_inv. by eapply read_finished_ok.
  - by t_step.
Qed.

Lemma flown_aside cfg wr alg base previous c c' :
  aside c c' -> flown cfg wr alg base previous c -> flown cfg wr alg base previous c'.
Proof.
  apply (aside_keeps (flown cfg wr alg base previous)). intros d. unfold flown. split; (intros [Ht Hs]; split; [exact Ht|]).
  all: destruct Hs; econstructor; eassumption.
Qed.

Lemma aside_kept c c' : aside c c' -> kept c c'.
Proof. intros H. split; [exact (f_equal settled H)|exact (f_equal schedule H)]. Qed.

Lemma settled_config c c' : settled c' = settled c -> config c' = config c.
Proof. unfold settled. by intros [= ? _]. Qed.

Lemma flight_loop_ok fuel cfg wr st psk base previous c u c' :
  cfg_signature_algorithms (config c) = cfg_signature_algorithms cfg ->
  secrets c st psk base -> flown cfg wr (s_hash st) base previous c ->
  flight_loop instant fuel wr (begun previous) previous c = (Ok u, c') ->
  settled c' = settled c /\ served cfg wr st psk base c'.
Proof.
  revert previous c. induction fuel as [|fuel IH]; intros previous c Hcfg Hsec Hfl H; cbn [flight_loop] in H; [by t_step|].
  apply t_bind_inv in H as (m & c1 & Hn & H). apply t_bind_inv in H as (last & c2 & Hm & H).
  apply next_handshake_ok in Hn as [Ha Hmok]. pose proof (aside_kept _ _ Ha) as Hk.
  eapply (flight_message_ok cfg wr st psk base) in Hm as [Hs Hm]; [| |done| |by eapply flown_aside].
  2: { by rewrite (f_equal config Ha : config c1 = config c). }
  2: { by eapply secrets_kept. }
  destruct Hk as [Hk _]. destruct last.
  - t_inv. split; [by rewrite Hs|done].
  - destruct Hm as [Hsec2 Hfl2]. apply (IH (Some (msg_type m))) in H as [Hs' H]; [|by rewrite (settled_config _ _ Hs), (settled_config _ _ Hk)|done|done].
    split; [by rewrite Hs', Hs|done].
Qed.

Lemma read_server_flight_ok cfg st psk base c u c' :
  cfg_signature_algorithms (config c) = cfg_signature_algorithms cfg ->
  secrets c st psk base -> taken (s_hash st) base c -> blank c -> read_server_flight instant c = (Ok u, c') ->
  settled c' = settled c /\ served cfg (resumed c) st psk base c'.
Proof.
  intros Hcfg Hsec Ht Hb H. unfold read_server_flight in H. t_inv.
  apply (flight_loop_ok 6 cfg (resumed c) st psk base None) in H0; [done..|].
  split; [|by constructor]. destruct Hb as (Hee & Hcr & Hc & Hcb & Hcv & _).
  unfold flight, signed_part. rewrite Hee, Hcr, Hcb, Hcv. cbn [default app]. by rewrite app_nil_r.
Qed.

(** ** The client's Finished *)

Lemma with_conn_id (c : Client) : with_conn (conn c) c = c.
Proof. by destruct c. Qed.

(** What sending the client's Finished leaves alone. *)
Definition received_flight (c : Client) :=
  (encrypted_extensions_bytes c, certificate_request c, certificate_bytes c, certificate_verify_bytes c, server_finished_bytes c).
Definition answered (c c' : Client) : Prop := settled c' = settled c /\ received_flight c' = received_flight c.

Lemma answered_flight c c' : answered c c' ->
  server_hello_bytes c' = server_hello_bytes c /\ shared_secret c' = shared_secret c /\ resumed c' = resumed c /\
  flight c' = flight c /\ server_finished_bytes c' = server_finished_bytes c /\
  encrypted_extensions_bytes c' = encrypted_extensions_bytes c /\
  forall cfg alg base, authenticated cfg c alg base -> authenticated cfg c' alg base.
Proof.
  intros [E1 E2]. injection E1 as _ _ _ _ Es Eh _ _ Ess _. injection E2 as Ee Er Ec Ev Ef.
  unfold resumed, flight, authenticated, certified, signed_part. rewrite Es, Eh, Ess, Ee, Er, Ec, Ev, Ef. done.
Qed.

Lemma ensure_keys_ok c u c' :
  ensure_client_handshake_keys c = (Ok u, c') -> exists k b, c' = with_client_handshake_keys_installed b (with_conn k c).
Proof.
  unfold ensure_client_handshake_keys. intros H. apply t_bind_inv in H as (d & c1 & [= <- <-] & H).
  destruct (client_handshake_keys_installed c) eqn:Hi.
  - t_inv. exists (conn c), true. rewrite with_conn_id, <- Hi. by destruct c.
  - t_inv. by eexists _, _.
Qed.

Lemma attempt_conn_inv {A} (m : C A) (c : Client) r c' :
  attempt (on_conn m) c = (Ok r, c') -> exists k, m (conn c) = (r, k) /\ c' = with_conn k c.
Proof. unfold attempt, on_conn. destruct (m (conn c)) as [r' k]. intros [= -> <-]. eauto. Qed.

Lemma send_client_finished_ok cfg wr st psk base c u c' :
  client_certificate_bytes c = [] -> served cfg wr st psk base c -> send_client_finished c = (Ok u, c') ->
  let alg := s_hash st in
  let hs := rfc_next alg (rfc_early alg psk) (shared_secret c) in
  let ms := rfc_next alg hs (zeros alg) in
  let all := base ++ flight c ++ server_finished_bytes c in
  answered c c' /\ finished c' = true /\
  client_finished_bytes c' = encode_handshake FINISHED
    (mac_of alg (ds alg hs (str "c hs traffic") (digest alg base)) (digest alg all)) /\
  taken alg (all ++ client_finished_bytes c') c' /\
  (write (layer (conn c')), write_seq (layer (conn c')), read (layer (conn c')), read_seq (layer (conn c'))) =
    (Some (keys_of st (ds alg ms (str "c ap traffic") (digest alg all))), 0,
     Some (keys_of st (ds alg ms (str "s ap traffic") (digest alg all))), 0) /\
  exists ks, schedule c' = Some ks /\
    resumption_master ks = Some (ds alg ms (str "res master") (digest alg (all ++ client_finished_bytes c'))).
Proof.
  intros Hcc Hsv H. cbv zeta. unfold served in Hsv. cbv zeta in Hsv.
  destruct Hsv as (_ & _ & Ht & Hh & ks & Hks & Hsu & Hms & Hch & Hca & Hsa).
  unfold send_client_finished, client_verify_data, send_client_finished_bytes in H. t_inv.
  rewrite decide_True in * by done. t_inv. simplify_eq.
  match goal with E : verify_data _ _ _ = _ |- _ => rewrite (verify_data_eq _ _ _ _ eq_refl), Hh in E; injection E as <- end.
  match goal with E : ensure_client_handshake_keys _ = _ |- _ => apply ensure_keys_ok in E as (k & b & ->) end.
  match goal with E : attempt _ _ = _ |- _ => apply attempt_conn_inv in E as (k' & _ & ->) end.
  match goal with E : client_finished_sent ?m _ = _ |- _ => set (fin := m) in *; rename E into H end.
  unfold client_finished_sent in H. t_inv. fields. simplify_eq.
  match goal with E : derive_resumption_master ?h ks = _ |- _ =>
    pose proof (derive_resumption_master_ok ks h) as R; cbv zeta in R; rewrite R in E; injection E as <- <-; clear R end.
  cbn [mbind option_bind client_application server_application set_resumption_master record_step] in *.
  rewrite Hca, Hsa in *. t_inv. fields.
  match goal with |- answered _ ?c1 /\ _ => assert (taken (s_hash (ks_suite ks)) ((base ++ flight c ++ server_finished_bytes c) ++ fin) c1) as Ht' end.
  { eapply taken_push; [exact Ht|eassumption|reflexivity|done]. }
  pose proof (taken_hash _ _ _ Ht') as Hth. fields.
  unfold answered, settled, received_flight, flight, signed_part. fields.
  split; [done|]. split; [done|]. split; [done|]. split; [exact Ht'|]. split; [done|].
  eexists. split; [reflexivity|]. cbn [resumption_master set_resumption_master]. by rewrite Hms, Hth.
Qed.
End flight.

Definition message_of (ty : HandshakeType) (body : bytes) : HandshakeMessage := mkHandshakeMessage ty body (encode_handshake ty body).

(** ** A server to run against

  X25519 is XOR, and a signature is the key followed by the last bytes of what is
  signed; with [toy_lib] the client runs a whole handshake. *)

#[local] Instance toy_curves : CurveLib := {|
  x25519_public s := s;
  x25519_dh s p := zip_with byte_xor s p;
  x25519_contributory s p := true;
  p256_accepts s := true;
  p256_public s := s;
  p256_encoded p := Ok p;
  p256_point p := Ok p;
  p256_dh s p := zip_with byte_xor s p
|}.

#[local] Instance toy_sigs : SigLib := {|
  RsaKey := unit; EcKey := unit; EdKey := bytes;
  x509_spki der := Ok (str "1.3.101.112", der, der);
  rsa_from_pkcs1_der k := Err [];
  rsa_from_public_key_der k := Err [];
  ec_from_sec1_bytes k := Err [];
  ed_from_bytes k := Ok k;
  pss_signature d s := Ok s;
  pss_verify d k content s := Err [];
  pkcs1_signature s := Ok s;
  pkcs1_verify k content s := Err [];
  ecdsa_signature s := Ok s;
  ecdsa_verify k content s := Err [];
  ed_verify k content s := if decide (s = k ++ drop (length content - 32) content) then Ok tt else Err [];
  p256_from_pkcs8_pem k := Err [];
  p256_sign_der k content := []
|}.

Definition toy_der : bytes := replicate 32 xd1.
Definition toy_server_hello : bytes :=
  server_hello_enc (mkServerHello LEGACY_VERSION_TLS12 (replicate 32 x77) [] TLS_AES_128_GCM_SHA256 x00
    [mkExtension EXT_KEY_SHARE (be_bytes 2 GROUP_X25519 ++ be_bytes 2 32 ++ replicate 32 x42)]).
Definition toy_certificate : bytes := CertificateMsg_encode_body (CertificateMsg_one [] toy_der).
(** The toy digest is zeros, so the signature and the MAC are over zeros. *)
Definition toy_verify : bytes :=
  CertificateVerifyMsg_encode_body (mkCertificateVerifyMsg SIG_ED25519 (toy_der ++ replicate 32 x00)).
Definition toy_flight : list HandshakeMessage :=
  [message_of ENCRYPTED_EXTENSIONS [x00; x00]; message_of CERTIFICATE toy_certificate; message_of CERTIFICATE_VERIFY toy_verify;
   message_of FINISHED (replicate 32 x00)].
Definition toy_secret_keys : TrafficKeys :=
  let lib := toy_lib in keys_of (mkSuite TLS_AES_128_GCM_SHA256 Sha256 Aes128Gcm) (replicate 32 x00).
(** The ServerHello in a plaintext record, the flight in one protected record. *)
Definition toy_wire : bytes :=
  let lib := toy_lib in
  match send_all [IRec Handshake (hm_raw (message_of SERVER_HELLO toy_server_hello)) 0; ICcs] RecordLayer_new with
  | (Ok w1, l) =>
      match send_all [IRec Handshake (concat (map hm_raw toy_flight)) 3] (set_write toy_secret_keys l) with
      | (Ok w2, _) => w1 ++ w2
      | _ => []
      end
  | _ => []
  end.
Definition toy_sock : Socket := mkSocket [Data (firstn 50 toy_wire); Data (drop 50 toy_wire)] [] None false.

(** ** Claims *)

(** C30: whenever the client's handshake returns [Ok], whatever the server sent: the
  suite was offered (and is the retry request's), the group is one a share was sent
  for, and every later check was over one transcript - the hellos, the encrypted
  flight as received and both Finished messages.  Unless a PSK was accepted the
  server's signature, under an offered scheme that is not PKCS#1 v1.5, verifies with
  the leaf certificate's key over the transcript up to the Certificate; its Finished
  is the MAC RFC 8446 asks for over the transcript before it; the client answered
  with its own, and the keys in force in both directions are the application keys of
  the RFC's schedule for the shared secret, with sequence numbers at zero. *)
Theorem handshake_authenticates {lib : CryptoLib} {curves : CurveLib} {sigs : SigLib} instant k cfg u c :
  handshake instant (over k cfg) = (Ok u, c) ->
  exists st hello p psk, negotiated cfg c st hello p psk /\
    let alg := s_hash st in
    let base := p ++ server_hello_bytes c in
    let hs := rfc_next alg (rfc_early alg psk) (shared_secret c) in
    let ms := rfc_next alg hs (zeros alg) in
    let all := base ++ flight c ++ server_finished_bytes c in
    (if resumed c then flight c = encrypted_extensions_bytes c else authenticated cfg c alg base) /\
    server_finished_bytes c = encode_handshake FINISHED
      (mac_of alg (ds alg hs (str "s hs traffic") (digest alg base)) (digest alg (base ++ flight c))) /\
    client_finished_bytes c = encode_handshake FINISHED
      (mac_of alg (ds alg hs (str "c hs traffic") (digest alg base)) (digest alg all)) /\
    taken alg (all ++ client_finished_bytes c) c /\
    (write (layer (conn c)), write_seq (layer (conn c)), read (layer (conn c)), read_seq (layer (conn c))) =
      (Some (keys_of st (ds alg ms (str "c ap traffic") (digest alg all))), 0,
       Some (keys_of st (ds alg ms (str "s ap traffic") (digest alg all))), 0) /\
    (exists ks, schedule c = Some ks /\
       resumption_master ks = Some (ds alg ms (str "res master") (digest alg (all ++ client_finished_bytes c)))) /\
    finished c = true.
Proof.
  intros H. unfold handshake in H.
  apply t_bind_inv in H as (u1 & c1 & H1 & H). apply t_bind_inv in H as (u2 & c2 & H2 & H).
  apply t_bind_inv in H as (u3 & c3 & H3 & H). apply t_bind_inv in H as (u4 & c4 & H4 & H).
  apply send_client_hello_ok in H1 as [Hg _]; [|done|done]. change (config (over k cfg)) with cfg in Hg.
  apply maybe_send_ccs_ok in H2. apply (greeted_aside _ _ _ H2) in Hg. clear H2.
  apply (read_server_hello_ok instant cfg) in H3 as (st & p & psk & hello & Hn & Hsec & Ht & Hb); [|done].
  pose proof (follows_config _ _ (ng_follows _ _ _ _ _ _ Hn)) as (_ & Hsig & _).
  apply (read_server_flight_ok instant cfg st psk (p ++ server_hello_bytes c3)) in H4 as [Hset Hsv]; [|done..].
  pose proof Hset as E. unfold settled in E. injection E as _ _ _ _ Esh Eh _ _ _ Ecc.
  eapply send_client_finished_ok in H; [|by rewrite Ecc; apply Hb|exact Hsv].
  cbv zeta in H. destruct H as (Hans & Hfin & Hcf & Htk & Hl & Hks).
  exists st, hello, p, psk. split; [eapply negotiated_settled; [apply Hans|by eapply negotiated_settled]|].
  unfold served in Hsv. cbv zeta in Hsv. destruct Hsv as (Hauth & Hsf & _).
  apply answered_flight in Hans as (Es & Ess & Er & Ef & Esf & Eee & Hcert).
  assert (resumed c = resumed c3) as Er3 by (rewrite Er; unfold resumed; by rewrite Eh).
  cbv zeta. rewrite Er3, Es, Ess, Ef, Esf, Eee, Esh. split_and!; try done.
  destruct (resumed c3); [done|by apply Hcert].
Qed.

(** The client against the toy server, whose bytes arrive in two chunks. *)
Lemma handshake_authenticates_witness :
  let lib := toy_lib in let curves := toy_curves in let sigs := toy_sigs in
  let r := handshake (fun _ => 0) (over (TlsConn_new toy_sock) ClientConfig_default) in
  r.1 = Ok tt /\ exists st hello p psk, negotiated ClientConfig_default r.2 st hello p psk /\ finished r.2 = true.
Proof.
  intros lib curves sigs r. assert (r.1 = Ok tt) as Hr by (vm_compute; reflexivity).
  assert (handshake (fun _ => 0) (over (TlsConn_new toy_sock) ClientConfig_default) = (Ok tt, r.2)) as E
    by (rewrite <- Hr; apply surjective_pairing).
  pose proof (handshake_authenticates _ _ _ _ _ E) as H. clear E. clearbody r. split; [exact Hr|].
  destruct H as (st & hello & p & psk & Hn & H). exists st, hello, p, psk. split; [exact Hn|].
  cbv zeta in H. by destruct H as (_ & _ & _ & _ & _ & _ & Hf).
Defined.
