(* ===== verification/TlsRounds.v ===== *)
(** * The read loops end

  Every message a connection returns takes bytes off it, so the rounds the loops of
  [TlsConn] and [TlsClient] are given are never what ends them. *)

From S2P Require Import Prelude Text TlsTypes TlsBuf TlsCrypto TlsKeys TlsMsg TlsMsgRound TlsRecord TlsConn TlsStream TlsSig TlsClient TlsHandshake.

(** ** What a read takes *)

(** The bytes that are there or still to come. *)
Definition bytes_left (c : TlsConn) : nat := length (inbuf c) + coming c.

Lemma check_deadline_inv what c u c' : check_deadline what c = (Ok u, c') -> c' = c.
Proof. unfold check_deadline. destruct (incoming (stream c)) as [|[| | | |] ?]; congruence. Qed.

Lemma sock_read_takes n c bs c' :
  (0 < n)%nat -> sock_read n c = (RdBytes bs, c') ->
  same_core c c' /\ inbuf c' = inbuf c /\ coming c = (length bs + coming c')%nat /\ bs <> [].
Proof.
  intros Hn. unfold sock_read, coming. destruct (incoming (stream c)) as [|[[|b bs']| | | |] evs]; try done.
  intros [= <- <-]. split; [done|]. split; [done|]. rewrite sum_cons. cbn [event_bytes set_incoming with_stream stream incoming].
  pose proof (take_drop n (b :: bs')) as Ht. apply (f_equal length) in Ht. rewrite length_app in Ht.
  split; [|destruct n; [lia|done]].
  destruct (drop n (b :: bs')) as [|x l]; rewrite ?sum_cons; cbn [event_bytes]; cbn [length] in Ht |- *; lia.
Qed.

Lemma fill_takes what c c' :
  fill what c = (Ok true, c') -> same_core c c' /\ bytes_left c' = bytes_left c /\ (coming c' < coming c)%nat.
Proof.
  unfold fill. destruct (sock_read _ c) as [[bs| |k|] c1] eqn:E; try done.
  - intros [= <-]. apply sock_read_takes in E as (Hc & Hi & Hcm & Hne); [|apply Nat.lt_0_succ].
    unfold bytes_left. change (coming (with_inbuf (inbuf c1 ++ bs) c1)) with (coming c1).
    cbn [inbuf with_inbuf]. rewrite length_app, Hi. split; [exact Hc|]. destruct bs; [done|]. cbn [length] in *. lia.
  - by destruct (is_reset k).
Qed.

Lemma take_record_takes c r c' :
  take_record c = (Ok r, c') ->
  same_core c c' /\ (bytes_left c' + 5 + length (fragment r) = bytes_left c)%nat /\ coming c' = coming c.
Proof.
  unfold take_record. rewrite c_bind_get. intros H. apply c_bind_inv in H as ([r' used] & c1 & [= E <-] & H).
  rewrite c_bind_modify in H. cbv zeta in H. rewrite c_bind_trace, c_bind_modify in H. injection H as <- <-.
  split; [done|]. unfold bytes_left. match goal with |- context [coming ?d] => change (coming d) with (coming c) end.
  cbn [inbuf with_records_in with_trace with_inbuf]. split; [|done].
  apply Record_parse_iff in E as (_ & _ & _ & Hraw & -> & tl & ->).
  unfold zdrop, zlen. rewrite Nat2Z.id, drop_app_length, length_app, Hraw. unfold Record_build.
  rewrite !length_app, !length_be_bytes. cbn [length]. lia.
Qed.

Lemma read_record_takes fuel c r c' :
  read_record_loop fuel c = (Ok r, c') ->
  same_core c c' /\ (bytes_left c' + 5 + length (fragment r) = bytes_left c)%nat.
Proof.
  revert c. induction fuel as [|fuel IH]; intros c H; cbn [read_record_loop] in H; rewrite c_bind_get in H;
    (destruct (record_ready c); [apply take_record_takes in H as (? & ? & _); done|]); [done|].
  apply c_bind_inv in H as (u & c1 & ->%check_deadline_inv & H).
  apply c_bind_inv in H as ([|] & c2 & Hf & H); [|done].
  apply fill_takes in Hf as (Hc & Hb & _). apply IH in H as [Hc' Hb']. split; [by etrans|lia].
Qed.

(** ** What a message takes *)

Section rounds.
Context {lib : CryptoLib} {laws : CryptoLaws lib}.

Lemma open_shrinks l r p l' : open r l = (Ok p, l') -> (length (in_content p) < length (fragment r))%nat.
Proof.
  unfold open. destruct (read l) as [k|]; [|done]. unfold aead_open. destruct (negb _); [done|].
  destruct (aead_decrypt _ _ _ _ _) as [plain|] eqn:E; [|done]. cbn [ok_or map_err].
  intros [= Hp _]. apply aead_decrypt_len in E. apply InnerPlaintext_parse_iff in Hp as (_ & _ & ->).
  unfold zlen, tag_len in E. unfold InnerPlaintext_build in E. rewrite length_app in E. cbn [length app] in E. lia.
Qed.

Definition buffered (c : TlsConn) : nat := length (hs_buf c) + length (app_buf c).

Lemma receive_alert_takes body c i c' : receive_alert body c = (Ok i, c') -> bytes_left c' = bytes_left c /\ buffered c' = buffered c.
Proof.
  unfold receive_alert. intros H. apply c_bind_inv in H as (a & c1 & [= _ <-] & H). by injection H as _ <-.
Qed.

(** A record adds less to the buffers than it took off the wire. *)
Lemma classify_takes r c o c' :
  classify r c = (Ok o, c') ->
  bytes_left c' = bytes_left c /\
  (buffered c' <= buffered c + (if o is Some _ then 0 else S (length (fragment r))))%nat.
Proof.
  unfold classify. rewrite c_bind_get. cbv zeta. intros H.
  assert (forall body c0, (receive_alert body ≫= fun i => mret (Some i)) c0 = (Ok o, c') ->
    bytes_left c' = bytes_left c0 /\ buffered c' = buffered c0 /\ is_Some o) as Halert.
  { intros body c0 H0. apply c_bind_inv in H0 as (i & c1 & [Hb Hb']%receive_alert_takes & H0).
    injection H0 as <- <-. by eauto. }
  destruct (content_type r).
  - injection H as <- <-. lia.
  - destruct (_ =? 2).
    + apply Halert in H as (-> & -> & [i ->]). lia.
    + injection H as <- <-. lia.
  - destruct (negb _); [|injection H as <- <-; lia]. rewrite c_bind_modify in H. injection H as <- <-.
    split; [done|]. unfold buffered. cbn [hs_buf app_buf with_hs_buf]. rewrite length_app. lia.
  - destruct (reading_encrypted _); [|injection H as <- <-; lia].
    apply c_bind_inv in H as (p & c1 & Ho & H). rewrite c_bind_trace in H.
    unfold c_layer in Ho. destruct (open r (layer c)) as [res l] eqn:Eo. injection Ho as -> <-.
    apply open_shrinks in Eo.
    destruct (in_content_type p).
    + injection H as <- <-. split; [done|]. unfold buffered. cbn. lia.
    + apply Halert in H as (-> & Hb & [i ->]). split; [done|]. rewrite Hb. unfold buffered. cbn. lia.
    + rewrite c_bind_modify in H. injection H as <- <-. split; [done|].
      unfold buffered. cbn [hs_buf app_buf with_hs_buf with_trace with_layer]. rewrite length_app. lia.
    + rewrite c_bind_modify in H. injection H as <- <-. split; [done|].
      unfold buffered. cbn [hs_buf app_buf with_app_buf with_trace with_layer]. rewrite length_app. cbn [length]. lia.
    + injection H as <- <-. split; [done|]. unfold buffered. cbn. lia.
  - injection H as <- <-. lia.
Qed.

Lemma pop_takes c o c' :
  pop_handshake c = (Ok o, c') ->
  bytes_left c' = bytes_left c /\ app_buf c' = app_buf c /\
  match o with Some _ => (length (hs_buf c') < length (hs_buf c))%nat | None => c' = c end.
Proof.
  rewrite pop_handshake_eq. destruct (HandshakeMessage_parse (hs_buf c)) as [[m used]|] eqn:E.
  - intros [= <- <-]. split; [done|]. split; [done|]. cbn [hs_buf with_hs_buf].
    apply HandshakeMessage_parse_iff in E as (_ & Hr & -> & tl & ->).
    unfold zdrop, zlen. rewrite Nat2Z.id, drop_app_length, length_app, Hr, encode_handshake_eq. cbn [length]. lia.
  - by intros [= <- <-].
Qed.

Lemma next_message_loop_takes fuel c i c' :
  next_message_loop fuel c = (Ok i, c') -> (bytes_left c' + buffered c' < bytes_left c + buffered c)%nat.
Proof.
  revert c. induction fuel as [|fuel IH]; intros c H; cbn [next_message_loop] in H;
    apply c_bind_inv in H as ([m|] & c1 & (Hb & Ha & Hh)%pop_takes & H).
  1,3: injection H as _ <-; unfold buffered in *; rewrite Ha; lia.
  all: subst c1; rewrite c_bind_get in H; destruct (app_buf c) as [|d rest] eqn:Ea.
  2,4: rewrite c_bind_modify in H; injection H as _ <-; unfold buffered; rewrite Ea; cbn [length hs_buf app_buf with_app_buf];
    change (bytes_left (with_app_buf rest c)) with (bytes_left c); lia.
  { done. }
  apply c_bind_inv in H as (? & c2 & ->%check_deadline_inv & H). apply c_bind_inv in H as (r & c3 & [(_ & Hhs & Hap) Hr]%read_record_takes & H).
  apply c_bind_inv in H as (o & c4 & [Hb4 Hbuf]%classify_takes & H).
  assert (buffered c3 = buffered c) as Hbc by (unfold buffered; by rewrite Hhs, Hap).
  destruct o as [e|].
  - injection H as _ <-. lia.
  - apply IH in H. lia.
Qed.

Lemma next_message_takes c i c' : next_message c = (Ok i, c') -> (backlog c' < backlog c)%nat.
Proof.
  intros H. apply next_message_loop_takes in H. unfold backlog, bytes_left, buffered in *. lia.
Qed.

(** ** The rounds do not matter *)

Lemma c_bind_ext {A B} (m : C A) (f g : A -> C B) c :
  (forall a c1, m c = (Ok a, c1) -> f a c1 = g a c1) -> (m ≫= f) c = (m ≫= g) c.
Proof. unfold mbind, C_bind. destruct (m c) as [[a|e] c1]; [|done]. eauto. Qed.

Lemma read_record_rounds f f' c :
  (coming c < f)%nat -> (coming c < f')%nat -> read_record_loop f c = read_record_loop f' c.
Proof.
  revert f' c. induction f as [|f IH]; intros [|f'] c Hf Hf'; [lia..|]. cbn [read_record_loop]. rewrite !c_bind_get.
  destruct (record_ready c); [done|].
  apply c_bind_ext. intros u c1 ->%check_deadline_inv. apply c_bind_ext. intros [|] c2 E2; [|done].
  apply fill_takes in E2 as (_ & _ & Hlt). apply IH; lia.
Qed.

Lemma next_message_rounds f f' c :
  (bytes_left c < f)%nat -> (bytes_left c < f')%nat -> next_message_loop f c = next_message_loop f' c.
Proof.
  revert f' c. induction f as [|f IH]; intros [|f'] c Hf Hf'; [lia..|]. cbn [next_message_loop].
  apply c_bind_ext. intros [m|] c1 (Hb1 & _ & Hc1)%pop_takes; [done|subst c1].
  rewrite !c_bind_get. destruct (app_buf c); [|done].
  apply c_bind_ext. intros u c1 ->%check_deadline_inv. apply c_bind_ext. intros r c2 [_ Hr]%read_record_takes.
  apply c_bind_ext. intros [i|] c3 [Hb3 _]%classify_takes; [done|]. apply IH; lia.
Qed.
End rounds.

Section client_rounds.
Context {lib : CryptoLib} {curves : CurveLib} {sigs : SigLib} {laws : CryptoLaws lib} (instant : nat -> Z).

Lemma t_bind_ext {A B} (m : T A) (f g : A -> T B) c :
  (forall a c1, m c = (Ok a, c1) -> f a c1 = g a c1) -> (m ≫= f) c = (m ≫= g) c.
Proof. unfold mbind, T_bind. destruct (m c) as [[a|e] c1]; [|done]. eauto. Qed.

Lemma on_next_message_takes c i c' :
  on_conn next_message c = (Ok i, c') -> (backlog (conn c') < backlog (conn c))%nat.
Proof. intros (k & Hk & ->)%on_conn_inv. by apply next_message_takes in Hk. Qed.

(** What the rest of a round does to the connection takes nothing off it. *)
Definition quiet (c c' : Client) : Prop := backlog (conn c') = backlog (conn c).

Lemma keep_ticket_quiet m c u c' : keep_ticket instant m c = (Ok u, c') -> quiet c c'.
Proof. unfold keep_ticket, quiet. intros H. t_inv. by fields. Qed.

Lemma write_record_like c bs k c' ct padding :
  (c_layer (seal ct bs padding) c = (Ok k, c')) -> backlog c' = backlog c.
Proof. unfold c_layer. destruct (seal ct bs padding (layer c)). by intros [= _ <-]. Qed.

Lemma c_write_quiet bs c u c' : c_write bs c = (Ok u, c') -> backlog c' = backlog c.
Proof. unfold c_write. destruct (out_error (stream c)); [done|]. by intros [= _ <-]. Qed.

Lemma write_handshake_quiet message c u c' : write_handshake message c = (Ok u, c') -> backlog c' = backlog c.
Proof.
  unfold write_handshake. rewrite c_bind_get. cbv zeta. intros H.
  apply c_bind_inv in H as (bs & c1 & H1%write_record_like & H). apply c_bind_inv in H as (u' & c2 & H2%c_write_quiet & H).
  injection H as _ <-. change (backlog c2 = backlog c). rewrite H2. done.
Qed.

Lemma rekey_read_quiet c u c' : rekey_read c = (Ok u, c') -> quiet c c'.
Proof. unfold rekey_read, quiet. intros H. t_inv. fields. done. Qed.

Lemma send_key_update_quiet k c u c' : send_key_update k c = (Ok u, c') -> quiet c c'.
Proof.
  unfold send_key_update, rekey_write, quiet. intros H. t_inv. fields.
  match goal with E : write_handshake _ _ = _ |- _ => exact (write_handshake_quiet _ _ _ _ E) end.
Qed.

Lemma post_handshake_quiet m c u c' : post_handshake instant m c = (Ok u, c') -> quiet c c'.
Proof.
  unfold post_handshake. intros H. case_decide; [by eapply keep_ticket_quiet|]. case_decide; [|done].
  apply t_bind_inv in H as (k & c1 & [_ ->]%t_try_inv & H). apply t_bind_inv in H as (u1 & c2 & ->%t_modify_inv & H).
  apply t_bind_inv in H as (u2 & c3 & H3%rekey_read_quiet & H).
  assert (quiet c c3) as Hq by exact H3. case_decide.
  - apply send_key_update_quiet in H. unfold quiet in *. congruence.
  - by apply t_ret_inv in H as [_ ->].
Qed.

Lemma count_ccs_quiet c u c' : count_ccs c = (Ok u, c') -> quiet c c'.
Proof. by intros ->%t_modify_inv. Qed.
Lemma keep_app_quiet d c u c' : keep_app d c = (Ok u, c') -> quiet c c'.
Proof. by intros ->%t_modify_inv. Qed.

Lemma next_handshake_rounds what f f' c :
  (backlog (conn c) < f)%nat -> (backlog (conn c) < f')%nat ->
  next_handshake_loop instant f what c = next_handshake_loop instant f' what c.
Proof.
  revert f' c. induction f as [|f IH]; intros [|f'] c Hf Hf'; [lia..|]. cbn [next_handshake_loop].
  apply t_bind_ext. intros i c1 H1%on_next_message_takes.
  destruct i as [m|a|d|r|r]; try done.
  - case_decide; [|done]. apply t_bind_ext. intros u c2 H2%keep_ticket_quiet. unfold quiet in H2. apply IH; lia.
  - apply t_bind_ext. intros u c2 H2%keep_app_quiet. unfold quiet in H2. apply IH; lia.
  - apply t_bind_ext. intros u c2 H2%count_ccs_quiet. apply t_bind_ext. intros u' c3 ->%t_modify_inv.
    unfold quiet in H2. apply IH; case_match; cbn [conn with_server_ccs_before_encrypted]; lia.
Qed.

Lemma read_app_data_rounds f f' c :
  (backlog (conn c) < f)%nat -> (backlog (conn c) < f')%nat -> read_app_data_loop instant f c = read_app_data_loop instant f' c.
Proof.
  revert f' c. induction f as [|f IH]; intros [|f'] c Hf Hf'; [lia..|]. cbn [read_app_data_loop].
  apply t_bind_ext. intros u c1 (k & ->%check_deadline_inv & ->)%on_conn_inv. rewrite with_conn_id.
  apply t_bind_ext. intros i c2 H2%on_next_message_takes.
  destruct i as [m|a|d|r|r]; try done.
  - apply t_bind_ext. intros u' c3 H3%post_handshake_quiet. unfold quiet in H3. apply IH; lia.
  - case_decide; [|done]. apply IH; lia.
  - apply t_bind_ext. intros u' c3 H3%count_ccs_quiet. unfold quiet in H3. apply IH; lia.
Qed.

Lemma close_rounds f f' c :
  (backlog (conn c) < f)%nat -> (backlog (conn c) < f')%nat -> close_loop instant f c = close_loop instant f' c.
Proof.
  revert f' c. induction f as [|f IH]; intros [|f'] c Hf Hf'; [lia..|]. cbn [close_loop].
  apply t_bind_ext. intros i c2 H2%on_next_message_takes.
  destruct i as [m|a|d|r|r]; try done.
  - apply t_bind_ext. intros u' c3 H3%post_handshake_quiet. unfold quiet in H3. apply IH; lia.
  - apply t_bind_ext. intros u' c3 H3%keep_app_quiet. unfold quiet in H3. apply IH; lia.
  - apply t_bind_ext. intros u' c3 H3%count_ccs_quiet. unfold quiet in H3. apply IH; lia.
  - apply IH; lia.
Qed.

Lemma collect_tickets_rounds f f' before c :
  (backlog (conn c) < f)%nat -> (backlog (conn c) < f')%nat ->
  collect_tickets_loop instant f before c = collect_tickets_loop instant f' before c.
Proof.
  revert f' c. induction f as [|f IH]; intros [|f'] c Hf Hf'; [lia..|]. cbn [collect_tickets_loop].
  apply t_bind_ext. intros [u|e] c1 (k & Hk & ->)%attempt_conn_inv; [|done]. apply check_deadline_inv in Hk as ->. rewrite with_conn_id.
  apply t_bind_ext. intros [i|e] c2 (k & Hk & ->)%attempt_conn_inv; [|done].
  apply next_message_takes in Hk. change (backlog k) with (backlog (conn (with_conn k c))) in Hk.
  revert Hk. generalize (with_conn k c). intros c2 Hk.
  destruct i as [m|a|d|r|r]; try done.
  - apply t_bind_ext. intros u' c3 H3%post_handshake_quiet. unfold quiet in H3. apply IH; lia.
  - apply t_bind_ext. intros u' c3 H3%keep_app_quiet. unfold quiet in H3. apply IH; lia.
  - apply t_bind_ext. intros u' c3 H3%count_ccs_quiet. unfold quiet in H3. apply IH; lia.
  - apply IH; lia.
Qed.

(** ** The rounds that have a number *)

(** The messages that can still come in the flight after [previous]. *)
Definition still (previous : option HandshakeType) : nat :=
  if decide (previous = None) then 5
  else if decide (previous = Some ENCRYPTED_EXTENSIONS) then 4
  else if decide (previous = Some CERTIFICATE_REQUEST) then 3
  else if decide (previous = Some CERTIFICATE) then 2
  else if decide (previous = Some CERTIFICATE_VERIFY) then 1 else 0.

Definition has_certificate (previous : option HandshakeType) (c : Client) : Prop :=
  previous = Some CERTIFICATE \/ previous = Some CERTIFICATE_VERIFY -> certificate c <> None.

Lemma flight_message_still wr previous m c c' :
  has_certificate previous c -> (0 < still previous)%nat -> flight_message wr (begun previous) previous m c = (Ok false, c') ->
  (0 < still (Some (msg_type m)) < still previous)%nat /\ has_certificate (Some (msg_type m)) c'.
Proof.
  intros Hc Hp H. unfold flight_message in H. t_inv.
  destruct (out_of_order _ _ _ _ _) eqn:Ho; [by t_step|]. t_inv.
  match goal with E : transcript c = Some ?t |- _ =>
    assert (with_transcript (Some t) c = c) as Heq by (rewrite <- E; by destruct c); rewrite Heq in *; clear Heq end.
  repeat case_decide; try match goal with E : msg_type m = _ |- _ => rewrite E in Ho |- *; rename E into Hty end.
  - destruct previous; cbn [begun] in *; [by t_step|]. split; [vm_compute; lia|]. by intros [|].
  - apply order_request in Ho as [-> ->]. split; [vm_compute; lia|]. by intros [|].
  - apply order_certificate in Ho as (-> & Hn%bool_decide_eq_false_1%eq_None_not_Some & Hb).
    unfold read_certificate, push_message in *. t_inv. split; [|by intros _].
    change (still (Some CERTIFICATE)) with 2%nat. unfold still in *. repeat case_decide; subst; try done; try lia.
    all: destruct (Hc ltac:(tauto) Hn).
  - apply order_verify in Ho as ->. unfold read_certificate_verify, push_message in *. t_inv.
    split; [vm_compute; lia|]. intros _. apply Hc. by left.
  - apply order_finished in Ho as ->. t_inv. done.
  - by t_step.
Qed.

Lemma flight_rounds f f' wr previous c :
  has_certificate previous c -> (0 < still previous)%nat -> (still previous < f)%nat -> (still previous < f')%nat ->
  flight_loop instant f wr (begun previous) previous c = flight_loop instant f' wr (begun previous) previous c.
Proof.
  revert f' previous c. induction f as [|f IH]; intros [|f'] previous c Hc Hs Hf Hf'; [lia..|]. cbn [flight_loop].
  apply t_bind_ext. intros m c1 [Ha _]%next_handshake_ok. apply t_bind_ext. intros [|] c2 Hm; [done|].
  apply flight_message_still in Hm as [Hlt Hc2]; [|intros Hp; rewrite (f_equal certificate Ha : certificate c1 = certificate c); auto|done].
  apply (IH f' (Some (msg_type m))); [done|lia..].
Qed.

Lemma handle_hello_retry_keeps r bs c u c' :
  handle_hello_retry r bs c = (Ok u, c') -> hello_retry_request c' = hello_retry_request c.
Proof.
  unfold handle_hello_retry, note_hash_after_client_hello. intros H. t_inv.
  match goal with E : build_client_hello _ = _ |- _ => apply build_client_hello_ok in E as (kxs & _ & ->) end.
  match goal with E : maybe_send_ccs _ = _ |- _ => apply maybe_send_ccs_ok, aside_retry in E; rewrite E end.
  by fields.
Qed.

(** A second retry request is refused before anything is read again. *)
Lemma read_server_hello_once again again' c :
  hello_retry_request c <> None -> read_server_hello_then instant again c = read_server_hello_then instant again' c.
Proof.
  intros Hr. unfold read_server_hello_then. apply t_bind_ext. intros m c1 [Ha _]%next_handshake_ok.
  rewrite <- (aside_retry _ _ Ha) in Hr. destruct (negb _); [done|].
  apply t_bind_ext. intros hello c2 [_ ->]%t_try_inv. destruct (is_hello_retry_request hello); [|done].
  apply t_bind_ext. intros c3 c4 [-> ->]%t_get_inv. case_decide as Hn; [done|]. by apply eq_None_not_Some in Hn.
Qed.

Lemma read_server_hello_unrolled again c :
  read_server_hello_then instant (read_server_hello_then instant again) c = read_server_hello instant c.
Proof.
  unfold read_server_hello. unfold read_server_hello_then at 1 3. apply t_bind_ext. intros m c1 [Ha _]%next_handshake_ok.
  destruct (negb _); [done|].
  apply t_bind_ext. intros hello c2 [_ ->]%t_try_inv. destruct (is_hello_retry_request hello); [|done].
  apply t_bind_ext. intros c3 c4 [-> ->]%t_get_inv. case_decide as Hn; [done|].
  apply t_bind_ext. intros u c5 ->%t_modify_inv. apply t_bind_ext. intros u' c6 ->%t_modify_inv.
  destruct (negb _); [done|]. apply t_bind_ext. intros u2 c7 Hh%handle_hello_retry_keeps.
  apply read_server_hello_once. by rewrite Hh.
Qed.
End client_rounds.

(** ** Claims *)


