(* ===== verification/TlsComplete.v ===== *)
(** * An honest server is accepted

  The client's handshake against a server that plays its part: however the server
  cuts its messages into records and TCP cuts the records into chunks, the handshake
  returns [Ok] and leaves the keys the server has. *)

From S2P Require Import Prelude Text TlsTypes TlsBuf TlsCrypto TlsKeys TlsMsg TlsMsgRound TlsRecord TlsLayer TlsConn TlsStream TlsSig TlsClient TlsHandshake TlsRounds.

(** ** What reading leaves of the writing side *)

Section writing.
Context {lib : CryptoLib} {laws : CryptoLaws lib}.

Definition writing (c : TlsConn) := (out_error (stream c), write (layer c), write_version (layer c)).

Lemma sock_read_writing n c r c' : sock_read n c = (r, c') -> writing c' = writing c.
Proof. unfold sock_read. by destruct (incoming (stream c)) as [|[[|b bs]| | | |] evs]; intros [= _ <-]. Qed.

Lemma fill_writing what c r c' : fill what c = (Ok r, c') -> writing c' = writing c.
Proof.
  unfold fill. destruct (sock_read _ c) as [rr c1] eqn:E. apply sock_read_writing in E.
  destruct rr as [bs| |k|]; [by intros [= _ <-]..| |done]. by destruct (is_reset k); intros [= _ <-].
Qed.

Lemma take_record_writing c r c' : take_record c = (Ok r, c') -> writing c' = writing c.
Proof.
  unfold take_record. rewrite c_bind_get. intros H. apply c_bind_inv in H as ([r' used] & c1 & [= _ <-] & H).
  rewrite c_bind_modify in H. cbv zeta in H. rewrite c_bind_trace, c_bind_modify in H. by injection H as _ <-.
Qed.

Lemma read_record_writing fuel c r c' : read_record_loop fuel c = (Ok r, c') -> writing c' = writing c.
Proof.
  revert c. induction fuel as [|fuel IH]; intros c H; cbn [read_record_loop] in H; rewrite c_bind_get in H;
    (destruct (record_ready c); [by apply take_record_writing in H|]); [done|].
  apply c_bind_inv in H as (u & c1 & ->%check_deadline_inv & H).
  apply c_bind_inv in H as ([|] & c2 & Hf%fill_writing & H); [|done]. apply IH in H. congruence.
Qed.

Lemma receive_alert_writing body c i c' : receive_alert body c = (Ok i, c') -> writing c' = writing c.
Proof. unfold receive_alert. intros H. apply c_bind_inv in H as (a & c1 & [= _ <-] & H). by injection H as _ <-. Qed.

Lemma open_writing r l p l' : open r l = (p, l') -> write l' = write l /\ write_version l' = write_version l.
Proof. unfold open. destruct (read l); [|by intros [= _ <-]]. by case_match; intros [= _ <-]. Qed.

Lemma classify_writing r c o c' : classify r c = (Ok o, c') -> writing c' = writing c.
Proof.
  unfold classify. rewrite c_bind_get. cbv zeta. intros H.
  assert (forall body c0, (receive_alert body ≫= fun i => mret (Some i)) c0 = (Ok o, c') -> writing c' = writing c0) as Halert.
  { intros body c0 H0. apply c_bind_inv in H0 as (i & c1 & Hb%receive_alert_writing & H0). by injection H0 as _ <-. }
  destruct (content_type r).
  - by injection H as _ <-.
  - destruct (_ =? 2); [by apply Halert in H|]. by injection H as _ <-.
  - destruct (negb _); [rewrite c_bind_modify in H|]; by injection H as _ <-.
  - destruct (reading_encrypted _); [|by injection H as _ <-].
    apply c_bind_inv in H as (p & c1 & Ho & H). rewrite c_bind_trace in H.
    unfold c_layer in Ho. destruct (open r (layer c)) as [res l] eqn:Eo. injection Ho as _ <-.
    apply open_writing in Eo as [Ew Ev].
    assert (forall t, writing (with_trace t (with_layer l c)) = writing c) as Hw.
    { intros t. unfold writing. cbn. by rewrite Ew, Ev. }
    destruct (in_content_type p); [|by apply Halert in H; rewrite H|..];
      rewrite ?c_bind_modify in H; injection H as _ <-; apply Hw.
  - by injection H as _ <-.
Qed.

Lemma next_message_writing c i c' : next_message c = (Ok i, c') -> writing c' = writing c.
Proof.
  unfold next_message, next_message_within. generalize (S (length (inbuf c) + coming c)). intros fuel. revert c.
  induction fuel as [|fuel IH]; intros c H; cbn [next_message_loop] in H;
    apply c_bind_inv in H as (o & c1 & Hp & H); rewrite pop_handshake_eq in Hp;
    (assert (writing c1 = writing c) as Hw by (by destruct (HandshakeMessage_parse (hs_buf c)) as [[? ?]|]; simplify_eq));
    destruct o as [m|]; try (by injection H as _ <-); rewrite c_bind_get in H; destruct (app_buf c1) as [|d rest].
  2,4: rewrite c_bind_modify in H; injection H as _ <-; exact Hw.
  { done. }
  apply c_bind_inv in H as (? & c2 & ->%check_deadline_inv & H). apply c_bind_inv in H as (r & c3 & Hr%read_record_writing & H).
  apply c_bind_inv in H as ([e|] & c4 & Hc%classify_writing & H); [injection H as _ <-|apply IH in H]; congruence.
Qed.

(** ** Sending *)

(** What the client still reads, and the keys it reads it with. *)
Definition same_reading (c c' : TlsConn) : Prop :=
  incoming (stream c') = incoming (stream c) /\ same_core c (with_layer (layer c) c') /\ inbuf c' = inbuf c /\
  read (layer c') = read (layer c) /\ read_seq (layer c') = read_seq (layer c).

#[global] Instance same_reading_po : PreOrder same_reading.
Proof.
  split; [by intros c; split_and!|]. intros c c' c'' (H1 & (H2 & H3 & H4) & H5 & H6 & H7) (G1 & (G2 & G3 & G4) & G5 & G6 & G7).
  unfold same_reading, same_core in *. cbn in *. split_and!; congruence.
Qed.

Lemma expects_same c c' events w tl : same_reading c c' -> expects c events w tl -> expects c' events w tl.
Proof.
  intros (H1 & (_ & H3 & H4) & H5 & H6 & H7) (w0 & items & wire & Hr & Hs & [Hp Hpu] & (Hy1 & Hy2 & Hy3 & Hy4) & Ha).
  cbn [hs_buf app_buf with_layer] in H3, H4.
  exists w0, items, wire. unfold supplies, synced, pending in *. rewrite H1, H3, H4, H5, H6, H7. by split_and!.
Qed.

(** The keys a write needs, when there are any. *)
Definition can_write (c : TlsConn) (size : Z) : Prop :=
  out_error (stream c) = None /\ in_u 16 (write_version (layer c)) /\
  forall k, write (layer c) = Some k -> keys_ok k /\ size + 17 <= MAX_CIPHERTEXT.

Lemma write_handshake_works c bs :
  can_write c (zlen bs) ->
  exists c', write_handshake bs c = (Ok tt, c') /\ same_reading c c' /\ writing c' = writing c.
Proof.
  intros (Ho & Hv & Hk). unfold write_handshake. rewrite c_bind_get. cbv zeta.
  assert (exists out l, c_layer (seal Handshake bs 0) c = (Ok out, with_layer l c) /\ (l = layer c \/ l = bump_write (layer c)))
    as (out & l & Hs & Hl).
  { unfold c_layer. destruct (write (layer c)) as [k|] eqn:Hw.
    - destruct (Hk k eq_refl) as [Hok Hz].
      destruct (seal_encrypted (layer c) k Handshake bs 0 Hw Hok Hv) as (sealed & _ & _ & ->); [unfold sealed_len; lia|].
      eauto.
    - rewrite seal_plain by done. eauto. }
  rewrite (c_bind_ok _ _ _ _ _ Hs).
  assert (c_write out (with_layer l c) = (Ok tt, with_stream (mkSocket (incoming (stream c)) (outgoing (stream c) ++ out) None
    (out_shut (stream c))) (with_layer l c))) as Hw.
  { unfold c_write. cbn [stream with_layer]. by rewrite Ho. }
  rewrite (c_bind_ok _ _ _ _ _ Hw). eexists. split; [reflexivity|].
  unfold same_reading, same_core, writing. cbn. rewrite Ho. by destruct Hl as [-> | ->].
Qed.

Lemma write_ccs_works c :
  out_error (stream c) = None ->
  exists c', write_change_cipher_spec c = (Ok tt, c') /\ same_reading c c' /\ writing c' = writing c.
Proof.
  intros Ho. unfold write_change_cipher_spec. cbv zeta. unfold mbind, C_bind, c_write. rewrite Ho.
  eexists. split; [reflexivity|]. unfold same_reading, same_core, writing. cbn. by rewrite Ho.
Qed.
End writing.

(** ** Messages that are on their way *)

Section complete.
Context {lib : CryptoLib} {curves : CurveLib} {sigs : SigLib} {laws : CryptoLaws lib} (instant : nat -> Z).

Lemma t_bind_ok {A B} (m : T A) (f : A -> T B) (c : Client) a c' : m c = (Ok a, c') -> (m ≫= f) c = f a c'.
Proof. intros H. unfold mbind, T_bind. by rewrite H. Qed.
Lemma t_bind_get {B} (f : Client -> T B) (c : Client) : (t_get ≫= f) c = f c c.
Proof. done. Qed.
Lemma t_bind_modify {B} g (f : unit -> T B) (c : Client) : (t_modify g ≫= f) c = f tt (g c).
Proof. done. Qed.
Lemma t_bind_try {A B} r (f : A -> T B) (c : Client) a : r = Ok a -> (t_try r ≫= f) c = f a c.
Proof. by intros ->. Qed.
Lemma t_bind_layer {B} g (f : unit -> T B) (c : Client) :
  (on_layer g ≫= f) c = f tt (with_conn (with_layer (g (layer (conn c))) (conn c)) c).
Proof. done. Qed.
Lemma t_bind_transcript {B} e g (f : unit -> T B) (c : Client) t :
  transcript c = Some t -> (on_transcript e g ≫= f) c = f tt (with_transcript (Some (g t)) c).
Proof. intros H. unfold mbind, T_bind, on_transcript. by rewrite H. Qed.
Lemma on_transcript_ok e g (c : Client) t :
  transcript c = Some t -> on_transcript e g c = (Ok tt, with_transcript (Some (g t)) c).
Proof. intros H. unfold on_transcript. by rewrite H. Qed.
Lemma on_schedule_ok {A} (m : K A) (c : Client) ks a ks' :
  schedule c = Some ks -> m ks = (Ok a, ks') -> on_schedule m c = (Ok a, with_schedule (Some ks') c).
Proof. intros H E. unfold on_schedule. by rewrite H, E. Qed.
Lemma t_bind_conn {A B} (m : C A) (f : A -> T B) (c : Client) a k :
  m (conn c) = (Ok a, k) -> (on_conn m ≫= f) c = f a (with_conn k c).
Proof. intros H. unfold mbind, T_bind, on_conn. by rewrite H. Qed.

(** ChangeCipherSpec records may come before each message. *)
Inductive spaced : list HandshakeMessage -> list Incoming -> Prop :=
| spaced_nil : spaced [] []
| spaced_cons rs m ms events :
    msg_type m <> NEW_SESSION_TICKET -> spaced ms events ->
    spaced (m :: ms) (map InChangeCipherSpec rs ++ InHandshake m :: events).

Definition arriving (c : Client) (ms : list HandshakeMessage) (w : RecordLayer) (tl : bytes) : Prop :=
  exists events, spaced ms events /\ expects (conn c) events w tl.

Lemma loop_waits fuel what rs m events w tl c :
  (backlog (conn c) < fuel)%nat -> msg_type m <> NEW_SESSION_TICKET ->
  expects (conn c) (map InChangeCipherSpec rs ++ InHandshake m :: events) w tl ->
  exists c', next_handshake_loop instant fuel what c = (Ok m, c') /\ expects (conn c') events w tl /\
    writing (conn c') = writing (conn c).
Proof.
  intros Hf Hty. revert fuel c Hf. induction rs as [|r rs IH]; intros [|fuel] c Hf He; try lia; cbn [next_handshake_loop].
  - destruct (next_message_step _ _ _ _ _ He) as (k & Hk & He'). rewrite (t_bind_conn _ _ _ _ _ Hk).
    cbv beta iota. rewrite decide_False by done. eexists. split; [reflexivity|]. split; [done|].
    by apply next_message_writing in Hk.
  - destruct (next_message_step _ _ _ _ _ He) as (k & Hk & He'). rewrite (t_bind_conn _ _ _ _ _ Hk).
    cbv beta iota. unfold count_ccs. rewrite !t_bind_modify.
    match goal with |- context [next_handshake_loop _ _ _ ?d] => set (c1 := d) end.
    assert (conn c1 = k) as Hc1 by (unfold c1; by case_match).
    pose proof (next_message_takes _ _ _ Hk). apply next_message_writing in Hk.
    destruct (IH fuel c1) as (c' & Hn & Hexp & Hw); [rewrite Hc1; lia|by rewrite Hc1|].
    exists c'. split; [done|]. split; [done|]. by rewrite Hw, Hc1.
Qed.

Lemma next_handshake_arrives what m ms w tl c :
  arriving c (m :: ms) w tl ->
  exists c', next_handshake instant what c = (Ok m, c') /\ aside c c' /\ msg_ok m /\ arriving c' ms w tl /\
    writing (conn c') = writing (conn c).
Proof.
  intros (events & Hs & He). inversion Hs as [|rs m' ms' events' Hty Hs']; subst.
  destruct (loop_waits (S (backlog (conn c))) what rs m events' w tl c) as (c' & Hn & He' & Hw); [lia|done|done|].
  exists c'. split; [done|]. pose proof (next_handshake_ok instant what c m c' Hn) as [Ha Hm].
  split_and!; try done. by exists events'.
Qed.

Lemma arriving_same c c' ms w tl : same_reading (conn c) (conn c') -> arriving c ms w tl -> arriving c' ms w tl.
Proof. intros Hs (events & Hsp & He). exists events. split; [done|]. by eapply expects_same. Qed.

(** *** The messages of the flight *)

(** A message was taken, and nothing else of note changed. *)
Definition progress (m : HandshakeMessage) (c c' : Client) : Prop :=
  conn c' = conn c /\ client_handshake_keys_installed c' = client_handshake_keys_installed c /\
  forall alg bs, taken alg bs c -> taken alg (bs ++ hm_raw m) c'.

Ltac t_go :=
  repeat first [ rewrite t_bind_get | rewrite t_bind_modify | erewrite t_bind_try by eassumption
               | erewrite t_bind_transcript by (fields; eassumption)
               | erewrite on_transcript_ok by (fields; eassumption) ].
Ltac made_progress := 
  eexists; split; [reflexivity|]; unfold progress; fields; split; [done|]; split; [done|];
  intros ? ? Htaken; eapply taken_push; [exact Htaken|eassumption|reflexivity|done].

Lemma read_encrypted_extensions_works m exts t c :
  transcript c = Some t ->
  run (ext_bytes ← vec16 (str "extensions");
       _ ← expect_done (str "encrypted_extensions");
       lift (parse_extensions ext_bytes (str "encrypted_extensions"))) (hm_body m) (str "encrypted_extensions") = Ok exts ->
  exists c', read_encrypted_extensions m c = (Ok tt, c') /\ progress m c c'.
Proof.
  intros Ht Hp. unfold read_encrypted_extensions, push_message. t_go. made_progress.
Qed.

Lemma read_certificate_request_works m cr t c :
  transcript c = Some t -> CertificateRequestMsg_parse (hm_body m) = Ok cr ->
  exists c', read_certificate_request m c = (Ok tt, c') /\ progress m c c'.
Proof.
  intros Ht Hp. unfold read_certificate_request, push_message. t_go. made_progress.
Qed.

Lemma read_certificate_works m cert der key t c :
  transcript c = Some t -> CertificateMsg_parse (hm_body m) = Ok cert -> leaf cert = Ok der -> from_certificate der = Ok key ->
  exists c', read_certificate m c = (Ok tt, c') /\ progress m c c' /\ server_public_key c' = Some key.
Proof.
  intros Ht Hp Hl Hk. unfold read_certificate, push_message. t_go. fields.
  eexists. split; [reflexivity|]. fields. split; [|done]. unfold progress. fields. split; [done|]. split; [done|].
  intros ? ? Htaken. eapply taken_push; [exact Htaken|eassumption|reflexivity|done].
Qed.

Lemma read_certificate_verify_works m cv key t c :
  transcript c = Some t -> CertificateVerifyMsg_parse (hm_body m) = Ok cv ->
  cv_algorithm cv ∈ cfg_signature_algorithms (config c) -> cv_algorithm cv <> SIG_RSA_PKCS1_SHA256 ->
  server_public_key c = Some key ->
  verify key (cv_algorithm cv) (cv_signature cv) (hash_after_certificate c) = Ok tt ->
  exists c', read_certificate_verify m c = (Ok tt, c') /\ progress m c c'.
Proof.
  intros Ht Hp Hin Hne Hkey Hv. unfold read_certificate_verify, push_message. t_go.
  rewrite bool_decide_eq_true_2 by done. rewrite (proj2 (Z.eqb_neq _ _)) by done. cbn [negb orb].
  rewrite (t_bind_try _ _ _ key) by (by rewrite Hkey). t_go. made_progress.
Qed.

Lemma read_finished_works m ks t st psk base c :
  transcript c = Some t -> schedule c = Some ks -> after_handshake st psk (shared_secret c) (digest (s_hash st) base) ks ->
  hm_body m = mac_of (s_hash st)
    (ds (s_hash st) (rfc_next (s_hash st) (rfc_early (s_hash st) psk) (shared_secret c)) (str "s hs traffic") (digest (s_hash st) base))
    (transcript_hash c) ->
  exists c', read_finished m c = (Ok tt, c') /\ progress m c c'.
Proof.
  intros Ht Hks (Hsu & He & Hh & Hms & Hc & Hs & _) Hmac. unfold read_finished, push_message. t_go. fields.
  rewrite (t_bind_try _ _ _ ks) by (by rewrite Hks). rewrite (t_bind_try _ _ _ _ (f_equal (fun o => ok_or o _) Hs)).
  rewrite (t_bind_try _ _ _ _ (verify_data_eq ks st _ _ Hsu)). rewrite <- Hmac, bool_decide_eq_true_2 by done. cbn [negb].
  t_go. fields.
  match goal with |- context [enter_application ?h] =>
    destruct (enter_application_ok _ _ ks h eq_refl eq_refl) as (ks' & Hap & _) end.
  erewrite on_schedule_ok by (fields; eassumption). made_progress.
Qed.

(** ** One message after the other *)

(** A handshake in which the server has sent [sent] after its ServerHello, the last
  message of it [previous], and will send [ms]. *)
Record at_point (c0 : Client) (cfg : ClientConfig) (st : Suite) (base : bytes) (key : PublicKey) (w : RecordLayer) (tl : bytes)
    (sent : bytes) (previous : option HandshakeType) (ms : list HandshakeMessage) (c : Client) : Prop := {
  pt_settled : settled c = settled c0;
  pt_secrets : secrets c st None base;
  pt_flown : flown cfg false (s_hash st) base previous c;
  pt_taken : taken (s_hash st) (base ++ sent) c;
  pt_key : previous = Some CERTIFICATE -> server_public_key c = Some key;
  pt_arriving : arriving c ms w tl;
  pt_writing : writing (conn c) = writing (conn c0);
  pt_installed : client_handshake_keys_installed c = false;
}.

Section points.
Context (c0 : Client) (cfg : ClientConfig) (st : Suite) (base : bytes) (key : PublicKey) (w : RecordLayer) (tl : bytes).
Hypothesis c0_cfg : cfg_signature_algorithms (config c0) = cfg_signature_algorithms cfg.
Local Notation at_point := (at_point c0 cfg st base key w tl).

(** The message is taken and the flight goes on. *)
Definition goes_on (previous : option HandshakeType) (m : HandshakeMessage) (c : Client) : Prop :=
  exists c2, flight_message false (begun previous) previous m c = (Ok false, c2) /\ progress m c c2 /\
    (msg_type m = CERTIFICATE -> server_public_key c2 = Some key).

Lemma point_wait sent previous m ms c what :
  at_point sent previous (m :: ms) c ->
  exists c1, next_handshake instant what c = (Ok m, c1) /\ msg_ok m /\ at_point sent previous ms c1.
Proof.
  intros [H1 H2 H3 H4 H5 H6 H7 H8]. destruct (next_handshake_arrives what m ms w tl c H6) as (c1 & Hn & Ha & Hm & Harr & Hw).
  exists c1. split; [done|]. split; [done|]. pose proof (aside_kept _ _ Ha) as Hk. split.
  - by rewrite <- H1, (proj1 Hk).
  - by eapply secrets_kept.
  - by eapply flown_aside.
  - revert H4. apply (aside_keeps (taken (s_hash st) (base ++ sent))); done.
  - intros Hp. rewrite (f_equal server_public_key Ha : server_public_key c1 = server_public_key c). auto.
  - done.
  - by rewrite Hw.
  - by rewrite (f_equal client_handshake_keys_installed Ha : _ c1 = _ c).
Qed.

Lemma point_step fuel sent previous m ms c :
  at_point sent previous (m :: ms) c ->
  (forall c1, at_point sent previous ms c1 -> goes_on previous m c1) ->
  exists c2, flight_loop instant (S fuel) false (begun previous) previous c =
      flight_loop instant fuel false true (Some (msg_type m)) c2 /\
    at_point (sent ++ hm_raw m) (Some (msg_type m)) ms c2.
Proof.
  intros Hpt Hop. cbn [flight_loop].
  destruct (point_wait sent previous m ms c (str "the server's encrypted flight") Hpt) as (c1 & Hn & Hm & Hpt1).
  rewrite (t_bind_ok _ _ _ _ _ Hn). destruct (Hop c1 Hpt1) as (c2 & Hf & (Hconn & Hinst & Htk) & Hk).
  rewrite (t_bind_ok _ _ _ _ _ Hf). exists c2. split; [done|]. destruct Hpt1 as [H1 H2 H3 H4 H5 H6 H7 H8].
  apply (flight_message_ok cfg false st None base) in Hf as (Hset & Hsec & Hfl); [|by rewrite (settled_config _ _ H1)|done..].
  split; try done.
  - by rewrite Hset.
  - rewrite app_assoc. by apply Htk.
  - intros [= E]. by apply Hk.
  - apply (arriving_same c1); [by rewrite Hconn|done].
  - by rewrite Hconn.
  - by rewrite Hinst.
Qed.

Lemma flight_dispatch wr previous m t c :
  transcript c = Some t -> out_of_order wr (begun previous) (bool_decide (is_Some (certificate c))) previous (msg_type m) = None ->
  flight_message wr (begun previous) previous m c =
    (if decide (msg_type m = ENCRYPTED_EXTENSIONS) then
       if begun previous then protocol (str "the server sent encrypted_extensions twice")
       else _ ← read_encrypted_extensions m; mret false
     else if decide (msg_type m = CERTIFICATE_REQUEST) then _ ← read_certificate_request m; mret false
     else if decide (msg_type m = CERTIFICATE) then _ ← read_certificate m; mret false
     else if decide (msg_type m = CERTIFICATE_VERIFY) then _ ← read_certificate_verify m; mret false
     else if decide (msg_type m = FINISHED) then _ ← read_finished m; mret true
     else protocol (HandshakeMessage_name m ++ str " has no place in a server's first flight")) c.
Proof.
  intros Ht Ho. unfold flight_message. rewrite t_bind_get, Ho, (t_bind_transcript _ _ _ _ t Ht).
  assert (with_transcript (Some t) c = c) as -> by (rewrite <- Ht; by destruct c). done.
Qed.

(** *** The messages of an honest flight *)

Lemma taken_transcript alg bs c : taken alg bs c -> exists t, transcript c = Some t.
Proof. intros (t & Ht & _). eauto. Qed.

Ltac dispatch Hpt :=
  destruct (taken_transcript _ _ _ (pt_taken _ _ _ _ _ _ _ _ _ _ _ Hpt)) as [t Ht];
  rewrite (flight_dispatch _ _ _ _ _ Ht); [cbn [msg_type message_of]; rewrite ?decide_False, ?decide_True by done; cbn [begun]|].
Ltac dispatched H := rewrite (t_bind_ok _ _ _ _ _ H); eexists; split; [reflexivity|]; split; [eassumption|]; try done.

Lemma point_extensions body exts ms c :
  at_point [] None ms c ->
  run (ext_bytes ← vec16 (str "extensions");
       _ ← expect_done (str "encrypted_extensions");
       lift (parse_extensions ext_bytes (str "encrypted_extensions"))) body (str "encrypted_extensions") = Ok exts ->
  goes_on None (message_of ENCRYPTED_EXTENSIONS body) c.
Proof.
  intros Hpt Hp. unfold goes_on. dispatch Hpt; [|done].
  destruct (read_encrypted_extensions_works (message_of ENCRYPTED_EXTENSIONS body) exts t c Ht Hp) as (c2 & Hr & Hpr). dispatched Hr.
Qed.

Lemma point_request body cr sent ms c :
  at_point sent (Some ENCRYPTED_EXTENSIONS) ms c -> CertificateRequestMsg_parse body = Ok cr ->
  goes_on (Some ENCRYPTED_EXTENSIONS) (message_of CERTIFICATE_REQUEST body) c.
Proof.
  intros Hpt Hp. unfold goes_on. dispatch Hpt; [|done].
  destruct (read_certificate_request_works (message_of CERTIFICATE_REQUEST body) cr t c Ht Hp) as (c2 & Hr & Hpr). dispatched Hr.
Qed.

Lemma point_certificate body cert der sent previous ms c :
  at_point sent previous ms c -> previous = Some ENCRYPTED_EXTENSIONS \/ previous = Some CERTIFICATE_REQUEST ->
  CertificateMsg_parse body = Ok cert -> leaf cert = Ok der -> from_certificate der = Ok key ->
  goes_on previous (message_of CERTIFICATE body) c.
Proof.
  intros Hpt Hpr Hp Hl Hk. unfold goes_on.
  assert (certificate c = None) as Hc by (destruct (pt_flown _ _ _ _ _ _ _ _ _ _ _ Hpt) as [_ Hs]; destruct Hpr as [-> | ->]; by inversion Hs).
  dispatch Hpt; [|rewrite Hc; by destruct Hpr as [-> | ->]].
  destruct (read_certificate_works (message_of CERTIFICATE body) cert der key t c Ht Hp Hl Hk) as (c2 & Hr & Hpro & Hk2). dispatched Hr.
Qed.

Lemma point_verify body cv sent ms c :
  at_point sent (Some CERTIFICATE) ms c -> CertificateVerifyMsg_parse body = Ok cv ->
  cv_algorithm cv ∈ cfg_signature_algorithms cfg -> cv_algorithm cv <> SIG_RSA_PKCS1_SHA256 ->
  verify key (cv_algorithm cv) (cv_signature cv) (digest (s_hash st) (base ++ sent)) = Ok tt ->
  goes_on (Some CERTIFICATE) (message_of CERTIFICATE_VERIFY body) c.
Proof using c0_cfg.
  intros Hpt Hp Hin Hne Hv. unfold goes_on. dispatch Hpt; [|done].
  destruct (pt_flown _ _ _ _ _ _ _ _ _ _ _ Hpt) as [Hfl Hs]. inversion Hs as [| | |key' _ _ _ _ Hhash Hcv|]; subst.
  pose proof (taken_hash _ _ _ Hfl) as E1. unfold flight in E1. rewrite Hcv, app_nil_r, <- Hhash in E1.
  pose proof (taken_hash _ _ _ (pt_taken _ _ _ _ _ _ _ _ _ _ _ Hpt)) as E2.
  destruct (read_certificate_verify_works (message_of CERTIFICATE_VERIFY body) cv key t c) as (c2 & Hr & Hpro); try done.
  - by rewrite (settled_config _ _ (pt_settled _ _ _ _ _ _ _ _ _ _ _ Hpt)), c0_cfg.
  - by apply (pt_key _ _ _ _ _ _ _ _ _ _ _ Hpt).
  - by rewrite <- E1, E2.
  - dispatched Hr.
Qed.

Definition finished_of (secret sent : bytes) : HandshakeMessage :=
  message_of FINISHED (mac_of (s_hash st)
    (ds (s_hash st) (rfc_next (s_hash st) (rfc_early (s_hash st) None) secret) (str "s hs traffic") (digest (s_hash st) base))
    (digest (s_hash st) (base ++ sent))).

Lemma point_finished fuel sent c :
  at_point sent (Some CERTIFICATE_VERIFY) [finished_of (shared_secret c0) sent] c ->
  exists c', flight_loop instant (S fuel) false true (Some CERTIFICATE_VERIFY) c = (Ok tt, c') /\
    settled c' = settled c0 /\ served cfg false st None base c' /\ arriving c' [] w tl /\
    writing (conn c') = writing (conn c0) /\ client_handshake_keys_installed c' = false /\
    taken (s_hash st) (base ++ sent ++ hm_raw (finished_of (shared_secret c0) sent)) c'.
Proof using All.
  intros Hpt. cbn [flight_loop].
  destruct (point_wait sent (Some CERTIFICATE_VERIFY) _ [] c (str "the server's encrypted flight") Hpt) as (c1 & Hn & Hm & Hpt1).
  rewrite (t_bind_ok _ _ _ _ _ Hn).
  pose proof Hpt1 as [H1 (ks & Hks & Hah) H3 H4 H5 H6 H7 H8]. pose proof (taken_hash _ _ _ H4) as Hth.
  destruct (taken_transcript _ _ _ H4) as [t Ht].
  pose proof H1 as E. unfold settled in E. injection E as _ _ _ _ _ _ _ _ Ess _.
  destruct (read_finished_works (finished_of (shared_secret c0) sent) ks t st None base c1 Ht Hks Hah) as (c2 & Hr & Hconn & Hinst & Htk).
  { unfold finished_of. cbn [hm_body message_of]. by rewrite Ess, Hth. }
  assert (flight_message false (begun (Some CERTIFICATE_VERIFY)) (Some CERTIFICATE_VERIFY) (finished_of (shared_secret c0) sent) c1 = (Ok true, c2)) as Hf.
  { rewrite (flight_dispatch _ _ _ _ _ Ht) by done. unfold finished_of. cbn [msg_type message_of].
    rewrite !decide_False, decide_True by done. by rewrite (t_bind_ok _ _ _ _ _ Hr). }
  rewrite (t_bind_ok _ _ _ _ _ Hf). cbv beta iota. exists c2. split; [done|].
  apply (flight_message_ok cfg false st None base) in Hf as (Hset & Hsv); [|by rewrite (settled_config _ _ H1)|done|by eexists|done].
  split; [by rewrite Hset|]. split; [done|]. split; [apply (arriving_same c1); [by rewrite Hconn|done]|].
  split; [by rewrite Hconn|]. split; [by rewrite Hinst|]. rewrite app_assoc. by apply Htk.
Qed.
Lemma point_rest fuel body cert der cvbody cv sent previous c :
  CertificateMsg_parse body = Ok cert -> leaf cert = Ok der -> from_certificate der = Ok key ->
  CertificateVerifyMsg_parse cvbody = Ok cv -> cv_algorithm cv ∈ cfg_signature_algorithms cfg ->
  cv_algorithm cv <> SIG_RSA_PKCS1_SHA256 ->
  verify key (cv_algorithm cv) (cv_signature cv) (digest (s_hash st) (base ++ sent ++ hm_raw (message_of CERTIFICATE body))) = Ok tt ->
  previous = Some ENCRYPTED_EXTENSIONS \/ previous = Some CERTIFICATE_REQUEST ->
  let sent' := (sent ++ hm_raw (message_of CERTIFICATE body)) ++ hm_raw (message_of CERTIFICATE_VERIFY cvbody) in
  at_point sent previous
    [message_of CERTIFICATE body; message_of CERTIFICATE_VERIFY cvbody; finished_of (shared_secret c0) sent'] c ->
  exists c', flight_loop instant (S (S (S fuel))) false true previous c = (Ok tt, c') /\
    settled c' = settled c0 /\ served cfg false st None base c' /\ arriving c' [] w tl /\
    writing (conn c') = writing (conn c0) /\ client_handshake_keys_installed c' = false /\
    taken (s_hash st) (base ++ sent' ++ hm_raw (finished_of (shared_secret c0) sent')) c'.
Proof using All.
  intros Hp Hl Hk Hcv Hin Hne Hv Hprev sent' Hpt.
  assert (begun previous = true) as <- by (by destruct Hprev as [-> | ->]).
  destruct (point_step (S (S fuel)) _ _ _ _ _ Hpt) as (c2 & -> & Hpt2).
  { intros c1 Hpt1. by apply (point_certificate _ cert der sent previous _ c1 Hpt1). }
  destruct (point_step (S fuel) _ _ _ _ _ Hpt2) as (c3 & Hc3 & Hpt3).
  { intros c1 Hpt1. by apply (point_verify _ cv _ _ c1 Hpt1). }
  change (begun (Some (msg_type (message_of CERTIFICATE body)))) with true in Hc3. rewrite Hc3.
  by apply point_finished.
Qed.
End points.

(** ** The server's side *)

(** The bodies of its messages. *)
Record ServerSide : Type := mkServerSide {
  sv_hello : bytes;
  sv_extensions : bytes;
  sv_request : option bytes;
  sv_certificate : bytes;
  sv_verify : bytes;
}.

Definition raws (ms : list HandshakeMessage) : bytes := concat (map hm_raw ms).
Definition sv_signed (s : ServerSide) : list HandshakeMessage :=
  [message_of ENCRYPTED_EXTENSIONS (sv_extensions s)] ++
  match sv_request s with Some body => [message_of CERTIFICATE_REQUEST body] | None => [] end ++
  [message_of CERTIFICATE (sv_certificate s)].
Definition sv_base (ch : bytes) (s : ServerSide) : bytes := ch ++ hm_raw (message_of SERVER_HELLO (sv_hello s)).
Definition sv_flight (ch : bytes) (s : ServerSide) (st : Suite) (secret : bytes) : list HandshakeMessage :=
  let sent := sv_signed s ++ [message_of CERTIFICATE_VERIFY (sv_verify s)] in
  sent ++ [finished_of st (sv_base ch s) secret (raws sent)].

(** What an honest server answers a ClientHello with: an offered suite, a group a share
  was sent for, a certificate whose key the client reads, and a signature with it over
  the transcript. *)
Record honest (cfg : ClientConfig) (ch : bytes) (kxs : list KeyExchange) (s : ServerSide) (st : Suite) (secret : bytes) : Prop := {
  hn_hello : exists hello kx peer i,
    ServerHello_parse (sv_hello s) = Ok hello /\ is_hello_retry_request hello = false /\
    Suite_from_code (sh_cipher_suite hello) = Some st /\ sh_cipher_suite hello ∈ cfg_cipher_suites cfg /\
    key_share hello = Ok (Some (kx_group kx, peer)) /\ list_find (fun k => kx_group k = kx_group kx) kxs = Some (i, kx) /\
    complete kx peer = Ok secret /\ selected_psk hello = Ok None;
  hn_extensions : is_ok (run (
    ext_bytes ← vec16 (str "extensions");
    _ ← expect_done (str "encrypted_extensions");
    lift (parse_extensions ext_bytes (str "encrypted_extensions"))) (sv_extensions s) (str "encrypted_extensions")) = true;
  hn_request : match sv_request s with Some body => is_ok (CertificateRequestMsg_parse body) = true | None => True end;
  hn_signature : exists cert der key cv,
    CertificateMsg_parse (sv_certificate s) = Ok cert /\ leaf cert = Ok der /\ from_certificate der = Ok key /\
    CertificateVerifyMsg_parse (sv_verify s) = Ok cv /\ cv_algorithm cv ∈ cfg_signature_algorithms cfg /\
    cv_algorithm cv <> SIG_RSA_PKCS1_SHA256 /\
    verify key (cv_algorithm cv) (cv_signature cv) (digest (s_hash st) (sv_base ch s ++ raws (sv_signed s))) = Ok tt;
}.

Lemma is_ok_inv {E A} (r : Result E A) : is_ok r = true -> exists a, r = Ok a.
Proof. destruct r; [eauto|done]. Qed.

Lemma raws_app a b : raws (a ++ b) = raws a ++ raws b.
Proof. unfold raws. by rewrite map_app, concat_app. Qed.
Lemma raws_one m : raws [m] = hm_raw m.
Proof. apply app_nil_r. Qed.

Lemma read_server_flight_works cfg ch kxs s st w tl c :
  cfg_signature_algorithms (config c) = cfg_signature_algorithms cfg -> honest cfg ch kxs s st (shared_secret c) ->
  resumed c = false -> secrets c st None (sv_base ch s) -> taken (s_hash st) (sv_base ch s) c -> blank c ->
  client_handshake_keys_installed c = false -> arriving c (sv_flight ch s st (shared_secret c)) w tl ->
  exists c', read_server_flight instant c = (Ok tt, c') /\ settled c' = settled c /\
    served cfg false st None (sv_base ch s) c' /\ arriving c' [] w tl /\ writing (conn c') = writing (conn c) /\
    client_handshake_keys_installed c' = false /\
    taken (s_hash st) (sv_base ch s ++ raws (sv_flight ch s st (shared_secret c))) c'.
Proof.
  intros Hcfg [_ [exts Hee]%is_ok_inv Hreq (cert & der & key & cv & Hcert & Hleaf & Hkey & Hcv & Hin & Hne & Hver)]
    Hres Hsec Htk Hb Hinst Harr.
  unfold read_server_flight. rewrite t_bind_get, Hres. set (base := sv_base ch s) in *.
  assert (at_point c cfg st base key w tl [] None (sv_flight ch s st (shared_secret c)) c) as Hpt.
  { split; try done; [|by rewrite app_nil_r]. split; [|by constructor]. destruct Hb as (E1 & E2 & E3 & E4 & E5 & _).
    unfold flight, signed_part. rewrite E1, E2, E4, E5. by rewrite app_nil_r. }
  unfold sv_flight in *. fold base in Hpt |- *. cbv zeta in *.
  set (cert_msg := message_of CERTIFICATE (sv_certificate s)) in *. set (cv_msg := message_of CERTIFICATE_VERIFY (sv_verify s)) in *.
  assert (raws ((sv_signed s ++ [cv_msg]) ++ [finished_of st base (shared_secret c) (raws (sv_signed s ++ [cv_msg]))]) =
    raws (sv_signed s ++ [cv_msg]) ++ hm_raw (finished_of st base (shared_secret c) (raws (sv_signed s ++ [cv_msg])))) as ->
    by (by rewrite raws_app, raws_one).
  assert (forall front, raws (sv_signed s) = front ++ hm_raw cert_msg ->
    raws (sv_signed s ++ [cv_msg]) = (front ++ hm_raw cert_msg) ++ hm_raw cv_msg) as Hsent.
  { intros front Hf. by rewrite raws_app, raws_one, Hf. }
  unfold sv_signed in Hpt at 1. rewrite <- !app_assoc in Hpt.
  destruct (point_step c cfg st base key w tl Hcfg 5 _ _ _ _ _ Hpt) as (c2 & Hc2 & Hpt2).
  { intros c1 Hpt1. by apply (point_extensions c cfg st base key w tl _ exts _ c1 Hpt1). }
  cbn [begun] in Hc2. rewrite Hc2. clear Hc2 Hpt.
  assert (exists fuel front previous c3, raws (sv_signed s) = front ++ hm_raw cert_msg /\
    flight_loop instant 5 false true (Some (msg_type (message_of ENCRYPTED_EXTENSIONS (sv_extensions s)))) c2 =
      flight_loop instant (S (S (S fuel))) false true previous c3 /\
    (previous = Some ENCRYPTED_EXTENSIONS \/ previous = Some CERTIFICATE_REQUEST) /\
    at_point c cfg st base key w tl front previous
      [cert_msg; cv_msg; finished_of st base (shared_secret c) (raws (sv_signed s ++ [cv_msg]))] c3)
    as (fuel & front & previous & c3 & Hfront & -> & Hprev & Hpt3).
  { unfold sv_signed at 1. destruct (sv_request s) as [body|]; cbn [app] in Hpt2 |- *.
    - apply is_ok_inv in Hreq as [cr Hreq].
      destruct (point_step c cfg st base key w tl Hcfg 4 _ _ _ _ _ Hpt2) as (c3 & Hc3 & Hpt3).
      { intros c1 Hpt1. by apply (point_request c cfg st base key w tl _ cr _ _ c1 Hpt1). }
      exists 1%nat; eexists _, _, c3; split; [|split; [exact Hc3|split; [by right|exact Hpt3]]].
      unfold raws. cbn [map concat]. by rewrite app_nil_r, <- !app_assoc.
    - exists 2%nat; eexists _, _, c2; split; [|split; [reflexivity|split; [by left|exact Hpt2]]].
      unfold raws. cbn [map concat]. by rewrite app_nil_r. }
  specialize (Hsent _ Hfront). rewrite Hsent in Hpt3 |- *. rewrite Hfront in Hver.
  by apply (point_rest c cfg st base key w tl Hcfg fuel _ cert der _ cv front previous c3).
Qed.

(** ** The hellos *)

Lemma with_conn_reading c k : conn (with_conn k c) = k.
Proof. done. Qed.

Lemma send_client_hello_works h kxs c :
  cfg_psk (config c) = None -> build_hello (config c) = Ok (h, kxs) -> can_write (conn c) (zlen (ClientHello_encode h)) ->
  exists c', send_client_hello c = (Ok tt, c') /\ same_reading (conn c) (conn c') /\ writing (conn c') = writing (conn c) /\
    key_shares c' = kxs /\ client_hello_bytes c' = ClientHello_encode h /\
    (exists t, transcript c' = Some t /\ t_bytes t = ClientHello_encode h) /\
    client_handshake_keys_installed c' = client_handshake_keys_installed c.
Proof.
  intros Hpsk Hb Hw. unfold send_client_hello, build_client_hello.
  assert ((c ← t_get; '(hello, shares) ← t_try (build_hello (config c)); _ ← t_modify (with_key_shares shares); mret hello) c
    = (Ok h, with_key_shares kxs c)) as E1 by (by rewrite t_bind_get, (t_bind_try _ _ _ _ Hb)).
  rewrite (t_bind_ok _ _ _ _ _ E1). unfold send_built_client_hello. rewrite t_bind_get. fields. rewrite Hpsk.
  rewrite decide_False by (by intros [? ?]).
  destruct (write_handshake_works (conn c) (ClientHello_encode h) Hw) as (k & Hk & Hr & Hwr).
  rewrite (t_bind_ok _ _ _ (ClientHello_encode h) (with_key_shares kxs c)) by done.
  rewrite (t_bind_conn (write_handshake (ClientHello_encode h)) _ (with_key_shares kxs c) _ _ Hk).
  unfold note_client_hello. rewrite t_bind_get, !t_bind_modify. eexists. split; [reflexivity|]. fields.
  split; [done|]. split; [done|]. split; [done|]. split; [done|]. split; [by eexists|done].
Qed.

Lemma maybe_send_ccs_works c :
  out_error (stream (conn c)) = None ->
  exists c', maybe_send_ccs c = (Ok tt, c') /\ aside c c' /\ same_reading (conn c) (conn c') /\ writing (conn c') = writing (conn c).
Proof.
  intros Ho. unfold maybe_send_ccs. rewrite t_bind_get. destruct (cfg_send_ccs (config c)).
  - destruct (write_ccs_works (conn c) Ho) as (k & Hk & Hr & Hw). unfold on_conn. rewrite Hk.
    eexists. split; [reflexivity|]. by split_and!.
  - eexists. split; [reflexivity|]. by split_and!.
Qed.

Definition handshake_keys (st : Suite) (secret base label : bytes) : TrafficKeys :=
  keys_of st (ds (s_hash st) (rfc_next (s_hash st) (rfc_early (s_hash st) None) secret) label (digest (s_hash st) base)).

Lemma accept_server_hello_works cfg ch kxs s st secret hello t c :
  config c = cfg -> cfg_psk cfg = None -> hello_retry_request c = None -> key_shares c = kxs ->
  transcript c = Some t -> t_bytes t = ch ->
  forall kx peer i, Suite_from_code (sh_cipher_suite hello) = Some st -> sh_cipher_suite hello ∈ cfg_cipher_suites cfg ->
  key_share hello = Ok (Some (kx_group kx, peer)) -> list_find (fun k => kx_group k = kx_group kx) kxs = Some (i, kx) ->
  complete kx peer = Ok secret -> selected_psk hello = Ok None ->
  exists c', accept_server_hello hello (hm_raw (message_of SERVER_HELLO (sv_hello s))) c = (Ok tt, c') /\
    conn c' = with_layer (set_read (handshake_keys st secret (sv_base ch s) (str "s hs traffic")) (layer (conn c))) (conn c) /\
    client_handshake_keys_installed c' = client_handshake_keys_installed c /\
    client_hello_bytes c' = client_hello_bytes c /\ hello_retry_request c' = None /\ config c' = cfg /\
    shared_secret c' = secret /\ server_hello c' = Some hello /\
    server_hello_bytes c' = hm_raw (message_of SERVER_HELLO (sv_hello s)).
Proof.
  intros Hcfg Hpsk Hr Hkxs Ht Hch kx peer i Hst Hin Hks Hf Hc Hsel.
  assert (choose_suite hello (with_server_hello_bytes (hm_raw (message_of SERVER_HELLO (sv_hello s))) c) = Ok st) as Hsuite.
  { unfold choose_suite. cbv zeta. rewrite Hst. cbn [ok_or mbind result_bind]. fields.
    by rewrite Hcfg, bool_decide_eq_true_2, Hr by done. }
  unfold accept_server_hello, note_hash_after_client_hello.
  rewrite t_bind_modify, t_bind_get, (t_bind_try _ _ _ _ Hsuite), t_bind_modify.
  rewrite (t_bind_transcript _ _ _ _ t) by (by fields). rewrite t_bind_modify.
  erewrite t_bind_transcript by (fields; reflexivity). rewrite t_bind_modify, (t_bind_try _ _ _ _ Hks).
  rewrite (t_bind_try _ _ _ (kx_group kx, peer)) by done. rewrite t_bind_get. fields. rewrite Hkxs, Hf.
  rewrite (t_bind_try _ _ _ kx) by done. rewrite t_bind_modify, (t_bind_try _ _ _ _ Hc), !t_bind_modify. fields.
  rewrite Hcfg, Hpsk. unfold accepted_psk. rewrite Hsel. rewrite (t_bind_try _ _ _ None) by done. rewrite t_bind_get. fields.
  set (raw := hm_raw (message_of SERVER_HELLO (sv_hello s))).
  destruct (enter_handshake_ok st None secret (current (push raw (str "server_hello") (take_hash (s_hash st) t))))
    as (ks & He & _ & _ & _ & _ & _ & Hsk & _).
  rewrite He. rewrite (t_bind_try _ _ _ _ (f_equal (fun o => ok_or o _) Hsk)), t_bind_layer. eexists. split; [reflexivity|]. fields.
  split; [|done]. unfold handshake_keys, sv_base. fold raw.
  unfold current. cbn [push mark t_hash t_bytes]. by rewrite take_hash_hash, take_hash_bytes, Hch.
Qed.

Lemma read_server_hello_works cfg ch kxs s st secret t w tl c :
  honest cfg ch kxs s st secret -> greeted cfg c ->
  cfg_psk cfg = None -> hello_retry_request c = None -> key_shares c = kxs -> client_hello_bytes c = ch ->
  transcript c = Some t -> t_bytes t = ch ->
  arriving c [message_of SERVER_HELLO (sv_hello s)] w tl ->
  exists c', read_server_hello instant c = (Ok tt, c') /\
    config c' = cfg /\ shared_secret c' = secret /\ resumed c' = false /\ secrets c' st None (sv_base ch s) /\
    taken (s_hash st) (sv_base ch s) c' /\ blank c' /\
    client_handshake_keys_installed c' = client_handshake_keys_installed c /\
    supplies (conn c') tl /\ hs_buf (conn c') = [] /\ app_buf (conn c') = [] /\ writing (conn c') = writing (conn c) /\
    read (layer (conn c')) = Some (handshake_keys st secret (sv_base ch s) (str "s hs traffic")) /\ read_seq (layer (conn c')) = 0 /\
    in_u 16 (write_version w).
Proof.
  intros [(hello & kx & peer & i & Hp & Hnr & Hst & Hin & Hks & Hf & Hc & Hsel) _ _ _] Hg Hpsk Hr Hkxs Hchb Ht Hch Harr.
  unfold read_server_hello, read_server_hello_then at 1.
  destruct (next_handshake_arrives (str "server_hello") _ _ _ _ _ Harr) as (c1 & Hn & Ha & Hm & (evs & Hsp & He) & Hw).
  rewrite (t_bind_ok _ _ _ _ _ Hn). inversion Hsp; subst evs. apply expects_nil in He as (Hhs & Happ & Hsup & Hsy).
  rewrite bool_decide_eq_true_2 by done. cbn [negb hm_body message_of]. rewrite (t_bind_try _ _ _ _ Hp), Hnr.
  pose proof (greeted_aside _ _ _ Ha Hg) as Hg1.
  assert (config c = cfg) as Hcfg. { destruct Hg as (Hfo & _). unfold follows in Hfo. by rewrite Hr in Hfo. }
  destruct (accept_server_hello_works cfg ch kxs s st secret hello t c1) with (kx := kx) (peer := peer) (i := i)
    as (c2 & Hacc & Hconn & Hinst & Hchb2 & Hr2 & Hcfg2 & Hss & Hsh & Hshb); try done.
  1-4: first [by rewrite <- Hcfg; apply (f_equal config Ha) | by rewrite (aside_retry _ _ Ha) |
    by rewrite <- Hkxs; apply (f_equal key_shares Ha) | by rewrite <- Ht; apply (f_equal transcript Ha)].
  exists c2. split; [exact Hacc|].
  apply (accept_server_hello_ok cfg c1 hello (sv_hello s)) in Hacc as (st' & p & psk' & [] & Hsec & Htk & Hb); [|done..].
  assert (p = ch) as ->.
  { unfold hellos in ng_hellos. rewrite Hr2, Hchb2 in ng_hellos. rewrite ng_hellos, <- Hchb. apply (f_equal client_hello_bytes Ha). }
  destruct ng_suite as [_ Hst']. rewrite Hst in Hst'. injection Hst' as <-.
  rewrite Hpsk in ng_psk. unfold accepted_psk in ng_psk. rewrite Hsel in ng_psk. injection ng_psk as <-.
  rewrite Hshb in Hsec, Htk. fold (sv_base ch s) in Hsec, Htk. rewrite Hconn, <- Hw. destruct Hsy as (_ & _ & Hv & _).
  split_and!; try done.
  - unfold resumed. by rewrite Hsh, Hsel.
  - rewrite Hinst. apply (f_equal client_handshake_keys_installed Ha).
Qed.

(** ** The answer *)

Lemma zlen_mac_of alg secret h : zlen (mac_of alg secret h) = HashAlg_len alg.
Proof using laws. apply hmac_len. Qed.

Lemma client_finished_sent_works message t ks ka kb c :
  transcript c = Some t -> schedule c = Some ks -> client_application ks = Some ka -> server_application ks = Some kb ->
  exists c', client_finished_sent message c = (Ok tt, c') /\
    conn c' = with_layer (set_read kb (set_write ka (layer (conn c)))) (conn c).
Proof.
  intros Ht Hks Ha Hb. unfold client_finished_sent. rewrite t_bind_modify.
  rewrite (t_bind_transcript _ _ _ _ t) by (by fields). rewrite t_bind_modify, t_bind_get. fields.
  match goal with |- context [derive_resumption_master ?h] =>
    pose proof (derive_resumption_master_ok ks h) as R; cbv zeta in R;
    match type of R with _ = (_, ?k) => set (ks' := k) in R end end.
  erewrite t_bind_ok by (apply on_schedule_ok with (ks := ks); [by fields|exact R]).
  rewrite t_bind_get. fields. cbn [mbind option_bind].
  change (client_application ks') with (client_application ks). change (server_application ks') with (server_application ks).
  rewrite Ha, Hb, !t_bind_layer. eexists. split; [reflexivity|]. by fields.
Qed.

Lemma send_client_finished_works cfg wr st psk base c :
  client_certificate_bytes c = [] -> served cfg wr st psk base c -> client_handshake_keys_installed c = false ->
  out_error (stream (conn c)) = None -> in_u 16 (write_version (layer (conn c))) ->
  exists c', send_client_finished c = (Ok tt, c') /\ incoming (stream (conn c')) = incoming (stream (conn c)) /\
    inbuf (conn c') = inbuf (conn c) /\ hs_buf (conn c') = hs_buf (conn c) /\ app_buf (conn c') = app_buf (conn c).
Proof using laws.
  intros Hcc Hsv Hinst Ho Hv. unfold served in Hsv. cbv zeta in Hsv.
  destruct Hsv as (_ & _ & (t & Ht & _) & Hh & ks & Hks & Hsu & Hms & Hch & Hca & Hsa).
  unfold send_client_finished.
  assert (exists vd, client_verify_data c = (Ok vd, c) /\ zlen vd = HashAlg_len (s_hash st)) as (vd & Hvd & Hz).
  { unfold client_verify_data. rewrite t_bind_get, Hks, (t_bind_try _ _ _ ks) by done.
    rewrite (t_bind_try _ _ _ _ (f_equal (fun o => ok_or o _) Hch)), decide_True by done.
    rewrite (t_bind_ok _ _ _ (hash_after_server_finished c) c) by done.
    eexists. split; [unfold t_try; by rewrite (verify_data_eq _ _ _ _ Hsu)|apply zlen_mac_of]. }
  rewrite (t_bind_ok _ _ _ _ _ Hvd). unfold send_client_finished_bytes.
  assert (ensure_client_handshake_keys c = (Ok tt, with_client_handshake_keys_installed true
    (with_conn (with_layer (set_write (keys_of st (ds (s_hash st) (rfc_next (s_hash st) (rfc_early (s_hash st) psk) (shared_secret c))
      (str "c hs traffic") (digest (s_hash st) base))) (layer (conn c))) (conn c)) c))) as He.
  { unfold ensure_client_handshake_keys. rewrite t_bind_get, Hinst, Hks, (t_bind_try _ _ _ ks) by done.
    by rewrite (t_bind_try _ _ _ _ (f_equal (fun o => ok_or o _) Hch)), t_bind_layer. }
  rewrite (t_bind_ok _ _ _ _ _ He). clear He.
  match goal with |- context [set_write ?k _] => set (keys := k) end. set (fin := encode_handshake FINISHED vd).
  destruct (write_handshake_works (with_layer (set_write keys (layer (conn c))) (conn c)) fin) as (k & Hk & (R1 & (_ & R2 & R3) & R4 & _) & _).
  { split; [done|]. split; [done|]. intros k' [= <-]. split; [apply keys_of_ok|]. unfold fin.
    rewrite encode_handshake_eq. unfold vec_enc. rewrite zlen_cons, zlen_app, zlen_be_bytes, Hz. by destruct (s_hash st). }
  match goal with |- context [(attempt (on_conn ?m) ≫= ?f) ?d] =>
    assert (attempt (on_conn m) d = (Ok (Ok tt), with_conn k d)) as Ha by (unfold attempt, on_conn; fields; by rewrite Hk) end.
  rewrite (t_bind_ok _ _ _ _ _ Ha). clear Ha.
  match goal with |- context [(client_finished_sent fin ≫= ?f) ?d] =>
    destruct (client_finished_sent_works fin t ks _ _ d Ht Hks Hca Hsa) as (c' & Hs & Hconn) end.
  rewrite (t_bind_ok _ _ _ _ _ Hs). exists c'. split; [done|]. by rewrite Hconn.
Qed.
End complete.

(** ** Claims *)

(** C31: the handshake with an honest server succeeds.  The server answers the
  client's hello with an offered suite and group, a certificate, a signature over the
  transcript and the RFC's Finished, its flight protected under the handshake keys of
  the schedule.  However it cuts its messages into records, pads them and mixes them
  with ChangeCipherSpec records, and however TCP cuts the bytes into chunks, the
  handshake returns [Ok]; both directions are under the application keys the server
  derives from its own transcript, with sequence numbers at zero; what follows on the
  wire is untouched and nothing is left in the buffers. *)
Theorem handshake_completes {lib : CryptoLib} {curves : CurveLib} {sigs : SigLib} {laws : CryptoLaws lib}
    instant cfg k h kxs s st secret ev1 ev2 items1 items2 w w1 w2 wire1 wire2 tl :
  let ch := ClientHello_encode h in
  let alg := s_hash st in
  let all := sv_base ch s ++ raws (sv_flight ch s st secret) in
  let ms := rfc_next alg (rfc_next alg (rfc_early alg None) secret) (zeros alg) in
  cfg_psk cfg = None -> build_hello cfg = Ok (h, kxs) -> honest cfg ch kxs s st secret ->
  spaced [message_of SERVER_HELLO (sv_hello s)] ev1 -> renders false [] ev1 items1 -> send_all items1 w = (Ok wire1, w1) ->
  spaced (sv_flight ch s st secret) ev2 -> renders true [] ev2 items2 ->
  send_all items2 (set_write (handshake_keys st secret (sv_base ch s) (str "s hs traffic")) w1) = (Ok wire2, w2) ->
  write w = None -> write_seq w = 0 -> in_u 16 (write_version w) ->
  layer k = RecordLayer_new -> hs_buf k = [] -> app_buf k = [] -> out_error (stream k) = None ->
  supplies k (wire1 ++ wire2 ++ tl) ->
  exists c, handshake instant (over k cfg) = (Ok tt, c) /\ finished c = true /\
    (write (layer (conn c)), write_seq (layer (conn c)), read (layer (conn c)), read_seq (layer (conn c))) =
      (Some (keys_of st (ds alg ms (str "c ap traffic") (digest alg all))), 0,
       Some (keys_of st (ds alg ms (str "s ap traffic") (digest alg all))), 0) /\
    supplies (conn c) tl /\ hs_buf (conn c) = [] /\ app_buf (conn c) = [].
Proof.
  intros ch alg all ms Hpsk Hb Hhon Hsp1 Hr1 Hs1 Hsp2 Hr2 Hs2 Hw Hws Hwv Hl Hhs Happ Ho Hsup.
  destruct (send_client_hello_works h kxs (over k cfg)) as (c1 & E1 & Hrd1 & Hwr1 & Hkx1 & Hch1 & (t & Ht & Htb) & Hi1); [done|done| |].
  { change (conn (over k cfg)) with k. unfold can_write. rewrite Hl. by split_and!. }
  pose proof E1 as E1'. apply send_client_hello_ok in E1' as [Hg1 Hr]; [|done|done]. change (config (over k cfg)) with cfg in *.
  change (conn (over k cfg)) with k in *.
  destruct (maybe_send_ccs_works c1) as (c2 & E2 & Ha2 & Hrd2 & Hwr2).
  { unfold writing in Hwr1. injection Hwr1 as -> _ _. done. }
  pose proof (greeted_aside _ _ _ Ha2 Hg1) as Hg2. pose proof (transitivity Hrd1 Hrd2) as Hrd. rewrite Hwr1 in Hwr2.
  assert (arriving c2 [message_of SERVER_HELLO (sv_hello s)] w1 (wire2 ++ tl)) as Harr.
  { exists ev1. split; [done|]. apply (expects_same k); [done|]. exists w, items1, wire1.
    unfold protected, synced. rewrite Hhs, Hl, Hw. by split_and!. }
  destruct (read_server_hello_works instant cfg ch kxs s st secret t w1 (wire2 ++ tl) c2)
    as (c3 & E3 & Hcfg3 & Hss3 & Hres3 & Hsec3 & Htk3 & Hb3 & Hi3 & Hsup3 & Hhs3 & Happ3 & Hwr3 & Hrk3 & Hrs3 & Hwv1); try done.
  { by rewrite (aside_retry _ _ Ha2). }
  { etrans; [exact (f_equal key_shares Ha2)|exact Hkx1]. }
  { etrans; [exact (f_equal client_hello_bytes Ha2)|exact Hch1]. }
  { etrans; [exact (f_equal transcript Ha2)|exact Ht]. }
  set (shk := handshake_keys st secret (sv_base ch s) (str "s hs traffic")) in *.
  destruct (read_server_flight_works instant cfg ch kxs s st w2 tl c3) as (c4 & E4 & Hset4 & Hsv4 & (evs & Hsp4 & He4) & Hwr4 & Hi4 & Htk4);
    rewrite ?Hss3; try done.
  { by rewrite Hcfg3. }
  { rewrite Hi3, (f_equal client_handshake_keys_installed Ha2 : client_handshake_keys_installed c2 = client_handshake_keys_installed c1).
    done. }
  { exists ev2. split; [done|]. exists (set_write shk w1), items2, wire2. rewrite Hhs3.
    unfold synced. split_and!; try done. intros ? [= <-]. apply keys_of_ok. }
  inversion Hsp4; subst evs. apply expects_nil in He4 as (Hhs4 & Happ4 & Hsup4 & _).
  pose proof Hset4 as Hse. unfold settled in Hse. injection Hse as _ _ _ _ _ _ _ _ Ess Ecc.
  assert (writing (conn c4) = writing k) as Hwr by (by rewrite Hwr4, Hwr3, Hwr2).
  unfold writing in Hwr. injection Hwr as Ho4 _ Hv4.
  destruct (send_client_finished_works cfg false st None (sv_base ch s) c4) as (c5 & E5 & I1 & I2 & I3 & I4); try done.
  { rewrite Ecc. apply Hb3. }
  { by rewrite Ho4. }
  { by rewrite Hv4, Hl. }
  exists c5. split.
  { unfold handshake. by rewrite (t_bind_ok _ _ _ _ _ E1), (t_bind_ok _ _ _ _ _ E2), (t_bind_ok _ _ _ _ _ E3), (t_bind_ok _ _ _ _ _ E4). }
  apply (send_client_finished_ok cfg false st None (sv_base ch s)) in E5; [|by rewrite Ecc; apply Hb3|done].
  cbv zeta in E5. destruct E5 as (_ & Hfin & _ & _ & Hlay & _). split; [done|].
  assert (sv_base ch s ++ flight c4 ++ server_finished_bytes c4 = all) as Hall.
  { destruct Hsv4 as (_ & _ & (t1 & Ht1 & _ & <-) & _). destruct Htk4 as (t2 & Ht2 & _ & Ht2b). rewrite Hss3 in Ht2b. by simplify_eq. }
  rewrite Hall, Ess, Hss3 in Hlay. split; [done|]. unfold supplies, pending. rewrite I1, I2, I3, I4. by split_and!; try apply Hsup4.
Qed.

(** The toy server: a plaintext record, a ChangeCipherSpec record and one protected
  record for the whole flight, arriving in two chunks. *)
Definition toy_side : ServerSide := mkServerSide toy_server_hello [x00; x00] None toy_certificate toy_verify.

Lemma handshake_completes_witness :
  let lib := toy_lib in let curves := toy_curves in let sigs := toy_sigs in
  exists c, handshake (fun _ => 0) (over (TlsConn_new toy_sock) ClientConfig_default) = (Ok tt, c) /\ finished c = true /\
    supplies (conn c) [].
Proof.
  intros lib curves sigs.
  set (st := mkSuite TLS_AES_128_GCM_SHA256 Sha256 Aes128Gcm). set (secret := replicate 32 x42 : bytes).
  set (bh := match build_hello ClientConfig_default with Ok p => p | Err _ => (default_client_hello [] [] [], []) end).
  set (sh := message_of SERVER_HELLO toy_server_hello).
  set (items1 := [IRec Handshake (hm_raw sh) 0]).
  set (items2 := [ICcs; IRec Handshake (concat (map hm_raw toy_flight)) 3]).
  set (w1 := (send_all items1 RecordLayer_new).2).
  set (wire1 := match send_all items1 RecordLayer_new with (Ok bs, _) => bs | _ => [] end).
  set (two := send_all items2 (set_write toy_secret_keys w1)).
  set (wire2 := match two with (Ok bs, _) => bs | _ => [] end).
  destruct (handshake_completes (laws := toy_laws) (fun _ => 0) ClientConfig_default (TlsConn_new toy_sock) bh.1 bh.2 toy_side st secret
    [InHandshake sh] (InChangeCipherSpec ccs_record :: map InHandshake toy_flight) items1 items2 RecordLayer_new w1 two.2 wire1 wire2 [])
    as (c & Hh & Hf & _ & Hs & _); try (vm_compute; reflexivity).
  - assert (exists hello, ServerHello_parse toy_server_hello = Ok hello) as [hello Hp] by (eexists; vm_compute; reflexivity).
    split; [|by vm_compute|done|].
    + exists hello, (nth 0 bh.2 (P256 [] [])), (replicate 32 x42), 0%nat. vm_compute in Hp. injection Hp as <-.
      split_and!; try (vm_compute; reflexivity). apply (bool_decide_eq_true_1 (_ ∈ _)). vm_compute. reflexivity.
    + exists (CertificateMsg_one [] toy_der), toy_der, (@Ed25519 toy_sigs toy_der), (mkCertificateVerifyMsg SIG_ED25519 (toy_der ++ replicate 32 x00)).
      split_and!; try (vm_compute; reflexivity); [|done]. apply (bool_decide_eq_true_1 (_ ∈ _)). vm_compute. reflexivity.
  - apply (spaced_cons [] sh [] []); [done|constructor].
  - apply (renders_handshake false [] [sh] [(hm_raw sh, 0%nat)] [] []); [by repeat constructor| |done|constructor].
    constructor; [|constructor]. by vm_compute.
  - match goal with |- spaced ?ms _ => replace ms with toy_flight by (vm_compute; reflexivity) end.
    apply (spaced_cons [ccs_record]); [done|]. apply (spaced_cons []); [done|]. apply (spaced_cons []); [done|].
    apply (spaced_cons []); [done|constructor].
  - apply renders_record; [done|done|].
    rewrite <- (app_nil_r (map InHandshake toy_flight)).
    apply (renders_handshake true [] toy_flight [(concat (map hm_raw toy_flight), 3%nat)] [] []); [by repeat constructor| |done|constructor].
    constructor; [|constructor]. by vm_compute.
  - done.
  - split; [|done]. vm_compute. reflexivity.
  - exists c. split; [exact Hh|]. split; [exact Hf|exact Hs].
Defined.
