(* ===== verification/TlsAfter.v ===== *)
(** * After the handshake

  A KeyUpdate switches the keys it is about and is answered under the old ones, and
  what [read_line] does with an answer that does not come whole.  Then a run that a
  client should refuse: the server's flight without any protection. *)

From S2P Require Import Prelude Text TlsTypes TlsBuf TlsCrypto TlsKeys TlsMsg TlsMsgRound TlsRecord TlsLayer TlsConn TlsStream TlsSig TlsClient TlsHandshake TlsRounds TlsComplete.

Section after.
Context {lib : CryptoLib} {curves : CurveLib} {sigs : SigLib} {laws : CryptoLaws lib} (instant : nat -> Z).

(** ** KeyUpdate *)

(** The next generation of RFC 8446 section 7.2. *)
Definition next_keys (k : TrafficKeys) : TrafficKeys :=
  let alg := tk_hash k in
  keys_of (mkSuite 0 alg (tk_aead k))
    (expand_one alg (tk_secret k) (hkdf_label (str "traffic upd") [] (HashAlg_len alg)) (HashAlg_len alg)).

Lemma updated_eq k : updated k = Ok (next_keys k).
Proof.
  unfold updated, hkdf_expand_label. pose proof (HashAlg_len_pos (tk_hash k)).
  rewrite hkdf_expand_one by lia. cbn [mbind result_bind]. by rewrite TrafficKeys_derive_eq.
Qed.

(** The application keys of the schedule are the ones in force. *)
Definition in_step (rk wk : TrafficKeys) (c : Client) : Prop :=
  exists ks, schedule c = Some ks /\ server_application ks = Some rk /\ client_application ks = Some wk /\
    read (layer (conn c)) = Some rk /\ write (layer (conn c)) = Some wk.

Lemma rekey_read_works rk wk c :
  in_step rk wk c ->
  exists c', rekey_read c = (Ok tt, c') /\ in_step (next_keys rk) wk c' /\ read_seq (layer (conn c')) = 0 /\
    conn c' = with_layer (set_read (next_keys rk) (layer (conn c))) (conn c).
Proof.
  intros (ks & Hks & Hr & Hw & Hlr & Hlw). unfold rekey_read. rewrite t_bind_get, Hks, (t_bind_try _ _ _ ks) by done.
  rewrite (t_bind_try _ _ _ _ (f_equal (fun o => ok_or o _) Hr)), (t_bind_try _ _ _ _ (updated_eq rk)), t_bind_modify.
  eexists. split; [reflexivity|]. split; [|done]. eexists. by split_and!.
Qed.

Lemma rekey_write_works rk wk c :
  in_step rk wk c ->
  exists c', rekey_write c = (Ok tt, c') /\ in_step rk (next_keys wk) c' /\ write_seq (layer (conn c')) = 0 /\
    conn c' = with_layer (set_write (next_keys wk) (layer (conn c))) (conn c).
Proof.
  intros (ks & Hks & Hr & Hw & Hlr & Hlw). unfold rekey_write. rewrite t_bind_get, Hks, (t_bind_try _ _ _ ks) by done.
  rewrite (t_bind_try _ _ _ _ (f_equal (fun o => ok_or o _) Hw)), (t_bind_try _ _ _ _ (updated_eq wk)), t_bind_modify.
  eexists. split; [reflexivity|]. split; [|done]. eexists. by split_and!.
Qed.

(** What goes out is sealed with the layer as it is. *)
Lemma write_handshake_bytes c bs out l :
  out_error (stream c) = None -> seal Handshake bs 0 (layer c) = (Ok out, l) ->
  exists c', write_handshake bs c = (Ok tt, c') /\ layer c' = l /\ outgoing (stream c') = outgoing (stream c) ++ out.
Proof.
  intros Ho Hs. unfold write_handshake. rewrite c_bind_get. cbv zeta.
  assert (c_layer (seal Handshake bs 0) c = (Ok out, with_layer l c)) as Hl by (unfold c_layer; by rewrite Hs).
  rewrite (c_bind_ok _ _ _ _ _ Hl). unfold mbind, C_bind, c_write. cbn [stream with_layer]. rewrite Ho.
  by eexists.
Qed.

(** ** Lines *)

Context (debug_str : bytes -> bytes).

(** No time is found to have passed before the next read. *)
Definition in_time (c : Client) : Prop := forall evs, incoming (stream (conn c)) <> Late :: evs.

Lemma in_time_deadline what c : in_time c -> on_conn (check_deadline what) c = (Ok tt, c).
Proof.
  intros Hin. unfold on_conn, check_deadline. destruct (incoming (stream (conn c))) as [|[| | | |] evs] eqn:E;
    try (by rewrite with_conn_id). by destruct (Hin evs).
Qed.

Lemma with_pending_id (c : Client) d : pending_app c = d -> with_pending_app ([] ++ d) (with_pending_app [] c) = c.
Proof. intros <-. by destruct c. Qed.

Lemma read_line_spins rounds c :
  pending_app c <> [] -> newline_at (pending_app c) = None -> in_time c ->
  read_line_loop instant debug_str rounds c = (Err (Timeout (no_newline_text debug_str (pending_app c))), c).
Proof.
  intros Hp Hn Hin. induction rounds as [|rounds IH]; cbn [read_line_loop]; rewrite t_bind_get, Hn; [done|].
  rewrite (t_bind_ok _ _ _ _ _ (in_time_deadline _ _ Hin)).
  assert (read_app_data instant c = (Ok (pending_app c), with_pending_app [] c)) as Hr.
  { unfold read_app_data. rewrite t_bind_get, decide_False by done. by rewrite t_bind_modify. }
  rewrite (t_bind_ok _ _ _ _ _ Hr). unfold keep_app. rewrite t_bind_modify.
  change (pending_app (with_pending_app [] c)) with ([] : bytes). by rewrite with_pending_id.
Qed.

Lemma expects_in_time c events w tl : expects (conn c) events w tl -> in_time c.
Proof. intros (? & ? & ? & _ & _ & [_ Hp] & _) evs E. by rewrite E in Hp. Qed.

Lemma read_line_found rounds c n :
  newline_at (pending_app c) = Some n ->
  read_line_loop instant debug_str rounds c =
    (Ok (utf8_lossy (firstn n (pending_app c))), with_pending_app (drop (S n) (pending_app c)) c).
Proof. intros Hn. by destruct rounds; cbn [read_line_loop]; rewrite t_bind_get, Hn. Qed.

(** One record of data is one round. *)
Lemma read_line_round rounds c d events w tl :
  pending_app c = [] -> d <> [] -> expects (conn c) (InAppData d :: events) w tl ->
  exists c', read_line_loop instant debug_str (S rounds) c = read_line_loop instant debug_str rounds c' /\
    pending_app c' = d /\ expects (conn c') events w tl.
Proof.
  intros Hp Hd He. cbn [read_line_loop]. rewrite t_bind_get, Hp. cbn [newline_at list_find fmap option_fmap option_map].
  pose proof (expects_in_time _ _ _ _ He) as Hin. rewrite (t_bind_ok _ _ _ _ _ (in_time_deadline _ _ Hin)).
  destruct (next_message_step _ _ _ _ _ He) as (k & Hk & He').
  assert (read_app_data instant c = (Ok d, with_conn k c)) as Hr.
  { unfold read_app_data. rewrite t_bind_get, decide_True by done. cbn [read_app_data_loop].
    rewrite (t_bind_ok _ _ _ _ _ (in_time_deadline _ _ Hin)). rewrite (t_bind_conn _ _ _ _ _ Hk).
    cbv beta iota. by rewrite decide_False. }
  rewrite (t_bind_ok _ _ _ _ _ Hr). unfold keep_app. rewrite t_bind_modify. eexists. split; [reflexivity|].
  cbn [pending_app with_pending_app conn with_conn]. by rewrite Hp.
Qed.
End after.

(** ** Claims *)

(** [read_line] returns a line only when it comes in one piece.  With data kept
  that has a newline it returns what stands before it and keeps what follows; with
  nothing kept it takes one record of data, and returns the line in it; but data
  kept without a newline is handed back and forth: nothing more is read from the
  connection, and the loop goes round until its time is up, however many rounds that
  is and whatever has arrived. *)
Theorem read_line_needs_a_whole_line {lib : CryptoLib} {curves : CurveLib} {sigs : SigLib} {laws : CryptoLaws lib} instant debug_str c rounds :
  (forall n, newline_at (pending_app c) = Some n ->
     read_line_loop instant debug_str rounds c =
       (Ok (utf8_lossy (firstn n (pending_app c))), with_pending_app (drop (S n) (pending_app c)) c)) /\
  (pending_app c <> [] -> newline_at (pending_app c) = None -> in_time c ->
     read_line_loop instant debug_str rounds c = (Err (Timeout (no_newline_text debug_str (pending_app c))), c)) /\
  (forall d events w tl, pending_app c = [] -> d <> [] -> expects (conn c) (InAppData d :: events) w tl ->
     exists r c', read_line_loop instant debug_str (S rounds) c = (r, c') /\ expects (conn c') events w tl /\
       match newline_at d with
       | Some n => r = Ok (utf8_lossy (firstn n d)) /\ pending_app c' = drop (S n) d
       | None => r = Err (Timeout (no_newline_text debug_str d)) /\ pending_app c' = d
       end).
Proof.
  split_and!.
  - intros n. apply read_line_found.
  - apply read_line_spins.
  - intros d events w tl Hp Hd He.
    destruct (read_line_round instant debug_str rounds c d events w tl Hp Hd He) as (c' & -> & Hp' & He').
    destruct (newline_at d) as [n|] eqn:Hn.
    + rewrite (read_line_found _ _ _ _ n) by (by rewrite Hp'). rewrite Hp'. by eexists _, _.
    + rewrite read_line_spins by (rewrite Hp' || idtac; first [done|by eapply expects_in_time]). rewrite Hp'. by eexists _, _.
Qed.

(** Two records of data without a newline in the first, one record after the other. *)
Lemma read_line_needs_a_whole_line_witness :
  let lib := toy_lib in let curves := toy_curves in let sigs := toy_sigs in
  let items := [IRec ApplicationData [x61; x62] 0; IRec ApplicationData [x63; x0a] 0] in
  let w := set_write toy_keys RecordLayer_new in
  let wire := match send_all items w with (Ok bs, _) => bs | _ => [] end in
  let k := with_layer (set_read toy_keys RecordLayer_new) (TlsConn_new (mkSocket [Data wire] [] None false)) in
  exists c', read_line_loop (fun _ => 0) id 100 (over k ClientConfig_default) =
    (Err (Timeout (no_newline_text id [x61; x62])), c') /\ expects (conn c') [InAppData [x63; x0a]] (bump_write (bump_write w)) [].
Proof.
  intros lib curves sigs items w wire k.
  destruct (read_line_needs_a_whole_line (laws := toy_laws) (fun _ => 0) id (over k ClientConfig_default) 99) as (_ & _ & H).
  destruct (H [x61; x62] [InAppData [x63; x0a]] (bump_write (bump_write w)) []) as (r & c' & E & He & Hr & _); [done|done| |].
  - exists w, items, wire. split; [|split; [vm_compute; reflexivity|]].
    + apply renders_record; [vm_compute; done|done|]. apply renders_record; [vm_compute; done|done|]. constructor.
    + split; [by vm_compute|]. split; [|done]. split_and!; try done. intros ? [= <-]. apply toy_keys_ok.
  - exists c'. split; [|exact He]. etrans; [exact E|]. by rewrite Hr.
Defined.

(** C33: a KeyUpdate switches the server's direction to the next generation of RFC 8446
  section 7.2, from sequence number zero, so a server that switches with it is read
  on.  When it asks for an answer, one goes out sealed under the old client keys,
  asks for nothing, and only then is the client's direction switched; otherwise
  nothing is sent and nothing else changes.  Either way the schedule's application
  keys stay the ones in force, so the next KeyUpdate starts from these. *)
Theorem key_update_follows_rfc {lib : CryptoLib} {curves : CurveLib} {sigs : SigLib} {laws : CryptoLaws lib} instant rk wk m u c :
  in_step rk wk c -> keys_ok wk -> msg_type m = KEY_UPDATE -> KeyUpdate_parse (hm_body m) = Ok u ->
  out_error (stream (conn c)) = None -> in_u 16 (write_version (layer (conn c))) ->
  exists c', post_handshake instant m c = (Ok tt, c') /\ server_key_updates c' = server_key_updates c ++ [u] /\
    (forall w, in_u 16 (write_version w) -> synced (set_write (next_keys rk) w) (layer (conn c'))) /\
    if decide (request_update u = x01) then
      in_step (next_keys rk) (next_keys wk) c' /\ write_seq (layer (conn c')) = 0 /\
      exists out, (seal Handshake (KeyUpdate_encode NOT_REQUESTED) 0 (layer (conn c))).1 = Ok out /\
        outgoing (stream (conn c')) = outgoing (stream (conn c)) ++ out
    else
      in_step (next_keys rk) wk c' /\ write_seq (layer (conn c')) = write_seq (layer (conn c)) /\
      outgoing (stream (conn c')) = outgoing (stream (conn c)).
Proof.
  intros Hin Hok Hty Hp Ho Hv. unfold post_handshake. rewrite Hty, decide_False, decide_True by done.
  rewrite (t_bind_try _ _ _ _ Hp), t_bind_modify.
  match goal with |- context [(rekey_read ≫= _) ?d] => set (c1 := d) end.
  assert (in_step rk wk c1) as Hin1 by exact Hin.
  destruct (rekey_read_works rk wk c1 Hin1) as (c2 & E2 & Hin2 & Hs2 & Hc2). rewrite (t_bind_ok _ _ _ _ _ E2).
  assert (server_key_updates c2 = server_key_updates c ++ [u]) as Hku.
  { unfold rekey_read in E2. t_inv. by fields. }
  assert (forall rs wk' (d : Client), in_step (next_keys rk) wk' d -> read_seq (layer (conn d)) = rs -> rs = 0 ->
    forall w, in_u 16 (write_version w) -> synced (set_write (next_keys rk) w) (layer (conn d))) as Hsync.
  { intros rs wk' d (ks & _ & _ & _ & Hr & _) Hrs -> w Hw. split_and!; try done. intros ? [= <-]. apply keys_of_ok. }
  case_decide as Hreq.
  - unfold send_key_update. pose proof Hin as (ks & _ & _ & _ & _ & Hlw).
    destruct (seal_encrypted (layer (conn c2)) wk Handshake (KeyUpdate_encode NOT_REQUESTED) 0) as (sealed & _ & _ & Hseal);
      [by rewrite Hc2|done|by rewrite Hc2|by vm_compute|].
    destruct (write_handshake_bytes (conn c2) (KeyUpdate_encode NOT_REQUESTED) _ _ ltac:(by rewrite Hc2) Hseal) as (k & Hk & Hkl & Hko).
    rewrite (t_bind_conn _ _ _ _ _ Hk).
    assert (in_step (next_keys rk) wk (with_conn k c2)) as Hin3.
    { destruct Hin2 as (ks2 & ? & ? & ? & ? & ?). exists ks2. cbn [conn with_conn]. rewrite Hkl. by split_and!. }
    destruct (rekey_write_works _ _ _ Hin3) as (c4 & E4 & Hin4 & Hs4 & Hc4). exists c4. split; [done|].
    assert (server_key_updates c4 = server_key_updates c2) as Hku4 by (unfold rekey_write in E4; t_inv; by fields).
    split; [by rewrite Hku4|].
    assert (read_seq (layer (conn c4)) = 0) as Hrs by (rewrite Hc4; cbn [layer with_layer set_write read_seq conn with_conn]; by rewrite Hkl).
    split; [by eapply Hsync|]. split; [done|]. split; [done|].
    eexists. split; [|rewrite Hc4; cbn [stream with_layer conn with_conn]; rewrite Hko, Hc2; reflexivity].
    assert (forall l, (seal Handshake (KeyUpdate_encode NOT_REQUESTED) 0 (set_read (next_keys rk) l)).1 =
      (seal Handshake (KeyUpdate_encode NOT_REQUESTED) 0 l).1) as Hsr.
    { intros l. unfold seal, set_read. cbn [write write_seq write_version]. destruct (write l); [|done]. cbv zeta.
      destruct (_ <? _); [done|]. by destruct (aead_seal _ _ _ _ _). }
    rewrite Hc2 in Hseal. cbn [layer with_layer] in Hseal. rewrite <- Hsr. change (conn c) with (conn c1). by rewrite Hseal.
  - exists c2. split; [done|]. split; [done|]. split; [by eapply Hsync|]. split; [done|]. rewrite Hc2. by split.
Qed.

(** A KeyUpdate that asks for an answer. *)
Lemma key_update_follows_rfc_witness :
  let lib := toy_lib in let curves := toy_curves in let sigs := toy_sigs in
  let ks := set_server_application toy_keys (set_client_application toy_keys
    (KeySchedule_new (mkSuite TLS_AES_128_GCM_SHA256 Sha256 Aes128Gcm) None)) in
  let k := with_layer (set_read toy_keys (set_write toy_keys RecordLayer_new)) (TlsConn_new (mkSocket [] [] None false)) in
  let c := with_schedule (Some ks) (over k ClientConfig_default) in
  exists c', post_handshake (fun _ => 0) (message_of KEY_UPDATE [x01]) c = (Ok tt, c') /\
    in_step (next_keys toy_keys) (next_keys toy_keys) c' /\ server_key_updates c' = [REQUESTED].
Proof.
  intros lib curves sigs ks k c.
  destruct (key_update_follows_rfc (laws := toy_laws) (fun _ => 0) toy_keys toy_keys (message_of KEY_UPDATE [x01]) REQUESTED c)
    as (c' & E & Hu & _ & H).
  - by exists ks.
  - apply toy_keys_ok.
  - done.
  - vm_compute. reflexivity.
  - done.
  - done.
  - exists c'. split; [exact E|]. rewrite decide_True in H by done. split; [apply H|exact Hu].
Defined.

(** ** The flight without protection

  Nothing checks that the handshake buffer is empty when the keys change, which RFC
  8446 section 5.1 asks for: messages that came with the ServerHello, in the same
  plaintext record, are taken as the encrypted flight. *)
Definition plain_flight : bytes :=
  let lib := toy_lib in
  match send_all [IRec Handshake (concat (map hm_raw (message_of SERVER_HELLO toy_server_hello :: toy_flight))) 0] RecordLayer_new with
  | (Ok bs, _) => bs
  | _ => []
  end.

(** The whole of the server's side is one plaintext record; the handshake succeeds, and
  not one protected record was read. *)
Lemma flight_in_the_clear :
  let lib := toy_lib in let curves := toy_curves in let sigs := toy_sigs in
  let r := handshake (fun _ => 0) (over (TlsConn_new (mkSocket [Data plain_flight] [] None false)) ClientConfig_default) in
  r.1 = Ok tt /\ finished r.2 = true /\ map content_type (records_in (conn r.2)) = [Handshake].
Proof. vm_compute. by repeat split. Qed.
