(* ===== verification/WasmLeb.v ===== *)
(** * LEB128 integers, vectors and names (wasmtest: wasm/encode.rs)

  [uleb], [sleb] and their padded forms as the encoder writes them, the readers
  of the WebAssembly binary format they are measured against, and the proofs
  that each encoding reads back to its value, that [uleb] and [sleb] are the
  shortest encodings and that padding changes the length and nothing else. *)

From S2P Require Import Prelude.

#[local] Ltac Zify.zify_post_hook ::= Z.to_euclidean_division_equations.

(** ** The encoders *)

(** [uleb] of a [u64]: ten rounds of seven bits are enough (lemma [uleb_fuel_padded]). *)
Fixpoint uleb_fuel (fuel : nat) (v : Z) : bytes :=
  match fuel with
  | O => []
  | S fuel =>
      let byte := Z.land v 0x7f in
      let v := Z.shiftr v 7 in
      if v =? 0 then [z2b byte] else z2b (Z.lor byte 0x80) :: uleb_fuel fuel v
  end.
Definition uleb (v : Z) : bytes := uleb_fuel 10 v.

(** The loop [for i in 0..len]; [last] holds in the round with nothing left. *)
Fixpoint uleb_padded (v : Z) (len : nat) : bytes :=
  match len with
  | O => []
  | S rest =>
      let last := match rest with O => true | _ => false end in
      let byte := Z.land v 0x7f in
      z2b (if last then byte else Z.lor byte 0x80) :: uleb_padded (Z.shiftr v 7) rest
  end.

(** [sleb] of an [i64]; [>>] keeps the sign. *)
Fixpoint sleb_fuel (fuel : nat) (v : Z) : bytes :=
  match fuel with
  | O => []
  | S fuel =>
      let byte := Z.land v 0x7f in
      let v := Z.shiftr v 7 in
      let sign_bit_set := negb (Z.land byte 0x40 =? 0) in
      if ((v =? 0) && negb sign_bit_set) || ((v =? -1) && sign_bit_set)
      then [z2b byte] else z2b (Z.lor byte 0x80) :: sleb_fuel fuel v
  end.
Definition sleb (v : Z) : bytes := sleb_fuel 10 v.

Fixpoint sleb_padded (v : Z) (len : nat) : bytes :=
  match len with
  | O => []
  | S rest =>
      let last := match rest with O => true | _ => false end in
      let byte := Z.land v 0x7f in
      z2b (if last then byte else Z.lor byte 0x80) :: sleb_padded (Z.shiftr v 7) rest
  end.

(** A [vec(T)] of encoded items, and a [name]. *)
Definition vector (items : list bytes) : bytes := uleb (zlen items) ++ concat items.
Definition wasm_name (s : bytes) : bytes := uleb (zlen s) ++ s.

(** ** The readers of the binary format

  A byte without the high bit ends the number; each byte adds seven bits, least
  significant first.  A signed number takes its sign from bit 6 of the last byte. *)

Fixpoint read_uleb (bs : bytes) : option (Z * bytes) :=
  match bs with
  | [] => None
  | b :: bs =>
      if b2z b <? 128 then Some (b2z b, bs)
      else '(v, rest) ← read_uleb bs; Some (b2z b - 128 + 128 * v, rest)
  end.

Fixpoint read_sleb (bs : bytes) : option (Z * bytes) :=
  match bs with
  | [] => None
  | b :: bs =>
      if b2z b <? 128 then Some (if b2z b <? 64 then b2z b else b2z b - 128, bs)
      else '(v, rest) ← read_sleb bs; Some (b2z b - 128 + 128 * v, rest)
  end.

(** A [u32] field: at most five bytes, and a value of 32 bits. *)
Definition read_u32 (bs : bytes) : option (Z * bytes) :=
  '(v, rest) ← read_uleb bs;
  if (zlen bs - zlen rest <=? 5) && (v <? 2 ^ 32) then Some (v, rest) else None.

(** ** One round of the loops *)

Lemma low7 v : Z.land v 0x7f = v mod 128.
Proof. change 0x7f with (Z.ones 7). by rewrite Z.land_ones by lia. Qed.

Lemma high7 v : Z.shiftr v 7 = v / 128.
Proof. by rewrite Z.shiftr_div_pow2 by lia. Qed.

Lemma more_bit v : 0 <= v < 128 -> Z.lor v 0x80 = v + 128.
Proof.
  intros Hv. rewrite Z.add_nocarry_lxor.
  - rewrite Z.lxor_lor; [done|]. apply Z.bits_inj'. intros n Hn.
    rewrite Z.land_spec, Z.bits_0. change 0x80 with (2 ^ 7).
    rewrite Z.pow2_bits_eqb by lia. destruct (Z.eqb_spec 7 n) as [<-|]; [|apply andb_false_r].
    rewrite (Z.bits_above_log2 v 7); [done|lia|].
    destruct (Z.eq_dec v 0) as [->|]; [done|]. apply Z.log2_lt_pow2; lia.
  - apply Z.bits_inj'. intros n Hn.
    rewrite Z.land_spec, Z.bits_0. change 0x80 with (2 ^ 7).
    rewrite Z.pow2_bits_eqb by lia. destruct (Z.eqb_spec 7 n) as [<-|]; [|apply andb_false_r].
    rewrite (Z.bits_above_log2 v 7); [done|lia|].
    destruct (Z.eq_dec v 0) as [->|]; [done|]. apply Z.log2_lt_pow2; lia.
Qed.

Lemma sign_bit v : 0 <= v < 128 -> negb (Z.land v 0x40 =? 0) = (64 <=? v).
Proof.
  intros Hv. change 0x40 with (2 ^ 6).
  assert (Z.land v (2 ^ 6) = if Z.testbit v 6 then 2 ^ 6 else 0) as ->.
  { apply Z.bits_inj'. intros n Hn. rewrite Z.land_spec, Z.pow2_bits_eqb by lia.
    destruct (Z.eqb_spec 6 n) as [<-|].
    - destruct (Z.testbit v 6); rewrite ?Z.pow2_bits_true by lia; [done|].
      by rewrite Z.bits_0.
    - rewrite andb_false_r. destruct (Z.testbit v 6); [|by rewrite Z.bits_0].
      by rewrite Z.pow2_bits_false by lia. }
  rewrite Z.testbit_eqb by lia. change (2 ^ 6) with 64.
  pose proof (Z.div_mod v 64 ltac:(lia)). pose proof (Z.mod_pos_bound v 64 ltac:(lia)).
  assert (v / 64 = 0 \/ v / 64 = 1) as [E|E] by lia; rewrite E in *; simpl;
    symmetry; [apply Z.leb_gt|apply Z.leb_le]; lia.
Qed.

Lemma b2z_last v : b2z (z2b (v mod 128)) = v mod 128.
Proof. apply z2b_small. pose proof (Z.mod_pos_bound v 128 ltac:(lia)). lia. Qed.

Lemma b2z_more v : b2z (z2b (Z.lor (v mod 128) 0x80)) = v mod 128 + 128.
Proof.
  pose proof (Z.mod_pos_bound v 128 ltac:(lia)). rewrite more_bit by lia.
  apply z2b_small. lia.
Qed.

(** A reader's step over a byte that says "more follows". *)
Lemma read_uleb_more v bs :
  read_uleb (z2b (Z.lor (v mod 128) 0x80) :: bs) =
    '(w, rest) ← read_uleb bs; Some (v mod 128 + 128 * w, rest).
Proof.
  pose proof (Z.mod_pos_bound v 128 ltac:(lia)). cbn [read_uleb]. rewrite b2z_more.
  rewrite (proj2 (Z.ltb_ge _ _)) by lia. destruct (read_uleb bs) as [[w rest]|]; simpl; [|done].
  do 2 f_equal. lia.
Qed.

Lemma read_sleb_more v bs :
  read_sleb (z2b (Z.lor (v mod 128) 0x80) :: bs) =
    '(w, rest) ← read_sleb bs; Some (v mod 128 + 128 * w, rest).
Proof.
  pose proof (Z.mod_pos_bound v 128 ltac:(lia)). cbn [read_sleb]. rewrite b2z_more.
  rewrite (proj2 (Z.ltb_ge _ _)) by lia. destruct (read_sleb bs) as [[w rest]|]; simpl; [|done].
  do 2 f_equal. lia.
Qed.

Lemma read_uleb_last v bs : read_uleb (z2b (v mod 128) :: bs) = Some (v mod 128, bs).
Proof.
  pose proof (Z.mod_pos_bound v 128 ltac:(lia)). cbn [read_uleb]. rewrite b2z_last.
  by rewrite (proj2 (Z.ltb_lt _ _)) by lia.
Qed.

Lemma read_sleb_last v bs :
  read_sleb (z2b (v mod 128) :: bs) =
    Some (if v mod 128 <? 64 then v mod 128 else v mod 128 - 128, bs).
Proof.
  pose proof (Z.mod_pos_bound v 128 ltac:(lia)). cbn [read_sleb]. rewrite b2z_last.
  by rewrite (proj2 (Z.ltb_lt (v mod 128) 128)) by lia.
Qed.

(** The encoders, one round at a time, in arithmetic rather than bit operations. *)
Lemma uleb_fuel_S fuel v :
  uleb_fuel (S fuel) v =
    if v / 128 =? 0 then [z2b (v mod 128)]
    else z2b (Z.lor (v mod 128) 0x80) :: uleb_fuel fuel (v / 128).
Proof. cbn [uleb_fuel]. by rewrite low7, high7. Qed.

Lemma sleb_fuel_S fuel v :
  sleb_fuel (S fuel) v =
    if (-64 <=? v) && (v <? 64) then [z2b (v mod 128)]
    else z2b (Z.lor (v mod 128) 0x80) :: sleb_fuel fuel (v / 128).
Proof.
  cbn [sleb_fuel]. rewrite low7, high7.
  pose proof (Z.mod_pos_bound v 128 ltac:(lia)). pose proof (Z.div_mod v 128 ltac:(lia)).
  rewrite sign_bit by lia.
  replace ((v / 128 =? 0) && negb (64 <=? v mod 128) || (v / 128 =? -1) && (64 <=? v mod 128))
    with ((-64 <=? v) && (v <? 64)); [done|].
  apply eq_true_iff_eq.
  rewrite orb_true_iff, !andb_true_iff, negb_true_iff, !Z.eqb_eq, Z.leb_gt, !Z.leb_le, Z.ltb_lt.
  lia.
Qed.

(** ** Unsigned *)

Lemma pow128_S (n : nat) : 128 ^ Z.of_nat (S n) = 128 * 128 ^ Z.of_nat n.
Proof. by rewrite Nat2Z.inj_succ, Z.pow_succ_r by lia. Qed.

Lemma pow128_pos (n : nat) : 0 < 128 ^ Z.of_nat n.
Proof. apply Z.pow_pos_nonneg; lia. Qed.

Lemma pow128_mono (n m : nat) : (n <= m)%nat -> 128 ^ Z.of_nat n <= 128 ^ Z.of_nat m.
Proof. intros. apply Z.pow_le_mono_r; lia. Qed.

Lemma uleb_padded_SS v n :
  uleb_padded v (S (S n)) = z2b (Z.lor (v mod 128) 0x80) :: uleb_padded (v / 128) (S n).
Proof.
  change (uleb_padded v (S (S n))) with
    (z2b (Z.lor (Z.land v 0x7f) 0x80) :: uleb_padded (Z.shiftr v 7) (S n)).
  by rewrite low7, high7.
Qed.

(** The padded form of every width that holds the value reads back. *)
Lemma uleb_padded_read n v rest :
  0 <= v < 128 ^ Z.of_nat (S n) -> read_uleb (uleb_padded v (S n) ++ rest) = Some (v, rest).
Proof.
  revert v. induction n as [|n IH]; intros v Hv.
  - cbn [uleb_padded app]. rewrite low7, read_uleb_last. change (128 ^ Z.of_nat 1) with 128 in Hv.
    by rewrite Z.mod_small by lia.
  - rewrite uleb_padded_SS. cbn [app]. rewrite pow128_S in Hv. rewrite read_uleb_more. rewrite IH by lia. simpl.
    pose proof (Z.div_mod v 128 ltac:(lia)). do 2 f_equal. lia.
Qed.

(** Every number the reader accepts was the padded form of some width. *)
Lemma read_uleb_padded bs v rest :
  read_uleb bs = Some (v, rest) ->
  exists n, bs = uleb_padded v (S n) ++ rest /\ 0 <= v < 128 ^ Z.of_nat (S n).
Proof.
  revert v. induction bs as [|b bs IH]; intros v H; [done|]. cbn [read_uleb] in H.
  pose proof (b2z_range b). destruct (Z.ltb_spec (b2z b) 128).
  - injection H as <- <-. exists 0%nat. change (128 ^ Z.of_nat 1) with 128. split; [|lia].
    cbn [uleb_padded app]. rewrite low7, Z.mod_small by lia. by rewrite z2b_b2z.
  - destruct (read_uleb bs) as [[w r]|]; [|done]. simpl in H.
    injection H as <- <-. destruct (IH w eq_refl) as (n & -> & Hw).
    exists (S n). split; [|rewrite pow128_S; lia].
    replace (b2z b - 128 + 128 * w) with (b2z b - 128 + w * 128) by lia.
    rewrite uleb_padded_SS, Z.mod_add, Z.div_add by lia. rewrite Z.div_small by lia.
    rewrite Z.mod_small, more_bit by lia. cbn [app].
    replace (b2z b - 128 + 128) with (b2z b) by lia. by rewrite z2b_b2z.
Qed.

(** The short form is the padded form of the least width that holds the value. *)
Lemma uleb_fuel_padded fuel v :
  0 <= v < 128 ^ Z.of_nat fuel -> (0 < fuel)%nat ->
  exists n, uleb_fuel fuel v = uleb_padded v (S n) /\ 0 <= v < 128 ^ Z.of_nat (S n) /\
    (n = 0%nat \/ 128 ^ Z.of_nat n <= v).
Proof.
  revert v. induction fuel as [|fuel IH]; intros v Hv Hf; [lia|].
  rewrite pow128_S in Hv. rewrite uleb_fuel_S. destruct (Z.eqb_spec (v / 128) 0) as [E|E].
  - exists 0%nat. change (128 ^ Z.of_nat 1) with 128.
    cbn [uleb_padded]. rewrite low7. repeat split; [lia|lia|by left].
  - destruct fuel as [|fuel]; [change (128 ^ Z.of_nat 0) with 1 in Hv; lia|].
    destruct (IH (v / 128)) as (n & -> & Hn & Hm); [lia|lia|].
    exists (S n). rewrite pow128_S. split; [|split; [lia|right]].
    + by rewrite uleb_padded_SS.
    + rewrite pow128_S. destruct Hm as [->|Hm]; [change (128 ^ Z.of_nat 0) with 1|]; lia.
Qed.

Lemma in_u64_fuel v : in_u 64 v -> 0 <= v < 128 ^ Z.of_nat 10.
Proof. unfold in_u. change (2 ^ 64) with 18446744073709551616. intros ?.
  change (128 ^ Z.of_nat 10) with 1180591620717411303424. lia. Qed.

Lemma length_uleb_padded v n : length (uleb_padded v n) = n.
Proof. revert v. induction n as [|n IH]; intros v; simpl; auto. Qed.

Lemma uleb_least v :
  in_u 64 v ->
  exists n, uleb v = uleb_padded v (S n) /\ 0 <= v < 128 ^ Z.of_nat (S n) /\
    (n = 0%nat \/ 128 ^ Z.of_nat n <= v).
Proof. intros Hv%in_u64_fuel. apply uleb_fuel_padded; [done|lia]. Qed.

Lemma uleb_read v rest : in_u 64 v -> read_uleb (uleb v ++ rest) = Some (v, rest).
Proof.
  intros (n & -> & Hn & _)%uleb_least. by apply uleb_padded_read.
Qed.

(** The width of the short form, as the annotations compute it. *)
Lemma zlen_uleb v n :
  in_u 64 v -> v < 128 ^ Z.of_nat (S n) -> n = 0%nat \/ 128 ^ Z.of_nat n <= v ->
  zlen (uleb v) = Z.of_nat (S n).
Proof.
  intros (m & E & Hm & Hl)%uleb_least Hv Hn. unfold zlen. rewrite E, length_uleb_padded.
  f_equal. destruct (lt_eq_lt_dec n m) as [[H| ->]|H]; [|done|].
  - exfalso. pose proof (pow128_mono (S n) m H). destruct Hl as [->|]; lia.
  - exfalso. pose proof (pow128_mono (S m) n H). destruct Hn as [->|]; lia.
Qed.

Lemma zlen_uleb_pos v : 0 < zlen (uleb v).
Proof.
  unfold uleb. rewrite uleb_fuel_S. case_match; rewrite zlen_cons.
  - done.
  - pose proof (zlen_nonneg (uleb_fuel 9 (v / 128))). lia.
Qed.

Lemma uleb_u32 v rest : in_u 32 v -> read_u32 (uleb v ++ rest) = Some (v, rest).
Proof.
  intros Hv. assert (in_u 64 v) as Hv' by (unfold in_u in *; lia).
  unfold read_u32. rewrite uleb_read by done. cbn [mbind option_bind].
  destruct Hv as [H0 Hv]. rewrite (proj2 (Z.ltb_lt v (2 ^ 32))) by done.
  rewrite zlen_app. destruct (uleb_least v Hv') as (n & E & Hn & Hl).
  unfold zlen at 1. rewrite E, length_uleb_padded.
  rewrite (proj2 (Z.leb_le _ _)); [done|].
  destruct (decide (5 <= n)%nat) as [H|H]; [|lia]. pose proof (pow128_mono 5 n H) as Hp.
  change (128 ^ Z.of_nat 5) with 34359738368 in Hp. change (2 ^ 32) with 4294967296 in Hv.
  destruct Hl as [->|]; lia.
Qed.

(** ** Signed *)

(** [S n] bytes hold the signed numbers of [7 (n + 1)] bits. *)
Definition sleb_fits (n : nat) (v : Z) : Prop :=
  - (64 * 128 ^ Z.of_nat n) <= v < 64 * 128 ^ Z.of_nat n.

Lemma sleb_padded_eq v n : sleb_padded v n = uleb_padded v n.
Proof. revert v. induction n as [|n IH]; intros v; simpl; [done|]. by rewrite IH. Qed.

Lemma sleb_padded_SS v n :
  sleb_padded v (S (S n)) = z2b (Z.lor (v mod 128) 0x80) :: sleb_padded (v / 128) (S n).
Proof. rewrite !sleb_padded_eq. apply uleb_padded_SS. Qed.

Lemma sleb_fits_S n v : sleb_fits (S n) v <-> sleb_fits n (v / 128).
Proof. unfold sleb_fits. rewrite pow128_S. lia. Qed.

Lemma sleb_padded_read n v rest :
  sleb_fits n v -> read_sleb (sleb_padded v (S n) ++ rest) = Some (v, rest).
Proof.
  revert v. induction n as [|n IH]; intros v Hv.
  - cbn [sleb_padded app]. rewrite low7, read_sleb_last. unfold sleb_fits in Hv.
    change (128 ^ Z.of_nat 0) with 1 in Hv. do 2 f_equal.
    destruct (Z.ltb_spec (v mod 128) 64); lia.
  - rewrite sleb_padded_SS. cbn [app]. rewrite read_sleb_more, IH by by apply sleb_fits_S.
    simpl. do 2 f_equal. lia.
Qed.

Lemma read_sleb_padded bs v rest :
  read_sleb bs = Some (v, rest) ->
  exists n, bs = sleb_padded v (S n) ++ rest /\ sleb_fits n v.
Proof.
  revert v. induction bs as [|b bs IH]; intros v H; [done|]. cbn [read_sleb] in H.
  pose proof (b2z_range b). destruct (Z.ltb_spec (b2z b) 128).
  - injection H as <- <-. exists 0%nat. unfold sleb_fits. change (128 ^ Z.of_nat 0) with 1.
    split; [|destruct (Z.ltb_spec (b2z b) 64); lia].
    cbn [sleb_padded app]. rewrite low7.
    replace ((if b2z b <? 64 then b2z b else b2z b - 128) mod 128) with (b2z b); [by rewrite z2b_b2z|].
    destruct (Z.ltb_spec (b2z b) 64); lia.
  - destruct (read_sleb bs) as [[w r]|]; [|done]. simpl in H.
    injection H as <- <-. destruct (IH w eq_refl) as (n & -> & Hw).
    exists (S n). rewrite sleb_fits_S.
    replace ((b2z b - 128 + 128 * w) / 128) with w by lia. split; [|done].
    rewrite sleb_padded_SS. replace ((b2z b - 128 + 128 * w) mod 128) with (b2z b - 128) by lia.
    replace ((b2z b - 128 + 128 * w) / 128) with w by lia.
    rewrite more_bit by lia. cbn [app].
    replace (b2z b - 128 + 128) with (b2z b) by lia. by rewrite z2b_b2z.
Qed.

Lemma sleb_fuel_padded fuel v :
  sleb_fits fuel v ->
  exists n, sleb_fuel (S fuel) v = sleb_padded v (S n) /\ sleb_fits n v /\
    (n = 0%nat \/ ~ sleb_fits (pred n) v).
Proof.
  revert v. induction fuel as [|fuel IH]; intros v Hv; rewrite sleb_fuel_S.
  - unfold sleb_fits in Hv. change (128 ^ Z.of_nat 0) with 1 in Hv.
    rewrite (proj2 (Z.leb_le _ _)), (proj2 (Z.ltb_lt _ _)) by lia.
    exists 0%nat. cbn [sleb_padded andb]. rewrite low7.
    repeat split; [change (128 ^ Z.of_nat 0) with 1; lia..|by left].
  - destruct ((-64 <=? v) && (v <? 64)) eqn:E.
    + apply andb_true_iff in E as [E1%Z.leb_le E2%Z.ltb_lt].
      exists 0%nat. cbn [sleb_padded]. rewrite low7. unfold sleb_fits.
      change (128 ^ Z.of_nat 0) with 1. repeat split; [lia|lia|by left].
    + apply andb_false_iff in E. rewrite Z.leb_gt, Z.ltb_ge in E.
      destruct (IH (v / 128)) as (n & -> & Hn & Hm); [by apply sleb_fits_S|].
      exists (S n). rewrite sleb_padded_SS, sleb_fits_S. split; [done|]. split; [done|].
      right. simpl. destruct n as [|n].
      * unfold sleb_fits. change (128 ^ Z.of_nat 0) with 1. lia.
      * rewrite sleb_fits_S. destruct Hm; done.
Qed.

Lemma sleb_fits_mono n m v : (n <= m)%nat -> sleb_fits n v -> sleb_fits m v.
Proof. unfold sleb_fits. intros ?%pow128_mono. lia. Qed.

Lemma sleb_least v :
  in_s 64 v ->
  exists n, sleb v = sleb_padded v (S n) /\ sleb_fits n v /\
    (n = 0%nat \/ ~ sleb_fits (pred n) v).
Proof.
  intros [H1 H2]. apply sleb_fuel_padded. unfold sleb_fits.
  change (64 * 128 ^ Z.of_nat 9) with 590295810358705651712.
  change (2 ^ (64 - 1)) with 9223372036854775808 in *. lia.
Qed.

Lemma sleb_read v rest : in_s 64 v -> read_sleb (sleb v ++ rest) = Some (v, rest).
Proof. intros (n & -> & Hn & _)%sleb_least. by apply sleb_padded_read. Qed.

(** ** The encodings of a number

  What a reader accepts for [v] is exactly the padded forms at least as wide as
  the short one, and the short one is the padded form of its own width. *)

Lemma uleb_encodings v (Hv : in_u 64 v) bs rest :
  (read_uleb bs = Some (v, rest) <->
   exists n, (length (uleb v) <= n)%nat /\ bs = uleb_padded v n ++ rest) /\
  uleb v = uleb_padded v (length (uleb v)).
Proof.
  destruct (uleb_least v Hv) as (m & E & Hm & Hl). rewrite E, length_uleb_padded.
  split; [split|done].
  - intros (n & -> & Hn)%read_uleb_padded. exists (S n). split; [|done].
    apply le_n_S. destruct (decide (m <= n)%nat) as [|H]; [done|]. exfalso.
    pose proof (pow128_mono (S n) m ltac:(lia)). destruct Hl as [->|]; lia.
  - intros ([|n] & Hn & ->); [lia|]. apply uleb_padded_read.
    pose proof (pow128_mono (S m) (S n) Hn). lia.
Qed.

Lemma sleb_encodings v (Hv : in_s 64 v) bs rest :
  (read_sleb bs = Some (v, rest) <->
   exists n, (length (sleb v) <= n)%nat /\ bs = sleb_padded v n ++ rest) /\
  sleb v = sleb_padded v (length (sleb v)).
Proof.
  destruct (sleb_least v Hv) as (m & E & Hm & Hl). rewrite E.
  assert (length (sleb_padded v (S m)) = S m) as ->
    by by rewrite sleb_padded_eq, length_uleb_padded.
  split; [split|done].
  - intros (n & -> & Hn)%read_sleb_padded. exists (S n). split; [|done].
    apply le_n_S. destruct (decide (m <= n)%nat) as [|H]; [done|]. exfalso.
    destruct Hl as [->|Hl]; [lia|]. apply Hl. apply (sleb_fits_mono n); [lia|done].
  - intros ([|n] & Hn & ->); [lia|]. apply sleb_padded_read.
    apply (sleb_fits_mono m); [lia|done].
Qed.

(** [uleb], [sleb] and their padded forms are the LEB128 encodings of a number: for every [u64] (every [i64]) [v], the reader of the binary format reads [v] from a string if and only if the string starts with the padded form of [v] at a width no smaller than the short form's, so every padded form reads back, the short form is the shortest there is and keeps the sign, and two encodings of the same width are equal. *)
Theorem leb128_encodings :
  (forall v, in_u 64 v ->
    (forall bs rest, read_uleb bs = Some (v, rest) <->
      exists n, (length (uleb v) <= n)%nat /\ bs = uleb_padded v n ++ rest) /\
    uleb v = uleb_padded v (length (uleb v))) /\
  (forall v, in_s 64 v ->
    (forall bs rest, read_sleb bs = Some (v, rest) <->
      exists n, (length (sleb v) <= n)%nat /\ bs = sleb_padded v n ++ rest) /\
    sleb v = sleb_padded v (length (sleb v))).
Proof.
  split; intros v Hv; (split; [intros bs rest|]).
  - by apply uleb_encodings.
  - by apply (uleb_encodings v Hv [] []).
  - by apply sleb_encodings.
  - by apply (sleb_encodings v Hv [] []).
Qed.

Lemma leb128_encodings_witness :
  in_u 64 1 /\ in_s 64 64 /\
  (read_uleb [x81; x80; x80; x80; x00] = Some (1, []) <->
    exists n, (length (uleb 1) <= n)%nat /\ [x81; x80; x80; x80; x00] = uleb_padded 1 n ++ []) /\
  (read_sleb [xc0; x00] = Some (64, []) <->
    exists n, (length (sleb 64) <= n)%nat /\ [xc0; x00] = sleb_padded 64 n ++ []).
Proof.
  assert (in_u 64 1) as H1 by done. assert (in_s 64 64) as H2 by done.
  split; [exact H1|]. split; [exact H2|].
  split; [apply (proj1 leb128_encodings 1 H1)|apply (proj2 leb128_encodings 64 H2)].
Defined.

(** The examples of the encoder's own tests. *)
Example uleb_spec_examples :
  map uleb [0; 1; 127; 128; 624485; 2 ^ 32 - 1] =
  [[x00]; [x01]; [x7f]; [x80; x01]; [xe5; x8e; x26]; [xff; xff; xff; xff; x0f]].
Proof. reflexivity. Qed.

Example sleb_spec_examples :
  map sleb [0; -1; 63; 64; -64; -123456; - 2 ^ 31] =
  [[x00]; [x7f]; [x3f]; [xc0; x00]; [x40]; [xc0; xbb; x78]; [x80; x80; x80; x80; x78]].
Proof. reflexivity. Qed.

(** ** Vectors and names *)

Lemma zlen_vector items : zlen (vector items) = zlen (uleb (zlen items)) + zlen (concat items).
Proof. apply zlen_app. Qed.

Lemma concat_pos_length (items : list bytes) :
  Forall (fun i => 0 < zlen i) items -> zlen items <= zlen (concat items).
Proof.
  induction 1 as [|i items Hi _ IH]; [done|]. rewrite zlen_cons, concat_cons, zlen_app. lia.
Qed.
