(* ===== verification/WasmEnc.v ===== *)
(** * The annotated byte sink (wasmtest: wasm/encode.rs, wasm/hex.rs)

  A module under construction is an [Enc]: the bytes written so far and, for the
  regions that were annotated, where they lie and what they mean.  [finish]
  turns it into a [WModule], which prints itself as an annotated listing or a
  plain dump and can be patched or truncated.  Offsets and lengths are [Z]
  (a [usize]); text is its UTF-8 bytes. *)

From S2P Require Import Prelude Text WasmLeb.

(** ** Annotations and modules *)

Record Ann : Type := mkAnn {
  a_offset : Z;
  a_length : Z;
  a_field : bytes;
  a_value : bytes;
}.

Record WModule : Type := mkModule {
  m_bytes : bytes;
  m_anns : list Ann;
  m_label : bytes;
}.

#[global] Instance Ann_eq_dec : EqDecision Ann.
Proof. solve_decision. Defined.

(** ["{b:02x}"]. *)
Definition hex2 (b : byte) : bytes := pad_zero 2 (hex (b2z b)).

Definition m_hex (m : WModule) : bytes := concat (map hex2 (m_bytes m)).
Definition m_len (m : WModule) : Z := zlen (m_bytes m).
Definition m_is_empty (m : WModule) : bool := m_len m =? 0.

(** ** The annotated listing *)

Definition newline : byte := x0a.

(** The closure [row]: one line of the listing. *)
Definition row (bs : bytes) (from len : Z) (field value : bytes) : bytes :=
  let n := zlen bs in
  let end_ := Z.min (from + len) n in
  let start := Z.min from n in
  let slice := zslice bs start (end_ - start) in
  let shown := concat (map (fun b => hex2 b ++ [space]) (take 12 slice)) in
  let more := if 12 <? zlen slice then str "…" else [] in
  pad_zero 4 (hex from) ++ str "  " ++ pad_right 38 (shown ++ more) ++ str " " ++ field ++
  (match value with [] => [] | _ => str " = " end) ++ value ++ [newline].

(** [sort_by_key(|a| (a.offset, a.length))]. *)
Definition ann_le (a b : Ann) : bool :=
  (a_offset a <? a_offset b) || ((a_offset a =? a_offset b) && (a_length a <=? a_length b)).

Definition saturating_sub (a b : Z) : Z := Z.max 0 (a - b).

(** The loop over the sorted annotations; [None] when the budget ran out, which
  returns from the function. *)
Fixpoint listing_loop (bs : bytes) (anns : list Ann) (out : bytes) (at_ budget : Z)
    : bytes * option Z :=
  match anns with
  | [] => (out, Some at_)
  | a :: anns =>
      let out :=
        if at_ <? a_offset a
        then out ++ row bs at_ (a_offset a - at_) (str "(unannotated)") [] else out in
      if budget =? 0
      then (out ++ str "      … " ++ dec (saturating_sub (zlen bs) at_) ++ str " more bytes" ++ [newline], None)
      else
        let out := out ++ row bs (a_offset a) (a_length a) (a_field a) (a_value a) in
        listing_loop bs anns out (Z.max at_ (a_offset a + a_length a))
          (saturating_sub budget (Z.max (a_length a) 1))
  end.

Definition hex_listing (bs : bytes) (anns : list Ann) (max_bytes : Z) : bytes :=
  match listing_loop bs (sort_by ann_le anns) [] 0 max_bytes with
  | (out, None) => out
  | (out, Some at_) =>
      if at_ <? zlen bs then out ++ row bs at_ (zlen bs - at_) (str "(unannotated)") [] else out
  end.

Definition m_listing (m : WModule) (max_bytes : Z) : bytes :=
  hex_listing (m_bytes m) (m_anns m) max_bytes.

(** ** The plain dump *)

(** A [Range<usize>]. *)
Definition Range : Type := (Z * Z)%type.
Definition in_range (r : Range) (i : Z) : bool := (r.1 <=? i) && (i <? r.2).

Definition printable (c : byte) : byte := if between 0x20 0x7e c then c else x2e.

(** One cell of a row: what it adds to the hex column and to the text column. *)
Definition dump_cell (bs : bytes) (start end_ : Z) (i : Z) : bytes * bytes :=
  let gap := if (i mod 8 =? 0) && negb (i =? 0) then [space] else [] in
  let cell := start + i in
  match (if cell <? end_ then bs !! Z.to_nat cell else None) with
  | Some c => (gap ++ hex2 c ++ [space], [printable c])
  | None => (gap ++ str "   ", [space])
  end.

Definition caret_cell (marks : list Range) (start i : Z) : bytes :=
  (if (i mod 8 =? 0) && negb (i =? start) then [space] else []) ++
  (if existsb (fun m => in_range m i) marks then str "^^ " else str "   ").

Definition dump_row (bs : bytes) (marks : list Range) (shown : Z) (row : Z) : bytes :=
  let start := row * 16 in
  let end_ := Z.min (start + 16) shown in
  let cells := map (dump_cell bs start end_) (seqZ 0 16) in
  let hex_col := concat (map fst cells) in
  let ascii := concat (map snd cells) in
  let inside := seqZ start (end_ - start) in
  let any := existsb (fun i => existsb (fun m => in_range m i) marks) inside in
  pad_zero 4 (hex start) ++ str "  " ++ hex_col ++ str " |" ++ ascii ++ str "|" ++ [newline] ++
  (if any then str "      " ++ concat (map (caret_cell marks start) inside) ++ [newline] else []).

Definition div_ceil (a b : Z) : Z := (a + b - 1) / b.

Definition hexdump (bs : bytes) (marks : list Range) (max_bytes : Z) : bytes :=
  let shown := Z.min (zlen bs) max_bytes in
  concat (map (dump_row bs marks shown) (seqZ 0 (div_ceil shown 16))) ++
  (if shown <? zlen bs
   then str "      … " ++ dec (zlen bs - shown) ++ str " more bytes" ++ [newline] else []).

Definition m_dump (m : WModule) (marks : list Range) (max_bytes : Z) : bytes :=
  hexdump (m_bytes m) marks max_bytes.

(** ** Patching a module *)

Definition with_byte (m : WModule) (at_ : Z) (value : byte) : WModule :=
  if at_ <? zlen (m_bytes m)
  then mkModule (<[Z.to_nat at_ := value]> (m_bytes m)) (m_anns m) (m_label m) else m.

Definition truncated (m : WModule) (keep : Z) : WModule :=
  mkModule (ztake keep (m_bytes m))
    (filter (fun a => bool_decide (a_offset a + a_length a <= keep)) (m_anns m))
    (m_label m ++ str "-truncated-" ++ dec keep).

Definition labelled (m : WModule) (label : bytes) : WModule :=
  mkModule (m_bytes m) (m_anns m) label.

Definition ann_at (m : WModule) (offset : Z) : option Ann :=
  find (fun a => in_range (a_offset a, a_offset a + a_length a) offset) (m_anns m).

(** ** The sink *)

Record Enc : Type := mkEnc {
  e_buf : bytes;
  e_anns : list Ann;
}.

Definition Enc_new : Enc := mkEnc [] [].
Definition at_ (e : Enc) : Z := zlen (e_buf e).
Definition e_bytes (e : Enc) : bytes := e_buf e.

Definition raw (bs : bytes) (e : Enc) : Enc := mkEnc (e_buf e ++ bs) (e_anns e).

Definition put (bs field value : bytes) (e : Enc) : Enc :=
  let at_ := zlen (e_buf e) in
  mkEnc (e_buf e ++ bs) (e_anns e ++ [mkAnn at_ (zlen bs) field value]).

Definition annotate (offset len : Z) (field value : bytes) (e : Enc) : Enc :=
  mkEnc (e_buf e) (e_anns e ++ [mkAnn offset len field value]).

Definition splice (other : Enc) (e : Enc) : Enc :=
  let base := zlen (e_buf e) in
  mkEnc (e_buf e ++ e_buf other)
    (e_anns e ++ map (fun a => mkAnn (a_offset a + base) (a_length a) (a_field a) (a_value a))
                   (e_anns other)).

Definition finish (e : Enc) (label : bytes) : WModule := mkModule (e_buf e) (e_anns e) label.

Definition magic : bytes := [x00; x61; x73; x6d].

Definition with_header : Enc :=
  let e := Enc_new in
  let e := put magic (str "header.magic") (str "\0asm") e in
  put (le_bytes 4 1) (str "header.version") (str "1 (little-endian)") e.

(** ** Sections *)

Definition CUSTOM : Z := 0.
Definition TYPE : Z := 1.
Definition IMPORT : Z := 2.
Definition FUNCTION : Z := 3.
Definition TABLE : Z := 4.
Definition MEMORY : Z := 5.
Definition GLOBAL : Z := 6.
Definition EXPORT : Z := 7.
Definition START : Z := 8.
Definition ELEMENT : Z := 9.
Definition CODE : Z := 10.
Definition DATA : Z := 11.
Definition DATA_COUNT : Z := 12.

Definition section_name (id : Z) : bytes :=
  match id with
  | 0 => str "custom section"
  | 1 => str "type section"
  | 2 => str "import section"
  | 3 => str "function section"
  | 4 => str "table section"
  | 5 => str "memory section"
  | 6 => str "global section"
  | 7 => str "export section"
  | 8 => str "start section"
  | 9 => str "element section"
  | 10 => str "code section"
  | 11 => str "data section"
  | 12 => str "data count section"
  | _ => str "an id no section uses"
  end.

Definition section_field (id : Z) (what : bytes) : bytes :=
  str "section[" ++ dec id ++ str "]." ++ what.

Definition section (id : Z) (body : bytes) (e : Enc) : Enc :=
  let e := put [z2b id] (section_field id (str "id")) (section_name id) e in
  let e := put (uleb (zlen body)) (section_field id (str "size")) (dec (zlen body) ++ str " bytes") e in
  raw body e.

Definition section_with_size (id : Z) (size body why : bytes) (e : Enc) : Enc :=
  let e := put [z2b id] (section_field id (str "id")) (section_name id) e in
  let e := put size (section_field id (str "size")) why e in
  raw body e.
