(* ===== verification/WasmTypes.v ===== *)
(** * The parts of a module and their encodings (wasmtest: wasm/encode.rs)

  Value types, function types, limits, imports, exports, function bodies,
  element and data segments, the constant expressions, and how each is written
  to bytes and to text.  A [u32] field is a [Z]; a float is its bit pattern. *)

From S2P Require Import Prelude Text WasmLeb WasmEnc.

(** ** Types *)

Inductive ValType : Type := I32 | I64 | F32 | F64 | FuncRef | ExternRef | V128.

#[global] Instance ValType_eq_dec : EqDecision ValType.
Proof. solve_decision. Defined.

Definition ValType_code (t : ValType) : byte :=
  match t with
  | I32 => x7f | I64 => x7e | F32 => x7d | F64 => x7c
  | FuncRef => x70 | ExternRef => x6f | V128 => x7b
  end.

Definition ValType_name (t : ValType) : bytes :=
  match t with
  | I32 => str "i32" | I64 => str "i64" | F32 => str "f32" | F64 => str "f64"
  | FuncRef => str "funcref" | ExternRef => str "externref" | V128 => str "v128"
  end.

Definition types_text (ts : list ValType) : bytes := join (str " ") (map ValType_name ts).

Record FuncType : Type := ftype {
  params : list ValType;
  results : list ValType;
}.

#[global] Instance FuncType_eq_dec : EqDecision FuncType.
Proof. solve_decision. Defined.

Definition FuncType_text (t : FuncType) : bytes :=
  str "(" ++ types_text (params t) ++ str ") -> (" ++ types_text (results t) ++ str ")".

Definition FuncType_encode (t : FuncType) : bytes :=
  [x60] ++ uleb (zlen (params t)) ++ map ValType_code (params t) ++
  uleb (zlen (results t)) ++ map ValType_code (results t).

Record Limits : Type := mkLimits {
  l_min : Z;
  l_max : option Z;
}.

Definition Limits_min (min : Z) : Limits := mkLimits min None.
Definition Limits_range (min max : Z) : Limits := mkLimits min (Some max).

Definition Limits_encode (l : Limits) : bytes :=
  match l_max l with
  | None => [x00] ++ uleb (l_min l)
  | Some m => [x01] ++ uleb (l_min l) ++ uleb m
  end.

Definition Limits_text (l : Limits) : bytes :=
  match l_max l with
  | None => str "min " ++ dec (l_min l) ++ str ", no max"
  | Some m => str "min " ++ dec (l_min l) ++ str ", max " ++ dec m
  end.

Record TableType : Type := mkTableType {
  t_elem : ValType;
  t_limits : Limits;
}.

(** The closure of the table section. *)
Definition encode_table (t : TableType) : bytes :=
  [ValType_code (t_elem t)] ++ Limits_encode (t_limits t).

(** [u8::from] of a [bool]. *)
Definition bool_byte (b : bool) : byte := if b then x01 else x00.

Record Global : Type := mkGlobal {
  g_ty : ValType;
  g_mutable : bool;
  g_init : bytes;
  g_init_text : bytes;
}.

(** The closure of the global section. *)
Definition encode_global (g : Global) : bytes :=
  [ValType_code (g_ty g); bool_byte (g_mutable g)] ++ g_init g.

(** ** Imports and exports *)

Inductive ImportKind : Type :=
| ImportFunc (t : Z)
| ImportTable (t : TableType)
| ImportMemory (l : Limits)
| ImportGlobal (ty : ValType) (mutable : bool).

Record Import : Type := mkImport {
  i_module : bytes;
  i_name : bytes;
  i_kind : ImportKind;
}.

Definition encode_import (i : Import) : bytes :=
  wasm_name (i_module i) ++ wasm_name (i_name i) ++
  match i_kind i with
  | ImportFunc t => [x00] ++ uleb t
  | ImportTable t => [x01] ++ [ValType_code (t_elem t)] ++ Limits_encode (t_limits t)
  | ImportMemory l => [x02] ++ Limits_encode l
  | ImportGlobal ty mutable => [x03] ++ [ValType_code ty] ++ [bool_byte mutable]
  end.

Inductive ExportKind : Type := ExportFunc | ExportTable | ExportMemory | ExportGlobal.

Definition ExportKind_code (k : ExportKind) : byte :=
  match k with
  | ExportFunc => x00 | ExportTable => x01 | ExportMemory => x02 | ExportGlobal => x03
  end.

Definition ExportKind_name (k : ExportKind) : bytes :=
  match k with
  | ExportFunc => str "func" | ExportTable => str "table"
  | ExportMemory => str "memory" | ExportGlobal => str "global"
  end.

Record Export_ : Type := mkExport {
  x_name : bytes;
  x_kind : ExportKind;
  x_index : Z;
}.

(** The closure of the export section. *)
Definition encode_export (x : Export_) : bytes :=
  wasm_name (x_name x) ++ [ExportKind_code (x_kind x)] ++ uleb (x_index x).

(** ** Functions *)

Record Func : Type := mkFunc {
  f_locals : list (Z * ValType);
  f_body : bytes;
  f_text : bytes;
}.

Definition encode_local (l : Z * ValType) : bytes := uleb l.1 ++ [ValType_code l.2].

Definition func_inner (f : Func) : bytes :=
  uleb (zlen (f_locals f)) ++ concat (map encode_local (f_locals f)) ++ f_body f.

Definition encode_func (f : Func) : bytes :=
  let inner := func_inner f in uleb (zlen inner) ++ inner.

Definition locals_text (locals : list (Z * ValType)) : bytes :=
  join (str ", ") (map (fun l => dec l.1 ++ str "×" ++ ValType_name l.2) locals).

(** ** Segments *)

Inductive ElemMode : Type :=
| ElemActive (table : Z) (offset : bytes)
| ElemPassive
| ElemDeclarative.

Record Elem : Type := mkElem {
  el_mode : ElemMode;
  el_ty : ValType;
  el_funcs : list Z;
  el_exprs : list bytes;
}.

Definition encode_elem (e : Elem) : bytes :=
  let use_exprs := match el_exprs e with [] => false | _ => true end in
  let funcs := vector (map uleb (el_funcs e)) in
  let exprs := vector (el_exprs e) in
  let ty := [ValType_code (el_ty e)] in
  match el_mode e, use_exprs with
  | ElemActive 0 offset, false => [x00] ++ offset ++ funcs
  | ElemPassive, false => [x01] ++ [x00] ++ funcs
  | ElemActive table offset, false => [x02] ++ uleb table ++ offset ++ [x00] ++ funcs
  | ElemDeclarative, false => [x03] ++ [x00] ++ funcs
  | ElemActive table offset, true =>
      if bool_decide (table = 0 /\ el_ty e = FuncRef)
      then [x04] ++ offset ++ exprs
      else [x06] ++ uleb table ++ offset ++ ty ++ exprs
  | ElemPassive, true => [x05] ++ ty ++ exprs
  | ElemDeclarative, true => [x07] ++ ty ++ exprs
  end.

Definition elem_text (e : Elem) : bytes :=
  let what :=
    match el_exprs e with
    | [] => dec (zlen (el_funcs e)) ++ str " funcs " ++ debug_list (map dec (el_funcs e))
    | _ => dec (zlen (el_exprs e)) ++ str " element expressions"
    end in
  match el_mode e with
  | ElemActive table _ => str "active into table " ++ dec table ++ str ", " ++ what
  | ElemPassive => str "passive, " ++ what
  | ElemDeclarative => str "declarative, " ++ what
  end.

Inductive DataMode : Type :=
| DataActive (memory : Z) (offset : bytes)
| DataPassive.

Record Data : Type := mkData {
  d_mode : DataMode;
  d_bytes : bytes;
}.

Definition encode_data (d : Data) : bytes :=
  match d_mode d with
  | DataActive 0 offset => [x00] ++ offset
  | DataPassive => [x01]
  | DataActive memory offset => [x02] ++ uleb memory ++ offset
  end ++ uleb (zlen (d_bytes d)) ++ d_bytes d.

Definition data_text (d : Data) : bytes :=
  let preview := map printable (take 16 (d_bytes d)) in
  let n := dec (zlen (d_bytes d)) in
  match d_mode d with
  | DataActive memory _ =>
      str "active into memory " ++ dec memory ++ str ", " ++ n ++ str " bytes '" ++ preview ++ str "'"
  | DataPassive => str "passive, " ++ n ++ str " bytes '" ++ preview ++ str "'"
  end.

Record Custom : Type := mkCustom {
  c_name : bytes;
  c_payload : bytes;
  c_after : option Z;
}.

(** ** Constant expressions *)

Definition const_i32 (v : Z) : bytes := [x41] ++ sleb v ++ [x0b].
Definition const_i64 (v : Z) : bytes := [x42] ++ sleb v ++ [x0b].
Definition const_f32 (bits : Z) : bytes := [x43] ++ le_bytes 4 bits ++ [x0b].
Definition const_f64 (bits : Z) : bytes := [x44] ++ le_bytes 8 bits ++ [x0b].
Definition const_global_get (n : Z) : bytes := [x23] ++ uleb n ++ [x0b].
Definition const_ref_null (t : ValType) : bytes := [xd0; ValType_code t; x0b].
Definition const_ref_func (n : Z) : bytes := [xd2] ++ uleb n ++ [x0b].

Definition global_i32 (v : Z) (mutable : bool) : Global :=
  mkGlobal I32 mutable (const_i32 v) (str "i32.const " ++ dec_signed v).
Definition global_i64 (v : Z) (mutable : bool) : Global :=
  mkGlobal I64 mutable (const_i64 v) (str "i64.const " ++ dec_signed v).
