(* ===== verification/WasmBuild.v ===== *)
(** * The module builder (wasmtest: wasm/encode.rs)

  [ModuleBuilder] collects the parts of a module; [build] writes them section by
  section, in the order the binary format fixes, each custom section after the
  section it names, and annotates every item.  Each [emit_*] is one section of
  [build], in the order of the source. *)

From S2P Require Import Prelude Text WasmLeb WasmEnc WasmTypes.

(** ** The builder *)

Record ModuleBuilder : Type := mkBuilder {
  b_label : bytes;
  b_types : list FuncType;
  b_imports : list Import;
  b_funcs : list Z;
  b_tables : list TableType;
  b_memories : list Limits;
  b_globals : list Global;
  b_exports : list Export_;
  b_start : option Z;
  b_elems : list Elem;
  b_code : list Func;
  b_data : list Data;
  b_force_data_count : bool;
  b_customs : list Custom;
}.

Definition builder_new (label : bytes) : ModuleBuilder :=
  mkBuilder label [] [] [] [] [] [] [] None [] [] [] false [].

Definition set_types (ts : list FuncType) (m : ModuleBuilder) : ModuleBuilder :=
  mkBuilder (b_label m) ts (b_imports m) (b_funcs m) (b_tables m) (b_memories m)
    (b_globals m) (b_exports m) (b_start m) (b_elems m) (b_code m) (b_data m)
    (b_force_data_count m) (b_customs m).

(** [iter().position(|x| *x == t)]. *)
Fixpoint position {A} `{EqDecision A} (t : A) (l : list A) : option nat :=
  match l with
  | [] => None
  | a :: l => if decide (a = t) then Some 0%nat else S <$> position t l
  end.

(** [as u32] of an index, and [len() as u32 - 1] after a push. *)
Definition add_type (t : FuncType) (m : ModuleBuilder) : Z * ModuleBuilder :=
  match position t (b_types m) with
  | Some i => (wrap_u 32 (Z.of_nat i), m)
  | None =>
      let m := set_types (b_types m ++ [t]) m in
      (wrap_u 32 (zlen (b_types m)) - 1, m)
  end.

Definition func_type (t : FuncType) (m : ModuleBuilder) : ModuleBuilder := (add_type t m).2.

Definition import (module name : bytes) (kind : ImportKind) (m : ModuleBuilder) : ModuleBuilder :=
  mkBuilder (b_label m) (b_types m) (b_imports m ++ [mkImport module name kind]) (b_funcs m)
    (b_tables m) (b_memories m) (b_globals m) (b_exports m) (b_start m) (b_elems m)
    (b_code m) (b_data m) (b_force_data_count m) (b_customs m).

Definition is_func_import (i : Import) : bool :=
  match i_kind i with ImportFunc _ => true | _ => false end.

Definition imported_funcs (m : ModuleBuilder) : Z :=
  wrap_u 32 (zlen (filter (fun i => is_func_import i = true) (b_imports m))).

Definition add_func (ty : Z) (body : Func) (m : ModuleBuilder) : Z * ModuleBuilder :=
  let m :=
    mkBuilder (b_label m) (b_types m) (b_imports m) (b_funcs m ++ [ty]) (b_tables m)
      (b_memories m) (b_globals m) (b_exports m) (b_start m) (b_elems m)
      (b_code m ++ [body]) (b_data m) (b_force_data_count m) (b_customs m) in
  (imported_funcs m + wrap_u 32 (zlen (b_funcs m)) - 1, m).

Definition function (ty : Z) (body : Func) (m : ModuleBuilder) : ModuleBuilder :=
  (add_func ty body m).2.

Definition add_typed_func (sig : FuncType) (body : Func) (m : ModuleBuilder) : Z * ModuleBuilder :=
  let '(ty, m) := add_type sig m in add_func ty body m.

Definition table (t : TableType) (m : ModuleBuilder) : ModuleBuilder :=
  mkBuilder (b_label m) (b_types m) (b_imports m) (b_funcs m) (b_tables m ++ [t])
    (b_memories m) (b_globals m) (b_exports m) (b_start m) (b_elems m) (b_code m)
    (b_data m) (b_force_data_count m) (b_customs m).

Definition memory (l : Limits) (m : ModuleBuilder) : ModuleBuilder :=
  mkBuilder (b_label m) (b_types m) (b_imports m) (b_funcs m) (b_tables m)
    (b_memories m ++ [l]) (b_globals m) (b_exports m) (b_start m) (b_elems m) (b_code m)
    (b_data m) (b_force_data_count m) (b_customs m).

Definition global (g : Global) (m : ModuleBuilder) : ModuleBuilder :=
  mkBuilder (b_label m) (b_types m) (b_imports m) (b_funcs m) (b_tables m) (b_memories m)
    (b_globals m ++ [g]) (b_exports m) (b_start m) (b_elems m) (b_code m) (b_data m)
    (b_force_data_count m) (b_customs m).

Definition export (name : bytes) (kind : ExportKind) (index : Z) (m : ModuleBuilder) : ModuleBuilder :=
  mkBuilder (b_label m) (b_types m) (b_imports m) (b_funcs m) (b_tables m) (b_memories m)
    (b_globals m) (b_exports m ++ [mkExport name kind index]) (b_start m) (b_elems m)
    (b_code m) (b_data m) (b_force_data_count m) (b_customs m).

Definition export_func (name : bytes) (index : Z) (m : ModuleBuilder) : ModuleBuilder :=
  export name ExportFunc index m.

Definition export_memory (m : ModuleBuilder) : ModuleBuilder :=
  export (str "memory") ExportMemory 0 m.

Definition start (index : Z) (m : ModuleBuilder) : ModuleBuilder :=
  mkBuilder (b_label m) (b_types m) (b_imports m) (b_funcs m) (b_tables m) (b_memories m)
    (b_globals m) (b_exports m) (Some index) (b_elems m) (b_code m) (b_data m)
    (b_force_data_count m) (b_customs m).

Definition elem (e : Elem) (m : ModuleBuilder) : ModuleBuilder :=
  mkBuilder (b_label m) (b_types m) (b_imports m) (b_funcs m) (b_tables m) (b_memories m)
    (b_globals m) (b_exports m) (b_start m) (b_elems m ++ [e]) (b_code m) (b_data m)
    (b_force_data_count m) (b_customs m).

Definition elem_active (offset : Z) (funcs : list Z) (m : ModuleBuilder) : ModuleBuilder :=
  elem (mkElem (ElemActive 0 (const_i32 offset)) FuncRef funcs []) m.

Definition data (d : Data) (m : ModuleBuilder) : ModuleBuilder :=
  mkBuilder (b_label m) (b_types m) (b_imports m) (b_funcs m) (b_tables m) (b_memories m)
    (b_globals m) (b_exports m) (b_start m) (b_elems m) (b_code m) (b_data m ++ [d])
    (b_force_data_count m) (b_customs m).

Definition data_active (offset : Z) (bs : bytes) (m : ModuleBuilder) : ModuleBuilder :=
  data (mkData (DataActive 0 (const_i32 offset)) bs) m.

Definition data_passive (bs : bytes) (m : ModuleBuilder) : ModuleBuilder :=
  data (mkData DataPassive bs) m.

Definition with_data_count (m : ModuleBuilder) : ModuleBuilder :=
  mkBuilder (b_label m) (b_types m) (b_imports m) (b_funcs m) (b_tables m) (b_memories m)
    (b_globals m) (b_exports m) (b_start m) (b_elems m) (b_code m) (b_data m) true
    (b_customs m).

Definition custom (name payload : bytes) (after : option Z) (m : ModuleBuilder) : ModuleBuilder :=
  mkBuilder (b_label m) (b_types m) (b_imports m) (b_funcs m) (b_tables m) (b_memories m)
    (b_globals m) (b_exports m) (b_start m) (b_elems m) (b_code m) (b_data m)
    (b_force_data_count m) (b_customs m ++ [mkCustom name payload after]).

Definition is_passive (d : Data) : bool :=
  match d_mode d with DataPassive => true | _ => false end.

Definition needs_data_count (m : ModuleBuilder) : bool :=
  b_force_data_count m || existsb is_passive (b_data m).

(** ** Writing the sections *)

(** The loop every section of items ends with: one annotation per item, [pos]
  moving past it. *)
Fixpoint annotate_items {T} (note : nat -> T -> bytes * bytes) (i : nat)
    (items : list (T * bytes)) (pos : Z) (e : Enc) : Enc :=
  match items with
  | [] => e
  | (t, bs) :: items =>
      let e := annotate pos (zlen bs) (note i t).1 (note i t).2 e in
      annotate_items note (S i) items (pos + zlen bs) e
  end.

(** The first item of a section written at [at_]: past the id, the size and the count. *)
Definition items_pos (at_ : Z) (body : bytes) (items : list bytes) : Z :=
  at_ + 1 + zlen (uleb (zlen body)) + zlen (uleb (zlen items)).

Definition indexed (name : bytes) (i : Z) : bytes := name ++ str "[" ++ dec i ++ str "]".

Definition custom_body (c : Custom) : bytes := wasm_name (c_name c) ++ c_payload c.

(** One round of the closure [customs_after]. *)
Definition emit_custom (e : Enc) (c : Custom) : Enc :=
  let body := custom_body c in
  let p := at_ e in
  let e := section CUSTOM body e in
  annotate (p + 2) (zlen body) (str "custom[" ++ c_name c ++ str "]")
    (str "name '" ++ c_name c ++ str "', " ++ dec (zlen (c_payload c)) ++ str " payload bytes") e.

Definition customs_at (m : ModuleBuilder) (id : option Z) : list Custom :=
  filter (fun c => c_after c = id) (b_customs m).

Definition customs_after (m : ModuleBuilder) (id : option Z) (e : Enc) : Enc :=
  fold_left emit_custom (customs_at m id) e.

Definition emit_types (m : ModuleBuilder) (e : Enc) : Enc :=
  match b_types m with
  | [] => e
  | _ =>
      let items := map FuncType_encode (b_types m) in
      let body := vector items in
      let p := at_ e in
      let e := section TYPE body e in
      annotate_items (fun i t => (indexed (str "type") (Z.of_nat i), FuncType_text t)) 0
        (zip (b_types m) items) (items_pos p body items) e
  end.

(** [self.types.get(t).map(text).unwrap_or_else(..)]. *)
Definition type_text (m : ModuleBuilder) (t : Z) : bytes :=
  match b_types m !! Z.to_nat t with
  | Some ty => FuncType_text ty
  | None => str "(no such type)"
  end.

Definition mut_text (mutable : bool) : bytes := if mutable then str "mut" else str "const".

Definition import_text (kind : ImportKind) (m : ModuleBuilder) : bytes :=
  match kind with
  | ImportFunc t => str "func type " ++ dec t ++ str " " ++ type_text m t
  | ImportTable t =>
      str "table " ++ ValType_name (t_elem t) ++ str ", " ++ Limits_text (t_limits t)
  | ImportMemory l => str "memory " ++ Limits_text l
  | ImportGlobal ty mutable =>
      str "global " ++ mut_text mutable ++ str " " ++ ValType_name ty
  end.

Definition emit_imports (m : ModuleBuilder) (e : Enc) : Enc :=
  match b_imports m with
  | [] => e
  | _ =>
      let items := map encode_import (b_imports m) in
      let body := vector items in
      let p := at_ e in
      let e := section IMPORT body e in
      annotate_items
        (fun i imp => (indexed (str "import") (Z.of_nat i),
           i_module imp ++ str "::" ++ i_name imp ++ str " — " ++ import_text (i_kind imp) m)) 0
        (zip (b_imports m) items) (items_pos p body items) e
  end.

Definition emit_functions (m : ModuleBuilder) (e : Enc) : Enc :=
  match b_funcs m with
  | [] => e
  | _ =>
      let items := map uleb (b_funcs m) in
      let body := vector items in
      let p := at_ e in
      let e := section FUNCTION body e in
      let base := imported_funcs m in
      annotate_items
        (fun i ty => (indexed (str "function") (base + Z.of_nat i),
           str "type " ++ dec ty ++ str " " ++ type_text m ty)) 0
        (zip (b_funcs m) items) (items_pos p body items) e
  end.

Definition emit_tables (m : ModuleBuilder) (e : Enc) : Enc :=
  match b_tables m with
  | [] => e
  | _ =>
      let items := map encode_table (b_tables m) in
      let body := vector items in
      let p := at_ e in
      let e := section TABLE body e in
      annotate_items
        (fun i t => (indexed (str "table") (Z.of_nat i),
           ValType_name (t_elem t) ++ str ", " ++ Limits_text (t_limits t))) 0
        (zip (b_tables m) items) (items_pos p body items) e
  end.

Definition emit_memories (m : ModuleBuilder) (e : Enc) : Enc :=
  match b_memories m with
  | [] => e
  | _ =>
      let items := map Limits_encode (b_memories m) in
      let body := vector items in
      let p := at_ e in
      let e := section MEMORY body e in
      annotate_items
        (fun i l => (indexed (str "memory") (Z.of_nat i), Limits_text l ++ str " (64 KiB pages)")) 0
        (zip (b_memories m) items) (items_pos p body items) e
  end.

Definition emit_globals (m : ModuleBuilder) (e : Enc) : Enc :=
  match b_globals m with
  | [] => e
  | _ =>
      let items := map encode_global (b_globals m) in
      let body := vector items in
      let p := at_ e in
      let e := section GLOBAL body e in
      annotate_items
        (fun i g => (indexed (str "global") (Z.of_nat i),
           mut_text (g_mutable g) ++ str " " ++ ValType_name (g_ty g) ++ str ", init " ++ g_init_text g)) 0
        (zip (b_globals m) items) (items_pos p body items) e
  end.

Definition emit_exports (m : ModuleBuilder) (e : Enc) : Enc :=
  match b_exports m with
  | [] => e
  | _ =>
      let items := map encode_export (b_exports m) in
      let body := vector items in
      let p := at_ e in
      let e := section EXPORT body e in
      annotate_items
        (fun i x => (indexed (str "export") (Z.of_nat i),
           str "'" ++ x_name x ++ str "' → " ++ ExportKind_name (x_kind x) ++ str " " ++ dec (x_index x))) 0
        (zip (b_exports m) items) (items_pos p body items) e
  end.

Definition emit_start (m : ModuleBuilder) (e : Enc) : Enc :=
  match b_start m with
  | None => e
  | Some s =>
      let body := uleb s in
      let p := at_ e in
      let e := section START body e in
      annotate (p + 1 + zlen (uleb (zlen body))) (zlen body) (str "start.func")
        (str "function " ++ dec s ++ str " runs before any export is callable") e
  end.

Definition emit_elems (m : ModuleBuilder) (e : Enc) : Enc :=
  match b_elems m with
  | [] => e
  | _ =>
      let items := map encode_elem (b_elems m) in
      let body := vector items in
      let p := at_ e in
      let e := section ELEMENT body e in
      annotate_items (fun i el => (indexed (str "elem") (Z.of_nat i), elem_text el)) 0
        (zip (b_elems m) items) (items_pos p body items) e
  end.

Definition emit_data_count (m : ModuleBuilder) (e : Enc) : Enc :=
  if needs_data_count m then
    let body := uleb (zlen (b_data m)) in
    let p := at_ e in
    let e := section DATA_COUNT body e in
    annotate (p + 1 + zlen (uleb (zlen body))) (zlen body) (str "data_count.count")
      (dec (zlen (b_data m)) ++ str " data segments, declared before the code section") e
  else e.

(** Where the size prefix of an encoded function ends, as [build] computes it. *)
Definition size_len (bs : bytes) : Z := zlen (uleb (zlen bs - zlen (uleb (zlen bs)))).

Definition code_value (f : Func) : bytes :=
  match f_locals f with
  | [] => f_text f
  | _ => str "locals " ++ locals_text (f_locals f) ++ str "; " ++ f_text f
  end.

(** The loop of the code section: two annotations per function. *)
Fixpoint annotate_code (base : Z) (i : nat) (items : list (Func * bytes)) (pos : Z) (e : Enc) : Enc :=
  match items with
  | [] => e
  | (f, bs) :: items =>
      let n := size_len bs in
      let name := indexed (str "code") (base + Z.of_nat i) in
      let e := annotate pos n (name ++ str ".size") (dec (zlen bs - n) ++ str " bytes") e in
      let e := annotate (pos + n) (zlen bs - n) (name ++ str ".body") (code_value f) e in
      annotate_code base (S i) items (pos + zlen bs) e
  end.

Definition emit_code (m : ModuleBuilder) (e : Enc) : Enc :=
  match b_code m with
  | [] => e
  | _ =>
      let items := map encode_func (b_code m) in
      let body := vector items in
      let p := at_ e in
      let e := section CODE body e in
      annotate_code (imported_funcs m) 0 (zip (b_code m) items) (items_pos p body items) e
  end.

Definition emit_data (m : ModuleBuilder) (e : Enc) : Enc :=
  match b_data m with
  | [] => e
  | _ =>
      let items := map encode_data (b_data m) in
      let body := vector items in
      let p := at_ e in
      let e := section DATA body e in
      annotate_items (fun i d => (indexed (str "data") (Z.of_nat i), data_text d)) 0
        (zip (b_data m) items) (items_pos p body items) e
  end.

(** ** The whole module *)

Definition build (m : ModuleBuilder) : WModule :=
  let e := with_header in
  let e := customs_after m None e in
  let e := emit_types m e in
  let e := customs_after m (Some TYPE) e in
  let e := emit_imports m e in
  let e := customs_after m (Some IMPORT) e in
  let e := emit_functions m e in
  let e := customs_after m (Some FUNCTION) e in
  let e := emit_tables m e in
  let e := customs_after m (Some TABLE) e in
  let e := emit_memories m e in
  let e := customs_after m (Some MEMORY) e in
  let e := emit_globals m e in
  let e := customs_after m (Some GLOBAL) e in
  let e := emit_exports m e in
  let e := customs_after m (Some EXPORT) e in
  let e := emit_start m e in
  let e := customs_after m (Some START) e in
  let e := emit_elems m e in
  let e := customs_after m (Some ELEMENT) e in
  let e := emit_data_count m e in
  let e := customs_after m (Some DATA_COUNT) e in
  let e := emit_code m e in
  let e := customs_after m (Some CODE) e in
  let e := emit_data m e in
  let e := customs_after m (Some DATA) e in
  finish e (b_label m).
