(* ===== verification/WasmAnns.v ===== *)
(** * What the module builder writes, region by region, and the indices it hands out
  (wasmtest: wasm/encode.rs)

  The specification of [build]: a module is its header and a list of sections,
  each an id and a list of chunks, a chunk being some bytes and the note they
  are annotated with.  [build_writes] shows that the builder writes exactly
  those chunks with exactly those notes; the theorems about annotations are read
  off it. *)

From S2P Require Import Prelude Text WasmLeb WasmEnc WasmTypes WasmBuild.

#[local] Ltac Zify.zify_post_hook ::= Z.to_euclidean_division_equations.

(** ** Chunks *)

(** [k_back] is how many bytes before the chunk its annotation starts: nothing,
  except for a custom section whose size takes several bytes. *)
Record chunk : Type := mkChunk {
  k_note : option (bytes * bytes);
  k_bytes : bytes;
  k_back : Z;
}.

Definition plain (bs : bytes) : chunk := mkChunk None bs 0.
Definition noted (field value bs : bytes) : chunk := mkChunk (Some (field, value)) bs 0.

Definition flat (cs : list chunk) : bytes := concat (map k_bytes cs).

Definition ann_of (pos : Z) (c : chunk) : list Ann :=
  match k_note c with
  | Some (field, value) => [mkAnn (pos - k_back c) (zlen (k_bytes c)) field value]
  | None => []
  end.

Fixpoint anns_at (pos : Z) (cs : list chunk) : list Ann :=
  match cs with
  | [] => []
  | c :: cs => ann_of pos c ++ anns_at (pos + zlen (k_bytes c)) cs
  end.

(** Appending chunks to a sink. *)
Definition write (cs : list chunk) (e : Enc) : Enc :=
  mkEnc (e_buf e ++ flat cs) (e_anns e ++ anns_at (zlen (e_buf e)) cs).

Lemma flat_app a b : flat (a ++ b) = flat a ++ flat b.
Proof. unfold flat. by rewrite map_app, concat_app. Qed.

Lemma flat_cons c cs : flat (c :: cs) = k_bytes c ++ flat cs.
Proof. done. Qed.

Lemma anns_at_app pos a b : anns_at pos (a ++ b) = anns_at pos a ++ anns_at (pos + zlen (flat a)) b.
Proof.
  revert pos. induction a as [|c a IH]; intros pos.
  - cbn [app anns_at flat map concat]. by rewrite Z.add_0_r.
  - cbn [app anns_at]. rewrite IH, app_assoc, flat_cons, zlen_app. by rewrite Z.add_assoc.
Qed.

Lemma write_nil e : write [] e = e.
Proof. destruct e. unfold write. cbn. by rewrite !app_nil_r. Qed.

Lemma write_app a b e : write (a ++ b) e = write b (write a e).
Proof.
  unfold write. cbn [e_buf e_anns]. by rewrite flat_app, anns_at_app, zlen_app, !app_assoc.
Qed.

(** ** The sections of a module *)

Definition section_chunks (s : Z * list chunk) : list chunk :=
  let body := flat s.2 in
  noted (section_field s.1 (str "id")) (section_name s.1) [z2b s.1] ::
  noted (section_field s.1 (str "size")) (dec (zlen body) ++ str " bytes") (uleb (zlen body)) ::
  s.2.

(** A section of items: the count, then one chunk per item. *)
Definition items_chunks {T} (note : nat -> T -> bytes * bytes) (enc : T -> bytes) (ts : list T)
    : list chunk :=
  plain (uleb (zlen ts)) ::
  imap (fun i t => noted (note i t).1 (note i t).2 (enc t)) ts.

Definition items_section {T} (id : Z) (note : nat -> T -> bytes * bytes) (enc : T -> bytes)
    (ts : list T) : list (Z * list chunk) :=
  match ts with [] => [] | _ => [(id, items_chunks note enc ts)] end.

Definition custom_section (c : Custom) : Z * list chunk :=
  let body := custom_body c in
  (CUSTOM, [mkChunk (Some (str "custom[" ++ c_name c ++ str "]",
              str "name '" ++ c_name c ++ str "', " ++ dec (zlen (c_payload c)) ++ str " payload bytes"))
            body (zlen (uleb (zlen body)) - 1)]).

Definition customs_sections (m : ModuleBuilder) (id : option Z) : list (Z * list chunk) :=
  map custom_section (customs_at m id).

Definition code_chunks (base : Z) (i : nat) (f : Func) : list chunk :=
  let name := indexed (str "code") (base + Z.of_nat i) in
  let inner := func_inner f in
  [noted (name ++ str ".size") (dec (zlen inner) ++ str " bytes") (uleb (zlen inner));
   noted (name ++ str ".body") (code_value f) inner].

Definition code_section (m : ModuleBuilder) : list (Z * list chunk) :=
  match b_code m with
  | [] => []
  | fs => [(CODE, plain (uleb (zlen fs)) :: concat (imap (code_chunks (imported_funcs m)) fs))]
  end.

Definition start_section (m : ModuleBuilder) : list (Z * list chunk) :=
  match b_start m with
  | None => []
  | Some s => [(START, [noted (str "start.func")
                 (str "function " ++ dec s ++ str " runs before any export is callable") (uleb s)])]
  end.

Definition data_count_section (m : ModuleBuilder) : list (Z * list chunk) :=
  if needs_data_count m
  then [(DATA_COUNT, [noted (str "data_count.count")
           (dec (zlen (b_data m)) ++ str " data segments, declared before the code section")
           (uleb (zlen (b_data m)))])]
  else [].

(** The sections of the module, in the order they are written. *)
Definition sections (m : ModuleBuilder) : list (Z * list chunk) :=
  customs_sections m None ++
  items_section TYPE (fun i t => (indexed (str "type") (Z.of_nat i), FuncType_text t))
    FuncType_encode (b_types m) ++
  customs_sections m (Some TYPE) ++
  items_section IMPORT
    (fun i imp => (indexed (str "import") (Z.of_nat i),
       i_module imp ++ str "::" ++ i_name imp ++ str " — " ++ import_text (i_kind imp) m))
    encode_import (b_imports m) ++
  customs_sections m (Some IMPORT) ++
  items_section FUNCTION
    (fun i ty => (indexed (str "function") (imported_funcs m + Z.of_nat i),
       str "type " ++ dec ty ++ str " " ++ type_text m ty)) uleb (b_funcs m) ++
  customs_sections m (Some FUNCTION) ++
  items_section TABLE
    (fun i t => (indexed (str "table") (Z.of_nat i),
       ValType_name (t_elem t) ++ str ", " ++ Limits_text (t_limits t))) encode_table (b_tables m) ++
  customs_sections m (Some TABLE) ++
  items_section MEMORY
    (fun i l => (indexed (str "memory") (Z.of_nat i), Limits_text l ++ str " (64 KiB pages)"))
    Limits_encode (b_memories m) ++
  customs_sections m (Some MEMORY) ++
  items_section GLOBAL
    (fun i g => (indexed (str "global") (Z.of_nat i),
       mut_text (g_mutable g) ++ str " " ++ ValType_name (g_ty g) ++ str ", init " ++ g_init_text g))
    encode_global (b_globals m) ++
  customs_sections m (Some GLOBAL) ++
  items_section EXPORT
    (fun i x => (indexed (str "export") (Z.of_nat i),
       str "'" ++ x_name x ++ str "' → " ++ ExportKind_name (x_kind x) ++ str " " ++ dec (x_index x)))
    encode_export (b_exports m) ++
  customs_sections m (Some EXPORT) ++
  start_section m ++
  customs_sections m (Some START) ++
  items_section ELEMENT (fun i el => (indexed (str "elem") (Z.of_nat i), elem_text el))
    encode_elem (b_elems m) ++
  customs_sections m (Some ELEMENT) ++
  data_count_section m ++
  customs_sections m (Some DATA_COUNT) ++
  code_section m ++
  customs_sections m (Some CODE) ++
  items_section DATA (fun i d => (indexed (str "data") (Z.of_nat i), data_text d))
    encode_data (b_data m) ++
  customs_sections m (Some DATA).

Definition header_chunks : list chunk :=
  [noted (str "header.magic") (str "\0asm") magic;
   noted (str "header.version") (str "1 (little-endian)") (le_bytes 4 1)].

Definition chunks (m : ModuleBuilder) : list chunk :=
  header_chunks ++ concat (map section_chunks (sections m)).

(** ** Each section is written as its chunks *)

(** [write_all ss e]: the sections [ss] appended to [e]. *)
Definition write_all (ss : list (Z * list chunk)) (e : Enc) : Enc :=
  write (concat (map section_chunks ss)) e.

Lemma write_all_app a b e : write_all (a ++ b) e = write_all b (write_all a e).
Proof. unfold write_all. by rewrite map_app, concat_app, write_app. Qed.

Lemma write_all_nil e : write_all [] e = e.
Proof. apply write_nil. Qed.

(** A section with its annotations added afterwards is the section's chunks. *)
Lemma section_then id cs e anns :
  anns = anns_at (at_ e + 1 + zlen (uleb (zlen (flat cs)))) cs ->
  mkEnc (e_buf (section id (flat cs) e)) (e_anns (section id (flat cs) e) ++ anns) =
    write_all [(id, cs)] e.
Proof.
  intros ->. unfold write_all, section, write, raw, put, at_. cbn [map concat e_buf e_anns].
  rewrite app_nil_r. unfold section_chunks. cbn [fst snd]. rewrite !flat_cons.
  cbn [anns_at ann_of k_note k_bytes k_back noted]. f_equal; rewrite <- !app_assoc; [done|].
  cbn [app]. rewrite !zlen_app, !Z.sub_0_r. done.
Qed.

Lemma annotate_items_eq {T} (note : nat -> T -> bytes * bytes) (enc : T -> bytes) ts :
  forall i pos e,
  annotate_items note i (zip ts (map enc ts)) pos e =
    mkEnc (e_buf e)
      (e_anns e ++ anns_at pos
         (imap (fun j t => noted (note (i + j)%nat t).1 (note (i + j)%nat t).2 (enc t)) ts)).
Proof.
  induction ts as [|t ts IH]; intros i pos e.
  - destruct e. cbn. by rewrite app_nil_r.
  - cbn [map zip zip_with annotate_items imap]. rewrite IH.
    unfold annotate. cbn [e_buf e_anns anns_at]. unfold ann_of. cbn [k_note k_bytes k_back noted].
    rewrite Z.sub_0_r, Nat.add_0_r, <- app_assoc. do 4 f_equal.
    apply imap_ext. intros j x _. cbn. by rewrite Nat.add_succ_r.
Qed.

Lemma flat_imap_noted {T} (note : nat -> T -> bytes * bytes) (enc : T -> bytes) ts :
  flat (imap (fun i t => noted (note i t).1 (note i t).2 (enc t)) ts) = concat (map enc ts).
Proof.
  revert note. induction ts as [|t ts IH]; intros note; [done|].
  cbn [imap map concat]. rewrite flat_cons. f_equal. apply (IH (note ∘ S)).
Qed.

Lemma flat_items {T} (note : nat -> T -> bytes * bytes) (enc : T -> bytes) ts :
  flat (items_chunks note enc ts) = vector (map enc ts).
Proof.
  unfold items_chunks, vector. rewrite flat_cons, flat_imap_noted. unfold zlen.
  by rewrite length_map.
Qed.

Lemma anns_items {T} pos (note : nat -> T -> bytes * bytes) (enc : T -> bytes) ts :
  anns_at pos (items_chunks note enc ts) =
    anns_at (pos + zlen (uleb (zlen ts)))
      (imap (fun i t => noted (note i t).1 (note i t).2 (enc t)) ts).
Proof. reflexivity. Qed.

Lemma zlen_map {A B} (f : A -> B) l : zlen (map f l) = zlen l.
Proof. unfold zlen. by rewrite length_map. Qed.

(** The nine sections of items have one proof. *)
Lemma emit_items {T} id (note : nat -> T -> bytes * bytes) (enc : T -> bytes) ts e :
  let items := map enc ts in
  annotate_items note 0 (zip ts items) (items_pos (at_ e) (vector items) items)
    (section id (vector items) e) = write_all [(id, items_chunks note enc ts)] e.
Proof.
  intros items. unfold items. rewrite annotate_items_eq, <- (flat_items note enc ts).
  apply section_then. unfold items_pos. by rewrite anns_items, zlen_map.
Qed.

Lemma emit_custom_eq c e : emit_custom e c = write_all [custom_section c] e.
Proof.
  unfold emit_custom, annotate, custom_section. rewrite <- section_then with (anns :=
    [mkAnn (at_ e + 2) (zlen (custom_body c)) (str "custom[" ++ c_name c ++ str "]")
       (str "name '" ++ c_name c ++ str "', " ++ dec (zlen (c_payload c)) ++ str " payload bytes")]).
  - unfold flat. cbn [map concat k_bytes]. by rewrite app_nil_r.
  - unfold flat. cbn [map concat k_bytes]. rewrite app_nil_r.
    cbn [anns_at ann_of k_note k_bytes k_back app]. do 2 f_equal. lia.
Qed.

Lemma customs_after_eq m id e : customs_after m id e = write_all (customs_sections m id) e.
Proof.
  unfold customs_after, customs_sections. revert e.
  induction (customs_at m id) as [|c cs IH]; intros e; [symmetry; apply write_all_nil|].
  cbn [fold_left map]. rewrite IH, emit_custom_eq.
  by rewrite <- write_all_app.
Qed.

(** ** The code section *)

(** [n] bytes of size are fewer than the bytes they can count. *)
Lemma lin_pow128 (n : nat) : Z.of_nat n < 128 ^ Z.of_nat n.
Proof. apply Z.pow_gt_lin_r; lia. Qed.

(** The builder recovers the width of the size prefix from the length of the
  whole entry; it is right at the boundaries of LEB128 as well. *)
Lemma size_len_encode f :
  zlen (encode_func f) < 2 ^ 64 ->
  size_len (encode_func f) = zlen (uleb (zlen (func_inner f))).
Proof.
  unfold encode_func, size_len. set (L := zlen (func_inner f)).
  pose proof (zlen_nonneg (func_inner f)) as H0. fold L in H0.
  rewrite zlen_app. fold L. intros HT.
  assert (in_u 64 L) as HL by (pose proof (zlen_nonneg (uleb L)); split; lia).
  destruct (uleb_least L HL) as (n & _ & Hn & Hl).
  assert (zlen (uleb L) = Z.of_nat (S n)) as Hk by (apply zlen_uleb; [done|lia|done]).
  rewrite Hk in *. pose proof (lin_pow128 n) as Hlin. pose proof (pow128_S n) as HS.
  assert (in_u 64 (Z.of_nat (S n) + L)) as HT' by (split; lia).
  destruct (Z.lt_ge_cases (Z.of_nat (S n) + L) (128 ^ Z.of_nat (S n))) as [Hc|Hc].
  - rewrite (zlen_uleb (Z.of_nat (S n) + L) n); [|done|lia|destruct Hl; [by left|right; lia]].
    by replace (Z.of_nat (S n) + L - Z.of_nat (S n)) with L by lia.
  - rewrite (zlen_uleb (Z.of_nat (S n) + L) (S n)); [|done| |by right].
    2: { rewrite pow128_S. lia. }
    apply zlen_uleb; [split; lia|lia|].
    destruct n as [|n]; [by left|right]. pose proof (pow128_S n). lia.
Qed.

Lemma zlen_encode_func f :
  zlen (encode_func f) = zlen (uleb (zlen (func_inner f))) + zlen (func_inner f).
Proof. unfold encode_func. by rewrite zlen_app. Qed.

Lemma flat_code base i f : flat (code_chunks base i f) = encode_func f.
Proof. unfold flat, code_chunks. cbn [map concat k_bytes noted]. by rewrite app_nil_r. Qed.

Lemma anns_code base i f pos :
  let n := zlen (uleb (zlen (func_inner f))) in
  let name := indexed (str "code") (base + Z.of_nat i) in
  anns_at pos (code_chunks base i f) =
    [mkAnn pos n (name ++ str ".size") (dec (zlen (func_inner f)) ++ str " bytes");
     mkAnn (pos + n) (zlen (func_inner f)) (name ++ str ".body") (code_value f)].
Proof.
  intros n name. unfold code_chunks. cbn [anns_at ann_of k_note k_bytes k_back noted app].
  by rewrite !Z.sub_0_r.
Qed.

Lemma annotate_code_eq base fs :
  Forall (fun f => zlen (encode_func f) < 2 ^ 64) fs ->
  forall i pos e,
  annotate_code base i (zip fs (map encode_func fs)) pos e =
    mkEnc (e_buf e)
      (e_anns e ++ anns_at pos (concat (imap (fun j f => code_chunks base (i + j)%nat f) fs))).
Proof.
  induction 1 as [|f fs Hf _ IH]; intros i pos e.
  - destruct e. cbn. by rewrite app_nil_r.
  - cbn [map zip zip_with annotate_code imap concat]. rewrite IH, anns_at_app, Nat.add_0_r.
    rewrite size_len_encode, anns_code, flat_code, zlen_encode_func by done.
    unfold annotate. cbn [e_buf e_anns]. rewrite <- !app_assoc. cbn [app].
    rewrite Z.add_simpl_l. do 6 f_equal.
    apply imap_ext. intros j x _. cbn. by rewrite Nat.add_succ_r.
Qed.

Lemma flat_code_chunks base fs :
  forall i, flat (concat (imap (fun j f => code_chunks base (i + j)%nat f) fs)) =
    concat (map encode_func fs).
Proof.
  induction fs as [|f fs IH]; intros i; [done|].
  cbn [imap map concat]. rewrite flat_app. f_equal.
  - apply flat_code.
  - rewrite <- (IH (S i)). do 2 f_equal. apply imap_ext. intros j x _. cbn.
    by rewrite Nat.add_succ_r.
Qed.

(** What the module must fit in: every entry of the code section is shorter than
  the address space.  Rust's vectors are. *)
Definition addressable (m : ModuleBuilder) : Prop :=
  Forall (fun f => zlen (encode_func f) < 2 ^ 64) (b_code m).

Lemma emit_code_eq m e : addressable m -> emit_code m e = write_all (code_section m) e.
Proof.
  intros Hm. unfold emit_code, code_section, addressable in *.
  destruct (b_code m) as [|f fs]; [symmetry; apply write_all_nil|].
  set (all := f :: fs) in *. rewrite annotate_code_eq by done.
  assert (vector (map encode_func all) =
    flat (plain (uleb (zlen all)) :: concat (imap (code_chunks (imported_funcs m)) all))) as ->.
  { unfold vector. rewrite zlen_map, flat_cons. f_equal. symmetry.
    apply (flat_code_chunks _ _ 0). }
  apply section_then. unfold items_pos. rewrite zlen_map. reflexivity.
Qed.

(** ** The whole module *)

Lemma emit_single id field value body e :
  annotate (at_ e + 1 + zlen (uleb (zlen body))) (zlen body) field value (section id body e) =
    write_all [(id, [noted field value body])] e.
Proof.
  assert (flat [noted field value body] = body) as E
    by (unfold flat; cbn [map concat k_bytes noted]; apply app_nil_r).
  rewrite <- section_then with (anns :=
    [mkAnn (at_ e + 1 + zlen (uleb (zlen body))) (zlen body) field value]); rewrite E; [done|].
  cbn [anns_at ann_of k_note k_bytes k_back noted app]. by rewrite Z.sub_0_r.
Qed.

Lemma emit_start_eq m e : emit_start m e = write_all (start_section m) e.
Proof.
  unfold emit_start, start_section. destruct (b_start m); [apply emit_single|].
  symmetry. apply write_all_nil.
Qed.

Lemma emit_data_count_eq m e : emit_data_count m e = write_all (data_count_section m) e.
Proof.
  unfold emit_data_count, data_count_section. destruct (needs_data_count m); [apply emit_single|].
  symmetry. apply write_all_nil.
Qed.

Lemma with_header_eq : with_header = write header_chunks Enc_new.
Proof. reflexivity. Qed.

(** One step of [build]: a section emitted, then the custom sections after it. *)
Lemma emit_items_section {T} id (note : nat -> T -> bytes * bytes) (enc : T -> bytes) ts e :
  match ts with
  | [] => e
  | _ =>
      let items := map enc ts in
      let body := vector items in
      let p := at_ e in
      let e := section id body e in
      annotate_items note 0 (zip ts items) (items_pos p body items) e
  end = write_all (items_section id note enc ts) e.
Proof. destruct ts; [symmetry; apply write_all_nil|apply emit_items]. Qed.

Lemma build_writes m :
  addressable m -> build m = finish (write (chunks m) Enc_new) (b_label m).
Proof.
  intros Hm. unfold chunks. rewrite write_app, <- with_header_eq.
  change (write (concat (map section_chunks (sections m))) with_header)
    with (write_all (sections m) with_header).
  unfold sections. rewrite !write_all_app, <- !customs_after_eq.
  rewrite <- (emit_items_section TYPE), <- (emit_items_section IMPORT),
    <- (emit_items_section FUNCTION), <- (emit_items_section TABLE),
    <- (emit_items_section MEMORY), <- (emit_items_section GLOBAL),
    <- (emit_items_section EXPORT), <- (emit_items_section ELEMENT),
    <- (emit_items_section DATA).
  rewrite <- emit_start_eq, <- emit_data_count_eq, <- emit_code_eq by done. reflexivity.
Qed.

(** ** Annotations are in order and inside the module *)

(** [anns] in ascending order of offset from [lo] on, each inside [0, hi]. *)
Fixpoint in_order (lo hi : Z) (anns : list Ann) : Prop :=
  match anns with
  | [] => True
  | a :: anns => lo <= a_offset a /\ 0 <= a_length a /\ a_offset a + a_length a <= hi /\
      in_order (a_offset a) hi anns
  end.

(** [k_back] never reaches behind the annotation before. *)
Fixpoint backs_ok (lo pos : Z) (cs : list chunk) : Prop :=
  match cs with
  | [] => True
  | c :: cs =>
      0 <= k_back c /\ lo <= pos - k_back c /\
      backs_ok (match k_note c with Some _ => pos - k_back c | None => lo end)
        (pos + zlen (k_bytes c)) cs
  end.

Lemma backs_ok_mono lo lo' pos cs : lo <= lo' -> backs_ok lo' pos cs -> backs_ok lo pos cs.
Proof.
  revert lo lo' pos. induction cs as [|c cs IH]; intros lo lo' pos Hle; [done|].
  cbn [backs_ok]. intros (H1 & H2 & H3). split; [done|]. split; [lia|].
  destruct (k_note c); [done|]. by eapply IH.
Qed.

Lemma backs_ok_app lo pos a b :
  lo <= pos -> backs_ok lo pos a -> backs_ok (pos + zlen (flat a)) (pos + zlen (flat a)) b ->
  backs_ok lo pos (a ++ b).
Proof.
  revert lo pos. induction a as [|c a IH]; intros lo pos Hle; cbn [app backs_ok].
  - intros _ Hb. change (zlen (flat [])) with 0 in Hb. rewrite Z.add_0_r in Hb.
    by eapply backs_ok_mono.
  - intros (H1 & H2 & H3) Hb. split; [done|]. split; [done|].
    rewrite flat_cons, zlen_app, Z.add_assoc in Hb. pose proof (zlen_nonneg (k_bytes c)).
    apply IH; [|done|done]. destruct (k_note c); lia.
Qed.

(** Chunks annotated from their first byte are always in order. *)
Lemma backs_ok_zero lo pos cs :
  lo <= pos -> Forall (fun c => k_back c = 0) cs -> backs_ok lo pos cs.
Proof.
  intros Hle H. revert lo pos Hle. induction H as [|c cs Hc _ IH]; intros lo pos Hle; [done|].
  cbn [backs_ok]. rewrite Hc, Z.sub_0_r. split; [done|]. split; [done|].
  pose proof (zlen_nonneg (k_bytes c)). apply IH. destruct (k_note c); lia.
Qed.

Lemma anns_in_order lo pos hi cs :
  backs_ok lo pos cs -> pos + zlen (flat cs) <= hi -> in_order lo hi (anns_at pos cs).
Proof.
  revert lo pos. induction cs as [|c cs IH]; intros lo pos Hb Hhi; [done|].
  cbn [backs_ok] in Hb. destruct Hb as (H1 & H2 & H3).
  rewrite flat_cons, zlen_app in Hhi. cbn [anns_at]. unfold ann_of.
  pose proof (zlen_nonneg (k_bytes c)). pose proof (zlen_nonneg (flat cs)).
  destruct (k_note c) as [[field value]|]; cbn [app].
  - cbn [in_order a_offset a_length]. repeat split; [lia|lia|lia|]. apply IH; [done|lia].
  - apply IH; [done|lia].
Qed.

(** A section whose chunks are annotated from their first byte, or a custom
  section of the builder. *)
Definition section_ok (m : ModuleBuilder) (s : Z * list chunk) : Prop :=
  Forall (fun c => k_back c = 0) s.2 \/ exists c, c ∈ b_customs m /\ s = custom_section c.

Lemma items_section_ok {T} m id (note : nat -> T -> bytes * bytes) (enc : T -> bytes) ts :
  Forall (section_ok m) (items_section id note enc ts).
Proof.
  unfold items_section. destruct ts as [|t ts]; [constructor|].
  constructor; [left; cbn [snd]|constructor]. constructor; [done|].
  apply Forall_forall. intros c (i & x & -> & _)%elem_of_lookup_imap. done.
Qed.

Lemma sections_ok m : Forall (section_ok m) (sections m).
Proof.
  assert (forall id, Forall (section_ok m) (customs_sections m id)) as Hc.
  { intros id. unfold customs_sections. apply Forall_forall.
    intros s (c & -> & Hc)%list_elem_of_fmap. right. exists c. split; [|done].
    unfold customs_at in Hc. by apply list_elem_of_filter in Hc as [_ Hc]. }
  unfold sections. repeat (apply Forall_app; split);
    try (apply items_section_ok || apply Hc); [| |].
  - unfold start_section. destruct (b_start m); repeat constructor.
  - unfold data_count_section. destruct (needs_data_count m); repeat constructor.
  - unfold code_section. destruct (b_code m); [constructor|].
    constructor; [left; cbn [snd]|constructor]. constructor; [done|].
    apply Forall_concat, Forall_forall. intros cs (i & x & -> & _)%elem_of_lookup_imap.
    repeat constructor.
Qed.

Lemma section_backs_ok m pos s : section_ok m s -> backs_ok pos pos (section_chunks s).
Proof.
  intros [Hs|(c & _ & ->)].
  - apply backs_ok_zero; [lia|]. unfold section_chunks. repeat constructor. done.
  - unfold section_chunks, custom_section. cbn [fst snd].
    set (body := custom_body c). assert (flat [mkChunk (Some (str "custom[" ++ c_name c ++ str "]",
        str "name '" ++ c_name c ++ str "', " ++ dec (zlen (c_payload c)) ++ str " payload bytes"))
        body (zlen (uleb (zlen body)) - 1)] = body) as ->
      by (unfold flat; cbn [map concat k_bytes]; apply app_nil_r).
    pose proof (zlen_uleb_pos (zlen body)).
    cbn [backs_ok k_back k_note k_bytes noted]. unfold zlen at 1.
    cbn [length]. rewrite !Z.sub_0_r. repeat split; lia.
Qed.

Lemma chunks_backs_ok m : backs_ok 0 0 (chunks m).
Proof.
  unfold chunks. apply backs_ok_app; [lia|by apply backs_ok_zero; [lia|repeat constructor]|].
  generalize (0 + zlen (flat header_chunks)). induction (sections_ok m) as [|s ss Hs _ IH]; [done|].
  intros pos. cbn [map concat]. apply backs_ok_app; [lia|by eapply section_backs_ok|apply IH].
Qed.

(** Every annotation of a built module lies inside it and the annotations come in ascending order of offset, whatever the builder holds: with types, imports, functions, tables, memories, globals, exports, a start function, element and data segments and custom sections of any size. *)
Theorem build_annotations_in_order m (Hm : addressable m) :
  in_order 0 (m_len (build m)) (m_anns (build m)).
Proof.
  rewrite build_writes by done. unfold m_len, finish, write, Enc_new.
  cbn [m_bytes m_anns e_buf e_anns app]. apply anns_in_order; [apply chunks_backs_ok|].
  change (zlen (@nil byte)) with 0. lia.
Qed.

(** A module with a section of each kind, and custom sections around them. *)
Definition sample : ModuleBuilder :=
  let m := builder_new (str "sample") in
  let m := func_type (ftype [I32] [I32]) m in
  let m := import (str "env") (str "f") (ImportFunc 0) m in
  let m := import (str "env") (str "g") (ImportGlobal I64 true) m in
  let m := function 0 (mkFunc [(2, I32)] [x20; x00; x0b] (str "local.get 0")) m in
  let m := table (mkTableType FuncRef (Limits_range 1 200)) m in
  let m := memory (Limits_min 1) m in
  let m := global (global_i32 (-5) true) m in
  let m := export_func (str "inc") 1 m in
  let m := export_memory m in
  let m := start 1 m in
  let m := elem_active 0 [1] m in
  let m := data_active 0 (str "hello") m in
  let m := data_passive (str "bye") m in
  let m := custom (str "after-type") (str "x") (Some TYPE) m in
  custom (str "name") [] None m.

Lemma build_annotations_in_order_witness :
  addressable sample /\ in_order 0 (m_len (build sample)) (m_anns (build sample)).
Proof.
  assert (addressable sample) as H by (repeat constructor).
  split; [exact H|apply (build_annotations_in_order sample H)].
Defined.

(** ** Annotations name the bytes they cover *)

Definition regions (cs : list chunk) : list (bytes * bytes * bytes) :=
  omap (fun c => (fun note => (note, k_bytes c)) <$> k_note c) cs.

(** What an annotation says of a module: the field, the value and the bytes. *)
Definition region_of (bs : bytes) (a : Ann) : bytes * bytes * bytes :=
  (a_field a, a_value a, zslice bs (a_offset a) (a_length a)).

Lemma regions_anns cs pre :
  Forall (fun c => k_back c = 0) cs ->
  forall post, map (region_of (pre ++ flat cs ++ post)) (anns_at (zlen pre) cs) = regions cs.
Proof.
  intros H. revert pre. induction H as [|c cs Hc _ IH]; intros pre post; [done|].
  cbn [anns_at]. rewrite map_app, flat_cons, <- app_assoc.
  rewrite <- zlen_app. rewrite (app_assoc pre), IH.
  unfold regions. cbn [omap list_omap]. unfold ann_of. destruct (k_note c) as [[f v]|]; cbn; [|done].
  f_equal. unfold region_of. cbn [a_field a_value a_offset a_length]. f_equal.
  rewrite Hc, Z.sub_0_r, <- app_assoc. apply zslice_mid.
Qed.

(** The custom sections whose size is one byte. *)
Definition small_customs (m : ModuleBuilder) : Prop :=
  Forall (fun c => zlen (custom_body c) < 128) (b_customs m).

Lemma small_uleb v : 0 <= v < 128 -> zlen (uleb v) = 1.
Proof. intros Hv. apply (zlen_uleb v 0); [unfold in_u; lia|change (v < 128); lia|by left]. Qed.

Lemma chunks_zero m : small_customs m -> Forall (fun c => k_back c = 0) (chunks m).
Proof.
  intros Hm. unfold chunks. apply Forall_app. split; [repeat constructor|].
  apply Forall_concat, Forall_forall. intros cs (s & -> & Hs)%list_elem_of_fmap.
  pose proof (sections_ok m) as Hok. rewrite Forall_forall in Hok.
  unfold section_chunks. do 2 (constructor; [done|]).
  destruct (Hok s Hs) as [H0|(c & Hc & ->)]; [done|].
  unfold small_customs in Hm. rewrite Forall_forall in Hm. specialize (Hm c Hc).
  pose proof (zlen_nonneg (custom_body c)).
  repeat constructor. cbn [k_back]. rewrite small_uleb; lia.
Qed.



(** A custom section of 128 bytes takes two bytes of size: the note of the whole
  section body is then one byte early. *)
Example custom_annotation_is_early :
  let c := mkCustom (str "n") (replicate 126 x61) None in
  let m := build (custom (c_name c) (c_payload c) (c_after c) (builder_new [])) in
  zlen (custom_body c) = 128 /\
  map (fun a => (a_offset a, a_length a)) (drop 4 (m_anns m)) = [(10, 128)] /\
  zslice (m_bytes m) 10 128 <> custom_body c /\ zslice (m_bytes m) 11 128 = custom_body c.
Proof. split; [done|]. split; [done|]. split; [by vm_compute|done]. Qed.

(** ** The index spaces of the module builder (wasmtest: wasm/encode.rs)

  The builder hands out indices while a module is put together.  The builders
  that can be reached from [builder_new] by its operations keep every type once
  and one body per declared function, and an index it returns names, in the
  finished module, the type or the function it was returned for. *)

(** ** Reachable builders *)

(** One operation of the builder; the chaining forms are the same operations. *)
Inductive step : ModuleBuilder -> ModuleBuilder -> Prop :=
| S_add_type t m : step m (add_type t m).2
| S_import module name kind m : step m (import module name kind m)
| S_add_func ty body m : step m (add_func ty body m).2
| S_table t m : step m (table t m)
| S_memory l m : step m (memory l m)
| S_global g m : step m (global g m)
| S_export name kind index m : step m (export name kind index m)
| S_start index m : step m (start index m)
| S_elem e m : step m (elem e m)
| S_data d m : step m (data d m)
| S_data_count m : step m (with_data_count m)
| S_custom name payload after m : step m (custom name payload after m).

Inductive Built : ModuleBuilder -> Prop :=
| B_new label : Built (builder_new label)
| B_step m m' : Built m -> step m m' -> Built m'.

(** The chaining forms stay among them. *)
Lemma built_add_typed_func sig body m : Built m -> Built (add_typed_func sig body m).2.
Proof.
  intros Hm. unfold add_typed_func. pose proof (B_step _ _ Hm (S_add_type sig m)) as H.
  destruct (add_type sig m) as [ty m']. apply (B_step _ _ H (S_add_func ty body m')).
Qed.

(** ** Types are kept once, functions have bodies *)

Lemma position_Some {A} `{EqDecision A} (t : A) l i : position t l = Some i -> l !! i = Some t.
Proof.
  revert i. induction l as [|a l IH]; intros i; [done|]. cbn [position].
  destruct (decide (a = t)) as [->|]; [by intros [= <-]|].
  destruct (position t l) as [j|]; [|done]. intros [= <-]. by apply IH.
Qed.

Lemma position_None {A} `{EqDecision A} (t : A) l : position t l = None -> t ∉ l.
Proof.
  induction l as [|a l IH]; cbn [position]; [by intros _ ?%elem_of_nil|].
  destruct (decide (a = t)) as [|Hne]; [done|].
  destruct (position t l); [done|]. intros _ [->|H]%elem_of_cons; [done|]. by apply IH.
Qed.

Definition builder_inv (m : ModuleBuilder) : Prop :=
  NoDup (b_types m) /\ length (b_funcs m) = length (b_code m).

Lemma step_inv m m' : step m m' -> builder_inv m -> builder_inv m'.
Proof.
  intros Hs [Ht Hf]. destruct Hs; try (by split).
  - unfold add_type. destruct (position t (b_types m)) eqn:E; [by split|].
    split; [|done]. apply NoDup_app. split; [done|]. split; [|apply NoDup_singleton].
    intros x Hx ->%list_elem_of_singleton. by eapply position_None.
  - split; [done|]. cbn. rewrite !length_app. cbn. lia.
Qed.

Lemma built_inv m : Built m -> builder_inv m.
Proof. induction 1 as [label|m m' _ IH Hs]; [split; [constructor|done]|]. by eapply step_inv. Qed.

(** No operation takes an entry away or moves one. *)
Definition extends (m m' : ModuleBuilder) : Prop :=
  b_types m `prefix_of` b_types m' /\ b_imports m `prefix_of` b_imports m' /\
  b_funcs m `prefix_of` b_funcs m' /\ b_code m `prefix_of` b_code m'.

Lemma step_extends m m' : step m m' -> extends m m'.
Proof.
  intros Hs. unfold extends. destruct Hs; cbn; repeat split; try done; try by apply prefix_app_r.
  all: unfold add_type; destruct (position t (b_types m)); cbn; try done; by apply prefix_app_r.
Qed.

(** ** What the returned indices name *)

(** Room for one more entry in a space of [u32] indices. *)
Definition room {A} (l : list A) : Prop := zlen l + 1 < 2 ^ 32.

Lemma wrap_u32_small z : 0 <= z < 2 ^ 32 -> wrap_u 32 z = z.
Proof. apply Z.mod_small. Qed.

Lemma add_type_names t m :
  room (b_types m) ->
  b_types (add_type t m).2 !! Z.to_nat (add_type t m).1 = Some t /\ 0 <= (add_type t m).1.
Proof.
  unfold room. intros Hr. unfold add_type. destruct (position t (b_types m)) as [i|] eqn:E; cbn [fst snd].
  - apply position_Some in E. pose proof (lookup_lt_Some _ _ _ E).
    rewrite wrap_u32_small by (unfold zlen in Hr; lia). rewrite Nat2Z.id. split; [done|lia].
  - cbn [b_types set_types]. rewrite zlen_app. change (zlen [t]) with 1.
    pose proof (zlen_nonneg (b_types m)). rewrite wrap_u32_small by lia.
    split; [|lia]. replace (Z.to_nat (zlen (b_types m) + 1 - 1)) with (length (b_types m))
      by (unfold zlen; lia).
    apply list_lookup_middle. done.
Qed.

(** The functions an index counts past: the imported ones come first. *)
Definition defined_index (m : ModuleBuilder) (i : Z) : nat := Z.to_nat (i - imported_funcs m).

Lemma add_func_names ty body m :
  room (b_funcs m) -> length (b_funcs m) = length (b_code m) ->
  let '(i, m') := add_func ty body m in
  b_funcs m' !! defined_index m' i = Some ty /\ b_code m' !! defined_index m' i = Some body.
Proof.
  unfold room. intros Hr Hl. unfold add_func.
  set (m' := mkBuilder _ _ _ _ _ _ _ _ _ _ _ _ _ _). unfold defined_index.
  change (b_funcs m') with (b_funcs m ++ [ty]). change (b_code m') with (b_code m ++ [body]).
  rewrite zlen_app. change (zlen [ty]) with 1. pose proof (zlen_nonneg (b_funcs m)).
  rewrite wrap_u32_small by lia.
  replace (Z.to_nat _) with (length (b_funcs m)) by (unfold zlen; lia).
  split; [by apply list_lookup_middle|]. rewrite Hl. by apply list_lookup_middle.
Qed.

(** The indices of the builder mean what they are returned for: in any builder reachable by its operations no function type occurs twice and every declared function has a body; [add_typed_func] returns an index past the imported functions whose entry has the given body and a type index that names the given signature; and every operation keeps the types, imports, functions and bodies it finds where they are. *)
Theorem builder_indices m (Hm : Built m) sig body
    (Ht : room (b_types m)) (Hf : room (b_funcs m)) :
  builder_inv m /\
  (forall m', step m m' -> extends m m') /\
  let '(i, m') := add_typed_func sig body m in
  b_code m' !! defined_index m' i = Some body /\
  exists ty, b_funcs m' !! defined_index m' i = Some ty /\ b_types m' !! Z.to_nat ty = Some sig.
Proof.
  split; [by apply built_inv|]. split; [intros m'; apply step_extends|].
  pose proof (built_inv _ Hm) as Hinv.
  pose proof (step_inv _ _ (S_add_type sig m) Hinv) as [_ Hlen].
  pose proof (add_type_names sig m Ht) as [Hty _].
  assert (b_funcs (add_type sig m).2 = b_funcs m) as Ef.
  { unfold add_type. by destruct (position sig (b_types m)). }
  unfold add_typed_func. destruct (add_type sig m) as [ty m1]. cbn [fst snd] in *.
  pose proof (add_func_names ty body m1 ltac:(unfold room; rewrite Ef; exact Hf) Hlen) as H.
  assert (b_types (add_func ty body m1).2 = b_types m1) as Et by done.
  destruct (add_func ty body m1) as [i m2]. cbn [snd] in Et. destruct H as [H1 H2].
  split; [done|]. exists ty. by rewrite Et.
Qed.

Lemma builder_indices_witness :
  let m := (add_typed_func (ftype [I32] []) (mkFunc [] [x0b] []) (builder_new [])).2 in
  Built m /\ room (b_types m) /\ room (b_funcs m) /\
  let '(i, m') := add_typed_func (ftype [I32] []) (mkFunc [] [x01; x0b] []) m in
  b_code m' !! defined_index m' i = Some (mkFunc [] [x01; x0b] []) /\
  exists ty, b_funcs m' !! defined_index m' i = Some ty /\
    b_types m' !! Z.to_nat ty = Some (ftype [I32] []).
Proof.
  intros m. assert (Built m) as H by (apply built_add_typed_func, B_new).
  assert (room (b_types m)) as Ht by (by vm_compute).
  assert (room (b_funcs m)) as Hf by (by vm_compute).
  split; [exact H|]. split; [exact Ht|]. split; [exact Hf|].
  exact (proj2 (proj2 (builder_indices m H (ftype [I32] []) (mkFunc [] [x01; x0b] []) Ht Hf))).
Defined.
