(* ===== verification/WasmRead.v ===== *)
(** * The binary format, read back (wasmtest: wasm/encode.rs)

  A reader of the WebAssembly binary format, written from the specification of
  the format and not from the encoder: integers of a bounded number of bytes,
  vectors, names in UTF-8, one reader per kind of section, a section body that
  must be used up, and the sections in their fixed order.  [build_reads_back]
  shows that the reader recovers from a built module everything that was put
  into the builder. *)

From S2P Require Import Prelude Text WasmLeb WasmEnc WasmTypes WasmBuild WasmAnns.

#[local] Ltac Zify.zify_post_hook ::= Z.to_euclidean_division_equations.

(** ** Readers *)

Definition Parser (A : Type) : Type := bytes -> option (A * bytes).

#[global] Instance parser_ret : MRet Parser := fun A a bs => Some (a, bs).
#[global] Instance parser_bind : MBind Parser := fun A B f p bs =>
  match p bs with Some (a, rest) => f a rest | None => None end.

Definition p_fail {A} : Parser A := fun _ => None.

Definition p_byte : Parser byte := fun bs =>
  match bs with [] => None | b :: rest => Some (b, rest) end.

Definition p_u32 : Parser Z := read_u32.

Definition p_take (n : Z) : Parser bytes := fun bs =>
  if zlen bs <? n then None else Some (ztake n bs, zdrop n bs).

(** Everything that is left. *)
Definition p_rest : Parser bytes := fun bs => Some (bs, []).

(** A signed number of [w] bits: in range and in no more bytes than it takes. *)
Definition p_signed (w : Z) : Parser Z := fun bs =>
  match read_sleb bs with
  | Some (v, rest) =>
      if (zlen bs - zlen rest <=? (w + 6) / 7) && (- 2 ^ (w - 1) <=? v) && (v <? 2 ^ (w - 1))
      then Some (v, rest) else None
  | None => None
  end.

Fixpoint p_times {A} (n : nat) (p : Parser A) : Parser (list A) :=
  match n with
  | O => mret []
  | S n => a ← p; l ← p_times n p; mret (a :: l)
  end.

Definition p_vec {A} (p : Parser A) : Parser (list A) :=
  n ← p_u32; p_times (Z.to_nat n) p.

Definition p_name : Parser bytes :=
  n ← p_u32; s ← p_take n; if utf8_valid s then mret s else p_fail.

(** [whole p bs]: [p] reads all of [bs]. *)
Definition whole {A} (p : Parser A) (bs : bytes) : option A :=
  match p bs with Some (a, []) => Some a | _ => None end.

(** A part of a known size, read to its end. *)
Definition p_sized {A} (p : Parser A) : Parser A :=
  n ← p_u32; bs ← p_take n;
  match whole p bs with Some a => mret a | None => p_fail end.

Definition p_valtype : Parser ValType :=
  b ← p_byte;
  match b with
  | x7f => mret I32 | x7e => mret I64 | x7d => mret F32 | x7c => mret F64
  | x70 => mret FuncRef | x6f => mret ExternRef | x7b => mret V128
  | _ => p_fail
  end.

Definition p_const_byte (c : byte) : Parser unit :=
  b ← p_byte; if decide (b = c) then mret tt else p_fail.

Definition p_functype : Parser FuncType :=
  p_const_byte x60;; ps ← p_vec p_valtype; rs ← p_vec p_valtype; mret (ftype ps rs).

Definition p_limits : Parser Limits :=
  b ← p_byte;
  match b with
  | x00 => n ← p_u32; mret (mkLimits n None)
  | x01 => n ← p_u32; m ← p_u32; mret (mkLimits n (Some m))
  | _ => p_fail
  end.

Definition p_table : Parser TableType := t ← p_valtype; l ← p_limits; mret (mkTableType t l).

Definition p_mut : Parser bool :=
  b ← p_byte; match b with x00 => mret false | x01 => mret true | _ => p_fail end.

(** One instruction of a constant expression: what it takes up is all that matters here. *)
Definition p_const_instr : Parser unit :=
  b ← p_byte;
  match b with
  | x41 => p_signed 32;; mret tt
  | x42 => p_signed 64;; mret tt
  | x43 => p_take 4;; mret tt
  | x44 => p_take 8;; mret tt
  | x23 => p_u32;; mret tt
  | xd0 => p_valtype;; mret tt
  | xd2 => p_u32;; mret tt
  | _ => p_fail
  end.

(** A constant expression, [end] included, as the bytes it is written in. *)
Definition p_const : Parser bytes := fun bs =>
  match (p_const_instr;; p_const_byte x0b) bs with
  | Some (_, rest) => Some (ztake (zlen bs - zlen rest) bs, rest)
  | None => None
  end.

Definition p_global : Parser (ValType * bool * bytes) :=
  t ← p_valtype; m ← p_mut; e ← p_const; mret (t, m, e).

Definition p_import : Parser Import :=
  mo ← p_name; na ← p_name; b ← p_byte;
  match b with
  | x00 => t ← p_u32; mret (mkImport mo na (ImportFunc t))
  | x01 => t ← p_table; mret (mkImport mo na (ImportTable t))
  | x02 => l ← p_limits; mret (mkImport mo na (ImportMemory l))
  | x03 => t ← p_valtype; m ← p_mut; mret (mkImport mo na (ImportGlobal t m))
  | _ => p_fail
  end.

Definition p_export : Parser Export_ :=
  na ← p_name; b ← p_byte;
  k ← match b with
      | x00 => mret ExportFunc | x01 => mret ExportTable
      | x02 => mret ExportMemory | x03 => mret ExportGlobal
      | _ => p_fail
      end;
  i ← p_u32; mret (mkExport na k i).

(** The eight forms of an element segment: bit 0 of the flags says that it is not
  active, bit 1 that there is an explicit index or that it is declarative, bit 2
  that it holds expressions. *)
Definition p_elem : Parser Elem :=
  flags ← p_u32;
  match flags with
  | 0 => o ← p_const; fs ← p_vec p_u32; mret (mkElem (ElemActive 0 o) FuncRef fs [])
  | 1 => p_const_byte x00;; fs ← p_vec p_u32; mret (mkElem ElemPassive FuncRef fs [])
  | 2 => t ← p_u32; o ← p_const; p_const_byte x00;; fs ← p_vec p_u32;
         mret (mkElem (ElemActive t o) FuncRef fs [])
  | 3 => p_const_byte x00;; fs ← p_vec p_u32; mret (mkElem ElemDeclarative FuncRef fs [])
  | 4 => o ← p_const; es ← p_vec p_const; mret (mkElem (ElemActive 0 o) FuncRef [] es)
  | 5 => ty ← p_valtype; es ← p_vec p_const; mret (mkElem ElemPassive ty [] es)
  | 6 => t ← p_u32; o ← p_const; ty ← p_valtype; es ← p_vec p_const;
         mret (mkElem (ElemActive t o) ty [] es)
  | 7 => ty ← p_valtype; es ← p_vec p_const; mret (mkElem ElemDeclarative ty [] es)
  | _ => p_fail
  end.

Definition p_blob : Parser bytes := n ← p_u32; p_take n.

Definition p_data : Parser Data :=
  flags ← p_u32;
  match flags with
  | 0 => o ← p_const; bs ← p_blob; mret (mkData (DataActive 0 o) bs)
  | 1 => bs ← p_blob; mret (mkData DataPassive bs)
  | 2 => m ← p_u32; o ← p_const; bs ← p_blob; mret (mkData (DataActive m o) bs)
  | _ => p_fail
  end.

(** An entry of the code section: the locals, and the instruction bytes. *)
Definition p_local : Parser (Z * ValType) := n ← p_u32; t ← p_valtype; mret (n, t).
Definition p_code : Parser (list (Z * ValType) * bytes) :=
  p_sized (ls ← p_vec p_local; body ← p_rest; mret (ls, body)).

(** ** Sections *)

Inductive Section_ : Type :=
| SecCustom (name payload : bytes)
| SecType (ts : list FuncType)
| SecImport (imps : list Import)
| SecFunction (ts : list Z)
| SecTable (ts : list TableType)
| SecMemory (ls : list Limits)
| SecGlobal (gs : list (ValType * bool * bytes))
| SecExport (xs : list Export_)
| SecStart (f : Z)
| SecElem (es : list Elem)
| SecDataCount (n : Z)
| SecCode (fs : list (list (Z * ValType) * bytes))
| SecData (ds : list Data).

Definition p_section (id : Z) : Parser Section_ :=
  match id with
  | 0 => n ← p_name; p ← p_rest; mret (SecCustom n p)
  | 1 => l ← p_vec p_functype; mret (SecType l)
  | 2 => l ← p_vec p_import; mret (SecImport l)
  | 3 => l ← p_vec p_u32; mret (SecFunction l)
  | 4 => l ← p_vec p_table; mret (SecTable l)
  | 5 => l ← p_vec p_limits; mret (SecMemory l)
  | 6 => l ← p_vec p_global; mret (SecGlobal l)
  | 7 => l ← p_vec p_export; mret (SecExport l)
  | 8 => f ← p_u32; mret (SecStart f)
  | 9 => l ← p_vec p_elem; mret (SecElem l)
  | 12 => n ← p_u32; mret (SecDataCount n)
  | 10 => l ← p_vec p_code; mret (SecCode l)
  | 11 => l ← p_vec p_data; mret (SecData l)
  | _ => p_fail
  end.

(** The sections as ids and bodies; every one takes at least two bytes, so the
  length of the module is fuel enough. *)
Fixpoint split_sections (fuel : nat) (bs : bytes) : option (list (Z * bytes)) :=
  match fuel, bs with
  | _, [] => Some []
  | O, _ => None
  | S fuel, _ =>
      match (id ← p_byte; body ← p_blob; mret (b2z id, body)) bs with
      | Some (s, rest) => l ← split_sections fuel rest; Some (s :: l)
      | None => None
      end
  end.

(** The place of a section in the order of the format: the data count comes
  before the code, in spite of its id. *)
Definition rank (id : Z) : Z :=
  if id =? DATA_COUNT then 10 else if 10 <=? id then id + 1 else id.

(** Custom sections anywhere; the others each at most once and in order. *)
Fixpoint order_ok (last : Z) (ids : list Z) : bool :=
  match ids with
  | [] => true
  | id :: ids => if id =? CUSTOM then order_ok last ids
                 else (last <? rank id) && order_ok (rank id) ids
  end.

Definition read_module (bs : bytes) : option (list Section_) :=
  if bool_decide (ztake 8 bs = magic ++ [x01; x00; x00; x00]) then
    ss ← split_sections (length bs) (zdrop 8 bs);
    if order_ok 0 (map fst ss) then mapM (fun s => whole (p_section s.1) s.2) ss else None
  else None.

(** ** Exactness of a reader

  [reads p bs a]: [p] takes exactly [bs] off the front of any input and gives [a]. *)

Definition reads {A} (p : Parser A) (bs : bytes) (a : A) : Prop :=
  forall rest, p (bs ++ rest) = Some (a, rest).

Lemma reads_ret {A} (a : A) : reads (mret a) [] a.
Proof. by intros rest. Qed.

Lemma reads_bind {A B} (p : Parser A) (f : A -> Parser B) xs ys a b :
  reads p xs a -> reads (f a) ys b -> reads (p ≫= f) (xs ++ ys) b.
Proof.
  intros Hp Hf rest. unfold mbind, parser_bind. rewrite <- app_assoc, Hp. apply Hf.
Qed.

(** The last reader of a chain. *)
Lemma reads_last {A B} (p : Parser A) (f : A -> B) xs a :
  reads p xs a -> reads (x ← p; mret (f x)) xs (f a).
Proof. intros Hp rest. unfold mbind, parser_bind. by rewrite Hp. Qed.

Lemma reads_byte b : reads p_byte [b] b.
Proof. by intros rest. Qed.

Lemma reads_const_byte c : reads (p_const_byte c) [c] tt.
Proof.
  intros rest. unfold p_const_byte, mbind, parser_bind. cbn [app p_byte].
  by rewrite decide_True.
Qed.

Lemma numbers_exactly v : in_u 32 v -> reads p_u32 (uleb v) v.
Proof. intros Hv rest. by apply uleb_u32. Qed.

Lemma takes_exactly bs : reads (p_take (zlen bs)) bs bs.
Proof.
  intros rest. unfold p_take. rewrite zlen_app.
  pose proof (zlen_nonneg rest). rewrite (proj2 (Z.ltb_ge _ _)) by lia.
  unfold ztake, zdrop, zlen. by rewrite Nat2Z.id, take_app_length, drop_app_length.
Qed.

Lemma reads_whole {A} (p : Parser A) bs a : reads p bs a -> whole p bs = Some a.
Proof. intros Hp. unfold whole. specialize (Hp []). rewrite app_nil_r in Hp. by rewrite Hp. Qed.

Lemma in_u32_zlen {A} (l : list A) : zlen l < 2 ^ 32 -> in_u 32 (zlen l).
Proof. pose proof (zlen_nonneg l). split; lia. Qed.

Lemma reads_sized {A} (p : Parser A) bs a :
  zlen bs < 2 ^ 32 -> whole p bs = Some a -> reads (p_sized p) (uleb (zlen bs) ++ bs) a.
Proof.
  intros Hl Hp. eapply reads_bind; [by apply numbers_exactly, in_u32_zlen|].
  rewrite <- (app_nil_r bs) at 2. eapply reads_bind; [apply takes_exactly|].
  rewrite Hp. apply reads_ret.
Qed.

Lemma reads_blob bs : zlen bs < 2 ^ 32 -> reads p_blob (uleb (zlen bs) ++ bs) bs.
Proof.
  intros Hl. eapply reads_bind; [by apply numbers_exactly, in_u32_zlen|]. apply takes_exactly.
Qed.

Lemma reads_name s : zlen s < 2 ^ 32 -> utf8_valid s = true -> reads p_name (wasm_name s) s.
Proof.
  intros Hl Hu. eapply reads_bind; [by apply numbers_exactly, in_u32_zlen|].
  rewrite <- (app_nil_r s) at 2. eapply reads_bind; [apply takes_exactly|].
  rewrite Hu. apply reads_ret.
Qed.

Lemma reads_times {A T} (p : Parser A) (enc : T -> bytes) (val : T -> A) ts :
  Forall (fun t => reads p (enc t) (val t)) ts ->
  reads (p_times (length ts) p) (concat (map enc ts)) (map val ts).
Proof.
  induction 1 as [|t ts Ht _ IH]; [apply reads_ret|].
  cbn [length p_times map concat]. eapply reads_bind; [exact Ht|]. by apply reads_last.
Qed.

Lemma reads_vec {A T} (p : Parser A) (enc : T -> bytes) (val : T -> A) ts :
  zlen ts < 2 ^ 32 -> Forall (fun t => reads p (enc t) (val t)) ts ->
  reads (p_vec p) (vector (map enc ts)) (map val ts).
Proof.
  intros Hl H. unfold vector. rewrite zlen_map.
  eapply reads_bind; [by apply numbers_exactly, in_u32_zlen|].
  unfold zlen. rewrite Nat2Z.id. by apply reads_times.
Qed.

(** The common case, where the items read back as themselves. *)
Lemma reads_vec_id {A} (p : Parser A) (enc : A -> bytes) ts :
  zlen ts < 2 ^ 32 -> Forall (fun t => reads p (enc t) t) ts ->
  reads (p_vec p) (vector (map enc ts)) ts.
Proof. intros Hl H. rewrite <- (map_id ts) at 2. by apply (reads_vec p enc id). Qed.

(** ** Counts are bounded by lengths *)

Lemma zlen_elem_concat (x : bytes) l : x ∈ l -> zlen x <= zlen (concat l).
Proof.
  induction 1 as [x l|x y l _ IH]; rewrite concat_cons, zlen_app;
    [pose proof (zlen_nonneg (concat l))|pose proof (zlen_nonneg y)]; lia.
Qed.

(** The items of a short vector are few and short. *)
Lemma vector_bounds {T} (enc : T -> bytes) ts :
  Forall (fun t => 0 < zlen (enc t)) ts -> zlen (vector (map enc ts)) < 2 ^ 32 ->
  zlen ts < 2 ^ 32 /\ Forall (fun t => zlen (enc t) < 2 ^ 32) ts.
Proof.
  intros Hpos. rewrite zlen_vector, zlen_map. pose proof (zlen_uleb_pos (zlen ts)). intros Hl.
  split.
  - assert (zlen (map enc ts) <= zlen (concat (map enc ts))) as H1.
    { apply concat_pos_length. by apply Forall_map. }
    rewrite zlen_map in H1. lia.
  - apply Forall_forall. intros t Ht.
    pose proof (zlen_elem_concat (enc t) (map enc ts) ltac:(apply list_elem_of_fmap; eauto)). lia.
Qed.

(** ** Every part reads back *)

(** The last reader of a chain, where only [mret] follows. *)
Ltac p_last :=
  cbv beta iota;
  lazymatch goal with
  | |- reads (mbind (fun x => mret (@?f x)) ?p) _ _ => eapply (reads_last p f)
  end.

Lemma reads_valtype t : reads p_valtype [ValType_code t] t.
Proof. by intros rest; destruct t. Qed.

Lemma types_vector ts :
  uleb (zlen ts) ++ map ValType_code ts = vector (map (fun t => [ValType_code t]) ts).
Proof.
  unfold vector. rewrite zlen_map. f_equal.
  induction ts as [|t ts IH]; [done|]. cbn [map concat app]. by rewrite <- IH.
Qed.

Lemma reads_types ts :
  zlen ts < 2 ^ 32 -> reads (p_vec p_valtype) (uleb (zlen ts) ++ map ValType_code ts) ts.
Proof.
  intros Hl. rewrite types_vector. apply reads_vec_id; [done|].
  apply Forall_true. apply reads_valtype.
Qed.

Lemma reads_functype t :
  zlen (FuncType_encode t) < 2 ^ 32 -> reads p_functype (FuncType_encode t) t.
Proof.
  destruct t as [ps rs]. unfold FuncType_encode. cbn [params results].
  rewrite !zlen_app, !zlen_map. intros Hl.
  pose proof (zlen_uleb_pos (zlen ps)). pose proof (zlen_uleb_pos (zlen rs)).
  pose proof (zlen_nonneg ps). pose proof (zlen_nonneg rs). change (zlen [x60]) with 1 in Hl.
  eapply reads_bind; [apply reads_const_byte|]. rewrite app_assoc.
  eapply reads_bind; [apply reads_types; lia|].
  p_last. apply reads_types. lia.
Qed.

Definition limits_u32 (l : Limits) : Prop :=
  in_u 32 (l_min l) /\ match l_max l with Some m => in_u 32 m | None => True end.

Lemma reads_limits l : limits_u32 l -> reads p_limits (Limits_encode l) l.
Proof.
  destruct l as [mi [ma|]]; intros [H1 H2]; unfold Limits_encode; cbn [l_min l_max] in *;
    (eapply reads_bind; [apply reads_byte|]); cbn [l_min l_max].
  - eapply reads_bind; [by apply numbers_exactly|]. p_last; by apply numbers_exactly.
  - p_last; by apply numbers_exactly.
Qed.

Lemma reads_table t : limits_u32 (t_limits t) -> reads p_table (encode_table t) t.
Proof.
  destruct t as [e l]. intros Hl. eapply reads_bind; [apply reads_valtype|].
  p_last; by apply reads_limits.
Qed.

Lemma reads_mut b : reads p_mut [bool_byte b] b.
Proof. by intros rest; destruct b. Qed.

(** The initialisers and offsets the encoder has functions for. *)
Inductive ConstExpr : bytes -> Prop :=
| CE_i32 v : in_s 32 v -> ConstExpr (const_i32 v)
| CE_i64 v : in_s 64 v -> ConstExpr (const_i64 v)
| CE_f32 bits : ConstExpr (const_f32 bits)
| CE_f64 bits : ConstExpr (const_f64 bits)
| CE_global n : in_u 32 n -> ConstExpr (const_global_get n)
| CE_null t : ConstExpr (const_ref_null t)
| CE_func n : in_u 32 n -> ConstExpr (const_ref_func n).

Lemma sleb_fits_range w v n :
  0 < w -> in_s w v -> (w + 6) / 7 <= Z.of_nat (S n) -> sleb_fits n v.
Proof.
  intros Hw [H1 H2] Hn. unfold sleb_fits.
  assert (64 * 128 ^ Z.of_nat n = 2 ^ (7 * Z.of_nat n + 6)) as ->.
  { rewrite Z.pow_add_r, Z.pow_mul_r by lia. change (2 ^ 7) with 128. change (2 ^ 6) with 64. lia. }
  assert (2 ^ (w - 1) <= 2 ^ (7 * Z.of_nat n + 6)) by (apply Z.pow_le_mono_r; lia).
  lia.
Qed.

Lemma reads_signed w v : 0 < w <= 64 -> in_s w v -> reads (p_signed w) (sleb v) v.
Proof.
  intros Hw Hv rest. assert (in_s 64 v) as Hv'.
  { destruct Hv. assert (2 ^ (w - 1) <= 2 ^ (64 - 1)) by (apply Z.pow_le_mono_r; lia).
    split; lia. }
  unfold p_signed. rewrite sleb_read by done. destruct (sleb_least v Hv') as (n & E & _ & Hn).
  rewrite zlen_app. assert (zlen (sleb v) = Z.of_nat (S n)) as ->
    by (unfold zlen; rewrite E, sleb_padded_eq, length_uleb_padded; done).
  destruct Hv as [H1 H2].
  rewrite (proj2 (Z.leb_le (- 2 ^ (w - 1)) v)), (proj2 (Z.ltb_lt v _)) by done.
  rewrite (proj2 (Z.leb_le _ _)); [done|].
  destruct Hn as [->|Hn]; [lia|]. destruct n as [|n]; [lia|].
  destruct (Z.le_gt_cases ((w + 6) / 7) (Z.of_nat (S n))) as [Hc|Hc]; [|lia].
  exfalso. apply Hn. apply (sleb_fits_range w); [lia|split; lia|cbn [pred]; lia].
Qed.

(** An instruction and its [end], taken as the bytes they are. *)
Lemma reads_const_of bs :
  reads p_const_instr bs tt -> reads p_const (bs ++ [x0b]) (bs ++ [x0b]).
Proof.
  intros H rest.
  pose proof (reads_bind _ (fun _ => p_const_byte x0b) _ _ _ _ H (reads_const_byte x0b) rest) as E.
  unfold p_const. rewrite E. f_equal. f_equal. rewrite zlen_app, Z.add_simpl_r.
  unfold ztake, zlen. by rewrite Nat2Z.id, take_app_length.
Qed.

Lemma reads_const e : ConstExpr e -> reads p_const e e.
Proof.
  intros He. assert (exists bs, e = bs ++ [x0b] /\ reads p_const_instr bs tt) as (bs & -> & H);
    [|by apply reads_const_of].
  destruct He as [v Hv|v Hv|bits|bits|n Hn|t|n Hn].
  - exists ([x41] ++ sleb v). split; [done|]. eapply reads_bind; [apply reads_byte|].
    p_last. by apply reads_signed.
  - exists ([x42] ++ sleb v). split; [done|]. eapply reads_bind; [apply reads_byte|].
    p_last. by apply reads_signed.
  - exists ([x43] ++ le_bytes 4 bits). split; [done|]. eapply reads_bind; [apply reads_byte|].
    p_last. apply (takes_exactly (le_bytes 4 bits)).
  - exists ([x44] ++ le_bytes 8 bits). split; [done|]. eapply reads_bind; [apply reads_byte|].
    p_last. apply (takes_exactly (le_bytes 8 bits)).
  - exists ([x23] ++ uleb n). split; [done|]. eapply reads_bind; [apply reads_byte|].
    p_last. by apply numbers_exactly.
  - exists [xd0; ValType_code t]. split; [done|].
    eapply (reads_bind _ _ [xd0] [ValType_code t]); [apply reads_byte|].
    p_last. apply reads_valtype.
  - exists ([xd2] ++ uleb n). split; [done|]. eapply reads_bind; [apply reads_byte|].
    p_last. by apply numbers_exactly.
Qed.

Lemma reads_global g :
  ConstExpr (g_init g) -> reads p_global (encode_global g) (g_ty g, g_mutable g, g_init g).
Proof.
  intros Hc. change (encode_global g) with
    ([ValType_code (g_ty g)] ++ [bool_byte (g_mutable g)] ++ g_init g).
  eapply reads_bind; [apply reads_valtype|]. eapply reads_bind; [apply reads_mut|].
  p_last; by apply reads_const.
Qed.

Definition import_ok (i : Import) : Prop :=
  utf8_valid (i_module i) = true /\ utf8_valid (i_name i) = true /\
  match i_kind i with
  | ImportFunc t => in_u 32 t
  | ImportTable t => limits_u32 (t_limits t)
  | ImportMemory l => limits_u32 l
  | ImportGlobal _ _ => True
  end.

Lemma zlen_wasm_name s : zlen s < zlen (wasm_name s).
Proof. unfold wasm_name. rewrite zlen_app. pose proof (zlen_uleb_pos (zlen s)). lia. Qed.

Lemma reads_import i :
  import_ok i -> zlen (encode_import i) < 2 ^ 32 -> reads p_import (encode_import i) i.
Proof.
  destruct i as [mo na k]. intros (Hm & Hn & Hk). unfold encode_import.
  cbn [i_module i_name i_kind] in *. rewrite !zlen_app.
  pose proof (zlen_wasm_name mo). pose proof (zlen_wasm_name na).
  intros Hl. set (tail := match k with ImportFunc t => [x00] ++ uleb t | _ => _ end) in Hl |- *.
  pose proof (zlen_nonneg tail). pose proof (zlen_nonneg mo). pose proof (zlen_nonneg na).
  eapply reads_bind; [apply reads_name; [lia|done]|].
  eapply reads_bind; [apply reads_name; [lia|done]|].
  unfold tail. destruct k as [t|t|l|t m]; (eapply reads_bind; [apply reads_byte|]).
  - p_last; by apply numbers_exactly.
  - p_last. by apply reads_table.
  - p_last; by apply reads_limits.
  - eapply reads_bind; [apply reads_valtype|]. p_last; apply reads_mut.
Qed.

Definition export_ok (x : Export_) : Prop := utf8_valid (x_name x) = true /\ in_u 32 (x_index x).

Lemma reads_export x :
  export_ok x -> zlen (encode_export x) < 2 ^ 32 -> reads p_export (encode_export x) x.
Proof.
  destruct x as [na k i]. intros [Hn Hi]. unfold encode_export. cbn [x_name x_kind x_index] in *.
  rewrite !zlen_app. pose proof (zlen_wasm_name na). pose proof (zlen_nonneg (uleb i)). intros Hl.
  change (zlen [ExportKind_code k]) with 1 in Hl.
  eapply reads_bind; [apply reads_name; [lia|done]|].
  eapply reads_bind; [apply reads_byte|].
  rewrite <- (app_nil_l (uleb i)).
  eapply (reads_bind _ _ [] _ k); [destruct k; apply reads_ret|].
  p_last; by apply numbers_exactly.
Qed.

Definition elem_ok (e : Elem) : Prop :=
  match el_mode e with ElemActive t o => in_u 32 t /\ ConstExpr o | _ => True end /\
  Forall (in_u 32) (el_funcs e) /\ Forall ConstExpr (el_exprs e).

(** What a segment says to a reader: function indices have the type [funcref],
  and a segment of expressions has no indices. *)
Definition elem_view (e : Elem) : Elem :=
  match el_exprs e with
  | [] => mkElem (el_mode e) FuncRef (el_funcs e) []
  | _ => mkElem (el_mode e) (el_ty e) [] (el_exprs e)
  end.

Lemma reads_funcs fs :
  Forall (in_u 32) fs -> zlen (vector (map uleb fs)) < 2 ^ 32 ->
  reads (p_vec p_u32) (vector (map uleb fs)) fs.
Proof.
  intros H Hl. apply vector_bounds in Hl as [Hl _]; [|apply Forall_true, zlen_uleb_pos].
  apply reads_vec_id; [done|]. eapply Forall_impl; [exact H|]. apply numbers_exactly.
Qed.

Lemma ConstExpr_pos e : ConstExpr e -> 0 < zlen e.
Proof.
  intros He. assert (exists b bs, e = b :: bs) as (b & bs & ->) by (destruct He; by eexists _, _).
  rewrite zlen_cons. pose proof (zlen_nonneg bs). lia.
Qed.

Lemma reads_exprs es :
  Forall ConstExpr es -> zlen (vector es) < 2 ^ 32 -> reads (p_vec p_const) (vector es) es.
Proof.
  intros H Hl. rewrite <- (map_id es) in Hl |- * at 1.
  apply vector_bounds in Hl as [Hl _]; [|eapply Forall_impl; [exact H|apply ConstExpr_pos]].
  apply (reads_vec_id _ id); [done|]. eapply Forall_impl; [exact H|]. apply reads_const.
Qed.

(** A chain of readers over a concatenation, the components discharged by what
  was shown of each; [p_flag n] reads a flag written as one byte. *)
Ltac p_flag n := eapply reads_bind; [apply (numbers_exactly n); split; lia|].
Ltac p_step lem := eapply reads_bind; [apply lem; first [done | lia]|].

Lemma zlen_app_le_l (a b : bytes) : zlen a <= zlen (a ++ b).
Proof. rewrite zlen_app. pose proof (zlen_nonneg b). lia. Qed.

Lemma zlen_app_le_r (a b : bytes) : zlen b <= zlen (a ++ b).
Proof. rewrite zlen_app. pose proof (zlen_nonneg a). lia. Qed.

Lemma zlen_suffix_lt (a b : bytes) n : zlen (a ++ b) < n -> zlen b < n.
Proof. pose proof (zlen_app_le_r a b). lia. Qed.

Lemma reads_elem e :
  elem_ok e -> zlen (encode_elem e) < 2 ^ 32 -> reads p_elem (encode_elem e) (elem_view e).
Proof.
  destruct e as [mode ty funcs [|x exprs]]; intros (Hm & Hf & He) Hl;
    unfold encode_elem, elem_view in *; cbn [el_mode el_ty el_funcs el_exprs] in *.
  - destruct mode as [[|t|t] o| |]; [destruct Hm as [Ht Ho]..| |].
    + apply zlen_suffix_lt, zlen_suffix_lt in Hl.
      p_flag 0. p_step reads_const. p_last. by apply reads_funcs.
    + do 4 apply zlen_suffix_lt in Hl.
      p_flag 2. p_step numbers_exactly. p_step reads_const. p_step reads_const_byte.
      p_last. by apply reads_funcs.
    + by destruct Ht.
    + do 2 apply zlen_suffix_lt in Hl.
      p_flag 1. p_step reads_const_byte. p_last. by apply reads_funcs.
    + do 2 apply zlen_suffix_lt in Hl.
      p_flag 3. p_step reads_const_byte. p_last. by apply reads_funcs.
  - set (es := x :: exprs) in *. destruct mode as [t o| |]; [destruct Hm as [Ht Ho]| |].
    + destruct (bool_decide_reflect (t = 0 /\ ty = FuncRef)) as [[-> ->]|Hn].
      * do 2 apply zlen_suffix_lt in Hl.
        p_flag 4. p_step reads_const. p_last. by apply reads_exprs.
      * replace (match t with 0 | _ => [x06] ++ uleb t ++ o ++ [ValType_code ty] ++ vector es end)
          with ([x06] ++ uleb t ++ o ++ [ValType_code ty] ++ vector es) in * by by destruct t.
        do 4 apply zlen_suffix_lt in Hl.
        p_flag 6. p_step numbers_exactly. p_step reads_const. p_step reads_valtype.
        p_last. by apply reads_exprs.
    + do 2 apply zlen_suffix_lt in Hl. p_flag 5. p_step reads_valtype. p_last. by apply reads_exprs.
    + do 2 apply zlen_suffix_lt in Hl. p_flag 7. p_step reads_valtype. p_last. by apply reads_exprs.
Qed.

Definition data_ok (d : Data) : Prop :=
  match d_mode d with DataActive m o => in_u 32 m /\ ConstExpr o | DataPassive => True end.

Lemma reads_data d : data_ok d -> zlen (encode_data d) < 2 ^ 32 -> reads p_data (encode_data d) d.
Proof.
  destruct d as [mode bs]. unfold data_ok, encode_data. cbn [d_mode d_bytes]. intros Hm Hl.
  do 2 apply zlen_suffix_lt in Hl.
  destruct mode as [[|m|m] o|]; [destruct Hm as [Ht Ho]..|]; rewrite <- ?app_assoc.
  - p_flag 0. p_step reads_const. p_last. by apply reads_blob.
  - p_flag 2. p_step numbers_exactly. p_step reads_const. p_last. by apply reads_blob.
  - by destruct Ht.
  - p_flag 1. p_last. by apply reads_blob.
Qed.

Definition func_ok (f : Func) : Prop := Forall (fun l => in_u 32 l.1) (f_locals f).

Lemma reads_local l : in_u 32 l.1 -> reads p_local (encode_local l) l.
Proof. destruct l as [n t]. intros Hn. p_step numbers_exactly. p_last. apply reads_valtype. Qed.

Lemma func_inner_vector f :
  func_inner f = vector (map encode_local (f_locals f)) ++ f_body f.
Proof. unfold func_inner, vector. by rewrite zlen_map, app_assoc. Qed.

Lemma encode_local_pos l : 0 < zlen (encode_local l).
Proof. unfold encode_local. rewrite zlen_app. pose proof (zlen_uleb_pos l.1).
  pose proof (zlen_nonneg [ValType_code l.2]). lia. Qed.

Lemma reads_code f :
  func_ok f -> zlen (encode_func f) < 2 ^ 32 ->
  reads p_code (encode_func f) (f_locals f, f_body f).
Proof.
  intros Hf Hl. apply zlen_suffix_lt in Hl. apply reads_sized; [done|].
  rewrite func_inner_vector in *.
  pose proof (zlen_app_le_l (vector (map encode_local (f_locals f))) (f_body f)).
  unfold whole, mbind, parser_bind.
  assert (reads (p_vec p_local) (vector (map encode_local (f_locals f))) (f_locals f)) as E.
  { apply reads_vec_id; [|eapply Forall_impl; [exact Hf|apply reads_local]].
    apply (vector_bounds encode_local); [apply Forall_true, encode_local_pos|lia]. }
  rewrite E. done.
Qed.

(** ** What a module says *)

Definition sec_items {A} (f : list A -> Section_) (l : list A) : list Section_ :=
  match l with [] => [] | _ => [f l] end.

Definition view_customs (m : ModuleBuilder) (id : option Z) : list Section_ :=
  map (fun c => SecCustom (c_name c) (c_payload c)) (customs_at m id).

(** The contents of the builder, section by section. *)
Definition view (m : ModuleBuilder) : list Section_ :=
  view_customs m None ++
  sec_items SecType (b_types m) ++ view_customs m (Some TYPE) ++
  sec_items SecImport (b_imports m) ++ view_customs m (Some IMPORT) ++
  sec_items SecFunction (b_funcs m) ++ view_customs m (Some FUNCTION) ++
  sec_items SecTable (b_tables m) ++ view_customs m (Some TABLE) ++
  sec_items SecMemory (b_memories m) ++ view_customs m (Some MEMORY) ++
  sec_items SecGlobal (map (fun g => (g_ty g, g_mutable g, g_init g)) (b_globals m)) ++
  view_customs m (Some GLOBAL) ++
  sec_items SecExport (b_exports m) ++ view_customs m (Some EXPORT) ++
  match b_start m with Some s => [SecStart s] | None => [] end ++ view_customs m (Some START) ++
  sec_items SecElem (map elem_view (b_elems m)) ++ view_customs m (Some ELEMENT) ++
  (if needs_data_count m then [SecDataCount (zlen (b_data m))] else []) ++
  view_customs m (Some DATA_COUNT) ++
  sec_items SecCode (map (fun f => (f_locals f, f_body f)) (b_code m)) ++
  view_customs m (Some CODE) ++
  sec_items SecData (b_data m) ++ view_customs m (Some DATA).

(** What Rust's types promise of the parts, and that the initialisers, offsets and
  element expressions are constant expressions. *)
Record builder_ok (m : ModuleBuilder) : Prop := {
  ok_imports : Forall import_ok (b_imports m);
  ok_funcs : Forall (in_u 32) (b_funcs m);
  ok_tables : Forall (fun t => limits_u32 (t_limits t)) (b_tables m);
  ok_memories : Forall limits_u32 (b_memories m);
  ok_globals : Forall (fun g => ConstExpr (g_init g)) (b_globals m);
  ok_exports : Forall export_ok (b_exports m);
  ok_start : match b_start m with Some s => in_u 32 s | None => True end;
  ok_elems : Forall elem_ok (b_elems m);
  ok_code : Forall func_ok (b_code m);
  ok_data : Forall data_ok (b_data m);
  ok_data_count : zlen (b_data m) < 2 ^ 32;
  ok_customs : Forall (fun c => utf8_valid (c_name c) = true) (b_customs m);
}.

(** ** Every section reads back *)

Definition small (s : Z * list chunk) : Prop := zlen (flat s.2) < 2 ^ 32.

Definition reads_as (s : Z * list chunk) (v : Section_) : Prop :=
  small s -> whole (p_section s.1) (flat s.2) = Some v.

Lemma items_read {T A} id note (enc : T -> bytes) (p : Parser A) (val : T -> A)
    (F : list A -> Section_) ts :
  p_section id = (l ← p_vec p; mret (F l)) ->
  (forall t, 0 < zlen (enc t)) ->
  Forall (fun t => zlen (enc t) < 2 ^ 32 -> reads p (enc t) (val t)) ts ->
  Forall2 reads_as (items_section id note enc ts) (sec_items F (map val ts)).
Proof.
  intros Hp Hpos H. destruct ts as [|t ts]; [constructor|].
  set (l := t :: ts) in *. change (items_section id note enc l) with [(id, items_chunks note enc l)].
  change (sec_items F (map val l)) with [F (map val l)].
  constructor; [|constructor]. unfold reads_as, small. cbn [fst snd]. rewrite flat_items, Hp.
  intros (Hn & Hs)%vector_bounds; [|by apply Forall_true].
  apply reads_whole, (reads_last _ F), reads_vec; [done|].
  eapply Forall_impl; [exact (proj2 (Forall_and _ _) (conj H Hs))|].
  intros x [Hx Hy]. by apply Hx.
Qed.

Lemma items_read_id {T} id note (enc : T -> bytes) (p : Parser T) (F : list T -> Section_) ts :
  p_section id = (l ← p_vec p; mret (F l)) ->
  (forall t, 0 < zlen (enc t)) ->
  Forall (fun t => zlen (enc t) < 2 ^ 32 -> reads p (enc t) t) ts ->
  Forall2 reads_as (items_section id note enc ts) (sec_items F ts).
Proof. intros. rewrite <- (map_id ts) at 2. by apply (items_read id note enc p (fun t => t) F). Qed.

Lemma customs_read m id :
  builder_ok m -> Forall2 reads_as (customs_sections m id) (view_customs m id).
Proof.
  intros Hm. unfold customs_sections, view_customs.
  assert (Forall (fun c => utf8_valid (c_name c) = true) (customs_at m id)) as H.
  { unfold customs_at. apply Forall_filter_keep, ok_customs, Hm. }
  induction H as [|c cs Hc _ IH]; [constructor|]. cbn [map]. constructor; [|exact IH].
  unfold reads_as, small, custom_section. cbn [fst snd].
  unfold flat. cbn [map concat k_bytes]. rewrite app_nil_r. unfold custom_body. intros Hs.
  pose proof (zlen_wasm_name (c_name c)).
  pose proof (zlen_app_le_l (wasm_name (c_name c)) (c_payload c)).
  change (p_section CUSTOM) with (n ← p_name; p ← p_rest; mret (SecCustom n p)).
  unfold whole, mbind, parser_bind.
  by rewrite (reads_name (c_name c) ltac:(lia) Hc (c_payload c)).
Qed.

(** A section of one number. *)
Lemma number_read id note v (F : Z -> Section_) :
  p_section id = (n ← p_u32; mret (F n)) -> in_u 32 v ->
  reads_as (id, [noted note.1 note.2 (uleb v)]) (F v).
Proof.
  intros Hp Hv _. cbn [fst snd]. unfold flat. cbn [map concat k_bytes noted].
  rewrite app_nil_r, Hp. by apply reads_whole, (reads_last _ F), numbers_exactly.
Qed.

Lemma flat_code_section base fs :
  flat (plain (uleb (zlen fs)) :: concat (imap (code_chunks base) fs)) = vector (map encode_func fs).
Proof.
  unfold vector. rewrite zlen_map, flat_cons. f_equal. apply (flat_code_chunks _ _ 0).
Qed.

Lemma encode_func_pos f : 0 < zlen (encode_func f).
Proof.
  rewrite zlen_encode_func. pose proof (zlen_uleb_pos (zlen (func_inner f))).
  pose proof (zlen_nonneg (func_inner f)). lia.
Qed.

Lemma code_read m :
  builder_ok m ->
  Forall2 reads_as (code_section m) (sec_items SecCode (map (fun f => (f_locals f, f_body f)) (b_code m))).
Proof.
  intros Hm. pose proof (ok_code m Hm) as H. unfold code_section.
  destruct (b_code m) as [|f fs]; [constructor|]. set (l := f :: fs) in *.
  change (sec_items SecCode ?k) with [SecCode (map (fun f => (f_locals f, f_body f)) l)].
  constructor; [|constructor]. unfold reads_as, small. cbn [fst snd].
  rewrite flat_code_section. change (p_section CODE) with (l ← p_vec p_code; mret (SecCode l)).
  intros (Hn & Hs)%vector_bounds; [|apply Forall_true, encode_func_pos].
  apply reads_whole, (reads_last _ SecCode), reads_vec; [done|].
  eapply Forall_impl; [exact (proj2 (Forall_and _ _) (conj H Hs))|]. intros x [Hx Hy]. by apply reads_code.
Qed.

(** No item is empty. *)
Lemma cons_pos (b : byte) bs : 0 < zlen (b :: bs).
Proof. rewrite zlen_cons. pose proof (zlen_nonneg bs). lia. Qed.

Lemma name_pos s bs : 0 < zlen (wasm_name s ++ bs).
Proof.
  pose proof (zlen_app_le_l (wasm_name s) bs). pose proof (zlen_wasm_name s).
  pose proof (zlen_nonneg s). lia.
Qed.

Lemma Limits_encode_pos l : 0 < zlen (Limits_encode l).
Proof. destruct l as [mi [ma|]]; apply cons_pos. Qed.

Lemma encode_elem_pos e : 0 < zlen (encode_elem e).
Proof.
  destruct e as [mode ty funcs exprs]. unfold encode_elem. cbn.
  destruct exprs; destruct mode as [[]| |]; try case_bool_decide; apply cons_pos.
Qed.

Lemma encode_data_pos d : 0 < zlen (encode_data d).
Proof. destruct d as [[[]|] bs]; apply cons_pos. Qed.

Lemma Forall_late {A} (P : A -> Prop) (Q R : A -> Prop) l :
  (forall a, P a -> Q a -> R a) -> Forall P l -> Forall (fun a => Q a -> R a) l.
Proof. intros H Hl. eapply Forall_impl; [exact Hl|naive_solver]. Qed.

Lemma sections_read m : builder_ok m -> Forall2 reads_as (sections m) (view m).
Proof.
  intros Hm. pose proof Hm as []. unfold sections, view.
  repeat apply Forall2_app; try (by apply customs_read); [| | | | | | | | | | |].
  - apply (items_read_id TYPE _ _ p_functype); [done|intros; apply cons_pos|].
    apply Forall_true. apply reads_functype.
  - apply (items_read_id IMPORT _ _ p_import); [done|intros; apply name_pos|].
    eapply Forall_late; [|exact ok_imports0]. apply reads_import.
  - apply (items_read_id FUNCTION _ _ p_u32); [done|apply zlen_uleb_pos|].
    eapply Forall_impl; [exact ok_funcs0|]. intros. by apply numbers_exactly.
  - apply (items_read_id TABLE _ _ p_table); [done|intros; apply cons_pos|].
    eapply Forall_impl; [exact ok_tables0|]. intros. by apply reads_table.
  - apply (items_read_id MEMORY _ _ p_limits); [done|apply Limits_encode_pos|].
    eapply Forall_impl; [exact ok_memories0|]. intros. by apply reads_limits.
  - apply (items_read GLOBAL _ _ p_global); [done|intros; apply cons_pos|].
    eapply Forall_impl; [exact ok_globals0|]. intros. by apply reads_global.
  - apply (items_read_id EXPORT _ _ p_export); [done|intros; apply name_pos|].
    eapply Forall_late; [|exact ok_exports0]. apply reads_export.
  - unfold start_section. destruct (b_start m) as [s|]; [|constructor].
    constructor; [by apply (number_read START (_, _) s SecStart)|constructor].
  - apply (items_read ELEMENT _ _ p_elem); [done|apply encode_elem_pos|].
    eapply Forall_late; [|exact ok_elems0]. apply reads_elem.
  - unfold data_count_section. destruct (needs_data_count m); [|constructor].
    constructor; [|constructor].
    by apply (number_read DATA_COUNT (_, _) (zlen (b_data m)) SecDataCount), in_u32_zlen.
  - by apply code_read.
  - apply (items_read_id DATA _ _ p_data); [done|apply encode_data_pos|].
    eapply Forall_late; [|exact ok_data0]. apply reads_data.
Qed.

(** ** The sections are found, in order *)

Definition raw_section (s : Z * list chunk) : Z * bytes := (s.1, flat s.2).

Definition id_ok (s : Z * list chunk) : Prop := 0 <= s.1 < 256.

Lemma flat_section s :
  flat (section_chunks s) = [z2b s.1] ++ uleb (zlen (flat s.2)) ++ flat s.2.
Proof. done. Qed.

Lemma split_sections_ok ss :
  Forall id_ok ss -> Forall small ss -> forall fuel,
  (length ss <= fuel)%nat ->
  split_sections fuel (flat (concat (map section_chunks ss))) = Some (map raw_section ss).
Proof.
  induction 1 as [|s ss Hid _ IH]; intros Hs fuel Hf; [by destruct fuel|].
  apply Forall_cons in Hs as [Hs Hss]. destruct fuel as [|fuel]; [cbn in Hf; lia|].
  cbn [map concat]. rewrite flat_app, flat_section.
  cbn [app split_sections].
  assert (reads (id ← p_byte; body ← p_blob; mret (b2z id, body))
    ([z2b s.1] ++ uleb (zlen (flat s.2)) ++ flat s.2) (raw_section s)) as E.
  { eapply reads_bind; [apply reads_byte|]. rewrite z2b_small by exact Hid.
    unfold raw_section. p_last. by apply reads_blob. }
  rewrite <- app_assoc. specialize (E (flat (concat (map section_chunks ss)))).
  rewrite <- !app_assoc in E. cbn [app] in E. rewrite E.
  rewrite IH; [done|done|]. cbn in Hf. lia.
Qed.

Lemma order_ok_mono lo lo' ids : lo <= lo' -> order_ok lo' ids = true -> order_ok lo ids = true.
Proof.
  revert lo lo'. induction ids as [|id ids IH]; intros lo lo' Hle; [done|]. cbn [order_ok].
  destruct (id =? CUSTOM); [by apply IH|].
  rewrite !andb_true_iff, !Z.ltb_lt. intros [? ?]. split; [lia|done].
Qed.

(** Custom sections do not count. *)
Lemma order_customs lo m id rest :
  order_ok lo (map fst (customs_sections m id) ++ rest) = order_ok lo rest.
Proof.
  unfold customs_sections. induction (customs_at m id) as [|c cs IH]; [done|]. exact IH.
Qed.

(** A section that may be missing. *)
Lemma order_optional lo id (ss : list (Z * list chunk)) rest :
  (ss = [] \/ exists cs, ss = [(id, cs)]) -> id <> CUSTOM -> lo < rank id ->
  order_ok (rank id) rest = true -> order_ok lo (map fst ss ++ rest) = true.
Proof.
  intros Hss Hid Hlo Hr. destruct Hss as [->|[cs ->]]; cbn [map app fst].
  - eapply order_ok_mono; [|exact Hr]. lia.
  - cbn [order_ok]. rewrite (proj2 (Z.eqb_neq _ _)), (proj2 (Z.ltb_lt _ _)) by done. done.
Qed.

Lemma items_optional {T} id (note : nat -> T -> bytes * bytes) (enc : T -> bytes) ts :
  items_section id note enc ts = [] \/ exists cs, items_section id note enc ts = [(id, cs)].
Proof. destruct ts; [by left|right; by eexists]. Qed.

Lemma start_optional m : start_section m = [] \/ exists cs, start_section m = [(START, cs)].
Proof. unfold start_section. destruct (b_start m); [right; by eexists|by left]. Qed.

Lemma data_count_optional m :
  data_count_section m = [] \/ exists cs, data_count_section m = [(DATA_COUNT, cs)].
Proof. unfold data_count_section. destruct (needs_data_count m); [right; by eexists|by left]. Qed.

Lemma code_optional m : code_section m = [] \/ exists cs, code_section m = [(CODE, cs)].
Proof. unfold code_section. destruct (b_code m); [by left|right; by eexists]. Qed.

Lemma sections_in_order m : order_ok 0 (map fst (sections m)) = true.
Proof.
  unfold sections. rewrite !map_app.
  repeat (rewrite order_customs;
    lazymatch goal with
    | |- order_ok _ (map fst (items_section ?id _ _ _) ++ _) = _ =>
        apply (order_optional _ id); [apply items_optional|done|done|]
    | |- order_ok _ (map fst (start_section _) ++ _) = _ =>
        apply (order_optional _ START); [apply start_optional|done|done|]
    | |- order_ok _ (map fst (data_count_section _) ++ _) = _ =>
        apply (order_optional _ DATA_COUNT); [apply data_count_optional|done|done|]
    | |- order_ok _ (map fst (code_section _) ++ _) = _ =>
        apply (order_optional _ CODE); [apply code_optional|done|done|]
    end).
  rewrite <- (app_nil_r (map fst _)). by rewrite order_customs.
Qed.

Lemma sections_ids m : Forall id_ok (sections m).
Proof.
  assert (forall id, Forall id_ok (customs_sections m id)) as Hc.
  { intros id. unfold customs_sections. apply Forall_map, Forall_true. done. }
  assert (forall id ss, (ss = [] \/ exists cs, ss = [(id, cs)]) -> 0 <= id < 256 ->
    Forall id_ok ss) as Ho.
  { intros id ss [->|[cs ->]] Hid; [constructor|]. by constructor. }
  unfold sections. repeat (apply Forall_app; split); try apply Hc;
    eapply Ho; try apply items_optional; try apply start_optional;
    try apply data_count_optional; try apply code_optional; done.
Qed.

Lemma sections_small m :
  zlen (flat (chunks m)) < 2 ^ 32 -> Forall small (sections m).
Proof.
  unfold chunks. rewrite flat_app. intros Hl%zlen_suffix_lt. revert Hl.
  induction (sections m) as [|s ss IH]; [constructor|].
  cbn [map concat]. rewrite flat_app. intros Hl.
  constructor; [|apply IH; by apply zlen_suffix_lt in Hl].
  unfold small. rewrite flat_section, !zlen_app in Hl.
  pose proof (zlen_nonneg (flat (concat (map section_chunks ss)))).
  pose proof (zlen_nonneg (uleb (zlen (flat s.2)))). change (zlen [z2b s.1]) with 1 in Hl. lia.
Qed.

Lemma length_sections ss :
  (length ss <= length (flat (concat (map section_chunks ss))))%nat.
Proof.
  induction ss as [|s ss IH]; [done|]. cbn [map concat].
  rewrite flat_app, flat_section, !length_app. cbn [length]. lia.
Qed.

(** C37: a built module reads back: a reader written from the specification of the binary format - header, sections once each in the order the format fixes with custom sections anywhere, sizes, counts, LEB128 integers of bounded width, the eight forms of element segments, constant expressions - accepts the bytes of [build] and recovers every type, import, function, table, memory, global, export, start function, element and data segment, function body and custom section of the builder, and nothing else. *)
Theorem build_reads_back m (Hw : builder_ok m) (Ha : addressable m)
    (Hs : m_len (build m) < 2 ^ 32) :
  read_module (m_bytes (build m)) = Some (view m).
Proof.
  rewrite build_writes in * by done. unfold m_len, finish, write, Enc_new in *.
  cbn [m_bytes e_buf app] in *. pose proof (sections_small m Hs) as Hsm.
  unfold chunks, read_module in *. rewrite flat_app.
  change (flat header_chunks) with (magic ++ [x01; x00; x00; x00]).
  set (body := flat (concat (map section_chunks (sections m)))).
  rewrite bool_decide_true by done.
  change (zdrop 8 ((magic ++ [x01; x00; x00; x00]) ++ body)) with body.
  unfold body. rewrite (split_sections_ok (sections m) (sections_ids m) Hsm).
  2: { pose proof (length_sections (sections m)). rewrite length_app. lia. }
  cbn [mbind option_bind]. rewrite map_map. change (map (fun x => (raw_section x).1)) with (map (@fst Z (list chunk))).
  rewrite sections_in_order. pose proof (sections_read m Hw) as Hr.
  clear Hs Hw. revert Hsm. induction Hr as [|s v ss vs Hv _ IH]; [done|].
  intros [H1 H2]%Forall_cons. cbn [map mapM].
  change (whole (p_section (raw_section s).1) (raw_section s).2)
    with (whole (p_section s.1) (flat s.2)).
  by rewrite (Hv H1), (IH H2).
Qed.

Lemma sample_ok : builder_ok sample.
Proof.
  split; repeat constructor; try done; try (by split);
    try (apply (CE_i32 _); split; done).
Qed.

Lemma build_reads_back_witness :
  builder_ok sample /\ addressable sample /\ m_len (build sample) < 2 ^ 32 /\
  read_module (m_bytes (build sample)) = Some (view sample).
Proof.
  assert (addressable sample) as H by (repeat constructor).
  split; [exact sample_ok|]. split; [exact H|]. split; [by vm_compute|].
  apply (build_reads_back sample sample_ok H). by vm_compute.
Defined.
