(* ===== verification/WasmInstr.v ===== *)
(** * The instruction builder (wasmtest: wasm/instr.rs)

  [Expr] is a sequence of instructions as bytes, with the mnemonics it was
  written from.  The opcodes are the constants of [op], [op2] and [opv]; every
  method of [Expr] appends the encoding of one instruction (a [block] its whole
  body), and [Func] closes the sequence with its [end]. *)

From S2P Require Import Prelude Text WasmLeb WasmEnc WasmTypes.

(** ** Opcodes *)

Record Op : Type := mkOp { o_code : byte; o_name : bytes }.
Record Op2 : Type := mkOp2 { o2_code : Z; o2_name : bytes }.
Record OpV : Type := mkOpV { ov_code : Z; ov_name : bytes }.

(** Single-byte opcodes. *)
Module op.
Definition UNREACHABLE : Op := mkOp x00 (str "unreachable").
Definition NOP : Op := mkOp x01 (str "nop").
Definition ELSE : Op := mkOp x05 (str "else").
Definition END : Op := mkOp x0b (str "end").
Definition RETURN : Op := mkOp x0f (str "return").
Definition DROP : Op := mkOp x1a (str "drop").
Definition SELECT : Op := mkOp x1b (str "select").
Definition I32_LOAD : Op := mkOp x28 (str "i32.load").
Definition I64_LOAD : Op := mkOp x29 (str "i64.load").
Definition F32_LOAD : Op := mkOp x2a (str "f32.load").
Definition F64_LOAD : Op := mkOp x2b (str "f64.load").
Definition I32_LOAD8_S : Op := mkOp x2c (str "i32.load8_s").
Definition I32_LOAD8_U : Op := mkOp x2d (str "i32.load8_u").
Definition I32_LOAD16_S : Op := mkOp x2e (str "i32.load16_s").
Definition I32_LOAD16_U : Op := mkOp x2f (str "i32.load16_u").
Definition I64_LOAD8_S : Op := mkOp x30 (str "i64.load8_s").
Definition I64_LOAD8_U : Op := mkOp x31 (str "i64.load8_u").
Definition I64_LOAD16_S : Op := mkOp x32 (str "i64.load16_s").
Definition I64_LOAD16_U : Op := mkOp x33 (str "i64.load16_u").
Definition I64_LOAD32_S : Op := mkOp x34 (str "i64.load32_s").
Definition I64_LOAD32_U : Op := mkOp x35 (str "i64.load32_u").
Definition I32_STORE : Op := mkOp x36 (str "i32.store").
Definition I64_STORE : Op := mkOp x37 (str "i64.store").
Definition F32_STORE : Op := mkOp x38 (str "f32.store").
Definition F64_STORE : Op := mkOp x39 (str "f64.store").
Definition I32_STORE8 : Op := mkOp x3a (str "i32.store8").
Definition I32_STORE16 : Op := mkOp x3b (str "i32.store16").
Definition I64_STORE8 : Op := mkOp x3c (str "i64.store8").
Definition I64_STORE16 : Op := mkOp x3d (str "i64.store16").
Definition I64_STORE32 : Op := mkOp x3e (str "i64.store32").
Definition I32_EQZ : Op := mkOp x45 (str "i32.eqz").
Definition I32_EQ : Op := mkOp x46 (str "i32.eq").
Definition I32_NE : Op := mkOp x47 (str "i32.ne").
Definition I32_LT_S : Op := mkOp x48 (str "i32.lt_s").
Definition I32_LT_U : Op := mkOp x49 (str "i32.lt_u").
Definition I32_GT_S : Op := mkOp x4a (str "i32.gt_s").
Definition I32_GT_U : Op := mkOp x4b (str "i32.gt_u").
Definition I32_LE_S : Op := mkOp x4c (str "i32.le_s").
Definition I32_LE_U : Op := mkOp x4d (str "i32.le_u").
Definition I32_GE_S : Op := mkOp x4e (str "i32.ge_s").
Definition I32_GE_U : Op := mkOp x4f (str "i32.ge_u").
Definition I64_EQZ : Op := mkOp x50 (str "i64.eqz").
Definition I64_EQ : Op := mkOp x51 (str "i64.eq").
Definition I64_NE : Op := mkOp x52 (str "i64.ne").
Definition I64_LT_S : Op := mkOp x53 (str "i64.lt_s").
Definition I64_LT_U : Op := mkOp x54 (str "i64.lt_u").
Definition I64_GT_S : Op := mkOp x55 (str "i64.gt_s").
Definition I64_GT_U : Op := mkOp x56 (str "i64.gt_u").
Definition I64_LE_S : Op := mkOp x57 (str "i64.le_s").
Definition I64_LE_U : Op := mkOp x58 (str "i64.le_u").
Definition I64_GE_S : Op := mkOp x59 (str "i64.ge_s").
Definition I64_GE_U : Op := mkOp x5a (str "i64.ge_u").
Definition F32_EQ : Op := mkOp x5b (str "f32.eq").
Definition F32_NE : Op := mkOp x5c (str "f32.ne").
Definition F32_LT : Op := mkOp x5d (str "f32.lt").
Definition F32_GT : Op := mkOp x5e (str "f32.gt").
Definition F32_LE : Op := mkOp x5f (str "f32.le").
Definition F32_GE : Op := mkOp x60 (str "f32.ge").
Definition F64_EQ : Op := mkOp x61 (str "f64.eq").
Definition F64_NE : Op := mkOp x62 (str "f64.ne").
Definition F64_LT : Op := mkOp x63 (str "f64.lt").
Definition F64_GT : Op := mkOp x64 (str "f64.gt").
Definition F64_LE : Op := mkOp x65 (str "f64.le").
Definition F64_GE : Op := mkOp x66 (str "f64.ge").
Definition I32_CLZ : Op := mkOp x67 (str "i32.clz").
Definition I32_CTZ : Op := mkOp x68 (str "i32.ctz").
Definition I32_POPCNT : Op := mkOp x69 (str "i32.popcnt").
Definition I32_ADD : Op := mkOp x6a (str "i32.add").
Definition I32_SUB : Op := mkOp x6b (str "i32.sub").
Definition I32_MUL : Op := mkOp x6c (str "i32.mul").
Definition I32_DIV_S : Op := mkOp x6d (str "i32.div_s").
Definition I32_DIV_U : Op := mkOp x6e (str "i32.div_u").
Definition I32_REM_S : Op := mkOp x6f (str "i32.rem_s").
Definition I32_REM_U : Op := mkOp x70 (str "i32.rem_u").
Definition I32_AND : Op := mkOp x71 (str "i32.and").
Definition I32_OR : Op := mkOp x72 (str "i32.or").
Definition I32_XOR : Op := mkOp x73 (str "i32.xor").
Definition I32_SHL : Op := mkOp x74 (str "i32.shl").
Definition I32_SHR_S : Op := mkOp x75 (str "i32.shr_s").
Definition I32_SHR_U : Op := mkOp x76 (str "i32.shr_u").
Definition I32_ROTL : Op := mkOp x77 (str "i32.rotl").
Definition I32_ROTR : Op := mkOp x78 (str "i32.rotr").
Definition I64_CLZ : Op := mkOp x79 (str "i64.clz").
Definition I64_CTZ : Op := mkOp x7a (str "i64.ctz").
Definition I64_POPCNT : Op := mkOp x7b (str "i64.popcnt").
Definition I64_ADD : Op := mkOp x7c (str "i64.add").
Definition I64_SUB : Op := mkOp x7d (str "i64.sub").
Definition I64_MUL : Op := mkOp x7e (str "i64.mul").
Definition I64_DIV_S : Op := mkOp x7f (str "i64.div_s").
Definition I64_DIV_U : Op := mkOp x80 (str "i64.div_u").
Definition I64_REM_S : Op := mkOp x81 (str "i64.rem_s").
Definition I64_REM_U : Op := mkOp x82 (str "i64.rem_u").
Definition I64_AND : Op := mkOp x83 (str "i64.and").
Definition I64_OR : Op := mkOp x84 (str "i64.or").
Definition I64_XOR : Op := mkOp x85 (str "i64.xor").
Definition I64_SHL : Op := mkOp x86 (str "i64.shl").
Definition I64_SHR_S : Op := mkOp x87 (str "i64.shr_s").
Definition I64_SHR_U : Op := mkOp x88 (str "i64.shr_u").
Definition I64_ROTL : Op := mkOp x89 (str "i64.rotl").
Definition I64_ROTR : Op := mkOp x8a (str "i64.rotr").
Definition F32_ABS : Op := mkOp x8b (str "f32.abs").
Definition F32_NEG : Op := mkOp x8c (str "f32.neg").
Definition F32_CEIL : Op := mkOp x8d (str "f32.ceil").
Definition F32_FLOOR : Op := mkOp x8e (str "f32.floor").
Definition F32_TRUNC : Op := mkOp x8f (str "f32.trunc").
Definition F32_NEAREST : Op := mkOp x90 (str "f32.nearest").
Definition F32_SQRT : Op := mkOp x91 (str "f32.sqrt").
Definition F32_ADD : Op := mkOp x92 (str "f32.add").
Definition F32_SUB : Op := mkOp x93 (str "f32.sub").
Definition F32_MUL : Op := mkOp x94 (str "f32.mul").
Definition F32_DIV : Op := mkOp x95 (str "f32.div").
Definition F32_MIN : Op := mkOp x96 (str "f32.min").
Definition F32_MAX : Op := mkOp x97 (str "f32.max").
Definition F32_COPYSIGN : Op := mkOp x98 (str "f32.copysign").
Definition F64_ABS : Op := mkOp x99 (str "f64.abs").
Definition F64_NEG : Op := mkOp x9a (str "f64.neg").
Definition F64_CEIL : Op := mkOp x9b (str "f64.ceil").
Definition F64_FLOOR : Op := mkOp x9c (str "f64.floor").
Definition F64_TRUNC : Op := mkOp x9d (str "f64.trunc").
Definition F64_NEAREST : Op := mkOp x9e (str "f64.nearest").
Definition F64_SQRT : Op := mkOp x9f (str "f64.sqrt").
Definition F64_ADD : Op := mkOp xa0 (str "f64.add").
Definition F64_SUB : Op := mkOp xa1 (str "f64.sub").
Definition F64_MUL : Op := mkOp xa2 (str "f64.mul").
Definition F64_DIV : Op := mkOp xa3 (str "f64.div").
Definition F64_MIN : Op := mkOp xa4 (str "f64.min").
Definition F64_MAX : Op := mkOp xa5 (str "f64.max").
Definition F64_COPYSIGN : Op := mkOp xa6 (str "f64.copysign").
Definition I32_WRAP_I64 : Op := mkOp xa7 (str "i32.wrap_i64").
Definition I32_TRUNC_F32_S : Op := mkOp xa8 (str "i32.trunc_f32_s").
Definition I32_TRUNC_F32_U : Op := mkOp xa9 (str "i32.trunc_f32_u").
Definition I32_TRUNC_F64_S : Op := mkOp xaa (str "i32.trunc_f64_s").
Definition I32_TRUNC_F64_U : Op := mkOp xab (str "i32.trunc_f64_u").
Definition I64_EXTEND_I32_S : Op := mkOp xac (str "i64.extend_i32_s").
Definition I64_EXTEND_I32_U : Op := mkOp xad (str "i64.extend_i32_u").
Definition I64_TRUNC_F32_S : Op := mkOp xae (str "i64.trunc_f32_s").
Definition I64_TRUNC_F32_U : Op := mkOp xaf (str "i64.trunc_f32_u").
Definition I64_TRUNC_F64_S : Op := mkOp xb0 (str "i64.trunc_f64_s").
Definition I64_TRUNC_F64_U : Op := mkOp xb1 (str "i64.trunc_f64_u").
Definition F32_CONVERT_I32_S : Op := mkOp xb2 (str "f32.convert_i32_s").
Definition F32_CONVERT_I32_U : Op := mkOp xb3 (str "f32.convert_i32_u").
Definition F32_CONVERT_I64_S : Op := mkOp xb4 (str "f32.convert_i64_s").
Definition F32_CONVERT_I64_U : Op := mkOp xb5 (str "f32.convert_i64_u").
Definition F32_DEMOTE_F64 : Op := mkOp xb6 (str "f32.demote_f64").
Definition F64_CONVERT_I32_S : Op := mkOp xb7 (str "f64.convert_i32_s").
Definition F64_CONVERT_I32_U : Op := mkOp xb8 (str "f64.convert_i32_u").
Definition F64_CONVERT_I64_S : Op := mkOp xb9 (str "f64.convert_i64_s").
Definition F64_CONVERT_I64_U : Op := mkOp xba (str "f64.convert_i64_u").
Definition F64_PROMOTE_F32 : Op := mkOp xbb (str "f64.promote_f32").
Definition I32_REINTERPRET_F32 : Op := mkOp xbc (str "i32.reinterpret_f32").
Definition I64_REINTERPRET_F64 : Op := mkOp xbd (str "i64.reinterpret_f64").
Definition F32_REINTERPRET_I32 : Op := mkOp xbe (str "f32.reinterpret_i32").
Definition F64_REINTERPRET_I64 : Op := mkOp xbf (str "f64.reinterpret_i64").
Definition I32_EXTEND8_S : Op := mkOp xc0 (str "i32.extend8_s").
Definition I32_EXTEND16_S : Op := mkOp xc1 (str "i32.extend16_s").
Definition I64_EXTEND8_S : Op := mkOp xc2 (str "i64.extend8_s").
Definition I64_EXTEND16_S : Op := mkOp xc3 (str "i64.extend16_s").
Definition I64_EXTEND32_S : Op := mkOp xc4 (str "i64.extend32_s").
End op.

(** Opcodes after [0xfc] that take no immediates. *)
Module op2.
Definition I32_TRUNC_SAT_F32_S : Op2 := mkOp2 0 (str "i32.trunc_sat_f32_s").
Definition I32_TRUNC_SAT_F32_U : Op2 := mkOp2 1 (str "i32.trunc_sat_f32_u").
Definition I32_TRUNC_SAT_F64_S : Op2 := mkOp2 2 (str "i32.trunc_sat_f64_s").
Definition I32_TRUNC_SAT_F64_U : Op2 := mkOp2 3 (str "i32.trunc_sat_f64_u").
Definition I64_TRUNC_SAT_F32_S : Op2 := mkOp2 4 (str "i64.trunc_sat_f32_s").
Definition I64_TRUNC_SAT_F32_U : Op2 := mkOp2 5 (str "i64.trunc_sat_f32_u").
Definition I64_TRUNC_SAT_F64_S : Op2 := mkOp2 6 (str "i64.trunc_sat_f64_s").
Definition I64_TRUNC_SAT_F64_U : Op2 := mkOp2 7 (str "i64.trunc_sat_f64_u").
End op2.

(** Vector opcodes, after [0xfd]. *)
Module opv.
Definition V128_LOAD : OpV := mkOpV 0 (str "v128.load").
Definition V128_STORE : OpV := mkOpV 11 (str "v128.store").
Definition V128_CONST : OpV := mkOpV 12 (str "v128.const").
Definition I8X16_SHUFFLE : OpV := mkOpV 13 (str "i8x16.shuffle").
Definition I8X16_SWIZZLE : OpV := mkOpV 14 (str "i8x16.swizzle").
Definition I8X16_SPLAT : OpV := mkOpV 15 (str "i8x16.splat").
Definition I16X8_SPLAT : OpV := mkOpV 16 (str "i16x8.splat").
Definition I32X4_SPLAT : OpV := mkOpV 17 (str "i32x4.splat").
Definition I64X2_SPLAT : OpV := mkOpV 18 (str "i64x2.splat").
Definition F32X4_SPLAT : OpV := mkOpV 19 (str "f32x4.splat").
Definition F64X2_SPLAT : OpV := mkOpV 20 (str "f64x2.splat").
Definition I8X16_EXTRACT_LANE_S : OpV := mkOpV 21 (str "i8x16.extract_lane_s").
Definition I8X16_EXTRACT_LANE_U : OpV := mkOpV 22 (str "i8x16.extract_lane_u").
Definition I8X16_REPLACE_LANE : OpV := mkOpV 23 (str "i8x16.replace_lane").
Definition I16X8_EXTRACT_LANE_S : OpV := mkOpV 24 (str "i16x8.extract_lane_s").
Definition I16X8_EXTRACT_LANE_U : OpV := mkOpV 25 (str "i16x8.extract_lane_u").
Definition I16X8_REPLACE_LANE : OpV := mkOpV 26 (str "i16x8.replace_lane").
Definition I32X4_EXTRACT_LANE : OpV := mkOpV 27 (str "i32x4.extract_lane").
Definition I32X4_REPLACE_LANE : OpV := mkOpV 28 (str "i32x4.replace_lane").
Definition I64X2_EXTRACT_LANE : OpV := mkOpV 29 (str "i64x2.extract_lane").
Definition I64X2_REPLACE_LANE : OpV := mkOpV 30 (str "i64x2.replace_lane").
Definition F32X4_EXTRACT_LANE : OpV := mkOpV 31 (str "f32x4.extract_lane").
Definition F32X4_REPLACE_LANE : OpV := mkOpV 32 (str "f32x4.replace_lane").
Definition F64X2_EXTRACT_LANE : OpV := mkOpV 33 (str "f64x2.extract_lane").
Definition F64X2_REPLACE_LANE : OpV := mkOpV 34 (str "f64x2.replace_lane").
Definition I8X16_EQ : OpV := mkOpV 35 (str "i8x16.eq").
Definition I8X16_LT_S : OpV := mkOpV 37 (str "i8x16.lt_s").
Definition I32X4_EQ : OpV := mkOpV 55 (str "i32x4.eq").
Definition I32X4_NE : OpV := mkOpV 56 (str "i32x4.ne").
Definition I32X4_LT_S : OpV := mkOpV 57 (str "i32x4.lt_s").
Definition I32X4_GT_S : OpV := mkOpV 59 (str "i32x4.gt_s").
Definition F32X4_EQ : OpV := mkOpV 65 (str "f32x4.eq").
Definition F32X4_LT : OpV := mkOpV 67 (str "f32x4.lt").
Definition V128_NOT : OpV := mkOpV 77 (str "v128.not").
Definition V128_AND : OpV := mkOpV 78 (str "v128.and").
Definition V128_ANDNOT : OpV := mkOpV 79 (str "v128.andnot").
Definition V128_OR : OpV := mkOpV 80 (str "v128.or").
Definition V128_XOR : OpV := mkOpV 81 (str "v128.xor").
Definition V128_BITSELECT : OpV := mkOpV 82 (str "v128.bitselect").
Definition V128_ANY_TRUE : OpV := mkOpV 83 (str "v128.any_true").
Definition I8X16_ABS : OpV := mkOpV 96 (str "i8x16.abs").
Definition I8X16_NEG : OpV := mkOpV 97 (str "i8x16.neg").
Definition I8X16_ALL_TRUE : OpV := mkOpV 99 (str "i8x16.all_true").
Definition I8X16_BITMASK : OpV := mkOpV 100 (str "i8x16.bitmask").
Definition I8X16_ADD : OpV := mkOpV 110 (str "i8x16.add").
Definition I8X16_ADD_SAT_S : OpV := mkOpV 111 (str "i8x16.add_sat_s").
Definition I8X16_ADD_SAT_U : OpV := mkOpV 112 (str "i8x16.add_sat_u").
Definition I8X16_SUB : OpV := mkOpV 113 (str "i8x16.sub").
Definition I8X16_SUB_SAT_S : OpV := mkOpV 114 (str "i8x16.sub_sat_s").
Definition I8X16_SUB_SAT_U : OpV := mkOpV 115 (str "i8x16.sub_sat_u").
Definition I8X16_MIN_S : OpV := mkOpV 118 (str "i8x16.min_s").
Definition I8X16_MAX_S : OpV := mkOpV 120 (str "i8x16.max_s").
Definition I16X8_ALL_TRUE : OpV := mkOpV 131 (str "i16x8.all_true").
Definition I16X8_BITMASK : OpV := mkOpV 132 (str "i16x8.bitmask").
Definition I16X8_ADD : OpV := mkOpV 142 (str "i16x8.add").
Definition I16X8_SUB : OpV := mkOpV 145 (str "i16x8.sub").
Definition I16X8_MUL : OpV := mkOpV 149 (str "i16x8.mul").
Definition I32X4_ALL_TRUE : OpV := mkOpV 163 (str "i32x4.all_true").
Definition I32X4_BITMASK : OpV := mkOpV 164 (str "i32x4.bitmask").
Definition I32X4_SHL : OpV := mkOpV 171 (str "i32x4.shl").
Definition I32X4_SHR_S : OpV := mkOpV 172 (str "i32x4.shr_s").
Definition I32X4_SHR_U : OpV := mkOpV 173 (str "i32x4.shr_u").
Definition I32X4_ADD : OpV := mkOpV 174 (str "i32x4.add").
Definition I32X4_SUB : OpV := mkOpV 177 (str "i32x4.sub").
Definition I32X4_MUL : OpV := mkOpV 181 (str "i32x4.mul").
Definition I32X4_MIN_S : OpV := mkOpV 182 (str "i32x4.min_s").
Definition I32X4_MAX_S : OpV := mkOpV 184 (str "i32x4.max_s").
Definition I64X2_ADD : OpV := mkOpV 206 (str "i64x2.add").
Definition I64X2_MUL : OpV := mkOpV 213 (str "i64x2.mul").
Definition F32X4_ADD : OpV := mkOpV 228 (str "f32x4.add").
Definition F32X4_SUB : OpV := mkOpV 229 (str "f32x4.sub").
Definition F32X4_MUL : OpV := mkOpV 230 (str "f32x4.mul").
Definition F32X4_DIV : OpV := mkOpV 231 (str "f32x4.div").
Definition F32X4_MIN : OpV := mkOpV 232 (str "f32x4.min").
Definition F32X4_MAX : OpV := mkOpV 233 (str "f32x4.max").
Definition F64X2_ADD : OpV := mkOpV 240 (str "f64x2.add").
Definition F64X2_MUL : OpV := mkOpV 242 (str "f64x2.mul").
End opv.

(** ** Expressions *)

Inductive BlockType : Type :=
| BT_Empty
| BT_Value (t : ValType)
| BT_Type (i : Z).

Definition BlockType_encode (bt : BlockType) : bytes :=
  match bt with
  | BT_Empty => [x40]
  | BT_Value t => [ValType_code t]
  | BT_Type i => sleb i
  end.

Definition BlockType_text (bt : BlockType) : bytes :=
  match bt with
  | BT_Empty => []
  | BT_Value t => str " (result " ++ ValType_name t ++ str ")"
  | BT_Type i => str " (type " ++ dec i ++ str ")"
  end.

Record Expr : Type := mkExpr {
  e_code : bytes;
  e_text : list bytes;
}.

Definition Expr_new : Expr := mkExpr [] [].
Definition as_bytes (e : Expr) : bytes := e_code e.
Definition into_body (e : Expr) : bytes := e_code e ++ [x0b].
Definition text (e : Expr) : bytes := join (str ", ") (e_text e).
Definition into_const (e : Expr) : bytes := into_body e.

Definition push (bs t : bytes) (e : Expr) : Expr := mkExpr (e_code e ++ bs) (e_text e ++ [t]).
Definition bytes_ (bs t : bytes) (e : Expr) : Expr := push bs t e.

Definition then_ (other e : Expr) : Expr :=
  mkExpr (e_code e ++ e_code other) (e_text e ++ e_text other).

Definition repeat_ (n : nat) (other e : Expr) : Expr :=
  mkExpr (e_code e ++ concat (replicate n (e_code other)))
    (match n with
     | O => e_text e
     | _ => e_text e ++ [str "[" ++ dec (Z.of_nat n) ++ str " × " ++ text other ++ str "]"]
     end).

(** *** Constants *)

Definition i32_const (v : Z) : Expr -> Expr :=
  push ([x41] ++ sleb v) (str "i32.const " ++ dec_signed v).
Definition i64_const (v : Z) : Expr -> Expr :=
  push ([x42] ++ sleb v) (str "i64.const " ++ dec_signed v).

(** How Rust prints a float with [{:?}]: the only use the encoder makes of it. *)
Class FloatText : Type := {
  f32_debug : Z -> bytes;
  f64_debug : Z -> bytes;
}.

Definition f32_const `{FloatText} (v : Z) : Expr -> Expr :=
  push ([x43] ++ le_bytes 4 v) (str "f32.const " ++ f32_debug v).
Definition f32_bits (bits : Z) : Expr -> Expr :=
  push ([x43] ++ le_bytes 4 bits) (str "f32.const 0x" ++ pad_zero 8 (hex bits) ++ str " (bit pattern)").
Definition f64_const `{FloatText} (v : Z) : Expr -> Expr :=
  push ([x44] ++ le_bytes 8 v) (str "f64.const " ++ f64_debug v).
Definition f64_bits (bits : Z) : Expr -> Expr :=
  push ([x44] ++ le_bytes 8 bits) (str "f64.const 0x" ++ pad_zero 16 (hex bits) ++ str " (bit pattern)").

(** *** Locals and globals *)

Definition local_get (n : Z) : Expr -> Expr := push ([x20] ++ uleb n) (str "local.get " ++ dec n).
Definition local_set (n : Z) : Expr -> Expr := push ([x21] ++ uleb n) (str "local.set " ++ dec n).
Definition local_tee (n : Z) : Expr -> Expr := push ([x22] ++ uleb n) (str "local.tee " ++ dec n).
Definition global_get (n : Z) : Expr -> Expr := push ([x23] ++ uleb n) (str "global.get " ++ dec n).
Definition global_set (n : Z) : Expr -> Expr := push ([x24] ++ uleb n) (str "global.set " ++ dec n).

(** *** Plain opcodes *)

Definition op_ (o : Op) : Expr -> Expr := push [o_code o] (o_name o).
Definition op2_ (o : Op2) : Expr -> Expr := push ([xfc] ++ uleb (o2_code o)) (o2_name o).
Definition opv_ (o : OpV) : Expr -> Expr := push ([xfd] ++ uleb (ov_code o)) (ov_name o).

Definition opv_lane (o : OpV) (lane : byte) : Expr -> Expr :=
  push ([xfd] ++ uleb (ov_code o) ++ [lane]) (ov_name o ++ str " " ++ dec (b2z lane)).

(** [1u32 << align]: the shift amount is taken modulo the width where it is not checked. *)
Definition shl1 (align : Z) : Z := wrap_u 32 (Z.shiftl 1 (align mod 32)).

Definition memarg_text (name : bytes) (align offset : Z) : bytes :=
  name ++ str " align=" ++ dec (shl1 align) ++ str " offset=" ++ dec offset.

Definition opv_mem (o : OpV) (align offset : Z) : Expr -> Expr :=
  push ([xfd] ++ uleb (ov_code o) ++ uleb align ++ uleb offset) (memarg_text (ov_name o) align offset).

(** The array has sixteen bytes. *)
Definition lane_text (bs : bytes) (i : nat) : bytes :=
  dec_signed (wrap_s 32 (le_val (take 4 (drop (4 * i) bs)))).

Definition v128_const (bs : bytes) : Expr -> Expr :=
  push ([xfd] ++ uleb (ov_code opv.V128_CONST) ++ bs)
    (str "v128.const i32x4 " ++ join (str " ") (map (lane_text bs) [0; 1; 2; 3]%nat)).

Definition v128_const_i32x4 (lanes : list Z) : Expr -> Expr :=
  v128_const (concat (map (le_bytes 4) lanes)).

Definition i8x16_shuffle (lanes : bytes) : Expr -> Expr :=
  push ([xfd] ++ uleb (ov_code opv.I8X16_SHUFFLE) ++ lanes)
    (str "i8x16.shuffle " ++ join (str " ") (map (fun l => dec (b2z l)) lanes)).

Definition v128_load (offset : Z) : Expr -> Expr := opv_mem opv.V128_LOAD 4 offset.
Definition v128_store (offset : Z) : Expr -> Expr := opv_mem opv.V128_STORE 4 offset.

Definition nop : Expr -> Expr := op_ op.NOP.
Definition drop_ : Expr -> Expr := op_ op.DROP.
Definition unreachable : Expr -> Expr := op_ op.UNREACHABLE.
Definition return_ : Expr -> Expr := op_ op.RETURN.
Definition select : Expr -> Expr := op_ op.SELECT.

Definition select_typed (types : list ValType) : Expr -> Expr :=
  push ([x1c] ++ uleb (zlen types) ++ map ValType_code types)
    (str "select (" ++ join (str " ") (map ValType_name types) ++ str ")").

(** *** Control flow *)

(** The bytes a block appends after its opcode and type have been pushed. *)
Definition append_code (bs : bytes) (e : Expr) : Expr := mkExpr (e_code e ++ bs) (e_text e).

Definition block (bt : BlockType) (body e : Expr) : Expr :=
  let t := str "block" ++ BlockType_text bt ++ str " { " ++ text body ++ str " }" in
  let e := push ([x02] ++ BlockType_encode bt) t e in
  append_code [x0b] (append_code (e_code body) e).

Definition loop_ (bt : BlockType) (body e : Expr) : Expr :=
  let t := str "loop" ++ BlockType_text bt ++ str " { " ++ text body ++ str " }" in
  let e := push ([x03] ++ BlockType_encode bt) t e in
  append_code [x0b] (append_code (e_code body) e).

Definition if_ (bt : BlockType) (th e : Expr) : Expr :=
  let t := str "if" ++ BlockType_text bt ++ str " { " ++ text th ++ str " }" in
  let e := push ([x04] ++ BlockType_encode bt) t e in
  append_code [x0b] (append_code (e_code th) e).

Definition if_else (bt : BlockType) (th otherwise e : Expr) : Expr :=
  let t := str "if" ++ BlockType_text bt ++ str " { " ++ text th ++ str " } else { " ++
    text otherwise ++ str " }" in
  let e := push ([x04] ++ BlockType_encode bt) t e in
  let e := append_code [x05] (append_code (e_code th) e) in
  append_code [x0b] (append_code (e_code otherwise) e).

Definition br (n : Z) : Expr -> Expr := push ([x0c] ++ uleb n) (str "br " ++ dec n).
Definition br_if (n : Z) : Expr -> Expr := push ([x0d] ++ uleb n) (str "br_if " ++ dec n).
Definition call (n : Z) : Expr -> Expr := push ([x10] ++ uleb n) (str "call " ++ dec n).

Definition br_table (labels : list Z) (default : Z) : Expr -> Expr :=
  push ([x0e] ++ uleb (zlen labels) ++ concat (map uleb labels) ++ uleb default)
    (str "br_table " ++ debug_list (map dec labels) ++ str " default " ++ dec default).

Definition call_indirect (ty table : Z) : Expr -> Expr :=
  push ([x11] ++ uleb ty ++ uleb table)
    (str "call_indirect (type " ++ dec ty ++ str ") (table " ++ dec table ++ str ")").

(** *** Memory *)

Definition mem (o : Op) (align offset : Z) : Expr -> Expr :=
  push ([o_code o] ++ uleb align ++ uleb offset) (memarg_text (o_name o) align offset).

Definition i32_load (offset : Z) : Expr -> Expr := mem op.I32_LOAD 2 offset.
Definition i32_store (offset : Z) : Expr -> Expr := mem op.I32_STORE 2 offset.
Definition i64_load (offset : Z) : Expr -> Expr := mem op.I64_LOAD 3 offset.
Definition i64_store (offset : Z) : Expr -> Expr := mem op.I64_STORE 3 offset.

Definition memory_size : Expr -> Expr := push [x3f; x00] (str "memory.size").
Definition memory_grow : Expr -> Expr := push [x40; x00] (str "memory.grow").

Definition memory_init (seg : Z) : Expr -> Expr :=
  push ([xfc] ++ uleb 8 ++ uleb seg ++ [x00]) (str "memory.init " ++ dec seg).
Definition data_drop (seg : Z) : Expr -> Expr :=
  push ([xfc] ++ uleb 9 ++ uleb seg) (str "data.drop " ++ dec seg).
Definition memory_copy : Expr -> Expr := push ([xfc] ++ uleb 10 ++ [x00; x00]) (str "memory.copy").
Definition memory_fill : Expr -> Expr := push ([xfc] ++ uleb 11 ++ [x00]) (str "memory.fill").

(** *** Tables and references *)

Definition table_get (n : Z) : Expr -> Expr := push ([x25] ++ uleb n) (str "table.get " ++ dec n).
Definition table_set (n : Z) : Expr -> Expr := push ([x26] ++ uleb n) (str "table.set " ++ dec n).

Definition table_size (t : Z) : Expr -> Expr :=
  push ([xfc] ++ uleb 16 ++ uleb t) (str "table.size " ++ dec t).
Definition table_grow (t : Z) : Expr -> Expr :=
  push ([xfc] ++ uleb 15 ++ uleb t) (str "table.grow " ++ dec t).
Definition table_fill (t : Z) : Expr -> Expr :=
  push ([xfc] ++ uleb 17 ++ uleb t) (str "table.fill " ++ dec t).
Definition table_copy (dst src : Z) : Expr -> Expr :=
  push ([xfc] ++ uleb 14 ++ uleb dst ++ uleb src) (str "table.copy " ++ dec dst ++ str " " ++ dec src).
Definition table_init (seg t : Z) : Expr -> Expr :=
  push ([xfc] ++ uleb 12 ++ uleb seg ++ uleb t) (str "table.init " ++ dec seg ++ str " " ++ dec t).
Definition elem_drop (seg : Z) : Expr -> Expr :=
  push ([xfc] ++ uleb 13 ++ uleb seg) (str "elem.drop " ++ dec seg).

Definition ref_null (t : ValType) : Expr -> Expr :=
  push [xd0; ValType_code t] (str "ref.null " ++ ValType_name t).
Definition ref_is_null : Expr -> Expr := push [xd1] (str "ref.is_null").
Definition ref_func (n : Z) : Expr -> Expr := push ([xd2] ++ uleb n) (str "ref.func " ++ dec n).

(** ** Function bodies *)

Definition Func_new (e : Expr) : Func := mkFunc [] (into_body e) (text e).
Definition with_locals (locals : list (Z * ValType)) (e : Expr) : Func :=
  mkFunc locals (into_body e) (text e).
Definition Func_raw (body t : bytes) : Func := mkFunc [] body t.
Definition raw_with_locals (locals : list (Z * ValType)) (body t : bytes) : Func :=
  mkFunc locals body t.
