(* ===== verification/WasmDecode.v ===== *)
(** * Instruction sequences, read back (wasmtest: wasm/instr.rs)

  A reader of the instructions of the binary format, written from the
  specification of the format: what immediates follow each opcode, nested
  blocks, [else] and [end].  [Writes e is] says that the expression [e] was put
  together by the methods of [Expr] to mean the instructions [is];
  [expressions_read_back] shows that its bytes are read as exactly those. *)

From S2P Require Import Prelude Text WasmLeb WasmEnc WasmTypes WasmBuild WasmAnns WasmRead WasmInstr.

#[local] Ltac Zify.zify_post_hook ::= Z.to_euclidean_division_equations.

(** ** Instructions *)

Inductive instr : Type :=
| Plain (code : byte)
| Idx (code : byte) (n : Z)
| Idx2 (code : byte) (a b : Z)
| I32Const (v : Z)
| I64Const (v : Z)
| F32Const (bits : bytes)
| F64Const (bits : bytes)
| MemoryOp (code : byte)
| RefNull (t : ValType)
| SelectT (ts : list ValType)
| BrTable (labels : list Z) (default : Z)
| Misc (sub : Z) (args : list Z)
| Vec (sub : Z) (args : list Z) (bs : bytes)
| Block (code : byte) (bt : BlockType) (body : list instr)
| If (bt : BlockType) (th : list instr) (el : option (list instr)).

(** Opcodes by their immediates: none, one index, two numbers. *)
Definition plain_code (b : byte) : bool :=
  let c := b2z b in
  existsb (Z.eqb c) [0x00; 0x01; 0x0f; 0x1a; 0x1b; 0xd1] || ((0x45 <=? c) && (c <=? 0xc4)).
Definition idx_code (b : byte) : bool :=
  let c := b2z b in
  existsb (Z.eqb c) [0x0c; 0x0d; 0x10; 0xd2] || ((0x20 <=? c) && (c <=? 0x26)).
Definition mem_code (b : byte) : bool := let c := b2z b in (0x28 <=? c) && (c <=? 0x3e).
Definition idx2_code (b : byte) : bool := (b2z b =? 0x11) || mem_code b.

(** How many numbers follow an opcode after [0xfc]; [None] when it is not one. *)
Definition misc_args (sub : Z) : option nat :=
  if (0 <=? sub) && (sub <=? 7) then Some 0%nat
  else match sub with
       | 8 | 10 | 12 | 14 => Some 2%nat
       | 9 | 11 | 13 | 15 | 16 | 17 => Some 1%nat
       | _ => None
       end.

(** How many numbers and then how many raw bytes follow an opcode after [0xfd]. *)
Definition vec_args (sub : Z) : nat * Z :=
  if (sub <=? 11) then (2%nat, 0)
  else if (sub <=? 13) then (0%nat, 16)
  else if (sub <=? 20) then (0%nat, 0)
  else if (sub <=? 34) then (0%nat, 1)
  else if (sub <=? 83) then (0%nat, 0)
  else if (sub <=? 91) then (2%nat, 1)
  else if (sub <=? 93) then (2%nat, 0)
  else (0%nat, 0).

(** A block type: [0x40], a value type in one byte, or a type index as a
  non-negative 33-bit signed number. *)
Definition p_blocktype : Parser BlockType := fun bs =>
  match bs with
  | x40 :: rest => Some (BT_Empty, rest)
  | b :: _ =>
      match p_valtype bs with
      | Some (t, rest) => Some (BT_Value t, rest)
      | None =>
          match p_signed 33 bs with
          | Some (v, rest) => if 0 <=? v then Some (BT_Type v, rest) else None
          | None => None
          end
      end
  | [] => None
  end.

(** One instruction after its opcode; [seq] reads a sequence up to the [end] or
  [else] that closes it. *)
Definition p_instr (seq : Parser (list instr * byte)) (b : byte) : Parser instr :=
  if plain_code b then mret (Plain b)
  else if idx_code b then n ← p_u32; mret (Idx b n)
  else if idx2_code b then n ← p_u32; m ← p_u32; mret (Idx2 b n m)
  else match b with
  | x41 => v ← p_signed 32; mret (I32Const v)
  | x42 => v ← p_signed 64; mret (I64Const v)
  | x43 => bs ← p_take 4; mret (F32Const bs)
  | x44 => bs ← p_take 8; mret (F64Const bs)
  | x3f | x40 => p_const_byte x00;; mret (MemoryOp b)
  | xd0 => t ← p_valtype; mret (RefNull t)
  | x1c => ts ← p_vec p_valtype; mret (SelectT ts)
  | x0e => ls ← p_vec p_u32; d ← p_u32; mret (BrTable ls d)
  | xfc => sub ← p_u32;
      match misc_args sub with
      | Some n => args ← p_times n p_u32; mret (Misc sub args)
      | None => p_fail
      end
  | xfd => sub ← p_u32; args ← p_times (vec_args sub).1 p_u32;
      bs ← p_take (vec_args sub).2; mret (Vec sub args bs)
  | x02 | x03 => bt ← p_blocktype; body ← seq;
      if decide (body.2 = x0b) then mret (Block b bt body.1) else p_fail
  | x04 => bt ← p_blocktype; th ← seq;
      if decide (th.2 = x0b) then mret (If bt th.1 None)
      else el ← seq; if decide (el.2 = x0b) then mret (If bt th.1 (Some el.1)) else p_fail
  | _ => p_fail
  end.

Fixpoint p_seq (fuel : nat) : Parser (list instr * byte) := fun bs =>
  match fuel, bs with
  | S fuel, b :: rest =>
      if decide (b = x0b \/ b = x05) then Some (([], b), rest)
      else (i ← p_instr (p_seq fuel) b; l ← p_seq fuel; mret (i :: l.1, l.2)) rest
  | _, _ => None
  end.

(** A body: a sequence closed by [end] and nothing after it.  Every instruction
  takes a byte, so the length is fuel enough. *)
Definition read_body (bs : bytes) : option (list instr) :=
  match p_seq (length bs) bs with Some ((l, x0b), []) => Some l | _ => None end.

(** ** More fuel reads the same *)

Definition refines {A} (p q : Parser A) : Prop := forall bs r, p bs = Some r -> q bs = Some r.

Lemma refines_refl {A} (p : Parser A) : refines p p.
Proof. by intros bs r. Qed.

Lemma refines_bind {A B} (p q : Parser A) (f g : A -> Parser B) :
  refines p q -> (forall a, refines (f a) (g a)) -> refines (p ≫= f) (q ≫= g).
Proof.
  intros Hp Hf bs r. unfold mbind, parser_bind.
  destruct (p bs) as [[a rest]|] eqn:E; [|done]. rewrite (Hp _ _ E). apply Hf.
Qed.

Lemma p_instr_refines p q b : refines p q -> refines (p_instr p b) (p_instr q b).
Proof.
  intros H. unfold p_instr. do 3 (case_match; [apply refines_refl|]).
  destruct b; try apply refines_refl.
  - apply refines_bind; [apply refines_refl|intros bt]. apply refines_bind; [done|intros body].
    apply refines_refl.
  - apply refines_bind; [apply refines_refl|intros bt]. apply refines_bind; [done|intros body].
    apply refines_refl.
  - apply refines_bind; [apply refines_refl|intros bt]. apply refines_bind; [done|intros th].
    case_match; [apply refines_refl|]. apply refines_bind; [done|intros el]. apply refines_refl.
Qed.

Lemma p_seq_more fuel : refines (p_seq fuel) (p_seq (S fuel)).
Proof.
  induction fuel as [|fuel IH]; intros bs r; [done|].
  destruct bs as [|b bs]; [done|].
  change (p_seq (S (S fuel)) (b :: bs)) with
    (if decide (b = x0b \/ b = x05) then Some (([], b), bs)
     else (i ← p_instr (p_seq (S fuel)) b; l ← p_seq (S fuel); mret (i :: l.1, l.2)) bs).
  cbn [p_seq]. destruct (decide (b = x0b \/ b = x05)); [done|].
  apply refines_bind; [by apply p_instr_refines|intros i].
  apply refines_bind; [done|intros l]. apply refines_refl.
Qed.

Lemma p_seq_le fuel fuel' : (fuel <= fuel')%nat -> refines (p_seq fuel) (p_seq fuel').
Proof.
  induction 1 as [|fuel' _ IH]; [apply refines_refl|].
  intros bs r Hr. by apply p_seq_more, IH.
Qed.

(** ** Bytes that mean instructions

  [denotes bs is]: wherever a sequence goes on after [bs], [bs] adds [is] in front of it. *)

Definition denotes (bs : bytes) (is_ : list instr) : Prop :=
  forall fuel rest l t r, p_seq fuel rest = Some ((l, t), r) ->
    p_seq (length bs + fuel) (bs ++ rest) = Some ((is_ ++ l, t), r).

Lemma denotes_nil : denotes [] [].
Proof. by intros fuel rest l t r. Qed.

Lemma denotes_app a b is1 is2 : denotes a is1 -> denotes b is2 -> denotes (a ++ b) (is1 ++ is2).
Proof.
  intros Ha Hb fuel rest l t r H. rewrite length_app, <- Nat.add_assoc, <- !app_assoc.
  by apply Ha, Hb.
Qed.

Lemma denotes_repeat n a is_ :
  denotes a is_ -> denotes (concat (replicate n a)) (concat (replicate n is_)).
Proof. intros H. induction n; [apply denotes_nil|]. by apply denotes_app. Qed.

(** A sequence closed by [end] or [else]. *)
Lemma denotes_closed bs is_ t :
  denotes bs is_ -> t = x0b \/ t = x05 -> forall fuel,
  (length bs < fuel)%nat -> reads (p_seq fuel) (bs ++ [t]) (is_, t).
Proof.
  intros H Ht fuel Hf rest.
  assert (p_seq 1 ([t] ++ rest) = Some (([], t), rest)) as E.
  { cbn [p_seq app]. by rewrite decide_True. }
  apply H in E. rewrite app_nil_r in E. rewrite <- app_assoc.
  eapply p_seq_le; [|exact E]. lia.
Qed.

(** One instruction: its opcode does not close a sequence, and its reader takes
  the rest of its bytes with as much fuel as it has bytes. *)
Lemma denotes_one b bs i :
  b <> x0b -> b <> x05 ->
  (forall fuel, (length bs <= fuel)%nat -> reads (p_instr (p_seq fuel) b) bs i) ->
  denotes (b :: bs) [i].
Proof.
  intros H1 H2 H fuel rest l t r Hr.
  change (length (b :: bs) + fuel)%nat with (S (length bs + fuel)).
  cbn [app p_seq]. rewrite decide_False by (by intros [?|?]).
  unfold mbind, parser_bind. rewrite (H (length bs + fuel)%nat ltac:(lia)).
  rewrite (p_seq_le fuel (length bs + fuel) ltac:(lia) _ _ Hr). done.
Qed.

(** ** The methods of [Expr]

  [Emits f i]: the method [f] appends the instruction [i].  The methods that are
  others at fixed arguments ([nop], [i32_load], [v128_load] and so on) are those
  instances. *)

Inductive Emits : (Expr -> Expr) -> instr -> Prop :=
| E_i32_const v : in_s 32 v -> Emits (i32_const v) (I32Const v)
| E_i64_const v : in_s 64 v -> Emits (i64_const v) (I64Const v)
| E_f32_const (F : FloatText) v : Emits (f32_const v) (F32Const (le_bytes 4 v))
| E_f32_bits v : Emits (f32_bits v) (F32Const (le_bytes 4 v))
| E_f64_const (F : FloatText) v : Emits (f64_const v) (F64Const (le_bytes 8 v))
| E_f64_bits v : Emits (f64_bits v) (F64Const (le_bytes 8 v))
| E_local_get n : in_u 32 n -> Emits (local_get n) (Idx x20 n)
| E_local_set n : in_u 32 n -> Emits (local_set n) (Idx x21 n)
| E_local_tee n : in_u 32 n -> Emits (local_tee n) (Idx x22 n)
| E_global_get n : in_u 32 n -> Emits (global_get n) (Idx x23 n)
| E_global_set n : in_u 32 n -> Emits (global_set n) (Idx x24 n)
| E_table_get n : in_u 32 n -> Emits (table_get n) (Idx x25 n)
| E_table_set n : in_u 32 n -> Emits (table_set n) (Idx x26 n)
| E_br n : in_u 32 n -> Emits (br n) (Idx x0c n)
| E_br_if n : in_u 32 n -> Emits (br_if n) (Idx x0d n)
| E_call n : in_u 32 n -> Emits (call n) (Idx x10 n)
| E_ref_func n : in_u 32 n -> Emits (ref_func n) (Idx xd2 n)
| E_op o : plain_code (o_code o) = true -> Emits (op_ o) (Plain (o_code o))
| E_ref_is_null : Emits ref_is_null (Plain xd1)
| E_call_indirect ty t : in_u 32 ty -> in_u 32 t -> Emits (call_indirect ty t) (Idx2 x11 ty t)
| E_mem o align offset : mem_code (o_code o) = true -> in_u 32 align -> in_u 32 offset ->
    Emits (mem o align offset) (Idx2 (o_code o) align offset)
| E_memory_size : Emits memory_size (MemoryOp x3f)
| E_memory_grow : Emits memory_grow (MemoryOp x40)
| E_ref_null t : Emits (ref_null t) (RefNull t)
| E_select_typed ts : zlen ts < 2 ^ 32 -> Emits (select_typed ts) (SelectT ts)
| E_br_table ls d : zlen ls < 2 ^ 32 -> Forall (in_u 32) ls -> in_u 32 d ->
    Emits (br_table ls d) (BrTable ls d)
| E_op2 o : misc_args (o2_code o) = Some 0%nat -> Emits (op2_ o) (Misc (o2_code o) [])
| E_memory_init n : in_u 32 n -> Emits (memory_init n) (Misc 8 [n; 0])
| E_data_drop n : in_u 32 n -> Emits (data_drop n) (Misc 9 [n])
| E_memory_copy : Emits memory_copy (Misc 10 [0; 0])
| E_memory_fill : Emits memory_fill (Misc 11 [0])
| E_table_init n t : in_u 32 n -> in_u 32 t -> Emits (table_init n t) (Misc 12 [n; t])
| E_elem_drop n : in_u 32 n -> Emits (elem_drop n) (Misc 13 [n])
| E_table_copy n t : in_u 32 n -> in_u 32 t -> Emits (table_copy n t) (Misc 14 [n; t])
| E_table_grow n : in_u 32 n -> Emits (table_grow n) (Misc 15 [n])
| E_table_size n : in_u 32 n -> Emits (table_size n) (Misc 16 [n])
| E_table_fill n : in_u 32 n -> Emits (table_fill n) (Misc 17 [n])
| E_opv o : in_u 32 (ov_code o) -> vec_args (ov_code o) = (0%nat, 0) ->
    Emits (opv_ o) (Vec (ov_code o) [] [])
| E_opv_lane o lane : in_u 32 (ov_code o) -> vec_args (ov_code o) = (0%nat, 1) ->
    Emits (opv_lane o lane) (Vec (ov_code o) [] [lane])
| E_opv_mem o align offset : in_u 32 (ov_code o) -> vec_args (ov_code o) = (2%nat, 0) ->
    in_u 32 align -> in_u 32 offset ->
    Emits (opv_mem o align offset) (Vec (ov_code o) [align; offset] [])
| E_v128_const bs : zlen bs = 16 -> Emits (v128_const bs) (Vec 12 [] bs)
| E_i8x16_shuffle bs : zlen bs = 16 -> Emits (i8x16_shuffle bs) (Vec 13 [] bs).

Definition bt_ok (bt : BlockType) : Prop :=
  match bt with BT_Type i => in_u 32 i | _ => True end.

(** Everything an expression can be put together from. *)
Inductive Writes : Expr -> list instr -> Prop :=
| W_new : Writes Expr_new []
| W_one f i e is_ : Emits f i -> Writes e is_ -> Writes (f e) (is_ ++ [i])
| W_bytes bs js t e is_ : denotes bs js -> Writes e is_ -> Writes (bytes_ bs t e) (is_ ++ js)
| W_then f js e is_ : Writes f js -> Writes e is_ -> Writes (then_ f e) (is_ ++ js)
| W_repeat n f js e is_ : Writes f js -> Writes e is_ ->
    Writes (repeat_ n f e) (is_ ++ concat (replicate n js))
| W_block bt f js e is_ : bt_ok bt -> Writes f js -> Writes e is_ ->
    Writes (block bt f e) (is_ ++ [Block x02 bt js])
| W_loop bt f js e is_ : bt_ok bt -> Writes f js -> Writes e is_ ->
    Writes (loop_ bt f e) (is_ ++ [Block x03 bt js])
| W_if bt f js e is_ : bt_ok bt -> Writes f js -> Writes e is_ ->
    Writes (if_ bt f e) (is_ ++ [If bt js None])
| W_if_else bt f js g ks e is_ : bt_ok bt -> Writes f js -> Writes g ks -> Writes e is_ ->
    Writes (if_else bt f g e) (is_ ++ [If bt js (Some ks)]).

(** ** Each method reads back *)

Lemma p_instr_plain p b : plain_code b = true -> p_instr p b = mret (Plain b).
Proof. intros H. unfold p_instr. by rewrite H. Qed.

Lemma plain_not_closed b : plain_code b = true -> b <> x0b /\ b <> x05.
Proof. intros H. split; intros ->; vm_compute in H; discriminate. Qed.

Lemma mem_code_split b :
  mem_code b = true -> plain_code b = false /\ idx_code b = false /\ idx2_code b = true /\
    b <> x0b /\ b <> x05.
Proof. destruct b; vm_compute; intros; by repeat split. Qed.

Lemma denotes_idx b n :
  plain_code b = false -> idx_code b = true -> b <> x0b -> b <> x05 -> in_u 32 n ->
  denotes ([b] ++ uleb n) [Idx b n].
Proof.
  intros H1 H2 H3 H4 Hn. apply denotes_one; [done|done|]. intros fuel _.
  unfold p_instr. rewrite H1, H2. p_last. by apply numbers_exactly.
Qed.

Lemma denotes_idx2 b n m :
  plain_code b = false -> idx_code b = false -> idx2_code b = true -> b <> x0b -> b <> x05 ->
  in_u 32 n -> in_u 32 m -> denotes ([b] ++ uleb n ++ uleb m) [Idx2 b n m].
Proof.
  intros H1 H2 H3 H4 H5 Hn Hm. apply denotes_one; [done|done|]. intros fuel _.
  unfold p_instr. rewrite H1, H2, H3. p_step numbers_exactly. p_last. by apply numbers_exactly.
Qed.

Lemma reads_numbers args :
  Forall (in_u 32) args -> reads (p_times (length args) p_u32) (concat (map uleb args)) args.
Proof.
  intros H. rewrite <- (map_id args) at 3. apply (reads_times p_u32 uleb (fun n => n)).
  eapply Forall_impl; [exact H|]. apply numbers_exactly.
Qed.

Lemma denotes_misc sub args bs :
  misc_args sub = Some (length args) -> Forall (in_u 32) args ->
  bs = uleb sub ++ concat (map uleb args) -> denotes ([xfc] ++ bs) [Misc sub args].
Proof.
  intros Hs Ha ->. apply denotes_one; [done|done|]. intros fuel _.
  change (p_instr (p_seq fuel) xfc) with
    (sub ← p_u32; match misc_args sub with
      | Some n => args ← p_times n p_u32; mret (Misc sub args) | None => p_fail end).
  assert (in_u 32 sub) as Hu.
  { unfold misc_args in Hs. destruct ((0 <=? sub) && (sub <=? 7)) eqn:E.
    - apply andb_true_iff in E as [?%Z.leb_le ?%Z.leb_le]. split; lia.
    - repeat case_match; try done; split; lia. }
  p_step numbers_exactly. rewrite Hs. p_last. by apply reads_numbers.
Qed.

Lemma denotes_vec sub args raw bs :
  in_u 32 sub -> vec_args sub = (length args, zlen raw) -> Forall (in_u 32) args ->
  bs = uleb sub ++ concat (map uleb args) ++ raw -> denotes ([xfd] ++ bs) [Vec sub args raw].
Proof.
  intros Hu Hs Ha ->. apply denotes_one; [done|done|]. intros fuel _.
  change (p_instr (p_seq fuel) xfd) with
    (sub ← p_u32; args ← p_times (vec_args sub).1 p_u32;
      bs ← p_take (vec_args sub).2; mret (Vec sub args bs)).
  p_step numbers_exactly. rewrite Hs. cbn [fst snd]. p_step reads_numbers. p_last. apply takes_exactly.
Qed.

(** The side conditions of the three lemmas above: lists of [u32]s and the empty
  tail of a concatenation. *)
Ltac u32s := repeat first [apply Forall_nil_2 | apply Forall_cons_2]; first [done | split; lia].
Ltac misc := apply denotes_misc; [done|u32s|cbn [map concat]; rewrite ?app_nil_r; done].
Ltac vec := apply denotes_vec; [done|done|u32s|cbn [map concat app]; rewrite ?app_nil_r; done].

(** A method with one opcode of its own, whose reader is [q]. *)
Ltac opcode q :=
  apply denotes_one; [done|done|];
  let fuel := fresh in intros fuel _;
  lazymatch goal with |- reads ?p ?bs ?i => change (reads q bs i) end.

(** The bytes a method pushes. *)
Lemma Emits_denotes f i :
  Emits f i -> exists bs t, (forall e, f e = push bs t e) /\ denotes bs [i].
Proof.
  destruct 1; eexists _, _; (split; [reflexivity|]);
    try (by apply denotes_idx); try (by apply denotes_idx2); try misc; try vec.
  - opcode (v ← p_signed 32; mret (I32Const v)). p_last. by apply reads_signed.
  - opcode (v ← p_signed 64; mret (I64Const v)). p_last. by apply reads_signed.
  - opcode (v ← p_take 4; mret (F32Const v)). p_last. apply (takes_exactly (le_bytes 4 v)).
  - opcode (v ← p_take 4; mret (F32Const v)). p_last. apply (takes_exactly (le_bytes 4 v)).
  - opcode (v ← p_take 8; mret (F64Const v)). p_last. apply (takes_exactly (le_bytes 8 v)).
  - opcode (v ← p_take 8; mret (F64Const v)). p_last. apply (takes_exactly (le_bytes 8 v)).
  - destruct (plain_not_closed _ H). apply denotes_one; [done|done|]. intros fuel _.
    rewrite p_instr_plain by done. apply reads_ret.
  - opcode (mret (M:=Parser) (Plain xd1)). apply reads_ret.
  - destruct (mem_code_split _ H) as (? & ? & ? & ? & ?). by apply denotes_idx2.
  - opcode (p_const_byte x00;; mret (MemoryOp x3f)). p_last. apply reads_const_byte.
  - opcode (p_const_byte x00;; mret (MemoryOp x40)). p_last. apply reads_const_byte.
  - opcode (t ← p_valtype; mret (RefNull t)). p_last. apply reads_valtype.
  - opcode (ts ← p_vec p_valtype; mret (SelectT ts)). p_last. by apply reads_types.
  - opcode (ls ← p_vec p_u32; d ← p_u32; mret (BrTable ls d)). cbn [app]. rewrite app_assoc.
    replace (uleb (zlen ls) ++ concat (map uleb ls)) with (vector (map uleb ls))
      by (unfold vector; by rewrite zlen_map).
    eapply reads_bind; [apply reads_vec_id; [done|]|p_last; by apply numbers_exactly].
    eapply Forall_impl; [exact H0|apply numbers_exactly].
  - apply (denotes_vec 12 [] bs); [done|by rewrite H|constructor|done].
  - apply (denotes_vec 13 [] bs); [done|by rewrite H|constructor|done].
Qed.

(** ** Blocks *)

Lemma sleb_head i :
  in_u 32 i -> exists b bs, sleb i = b :: bs /\ (b2z b < 64 \/ 128 <= b2z b).
Proof.
  intros [H1 H2]. unfold sleb. rewrite sleb_fuel_S.
  destruct ((-64 <=? i) && (i <? 64)) eqn:E.
  - apply andb_true_iff in E as [_ E%Z.ltb_lt]. eexists _, _. split; [done|]. left.
    rewrite Z.mod_small, z2b_small by lia. done.
  - eexists _, _. split; [done|]. right. rewrite b2z_more. lia.
Qed.

(** No value type and no [0x40] starts a type index. *)
Lemma p_blocktype_index b bs :
  b2z b < 64 \/ 128 <= b2z b ->
  p_blocktype (b :: bs) =
    match p_signed 33 (b :: bs) with
    | Some (v, rest) => if 0 <=? v then Some (BT_Type v, rest) else None
    | None => None
    end.
Proof. intros H. destruct b; try reflexivity; exfalso; vm_compute in H; by destruct H as [?|[]]. Qed.

Lemma reads_blocktype bt : bt_ok bt -> reads p_blocktype (BlockType_encode bt) bt.
Proof.
  destruct bt as [|t|i]; intros Hi rest; [done|by destruct t|]. cbn [BlockType_encode bt_ok] in *.
  destruct (sleb_head i Hi) as (b & bs & E & Hb).
  pose proof (reads_signed 33 i ltac:(lia) ltac:(unfold in_s, in_u in *; lia) rest) as H.
  rewrite E in H |- *. cbn [app] in *. rewrite p_blocktype_index, H by done.
  destruct Hi as [Hi _]. by rewrite (proj2 (Z.leb_le _ _) Hi).
Qed.

Lemma BlockType_encode_pos bt : (0 < length (BlockType_encode bt))%nat.
Proof.
  destruct bt as [|t|i]; [cbn; lia..|]. cbn [BlockType_encode]. unfold sleb.
  rewrite sleb_fuel_S. case_match; cbn; lia.
Qed.

Lemma denotes_block b bt body js :
  b = x02 \/ b = x03 -> bt_ok bt -> denotes body js ->
  denotes (b :: BlockType_encode bt ++ body ++ [x0b]) [Block b bt js].
Proof.
  intros Hb Hbt Hd. apply denotes_one; [by destruct Hb as [-> | ->]..|].
  intros fuel Hf. rewrite !length_app in Hf. cbn [length] in Hf.
  pose proof (BlockType_encode_pos bt).
  assert (p_instr (p_seq fuel) b = (bt ← p_blocktype; body ← p_seq fuel;
    if decide (body.2 = x0b) then mret (Block b bt body.1) else p_fail)) as ->
    by by destruct Hb as [-> | ->].
  eapply reads_bind; [by apply reads_blocktype|].
  rewrite <- (app_nil_r (body ++ [x0b])).
  eapply reads_bind; [apply (denotes_closed body js x0b Hd); [by left|lia]|].
  cbn [fst snd]. rewrite decide_True by done. apply reads_ret.
Qed.

Lemma denotes_if bt body js :
  bt_ok bt -> denotes body js ->
  denotes (x04 :: BlockType_encode bt ++ body ++ [x0b]) [If bt js None].
Proof.
  intros Hbt Hd. apply denotes_one; [done|done|]. intros fuel Hf.
  rewrite !length_app in Hf. cbn [length] in Hf. pose proof (BlockType_encode_pos bt).
  eapply (reads_bind p_blocktype); [by apply reads_blocktype|].
  rewrite <- (app_nil_r (body ++ [x0b])).
  eapply reads_bind; [apply (denotes_closed body js x0b Hd); [by left|lia]|].
  cbn [fst snd]. rewrite decide_True by done. apply reads_ret.
Qed.

Lemma denotes_if_else bt body js other ks :
  bt_ok bt -> denotes body js -> denotes other ks ->
  denotes (x04 :: BlockType_encode bt ++ body ++ [x05] ++ other ++ [x0b]) [If bt js (Some ks)].
Proof.
  intros Hbt Hd Ho. apply denotes_one; [done|done|]. intros fuel Hf.
  rewrite !length_app in Hf. cbn [length] in Hf. pose proof (BlockType_encode_pos bt).
  eapply (reads_bind p_blocktype); [by apply reads_blocktype|].
  rewrite (app_assoc body).
  eapply reads_bind; [apply (denotes_closed body js x05 Hd); [by right|lia]|].
  cbn [fst snd]. rewrite decide_False by done. rewrite <- (app_nil_r (other ++ [x0b])).
  eapply reads_bind; [apply (denotes_closed other ks x0b Ho); [by left|lia]|].
  cbn [fst snd]. rewrite decide_True by done. apply reads_ret.
Qed.

Lemma Writes_denotes e is_ : Writes e is_ -> denotes (e_code e) is_.
Proof.
  induction 1 as [|f i e is_ Hf _ IH|bs js t e is_ Hb _ IH|f js e is_ _ IHf _ IH
    |n f js e is_ _ IHf _ IH|bt f js e is_ Hb _ IHf _ IH|bt f js e is_ Hb _ IHf _ IH
    |bt f js e is_ Hb _ IHf _ IH|bt f js g ks e is_ Hb _ IHf _ IHg _ IH].
  - apply denotes_nil.
  - destruct (Emits_denotes f i Hf) as (bs & t & Ef & Hd). rewrite Ef. by apply denotes_app.
  - by apply denotes_app.
  - by apply denotes_app.
  - apply denotes_app; [done|]. by apply denotes_repeat.
  - cbn. rewrite <- !app_assoc. apply denotes_app; [done|]. apply denotes_block; auto.
  - cbn. rewrite <- !app_assoc. apply denotes_app; [done|]. apply denotes_block; auto.
  - cbn. rewrite <- !app_assoc. apply denotes_app; [done|]. by apply denotes_if.
  - cbn. rewrite <- !app_assoc. apply denotes_app; [done|]. by apply denotes_if_else.
Qed.

(** C38: an expression put together by the methods of [Expr] reads back: for constants, locals, globals, plain and prefixed opcodes, memory, table and reference instructions, branches and jump tables, vector instructions, and [block], [loop], [if] and [if]/[else] nested to any depth, a reader of the instructions of the binary format takes the bytes of [into_body], [end] included and nothing left over, as exactly the instructions the methods name, in order, with their operands. *)
Theorem expressions_read_back e is_ (Hw : Writes e is_) : read_body (into_body e) = Some is_.
Proof.
  unfold read_body, into_body.
  pose proof (denotes_closed _ _ x0b (Writes_denotes e is_ Hw) ltac:(by left)
    (length (e_code e ++ [x0b])) ltac:(rewrite length_app; cbn; lia) []) as H.
  rewrite app_nil_r in H. by rewrite H.
Qed.

(** A loop with a branch, a conditional with two arms, and a multi-byte type index. *)
Definition sample_expr : Expr :=
  loop_ (BT_Type 64)
    (if_else (BT_Value I32) (i32_const (-1) Expr_new) (br 1 (local_get 0 Expr_new)) Expr_new)
    (mem op.I32_LOAD 2 4 Expr_new).

Lemma expressions_read_back_witness :
  let is_ := [Idx2 x28 2 4; Block x03 (BT_Type 64)
    [If (BT_Value I32) [I32Const (-1)] (Some [Idx x20 0; Idx x0c 1])]] in
  Writes sample_expr is_ /\ read_body (into_body sample_expr) = Some is_.
Proof.
  intros is_. assert (Writes sample_expr is_) as H.
  { apply (W_loop _ _ _ _ [Idx2 x28 2 4]); [split; lia| |].
    - apply (W_if_else _ _ _ _ _ _ []); [done| | |constructor].
      + apply (W_one _ (I32Const (-1)) _ []); [constructor; split; lia|constructor].
      + apply (W_one _ (Idx x0c 1) _ [Idx x20 0]); [constructor; split; lia|].
        apply (W_one _ (Idx x20 0) _ []); [constructor; split; lia|constructor].
    - apply (W_one _ (Idx2 x28 2 4) _ []); [|constructor].
      apply (E_mem op.I32_LOAD); [done|split; lia|split; lia]. }
  split; [exact H|apply (expressions_read_back _ _ H)].
Defined.

(** ** The tables of opcodes *)

Definition all_op : list Op :=
  [op.UNREACHABLE; op.NOP; op.ELSE; op.END; op.RETURN; op.DROP; op.SELECT; op.I32_LOAD;
   op.I64_LOAD; op.F32_LOAD; op.F64_LOAD; op.I32_LOAD8_S; op.I32_LOAD8_U; op.I32_LOAD16_S;
   op.I32_LOAD16_U; op.I64_LOAD8_S; op.I64_LOAD8_U; op.I64_LOAD16_S; op.I64_LOAD16_U;
   op.I64_LOAD32_S; op.I64_LOAD32_U; op.I32_STORE; op.I64_STORE; op.F32_STORE; op.F64_STORE;
   op.I32_STORE8; op.I32_STORE16; op.I64_STORE8; op.I64_STORE16; op.I64_STORE32; op.I32_EQZ;
   op.I32_EQ; op.I32_NE; op.I32_LT_S; op.I32_LT_U; op.I32_GT_S; op.I32_GT_U; op.I32_LE_S;
   op.I32_LE_U; op.I32_GE_S; op.I32_GE_U; op.I64_EQZ; op.I64_EQ; op.I64_NE; op.I64_LT_S;
   op.I64_LT_U; op.I64_GT_S; op.I64_GT_U; op.I64_LE_S; op.I64_LE_U; op.I64_GE_S; op.I64_GE_U;
   op.F32_EQ; op.F32_NE; op.F32_LT; op.F32_GT; op.F32_LE; op.F32_GE; op.F64_EQ; op.F64_NE;
   op.F64_LT; op.F64_GT; op.F64_LE; op.F64_GE; op.I32_CLZ; op.I32_CTZ; op.I32_POPCNT;
   op.I32_ADD; op.I32_SUB; op.I32_MUL; op.I32_DIV_S; op.I32_DIV_U; op.I32_REM_S; op.I32_REM_U;
   op.I32_AND; op.I32_OR; op.I32_XOR; op.I32_SHL; op.I32_SHR_S; op.I32_SHR_U; op.I32_ROTL;
   op.I32_ROTR; op.I64_CLZ; op.I64_CTZ; op.I64_POPCNT; op.I64_ADD; op.I64_SUB; op.I64_MUL;
   op.I64_DIV_S; op.I64_DIV_U; op.I64_REM_S; op.I64_REM_U; op.I64_AND; op.I64_OR; op.I64_XOR;
   op.I64_SHL; op.I64_SHR_S; op.I64_SHR_U; op.I64_ROTL; op.I64_ROTR; op.F32_ABS; op.F32_NEG;
   op.F32_CEIL; op.F32_FLOOR; op.F32_TRUNC; op.F32_NEAREST; op.F32_SQRT; op.F32_ADD; op.F32_SUB;
   op.F32_MUL; op.F32_DIV; op.F32_MIN; op.F32_MAX; op.F32_COPYSIGN; op.F64_ABS; op.F64_NEG;
   op.F64_CEIL; op.F64_FLOOR; op.F64_TRUNC; op.F64_NEAREST; op.F64_SQRT; op.F64_ADD; op.F64_SUB;
   op.F64_MUL; op.F64_DIV; op.F64_MIN; op.F64_MAX; op.F64_COPYSIGN; op.I32_WRAP_I64;
   op.I32_TRUNC_F32_S; op.I32_TRUNC_F32_U; op.I32_TRUNC_F64_S; op.I32_TRUNC_F64_U;
   op.I64_EXTEND_I32_S; op.I64_EXTEND_I32_U; op.I64_TRUNC_F32_S; op.I64_TRUNC_F32_U;
   op.I64_TRUNC_F64_S; op.I64_TRUNC_F64_U; op.F32_CONVERT_I32_S; op.F32_CONVERT_I32_U;
   op.F32_CONVERT_I64_S; op.F32_CONVERT_I64_U; op.F32_DEMOTE_F64; op.F64_CONVERT_I32_S;
   op.F64_CONVERT_I32_U; op.F64_CONVERT_I64_S; op.F64_CONVERT_I64_U; op.F64_PROMOTE_F32;
   op.I32_REINTERPRET_F32; op.I64_REINTERPRET_F64; op.F32_REINTERPRET_I32;
   op.F64_REINTERPRET_I64; op.I32_EXTEND8_S; op.I32_EXTEND16_S; op.I64_EXTEND8_S;
   op.I64_EXTEND16_S; op.I64_EXTEND32_S].

Definition all_op2 : list Op2 :=
  [op2.I32_TRUNC_SAT_F32_S; op2.I32_TRUNC_SAT_F32_U; op2.I32_TRUNC_SAT_F64_S;
   op2.I32_TRUNC_SAT_F64_U; op2.I64_TRUNC_SAT_F32_S; op2.I64_TRUNC_SAT_F32_U;
   op2.I64_TRUNC_SAT_F64_S; op2.I64_TRUNC_SAT_F64_U].

Definition all_opv : list OpV :=
  [opv.V128_LOAD; opv.V128_STORE; opv.V128_CONST; opv.I8X16_SHUFFLE; opv.I8X16_SWIZZLE;
   opv.I8X16_SPLAT; opv.I16X8_SPLAT; opv.I32X4_SPLAT; opv.I64X2_SPLAT; opv.F32X4_SPLAT;
   opv.F64X2_SPLAT; opv.I8X16_EXTRACT_LANE_S; opv.I8X16_EXTRACT_LANE_U; opv.I8X16_REPLACE_LANE;
   opv.I16X8_EXTRACT_LANE_S; opv.I16X8_EXTRACT_LANE_U; opv.I16X8_REPLACE_LANE;
   opv.I32X4_EXTRACT_LANE; opv.I32X4_REPLACE_LANE; opv.I64X2_EXTRACT_LANE;
   opv.I64X2_REPLACE_LANE; opv.F32X4_EXTRACT_LANE; opv.F32X4_REPLACE_LANE;
   opv.F64X2_EXTRACT_LANE; opv.F64X2_REPLACE_LANE; opv.I8X16_EQ; opv.I8X16_LT_S; opv.I32X4_EQ;
   opv.I32X4_NE; opv.I32X4_LT_S; opv.I32X4_GT_S; opv.F32X4_EQ; opv.F32X4_LT; opv.V128_NOT;
   opv.V128_AND; opv.V128_ANDNOT; opv.V128_OR; opv.V128_XOR; opv.V128_BITSELECT;
   opv.V128_ANY_TRUE; opv.I8X16_ABS; opv.I8X16_NEG; opv.I8X16_ALL_TRUE; opv.I8X16_BITMASK;
   opv.I8X16_ADD; opv.I8X16_ADD_SAT_S; opv.I8X16_ADD_SAT_U; opv.I8X16_SUB; opv.I8X16_SUB_SAT_S;
   opv.I8X16_SUB_SAT_U; opv.I8X16_MIN_S; opv.I8X16_MAX_S; opv.I16X8_ALL_TRUE; opv.I16X8_BITMASK;
   opv.I16X8_ADD; opv.I16X8_SUB; opv.I16X8_MUL; opv.I32X4_ALL_TRUE; opv.I32X4_BITMASK;
   opv.I32X4_SHL; opv.I32X4_SHR_S; opv.I32X4_SHR_U; opv.I32X4_ADD; opv.I32X4_SUB; opv.I32X4_MUL;
   opv.I32X4_MIN_S; opv.I32X4_MAX_S; opv.I64X2_ADD; opv.I64X2_MUL; opv.F32X4_ADD; opv.F32X4_SUB;
   opv.F32X4_MUL; opv.F32X4_DIV; opv.F32X4_MIN; opv.F32X4_MAX; opv.F64X2_ADD; opv.F64X2_MUL].

(** No opcode and no mnemonic is given twice; every constant has the immediates
  the method meant for it writes ([else] and [end] are written by the blocks). *)
Example opcodes_are_classified :
  NoDup (map o_code all_op) /\ NoDup (map o_name all_op) /\
  NoDup (map ov_code all_opv) /\ NoDup (map ov_name all_opv) /\
  filter (fun o => plain_code (o_code o) || mem_code (o_code o) = false) all_op = [op.ELSE; op.END] /\
  Forall (fun o => misc_args (o2_code o) = Some 0%nat) all_op2 /\
  map (fun o => ov_code o) (filter (fun o => (vec_args (ov_code o)).1 = 2%nat) all_opv) = [0; 11].
Proof. repeat split; apply (bool_decide_unpack _); by vm_compute. Qed.

(** The examples of the builder's own tests. *)
Example expr_records_both :
  let e := op_ op.I32_ADD (local_get 1 (local_get 0 Expr_new)) in
  as_bytes e = [x20; x00; x20; x01; x6a] /\ text e = str "local.get 0, local.get 1, i32.add".
Proof. by vm_compute. Qed.

Example blocks_close_themselves :
  as_bytes (block BT_Empty (br 0 Expr_new) Expr_new) = [x02; x40; x0c; x00; x0b] /\
  as_bytes (if_else (BT_Value I32) (i32_const 1 Expr_new) (i32_const 2 Expr_new) Expr_new) =
    [x04; x7f; x41; x01; x05; x41; x02; x0b].
Proof. by vm_compute. Qed.

Example block_type_index_is_signed :
  map BlockType_encode [BT_Type 64; BT_Type 0] = [[xc0; x00]; [x00]].
Proof. by vm_compute. Qed.

Example memory_immediates :
  let e := mem op.I32_LOAD 2 4 Expr_new in
  as_bytes e = [x28; x02; x04] /\ text e = str "i32.load align=4 offset=4".
Proof. by vm_compute. Qed.
