(* ===== verification/Topic.v ===== *)
(** * Topics: commands in, JSON out ([disttest/examples/reference_algorithms.rs])

  The reference programs of the distributed-systems tester are state machines
  that take one command and its arguments and answer one JSON object.  This file
  has the JSON values and the readers of arguments they share.  What the JSON
  library and Rust's formatter print, and the JSON parser, are the class
  [JsonText]; the texts only ever end up in error messages. *)

From S2P Require Import Prelude Text.

(** ** JSON values *)

(** [serde_json::Value]; an object lists its members. *)
Inductive Value : Type :=
| VNull
| VBool (b : bool)
| VInt (z : Z)
| VFloat (bits : Z)
| VString (s : bytes)
| VArray (l : list Value)
| VObject (l : list (bytes * Value)).

Class JsonText : Type := {
  from_str : bytes -> Result bytes Value;
  show_value : Value -> bytes;
  debug_str : bytes -> bytes;
}.

(** [json!] of an [Option], and of a [String] read as text. *)
Definition json_opt {A} (f : A -> Value) (o : option A) : Value :=
  match o with Some a => f a | None => VNull end.

Fixpoint member (k : bytes) (l : list (bytes * Value)) : option Value :=
  match l with
  | [] => None
  | (k', v) :: l => if decide (k = k') then Some v else member k l
  end.

(** [Value::get], [as_array], [as_object], [as_str], [as_bool] and [as_i64]. *)
Definition get (k : bytes) (v : Value) : option Value :=
  match v with VObject l => member k l | _ => None end.
Definition as_array (v : Value) : option (list Value) :=
  match v with VArray l => Some l | _ => None end.
Definition as_object (v : Value) : option (list (bytes * Value)) :=
  match v with VObject l => Some l | _ => None end.
Definition as_str (v : Value) : option bytes :=
  match v with VString s => Some s | _ => None end.
Definition as_bool (v : Value) : option bool :=
  match v with VBool b => Some b | _ => None end.
Definition fits_i64 (z : Z) : bool := (- 2 ^ 63 <=? z) && (z <? 2 ^ 63).
Definition as_i64 (v : Value) : option Z :=
  match v with VInt z => if fits_i64 z then Some z else None | _ => None end.

(** ** Reading integers *)

Fixpoint digits_value (acc : Z) (bs : bytes) : option Z :=
  match bs with
  | [] => Some acc
  | b :: bs => d ← digit_val b; digits_value (acc * 10 + d) bs
  end.

(** [str::parse::<i64>]: a sign, at least one digit, and a value in range. *)
Definition parse_i64 (bs : bytes) : option Z :=
  let '(neg, ds) :=
    match bs with
    | x2d :: rest => (true, rest)
    | x2b :: rest => (false, rest)
    | _ => (false, bs)
    end in
  match ds with
  | [] => None
  | _ =>
      z ← digits_value 0 ds;
      let z := if (neg : bool) then - z else z in
      if fits_i64 z then Some z else None
  end.

(** ** Arguments *)

Definition err (message : bytes) : Value :=
  VObject [(str "ok", VBool false); (str "error", VString message)].

Section arguments.
Context `{JsonText}.

Definition missing (i : nat) : Value := err (str "argument " ++ dec (Z.of_nat i) ++ str " is missing").

Definition word (args : list bytes) (i : nat) : Result Value bytes :=
  ok_or (args !! i) (missing i).

Definition int (args : list bytes) (i : nat) : Result Value Z :=
  a ← word args i;
  ok_or (parse_i64 a) (err (str "argument " ++ dec (Z.of_nat i) ++ str " is not a whole number")).

Definition uint (args : list bytes) (i : nat) : Result Value Z :=
  n ← int args i;
  if 0 <=? n then Ok n
  else Err (err (str "argument " ++ dec (Z.of_nat i) ++ str " must not be negative")).

Definition json_arg (args : list bytes) (i : nat) : Result Value Value :=
  raw ← word args i;
  map_err (fun e => err (str "argument " ++ dec (Z.of_nat i) ++ str " is not JSON: " ++ e)) (from_str raw).

(** The elements of an array argument, each read with [f]. *)
Definition list_arg {A} (f : Value -> option A) (what : bytes) (args : list bytes) (i : nat)
    : Result Value (list A) :=
  v ← json_arg args i;
  match as_array v with
  | None => Err (err (str "argument " ++ dec (Z.of_nat i) ++ str " is not an array"))
  | Some items =>
      try_map (fun x => ok_or (f x)
        (err (str "argument " ++ dec (Z.of_nat i) ++ str " holds " ++ show_value x ++ what))) items
  end.

Definition int_list : list bytes -> nat -> Result Value (list Z) :=
  list_arg as_i64 (str ", not a whole number").
Definition word_list : list bytes -> nat -> Result Value (list bytes) :=
  list_arg as_str (str ", not a string").

Definition flag (args : list bytes) (i : nat) (truthy falsy : bytes) : Result Value bool :=
  w ← word args i;
  if decide (w = truthy) then Ok true
  else if decide (w = falsy) then Ok false
  else Err (err (str "argument " ++ dec (Z.of_nat i) ++ str " must be " ++ debug_str truthy ++
    str " or " ++ debug_str falsy ++ str ", got " ++ debug_str w)).

Definition unknown_command (command : bytes) : Value :=
  err (str "unknown command " ++ debug_str command).
End arguments.

(** One step of a topic: the answer and the state after it.  An argument that
  does not parse is answered with its error and changes nothing. *)
Definition answer {S A} (r : Result Value A) (s : S) (k : A -> Value * S) : Value * S :=
  match r with Ok a => k a | Err e => (e, s) end.

(** A parser for the examples: it reads nothing. *)
Definition no_text : JsonText := {|
  from_str := fun _ => Err [];
  show_value := fun _ => [];
  debug_str := fun s => s;
|}.

(** ** Printing and reading integers *)

Lemma digits_value_app acc a b :
  digits_value acc (a ++ b) = acc' ← digits_value acc a; digits_value acc' b.
Proof.
  revert acc. induction a as [|x a IH]; intros acc; cbn; [done|].
  destruct (digit_val x); cbn; [apply IH|done].
Qed.

Lemma digits_value_fuel fuel z :
  0 <= z -> (Z.to_nat (Z.log2 z) < fuel)%nat ->
  digits_value 0 (digits_fuel fuel 10 z []) = Some z.
Proof.
  revert z. induction fuel as [|fuel IH]; intros z Hz Hf; [lia|].
  rewrite digits_unfold by lia. pose proof (Z.mod_pos_bound z 10 ltac:(lia)).
  pose proof (Z.div_mod z 10 ltac:(lia)). rewrite digits_value_app. cbn [pred].
  assert (digits_value 0 (if z <? 10 then [] else digits_fuel fuel 10 (z / 10) []) = Some (z / 10)) as ->.
  { destruct (Z.ltb_spec z 10); [by rewrite Z.div_small by lia|].
    apply IH; [lia|]. pose proof (log2_div10 z). lia. }
  cbn [mbind option_bind digits_value]. rewrite digit_char_dec by lia. cbn. f_equal. lia.
Qed.

Lemma dec_head z : 0 <= z -> exists d rest, 0 <= d < 10 /\ dec z = digit_char d :: rest.
Proof. intros Hz. unfold dec, digits. by apply digits_head. Qed.

Lemma digit_char_sign d : 0 <= d < 10 -> digit_char d <> x2d /\ digit_char d <> x2b.
Proof.
  intros Hd. split; intros E; apply (f_equal digit_val) in E;
    rewrite digit_char_dec in E by done; done.
Qed.

Lemma digits_value_dec z : 0 <= z -> digits_value 0 (dec z) = Some z.
Proof. intros Hz. apply digits_value_fuel; [done|lia]. Qed.

(** What [{}] prints of an [i64] parses back. *)
Lemma parse_i64_dec z : in_s 64 z -> parse_i64 (dec_signed z) = Some z.
Proof.
  intros Hz. assert (fits_i64 z = true) as Hf.
  { destruct Hz. unfold fits_i64. apply andb_true_iff. rewrite Z.leb_le, Z.ltb_lt. done. }
  unfold parse_i64, dec_signed. destruct (Z.ltb_spec z 0) as [Hn|Hn].
  - destruct (dec_head (- z) ltac:(lia)) as (d & rest & _ & E). rewrite E at 1.
    rewrite digits_value_dec by lia. cbn. by rewrite Z.opp_involutive, Hf.
  - destruct (dec_head z Hn) as (d & rest & Hd & E).
    assert ((match dec z with x2d :: r => (true, r) | x2b :: r => (false, r) | _ => (false, dec z) end)
      = (false, dec z)) as ->.
    { rewrite E. destruct (digit_char_sign d Hd). by destruct (digit_char d). }
    rewrite E at 1. rewrite digits_value_dec by done. cbn. by rewrite Hf.
Qed.

Lemma dec_inj a b : 0 <= a -> 0 <= b -> dec a = dec b -> a = b.
Proof. intros Ha Hb E. apply (f_equal (digits_value 0)) in E. rewrite !digits_value_dec in E by done. congruence. Qed.
