(* ===== verification/Clocks.v ===== *)
(** * Logical clocks ([disttest/examples/prim/clocks.rs])

  The topics [lamport], [vector-clock], [version-vector] and [hlc] of the reference
  primitives, one handler per command. *)

From S2P Require Import Prelude Text OrdMap Oracles Topic.

(** ** Shared helpers *)

Definition clock_json (c : Clock) : Value := VObject (map (fun p => (p.1, VInt p.2)) (OrdMap.entries c)).

Section helpers.
Context `{JsonText}.

(** The loop of [clock_arg]. *)
Fixpoint clock_members (out : Clock) (l : list (bytes * Value)) : Result Value Clock :=
  match l with
  | [] => Ok out
  | (name, count) :: l =>
      match as_i64 count with
      | Some n => clock_members (<[name := n]> out) l
      | None => Err (err (name ++ str " does not hold a whole number"))
      end
  end.

Definition clock_arg (args : list bytes) (i : nat) : Result Value Clock :=
  v ← json_arg args i;
  match as_object v with
  | None => Err (err (str "argument " ++ dec (Z.of_nat i) ++ str " is not a clock object"))
  | Some m => clock_members ∅ m
  end.
End helpers.

Definition merge_into (into other : Clock) : Clock :=
  foldl (fun into p => <[p.1 := Z.max (component into p.1) p.2]> into) into (OrdMap.entries other).

Definition relation_step (a b : Clock) (st : bool * bool) (name : bytes) : bool * bool :=
  let '(le, ge) := st in
  let x := component a name in
  let y := component b name in
  (if y <? x then false else le, if x <? y then false else ge).

Definition relation (a b : Clock) : bytes :=
  match foldl (relation_step a b) (true, true) (map_keys a ++ map_keys b) with
  | (true, true) => str "equal"
  | (true, false) => str "before"
  | (false, true) => str "after"
  | (false, false) => str "concurrent"
  end.

(** [*c.entry(p).or_insert(0) += 1], on [i64]. *)
Definition increment (p : bytes) (c : Clock) : Clock := <[p := wrap_s 64 (component c p + 1)]> c.

(** ** [lamport] *)

Record Lamport : Type := mkLamport { lamport_clocks : Clock }.
Definition Lamport_default : Lamport := mkLamport ∅.

Definition ts_answer (t : Z) : Value := VObject [(str "ts", VInt t)].

(** What [slot] is set to. *)
Definition lamport_set (p : bytes) (t : Z) (s : Lamport) : Value * Lamport :=
  (ts_answer t, mkLamport (<[p := t]> (lamport_clocks s))).

Definition Lamport_step `{JsonText} (command : bytes) (args : list bytes) (s : Lamport) : Value * Lamport :=
  if decide (command = str "local" \/ command = str "send") then
    answer (word args 0) s (fun p => lamport_set p (wrap_s 64 (component (lamport_clocks s) p + 1)) s)
  else if decide (command = str "recv") then
    answer (word args 0) s (fun p => answer (int args 1) s (fun ts =>
      lamport_set p (wrap_s 64 (Z.max (component (lamport_clocks s) p) ts + 1)) s))
  else if decide (command = str "get") then
    answer (word args 0) s (fun p => (ts_answer (component (lamport_clocks s) p), s))
  else (unknown_command command, s).

(** ** [vector-clock] *)

Record VectorClocks : Type := mkVectorClocks { vector_clocks : gmap bytes Clock }.
Definition VectorClocks_default : VectorClocks := mkVectorClocks ∅.

Definition clock_of (s : VectorClocks) (p : bytes) : Clock := default ∅ (vector_clocks s !! p).
Definition vc_answer (c : Clock) : Value := VObject [(str "vc", clock_json c)].
Definition set_clock (p : bytes) (c : Clock) (s : VectorClocks) : Value * VectorClocks :=
  (vc_answer c, mkVectorClocks (<[p := c]> (vector_clocks s))).

Definition tick (p : bytes) (s : VectorClocks) : Value * VectorClocks :=
  set_clock p (increment p (clock_of s p)) s.

Definition VectorClocks_step `{JsonText} (command : bytes) (args : list bytes) (s : VectorClocks)
    : Value * VectorClocks :=
  if decide (command = str "local" \/ command = str "send") then answer (word args 0) s (fun p => tick p s)
  else if decide (command = str "recv") then
    answer (word args 0) s (fun p => answer (clock_arg args 1) s (fun msg =>
      set_clock p (increment p (merge_into (clock_of s p) msg)) s))
  else if decide (command = str "get") then
    answer (word args 0) s (fun p => set_clock p (clock_of s p) s)
  else if decide (command = str "cmp") then
    answer (clock_arg args 0) s (fun a => answer (clock_arg args 1) s (fun b =>
      (VObject [(str "rel", VString (relation a b))], s)))
  else (unknown_command command, s).

(** ** [version-vector] *)

Record Sibling : Type := mkSibling { sib_value : bytes; sib_vv : Clock }.

#[global] Instance sibling_eq_dec : EqDecision Sibling.
Proof. solve_decision. Defined.

(** [Ord] on maps and pairs: entry by entry, the shorter first. *)
Fixpoint entries_le (a b : list (bytes * Z)) : bool :=
  match a, b with
  | [], _ => true
  | _ :: _, [] => false
  | (k, x) :: a, (l, y) :: b =>
      if decide (k = l) then (if x <? y then true else if y <? x then false else entries_le a b)
      else bytes_le k l
  end.

Definition sibling_le (a b : Sibling) : bool :=
  if decide (sib_value a = sib_value b) then entries_le (OrdMap.entries (sib_vv a)) (OrdMap.entries (sib_vv b))
  else bytes_le (sib_value a) (sib_value b).

(** [retain], [sort_by] and [dedup_by]. *)
Definition dominated (all : list Sibling) (s : Sibling) : bool :=
  existsb (fun t => bool_decide (relation (sib_vv s) (sib_vv t) = str "before")) all.
Definition normalize (siblings : list Sibling) : list Sibling :=
  dedup_runs (sort_by sibling_le (filter (fun s => dominated siblings s = false) siblings)).

Abbreviation Store := (gmap bytes (list Sibling)).
Record VersionVectors : Type := mkVersionVectors { replicas : gmap bytes Store }.
Definition VersionVectors_default : VersionVectors := mkVersionVectors ∅.

Definition store (s : VersionVectors) (replica : bytes) : Store := default ∅ (replicas s !! replica).
Definition siblings (st : Store) (key : bytes) : list Sibling := default [] (st !! key).
Definition slot (s : VersionVectors) (replica key : bytes) : list Sibling := siblings (store s replica) key.
Definition set_slot (replica key : bytes) (l : list Sibling) (s : VersionVectors) : VersionVectors :=
  mkVersionVectors (<[replica := <[key := l]> (store s replica)]> (replicas s)).

Definition write (replica key value : bytes) (vv : Clock) (s : VersionVectors) : Value * VersionVectors :=
  (VObject [(str "vv", clock_json vv)],
   set_slot replica key (normalize (slot s replica key ++ [mkSibling value vv])) s).

Definition put (replica key value : bytes) (s : VersionVectors) : Value * VersionVectors :=
  write replica key value
    (increment replica (foldl (fun vv x => merge_into vv (sib_vv x)) ∅ (slot s replica key))) s.

Definition sibling_json (x : Sibling) : Value :=
  VObject [(str "value", VString (sib_value x)); (str "vv", clock_json (sib_vv x))].

Definition read (replica key : bytes) (s : VersionVectors) : Value * VersionVectors :=
  let l := normalize (slot s replica key) in
  (VObject [(str "siblings", VArray (map sibling_json l))], set_slot replica key l s).

Definition merged (left_ right_ : Store) : Store :=
  foldl (fun m key => <[key := normalize (siblings left_ key ++ siblings right_ key)]> m) ∅
    (dedup_runs (sort_by bytes_le (map_keys left_ ++ map_keys right_))).

Definition sync (a b : bytes) (s : VersionVectors) : Value * VersionVectors :=
  let m := merged (store s a) (store s b) in
  (VObject [(str "ok", VBool true)], mkVersionVectors (<[b := m]> (<[a := m]> (replicas s)))).

Definition VersionVectors_step `{JsonText} (command : bytes) (args : list bytes) (s : VersionVectors)
    : Value * VersionVectors :=
  if decide (command = str "put") then
    answer (word args 0) s (fun replica => answer (word args 1) s (fun key => answer (word args 2) s (fun value =>
      put replica key value s)))
  else if decide (command = str "put-ctx") then
    answer (word args 0) s (fun replica => answer (word args 1) s (fun key => answer (word args 2) s (fun value =>
      answer (clock_arg args 3) s (fun vv => write replica key value (increment replica vv) s))))
  else if decide (command = str "read") then
    answer (word args 0) s (fun replica => answer (word args 1) s (fun key => read replica key s))
  else if decide (command = str "sync") then
    answer (word args 0) s (fun a => answer (word args 1) s (fun b => sync a b s))
  else (unknown_command command, s).

(** ** [hlc] *)

Record Hlc : Type := mkHlc { hlc_clocks : gmap bytes (Z * Z) }.
Definition Hlc_default : Hlc := mkHlc ∅.

Definition hlc_of (s : Hlc) (p : bytes) : Z * Z := default (0, 0) (hlc_clocks s !! p).
Definition hlc_answer (lc : Z * Z) : Value := VObject [(str "l", VInt lc.1); (str "c", VInt lc.2)].
Definition set_hlc (p : bytes) (lc : Z * Z) (s : Hlc) : Value * Hlc :=
  (hlc_answer lc, mkHlc (<[p := lc]> (hlc_clocks s))).

Definition hlc_now (slot : Z * Z) (wall : Z) : Z * Z :=
  let l := Z.max slot.1 wall in
  (l, if l =? slot.1 then wrap_s 64 (slot.2 + 1) else 0).

Definition hlc_recv (slot : Z * Z) (wall lm cm : Z) : Z * Z :=
  let '(lo, co) := slot in
  let l := Z.max (Z.max lo lm) wall in
  (l,
   if (l =? lo) && (l =? lm) then wrap_s 64 (Z.max co cm + 1)
   else if l =? lo then wrap_s 64 (co + 1)
   else if l =? lm then wrap_s 64 (cm + 1)
   else 0).

Definition Hlc_step `{JsonText} (command : bytes) (args : list bytes) (s : Hlc) : Value * Hlc :=
  if decide (command = str "now") then
    answer (word args 0) s (fun p => answer (int args 1) s (fun wall => set_hlc p (hlc_now (hlc_of s p) wall) s))
  else if decide (command = str "recv") then
    answer (word args 0) s (fun p => answer (int args 1) s (fun wall =>
      answer (int args 2) s (fun lm => answer (int args 3) s (fun cm =>
        set_hlc p (hlc_recv (hlc_of s p) wall lm cm) s))))
  else if decide (command = str "get") then
    answer (word args 0) s (fun p => (hlc_answer (hlc_of s p), s))
  else (unknown_command command, s).
