(* ===== verification/Causality.v ===== *)
(** * What logical clocks say about causality

  A computation is a list of events, each at a process and each perhaps the receipt
  of the answer some earlier event got; happened-before is the order processes and
  messages give its events.  The topics of [Clocks] are run through their commands
  along any computation: vector clocks decide happened-before, Lamport and hybrid
  clocks respect it, and a replica with version vectors keeps the maximal writes. *)

From S2P Require Import Prelude Text OrdMap Oracles OracleOrder Topic Clocks.

(** ** Computations *)

(** An event: its process, the event whose answer it receives, and what else the
  command is given (the reading of the physical clock). *)
Record Event : Type := mkEvent { ev_proc : bytes; ev_from : option nat; ev_extra : list bytes }.

(** [edge evs i j]: event [i] is earlier at the same process, or [j] receives from it. *)
Inductive edge (evs : list Event) (i j : nat) : Prop :=
| edge_process e f : evs !! i = Some e -> evs !! j = Some f -> ev_proc e = ev_proc f -> (i < j)%nat -> edge evs i j
| edge_message f : evs !! j = Some f -> ev_from f = Some i -> edge evs i j.

Definition happened_before (evs : list Event) : nat -> nat -> Prop := tc (edge evs).

(** [i] is [j] or happened before it. *)
Definition in_past (evs : list Event) : nat -> nat -> Prop := rtc (edge evs).

(** Messages come from earlier events. *)
Definition sent_before (evs : list Event) : Prop :=
  forall i j e, evs !! j = Some e -> ev_from e = Some i -> (i < j)%nat.

Lemma edge_lt evs i j : sent_before evs -> edge evs i j -> (i < j < length evs)%nat.
Proof.
  intros Hs [e f _ Hf _ Hlt|f Hf Hi].
  - split; [done|by eapply lookup_lt_Some].
  - split; [by eapply Hs|by eapply lookup_lt_Some].
Qed.

Lemma happened_before_lt evs i j : sent_before evs -> happened_before evs i j -> (i < j < length evs)%nat.
Proof.
  intros Hs. induction 1 as [i j H|i j k H _ IH]; [by eapply edge_lt|].
  apply (edge_lt evs) in H; [lia|done].
Qed.

Lemma in_past_cases evs i j : in_past evs i j <-> i = j \/ happened_before evs i j.
Proof. apply rtc_tc. Qed.

Lemma in_past_last evs i j : in_past evs i j <-> i = j \/ exists k, in_past evs i k /\ edge evs k j.
Proof.
  split.
  - intros [->|(k & H & E)]%rtc_inv_r; eauto.
  - intros [->|(k & H & E)]; [done|]. by eapply rtc_r.
Qed.

Lemma edge_snoc_old evs e i j : (j < length evs)%nat -> edge (evs ++ [e]) i j <-> edge evs i j.
Proof.
  intros Hj. split.
  - intros [a f Ha Hf Hp Hlt|f Hf Hi].
    + rewrite lookup_app_l in Ha by lia. rewrite lookup_app_l in Hf by lia. by eapply edge_process.
    + rewrite lookup_app_l in Hf by lia. by eapply edge_message.
  - intros [a f Ha Hf Hp Hlt|f Hf Hi]; [eapply edge_process|eapply edge_message]; eauto using lookup_app_l_Some.
Qed.

Lemma in_past_snoc_old evs e i j :
  sent_before (evs ++ [e]) -> (j < length evs)%nat -> in_past (evs ++ [e]) i j <-> in_past evs i j.
Proof.
  intros Hs Hj. split; intros H.
  - revert Hj. pattern j. revert j H. apply (rtc_ind_r (R := edge (evs ++ [e]))); [done|].
    intros j k _ E IH Hk. pose proof (edge_lt _ _ _ Hs E). apply edge_snoc_old in E; [|done].
    eapply rtc_r; [apply IH; lia|done].
  - revert Hj. pattern j. revert j H. apply (rtc_ind_r (R := edge evs)); [done|].
    intros j k _ E IH Hk. apply (edge_snoc_old _ e) in E; [|done].
    pose proof (edge_lt _ _ _ Hs E). eapply rtc_r; [apply IH; lia|done].
Qed.

Lemma in_past_snoc_new evs e i :
  sent_before (evs ++ [e]) ->
  in_past (evs ++ [e]) i (length evs) <->
    i = length evs \/ exists k, (k < length evs)%nat /\ in_past evs i k /\
      (ev_from e = Some k \/ exists f, evs !! k = Some f /\ ev_proc f = ev_proc e).
Proof.
  intros Hs. assert ((evs ++ [e]) !! length evs = Some e) as He
    by (apply lookup_snoc_Some; auto).
  rewrite in_past_last. split; (intros [->|H]; [by left|right]).
  - destruct H as (k & H & E). pose proof (edge_lt _ _ _ Hs E) as [Hlt _]. exists k. split; [done|].
    apply in_past_snoc_old in H; [|done..]. split; [done|]. destruct E as [a f Ha Hf Hp _|f Hf Hi].
    + right. exists a. rewrite lookup_app_l in Ha by done. rewrite He in Hf. by injection Hf as <-.
    + left. rewrite He in Hf. by injection Hf as <-.
  - destruct H as (k & Hlt & H & Hk). exists k. split; [by apply in_past_snoc_old|].
    destruct Hk as [Hk|(f & Hf & Hp)]; [by eapply edge_message|].
    eapply edge_process; [by apply lookup_app_l_Some|exact He|done|done].
Qed.

(** ** Stamped computations

  [adv e now m] is the stamp of event [e] at a process whose clock stood at [now]
  when it received the stamp [m]. *)
Section stamps.
Context {T : Type} (zero : T) (adv : Event -> T -> option T -> T).

Definition received (e : Event) (sts : list T) (m : option T) : Prop :=
  match ev_from e with None => m = None | Some i => exists t, sts !! i = Some t /\ m = Some t end.

Definition moved (e : Event) (t : T) (now : bytes -> T) (q : bytes) : T :=
  if decide (q = ev_proc e) then t else now q.

Inductive stamped : list Event -> list T -> (bytes -> T) -> Prop :=
| stamped_nil now : (forall q, now q = zero) -> stamped [] [] now
| stamped_snoc evs sts now e m t now' :
    stamped evs sts now -> received e sts m -> t = adv e (now (ev_proc e)) m ->
    (forall q, now' q = moved e t now q) -> stamped (evs ++ [e]) (sts ++ [t]) now'.

Lemma stamped_length evs sts now : stamped evs sts now -> length sts = length evs.
Proof. induction 1; [done|]. rewrite !length_app. cbn. lia. Qed.

Lemma stamped_sent_before evs sts now : stamped evs sts now -> sent_before evs.
Proof.
  induction 1 as [|evs sts now e m t now' H IH Hm _ _]; [intros i j f Hf; done|].
  intros i j f Hf Hi. apply lookup_snoc_Some in Hf as [[_ Hf]|[Hj <-]]; [by eapply IH|].
  unfold received in Hm. rewrite Hi in Hm. destruct Hm as (x & Hx & _).
  apply lookup_lt_Some in Hx. rewrite (stamped_length _ _ _ H) in Hx. lia.
Qed.

(** An order that every step respects is respected along happened-before. *)
Lemma stamps_respect (R : T -> T -> Prop) `{!Transitive R} (bound : nat -> T -> Prop) evs sts now :
  bound 0%nat zero ->
  (forall n t, bound n t -> bound (S n) t) ->
  (forall n e x m, Z.of_nat (S n) < 2 ^ 63 -> bound n x -> (forall y, m = Some y -> bound n y) ->
     bound (S n) (adv e x m) /\ R x (adv e x m) /\ forall y, m = Some y -> R y (adv e x m)) ->
  stamped evs sts now -> Z.of_nat (length evs) < 2 ^ 63 ->
  (forall q, bound (length evs) (now q)) /\
  (forall i t, sts !! i = Some t -> bound (length evs) t) /\
  (forall i e t, evs !! i = Some e -> sts !! i = Some t -> now (ev_proc e) = t \/ R t (now (ev_proc e))) /\
  (forall i j t u, sts !! i = Some t -> sts !! j = Some u -> happened_before evs i j -> R t u).
Proof.
  intros Hz HS Hadv H. induction H as [now Hn|evs sts now e m t now' H IH Hm -> Hn]; intros Hlen.
  { split_and!; try done. intros q. by rewrite Hn. }
  rewrite length_app in *. cbn [length] in *. rewrite Nat.add_1_r in *.
  destruct IH as (B1 & B2 & B3 & B4); [lia|].
  pose proof (stamped_length _ _ _ H) as Hl.
  pose proof (stamped_sent_before _ _ _ (stamped_snoc _ _ _ _ _ _ _ H Hm eq_refl Hn)) as Hs.
  set (t := adv e (now (ev_proc e)) m) in *.
  assert (forall y, m = Some y -> exists i, ev_from e = Some i /\ sts !! i = Some y) as Hfrom.
  { intros y ->. unfold received in Hm. destruct (ev_from e) as [i|]; [|done].
    destruct Hm as (y' & Hy & [= ->]). eauto. }
  destruct (Hadv (length evs) e (now (ev_proc e)) m Hlen (B1 _)) as (C1 & C2 & C3).
  { intros y (i & _ & Hy)%Hfrom. by eapply B2. }
  fold t in C1, C2, C3. split_and!.
  - intros q. rewrite Hn. unfold moved. case_decide; [done|]. apply HS, B1.
  - intros i u [[_ Hu]|[_ <-]]%lookup_snoc_Some; [|done]. eapply HS, B2, Hu.
  - intros i f u Hf Hu. rewrite Hn. unfold moved. apply lookup_snoc_Some in Hu as [[Hi Hu]|[Hi <-]].
    + rewrite lookup_app_l in Hf by lia. case_decide as Hq; [|by eapply B3]. right.
      rewrite <- Hq in C2. destruct (B3 i f u Hf Hu) as [<-|HR]; [done|by etrans].
    + apply lookup_snoc_Some in Hf as [[Hi' _]|[_ <-]]; [lia|]. rewrite decide_True by done. by left.
  - intros i j u v Hu Hv Hb. pose proof (proj2 (in_past_cases _ i j) (or_intror Hb)) as Hp.
    apply happened_before_lt in Hb as Hlt; [|done]. rewrite length_app in Hlt. cbn in Hlt.
    rewrite lookup_app_l in Hu by lia.
    apply lookup_snoc_Some in Hv as [[Hj Hv]|[Hj <-]].
    + apply in_past_snoc_old in Hp; [|done|lia]. apply in_past_cases in Hp as [->|Hp]; [lia|]. by eapply B4.
    + subst j. rewrite Hl in Hp. apply in_past_snoc_new in Hp as [->|(k & Hk & Hp & Hw)]; [lia| |done].
      destruct (lookup_lt_is_Some_2 sts k) as [w Hwk]; [lia|].
      assert (R w t) as Rw.
      { destruct Hw as [Hw|(f & Hf & Hpf)].
        - unfold received in Hm. rewrite Hw in Hm. destruct Hm as (y & Hy & Em). rewrite Hy in Hwk.
          injection Hwk as <-. by apply C3.
        - destruct (B3 k f w Hf Hwk) as [E|HR]; rewrite Hpf in *; [by rewrite <- E|by etrans]. }
      apply in_past_cases in Hp as [->|Hp]; [by rewrite Hu in Hwk; injection Hwk as <-|].
      etrans; [by eapply B4|done].
Qed.
End stamps.

(** ** Topics that stamp events *)

(** What a topic's commands are to a computation: those that are an event of the
  process they name, those that only ask, what an event command is given beside
  the process, and when arguments carry the stamp of an answer. *)
Record ClockTopic : Type := mkClockTopic {
  ct_state : Type;
  ct_step : bytes -> list bytes -> ct_state -> Value * ct_state;
  ct_init : ct_state;
  ct_acts : bytes -> Prop;
  ct_asks : bytes -> Prop;
  ct_extra : list bytes -> Prop;
  ct_carries : Value -> list bytes -> Prop;
}.

(** The topic's answers along a computation, and its state after it. *)
Inductive computation (C : ClockTopic) : list Event -> list Value -> ct_state C -> Prop :=
| comp_start : computation C [] [] (ct_init C)
| comp_act evs vals s command p extra v s' :
    computation C evs vals s -> ct_acts C command -> ct_extra C extra ->
    ct_step C command (p :: extra) s = (v, s') ->
    computation C (evs ++ [mkEvent p None extra]) (vals ++ [v]) s'
| comp_recv evs vals s i w p extra args v s' :
    computation C evs vals s -> vals !! i = Some w -> ct_carries C w args -> ct_extra C extra ->
    ct_step C (str "recv") (p :: extra ++ args) s = (v, s') ->
    computation C (evs ++ [mkEvent p (Some i) extra]) (vals ++ [v]) s'
| comp_ask evs vals s command args v s' :
    computation C evs vals s -> ct_asks C command -> ct_step C command args s = (v, s') ->
    computation C evs vals s'.

(** What a clock promises of its commands: each is one step of [advance], whose
  stamps stay within [bound] and above what they were made from. *)
Class ClockLaws (C : ClockTopic) (T : Type) : Type := {
  clock_zero : T;
  advance : Event -> T -> option T -> T;
  shown : T -> Value;
  now_of : ct_state C -> bytes -> T;
  above : T -> T -> Prop;
  bound : nat -> T -> Prop;
  above_trans :: Transitive above;
  bound_zero : bound 0 clock_zero;
  bound_mono n t : bound n t -> bound (S n) t;
  advance_above n e x m :
    Z.of_nat (S n) < 2 ^ 63 -> bound n x -> (forall y, m = Some y -> bound n y) ->
    bound (S n) (advance e x m) /\ above x (advance e x m) /\
    forall y, m = Some y -> above y (advance e x m);
  now_init q : now_of (ct_init C) q = clock_zero;
  act_advances command p extra s v s' :
    ct_acts C command -> ct_extra C extra -> ct_step C command (p :: extra) s = (v, s') ->
    let e := mkEvent p None extra in
    let t := advance e (now_of s p) None in
    v = shown t /\ forall q, now_of s' q = moved e t (now_of s) q;
  recv_advances n y args p i extra s v s' :
    Z.of_nat n < 2 ^ 63 -> bound n y -> ct_carries C (shown y) args -> ct_extra C extra ->
    ct_step C (str "recv") (p :: extra ++ args) s = (v, s') ->
    let e := mkEvent p (Some i) extra in
    let t := advance e (now_of s p) (Some y) in
    v = shown t /\ forall q, now_of s' q = moved e t (now_of s) q;
  ask_keeps command args s v s' :
    ct_asks C command -> ct_step C command args s = (v, s') -> forall q, now_of s' q = now_of s q;
}.

Section clock.
Context {C : ClockTopic} {T : Type} `{!ClockLaws C T}.

Abbreviation stamps := (stamped (T := T) clock_zero advance).

Lemma stamps_respect_clock evs sts now :
  stamps evs sts now -> Z.of_nat (length evs) < 2 ^ 63 ->
  (forall i t, sts !! i = Some t -> bound (length evs) t) /\
  (forall i j t u, sts !! i = Some t -> sts !! j = Some u -> happened_before evs i j -> above t u).
Proof.
  intros H Hl. destruct (stamps_respect clock_zero advance above bound evs sts now) as (_ & Hb & _ & Ha);
    auto using bound_zero, bound_mono, advance_above.
Qed.

(** The answers of a computation are the stamps of [advance]. *)
Lemma computation_stamped evs vals s :
  computation C evs vals s -> Z.of_nat (length evs) < 2 ^ 63 ->
  exists sts, stamps evs sts (now_of s) /\ vals = shown <$> sts.
Proof.
  induction 1 as [|evs vals s command p extra v s' _ IH Ha He Hs|evs vals s i w p extra args v s' _ IH Hw Hc He Hs
    |evs vals s command args v s' _ IH Ha Hs]; intros Hl.
  - exists []. split; [|done]. constructor. apply now_init.
  - rewrite length_app in Hl. cbn in Hl. destruct IH as (sts & Hst & ->); [lia|].
    destruct (act_advances _ _ _ _ _ _ Ha He Hs) as [-> Hq]. eexists. split.
    + eapply stamped_snoc; [exact Hst| |done|exact Hq]. done.
    + by rewrite fmap_app.
  - rewrite length_app in Hl. cbn in Hl. destruct IH as (sts & Hst & ->); [lia|].
    apply list_lookup_fmap_Some in Hw as (y & -> & Hy) || (rewrite list_lookup_fmap, fmap_Some in Hw; destruct Hw as (y & Hy & ->)).
    destruct (stamps_respect_clock _ _ _ Hst ltac:(lia)) as [Hb _].
    destruct (recv_advances (length evs) y args p i extra s v s') as [-> Hq]; [lia|by eapply Hb|done..|].
    eexists. split.
    + eapply stamped_snoc; [exact Hst| |done|exact Hq]. unfold received. cbn. eauto.
    + by rewrite fmap_app.
  - destruct IH as (sts & Hst & ->); [done|]. exists sts. split; [|done].
    assert (forall q, now_of s' q = now_of s q) as Hq by (by eapply ask_keeps).
    inversion Hst as [now Hn|evs' sts' now e m t now' H1 H2 H3 H4]; subst.
    + constructor. intros q. by rewrite Hq.
    + eapply stamped_snoc; [done..|]. intros q. by rewrite Hq.
Qed.

Lemma computation_respects evs vals s i j v w :
  computation C evs vals s -> Z.of_nat (length evs) < 2 ^ 63 -> happened_before evs i j ->
  vals !! i = Some v -> vals !! j = Some w -> exists t u, v = shown t /\ w = shown u /\ above t u.
Proof.
  intros H Hl Hb Hv Hw. destruct (computation_stamped _ _ _ H Hl) as (sts & Hst & ->).
  rewrite list_lookup_fmap, fmap_Some in Hv, Hw. destruct Hv as (t & Ht & ->), Hw as (u & Hu & ->).
  exists t, u. split_and!; [done..|]. by eapply (proj2 (stamps_respect_clock _ _ _ Hst Hl)).
Qed.
End clock.

(** ** Reading what was shipped *)

Lemma lookup_foldl_insert {A} (l : list (bytes * A)) (m : gmap bytes A) k :
  NoDup l.*1 ->
  foldl (fun m p => <[p.1 := p.2]> m) m l !! k =
    match (list_to_map l : gmap bytes A) !! k with Some x => Some x | None => m !! k end.
Proof.
  revert m. induction l as [|[a x] l IH]; intros m; cbn; [done|]. intros [Ha Hl]%NoDup_cons.
  rewrite IH by done. destruct (decide (a = k)) as [->|Hk].
  - rewrite lookup_insert_eq, not_elem_of_list_to_map_1 by done. by rewrite lookup_insert_eq.
  - by rewrite !lookup_insert_ne by done.
Qed.

Lemma foldl_insert_entries {A} (m : gmap bytes A) :
  foldl (fun m p => <[p.1 := p.2]> m) ∅ (OrdMap.entries m) = m.
Proof.
  apply map_eq. intros k. rewrite lookup_foldl_insert by apply NoDup_map_keys.
  rewrite list_to_map_entries, lookup_empty. by destruct (m !! k).
Qed.

Lemma component_insert (c : Clock) p x k : component (<[p := x]> c) k = if decide (k = p) then x else component c k.
Proof.
  unfold component. case_decide as H; [subst; by rewrite lookup_insert_eq|by rewrite lookup_insert_ne].
Qed.

Lemma component_merge_into (a b : Clock) k :
  clock_nonneg a -> clock_nonneg b -> component (merge_into a b) k = Z.max (component a k) (component b k).
Proof.
  intros Ha Hb. specialize (Ha k). specialize (Hb k).
  assert (forall l a, NoDup l.*1 ->
    component (foldl (fun into p => <[p.1 := Z.max (component into p.1) p.2]> into) a l) k =
      match (list_to_map l : Clock) !! k with Some x => Z.max (component a k) x | None => component a k end) as H.
  { clear. induction l as [|[p x] l IH]; intros a; cbn; [done|]. intros [Hp Hl]%NoDup_cons.
    rewrite IH, component_insert by done. destruct (decide (k = p)) as [->|Hk].
    - by rewrite not_elem_of_list_to_map_1, lookup_insert_eq.
    - by rewrite lookup_insert_ne. }
  unfold merge_into. rewrite H by apply NoDup_map_keys. rewrite list_to_map_entries.
  unfold component in Ha, Hb |- *. destruct (b !! k); cbn in *; lia.
Qed.

Section shipped.
Context `{JsonText}.

Lemma clock_members_entries l out :
  (forall p, p ∈ l -> fits_i64 p.2 = true) ->
  clock_members out (map (fun p => (p.1, VInt p.2)) l) = Ok (foldl (fun m p => <[p.1 := p.2]> m) out l).
Proof.
  revert out. induction l as [|[a x] l IH]; intros out Hl; cbn; [done|].
  pose proof (Hl (a, x) (list_elem_of_here _ _)) as Hx. cbn in Hx. rewrite Hx. apply IH. intros p Hp. by apply Hl, list_elem_of_further.
Qed.

(** A clock that was shipped as JSON is read back. *)
Lemma clock_arg_shipped args i raw c :
  args !! i = Some raw -> from_str raw = Ok (clock_json c) -> (forall k, fits_i64 (component c k) = true) ->
  clock_arg args i = Ok c.
Proof.
  intros Ha Hr Hc. unfold clock_arg, json_arg, word. rewrite Ha. cbn. rewrite Hr. cbn.
  rewrite clock_members_entries; [by rewrite foldl_insert_entries|].
  intros [k x] Hx%list_elem_of_entries. specialize (Hc k). unfold component in Hc. by rewrite Hx in Hc.
Qed.
End shipped.

(** ** The three clocks as topics *)

Definition not_an_event (command : bytes) : Prop :=
  command <> str "local" /\ command <> str "send" /\ command <> str "recv" /\ command <> str "now".

Section topics.
Context `{JsonText}.

(** A message is any text that parses to the stamp in the sender's answer. *)
Definition lamport_topic : ClockTopic := {|
  ct_state := Lamport; ct_step := Lamport_step; ct_init := Lamport_default;
  ct_acts c := c = str "local" \/ c = str "send"; ct_asks := not_an_event;
  ct_extra extra := extra = [];
  ct_carries w args := exists raw t, args = [raw] /\ get (str "ts") w = Some (VInt t) /\ parse_i64 raw = Some t;
|}.

Definition vector_topic : ClockTopic := {|
  ct_state := VectorClocks; ct_step := VectorClocks_step; ct_init := VectorClocks_default;
  ct_acts c := c = str "local" \/ c = str "send"; ct_asks := not_an_event;
  ct_extra extra := extra = [];
  ct_carries w args := exists raw o, args = [raw] /\ get (str "vc") w = Some o /\ from_str raw = Ok o;
|}.

(** Every event of a hybrid clock is given a reading of the physical one. *)
Definition hlc_topic : ClockTopic := {|
  ct_state := Hlc; ct_step := Hlc_step; ct_init := Hlc_default;
  ct_acts c := c = str "now"; ct_asks := not_an_event;
  ct_extra extra := exists raw wall, extra = [raw] /\ parse_i64 raw = Some wall;
  ct_carries w args := exists a b l c, args = [a; b] /\ get (str "l") w = Some (VInt l) /\
    get (str "c") w = Some (VInt c) /\ parse_i64 a = Some l /\ parse_i64 b = Some c;
|}.
End topics.

Definition wall_of (e : Event) : Z := default 0 (head (ev_extra e) ≫= parse_i64).

(** ** Lamport clocks *)

#[local] Obligation Tactic := idtac.
#[local] Ltac topic := cbn [ct_state ct_step ct_init ct_acts ct_asks ct_extra ct_carries lamport_topic vector_topic hlc_topic].

Definition lamport_advance (e : Event) (x : Z) (m : option Z) : Z :=
  wrap_s 64 (match m with None => x | Some y => Z.max x y end + 1).
Definition lamport_bound (n : nat) (t : Z) : Prop := 0 <= t <= Z.of_nat n.

Lemma lamport_advance_above n e x m :
  Z.of_nat (S n) < 2 ^ 63 -> lamport_bound n x -> (forall y, m = Some y -> lamport_bound n y) ->
  lamport_bound (S n) (lamport_advance e x m) /\ x < lamport_advance e x m /\
  forall y, m = Some y -> y < lamport_advance e x m.
Proof.
  unfold lamport_bound, lamport_advance. intros Hn Hx Hm.
  assert (forall y, m = Some y -> 0 <= y <= Z.of_nat n) as Hm' by done.
  destruct m as [y|]; [specialize (Hm' y eq_refl)|].
  - rewrite wrap_s_small by (unfold in_s; lia). split_and!; [lia..|]. intros ? [= <-]. lia.
  - rewrite wrap_s_small by (unfold in_s; lia). split_and!; [lia..|done].
Qed.

Lemma get_ts t : get (str "ts") (ts_answer t) = Some (VInt t).
Proof. reflexivity. Qed.

#[global] Program Instance lamport_laws `{JsonText} : ClockLaws lamport_topic Z := {|
  clock_zero := 0;
  advance := lamport_advance;
  shown := ts_answer;
  now_of s p := component (lamport_clocks s) p;
  above := Z.lt;
  bound := lamport_bound;
|}.
Next Obligation. done. Qed.
Next Obligation. unfold lamport_bound. intros. lia. Qed.
Next Obligation. intros _. apply lamport_advance_above. Qed.
Next Obligation. done. Qed.
Next Obligation.
  topic. intros J command p extra s v s' Hc -> E. unfold Lamport_step in E.
  rewrite decide_True in E by done. cbn in E. injection E as <- <-.
  split; [done|]. intros q. apply component_insert.
Qed.
Next Obligation.
  topic. intros J n y args p i extra s v s' _ _ (raw & t & -> & Ht & Hp) -> E.
  rewrite get_ts in Ht. injection Ht as ->.
  unfold Lamport_step in E. rewrite decide_False, decide_True in E by (done || by intros [?|?]).
  cbn in E. unfold int, word in E. cbn in E. rewrite Hp in E. cbn in E. injection E as <- <-.
  split; [done|]. intros q. apply component_insert.
Qed.
Next Obligation.
  topic. intros J command args s v s' (H1 & H2 & H3 & _) E q. unfold Lamport_step in E.
  rewrite !decide_False in E by naive_solver. case_decide; [|by simplify_eq].
  unfold word in E. destruct (args !! 0%nat); cbn in E; by simplify_eq.
Qed.

(** ** Hybrid clocks *)

(** [(l, c)] pairs in lexicographic order. *)
Definition hlc_lt (a b : Z * Z) : Prop := a.1 < b.1 \/ (a.1 = b.1 /\ a.2 < b.2).
#[global] Instance hlc_lt_trans : Transitive hlc_lt.
Proof. unfold hlc_lt. intros [a b] [c d] [e f]; cbn. lia. Qed.

Definition hlc_advance `{JsonText} (e : Event) (x : Z * Z) (m : option (Z * Z)) : Z * Z :=
  match m with None => hlc_now x (wall_of e) | Some y => hlc_recv x (wall_of e) y.1 y.2 end.
Definition hlc_bound (n : nat) (t : Z * Z) : Prop := 0 <= t.2 <= Z.of_nat n.

Lemma hlc_advance_above `{JsonText} n e x m :
  Z.of_nat (S n) < 2 ^ 63 -> hlc_bound n x -> (forall y, m = Some y -> hlc_bound n y) ->
  hlc_bound (S n) (hlc_advance e x m) /\ hlc_lt x (hlc_advance e x m) /\
  forall y, m = Some y -> hlc_lt y (hlc_advance e x m).
Proof.
  unfold hlc_bound, hlc_lt. intros Hn Hx Hm. destruct x as [lo co]; cbn [fst snd] in Hx.
  destruct m as [[lm cm]|]; cbn [hlc_advance fst snd].
  - specialize (Hm _ eq_refl). cbn [fst snd] in Hm.
    enough (forall (b : Z * Z), b = hlc_recv (lo, co) (wall_of e) lm cm ->
      0 <= b.2 <= Z.of_nat (S n) /\ (lo < b.1 \/ lo = b.1 /\ co < b.2) /\ (lm < b.1 \/ lm = b.1 /\ cm < b.2)) as HH.
    { destruct (HH _ eq_refl) as (H1 & H2 & H3). split; [exact H1|split; [exact H2|]]. intros ? [= <-]. exact H3. }
    unfold hlc_recv. rewrite !(wrap_s_small 64) by (done || unfold in_s; lia). intros b ->. cbn [fst snd].
    set (w := wall_of e). clearbody w.
    destruct (Z.eqb_spec (Z.max (Z.max lo lm) w) lo), (Z.eqb_spec (Z.max (Z.max lo lm) w) lm); cbn [andb]; lia.
  - unfold hlc_now. cbn [fst snd]. rewrite wrap_s_small by (done || unfold in_s; lia).
    set (w := wall_of e). clearbody w. destruct (Z.eqb_spec (Z.max lo w) lo); (split; [lia|split; [lia|done]]).
Qed.

Lemma hlc_moved (s : Hlc) e t q :
  hlc_of (mkHlc (<[ev_proc e := t]> (hlc_clocks s))) q = moved e t (hlc_of s) q.
Proof.
  unfold hlc_of, moved. cbn [hlc_clocks].
  case_decide as H; [subst; by rewrite lookup_insert_eq|by rewrite lookup_insert_ne].
Qed.

Lemma get_hlc t : get (str "l") (hlc_answer t) = Some (VInt t.1) /\ get (str "c") (hlc_answer t) = Some (VInt t.2).
Proof. split; reflexivity. Qed.

#[global] Program Instance hlc_laws `{JsonText} : ClockLaws hlc_topic (Z * Z) := {|
  clock_zero := (0, 0);
  advance := hlc_advance;
  shown := hlc_answer;
  now_of := hlc_of;
  above := hlc_lt;
  bound := hlc_bound;
|}.
Next Obligation. done. Qed.
Next Obligation. unfold hlc_bound. intros. lia. Qed.
Next Obligation. intros J. apply hlc_advance_above. Qed.
Next Obligation. done. Qed.
Next Obligation.
  topic. intros J command p extra s v s' -> (raw & wall & -> & Hw) E. unfold Hlc_step in E.
  rewrite decide_True in E by done. unfold int, word in E. cbn in E. rewrite Hw in E. cbn in E.
  injection E as <- <-. unfold hlc_advance, wall_of. cbn [ev_extra head mbind option_bind]. rewrite Hw.
  split; [done|]. intros q. apply (hlc_moved s (mkEvent p None [raw])).
Qed.
Next Obligation.
  topic. intros J n y args p i extra s v s' _ _ (a & b & l & c & -> & Hl & Hc & Ha & Hb) (raw & wall & -> & Hw) E.
  destruct (get_hlc y) as [El Ec]. rewrite El in Hl. rewrite Ec in Hc. injection Hl as <-. injection Hc as <-.
  unfold Hlc_step in E. rewrite decide_False, decide_True in E by done.
  unfold int, word in E. cbn in E. rewrite Hw in E. cbn in E. rewrite Ha in E. cbn in E. rewrite Hb in E. cbn in E.
  injection E as <- <-. unfold hlc_advance, wall_of. cbn [ev_extra head mbind option_bind]. rewrite Hw.
  split; [done|]. intros q. apply (hlc_moved s (mkEvent p (Some i) [raw])).
Qed.
Next Obligation.
  topic. intros J command args s v s' (H1 & H2 & H3 & H4) E q. unfold Hlc_step in E.
  rewrite !(decide_False (P := command = _)) in E by done. case_decide; [|by simplify_eq].
  unfold word in E. destruct (args !! 0%nat); cbn in E; by simplify_eq.
Qed.

(** The first component is a reading of the causal past, and no older than the
  event's own. *)
Definition read_in_past (evs : list Event) (j : nat) (l : Z) : Prop :=
  l = 0 \/ exists i f, in_past evs i j /\ evs !! i = Some f /\ l = wall_of f.

Lemma read_in_past_snoc evs e j l :
  sent_before (evs ++ [e]) -> (j < length evs)%nat -> read_in_past evs j l -> read_in_past (evs ++ [e]) j l.
Proof.
  intros Hs Hj [->|(i & f & Hi & Hf & ->)]; [by left|right]. exists i, f.
  split_and!; [by apply in_past_snoc_old|by apply lookup_app_l_Some|done].
Qed.

Lemma read_in_past_new evs e k l :
  sent_before (evs ++ [e]) -> (k < length evs)%nat ->
  (ev_from e = Some k \/ exists f, evs !! k = Some f /\ ev_proc f = ev_proc e) ->
  read_in_past evs k l -> read_in_past (evs ++ [e]) (length evs) l.
Proof.
  intros Hs Hk Hw [->|(i & f & Hi & Hf & ->)]; [by left|right]. exists i, f.
  split_and!; [apply in_past_snoc_new; eauto|by apply lookup_app_l_Some|done].
Qed.

Lemma hlc_physical `{JsonText} evs sts now :
  stamped (0, 0) hlc_advance evs sts now ->
  (forall q, (now q).1 = 0 \/ exists k f, evs !! k = Some f /\ ev_proc f = q /\ read_in_past evs k (now q).1) /\
  forall j e t, evs !! j = Some e -> sts !! j = Some t -> wall_of e <= t.1 /\ read_in_past evs j t.1.
Proof.
  induction 1 as [now Hn|evs sts now e m t now' Hst [IH1 IH2] Hm -> Hn].
  { split; [|done]. intros q. rewrite Hn. by left. }
  pose proof (stamped_sent_before _ _ _ _ _ (stamped_snoc _ _ _ _ _ _ _ _ _ Hst Hm eq_refl Hn)) as Hs.
  pose proof (stamped_length _ _ _ _ _ Hst) as Hl.
  set (t := hlc_advance e (now (ev_proc e)) m) in *.
  assert (forall k, ev_from e = Some k -> (k < length evs)%nat) as Hk.
  { intros k Hk. eapply (Hs k (length evs)); [|exact Hk]. apply lookup_snoc_Some. auto. }
  assert (wall_of e <= t.1 /\ read_in_past (evs ++ [e]) (length evs) t.1) as [Hw Ht].
  { assert (read_in_past (evs ++ [e]) (length evs) (wall_of e)) as R0.
    { right. exists (length evs), e. split_and!; [constructor|apply lookup_snoc_Some; auto|done]. }
    assert (read_in_past (evs ++ [e]) (length evs) (now (ev_proc e)).1) as R1.
    { destruct (IH1 (ev_proc e)) as [->|(k & f & Hf & Hp & Hr)]; [by left|].
      eapply read_in_past_new; eauto using lookup_lt_Some. }
    unfold received in Hm. subst t. destruct (ev_from e) as [i|] eqn:Ei.
    - destruct Hm as (y & Hy & ->). destruct (lookup_lt_is_Some_2 evs i) as [f Hf]; [by apply Hk|].
      assert (read_in_past (evs ++ [e]) (length evs) y.1) as R2.
      { eapply read_in_past_new; [done| |by left|]; [by apply Hk|by apply (IH2 i f y)]. }
      cbn [hlc_advance]. unfold hlc_recv. destruct (now (ev_proc e)) as [lo co]; cbn [fst] in *.
      split; [lia|]. destruct (Z.max_spec (Z.max lo y.1) (wall_of e)) as [[_ ->]|[_ ->]]; [done|].
      by destruct (Z.max_spec lo y.1) as [[_ ->]|[_ ->]].
    - subst m. cbn [hlc_advance]. unfold hlc_now; cbn [fst]. split; [lia|].
      by destruct (Z.max_spec (now (ev_proc e)).1 (wall_of e)) as [[_ ->]|[_ ->]]. }
  split.
  - intros q. rewrite Hn. unfold moved. case_decide as Hq.
    + right. exists (length evs), e. split_and!; [apply lookup_snoc_Some; auto|done|done].
    + destruct (IH1 q) as [->|(k & f & Hf & Hp & Hr)]; [by left|right]. exists k, f.
      split_and!; [by apply lookup_app_l_Some|done|]. eapply read_in_past_snoc; eauto using lookup_lt_Some.
  - intros j f u Hf Hu. apply lookup_snoc_Some in Hu as [[Hj Hu]|[Hj <-]].
    + rewrite lookup_app_l in Hf by lia. destruct (IH2 j f u Hf Hu). split; [done|].
      eapply read_in_past_snoc; eauto using lookup_lt_Some.
    + apply lookup_snoc_Some in Hf as [[Hj' _]|[_ <-]]; [lia|]. subst j. by rewrite Hl.
Qed.

(** ** Vector clocks *)

Definition vector_advance (e : Event) (x : Clock) (m : option Clock) : Clock :=
  increment (ev_proc e) (match m with None => x | Some y => merge_into x y end).
Definition vector_bound (n : nat) (c : Clock) : Prop := forall k, 0 <= component c k <= Z.of_nat n.

#[global] Instance clock_le_trans : Transitive clock_le.
Proof. intros a b c H1 H2 k. specialize (H1 k). specialize (H2 k). lia. Qed.

Definition heard (m : option Clock) (k : bytes) : Z := match m with None => 0 | Some y => component y k end.

Lemma component_advance n e x m k :
  Z.of_nat (S n) < 2 ^ 63 -> vector_bound n x -> (forall y, m = Some y -> vector_bound n y) ->
  component (vector_advance e x m) k =
    Z.max (component x k) (heard m k) + (if decide (k = ev_proc e) then 1 else 0).
Proof.
  intros Hn Hx Hm. unfold vector_advance, increment. rewrite component_insert.
  assert (forall k, component (match m with None => x | Some y => merge_into x y end) k =
    Z.max (component x k) (heard m k)) as HE.
  { intros k'. specialize (Hx k') as Hk'. destruct m as [y|]; cbn [heard]; [|lia].
    apply component_merge_into; intros k''; [apply Hx|by apply (Hm y)]. }
  rewrite !HE. case_decide as Hk; [subst k|lia]. apply wrap_s_small; [done|].
  specialize (Hx (ev_proc e)). destruct m as [y|]; cbn [heard]; [specialize (Hm y eq_refl (ev_proc e))|]; unfold in_s; lia.
Qed.

Lemma vector_advance_above n e x m :
  Z.of_nat (S n) < 2 ^ 63 -> vector_bound n x -> (forall y, m = Some y -> vector_bound n y) ->
  vector_bound (S n) (vector_advance e x m) /\ clock_le x (vector_advance e x m) /\
  forall y, m = Some y -> clock_le y (vector_advance e x m).
Proof.
  intros Hn Hx Hm. split; [|split].
  - intros k. rewrite (component_advance n) by done. specialize (Hx k).
    destruct m as [y|]; cbn [heard]; [specialize (Hm y eq_refl k)|]; case_decide; lia.
  - intros k. rewrite (component_advance n) by done. case_decide; lia.
  - intros y -> k. rewrite (component_advance n) by done. cbn [heard]. case_decide; lia.
Qed.

Lemma vector_moved (s : VectorClocks) e t q :
  clock_of (mkVectorClocks (<[ev_proc e := t]> (vector_clocks s))) q = moved e t (clock_of s) q.
Proof.
  unfold clock_of, moved. cbn [vector_clocks].
  case_decide as H; [subst; by rewrite lookup_insert_eq|by rewrite lookup_insert_ne].
Qed.

Lemma get_vc c : get (str "vc") (vc_answer c) = Some (clock_json c).
Proof. reflexivity. Qed.

Lemma vector_bound_fits n c : Z.of_nat n < 2 ^ 63 -> vector_bound n c -> forall k, fits_i64 (component c k) = true.
Proof.
  intros Hn Hc k. specialize (Hc k). unfold fits_i64. apply andb_true_iff. rewrite Z.leb_le, Z.ltb_lt. lia.
Qed.

#[global] Program Instance vector_laws `{JsonText} : ClockLaws vector_topic Clock := {|
  clock_zero := ∅;
  advance := vector_advance;
  shown := vc_answer;
  now_of := clock_of;
  above := clock_le;
  bound := vector_bound;
|}.
Next Obligation. done. Qed.
Next Obligation. unfold vector_bound. intros _ n t Ht k. specialize (Ht k). lia. Qed.
Next Obligation. intros J. apply vector_advance_above. Qed.
Next Obligation. done. Qed.
Next Obligation.
  topic. intros J command p extra s v s' Hc -> E. unfold VectorClocks_step in E.
  rewrite decide_True in E by done. cbn in E. injection E as <- <-.
  split; [done|]. intros q. apply (vector_moved s (mkEvent p None [])).
Qed.
Next Obligation.
  topic. intros J n y args p i extra s v s' Hn Hy (raw & o & -> & Ho & Hp) -> E.
  rewrite get_vc in Ho. injection Ho as <-.
  unfold VectorClocks_step in E. rewrite decide_False, decide_True in E by (done || by intros [?|?]).
  rewrite (clock_arg_shipped _ 1 raw y) in E by (done || by eapply vector_bound_fits).
  cbn in E. injection E as <- <-.
  split; [done|]. intros q. apply (vector_moved s (mkEvent p (Some i) [])).
Qed.
Next Obligation.
  topic. intros J command args s v s' (H1 & H2 & H3 & _) E q. unfold VectorClocks_step in E.
  rewrite !decide_False in E by naive_solver. case_decide.
  - unfold word in E. destruct (args !! 0%nat) as [p|]; cbn in E; simplify_eq; [|done].
    injection E as _ <-. etrans; [apply (vector_moved s (mkEvent p None []))|]. unfold moved. cbn [ev_proc]. case_decide; by subst.
  - case_decide; [|by simplify_eq]. destruct (clock_arg args 0), (clock_arg args 1); cbn in E; by simplify_eq.
Qed.

(** The number of events of a process, and of an event among those of its own. *)
Definition count (p : bytes) (evs : list Event) : Z := zlen (filter (fun e => ev_proc e = p) evs).
Definition rank (evs : list Event) (i : nat) (p : bytes) : Z := count p (take (S i) evs).

Lemma count_nonneg k l : 0 <= count k l.
Proof. apply zlen_nonneg. Qed.

Lemma count_snoc p evs e : count p (evs ++ [e]) = count p evs + (if decide (p = ev_proc e) then 1 else 0).
Proof.
  unfold count. rewrite filter_app, zlen_app. f_equal. rewrite filter_cons, filter_nil.
  destruct (decide (ev_proc e = p)), (decide (p = ev_proc e)); congruence || done.
Qed.

Lemma count_app p a b : count p (a ++ b) = count p a + count p b.
Proof. unfold count. by rewrite filter_app, zlen_app. Qed.

Lemma rank_snoc_old evs e i p : (i < length evs)%nat -> rank (evs ++ [e]) i p = rank evs i p.
Proof. intros Hi. unfold rank. by rewrite take_app_le by lia. Qed.

Lemma rank_snoc_new evs e p : rank (evs ++ [e]) (length evs) p = count p (evs ++ [e]).
Proof. unfold rank. rewrite take_ge; [done|]. rewrite length_app. cbn. lia. Qed.

Lemma rank_le_count evs i p : rank evs i p <= count p evs.
Proof.
  unfold rank. rewrite <- (take_drop (S i) evs) at 2. rewrite count_app.
  pose proof (zlen_nonneg (filter (fun e => ev_proc e = p) (drop (S i) evs))). unfold count at 3. lia.
Qed.

Lemma rank_positive evs i e : evs !! i = Some e -> 1 <= rank evs i (ev_proc e).
Proof.
  intros He. unfold rank. rewrite (take_S_r _ _ _ He), count_snoc, decide_True by done.
  pose proof (zlen_nonneg (filter (fun f => ev_proc f = ev_proc e) (take i evs))). unfold count. lia.
Qed.

(** What a clock knows of a process is how many of its events are in the past. *)
Record knows (evs : list Event) (sts : list Clock) (now : bytes -> Clock) : Prop := {
  kn_now q k : component (now q) k <= count k evs;
  kn_own q : component (now q) q = count q evs;
  kn_stamp j t k : sts !! j = Some t -> component t k <= count k evs;
  kn_rank j e t : evs !! j = Some e -> sts !! j = Some t -> component t (ev_proc e) = rank evs j (ev_proc e);
  kn_clock i e q : evs !! i = Some e ->
    rank evs i (ev_proc e) <= component (now q) (ev_proc e) <->
    exists k f, evs !! k = Some f /\ ev_proc f = q /\ in_past evs i k;
  kn_past i e j t : evs !! i = Some e -> sts !! j = Some t ->
    rank evs i (ev_proc e) <= component t (ev_proc e) <-> in_past evs i j;
}.

Section knows_step.
Context (evs : list Event) (sts : list Clock) (now now' : bytes -> Clock) (e : Event) (m : option Clock).
Context (Hst : stamped ∅ vector_advance evs sts now) (Hm : received e sts m) (K : knows evs sts now).
Context (Hlen : Z.of_nat (length (evs ++ [e])) < 2 ^ 63).
Let t := vector_advance e (now (ev_proc e)) m.
Context (Hn : forall q, now' q = moved e t now q).

Lemma knows_sent : sent_before (evs ++ [e]).
Proof using All. eapply stamped_sent_before, stamped_snoc; done. Qed.

Lemma knows_received : match m with Some y => exists i, ev_from e = Some i /\ (i < length evs)%nat /\ sts !! i = Some y
                                  | None => ev_from e = None end.
Proof using All.
  unfold received in Hm. destruct (ev_from e) as [i|]; [|by subst]. destruct Hm as (y & Hy & ->).
  exists i. split_and!; [done| |done]. apply lookup_lt_Some in Hy. by rewrite (stamped_length _ _ _ _ _ Hst) in Hy.
Qed.

Lemma knows_component k :
  component t k = Z.max (component (now (ev_proc e)) k) (heard m k) + (if decide (k = ev_proc e) then 1 else 0) /\
  heard m k <= Z.max 0 (count k evs).
Proof using All.
  pose proof Hlen as Hl. rewrite length_app in Hl. cbn in Hl.
  destruct (stamps_respect ∅ vector_advance clock_le vector_bound evs sts now) as (B1 & B2 & _ & _);
    [done|unfold vector_bound; intros n c Hc k'; specialize (Hc k'); lia|apply vector_advance_above|done|lia|].
  pose proof knows_received as Hr. split.
  - apply (component_advance (length evs)); [lia|apply B1|]. intros y ->. destruct Hr as (i & _ & _ & Hy). by eapply B2.
  - destruct m as [y|]; cbn [heard]; [|lia]. destruct Hr as (i & _ & _ & Hy).
    pose proof (kn_stamp _ _ _ K _ _ k Hy). lia.
Qed.

Lemma knows_new k : component t k <= count k (evs ++ [e]) /\ component t (ev_proc e) = count (ev_proc e) (evs ++ [e]).
Proof using All.
  split; rewrite count_snoc.
  - destruct (knows_component k) as [-> Hh]. pose proof (kn_now _ _ _ K (ev_proc e) k). pose proof (count_nonneg k evs). lia.
  - destruct (knows_component (ev_proc e)) as [-> Hh]. rewrite (kn_own _ _ _ K), decide_True by done.
    pose proof (count_nonneg (ev_proc e) evs). lia.
Qed.

Lemma knows_past_new i f : (evs ++ [e]) !! i = Some f ->
  rank (evs ++ [e]) i (ev_proc f) <= component t (ev_proc f) <-> in_past (evs ++ [e]) i (length evs).
Proof using All.
  pose proof knows_sent as Hs. intros Hf. apply lookup_snoc_Some in Hf as [[Hi Hf]|[-> <-]].
  2: { rewrite rank_snoc_new. destruct (knows_new (ev_proc e)) as [_ ->]. split; [intros _; constructor|done]. }
  rewrite in_past_snoc_new, rank_snoc_old by done. destruct (knows_component (ev_proc f)) as [-> _].
  pose proof (kn_clock _ _ _ K i f (ev_proc e) Hf) as HC. pose proof (rank_le_count evs i (ev_proc f)) as Hrc.
  pose proof (rank_positive _ _ _ Hf). pose proof knows_received as Hr. split.
  - intros Hle. right. destruct (decide (ev_proc f = ev_proc e)) as [Hp|Hp].
    + exists i. split_and!; [done|constructor|right; eauto].
    + destruct (Z.max_spec (component (now (ev_proc e)) (ev_proc f)) (heard m (ev_proc f))) as [[_ Hx]|[_ Hx]]; rewrite Hx in Hle.
      * destruct m as [y|]; cbn [heard] in Hle; [|lia]. destruct Hr as (k & Hk & Hkl & Hy). exists k.
        split_and!; [done| |by left]. apply (kn_past _ _ _ K i f k y Hf Hy). lia.
      * destruct (proj1 HC ltac:(lia)) as (k & g & Hg & Hgp & Hp'). exists k.
        split_and!; [by eapply lookup_lt_Some|done|right; eauto].
  - intros [->|(k & Hk & Hp & [Hw|(g & Hg & Hgp)])]; [lia| |].
    + destruct m as [y|]; [|congruence]. destruct Hr as (k' & Hk' & _ & Hy). rewrite Hw in Hk'. injection Hk' as <-.
      pose proof (proj2 (kn_past _ _ _ K i f k y Hf Hy) Hp). cbn [heard]. case_decide; lia.
    + pose proof (proj2 HC (ex_intro _ k (ex_intro _ g (conj Hg (conj Hgp Hp))))). case_decide; lia.
Qed.

Lemma knows_future_old i f k : (evs ++ [e]) !! i = Some f -> (k < length evs)%nat ->
  rank (evs ++ [e]) i (ev_proc f) <= count (ev_proc f) evs \/ in_past (evs ++ [e]) i k -> evs !! i = Some f.
Proof using All.
  intros Hf Hk HH. apply lookup_snoc_Some in Hf as [[Hi Hf]|[-> <-]]; [done|exfalso]. destruct HH as [HH|HH].
  - rewrite rank_snoc_new, count_snoc, decide_True in HH by done. lia.
  - apply in_past_cases in HH as [<-|HH%happened_before_lt]; [lia|lia|apply knows_sent].
Qed.

Lemma knows_snoc : knows (evs ++ [e]) (sts ++ [t]) now'.
Proof using All.
  pose proof knows_sent as Hs. pose proof (stamped_length _ _ _ _ _ Hst) as Hl.
  assert (forall k, count k evs <= count k (evs ++ [e])) as Hc.
  { intros k. rewrite count_snoc. case_decide; lia. }
  split.
  - intros q k. rewrite Hn. unfold moved. case_decide; [apply knows_new|].
    pose proof (kn_now _ _ _ K q k). specialize (Hc k). lia.
  - intros q. rewrite Hn. unfold moved. case_decide as Hq; [subst q; exact (proj2 (knows_new []))|].
    rewrite (kn_own _ _ _ K), count_snoc, decide_False by done. lia.
  - intros j u k [[_ Hu]|[_ <-]]%lookup_snoc_Some; [|apply knows_new].
    pose proof (kn_stamp _ _ _ K j u k Hu). specialize (Hc k). lia.
  - intros j f u Hf Hu. apply lookup_snoc_Some in Hu as [[Hj Hu]|[Hj <-]].
    + rewrite lookup_app_l in Hf by lia. rewrite rank_snoc_old by lia. by apply (kn_rank _ _ _ K).
    + apply lookup_snoc_Some in Hf as [[Hj' _]|[_ <-]]; [lia|]. rewrite Hj, Hl, rank_snoc_new. exact (proj2 (knows_new [])).
  - intros i f q Hf. rewrite Hn. unfold moved. case_decide as Hq.
    + rewrite (knows_past_new i f Hf). split.
      * intros Hp. exists (length evs), e. split_and!; [apply lookup_snoc_Some; auto|done|done].
      * intros (k & g & Hg & Hgp & Hp). apply lookup_snoc_Some in Hg as [[Hk Hg]|[-> _]]; [|done].
        apply in_past_snoc_old in Hp; [|done..]. apply in_past_snoc_new; [done|right]. exists k.
        split_and!; [done..|right; exists g; split; congruence].
    + split.
      * intros Hle. pose proof (kn_now _ _ _ K q (ev_proc f)).
        destruct (decide (i < length evs)%nat) as [Hi|Hi].
        { rewrite lookup_app_l in Hf by done. rewrite rank_snoc_old in Hle by done.
          apply (kn_clock _ _ _ K i f q Hf) in Hle as (k & g & Hg & Hgp & Hp). exists k, g.
          split_and!; [by apply lookup_app_l_Some|done|]. apply in_past_snoc_old; eauto using lookup_lt_Some. }
        exfalso. apply Hi. apply lookup_snoc_Some in Hf as [[? _]|[-> <-]]; [done|].
        rewrite rank_snoc_new, count_snoc, decide_True in Hle by done. lia.
      * intros (k & g & Hg & Hgp & Hp). apply lookup_snoc_Some in Hg as [[Hk Hg]|[_ <-]]; [|congruence].
        pose proof (knows_future_old i f k Hf Hk (or_intror Hp)) as Hf'.
        rewrite rank_snoc_old by (by eapply lookup_lt_Some). apply in_past_snoc_old in Hp; [|done..].
        apply (kn_clock _ _ _ K i f q Hf'). eauto.
  - intros i f j u Hf Hu. apply lookup_snoc_Some in Hu as [[Hj Hu]|[Hj <-]].
    2: { rewrite Hj, Hl. by apply knows_past_new. }
    rewrite Hl in Hj. rewrite in_past_snoc_old by done.
    pose proof (kn_stamp _ _ _ K j u (ev_proc f) Hu). split; intros HH.
    + assert (evs !! i = Some f) as Hf' by (apply (knows_future_old i f j); [done..|left; lia]).
      rewrite rank_snoc_old in HH by (by eapply lookup_lt_Some). by apply (kn_past _ _ _ K i f j u).
    + pose proof (knows_future_old i f j Hf Hj (or_intror (proj2 (in_past_snoc_old _ _ _ _ Hs Hj) HH))) as Hf'.
      rewrite rank_snoc_old by (by eapply lookup_lt_Some). by apply (kn_past _ _ _ K i f j u).
Qed.
End knows_step.

Lemma vector_knows evs sts now :
  stamped ∅ vector_advance evs sts now -> Z.of_nat (length evs) < 2 ^ 63 -> knows evs sts now.
Proof.
  induction 1 as [now Hn|evs sts now e m t now' Hst IH Hm -> Hn]; intros Hlen.
  - split; try done; intros; rewrite Hn; done.
  - eapply knows_snoc; try done. apply IH. rewrite length_app in Hlen. lia.
Qed.

Lemma relation_before a b : relation a b = str "before" <-> clock_le a b /\ ~ clock_le b a.
Proof.
  unfold relation. change relation_step with compare_step. rewrite compare_fold. cbn [andb].
  assert (forall k, is_Some (a !! k) \/ is_Some (b !! k) -> k ∈ map_keys a ++ map_keys b) as Hk.
  { intros k. by rewrite elem_of_app, !list_elem_of_map_keys. }
  pose proof (forallb_clock_le a b _ Hk) as H1.
  assert (forall k, is_Some (b !! k) \/ is_Some (a !! k) -> k ∈ map_keys a ++ map_keys b) as Hk' by (intros k ?; apply Hk; tauto).
  pose proof (forallb_clock_le b a _ Hk') as H2.
  destruct (forallb (fun k => component a k <=? component b k) _), (forallb (fun k => component b k <=? component a k) _);
    (split; [intros E; try discriminate E|]); intuition congruence.
Qed.

(** The stamps of two events are in order exactly when the events are. *)
Lemma vector_stamps_decide evs sts now i j t u :
  stamped ∅ vector_advance evs sts now -> Z.of_nat (length evs) < 2 ^ 63 ->
  sts !! i = Some t -> sts !! j = Some u -> clock_le t u <-> in_past evs i j.
Proof.
  intros Hst Hl Ht Hu. pose proof (vector_knows _ _ _ Hst Hl) as K.
  destruct (lookup_lt_is_Some_2 evs i) as [e He].
  { rewrite <- (stamped_length _ _ _ _ _ Hst). by eapply lookup_lt_Some. }
  split.
  - intros Hle. apply (kn_past _ _ _ K i e j u He Hu). rewrite <- (kn_rank _ _ _ K i e t He Ht). apply Hle.
  - intros [->|Hb]%in_past_cases; [rewrite Ht in Hu; injection Hu as ->; intros k; lia|].
    destruct (stamps_respect ∅ vector_advance clock_le vector_bound evs sts now) as (_ & _ & _ & Ha);
      [done| |apply vector_advance_above|done..|by eapply Ha].
    unfold vector_bound. intros n c Hc k. specialize (Hc k). lia.
Qed.

Lemma relation_spec a b :
  exists r, relation a b = Relation_as_str r /\
    match r with
    | Before => clock_le a b /\ ~ clock_le b a
    | After => clock_le b a /\ ~ clock_le a b
    | Equal => clock_le a b /\ clock_le b a
    | Concurrent => ~ clock_le a b /\ ~ clock_le b a
    end.
Proof.
  unfold relation. change relation_step with compare_step. rewrite compare_fold. cbn [andb].
  pose proof (forallb_clock_le a b (map_keys a ++ map_keys b)) as H1.
  pose proof (forallb_clock_le b a (map_keys a ++ map_keys b)) as H2.
  specialize (H1 ltac:(intros k; rewrite elem_of_app, !list_elem_of_map_keys; tauto)).
  specialize (H2 ltac:(intros k; rewrite elem_of_app, !list_elem_of_map_keys; tauto)).
  destruct (forallb (fun k => component a k <=? component b k) _), (forallb (fun k => component b k <=? component a k) _);
    [exists Equal|exists Before|exists After|exists Concurrent]; (split; [done|]); intuition congruence.
Qed.

(** ** Version vectors *)

Definition older (x y : Sibling) : Prop := clock_le (sib_vv x) (sib_vv y) /\ ~ clock_le (sib_vv y) (sib_vv x).
Definition maximal (l : list Sibling) (x : Sibling) : Prop := x ∈ l /\ forall y, y ∈ l -> ~ older x y.

Lemma older_trans x y z : older x y -> older y z -> older x z.
Proof.
  intros [H1 H2] [H3 H4]. split; [by etrans|]. intros H5. apply H2. by etrans.
Qed.

Lemma dominated_older l x : dominated l x = true <-> exists y, y ∈ l /\ older x y.
Proof.
  unfold dominated. rewrite existsb_exists. split; intros (y & Hy & H); exists y.
  - split; [by apply list_elem_of_In|]. apply bool_decide_eq_true in H. by apply relation_before.
  - split; [by apply list_elem_of_In|]. apply bool_decide_eq_true. by apply relation_before.
Qed.

Lemma list_elem_of_dedup_runs {A} `{EqDecision A} (l : list A) x : x ∈ dedup_runs l <-> x ∈ l.
Proof.
  induction l as [|y l IH]; [done|]. cbn [dedup_runs]. destruct l as [|z l]; [done|].
  case_decide; [rewrite IH; set_solver|]. rewrite elem_of_cons, IH. set_solver.
Qed.

Lemma list_elem_of_normalize l x : x ∈ normalize l <-> maximal l x.
Proof.
  unfold normalize, maximal. rewrite list_elem_of_dedup_runs, (sort_by_perm sibling_le), list_elem_of_filter.
  split; intros [H1 H2].
  - split; [done|]. intros y Hy Ho. assert (dominated l x = true) as E by (apply dominated_older; eauto). by rewrite E in H1.
  - split; [|done]. destruct (dominated l x) eqn:E; [|done]. apply dominated_older in E as (y & Hy & Ho). by destruct (H2 y Hy).
Qed.

#[global] Instance older_dec x y : Decision (older x y).
Proof.
  refine (cast_if (decide (relation (sib_vv x) (sib_vv y) = str "before"))); unfold older; by rewrite <- relation_before.
Defined.

Lemma below_maximal l x : x ∈ l -> exists m, maximal l m /\ (x = m \/ older x m).
Proof.
  remember (length (filter (older x) l)) as n eqn:En. revert x En.
  induction (lt_wf n) as [n _ IH]. intros x -> Hx.
  destruct (decide (Exists (older x) l)) as [Hex|Hno].
  - apply Exists_exists in Hex as (y & Hy & Ho).
    assert (length (filter (older y) l) < length (filter (older x) l))%nat as Hlt.
    { assert (filter (older y) l = filter (older y) (filter (older x) l)) as ->.
      { rewrite list_filter_filter. apply list_filter_iff. intros z. split; [|tauto].
        intros Hz. split; [done|]. by eapply older_trans. }
      apply length_filter_lt with (x := y); [by apply list_elem_of_filter|]. intros [? H']. by apply H'. }
    destruct (IH _ Hlt y eq_refl Hy) as (m & Hm & Hym). exists m. split; [done|right]. destruct Hym as [<-|Hym]; [done|by eapply older_trans].
  - exists x. split; [|by left]. split; [done|]. intros y Hy Ho. apply Hno, Exists_exists. eauto.
Qed.

(** Replacing a part by its maximal elements changes no maximum of the whole. *)
Lemma maximal_absorb l k r x :
  (forall y, y ∈ k <-> maximal l y) -> maximal (k ++ r) x <-> maximal (l ++ r) x.
Proof.
  intros Hk. unfold maximal. setoid_rewrite elem_of_app. split; intros [Hx Hmax].
  - split; [destruct Hx as [[? _]%Hk|?]; auto|]. intros y [Hy|Hy] Ho; [|by apply (Hmax y); auto].
    destruct (below_maximal l y Hy) as (m & Hm%Hk & [->|Hym]); [by apply (Hmax m); auto|].
    apply (Hmax m); [by left|]. by eapply older_trans.
  - split.
    + destruct Hx as [Hx|?]; [left|by right]. apply Hk. split; [done|]. intros y Hy. apply Hmax. by left.
    + intros y [[Hy _]%Hk|Hy]; apply Hmax; auto.
Qed.

Lemma maximal_congr l k x : (forall y, y ∈ l <-> y ∈ k) -> maximal l x <-> maximal k x.
Proof. intros H. unfold maximal. by setoid_rewrite H. Qed.

(** The order siblings are listed in. *)
Lemma entries_le_total a b : entries_le a b = false -> entries_le b a = true.
Proof.
  revert b. induction a as [|[k x] a IH]; intros [|[l y] b]; cbn; try done.
  destruct (decide (k = l)) as [->|Hn]; [rewrite decide_True by done|rewrite decide_False by done; apply bytes_le_total].
  destruct (Z.ltb_spec x y), (Z.ltb_spec y x); auto.
Qed.

Lemma entries_le_antisym a b : entries_le a b = true -> entries_le b a = true -> a = b.
Proof.
  revert b. induction a as [|[k x] a IH]; intros [|[l y] b]; cbn; try done.
  destruct (decide (k = l)) as [->|Hn].
  - rewrite decide_True by done. destruct (Z.ltb_spec x y), (Z.ltb_spec y x); try done; try lia.
    intros. f_equal; [f_equal; lia|auto].
  - rewrite decide_False by done. intros H1 H2. by destruct (Hn (bytes_le_antisym _ _ H1 H2)).
Qed.

Lemma entries_le_trans a b c : entries_le a b = true -> entries_le b c = true -> entries_le a c = true.
Proof.
  revert b c. induction a as [|[k x] a IH]; intros [|[l y] b] [|[m z] c]; cbn; try done.
  destruct (decide (k = l)) as [->|Hkl], (decide (l = m)) as [->|Hlm]; intros H1 H2.
  - destruct (Z.ltb_spec x y), (Z.ltb_spec y x), (Z.ltb_spec y z), (Z.ltb_spec z y), (Z.ltb_spec x z), (Z.ltb_spec z x);
      try lia; eauto.
  - done.
  - by rewrite decide_False.
  - destruct (decide (k = m)) as [->|].
    + by destruct Hkl, (bytes_le_antisym _ _ H1 H2).
    + by eapply bytes_le_trans.
Qed.

Lemma sibling_le_total a b : sibling_le a b = false -> sibling_le b a = true.
Proof.
  unfold sibling_le. destruct (decide (sib_value a = sib_value b)).
  - rewrite decide_True by done. apply entries_le_total.
  - rewrite decide_False by done. apply bytes_le_total.
Qed.

Lemma sibling_le_trans a b c : sibling_le a b = true -> sibling_le b c = true -> sibling_le a c = true.
Proof.
  unfold sibling_le. destruct (decide (sib_value a = sib_value b)) as [E1|E1], (decide (sib_value b = sib_value c)) as [E2|E2];
    intros H1 H2.
  - rewrite decide_True by congruence. by eapply entries_le_trans.
  - rewrite decide_False by congruence. by rewrite E1.
  - rewrite decide_False by congruence. by rewrite <- E2.
  - destruct (decide (sib_value a = sib_value c)) as [E|E].
    + rewrite E in *. by destruct E1, (bytes_le_antisym _ _ H1 H2).
    + by eapply bytes_le_trans.
Qed.

#[global] Instance sibling_le_antisym : AntiSymm (=) (fun a b => sibling_le a b = true).
Proof.
  intros [v c] [w d]. unfold sibling_le. cbn. destruct (decide (v = w)) as [->|Hn].
  - rewrite decide_True by done. intros H1 H2. f_equal. apply (entries_le_antisym _ _ H1) in H2.
    by rewrite <- (list_to_map_entries c), H2, list_to_map_entries.
  - rewrite decide_False by done. intros H1 H2. by destruct (Hn (bytes_le_antisym _ _ H1 H2)).
Qed.

Lemma dedup_runs_sorted {A} `{EqDecision A} (R : A -> A -> Prop) `{!AntiSymm (=) R} l :
  StronglySorted R l -> StronglySorted R (dedup_runs l) /\ NoDup (dedup_runs l).
Proof.
  induction 1 as [|x l Hl [IH1 IH2] Hx]; [by split; constructor|]. destruct l as [|y l].
  { split; [by constructor|apply NoDup_singleton]. }
  change (dedup_runs (x :: y :: l)) with (if decide (x = y) then dedup_runs (y :: l) else x :: dedup_runs (y :: l)).
  case_decide as Hxy; [done|]. rewrite Forall_forall in Hx. split.
  - constructor; [done|]. apply Forall_forall. intros z Hz. apply Hx. by rewrite list_elem_of_dedup_runs in Hz.
  - constructor; [|done]. rewrite list_elem_of_dedup_runs. intros Hin. apply Hxy, (anti_symm R).
    + apply Hx, list_elem_of_here.
    + apply elem_of_cons in Hin as [->|Hin]; [apply Hx, list_elem_of_here|].
      inversion Hl as [|? ? _ Hy]. by eapply (proj1 (Forall_forall _ _) Hy).
Qed.

Lemma normalize_sorted l : StronglySorted (fun a b => sibling_le a b = true) (normalize l) /\ NoDup (normalize l).
Proof.
  unfold normalize. apply dedup_runs_sorted; [apply _|].
  apply sort_by_sorted; [apply sibling_le_total|apply sibling_le_trans].
Qed.

Lemma normalize_unique l k : (forall x, maximal l x <-> maximal k x) -> normalize l = normalize k.
Proof.
  intros H. apply (StronglySorted_unique (fun a b => sibling_le a b = true)); try apply normalize_sorted.
  apply NoDup_Permutation; [apply normalize_sorted..|]. intros x. by rewrite !list_elem_of_normalize.
Qed.

Lemma normalize_single l x : (forall y, maximal l y <-> y = x) -> normalize l = [x].
Proof.
  intros H. apply (StronglySorted_unique (fun a b => sibling_le a b = true)); [apply normalize_sorted|by repeat constructor|].
  apply NoDup_Permutation; [apply normalize_sorted|apply NoDup_singleton|].
  intros y. by rewrite list_elem_of_normalize, list_elem_of_singleton.
Qed.

(** *** Replicas *)

Lemma slot_set_slot replica key l s r k :
  slot (set_slot replica key l s) r k = if decide (r = replica /\ k = key) then l else slot s r k.
Proof.
  unfold slot, store, set_slot, siblings. cbn [replicas]. case_decide as H.
  - destruct H as [-> ->]. rewrite lookup_insert_eq. cbn. by rewrite lookup_insert_eq.
  - destruct (decide (r = replica)) as [->|Hr].
    + rewrite lookup_insert_eq. cbn. by rewrite lookup_insert_ne by naive_solver.
    + by rewrite lookup_insert_ne.
Qed.

Lemma siblings_merged a b k : siblings (merged a b) k = normalize (siblings a k ++ siblings b k).
Proof.
  unfold merged, siblings at 1.
  assert (forall keys m, (foldl (fun m key => <[key := normalize (siblings a key ++ siblings b key)]> m) m keys : Store) !! k =
    if decide (k ∈ keys) then Some (normalize (siblings a k ++ siblings b k)) else m !! k) as H.
  { induction keys as [|x keys IH]; intros m; cbn [foldl]; [done|]. rewrite IH.
    destruct (decide (k ∈ keys)), (decide (k ∈ x :: keys)) as [Hin|Hin]; try done; [set_solver|..].
    - apply elem_of_cons in Hin as [->|]; [by rewrite lookup_insert_eq|done].
    - rewrite lookup_insert_ne; [done|set_solver]. }
  rewrite H. case_decide as Hk; [done|]. rewrite lookup_empty. cbn.
  rewrite list_elem_of_dedup_runs, (sort_by_perm bytes_le), elem_of_app, !list_elem_of_map_keys in Hk.
  unfold siblings. destruct (a !! k) eqn:Ea; [destruct Hk; left; by eexists|].
  destruct (b !! k) eqn:Eb; [destruct Hk; right; by eexists|]. done.
Qed.

(** The writes that have reached a replica, by key: those made there, and all that
  the other side knew at a [sync]. *)
Definition Knowledge : Type := bytes -> bytes -> list Sibling.

Definition learn (replica key : bytes) (x : Sibling) (K : Knowledge) : Knowledge :=
  fun r k => if decide (r = replica /\ k = key) then K r k ++ [x] else K r k.
Definition pool (a b : bytes) (K : Knowledge) : Knowledge :=
  fun r k => if decide (r = a \/ r = b) then K a k ++ K b k else K r k.

Inductive replicated `{JsonText} : VersionVectors -> Knowledge -> Prop :=
| rep_start : replicated VersionVectors_default (fun _ _ => [])
| rep_write s K command r k v rest c s' :
    replicated s K -> command = str "put" \/ command = str "put-ctx" ->
    VersionVectors_step command (r :: k :: v :: rest) s = (VObject [(str "vv", clock_json c)], s') ->
    replicated s' (learn r k (mkSibling v c) K)
| rep_sync s K a b rest ans s' :
    replicated s K -> VersionVectors_step (str "sync") (a :: b :: rest) s = (ans, s') ->
    replicated s' (pool a b K)
| rep_other s K command args ans s' :
    replicated s K -> command <> str "put" -> command <> str "put-ctx" -> command <> str "sync" ->
    VersionVectors_step command args s = (ans, s') -> replicated s' K
| rep_refused s K command args m s' :
    replicated s K -> VersionVectors_step command args s = (err m, s') -> replicated s' K.

Lemma clock_json_inj a b : clock_json a = clock_json b -> a = b.
Proof.
  unfold clock_json. intros [= E]. rewrite <- (list_to_map_entries a), <- (list_to_map_entries b). f_equal.
  revert E. generalize (OrdMap.entries b). induction (OrdMap.entries a) as [|[k x] l IH]; intros [|[k' x'] l']; cbn; try done.
  intros [= -> -> E]. f_equal. auto.
Qed.

(** A replica holds the maximal writes that have reached it. *)
Definition holds (s : VersionVectors) (K : Knowledge) : Prop :=
  forall r k x, x ∈ slot s r k <-> maximal (K r k) x.

Lemma holds_write s K r k v c :
  holds s K -> holds (set_slot r k (normalize (slot s r k ++ [mkSibling v c])) s) (learn r k (mkSibling v c) K).
Proof.
  intros H r' k' x. rewrite slot_set_slot. unfold learn. case_decide as E; [|apply H].
  destruct E as [-> ->]. rewrite list_elem_of_normalize. apply maximal_absorb, H.
Qed.

Lemma holds_sync s K a b : holds s K -> holds (sync a b s).2 (pool a b K).
Proof.
  intros H r k x. unfold sync, pool. cbn [snd]. set (m := merged _ _).
  assert (slot (mkVersionVectors (<[b := m]> (<[a := m]> (replicas s)))) r k =
    if decide (r = a \/ r = b) then siblings m k else slot s r k) as ->.
  { unfold slot, store. cbn [replicas]. destruct (decide (r = b)) as [->|Hb].
    - rewrite lookup_insert_eq, decide_True by auto. done.
    - rewrite lookup_insert_ne by done. destruct (decide (r = a)) as [->|Ha].
      + rewrite lookup_insert_eq, decide_True by auto. done.
      + rewrite lookup_insert_ne, decide_False by naive_solver. done. }
  case_decide; [|apply H]. subst m. rewrite siblings_merged, list_elem_of_normalize.
  change (siblings (store s a) k) with (slot s a k). change (siblings (store s b) k) with (slot s b k).
  rewrite (maximal_absorb (K a k) _ _ _ (H a k)).
  assert (forall p q : list Sibling, maximal (p ++ q) x <-> maximal (q ++ p) x) as Hc.
  { intros p q. apply maximal_congr. intros y. rewrite !elem_of_app. tauto. }
  rewrite (Hc (K a k)), (maximal_absorb (K b k) _ _ _ (H b k)). apply Hc.
Qed.

Lemma holds_read s K r k : holds s K -> holds (read r k s).2 K.
Proof.
  intros H r' k' x. unfold read. cbn [snd]. rewrite slot_set_slot. case_decide as E; [|apply H].
  destruct E as [-> ->]. rewrite list_elem_of_normalize.
  pose proof (maximal_absorb (K r k) (slot s r k) [] x (H r k)) as HA. by rewrite !app_nil_r in HA.
Qed.

Lemma clock_arg_err `{JsonText} args i e : clock_arg args i = Err e -> exists m, e = err m.
Proof.
  unfold clock_arg, json_arg, word. destruct (args !! i) as [raw|]; cbn; [|by intros [= <-]; eexists].
  destruct (from_str raw) as [v|]; cbn; [|by intros [= <-]; eexists].
  destruct (as_object v) as [l|]; [|by intros [= <-]; eexists].
  generalize (∅ : Clock). induction l as [|[name count] l IH]; intros out; cbn; [done|].
  destruct (as_i64 count); [apply IH|by intros [= <-]; eexists].
Qed.

(** What a command answers, and what it leaves. *)
Lemma version_step_cases `{JsonText} command args s ans s' :
  VersionVectors_step command args s = (ans, s') ->
  (s' = s /\ exists m, ans = err m) \/
  (exists r k, command = str "read" /\ (ans, s') = read r k s) \/
  (exists r k v rest c, args = r :: k :: v :: rest /\ (command = str "put" \/ command = str "put-ctx") /\
    (ans, s') = write r k v c s) \/
  (exists a b rest, args = a :: b :: rest /\ command = str "sync" /\ (ans, s') = sync a b s).
Proof.
  unfold VersionVectors_step. intros E.
  assert (forall i, (missing i, s) = (ans, s') -> (s' = s /\ exists m, ans = err m)) as Hmiss.
  { intros i [= <- <-]. split; [done|by eexists]. }
  case_decide as H1; [|case_decide as H2; [|case_decide as H3; [|case_decide as H4]]].
  - destruct args as [|r [|k [|v rest]]]; cbn in E; try (by left; eapply Hmiss).
    right; right; left. unfold put in E. eexists r, k, v, rest, _. split; [done|]. split; [by left|]. by symmetry.
  - destruct args as [|r [|k [|v rest]]]; cbn in E; try (by left; eapply Hmiss).
    destruct (clock_arg _ _) as [c|e] eqn:Ec; cbn in E.
    + right; right; left. eexists r, k, v, rest, _. split; [done|]. split; [by right|]. by symmetry.
    + apply clock_arg_err in Ec as [m ->]. injection E as <- <-. left. eauto.
  - destruct args as [|r [|k rest]]; cbn in E; try (by left; eapply Hmiss).
    right; left. exists r, k. split; [done|]. by symmetry.
  - destruct args as [|a [|b rest]]; cbn in E; try (by left; eapply Hmiss).
    right; right; right. exists a, b, rest. split; [done|]. split; [done|]. by symmetry.
  - injection E as <- <-. left. split; [done|by eexists].
Qed.

Lemma replicated_holds `{JsonText} s K : replicated s K -> holds s K.
Proof.
  induction 1 as [|s K command r k v rest c s' _ IH Hc E|s K a b rest ans s' _ IH E
    |s K command args ans s' _ IH H1 H2 H3 E|s K command args m s' _ IH E].
  - intros r k x. split; [intros Hx; by apply not_elem_of_nil in Hx|intros [Hx _]; by apply not_elem_of_nil in Hx].
  - apply version_step_cases in E as [[_ [m E]]|[(r'&k'&_&E)|[(r'&k'&v'&rest'&c'&[= <- <- <- <-]&_&E)|(a&b&rest'&_&_&E)]]].
    + discriminate E.
    + discriminate E.
    + unfold write in E. injection E as E ->. apply (f_equal VObject), clock_json_inj in E as <-. by apply holds_write.
    + discriminate E.
  - change (sync a b s = (ans, s')) in E. apply (f_equal snd) in E. cbn [snd] in E. subst s'. by apply holds_sync.
  - apply version_step_cases in E as [[-> _]|[(r'&k'&_&E)|[(r'&k'&v'&rest'&c'&_&[?|?]&_)|(a&b&rest'&_&?&_)]]]; try done.
    injection E as _ ->. by apply holds_read.
  - apply version_step_cases in E as [[-> _]|[(r'&k'&_&E)|[(r'&k'&v'&rest'&c'&_&_&E)|(a&b&rest'&_&_&E)]]]; [done|discriminate E..].
Qed.

(** A write without a context covers everything its replica holds. *)
Definition in_range (c : Clock) : Prop := forall p, 0 <= component c p < 2 ^ 63 - 1.

Lemma merge_all_above l acc :
  in_range acc -> (forall x, x ∈ l -> in_range (sib_vv x)) ->
  let c := foldl (fun vv x => merge_into vv (sib_vv x)) acc l in
  in_range c /\ clock_le acc c /\ forall x, x ∈ l -> clock_le (sib_vv x) c.
Proof.
  cbn zeta. revert acc. induction l as [|y l IH]; intros acc Ha Hl; cbn [foldl].
  { split; [done|split; [intros p; lia|intros x Hx; by apply not_elem_of_nil in Hx]]. }
  assert (forall p, component (merge_into acc (sib_vv y)) p = Z.max (component acc p) (component (sib_vv y) p)) as HE.
  { intros p. apply component_merge_into; intros q; [apply Ha|apply (Hl y (list_elem_of_here _ _))]. }
  destruct (IH (merge_into acc (sib_vv y))) as (H1 & H2 & H3).
  - intros p. rewrite HE. specialize (Ha p). pose proof (Hl y (list_elem_of_here _ _) p). lia.
  - intros x Hx. by apply Hl, list_elem_of_further.
  - split; [done|]. split; [|intros x [->|Hx]%elem_of_cons; [|by apply H3]].
    + intros p. specialize (H2 p). rewrite HE in H2. lia.
    + intros p. specialize (H2 p). rewrite HE in H2. lia.
Qed.

Lemma put_covers s K r k v :
  holds s K -> (forall x, x ∈ K r k -> in_range (sib_vv x)) ->
  exists c, put r k v s = (VObject [(str "vv", clock_json c)], (put r k v s).2) /\
    slot (put r k v s).2 r k = [mkSibling v c].
Proof.
  intros H Hc. unfold put, write. set (c := increment r _). exists c. split; [done|]. cbn [snd].
  rewrite slot_set_slot, decide_True by done.
  destruct (merge_all_above (slot s r k) ∅) as (Hb & _ & Hle).
  { intros p. done. }
  { intros x [Hx _]%(H r k). by apply Hc. }
  assert (forall x, x ∈ slot s r k -> older x (mkSibling v c)) as Hold.
  { intros x Hx. specialize (Hle x Hx). unfold older. cbn [sib_vv].
    assert (forall p, component c p = component (foldl (fun vv x => merge_into vv (sib_vv x)) ∅ (slot s r k)) p +
      (if decide (p = r) then 1 else 0)) as HE.
    { intros p. unfold c, increment. rewrite component_insert. case_decide as E; [subst|lia].
      apply wrap_s_small; [done|]. specialize (Hb r). unfold in_s. lia. }
    split.
    - intros p. specialize (Hle p). rewrite HE. case_decide; lia.
    - intros Hge. specialize (Hge r). specialize (Hle r). rewrite HE, decide_True in Hge by done. lia. }
  apply normalize_single. intros x. split.
  - intros [[Hx|Hx]%elem_of_app Hmax].
    + destruct (Hmax (mkSibling v c)); [set_solver|by apply Hold].
    + by apply list_elem_of_singleton in Hx.
  - intros ->. split; [set_solver|]. intros y [Hy|Hy]%elem_of_app [Ho1 Ho2].
    + apply Ho2, (Hold y Hy).
    + apply list_elem_of_singleton in Hy as ->. done.
Qed.

(** ** Claims *)

Definition rel_answer (r : Relation) : Value := VObject [(str "rel", VString (Relation_as_str r))].

(** C17: vector clocks decide causality.  Whatever computation the commands of the
  [vector-clock] topic carried out - any processes, messages delivered late, twice or
  never, questions in between - comparing the clocks two events were answered with
  says [before] exactly when the one happened before the other, [after] when it is
  the other way round, [equal] for the same event only and [concurrent] when neither
  could have caused the other; the question changes nothing. *)
Theorem vector_clocks_decide_causality `{JsonText} evs vals s i j v w a b :
  computation vector_topic evs vals s -> Z.of_nat (length evs) < 2 ^ 63 ->
  vals !! i = Some v -> vals !! j = Some w ->
  ct_carries vector_topic v [a] -> ct_carries vector_topic w [b] ->
  exists r, VectorClocks_step (str "cmp") [a; b] s = (rel_answer r, s) /\
    (r = Before <-> happened_before evs i j) /\ (r = After <-> happened_before evs j i) /\
    (r = Equal <-> i = j) /\
    (r = Concurrent <-> i <> j /\ ~ happened_before evs i j /\ ~ happened_before evs j i).
Proof.
  intros Hc Hl Hv Hw Ha Hb. destruct (computation_stamped _ _ _ Hc Hl) as (sts & Hst & ->).
  rewrite list_lookup_fmap, fmap_Some in Hv, Hw. destruct Hv as (t & Ht & ->), Hw as (u & Hu & ->).
  destruct (stamps_respect_clock _ _ _ Hst Hl) as [Hbd _].
  destruct Ha as (raw & o & [= <-] & Ho & Hra), Hb as (raw' & o' & [= <-] & Ho' & Hrb).
  change (shown t) with (vc_answer t) in Ho. change (shown u) with (vc_answer u) in Ho'.
  rewrite get_vc in Ho, Ho'. injection Ho as <-. injection Ho' as <-.
  pose proof (vector_stamps_decide _ _ _ i j t u Hst Hl Ht Hu) as Hij.
  pose proof (vector_stamps_decide _ _ _ j i u t Hst Hl Hu Ht) as Hji.
  pose proof (stamped_sent_before _ _ _ _ _ Hst) as Hs.
  rewrite in_past_cases in Hij, Hji.
  destruct (relation_spec t u) as (r & Er & Hr). exists r. split.
  { unfold VectorClocks_step.
    rewrite (clock_arg_shipped [a; b] 0 a t), (clock_arg_shipped [a; b] 1 b u)
      by (done || (eapply vector_bound_fits; [exact Hl|by eapply Hbd])).
    change ((VObject [(str "rel", VString (relation t u))], s) = (rel_answer r, s)). by rewrite Er. }
  assert (happened_before evs i j -> happened_before evs j i -> False) as Hanti.
  { intros H1%happened_before_lt H2%happened_before_lt; [lia|done|done]. }
  assert (forall k, happened_before evs k k -> False) as Hirr.
  { intros k Hk%happened_before_lt; [lia|done]. }
  destruct r; rewrite Hij, Hji in Hr; clear Hij Hji; (split_and!; split; intros HH); try discriminate HH; try done;
    repeat match goal with H : i = j |- _ => subst j end; naive_solver.
Qed.

(** C18: Lamport clocks and hybrid clocks respect causality: an event that happened
  before another was answered with a smaller timestamp - with a smaller pair, counted
  lexicographically, for the hybrid clock.  And a hybrid clock stays with the physical
  one: its first component is no less than the reading the event was given, and is the
  reading of the event or of one that happened before it (or zero, where it began);
  the second component counts no further than there are events. *)
Theorem clocks_respect_causality `{JsonText} evs i j v w :
  Z.of_nat (length evs) < 2 ^ 63 ->
  (forall vals s, computation lamport_topic evs vals s -> vals !! i = Some v -> vals !! j = Some w ->
     happened_before evs i j -> exists a b, v = ts_answer a /\ w = ts_answer b /\ a < b) /\
  (forall vals s, computation hlc_topic evs vals s -> vals !! i = Some v -> vals !! j = Some w ->
     (happened_before evs i j -> exists a b, v = hlc_answer a /\ w = hlc_answer b /\ hlc_lt a b) /\
     exists l c, w = hlc_answer (l, c) /\ 0 <= c <= Z.of_nat (length evs) /\
       (forall e, evs !! j = Some e -> wall_of e <= l) /\ read_in_past evs j l).
Proof.
  intros Hl. split.
  - intros vals s Hc Hv Hw Hb. exact (computation_respects _ _ _ i j v w Hc Hl Hb Hv Hw).
  - intros vals s Hc Hv Hw. split; [intros Hb; exact (computation_respects _ _ _ i j v w Hc Hl Hb Hv Hw)|].
    destruct (computation_stamped _ _ _ Hc Hl) as (sts & Hst & ->).
    rewrite list_lookup_fmap, fmap_Some in Hw. destruct Hw as ([l c] & Hu & ->).
    destruct (lookup_lt_is_Some_2 evs j) as [e He].
    { rewrite <- (stamped_length _ _ _ _ _ Hst). by eapply lookup_lt_Some. }
    destruct (proj2 (hlc_physical _ _ _ Hst) j e _ He Hu) as [Hwall Hpast].
    exists l, c. split; [done|]. split; [exact (proj1 (stamps_respect_clock _ _ _ Hst Hl) j _ Hu)|].
    split; [|exact Hpast]. intros f Hf. rewrite He in Hf. by injection Hf as <-.
Qed.

(** C19: version vectors keep every write that no other covers.  On any run of writes,
  reads and synchronisations a read answers the maximal ones among the writes that
  have reached the replica for that key - sorted, each once - so replicas that the
  same writes have reached answer the same; and a write without a context covers all
  its replica holds, which then answers that write alone (counts in range). *)
Theorem replicas_keep_maximal_writes `{JsonText} s K r k rest :
  replicated s K ->
  exists l, (VersionVectors_step (str "read") (r :: k :: rest) s).1 =
      VObject [(str "siblings", VArray (map sibling_json l))] /\
    StronglySorted (fun a b => sibling_le a b = true) l /\ NoDup l /\ (forall x, x ∈ l <-> maximal (K r k) x) /\
    (forall r', (forall x, x ∈ K r k <-> x ∈ K r' k) ->
       (VersionVectors_step (str "read") (r' :: k :: rest) s).1 =
         VObject [(str "siblings", VArray (map sibling_json l))]) /\
    forall v rest', (forall x, x ∈ K r k -> in_range (sib_vv x)) ->
      exists c s', VersionVectors_step (str "put") (r :: k :: v :: rest') s = (VObject [(str "vv", clock_json c)], s') /\
        (VersionVectors_step (str "read") (r :: k :: rest) s').1 =
          VObject [(str "siblings", VArray [sibling_json (mkSibling v c)])].
Proof.
  intros Hrep%replicated_holds. exists (normalize (slot s r k)).
  assert (forall q, normalize (slot s q k) = normalize (K q k)) as Hn.
  { intros q. apply normalize_unique. intros x.
    pose proof (maximal_absorb (K q k) (slot s q k) [] x (Hrep q k)) as HA. by rewrite !app_nil_r in HA. }
  split; [done|]. split; [apply normalize_sorted|]. split; [apply normalize_sorted|]. split; [|split].
  - intros x. by rewrite Hn, list_elem_of_normalize.
  - intros r' HK. change ((VersionVectors_step (str "read") (r' :: k :: rest) s).1) with
      (VObject [(str "siblings", VArray (map sibling_json (normalize (slot s r' k))))]).
    rewrite !Hn. assert (normalize (K r' k) = normalize (K r k)) as ->; [|done].
    apply normalize_unique. intros x. apply maximal_congr. intros y. by rewrite HK.
  - intros v rest' Hc. destruct (put_covers s K r k v Hrep Hc) as (c & E & Hs). exists c, (put r k v s).2.
    split; [exact E|]. change ((VObject [(str "siblings", VArray (map sibling_json (normalize (slot (put r k v s).2 r k))))]) =
      VObject [(str "siblings", VArray [sibling_json (mkSibling v c)])]). rewrite Hs.
    rewrite (normalize_single _ (mkSibling v c)); [done|]. intros x. split.
    + intros [Hx%list_elem_of_singleton _]. done.
    + intros ->. split; [set_solver|]. intros y ->%list_elem_of_singleton [_ Ho]. apply Ho. intros p. lia.
Qed.

(** ** Computations to look at *)

(** A parser that knows the texts of two clocks. *)
Definition clock_text : JsonText := {|
  from_str raw :=
    if decide (raw = str "m") then Ok (clock_json {[str "a" := 1]})
    else if decide (raw = str "n") then Ok (clock_json {[str "a" := 1; str "b" := 1]}) else Err [];
  show_value := fun _ => [];
  debug_str := fun s => s;
|}.
#[local] Existing Instance clock_text.

(** [a] ticks, [b] receives what [a] was answered, [c] ticks. *)
Definition three_events : list Event :=
  [mkEvent (str "a") None []; mkEvent (str "b") (Some 0%nat) []; mkEvent (str "c") None []].

Definition three_vectors : list Value :=
  [vc_answer {[str "a" := 1]}; vc_answer {[str "a" := 1; str "b" := 1]}; vc_answer {[str "c" := 1]}].

Definition three_clocks : VectorClocks :=
  mkVectorClocks {[str "a" := {[str "a" := 1]}; str "b" := {[str "a" := 1; str "b" := 1]}; str "c" := {[str "c" := 1]}]}.

Lemma three_events_run : computation vector_topic three_events three_vectors three_clocks.
Proof.
  pose proof (comp_act vector_topic [] [] VectorClocks_default (str "local") (str "a") []
    (vc_answer {[str "a" := 1]}) (mkVectorClocks {[str "a" := {[str "a" := 1]}]})) as H1.
  pose proof (comp_recv vector_topic [mkEvent (str "a") None []] [vc_answer {[str "a" := 1]}]
    (mkVectorClocks {[str "a" := {[str "a" := 1]}]}) 0 (vc_answer {[str "a" := 1]}) (str "b") [] [str "m"]
    (vc_answer {[str "a" := 1; str "b" := 1]})
    (mkVectorClocks {[str "a" := {[str "a" := 1]}; str "b" := {[str "a" := 1; str "b" := 1]}]})) as H2.
  pose proof (comp_act vector_topic [mkEvent (str "a") None []; mkEvent (str "b") (Some 0%nat) []]
    [vc_answer {[str "a" := 1]}; vc_answer {[str "a" := 1; str "b" := 1]}]
    (mkVectorClocks {[str "a" := {[str "a" := 1]}; str "b" := {[str "a" := 1; str "b" := 1]}]})
    (str "send") (str "c") [] (vc_answer {[str "c" := 1]}) three_clocks) as H3.
  apply H3; [|by right|done|vm_compute; reflexivity].
  apply H2; [|done| |done|vm_compute; reflexivity].
  - apply H1; [constructor|by left|done|vm_compute; reflexivity].
  - exists (str "m"), (clock_json {[str "a" := 1]}). split_and!; vm_compute; reflexivity.
Qed.

Lemma vector_clocks_decide_causality_witness :
  exists r, VectorClocks_step (str "cmp") [str "m"; str "n"] three_clocks = (rel_answer r, three_clocks) /\
    (r = Before <-> happened_before three_events 0 1) /\ (r = After <-> happened_before three_events 1 0) /\
    (r = Equal <-> 0%nat = 1%nat) /\
    (r = Concurrent <-> 0%nat <> 1%nat /\ ~ happened_before three_events 0 1 /\ ~ happened_before three_events 1 0).
Proof.
  apply (vector_clocks_decide_causality three_events three_vectors three_clocks 0 1
    (vc_answer {[str "a" := 1]}) (vc_answer {[str "a" := 1; str "b" := 1]})).
  - exact three_events_run.
  - vm_compute. reflexivity.
  - reflexivity.
  - reflexivity.
  - exists (str "m"), (clock_json {[str "a" := 1]}). split_and!; vm_compute; reflexivity.
  - exists (str "n"), (clock_json {[str "a" := 1; str "b" := 1]}). split_and!; vm_compute; reflexivity.
Defined.

(** [a] reads 5, [b] reads 3 when it hears from [a]. *)
Definition two_events : list Event :=
  [mkEvent (str "a") None [str "5"]; mkEvent (str "b") (Some 0%nat) [str "3"]].

Lemma two_events_run : exists s, computation hlc_topic two_events [hlc_answer (5, 0); hlc_answer (5, 1)] s.
Proof.
  eexists. eapply (comp_recv hlc_topic [mkEvent (str "a") None [str "5"]] [hlc_answer (5, 0)]
    (mkHlc {[str "a" := (5, 0)]}) 0 (hlc_answer (5, 0)) (str "b") [str "3"] [str "5"; str "0"]).
  - apply (comp_act hlc_topic [] [] Hlc_default (str "now") (str "a") [str "5"] (hlc_answer (5, 0))).
    + constructor.
    + done.
    + exists (str "5"), 5. split; vm_compute; reflexivity.
    + vm_compute. reflexivity.
  - done.
  - exists (str "5"), (str "0"), 5, 0. split_and!; vm_compute; reflexivity.
  - exists (str "3"), 3. split; vm_compute; reflexivity.
  - vm_compute. reflexivity.
Qed.

Lemma two_events_ordered : happened_before two_events 0 1.
Proof. constructor. by eapply edge_message. Qed.

Lemma clocks_respect_causality_witness :
  exists a b, hlc_answer (5, 0) = hlc_answer a /\ hlc_answer (5, 1) = hlc_answer b /\ hlc_lt a b.
Proof.
  destruct two_events_run as [s Hs].
  exact (proj1 (proj2 (clocks_respect_causality two_events 0 1 (hlc_answer (5, 0)) (hlc_answer (5, 1)) eq_refl)
    _ s Hs eq_refl eq_refl) two_events_ordered).
Defined.

(** Two replicas write the same key and synchronise. *)
Definition forked_key : Knowledge :=
  pool (str "r") (str "q") (learn (str "q") (str "k") (mkSibling (str "w") {[str "q" := 1]})
    (learn (str "r") (str "k") (mkSibling (str "v") {[str "r" := 1]}) (fun _ _ => []))).

Definition one_wrote : VersionVectors := (put (str "r") (str "k") (str "v") VersionVectors_default).2.
Definition both_wrote : VersionVectors := (put (str "q") (str "k") (str "w") one_wrote).2.

Lemma forked_key_run : replicated (sync (str "r") (str "q") both_wrote).2 forked_key.
Proof.
  eapply (rep_sync both_wrote _ (str "r") (str "q") []); [|reflexivity].
  eapply (rep_write one_wrote _ (str "put") (str "q") (str "k") (str "w") []); [|by left|vm_compute; reflexivity].
  eapply (rep_write VersionVectors_default _ (str "put") (str "r") (str "k") (str "v") []); [|by left|vm_compute; reflexivity].
  constructor.
Qed.

Lemma replicas_keep_maximal_writes_witness :
  exists l, (VersionVectors_step (str "read") [str "q"; str "k"] (sync (str "r") (str "q") both_wrote).2).1 =
      VObject [(str "siblings", VArray (map sibling_json l))] /\
    forall x, x ∈ l <-> maximal (forked_key (str "q") (str "k")) x.
Proof.
  destruct (replicas_keep_maximal_writes _ _ (str "q") (str "k") [] forked_key_run) as (l & H1 & _ & _ & H2 & _).
  exists l. split; [exact H1|exact H2].
Defined.

(** A write whose context is stale at its own replica is answered with a vector the
  replica has passed, and is gone before anyone has read it. *)
Example stale_context_write_is_lost :
  let s := (put (str "r") (str "k") (str "w") one_wrote).2 in
  let '(ans, s') := write (str "r") (str "k") (str "x") (increment (str "r") ∅) s in
  ans = VObject [(str "vv", clock_json {[str "r" := 1]})] /\
  slot s' (str "r") (str "k") = [mkSibling (str "w") {[str "r" := 2]}].
Proof. vm_compute. split; reflexivity. Qed.
