(* ===== verification/Consistency.v ===== *)
(** * Consistency models and session guarantees ([disttest/examples/alg/consistency.rs])

  The topics [consistency] and [session] of the reference algorithms.  The first
  searches for an order of a recorded history that reads like a register; the search
  is shown to decide the two models.  The second refuses reads that would go back;
  what that guarantees, and when it does not, is shown along its runs. *)

From S2P Require Import Prelude Text OrdMap Topic.

(** ** [consistency] *)

Record Op : Type := mkOp { client : bytes; is_write : bool; op_value : Z; op_start : Z; op_end : Z }.
Record Consistency : Type := mkConsistency { ops : list Op }.
Definition Consistency_default : Consistency := mkConsistency [].

(** The loop of [register_legal]. *)
Fixpoint legal_from (current : Z) (order : list Op) : bool :=
  match order with
  | [] => true
  | op :: order =>
      if is_write op then legal_from (op_value op) order
      else if op_value op =? current then legal_from current order else false
  end.
Definition register_legal (order : list Op) : bool := legal_from 0 order.

Section search.
Context (ops : list Op) (precedes : Op -> Op -> bool).

Definition placed_at (placed : list bool) (i : nat) : bool := default true (placed !! i).

Definition blocked (placed : list bool) (i : nat) (op : Op) : bool :=
  existsb (fun j =>
    negb (placed_at placed j) && negb (j =? i)%nat &&
    match ops !! j with Some other => precedes other op | None => false end) (seq 0 (length ops)).

(** The recursion of [go]: what is pushed and marked before the recursive call is
  popped and unmarked after it, so the two are passed by value.  An order grows by one
  with every call, so the fuel is the number of operations still to place and one. *)
Fixpoint go (fuel : nat) (placed : list bool) (order : list Op) : bool :=
  match fuel with
  | O => false
  | S fuel =>
      if (length order =? length ops)%nat then register_legal order
      else
        existsb (fun i =>
          match ops !! i with
          | Some op =>
              if placed_at placed i then false
              else if blocked placed i op then false
              else register_legal (order ++ [op]) && go fuel (<[i := true]> placed) (order ++ [op])
          | None => false
          end) (seq 0 (length ops))
  end.

Definition exists_legal_order : bool := go (S (length ops)) (replicate (length ops) false) [].
End search.

Definition real_time (a b : Op) : bool := op_end a <? op_start b.
Definition program_order (a b : Op) : bool := bool_decide (client a = client b) && (op_end a <? op_start b).

Definition clients (l : list Op) : gset bytes := list_to_set (client <$> l).

Definition Consistency_state (s : Consistency) : Value :=
  VObject [(str "ok", VBool true); (str "ops", VInt (zlen (ops s)));
           (str "clients", VInt (Z.of_nat (size (clients (ops s)))))].

Section consistency.
Context `{JsonText}.

Definition kind_write (kind : bytes) : Result Value bool :=
  if decide (kind = str "write" \/ kind = str "w") then Ok true
  else if decide (kind = str "read" \/ kind = str "r") then Ok false
  else Err (err (str "kind must be read or write, got " ++ debug_str kind)).

Definition record_op (op : Op) (s : Consistency) : Value * Consistency :=
  if op_end op <? op_start op then (err (str "an operation cannot end before it starts"), s)
  else
    let l := ops s ++ [op] in
    (VObject [(str "ok", VBool true); (str "ops", VInt (zlen l))], mkConsistency l).

Definition check_model (model : bytes) (s : Consistency) : Result Value bool :=
  if decide (model = str "linearizable") then Ok (exists_legal_order (ops s) real_time)
  else if decide (model = str "sequential") then Ok (exists_legal_order (ops s) program_order)
  else Err (err (str "unknown model " ++ debug_str model)).

Definition Consistency_step (command : bytes) (args : list bytes) (s : Consistency) : Value * Consistency :=
  if decide (command = str "init") then (VObject [(str "ok", VBool true); (str "ops", VInt 0)], mkConsistency [])
  else if decide (command = str "op") then
    answer (word args 0) s (fun client => answer (word args 1) s (fun kind => answer (kind_write kind) s (fun write =>
      answer (int args 2) s (fun value => answer (int args 3) s (fun start => answer (int args 4) s (fun end_ =>
        record_op (mkOp client write value start end_) s))))))
  else if decide (command = str "check") then
    answer (word args 0) s (fun model => answer (check_model model s) s (fun holds =>
      (VObject [(str "ok", VBool true); (str "model", VString model); (str "holds", VBool holds)], s)))
  else if decide (command = str "state") then (Consistency_state s, s)
  else (unknown_command command, s).
End consistency.

(** ** [session] *)

Record Replica : Type := mkReplica { applied : gmap bytes Z; version : Z }.
Definition Replica_default : Replica := mkReplica ∅ 0.
Record SessionState : Type := mkSessionState { writes : Z; reads : Z }.
Definition SessionState_default : SessionState := mkSessionState 0 0.
Record Session : Type := mkSession {
  replicas : list Replica;
  sessions : gmap bytes SessionState;
  log : list (bytes * Z * Z);
  guarantees : bool;
}.
Definition Session_default : Session := mkSession [] ∅ [] true.

Definition session_of (s : Session) (who : bytes) : SessionState := default SessionState_default (sessions s !! who).
Definition floor (s : Session) (who : bytes) : Z := Z.max (writes (session_of s who)) (reads (session_of s who)).

(** [r.applied.insert(key, version); r.version = r.version.max(version)]. *)
Definition apply_entry (r : Replica) (key : bytes) (v : Z) : Replica :=
  mkReplica (<[key := v]> (applied r)) (Z.max (version r) v).

Definition write_at (who : bytes) (idx : nat) (key : bytes) (value : Z) (r : Replica) (s : Session) : Value * Session :=
  let v := zlen (log s) + 1 in
  let ss := session_of s who in
  (VObject [(str "ok", VBool true); (str "version", VInt v); (str "replica", VInt (Z.of_nat idx))],
   mkSession (<[idx := apply_entry r key v]> (replicas s))
     (<[who := mkSessionState (Z.max (writes ss) v) (reads ss)]> (sessions s))
     (log s ++ [(key, value, v)]) (guarantees s)).

Definition replicate_to (idx : nat) (r : Replica) (s : Session) : Value * Session :=
  let r := foldl (fun r e => apply_entry r e.1.1 e.2) r (log s) in
  (VObject [(str "ok", VBool true); (str "replica", VInt (Z.of_nat idx)); (str "version", VInt (version r))],
   mkSession (<[idx := r]> (replicas s)) (sessions s) (log s) (guarantees s)).

Definition value_of (l : list (bytes * Z * Z)) (key : bytes) (v : Z) : Z :=
  match list_find (fun e => e.1.1 = key /\ e.2 = v) l with Some (_, e) => e.1.2 | None => 0 end.

Definition behind (rv fl : Z) : Value :=
  VObject [(str "ok", VBool true); (str "served", VBool false);
           (str "reason", VString (str "replica is behind this session"));
           (str "replica_version", VInt rv); (str "session_floor", VInt fl)].
Definition served (value v rv : Z) : Value :=
  VObject [(str "ok", VBool true); (str "served", VBool true); (str "value", VInt value);
           (str "version", VInt v); (str "replica_version", VInt rv)].

Definition read_at (who : bytes) (key : bytes) (r : Replica) (s : Session) : Value * Session :=
  let fl := if guarantees s then floor s who else 0 in
  if version r <? fl then (behind (version r) fl, s)
  else
    let v := default 0 (applied r !! key) in
    let ss := session_of s who in
    (served (value_of (log s) key v) v (version r),
     mkSession (replicas s) (<[who := mkSessionState (writes ss) (Z.max (reads ss) (version r))]> (sessions s))
       (log s) (guarantees s)).

Definition Session_state (s : Session) : Value :=
  VObject [(str "ok", VBool true);
           (str "replicas", VArray (map (fun r => VObject [(str "version", VInt (version r))]) (replicas s)));
           (str "log", VInt (zlen (log s))); (str "guarantees", VBool (guarantees s))].

Section session.
Context `{JsonText}.

Definition replica_at (idx : Z) (s : Session) : Result Value Replica :=
  ok_or (replicas s !! Z.to_nat idx) (err (str "no replica " ++ dec idx)).

Definition on_off (w : bytes) : Result Value bool :=
  if decide (w = str "on") then Ok true else if decide (w = str "off") then Ok false
  else Err (err (str "expected on or off, got " ++ debug_str w)).

Definition Session_step (command : bytes) (args : list bytes) (s : Session) : Value * Session :=
  if decide (command = str "init") then
    answer (uint args 0) s (fun n =>
      if n =? 0 then (err (str "a store needs at least one replica"), s)
      else (VObject [(str "ok", VBool true); (str "replicas", VInt n)],
            mkSession (replicate (Z.to_nat n) Replica_default) ∅ [] true))
  else if decide (command = str "guarantees") then
    answer (word args 0) s (fun w => answer (on_off w) s (fun g =>
      (VObject [(str "ok", VBool true); (str "guarantees", VBool g)],
       mkSession (replicas s) (sessions s) (log s) g)))
  else if decide (command = str "write") then
    answer (word args 0) s (fun who => answer (uint args 1) s (fun idx => answer (word args 2) s (fun key =>
      answer (int args 3) s (fun value => answer (replica_at idx s) s (fun r =>
        write_at who (Z.to_nat idx) key value r s)))))
  else if decide (command = str "replicate") then
    answer (uint args 0) s (fun idx => answer (replica_at idx s) s (fun r => replicate_to (Z.to_nat idx) r s))
  else if decide (command = str "read") then
    answer (word args 0) s (fun who => answer (uint args 1) s (fun idx => answer (word args 2) s (fun key =>
      answer (replica_at idx s) s (fun r => read_at who key r s))))
  else if decide (command = str "state") then (Session_state s, s)
  else (unknown_command command, s).
End session.

(** ** The search decides the model *)

Lemma legal_from_app c a b : legal_from c (a ++ b) = true -> legal_from c a = true.
Proof.
  revert c. induction a as [|op a IH]; intros c; cbn; [done|].
  destruct (is_write op); [apply IH|]. destruct (op_value op =? c); [apply IH|done].
Qed.

Section decides.
Context (ops : list Op) (precedes : Op -> Op -> bool).
Let n := length ops.

(** The operations in an order of their indices. *)
Definition in_order (ks : list nat) : list Op := omap (fun i => ops !! i) ks.

(** The order [ks] puts every operation before those it precedes. *)
Definition respects (ks : list nat) : Prop :=
  forall a b i j x y, ks !! a = Some i -> ks !! b = Some j -> ops !! i = Some x -> ops !! j = Some y ->
    i <> j -> precedes y x = true -> (b < a)%nat.

(** The history has an order of its operations that reads like a register. *)
Definition explained : Prop :=
  exists ks, ks ≡ₚ seq 0 n /\ respects ks /\ register_legal (in_order ks) = true.

(** What ks left to check of an order after its first part. *)
Fixpoint respects_after (l ks : list nat) : Prop :=
  match ks with
  | [] => True
  | i :: ks =>
      (forall j x y, (j < n)%nat -> j ∉ l -> j <> i -> ops !! i = Some x -> ops !! j = Some y -> precedes y x = false) /\
      respects_after (l ++ [i]) ks
  end.

Lemma respects_after_sound l ks :
  l ++ ks ≡ₚ seq 0 n -> respects_after l ks ->
  forall a b i j x y, ks !! a = Some i -> (l ++ ks) !! b = Some j -> ops !! i = Some x -> ops !! j = Some y ->
    i <> j -> precedes y x = true -> (b < length l + a)%nat.
Proof.
  revert l. induction ks as [|k ks IH]; intros l Hp; [done|]. intros [Hk Hks] [|a] b i j x y Ha Hb Hx Hy Hn Hpr; cbn in Ha.
  - injection Ha as <-. destruct (decide (b < length l + 0)%nat) as [|Hge]; [done|exfalso].
    assert (NoDup (l ++ k :: ks)) as Hnd by (rewrite Hp; apply NoDup_seq).
    assert (j ∉ l) as Hj.
    { intros Hj. apply list_elem_of_lookup in Hj as [c Hc].
      assert ((l ++ k :: ks) !! c = Some j) as Hc' by (by apply lookup_app_l_Some).
      pose proof (NoDup_lookup _ _ _ _ Hnd Hb Hc'). apply lookup_lt_Some in Hc. lia. }
    rewrite (Hk j x y) in Hpr; [done| |done|done|done|done]. by eapply lookup_lt_Some.
  - rewrite (cons_middle k l ks), app_assoc in Hp, Hb. specialize (IH (l ++ [k]) Hp Hks a b i j x y Ha Hb Hx Hy Hn Hpr).
    rewrite length_app in IH. cbn in IH. lia.
Qed.

Lemma respects_after_complete l ks :
  l ++ ks ≡ₚ seq 0 n ->
  (forall a b i j x y, ks !! a = Some i -> (l ++ ks) !! b = Some j -> ops !! i = Some x -> ops !! j = Some y ->
    i <> j -> precedes y x = true -> (b < length l + a)%nat) ->
  respects_after l ks.
Proof.
  revert l. induction ks as [|k ks IH]; intros l Hp H; [done|]. split.
  - intros j x y Hj Hl Hn Hx Hy. destruct (precedes y x) eqn:E; [exfalso|done].
    assert (j ∈ l ++ k :: ks) as Hin by (rewrite Hp; apply elem_of_seq; lia).
    apply list_elem_of_lookup in Hin as [b Hb]. specialize (H 0%nat b k j x y eq_refl Hb Hx Hy (not_eq_sym Hn) E).
    rewrite lookup_app_l in Hb by lia. apply Hl. by eapply list_elem_of_lookup_2.
  - rewrite (cons_middle k l ks), app_assoc in Hp. apply IH; [done|]. intros a b i j x y Ha Hb Hx Hy Hn Hpr.
    rewrite <- app_assoc in Hb. specialize (H (S a) b i j x y Ha Hb Hx Hy Hn Hpr). rewrite length_app. cbn. lia.
Qed.

Lemma respects_after_nil ks : ks ≡ₚ seq 0 n -> respects_after [] ks <-> respects ks.
Proof.
  intros Hp. split.
  - intros H a b i j x y Ha Hb. exact (respects_after_sound [] ks Hp H a b i j x y Ha Hb).
  - intros H. apply respects_after_complete; [done|]. intros a b i j x y Ha Hb. exact (H a b i j x y Ha Hb).
Qed.

(** The bitmap marks the indices of the order so far. *)
Definition marks (placed : list bool) (l : list nat) : Prop :=
  length placed = n /\ forall i, (i < n)%nat -> placed_at placed i = true <-> i ∈ l.

Lemma marks_start : marks (replicate n false) [].
Proof.
  split; [apply length_replicate|]. intros i Hi. unfold placed_at. rewrite lookup_replicate_2 by done. cbn.
  split; [done|]. intros H. by apply not_elem_of_nil in H.
Qed.

Lemma marks_insert placed l i : (i < n)%nat -> marks placed l -> marks (<[i := true]> placed) (l ++ [i]).
Proof.
  intros Hi [Hlen H]. split; [by rewrite length_insert|]. intros j Hj. rewrite elem_of_app, list_elem_of_singleton.
  unfold placed_at. destruct (decide (j = i)) as [->|Hn].
  - rewrite list_lookup_insert_eq by lia. cbn. tauto.
  - rewrite list_lookup_insert_ne by done. fold (placed_at placed j). rewrite (H j Hj). tauto.
Qed.

Lemma blocked_false placed l i x :
  marks placed l -> blocked ops precedes placed i x = false <->
  forall j y, (j < n)%nat -> j ∉ l -> j <> i -> ops !! j = Some y -> precedes y x = false.
Proof.
  intros [_ H]. unfold blocked. rewrite <- not_true_iff_false, existsb_exists. split.
  - intros Hno j y Hj Hl Hn Hy. destruct (precedes y x) eqn:E; [|done]. destruct Hno. exists j.
    split; [apply in_seq; fold n; lia|]. rewrite Hy, E. destruct (placed_at placed j) eqn:Ej; [by apply H in Ej|].
    destruct (Nat.eqb_spec j i); done.
  - intros Hall (j & Hj & E). apply in_seq in Hj. cbn in Hj. apply andb_true_iff in E as [E Ep].
    apply andb_true_iff in E as [E1 E2]. destruct (ops !! j) as [y|] eqn:Hy; [|done].
    rewrite (Hall j y) in Ep; [done|lia| | |done].
    + rewrite <- (H j) by lia. by destruct (placed_at placed j).
    + by destruct (Nat.eqb_spec j i).
Qed.

Lemma in_order_snoc l i x : ops !! i = Some x -> in_order (l ++ [i]) = in_order l ++ [x].
Proof. intros Hx. unfold in_order. rewrite omap_app. cbn. by rewrite Hx. Qed.

Lemma length_in_order l : l ⊆+ seq 0 n -> length (in_order l) = length l.
Proof.
  intros Hs. assert (forall i, i ∈ l -> (i < n)%nat) as H.
  { intros i Hi. assert (i ∈ seq 0 n) as Hi' by (by eapply elem_of_submseteq). apply elem_of_seq in Hi'. lia. }
  clear Hs. induction l as [|i l IH]; [done|]. unfold in_order in *. cbn.
  destruct (lookup_lt_is_Some_2 ops i) as [x Hx]; [apply H, list_elem_of_here|]. rewrite Hx. cbn. f_equal. apply IH.
  intros j Hj. apply H. by apply list_elem_of_further.
Qed.

Lemma grown l i :
  NoDup l -> i ∉ l -> (i < n)%nat -> (forall j, j ∈ l -> (j < n)%nat) ->
  NoDup (l ++ [i]) /\ forall j, j ∈ l ++ [i] -> (j < n)%nat.
Proof.
  intros Hnd Hil Hi Hlt. split.
  - apply NoDup_app. split; [done|]. split; [|apply NoDup_singleton]. intros j Hj Hji%list_elem_of_singleton. by subst j.
  - intros j [Hj|Hj%list_elem_of_singleton]%elem_of_app; [by apply Hlt|by subst j].
Qed.

Lemma go_spec fuel placed l :
  marks placed l -> NoDup l -> (forall i, i ∈ l -> (i < n)%nat) -> (n < length l + fuel)%nat ->
  go ops precedes fuel placed (in_order l) = true <->
  exists rest, l ++ rest ≡ₚ seq 0 n /\ respects_after l rest /\ register_legal (in_order (l ++ rest)) = true.
Proof.
  revert placed l. induction fuel as [|fuel IH]; intros placed l Hm Hnd Hlt Hf.
  { assert (length l <= n)%nat; [|lia]. rewrite <- (length_seq n 0). apply submseteq_length, NoDup_submseteq; [done|].
    intros i Hi. apply elem_of_seq. specialize (Hlt i Hi). lia. }
  assert (l ⊆+ seq 0 n) as Hs.
  { apply NoDup_submseteq; [done|]. intros i Hi. apply elem_of_seq. specialize (Hlt i Hi). lia. }
  cbn [go]. rewrite (length_in_order l Hs). fold n. destruct (Nat.eqb_spec (length l) n) as [Hl|Hl].
  - assert (l ≡ₚ seq 0 n) as Hp by (apply submseteq_length_Permutation; [done|rewrite length_seq; lia]).
    split.
    + intros Hr. exists []. by rewrite app_nil_r.
    + intros (rest & Hp' & _ & Hr). assert (rest = []) as ->; [|by rewrite app_nil_r in Hr].
      apply Permutation_length in Hp'. rewrite length_app, length_seq in Hp'. destruct rest; [done|cbn in *; lia].
  - rewrite existsb_exists. split.
    + intros (i & Hi & E). apply in_seq in Hi. destruct (ops !! i) as [x|] eqn:Hx; [|done].
      destruct (placed_at placed i) eqn:Ep; [done|]. destruct (blocked ops precedes placed i x) eqn:Eb; [done|].
      apply andb_true_iff in E as [_ E]. rewrite <- (in_order_snoc l i x Hx) in E.
      assert (i ∉ l) as Hil by (rewrite <- (proj2 Hm i) by (fold n in Hi; lia); by rewrite Ep).
      apply IH in E as (rest & Hp & Hr & Hreg).
      * exists (i :: rest). rewrite (cons_middle i l rest), app_assoc. split; [done|]. split; [|done]. split; [|done].
        intros j x' y Hj Hjl Hn Hx' Hy. rewrite Hx in Hx'. injection Hx' as <-.
        by apply (proj1 (blocked_false placed l i x Hm) Eb j y).
      * apply marks_insert; [fold n in Hi; lia|done].
      * apply grown; [done..|fold n in Hi; lia|done].
      * apply grown; [done..|fold n in Hi; lia|done].
      * rewrite length_app. cbn. lia.
    + intros ([|i rest] & Hp & Hr & Hreg).
      { apply Permutation_length in Hp. rewrite app_nil_r, length_seq in Hp. lia. }
      destruct Hr as [Hb Hr]. assert (i < n)%nat as Hi.
      { assert (i ∈ seq 0 n) as H by (rewrite <- Hp; set_solver). apply elem_of_seq in H. lia. }
      destruct (lookup_lt_is_Some_2 ops i Hi) as [x Hx]. exists i. split; [apply in_seq; fold n; lia|]. rewrite Hx.
      assert (NoDup (l ++ i :: rest)) as Hnd' by (rewrite Hp; apply NoDup_seq).
      assert (i ∉ l) as Hil.
      { intros Hil. apply NoDup_app in Hnd' as (_ & H & _). apply (H i Hil). set_solver. }
      destruct (placed_at placed i) eqn:Ep; [by apply (proj2 Hm i Hi) in Ep|].
      rewrite (proj2 (blocked_false placed l i x Hm)); [|intros j y Hj Hjl Hn Hy; by eapply Hb].
      rewrite <- (in_order_snoc l i x Hx). rewrite (cons_middle i l rest), app_assoc in Hp, Hreg. apply andb_true_iff. split.
      * unfold register_legal in *. unfold in_order in Hreg. rewrite omap_app in Hreg. by eapply legal_from_app.
      * apply IH.
        -- by apply marks_insert.
        -- by apply grown.
        -- by apply grown.
        -- rewrite length_app. cbn. lia.
        -- eauto.
Qed.

Lemma exists_legal_order_spec : exists_legal_order ops precedes = true <-> explained.
Proof.
  unfold exists_legal_order, explained. change (@nil Op) with (in_order []). rewrite go_spec.
  - cbn [app]. split; intros (ks & Hp & Hr & Hl); exists ks; (split; [done|]); (split; [by apply respects_after_nil|done]).
  - apply marks_start.
  - constructor.
  - intros i Hi. by apply not_elem_of_nil in Hi.
  - cbn. fold n. lia.
Qed.
End decides.

(** ** Session guarantees *)

Abbreviation Entry := (bytes * Z * Z)%type.

(** The version of the last entry of a key. *)
Definition latest_from (acc : Z) (l : list Entry) (key : bytes) : Z :=
  foldl (fun acc e => if decide (e.1.1 = key) then e.2 else acc) acc l.
Definition latest (l : list Entry) (key : bytes) : Z := latest_from 0 l key.

(** Entries are numbered from one. *)
Definition numbered (l : list Entry) : Prop := forall p e, l !! p = Some e -> e.2 = Z.of_nat p + 1.

Lemma latest_from_app acc a b key : latest_from acc (a ++ b) key = latest_from (latest_from acc a key) b key.
Proof. apply foldl_app. Qed.

Lemma latest_from_cases acc l key :
  (latest_from acc l key = acc /\ forall e, e ∈ l -> e.1.1 <> key) \/
  exists e, e ∈ l /\ e.1.1 = key /\ forall acc', latest_from acc' l key = e.2.
Proof.
  induction l as [|e l IH] using rev_ind; [left; split; [done|intros e He; by apply not_elem_of_nil in He]|].
  destruct (decide (e.1.1 = key)) as [Hk|Hk].
  - right. exists e. split_and!; [set_solver|done|]. intros acc'. rewrite latest_from_app. cbn. by rewrite decide_True.
  - destruct IH as [[IH1 IH2]|(e' & He' & Hk' & IH)].
    + left. rewrite latest_from_app, IH1. cbn. rewrite decide_False by done. split; [done|set_solver].
    + right. exists e'. split_and!; [set_solver|done|]. intros acc'. rewrite latest_from_app, IH. cbn. by rewrite decide_False.
Qed.

Lemma latest_absorbs l key m : latest_from (latest (take m l) key) l key = latest l key.
Proof.
  destruct (latest_from_cases (latest (take m l) key) l key) as [[-> H]|(e & _ & _ & H)]; [|unfold latest; by rewrite !H].
  destruct (latest_from_cases 0 (take m l) key) as [[E _]|(e & He & Hk & _)].
  - unfold latest. rewrite E. destruct (latest_from_cases 0 l key) as [[-> _]|(e & He & Hk & _)]; [done|by destruct (H e He)].
  - destruct (H e); [|done]. apply list_elem_of_lookup in He as [p Hp]. apply lookup_take_Some in Hp as [Hp _].
    by eapply list_elem_of_lookup_2.
Qed.

Lemma latest_range l key : numbered l -> 0 <= latest l key <= zlen l.
Proof.
  intros Hn. unfold latest. destruct (latest_from_cases 0 l key) as [[-> _]|(e & He & _ & ->)]; [pose proof (zlen_nonneg l); lia|].
  apply list_elem_of_lookup in He as [p Hp]. rewrite (Hn p e Hp). apply lookup_lt_Some in Hp. unfold zlen. lia.
Qed.

Lemma numbered_take l m : numbered l -> numbered (take m l).
Proof. intros Hn p e [Hp _]%lookup_take_Some. by apply Hn. Qed.

(** An entry within a prefix is no newer than the last of the prefix. *)
Lemma latest_ge l m p e : numbered l -> l !! p = Some e -> (p < m)%nat -> e.2 <= latest (take m l) e.1.1.
Proof.
  intros Hn Hp Hm. set (l' := take m l). assert (l' !! p = Some e) as Hp' by (by apply lookup_take_Some).
  assert (numbered l') as Hn' by (by apply numbered_take). clearbody l'. clear Hp Hn.
  revert p Hp' Hm. induction l' as [|e' l' IH] using rev_ind; intros p Hp Hm; [done|].
  unfold latest. rewrite latest_from_app. cbn. apply lookup_snoc_Some in Hp as [[Hl Hp]|[-> ->]].
  - assert (numbered l') as Hn.
    { intros q f Hq. apply Hn'. by apply lookup_app_l_Some. }
    case_decide; [|by apply (IH Hn p)]. rewrite (Hn' (length l') e') by (apply lookup_snoc_Some; auto).
    rewrite (Hn p e Hp). lia.
  - by rewrite decide_True.
Qed.

Lemma latest_mono l a b key : numbered l -> (a <= b)%nat -> latest (take a l) key <= latest (take b l) key.
Proof.
  intros Hn Hab. unfold latest at 1. destruct (latest_from_cases 0 (take a l) key) as [[-> _]|(e & He & <- & ->)].
  - apply latest_range. by apply numbered_take.
  - apply list_elem_of_lookup in He as [p Hp]. apply lookup_take_Some in Hp as [Hp Hpa]. apply (latest_ge l b p); [done..|lia].
Qed.

(** What clients did: writes with the version they were given, reads with the version
  they were answered. *)
Inductive Happened : Type :=
| Wrote (who key : bytes) (v : Z)
| ReadAt (who key : bytes) (v : Z).

(** The replica named by an argument holds the whole log. *)
Definition caught_up (s : Session) (idx : bytes) : Prop :=
  exists i r, parse_i64 idx = Some i /\ 0 <= i /\ replicas s !! Z.to_nat i = Some r /\ version r = zlen (log s).

Definition written (v idx : Z) : Value :=
  VObject [(str "ok", VBool true); (str "version", VInt v); (str "replica", VInt idx)].

(** Runs with the guarantees on, in which a write goes to a replica that holds the
  whole log. *)
Inductive session_run `{JsonText} : Session -> list Happened -> Prop :=
| run_init s0 args n s :
    Session_step (str "init") args s0 = (VObject [(str "ok", VBool true); (str "replicas", VInt n)], s) ->
    session_run s []
| run_write s h who idx key rest v i s' :
    session_run s h -> caught_up s idx ->
    Session_step (str "write") (who :: idx :: key :: rest) s = (written v i, s') ->
    session_run s' (h ++ [Wrote who key v])
| run_read s h who idx key rest value v rv s' :
    session_run s h -> Session_step (str "read") (who :: idx :: key :: rest) s = (served value v rv, s') ->
    session_run s' (h ++ [ReadAt who key v])
| run_refused s h who idx key rest rv fl s' :
    session_run s h -> Session_step (str "read") (who :: idx :: key :: rest) s = (behind rv fl, s') -> session_run s' h
| run_replicate s h args ans s' :
    session_run s h -> Session_step (str "replicate") args s = (ans, s') -> session_run s' h.

(** A replica holds a prefix of the log. *)
Definition holds_prefix (l : list Entry) (r : Replica) : Prop :=
  0 <= version r <= zlen l /\ forall key, default 0 (applied r !! key) = latest (take (Z.to_nat (version r)) l) key.

Record session_inv (s : Session) (h : list Happened) : Prop := {
  si_on : guarantees s = true;
  si_numbered : numbered (log s);
  si_replicas : forall i r, replicas s !! i = Some r -> holds_prefix (log s) r;
  si_floor who : 0 <= writes (session_of s who) <= zlen (log s) /\ 0 <= reads (session_of s who) <= zlen (log s);
  si_wrote who key v : Wrote who key v ∈ h ->
    v <= writes (session_of s who) /\ exists p e, log s !! p = Some e /\ e.1.1 = key /\ e.2 = v;
  si_read who key v : ReadAt who key v ∈ h ->
    exists m, Z.of_nat m <= reads (session_of s who) /\ v = latest (take m (log s)) key;
}.

Section run.
Context `{JsonText}.

Lemma uint_Ok args i z : uint args i = Ok z -> exists a, args !! i = Some a /\ parse_i64 a = Some z /\ 0 <= z.
Proof.
  unfold uint, int, word. destruct (args !! i) as [a|]; cbn; [|done]. destruct (parse_i64 a) as [n|] eqn:E; cbn; [|done].
  destruct (Z.leb_spec 0 n); cbn; [|done]. intros [= <-]. eauto.
Qed.

(** An argument that does not parse is answered with an error. *)
Definition is_err (v : Value) : Prop := exists m, v = err m.
Lemma word_err args i e : word args i = Err e -> is_err e.
Proof. unfold word. destruct (args !! i); cbn; [done|]. intros [= <-]. by eexists. Qed.
Lemma int_err args i e : int args i = Err e -> is_err e.
Proof.
  unfold int. destruct (word args i) as [a|] eqn:E; cbn; [|intros [= <-]; by eapply word_err].
  destruct (parse_i64 a); cbn; [done|]. intros [= <-]. by eexists.
Qed.
Lemma uint_err args i e : uint args i = Err e -> is_err e.
Proof.
  unfold uint. destruct (int args i) as [a|] eqn:E; cbn; [|intros [= <-]; by eapply int_err].
  case_match; [done|]. intros [= <-]. by eexists.
Qed.
Lemma replica_err i s e : replica_at i s = Err e -> is_err e.
Proof. unfold replica_at. destruct (_ !! _); cbn; [done|]. intros [= <-]. by eexists. Qed.

(** What an answer that is no error says of the command. *)
Lemma answer_inv {S A} (r : Result Value A) (s : S) (k : A -> Value * S) v s' :
  (forall e, r = Err e -> is_err e) -> ~ is_err v -> answer r s k = (v, s') -> exists a, r = Ok a /\ k a = (v, s').
Proof.
  intros He Hv. destruct r as [a|e]; cbn; [eauto|]. intros [= <- _]. destruct Hv. by apply He.
Qed.

Lemma written_no_err v i : ~ is_err (written v i).
Proof. intros [m E]. discriminate E. Qed.
Lemma served_no_err a v rv : ~ is_err (served a v rv).
Proof. intros [m E]. discriminate E. Qed.
Lemma behind_no_err rv fl : ~ is_err (behind rv fl).
Proof. intros [m E]. discriminate E. Qed.

Lemma write_inv who idx key rest s v i s' :
  Session_step (str "write") (who :: idx :: key :: rest) s = (written v i, s') ->
  exists n r value, parse_i64 idx = Some n /\ 0 <= n /\ replicas s !! Z.to_nat n = Some r /\
    write_at who (Z.to_nat n) key value r s = (written v i, s').
Proof.
  intros E. unfold Session_step in E. rewrite !decide_False, decide_True in E by done.
  apply answer_inv in E as (w & [= <-] & E); [|apply word_err|apply written_no_err].
  apply answer_inv in E as (n & Hn & E); [|apply uint_err|apply written_no_err].
  apply answer_inv in E as (k & [= <-] & E); [|apply word_err|apply written_no_err].
  apply answer_inv in E as (value & _ & E); [|apply int_err|apply written_no_err].
  apply answer_inv in E as (r & Hr & E); [|apply replica_err|apply written_no_err].
  apply uint_Ok in Hn as (a & [= <-] & Hp & H0). apply ok_or_Ok_inv in Hr. eauto 8.
Qed.

Lemma read_step who idx key rest s n r :
  parse_i64 idx = Some n -> 0 <= n -> replicas s !! Z.to_nat n = Some r ->
  Session_step (str "read") (who :: idx :: key :: rest) s = read_at who key r s.
Proof.
  intros Hp H0 Hr. unfold Session_step. rewrite !decide_False, decide_True by done.
  unfold uint, int, word, replica_at. cbn. rewrite Hp. cbn. rewrite (proj2 (Z.leb_le 0 n) H0). cbn. by rewrite Hr.
Qed.

Lemma read_inv who idx key rest s v s' :
  ~ is_err v -> Session_step (str "read") (who :: idx :: key :: rest) s = (v, s') ->
  exists n r, parse_i64 idx = Some n /\ 0 <= n /\ replicas s !! Z.to_nat n = Some r /\ read_at who key r s = (v, s').
Proof.
  intros Hv E. unfold Session_step in E. rewrite !decide_False, decide_True in E by done.
  apply answer_inv in E as (w & [= <-] & E); [|apply word_err|done].
  apply answer_inv in E as (n & Hn & E); [|apply uint_err|done].
  apply answer_inv in E as (k & [= <-] & E); [|apply word_err|done].
  apply answer_inv in E as (r & Hr & E); [|apply replica_err|done].
  apply uint_Ok in Hn as (a & [= <-] & Hp & H0). apply ok_or_Ok_inv in Hr. eauto 8.
Qed.

Lemma apply_all l r :
  numbered l -> 0 <= version r ->
  let r' := foldl (fun r e => apply_entry r e.1.1 e.2) r l in
  version r' = Z.max (version r) (zlen l) /\
  forall key, default 0 (applied r' !! key) = latest_from (default 0 (applied r !! key)) l key.
Proof.
  cbn zeta. induction l as [|e l IH] using rev_ind; intros Hn Hr; [unfold zlen; cbn; split; [lia|done]|].
  assert (numbered l) as Hn' by (intros p f Hp; apply Hn; by apply lookup_app_l_Some).
  destruct (IH Hn' Hr) as [IH1 IH2]. rewrite foldl_app. cbn [foldl apply_entry version applied]. split.
  - rewrite IH1, (Hn (length l) e) by (apply lookup_snoc_Some; auto).
    rewrite zlen_app. unfold zlen. cbn [length]. lia.
  - intros key. rewrite latest_from_app. cbn. destruct (decide (e.1.1 = key)) as [<-|Hk].
    + by rewrite lookup_insert_eq.
    + by rewrite lookup_insert_ne.
Qed.

Lemma holds_prefix_app l l' r : holds_prefix l r -> holds_prefix (l ++ l') r.
Proof.
  intros [Hv Hk]. split; [rewrite zlen_app; pose proof (zlen_nonneg l'); lia|].
  intros key. rewrite Hk. f_equal. symmetry. apply take_app_le. unfold zlen in Hv. lia.
Qed.

Lemma session_of_insert s who q x r l g :
  session_of (mkSession r (<[who := x]> (sessions s)) l g) q = if decide (q = who) then x else session_of s q.
Proof.
  unfold session_of. cbn. case_decide as E; [subst; by rewrite lookup_insert_eq|by rewrite lookup_insert_ne].
Qed.

Lemma session_inv_init n s : s = mkSession (replicate (Z.to_nat n) Replica_default) ∅ [] true -> session_inv s [].
Proof.
  intros ->. split; cbn.
  - done.
  - intros p e Hp. by rewrite lookup_nil in Hp.
  - intros i r [-> _]%lookup_replicate. split; [done|]. intros key. by rewrite take_nil.
  - intros who. unfold session_of. cbn. by rewrite lookup_empty.
  - intros who key v Hin. by apply not_elem_of_nil in Hin.
  - intros who key v Hin. by apply not_elem_of_nil in Hin.
Qed.

Lemma session_inv_write s h who key value idx r v i s' :
  session_inv s h -> replicas s !! idx = Some r -> version r = zlen (log s) ->
  write_at who idx key value r s = (written v i, s') -> session_inv s' (h ++ [Wrote who key v]).
Proof.
  intros [H1 H2 H3 H4 H5 H6] Hr Hv E. unfold write_at in E. injection E as E1 _ E2. subst v s'.
  set (e := (key, value, zlen (log s) + 1) : Entry). pose proof (zlen_nonneg (log s)) as Hl.
  assert (zlen (log s ++ [e]) = zlen (log s) + 1) as Hl' by (rewrite zlen_app; done).
  destruct (H4 who) as [Hw Hrd]. split; cbn [guarantees log replicas].
  - done.
  - intros p f [[_ Hp]|[-> <-]]%lookup_snoc_Some; [by apply H2|]. done.
  - intros j q Hq. destruct (decide (j = idx)) as [->|Hj].
    + rewrite list_lookup_insert_eq in Hq by (by eapply lookup_lt_Some). injection Hq as <-.
      destruct (H3 idx r Hr) as [_ Ha]. split; cbn [version applied apply_entry]; [lia|].
      intros k. rewrite take_ge by (rewrite length_app; unfold zlen in *; cbn; lia).
      unfold latest. rewrite latest_from_app. cbn. destruct (decide (key = k)) as [->|Hk].
      * by rewrite lookup_insert_eq.
      * rewrite lookup_insert_ne by done. rewrite Ha, Hv. rewrite take_ge by (unfold zlen; lia). done.
    + rewrite list_lookup_insert_ne in Hq by done. by apply holds_prefix_app, (H3 j).
  - intros q. rewrite session_of_insert. case_decide as Hq; cbn; [lia|]. destruct (H4 q). lia.
  - intros q k v [Hin|Hin]%elem_of_app.
    + destruct (H5 q k v Hin) as (Hle & p & f & Hp & Hk & Hf). split.
      * rewrite session_of_insert. case_decide as Hq; [subst q; cbn; lia|done].
      * exists p, f. split; [by apply lookup_app_l_Some|done].
    + apply list_elem_of_singleton in Hin. injection Hin as -> -> ->. rewrite session_of_insert, decide_True by done. cbn.
      split; [lia|]. exists (length (log s)), e. split; [apply lookup_snoc_Some; auto|done].
  - intros q k v [Hin|Hin]%elem_of_app; [|by apply list_elem_of_singleton in Hin].
    destruct (H6 q k v Hin) as (m & Hm & ->). exists m. destruct (H4 q) as [_ Hrq]. split.
    + rewrite session_of_insert. case_decide as Hq; [subst q; cbn; lia|done].
    + f_equal. symmetry. apply take_app_le. unfold zlen in *. lia.
Qed.

Lemma session_inv_read s h who key r value v rv s' :
  session_inv s h -> holds_prefix (log s) r -> read_at who key r s = (served value v rv, s') ->
  floor s who <= version r /\ v = latest (take (Z.to_nat (version r)) (log s)) key /\ value = value_of (log s) key v /\
  session_inv s' (h ++ [ReadAt who key v]).
Proof.
  intros [H1 H2 H3 H4 H5 H6] [Hv Ha] E. unfold read_at in E. rewrite H1 in E.
  destruct (Z.ltb_spec (version r) (floor s who)) as [|Hf]; [discriminate E|]. injection E as E1 E2 _ E3. subst v s'.
  split; [done|]. split; [apply Ha|]. split; [done|]. destruct (H4 who) as [Hw Hrd].
  split; cbn [guarantees log replicas]; try done.
  - intros q. rewrite session_of_insert. case_decide as Hq; cbn; [lia|]. apply H4.
  - intros q k v [Hin|Hin]%elem_of_app; [|by apply list_elem_of_singleton in Hin].
    rewrite session_of_insert. case_decide as Hq; [subst q; cbn; by apply H5|by apply H5].
  - intros q k v [Hin|Hin]%elem_of_app.
    + destruct (H6 q k v Hin) as (m & Hm & ->). exists m. split; [|done].
      rewrite session_of_insert. case_decide as Hq; [subst q; cbn; lia|done].
    + apply list_elem_of_singleton in Hin. injection Hin as -> -> ->. rewrite session_of_insert, decide_True by done. cbn.
      exists (Z.to_nat (version r)). split; [lia|apply Ha].
Qed.

Lemma session_inv_replicate s h idx r :
  session_inv s h -> replicas s !! idx = Some r -> session_inv (replicate_to idx r s).2 h.
Proof.
  intros [H1 H2 H3 H4 H5 H6] Hr. destruct (H3 idx r Hr) as [Hv Ha].
  destruct (apply_all (log s) r H2 ltac:(lia)) as [Hv' Ha']. split; cbn [replicate_to snd guarantees log replicas]; try done.
  intros j q Hq. destruct (decide (j = idx)) as [->|Hj]; [|rewrite list_lookup_insert_ne in Hq by done; by apply (H3 j)].
  rewrite list_lookup_insert_eq in Hq by (by eapply lookup_lt_Some). injection Hq as <-.
  split; rewrite Hv'; [lia|]. intros key. rewrite Ha', Ha, latest_absorbs. rewrite take_ge; [done|]. unfold zlen. lia.
Qed.

Lemma session_run_inv s h : session_run s h -> session_inv s h.
Proof.
  induction 1 as [s0 args n s E|s h who idx key rest v i s' _ IH Hc E|s h who idx key rest value v rv s' _ IH E
    |s h who idx key rest rv fl s' _ IH E|s h args ans s' _ IH E].
  - unfold Session_step in E. rewrite decide_True in E by done.
    apply answer_inv in E as (m & _ & E); [|apply uint_err|by intros [? ?]].
    destruct (m =? 0); [discriminate E|]. injection E as _ <-. by apply (session_inv_init m).
  - apply write_inv in E as (n & r & value & Hp & H0 & Hr & E). destruct Hc as (n' & r' & Hp' & _ & Hr' & Hv).
    rewrite Hp in Hp'. injection Hp' as <-. rewrite Hr in Hr'. injection Hr' as <-. by eapply session_inv_write.
  - apply read_inv in E as (n & r & Hp & H0 & Hr & E); [|apply served_no_err].
    apply (session_inv_read s h) in E as (_ & _ & _ & Hi); [done|done|by eapply si_replicas].
  - apply read_inv in E as (n & r & Hp & H0 & Hr & E); [|apply behind_no_err].
    unfold read_at in E. destruct (version r <? _); [by injection E as _ _ <-|discriminate E].
  - unfold Session_step in E. rewrite !decide_False, decide_True in E by done.
    destruct (uint args 0) as [n|e] eqn:En; cbn [answer] in E; [|by injection E as _ <-].
    unfold replica_at in E. destruct (replicas s !! Z.to_nat n) as [r|] eqn:Hr; cbn [ok_or answer] in E; [|by injection E as _ <-].
    apply (f_equal snd) in E. cbn [snd] in E. subst s'. by apply session_inv_replicate.
Qed.
End run.

(** Reading from a replica that holds the whole log is never refused. *)
Lemma caught_up_serves `{JsonText} s h who idx key rest :
  session_inv s h -> caught_up s idx ->
  exists value v rv s', Session_step (str "read") (who :: idx :: key :: rest) s = (served value v rv, s').
Proof.
  intros Hi (n & r & Hp & H0 & Hr & Hv). rewrite (read_step who idx key rest s n r Hp H0 Hr). unfold read_at.
  rewrite (si_on _ _ Hi). destruct (si_floor _ _ Hi who). rewrite (proj2 (Z.ltb_ge (version r) (floor s who))); [eauto|].
  unfold floor. lia.
Qed.

(** The value answered is that of an entry with the version, if there is one. *)
Lemma value_of_entry l key m :
  let v := latest (take m l) key in
  (v = 0 /\ forall e, e ∈ take m l -> e.1.1 <> key) \/ (key, value_of l key v, v) ∈ l.
Proof.
  cbn zeta. unfold latest. destruct (latest_from_cases 0 (take m l) key) as [[-> H]|(e & He & Hk & ->)]; [by left|right].
  assert (e ∈ l) as Hin by (rewrite <- (take_drop m l); set_solver).
  unfold value_of. destruct (list_find _ l) as [[i [[k x] v]]|] eqn:E.
  - apply list_find_Some in E as (Hi & [Hk' Hv'] & _). cbn in *. subst k v. by eapply list_elem_of_lookup_2.
  - apply list_find_None in E. rewrite Forall_forall in E. by destruct (E e Hin).
Qed.

(** ** Claims *)

Definition verdict (model : bytes) (holds : bool) : Value :=
  VObject [(str "ok", VBool true); (str "model", VString model); (str "holds", VBool holds)].

(** C20: [check] decides the two models.  Of any recorded history it says that
  [linearizable] holds exactly when some order of all its operations puts whatever
  ended before another began in front of it and reads like a register - every read
  the value of the last write before it, zero where there is none - and [sequential]
  exactly when some such order does so for each client's own operations; what is
  linearizable is sequentially consistent, and asking changes nothing. *)
Theorem consistency_check_decides `{JsonText} s rest :
  exists lin seq,
    Consistency_step (str "check") (str "linearizable" :: rest) s = (verdict (str "linearizable") lin, s) /\
    Consistency_step (str "check") (str "sequential" :: rest) s = (verdict (str "sequential") seq, s) /\
    (lin = true <-> explained (ops s) real_time) /\ (seq = true <-> explained (ops s) program_order) /\
    (lin = true -> seq = true).
Proof.
  exists (exists_legal_order (ops s) real_time), (exists_legal_order (ops s) program_order).
  split; [done|]. split; [done|]. rewrite !exists_legal_order_spec. split; [done|]. split; [done|].
  intros (ks & Hp & Hr & Hl). exists ks. split; [done|]. split; [|done].
  intros a b i j x y Ha Hb Hx Hy Hn [_ Hpr]%andb_true_iff. by eapply Hr.
Qed.

(** C21: the session guarantees.  On a run in which every write goes to a replica that
  holds the whole log, a read that is served is no older than any write its client
  made to the key (read your writes) and than any read it was served of it before
  (monotonic reads), whichever replicas served them; the answer is an entry of the
  log, or zero when the replica has none for the key; and a replica that has caught
  up refuses no one. *)
Theorem session_guarantees_hold `{JsonText} s h who idx key rest :
  session_run s h ->
  (forall value v rv s', Session_step (str "read") (who :: idx :: key :: rest) s = (served value v rv, s') ->
     (forall v', Wrote who key v' ∈ h \/ ReadAt who key v' ∈ h -> v' <= v) /\
     ((key, value, v) ∈ log s \/ v = 0)) /\
  (caught_up s idx ->
     exists value v rv s', Session_step (str "read") (who :: idx :: key :: rest) s = (served value v rv, s')).
Proof.
  intros Hi%session_run_inv. split; [|by eapply caught_up_serves].
  intros value v rv s' E. apply read_inv in E as (n & r & Hp & H0 & Hr & E); [|apply served_no_err].
  pose proof (si_replicas _ _ Hi _ _ Hr) as Hpre.
  apply (session_inv_read s h) in E as (Hf & -> & -> & _); [|done..]. unfold floor in Hf. split.
  - intros v' [Hw|Hrd].
    + destruct (si_wrote _ _ Hi _ _ _ Hw) as (Hle & p & e & Hpe & <- & <-).
      apply (latest_ge _ _ p); [by apply (si_numbered _ _ Hi)|done|].
      rewrite (si_numbered _ _ Hi p e Hpe) in Hle. lia.
    + destruct (si_read _ _ Hi _ _ _ Hrd) as (m & Hm & ->). apply latest_mono; [by apply (si_numbered _ _ Hi)|lia].
  - destruct (value_of_entry (log s) key (Z.to_nat (version r))) as [[E _]|E]; [by right|by left].
Qed.

(** A write to a replica that is behind raises its version over the entries it does
  not have: a client then reads zero where it has written one. *)
Example read_your_writes_fails :
  let J := no_text in
  let go (s : Session) (c : bytes) (args : list bytes) := (Session_step c args s).2 in
  let s0 := go Session_default (str "init") [str "2"] in
  let s1 := go s0 (str "write") [str "ann"; str "0"; str "x"; str "1"] in
  let s2 := go s1 (str "write") [str "bob"; str "1"; str "y"; str "7"] in
  (Session_step (str "read") [str "ann"; str "1"; str "x"] s2).1 = served 0 0 2.
Proof. vm_compute. reflexivity. Qed.

#[local] Existing Instance no_text.

(** Two replicas, a write at the first, which is then copied to the second. *)
Definition two_replicas : Session := (Session_step (str "init") [str "2"] Session_default).2.
Definition one_write : Session := (Session_step (str "write") [str "ann"; str "0"; str "x"; str "7"] two_replicas).2.

Lemma one_write_run : session_run one_write [Wrote (str "ann") (str "x") 1].
Proof.
  apply (run_write two_replicas [] (str "ann") (str "0") (str "x") [str "7"] 1 0).
  - apply (run_init Session_default [str "2"] 2). vm_compute. reflexivity.
  - exists 0, Replica_default. split_and!; vm_compute; (reflexivity || discriminate).
  - vm_compute. reflexivity.
Qed.

Lemma session_guarantees_hold_witness :
  exists v, (Session_step (str "read") [str "ann"; str "0"; str "x"] one_write).1 = served 7 v 1 /\ 1 <= v.
Proof.
  assert ((Session_step (str "read") [str "ann"; str "0"; str "x"] one_write).1 = served 7 1 1) as E
    by (vm_compute; reflexivity).
  exists 1. split; [exact E|].
  destruct (Session_step (str "read") [str "ann"; str "0"; str "x"] one_write) as [a s'] eqn:Es. cbn [fst] in E. subst a.
  exact (proj1 (proj1 (session_guarantees_hold one_write _ (str "ann") (str "0") (str "x") [] one_write_run)
    7 1 1 s' Es) 1 (or_introl (list_elem_of_here _ _))).
Defined.
