(* ===== verification/Majority.v ===== *)
(** * Majorities of numbered members

  Members are [0 .. k - 1]; a quorum is a list of distinct members longer than
  half of them.  The safety of Paxos and of a Raft election both rest on any two
  quorums having a member in common. *)

From S2P Require Import Prelude.

Definition majority_of (k : nat) (Q : list nat) : Prop :=
  NoDup Q /\ Forall (fun i => (i < k)%nat) Q /\ (k / 2 + 1 <= length Q)%nat.

Lemma NoDup_bounded (l : list nat) k :
  NoDup l -> Forall (fun i => (i < k)%nat) l -> (length l <= k)%nat.
Proof.
  intros Hd Hf. rewrite <- (length_seq k 0). apply NoDup_incl_length; [by apply NoDup_ListNoDup|].
  intros i Hi%list_elem_of_In. rewrite Forall_forall in Hf. specialize (Hf i Hi).
  apply in_seq. lia.
Qed.

Lemma majorities_meet k P Q : majority_of k P -> majority_of k Q -> exists i, i ∈ P /\ i ∈ Q.
Proof.
  intros (HP & HPk & HPl) (HQ & HQk & HQl).
  destruct (decide (Forall (fun i => i ∉ Q) P)) as [H|H].
  - exfalso. assert (NoDup (P ++ Q)) as Hd.
    { apply NoDup_app. split; [done|]. split; [|done]. intros i Hi HiQ.
      rewrite Forall_forall in H. by apply (H i). }
    apply (NoDup_bounded _ k) in Hd; [|by apply Forall_app].
    rewrite length_app in Hd. pose proof (Nat.div_mod k 2).
    pose proof (Nat.mod_upper_bound k 2). lia.
  - apply not_Forall_Exists in H; [|apply _]. apply Exists_exists in H as (i & Hi & Hn).
    exists i. split; [done|]. by apply dec_stable.
Qed.

(** The indices of the elements with a property are as many as the elements. *)
Lemma length_filter_zip {A} (P : A -> Prop) `{!forall a, Decision (P a)} (l : list A) (xs : list nat) :
  length xs = length l ->
  length (filter (fun p => P p.2) (zip xs l)) = length (filter P l).
Proof.
  revert xs. induction l as [|a l IH]; intros [|x xs] Hl; cbn in Hl; try lia; [done|].
  cbn [zip zip_with]. rewrite !filter_cons. cbn [snd].
  destruct (decide (P a)); cbn [length]; rewrite IH by lia; done.
Qed.

Lemma majority_of_filter {A} (P : A -> Prop) `{!forall a, Decision (P a)} (l : list A) :
  (length l / 2 + 1 <= length (filter P l))%nat ->
  exists Q, majority_of (length l) Q /\ forall i, i ∈ Q -> exists a, l !! i = Some a /\ P a.
Proof.
  intros Hlen. set (z := filter (fun p => P p.2) (zip (seq 0 (length l)) l)).
  assert (forall i a, (i, a) ∈ z -> l !! i = Some a /\ P a) as Hz.
  { intros i a [HP Hin]%list_elem_of_filter. split; [|done].
    apply elem_of_lookup_zip_with in Hin as (j & x & y & [= -> ->] & Hx & Hy).
    apply lookup_seq in Hx as [-> _]. done. }
  exists z.*1. repeat split.
  - unfold z. eapply sublist_NoDup; [apply (NoDup_seq 0 (length l))|].
    rewrite <- (fst_zip (seq 0 (length l)) l) at 2 by (rewrite length_seq; lia).
    apply fmap_sublist, sublist_filter.
  - apply Forall_forall. intros i Hi. apply list_elem_of_fmap in Hi as ([j a] & -> & Hin).
    apply Hz in Hin as [Hl _]. by apply lookup_lt_Some in Hl.
  - rewrite length_fmap. unfold z. rewrite length_filter_zip by apply length_seq. done.
  - intros i Hi. apply list_elem_of_fmap in Hi as ([j a] & -> & Hin). exists a. by apply Hz.
Qed.
