(* ===== verification/Paxos.v ===== *)
(** * Single-decree and multi-decree Paxos ([disttest/examples/alg/paxos.rs])

  The topics [paxos] and [multi-paxos] of the reference algorithms: every
  acceptor and one proposer in one process, driven by commands.  Each command
  has a handler ([prepare], [accept], ...) on parsed arguments, and
  [Paxos_step] and [MultiPaxos_step] parse the arguments and dispatch.
  [PaxosSafe] runs the handlers as a distributed protocol. *)

From S2P Require Import Prelude Text OrdMap Topic.

(** What a promise reports: the last proposal accepted, when there is one. *)
Abbreviation Report := (option Z * option bytes)%type.

Section paxos.
Context `{JsonText}.

Definition quoted (s : bytes) : bytes := [x22] ++ s ++ [x22].

(** ["a3"] names the third acceptor, index 2. *)
Definition acceptor_index (count : nat) (args : list bytes) (i : nat) : Result Value nat :=
  name ← word args i;
  let parsed :=
    match name with x61 :: rest => parse_usize rest | _ => None end in
  match parsed with
  | None => Err (err (debug_str name ++ str " is not an acceptor name like " ++ quoted (str "a1")))
  | Some k =>
      if (1 <=? k) && (k <=? Z.of_nat count) then Ok (Z.to_nat (k - 1))
      else Err (err (str "there is no acceptor " ++ debug_str name))
  end.

(** ** One decree *)

Record Acceptor : Type := mkAcceptor {
  promised_n : Z;
  last_n : option Z;
  last_value : option bytes;
}.
Definition Acceptor_default : Acceptor := mkAcceptor 0 None None.

Record Proposer : Type := mkProposer {
  p_n : Z;
  own_value : bytes;
  promises : gmap bytes Report;
}.

Record Paxos : Type := mkPaxos {
  acceptors : list Acceptor;
  proposer : option Proposer;
}.

Definition majority (s : Paxos) : nat := length (acceptors s) / 2 + 1.

(** The loop of [proposer_value]: a strictly higher number replaces the best. *)
Definition better (best : option (Z * bytes)) (r : Report) : option (Z * bytes) :=
  match r with
  | (Some n, Some v) =>
      match best with
      | None => Some (n, v)
      | Some (seen, _) => if seen <? n then Some (n, v) else best
      end
  | _ => best
  end.

Definition proposer_value (p : Proposer) : bytes :=
  match foldl better None (entries (promises p)).*2 with
  | Some (_, value) => value
  | None => own_value p
  end.

Definition is_ready (s : Paxos) (p : Proposer) : bool :=
  bool_decide (majority s <= size (promises p))%nat.

Definition proposer_state (s : Paxos) : Value :=
  match proposer s with
  | None => err (str "no proposal has been started")
  | Some p =>
      VObject [(str "n", VInt (p_n p));
               (str "phase", VString (if is_ready s p then str "accept" else str "prepare"));
               (str "promises", VInt (Z.of_nat (size (promises p))));
               (str "value", VString (proposer_value p));
               (str "ready", VBool (is_ready s p))]
  end.

Definition numbers (s : Paxos) : list Z := dedup_runs (sort_by Z.leb (omap last_n (acceptors s))).

Definition holders (s : Paxos) (n : Z) : list Acceptor :=
  filter (fun a => last_n a = Some n) (acceptors s).

(** The loop of [learn], ascending: the last number with a majority wins. *)
Definition learn_step (s : Paxos) (chosen : option bytes) (n : Z) : option bytes :=
  if bool_decide (majority s <= length (holders s n))%nat then
    match head (holders s n) ≫= last_value with Some v => Some v | None => chosen end
  else chosen.

Definition chosen_value (s : Paxos) : option bytes := foldl (learn_step s) None (numbers s).

Definition learn (s : Paxos) : Value :=
  match chosen_value s with
  | Some value =>
      let count := length (filter (fun a => last_value a = Some value) (acceptors s)) in
      VObject [(str "chosen", VBool true); (str "value", VString value);
               (str "count", VInt (Z.of_nat count))]
  | None => VObject [(str "chosen", VBool false); (str "value", VNull); (str "count", VInt 0)]
  end.

Definition init_paxos (n : nat) : Paxos := mkPaxos (replicate n Acceptor_default) None.

Definition set_acceptor (i : nat) (a : Acceptor) (s : Paxos) : Paxos :=
  mkPaxos (<[i := a]> (acceptors s)) (proposer s).

(** The command [prepare]: a strictly greater number is promised. *)
Definition prepare_acceptor (n : Z) (a : Acceptor) : bool * Acceptor :=
  let promised := promised_n a <? n in
  (promised, if promised then mkAcceptor n (last_n a) (last_value a) else a).

(** The command [accept]. *)
Definition accept_acceptor (n : Z) (value : bytes) (a : Acceptor) : bool * Acceptor :=
  let accepted := promised_n a <=? n in
  (accepted, if accepted then mkAcceptor n (Some n) (Some value) else a).

Definition acceptor_fields (a : Acceptor) : list (bytes * Value) :=
  [(str "promised_n", VInt (promised_n a)); (str "last_n", json_opt VInt (last_n a));
   (str "last_value", json_opt VString (last_value a))].

(** What a [promise] command reports: [-1] or ["-"] is nothing accepted. *)
Definition reported (last_n : Z) (last_value : bytes) : Report :=
  if (last_n <? 0) || bool_decide (last_value = [x2d]) then (None, None)
  else (Some last_n, Some last_value).

Definition add_promise (name : bytes) (r : Report) (p : Proposer) : Proposer :=
  mkProposer (p_n p) (own_value p) (<[name := r]> (promises p)).

Definition at_acceptor (s : Paxos) (args : list bytes) (k : nat -> Acceptor -> Value * Paxos)
    : Value * Paxos :=
  answer (acceptor_index (length (acceptors s)) args 0) s (fun i =>
    k i (nth i (acceptors s) Acceptor_default)).

Definition Paxos_step (command : bytes) (args : list bytes) (s : Paxos) : Value * Paxos :=
  if decide (command = str "init") then
    answer (uint args 0) s (fun n =>
      if 1 <=? n then
        let s := init_paxos (Z.to_nat n) in
        (VObject [(str "ok", VBool true); (str "acceptors", VInt n);
                  (str "majority", VInt (Z.of_nat (majority s)))], s)
      else (err (str "Paxos needs at least one acceptor"), s))
  else if decide (command = str "prepare") then
    at_acceptor s args (fun i a =>
      answer (int args 1) s (fun n =>
        let '(promised, a) := prepare_acceptor n a in
        (VObject ((str "promised", VBool promised) :: acceptor_fields a), set_acceptor i a s)))
  else if decide (command = str "accept") then
    at_acceptor s args (fun i a =>
      answer (int args 1) s (fun n =>
        answer (word args 2) s (fun value =>
          let '(accepted, a) := accept_acceptor n value a in
          (VObject [(str "accepted", VBool accepted); (str "promised_n", VInt (promised_n a))],
           set_acceptor i a s))))
  else if decide (command = str "acceptor") then
    at_acceptor s args (fun i a => (VObject (acceptor_fields a), s))
  else if decide (command = str "learn") then (learn s, s)
  else if decide (command = str "propose") then
    answer (int args 0) s (fun n =>
      answer (word args 1) s (fun value =>
        (VObject [(str "phase", VString (str "prepare")); (str "n", VInt n); (str "value", VString value)],
         mkPaxos (acceptors s) (Some (mkProposer n value ∅)))))
  else if decide (command = str "promise") then
    answer (word args 0) s (fun name =>
      match acceptor_index (length (acceptors s)) args 0 with
      | Err _ => (err (str "there is no acceptor " ++ debug_str name), s)
      | Ok _ =>
          answer (int args 1) s (fun ln =>
            answer (word args 2) s (fun lv =>
              match proposer s with
              | None => (err (str "no proposal has been started"), s)
              | Some p =>
                  let p := add_promise name (reported ln lv) p in
                  (VObject [(str "promises", VInt (Z.of_nat (size (promises p))));
                            (str "value", VString (proposer_value p));
                            (str "ready", VBool (is_ready s p))],
                   mkPaxos (acceptors s) (Some p))
              end))
      end)
  else if decide (command = str "proposer") then (proposer_state s, s)
  else (unknown_command command, s).

(** ** Many decrees under one leader *)

Record Slot : Type := mkSlot {
  sl_value : option bytes;
  sl_ballot : Z;
  accepted_by : gset bytes;
  sl_chosen : bool;
}.
Definition Slot_default : Slot := mkSlot None 0 ∅ false.

Record MultiPaxos : Type := mkMulti {
  promised : list Z;
  ballot : Z;
  leader : bool;
  ever_leader : bool;
  slots : gmap Z Slot;
}.

Definition multi_majority (s : MultiPaxos) : nat := length (promised s) / 2 + 1.

Definition is_chosen (s : MultiPaxos) (i : Z) : bool :=
  match slots s !! i with Some sl => sl_chosen sl | None => false end.

(** [while is_chosen(index + 1)]: at most one round per slot. *)
Fixpoint applied_from (fuel : nat) (s : MultiPaxos) (index : Z) : Z :=
  match fuel with
  | O => index
  | S fuel => if is_chosen s (index + 1) then applied_from fuel s (index + 1) else index
  end.

Definition highest_chosen (s : MultiPaxos) : Z :=
  match (filter (fun p => sl_chosen p.2 = true) (map_to_list (slots s))).*1 with
  | [] => 0
  | k :: ks => foldl Z.max k ks
  end.

Definition progress (s : MultiPaxos) : Z * list Z :=
  (applied_from (size (slots s)) s 0,
   filter (fun i => is_chosen s i = false) (seqZ 1 (highest_chosen s))).

(** The loop of [prepare]: who promises, and the promises after it. *)
Definition multi_prepare (n : Z) (ps : list Z) : nat * list Z :=
  (length (filter (fun p => p < n) ps), map (fun p => if p <? n then n else p) ps).

Definition propose_slot (ballot : Z) (value : bytes) (sl : Slot) : Slot :=
  if sl_chosen sl then sl
  else if decide (sl_ballot sl = ballot)
       then mkSlot (Some value) (sl_ballot sl) (accepted_by sl) (sl_chosen sl)
       else mkSlot (Some value) ballot ∅ (sl_chosen sl).

Definition accepted_slot (majority : nat) (name : bytes) (sl : Slot) : Slot :=
  let by_ := {[ name ]} ∪ accepted_by sl in
  mkSlot (sl_value sl) (sl_ballot sl) by_ (bool_decide (majority <= size by_)%nat || sl_chosen sl).

Definition set_slot (i : Z) (sl : Slot) (s : MultiPaxos) : MultiPaxos :=
  mkMulti (promised s) (ballot s) (leader s) (ever_leader s) (<[i := sl]> (slots s)).

Definition slot_json (sl : Slot) : Value :=
  VObject [(str "chosen", VBool (sl_chosen sl)); (str "value", json_opt VString (sl_value sl))].

Definition max_or_zero (l : list Z) : Z :=
  match l with [] => 0 | k :: ks => foldl Z.max k ks end.

Definition MultiPaxos_step (command : bytes) (args : list bytes) (s : MultiPaxos)
    : Value * MultiPaxos :=
  if decide (command = str "init") then
    answer (uint args 0) s (fun n =>
      if 1 <=? n then
        let s := mkMulti (replicate (Z.to_nat n) 0) 0 false false ∅ in
        (VObject [(str "ok", VBool true); (str "acceptors", VInt n);
                  (str "majority", VInt (Z.of_nat (multi_majority s)))], s)
      else (err (str "Multi-Paxos needs at least one acceptor"), s))
  else if decide (command = str "prepare") then
    answer (int args 0) s (fun n =>
      let '(count, ps) := multi_prepare n (promised s) in
      let won := bool_decide (multi_majority s <= count)%nat in
      let s := mkMulti ps (if won then n else ballot s) (won || leader s) (won || ever_leader s) (slots s) in
      (VObject [(str "promised", VInt (Z.of_nat count)); (str "leader", VBool (leader s));
                (str "n", VInt n)], s))
  else if decide (command = str "phase") then
    match int args 0 with
    | Err _ => (err (str "argument 0 is not a slot number"), s)
    | Ok _ =>
        let '(phase, reason) :=
          if leader s then (str "accept", str "stable leader")
          else if ever_leader s then (str "prepare", str "preempted")
          else (str "prepare", str "no leader") in
        (VObject [(str "phase", VString phase); (str "reason", VString reason)], s)
    end
  else if decide (command = str "propose") then
    answer (int args 0) s (fun slot =>
      answer (word args 1) s (fun value =>
        if negb (leader s) then
          (VObject [(str "ok", VBool false); (str "phase", VString (str "prepare"));
                    (str "round_trips", VInt 2);
                    (str "error", VString (str "phase one has to run first: this proposer is not the leader"))], s)
        else
          let sl := propose_slot (ballot s) value (default Slot_default (slots s !! slot)) in
          (VObject [(str "ok", VBool true); (str "phase", VString (str "accept"));
                    (str "round_trips", VInt 1); (str "error", VNull)], set_slot slot sl s)))
  else if decide (command = str "accepted") then
    answer (int args 0) s (fun slot =>
      answer (word args 1) s (fun name =>
        answer (acceptor_index (length (promised s)) args 1) s (fun _ =>
          let none := (err (str "slot " ++ dec_signed slot ++ str " has no proposal yet"), s) in
          match slots s !! slot with
          | None => none
          | Some sl =>
              match sl_value sl with
              | None => none
              | Some _ =>
                  let sl := accepted_slot (multi_majority s) name sl in
                  (VObject [(str "chosen", VBool (sl_chosen sl));
                            (str "value", json_opt VString (sl_value sl));
                            (str "count", VInt (Z.of_nat (size (accepted_by sl))))], set_slot slot sl s)
              end
          end)))
  else if decide (command = str "chosen") then
    answer (int args 0) s (fun slot =>
      match slots s !! slot with
      | Some sl =>
          if sl_chosen sl
          then (VObject [(str "chosen", VBool true); (str "value", json_opt VString (sl_value sl))], s)
          else (VObject [(str "chosen", VBool false); (str "value", VNull)], s)
      | None => (VObject [(str "chosen", VBool false); (str "value", VNull)], s)
      end)
  else if decide (command = str "preempt") then
    answer (int args 0) s (fun n =>
      let ps := (multi_prepare n (promised s)).2 in
      let s := mkMulti ps (ballot s) (if ballot s <? n then false else leader s) (ever_leader s) (slots s) in
      (VObject [(str "leader", VBool (leader s)); (str "promised_n", VInt (max_or_zero (promised s)))], s))
  else if decide (command = str "applied") then
    let '(index, gaps) := progress s in
    (VObject [(str "index", VInt index); (str "gaps", VArray (map VInt gaps))], s)
  else if decide (command = str "state") then
    (VObject [(str "n", VInt (ballot s)); (str "leader", VBool (leader s));
              (str "slots", VObject (map (fun p => (dec_signed p.1, slot_json p.2))
                 (sort_by (fun p q => p.1 <=? q.1) (map_to_list (slots s)))));
              (str "applied", VInt (progress s).1)], s)
  else (unknown_command command, s).
End paxos.

(** ** Names *)

Definition acceptor_name (i : nat) : bytes := x61 :: dec (Z.of_nat i + 1).

Lemma acceptor_index_name_at `{JsonText} k i args j :
  args !! j = Some (acceptor_name i) -> (i < k)%nat -> Z.of_nat i + 1 <= U64_MAX ->
  acceptor_index k args j = Ok i.
Proof.
  intros Ha Hi Hm. unfold acceptor_index, word. rewrite Ha. cbn [ok_or mbind result_bind].
  unfold acceptor_name. rewrite parse_usize_dec by lia. cbn [mbind].
  rewrite (proj2 (Z.leb_le _ _)), (proj2 (Z.leb_le _ _)) by lia. cbn. f_equal. lia.
Qed.

Lemma acceptor_index_name `{JsonText} k i rest :
  (i < k)%nat -> Z.of_nat i + 1 <= U64_MAX ->
  acceptor_index k (acceptor_name i :: rest) 0 = Ok i.
Proof. by apply acceptor_index_name_at. Qed.

(** ** The applied prefix *)

Lemma chosen_prefix_fits s n :
  0 <= n -> (forall i, 1 <= i <= n -> is_chosen s i = true) -> n <= Z.of_nat (size (slots s)).
Proof.
  intros Hn Hc. assert (list_to_set (seqZ 1 n) ⊆ dom (slots s)) as Hsub%subseteq_size.
  { intros i. rewrite elem_of_list_to_set, elem_of_seqZ. intros Hi. apply elem_of_dom.
    specialize (Hc i ltac:(lia)). unfold is_chosen in Hc. by destruct (slots s !! i). }
  rewrite size_dom, size_list_to_set in Hsub by apply NoDup_seqZ. rewrite length_seqZ in Hsub. lia.
Qed.

Lemma applied_from_exact fuel s n :
  0 <= n -> (forall i, 1 <= i <= n -> is_chosen s i = true) ->
  Z.of_nat (size (slots s)) <= n + Z.of_nat fuel ->
  let r := applied_from fuel s n in
  n <= r /\ (forall i, 1 <= i <= r -> is_chosen s i = true) /\ is_chosen s (r + 1) = false.
Proof.
  revert n. induction fuel as [|fuel IH]; intros n Hn Hc Hf; cbn [applied_from].
  - split; [lia|]. split; [done|]. destruct (is_chosen s (n + 1)) eqn:E; [|done].
    assert (n + 1 <= Z.of_nat (size (slots s))); [|lia]. apply chosen_prefix_fits; [lia|].
    intros i Hi. destruct (decide (i = n + 1)) as [->|]; [done|]. apply Hc. lia.
  - destruct (is_chosen s (n + 1)) eqn:E; [|split; [lia|done]].
    destruct (IH (n + 1)) as (H1 & H2 & H3); [lia| |lia|split; [lia|done]].
    intros i Hi. destruct (decide (i = n + 1)) as [->|]; [done|]. apply Hc. lia.
Qed.

(** The fuel of [applied_from] is enough: the prefix is the longest chosen one. *)
Lemma progress_exact s :
  let index := (progress s).1 in
  0 <= index /\ (forall i, 1 <= i <= index -> is_chosen s i = true) /\ is_chosen s (index + 1) = false.
Proof. apply applied_from_exact; lia. Qed.
