(* ===== verification/PaxosSafe.v ===== *)
(** * Paxos chooses one value

  The commands of [Paxos] run as a protocol: any number of proposers, each with
  a number of its own, messages that may be lost, delayed, repeated and
  reordered.  A step applies one handler of the program.  The invariant is the
  usual one: what a majority may still choose under a lower number is the value
  of every higher number. *)

From S2P Require Import Prelude Text OrdMap Topic Majority Paxos.

(** ** The protocol *)

(** [net_msgs]: promises in flight - the acceptor, the number promised and the
  report.  [net_values]: the value each number is sent to the acceptors with.
  [net_votes]: which acceptor has accepted which number; nothing reads it. *)
Record Net : Type := mkNet {
  net_host : Paxos;
  net_live : gmap Z Proposer;
  net_msgs : list (nat * Z * Report);
  net_values : gmap Z bytes;
  net_votes : list (nat * Z);
}.

Definition net_init (k : nat) : Net := mkNet (init_paxos k) ∅ [] ∅ [].

(** What an acceptor answers to [prepare] and what is then typed into [promise]:
  [-1] and [-] for nothing. *)
Definition report (a : Acceptor) : Report := (last_n a, last_value a).
Definition relay (r : Report) : Report :=
  match r with
  | (Some n, Some v) => reported n v
  | _ => reported (-1) [x2d]
  end.

Inductive net_step : Net -> Net -> Prop :=
| N_propose n v s :
    net_live s !! n = None -> v <> [x2d] ->
    net_step s (mkNet (net_host s) (<[n := mkProposer n v ∅]> (net_live s))
                  (net_msgs s) (net_values s) (net_votes s))
| N_prepare i n a a' s :
    acceptors (net_host s) !! i = Some a -> prepare_acceptor n a = (true, a') ->
    net_step s (mkNet (set_acceptor i a' (net_host s)) (net_live s)
                  ((i, n, report a') :: net_msgs s) (net_values s) (net_votes s))
| N_promise i n r p s :
    (i, n, r) ∈ net_msgs s -> net_live s !! n = Some p ->
    net_step s (mkNet (net_host s) (<[n := add_promise (acceptor_name i) (relay r) p]> (net_live s))
                  (net_msgs s) (net_values s) (net_votes s))
| N_decide n p s :
    net_live s !! n = Some p -> is_ready (net_host s) p = true -> net_values s !! n = None ->
    net_step s (mkNet (net_host s) (net_live s) (net_msgs s)
                  (<[n := proposer_value p]> (net_values s)) (net_votes s))
| N_accept i n v a a' s :
    net_values s !! n = Some v -> acceptors (net_host s) !! i = Some a ->
    accept_acceptor n v a = (true, a') ->
    net_step s (mkNet (set_acceptor i a' (net_host s)) (net_live s) (net_msgs s) (net_values s)
                  ((i, n) :: net_votes s)).

(** ** What the handlers compute *)

Lemma foldl_better l best :
  match foldl better best l with
  | None => best = None /\ forall n v, (Some n, Some v) ∉ l
  | Some (n, v) => (best = Some (n, v) \/ (Some n, Some v) ∈ l) /\
      (forall n' v', (Some n', Some v') ∈ l -> n' <= n) /\
      match best with Some (m, _) => m <= n | None => True end
  end.
Proof.
  revert best. induction l as [|r l IH]; intros best; cbn [foldl].
  - destruct best as [[n v]|]; [|split; [done|by intros n v ?%elem_of_nil]].
    split; [by left|]. split; [|lia]. by intros n' v' ?%elem_of_nil.
  - specialize (IH (better best r)). destruct (foldl better (better best r) l) as [[n v]|].
    + destruct IH as (H1 & H2 & H3). destruct r as [[m|] [w|]]; cbn [better] in *;
        try (split; [set_solver|split; [set_solver|done]]).
      destruct best as [[b x]|].
      * destruct (Z.ltb_spec b m).
        -- split; [|split; [|lia]].
           { destruct H1 as [[= -> ->]|H1]; right; set_solver. }
           intros n' v' [[= -> ->]|Hin]%elem_of_cons; [lia|by eapply H2].
        -- split; [set_solver|]. split; [|done].
           intros n' v' [[= -> ->]|Hin]%elem_of_cons; [lia|by eapply H2].
      * split; [destruct H1 as [[= -> ->]|H1]; right; set_solver|]. split; [|done].
        intros n' v' [[= -> ->]|Hin]%elem_of_cons; [lia|by eapply H2].
    + destruct IH as [H1 H2]. destruct r as [[m|] [w|]]; cbn [better] in *;
        try (split; [done|set_solver]).
      by destruct best as [[b x]|]; [destruct (b <? m)|].
Qed.

Lemma elem_of_reports (m : gmap bytes Report) r :
  r ∈ (entries m).*2 <-> exists name, m !! name = Some r.
Proof.
  rewrite list_elem_of_fmap. split.
  - intros ([name r'] & -> & H%list_elem_of_entries). eauto.
  - intros [name H]. exists (name, r). by rewrite list_elem_of_entries.
Qed.

(** The value a proposer must use: the own value when nobody reports one, or else
  that of a report with the highest number. *)
Lemma proposer_value_spec p :
  (proposer_value p = own_value p /\
   forall name n v, promises p !! name <> Some (Some n, Some v)) \/
  exists name n, promises p !! name = Some (Some n, Some (proposer_value p)) /\
    forall name' n' v', promises p !! name' = Some (Some n', Some v') -> n' <= n.
Proof.
  unfold proposer_value. pose proof (foldl_better (entries (promises p)).*2 None) as H.
  destruct (foldl better None _) as [[n v]|].
  - destruct H as ([?|H1] & H2 & _); [done|]. right.
    apply elem_of_reports in H1 as [name Hn]. exists name, n. split; [done|].
    intros name' n' v' H'. apply (H2 n' v'), elem_of_reports. eauto.
  - destruct H as [_ H]. left. split; [done|]. intros name n v H'.
    apply (H n v), elem_of_reports. eauto.
Qed.

(** A value is learned only from a majority that last accepted one number. *)
Lemma chosen_value_spec s v :
  chosen_value s = Some v ->
  exists n a, (majority s <= length (holders s n))%nat /\ a ∈ holders s n /\ last_value a = Some v.
Proof.
  unfold chosen_value. assert (forall ns c, foldl (learn_step s) c ns = Some v ->
    c = Some v \/ exists n a, (majority s <= length (holders s n))%nat /\ a ∈ holders s n /\
      last_value a = Some v) as H.
  { induction ns as [|n ns IH]; intros c Hc; [by left|]. cbn [foldl] in Hc.
    destruct (IH _ Hc) as [E|?]; [|by right]. unfold learn_step in E.
    case_bool_decide as Hm; [|by left]. destruct (holders s n) as [|a l] eqn:El; [by left|].
    cbn in E. destruct (last_value a) as [w|] eqn:Ea; [|by left].
    right. exists n, a. rewrite El. split; [done|]. split; [set_solver|]. congruence. }
  intros Hc. by destruct (H _ _ Hc) as [?|?].
Qed.

#[global] Instance acceptor_name_inj : Inj (=) (=) acceptor_name.
Proof. unfold acceptor_name. intros i j [= E%dec_inj]; lia. Qed.

(** ** The invariant *)

Definition acc (s : Net) (i : nat) (a : Acceptor) : Prop := acceptors (net_host s) !! i = Some a.

Definition promised_at (s : Net) (i : nat) (n : Z) : Prop := exists a, acc s i a /\ n <= promised_n a.

Definition voted (s : Net) (i : nat) (m : Z) : Prop := (i, m) ∈ net_votes s.

(** No majority can choose [m] any more. *)
Definition dead (k : nat) (s : Net) (m : Z) : Prop :=
  exists Q, majority_of k Q /\ forall i, i ∈ Q -> ~ voted s i m /\ promised_at s i (m + 1).

(** The last proposal of an acceptor, and what a promise says of the past. *)
Definition acceptor_ok (s : Net) (i : nat) (a : Acceptor) : Prop :=
  0 <= promised_n a /\
  match report a with
  | (Some m, Some v) => net_values s !! m = Some v /\ 0 <= m <= promised_n a /\ voted s i m /\
      forall m', voted s i m' -> m' <= m
  | (None, None) => forall m', ~ voted s i m'
  | _ => False
  end.

Definition report_ok (s : Net) (i : nat) (n : Z) (r : Report) : Prop :=
  match r with
  | (Some m, Some v) => net_values s !! m = Some v /\ 0 <= m < n /\
      forall m', voted s i m' -> m' < n -> m' <= m
  | (None, None) => forall m', voted s i m' -> n <= m'
  | _ => False
  end.

Record Inv (k : nat) (s : Net) : Prop := {
  inv_len : length (acceptors (net_host s)) = k;
  inv_acc : forall i a, acc s i a -> acceptor_ok s i a;
  inv_vote : forall i m, voted s i m -> is_Some (net_values s !! m);
  inv_msg : forall i n r, (i, n, r) ∈ net_msgs s -> promised_at s i n /\ report_ok s i n r;
  inv_live : forall n p, net_live s !! n = Some p -> own_value p <> [x2d] /\
    forall name r, promises p !! name = Some r ->
      exists i, name = acceptor_name i /\ (i, n, r) ∈ net_msgs s;
  inv_word : forall n v, net_values s !! n = Some v -> v <> [x2d];
  inv_quorum : forall n v, net_values s !! n = Some v ->
    exists Q, majority_of k Q /\ forall i, i ∈ Q -> promised_at s i n;
  inv_safe : forall n v m w, net_values s !! n = Some v -> net_values s !! m = Some w ->
    m < n -> v <> w -> dead k s m;
  inv_valid : forall n v, net_values s !! n = Some v ->
    exists n' p, net_live s !! n' = Some p /\ own_value p = v;
}.

Lemma inv_init k : Inv k (net_init k).
Proof.
  split; cbn; try (intros; set_solver); try done.
  - apply length_replicate.
  - intros i a [-> _]%lookup_replicate_1. split; [done|]. cbn. intros m' ?%elem_of_nil. done.
Qed.

(** An acceptor replaced at [i]. *)
Lemma acc_set s i a a' live msgs vals votes j b :
  acc s i a ->
  acc (mkNet (set_acceptor i a' (net_host s)) live msgs vals votes) j b <->
    (j = i /\ b = a') \/ (j <> i /\ acc s j b).
Proof.
  intros Ha. pose proof (lookup_lt_Some _ _ _ Ha) as Hl. unfold acc. cbn.
  destruct (decide (j = i)) as [->|Hne].
  - rewrite list_lookup_insert_eq by done. naive_solver.
  - rewrite list_lookup_insert_ne by done. naive_solver.
Qed.

(** Promises only grow. *)
Lemma promised_at_set s i a a' live msgs vals votes j n :
  acc s i a -> promised_n a <= promised_n a' -> promised_at s j n ->
  promised_at (mkNet (set_acceptor i a' (net_host s)) live msgs vals votes) j n.
Proof.
  intros Ha Hle (b & Hb & Hn). destruct (decide (j = i)) as [->|Hne].
  - exists a'. rewrite acc_set by done. split; [by left|].
    unfold acc in *. assert (b = a) by congruence. subst b. lia.
  - exists b. rewrite acc_set by done. split; [by right|done].
Qed.

Lemma promised_at_mono s i n m : promised_at s i n -> m <= n -> promised_at s i m.
Proof. intros (a & Ha & Hn) Hm. exists a. split; [done|lia]. Qed.

(** What was relayed is what was reported. *)
Lemma relay_ok k s i n r : Inv k s -> (i, n, r) ∈ net_msgs s -> relay r = r.
Proof.
  intros HI [_ Hr]%(inv_msg _ _ HI). destruct r as [[m|] [v|]]; try done. cbn in *.
  destruct Hr as (Hv & Hm & _). unfold reported.
  rewrite (proj2 (Z.ltb_ge _ _)) by lia. cbn.
  by rewrite bool_decide_false by by apply (inv_word _ _ HI m).
Qed.

Lemma step_propose k s n v :
  Inv k s -> net_live s !! n = None -> v <> [x2d] ->
  Inv k (mkNet (net_host s) (<[n := mkProposer n v ∅]> (net_live s))
           (net_msgs s) (net_values s) (net_votes s)).
Proof.
  intros [] Hn Hv. split; try done; cbn.
  - intros n' p. destruct (decide (n' = n)) as [->|Hne].
    + rewrite lookup_insert_eq. intros [= <-]. split; [done|]. cbn. intros name r. by rewrite lookup_empty.
    + rewrite lookup_insert_ne by done. apply inv_live0.
  - intros m w (n' & p & Hp & Ho)%inv_valid0. exists n', p. split; [|done].
    rewrite lookup_insert_ne; [done|congruence].
Qed.

Lemma step_promise k s i n r p :
  Inv k s -> (i, n, r) ∈ net_msgs s -> net_live s !! n = Some p ->
  Inv k (mkNet (net_host s) (<[n := add_promise (acceptor_name i) (relay r) p]> (net_live s))
           (net_msgs s) (net_values s) (net_votes s)).
Proof.
  intros HI Hin Hp. rewrite (relay_ok k s i n r HI Hin). destruct HI. split; try done; cbn.
  - intros n' p'. destruct (decide (n' = n)) as [->|Hne].
    + rewrite lookup_insert_eq. intros [= <-]. destruct (inv_live0 n p Hp) as [Ho Hpr].
      split; [done|]. cbn. intros name r'. destruct (decide (name = acceptor_name i)) as [->|Hnn].
      * rewrite lookup_insert_eq. intros [= <-]. eauto.
      * rewrite lookup_insert_ne by done. apply Hpr.
    + rewrite lookup_insert_ne by done. apply inv_live0.
  - intros m w Hmw. destruct (inv_valid0 m w Hmw) as (n' & p' & Hp' & Ho).
    destruct (decide (n' = n)) as [->|Hne].
    + exists n, (add_promise (acceptor_name i) r p). rewrite lookup_insert_eq.
      split; [done|]. cbn. congruence.
    + exists n', p'. by rewrite lookup_insert_ne by done.
Qed.

Lemma step_prepare k s i n a a' :
  Inv k s -> acc s i a -> prepare_acceptor n a = (true, a') ->
  Inv k (mkNet (set_acceptor i a' (net_host s)) (net_live s)
           ((i, n, report a') :: net_msgs s) (net_values s) (net_votes s)).
Proof.
  intros HI Ha Hp. unfold prepare_acceptor in Hp.
  destruct (Z.ltb_spec (promised_n a) n) as [Hlt|]; [|done]. injection Hp as <-.
  set (a' := mkAcceptor n (last_n a) (last_value a)). destruct HI.
  assert (promised_n a <= promised_n a') as Hle by (cbn; lia).
  split; try done.
  - cbn. by rewrite length_insert.
  - intros j b [[-> ->]|[Hne Hb]]%(acc_set s i a a'); [|by apply inv_acc0|done].
    destruct (inv_acc0 i a Ha) as [H0 Hr]. split; [cbn; lia|].
    change (report a') with (report a). destruct (report a) as [[m|] [v|]]; try done.
    destruct Hr as (H1 & H2 & H3). split; [done|]. split; [cbn; lia|done].
  - intros j n' r [[= -> -> ->]|Hin]%elem_of_cons.
    + split; [exists a'; rewrite acc_set by done; split; [by left|done]|].
      destruct (inv_acc0 i a Ha) as [H0 Hr]. change (report a') with (report a).
      destruct (report a) as [[m|] [v|]]; try done.
      * destruct Hr as (H1 & H2 & H3 & H4). split; [done|]. split; [lia|]. intros m' Hm' _. by apply H4.
      * intros m' Hm'. exfalso. by apply (Hr m').
    + destruct (inv_msg0 j n' r Hin) as [H1 H2]. split; [by eapply promised_at_set|done].
  - intros n' p Hl. destruct (inv_live0 n' p Hl) as [Ho Hpr]. split; [done|].
    intros name r Hr. destruct (Hpr name r Hr) as (j & -> & Hj). exists j. set_solver.
  - intros n' v Hv. destruct (inv_quorum0 n' v Hv) as (Q & HQ & Hq).
    exists Q. split; [done|]. intros j Hj. by eapply promised_at_set; [| |apply Hq].
  - intros n' v m w Hv Hw Hm Hne. destruct (inv_safe0 n' v m w Hv Hw Hm Hne) as (Q & HQ & Hq).
    exists Q. split; [done|]. intros j Hj. destruct (Hq j Hj) as [H1 H2].
    split; [done|]. by eapply promised_at_set.
Qed.

Lemma step_accept k s i n v a a' :
  Inv k s -> net_values s !! n = Some v -> acc s i a -> accept_acceptor n v a = (true, a') ->
  Inv k (mkNet (set_acceptor i a' (net_host s)) (net_live s) (net_msgs s) (net_values s)
           ((i, n) :: net_votes s)).
Proof.
  intros HI Hv Ha Hp. unfold accept_acceptor in Hp.
  destruct (Z.leb_spec (promised_n a) n) as [Hlt|]; [|done]. injection Hp as <-.
  set (a' := mkAcceptor n (Some n) (Some v)). destruct HI.
  set (s' := mkNet _ _ _ _ _).
  assert (promised_n a <= promised_n a') as Hle by (cbn; lia).
  assert (forall j m, voted s' j m <-> (j = i /\ m = n) \/ voted s j m) as Hvote.
  { intros j m. unfold voted, s'. cbn [net_votes]. rewrite elem_of_cons. naive_solver. }
  assert (forall j m, promised_at s j m -> promised_at s' j m) as Hprom
    by (intros j m; by eapply promised_at_set).
  assert (forall m, voted s i m -> m <= n) as Hbelow.
  { intros m Hm. destruct (inv_acc0 i a Ha) as [H0 Hr]. destruct (report a) as [[m'|] [v'|]]; try done.
    - destruct Hr as (_ & ? & _ & Hr). specialize (Hr m Hm). lia.
    - by destruct (Hr m). }
  assert (forall m, promised_at s i m -> m <= n) as Hprom_n.
  { intros m (b & Hb & Hm). unfold acc in *. assert (b = a) by congruence. subst. lia. }
  split; try done.
  - cbn. by rewrite length_insert.
  - intros j b [[-> ->]|[Hne Hb]]%(acc_set s i a a'); [| |done].
    + destruct (inv_acc0 i a Ha) as [H0 _]. split; [cbn; lia|]. cbn.
      split; [done|]. split; [lia|]. split; [apply Hvote; by left|].
      intros m' [[_ ->]|Hm']%Hvote; [lia|by apply Hbelow].
    + destruct (inv_acc0 j b Hb) as [H0 Hr]. split; [done|].
      destruct (report b) as [[m|] [w|]]; try done.
      * destruct Hr as (H1 & H2 & H3 & H4). split; [done|]. split; [done|].
        split; [apply Hvote; by right|]. intros m' [[-> _]|Hm']%Hvote; [done|by apply H4].
      * intros m' [[-> _]|Hm']%Hvote; [done|by apply (Hr m')].
  - intros j m [[_ ->]|Hm]%Hvote; [by eexists|by eapply inv_vote0].
  - intros j n' r Hin. destruct (inv_msg0 j n' r Hin) as [H1 H2]. split; [by apply Hprom|].
    destruct r as [[m|] [w|]]; try done.
    + destruct H2 as (H2 & H3 & H4). split; [done|]. split; [done|].
      intros m' [[-> ->]|Hm']%Hvote Hlt'; [|by apply H4]. specialize (Hprom_n n' H1). lia.
    + intros m' [[-> ->]|Hm']%Hvote; [by apply Hprom_n|by apply H2].
  - intros n' w Hw. destruct (inv_quorum0 n' w Hw) as (Q & HQ & Hq). exists Q. eauto.
  - intros n' w m x Hw Hx Hm Hne. destruct (inv_safe0 n' w m x Hw Hx Hm Hne) as (Q & HQ & Hq).
    exists Q. split; [done|]. intros j Hj. destruct (Hq j Hj) as [H1 H2].
    split; [|by apply Hprom]. intros [[-> ->]|Hm']%Hvote; [|done].
    specialize (Hprom_n _ H2). lia.
Qed.

(** The acceptors whose promises a ready proposer holds. *)
Lemma promisers_quorum k s n p :
  Inv k s -> net_live s !! n = Some p -> is_ready (net_host s) p = true ->
  exists Q, majority_of k Q /\ forall i, i ∈ Q ->
    exists r, promises p !! acceptor_name i = Some r /\ (i, n, r) ∈ net_msgs s.
Proof.
  intros HI Hp Hr. apply bool_decide_eq_true in Hr. unfold majority in Hr.
  rewrite (inv_len _ _ HI) in Hr. destruct (inv_live _ _ HI n p Hp) as [_ Hpr].
  set (Q := filter (fun i => is_Some (promises p !! acceptor_name i)) (seq 0 k)).
  exists Q. repeat split.
  - apply NoDup_filter, NoDup_seq.
  - apply Forall_forall. intros i [_ Hi%elem_of_seq]%list_elem_of_filter. lia.
  - etrans; [exact Hr|]. rewrite <- (length_fmap acceptor_name Q).
    rewrite <- (length_map_to_list (promises p)), <- (length_fmap fst).
    apply NoDup_incl_length; [apply NoDup_ListNoDup, NoDup_fst_map_to_list|].
    intros name Hn%list_elem_of_In. apply list_elem_of_In.
    apply list_elem_of_fmap in Hn as ([name' r] & -> & Hn%elem_of_map_to_list).
    destruct (Hpr name' r Hn) as (i & -> & Hin). apply list_elem_of_fmap. exists i. split; [done|].
    apply list_elem_of_filter. split; [by eexists|]. apply elem_of_seq.
    apply (inv_msg _ _ HI) in Hin as [(a & Ha & _) _]. apply lookup_lt_Some in Ha.
    rewrite (inv_len _ _ HI) in Ha. lia.
  - intros i [[r Hi] _]%list_elem_of_filter. exists r. split; [done|].
    destruct (Hpr _ r Hi) as (j & E & Hin). apply (inj acceptor_name) in E as ->. done.
Qed.

(** The heart of Paxos: the value a ready proposer computes is safe at its number. *)
Lemma proposer_value_safe k s n p m w :
  Inv k s -> net_live s !! n = Some p -> is_ready (net_host s) p = true ->
  net_values s !! m = Some w -> m < n -> proposer_value p <> w -> dead k s m.
Proof.
  intros HI Hp Hr Hm Hlt Hne. destruct (promisers_quorum k s n p HI Hp Hr) as (Q & HQ & Hq).
  destruct (inv_live _ _ HI n p Hp) as [_ Hpr].
  assert (forall i r, (i, n, r) ∈ net_msgs s -> promised_at s i (m + 1)) as Hprom.
  { intros i r [H _]%(inv_msg _ _ HI). eapply promised_at_mono; [exact H|lia]. }
  destruct (proposer_value_spec p) as [[Ev Hnone]|(name & n0 & Hn0 & Hmax)].
  - exists Q. split; [done|]. intros i Hi. destruct (Hq i Hi) as (r & Hri & Hin).
    split; [|by eapply Hprom]. intros Hv.
    destruct (inv_msg _ _ HI i n r Hin) as [_ Hok]. destruct r as [[m'|] [v'|]]; try done.
    + by destruct (Hnone (acceptor_name i) m' v').
    + specialize (Hok m Hv). lia.
  - destruct (Hpr name _ Hn0) as (i0 & -> & Hin0).
    destruct (inv_msg _ _ HI _ _ _ Hin0) as [_ (Hv0 & Hlt0 & _)].
    destruct (Z.lt_trichotomy m n0) as [H|[->|H]].
    + by apply (inv_safe _ _ HI n0 (proposer_value p) m w).
    + congruence.
    + exists Q. split; [done|]. intros i Hi. destruct (Hq i Hi) as (r & Hri & Hin).
      split; [|by eapply Hprom]. intros Hv.
      destruct (inv_msg _ _ HI i n r Hin) as [_ Hok]. destruct r as [[m'|] [v'|]]; try done.
      * destruct Hok as (_ & _ & Hok). specialize (Hok m Hv Hlt). specialize (Hmax _ _ _ Hri). lia.
      * specialize (Hok m Hv). lia.
Qed.

Lemma step_decide k s n p :
  Inv k s -> net_live s !! n = Some p -> is_ready (net_host s) p = true ->
  net_values s !! n = None ->
  Inv k (mkNet (net_host s) (net_live s) (net_msgs s)
           (<[n := proposer_value p]> (net_values s)) (net_votes s)).
Proof.
  intros HI Hp Hr Hn. set (s' := mkNet _ _ _ _ _).
  destruct (promisers_quorum k s n p HI Hp Hr) as (Q & HQ & Hq).
  pose proof (proposer_value_safe k s n p) as Hsafe.
  destruct (inv_live _ _ HI n p Hp) as [Hown Hpr].
  assert (forall m w, net_values s !! m = Some w -> net_values s' !! m = Some w) as Hmono.
  { intros m w Hm. cbn. rewrite lookup_insert_ne by congruence. done. }
  assert (forall m w, net_values s' !! m = Some w ->
    (m = n /\ w = proposer_value p) \/ (m <> n /\ net_values s !! m = Some w)) as Hinv.
  { intros m w. cbn. destruct (decide (m = n)) as [->|Hne].
    - rewrite lookup_insert_eq. intros [= <-]. by left.
    - rewrite lookup_insert_ne by done. by right. }
  pose proof HI as []. split; try done.
  - intros i a Ha. destruct (inv_acc0 i a Ha) as [H0 H1]. split; [done|].
    destruct (report a) as [[m|] [v|]]; try done. destruct H1 as (H1 & H2). split; [by apply Hmono|done].
  - intros i m Hv. destruct (inv_vote0 i m Hv) as [w Hw]. exists w. by apply Hmono.
  - intros i n' r Hin. destruct (inv_msg0 i n' r Hin) as [H0 H1]. split; [done|].
    destruct r as [[m|] [v|]]; try done. destruct H1 as (H1 & H2). split; [by apply Hmono|done].
  - intros m w [[-> ->]|[_ Hw]]%Hinv; [|by eapply inv_word0].
    destruct (proposer_value_spec p) as [[-> _]|(name & n0 & Hn0 & _)]; [done|].
    destruct (Hpr name _ Hn0) as (i0 & -> & Hin0).
    destruct (inv_msg0 _ _ _ Hin0) as [_ (Hv0 & _)]. by eapply inv_word0.
  - intros m w [[-> ->]|[_ Hw]]%Hinv; [|by eapply inv_quorum0].
    exists Q. split; [done|]. intros i Hi. destruct (Hq i Hi) as (r & _ & Hin).
    by destruct (inv_msg0 i n r Hin).
  - intros n1 v m w [[-> ->]|[Hn1 Hv]]%Hinv [[-> ->]|[Hm Hw]]%Hinv Hlt Hne.
    + lia.
    + by apply (Hsafe m w).
    + destruct (inv_quorum0 n1 v Hv) as (Q1 & HQ1 & Hq1). exists Q1. split; [done|].
      intros i Hi. split; [|eapply promised_at_mono; [by apply Hq1|lia]].
      intros [w Hw]%inv_vote0. congruence.
    + by apply (inv_safe0 n1 v m w).
  - intros m w [[-> ->]|[_ Hw]]%Hinv; [|by eapply inv_valid0].
    destruct (proposer_value_spec p) as [[-> _]|(name & n0 & Hn0 & _)]; [by eexists _, _|].
    destruct (Hpr name _ Hn0) as (i0 & -> & Hin0).
    destruct (inv_msg0 _ _ _ Hin0) as [_ (Hv0 & _)]. by eapply inv_valid0.
Qed.

Lemma net_step_inv k s s' : net_step s s' -> Inv k s -> Inv k s'.
Proof.
  intros Hs HI. destruct Hs.
  - by apply step_propose.
  - by eapply step_prepare.
  - by eapply step_promise.
  - by eapply step_decide.
  - by eapply step_accept.
Qed.

Lemma steps_inv k s s' : rtc net_step s s' -> Inv k s -> Inv k s'.
Proof. induction 1; eauto using net_step_inv. Qed.

(** ** Agreement *)

(** Nothing that was accepted is forgotten, and a number keeps its value. *)
Lemma step_keeps s s' i m n v :
  net_step s s' -> (voted s i m -> voted s' i m) /\
  (net_values s !! n = Some v -> net_values s' !! n = Some v).
Proof.
  unfold voted. intros Hs. destruct Hs; cbn; split; try done.
  - intros Hv. rewrite lookup_insert_ne; [done|congruence].
  - intros Hv. by apply elem_of_cons; right.
Qed.

Lemma steps_keep s s' i m n v :
  rtc net_step s s' -> (voted s i m -> voted s' i m) /\
  (net_values s !! n = Some v -> net_values s' !! n = Some v).
Proof.
  induction 1 as [s|s s1 s2 H _ IH]; [done|].
  destruct (step_keeps s s1 i m n v H), IH. auto.
Qed.

(** A number accepted by a majority. *)
Definition chosen_number (k : nat) (s : Net) (n : Z) : Prop :=
  exists Q, majority_of k Q /\ forall i, i ∈ Q -> voted s i n.

Lemma learned_is_chosen k s v :
  Inv k s -> chosen_value (net_host s) = Some v ->
  exists n, chosen_number k s n /\ net_values s !! n = Some v.
Proof.
  intros HI (n & a & Hm & Ha & Hv)%chosen_value_spec.
  unfold majority, holders in Hm. destruct (majority_of_filter _ _ Hm) as (Q & HQ & Hq).
  rewrite (inv_len _ _ HI) in HQ. exists n. split.
  - exists Q. split; [done|]. intros i Hi. destruct (Hq i Hi) as (b & Hb & Hn).
    destruct (inv_acc _ _ HI i b Hb) as [_ Hok]. unfold report in Hok. rewrite Hn in Hok.
    destruct (last_value b); [|done]. by destruct Hok as (_ & _ & ? & _).
  - apply list_elem_of_filter in Ha as [Hn [i Ha]%list_elem_of_lookup].
    destruct (inv_acc _ _ HI i a Ha) as [_ Hok]. unfold report in Hok. rewrite Hn, Hv in Hok.
    by destruct Hok.
Qed.

Lemma chosen_unique k s n m v w :
  Inv k s -> chosen_number k s n -> chosen_number k s m ->
  net_values s !! n = Some v -> net_values s !! m = Some w -> v = w.
Proof.
  intros HI. assert (forall n m v w, m < n -> chosen_number k s m ->
    net_values s !! n = Some v -> net_values s !! m = Some w -> v = w) as H.
  { intros n0 m0 v0 w0 Hlt (P & HP & Hp) Hv Hw.
    destruct (decide (v0 = w0)) as [|Hne]; [done|]. exfalso.
    destruct (inv_safe _ _ HI n0 v0 m0 w0 Hv Hw Hlt Hne) as (Q & HQ & Hq).
    destruct (majorities_meet k P Q HP HQ) as (i & Hi & Hi'). destruct (Hq i Hi') as [Hn _].
    by apply Hn, Hp. }
  intros Hn Hm Hv Hw. destruct (Z.lt_trichotomy n m) as [Hlt|[->|Hlt]].
  - symmetry. by eapply (H m n).
  - congruence.
  - by eapply (H n m).
Qed.

(** A number no acceptor has promised and no proposer uses. *)
Lemma bound_of (l : list Z) : exists b, forall x, x ∈ l -> x < b.
Proof.
  induction l as [|y l [b IH]]; [exists 0; by intros x ?%elem_of_nil|].
  exists (Z.max b (y + 1)). intros x [->|Hx]%elem_of_cons; [lia|]. specialize (IH x Hx). lia.
Qed.

Lemma bound_map {A} (m : gmap Z A) : exists b, forall x, b <= x -> m !! x = None.
Proof.
  destruct (bound_of (map_to_list m).*1) as [b Hb]. exists b. intros x Hx.
  destruct (m !! x) as [a|] eqn:E; [|done]. exfalso.
  specialize (Hb x). assert (x ∈ (map_to_list m).*1) as Hin; [|specialize (Hb Hin); lia].
  apply list_elem_of_fmap. exists (x, a). by rewrite elem_of_map_to_list.
Qed.

Lemma fresh_number s :
  exists n, (forall i a, acc s i a -> promised_n a < n) /\
    net_live s !! n = None /\ net_values s !! n = None.
Proof.
  destruct (bound_of (promised_n <$> acceptors (net_host s))) as [b1 H1].
  destruct (bound_map (net_live s)) as [b2 H2]. destruct (bound_map (net_values s)) as [b3 H3].
  exists (Z.max b1 (Z.max b2 b3)). split; [|split; [apply H2; lia|apply H3; lia]].
  intros i a Ha. assert (promised_n a < b1); [|lia].
  apply H1, list_elem_of_fmap. exists a. split; [done|]. by eapply list_elem_of_lookup_2.
Qed.

(** ** An undisturbed proposer succeeds *)

(** The first [j] acceptors have promised [n] and the proposer knows. *)
Record promised_so_far (k : nat) (s : Net) (n : Z) (j : nat) : Prop := {
  ps_len : length (acceptors (net_host s)) = k;
  ps_none : net_values s !! n = None;
  ps_acc : forall i a, acc s i a ->
    if decide (i < j)%nat then promised_n a = n else promised_n a < n;
  ps_live : exists p, net_live s !! n = Some p /\
    forall i, (i < j)%nat -> is_Some (promises p !! acceptor_name i);
}.

Lemma promise_next k s n j :
  promised_so_far k s n j -> (j < k)%nat ->
  exists s', rtc net_step s s' /\ promised_so_far k s' n (S j).
Proof.
  intros [Hlen Hnone Hacc (p & Hp & Hpr)] Hj.
  destruct (lookup_lt_is_Some_2 (acceptors (net_host s)) j ltac:(lia)) as [a Ha].
  pose proof (Hacc j a Ha) as Hlt. rewrite decide_False in Hlt by lia.
  set (a' := mkAcceptor n (last_n a) (last_value a)).
  assert (prepare_acceptor n a = (true, a')) as Hpa.
  { unfold prepare_acceptor. by rewrite (proj2 (Z.ltb_lt _ _)) by lia. }
  pose proof (N_prepare j n a a' s Ha Hpa) as S1. set (s1 := mkNet _ _ _ _ _) in S1.
  assert ((j, n, report a') ∈ net_msgs s1) as Hin by (cbn; apply elem_of_cons; by left).
  pose proof (N_promise j n (report a') p s1 Hin Hp) as S2. set (s2 := mkNet _ _ _ _ _) in S2.
  exists s2. split; [by eapply rtc_l; [exact S1|apply rtc_once, S2]|]. split.
  - cbn. by rewrite length_insert.
  - exact Hnone.
  - intros i b [[-> ->]|[Hne Hb]]%(acc_set s j a a'); [| |done].
    + by rewrite decide_True by lia.
    + specialize (Hacc i b Hb). destruct (decide (i < j)%nat), (decide (i < S j)%nat); try done; lia.
  - exists (add_promise (acceptor_name j) (relay (report a')) p). cbn.
    split; [apply lookup_insert_eq|]. intros i Hi.
    destruct (decide (i = j)) as [->|Hne]; [rewrite lookup_insert_eq; by eexists|].
    rewrite lookup_insert_ne; [apply Hpr; lia|]. by intros E%(inj acceptor_name).
Qed.

Lemma promise_all k s n j :
  promised_so_far k s n 0 -> (j <= k)%nat ->
  exists s', rtc net_step s s' /\ promised_so_far k s' n j.
Proof.
  intros Hs. induction j as [|j IH]; intros Hj; [exists s; split; [apply rtc_refl|done]|].
  destruct IH as (s1 & R1 & H1); [lia|]. destruct (promise_next k s1 n j H1 ltac:(lia)) as (s2 & R2 & H2).
  exists s2. split; [by etrans|done].
Qed.

Lemma promised_ready k s n :
  promised_so_far k s n k -> (0 < k)%nat ->
  exists p, net_live s !! n = Some p /\ is_ready (net_host s) p = true.
Proof.
  intros [Hlen Hnone Hacc (p & Hp & Hpr)] Hk. exists p. split; [done|].
  apply bool_decide_eq_true. unfold majority. rewrite Hlen.
  assert (k <= size (promises p))%nat as Hsz.
  { rewrite <- (length_map_to_list (promises p)), <- (length_fmap fst).
    rewrite <- (length_seq k 0) at 1. rewrite <- (length_fmap acceptor_name).
    apply NoDup_incl_length.
    - apply NoDup_ListNoDup. apply (NoDup_fmap_2 acceptor_name), NoDup_seq.
    - intros name Hn%list_elem_of_In. apply list_elem_of_In.
      apply list_elem_of_fmap in Hn as (i & -> & Hi%elem_of_seq).
      destruct (Hpr i ltac:(lia)) as [r Hr]. apply list_elem_of_fmap.
      exists (acceptor_name i, r). by rewrite elem_of_map_to_list. }
  etrans; [|exact Hsz]. pose proof (Nat.div_lt k 2 Hk ltac:(lia)). lia.
Qed.

(** The first [j] acceptors have accepted [n]. *)
Record accepted_so_far (k : nat) (s : Net) (n : Z) (v : bytes) (j : nat) : Prop := {
  as_len : length (acceptors (net_host s)) = k;
  as_value : net_values s !! n = Some v;
  as_acc : forall i a, acc s i a -> promised_n a = n /\
    ((i < j)%nat -> last_n a = Some n /\ last_value a = Some v);
}.

Lemma accept_all k s n v j :
  accepted_so_far k s n v 0 -> (j <= k)%nat ->
  exists s', rtc net_step s s' /\ accepted_so_far k s' n v j.
Proof.
  intros Hs. induction j as [|j IH]; intros Hj; [exists s; split; [apply rtc_refl|done]|].
  destruct IH as (s1 & R1 & [Hlen Hv Hacc]); [lia|].
  destruct (lookup_lt_is_Some_2 (acceptors (net_host s1)) j ltac:(lia)) as [a Ha].
  destruct (Hacc j a Ha) as [Hn _]. set (a' := mkAcceptor n (Some n) (Some v)).
  assert (accept_acceptor n v a = (true, a')) as Hpa.
  { unfold accept_acceptor. by rewrite (proj2 (Z.leb_le _ _)) by lia. }
  pose proof (N_accept j n v a a' s1 Hv Ha Hpa) as S1. set (s2 := mkNet _ _ _ _ _) in S1.
  exists s2. split; [by eapply rtc_r|]. split.
  - cbn. by rewrite length_insert.
  - exact Hv.
  - intros i b [[-> ->]|[Hne Hb]]%(acc_set s1 j a a'); [done| |done].
    destruct (Hacc i b Hb) as [H1 H2]. split; [done|]. intros Hi. apply H2. lia.
Qed.

Lemma sort_replicate (n : Z) k : sort_by Z.leb (replicate k n) = replicate k n.
Proof.
  apply sort_by_id. induction k as [|k IH]; cbn; constructor; [done|].
  apply Forall_replicate. apply Z.leb_refl.
Qed.

Lemma dedup_replicate (n : Z) k : dedup_runs (replicate (S k) n) = [n].
Proof. induction k as [|k IH]; [done|]. cbn in *. by rewrite decide_True. Qed.

Lemma accepted_chosen k s n v :
  accepted_so_far k s n v k -> (0 < k)%nat -> chosen_value (net_host s) = Some v.
Proof.
  intros [Hlen _ Hacc] Hk.
  assert (acceptors (net_host s) = replicate k (mkAcceptor n (Some n) (Some v))) as E.
  { symmetry. apply replicate_as_Forall. split; [done|]. apply Forall_lookup. intros i a Ha.
    destruct (Hacc i a Ha) as [H1 H2]. destruct H2 as [H2 H3].
    - apply lookup_lt_Some in Ha. lia.
    - destruct a. cbn in *. by subst. }
  destruct k as [|k]; [lia|].
  assert (forall j, omap last_n (replicate j (mkAcceptor n (Some n) (Some v))) = replicate j n) as Eo.
  { intros j. induction j as [|j IH]; [done|]. cbn. by rewrite IH. }
  assert (forall j, filter (fun a => last_n a = Some n) (replicate j (mkAcceptor n (Some n) (Some v)))
    = replicate j (mkAcceptor n (Some n) (Some v))) as Ef.
  { intros j. induction j as [|j IH]; [done|]. cbn [replicate]. by rewrite filter_cons_True, IH. }
  unfold chosen_value, numbers. rewrite E, Eo, sort_replicate, dedup_replicate.
  cbn [foldl]. unfold learn_step, holders, majority. rewrite E, Ef, length_replicate.
  rewrite bool_decide_true; [done|]. pose proof (Nat.div_lt (S k) 2 ltac:(lia) ltac:(lia)). lia.
Qed.

(** C4: Paxos can always finish: from every state the protocol can reach, with at least one acceptor and any word but [-] to propose, there is a run of the program's commands - a proposer under a fresh number, undisturbed, preparing, collecting the promises and having its value accepted - after which [learn] reports a chosen value. *)
Theorem paxos_progress k s v (Hk : (0 < k)%nat) (Hs : rtc net_step (net_init k) s)
    (Hv : v <> [x2d]) :
  exists s', rtc net_step s s' /\ is_Some (chosen_value (net_host s')).
Proof.
  pose proof (steps_inv k _ _ Hs (inv_init k)) as HI.
  destruct (fresh_number s) as (n & Hacc & Hlive & Hval).
  pose proof (N_propose n v s Hlive Hv) as S0. set (s0 := mkNet _ _ _ _ _) in S0.
  assert (promised_so_far k s0 n 0) as H0.
  { split; [apply (inv_len _ _ HI)|done| |].
    - intros i a Ha. rewrite decide_False by lia. by apply Hacc in Ha.
    - eexists. split; [apply lookup_insert_eq|]. intros i Hi. lia. }
  destruct (promise_all k s0 n k H0 ltac:(lia)) as (s1 & R1 & H1).
  destruct (promised_ready k s1 n H1 Hk) as (p & Hp & Hr).
  pose proof (N_decide n p s1 Hp Hr (ps_none _ _ _ _ H1)) as S2. set (s2 := mkNet _ _ _ _ _) in S2.
  assert (accepted_so_far k s2 n (proposer_value p) 0) as H2.
  { split; [apply (ps_len _ _ _ _ H1)|apply lookup_insert_eq|].
    intros i a Ha. split; [|lia]. pose proof (ps_acc _ _ _ _ H1 i a Ha) as Hn.
    apply lookup_lt_Some in Ha. change (net_host s2) with (net_host s1) in Ha.
    rewrite (ps_len _ _ _ _ H1) in Ha. by rewrite decide_True in Hn by lia. }
  destruct (accept_all k s2 n (proposer_value p) k H2 ltac:(lia)) as (s3 & R3 & H3).
  exists s3. split; [|eexists; by apply (accepted_chosen k s3 n (proposer_value p))].
  eapply rtc_l; [exact S0|]. etrans; [exact R1|]. eapply rtc_l; [exact S2|exact R3].
Qed.

Lemma paxos_progress_witness :
  (0 < 3)%nat /\ rtc net_step (net_init 3) (net_init 3) /\ str "x" <> [x2d] /\
  exists s', rtc net_step (net_init 3) s' /\ is_Some (chosen_value (net_host s')).
Proof.
  assert (0 < 3)%nat as H1 by lia. assert (rtc net_step (net_init 3) (net_init 3)) as H2 by apply rtc_refl.
  assert (str "x" <> [x2d]) as H3 by done.
  split; [exact H1|]. split; [exact H2|]. split; [exact H3|].
  apply (paxos_progress 3 (net_init 3) (str "x") H1 H2 H3).
Defined.

(** ** Agreement, stated *)

(** ** Runs that evaluate

  A step by name; one that is not enabled leaves the state alone. *)

Inductive move : Type :=
| RPropose (n : Z) (v : bytes)
| RPrepare (i : nat) (n : Z)
| RPromise (i : nat) (n : Z)
| RDecide (n : Z)
| RAccept (i : nat) (n : Z).

Definition play (s : Net) (m : move) : Net :=
  match m with
  | RPropose n v =>
      if decide (net_live s !! n = None /\ v <> [x2d])
      then mkNet (net_host s) (<[n := mkProposer n v ∅]> (net_live s))
             (net_msgs s) (net_values s) (net_votes s)
      else s
  | RPrepare i n =>
      match acceptors (net_host s) !! i with
      | Some a =>
          match prepare_acceptor n a with
          | (true, a') => mkNet (set_acceptor i a' (net_host s)) (net_live s)
              ((i, n, report a') :: net_msgs s) (net_values s) (net_votes s)
          | _ => s
          end
      | None => s
      end
  | RPromise i n =>
      match list_find (fun m => m.1 = (i, n)) (net_msgs s), net_live s !! n with
      | Some (_, (_, r)), Some p =>
          mkNet (net_host s) (<[n := add_promise (acceptor_name i) (relay r) p]> (net_live s))
            (net_msgs s) (net_values s) (net_votes s)
      | _, _ => s
      end
  | RDecide n =>
      match net_live s !! n with
      | Some p =>
          if is_ready (net_host s) p && bool_decide (net_values s !! n = None)
          then mkNet (net_host s) (net_live s) (net_msgs s)
                 (<[n := proposer_value p]> (net_values s)) (net_votes s)
          else s
      | None => s
      end
  | RAccept i n =>
      match net_values s !! n, acceptors (net_host s) !! i with
      | Some v, Some a =>
          match accept_acceptor n v a with
          | (true, a') => mkNet (set_acceptor i a' (net_host s)) (net_live s) (net_msgs s)
              (net_values s) ((i, n) :: net_votes s)
          | _ => s
          end
      | _, _ => s
      end
  end.

Definition run (ms : list move) (s : Net) : Net := foldl play s ms.

Lemma play_steps s m : rtc net_step s (play s m).
Proof.
  destruct m as [n v|i n|i n|n|i n]; cbn [play].
  - case_decide as H; [|apply rtc_refl]. destruct H. apply rtc_once. by apply N_propose.
  - destruct (acceptors (net_host s) !! i) as [a|] eqn:Ha; [|apply rtc_refl].
    destruct (prepare_acceptor n a) as [[] a'] eqn:Hp; [|apply rtc_refl].
    apply rtc_once. by eapply N_prepare.
  - destruct (list_find _ _) as [[j [[i' n'] r]]|] eqn:Hf; [|apply rtc_refl].
    destruct (net_live s !! n) as [p|] eqn:Hp; [|apply rtc_refl].
    apply list_find_Some in Hf as (Hj & [= -> ->] & _).
    apply rtc_once, N_promise; [|done]. by eapply list_elem_of_lookup_2.
  - destruct (net_live s !! n) as [p|] eqn:Hp; [|apply rtc_refl].
    destruct (is_ready (net_host s) p) eqn:Hr; [|apply rtc_refl].
    case_bool_decide as Hn; [|apply rtc_refl]. apply rtc_once. by apply N_decide.
  - destruct (net_values s !! n) as [v|] eqn:Hv; [|apply rtc_refl].
    destruct (acceptors (net_host s) !! i) as [a|] eqn:Ha; [|apply rtc_refl].
    destruct (accept_acceptor n v a) as [[] a'] eqn:Hp; [|apply rtc_refl].
    apply rtc_once. by eapply N_accept.
Qed.

Lemma run_steps ms s : rtc net_step s (run ms s).
Proof.
  revert s. induction ms as [|m ms IH]; intros s; [apply rtc_refl|].
  etrans; [apply play_steps|apply IH].
Qed.

(** C3: single-decree Paxos agrees: run the program's acceptors and any number of its proposers, each under a number of its own and using the value [proposer_value] computes once a majority has promised, with promises lost, delayed, repeated or reordered at will. Then what [learn] reports at one moment and what it reports at any later moment are the same value, whatever happened in between, and that value is one a proposer started with. *)
Theorem paxos_agreement k s1 s2 v w
    (H1 : rtc net_step (net_init k) s1) (H2 : rtc net_step s1 s2)
    (Hv : chosen_value (net_host s1) = Some v) (Hw : chosen_value (net_host s2) = Some w) :
  v = w /\ exists n p, net_live s1 !! n = Some p /\ own_value p = v.
Proof.
  pose proof (steps_inv k _ _ H1 (inv_init k)) as I1. pose proof (steps_inv k _ _ H2 I1) as I2.
  destruct (learned_is_chosen k s1 v I1 Hv) as (n & (Q & HQ & Hq) & Hn).
  destruct (learned_is_chosen k s2 w I2 Hw) as (m & Hm & Hmw).
  split; [|by apply (inv_valid _ _ I1 n)].
  apply (chosen_unique k s2 n m v w I2); [|done| |done].
  - exists Q. split; [done|]. intros i Hi.
    destruct (steps_keep s1 s2 i n n v H2) as [Hk _]. by apply Hk, Hq.
  - by destruct (steps_keep s1 s2 0 n n v H2) as [_ Hk]; apply Hk.
Qed.

(** A run of three acceptors, two of them used: the first value is chosen, and a
  second proposer finds it. *)
Definition demo1 : Net :=
  run [RPropose 1 (str "x"); RPrepare 0 1; RPrepare 1 1; RPromise 0 1; RPromise 1 1; RDecide 1;
       RAccept 0 1; RAccept 1 1] (net_init 3).
Definition demo2 : Net :=
  run [RPropose 2 (str "y"); RPrepare 1 2; RPrepare 2 2; RPromise 1 2; RPromise 2 2; RDecide 2;
       RAccept 2 2; RAccept 1 2] demo1.

Lemma paxos_agreement_witness :
  rtc net_step (net_init 3) demo1 /\ rtc net_step demo1 demo2 /\
  chosen_value (net_host demo1) = Some (str "x") /\ chosen_value (net_host demo2) = Some (str "x") /\
  (str "x" = str "x" /\ exists n p, net_live demo1 !! n = Some p /\ own_value p = str "x").
Proof.
  assert (rtc net_step (net_init 3) demo1) as H1 by apply run_steps.
  assert (rtc net_step demo1 demo2) as H2 by apply run_steps.
  assert (chosen_value (net_host demo1) = Some (str "x")) as H3 by (vm_compute; reflexivity).
  assert (chosen_value (net_host demo2) = Some (str "x")) as H4 by (vm_compute; reflexivity).
  split; [exact H1|]. split; [exact H2|]. split; [exact H3|]. split; [exact H4|].
  exact (paxos_agreement 3 demo1 demo2 (str "x") (str "x") H1 H2 H3 H4).
Defined.

(** ** The steps are commands

  What a step does to the acceptors is what the program does when the command is
  typed to it. *)

Section commands.
Context `{JsonText}.

(** The protocol steps of [paxos_agreement] are the program's commands: on any state, [prepare] and [accept] typed with an acceptor's name, a number and a word act on that acceptor by [prepare_acceptor] and [accept_acceptor] and change nothing else, and answer what those return. *)
Theorem paxos_commands s i a n v
    (Ha : acceptors s !! i = Some a) (Hn : in_s 64 n) (Hm : Z.of_nat i + 1 <= U64_MAX) :
  Paxos_step (str "prepare") [acceptor_name i; dec_signed n] s =
    (VObject ((str "promised", VBool (prepare_acceptor n a).1) ::
       acceptor_fields (prepare_acceptor n a).2),
     set_acceptor i (prepare_acceptor n a).2 s) /\
  Paxos_step (str "accept") [acceptor_name i; dec_signed n; v] s =
    (VObject [(str "accepted", VBool (accept_acceptor n v a).1);
              (str "promised_n", VInt (promised_n (accept_acceptor n v a).2))],
     set_acceptor i (accept_acceptor n v a).2 s).
Proof.
  pose proof (lookup_lt_Some _ _ _ Ha) as Hi.
  assert (nth i (acceptors s) Acceptor_default = a) as En
    by (apply nth_lookup_Some; exact Ha).
  split.
  - unfold Paxos_step. rewrite decide_False, decide_True by done. unfold at_acceptor.
    rewrite acceptor_index_name by done. cbn [answer]. rewrite En.
    unfold int, word. cbn [lookup list_lookup ok_or mbind result_bind].
    rewrite parse_i64_dec by done. cbn [ok_or answer].
    by destruct (prepare_acceptor n a).
  - unfold Paxos_step. rewrite decide_False, decide_False, decide_True by done. unfold at_acceptor.
    rewrite acceptor_index_name by done. cbn [answer]. rewrite En.
    unfold int, word. cbn [lookup list_lookup ok_or mbind result_bind].
    rewrite parse_i64_dec by done. cbn [ok_or answer].
    by destruct (accept_acceptor n v a).
Qed.
End commands.

(** ** Names and ballots the program does not tell apart *)

Definition typed {S} (step : bytes -> list bytes -> S -> Value * S) (s : S)
    (commands : list (bytes * list bytes)) : S :=
  foldl (fun s c => (step c.1 c.2 s).2) s commands.

(** [a1] and [a01] are the same acceptor to [prepare] and two promises to the proposer. *)
Example one_acceptor_two_promises :
  let s := typed (@Paxos_step no_text) (init_paxos 3)
    [(str "propose", [str "1"; str "x"]);
     (str "promise", [str "a1"; str "-1"; str "-"]);
     (str "promise", [str "a01"; str "-1"; str "-"])] in
  get (str "ready") (@Paxos_step no_text (str "proposer") [] s).1 = Some (VBool true).
Proof. vm_compute. reflexivity. Qed.

(** A second value under the same ballot inherits the votes cast for the first:
  [a1] accepted [x], and [y] is chosen by counting it. *)
Example votes_follow_the_slot :
  let s := typed (@MultiPaxos_step no_text) (mkMulti [] 0 false false ∅)
    [(str "init", [str "3"]); (str "prepare", [str "1"]);
     (str "propose", [str "1"; str "x"]); (str "accepted", [str "1"; str "a1"]);
     (str "propose", [str "1"; str "y"]); (str "accepted", [str "1"; str "a2"])] in
  (@MultiPaxos_step no_text (str "chosen") [str "1"] s).1 =
    VObject [(str "chosen", VBool true); (str "value", VString (str "y"))].
Proof. vm_compute. reflexivity. Qed.

(** ** A chosen slot is final *)

Definition slot_final (s s' : MultiPaxos) : Prop :=
  forall i sl, slots s !! i = Some sl -> sl_chosen sl = true ->
    exists sl', slots s' !! i = Some sl' /\ sl_chosen sl' = true /\ sl_value sl' = sl_value sl.

Lemma slot_final_same s s' : slots s' = slots s -> slot_final s s'.
Proof. intros E i sl Hi Hc. exists sl. by rewrite E. Qed.

Lemma slot_final_set s i sl0 :
  (forall sl, slots s !! i = Some sl -> sl_chosen sl = true ->
    sl_chosen sl0 = true /\ sl_value sl0 = sl_value sl) ->
  slot_final s (set_slot i sl0 s).
Proof.
  intros H j sl Hj Hc. cbn. destruct (decide (j = i)) as [->|Hne].
  - rewrite lookup_insert_eq. exists sl0. destruct (H sl Hj Hc). done.
  - rewrite lookup_insert_ne by done. eauto.
Qed.

(** Every command but [init] leaves a chosen slot chosen, with its value. *)
Lemma multi_chosen_is_final `{JsonText} command args s :
  command <> str "init" -> slot_final s (MultiPaxos_step command args s).2.
Proof.
  intros Hc. unfold MultiPaxos_step. rewrite decide_False by done.
  repeat case_decide; try by apply slot_final_same.
  - destruct (int args 0) as [n|e]; [|by apply slot_final_same]. cbn [answer].
    destruct (multi_prepare n (promised s)). by apply slot_final_same.
  - destruct (int args 0); cbn; repeat case_match; by apply slot_final_same.
  - destruct (int args 0) as [slot|e]; [|by apply slot_final_same]. cbn [answer].
    destruct (word args 1) as [value|e]; [|by apply slot_final_same]. cbn [answer].
    destruct (leader s); [|by apply slot_final_same]. cbn [negb snd]. apply slot_final_set.
    intros sl Hs Hch. rewrite Hs. change (default Slot_default (Some sl)) with sl. unfold propose_slot. by rewrite Hch.
  - destruct (int args 0) as [slot|e]; [|by apply slot_final_same]. cbn [answer].
    destruct (word args 1) as [name|e]; [|by apply slot_final_same]. cbn [answer].
    destruct (acceptor_index _ args 1) as [k|e]; [|by apply slot_final_same]. cbn [answer].
    destruct (slots s !! slot) as [sl|] eqn:Es; [|by apply slot_final_same].
    destruct (sl_value sl) as [v|] eqn:Ev; [|by apply slot_final_same]. cbn [snd].
    apply slot_final_set. intros sl' Hs Hch. simplify_eq. cbn. rewrite Hch.
    by rewrite orb_true_r.
  - destruct (int args 0) as [slot|e]; [|by apply slot_final_same]. cbn [answer].
    repeat case_match; by apply slot_final_same.
  - destruct (int args 0) as [n|e]; by apply slot_final_same.
Qed.
