(* ===== verification/Raft.v ===== *)
(** * The five Raft topics ([disttest/examples/alg/raft.rs])

  Leader election, the follower's log, the leader's commit rule, snapshots and
  membership changes, each a state machine driven by commands.  Every command
  that does more than read has a handler on parsed arguments; the [_step]
  functions parse and dispatch.  Terms and indices are [i64]. *)

From S2P Require Import Prelude Text OrdMap Topic.

(** ** [raft-election]: one node *)

Inductive Role : Type := Follower | Candidate | Leader.

#[global] Instance Role_eq_dec : EqDecision Role.
Proof. solve_decision. Defined.

Definition Role_as_str (r : Role) : bytes :=
  match r with
  | Follower => str "follower"
  | Candidate => str "candidate"
  | Leader => str "leader"
  end.

Record Election : Type := mkElection {
  el_members : nat;
  el_term : Z;
  role : Role;
  voted_for : option bytes;
  el_leader : option bytes;
  granters : gset bytes;
  el_log : list Z;
}.

Definition self : bytes := str "self".

Definition Election_init (n : nat) : Election := mkElection n 0 Follower None None ∅ [].

Definition el_majority (s : Election) : nat := el_members s / 2 + 1.
Definition el_last_index (s : Election) : Z := zlen (el_log s).
Definition el_last_term (s : Election) : Z := default 0 (last (el_log s)).

(** Into a new, higher term: Raft's one universal rule. *)
Definition step_down (term : Z) (s : Election) : Election :=
  mkElection (el_members s) term Follower None None ∅ (el_log s).

Definition up_to_date (last_index last_term : Z) (s : Election) : bool :=
  match last_term ?= el_last_term s with
  | Gt => true
  | Lt => false
  | Eq => el_last_index s <=? last_index
  end.

Definition el_state (s : Election) : Value :=
  VObject [(str "state", VString (Role_as_str (role s))); (str "term", VInt (el_term s));
           (str "voted_for", json_opt VString (voted_for s));
           (str "votes", VInt (Z.of_nat (size (granters s))));
           (str "leader", json_opt VString (el_leader s));
           (str "last_index", VInt (el_last_index s)); (str "last_term", VInt (el_last_term s))].

(** The command [timeout]: a leader has none. *)
Definition timeout (s : Election) : Election :=
  if decide (role s = Leader) then s
  else mkElection (el_members s) (wrap_s 64 (el_term s + 1)) Candidate (Some self) None {[ self ]} (el_log s).

(** The command [request-vote]: whether the vote is granted, and the state after it. *)
Definition request_vote (term : Z) (candidate : bytes) (last_index last_term : Z) (s : Election)
    : bool * Election :=
  if term <? el_term s then (false, s)
  else
    let s := if el_term s <? term then step_down term s else s in
    let free := match voted_for s with None => true | Some who => bool_decide (who = candidate) end in
    if free && up_to_date last_index last_term s
    then (true, mkElection (el_members s) (el_term s) (role s) (Some candidate) (el_leader s)
                  (granters s) (el_log s))
    else (false, s).

(** The command [vote-response]. *)
Definition vote_response (term : Z) (voter : bytes) (granted : bool) (s : Election) : Election :=
  if el_term s <? term then step_down term s
  else if bool_decide (term = el_term s) && bool_decide (role s = Candidate) && granted then
    let gs := {[ voter ]} ∪ granters s in
    if bool_decide (el_majority s <= size gs)%nat
    then mkElection (el_members s) (el_term s) Leader (voted_for s) (Some self) gs (el_log s)
    else mkElection (el_members s) (el_term s) (role s) (voted_for s) (el_leader s) gs (el_log s)
  else s.

(** The command [append-entries] of this topic: only the authority of the sender. *)
Definition append_entries (term : Z) (leader : bytes) (s : Election) : bool * Election :=
  if term <? el_term s then (false, s)
  else
    let s :=
      if el_term s <? term then step_down term s
      else mkElection (el_members s) (el_term s) Follower (voted_for s) (el_leader s) (granters s) (el_log s) in
    (true, mkElection (el_members s) (el_term s) (role s) (voted_for s) (Some leader) (granters s) (el_log s)).

Definition log_append (term : Z) (s : Election) : Election :=
  mkElection (el_members s) (el_term s) (role s) (voted_for s) (el_leader s) (granters s) (el_log s ++ [term]).

Section election.
Context `{JsonText}.

Definition Election_step (command : bytes) (args : list bytes) (s : Election) : Value * Election :=
  if decide (command = str "init") then
    answer (uint args 0) s (fun n =>
      if 1 <=? n then
        let s := Election_init (Z.to_nat n) in
        (VObject [(str "ok", VBool true); (str "members", VInt n);
                  (str "majority", VInt (Z.of_nat (el_majority s)))], s)
      else (err (str "a cluster needs at least one member"), s))
  else if decide (command = str "state") then (el_state s, s)
  else if decide (command = str "log-append") then
    answer (int args 0) s (fun term =>
      let s := log_append term s in
      (VObject [(str "last_index", VInt (el_last_index s)); (str "last_term", VInt (el_last_term s))], s))
  else if decide (command = str "timeout") then let s := timeout s in (el_state s, s)
  else if decide (command = str "request-vote") then
    answer (int args 0) s (fun term => answer (word args 1) s (fun candidate =>
    answer (int args 2) s (fun last_index => answer (int args 3) s (fun last_term =>
      let '(granted, s) := request_vote term candidate last_index last_term s in
      (VObject [(str "term", VInt (el_term s)); (str "granted", VBool granted);
                (str "state", VString (Role_as_str (role s)))], s)))))
  else if decide (command = str "vote-response") then
    answer (int args 0) s (fun term => answer (word args 1) s (fun voter =>
    answer (flag args 2 (str "true") (str "false")) s (fun granted =>
      let s := vote_response term voter granted s in (el_state s, s))))
  else if decide (command = str "append-entries") then
    answer (int args 0) s (fun term => answer (word args 1) s (fun leader =>
      let '(success, s) := append_entries term leader s in
      (VObject [(str "term", VInt (el_term s)); (str "success", VBool success);
                (str "state", VString (if success then str "follower" else Role_as_str (role s)))], s)))
  else (unknown_command command, s).
End election.

(** ** [raft-log]: the follower's log *)

Record LogReplication : Type := mkLog {
  lg_term : Z;
  lg_log : list Z;
  lg_commit : Z;
}.

Definition lg_last_index (s : LogReplication) : Z := zlen (lg_log s).
Definition lg_last_term (s : LogReplication) : Z := default 0 (last (lg_log s)).

(** Entry [index] of a log, counted from one. *)
Definition log_at (log : list Z) (index : Z) : option Z :=
  if (1 <=? index) && (index <=? zlen log) then log !! Z.to_nat (index - 1) else None.

Definition lg_term_at (s : LogReplication) (index : Z) : option Z := log_at (lg_log s) index.

(** [while first > 1 && term_at(first - 1) == Some(t)]. *)
Fixpoint run_back (fuel : nat) (s : LogReplication) (t first : Z) : Z :=
  match fuel with
  | O => first
  | S fuel =>
      if (1 <? first) && bool_decide (lg_term_at s (first - 1) = Some t)
      then run_back fuel s t (first - 1) else first
  end.

Definition run_start (s : LogReplication) (index : Z) : Z :=
  match lg_term_at s index with
  | None => index
  | Some t => run_back (Z.to_nat index) s t index
  end.

Definition lg_answer (s : LogReplication) (success : bool) (conflict_index : Z) : Value :=
  VObject [(str "term", VInt (lg_term s)); (str "success", VBool success);
           (str "last_index", VInt (lg_last_index s)); (str "last_term", VInt (lg_last_term s));
           (str "commit_index", VInt (lg_commit s)); (str "conflict_index", VInt conflict_index)].

(** One round of the loop over the entries, at index [idx] of the log. *)
Definition put_entry (log : list Z) (idx entry : Z) : list Z :=
  match log_at log idx with
  | Some existing => if existing =? entry then log else take (Z.to_nat (idx - 1)) log ++ [entry]
  | None => log ++ [entry]
  end.

Fixpoint put_entries (log : list Z) (idx : Z) (entries : list Z) : list Z :=
  match entries with
  | [] => log
  | entry :: entries => put_entries (put_entry log idx entry) (idx + 1) entries
  end.

(** The command [append]: whether it succeeds, the conflict index, the state. *)
Definition append (term prev_index prev_term leader_commit : Z) (entries : list Z) (s : LogReplication)
    : bool * Z * LogReplication :=
  if term <? lg_term s then (false, 0, s)
  else
    let s := mkLog term (lg_log s) (lg_commit s) in
    if lg_last_index s <? prev_index then (false, lg_last_index s + 1, s)
    else if (1 <=? prev_index) && negb (bool_decide (lg_term_at s prev_index = Some prev_term))
    then (false, run_start s prev_index, s)
    else
      let log := put_entries (lg_log s) (prev_index + 1) entries in
      let last_new := prev_index + zlen entries in
      let commit :=
        if lg_commit s <? leader_commit then Z.max (lg_commit s) (Z.min leader_commit last_new)
        else lg_commit s in
      (true, 0, mkLog term log commit).

Section log.
Context `{JsonText}.

Definition LogReplication_step (command : bytes) (args : list bytes) (s : LogReplication)
    : Value * LogReplication :=
  if decide (command = str "init") then
    answer (int_list args 0) s (fun terms =>
      let s := mkLog (default 0 (last terms)) terms 0 in
      (VObject [(str "term", VInt (lg_term s)); (str "last_index", VInt (lg_last_index s));
                (str "last_term", VInt (lg_last_term s)); (str "commit_index", VInt (lg_commit s))], s))
  else if decide (command = str "term") then
    answer (int args 0) s (fun t => (VObject [(str "term", VInt t)], mkLog t (lg_log s) (lg_commit s)))
  else if decide (command = str "append") then
    answer (int args 0) s (fun term => answer (int args 1) s (fun prev_index =>
    answer (int args 2) s (fun prev_term => answer (int args 3) s (fun leader_commit =>
    answer (int_list args 4) s (fun entries =>
      if prev_index <? 0 then (err (str "prev_index must not be negative"), s)
      else
        let '(success, conflict, s) := append term prev_index prev_term leader_commit entries s in
        (lg_answer s success conflict, s))))))
  else if decide (command = str "log") then
    (VObject [(str "term", VInt (lg_term s)); (str "terms", VArray (map VInt (lg_log s)));
              (str "last_index", VInt (lg_last_index s)); (str "last_term", VInt (lg_last_term s));
              (str "commit_index", VInt (lg_commit s))], s)
  else (unknown_command command, s).
End log.

(** ** [raft-commit]: the leader's bookkeeping *)

Record Commitment : Type := mkCommit {
  cm_members : nat;
  cm_term : Z;
  cm_log : list Z;
  commit_index : Z;
  match_index : gmap bytes Z;
  next_index : gmap bytes Z;
}.

Definition cm_majority (s : Commitment) : nat := cm_members s / 2 + 1.
Definition cm_last_index (s : Commitment) : Z := zlen (cm_log s).
Definition cm_term_at (s : Commitment) (index : Z) : option Z := log_at (cm_log s) index.

(** The members that hold an entry; the leader counts itself. *)
Definition replicas (s : Commitment) (index : Z) : nat :=
  1 + length (filter (fun p => index <= p.2) (map_to_list (match_index s))).

Definition may_commit (s : Commitment) (n : Z) : bool :=
  bool_decide (cm_majority s <= replicas s n)%nat && bool_decide (cm_term_at s n = Some (cm_term s)).

(** The loop of [advance_commit], from [n] down to the commit index. *)
Fixpoint commit_from (fuel : nat) (s : Commitment) (n : Z) : Z :=
  match fuel with
  | O => commit_index s
  | S fuel =>
      if commit_index s <? n then
        if may_commit s n then n else commit_from fuel s (n - 1)
      else commit_index s
  end.

Definition advance_commit (s : Commitment) : Commitment :=
  mkCommit (cm_members s) (cm_term s) (cm_log s)
    (commit_from (length (cm_log s)) s (cm_last_index s)) (match_index s) (next_index s).

Definition index_map (m : gmap bytes Z) : Value := VObject (map (fun p => (p.1, VInt p.2)) (entries m)).

Definition cm_state (s : Commitment) : Value :=
  VObject [(str "term", VInt (cm_term s)); (str "last_index", VInt (cm_last_index s));
           (str "commit_index", VInt (commit_index s)); (str "match", index_map (match_index s));
           (str "next", index_map (next_index s))].

Definition peer_name (i : Z) : bytes := x73 :: dec i.

Definition Commitment_init (n : nat) (term : Z) (terms : list Z) : Commitment :=
  let peers := map peer_name (seqZ 2 (Z.of_nat n - 1)) in
  mkCommit n term terms 0 (list_to_map (map (fun p => (p, 0)) peers))
    (list_to_map (map (fun p => (p, zlen terms + 1)) peers)).

(** The command [ack] for a known peer: the two indices and the state. *)
Definition ack (peer : bytes) (index : Z) (s : Commitment) : Z * Z * Commitment :=
  let matched := Z.max (default 0 (match_index s !! peer)) index in
  let next := Z.max (default 1 (next_index s !! peer)) (wrap_s 64 (matched + 1)) in
  let s := mkCommit (cm_members s) (cm_term s) (cm_log s) (commit_index s)
             (<[peer := matched]> (match_index s)) (<[peer := next]> (next_index s)) in
  (matched, next, advance_commit s).

Definition reject (peer : bytes) (conflict : Z) (s : Commitment) : Z * Commitment :=
  let next := Z.max conflict 1 in
  (next, mkCommit (cm_members s) (cm_term s) (cm_log s) (commit_index s) (match_index s)
           (<[peer := next]> (next_index s))).

(** The command [commit-safe]: the verdict, the replicas and the reason. *)
Definition commit_safe (index : Z) (s : Commitment) : bool * Z * bytes :=
  if (index <? 1) || (cm_last_index s <? index) then (false, 0, str "past the end of the log")
  else
    let n := Z.of_nat (replicas s index) in
    if index <=? commit_index s then (true, n, str "already committed")
    else if bool_decide (replicas s index < cm_majority s)%nat then (false, n, str "no majority")
    else if bool_decide (cm_term_at s index = Some (cm_term s)) then (true, n, str "current term")
    else (false, n, str "earlier term").

Section commit.
Context `{JsonText}.

Definition Commitment_step (command : bytes) (args : list bytes) (s : Commitment) : Value * Commitment :=
  if decide (command = str "init") then
    answer (uint args 0) s (fun n => answer (int args 1) s (fun term =>
    answer (int_list args 2) s (fun terms =>
      if n <? 1 then (err (str "a cluster needs at least one member"), s)
      else
        let s := Commitment_init (Z.to_nat n) term terms in
        (VObject [(str "term", VInt (cm_term s)); (str "last_index", VInt (cm_last_index s));
                  (str "commit_index", VInt (commit_index s));
                  (str "majority", VInt (Z.of_nat (cm_majority s)))], s))))
  else if decide (command = str "append") then
    let s := mkCommit (cm_members s) (cm_term s) (cm_log s ++ [cm_term s]) (commit_index s)
               (match_index s) (next_index s) in
    (VObject [(str "last_index", VInt (cm_last_index s)); (str "term", VInt (cm_term s))], s)
  else if decide (command = str "ack") then
    answer (word args 0) s (fun peer => answer (int args 1) s (fun index =>
      if bool_decide (is_Some (match_index s !! peer)) then
        let '(matched, next, s) := ack peer index s in
        (VObject [(str "match_index", VInt matched); (str "next_index", VInt next);
                  (str "commit_index", VInt (commit_index s))], s)
      else (err (peer ++ str " is not a peer of this cluster"), s)))
  else if decide (command = str "reject") then
    answer (word args 0) s (fun peer => answer (int args 1) s (fun conflict =>
      if bool_decide (is_Some (next_index s !! peer)) then
        let '(next, s) := reject peer conflict s in (VObject [(str "next_index", VInt next)], s)
      else (err (peer ++ str " is not a peer of this cluster"), s)))
  else if decide (command = str "commit-safe") then
    answer (int args 0) s (fun index =>
      let '(safe, n, reason) := commit_safe index s in
      (VObject [(str "safe", VBool safe); (str "replicas", VInt n); (str "reason", VString reason)], s))
  else if decide (command = str "entry") then
    answer (int args 0) s (fun index =>
      match cm_term_at s index with
      | Some t => (VObject [(str "term", VInt t)], s)
      | None => (err (str "there is no entry at index " ++ dec_signed index), s)
      end)
  else if decide (command = str "state") then (cm_state s, s)
  else (unknown_command command, s).
End commit.

(** ** [raft-snapshot]: a log whose prefix is a snapshot *)

Record Snapshots : Type := mkSnapshots {
  sn_log : list Z;
  snapshot_index : Z;
  snapshot_term : Z;
  sn_commit : Z;
}.
Definition Snapshots_default : Snapshots := mkSnapshots [] 0 0 0.

(** Indices are added in [i64]; a snapshot installed at its very end wraps. *)
Definition first_index (s : Snapshots) : Z := wrap_s 64 (snapshot_index s + 1).
Definition sn_last_index (s : Snapshots) : Z := wrap_s 64 (snapshot_index s + zlen (sn_log s)).

(** [Vec::get] at a computed position. *)
Definition get_at (log : list Z) (i : Z) : option Z :=
  if (0 <=? i) && (i <? zlen log) then log !! Z.to_nat i else None.

Definition sn_term_at (s : Snapshots) (index : Z) : option Z :=
  if index =? snapshot_index s then Some (snapshot_term s)
  else if (first_index s <=? index) && (index <=? sn_last_index s)
       then get_at (sn_log s) (wrap_u 64 (index - first_index s))
       else None.

Definition shape (s : Snapshots) : list (bytes * Value) :=
  [(str "first_index", VInt (first_index s)); (str "last_index", VInt (sn_last_index s));
   (str "commit_index", VInt (sn_commit s)); (str "snapshot_index", VInt (snapshot_index s));
   (str "snapshot_term", VInt (snapshot_term s))].

Definition commit_to (index : Z) (s : Snapshots) : Snapshots :=
  let wanted := Z.min index (sn_last_index s) in
  if sn_commit s <? wanted
  then mkSnapshots (sn_log s) (snapshot_index s) (snapshot_term s) wanted else s.

(** The command [snapshot]: refused past the commit index. *)
Definition snapshot (index : Z) (s : Snapshots) : bool * Snapshots :=
  if sn_commit s <? index then (false, s)
  else if snapshot_index s <? index then
    let term := default (snapshot_term s) (sn_term_at s index) in
    let n := Z.to_nat (Z.min (index - snapshot_index s) (zlen (sn_log s))) in
    (true, mkSnapshots (drop n (sn_log s)) index term (sn_commit s))
  else (true, s).

(** What [install] does with the log. *)
Inductive Installed : Type := Stale | Retained | Discarded.

Definition install (index term : Z) (s : Snapshots) : Installed * Snapshots :=
  if index <=? sn_commit s then (Stale, s)
  else
    let matching := bool_decide (sn_term_at s index = Some term) && (first_index s <=? index) in
    let log :=
      if matching
      then drop (Z.to_nat (Z.min (index - snapshot_index s) (zlen (sn_log s)))) (sn_log s)
      else [] in
    (if matching then Retained else Discarded, mkSnapshots log index term (Z.max (sn_commit s) index)).

Definition sn_set_log (log : list Z) (s : Snapshots) : Snapshots :=
  mkSnapshots log (snapshot_index s) (snapshot_term s) (sn_commit s).

(** One round of the loop over the entries of [append]. *)
Definition sn_put (s : Snapshots) (idx entry : Z) : Snapshots :=
  match sn_term_at s idx with
  | Some existing =>
      if existing =? entry then s
      else sn_set_log (take (Z.to_nat (Z.min (wrap_u 64 (idx - first_index s)) (zlen (sn_log s))))
             (sn_log s) ++ [entry]) s
  | None => sn_set_log (sn_log s ++ [entry]) s
  end.

Fixpoint sn_puts (s : Snapshots) (idx : Z) (entries : list Z) : Snapshots :=
  match entries with
  | [] => s
  | entry :: entries => sn_puts (sn_put s (wrap_s 64 idx) entry) (idx + 1) entries
  end.

Inductive Appended : Type := Compacted | Missing | TermMismatch | Done.

Definition Appended_reason (r : Appended) : bytes :=
  match r with
  | Compacted => str "compacted"
  | Missing => str "missing"
  | TermMismatch => str "term mismatch"
  | Done => str "ok"
  end.

Definition sn_append (prev_index prev_term : Z) (entries : list Z) (s : Snapshots)
    : Appended * Snapshots :=
  if prev_index <? snapshot_index s then (Compacted, s)
  else if sn_last_index s <? prev_index then (Missing, s)
  else if negb (bool_decide (sn_term_at s prev_index = Some prev_term)) then (TermMismatch, s)
  else (Done, sn_puts s (prev_index + 1) entries).

Section snapshots.
Context `{JsonText}.

Definition Snapshots_step (command : bytes) (args : list bytes) (s : Snapshots) : Value * Snapshots :=
  if decide (command = str "init") then
    answer (int_list args 0) s (fun terms =>
      let s := mkSnapshots terms 0 0 0 in (VObject (shape s), s))
  else if decide (command = str "commit") then
    answer (int args 0) s (fun index =>
      let s := commit_to index s in (VObject [(str "commit_index", VInt (sn_commit s))], s))
  else if decide (command = str "snapshot") then
    answer (int args 0) s (fun index =>
      let '(ok, s) := snapshot index s in
      (VObject ([(str "ok", VBool ok); (str "snapshot_index", VInt (snapshot_index s));
                 (str "snapshot_term", VInt (snapshot_term s)); (str "first_index", VInt (first_index s));
                 (str "log_len", VInt (zlen (sn_log s)))] ++
                if ok then [] else [(str "error", VString (str "cannot snapshot past the commit index"))]), s))
  else if decide (command = str "install") then
    answer (int args 0) s (fun _ => answer (int args 1) s (fun index => answer (int args 2) s (fun term =>
      let '(action, s) := install index term s in
      (VObject (shape s ++
         match action with
         | Stale => [(str "ok", VBool false); (str "action", VString (str "stale"))]
         | Retained => [(str "ok", VBool true); (str "action", VString (str "retained"))]
         | Discarded => [(str "ok", VBool true); (str "action", VString (str "discarded"))]
         end), s))))
  else if decide (command = str "append") then
    answer (int args 0) s (fun _ => answer (int args 1) s (fun prev_index =>
    answer (int args 2) s (fun prev_term => answer (int_list args 3) s (fun entries =>
      let '(r, s) := sn_append prev_index prev_term entries s in
      (VObject [(str "success", VBool (match r with Done => true | _ => false end));
                (str "reason", VString (Appended_reason r));
                (str "last_index", VInt (sn_last_index s))], s)))))
  else if decide (command = str "log") then
    (VObject (shape s ++ [(str "terms", VArray (map VInt (sn_log s)))]), s)
  else (unknown_command command, s).
End snapshots.

(** ** [raft-membership]: joint consensus and single-server changes *)

Record Membership : Type := mkMembership {
  phase : bytes;
  members : list bytes;
  mb_old : list bytes;
  mb_new : list bytes;
}.
Definition Membership_default : Membership := mkMembership [] [] [] [].

Definition quorum_of (members : list bytes) : nat := length members / 2 + 1.

Definition joint (s : Membership) : bool := bool_decide (phase s = str "joint").

(** A [BTreeSet] of names, in order. *)
Definition name_list (names : gset bytes) : list bytes := sort_by bytes_le (elements names).

Definition voters (s : Membership) : list bytes :=
  if joint s then name_list (list_to_set (mb_old s) ∪ list_to_set (mb_new s)) else members s.

Definition quorum (s : Membership) : nat :=
  if joint s then Nat.max (quorum_of (mb_old s)) (quorum_of (mb_new s)) else quorum_of (members s).

Definition mb_state (s : Membership) : list (bytes * Value) :=
  [(str "phase", VString (phase s)); (str "members", VArray (map VString (voters s)));
   (str "quorum", VInt (Z.of_nat (quorum s)))].

Definition refuse (s : Membership) (error : bytes) : Value :=
  VObject (mb_state s ++ [(str "ok", VBool false); (str "error", VString error)]).
Definition accept (s : Membership) : Value := VObject (mb_state s ++ [(str "ok", VBool true)]).

(** Is [voters] a majority of [config]? *)
Definition carries (voters : gset bytes) (config : list bytes) : bool :=
  bool_decide (quorum_of config <= length (filter (fun m => m ∈ voters) config))%nat.

Definition set_phase (p : bytes) (s : Membership) : Membership :=
  mkMembership p (members s) (mb_old s) (mb_new s).

(** The commands that change the configuration: the new state, or the error and
  the state it leaves. *)
Definition enter_joint (new : list bytes) (s : Membership) : bytes * Membership + Membership :=
  if decide (phase s = str "stable")
  then inr (mkMembership (str "joint") (members s) (members s) new)
  else inl (str "a configuration change is already in flight", s).

Definition commit_joint (s : Membership) : bytes * Membership + Membership :=
  if decide (phase s = str "joint")
  then inr (mkMembership (str "new") (mb_new s) (mb_old s) (mb_new s))
  else inl (str "there is no joint configuration to commit", s).

Definition commit_new (s : Membership) : bytes * Membership + Membership :=
  if decide (phase s = str "new") then inr (mkMembership (str "stable") (members s) [] [])
  else inl (str "there is no new configuration to commit", s).

Definition add_member (who : bytes) (s : Membership) : bytes * Membership + Membership :=
  if decide (phase s = str "stable") then
    if decide (who ∈ members s) then inl (who ++ str " is already a member", s)
    else inr (mkMembership (str "pending") (sort_by bytes_le (members s ++ [who])) (mb_old s) (mb_new s))
  else inl (str "a configuration change is already in flight", s).

Definition remove_member (who : bytes) (s : Membership) : bytes * Membership + Membership :=
  if decide (phase s = str "stable") then
    if decide (who ∈ members s) then
      match filter (fun m => m <> who) (members s) with
      | [] => inl (str "the last member cannot be removed",
                   mkMembership (phase s) [who] (mb_old s) (mb_new s))
      | kept => inr (mkMembership (str "pending") kept (mb_old s) (mb_new s))
      end
    else inl (who ++ str " is not a member", s)
  else inl (str "a configuration change is already in flight", s).

Definition commit_change (s : Membership) : bytes * Membership + Membership :=
  if decide (phase s = str "pending") then inr (set_phase (str "stable") s)
  else inl (str "there is no single-server change to commit", s).

(** The command [agree]: in the joint phase, a majority of each side. *)
Definition agree (voters : gset bytes) (s : Membership) : bool :=
  if joint s then carries voters (mb_old s) && carries voters (mb_new s)
  else carries voters (members s).

Definition agree_reason (voters : gset bytes) (s : Membership) : bytes :=
  if joint s then
    match carries voters (mb_old s), carries voters (mb_new s) with
    | true, true => str "old and new"
    | true, false => str "old only"
    | false, true => str "new only"
    | false, false => str "neither"
    end
  else if carries voters (members s) then str "majority" else str "no majority".

Definition changed (r : bytes * Membership + Membership) (k : Membership -> Value) : Value * Membership :=
  match r with inl (error, s) => (refuse s error, s) | inr s => (k s, s) end.

Section membership.
Context `{JsonText}.

Definition Membership_step (command : bytes) (args : list bytes) (s : Membership) : Value * Membership :=
  if decide (command = str "init") then
    answer (word_list args 0) s (fun names =>
      match names with
      | [] => (err (str "a cluster needs at least one member"), s)
      | _ => let s := mkMembership (str "stable") names [] [] in (VObject (mb_state s), s)
      end)
  else if decide (command = str "joint") then
    answer (word_list args 0) s (fun new =>
      match new with
      | [] => (err (str "the new configuration needs at least one member"), s)
      | _ =>
          changed (enter_joint new s) (fun s =>
            VObject [(str "ok", VBool true); (str "phase", VString (str "joint"));
                     (str "old", VArray (map VString (mb_old s))); (str "new", VArray (map VString (mb_new s)));
                     (str "quorum_old", VInt (Z.of_nat (quorum_of (mb_old s))));
                     (str "quorum_new", VInt (Z.of_nat (quorum_of (mb_new s))))])
      end)
  else if decide (command = str "commit-joint") then changed (commit_joint s) accept
  else if decide (command = str "commit-new") then changed (commit_new s) accept
  else if decide (command = str "agree") then
    answer (word_list args 0) s (fun names =>
      let vs := list_to_set names in
      (VObject [(str "ok", VBool (agree vs s)); (str "reason", VString (agree_reason vs s))], s))
  else if decide (command = str "add") then
    answer (word args 0) s (fun who => changed (add_member who s) accept)
  else if decide (command = str "remove") then
    answer (word args 0) s (fun who => changed (remove_member who s) accept)
  else if decide (command = str "commit-change") then changed (commit_change s) accept
  else if decide (command = str "state") then (VObject (mb_state s), s)
  else (unknown_command command, s).
End membership.
