(* ===== verification/RaftElect.v ===== *)
(** * A Raft term has one leader

  The nodes of [Raft.Election] run as a cluster: timeouts at any moment, vote
  requests and answers that may be lost, delayed, repeated and reordered, and
  heartbeats and log entries from anywhere.  A step applies one handler of the
  program to one node. *)

From S2P Require Import Prelude Text Topic Majority Raft.

(** ** The cluster *)

(** What other nodes call node [i], and what [a] calls [b] in its own state. *)
Definition node_name (i : nat) : bytes := x6e :: dec (Z.of_nat i).
Definition called (a b : nat) : bytes := if decide (a = b) then self else node_name b.

(** A request goes to everyone; an answer goes to the candidate [c]. *)
Inductive Msg : Type :=
| RequestVote (c : nat) (term last_index last_term : Z)
| VoteResponse (c voter : nat) (term : Z) (granted : bool).

(** [votes]: who has voted for whom in which term; nothing reads it. *)
Record Cluster : Type := mkCluster {
  nodes : list Election;
  msgs : list Msg;
  votes : list (nat * Z * nat);
}.

Definition cluster_init (k : nat) : Cluster := mkCluster (replicate k (Election_init k)) [] [].

Inductive cluster_step : Cluster -> Cluster -> Prop :=
| C_timeout i x s :
    nodes s !! i = Some x -> role x <> Leader -> el_term x < 2 ^ 63 - 1 ->
    cluster_step s (mkCluster (<[i := timeout x]> (nodes s))
      (RequestVote i (el_term (timeout x)) (el_last_index x) (el_last_term x) :: msgs s)
      ((i, el_term (timeout x), i) :: votes s))
| C_request i c term li lt x g x' s :
    RequestVote c term li lt ∈ msgs s -> i <> c -> nodes s !! i = Some x ->
    request_vote term (node_name c) li lt x = (g, x') ->
    cluster_step s (mkCluster (<[i := x']> (nodes s)) (VoteResponse c i (el_term x') g :: msgs s)
      (if g then (i, el_term x', c) :: votes s else votes s))
| C_response c i term g x s :
    VoteResponse c i term g ∈ msgs s -> nodes s !! c = Some x ->
    cluster_step s (mkCluster (<[c := vote_response term (node_name i) g x]> (nodes s)) (msgs s) (votes s))
| C_append i term leader x ok x' s :
    nodes s !! i = Some x -> append_entries term leader x = (ok, x') ->
    cluster_step s (mkCluster (<[i := x']> (nodes s)) (msgs s) (votes s))
| C_log i term x s :
    nodes s !! i = Some x ->
    cluster_step s (mkCluster (<[i := log_append term x]> (nodes s)) (msgs s) (votes s)).

(** Node [c] leads term [term]. *)
Definition leads (s : Cluster) (c : nat) (term : Z) : Prop :=
  exists x, nodes s !! c = Some x /\ role x = Leader /\ el_term x = term.

Lemma node_name_inj a b : node_name a = node_name b -> a = b.
Proof. intros [= E]. apply dec_inj in E; lia. Qed.

Lemma called_inj a b c : called a b = called a c -> b = c.
Proof.
  unfold called. repeat case_decide; subst; try done. apply node_name_inj.
Qed.

Lemma called_other a b : a <> b -> called a b = node_name b.
Proof. intros H. unfold called. by rewrite decide_False. Qed.

Lemma called_self a : called a a = self.
Proof. unfold called. by rewrite decide_True. Qed.

(** ** The invariant *)

Record Inv (k : nat) (s : Cluster) : Prop := {
  inv_len : length (nodes s) = k;
  inv_members i x : nodes s !! i = Some x -> el_members x = k /\ 0 <= el_term x;
  inv_once i t c c' : (i, t, c) ∈ votes s -> (i, t, c') ∈ votes s -> c = c';
  inv_vote i t c : (i, t, c) ∈ votes s -> exists x, nodes s !! i = Some x /\ t <= el_term x /\
    (t = el_term x -> voted_for x = Some (called i c));
  inv_msg c i t : VoteResponse c i t true ∈ msgs s -> i <> c /\ (i, t, c) ∈ votes s;
  inv_grant c x g : nodes s !! c = Some x -> role x <> Follower -> g ∈ granters x ->
    exists i, g = called c i /\ (i, el_term x, c) ∈ votes s;
  inv_leader c x : nodes s !! c = Some x -> role x = Leader -> (el_majority x <= size (granters x))%nat;
}.

Lemma cluster_inv_init k : Inv k (cluster_init k).
Proof.
  split; cbn; try (intros *; by intros ?%not_elem_of_nil).
  - apply length_replicate.
  - intros i x [-> _]%lookup_replicate. done.
  - intros c x g [-> _]%lookup_replicate. done.
  - intros c x [-> _]%lookup_replicate. done.
Qed.

(** Replacing one node: its term does not go back, within a term its vote stays,
  and what votes are added are its own, for whom it now records. *)
Lemma inv_update k s i x x' ms vs :
  Inv k s -> nodes s !! i = Some x -> el_members x' = el_members x ->
  el_term x <= el_term x' ->
  (el_term x' = el_term x -> forall w, voted_for x = Some w -> voted_for x' = Some w) ->
  (forall v, v ∈ votes s -> v ∈ vs) ->
  (forall v, v ∈ vs -> v ∈ votes s \/ exists c, v = (i, el_term x', c) /\ voted_for x' = Some (called i c)) ->
  (forall c j t, VoteResponse c j t true ∈ ms -> j <> c /\ (j, t, c) ∈ vs) ->
  (role x' <> Follower -> forall g, g ∈ granters x' -> exists j, g = called i j /\ (j, el_term x', i) ∈ vs) ->
  (role x' = Leader -> (el_majority x' <= size (granters x'))%nat) ->
  Inv k (mkCluster (<[i := x']> (nodes s)) ms vs).
Proof.
  intros HI Hx Hmem Hterm Hkeep Hsub Hnew Hmsg Hgr Hlead.
  assert (forall t c, (i, t, c) ∈ votes s -> t <= el_term x' /\
    (t = el_term x' -> voted_for x' = Some (called i c))) as Hi.
  { intros t c Hv. destruct (inv_vote _ _ HI _ _ _ Hv) as (y & Hy & Ht & Hvf). simplify_eq.
    split; [lia|]. intros ->. apply Hkeep; [lia|]. apply Hvf. lia. }
  pose proof (lookup_lt_Some _ _ _ Hx) as Hlt.
  assert (forall j y, (<[i := x']> (nodes s)) !! j = Some y ->
    j = i /\ y = x' \/ j <> i /\ nodes s !! j = Some y) as Hl.
  { intros j y Hy. destruct (decide (j = i)) as [->|Hne].
    - rewrite list_lookup_insert_eq in Hy by done. left. by simplify_eq.
    - rewrite list_lookup_insert_ne in Hy by done. by right. }
  split; cbn [nodes msgs votes].
  - rewrite length_insert. apply (inv_len _ _ HI).
  - intros j y [[-> ->]|[_ Hy]]%Hl; [|by eapply (inv_members _ _ HI)].
    destruct (inv_members _ _ HI _ _ Hx). rewrite Hmem. split; [done|lia].
  - intros j t c c' H1 H2. destruct (Hnew _ H1) as [O1|(d & [= -> -> <-] & E1)],
      (Hnew _ H2) as [O2|(d' & E & E2)].
    + by eapply (inv_once _ _ HI).
    + injection E as -> -> ->. destruct (Hi _ _ O1) as [_ Hv]. rewrite Hv in E2 by done.
      simplify_eq. by eapply called_inj.
    + destruct (Hi _ _ O2) as [_ Hv]. rewrite Hv in E1 by done. simplify_eq. symmetry. by eapply called_inj.
    + injection E as ->. rewrite E1 in E2. simplify_eq. by eapply called_inj.
  - intros j t c Hv. destruct (Hnew _ Hv) as [O|(d & [= -> -> ->] & E)].
    + destruct (decide (j = i)) as [->|Hne].
      * exists x'. rewrite list_lookup_insert_eq by done. split; [done|]. by apply Hi.
      * rewrite list_lookup_insert_ne by done. by apply (inv_vote _ _ HI).
    + exists x'. rewrite list_lookup_insert_eq by done. split; [done|]. split; [lia|done].
  - exact Hmsg.
  - intros c y g [[-> ->]|[_ Hy]]%Hl; intros Hr Hg; [by apply Hgr|].
    destruct (inv_grant _ _ HI _ _ _ Hy Hr Hg) as (j & Ej & Hj). eauto.
  - intros c y [[-> ->]|[_ Hy]]%Hl; [done|].
    by apply (inv_leader _ _ HI _ _ Hy).
Qed.

(** ** Every step keeps it *)

(** A node that keeps its term and its vote, and is no leader it was not. *)
Lemma step_quiet k s i x x' ms :
  Inv k s -> nodes s !! i = Some x -> el_members x' = el_members x ->
  el_term x <= el_term x' -> (el_term x' = el_term x -> voted_for x' = voted_for x) ->
  (forall c j t, VoteResponse c j t true ∈ ms -> VoteResponse c j t true ∈ msgs s) ->
  (role x' <> Follower -> role x' = role x /\ el_term x' = el_term x /\ granters x' = granters x) ->
  Inv k (mkCluster (<[i := x']> (nodes s)) ms (votes s)).
Proof.
  intros HI Hx Hm Ht Hv Hms Hr. apply (inv_update k s i x); try done.
  - intros E w. by rewrite Hv.
  - intros v Hv'. by left.
  - intros c j t Hc. by apply (inv_msg _ _ HI), Hms.
  - intros Hf g. destruct (Hr Hf) as (Er & -> & ->). rewrite Er in Hf. by apply (inv_grant _ _ HI).
  - intros Hl. destruct (Hr ltac:(congruence)) as (Er & _ & ->). unfold el_majority. rewrite Hm.
    apply (inv_leader _ _ HI _ _ Hx). congruence.
Qed.

Lemma step_timeout k s i x :
  Inv k s -> nodes s !! i = Some x -> role x <> Leader -> el_term x < 2 ^ 63 - 1 ->
  Inv k (mkCluster (<[i := timeout x]> (nodes s))
      (RequestVote i (el_term (timeout x)) (el_last_index x) (el_last_term x) :: msgs s)
      ((i, el_term (timeout x), i) :: votes s)).
Proof.
  intros HI Hx Hr Ht. destruct (inv_members _ _ HI _ _ Hx) as [_ Hlo]. unfold timeout. rewrite decide_False by done. cbn [el_term].
  rewrite wrap_s_small by (unfold in_s; cbn; lia).
  apply (inv_update k s i x); try done; cbn [el_members el_term voted_for granters role]; try lia.
  - intros v Hv. by right.
  - intros v [->|Hv]%elem_of_cons; [right|by left]. exists i. by rewrite called_self.
  - intros c j t [?|Hm]%elem_of_cons; [done|]. destruct (inv_msg _ _ HI _ _ _ Hm). split; [done|]. by right.
  - intros _ g ->%elem_of_singleton. exists i. rewrite called_self. split; [done|]. by left.
Qed.

Lemma step_request k s i c term li lt x g x' :
  Inv k s -> i <> c -> nodes s !! i = Some x ->
  request_vote term (node_name c) li lt x = (g, x') ->
  Inv k (mkCluster (<[i := x']> (nodes s)) (VoteResponse c i (el_term x') g :: msgs s)
      (if g then (i, el_term x', c) :: votes s else votes s)).
Proof.
  intros HI Hic Hx. unfold request_vote.
  destruct (Z.ltb_spec term (el_term x)) as [|Hge]; [|].
  { intros [= <- <-]. apply (step_quiet k s i x x); try done.
    intros c' j t [?|?]%elem_of_cons; done. }
  set (y := if el_term x <? term then step_down term x else x).
  assert (el_term y = term /\ el_members y = el_members x /\
    (el_term y = el_term x -> y = x) /\ (role y <> Follower -> y = x)) as (Hy & Hm & He & Hr).
  { unfold y. destruct (Z.ltb_spec (el_term x) term); cbn; repeat split; try done; lia. }
  clearbody y.
  set (free := match voted_for y with None => true | Some who => bool_decide (who = node_name c) end).
  destruct (free && up_to_date li lt y) eqn:Hg; intros [= <- Ex]; subst x'.
  - apply andb_true_iff in Hg as [Hfree _].
    apply (inv_update k s i x); try done; cbn [el_members el_term voted_for granters role]; try lia.
    + intros E w Hw. rewrite <- (He E) in Hw. unfold free in Hfree. rewrite Hw in Hfree.
      apply bool_decide_eq_true in Hfree. by subst.
    + intros v Hv. by right.
    + intros v [->|Hv]%elem_of_cons; [right|by left]. exists c. by rewrite called_other.
    + intros c' j t [[= -> -> ->]|Hv]%elem_of_cons; [split; [done|by left]|].
      destruct (inv_msg _ _ HI _ _ _ Hv). split; [done|by right].
    + intros Hf w Hw. specialize (Hr Hf). subst y.
      destruct (inv_grant _ _ HI _ _ _ Hx Hf Hw) as (j & -> & Hj). exists j. split; [done|by right].
    + intros Hl. assert (y = x) as -> by (apply Hr; congruence). by apply (inv_leader _ _ HI _ _ Hx).
  - apply (step_quiet k s i x); try done; try lia.
    + intros E. by rewrite (He E).
    + intros c' j t [?|?]%elem_of_cons; done.
    + intros Hf. by rewrite (Hr Hf).
Qed.

Lemma step_response k s i c term g x :
  Inv k s -> VoteResponse c i term g ∈ msgs s -> nodes s !! c = Some x ->
  Inv k (mkCluster (<[c := vote_response term (node_name i) g x]> (nodes s)) (msgs s) (votes s)).
Proof.
  intros HI Hmsg Hx. unfold vote_response.
  destruct (Z.ltb_spec (el_term x) term) as [|Hge].
  { apply (step_quiet k s c x); try done; cbn; lia. }
  destruct (bool_decide (term = el_term x) && bool_decide (role x = Candidate) && g) eqn:E;
    [|by apply (step_quiet k s c x)].
  apply andb_true_iff in E as [[Et%bool_decide_eq_true Er%bool_decide_eq_true]%andb_true_iff ->].
  destruct (inv_msg _ _ HI _ _ _ Hmsg) as [Hne Hv]. subst term.
  assert (forall w, w ∈ {[ node_name i ]} ∪ granters x ->
    exists j, w = called c j /\ (j, el_term x, c) ∈ votes s) as Hgr.
  { intros w [->%elem_of_singleton|Hw]%elem_of_union.
    - exists i. by rewrite called_other.
    - apply (inv_grant _ _ HI _ _ _ Hx); [congruence|done]. }
  case_bool_decide as Hq; apply (inv_update k s c x); try done; cbn [role]; try (intros v Hv'; by left);
    try apply (inv_msg _ _ HI). congruence.
Qed.

Lemma step_append k s i x term leader ok x' :
  Inv k s -> nodes s !! i = Some x -> append_entries term leader x = (ok, x') ->
  Inv k (mkCluster (<[i := x']> (nodes s)) (msgs s) (votes s)).
Proof.
  intros HI Hx. unfold append_entries.
  destruct (Z.ltb_spec term (el_term x)) as [|Hge]; intros [= <- <-];
    [by apply (step_quiet k s i x)|].
  destruct (Z.ltb_spec (el_term x) term); apply (step_quiet k s i x); cbn; try done; lia.
Qed.

Lemma cluster_step_inv k s s' : cluster_step s s' -> Inv k s -> Inv k s'.
Proof.
  intros Hs HI. destruct Hs.
  - by apply step_timeout.
  - by eapply step_request.
  - by apply step_response.
  - by eapply step_append.
  - by eapply (step_quiet k s i x).
Qed.

Lemma cluster_steps_inv k s s' : rtc cluster_step s s' -> Inv k s -> Inv k s'.
Proof. induction 1; eauto using cluster_step_inv. Qed.

Lemma cluster_steps_votes s s' v : rtc cluster_step s s' -> v ∈ votes s -> v ∈ votes s'.
Proof.
  induction 1 as [|s1 s2 s3 Hs _ IH]; [done|]. intros Hv. apply IH.
  destruct Hs; cbn [votes]; try done; [by right|]. destruct g; [by right|done].
Qed.

(** ** Elected by a majority *)

Definition elected (k : nat) (s : Cluster) (c : nat) (t : Z) : Prop :=
  exists Q, majority_of k Q /\ forall i, i ∈ Q -> (i, t, c) ∈ votes s.

Lemma granters_quorum k s c x :
  Inv k s -> nodes s !! c = Some x -> role x = Leader -> elected k s c (el_term x).
Proof.
  intros HI Hx Hr.
  set (Q := filter (fun i => (i, el_term x, c) ∈ votes s) (seq 0 k)).
  assert (NoDup Q) as Hd by apply NoDup_filter, NoDup_seq.
  exists Q. split; [|by intros i [Hi _]%list_elem_of_filter]. split; [done|]. split.
  - apply Forall_forall. intros i [_ Hi%elem_of_seq]%list_elem_of_filter. lia.
  - pose proof (inv_leader _ _ HI _ _ Hx Hr) as Hl. unfold el_majority in Hl.
    destruct (inv_members _ _ HI _ _ Hx) as [Hm _]. rewrite Hm in Hl. etrans; [exact Hl|].
    unfold size, set_size. cbn. rewrite <- (length_fmap (called c) Q).
    apply NoDup_incl_length; [apply NoDup_ListNoDup, NoDup_elements|].
    intros g Hg%list_elem_of_In%elem_of_elements. apply list_elem_of_In.
    destruct (inv_grant _ _ HI _ _ _ Hx ltac:(congruence) Hg) as (i & -> & Hi).
    apply list_elem_of_fmap_2, list_elem_of_filter. split; [done|].
    destruct (inv_vote _ _ HI _ _ _ Hi) as (y & Hy%lookup_lt_Some & _).
    rewrite (inv_len _ _ HI) in Hy. apply elem_of_seq. lia.
Qed.

(** ** Runs that evaluate

  A step by name; one that is not enabled leaves the cluster alone. *)

Inductive event : Type :=
| ETimeout (i : nat)
| ERequest (i c : nat) (term : Z)
| EResponse (c i : nat) (term : Z).

Definition request_of (c : nat) (term : Z) (m : Msg) : option (Z * Z) :=
  match m with
  | RequestVote c' t li lt => if decide (c' = c /\ t = term) then Some (li, lt) else None
  | _ => None
  end.

Definition response_of (c i : nat) (term : Z) (m : Msg) : option bool :=
  match m with
  | VoteResponse c' i' t g => if decide (c' = c /\ i' = i /\ t = term) then Some g else None
  | _ => None
  end.

Definition react (s : Cluster) (e : event) : Cluster :=
  match e with
  | ETimeout i =>
      match nodes s !! i with
      | Some x =>
          if decide (role x <> Leader /\ el_term x < 2 ^ 63 - 1)
          then mkCluster (<[i := timeout x]> (nodes s))
                 (RequestVote i (el_term (timeout x)) (el_last_index x) (el_last_term x) :: msgs s)
                 ((i, el_term (timeout x), i) :: votes s)
          else s
      | None => s
      end
  | ERequest i c term =>
      match omap (request_of c term) (msgs s), nodes s !! i with
      | (li, lt) :: _, Some x =>
          if decide (i = c) then s
          else let '(g, x') := request_vote term (node_name c) li lt x in
               mkCluster (<[i := x']> (nodes s)) (VoteResponse c i (el_term x') g :: msgs s)
                 (if g then (i, el_term x', c) :: votes s else votes s)
      | _, _ => s
      end
  | EResponse c i term =>
      match omap (response_of c i term) (msgs s), nodes s !! c with
      | g :: _, Some x =>
          mkCluster (<[c := vote_response term (node_name i) g x]> (nodes s)) (msgs s) (votes s)
      | _, _ => s
      end
  end.

Lemma omap_head {A B} (f : A -> option B) l b rest :
  omap f l = b :: rest -> exists a, a ∈ l /\ f a = Some b.
Proof.
  intros E. assert (b ∈ omap f l) as Hb by (rewrite E; by left).
  by apply list_elem_of_omap in Hb.
Qed.

Lemma react_steps s e : rtc cluster_step s (react s e).
Proof.
  destruct e as [i|i c t|c i t]; cbn [react].
  - destruct (nodes s !! i) as [x|] eqn:Hx; [|apply rtc_refl].
    case_decide as H; [|apply rtc_refl]. destruct H. apply rtc_once. by apply C_timeout.
  - destruct (omap _ _) as [|[li lt] rest] eqn:Ho; [apply rtc_refl|].
    destruct (nodes s !! i) as [x|] eqn:Hx; [|apply rtc_refl].
    case_decide; [apply rtc_refl|]. apply omap_head in Ho as (m & Hm & Hf).
    destruct m as [c' t' li' lt'|]; cbn in Hf; [|done]. case_decide as Hc; [|done].
    destruct Hc as [-> ->]. simplify_eq.
    destruct (request_vote t (node_name c) li lt x) as [g x'] eqn:Hr.
    apply rtc_once. by eapply C_request.
  - destruct (omap _ _) as [|g rest] eqn:Ho; [apply rtc_refl|].
    destruct (nodes s !! c) as [x|] eqn:Hx; [|apply rtc_refl].
    apply omap_head in Ho as (m & Hm & Hf). destruct m as [|c' i' t' g']; cbn in Hf; [done|].
    case_decide as Hc; [|done]. destruct Hc as (-> & -> & ->). simplify_eq.
    apply rtc_once. by apply C_response.
Qed.

Lemma react_all es s : rtc cluster_step s (foldl react s es).
Proof.
  revert s. induction es as [|e es IH]; intros s; [apply rtc_refl|].
  etrans; [apply react_steps|apply IH].
Qed.

(** ** One leader per term *)

(** C5: a Raft term has at most one leader: in a cluster of the program's nodes - any of them timing out at any moment, vote requests and answers lost, delayed, repeated or reordered, heartbeats with any term and log entries arriving in between - a node that leads a term and a node that leads the same term then or at any later moment are the same node. *)
Theorem one_leader_per_term k s1 s2 c1 c2 t
    (H1 : rtc cluster_step (cluster_init k) s1) (H2 : rtc cluster_step s1 s2)
    (L1 : leads s1 c1 t) (L2 : leads s2 c2 t) :
  c1 = c2.
Proof.
  pose proof (cluster_steps_inv k _ _ H1 (cluster_inv_init k)) as I1.
  pose proof (cluster_steps_inv k _ _ H2 I1) as I2.
  destruct L1 as (x1 & Hx1 & R1 & <-), L2 as (x2 & Hx2 & R2 & Et).
  destruct (granters_quorum k s1 c1 x1 I1 Hx1 R1) as (Q1 & HQ1 & V1).
  destruct (granters_quorum k s2 c2 x2 I2 Hx2 R2) as (Q2 & HQ2 & V2).
  destruct (majorities_meet k Q1 Q2 HQ1 HQ2) as (i & Hi1 & Hi2).
  apply (inv_once _ _ I2 i (el_term x1)).
  - by apply (cluster_steps_votes s1), V1.
  - rewrite <- Et. by apply V2.
Qed.

(** Node 0 leads term 1; node 1, that the news has not reached, then wins term 2
  with the vote of node 2, and node 0 still believes it leads term 1. *)
Definition first_term : Cluster :=
  foldl react (cluster_init 3) [ETimeout 0; ERequest 2 0 1; EResponse 0 2 1].
Definition second_term : Cluster :=
  foldl react first_term [ETimeout 1; ETimeout 1; ERequest 2 1 2; EResponse 1 2 2].

Lemma one_leader_per_term_witness :
  rtc cluster_step (cluster_init 3) first_term /\ rtc cluster_step first_term second_term /\
  leads first_term 0 1 /\ leads second_term 0 1 /\ leads second_term 1 2 /\ 0%nat = 0%nat.
Proof.
  assert (rtc cluster_step (cluster_init 3) first_term) as H1 by apply react_all.
  assert (rtc cluster_step first_term second_term) as H2 by apply react_all.
  assert (leads first_term 0 1) as L1.
  { eexists. split; [vm_compute; reflexivity|]. split; reflexivity. }
  assert (leads second_term 0 1) as L2.
  { eexists. split; [vm_compute; reflexivity|]. split; reflexivity. }
  assert (leads second_term 1 2) as L3.
  { eexists. split; [vm_compute; reflexivity|]. split; reflexivity. }
  split; [exact H1|]. split; [exact H2|]. split; [exact L1|]. split; [exact L2|]. split; [exact L3|].
  exact (one_leader_per_term 3 first_term second_term 0 0 1 H1 H2 L1 L2).
Defined.

(** A cluster of one holds its own majority, yet its candidate never leads: only
  an answer from another node promotes. *)
Lemma alone_never_leads n s :
  s = Nat.iter n timeout (Election_init 1) -> role s <> Leader.
Proof.
  intros ->. destruct n as [|n]; [done|]. cbn [Nat.iter nat_rect]. unfold timeout.
  induction n as [|n IH]; [done|]. cbn [Nat.iter nat_rect]. unfold timeout.
  case_decide; done.
Qed.
