(* ===== verification/RaftLog.v ===== *)
(** * Raft logs: what [append] does, and log matching

  [Raft.append] against a one-line reference definition; the followers' logs of
  a cluster, fed by the leaders of different terms in any order, always agree up
  to an entry they share. *)

From S2P Require Import Prelude Text Topic Raft.

(** ** Entries counted from one *)

Lemma log_at_Some log n t :
  log_at log n = Some t <-> 1 <= n /\ log !! Z.to_nat (n - 1) = Some t.
Proof.
  unfold log_at. destruct (Z.leb_spec 1 n), (Z.leb_spec n (zlen log)); cbn; split;
    try done; try (intros [? ?]; try done; try lia).
  apply lookup_lt_Some in H2. unfold zlen in *. lia.
Qed.

Lemma log_at_range log n t : log_at log n = Some t -> 1 <= n <= zlen log.
Proof. intros [H1 H2%lookup_lt_Some]%log_at_Some. unfold zlen. lia. Qed.

Lemma log_at_take log n k t :
  log_at (take k log) n = Some t <-> n <= Z.of_nat k /\ log_at log n = Some t.
Proof.
  rewrite !log_at_Some. split.
  - intros [H1 [H2 Hk]%lookup_take_Some]. split; [lia|done].
  - intros (Hk & H1 & H2). split; [done|]. apply lookup_take_Some. split; [done|lia].
Qed.

Lemma log_at_prefix l1 l2 n t : l1 `prefix_of` l2 -> log_at l1 n = Some t -> log_at l2 n = Some t.
Proof.
  intros [k ->] [H1 H2]%log_at_Some. apply log_at_Some. split; [done|]. by apply lookup_app_l_Some.
Qed.

Lemma log_at_take_S log n t :
  log_at log n = Some t -> take (Z.to_nat n) log = take (Z.to_nat (n - 1)) log ++ [t].
Proof.
  intros [H1 H2]%log_at_Some. replace (Z.to_nat n) with (S (Z.to_nat (n - 1))) by lia.
  by apply take_S_r.
Qed.

(** ** The entries of an append *)

(** What is left after the entries have been placed behind the first [prev] ones. *)
Definition placed (prev : nat) (entries log : list Z) : list Z :=
  if decide (entries `prefix_of` drop prev log) then log else take prev log ++ entries.

Lemma put_past_end entries log n :
  zlen log < n -> put_entries log n entries = log ++ entries.
Proof.
  revert log n. induction entries as [|e es IH]; intros log n Hn; cbn [put_entries].
  - by rewrite app_nil_r.
  - unfold put_entry. destruct (log_at log n) eqn:E; [apply log_at_range in E; lia|].
    rewrite IH by (rewrite zlen_app, zlen_cons, zlen_nil; lia). by rewrite <- app_assoc.
Qed.

Lemma put_entries_placed entries log n :
  (n <= length log)%nat -> put_entries log (Z.of_nat n + 1) entries = placed n entries log.
Proof.
  revert log n. induction entries as [|e es IH]; intros log n Hn; cbn [put_entries].
  - unfold placed. rewrite decide_True; [done|apply prefix_nil].
  - unfold put_entry. destruct (log_at log (Z.of_nat n + 1)) as [x|] eqn:E.
    + pose proof (log_at_range _ _ _ E) as Hr. unfold zlen in Hr.
      apply log_at_Some in E as [_ E]. replace (Z.to_nat (Z.of_nat n + 1 - 1)) with n in E by lia.
      destruct (Z.eqb_spec x e) as [->|Hne].
      * replace (Z.of_nat n + 1 + 1) with (Z.of_nat (S n) + 1) by lia. rewrite IH by lia.
        unfold placed. rewrite (drop_S _ _ _ E), (take_S_r _ _ _ E), <- app_assoc.
        case_decide as H1; case_decide as H2; try done; exfalso.
        -- apply H2. by apply prefix_cons.
        -- apply H1. by apply prefix_cons_inv_2 in H2.
      * replace (Z.to_nat (Z.of_nat n + 1 - 1)) with n by lia.
        rewrite put_past_end.
        -- unfold placed. rewrite (drop_S _ _ _ E), decide_False.
           ++ by rewrite <- app_assoc.
           ++ intros Hp%prefix_cons_inv_1. done.
        -- unfold zlen. rewrite length_app, length_take. cbn. lia.
    + rewrite put_past_end.
      2:{ unfold log_at, zlen in E. rewrite zlen_app, zlen_cons, zlen_nil. unfold zlen.
          destruct (Z.leb_spec (Z.of_nat n + 1) (Z.of_nat (length log))); [|lia].
          rewrite (proj2 (Z.leb_le 1 _)) in E by lia. cbn in E.
          apply lookup_ge_None in E. lia. }
      unfold placed. assert (n = length log) as ->.
      { destruct (decide (n = length log)) as [|Hne]; [done|]. exfalso.
        destruct (lookup_lt_is_Some_2 log n ltac:(lia)) as [y Hy].
        assert (log_at log (Z.of_nat n + 1) = Some y) as Hs; [|congruence].
        apply log_at_Some. replace (Z.to_nat (Z.of_nat n + 1 - 1)) with n by lia. split; [lia|done]. }
      rewrite drop_all, decide_False by (intros Hp%prefix_nil_inv; done).
      rewrite take_ge by lia. by rewrite <- app_assoc.
Qed.

(** A late copy, or a shorter older message, leaves what is already placed. *)
Lemma placed_again n es1 es2 log :
  (n <= length log)%nat -> placed n es1 (placed n (es1 ++ es2) log) = placed n (es1 ++ es2) log.
Proof.
  intros Hn. unfold placed at 1. rewrite decide_True; [done|]. unfold placed.
  case_decide as H; [by eapply prefix_app_l|].
  rewrite drop_app_ge, length_take by (rewrite length_take; lia).
  replace (n - n `min` length log)%nat with 0%nat by lia. by exists es2.
Qed.

(** ** Where a conflict starts *)

(** [f] starts the run of entries of term [t] that reaches up to [index]. *)
Definition starts_run (s : LogReplication) (t f index : Z) : Prop :=
  1 <= f <= index /\ (forall m, f <= m <= index -> lg_term_at s m = Some t) /\
  (f = 1 \/ lg_term_at s (f - 1) <> Some t).

Lemma run_back_starts fuel s t first index :
  (Z.to_nat first <= fuel)%nat -> 1 <= first <= index ->
  (forall m, first <= m <= index -> lg_term_at s m = Some t) ->
  starts_run s t (run_back fuel s t first) index.
Proof.
  revert first. induction fuel as [|fuel IH]; intros first Hf Hr Hm; [lia|]. cbn [run_back].
  destruct (Z.ltb_spec 1 first); cbn [andb]; [case_bool_decide as Ht|].
  - apply IH; [lia|lia|]. intros m Hm'. destruct (decide (m = first - 1)) as [->|]; [done|].
    apply Hm. lia.
  - split; [done|]. split; [done|by right].
  - split; [done|]. split; [done|left; lia].
Qed.

Lemma run_start_starts s index t :
  lg_term_at s index = Some t -> starts_run s t (run_start s index) index.
Proof.
  intros Ht. unfold run_start. rewrite Ht. pose proof (log_at_range _ _ _ Ht).
  apply run_back_starts; [lia|lia|]. intros m Hm. by replace m with index by lia.
Qed.

(** ** The rules of [append] *)

(** The follower's [append] is AppendEntries: a stale term changes nothing; otherwise the term is taken over and the request fails, with the log and the commit index kept, exactly when the entry before the new ones is missing (the conflict index is then one past the log) or of another term (it is then where the run of that entry's term starts); on success the log is the old one if it already has the entries in place and else the first [prev_index] entries followed by the new ones, the commit index is raised to the lesser of the leader's and the last new entry, never lowered, and a message with a prefix of those entries that arrives afterwards leaves the log alone. *)
Theorem append_rules term prev prev_term leader_commit entries s (Hp : 0 <= prev) :
  let '(ok, conflict, s') := append term prev prev_term leader_commit entries s in
  (term < lg_term s -> ok = false /\ conflict = 0 /\ s' = s) /\
  (lg_term s <= term -> lg_term s' = term /\
    (ok = true <-> prev <= lg_last_index s /\ (1 <= prev -> lg_term_at s prev = Some prev_term)) /\
    (ok = false -> lg_log s' = lg_log s /\ lg_commit s' = lg_commit s /\
       (lg_last_index s < prev -> conflict = lg_last_index s + 1) /\
       (forall t, lg_term_at s prev = Some t -> starts_run s t conflict prev)) /\
    (ok = true -> conflict = 0 /\ lg_log s' = placed (Z.to_nat prev) entries (lg_log s) /\
       lg_commit s' = Z.max (lg_commit s) (Z.min leader_commit (prev + zlen entries)) /\
       forall es1 es2, entries = es1 ++ es2 ->
         placed (Z.to_nat prev) es1 (lg_log s') = lg_log s')).
Proof.
  unfold append. destruct (Z.ltb_spec term (lg_term s)); [by split; [|lia]|].
  change (lg_last_index (mkLog term (lg_log s) (lg_commit s))) with (lg_last_index s).
  change (lg_term_at (mkLog term (lg_log s) (lg_commit s))) with (lg_term_at s).
  destruct (Z.ltb_spec (lg_last_index s) prev) as [Hgap|Hin].
  { split; [lia|]. intros _. split; [done|]. split; [split; [done|lia]|]. split; [|done].
    intros _. split; [done|]. split; [done|]. split; [done|].
    intros t Ht%log_at_range. unfold lg_last_index in Hgap. lia. }
  destruct ((1 <=? prev) && negb (bool_decide (lg_term_at s prev = Some prev_term))) eqn:E.
  - apply andb_true_iff in E as [H1%Z.leb_le H2%negb_true_iff%bool_decide_eq_false].
    split; [lia|]. intros _. split; [done|]. split; [split; [done|tauto]|]. split; [|done].
    intros _. split; [done|]. split; [done|]. split; [lia|]. intros t Ht.
    exact (run_start_starts (mkLog term (lg_log s) (lg_commit s)) prev t Ht).
  - split; [lia|]. intros _. split; [done|]. split.
    + split; [|done]. intros _. split; [done|]. intros H1%Z.leb_le. rewrite H1 in E. cbn in E.
      by apply negb_false_iff, bool_decide_eq_true in E.
    + split; [done|]. intros _. split; [done|]. cbn [lg_log lg_commit].
      assert (Z.to_nat prev <= length (lg_log s))%nat as Hl.
      { unfold lg_last_index, zlen in Hin. lia. }
      assert (put_entries (lg_log s) (prev + 1) entries = placed (Z.to_nat prev) entries (lg_log s)) as ->.
      { rewrite <- put_entries_placed by done. by rewrite Z2Nat.id. }
      split; [done|]. split; [destruct (Z.ltb_spec (lg_commit s) leader_commit); lia|].
      intros es1 es2 ->. by apply placed_again.
Qed.

Lemma append_rules_witness :
  0 <= 2 /\ append 4 2 2 9 [4; 4] (mkLog 3 [1; 2; 3] 1) = (true, 0, mkLog 4 [1; 2; 4; 4] 4) /\
  starts_run (mkLog 3 [1; 2; 2] 1) 2 2 3.
Proof.
  split; [lia|]. split; [reflexivity|].
  pose proof (append_rules 3 3 1 0 [] (mkLog 3 [1; 2; 2] 1) ltac:(lia)) as [_ H].
  destruct (H ltac:(cbn; lia)) as (_ & _ & Hf & _). destruct (Hf eq_refl) as (_ & _ & _ & Hr).
  exact (Hr 2 eq_refl).
Defined.

(** ** Log matching

  Followers fed by leaders.  A term has one leader ([RaftElect]); it starts from
  the log of some node, appends entries of its own term, and sends slices of its
  log, which arrive late, repeatedly, out of order or never. *)

Record Append : Type := mkAppend {
  a_term : Z;
  a_prev : nat;
  a_prev_term : Z;
  a_commit : Z;
  a_entries : list Z;
}.

Record Logs : Type := mkLogs {
  followers : list LogReplication;
  leaders : gmap Z (list Z);
  sent : list Append;
}.

Definition logs_init (k : nat) : Logs := mkLogs (replicate k (mkLog 0 [] 0)) ∅ [].

Definition deliver (m : Append) (x : LogReplication) : LogReplication :=
  (append (a_term m) (Z.of_nat (a_prev m)) (a_prev_term m) (a_commit m) (a_entries m) x).2.

Inductive logs_step : Logs -> Logs -> Prop :=
| G_lead i t x s :
    followers s !! i = Some x -> leaders s !! t = None ->
    logs_step s (mkLogs (followers s) (<[t := lg_log x]> (leaders s)) (sent s))
| G_client t l s :
    leaders s !! t = Some l ->
    logs_step s (mkLogs (followers s) (<[t := l ++ [t]]> (leaders s)) (sent s))
| G_send t l prev n leader_commit s :
    leaders s !! t = Some l -> (prev <= length l)%nat ->
    logs_step s (mkLogs (followers s) (leaders s)
      (mkAppend t prev (default 0 (log_at l (Z.of_nat prev))) leader_commit (take n (drop prev l)) :: sent s))
| G_deliver i m x s :
    followers s !! i = Some x -> m ∈ sent s ->
    logs_step s (mkLogs (<[i := deliver m x]> (followers s)) (leaders s) (sent s))
| G_term i t x s :
    followers s !! i = Some x ->
    logs_step s (mkLogs (<[i := mkLog t (lg_log x) (lg_commit x)]> (followers s)) (leaders s) (sent s)).

(** A log that is the start of a leader's. *)
Definition known (ls : gmap Z (list Z)) (l : list Z) : Prop :=
  l = [] \/ exists t l', ls !! t = Some l' /\ l `prefix_of` l'.

Definition slice_of (l : list Z) (m : Append) : Prop :=
  (a_prev m <= length l)%nat /\ a_prev_term m = default 0 (log_at l (Z.of_nat (a_prev m))) /\
  a_entries m `prefix_of` drop (a_prev m) l.

Record LInv (s : Logs) : Prop := {
  li_own t l n u : leaders s !! t = Some l -> log_at l n = Some u ->
    exists l', leaders s !! u = Some l' /\ take (Z.to_nat n) l = take (Z.to_nat n) l';
  li_followers i x : followers s !! i = Some x -> known (leaders s) (lg_log x);
  li_sent m : m ∈ sent s -> exists t l, leaders s !! t = Some l /\ slice_of l m;
}.

(** Leaders' logs only grow. *)
Definition grow (ls ls' : gmap Z (list Z)) : Prop :=
  forall t l, ls !! t = Some l -> exists l', ls' !! t = Some l' /\ l `prefix_of` l'.

Lemma known_grow ls ls' l : grow ls ls' -> known ls l -> known ls' l.
Proof.
  intros Hg [->|(t & l' & Hl & Hp)]; [by left|]. destruct (Hg _ _ Hl) as (l'' & Hl'' & Hp').
  right. exists t, l''. split; [done|]. by etrans.
Qed.

Lemma slice_grow l l' m : l `prefix_of` l' -> slice_of l m -> slice_of l' m.
Proof.
  intros [k ->] (H1 & H2 & H3). unfold slice_of. rewrite length_app. split; [lia|]. split.
  - rewrite H2. destruct (log_at l (Z.of_nat (a_prev m))) as [u|] eqn:E.
    + rewrite (log_at_prefix l (l ++ k) _ u); [done|by exists k|done].
    + destruct (a_prev m) as [|p] eqn:Ep; [done|]. exfalso.
      destruct (lookup_lt_is_Some_2 l p ltac:(lia)) as [u Hu].
      assert (log_at l (Z.of_nat (S p)) = Some u); [|congruence].
      apply log_at_Some. split; [lia|]. by replace (Z.to_nat (Z.of_nat (S p) - 1)) with p by lia.
  - rewrite drop_app_le by lia. by apply prefix_app_r.
Qed.

Lemma known_own s l n u :
  LInv s -> known (leaders s) l -> log_at l n = Some u ->
  exists l', leaders s !! u = Some l' /\ take (Z.to_nat n) l = take (Z.to_nat n) l'.
Proof.
  intros HI [->|(t & l' & Hl & Hp)] Hu; [apply log_at_range in Hu; rewrite zlen_nil in Hu; lia|].
  destruct (li_own _ HI t l' n u Hl) as (l'' & H1 & H2); [by eapply log_at_prefix|].
  exists l''. split; [done|]. rewrite <- H2. destruct Hp as [k ->].
  apply log_at_range in Hu. unfold zlen in Hu. rewrite take_app_le by lia. done.
Qed.

(** Known logs that share an entry are equal up to it. *)
Lemma known_match s l1 l2 n u :
  LInv s -> known (leaders s) l1 -> known (leaders s) l2 ->
  log_at l1 n = Some u -> log_at l2 n = Some u ->
  take (Z.to_nat n) l1 = take (Z.to_nat n) l2.
Proof.
  intros HI K1 K2 H1 H2. destruct (known_own s l1 n u HI K1 H1) as (l & Hl & ->).
  destruct (known_own s l2 n u HI K2 H2) as (l' & Hl' & ->). by simplify_eq.
Qed.

Lemma known_leader ls t l : ls !! t = Some l -> known ls l.
Proof. intros Hl. right. eauto. Qed.

(** A slice placed in a known log gives a known log. *)
Lemma known_placed s l l0 t m :
  LInv s -> known (leaders s) l -> leaders s !! t = Some l0 -> slice_of l0 m ->
  (1 <= a_prev m -> log_at l (Z.of_nat (a_prev m)) = Some (a_prev_term m))%nat ->
  known (leaders s) (placed (a_prev m) (a_entries m) l).
Proof.
  intros HI K Hl (S1 & S2 & S3) Hp. unfold placed. case_decide; [done|].
  right. exists t, l0. split; [done|].
  assert (take (a_prev m) l = take (a_prev m) l0) as ->.
  { destruct (a_prev m) as [|p] eqn:Ep; [done|]. specialize (Hp ltac:(lia)).
    destruct (lookup_lt_is_Some_2 l0 p ltac:(lia)) as [u Hu].
    assert (log_at l0 (Z.of_nat (S p)) = Some u) as Hu'.
    { apply log_at_Some. split; [lia|]. by replace (Z.to_nat (Z.of_nat (S p) - 1)) with p by lia. }
    rewrite S2, Hu' in Hp. cbn in Hp.
    pose proof (known_match s l l0 _ u HI K (known_leader _ _ _ Hl) Hp Hu') as E.
    by rewrite Nat2Z.id in E. }
  destruct S3 as [k Hk]. exists k. by rewrite <- app_assoc, <- Hk, take_drop.
Qed.

Lemma deliver_log m x :
  lg_log (deliver m x) = lg_log x \/
  (1 <= a_prev m -> log_at (lg_log x) (Z.of_nat (a_prev m)) = Some (a_prev_term m))%nat /\
  lg_log (deliver m x) = placed (a_prev m) (a_entries m) (lg_log x).
Proof.
  unfold deliver, append. destruct (_ <? lg_term x); [by left|].
  destruct (Z.ltb_spec (lg_last_index (mkLog (a_term m) (lg_log x) (lg_commit x))) (Z.of_nat (a_prev m)));
    [by left|].
  destruct ((1 <=? Z.of_nat (a_prev m)) && _) eqn:E; [by left|]. right. split.
  - intros H1. rewrite (proj2 (Z.leb_le _ _)) in E by lia. cbn in E.
    by apply negb_false_iff, bool_decide_eq_true in E.
  - cbn [snd lg_log]. apply put_entries_placed. unfold lg_last_index, zlen in *. cbn [lg_log] in *. lia.
Qed.

Lemma li_init k : LInv (logs_init k).
Proof.
  split; cbn; try done.
  - intros i x [-> _]%lookup_replicate. by left.
  - by intros m ?%not_elem_of_nil.
Qed.

(** The followers and the messages survive leaders that grow. *)
Lemma li_grow s ls ms :
  LInv s -> grow (leaders s) ls ->
  (forall t l n u, ls !! t = Some l -> log_at l n = Some u ->
    exists l', ls !! u = Some l' /\ take (Z.to_nat n) l = take (Z.to_nat n) l') ->
  (forall m, m ∈ ms -> m ∈ sent s \/ exists t l, ls !! t = Some l /\ slice_of l m) ->
  LInv (mkLogs (followers s) ls ms).
Proof.
  intros HI Hg Hown Hms. split; cbn; [done| |].
  - intros i x Hx. by eapply known_grow, (li_followers _ HI).
  - intros m [Hm|Hm]%Hms; [|done]. destruct (li_sent _ HI _ Hm) as (t & l & Hl & Hs).
    destruct (Hg _ _ Hl) as (l' & Hl' & Hp). exists t, l'. split; [done|]. by eapply slice_grow.
Qed.

Lemma li_follower s i x x' :
  LInv s -> followers s !! i = Some x -> known (leaders s) (lg_log x') ->
  LInv (mkLogs (<[i := x']> (followers s)) (leaders s) (sent s)).
Proof.
  intros HI Hx Hk. split; cbn; [apply (li_own _ HI)| |apply (li_sent _ HI)].
  intros j y. destruct (decide (j = i)) as [->|Hne].
  - rewrite list_lookup_insert_eq by (by eapply lookup_lt_Some). by intros [= <-].
  - rewrite list_lookup_insert_ne by done. apply (li_followers _ HI).
Qed.

Lemma step_lead s i t x :
  LInv s -> followers s !! i = Some x -> leaders s !! t = None ->
  LInv (mkLogs (followers s) (<[t := lg_log x]> (leaders s)) (sent s)).
Proof.
  intros HI Hx Ht.
  assert (grow (leaders s) (<[t := lg_log x]> (leaders s))) as Hg.
  { intros u l Hl. exists l. rewrite lookup_insert_ne by congruence. done. }
  apply li_grow; [done|done| |by left]. intros u l n v Hu Hv.
  assert (known (leaders s) l) as Hk.
  { destruct (decide (u = t)) as [->|Hne].
    - rewrite lookup_insert_eq in Hu. injection Hu as <-. by apply (li_followers _ HI _ _ Hx).
    - rewrite lookup_insert_ne in Hu by done. by eapply known_leader. }
  destruct (known_own s l n v HI Hk Hv) as (l' & Hl' & E). exists l'.
  rewrite lookup_insert_ne by congruence. done.
Qed.

Lemma take_extend (l l' k : list Z) n :
  take n l = take n l' -> (n <= length l)%nat -> take n l = take n (l' ++ k).
Proof.
  intros E Hn. rewrite E. apply (f_equal length) in E. rewrite !length_take in E.
  by rewrite take_app_le by lia.
Qed.

Lemma step_client s t l :
  LInv s -> leaders s !! t = Some l ->
  LInv (mkLogs (followers s) (<[t := l ++ [t]]> (leaders s)) (sent s)).
Proof.
  intros HI Ht.
  assert (grow (leaders s) (<[t := l ++ [t]]> (leaders s))) as Hg.
  { intros u l' Hl. destruct (decide (u = t)) as [->|Hne].
    - exists (l ++ [t]). rewrite lookup_insert_eq. simplify_eq. split; [done|by exists [t]].
    - exists l'. by rewrite lookup_insert_ne. }
  apply li_grow; [done|done| |by left].
  assert (forall l0 n v, known (leaders s) l0 -> log_at l0 n = Some v ->
    exists l', <[t := l ++ [t]]> (leaders s) !! v = Some l' /\ take (Z.to_nat n) l0 = take (Z.to_nat n) l') as Hold.
  { intros l0 n v Hk Hv. destruct (known_own s l0 n v HI Hk Hv) as (l' & Hl' & E).
    apply log_at_range in Hv. unfold zlen in Hv. destruct (decide (v = t)) as [->|Hne].
    - exists (l ++ [t]). rewrite lookup_insert_eq. simplify_eq. split; [done|]. apply take_extend; [done|lia].
    - exists l'. by rewrite lookup_insert_ne. }
  intros u l0 n v Hu Hv. destruct (decide (u = t)) as [->|Hne].
  - rewrite lookup_insert_eq in Hu. injection Hu as <-.
    destruct (log_at l n) as [v'|] eqn:Hn.
    + assert (v' = v) as ->.
      { apply (log_at_prefix l (l ++ [t])) in Hn; [congruence|by exists [t]]. }
      destruct (Hold l n v (known_leader _ _ _ Ht) Hn) as (l' & Hl' & E). exists l'. split; [done|].
      rewrite <- E. apply log_at_range in Hn. unfold zlen in Hn. by rewrite take_app_le by lia.
    + apply log_at_Some in Hv as [H1 Hv]. apply lookup_app_Some in Hv as [Hv|[_ Hv]].
      * assert (log_at l n = Some v); [by apply log_at_Some|congruence].
      * apply list_lookup_singleton_Some in Hv as [_ <-]. exists (l ++ [t]). by rewrite lookup_insert_eq.
  - rewrite lookup_insert_ne in Hu by done. by apply Hold; [eapply known_leader|].
Qed.

Lemma step_send s t l prev n lc :
  LInv s -> leaders s !! t = Some l -> (prev <= length l)%nat ->
  LInv (mkLogs (followers s) (leaders s)
    (mkAppend t prev (default 0 (log_at l (Z.of_nat prev))) lc (take n (drop prev l)) :: sent s)).
Proof.
  intros HI Hl Hp. apply li_grow; [done|intros u l' ?; by exists l'|apply (li_own _ HI)|].
  intros m [->|Hm]%elem_of_cons; [right|by left]. exists t, l. split; [done|].
  split; [done|]. split; [done|]. exists (drop n (drop prev l)). cbn [a_entries a_prev]. by rewrite take_drop.
Qed.

Lemma logs_step_inv s s' : logs_step s s' -> LInv s -> LInv s'.
Proof.
  intros Hs HI. destruct Hs as [i t x s Hx Ht|t l s Hl|t l prev n lc s Hl Hp|i m x s Hx Hm|i t x s Hx].
  - by eapply step_lead.
  - by apply step_client.
  - by apply step_send.
  - eapply li_follower; [done|done|]. pose proof (li_followers _ HI _ _ Hx) as Hk.
    destruct (deliver_log m x) as [->|[Hp ->]]; [done|].
    destruct (li_sent _ HI _ Hm) as (t & l & Hl & Hsl). by eapply known_placed.
  - eapply li_follower; [done|done|]. by apply (li_followers _ HI _ _ Hx).
Qed.

Lemma logs_steps_inv s s' : rtc logs_step s s' -> LInv s -> LInv s'.
Proof. induction 1; eauto using logs_step_inv. Qed.

(** C6: log matching: in every state a cluster can reach - followers running the program's [append], one leader per term, each starting from some node's log and sending slices of its own, messages late, repeated, out of order or lost - two followers whose logs have an entry of the same term at the same index have the same entries up to it. *)
Theorem log_matching k s i j x y n t
    (Hs : rtc logs_step (logs_init k) s)
    (Hx : followers s !! i = Some x) (Hy : followers s !! j = Some y)
    (Hxn : lg_term_at x n = Some t) (Hyn : lg_term_at y n = Some t) :
  take (Z.to_nat n) (lg_log x) = take (Z.to_nat n) (lg_log y).
Proof.
  pose proof (logs_steps_inv _ _ Hs (li_init k)) as HI.
  exact (known_match s _ _ n t HI (li_followers _ HI _ _ Hx) (li_followers _ HI _ _ Hy) Hxn Hyn).
Qed.

(** Term 1 replicates two entries to follower 0 and one to follower 1; term 2
  starts from follower 1 and overwrites the second entry of follower 0. *)
Definition two_terms : Logs :=
  let m1 := mkAppend 1 0 0 0 [1; 1] in
  let m2 := mkAppend 1 0 0 0 [1] in
  let m3 := mkAppend 2 1 1 0 [2] in
  mkLogs [deliver m3 (deliver m1 (mkLog 0 [] 0)); deliver m3 (deliver m2 (mkLog 0 [] 0))]
    (<[2 := [1; 2]]> (<[1 := [1; 1]]> ∅)) [m3; m2; m1].

Lemma two_terms_reached : rtc logs_step (logs_init 2) two_terms.
Proof.
  eapply rtc_l; [apply (G_lead 0 1); reflexivity|].
  eapply rtc_l; [apply (G_client 1 []); reflexivity|].
  eapply rtc_l; [apply (G_client 1 [1]); reflexivity|].
  eapply rtc_l; [apply (G_send 1 [1; 1] 0 2 0); [reflexivity|cbn; lia]|].
  eapply rtc_l; [apply (G_send 1 [1; 1] 0 1 0); [reflexivity|cbn; lia]|].
  eapply rtc_l; [apply (G_deliver 0 (mkAppend 1 0 0 0 [1; 1])); [reflexivity|right; left]|].
  eapply rtc_l; [apply (G_deliver 1 (mkAppend 1 0 0 0 [1])); [reflexivity|left]|].
  eapply rtc_l; [apply (G_lead 1 2); reflexivity|].
  eapply rtc_l; [apply (G_client 2 [1]); reflexivity|].
  eapply rtc_l; [apply (G_send 2 [1; 2] 1 1 0); [reflexivity|cbn; lia]|].
  eapply rtc_l; [apply (G_deliver 0 (mkAppend 2 1 1 0 [2])); [reflexivity|left]|].
  eapply rtc_l; [apply (G_deliver 1 (mkAppend 2 1 1 0 [2])); [reflexivity|left]|].
  apply rtc_refl.
Qed.

Lemma log_matching_witness :
  exists x y, rtc logs_step (logs_init 2) two_terms /\
    followers two_terms !! 0%nat = Some x /\ followers two_terms !! 1%nat = Some y /\
    lg_term_at x 2 = Some 2 /\ lg_term_at y 2 = Some 2 /\ take 2 (lg_log x) = take 2 (lg_log y).
Proof.
  eexists _, _. split; [exact two_terms_reached|]. split; [reflexivity|]. split; [reflexivity|].
  split; [reflexivity|]. split; [reflexivity|].
  exact (log_matching 2 two_terms 0 1 _ _ 2 2 two_terms_reached eq_refl eq_refl eq_refl eq_refl).
Defined.
