(* ===== verification/RaftRules.v ===== *)
(** * Raft: the commit rule, snapshots and membership changes

  The commit index of a leader after an acknowledgement is the greatest that
  the rule allows; a log with a compacted prefix behaves as the whole log; two
  decisions taken under consecutive configurations share a voter. *)

From S2P Require Import Prelude Text OrdMap Topic Raft RaftLog.

(** ** The commit rule *)

(** [r] is the greatest index above [c], up to [n], that may be committed, or [c]. *)
Definition greatest_commit (s : Commitment) (c n r : Z) : Prop :=
  (r = c \/ c < r <= n /\ may_commit s r = true) /\
  forall m, r < m <= n -> may_commit s m = false.

Lemma commit_from_greatest fuel s n :
  (Z.to_nat (n - commit_index s) <= fuel)%nat -> commit_index s <= n ->
  greatest_commit s (commit_index s) n (commit_from fuel s n).
Proof.
  revert n. induction fuel as [|fuel IH]; intros n Hf Hn; cbn [commit_from].
  - split; [by left|]. lia.
  - destruct (Z.ltb_spec (commit_index s) n) as [Hlt|Hge]; [|split; [by left|lia]].
    destruct (may_commit s n) eqn:E; [split; [by right|lia]|].
    destruct (IH (n - 1) ltac:(lia) ltac:(lia)) as [Hr Hm]. split; [intuition lia|].
    intros m Hm'. destruct (decide (m = n)) as [->|]; [done|]. apply Hm. lia.
Qed.

(** Between 0 and the end of the log. *)
Definition commit_in_log (s : Commitment) : Prop := 0 <= commit_index s <= cm_last_index s.

Lemma advance_commit_greatest s :
  commit_in_log s ->
  greatest_commit s (commit_index s) (cm_last_index s) (commit_index (advance_commit s)).
Proof.
  intros [H1 H2]. apply commit_from_greatest; [|done]. unfold cm_last_index, zlen in *. lia.
Qed.

Lemma ack_commit_in_log peer index s : commit_in_log s -> commit_in_log (ack peer index s).2.
Proof.
  intros H. unfold ack. cbn [snd]. set (s1 := mkCommit _ _ _ _ _ _).
  destruct (advance_commit_greatest s1 H) as [Hr _]. change (commit_index s1) with (commit_index s) in Hr.
  change (cm_last_index s1) with (cm_last_index s) in Hr. destruct H. unfold commit_in_log.
  change (cm_last_index (advance_commit s1)) with (cm_last_index s).
  unfold commit_in_log, cm_last_index in *. lia.
Qed.

Definition run_commands {S} (step : bytes -> list bytes -> S -> Value * S) (s : S)
    (commands : list (bytes * list bytes)) : S :=
  foldl (fun s c => (step c.1 c.2 s).2) s commands.

Definition Commitment_default : Commitment := mkCommit 0 0 [] 0 ∅ ∅.

Lemma answer_state {A S} (r : Result Value A) (s : S) k (P : S -> Prop) :
  P s -> (forall a, P (k a).2) -> P (answer r s k).2.
Proof. intros H1 H2. by destruct r; cbn. Qed.

Lemma Commitment_step_in_log `{JsonText} command args s :
  commit_in_log s -> commit_in_log (Commitment_step command args s).2.
Proof.
  intros Hs. unfold Commitment_step. repeat case_decide; try done.
  - apply answer_state; [done|]. intros n. apply answer_state; [done|]. intros t.
    apply answer_state; [done|]. intros ts. case_match; [done|]. cbn.
    split; [done|]. apply zlen_nonneg.
  - destruct Hs. unfold commit_in_log, cm_last_index, zlen in *. cbn. rewrite length_app. cbn. lia.
  - apply answer_state; [done|]. intros peer. apply answer_state; [done|]. intros index.
    case_bool_decide; [|done]. destruct (ack peer index s) as [[? ?] s'] eqn:E. cbn.
    replace s' with (ack peer index s).2 by by rewrite E. by apply ack_commit_in_log.
  - apply answer_state; [done|]. intros peer. apply answer_state; [done|]. intros c.
    by case_bool_decide.
  - apply answer_state; [done|]. intros index. by destruct (commit_safe index s) as [[? ?] ?].
  - apply answer_state; [done|]. intros index. by destruct (cm_term_at s index).
Qed.

Lemma run_commands_in_log `{JsonText} s cs :
  commit_in_log s -> commit_in_log (run_commands Commitment_step s cs).
Proof.
  revert s. induction cs as [|c cs IH]; intros s Hs; [done|]. by apply IH, Commitment_step_in_log.
Qed.

Lemma commit_safe_may index s :
  commit_in_log s ->
  (commit_safe index s).1.1 = true <->
    1 <= index <= commit_index s \/ commit_index s < index <= cm_last_index s /\ may_commit s index = true.
Proof.
  intros [H1 H2]. unfold commit_safe, may_commit.
  destruct (Z.ltb_spec index 1) as [Hi|Hi]; cbn [orb fst]; [split; [done|lia]|].
  destruct (Z.ltb_spec (cm_last_index s) index) as [Hl|Hl]; cbn [fst]; [split; [done|lia]|].
  destruct (Z.leb_spec index (commit_index s)) as [Hc|Hc]; cbn [fst]; [split; [lia|done]|].
  case_bool_decide as Hr; cbn [fst].
  - rewrite bool_decide_false by lia. split; [done|]. intros [?|[_ ?]]; [lia|done].
  - rewrite (bool_decide_true (cm_majority s <= _)%nat) by lia. cbn [andb].
    case_bool_decide; cbn [fst]; split; try done; [intros _; right; done|].
    intros [?|[_ ?]]; [lia|done].
Qed.

(** The commit rule: whatever has been typed, an acknowledgement raises the peer's match index to the acknowledged one, never lowering it, and moves the commit index to the greatest index above it that a majority holds and whose entry is of the leader's own term, or leaves it where it is when there is none; after it [commit-safe] says yes for exactly the entries from the first to the commit index. *)
Theorem commit_rule `{JsonText} commands peer index i :
  let s := run_commands Commitment_step Commitment_default commands in
  let '(matched, _, s') := ack peer index s in
  matched = Z.max (default 0 (match_index s !! peer)) index /\
  match_index s' = <[peer := matched]> (match_index s) /\
  cm_log s' = cm_log s /\ cm_term s' = cm_term s /\ cm_members s' = cm_members s /\
  greatest_commit s' (commit_index s) (cm_last_index s) (commit_index s') /\
  ((commit_safe i s').1.1 = true <-> 1 <= i <= commit_index s').
Proof.
  intros s. assert (commit_in_log s) as Hs by (apply run_commands_in_log; done).
  pose proof (ack_commit_in_log peer index s Hs) as Hs'. unfold ack in *. cbn [snd] in Hs'.
  set (s1 := mkCommit _ _ _ _ _ _) in *. set (s' := advance_commit s1) in *.
  split; [done|]. split; [done|]. split; [done|]. split; [done|]. split; [done|].
  pose proof (advance_commit_greatest s1 Hs) as Hg. fold s' in Hg.
  split; [exact Hg|]. rewrite commit_safe_may by done. split; [|by left].
  intros [Hi|[Hi Hm]]; [done|]. destruct Hg as [_ Hg]. specialize (Hg i Hi).
  change (may_commit s1 i) with (may_commit s' i) in Hg. congruence.
Qed.

(** ** A compacted log stands for a whole one *)

Definition stands_for (s : Snapshots) (l : list Z) : Prop :=
  0 <= snapshot_index s <= zlen l /\ zlen l < 2 ^ 63 - 1 /\
  sn_log s = drop (Z.to_nat (snapshot_index s)) l /\
  snapshot_index s <= sn_commit s /\
  snapshot_term s = default 0 (log_at l (snapshot_index s)).

(** The term at an index of a whole log; index 0, before the first, has term 0. *)
Definition whole_at (l : list Z) (i : Z) : option Z := if i =? 0 then Some 0 else log_at l i.

Lemma stands_last s l : stands_for s l -> sn_last_index s = zlen l.
Proof.
  intros (H1 & H2 & H3 & _). unfold sn_last_index. rewrite H3.
  rewrite wrap_s_small; unfold in_s, zlen in *; rewrite ?length_drop; lia.
Qed.

Lemma stands_first s l : stands_for s l -> first_index s = snapshot_index s + 1.
Proof.
  intros (H1 & H2 & _). unfold first_index. rewrite wrap_s_small; [done|lia|].
  unfold in_s, zlen in *. lia.
Qed.

Lemma get_at_lookup log i : 0 <= i -> get_at log i = log !! Z.to_nat i.
Proof.
  intros Hi. unfold get_at, zlen. destruct (Z.leb_spec 0 i), (Z.ltb_spec i (Z.of_nat (length log)));
    cbn; try lia; [done|]. symmetry. apply lookup_ge_None. lia.
Qed.

Lemma log_at_lookup log i : 1 <= i -> log_at log i = log !! Z.to_nat (i - 1).
Proof.
  intros Hi. unfold log_at, zlen. destruct (Z.leb_spec 1 i), (Z.leb_spec i (Z.of_nat (length log)));
    cbn; try lia; [done|]. symmetry. apply lookup_ge_None. lia.
Qed.

Lemma stands_term_at s l i :
  stands_for s l -> snapshot_index s <= i -> sn_term_at s i = whole_at l i.
Proof.
  intros Hs Hi. pose proof (stands_last _ _ Hs) as Hl. pose proof (stands_first _ _ Hs) as Hf.
  destruct Hs as (H1 & H2 & H3 & _ & H4). unfold sn_term_at. rewrite Hl, Hf.
  destruct (Z.eqb_spec i (snapshot_index s)) as [->|Hne].
  { rewrite H4. unfold whole_at. destruct (Z.eqb_spec (snapshot_index s) 0) as [E|E]; [by rewrite E|].
    rewrite log_at_lookup by lia.
    destruct (lookup_lt_is_Some_2 l (Z.to_nat (snapshot_index s - 1))) as [x ->]; [|done].
    unfold zlen in H1. lia. }
  unfold whole_at. rewrite (proj2 (Z.eqb_neq _ _)), (proj2 (Z.leb_le _ _)) by lia. cbn [andb].
  destruct (Z.leb_spec i (zlen l)) as [Hil|Hil].
  - unfold wrap_u. rewrite Z.mod_small by lia. rewrite get_at_lookup, H3, lookup_drop, log_at_lookup by lia.
    f_equal. lia.
  - rewrite log_at_lookup by lia. symmetry. apply lookup_ge_None. unfold zlen in Hil. lia.
Qed.

Lemma log_at_app_l l k i : i <= zlen l -> log_at (l ++ k) i = log_at l i.
Proof.
  intros Hi. destruct (Z.leb_spec 1 i) as [H1|H1].
  - rewrite !log_at_lookup by done. apply lookup_app_l. unfold zlen in Hi. lia.
  - unfold log_at. by rewrite (proj2 (Z.leb_gt 1 i)).
Qed.

Lemma log_at_take_le l n i : i <= Z.of_nat n -> log_at (take n l) i = log_at l i.
Proof.
  intros Hi. destruct (Z.leb_spec 1 i) as [H1|H1].
  - rewrite !log_at_lookup by done. apply lookup_take_lt. lia.
  - unfold log_at. by rewrite (proj2 (Z.leb_gt 1 i)).
Qed.

(** Replacing everything from some index above the snapshot on. *)
Lemma stands_cut s l n e :
  stands_for s l -> snapshot_index s <= n <= zlen l -> zlen l + 1 < 2 ^ 63 - 1 ->
  stands_for (sn_set_log (take (Z.to_nat (n - snapshot_index s)) (sn_log s) ++ [e]) s)
    (take (Z.to_nat n) l ++ [e]).
Proof.
  intros (H1 & H2 & H3 & H4 & H5) Hn Hlen. unfold stands_for, sn_set_log.
  cbn [sn_log snapshot_index snapshot_term sn_commit].
  assert (length (take (Z.to_nat n) l) = Z.to_nat n) as Ht.
  { rewrite length_take. unfold zlen in *. lia. }
  assert (zlen (take (Z.to_nat n) l ++ [e]) = n + 1) as Hz.
  { unfold zlen. rewrite length_app, Ht. cbn. lia. }
  rewrite Hz. split; [lia|]. split; [lia|]. split; [|split; [done|]].
  - rewrite H3, drop_app_le, take_drop_commute by (rewrite Ht; lia).
    replace (Z.to_nat (snapshot_index s) + Z.to_nat (n - snapshot_index s))%nat with (Z.to_nat n) by lia.
    done.
  - rewrite H5, log_at_app_l, log_at_take_le; [done|lia|]. unfold zlen. rewrite Ht. lia.
Qed.

Lemma stands_put s l idx e :
  stands_for s l -> snapshot_index s < idx <= zlen l + 1 -> zlen l + 1 < 2 ^ 63 - 1 ->
  stands_for (sn_put s idx e) (put_entry l idx e).
Proof.
  intros Hs Hi Hlen. pose proof (stands_term_at s l idx Hs ltac:(lia)) as Ht.
  pose proof (stands_first _ _ Hs) as Hf. pose proof Hs as (H1 & H2 & H3 & _).
  assert (whole_at l idx = log_at l idx) as Hw.
  { unfold whole_at. by rewrite (proj2 (Z.eqb_neq _ _)) by lia. }
  rewrite Hw in Ht. unfold sn_put, put_entry. rewrite Ht, Hf.
  assert (zlen (sn_log s) = zlen l - snapshot_index s) as Hsl.
  { rewrite H3. unfold zlen in *. rewrite length_drop. lia. }
  destruct (log_at l idx) as [x|] eqn:E.
  - destruct (x =? e); [done|]. unfold wrap_u. apply log_at_range in E.
    rewrite Z.mod_small by lia. rewrite Z.min_l by lia.
    pose proof (stands_cut s l (idx - 1) e Hs ltac:(lia) Hlen) as Hc.
    by replace (idx - 1 - snapshot_index s) with (idx - (snapshot_index s + 1)) in Hc by lia.
  - assert (idx = zlen l + 1) as ->.
    { destruct (decide (idx = zlen l + 1)) as [|Hne]; [done|]. exfalso.
      rewrite log_at_lookup in E by lia. apply lookup_ge_None in E. unfold zlen in *. lia. }
    pose proof (stands_cut s l (zlen l) e Hs ltac:(lia) Hlen) as Hc.
    rewrite !take_ge in Hc by (unfold zlen in *; lia). done.
Qed.

Lemma zlen_put_entry l idx e :
  1 <= idx <= zlen l + 1 -> idx <= zlen (put_entry l idx e) <= zlen l + 1.
Proof.
  intros Hi. unfold put_entry. destruct (log_at l idx) as [x|] eqn:E.
  - apply log_at_range in E. destruct (x =? e); [lia|]. unfold zlen in *.
    rewrite length_app, length_take. cbn. lia.
  - unfold zlen in *. rewrite length_app. cbn. lia.
Qed.

Lemma stands_puts s l idx es :
  stands_for s l -> snapshot_index s < idx <= zlen l + 1 -> zlen l + zlen es < 2 ^ 63 - 1 ->
  stands_for (sn_puts s idx es) (put_entries l idx es).
Proof.
  revert s l idx. induction es as [|e es IH]; intros s l idx Hs Hi Hlen; cbn [sn_puts put_entries]; [done|].
  rewrite zlen_cons in Hlen. pose proof (zlen_nonneg es). destruct Hs as [H0 Hs']. pose proof (conj H0 Hs') as Hs.
  pose proof (zlen_put_entry l idx e ltac:(lia)) as Hz.
  rewrite wrap_s_small by (try done; unfold in_s; cbn; lia).
  apply IH; [apply stands_put; [done|lia|lia]| |lia].
  assert (snapshot_index (sn_put s idx e) = snapshot_index s) as ->; [|lia].
  unfold sn_put. by repeat case_match.
Qed.

(** A snapshot of the first [n] entries, taken or received. *)
Lemma stands_drop (l : list Z) n log term commit :
  0 <= n <= zlen l -> zlen l < 2 ^ 63 - 1 -> n <= commit ->
  log = drop (Z.to_nat n) l -> term = default 0 (log_at l n) ->
  stands_for (mkSnapshots log n term commit) l.
Proof. intros. subst. done. Qed.

Lemma stands_snapshot s l index :
  stands_for s l -> sn_commit s <= zlen l -> stands_for (snapshot index s).2 l.
Proof.
  intros Hs Hc. unfold snapshot. destruct (Z.ltb_spec (sn_commit s) index); [done|].
  destruct (Z.ltb_spec (snapshot_index s) index); [|done]. cbn [snd].
  pose proof (stands_term_at s l index Hs ltac:(lia)) as Ht. pose proof Hs as (H1 & H2 & H3 & H4 & H5).
  apply stands_drop; try lia.
  - rewrite H3, drop_drop. f_equal. unfold zlen in *. rewrite length_drop. lia.
  - rewrite Ht. unfold whole_at. rewrite (proj2 (Z.eqb_neq _ _)) by lia.
    rewrite log_at_lookup by lia.
    destruct (lookup_lt_is_Some_2 l (Z.to_nat (index - 1))) as [x ->]; [|done]. unfold zlen in *. lia.
Qed.

Lemma stands_append s l prev prev_term es :
  stands_for s l -> snapshot_index s <= prev -> zlen l + zlen es < 2 ^ 63 - 1 ->
  let '(r, s') := sn_append prev prev_term es s in
  (r = Missing <-> zlen l < prev) /\
  (r = Done <-> prev <= zlen l /\ whole_at l prev = Some prev_term) /\ r <> Compacted /\
  stands_for s' (match r with Done => placed (Z.to_nat prev) es l | _ => l end).
Proof.
  intros Hs Hp Hlen. unfold sn_append. rewrite (proj2 (Z.ltb_ge _ _)) by lia.
  rewrite (stands_last _ _ Hs), (stands_term_at _ _ _ Hs Hp).
  destruct (Z.ltb_spec (zlen l) prev) as [Hm|Hm].
  { split; [done|]. split; [split; [done|lia]|done]. }
  case_bool_decide as Ht; cbn [negb].
  - split; [split; [done|lia]|]. split; [done|]. split; [done|]. pose proof Hs as (H1 & _).
    rewrite <- put_entries_placed, Z2Nat.id by (unfold zlen in *; lia). apply stands_puts; [done|lia|done].
  - split; [split; [done|lia]|]. split; [split; [done|tauto]|done].
Qed.

Lemma stands_install s l l' i t :
  stands_for s l -> log_at l' i = Some t -> zlen l' < 2 ^ 63 - 1 ->
  let '(a, s') := install i t s in
  (a = Stale <-> i <= sn_commit s) /\
  (a = Retained <-> sn_commit s < i /\ log_at l i = Some t) /\
  stands_for s' (match a with
                 | Stale => l
                 | Retained => take (Z.to_nat i) l' ++ drop (Z.to_nat i) l
                 | Discarded => take (Z.to_nat i) l'
                 end).
Proof.
  intros Hs Ht Hlen. unfold install.
  destruct (Z.leb_spec i (sn_commit s)); [split; [done|]; split; [split; [done|lia]|done]|].
  pose proof Hs as (H1 & H2 & H3 & H4 & H5).
  rewrite (stands_first _ _ Hs), (stands_term_at _ _ _ Hs), (proj2 (Z.leb_le _ _)) by lia.
  rewrite andb_true_r. pose proof (log_at_range _ _ _ Ht) as Hr.
  assert (whole_at l i = log_at l i) as -> by (unfold whole_at; by rewrite (proj2 (Z.eqb_neq _ _)) by lia).
  assert (length (take (Z.to_nat i) l') = Z.to_nat i) as Hl'.
  { rewrite length_take. unfold zlen in Hr. lia. }
  case_bool_decide as Hm.
  - split; [split; [done|lia]|]. split; [done|]. pose proof (log_at_range _ _ _ Hm) as Hr'.
    apply stands_drop; unfold zlen; rewrite ?length_app, ?Hl', ?length_drop; unfold zlen in *; try lia.
    + rewrite H3, drop_drop, drop_app_ge, Hl', Nat.sub_diag by (rewrite Hl'; lia).
      rewrite drop_0, length_drop. f_equal. lia.
    + rewrite log_at_app_l, log_at_take_le, Ht; [done|lia|]. unfold zlen. rewrite Hl'. lia.
  - split; [split; [done|lia]|]. split; [split; [done|tauto]|].
    apply stands_drop; unfold zlen; rewrite ?Hl'; unfold zlen in *; try lia.
    + symmetry. apply drop_ge. lia.
    + by rewrite log_at_take_le, Ht by lia.
Qed.

(** C7: a compacted log refines the whole one: while the state stands for a log [l] - the entries up to the snapshot are gone, the rest are its own, and the boundary term is right - committing and taking snapshots keep it standing for [l], [append] behind the snapshot answers and writes exactly what it would on [l], [append] before it is refused as compacted, and installing a leader's snapshot leaves it standing for the leader's entries up to the snapshot followed by its own later ones when it had the leader's entry there, and by none otherwise. *)
Theorem snapshots_refine_log s l (Hs : stands_for s l) :
  (forall i, stands_for (commit_to i s) l /\
     sn_commit (commit_to i s) = Z.max (sn_commit s) (Z.min i (zlen l))) /\
  (sn_commit s <= zlen l -> forall i,
     (snapshot i s).1 = (i <=? sn_commit s) /\ stands_for (snapshot i s).2 l) /\
  (forall prev prev_term es, snapshot_index s <= prev -> zlen l + zlen es < 2 ^ 63 - 1 ->
     let '(r, s') := sn_append prev prev_term es s in
     (r = Missing <-> zlen l < prev) /\
     (r = Done <-> prev <= zlen l /\ whole_at l prev = Some prev_term) /\ r <> Compacted /\
     stands_for s' (match r with Done => placed (Z.to_nat prev) es l | _ => l end)) /\
  (forall prev prev_term es, prev < snapshot_index s ->
     sn_append prev prev_term es s = (Compacted, s)) /\
  (forall l' i t, log_at l' i = Some t -> zlen l' < 2 ^ 63 - 1 ->
     let '(a, s') := install i t s in
     (a = Stale <-> i <= sn_commit s) /\
     (a = Retained <-> sn_commit s < i /\ log_at l i = Some t) /\
     stands_for s' (match a with
                    | Stale => l
                    | Retained => take (Z.to_nat i) l' ++ drop (Z.to_nat i) l
                    | Discarded => take (Z.to_nat i) l'
                    end)).
Proof.
  split; [|split; [|split; [|split]]].
  - intros i. unfold commit_to. rewrite (stands_last _ _ Hs). pose proof Hs as (H1 & H2 & H3 & H4 & H5).
    destruct (Z.ltb_spec (sn_commit s) (Z.min i (zlen l))); [|split; [done|lia]].
    split; [|cbn; lia]. split; [done|]. split; [done|]. split; [done|]. split; [cbn; lia|done].
  - intros Hc i. split; [|by apply stands_snapshot]. unfold snapshot.
    destruct (Z.ltb_spec (sn_commit s) i), (Z.leb_spec i (sn_commit s)); try lia; [done|].
    by destruct (snapshot_index s <? i).
  - intros prev prev_term es. by apply stands_append.
  - intros prev prev_term es Hp. unfold sn_append. by rewrite (proj2 (Z.ltb_lt _ _)).
  - intros l' i t. by apply stands_install.
Qed.

Lemma snapshots_refine_log_witness :
  stands_for (mkSnapshots [2; 3] 2 1 3) [1; 1; 2; 3] /\
  sn_append 3 2 [4] (mkSnapshots [2; 3] 2 1 3) = (Done, mkSnapshots [2; 4] 2 1 3) /\
  stands_for (mkSnapshots [2; 4] 2 1 3) [1; 1; 2; 4].
Proof.
  assert (stands_for (mkSnapshots [2; 3] 2 1 3) [1; 1; 2; 3]) as Hs.
  { apply stands_drop; try done; vm_compute; done. }
  split; [exact Hs|]. split; [reflexivity|].
  destruct (snapshots_refine_log _ _ Hs) as (_ & _ & Ha & _).
  exact (proj2 (proj2 (proj2 (Ha 3 2 [4] ltac:(vm_compute; done) ltac:(vm_compute; done))))).
Defined.

(** ** Consecutive configurations share a voter *)

Definition votes_in (vs : gset bytes) (config : list bytes) : nat :=
  length (filter (fun m => m ∈ vs) config).

Lemma votes_share vs ws config :
  (length config < votes_in vs config + votes_in ws config)%nat -> exists m, m ∈ vs /\ m ∈ ws.
Proof.
  intros Hl. destruct (decide (vs ∩ ws = ∅)) as [He|He].
  - exfalso. revert Hl. unfold votes_in. induction config as [|m c IH]; [cbn; lia|].
    rewrite !filter_cons. cbn [length].
    destruct (decide (m ∈ vs)), (decide (m ∈ ws)); cbn [length]; intros; try lia. set_solver.
  - apply set_choose_L in He as [m Hm]. exists m. set_solver.
Qed.

Lemma votes_in_perm vs c d : c ≡ₚ d -> votes_in vs c = votes_in vs d.
Proof. intros E. unfold votes_in. by rewrite E. Qed.

Lemma votes_in_cons vs m c : (votes_in vs c <= votes_in vs (m :: c) <= S (votes_in vs c))%nat.
Proof. unfold votes_in. rewrite filter_cons. destruct (decide (m ∈ vs)); cbn [length]; lia. Qed.

Lemma carries_votes vs c : carries vs c = true -> (length c < 2 * votes_in vs c)%nat.
Proof.
  unfold carries, quorum_of. intros H%bool_decide_eq_true. fold (votes_in vs c) in H.
  pose proof (Nat.div_mod (length c) 2). pose proof (Nat.mod_upper_bound (length c) 2). lia.
Qed.

Lemma carries_share vs ws c :
  carries vs c = true -> carries ws c = true -> exists m, m ∈ vs /\ m ∈ ws.
Proof. intros H1%carries_votes H2%carries_votes. apply (votes_share vs ws c). lia. Qed.

(** One member more or less. *)
Lemma carries_share_one vs ws c m d :
  d ≡ₚ m :: c -> carries vs c = true -> carries ws d = true -> exists x, x ∈ vs /\ x ∈ ws.
Proof.
  intros E H1%carries_votes H2%carries_votes. apply (votes_share vs ws d).
  rewrite (votes_in_perm vs d _ E). rewrite (votes_in_perm ws d _ E), E in *. cbn [length] in *.
  pose proof (votes_in_cons vs m c). lia.
Qed.

Lemma NoDup_remove_perm (who : bytes) c :
  NoDup c -> who ∈ c -> c ≡ₚ who :: filter (fun m => m <> who) c.
Proof.
  induction c as [|x c IH]; intros Hd Hin; [by apply not_elem_of_nil in Hin|].
  apply NoDup_cons in Hd as [Hx Hd]. rewrite filter_cons.
  apply elem_of_cons in Hin as [<-|Hin].
  - rewrite decide_False by tauto. f_equiv. induction c as [|y c IHc]; [done|].
    rewrite filter_cons, decide_True by set_solver. f_equiv. apply NoDup_cons in Hd as [Hy Hd].
    apply IHc; [|set_solver|done]. intros _ Hi. set_solver.
  - rewrite decide_True by set_solver. rewrite Permutation_swap. f_equiv. by apply IH.
Qed.

(** Accepted changes, one after the other; no list names a member twice. *)
Inductive change : Membership -> Membership -> Prop :=
| M_joint new s s' : NoDup new -> enter_joint new s = inr s' -> change s s'
| M_commit_joint s s' : commit_joint s = inr s' -> change s s'
| M_commit_new s s' : commit_new s = inr s' -> change s s'
| M_add who s s' : add_member who s = inr s' -> change s s'
| M_remove who s s' : remove_member who s = inr s' -> change s s'
| M_commit_change s s' : commit_change s = inr s' -> change s s'.

Definition distinct_members (s : Membership) : Prop :=
  NoDup (members s) /\ (joint s = true -> mb_old s = members s /\ NoDup (mb_new s)).

Definition membership_init (names : list bytes) : Membership :=
  mkMembership (str "stable") names [] [].

Lemma change_distinct s s' : change s s' -> distinct_members s -> distinct_members s'.
Proof.
  intros Hc [Hm Hj].
  destruct Hc as [new s s' Hd H|s s' H|s s' H|who s s' H|who s s' H|s s' H].
  - unfold enter_joint in H. case_decide; [|done]. injection H as <-. by split.
  - unfold commit_joint in H. case_decide as Hp; [|done]. injection H as <-. split; [|done].
    apply Hj. unfold joint. by apply bool_decide_eq_true_2.
  - unfold commit_new in H. case_decide; [|done]. injection H as <-. by split.
  - unfold add_member in H. case_decide; [|done]. case_decide; [done|]. injection H as <-.
    split; [|done]. cbn [members]. rewrite sort_by_perm. apply NoDup_app. repeat split; [done| |].
    + set_solver.
    + apply NoDup_singleton.
  - unfold remove_member in H. case_decide; [|done]. case_decide; [|done].
    destruct (filter _ _) as [|k ks] eqn:E; [done|]. injection H as <-. split; [|done].
    cbn [members]. rewrite <- E. by apply NoDup_filter.
  - unfold commit_change in H. case_decide; [|done]. injection H as <-. split; [done|].
    intros Hf%bool_decide_eq_true. done.
Qed.

Lemma changes_distinct s s' : rtc change s s' -> distinct_members s -> distinct_members s'.
Proof. induction 1; eauto using change_distinct. Qed.

(** What a decision carries: the members, and in the joint phase both sides. *)
Lemma agree_members vs s : distinct_members s -> agree vs s = true -> carries vs (members s) = true.
Proof.
  intros [_ Hj]. unfold agree. destruct (joint s); [|done].
  destruct (Hj eq_refl) as [-> _]. by intros [? _]%andb_true_iff.
Qed.

(** C8: membership changes are safe: from any configuration of distinct names, through any accepted changes - joint consensus in its three steps, single additions and removals, each committed or not - whenever one set of voters decided under a configuration and another decides under that one or the next, some voter is in both; so no two disjoint groups can decide across a change. *)
Theorem consecutive_configurations_share names s s' vs ws
    (Hn : NoDup names) (Hs : rtc change (membership_init names) s) (Hc : s' = s \/ change s s')
    (Hv : agree vs s = true) (Hw : agree ws s' = true) :
  exists m, m ∈ vs /\ m ∈ ws.
Proof.
  assert (distinct_members s) as Hd by (eapply changes_distinct; [exact Hs|by split]).
  destruct Hc as [->|Hc]; [by eapply carries_share; eapply agree_members|].
  pose proof (change_distinct _ _ Hc Hd) as Hd'.
  pose proof (agree_members _ _ Hd Hv) as Cv. pose proof (agree_members _ _ Hd' Hw) as Cw.
  destruct Hc as [new s s' _ H|s s' H|s s' H|who s s' H|who s s' H|s s' H].
  - unfold enter_joint in H. case_decide; [|done]. injection H as <-. by eapply carries_share.
  - unfold commit_joint in H. case_decide as Hp; [|done]. injection H as <-.
    unfold agree in Hv. unfold joint in Hv. rewrite bool_decide_eq_true_2 in Hv by done.
    apply andb_true_iff in Hv as [_ Hv]. exact (carries_share _ _ _ Hv Cw).
  - unfold commit_new in H. case_decide; [|done]. injection H as <-. by eapply carries_share.
  - unfold add_member in H. case_decide; [|done]. case_decide; [done|]. injection H as <-.
    eapply (carries_share_one vs ws (members s) who); [|done|exact Cw]. cbn [members].
    by rewrite sort_by_perm, Permutation_app_comm.
  - unfold remove_member in H. case_decide; [|done]. case_decide as Hin; [|done].
    destruct (filter _ _) as [|k ks] eqn:E; [done|]. injection H as <-. cbn [members] in Cw.
    pose proof (NoDup_remove_perm who (members s) ltac:(apply Hd) Hin) as P. rewrite E in P.
    destruct (carries_share_one ws vs _ who _ P Cw Cv) as (x & Hx & Hx'). by exists x.
  - unfold commit_change in H. case_decide; [|done]. injection H as <-. by eapply carries_share.
Qed.

Lemma consecutive_configurations_share_witness :
  exists s s', rtc change (membership_init [str "a"; str "b"; str "c"]) s /\ change s s' /\
    agree {[ str "b"; str "c"; str "d" ]} s = true /\ agree {[ str "d"; str "e" ]} s' = true /\
    exists m, m ∈ ({[ str "b"; str "c"; str "d" ]} : gset bytes) /\ m ∈ ({[ str "d"; str "e" ]} : gset bytes).
Proof.
  set (s := mkMembership (str "joint") [str "a"; str "b"; str "c"] [str "a"; str "b"; str "c"]
              [str "c"; str "d"; str "e"]).
  set (s' := mkMembership (str "new") [str "c"; str "d"; str "e"] [str "a"; str "b"; str "c"]
              [str "c"; str "d"; str "e"]).
  assert (NoDup [str "a"; str "b"; str "c"]) as Hn by (apply (bool_decide_eq_true_1 (NoDup _)); vm_compute; reflexivity).
  assert (NoDup [str "c"; str "d"; str "e"]) as Hn' by (apply (bool_decide_eq_true_1 (NoDup _)); vm_compute; reflexivity).
  assert (rtc change (membership_init [str "a"; str "b"; str "c"]) s) as Hs.
  { apply rtc_once. by apply (M_joint [str "c"; str "d"; str "e"]). }
  assert (change s s') as Hc by by apply M_commit_joint.
  assert (agree {[ str "b"; str "c"; str "d" ]} s = true) as Hv by (vm_compute; reflexivity).
  assert (agree {[ str "d"; str "e" ]} s' = true) as Hw by (vm_compute; reflexivity).
  exists s, s'. split; [exact Hs|]. split; [exact Hc|]. split; [exact Hv|]. split; [exact Hw|].
  exact (consecutive_configurations_share _ s s' _ _ Hn Hs (or_intror Hc) Hv Hw).
Defined.

(** A name given twice votes twice: [b] alone decides, [b] is removed, [a] decides. *)
Example a_name_given_twice :
  let s := membership_init [str "a"; str "b"; str "b"] in
  agree {[ str "b" ]} s = true /\
  exists s', remove_member (str "b") s = inr s' /\ agree {[ str "a" ]} s' = true.
Proof. split; [vm_compute; reflexivity|]. eexists. split; vm_compute; reflexivity. Qed.
