(* ===== verification/Stage.v ===== *)
(** * Seeded stages: the tester's own model against a program

  The algorithm stages of the tester ([disttest/src/stages]) end in a long seeded
  run: the tester draws a conversation from its generator, works out with a model
  of its own what every answer has to hold, then sends the commands and compares.
  A script is that conversation, drawn from a list of choices in the place of the
  generator; [passes] says that a topic of the reference programs gives every
  answer the script wants. *)

From S2P Require Import Prelude Text Topic.

(** One round of the script: the commands sent, and what the answers have to hold. *)
Record Entry : Type := mkEntry {
  commands : list (bytes * list bytes);
  wants : list (list Value -> Prop);
}.

(** Field [f] of answer [i] is [v]. *)
Definition field (i : nat) (f : bytes) (v : Value) (answers : list Value) : Prop :=
  answers !! i ≫= get f = Some v.

Section stage.
Context {S : Type} (step : bytes -> list bytes -> S -> Value * S).

Fixpoint ask (s : S) (cs : list (bytes * list bytes)) : list Value * S :=
  match cs with
  | [] => ([], s)
  | c :: cs =>
      let '(a, s) := step c.1 c.2 s in
      let '(answers, s) := ask s cs in (a :: answers, s)
  end.

Fixpoint passes (s : S) (script : list Entry) : Prop :=
  match script with
  | [] => True
  | e :: script =>
      let '(answers, s) := ask s (commands e) in
      Forall (fun want => want answers) (wants e) /\ passes s script
  end.
End stage.

(** [random_range(0..n)], the draw being any number. *)
Definition pick (r n : Z) : Z := r mod n.

(** A script drawn from choices: each choice adds one round, or none, and moves
  the tester's model; [finish] adds what is asked at the end. *)
Fixpoint draw {M C} (turn : M -> C -> option Entry * M) (finish : M -> list Entry) (m : M) (cs : list C)
    : list Entry :=
  match cs with
  | [] => finish m
  | c :: cs =>
      match turn m c with
      | (Some e, m) => e :: draw turn finish m cs
      | (None, m) => draw turn finish m cs
      end
  end.

(** Rounds a script may have, for the numbers in it to stay within [i64]; the
  stages have at most eighty. *)
Definition max_rounds : Z := 2 ^ 60.

(** The round [e] is answered as wanted from [s], into a state related by [P]. *)
Definition answered {S} (step : bytes -> list bytes -> S -> Value * S) (e : option Entry) (s : S)
    (P : S -> Prop) : Prop :=
  match e with
  | Some e => let '(answers, s) := ask step s (commands e) in
      Forall (fun want => want answers) (wants e) /\ P s
  | None => P s
  end.

(** A simulation carries a whole script: the relation may depend on how many
  choices have been made. *)
Lemma passes_draw {S M C} step (turn : M -> C -> option Entry * M) (finish : M -> list Entry)
    (R : nat -> M -> S -> Prop) (valid : C -> Prop) :
  (forall i m s c, Z.of_nat i < max_rounds -> R i m s -> valid c ->
     answered step (turn m c).1 s (R (i + 1)%nat (turn m c).2)) ->
  (forall i m s, R i m s -> passes step s (finish m)) ->
  forall cs m s, R 0%nat m s -> Forall valid cs -> Z.of_nat (length cs) <= max_rounds ->
    passes step s (draw turn finish m cs).
Proof.
  intros Hstep Hfin cs m s. change (length cs) with (0 + length cs)%nat. generalize 0%nat. revert m s.
  induction cs as [|c cs IH]; intros m s i HR Hv Hl; [by eapply Hfin|].
  apply Forall_cons in Hv as [Hc Hv]. cbn [length] in Hl. cbn [draw].
  specialize (Hstep i m s c ltac:(lia) HR Hc).
  destruct (turn m c) as [[e|] m']; unfold answered in Hstep; cbn [fst snd] in Hstep.
  - cbn [passes]. destruct (ask step s (commands e)) as [answers s']. destruct Hstep as [Hw HR'].
    split; [done|]. apply (IH m' s' (i + 1)%nat); [done|done|lia].
  - apply (IH m' s (i + 1)%nat); [done|done|lia].
Qed.

Definition no_more {M} (m : M) : list Entry := [].

(** The command that starts the conversation; nothing of its answer is compared. *)
Definition started (command : bytes) (args : list bytes) (script : list Entry) : list Entry :=
  mkEntry [(command, args)] [] :: script.

Lemma passes_started {S} step (s : S) command args script :
  passes step (step command args s).2 script -> passes step s (started command args script).
Proof. intros Hp. cbn. destruct (step command args s) as [a s']. split; [constructor|done]. Qed.

(** ** Reading arguments that were printed *)

Section printed.
Context `{JsonText}.

Lemma word_at args i w : args !! i = Some w -> word args i = Ok w.
Proof. unfold word. by intros ->. Qed.

Lemma int_at args i z : args !! i = Some (dec_signed z) -> in_s 64 z -> int args i = Ok z.
Proof. intros Ha Hz. unfold int. rewrite (word_at _ _ _ Ha). cbn. by rewrite parse_i64_dec. Qed.

Definition bool_text (b : bool) : bytes := if b then str "true" else str "false".

Lemma flag_at args i b :
  args !! i = Some (bool_text b) -> flag args i (str "true") (str "false") = Ok b.
Proof. intros Ha. unfold flag. rewrite (word_at _ _ _ Ha). by destruct b. Qed.
End printed.

(** Find the branch of a topic's [step] that handles a command. *)
Tactic Notation "dispatch" reference(step) :=
  unfold step; repeat first [rewrite decide_True by done | rewrite decide_False by done].

Lemma in_s64 z : - 2 ^ 63 <= z < 2 ^ 63 -> in_s 64 z.
Proof. unfold in_s. cbn. lia. Qed.

(** Read the printed arguments of a command. *)
Ltac read_args :=
  repeat first
    [ erewrite int_at; [|reflexivity|first [done|apply in_s64; lia]]
    | erewrite word_at; [|reflexivity]
    | erewrite flag_at; [|reflexivity]
    | progress cbn [answer] ].

(** ** Lists on the command line

  The stages print lists of numbers and of names as compact JSON; that the JSON
  parser reads them back is the law [JsonLists] of the parser, which a small
  parser of such lists satisfies. *)

(** [entries_arg] and [terms_arg] of the stages, and [members_arg]. *)
Definition entries_arg (entries : list Z) : bytes :=
  [x5b] ++ join [x2c] (map dec_signed entries) ++ [x5d].
Definition members_arg (members : list bytes) : bytes :=
  [x5b] ++ join [x2c] (map (fun m => [x22] ++ m ++ [x22]) members) ++ [x5d].

(** Letters and digits: nothing JSON escapes. *)
Definition plain_byte (b : byte) : bool :=
  ((48 <=? b2z b) && (b2z b <=? 57)) || ((97 <=? b2z b) && (b2z b <=? 122)).
Definition plain (w : bytes) : bool := forallb plain_byte w.

Class JsonLists `{JsonText} : Prop := {
  ints_parse l : Forall (in_s 64) l -> from_str (entries_arg l) = Ok (VArray (map VInt l));
  words_parse ws : Forall (fun w => plain w = true) ws ->
    from_str (members_arg ws) = Ok (VArray (map VString ws));
}.

Section lists.
Context `{JsonLists}.

Lemma as_i64_fits z : in_s 64 z -> as_i64 (VInt z) = Some z.
Proof.
  intros Hz. assert (fits_i64 z = true) as Hf.
  { destruct Hz. unfold fits_i64. apply andb_true_iff. rewrite Z.leb_le, Z.ltb_lt. done. }
  cbn. by rewrite Hf.
Qed.

Lemma list_at {A B} (f : Value -> option A) (mk : B -> Value) (un : B -> A) what args i l w :
  args !! i = Some w -> from_str w = Ok (VArray (map mk l)) ->
  Forall (fun b => f (mk b) = Some (un b)) l -> list_arg f what args i = Ok (map un l).
Proof.
  intros Ha Hw Hl. unfold list_arg, json_arg. rewrite (word_at _ _ _ Ha). cbn [mbind result_bind].
  rewrite Hw. cbn [map_err mbind result_bind as_array]. apply try_map_Forall2.
  clear Hw. induction Hl as [|b l Hb Hl IH]; cbn [map]; [by apply Forall2_nil|].
  apply Forall2_cons. split; [by rewrite Hb|exact IH].
Qed.

Lemma int_list_at args i l :
  args !! i = Some (entries_arg l) -> Forall (in_s 64) l -> int_list args i = Ok l.
Proof.
  intros Ha Hl. rewrite <- (list_fmap_id l) at 1. apply (list_at _ VInt id _ _ _ _ _ Ha).
  - by apply ints_parse.
  - apply (Forall_impl _ _ _ Hl). apply as_i64_fits.
Qed.

Lemma word_list_at args i ws :
  args !! i = Some (members_arg ws) -> Forall (fun w => plain w = true) ws -> word_list args i = Ok ws.
Proof.
  intros Ha Hl. rewrite <- (list_fmap_id ws) at 1. apply (list_at _ VString id _ _ _ _ _ Ha).
  - by apply words_parse.
  - by apply Forall_true.
Qed.
End lists.

(** ** A parser that satisfies the law

  It reads arrays of numbers and of plain strings, and nothing else. *)

Fixpoint split_commas (bs : bytes) : list bytes :=
  match bs with
  | [] => [[]]
  | b :: bs =>
      if decide (b = x2c) then [] :: split_commas bs
      else match split_commas bs with
           | [] => [[b]]
           | w :: ws => (b :: w) :: ws
           end
  end.

Definition read_item (item : bytes) : Result bytes Value :=
  match item with
  | x22 :: rest => Ok (VString (removelast rest))
  | _ => ok_or (VInt <$> parse_i64 item) (str "not a value")
  end.

Definition read_array (bs : bytes) : Result bytes Value :=
  match bs with
  | x5b :: x5d :: [] => Ok (VArray [])
  | x5b :: rest => VArray <$> try_map read_item (split_commas (removelast rest))
  | _ => Err (str "not an array")
  end.

Definition list_text : JsonText := {|
  from_str := read_array;
  show_value := fun _ => [];
  debug_str := fun s => s;
|}.

Definition no_comma (w : bytes) : Prop := x2c ∉ w.

Lemma split_app w bs : no_comma w -> split_commas (w ++ x2c :: bs) = w :: split_commas bs.
Proof.
  intros Hw. induction w as [|b w IH]; cbn; [done|].
  rewrite decide_False by (intros ->; apply Hw; by left). rewrite IH; [done|].
  intros Hc. apply Hw. by right.
Qed.

Lemma split_one w : no_comma w -> split_commas w = [w].
Proof.
  intros Hw. induction w as [|b w IH]; cbn; [done|].
  rewrite decide_False by (intros ->; apply Hw; by left). rewrite IH; [done|].
  intros Hc. apply Hw. by right.
Qed.

Lemma split_join items :
  items <> [] -> Forall no_comma items -> split_commas (join [x2c] items) = items.
Proof.
  intros Hne Hf. induction Hf as [|w items Hw Hf IH]; [done|]. cbn [join].
  destruct items as [|w' items]; [by apply split_one|]. cbn [app]. rewrite split_app by done.
  by rewrite IH.
Qed.

Lemma read_array_join items :
  items <> [] -> Forall no_comma items -> join [x2c] items <> [x5d] -> Forall (fun w => w <> []) items ->
  read_array ([x5b] ++ join [x2c] items ++ [x5d]) = VArray <$> try_map read_item items.
Proof.
  intros Hne Hc Hj Hn. unfold read_array. cbn [app].
  destruct (join [x2c] items ++ [x5d]) as [|b rest] eqn:E; [by destruct (join [x2c] items)|].
  assert (rest <> []) as Hr.
  { intros ->. destruct (join [x2c] items) as [|c l] eqn:Ej.
    - destruct items as [|w [|? ?]]; [done| |].
      + apply Forall_cons in Hn as [Hn _]. by cbn in Ej.
      + cbn in Ej. by destruct w.
    - injection E as _ E. by destruct l. }
  assert (removelast (b :: rest) = join [x2c] items) as Hl by (rewrite <- E; apply removelast_last).
  transitivity (VArray <$> try_map read_item (split_commas (removelast (b :: rest)))).
  - destruct rest; [done|]. by destruct b.
  - by rewrite Hl, split_join.
Qed.

Lemma digits_no_comma acc bs z : digits_value acc bs = Some z -> no_comma bs.
Proof.
  revert acc. induction bs as [|b bs IH]; intros acc Hd; [by intros ?%not_elem_of_nil|].
  cbn in Hd. destruct (digit_val b) as [d|] eqn:Eb; [|done]. cbn in Hd.
  intros [<-|Hin]%elem_of_cons; [done|]. by eapply IH.
Qed.

Lemma dec_signed_no_comma z : no_comma (dec_signed z).
Proof.
  unfold dec_signed. destruct (Z.ltb_spec z 0).
  - intros [?|Hin]%elem_of_cons; [done|]. revert Hin. apply (digits_no_comma 0 _ (- z)).
    apply digits_value_dec. lia.
  - apply (digits_no_comma 0 _ z). by apply digits_value_dec.
Qed.

Lemma dec_signed_head z : exists b rest, dec_signed z = b :: rest /\ b <> x22 /\ b <> x5d.
Proof.
  unfold dec_signed. destruct (Z.ltb_spec z 0); [by eexists _, _|].
  destruct (dec_head z) as (d & rest & Hd & ->); [done|]. eexists _, _. split; [done|].
  split; intros E; apply (f_equal digit_val) in E; rewrite digit_char_dec in E by done; done.
Qed.

Lemma read_item_int z : in_s 64 z -> read_item (dec_signed z) = Ok (VInt z).
Proof.
  intros Hz. pose proof (parse_i64_dec z Hz) as Hp. destruct (dec_signed_head z) as (b & rest & E & Hb & _).
  rewrite E in *. unfold read_item. rewrite Hp. by destruct b.
Qed.

Lemma read_item_word w : read_item ([x22] ++ w ++ [x22]) = Ok (VString w).
Proof. cbn [app read_item]. by rewrite removelast_last. Qed.

Lemma plain_no_comma w : plain w = true -> no_comma w.
Proof.
  intros Hp Hin. unfold plain in Hp. rewrite forallb_forall in Hp.
  apply list_elem_of_In in Hin. by specialize (Hp _ Hin).
Qed.

Lemma join_head sep b w items : exists rest, join sep ((b :: w) :: items) = b :: rest.
Proof. destruct items; cbn [join app]; eauto. Qed.

#[export] Instance list_text_lists : @JsonLists list_text.
Proof.
  split.
  - intros l Hl. destruct l as [|z l]; [done|]. unfold entries_arg. cbn [from_str list_text].
    rewrite read_array_join.
    + assert (try_map read_item (map dec_signed (z :: l)) = Ok (map VInt (z :: l))) as ->; [|done].
      apply try_map_Forall2. clear -Hl. induction Hl as [|x l0 Hx Hl IH]; cbn [map]; [by apply Forall2_nil|].
      apply Forall2_cons. split; [by apply read_item_int|done].
    + done.
    + apply Forall_forall. intros w (x & -> & _)%list_elem_of_fmap. apply dec_signed_no_comma.
    + cbn [map]. destruct (dec_signed_head z) as (b & rest & -> & _ & Hb).
      destruct (join_head [x2c] b rest (map dec_signed l)) as [r ->]. congruence.
    + apply Forall_forall. intros w (x & -> & _)%list_elem_of_fmap.
      by destruct (dec_signed_head x) as (b & rest & -> & _).
  - intros ws Hws. destruct ws as [|w ws]; [done|]. unfold members_arg. cbn [from_str list_text].
    rewrite read_array_join.
    + assert (try_map read_item (map (fun m => [x22] ++ m ++ [x22]) (w :: ws)) = Ok (map VString (w :: ws)))
        as ->; [|done].
      apply try_map_Forall2. clear Hws. induction (w :: ws) as [|x l0 IH]; cbn [map]; [by apply Forall2_nil|].
      apply Forall2_cons. split; [by apply read_item_word|done].
    + done.
    + apply Forall_forall. intros v (x & -> & Hx)%list_elem_of_fmap.
      rewrite Forall_forall in Hws. pose proof (plain_no_comma x (Hws x Hx)) as Hn.
      intros Hin. rewrite !elem_of_app, !list_elem_of_singleton in Hin. naive_solver.
    + cbn [map app]. destruct (join_head [x2c] x22 (w ++ [x22]) (map (fun m => x22 :: m ++ [x22]) ws)) as [r Hr].
      change (join [x2c] ((x22 :: w ++ [x22]) :: map (fun m => x22 :: m ++ [x22]) ws) <> [x5d]).
      rewrite Hr. congruence.
    + apply Forall_forall. by intros v (x & -> & Hx)%list_elem_of_fmap.
Qed.
