(* ===== verification/RaftStages.v ===== *)
(** * The Raft stages pass ([s56] to [s60] of [disttest/src/stages])

  Each stage's own model, its seeded conversation, and the theorem that the
  reference topics of [Raft] give every answer it wants, whatever the generator
  draws. *)

From S2P Require Import Prelude Text OrdMap Topic Raft Stage.

(** ** Stage 56: leader election *)

Module S56.

Record Model : Type := mkModel {
  members : nat;
  term : Z;
  role : bytes;
  voted_for : option bytes;
  granters : gset bytes;
  log : list Z;
}.

Definition new (members : nat) : Model := mkModel members 0 (str "follower") None ∅ [].

Definition majority (m : Model) : nat := members m / 2 + 1.
Definition last_index (m : Model) : Z := zlen (log m).
Definition last_term (m : Model) : Z := default 0 (last (log m)).

Definition step_down (t : Z) (m : Model) : Model :=
  mkModel (members m) t (str "follower") None ∅ (log m).

Definition timeout (m : Model) : Model :=
  if decide (role m = str "leader") then m
  else mkModel (members m) (wrap_s 64 (term m + 1)) (str "candidate") (Some self) {[ self ]} (log m).

Definition request_vote (t : Z) (candidate : bytes) (li lt : Z) (m : Model) : Z * bool * Model :=
  if t <? term m then (term m, false, m)
  else
    let m := if term m <? t then step_down t m else m in
    let free := match voted_for m with None => true | Some w => bool_decide (w = candidate) end in
    let current := (last_term m <? lt) || ((lt =? last_term m) && (last_index m <=? li)) in
    if free && current
    then (term m, true, mkModel (members m) (term m) (role m) (Some candidate) (granters m) (log m))
    else (term m, false, m).

Definition vote_response (t : Z) (voter : bytes) (granted : bool) (m : Model) : Model :=
  if term m <? t then step_down t m
  else if (t =? term m) && bool_decide (role m = str "candidate") && granted then
    let gs := {[ voter ]} ∪ granters m in
    mkModel (members m) (term m)
      (if decide (majority m <= size gs)%nat then str "leader" else role m) (voted_for m) gs (log m)
  else m.

Definition append_entries (t : Z) (m : Model) : Z * bool * Model :=
  if t <? term m then (term m, false, m)
  else
    let m := if term m <? t then step_down t m
             else mkModel (members m) (term m) (str "follower") (voted_for m) (granters m) (log m) in
    (term m, true, m).

Definition log_append (t : Z) (m : Model) : Model :=
  mkModel (members m) (term m) (role m) (voted_for m) (granters m) (log m ++ [t]).

(** What the generator draws for one round: the numbers are offsets where the
  script adds them to the model's.  The two positions of a vote request, drawn
  near the end of the log, may here be any. *)
Inductive Choice : Type :=
| CLogAppend (k : Z)
| CTimeout
| CRequestVote (d li lt : Z) (who : bytes)
| CVoteResponse (d : Z) (granted : bool) (who : bytes)
| CAppendEntries (d : Z) (who : bytes).

Definition valid (c : Choice) : Prop :=
  match c with
  | CLogAppend k => 0 <= k < 2
  | CTimeout => True
  | CRequestVote d li lt _ => -1 <= d < 3 /\ in_s 64 li /\ in_s 64 lt
  | CVoteResponse d _ _ => -1 <= d < 2
  | CAppendEntries d _ => -1 <= d < 2
  end.

Definition command (m : Model) (c : Choice) : bytes * list bytes :=
  match c with
  | CLogAppend k => (str "log-append", [dec_signed (Z.max (last_term m + k) 1)])
  | CTimeout => (str "timeout", [])
  | CRequestVote d li lt who =>
      (str "request-vote", [dec_signed (term m + d); who; dec_signed li; dec_signed lt])
  | CVoteResponse d granted who =>
      (str "vote-response", [dec_signed (term m + d); who; bool_text granted])
  | CAppendEntries d who => (str "append-entries", [dec_signed (term m + d); who])
  end.

Definition apply (m : Model) (c : Choice) : Model :=
  match c with
  | CLogAppend k => log_append (Z.max (last_term m + k) 1) m
  | CTimeout => timeout m
  | CRequestVote d li lt who => (request_vote (term m + d) who li lt m).2
  | CVoteResponse d granted who => vote_response (term m + d) who granted m
  | CAppendEntries d who => (append_entries (term m + d) m).2
  end.

(** The command, then [state], of which three fields are compared. *)
Definition turn (m : Model) (c : Choice) : option Entry * Model :=
  let m' := apply m c in
  (Some (mkEntry [command m c; (str "state", [])]
     [field 1 (str "state") (VString (role m')); field 1 (str "term") (VInt (term m'));
      field 1 (str "votes") (VInt (Z.of_nat (size (granters m'))))]), m').

Definition script (cs : list Choice) : list Entry :=
  started (str "init") [dec_signed 5] (draw turn no_more (new 5) cs).

(** The model next to the topic: the same state, and terms that have grown by at
  most two a round. *)
Record models (i : nat) (m : Model) (s : Election) : Prop := {
  r_members : members m = el_members s;
  r_term : term m = el_term s;
  r_role : role m = Role_as_str (Raft.role s);
  r_voted : voted_for m = Raft.voted_for s;
  r_granters : granters m = Raft.granters s;
  r_log : log m = el_log s;
  r_bound : 0 <= term m <= 2 * Z.of_nat i;
  r_last : 0 <= last_term m <= Z.of_nat i + 1;
}.

Lemma Role_as_str_inj r r' : Role_as_str r = Role_as_str r' -> r = r'.
Proof. by destruct r, r'. Qed.

Lemma last_term_app l t : default 0 (last (l ++ [t])) = t.
Proof. by rewrite last_snoc. Qed.

Section pass.
Context `{JsonText}.

Lemma models_step_down i t m s :
  models i m s -> term m < t <= term m + 2 ->
  models (i + 1) (step_down t m) (Raft.step_down t s).
Proof. intros [] Ht. split; cbn in *; try done; unfold last_term in *; cbn in *; lia. Qed.

Lemma models_later i m s : models i m s -> models (i + 1) m s.
Proof. intros []. split; try done; lia. Qed.

Lemma request_ok i m s d li lt who :
  models i m s -> -1 <= d < 3 ->
  models (i + 1) (request_vote (term m + d) who li lt m).2 (Raft.request_vote (term m + d) who li lt s).2.
Proof.
  intros Hm Hd. unfold request_vote, Raft.request_vote. rewrite <- (r_term _ _ _ Hm).
  destruct (Z.ltb_spec (term m + d) (term m)); [by apply models_later|].
  set (m1 := if term m <? term m + d then _ else m). set (s1 := if term m <? term m + d then _ else s).
  assert (models (i + 1) m1 s1) as H1.
  { unfold m1, s1. destruct (Z.ltb_spec (term m) (term m + d));
      [apply models_step_down; [done|lia]|by apply models_later]. }
  clearbody m1 s1. clear Hm. rewrite <- (r_voted _ _ _ H1).
  assert (up_to_date li lt s1 =
    (last_term m1 <? lt) || ((lt =? last_term m1) && (last_index m1 <=? li))) as ->.
  { unfold up_to_date, el_last_term, el_last_index, last_term, last_index. rewrite <- (r_log _ _ _ H1).
    set (x := default 0 (last (log m1))). rewrite Z.eqb_compare, Z.ltb_compare, (Z.compare_antisym lt x).
    by destruct (lt ?= x). }
  destruct (_ && _); [|done]. destruct H1. by split.
Qed.

Lemma response_ok i m s d granted who :
  models i m s -> -1 <= d < 2 ->
  models (i + 1) (vote_response (term m + d) who granted m) (Raft.vote_response (term m + d) who granted s).
Proof.
  intros Hm Hd. unfold vote_response, Raft.vote_response. rewrite <- (r_term _ _ _ Hm).
  destruct (Z.ltb_spec (term m) (term m + d)); [apply models_step_down; [done|lia]|].
  assert (bool_decide (role m = str "candidate") = bool_decide (Raft.role s = Candidate)) as ->.
  { apply bool_decide_ext. rewrite (r_role _ _ _ Hm). split; [|by intros ->].
    by intros ?%(Role_as_str_inj _ Candidate). }
  assert ((term m + d =? term m) = bool_decide (term m + d = term m)) as ->.
  { case_bool_decide; [by apply Z.eqb_eq|by apply Z.eqb_neq]. }
  destruct (_ && _ && granted); [|by apply models_later].
  apply models_later in Hm. destruct Hm as [Hmem Ht Hr Hv Hg Hl Hb Hla].
  unfold majority, el_majority. rewrite Hmem, Hg. rewrite Ht in Hb.
  case_decide as Hq; [rewrite bool_decide_true by done|rewrite bool_decide_false by done];
    by split; cbn; rewrite ?Hg, ?Ht.
Qed.

Lemma append56_ok i m s d who :
  models i m s -> -1 <= d < 2 ->
  models (i + 1) (append_entries (term m + d) m).2 (Raft.append_entries (term m + d) who s).2.
Proof.
  intros Hm Hd. unfold append_entries, Raft.append_entries. rewrite <- (r_term _ _ _ Hm).
  destruct (Z.ltb_spec (term m + d) (term m)); [by apply models_later|].
  destruct (Z.ltb_spec (term m) (term m + d)).
  - pose proof (models_step_down i (term m + d) m s Hm ltac:(lia)) as []. by split.
  - apply models_later in Hm as []. by split.
Qed.

Lemma timeout_ok i m s :
  Z.of_nat i < max_rounds -> models i m s -> models (i + 1) (timeout m) (Raft.timeout s).
Proof.
  unfold max_rounds. intros Hi Hm. unfold timeout, Raft.timeout. rewrite (r_role _ _ _ Hm), <- (r_term _ _ _ Hm).
  destruct (decide (Raft.role s = Leader)) as [E|E].
  - rewrite E, decide_True by done. by apply models_later.
  - rewrite decide_False by (by intros ?%(Role_as_str_inj _ Leader)).
    destruct Hm as [Hmem Ht Hr Hv Hg Hl Hb Hla].
    assert (wrap_s 64 (term m + 1) = term m + 1) as E1 by (apply wrap_s_small; [lia|apply in_s64; lia]).
    split; cbn; try done; [rewrite E1; lia|]. unfold last_term in *. cbn. lia.
Qed.

Lemma apply56_ok i m s c :
  Z.of_nat i < max_rounds -> models i m s -> valid c ->
  models (i + 1) (apply m c) (Election_step (command m c).1 (command m c).2 s).2.
Proof.
  unfold max_rounds. intros Hi Hm Hc. pose proof (r_bound _ _ _ Hm) as Hb. pose proof (r_last _ _ _ Hm) as Hla.
  destruct c as [k| |d li lt who|d granted who|d who]; cbn [command apply fst snd valid] in *.
  - dispatch Election_step.
    read_args. cbn [snd].
    destruct Hm as [Hmem Ht Hr Hv Hg Hl Hb' Hla']. split; cbn; try done; [by rewrite Hl|lia|].
    unfold last_term. cbn [log]. rewrite last_term_app. fold (last_term m). lia.
  - dispatch Election_step. by apply timeout_ok.
  - destruct Hc as (Hd & Hli & Hlt). dispatch Election_step.
    read_args.
    pose proof (request_ok i m s d li lt who Hm Hd) as Hr.
    by destruct (Raft.request_vote (term m + d) who li lt s).
  - dispatch Election_step. read_args.
    by apply response_ok.
  - dispatch Election_step. read_args.
    pose proof (append56_ok i m s d who Hm Hc) as Hr.
    by destruct (Raft.append_entries (term m + d) who s).
Qed.

Lemma turn56_ok i m s c :
  Z.of_nat i < max_rounds -> models i m s -> valid c ->
  answered Election_step (turn m c).1 s (models (i + 1) (turn m c).2).
Proof.
  intros Hi Hm Hc. pose proof (apply56_ok i m s c Hi Hm Hc) as Ha.
  unfold turn, answered. cbn [commands ask fst snd].
  destruct (Election_step _ _ s) as [v s']. cbn [snd] in Ha.
  assert (Election_step (str "state") [] s' = (el_state s', s')) as -> by by dispatch Election_step.
  split; [|done]. destruct Ha as [Hmem Ht Hr Hv Hg Hl _ _]. cbn [wants].
  repeat constructor; unfold field; cbn; by rewrite ?Hr, ?Ht, ?Hg.
Qed.

Lemma passes56_stage s (cs : list Choice) :
  Forall valid cs -> Z.of_nat (length cs) <= max_rounds -> passes Election_step s (script cs).
Proof.
  intros Hv Hl. apply passes_started. dispatch Election_step. unfold uint. read_args.
  apply (passes_draw _ _ _ models valid); [exact turn56_ok|done| |done|done]. by split.
Qed.
End pass.
End S56.

(** ** Stage 57: log replication *)

Module S57.

Record Model : Type := mkModel {
  term : Z;
  log : list Z;
  commit_index : Z;
}.

(** What one [append] must answer. *)
Record Applied : Type := mkApplied {
  success : bool;
  a_conflict_index : Z;
  a_last_index : Z;
  a_commit_index : Z;
}.

Definition new (terms : list Z) : Model := mkModel (default 0 (last terms)) terms 0.

Definition last_index (m : Model) : Z := zlen (log m).
Definition term_at (m : Model) (index : Z) : option Z := log_at (log m) index.

Fixpoint run_back (fuel : nat) (m : Model) (t first : Z) : Z :=
  match fuel with
  | O => first
  | S fuel =>
      if (1 <? first) && bool_decide (term_at m (first - 1) = Some t)
      then run_back fuel m t (first - 1) else first
  end.

Definition run_start (m : Model) (index : Z) : Z :=
  match term_at m index with
  | None => index
  | Some t => run_back (Z.to_nat index) m t index
  end.

Definition answer (m : Model) (success : bool) (conflict_index : Z) : Applied :=
  mkApplied success conflict_index (last_index m) (commit_index m).

Definition append (t prev_index prev_term leader_commit : Z) (entries : list Z) (m : Model)
    : Applied * Model :=
  if t <? term m then (answer m false 0, m)
  else
    let m := mkModel t (log m) (commit_index m) in
    if last_index m <? prev_index then (answer m false (last_index m + 1), m)
    else if (1 <=? prev_index) && negb (bool_decide (term_at m prev_index = Some prev_term))
    then (answer m false (run_start m prev_index), m)
    else
      let log := put_entries (log m) (prev_index + 1) entries in
      let last_new := prev_index + zlen entries in
      let commit :=
        if commit_index m <? leader_commit
        then Z.max (commit_index m) (Z.min leader_commit last_new) else commit_index m in
      let m := mkModel t log commit in (answer m true 0, m).

(** What is drawn for one round: the offset of the term, the draws of the two
  indices, another term when the entry's own is not used, and the entries. *)
Record Choice : Type := mkChoice {
  c_term : Z;
  c_prev : Z;
  c_guess : option Z;
  c_commit : Z;
  c_entries : list Z;
}.

Definition valid (c : Choice) : Prop :=
  -1 <= c_term c < 3 /\ (forall g, c_guess c = Some g -> 0 <= g < 5) /\
  (length (c_entries c) < 3)%nat /\ Forall (fun e => 1 <= e < 5) (c_entries c).

Definition turn (m : Model) (c : Choice) : option Entry * Model :=
  let t := Z.max (term m + c_term c) 0 in
  let prev_index := pick (c_prev c) (last_index m + 3) in
  let prev_term :=
    match c_guess c with None => default 0 (term_at m prev_index) | Some g => g end in
  let leader_commit := pick (c_commit c) (last_index m + 3) in
  let '(applied, m) := append t prev_index prev_term leader_commit (c_entries c) m in
  (Some (mkEntry
     [(str "append", [dec_signed t; dec_signed prev_index; dec_signed prev_term;
                      dec_signed leader_commit; entries_arg (c_entries c)]); (str "log", [])]
     [field 0 (str "success") (VBool (success applied));
      field 0 (str "conflict_index") (VInt (a_conflict_index applied));
      field 0 (str "last_index") (VInt (a_last_index applied));
      field 0 (str "commit_index") (VInt (a_commit_index applied));
      field 1 (str "terms") (VArray (map VInt (log m)))]), m).

Definition seed_terms : list Z := [1; 1; 2; 2; 3].

Definition script (cs : list Choice) : list Entry :=
  started (str "init") [entries_arg seed_terms] (draw turn no_more (new seed_terms) cs).

Definition to_model (s : LogReplication) : Model := mkModel (lg_term s) (lg_log s) (lg_commit s).

(** The state is the model's; terms and the log grow by at most two a round. *)
Record models (i : nat) (m : Model) (s : LogReplication) : Prop := {
  r_same : m = to_model s;
  r_term : 0 <= lg_term s <= 2 * Z.of_nat i + 3;
  r_len : zlen (lg_log s) <= 2 * Z.of_nat i + 5;
  r_log : Forall (fun e => 1 <= e < 5) (lg_log s);
}.

Lemma run_back_same fuel s t first :
  Raft.run_back fuel s t first = run_back fuel (to_model s) t first.
Proof. revert first. induction fuel as [|fuel IH]; intros first; cbn; [done|]. by rewrite IH. Qed.

Lemma append_same t prev_index prev_term leader_commit entries s :
  let '(ok, conflict, s') := Raft.append t prev_index prev_term leader_commit entries s in
  append t prev_index prev_term leader_commit entries (to_model s) =
    (answer (to_model s') ok conflict, to_model s').
Proof.
  unfold append, Raft.append. change (term (to_model s)) with (lg_term s).
  destruct (t <? lg_term s); [done|].
  change (last_index (mkModel t (log (to_model s)) (commit_index (to_model s))))
    with (lg_last_index (mkLog t (lg_log s) (lg_commit s))).
  destruct (_ <? prev_index); [done|].
  change (term_at (mkModel t (log (to_model s)) (commit_index (to_model s))))
    with (lg_term_at (mkLog t (lg_log s) (lg_commit s))).
  destruct (_ && _); [|done].
  change (mkModel t (log (to_model s)) (commit_index (to_model s)))
    with (to_model (mkLog t (lg_log s) (lg_commit s))).
  unfold run_start, Raft.run_start.
  change (term_at (to_model (mkLog t (lg_log s) (lg_commit s))))
    with (lg_term_at (mkLog t (lg_log s) (lg_commit s))).
  destruct (lg_term_at _ prev_index); [|done]. by rewrite run_back_same.
Qed.

Lemma put_entry_grows log idx e :
  Forall (fun e => 1 <= e < 5) log -> 1 <= e < 5 ->
  Forall (fun e => 1 <= e < 5) (put_entry log idx e) /\ zlen (put_entry log idx e) <= zlen log + 1.
Proof.
  intros Hl He. unfold put_entry. repeat case_match.
  - split; [done|lia].
  - split; [apply Forall_app; split; [by apply Forall_take|by constructor]|].
    unfold zlen. rewrite length_app, length_take. cbn. lia.
  - split; [apply Forall_app; split; [done|by constructor]|].
    unfold zlen. rewrite length_app. cbn. lia.
Qed.

Lemma put_entries_grows entries log idx :
  Forall (fun e => 1 <= e < 5) log -> Forall (fun e => 1 <= e < 5) entries ->
  Forall (fun e => 1 <= e < 5) (put_entries log idx entries) /\
  zlen (put_entries log idx entries) <= zlen log + zlen entries.
Proof.
  intros Hl He. revert log idx Hl. induction He as [|e es He Hes IH]; intros log idx Hl; cbn [put_entries].
  - split; [done|]. rewrite zlen_nil. lia.
  - destruct (put_entry_grows log idx e Hl He) as [H1 H2]. destruct (IH _ (idx + 1) H1) as [H3 H4].
    split; [done|]. rewrite zlen_cons. lia.
Qed.

Lemma append_models i t prev_index prev_term leader_commit entries s :
  models i (to_model s) s -> 0 <= t <= lg_term s + 2 -> (length entries < 3)%nat ->
  Forall (fun e => 1 <= e < 5) entries ->
  let s' := (Raft.append t prev_index prev_term leader_commit entries s).2 in
  models (i + 1) (to_model s') s'.
Proof.
  intros [_ Ht Hn Hl] Ht' Hc He. cbn zeta. unfold Raft.append.
  destruct (t <? lg_term s); [split; cbn [snd]; try done; lia|].
  destruct (_ <? prev_index); [split; cbn; try done; lia|].
  destruct (_ && _); [split; cbn; try done; lia|].
  destruct (put_entries_grows entries (lg_log s) (prev_index + 1) Hl He) as [H1 H2].
  unfold zlen in H2 at 3. split; cbn; try done; lia.
Qed.

Section pass.
Context `{JsonLists}.

Lemma log_at_small i s index :
  models i (to_model s) s -> in_s 64 (default 0 (log_at (lg_log s) index)).
Proof.
  intros Hm. unfold log_at. destruct (_ && _); [|done].
  destruct (lg_log s !! _) as [e|] eqn:E; [|done]. pose proof (r_log _ _ _ Hm) as Hl.
  apply list_elem_of_lookup_2 in E. rewrite Forall_forall in Hl. specialize (Hl _ E).
  apply in_s64. cbn. lia.
Qed.

Lemma turn57_ok i m s c :
  Z.of_nat i < max_rounds -> models i m s -> valid c ->
  answered LogReplication_step (turn m c).1 s (models (i + 1) (turn m c).2).
Proof.
  intros Hi Hm (Ht & Hg & Hn & He). unfold max_rounds in Hi. pose proof (r_same _ _ _ Hm) as ->.
  pose proof Hm as [_ Hterm Hlen _]. pose proof (zlen_nonneg (lg_log s)) as Hz0.
  unfold turn. change (term (to_model s)) with (lg_term s). change (last_index (to_model s)) with (zlen (lg_log s)).
  set (t := Z.max _ 0). set (prev := pick (c_prev c) _). set (lc := pick (c_commit c) _).
  set (pt := match c_guess c with None => _ | Some g => g end).
  assert (0 <= prev < zlen (lg_log s) + 3) as Hprev by (apply Z.mod_pos_bound; lia).
  assert (0 <= lc < zlen (lg_log s) + 3) as Hlc by (apply Z.mod_pos_bound; lia).
  assert (in_s 64 pt) as Hpt.
  { unfold pt. destruct (c_guess c) as [g|]; [|by eapply log_at_small].
    specialize (Hg g eq_refl). apply in_s64. lia. }
  assert (Forall (in_s 64) (c_entries c)) as Hes.
  { apply (Forall_impl _ _ _ He). intros e ?. apply in_s64. lia. }
  pose proof (append_same t prev pt lc (c_entries c) s) as Ha.
  pose proof (append_models i t prev pt lc (c_entries c) s Hm ltac:(lia) Hn He) as Hm'.
  destruct (Raft.append t prev pt lc (c_entries c) s) as [[ok conflict] s'] eqn:E.
  rewrite Ha. unfold answered. cbn [fst snd commands ask].
  assert (LogReplication_step (str "append") [dec_signed t; dec_signed prev; dec_signed pt; dec_signed lc;
      entries_arg (c_entries c)] s = (lg_answer s' ok conflict, s')) as ->.
  { dispatch LogReplication_step. read_args. erewrite int_list_at; [|reflexivity|done]. cbn [Topic.answer].
    rewrite (proj2 (Z.ltb_ge _ _)) by lia. by rewrite E. }
  assert (exists v, LogReplication_step (str "log") [] s' = (v, s') /\
    get (str "terms") v = Some (VArray (map VInt (lg_log s')))) as (v & -> & Hv).
  { eexists. split; [by dispatch LogReplication_step|done]. }
  split; [|exact Hm']. cbn [wants]. repeat constructor. exact Hv.
Qed.

Lemma passes57_stage s (cs : list Choice) :
  Forall valid cs -> Z.of_nat (length cs) <= max_rounds -> passes LogReplication_step s (script cs).
Proof.
  intros Hv Hl. apply passes_started. dispatch LogReplication_step.
  erewrite int_list_at; [|reflexivity|by repeat constructor]. cbn [Topic.answer snd].
  apply (passes_draw _ _ _ models valid); [exact turn57_ok|done| |done|done].
  split; cbn; [done|lia|vm_compute; done|]. repeat constructor; lia.
Qed.
End pass.
End S57.

(** ** Stage 58: the commit rule *)

Module S58.

Record Model : Type := mkModel {
  members : nat;
  term : Z;
  log : list Z;
  commit_index : Z;
  match_index : gmap bytes Z;
  next_index : gmap bytes Z;
}.

Definition new (members : nat) (term : Z) (log : list Z) : Model :=
  let peers := map peer_name (seqZ 2 (Z.of_nat members - 1)) in
  mkModel members term log 0 (list_to_map (map (fun p => (p, 0)) peers))
    (list_to_map (map (fun p => (p, zlen log + 1)) peers)).

Definition majority (m : Model) : nat := members m / 2 + 1.
Definition last_index (m : Model) : Z := zlen (log m).
Definition term_at (m : Model) (index : Z) : option Z := log_at (log m) index.

Definition replicas (m : Model) (index : Z) : nat :=
  1 + length (filter (fun p => index <= p.2) (map_to_list (match_index m))).

(** The loop of [advance]. *)
Fixpoint advance_from (fuel : nat) (m : Model) (n : Z) : Z :=
  match fuel with
  | O => commit_index m
  | S fuel =>
      if commit_index m <? n then
        if bool_decide (majority m <= replicas m n)%nat && bool_decide (term_at m n = Some (term m))
        then n else advance_from fuel m (n - 1)
      else commit_index m
  end.

Definition set_commit (n : Z) (m : Model) : Model :=
  mkModel (members m) (term m) (log m) n (match_index m) (next_index m).

Definition advance (m : Model) : Model :=
  set_commit (advance_from (length (log m)) m (last_index m)) m.

Definition append (m : Model) : Model :=
  mkModel (members m) (term m) (log m ++ [term m]) (commit_index m) (match_index m) (next_index m).

Definition ack (peer : bytes) (index : Z) (m : Model) : Z * Z * Model :=
  let matched := Z.max (default 0 (match_index m !! peer)) index in
  let next := Z.max (default 1 (next_index m !! peer)) (wrap_s 64 (matched + 1)) in
  (matched, next,
   advance (mkModel (members m) (term m) (log m) (commit_index m)
     (<[peer := matched]> (match_index m)) (<[peer := next]> (next_index m)))).

Inductive Choice : Type :=
| CAppend
| CAck (peer : nat) (index : Z).

Definition peers : list bytes := [str "s2"; str "s3"; str "s4"; str "s5"].

Definition valid (c : Choice) : Prop :=
  match c with CAppend => True | CAck peer _ => (peer < length peers)%nat end.

(** [got] is at least [highest], the greatest commit index seen so far. *)
Definition at_least (i : nat) (highest : Z) (answers : list Value) : Prop :=
  exists got, field i (str "commit_index") (VInt got) answers /\ highest <= got.

(** The model, and the highest commit index so far. *)
Definition turn (mh : Model * Z) (c : Choice) : option Entry * (Model * Z) :=
  let '(m, highest) := mh in
  match c with
  | CAppend =>
      let m := append m in
      (Some (mkEntry [(str "append", []); (str "state", [])]
         [field 1 (str "commit_index") (VInt (commit_index m)); at_least 1 highest]),
       (m, Z.max highest (commit_index m)))
  | CAck k r =>
      let peer := nth k peers [] in
      let index := pick r (last_index m + 2) in
      let '(matched, next, m) := ack peer index m in
      (Some (mkEntry [(str "ack", [peer; dec_signed index])]
         [field 0 (str "match_index") (VInt matched); field 0 (str "next_index") (VInt next);
          field 0 (str "commit_index") (VInt (commit_index m)); at_least 0 highest]),
       (m, Z.max highest (commit_index m)))
  end.

Definition seed_log : list Z := [1; 1; 2; 3].

Definition script (cs : list Choice) : list Entry :=
  started (str "init") [dec_signed 5; dec_signed 3; entries_arg seed_log]
    (draw turn no_more (new 5 3 seed_log, 0) cs).

Definition to_model (s : Commitment) : Model :=
  mkModel (cm_members s) (cm_term s) (cm_log s) (Raft.commit_index s)
    (Raft.match_index s) (Raft.next_index s).

Record models (i : nat) (mh : Model * Z) (s : Commitment) : Prop := {
  r_same : mh.1 = to_model s;
  r_highest : mh.2 <= Raft.commit_index s;
  r_peers : forall p, p ∈ peers -> is_Some (Raft.match_index s !! p);
  r_len : zlen (cm_log s) <= Z.of_nat i + 4;
}.

Lemma advance_from_same fuel s n : commit_from fuel s n = advance_from fuel (to_model s) n.
Proof.
  revert n. induction fuel as [|fuel IH]; intros n; [done|]. cbn [commit_from advance_from].
  by rewrite IH.
Qed.

Lemma ack_same peer index s :
  ack peer index (to_model s) =
    ((Raft.ack peer index s).1.1, (Raft.ack peer index s).1.2, to_model (Raft.ack peer index s).2).
Proof.
  unfold ack, Raft.ack. cbn [fst snd]. do 2 f_equal. unfold advance, advance_commit.
  rewrite advance_from_same. done.
Qed.

Lemma commit_from_up fuel s n : Raft.commit_index s <= commit_from fuel s n.
Proof.
  revert n. induction fuel as [|fuel IH]; intros n; cbn; [lia|].
  destruct (Z.ltb_spec (Raft.commit_index s) n); [|lia]. destruct (may_commit s n); [lia|apply IH].
Qed.

Section pass.
Context `{JsonLists}.

Lemma append58_ok i m highest s :
  models i (m, highest) s ->
  answered Commitment_step (turn (m, highest) CAppend).1 s (models (i + 1) (turn (m, highest) CAppend).2).
Proof.
  intros [E Hh Hp Hl]. cbn [fst snd] in *. subst m. unfold turn, answered. cbn [fst snd commands ask].
  set (s' := mkCommit (cm_members s) (cm_term s) (cm_log s ++ [cm_term s]) (Raft.commit_index s)
    (Raft.match_index s) (Raft.next_index s)).
  assert (exists v, Commitment_step (str "append") [] s = (v, s')) as (v & ->)
    by (eexists; by dispatch Commitment_step).
  assert (Commitment_step (str "state") [] s' = (cm_state s', s')) as -> by by dispatch Commitment_step.
  split.
  - repeat constructor. exists (Raft.commit_index s). split; [done|lia].
  - split; [done| |done|].
    + cbn. lia.
    + cbn. unfold zlen in *. rewrite length_app. cbn. lia.
Qed.

Lemma ack_ok i m highest s k r :
  Z.of_nat i < max_rounds -> models i (m, highest) s -> (k < length peers)%nat ->
  answered Commitment_step (turn (m, highest) (CAck k r)).1 s
    (models (i + 1) (turn (m, highest) (CAck k r)).2).
Proof.
  unfold max_rounds. intros Hi [E Hh Hp Hl] Hk. cbn [fst snd] in *. subst m.
  pose proof (zlen_nonneg (cm_log s)). unfold turn. change (last_index (to_model s)) with (zlen (cm_log s)).
  set (index := pick r _). set (peer := nth k peers []).
  assert (0 <= index < zlen (cm_log s) + 2) as Hidx by (apply Z.mod_pos_bound; lia).
  assert (peer ∈ peers) as Hpeer by (apply list_elem_of_In, nth_In; done).
  clearbody index peer. rewrite ack_same. unfold answered. cbn [fst snd commands ask].
  dispatch Commitment_step. read_args. rewrite bool_decide_true by by apply Hp.
  destruct (Raft.ack peer index s) as [[matched next] s'] eqn:Ea. cbn [fst snd].
  assert (s' = (Raft.ack peer index s).2) as Hs' by by rewrite Ea.
  assert (Raft.commit_index s <= Raft.commit_index s') as Hup.
  { rewrite Hs'. unfold Raft.ack. cbn [snd]. set (s1 := mkCommit _ _ _ _ _ _).
    apply (commit_from_up (length (cm_log s)) s1). }
  split.
  - repeat constructor. exists (Raft.commit_index s'). split; [done|lia].
  - split; [done| | |].
    + cbn. lia.
    + intros p Hp'. rewrite Hs'. cbn. destruct (decide (peer = p)) as [->|Hne].
      * rewrite lookup_insert_eq. done.
      * rewrite lookup_insert_ne by done. by apply Hp.
    + rewrite Hs'. cbn. lia.
Qed.

Lemma turn58_ok i mh s c :
  Z.of_nat i < max_rounds -> models i mh s -> valid c ->
  answered Commitment_step (turn mh c).1 s (models (i + 1) (turn mh c).2).
Proof.
  intros Hi Hm Hc. destruct mh as [m highest], c as [|k r]; [by apply append58_ok|by apply ack_ok].
Qed.

Lemma passes58_stage s (cs : list Choice) :
  Forall valid cs -> Z.of_nat (length cs) <= max_rounds -> passes Commitment_step s (script cs).
Proof.
  intros Hv Hl. apply passes_started. dispatch Commitment_step. unfold uint. read_args.
  erewrite int_list_at; [|reflexivity|by repeat constructor]. cbn [answer snd].
  apply (passes_draw _ _ _ models valid); [exact turn58_ok|done| |done|done].
  split; [done|done| |vm_compute; done].
  intros p Hp. assert (Forall (fun p => is_Some (Raft.match_index (Commitment_init 5 3 seed_log) !! p)) peers) as Hf.
  { repeat constructor; vm_compute; eauto. }
  rewrite Forall_forall in Hf. by apply Hf.
Qed.
End pass.
End S58.

(** ** Stage 59: snapshots *)

Module S59.

Record Model : Type := mkModel {
  log : list Z;
  snapshot_index : Z;
  snapshot_term : Z;
  commit_index : Z;
}.

Definition new (terms : list Z) : Model := mkModel terms 0 0 0.

Definition first_index (m : Model) : Z := wrap_s 64 (snapshot_index m + 1).
Definition last_index (m : Model) : Z := wrap_s 64 (snapshot_index m + zlen (log m)).

Definition term_at (m : Model) (index : Z) : option Z :=
  if index =? snapshot_index m then Some (snapshot_term m)
  else if (first_index m <=? index) && (index <=? last_index m)
       then get_at (log m) (wrap_u 64 (index - first_index m))
       else None.

Definition commit (index : Z) (m : Model) : Model :=
  let wanted := Z.min index (last_index m) in
  if commit_index m <? wanted
  then mkModel (log m) (snapshot_index m) (snapshot_term m) wanted else m.

Definition snapshot (index : Z) (m : Model) : bool * Model :=
  if commit_index m <? index then (false, m)
  else if snapshot_index m <? index then
    let term := default (snapshot_term m) (term_at m index) in
    let n := Z.to_nat (Z.min (index - snapshot_index m) (zlen (log m))) in
    (true, mkModel (drop n (log m)) index term (commit_index m))
  else (true, m).

Definition install (index term : Z) (m : Model) : bytes * Model :=
  if index <=? commit_index m then (str "stale", m)
  else
    let matching := (first_index m <=? index) && bool_decide (term_at m index = Some term) in
    let log :=
      if matching
      then drop (Z.to_nat (Z.min (index - snapshot_index m) (zlen (log m)))) (log m)
      else [] in
    (if matching then str "retained" else str "discarded",
     mkModel log index term (Z.max (commit_index m) index)).

Inductive Choice : Type :=
| CCommit (r : Z)
| CSnapshot (r : Z)
| CInstall (r : Z) (term : Z).

Definition valid (c : Choice) : Prop :=
  match c with CInstall _ term => 1 <= term < 6 | _ => True end.

Definition apply (m : Model) (c : Choice) : (bytes * list bytes) * Model :=
  match c with
  | CCommit r =>
      let index := pick r (last_index m + 3) in
      ((str "commit", [dec_signed index]), commit index m)
  | CSnapshot r =>
      let index := pick r (last_index m + 2) in
      ((str "snapshot", [dec_signed index]), (snapshot index m).2)
  | CInstall r term =>
      let index := pick r (last_index m + 4) in
      ((str "install", [dec_signed 9; dec_signed index; dec_signed term]), (install index term m).2)
  end.

(** [first_index <= last_index + 1]: what makes a compacted log usable. *)
Definition no_gap (answers : list Value) : Prop :=
  exists first last, field 1 (str "first_index") (VInt first) answers /\
    field 1 (str "last_index") (VInt last) answers /\ first <= last + 1.

Definition turn (m : Model) (c : Choice) : option Entry * Model :=
  let '(command, m) := apply m c in
  (Some (mkEntry [command; (str "log", [])]
     [field 1 (str "first_index") (VInt (first_index m)); field 1 (str "last_index") (VInt (last_index m));
      field 1 (str "commit_index") (VInt (commit_index m));
      field 1 (str "snapshot_index") (VInt (snapshot_index m));
      field 1 (str "snapshot_term") (VInt (snapshot_term m));
      field 1 (str "terms") (VArray (map VInt (log m))); no_gap]), m).

Definition seed_terms : list Z := [1; 1; 2; 2; 3; 3; 4; 4].

Definition script (cs : list Choice) : list Entry :=
  started (str "init") [entries_arg seed_terms] (draw turn no_more (new seed_terms) cs).

Definition to_model (s : Snapshots) : Model :=
  mkModel (sn_log s) (Raft.snapshot_index s) (Raft.snapshot_term s) (sn_commit s).

Record models (i : nat) (m : Model) (s : Snapshots) : Prop := {
  r_same : m = to_model s;
  r_order : 0 <= Raft.snapshot_index s <= sn_commit s /\
    sn_commit s <= Raft.snapshot_index s + zlen (sn_log s) <= 4 * Z.of_nat i + 8;
}.

Lemma last_index_is i m s :
  Z.of_nat i < max_rounds -> models i m s ->
  sn_last_index s = Raft.snapshot_index s + zlen (sn_log s).
Proof.
  unfold max_rounds. intros Hi [_ H]. apply wrap_s_small; [lia|]. apply in_s64. lia.
Qed.

Lemma first_index_is i m s :
  Z.of_nat i < max_rounds -> models i m s -> Raft.first_index s = Raft.snapshot_index s + 1.
Proof.
  unfold max_rounds. intros Hi [_ H]. pose proof (zlen_nonneg (sn_log s)).
  apply wrap_s_small; [lia|]. apply in_s64. lia.
Qed.

Lemma install_same index term s :
  (install index term (to_model s)).2 = to_model (Raft.install index term s).2.
Proof.
  unfold install, Raft.install. change (commit_index (to_model s)) with (sn_commit s).
  destruct (index <=? sn_commit s); [done|].
  change (first_index (to_model s)) with (Raft.first_index s).
  change (term_at (to_model s)) with (sn_term_at s). rewrite andb_comm. by destruct (_ && _).
Qed.

Lemma snapshot_same index s :
  (snapshot index (to_model s)).2 = to_model (Raft.snapshot index s).2.
Proof.
  unfold snapshot, Raft.snapshot. change (commit_index (to_model s)) with (sn_commit s).
  destruct (sn_commit s <? index); [done|].
  change (snapshot_index (to_model s)) with (Raft.snapshot_index s). by destruct (_ <? index).
Qed.

Lemma commit59_same index s : commit index (to_model s) = to_model (commit_to index s).
Proof.
  unfold commit, commit_to. change (last_index (to_model s)) with (sn_last_index s).
  change (commit_index (to_model s)) with (sn_commit s). by destruct (_ <? _).
Qed.

(** What each operation does to the three indices. *)
Lemma commit_order i m s index :
  Z.of_nat i < max_rounds -> models i m s -> models (i + 1) (to_model (commit_to index s)) (commit_to index s).
Proof.
  intros Hi Hm. unfold commit_to. rewrite (last_index_is i m s) by done. destruct Hm as [_ H].
  destruct (Z.ltb_spec (sn_commit s) (Z.min index (Raft.snapshot_index s + zlen (sn_log s))));
    split; cbn [Raft.snapshot_index sn_commit sn_log]; done || lia.
Qed.

Lemma snapshot_order i m s index :
  models i m s -> models (i + 1) (to_model (Raft.snapshot index s).2) (Raft.snapshot index s).2.
Proof.
  intros [_ H]. unfold Raft.snapshot.
  destruct (Z.ltb_spec (sn_commit s) index); [split; [done|cbn [snd]; lia]|].
  destruct (Z.ltb_spec (Raft.snapshot_index s) index); [|split; [done|cbn [snd]; lia]].
  split; [done|]. cbn [snd Raft.snapshot_index sn_commit sn_log].
  unfold zlen in *. rewrite length_drop. lia.
Qed.

Lemma install_order i m s index term :
  models i m s -> index <= Raft.snapshot_index s + zlen (sn_log s) + 3 ->
  models (i + 1) (to_model (Raft.install index term s).2) (Raft.install index term s).2.
Proof.
  intros [_ H] Hidx. pose proof (zlen_nonneg (sn_log s)). unfold Raft.install.
  destruct (Z.leb_spec index (sn_commit s)); [split; [done|cbn [snd]; lia]|].
  split; [done|]. cbn [snd Raft.snapshot_index sn_commit sn_log]. destruct (_ && _).
  - unfold zlen in *. rewrite length_drop. lia.
  - unfold zlen in *. cbn [length]. lia.
Qed.

Section pass.
Context `{JsonLists}.

Lemma apply59_ok i s c :
  Z.of_nat i < max_rounds -> models i (to_model s) s -> valid c ->
  let '(command, m') := apply (to_model s) c in
  exists v s', Snapshots_step command.1 command.2 s = (v, s') /\ m' = to_model s' /\
    models (i + 1) (to_model s') s'.
Proof.
  intros Hi Hm Hc. pose proof (last_index_is i _ s Hi Hm) as Hl. pose proof (r_order _ _ _ Hm) as Ho.
  pose proof (zlen_nonneg (sn_log s)) as Hz. pose proof Hi as Hi'. unfold max_rounds in Hi'.
  destruct c as [r|r|r term]; cbn [apply valid] in *;
    change (last_index (to_model s)) with (sn_last_index s); rewrite Hl.
  - set (index := pick _ _). assert (0 <= index < Raft.snapshot_index s + zlen (sn_log s) + 3) as Hidx
      by (apply Z.mod_pos_bound; lia). clearbody index.
    eexists _, (commit_to index s). split; [cbn [fst snd]; dispatch Snapshots_step; by read_args|].
    split; [apply commit59_same|]. by apply (commit_order i (to_model s)).
  - set (index := pick _ _). assert (0 <= index < Raft.snapshot_index s + zlen (sn_log s) + 2) as Hidx
      by (apply Z.mod_pos_bound; lia). clearbody index.
    pose proof (snapshot_same index s) as Hs. pose proof (snapshot_order i (to_model s) s index Hm) as Ho'.
    destruct (Raft.snapshot index s) as [r' s'] eqn:E. cbn [snd] in Hs, Ho'.
    eexists _, s'. split; [cbn [fst snd]; dispatch Snapshots_step; read_args; by rewrite E|done].
  - set (index := pick _ _). assert (0 <= index < Raft.snapshot_index s + zlen (sn_log s) + 4) as Hidx
      by (apply Z.mod_pos_bound; lia). clearbody index.
    pose proof (install_same index term s) as Hs. pose proof (install_order i (to_model s) s index term Hm ltac:(lia)) as Ho'.
    destruct (Raft.install index term s) as [r' s'] eqn:E. cbn [snd] in Hs, Ho'.
    eexists _, s'. split; [cbn [fst snd]; dispatch Snapshots_step; read_args; by rewrite E|done].
Qed.

Lemma turn59_ok i m s c :
  Z.of_nat i < max_rounds -> models i m s -> valid c ->
  answered Snapshots_step (turn m c).1 s (models (i + 1) (turn m c).2).
Proof.
  intros Hi Hm Hc. pose proof (r_same _ _ _ Hm) as ->. pose proof (apply59_ok i s c Hi Hm Hc) as Ha.
  unfold turn. destruct (apply (to_model s) c) as [command m'].
  destruct Ha as (v & s' & E & -> & Hm'). unfold answered. cbn [fst snd commands ask]. rewrite E.
  assert (Snapshots_step (str "log") [] s' =
    (VObject (shape s' ++ [(str "terms", VArray (map VInt (sn_log s')))]), s')) as ->
    by by dispatch Snapshots_step.
  split; [|done]. unfold max_rounds in Hi. cbn [wants]. repeat constructor.
  exists (Raft.first_index s'), (sn_last_index s'). split; [done|]. split; [done|].
  assert (Z.of_nat i + 1 < 2 * max_rounds) as Hi' by (unfold max_rounds; lia).
  destruct Hm' as [_ Ho]. unfold max_rounds in Hi'. pose proof (zlen_nonneg (sn_log s')).
  unfold Raft.first_index, sn_last_index. rewrite !wrap_s_small by (try apply in_s64; lia). lia.
Qed.

Lemma passes59_stage s (cs : list Choice) :
  Forall valid cs -> Z.of_nat (length cs) <= max_rounds -> passes Snapshots_step s (script cs).
Proof.
  intros Hv Hl. apply passes_started. dispatch Snapshots_step.
  erewrite int_list_at; [|reflexivity|by repeat constructor]. cbn [answer snd].
  apply (passes_draw _ _ _ models valid); [exact turn59_ok|done| |done|done].
  split; [done|]. vm_compute. repeat split; discriminate.
Qed.
End pass.
End S59.

(** ** Stage 60: membership changes *)

Module S60.

Definition quorum_of (members : list bytes) : Z := zlen members / 2 + 1.

Record Model : Type := mkModel {
  phase : bytes;
  members : list bytes;
}.

Definition new (members : list bytes) : Model := mkModel (str "stable") members.

(** A single-server change, and whether it was accepted. *)
Definition change (add : bool) (who : bytes) (m : Model) : bool * Model :=
  if decide (phase m = str "stable") then
    let present := bool_decide (who ∈ members m) in
    if add then
      if present then (false, m)
      else (true, mkModel (str "pending") (sort_by bytes_le (members m ++ [who])))
    else
      if negb present || bool_decide (length (members m) = 1%nat) then (false, m)
      else (true, mkModel (str "pending") (filter (fun x => x <> who) (members m)))
  else (false, m).

Definition commit (m : Model) : bool * Model :=
  if decide (phase m = str "pending") then (true, mkModel (str "stable") (members m)) else (false, m).

Inductive Choice : Type :=
| CAdd (who : nat)
| CRemove (who : nat)
| CCommit.

Definition pool : list bytes := [str "s1"; str "s2"; str "s3"; str "s4"; str "s5"; str "s6"].

Definition apply (m : Model) (c : Choice) : (bytes * list bytes) * (bool * Model) :=
  match c with
  | CAdd k => let who := nth k pool (str "s1") in ((str "add", [who]), change true who m)
  | CRemove k => let who := nth k pool (str "s1") in ((str "remove", [who]), change false who m)
  | CCommit => ((str "commit-change", []), commit m)
  end.

(** There is never more than one change in flight. *)
Definition one_change (answers : list Value) : Prop :=
  exists p, field 0 (str "phase") (VString p) answers /\ (p = str "stable" \/ p = str "pending").

Definition turn (m : Model) (c : Choice) : option Entry * Model :=
  let '(command, (ok, m)) := apply m c in
  (Some (mkEntry [command]
     [field 0 (str "ok") (VBool ok); field 0 (str "phase") (VString (phase m));
      field 0 (str "members") (VArray (map VString (members m)));
      field 0 (str "quorum") (VInt (quorum_of (members m))); one_change]), m).

Definition start : list bytes := [str "s1"; str "s2"; str "s3"].

Definition script (cs : list Choice) : list Entry :=
  started (str "init") [members_arg start] (draw turn no_more (new start) cs).

Definition to_model (s : Membership) : Model := mkModel (Raft.phase s) (Raft.members s).

Record models (i : nat) (m : Model) (s : Membership) : Prop := {
  r_same : m = to_model s;
  r_phase : Raft.phase s = str "stable" \/ Raft.phase s = str "pending";
  r_distinct : NoDup (Raft.members s);
}.

(** The result of a change, as the model has it. *)
Definition to_result (r : bytes * Membership + Membership) : bool * Model :=
  match r with inl (_, s) => (false, to_model s) | inr s => (true, to_model s) end.
Definition result_state (r : bytes * Membership + Membership) : Membership :=
  match r with inl (_, s) => s | inr s => s end.

Lemma only_member (who : bytes) l :
  NoDup l -> who ∈ l -> (filter (fun x => x <> who) l = [] <-> length l = 1%nat).
Proof.
  intros Hd Hin. split.
  - intros Hf. destruct l as [|a [|b l]]; [by apply not_elem_of_nil in Hin|done|]. exfalso.
    assert (forall x, x ∈ a :: b :: l -> x = who) as Hall.
    { intros x Hx. apply dec_stable. intros Hne.
      assert (x ∈ filter (fun x => x <> who) (a :: b :: l)) as Hc by by apply list_elem_of_filter.
      rewrite Hf in Hc. by apply not_elem_of_nil in Hc. }
    apply NoDup_cons in Hd as [Ha _]. apply Ha.
    rewrite (Hall a), (Hall b) by (by left || by right; left). by left.
  - intros Hl. destruct l as [|a [|]]; try done. apply list_elem_of_singleton in Hin as <-.
    rewrite filter_cons, decide_False by tauto. done.
Qed.

Lemma remove_single (who : bytes) l :
  NoDup l -> who ∈ l -> filter (fun x => x <> who) l = [] -> l = [who].
Proof.
  intros Hd Hin Hf. apply only_member in Hf; [|done|done].
  destruct l as [|a [|]]; try done. by apply list_elem_of_singleton in Hin as <-.
Qed.

Lemma add_same i s who :
  models i (to_model s) s ->
  change true who (to_model s) = to_result (add_member who s) /\
  models (i + 1) (to_model (result_state (add_member who s))) (result_state (add_member who s)).
Proof.
  intros [_ Hp Hd]. unfold change, add_member. change (phase (to_model s)) with (Raft.phase s).
  change (members (to_model s)) with (Raft.members s). case_decide; [|by split].
  case_decide as Hin; [rewrite bool_decide_true by done; by split|].
  rewrite bool_decide_false by done. split; [done|]. split; cbn; [done|by right|].
  rewrite sort_by_perm. apply NoDup_app. split; [done|]. split; [|apply NoDup_singleton].
  intros x Hx Hx'%list_elem_of_singleton. by subst.
Qed.

Lemma remove_same i s who :
  models i (to_model s) s ->
  change false who (to_model s) = to_result (remove_member who s) /\
  models (i + 1) (to_model (result_state (remove_member who s))) (result_state (remove_member who s)).
Proof.
  intros [_ Hp Hd]. unfold change, remove_member. change (phase (to_model s)) with (Raft.phase s).
  change (members (to_model s)) with (Raft.members s). case_decide; [|by split].
  case_decide as Hin; [|rewrite bool_decide_false by done; by split].
  rewrite (bool_decide_true (who ∈ _)) by done. cbn [negb orb].
  destruct (filter _ (Raft.members s)) as [|k ks] eqn:E.
  - rewrite bool_decide_true by (by apply only_member in E).
    pose proof (remove_single who _ Hd Hin E) as Hone. cbn [to_result result_state].
    unfold to_model. cbn [Raft.phase Raft.members]. rewrite Hone.
    split; [done|]. split; [done|done|apply NoDup_singleton].
  - rewrite bool_decide_false by (intros Hl%(only_member who _ Hd Hin); congruence).
    split; [done|]. split; cbn [Raft.members result_state Raft.phase]; [done|by right|].
    rewrite <- E. by apply NoDup_filter.
Qed.

Lemma commit60_same i s :
  models i (to_model s) s ->
  commit (to_model s) = to_result (commit_change s) /\
  models (i + 1) (to_model (result_state (commit_change s))) (result_state (commit_change s)).
Proof.
  intros [_ Hp Hd]. unfold commit, commit_change. change (phase (to_model s)) with (Raft.phase s).
  case_decide; (split; [done|]; split; [done| |done]); [by left|done].
Qed.

Section pass.
Context `{JsonLists}.

(** What is answered to a change, whatever it is. *)
Lemma changed_fields r s' v :
  (Raft.phase (result_state r) = str "stable" \/ Raft.phase (result_state r) = str "pending") ->
  changed r accept = (v, s') ->
  s' = result_state r /\
  Forall (fun want => want [v])
    [field 0 (str "ok") (VBool (to_result r).1); field 0 (str "phase") (VString (phase (to_result r).2));
     field 0 (str "members") (VArray (map VString (members (to_result r).2)));
     field 0 (str "quorum") (VInt (quorum_of (members (to_result r).2))); one_change].
Proof.
  intros Hp Hc. set (s := result_state r) in *.
  assert (joint s = false) as Hj by (apply bool_decide_eq_false; destruct Hp as [->| ->]; done).
  assert (s' = s /\ exists tail, v = VObject (mb_state s ++ tail) /\
    member (str "ok") tail = Some (VBool (to_result r).1)) as (-> & tail & -> & Hok).
  { unfold changed, refuse, accept in Hc. destruct r as [[e s0]|s0]; injection Hc as <- <-;
      (split; [done|]); by eexists. }
  split; [done|]. assert ((to_result r).2 = to_model s) as -> by by destruct r as [[e s0]|s0].
  assert (quorum s = (length (Raft.members s) / 2 + 1)%nat) as Hq by (unfold quorum; by rewrite Hj).
  assert (voters s = Raft.members s) as Hv by (unfold voters; by rewrite Hj).
  unfold mb_state. rewrite Hq, Hv. repeat constructor.
  - exact Hok.
  - assert (quorum_of (members (to_model s)) = Z.of_nat (length (Raft.members s) / 2 + 1)) as ->; [|done].
    unfold quorum_of, zlen. by rewrite Nat2Z.inj_add, Nat2Z.inj_div.
  - exists (Raft.phase s). split; [done|exact Hp].
Qed.

Lemma turn60_ok i m s c :
  models i m s -> answered Membership_step (turn m c).1 s (models (i + 1) (turn m c).2).
Proof.
  intros Hm. pose proof (r_same _ _ _ Hm) as ->. unfold turn.
  assert (exists r, Membership_step (apply (to_model s) c).1.1 (apply (to_model s) c).1.2 s = changed r accept /\
    (apply (to_model s) c).2 = to_result r /\ models (i + 1) (to_model (result_state r)) (result_state r))
    as (r & Hr & Ha & Hm').
  { destruct c as [k|k|]; cbn [apply fst snd]; [set (who := nth k pool _); clearbody who..|].
    - exists (add_member who s). split; [dispatch Membership_step; by read_args|by apply add_same].
    - exists (remove_member who s). split; [dispatch Membership_step; by read_args|by apply remove_same].
    - exists (commit_change s). split; [by dispatch Membership_step|by apply commit60_same]. }
  destruct (apply (to_model s) c) as [command [ok m']]. cbn [fst snd] in *.
  unfold answered. cbn [fst snd commands ask]. rewrite Hr.
  destruct (changed r accept) as [v s'] eqn:Ec.
  destruct (changed_fields r s' v (r_phase _ _ _ Hm') Ec) as [-> Hw]. rewrite <- Ha in Hw.
  split; [exact Hw|]. assert (m' = to_model (result_state r)) as ->; [|done].
  destruct r as [[e s0]|s0]; cbn in Ha; by injection Ha.
Qed.

Lemma passes60_stage s (cs : list Choice) :
  Z.of_nat (length cs) <= max_rounds -> passes Membership_step s (script cs).
Proof.
  intros Hl. apply passes_started. dispatch Membership_step.
  erewrite word_list_at; [|reflexivity|by repeat constructor]. cbn [answer snd].
  apply (passes_draw _ _ _ models (fun _ => True)); [|done| |by apply Forall_true|done].
  - intros i m s' c _ Hm _. by apply turn60_ok.
  - split; [done|by left|]. apply (bool_decide_eq_true_1 (NoDup _)). vm_compute. reflexivity.
Qed.
End pass.
End S60.
