(* ===== verification/PaxosStages.v ===== *)
(** * The Paxos stages pass ([s61] and [s62] of [disttest/src/stages])

  The tester's models of the acceptors and of Multi-Paxos, the seeded
  conversations, and the theorem that the topics of [Paxos] give every answer
  they want. *)

From S2P Require Import Prelude Text OrdMap Topic Majority Paxos Stage.

(** ** Stage 61: single-decree Paxos *)

Module S61.

(** Three vectors, one entry per acceptor. *)
Record Model : Type := mkModel {
  promised : list Z;
  last_n : list (option Z);
  last_value : list (option bytes);
}.

Definition new (count : nat) : Model :=
  mkModel (replicate count 0) (replicate count None) (replicate count None).

Definition majority (m : Model) : nat := length (promised m) / 2 + 1.

Definition prepare (i : nat) (n : Z) (m : Model) : bool * Z * Model :=
  let granted := nth i (promised m) 0 <? n in
  let m := if granted then mkModel (<[i := n]> (promised m)) (last_n m) (last_value m) else m in
  (granted, nth i (promised m) 0, m).

Definition accept (i : nat) (n : Z) (value : bytes) (m : Model) : bool * Z * Model :=
  let taken := nth i (promised m) 0 <=? n in
  let m :=
    if taken
    then mkModel (<[i := n]> (promised m)) (<[i := Some n]> (last_n m)) (<[i := Some value]> (last_value m))
    else m in
  (taken, nth i (promised m) 0, m).

Definition numbers (m : Model) : list Z := dedup_runs (sort_by Z.leb (omap id (last_n m))).

(** The indices of the acceptors whose last number is [n]. *)
Definition holders (m : Model) (n : Z) : list nat :=
  filter (fun i => nth i (last_n m) None = Some n) (seq 0 (length (last_n m))).

(** One round of the loop of [learn]. *)
Definition learn_step (m : Model) (chosen : option bytes) (n : Z) : option bytes :=
  if bool_decide (majority m <= length (holders m n))%nat then
    match holders m n with i :: _ => nth i (last_value m) None | [] => chosen end
  else chosen.

Definition learn (m : Model) : bool * option bytes * nat :=
  match foldl (learn_step m) None (numbers m) with
  | Some value => (true, Some value, length (filter (fun v => v = Some value) (last_value m)))
  | None => (false, None, 0%nat)
  end.

Inductive Choice : Type :=
| CPrepare (i : nat) (n : Z)
| CAccept (i : nat) (n : Z) (value : nat).

Definition values : list bytes := [str "red"; str "blue"; str "green"].

Definition valid (c : Choice) : Prop :=
  match c with CPrepare i n | CAccept i n _ => (i < 5)%nat /\ 1 <= n < 9 end.

Definition turn (m : Model) (c : Choice) : option Entry * Model :=
  match c with
  | CPrepare i n =>
      let '(granted, promised_n, m) := prepare i n m in
      (Some (mkEntry [(str "prepare", [acceptor_name i; dec_signed n])]
         [field 0 (str "promised") (VBool granted); field 0 (str "promised_n") (VInt promised_n);
          field 0 (str "last_n") (json_opt VInt (nth i (last_n m) None));
          field 0 (str "last_value") (json_opt VString (nth i (last_value m) None))]), m)
  | CAccept i n k =>
      let value := nth k values (str "red") in
      let '(taken, promised_n, m) := accept i n value m in
      (Some (mkEntry [(str "accept", [acceptor_name i; dec_signed n; value])]
         [field 0 (str "accepted") (VBool taken); field 0 (str "promised_n") (VInt promised_n)]), m)
  end.

(** The script ends by asking what was learned. *)
Definition finish (m : Model) : list Entry :=
  let '(chosen, value, count) := learn m in
  [mkEntry [(str "learn", [])]
     [field 0 (str "chosen") (VBool chosen); field 0 (str "count") (VInt (Z.of_nat count));
      field 0 (str "value") (json_opt VString value)]].

Definition script (cs : list Choice) : list Entry :=
  started (str "init") [dec_signed 5] (draw turn finish (new 5) cs).

Definition to_model (s : Paxos) : Model :=
  mkModel (map promised_n (acceptors s)) (map Paxos.last_n (acceptors s))
    (map Paxos.last_value (acceptors s)).

Record models (i : nat) (m : Model) (s : Paxos) : Prop := {
  r_same : m = to_model s;
  r_len : length (acceptors s) = 5%nat;
  r_both a : a ∈ acceptors s -> is_Some (Paxos.last_n a) -> is_Some (Paxos.last_value a);
}.

(** *** Reading the three vectors *)

Lemma nth_map {A B} (f : A -> B) l i a d : l !! i = Some a -> nth i (map f l) d = f a.
Proof. intros Ha. apply nth_lookup_Some. change (map f l) with (f <$> l). by rewrite list_lookup_fmap, Ha. Qed.

Lemma map_nth_seq {A} (l : list A) d : map (fun i => nth i l d) (seq 0 (length l)) = l.
Proof.
  induction l as [|a l IH]; [done|]. cbn [length seq map]. rewrite <- seq_shift, map_map. cbn [nth].
  by rewrite IH.
Qed.

Lemma filter_map_comm {A B} (f : A -> B) (P : B -> Prop) `{!forall b, Decision (P b)} l :
  filter P (map f l) = map f (filter (fun a => P (f a)) l).
Proof.
  induction l as [|a l IH]; [done|]. cbn [map]. rewrite !filter_cons, IH. by case_decide.
Qed.

Lemma holders_map s n :
  map (fun i => nth i (acceptors s) Acceptor_default) (holders (to_model s) n) = Paxos.holders s n.
Proof.
  unfold holders, Paxos.holders. cbn [last_n to_model]. rewrite length_map.
  symmetry. rewrite <- (map_nth_seq (acceptors s) Acceptor_default) at 1.
  rewrite filter_map_comm. f_equal. apply list_filter_iff. intros i.
  change (None : option Z) with (Paxos.last_n Acceptor_default). by rewrite map_nth.
Qed.

Lemma numbers_same s : numbers (to_model s) = Paxos.numbers s.
Proof.
  unfold numbers, Paxos.numbers. do 2 f_equal. cbn [last_n to_model].
  induction (acceptors s) as [|a l IH]; [done|]. cbn. rewrite IH. done.
Qed.

Lemma learn_step_same i s n chosen :
  models i (to_model s) s ->
  learn_step (to_model s) chosen n = Paxos.learn_step s chosen n.
Proof.
  intros [_ _ Hb]. unfold learn_step, Paxos.learn_step.
  pose proof (holders_map s n) as Hh. rewrite <- Hh, length_map.
  assert (majority (to_model s) = Paxos.majority s) as ->
    by (unfold majority, Paxos.majority; cbn [promised to_model]; by rewrite length_map).
  case_bool_decide; [|done]. destruct (holders (to_model s) n) as [|j js]; [done|]. cbn [map head mbind option_bind].
  assert (nth j (acceptors s) Acceptor_default ∈ Paxos.holders s n) as Hin.
  { rewrite <- Hh. by left. }
  unfold Paxos.holders in Hin. apply list_elem_of_filter in Hin as [Hn Hin].
  destruct (Hb _ Hin) as [v Hv]; [by eexists|]. rewrite Hv. cbn [last_value to_model].
  change (None : option bytes) with (Paxos.last_value Acceptor_default). by rewrite map_nth, Hv.
Qed.

Lemma chosen_same i s :
  models i (to_model s) s ->
  foldl (learn_step (to_model s)) None (numbers (to_model s)) = chosen_value s.
Proof.
  intros Hm. unfold chosen_value. rewrite numbers_same. generalize (None : option bytes).
  induction (Paxos.numbers s) as [|n ns IH]; intros c; cbn [foldl]; [done|].
  by rewrite (learn_step_same i), IH.
Qed.

Lemma count_same s v :
  length (filter (fun x => x = Some v) (last_value (to_model s))) =
  length (filter (fun a => Paxos.last_value a = Some v) (acceptors s)).
Proof.
  cbn [last_value to_model]. by rewrite filter_map_comm, length_map.
Qed.

Section pass.
Context `{JsonText}.

Lemma models_set i j s a a' :
  models i (to_model s) s -> acceptors s !! j = Some a ->
  (is_Some (Paxos.last_n a') -> is_Some (Paxos.last_value a')) ->
  models (i + 1) (to_model (set_acceptor j a' s)) (set_acceptor j a' s).
Proof.
  intros [_ Hl Hb] Ha Ha'. split; [done| |].
  - cbn. by rewrite length_insert.
  - intros x Hx. apply list_elem_of_lookup_1 in Hx as [k Hk]. cbn in Hk.
    destruct (decide (k = j)) as [->|Hne].
    + rewrite list_lookup_insert_eq in Hk by (by eapply lookup_lt_Some). by simplify_eq.
    + rewrite list_lookup_insert_ne in Hk by done. apply Hb. by eapply list_elem_of_lookup_2.
Qed.

Lemma map_insert {A B} (f : A -> B) j a (l : list A) : map f (<[j := a]> l) = <[j := f a]> (map f l).
Proof. apply (list_fmap_insert f). Qed.

Lemma map_insert_id {A B} (f : A -> B) j a a' (l : list A) :
  l !! j = Some a -> f a' = f a -> map f (<[j := a']> l) = map f l.
Proof.
  intros Ha E. rewrite map_insert. apply list_insert_id. rewrite E.
  change (map f l) with (f <$> l). by rewrite list_lookup_fmap, Ha.
Qed.

Lemma prepare_same j n s a :
  acceptors s !! j = Some a ->
  prepare j n (to_model s) =
    ((prepare_acceptor n a).1, promised_n (prepare_acceptor n a).2,
     to_model (set_acceptor j (prepare_acceptor n a).2 s)).
Proof.
  intros Ha. unfold prepare, prepare_acceptor. cbn [fst snd promised to_model].
  rewrite (nth_map _ _ _ _ _ Ha). destruct (promised_n a <? n).
  - unfold to_model, set_acceptor. cbn [acceptors promised].
    rewrite map_insert, (map_insert_id Paxos.last_n _ a), (map_insert_id Paxos.last_value _ a) by done.
    f_equal. f_equal. cbn [promised_n]. apply nth_lookup_Some, list_lookup_insert_eq.
    rewrite length_map. by eapply lookup_lt_Some.
  - unfold to_model, set_acceptor. cbn [acceptors promised]. rewrite list_insert_id by done.
    by rewrite (nth_map _ _ _ _ _ Ha).
Qed.

Lemma accept_same j n v s a :
  acceptors s !! j = Some a ->
  accept j n v (to_model s) =
    ((accept_acceptor n v a).1, promised_n (accept_acceptor n v a).2,
     to_model (set_acceptor j (accept_acceptor n v a).2 s)).
Proof.
  intros Ha. unfold accept, accept_acceptor. cbn [fst snd promised to_model].
  rewrite (nth_map _ _ _ _ _ Ha). destruct (promised_n a <=? n).
  - unfold to_model, set_acceptor. cbn [acceptors promised last_n last_value].
    rewrite !map_insert. f_equal. f_equal. cbn [promised_n]. apply nth_lookup_Some, list_lookup_insert_eq.
    rewrite length_map. by eapply lookup_lt_Some.
  - unfold to_model, set_acceptor. cbn [acceptors promised]. rewrite list_insert_id by done.
    by rewrite (nth_map _ _ _ _ _ Ha).
Qed.

(** The command finds the acceptor it names. *)
Lemma at_acceptor_name s j a rest k :
  acceptors s !! j = Some a -> (j < 5)%nat ->
  at_acceptor s (acceptor_name j :: rest) k = k j a.
Proof.
  intros Ha Hj. unfold at_acceptor. rewrite acceptor_index_name.
  - cbn [answer]. by rewrite (nth_lookup_Some _ _ _ _ Ha).
  - by eapply lookup_lt_Some.
  - unfold U64_MAX. lia.
Qed.

Lemma nth_set {A} (f : Acceptor -> A) s j a d :
  (j < length (acceptors s))%nat -> nth j (map f (acceptors (set_acceptor j a s))) d = f a.
Proof. intros Hj. apply nth_map. by apply list_lookup_insert_eq. Qed.

Lemma turn61_ok i m s c :
  models i m s -> valid c -> answered Paxos_step (turn m c).1 s (models (i + 1) (turn m c).2).
Proof.
  intros Hm Hc. pose proof (r_same _ _ _ Hm) as ->. pose proof (r_len _ _ _ Hm) as Hl.
  destruct c as [j n|j n k]; destruct Hc as [Hj Hn].
  - destruct (lookup_lt_is_Some_2 (acceptors s) j ltac:(lia)) as [a Ha]. unfold turn.
    rewrite (prepare_same _ _ _ _ Ha). unfold answered. cbn [fst snd commands ask].
    dispatch Paxos_step. rewrite (at_acceptor_name _ _ _ _ _ Ha Hj). read_args.
    destruct (prepare_acceptor n a) as [ok a'] eqn:E. cbn [fst snd wants]. split.
    + unfold to_model. cbn [last_n last_value]. rewrite !nth_set by lia. repeat constructor.
    + eapply models_set; [done|done|]. unfold prepare_acceptor in E. injection E as _ <-.
      pose proof (r_both _ _ _ Hm a (list_elem_of_lookup_2 _ _ _ Ha)). by destruct (promised_n a <? n).
  - destruct (lookup_lt_is_Some_2 (acceptors s) j ltac:(lia)) as [a Ha]. unfold turn.
    set (v := nth k values _). clearbody v.
    rewrite (accept_same _ _ _ _ _ Ha). unfold answered. cbn [fst snd commands ask].
    dispatch Paxos_step. rewrite (at_acceptor_name _ _ _ _ _ Ha Hj). read_args.
    destruct (accept_acceptor n v a) as [ok a'] eqn:E. cbn [fst snd wants]. split.
    + repeat constructor.
    + eapply models_set; [done|done|]. unfold accept_acceptor in E. injection E as _ <-.
      pose proof (r_both _ _ _ Hm a (list_elem_of_lookup_2 _ _ _ Ha)). destruct (promised_n a <=? n); [|done].
      by cbn.
Qed.

Lemma finish_ok i m s : models i m s -> passes Paxos_step s (finish m).
Proof.
  intros Hm. pose proof (r_same _ _ _ Hm) as ->. unfold finish, learn. rewrite (chosen_same i) by done.
  destruct (chosen_value s) as [v|] eqn:E.
  - rewrite count_same. cbn [passes commands wants ask fst snd]. dispatch Paxos_step.
    unfold Paxos.learn. rewrite E. split; [|done]. repeat constructor.
  - cbn [passes commands wants ask fst snd]. dispatch Paxos_step. unfold Paxos.learn. rewrite E.
    split; [|done]. repeat constructor.
Qed.

Lemma passes61_stage s (cs : list Choice) :
  Forall valid cs -> Z.of_nat (length cs) <= max_rounds -> passes Paxos_step s (script cs).
Proof.
  intros Hv Hl. apply passes_started. dispatch Paxos_step. unfold uint. read_args. cbn [snd].
  apply (passes_draw _ _ _ models valid); [intros i m s' c _; apply turn61_ok|exact finish_ok| |done|done].
  split; [done|done|]. intros a Ha. unfold init_paxos in Ha. cbn [acceptors] in Ha.
  apply elem_of_replicate in Ha as [-> _]. by intros [x Hx].
Qed.
End pass.
End S61.

(** ** Stage 62: Multi-Paxos *)

Module S62.

Record Slot : Type := mkSlot {
  value : option bytes;
  sballot : Z;
  accepted_by : gset bytes;
  chosen : bool;
}.
Definition Slot_default : Slot := mkSlot None 0 ∅ false.

Record Model : Type := mkModel {
  promised : list Z;
  ballot : Z;
  leader : bool;
  ever_leader : bool;
  slots : gmap Z Slot;
}.

Definition new (count : nat) : Model := mkModel (replicate count 0) 0 false false ∅.

Definition majority (m : Model) : nat := length (promised m) / 2 + 1.

(** The loop over the acceptors: how many promise, and the promises after it. *)
Fixpoint raise (n : Z) (ps : list Z) : nat * list Z :=
  match ps with
  | [] => (0%nat, [])
  | p :: ps =>
      let '(count, ps) := raise n ps in
      if p <? n then (S count, n :: ps) else (count, p :: ps)
  end.

Definition prepare (n : Z) (m : Model) : nat * bool * Model :=
  let '(count, ps) := raise n (promised m) in
  let m :=
    if decide (majority m <= count)%nat then mkModel ps n true true (slots m)
    else mkModel ps (ballot m) (leader m) (ever_leader m) (slots m) in
  (count, leader m, m).

Definition preempt (n : Z) (m : Model) : bool * Z * Model :=
  let ps := (raise n (promised m)).2 in
  let m := mkModel ps (ballot m) (if ballot m <? n then false else leader m) (ever_leader m) (slots m) in
  (leader m, max_or_zero ps, m).

Definition propose (slot : Z) (v : bytes) (m : Model) : bool * Z * Model :=
  if negb (leader m) then (false, 2, m)
  else
    let entry := default Slot_default (slots m !! slot) in
    let entry :=
      if chosen entry then entry
      else
        let entry :=
          if sballot entry =? ballot m then entry
          else mkSlot (value entry) (ballot m) ∅ (chosen entry) in
        mkSlot (Some v) (sballot entry) (accepted_by entry) (chosen entry) in
    (true, 1, mkModel (promised m) (ballot m) (leader m) (ever_leader m) (<[slot := entry]> (slots m))).

Definition accepted (slot : Z) (who : bytes) (m : Model) : bool * nat * Model :=
  match slots m !! slot with
  | None => (false, 0%nat, m)
  | Some s =>
      let by_ := {[ who ]} ∪ accepted_by s in
      let s := mkSlot (value s) (sballot s) by_
                 (if decide (majority m <= size by_)%nat then true else chosen s) in
      (chosen s, size by_,
       mkModel (promised m) (ballot m) (leader m) (ever_leader m) (<[slot := s]> (slots m)))
  end.

Definition is_open (slot : Z) (m : Model) : bool :=
  match slots m !! slot with Some s => bool_decide (is_Some (value s)) | None => false end.

Definition is_chosen (m : Model) (i : Z) : bool :=
  match slots m !! i with Some s => chosen s | None => false end.

(** [while is_chosen(index + 1)]: at most one round per slot. *)
Fixpoint applied_from (fuel : nat) (m : Model) (index : Z) : Z :=
  match fuel with
  | O => index
  | S fuel => if is_chosen m (index + 1) then applied_from fuel m (index + 1) else index
  end.

Definition highest (m : Model) : Z :=
  max_or_zero (filter (fun p => chosen p.2 = true) (map_to_list (slots m))).*1.

Definition progress (m : Model) : Z * list Z :=
  (applied_from (size (slots m)) m 0, filter (fun i => is_chosen m i = false) (seqZ 1 (highest m))).

Inductive Choice : Type :=
| CPrepare (d : Z)
| CPreempt (d : Z)
| CPropose (slot : Z) (k : Z)
| CAccepted (slot : Z) (who : nat)
| CApplied.

Definition valid (c : Choice) : Prop :=
  match c with
  | CPrepare d => 1 <= d < 3
  | CPreempt d => -2 <= d < 3
  | CPropose slot k => 1 <= slot < 7 /\ 0 <= k < 4
  | CAccepted slot who => 1 <= slot < 7 /\ (who < 5)%nat
  | CApplied => True
  end.

Definition ask_applied (m : Model) : Entry :=
  let '(index, gaps) := progress m in
  mkEntry [(str "applied", [])]
    [field 0 (str "index") (VInt index); field 0 (str "gaps") (VArray (map VInt gaps))].

(** The model and the ballot of the last prepare. *)
Definition turn (mb : Model * Z) (c : Choice) : option Entry * (Model * Z) :=
  let '(m, b) := mb in
  match c with
  | CPrepare d =>
      let b := b + d in
      let '(count, leads, m) := prepare b m in
      (Some (mkEntry [(str "prepare", [dec_signed b])]
         [field 0 (str "promised") (VInt (Z.of_nat count)); field 0 (str "leader") (VBool leads)]), (m, b))
  | CPreempt d =>
      let n := b + d in
      let '(leads, promised_n, m) := preempt n m in
      (Some (mkEntry [(str "preempt", [dec_signed n])]
         [field 0 (str "leader") (VBool leads); field 0 (str "promised_n") (VInt promised_n)]), (m, b))
  | CPropose slot k =>
      let v := x76 :: dec_signed k in
      let '(ok, round_trips, m) := propose slot v m in
      (Some (mkEntry [(str "propose", [dec_signed slot; v])]
         [field 0 (str "ok") (VBool ok); field 0 (str "round_trips") (VInt round_trips)]), (m, b))
  | CAccepted slot k =>
      if is_open slot m then
        let '(is_chosen, count, m) := accepted slot (acceptor_name k) m in
        (Some (mkEntry [(str "accepted", [dec_signed slot; acceptor_name k])]
           [field 0 (str "chosen") (VBool is_chosen); field 0 (str "count") (VInt (Z.of_nat count))]), (m, b))
      else (None, (m, b))
  | CApplied => (Some (ask_applied m), (m, b))
  end.

Definition finish (mb : Model * Z) : list Entry := [ask_applied mb.1].

Definition script (cs : list Choice) : list Entry :=
  started (str "init") [dec_signed 5] (draw turn finish (new 5, 1) cs).

Definition to_slot (s : Paxos.Slot) : Slot :=
  mkSlot (sl_value s) (sl_ballot s) (Paxos.accepted_by s) (sl_chosen s).

Definition to_model (s : MultiPaxos) : Model :=
  mkModel (Paxos.promised s) (Paxos.ballot s) (Paxos.leader s) (Paxos.ever_leader s) (to_slot <$> Paxos.slots s).

Record models (i : nat) (mb : Model * Z) (s : MultiPaxos) : Prop := {
  r_same : mb.1 = to_model s;
  r_len : length (Paxos.promised s) = 5%nat;
  r_ballot : 1 <= mb.2 <= 2 * Z.of_nat i + 1;
}.

(** *** The model's operations are the program's *)

Lemma raise_same n ps : raise n ps = multi_prepare n ps.
Proof.
  unfold multi_prepare. induction ps as [|p ps IH]; [done|]. cbn [raise map]. rewrite IH, filter_cons.
  destruct (Z.ltb_spec p n); [rewrite decide_True by done|rewrite decide_False by lia]; done.
Qed.

Lemma lookup_slot s i : slots (to_model s) !! i = to_slot <$> Paxos.slots s !! i.
Proof. apply lookup_fmap. Qed.

Lemma is_chosen_same s i : is_chosen (to_model s) i = Paxos.is_chosen s i.
Proof. unfold is_chosen, Paxos.is_chosen. rewrite lookup_slot. by destruct (Paxos.slots s !! i). Qed.

Lemma applied_same fuel s i : applied_from fuel (to_model s) i = Paxos.applied_from fuel s i.
Proof.
  revert i. induction fuel as [|fuel IH]; intros i; [done|]. cbn [applied_from Paxos.applied_from].
  by rewrite is_chosen_same, IH.
Qed.

Lemma highest_same s : highest (to_model s) = highest_chosen s.
Proof.
  unfold highest, highest_chosen, to_model. cbn [slots]. rewrite map_to_list_fmap.
  assert ((filter (fun p => chosen p.2 = true) (prod_map id to_slot <$> map_to_list (Paxos.slots s))).*1 =
    (filter (fun p => sl_chosen p.2 = true) (map_to_list (Paxos.slots s))).*1) as ->; [|done].
  induction (map_to_list (Paxos.slots s)) as [|[k x] l IH]; [done|].
  cbn [fmap list_fmap prod_map]. rewrite !filter_cons. cbn [snd to_slot chosen].
  change (chosen (to_slot x)) with (sl_chosen x).
  case_decide; cbn [fmap list_fmap fst]; [f_equal|]; exact IH.
Qed.

Lemma progress_same s : progress (to_model s) = Paxos.progress s.
Proof.
  unfold progress, Paxos.progress. rewrite highest_same, applied_same. unfold to_model. cbn [slots].
  rewrite map_size_fmap. f_equal. apply list_filter_iff. intros i. by rewrite <- is_chosen_same.
Qed.

Lemma length_raised n ps : length (multi_prepare n ps).2 = length ps.
Proof. apply length_map. Qed.

Section pass.
Context `{JsonText}.

Lemma set_slots_same s i x :
  mkModel (Paxos.promised s) (Paxos.ballot s) (Paxos.leader s) (Paxos.ever_leader s)
    (<[i := to_slot x]> (slots (to_model s))) = to_model (set_slot i x s).
Proof. unfold to_model, set_slot. cbn [slots Paxos.slots Paxos.promised Paxos.ballot Paxos.leader Paxos.ever_leader]. by rewrite fmap_insert. Qed.

Lemma prepare62_ok i b s d :
  Z.of_nat i < max_rounds -> models i (to_model s, b) s -> 1 <= d < 3 ->
  answered MultiPaxos_step (turn (to_model s, b) (CPrepare d)).1 s
    (models (i + 1) (turn (to_model s, b) (CPrepare d)).2).
Proof.
  unfold max_rounds. intros Hi [_ Hl Hb] Hd. cbn [snd] in Hb. unfold turn, prepare.
  cbn [promised to_model]. rewrite raise_same.
  destruct (multi_prepare (b + d) (Paxos.promised s)) as [count ps] eqn:E.
  pose proof (length_raised (b + d) (Paxos.promised s)) as Hps. rewrite E in Hps. cbn [snd] in Hps.
  unfold answered. cbn [fst snd]. change (majority (to_model s)) with (multi_majority s).
  destruct (decide (multi_majority s <= count)%nat) as [Hq|Hq]; cbn [fst snd commands ask];
    (dispatch MultiPaxos_step; read_args; rewrite E;
     first [rewrite bool_decide_true by done|rewrite bool_decide_false by done]; cbn [fst snd wants leader];
     split; [repeat constructor|split; cbn; [done|congruence|lia]]).
Qed.

Lemma preempt62_ok i b s d :
  Z.of_nat i < max_rounds -> models i (to_model s, b) s -> -2 <= d < 3 ->
  answered MultiPaxos_step (turn (to_model s, b) (CPreempt d)).1 s
    (models (i + 1) (turn (to_model s, b) (CPreempt d)).2).
Proof.
  unfold max_rounds. intros Hi [_ Hl Hb] Hd. cbn [snd] in Hb. unfold turn, preempt.
  cbn [promised to_model]. rewrite raise_same. unfold answered. cbn [fst snd commands ask].
  dispatch MultiPaxos_step. read_args. cbn [fst snd wants]. split; [repeat constructor|].
  split; cbn [fst snd Paxos.promised]; [done| |lia]. by rewrite length_raised.
Qed.

Lemma propose62_ok i b s slot k :
  models i (to_model s, b) s -> 1 <= slot < 7 -> 0 <= k < 4 ->
  answered MultiPaxos_step (turn (to_model s, b) (CPropose slot k)).1 s
    (models (i + 1) (turn (to_model s, b) (CPropose slot k)).2).
Proof.
  intros [_ Hl Hb] Hs Hk. cbn [snd] in Hb. unfold turn, propose. set (v := x76 :: dec_signed k). clearbody v.
  unfold answered. cbn [leader to_model]. destruct (Paxos.leader s) eqn:El; cbn [negb fst snd commands ask];
    dispatch MultiPaxos_step; read_args; rewrite El; cbn [negb fst snd wants].
  - split; [repeat constructor|]. rewrite lookup_slot.
    set (x := default Paxos.Slot_default (Paxos.slots s !! slot)).
    assert (default Slot_default (to_slot <$> Paxos.slots s !! slot) = to_slot x) as ->
      by (unfold x; by destruct (Paxos.slots s !! slot)).
    split; cbn [fst snd]; [|done|lia].
    rewrite <- set_slots_same, El. cbn [promised ballot leader ever_leader to_model]. do 2 f_equal.
    unfold propose_slot. cbn [to_slot chosen sballot value accepted_by].
    destruct (sl_chosen x) eqn:Ec; [done|].
    destruct (Z.eqb_spec (sl_ballot x) (Paxos.ballot s)) as [Eb|Eb];
      [rewrite decide_True by done|rewrite decide_False by done]; unfold to_slot; cbn; congruence.
  - split; [repeat constructor|]. split; cbn [fst snd]; [done|done|lia].
Qed.

Lemma accepted62_ok i b s slot k :
  models i (to_model s, b) s -> 1 <= slot < 7 -> (k < 5)%nat ->
  answered MultiPaxos_step (turn (to_model s, b) (CAccepted slot k)).1 s
    (models (i + 1) (turn (to_model s, b) (CAccepted slot k)).2).
Proof.
  intros [_ Hl Hb] Hs Hk. cbn [snd] in Hb. unfold turn, is_open, accepted. rewrite lookup_slot.
  destruct (Paxos.slots s !! slot) as [x|] eqn:Ex; cbn [fmap option_fmap option_map].
  2:{ unfold answered. cbn [fst snd]. split; cbn; [done|done|lia]. }
  cbn [value to_slot]. destruct (sl_value x) as [w|] eqn:Ew.
  2:{ rewrite bool_decide_false by by intros [? ?]. split; cbn; [done|done|lia]. }
  rewrite bool_decide_true by done. unfold answered. cbn [fst snd commands ask].
  dispatch MultiPaxos_step. read_args.
  rewrite (acceptor_index_name_at _ k) by first [done|rewrite Hl; done|unfold U64_MAX; lia].
  cbn [answer]. rewrite Ex, Ew. cbn [fst snd wants accepted_by chosen value to_slot].
  change (majority (to_model s)) with (multi_majority s).
  set (by_ := {[ acceptor_name k ]} ∪ Paxos.accepted_by x).
  assert ((if decide (multi_majority s <= size by_)%nat then true else sl_chosen x) =
    sl_chosen (accepted_slot (multi_majority s) (acceptor_name k) x)) as ->.
  { unfold accepted_slot. cbn [sl_chosen]. fold by_.
    case_decide; [by rewrite bool_decide_true|by rewrite bool_decide_false]. }
  split; [repeat constructor|]. split; cbn [fst snd]; [|done|lia].
  rewrite <- set_slots_same. cbn [promised ballot leader ever_leader to_model]. do 2 f_equal.
  unfold to_slot, accepted_slot. cbn. by rewrite Ew.
Qed.

Lemma applied62_ok s : answered MultiPaxos_step (Some (ask_applied (to_model s))) s (fun s' => s' = s).
Proof.
  unfold ask_applied. rewrite progress_same. destruct (Paxos.progress s) as [index gaps] eqn:E.
  unfold answered. cbn [commands ask fst snd]. dispatch MultiPaxos_step. rewrite E.
  split; [repeat constructor|done].
Qed.

Lemma turn62_ok i mb s c :
  Z.of_nat i < max_rounds -> models i mb s -> valid c ->
  answered MultiPaxos_step (turn mb c).1 s (models (i + 1) (turn mb c).2).
Proof.
  intros Hi Hm Hc. destruct mb as [m b]. pose proof (r_same _ _ _ Hm) as E. cbn [fst] in E. subst m.
  destruct c as [d|d|slot k|slot k|]; cbn [valid] in Hc.
  - by apply prepare62_ok.
  - by apply preempt62_ok.
  - destruct Hc. by apply propose62_ok.
  - destruct Hc. by apply accepted62_ok.
  - pose proof (applied62_ok s) as Ha. unfold answered in *. cbn [turn fst snd] in *.
    destruct (ask _ s _) as [answers s']. destruct Ha as [Ha ->]. split; [done|].
    destruct Hm as [_ Hl Hb]. split; cbn in *; [done|done|lia].
Qed.

Lemma finish62_ok i mb s : models i mb s -> passes MultiPaxos_step s (finish mb).
Proof.
  intros [E _ _]. destruct mb as [m b]. cbn [fst] in E. subst m. unfold finish. cbn [fst passes].
  pose proof (applied62_ok s) as Ha. unfold answered in Ha.
  destruct (ask _ s _) as [answers s']. by destruct Ha.
Qed.

Lemma passes62_stage s (cs : list Choice) :
  Forall valid cs -> Z.of_nat (length cs) <= max_rounds -> passes MultiPaxos_step s (script cs).
Proof.
  intros Hv Hl. apply passes_started. dispatch MultiPaxos_step. unfold uint. read_args. cbn [snd].
  apply (passes_draw _ _ _ models valid); [exact turn62_ok|exact finish62_ok| |done|done].
  split; [done|done|cbn; lia].
Qed.
End pass.
End S62.
