(* ===== verification/Crdt.v ===== *)
(** * The replicated data types ([disttest/examples/prim/crdt.rs])

  The topics [g-counter], [pn-counter], [lww-register], [or-set] and [rga] of the
  reference primitives: the state of one replica, its commands, the JSON state it
  ships and the merge that takes one in.  A command that fails half-way keeps what
  it had changed. *)

From S2P Require Import Prelude Text OrdMap Topic.

(** ** Shared plumbing *)

Section plumbing.
Context `{JsonText}.

Definition counts_to_json (m : gmap bytes Z) : Value := VObject (map (fun p => (p.1, VInt p.2)) (OrdMap.entries m)).

(** [as_i64] of this file: a number, or the JSON string form of one. *)
Definition number (v : Value) : option Z :=
  match v with
  | VInt _ => as_i64 v
  | VString s => parse_i64 s
  | _ => None
  end.

(** The loop of [merge_max]: an entry that is no number stops it. *)
Fixpoint merge_counts (dst : gmap bytes Z) (obj : list (bytes * Value)) : Result Value unit * gmap bytes Z :=
  match obj with
  | [] => (Ok tt, dst)
  | (replica, count) :: obj =>
      match number count with
      | None => (Err (err (str "the entry for " ++ debug_str replica ++ str " is not a number")), dst)
      | Some count => merge_counts (<[replica := Z.max (default 0 (dst !! replica)) count]> dst) obj
      end
  end.

Definition merge_max (dst : gmap bytes Z) (incoming : option Value) : Result Value unit * gmap bytes Z :=
  match incoming with
  | None => (Ok tt, dst)
  | Some incoming =>
      match as_object incoming with
      | None => (Err (err (str "a counter half of a state must be an object")), dst)
      | Some obj => merge_counts dst obj
      end
  end.

Definition not_strings : Value := err (str "expected an array of strings in the state").

Definition string_list (v : option Value) : Result Value (list bytes) :=
  match v with
  | None => Ok []
  | Some v =>
      match as_array v with
      | None => Err not_strings
      | Some items => try_map (fun x => ok_or (as_str x) not_strings) items
      end
  end.
End plumbing.

(** ** [g-counter] and [pn-counter] *)

Record Counter : Type := mkCounter {
  signed : bool;
  p_half : gmap bytes Z;
  n_half : gmap bytes Z;
}.

Definition Counter_new (signed : bool) : Counter := mkCounter signed ∅ ∅.

Definition total (m : gmap bytes Z) : Z := foldr Z.add 0 (OrdMap.entries m).*2.

(** Sums of [i64]. *)
Definition value (c : Counter) : Z := wrap_s 64 (total (p_half c) - total (n_half c)).

Definition Counter_state (c : Counter) : Value :=
  if signed c
  then VObject [(str "p", counts_to_json (p_half c)); (str "n", counts_to_json (n_half c))]
  else VObject [(str "p", counts_to_json (p_half c))].

Definition bump (replica : bytes) (by_ : Z) (m : gmap bytes Z) : gmap bytes Z :=
  <[replica := wrap_s 64 (default 0 (m !! replica) + by_)]> m.

Definition inc (replica : bytes) (by_ : Z) (c : Counter) : Counter :=
  mkCounter (signed c) (bump replica by_ (p_half c)) (n_half c).
Definition dec_by (replica : bytes) (by_ : Z) (c : Counter) : Counter :=
  mkCounter (signed c) (p_half c) (bump replica by_ (n_half c)).

Section counter.
Context `{JsonText}.

(** The command [merge], on the parsed state. *)
Definition Counter_merge (incoming : Value) (c : Counter) : Result Value unit * Counter :=
  let '(r, p) := merge_max (p_half c) (get (str "p") incoming) in
  match r with
  | Err e => (Err e, mkCounter (signed c) p (n_half c))
  | Ok _ =>
      let '(r, n) := merge_max (n_half c) (get (str "n") incoming) in
      (r, mkCounter (signed c) p n)
  end.

Definition value_answer (c : Counter) : Value := VObject [(str "value", VInt (value c))].

Definition counter_write (command : bytes) (args : list bytes) (c : Counter) : Value * Counter :=
  if bool_decide (command = str "dec") && negb (signed c) then (err (str "a g-counter only ever increases"), c)
  else
    answer (word args 0) c (fun replica => answer (int args 1) c (fun by_ =>
      if by_ <? 0 then (err (str "a counter entry may not move backwards"), c)
      else
        let c := if decide (command = str "inc") then inc replica by_ c else dec_by replica by_ c in
        (value_answer c, c))).

Definition Counter_step (command : bytes) (args : list bytes) (c : Counter) : Value * Counter :=
  if decide (command = str "inc" \/ command = str "dec") then counter_write command args c
  else if decide (command = str "value") then answer (word args 0) c (fun _ => (value_answer c, c))
  else if decide (command = str "state") then
    answer (word args 0) c (fun _ => (VObject [(str "state", Counter_state c)], c))
  else if decide (command = str "merge") then
    answer (word args 0) c (fun _ => answer (json_arg args 1) c (fun incoming =>
      let '(r, c) := Counter_merge incoming c in
      match r with Ok _ => (value_answer c, c) | Err e => (e, c) end))
  else (unknown_command command, c).
End counter.

(** ** [lww-register] *)

Record Lww : Type := mkLww {
  lww_value : Value;
  ts : Z;
  lww_replica : bytes;
}.

Definition Lww_default : Lww := mkLww VNull 0 [].

(** [(ts, replica) > (self.ts, self.replica)]. *)
Definition beats (t : Z) (replica : bytes) (s : Lww) : bool :=
  (ts s <? t) || ((t =? ts s) && bytes_le (lww_replica s) replica && negb (bool_decide (lww_replica s = replica))).

Definition lww_take (v : Value) (t : Z) (replica : bytes) (s : Lww) : Lww :=
  if beats t replica s then mkLww v t replica else s.

Definition Lww_state (s : Lww) : Value :=
  VObject [(str "v", lww_value s); (str "ts", VInt (ts s)); (str "r", VString (lww_replica s))].

Definition Lww_merge (incoming : Value) (s : Lww) : Lww :=
  lww_take (default VNull (get (str "v") incoming)) (default 0 (get (str "ts") incoming ≫= number))
    (default [] (get (str "r") incoming ≫= as_str)) s.

Section lww.
Context `{JsonText}.

Definition lww_answer (s : Lww) : Value := VObject [(str "value", lww_value s); (str "ts", VInt (ts s))].

Definition Lww_step (command : bytes) (args : list bytes) (s : Lww) : Value * Lww :=
  if decide (command = str "set") then
    answer (word args 0) s (fun replica => answer (word args 1) s (fun v => answer (int args 2) s (fun t =>
      let s := lww_take (VString v) t replica s in (lww_answer s, s))))
  else if decide (command = str "value") then answer (word args 0) s (fun _ => (lww_answer s, s))
  else if decide (command = str "state") then
    answer (word args 0) s (fun _ => (VObject [(str "state", Lww_state s)], s))
  else if decide (command = str "merge") then
    answer (word args 0) s (fun _ => answer (json_arg args 1) s (fun incoming =>
      let s := Lww_merge incoming s in (VObject [(str "value", lww_value s)], s)))
  else (unknown_command command, s).
End lww.

(** ** [or-set] *)

Record OrSet : Type := mkOrSet {
  seq : Z;
  adds : gmap bytes (gset bytes);
  removed : gset bytes;
}.

Definition OrSet_default : OrSet := mkOrSet 0 ∅ ∅.

(** A [BTreeSet] of strings, in its order. *)
Definition set_entries (X : gset bytes) : list bytes := sort_by bytes_le (base.elements X).
Definition strings (l : list bytes) : Value := VArray (map VString l).

Definition live (s : OrSet) (tags : gset bytes) : bool :=
  existsb (fun t => negb (bool_decide (t ∈ removed s))) (set_entries tags).
Definition elements (s : OrSet) : list bytes :=
  map fst (List.filter (fun p => live s p.2) (OrdMap.entries (adds s))).

Definition OrSet_state (s : OrSet) : Value :=
  VObject [
    (str "a", VObject (map (fun p => (p.1, strings (set_entries p.2))) (OrdMap.entries (adds s))));
    (str "r", strings (set_entries (removed s)))].

Definition tags_of (s : OrSet) (element : bytes) : gset bytes := default ∅ (adds s !! element).

Definition mint (replica : bytes) (n : Z) : bytes := replica ++ str "." ++ dec n.

(** The sequence number is a [u64]. *)
Definition or_add (replica element : bytes) (s : OrSet) : OrSet :=
  let n := wrap_u 64 (seq s + 1) in
  mkOrSet n (<[element := tags_of s element ∪ {[mint replica n]}]> (adds s)) (removed s).

Definition or_remove (element : bytes) (s : OrSet) : OrSet :=
  mkOrSet (seq s) (adds s) (removed s ∪ tags_of s element).

Section or_set.
Context `{JsonText}.

(** The loop over the add half: an entry that is no list of strings stops it. *)
Fixpoint merge_adds (l : list (bytes * Value)) (m : gmap bytes (gset bytes))
    : Result Value unit * gmap bytes (gset bytes) :=
  match l with
  | [] => (Ok tt, m)
  | (element, tags) :: l =>
      match string_list (Some tags) with
      | Err e => (Err e, m)
      | Ok tags => merge_adds l (<[element := default ∅ (m !! element) ∪ list_to_set tags]> m)
      end
  end.

Definition merge_add_half (incoming : option Value) (m : gmap bytes (gset bytes))
    : Result Value unit * gmap bytes (gset bytes) :=
  match incoming with
  | None => (Ok tt, m)
  | Some adds =>
      match as_object adds with
      | None => (Err (err (str "the add half of an or-set state must be an object")), m)
      | Some l => merge_adds l m
      end
  end.

Definition OrSet_merge (incoming : Value) (s : OrSet) : Result Value unit * OrSet :=
  let '(r, a) := merge_add_half (get (str "a") incoming) (adds s) in
  match r with
  | Err e => (Err e, mkOrSet (seq s) a (removed s))
  | Ok _ =>
      match string_list (get (str "r") incoming) with
      | Err e => (Err e, mkOrSet (seq s) a (removed s))
      | Ok tags => (Ok tt, mkOrSet (seq s) a (removed s ∪ list_to_set tags))
      end
  end.

Definition elements_answer (s : OrSet) : Value := VObject [(str "elements", strings (elements s))].

Definition OrSet_step (command : bytes) (args : list bytes) (s : OrSet) : Value * OrSet :=
  if decide (command = str "add") then
    answer (word args 0) s (fun replica => answer (word args 1) s (fun element =>
      let s := or_add replica element s in (elements_answer s, s)))
  else if decide (command = str "remove") then
    answer (word args 0) s (fun _ => answer (word args 1) s (fun element =>
      let s := or_remove element s in (elements_answer s, s)))
  else if decide (command = str "elements") then answer (word args 0) s (fun _ => (elements_answer s, s))
  else if decide (command = str "state") then
    answer (word args 0) s (fun _ => (VObject [(str "state", OrSet_state s)], s))
  else if decide (command = str "merge") then
    answer (word args 0) s (fun _ => answer (json_arg args 1) s (fun incoming =>
      let '(r, s) := OrSet_merge incoming s in
      match r with Ok _ => (elements_answer s, s) | Err e => (e, s) end))
  else (unknown_command command, s).
End or_set.

(** ** [rga] *)

Record Elem : Type := mkElem {
  ch : bytes;
  after : bytes;
  deleted : bool;
}.

Notation Rga := (gmap bytes Elem).

Definition root : bytes := str "root".

(** The children of a place: largest id first. *)
Definition kids (s : Rga) (parent : bytes) : list bytes :=
  reverse (sort_by bytes_le
    (map fst (List.filter (fun p => bool_decide (after p.2 = parent)) (OrdMap.entries s)))).

(** The recursion goes one level down the tree per unit of fuel; [None] is a
  recursion that has not ended. *)
Fixpoint walk (fuel : nat) (s : Rga) (parent : bytes) (out : bytes) : option bytes :=
  match fuel with
  | O => None
  | S fuel =>
      foldl (fun acc id =>
        out ← acc;
        match s !! id with
        | None => Some out
        | Some e => walk fuel s id (if deleted e then out else out ++ ch e)
        end) (Some out) (kids s parent)
  end.

(** No path down the tree is longer than the elements are many. *)
Definition text (s : Rga) : option bytes := walk (S (size s)) s root [].

Definition elem_to_json (e : Elem) : Value :=
  VObject [(str "c", VString (ch e)); (str "a", VString (after e)); (str "d", VBool (deleted e))].
Definition Rga_state (s : Rga) : Value :=
  VObject [(str "e", VObject (map (fun p => (p.1, elem_to_json p.2)) (OrdMap.entries s)))].

Definition merge_elem (id : bytes) (e : Value) (s : Rga) : Rga :=
  let c := default [] (get (str "c") e ≫= as_str) in
  let a := default root (get (str "a") e ≫= as_str) in
  let d := default false (get (str "d") e ≫= as_bool) in
  match s !! id with
  | Some old => <[id := mkElem (ch old) (after old) (deleted old || d)]> s
  | None => <[id := mkElem c a d]> s
  end.

Definition merge_elems (l : list (bytes * Value)) (s : Rga) : Rga :=
  foldl (fun s p => merge_elem p.1 p.2 s) s l.

Definition set_deleted (e : Elem) : Elem := mkElem (ch e) (after e) true.

Section rga.
Context `{JsonText}.

(** An answer that reads the text; there is none while the walk goes on. *)
Definition text_answer (s : Rga) : option (Value * Rga) :=
  t ← text s; Some (VObject [(str "text", VString t)], s).

Definition rga_insert (after_ id c : bytes) (s : Rga) : option (Value * Rga) :=
  if decide (id = root) then Some (err (str "'root' is the name of the start of the sequence"), s)
  else if decide (is_Some (s !! id)) then Some (err (str "there is already an element " ++ debug_str id), s)
  else if decide (after_ <> root /\ ~ is_Some (s !! after_)) then
    Some (err (str "there is no element " ++ debug_str after_ ++ str " to insert after"), s)
  else text_answer (<[id := mkElem c after_ false]> s).

Definition rga_delete (id : bytes) (s : Rga) : option (Value * Rga) :=
  match s !! id with
  | None => Some (err (str "there is no element " ++ debug_str id), s)
  | Some e => text_answer (<[id := set_deleted e]> s)
  end.

(** [answer] of a command that may not come back. *)
Definition reply {A} (r : Result Value A) (s : Rga) (k : A -> option (Value * Rga)) : option (Value * Rga) :=
  match r with Ok a => k a | Err e => Some (e, s) end.

Definition Rga_step (command : bytes) (args : list bytes) (s : Rga) : option (Value * Rga) :=
  if decide (command = str "insert") then
    reply (word args 0) s (fun _ => reply (word args 1) s (fun after_ =>
    reply (word args 2) s (fun id => reply (word args 3) s (fun c => rga_insert after_ id c s))))
  else if decide (command = str "delete") then
    reply (word args 0) s (fun _ => reply (word args 1) s (fun id => rga_delete id s))
  else if decide (command = str "text") then reply (word args 0) s (fun _ => text_answer s)
  else if decide (command = str "state") then
    reply (word args 0) s (fun _ => Some (VObject [(str "state", Rga_state s)], s))
  else if decide (command = str "merge") then
    reply (word args 0) s (fun _ => reply (json_arg args 1) s (fun incoming =>
      match get (str "e") incoming ≫= as_object with
      | None => Some (err (str "an rga state must carry an object of elements"), s)
      | Some l => text_answer (merge_elems l s)
      end))
  else Some (unknown_command command, s).
End rga.

(** ** The examples of stages 14 to 16 *)

Example concurrent_add_survives :
  elements (or_remove (str "x") (or_add (str "a") (str "x") OrSet_default)) = []
  /\ elements (OrSet_merge (OrSet_state (or_add (str "b") (str "x") OrSet_default))
       (or_remove (str "x") (or_add (str "a") (str "x") OrSet_default))).2 = [str "x"].
Proof. split; vm_compute; reflexivity. Qed.

Example siblings_newest_first :
  text {[str "1" := mkElem (str "a") root false; str "2" := mkElem (str "b") (str "1") false;
         str "3" := mkElem (str "c") (str "1") false; str "4" := mkElem (str "d") root true]} = Some (str "acb").
Proof. vm_compute. reflexivity. Qed.
