(* ===== verification/Replicas.v ===== *)
(** * Replicas that exchange states

  The promise the replicated data types make to each other: a state is an element
  of a join semilattice, a write joins something small into it, a merge joins the
  other replica's state into it, and the answers read nothing but the element.  Any
  number of replicas may write under their own names, ship their states, and merge
  shipped states late, twice, or in any order; replicas that know the same writes
  answer the same. *)

From Stdlib Require Import ssreflect.
From S2P Require Import Prelude Text Topic.
From stdpp Require Import base.
#[local] Open Scope general_if_scope.

(** ** Join semilattices *)

Class Semilattice (L : Type) `{Join L, Bottom L} : Prop := {
  join_comm :: Comm (=@{L}) (⊔);
  join_assoc :: Assoc (=@{L}) (⊔);
  join_idemp :: IdemP (=@{L}) (⊔);
  join_bottom :: LeftId (=@{L}) ⊥ (⊔);
}.

#[export] Instance prod_join {A B} `{Join A, Join B} : Join (A * B) := fun x y => (x.1 ⊔ y.1, x.2 ⊔ y.2).
#[export] Instance prod_bottom {A B} `{Bottom A, Bottom B} : Bottom (A * B) := (⊥, ⊥).
#[export] Instance prod_semilattice {A B} `{Semilattice A, Semilattice B} : Semilattice (A * B).
Proof.
  split; hnf.
  - intros [a b] [a' b']. by rewrite /join /prod_join /= (comm _ a) (comm _ b).
  - intros [a b] [a' b'] [a'' b'']. by rewrite /join /prod_join /= !(assoc _).
  - intros [a b]. by rewrite /join /prod_join /= !(idemp _).
  - intros [a b]. by rewrite /join /prod_join /= !(left_id _ _).
Qed.

#[export] Instance gset_join `{Countable A} : Join (gset A) := (∪).
#[export] Instance gset_bottom `{Countable A} : Bottom (gset A) := (∅ : gset A).
#[export] Instance gset_semilattice `{Countable A} : Semilattice (gset A).
Proof. split; hnf; intros; unfold join, bottom, gset_join, gset_bottom; set_solver. Qed.

#[export] Instance bool_join : Join bool := orb.
#[export] Instance bool_bottom : Bottom bool := false.
#[export] Instance bool_semilattice : Semilattice bool.
Proof. split; hnf; repeat intros []; reflexivity. Qed.

(** A map joins what both sides have under a key. *)
#[export] Instance map_join `{Countable K} {A} `{Join A} : Join (gmap K A) :=
  union_with (fun a b => Some (a ⊔ b)).
#[export] Instance map_bottom `{Countable K} {A} : Bottom (gmap K A) := (∅ : gmap K A).

Definition opt_join {A} `{Join A} (x y : option A) : option A :=
  match x, y with
  | Some a, Some b => Some (a ⊔ b)
  | Some a, None => Some a
  | None, y => y
  end.

Lemma lookup_join `{Countable K} {A} `{Join A} (m m' : gmap K A) k : (m ⊔ m') !! k = opt_join (m !! k) (m' !! k).
Proof.
  unfold join at 1, map_join. rewrite lookup_union_with. by destruct (m !! k), (m' !! k).
Qed.

(** A join on the values of a map, which need no bottom. *)
Class JoinLaws (A : Type) `{Join A} : Prop := {
  laws_comm :: Comm (=@{A}) (⊔);
  laws_assoc :: Assoc (=@{A}) (⊔);
  laws_idemp :: IdemP (=@{A}) (⊔);
}.

#[export] Instance semilattice_laws `{Semilattice A} : JoinLaws A.
Proof. split; apply _. Qed.

#[export] Instance Z_join : Join Z := Z.max.
#[export] Instance Z_laws : JoinLaws Z.
Proof. split; hnf; unfold join, Z_join; lia. Qed.

#[export] Instance map_semilattice `{Countable K} {A} `{JoinLaws A} : Semilattice (gmap K A).
Proof.
  split; hnf.
  - intros m m'. apply map_eq. intros k. rewrite !lookup_join. destruct (m !! k), (m' !! k); cbn; try done.
    by rewrite (comm _).
  - intros m m' m''. apply map_eq. intros k. rewrite !lookup_join.
    destruct (m !! k), (m' !! k), (m'' !! k); cbn; try done. by rewrite (assoc _).
  - intros m. apply map_eq. intros k. rewrite lookup_join. destruct (m !! k); cbn; try done. by rewrite (idemp _).
  - intros m. apply map_eq. intros k. rewrite lookup_join. unfold bottom, map_bottom. by rewrite lookup_empty.
Qed.

(** The join of the elements of a list whose positions are in a set. *)
Section joins.
Context {L : Type} `{Semilattice L}.

Fixpoint joins_from (n : nat) (ds : list L) (X : gset nat) : L :=
  match ds with
  | [] => ⊥
  | d :: ds => (if decide (n ∈ X) then d else ⊥) ⊔ joins_from (S n) ds X
  end.
Definition joins (ds : list L) (X : gset nat) : L := joins_from 0 ds X.

#[export] Instance join_right_bottom : RightId (=@{L}) ⊥ (⊔).
Proof. intros a. by rewrite (comm _) (left_id _ _). Qed.

Lemma join_four (a b c d : L) : (a ⊔ b) ⊔ (c ⊔ d) = (a ⊔ c) ⊔ (b ⊔ d).
Proof. by rewrite -!(assoc _) (assoc _ b) (comm _ b) -(assoc _ c). Qed.

Lemma joins_from_union n ds X Y : joins_from n ds (X ∪ Y) = joins_from n ds X ⊔ joins_from n ds Y.
Proof.
  revert n. induction ds as [|d ds IH]; intros n; cbn; [by rewrite (left_id _ _)|].
  rewrite IH join_four. f_equal.
  destruct (decide (n ∈ X)), (decide (n ∈ Y)), (decide (n ∈ X ∪ Y)); try set_solver.
  - by rewrite (idemp _).
  - by rewrite (right_id _ _).
  - by rewrite (left_id _ _).
  - by rewrite (left_id _ _).
Qed.

Lemma joins_union ds X Y : joins ds (X ∪ Y) = joins ds X ⊔ joins ds Y.
Proof. apply joins_from_union. Qed.

Lemma joins_from_outside n ds X : (forall k, k ∈ X -> (k < n)%nat) -> joins_from n ds X = ⊥.
Proof.
  revert n. induction ds as [|d ds IH]; intros n HX; cbn; [done|].
  rewrite IH; [intros k Hk; specialize (HX k Hk); lia|].
  destruct (decide (n ∈ X)) as [Hn|]; [specialize (HX n Hn); lia|apply (left_id _ _)].
Qed.

Lemma joins_from_below n ds X : (forall k, (n <= k < n + length ds)%nat -> k ∉ X) -> joins_from n ds X = ⊥.
Proof.
  revert n. induction ds as [|d ds IH]; intros n HX; cbn; [done|]. cbn in HX.
  rewrite IH; [intros k Hk; apply HX; lia|].
  rewrite decide_False; [apply HX; lia|apply (left_id _ _)].
Qed.

Lemma joins_empty ds : joins ds ∅ = ⊥.
Proof. apply joins_from_outside. set_solver. Qed.

Lemma joins_from_app n ds ds' X : joins_from n (ds ++ ds') X = joins_from n ds X ⊔ joins_from (n + length ds) ds' X.
Proof.
  revert n. induction ds as [|d ds IH]; intros n; cbn [joins_from app length].
  - by rewrite Nat.add_0_r (left_id _ _).
  - rewrite IH (assoc _). do 2 f_equal. lia.
Qed.

Lemma joins_snoc_old ds d X : (forall k, k ∈ X -> (k < length ds)%nat) -> joins (ds ++ [d]) X = joins ds X.
Proof.
  intros HX. unfold joins. rewrite joins_from_app (joins_from_outside _ [d] X HX). apply (right_id _ _).
Qed.

Lemma joins_snoc_new ds d X : (forall k, k ∈ X -> (k < length ds)%nat) ->
  joins (ds ++ [d]) (X ∪ {[length ds]}) = joins ds X ⊔ d.
Proof.
  intros HX. rewrite joins_union joins_snoc_old; [done|]. f_equal. unfold joins. rewrite joins_from_app.
  cbn. rewrite decide_True; [set_solver|]. rewrite (right_id _ _) joins_from_below; [|apply (left_id _ _)].
  intros k. cbn. set_solver by lia.
Qed.
End joins.

(** ** The interface *)

(** [step] is the topic; it has no answer where its command does not come back. *)
Class Replicated (S L : Type) `{JsonText} `{Join L, Bottom L} : Type := {
  step : bytes -> list bytes -> S -> option (Value * S);
  initial : S;
  valid : S -> Prop;
  view : S -> L;
  shipped : S -> Value;
  writes : bytes -> list bytes -> S -> Prop;
  delta : bytes -> list bytes -> S -> L;
  asks : bytes -> Prop;
}.

Class ReplicatedLaws (S L : Type) `{Replicated S L} : Prop := {
  lattice :: Semilattice L;
  initial_valid : valid initial;
  initial_view : view initial = ⊥;
  write_joins c args s : valid s -> writes c args s ->
    exists v s', step c args s = Some (v, s') /\ valid s' /\ view s' = view s ⊔ delta c args s;
  ships w args s : step (str "state") (w :: args) s = Some (VObject [(str "state", shipped s)], s);
  merge_joins w raw args s s' : valid s -> valid s' -> from_str raw = Ok (shipped s') ->
    exists v s'', step (str "merge") (w :: raw :: args) s = Some (v, s'') /\ valid s'' /\ view s'' = view s ⊔ view s';
  answers_agree c w args s s' : valid s -> valid s' -> asks c -> view s = view s' ->
    exists v, step c (w :: args) s = Some (v, s) /\ step c (w :: args) s' = Some (v, s');
}.

(** ** The network *)

(** A write, who made it, and the writes its writer knew. *)
Record Event : Type := mkEvent {
  writer : nat;
  command : bytes;
  arguments : list bytes;
  known : gset nat;
}.

Section network.
Context {S L : Type} `{ReplicatedLaws S L}.
(** The name each replica writes under. *)
Context (name : nat -> bytes).

(** A replica and the writes it knows, the states under way, every write so far
  and what it joined in. *)
Record Net : Type := mkNet {
  nodes : list (S * gset nat);
  mail : list (Value * gset nat);
  events : list (Event * L);
}.

Definition net_init (n : nat) : Net := mkNet (replicate n (initial, ∅)) [] [].

Inductive net_step : Net -> Net -> Prop :=
| Write i s X c args v s' ns ms es :
    ns !! i = Some (s, X) -> writes c (name i :: args) s -> step c (name i :: args) s = Some (v, s') ->
    net_step (mkNet ns ms es)
      (mkNet (<[i := (s', X ∪ {[length es]})]> ns) ms (es ++ [(mkEvent i c args X, delta c (name i :: args) s)]))
| Ship i s X v ns ms es :
    ns !! i = Some (s, X) -> step (str "state") [name i] s = Some (VObject [(str "state", v)], s) ->
    net_step (mkNet ns ms es) (mkNet ns ((v, X) :: ms) es)
| Deliver i s X v Y raw answered s' ns ms es :
    ns !! i = Some (s, X) -> (v, Y) ∈ ms -> from_str raw = Ok v ->
    step (str "merge") [name i; raw] s = Some (answered, s') ->
    net_step (mkNet ns ms es) (mkNet (<[i := (s', X ∪ Y)]> ns) ms es).

Inductive reachable (n : nat) : Net -> Prop :=
| reach_init : reachable n (net_init n)
| reach_step N N' : reachable n N -> net_step N N' -> reachable n N'.

(** The steps as functions, for runs that are computed. *)
Definition write_at (i : nat) (c : bytes) (args : list bytes) (N : Net) : option Net :=
  p ← nodes N !! i;
  r ← step c (name i :: args) p.1;
  Some (mkNet (<[i := (r.2, p.2 ∪ {[length (events N)]})]> (nodes N)) (mail N)
    (events N ++ [(mkEvent i c args p.2, delta c (name i :: args) p.1)])).

Definition ship_from (i : nat) (N : Net) : option Net :=
  p ← nodes N !! i; Some (mkNet (nodes N) ((shipped p.1, p.2) :: mail N) (events N)).

(** The state at a position of the mail. *)
Definition deliver_to (i j : nat) (raw : bytes) (N : Net) : option Net :=
  p ← nodes N !! i;
  m ← mail N !! j;
  r ← step (str "merge") [name i; raw] p.1;
  Some (mkNet (<[i := (r.2, p.2 ∪ m.2)]> (nodes N)) (mail N) (events N)).

Lemma write_at_step i c args N N' : write_at i c args N = Some N' ->
  (forall s X, nodes N !! i = Some (s, X) -> writes c (name i :: args) s) -> net_step N N'.
Proof.
  destruct N as [ns ms es]. unfold write_at; cbn. destruct (ns !! i) as [[s X]|] eqn:Hi; cbn; [|done].
  destruct (step _ _ _) as [[v s']|] eqn:E; cbn; [|done]. intros [= <-] Hw. eapply Write; [done| |exact E].
  by eapply Hw.
Qed.

Lemma ship_from_step i N N' : ship_from i N = Some N' -> net_step N N'.
Proof.
  destruct N as [ns ms es]. unfold ship_from; cbn. destruct (ns !! i) as [[s X]|] eqn:Hi; cbn; [|done].
  intros [= <-]. eapply Ship; [done|]. apply ships.
Qed.

Lemma deliver_to_step i j raw N N' : deliver_to i j raw N = Some N' ->
  (forall v X, mail N !! j = Some (v, X) -> from_str raw = Ok v) -> net_step N N'.
Proof.
  destruct N as [ns ms es]. unfold deliver_to; cbn. destruct (ns !! i) as [[s X]|] eqn:Hi; cbn; [|done].
  destruct (ms !! j) as [[v Y]|] eqn:Hj; cbn; [|done].
  destruct (step _ _ _) as [[v' s']|] eqn:E; cbn; [|done]. intros [= <-] Hr.
  eapply Deliver; [done|by eapply list_elem_of_lookup_2|by eapply Hr|exact E].
Qed.

(** A run as a list of actions. *)
Inductive Action : Type :=
| Writes (i : nat) (c : bytes) (args : list bytes)
| Ships (i : nat)
| Delivers (i j : nat) (raw : bytes).

Definition act (a : Action) (N : Net) : option Net :=
  match a with
  | Writes i c args => write_at i c args N
  | Ships i => ship_from i N
  | Delivers i j raw => deliver_to i j raw N
  end.

Definition allowed (a : Action) (N : Net) : Prop :=
  match a with
  | Writes i c args => match nodes N !! i with Some (s, _) => writes c (name i :: args) s | None => True end
  | Ships _ => True
  | Delivers _ j raw => match mail N !! j with Some (v, _) => from_str raw = Ok v | None => True end
  end.

Fixpoint run (actions : list Action) (N : Net) : option Net :=
  match actions with
  | [] => Some N
  | a :: actions => act a N ≫= run actions
  end.

Fixpoint run_allowed (actions : list Action) (N : Net) : Prop :=
  match actions with
  | [] => True
  | a :: actions => allowed a N /\ match act a N with Some N => run_allowed actions N | None => True end
  end.

Lemma run_reachable n actions N N' :
  reachable n N -> run actions N = Some N' -> run_allowed actions N -> reachable n N'.
Proof.
  revert N. induction actions as [|a actions IH]; intros N HN; cbn; [by intros [= <-]|].
  destruct (act a N) as [N1|] eqn:E; cbn; [|done]. intros Hr [Ha Hs]. eapply IH; [|done|done].
  eapply reach_step; [exact HN|]. destruct a as [i c args|i|i j raw]; cbn in *.
  - eapply write_at_step; [exact E|]. intros s X Hi. by rewrite Hi in Ha.
  - by eapply ship_from_step.
  - eapply deliver_to_step; [exact E|]. intros v X Hj. by rewrite Hj in Ha.
Qed.

(** What a replica that knows the writes [X] holds. *)
Definition holds (es : list (Event * L)) (s : S) (X : gset nat) : Prop :=
  valid s /\ view s = joins es.*2 X /\ forall k, k ∈ X -> (k < length es)%nat.

Definition net_holds (N : Net) : Prop :=
  Forall (fun p => holds (events N) p.1 p.2) (nodes N) /\
  Forall (fun p => exists s, p.1 = shipped s /\ holds (events N) s p.2) (mail N).

Lemma holds_snoc es e s X : holds es s X -> holds (es ++ [e]) s X.
Proof.
  intros (Hv & E & HX). split; [done|]. rewrite fmap_app length_app. split.
  - rewrite joins_snoc_old; [by rewrite length_fmap|done].
  - intros k Hk. specialize (HX k Hk). lia.
Qed.

Lemma holds_union es s s' s'' X Y :
  holds es s X -> holds es s' Y -> valid s'' -> view s'' = view s ⊔ view s' -> holds es s'' (X ∪ Y).
Proof.
  intros (_ & E & HX) (_ & E' & HY) Hv E''. split; [done|]. split; [by rewrite joins_union E'' E E'|set_solver].
Qed.

Lemma net_step_holds N N' : net_holds N -> net_step N N' -> net_holds N'.
Proof.
  intros [Hn Hm] Hs. destruct Hs as [i s X c args v s' ns ms es Hi Hw Hc|i s X v ns ms es Hi Hc
    |i s X v Y raw w s' ns ms es Hi Hv Hr Hc]; cbn in *.
  - destruct (Forall_lookup_1 _ _ _ _ Hn Hi) as (Hok & E & HX); cbn in *.
    destruct (write_joins _ _ _ Hok Hw) as (v' & s'' & Hc' & Hok' & E'). rewrite Hc in Hc'. simplify_eq.
    split; cbn.
    + apply Forall_insert; [eapply Forall_impl; [|exact Hn]; intros; by apply holds_snoc|].
      split; [done|]. cbn. rewrite fmap_app length_app E' E. cbn. split.
      * rewrite -(length_fmap snd es) joins_snoc_new //. by rewrite length_fmap.
      * intros k. rewrite elem_of_union elem_of_singleton. intros [Hk| ->]; [specialize (HX k Hk)|]; lia.
    + eapply Forall_impl; [|exact Hm]. intros p (s0 & Es & Hh). exists s0. split; [done|]. by apply holds_snoc.
  - split; [done|]. cbn. constructor; [|done]. exists s. cbn.
    rewrite ships in Hc. simplify_eq. split; [done|]. apply (Forall_lookup_1 _ _ _ _ Hn Hi).
  - split; [|done]. cbn. apply Forall_insert; [done|]. cbn.
    destruct (proj1 (list.Forall_forall _ _) Hm _ Hv) as (s0 & Es & Hh). cbn in Es. subst v.
    pose proof (Forall_lookup_1 _ _ _ _ Hn Hi) as Hs. cbn in *.
    destruct (merge_joins (name i) raw [] s s0 (proj1 Hs) (proj1 Hh) Hr) as (v' & s'' & Hc' & Hok' & E').
    rewrite Hc in Hc'. simplify_eq. eapply holds_union; [exact Hs|exact Hh|done|done].
Qed.

Lemma reachable_holds n N : reachable n N -> net_holds N.
Proof.
  induction 1 as [|N N' _ IH Hs]; [|by eapply net_step_holds].
  split; cbn; [|constructor]. apply Forall_replicate. split; [apply initial_valid|]. cbn.
  split; [|set_solver]. apply initial_view.
Qed.

(** Every command of the scope comes back, in every state of the network. *)
Definition no_command_fails (N : Net) : Prop :=
  forall i s X, nodes N !! i = Some (s, X) ->
    (forall c args, writes c (name i :: args) s -> exists v s', step c (name i :: args) s = Some (v, s')) /\
    (forall v Y raw, (v, Y) ∈ mail N -> from_str raw = Ok v ->
       exists w s', step (str "merge") [name i; raw] s = Some (w, s')) /\
    (forall c, asks c -> exists v, step c [name i] s = Some (v, s)).

(** Replicas that know the same writes give the same answers. *)
Definition same_knowledge_same_answers (N : Net) : Prop :=
  forall i j s s' X c w, nodes N !! i = Some (s, X) -> nodes N !! j = Some (s', X) -> asks c ->
    exists v, step c [w] s = Some (v, s) /\ step c [w] s' = Some (v, s').

Lemma holds_answers n N : reachable n N -> no_command_fails N /\ same_knowledge_same_answers N.
Proof.
  intros [Hn Hm]%reachable_holds. split.
  - intros i s X Hi. pose proof (Forall_lookup_1 _ _ _ _ Hn Hi) as Hs. split; [|split].
    + intros c args Hw. destruct (write_joins _ _ _ (proj1 Hs) Hw) as (v & s' & E & _). eauto.
    + intros v Y raw Hv Hr. destruct (proj1 (list.Forall_forall _ _) Hm _ Hv) as (s0 & Es & Hh). cbn in Es. subst v.
      destruct (merge_joins (name i) raw [] s s0 (proj1 Hs) (proj1 Hh) Hr) as (w & s' & E & _). eauto.
    + intros c Hc. destruct (answers_agree c (name i) [] s s (proj1 Hs) (proj1 Hs) Hc eq_refl) as (v & E & _). eauto.
  - intros i j s s' X c w Hi Hj Hc.
    destruct (Forall_lookup_1 _ _ _ _ Hn Hi) as (Hv & E & _), (Forall_lookup_1 _ _ _ _ Hn Hj) as (Hv' & E' & _).
    cbn in *. apply answers_agree; [done..|]. by rewrite E E'.
Qed.

(** ** What a replica knows *)

Definition log (N : Net) : list Event := (events N).*1.

(** Of one writer, a replica knows everything up to some point. *)
Definition prefixes (l : list Event) (X : gset nat) : Prop :=
  (forall k, k ∈ X -> (k < length l)%nat) /\
  forall k k' e e', k ∈ X -> l !! k = Some e -> l !! k' = Some e' -> writer e' = writer e -> (k' < k)%nat -> k' ∈ X.

Record causal (N : Net) : Prop := {
  causal_nodes : forall i s X, nodes N !! i = Some (s, X) ->
    prefixes (log N) X /\ forall k e, log N !! k = Some e -> writer e = i -> k ∈ X;
  causal_mail : forall v Y, (v, Y) ∈ mail N -> prefixes (log N) Y;
  causal_log : forall k e, log N !! k = Some e -> (writer e < length (nodes N))%nat /\
    prefixes (log N) (known e) /\ forall k', k' ∈ known e -> (k' < k)%nat;
}.

Lemma prefixes_snoc l e X : prefixes l X -> prefixes (l ++ [e]) X.
Proof.
  intros [HX Hp]. split; [intros k Hk; rewrite length_app; specialize (HX k Hk); lia|].
  intros k k' e1 e2 Hk E1 E2 Hw Hlt. specialize (HX k Hk).
  rewrite lookup_app_l in E1; [lia|]. rewrite lookup_app_l in E2; [lia|]. eauto.
Qed.

Lemma prefixes_union l X Y : prefixes l X -> prefixes l Y -> prefixes l (X ∪ Y).
Proof. intros [HX Hp] [HY Hq]. split; [set_solver|]. intros k k' e e' [Hk|Hk]%elem_of_union; set_solver. Qed.

Lemma prefixes_write l e X : prefixes l X -> (forall k e', l !! k = Some e' -> writer e' = writer e -> k ∈ X) ->
  prefixes (l ++ [e]) (X ∪ {[length l]}).
Proof.
  intros HX Hown. pose proof (prefixes_snoc l e X HX) as [HX' Hp]. split.
  - intros k. rewrite elem_of_union elem_of_singleton length_app. intros [Hk| ->]; cbn; [|lia].
    specialize (proj1 HX k Hk). lia.
  - intros k k' e1 e2 [Hk|Hk]%elem_of_union E1 E2 Hw Hlt; [set_solver|]. apply elem_of_singleton in Hk. subst k.
    rewrite lookup_app_r in E1; [lia|]. rewrite Nat.sub_diag in E1. cbn in E1. simplify_eq.
    rewrite lookup_app_l in E2; [lia|]. set_solver.
Qed.

Lemma net_step_causal N N' : causal N -> net_step N N' -> causal N'.
Proof.
  intros [Hn Hm Hl] Hs. destruct Hs as [i s X c args v s' ns ms es Hi Hw Hc|i s X v ns ms es Hi Hc
    |i s X v Y raw w s' ns ms es Hi Hv Hr Hc]; unfold log in *; cbn in *.
  - destruct (Hn _ _ _ Hi) as [HX Hown]. set (e := mkEvent i c args X).
    assert (forall k e0, (es.*1 ++ [e]) !! k = Some e0 -> es.*1 !! k = Some e0 \/ k = length es /\ e0 = e) as Hlook.
    { intros k e0 [E|[Hge E]]%lookup_app_Some; [by left|]. right. rewrite length_fmap in Hge, E |- *.
      apply list_lookup_singleton_Some in E as [? ->]. split; [lia|done]. }
    split; unfold log; cbn; rewrite ?fmap_app; cbn; fold e.
    + intros j s0 Y Hj. destruct (decide (j = i)) as [->|Hne].
      * rewrite list_lookup_insert_eq in Hj; [by eapply lookup_lt_Some|]. simplify_eq. split.
        -- rewrite -(length_fmap fst es). apply prefixes_write; [done|]. intros k e' E Hwr. by eapply Hown.
        -- intros k e0 [E| [-> ->]]%Hlook Hwr; [|set_solver]. apply elem_of_union_l. by eapply Hown.
      * rewrite list_lookup_insert_ne in Hj; [done|]. destruct (Hn _ _ _ Hj) as [HY Hown'].
        split; [by apply prefixes_snoc|]. intros k e0 [E| [-> ->]]%Hlook Hwr; [by eapply Hown'|]. by cbn in Hwr.
    + intros v0 Y HY. apply prefixes_snoc. by eapply Hm.
    + intros k e0 [E| [-> ->]]%Hlook; rewrite length_insert.
      * destruct (Hl _ _ E) as (? & ? & ?). split; [done|]. split; [by apply prefixes_snoc|done].
      * cbn. split; [by eapply lookup_lt_Some|]. split; [by apply prefixes_snoc|].
        intros k' Hk'. rewrite -(length_fmap fst es). by apply HX.
  - split; unfold log; cbn; [done| |done]. intros v0 Y [E|HY]%elem_of_cons; [|by eapply Hm].
    simplify_eq. by eapply Hn.
  - split; unfold log; cbn; [|done|by rewrite length_insert].
    intros j s0 Z Hj. destruct (decide (j = i)) as [->|Hne].
    + rewrite list_lookup_insert_eq in Hj; [by eapply lookup_lt_Some|]. simplify_eq.
      destruct (Hn _ _ _ Hi) as [HX Hown]. split; [apply prefixes_union; [done|by eapply Hm]|].
      intros k e E Hwr. apply elem_of_union_l. by eapply Hown.
    + rewrite list_lookup_insert_ne in Hj; [done|]. by eapply Hn.
Qed.

Lemma reachable_causal n N : reachable n N -> causal N.
Proof.
  induction 1 as [|N N' _ IH Hs]; [|by eapply net_step_causal].
  split; unfold log; cbn; [|set_solver|done].
  intros i s X [E _]%lookup_replicate. simplify_eq. split; [|done]. split; set_solver.
Qed.

Lemma reachable_nodes n N : reachable n N -> length (nodes N) = n.
Proof.
  induction 1 as [|N N' _ IH Hs]; [apply length_replicate|]. destruct Hs; cbn in *; by rewrite ?length_insert.
Qed.

(** ** Invariants of what is known

  [P] relates an element to the writes that made it, [Q] a replica to its own. *)

Section known.
Context (P : list Event -> L -> gset nat -> Prop) (Q : list Event -> nat -> S -> Prop).
Context (P_start : P [] ⊥ ∅) (Q_start : forall i, Q [] i initial).
Context (P_snoc : forall l e a X, (exists s, writes (command e) (name (writer e) :: arguments e) s) ->
  (forall k, k ∈ known e -> (k < length l)%nat) -> (forall k, k ∈ X -> (k < length l)%nat) -> P l a X -> P (l ++ [e]) a X).
Context (Q_snoc : forall l e i s, writer e <> i -> Q l i s -> Q (l ++ [e]) i s).
Context (P_write : forall l i c args s X v s', valid s -> prefixes l X ->
  (forall k e, l !! k = Some e -> writer e = i -> k ∈ X) -> P l (view s) X -> Q l i s ->
  writes c (name i :: args) s -> step c (name i :: args) s = Some (v, s') ->
  P (l ++ [mkEvent i c args X]) (view s') (X ∪ {[length l]}) /\ Q (l ++ [mkEvent i c args X]) i s').
Context (P_join : forall l s s' X Y, valid s -> valid s' -> prefixes l X -> prefixes l Y ->
  P l (view s) X -> P l (view s') Y -> P l (view s ⊔ view s') (X ∪ Y)).
Context (Q_merge : forall l i raw v s s', Q l i s -> step (str "merge") [name i; raw] s = Some (v, s') -> Q l i s').

Definition known_holds (N : Net) : Prop :=
  (forall i s X, nodes N !! i = Some (s, X) -> P (log N) (view s) X /\ Q (log N) i s) /\
  (forall v Y, (v, Y) ∈ mail N -> exists s, v = shipped s /\ valid s /\ P (log N) (view s) Y).

Lemma net_step_known N N' : net_holds N -> causal N -> known_holds N -> net_step N N' -> known_holds N'.
Proof using P_snoc Q_snoc P_write P_join Q_merge H3.
  intros [Hh _] Hc [Hn Hm] Hs. destruct Hs as [i s X c args v s' ns ms es Hi Hw Hst|i s X v ns ms es Hi Hst
    |i s X v Y raw w s' ns ms es Hi Hv Hr Hst]; unfold log in *; cbn in *.
  - pose proof (Forall_lookup_1 _ _ _ _ Hh Hi) as (Hok & _ & _). cbn in Hok.
    destruct (causal_nodes _ Hc _ _ _ Hi) as [HX Hown]. destruct (Hn _ _ _ Hi) as [HP HQ].
    unfold log in *; cbn in *. split; unfold log; cbn; rewrite fmap_app; cbn.
    + intros j s0 Y Hj. destruct (decide (j = i)) as [->|Hne].
      * rewrite list_lookup_insert_eq in Hj; [by eapply lookup_lt_Some|]. simplify_eq.
        rewrite -(length_fmap fst es). by eapply P_write.
      * rewrite list_lookup_insert_ne in Hj; [done|]. destruct (Hn _ _ _ Hj) as [HP' HQ'].
        destruct (causal_nodes _ Hc _ _ _ Hj) as [[HY _] _]. split; [|by apply Q_snoc].
        apply P_snoc; [by exists s|apply HX|done|done].
    + intros v0 Y HY. destruct (Hm _ _ HY) as (s0 & -> & Hv & HP'). exists s0. split; [done|]. split; [done|].
      apply P_snoc; [by exists s|apply HX| |done]. by apply (causal_mail _ Hc _ _ HY).
  - split; unfold log; cbn; [done|]. intros v0 Y [E|HY]%elem_of_cons; [|by apply Hm].
    rewrite ships in Hst. simplify_eq. exists s. split; [done|].
    pose proof (Forall_lookup_1 _ _ _ _ Hh Hi) as (Hok & _ & _). cbn in Hok. split; [done|]. by eapply Hn.
  - split; unfold log; cbn; [|done]. intros j s0 Z Hj. destruct (decide (j = i)) as [->|Hne].
    + rewrite list_lookup_insert_eq in Hj; [by eapply lookup_lt_Some|]. simplify_eq.
      destruct (Hm _ _ Hv) as (s1 & -> & Hv1 & HP1). destruct (Hn _ _ _ Hi) as [HP HQ].
      pose proof (Forall_lookup_1 _ _ _ _ Hh Hi) as (Hok & _ & _). cbn in Hok.
      destruct (merge_joins (name i) raw [] s s1 Hok Hv1 Hr) as (v' & s'' & E & _ & Ev). rewrite Hst in E. simplify_eq.
      rewrite Ev. split; [|by eapply Q_merge]. apply P_join; [done..| | |done|done].
      * by apply (causal_nodes _ Hc _ _ _ Hi).
      * by apply (causal_mail _ Hc _ _ Hv).
    + rewrite list_lookup_insert_ne in Hj; [done|]. by eapply Hn.
Qed.

Lemma reachable_known n N : reachable n N -> known_holds N.
Proof using P_start Q_start P_snoc Q_snoc P_write P_join Q_merge H3.
  induction 1 as [|N N' Hr IH Hs].
  - split; unfold log; cbn; [|set_solver]. intros i s X [E _]%lookup_replicate. simplify_eq.
    rewrite initial_view. auto.
  - eapply net_step_known; [by eapply reachable_holds|by eapply reachable_causal|done|done].
Qed.
End known.
End network.
