(* ===== verification/RgaWalk.v ===== *)
(** * The walk of the sequence

  [Crdt.text] comes back when nothing is called [root] and every anchor leads there,
  and it then reads every element once: behind its anchor, and among the elements of
  one anchor the largest name first. *)

From S2P Require Import Prelude Text OrdMap Topic Crdt.

(** [place s n id]: the anchors of [id] lead to the root in [n] steps. *)
Inductive place (s : Rga) : nat -> bytes -> Prop :=
| place_root : place s 0 root
| place_next n id e : s !! id = Some e -> place s n (after e) -> place s (S n) id.

Definition grounded (s : Rga) (id : bytes) : Prop := exists n, place s n id.

(** What inserting and merging keep. *)
Definition well_formed (s : Rga) : Prop :=
  s !! root = None /\ forall id e, s !! id = Some e -> grounded s id.

Lemma kids_spec s p id : id ∈ kids s p <-> exists e, s !! id = Some e /\ after e = p.
Proof.
  unfold kids. rewrite elem_of_reverse, sort_by_perm, list_elem_of_In, in_map_iff.
  split.
  - intros ([k e] & <- & Hk). apply filter_In in Hk as [Hk Ha]. apply bool_decide_eq_true in Ha.
    apply list_elem_of_In, list_elem_of_entries in Hk. eauto.
  - intros (e & He & Ha). exists (id, e). split; [done|]. apply filter_In. split; [|by apply bool_decide_eq_true].
    by apply list_elem_of_In, list_elem_of_entries.
Qed.

Lemma NoDup_kids s p : NoDup (kids s p).
Proof.
  unfold kids. rewrite reverse_Permutation, sort_by_perm.
  assert (forall l : list (bytes * Elem), NoDup l.*1 -> NoDup (map fst (List.filter (fun p0 => bool_decide (after p0.2 = p)) l))) as E.
  { induction l as [|[k e] l IH]; cbn; [constructor|]. intros [Hk Hl]%NoDup_cons.
    destruct (bool_decide _); [|by apply IH]. cbn. constructor; [|by apply IH].
    rewrite list_elem_of_In, in_map_iff. intros ([k' e'] & <- & Hin). apply filter_In in Hin as [Hin _]. cbn in *.
    apply Hk. change k' with (k', e').1. apply list_elem_of_fmap_2. by apply list_elem_of_In. }
  apply E, NoDup_map_keys.
Qed.

(** ** Places *)

Section places.
Context (s : Rga) (no_root : s !! root = None).

Lemma place_unique n m id : place s n id -> place s m id -> n = m.
Proof using no_root.
  intros Hn. revert m. induction Hn as [|n id e He Hp IH]; intros m Hm; inversion Hm; subst; try congruence.
  f_equal. apply IH. congruence.
Qed.

(** [m] anchors up from [id] is [p]. *)
Inductive climbs : nat -> bytes -> bytes -> Prop :=
| climbs_here id : climbs 0 id id
| climbs_up m id e p : s !! id = Some e -> climbs m (after e) p -> climbs (S m) id p.

Lemma climbs_place m n id p : climbs m id p -> place s n p -> place s (m + n) id.
Proof. induction 1 as [|m id e p He Hc IH]; cbn; [done|]. intros Hp. econstructor; [exact He|by apply IH]. Qed.

Lemma climbs_fun m id p q : climbs m id p -> climbs m id q -> p = q.
Proof.
  intros H. revert q. induction H as [|m id e p He Hc IH]; intros q Hq; inversion Hq; subst; [done|].
  apply IH. congruence.
Qed.

Lemma climbs_trans m m' x y z : climbs m x y -> climbs m' y z -> climbs (m + m') x z.
Proof. induction 1; cbn; [done|]. econstructor; eauto. Qed.

(** The step below a place. *)
Lemma climbs_last m id p : climbs (S m) id p -> exists k e, climbs m id k /\ s !! k = Some e /\ after e = p.
Proof.
  revert id. induction m as [|m IH]; intros id H; inversion H as [|? ? e ? He Hc]; subst.
  - inversion Hc; subst. exists id, e. split; [constructor|done].
  - apply IH in Hc as (k & e' & Hk & He' & E). exists k, e'. split; [by econstructor|done].
Qed.

Lemma place_climbs n id : place s n id -> climbs n id root.
Proof. induction 1; econstructor; eauto. Qed.

(** The places on the way up from [id] differ, so there are no more of them than elements. *)
Lemma place_path n id : place s n id ->
  exists path : list bytes, length path = n /\ NoDup path /\ forall x, x ∈ path -> is_Some (s !! x) /\
    exists m, (m <= n)%nat /\ place s m x.
Proof using no_root.
  induction 1 as [|n id e He Hp (path & Hl & Hnd & Hx)].
  - exists []. split; [done|]. split; [constructor|set_solver].
  - exists (id :: path). split; [cbn; lia|]. split.
    + constructor; [|done]. intros Hin. destruct (Hx _ Hin) as (_ & m & Hm & Hid).
      assert (m = S n) by (eapply place_unique; [exact Hid|by econstructor]). lia.
    + intros x [->|Hin]%elem_of_cons.
      * split; [eauto|]. exists (S n). split; [lia|by econstructor].
      * destruct (Hx _ Hin) as (Hs & m & Hm & Hid). split; [done|]. exists m. split; [lia|done].
Qed.

Lemma place_bound n id : place s n id -> (n <= size s)%nat.
Proof using no_root.
  intros (path & <- & Hnd & Hx)%place_path.
  assert (size (list_to_set path : gset bytes) <= size (dom s))%nat as Hs.
  { apply subseteq_size. intros x Hin%elem_of_list_to_set. apply elem_of_dom, Hx, Hin. }
  rewrite size_list_to_set in Hs by done. etransitivity; [exact Hs|]. apply Nat.eq_le_incl, size_dom.
Qed.

(** ** The elements below a place, in reading order *)

Fixpoint visits (fuel : nat) (p : bytes) : option (list bytes) :=
  match fuel with
  | O => None
  | S fuel => ls ← mapM (visits fuel) (kids s p); Some (concat (zip_with cons (kids s p) ls))
  end.

Definition shown (id : bytes) : bytes :=
  match s !! id with Some e => if deleted e then [] else ch e | None => [] end.

Lemma walk_fold fuel ks out :
  (forall p out, walk fuel s p out = (fun ids => out ++ concat (map shown ids)) <$> visits fuel p) ->
  Forall (fun k => is_Some (s !! k)) ks ->
  foldl (fun acc id => out ← acc;
    match s !! id with
    | None => Some out
    | Some e => walk fuel s id (if deleted e then out else out ++ ch e)
    end) (Some out) ks
  = (fun ls => out ++ concat (map shown (concat (zip_with cons ks ls)))) <$> mapM (visits fuel) ks.
Proof.
  intros Hw Hks. revert out. induction Hks as [|k ks [e He] Hks IH]; intros out; cbn; [by rewrite app_nil_r|].
  rewrite He. 
  assert ((if deleted e then out else out ++ ch e) = out ++ shown k) as ->.
  { unfold shown. rewrite He. destruct (deleted e); [by rewrite app_nil_r|done]. }
  rewrite Hw. destruct (visits fuel k) as [l|]; cbn.
  - rewrite IH. destruct (mapM _ ks) as [ls|]; cbn; [|done]. f_equal. by rewrite map_app, concat_app, !app_assoc.
  - clear. induction ks as [|k' ks IH]; cbn; [done|exact IH].
Qed.

Lemma walk_visits fuel p out : walk fuel s p out = (fun ids => out ++ concat (map shown ids)) <$> visits fuel p.
Proof.
  revert p out. induction fuel as [|fuel IH]; intros p out; [done|]. cbn [walk visits].
  rewrite walk_fold; [by destruct (mapM _ _)|done|].
  apply list.Forall_forall. intros k (e & He & _)%kids_spec. eauto.
Qed.

Lemma visits_total fuel n p : place s n p -> (size s < n + fuel)%nat -> is_Some (visits fuel p).
Proof using no_root.
  revert n p. induction fuel as [|fuel IH]; intros n p Hp Hf.
  - apply place_bound in Hp. lia.
  - cbn [visits]. assert (is_Some (mapM (visits fuel) (kids s p))) as [ls ->]; [|eauto].
    apply mapM_is_Some, list.Forall_forall. intros k (e & He & <-)%kids_spec.
    apply (IH (S n)); [by econstructor|lia].
Qed.

(** The walk below the places [ks]: each of them, then what is below it. *)
Definition below (ks : list bytes) (x : bytes) : Prop := exists k m, k ∈ ks /\ climbs m x k.

Lemma below_cons k ks x : below (k :: ks) x <-> (exists m, climbs m x k) \/ below ks x.
Proof.
  unfold below. split.
  - intros (k' & m & [->|Hk]%elem_of_cons & Hc); eauto.
  - intros [(m & Hc)|(k' & m & Hk & Hc)]; [exists k, m|exists k', m]; rewrite elem_of_cons; eauto.
Qed.

Lemma climbs_or_here x k : (exists m, climbs m x k) <-> x = k \/ exists m, climbs (S m) x k.
Proof.
  split; [|intros [->|[m Hm]]; eauto using climbs_here].
  intros [[|m] Hm]; [inversion Hm; by left|right; eauto].
Qed.

Lemma concat_spec (f : bytes -> option (list bytes)) ks ls x :
  (forall k l, f k = Some l -> x ∈ l <-> exists m, climbs (S m) x k) ->
  Forall2 (fun k l => f k = Some l) ks ls -> x ∈ concat (zip_with cons ks ls) <-> below ks x.
Proof.
  intros Hf E. induction E as [|k l ks ls Hv E IH]; cbn.
  - split; [set_solver|]. intros (k & m & Hk & _). set_solver.
  - rewrite elem_of_cons, elem_of_app, IH, below_cons, climbs_or_here, (Hf _ _ Hv). tauto.
Qed.

Lemma visits_spec fuel p l x : visits fuel p = Some l -> x ∈ l <-> exists m, climbs (S m) x p.
Proof.
  revert p l x. induction fuel as [|fuel IH]; intros p l x; [done|]. cbn [visits].
  destruct (mapM (visits fuel) (kids s p)) as [ls|] eqn:E; cbn; [|done]. intros [= <-].
  apply mapM_Some in E. rewrite (concat_spec (visits fuel)); [|intros; by apply IH|exact E]. split.
  - intros (k & m & (e & He & <-)%kids_spec & Hm). exists m. rewrite <- (Nat.add_1_r m).
    eapply climbs_trans; [exact Hm|]. econstructor; [exact He|constructor].
  - intros (m & (k & e & Hk & He & Ha)%climbs_last). exists k, m. split; [apply kids_spec; eauto|done].
Qed.

(** Two siblings have nothing below them in common. *)
Lemma below_apart n k k' x m m' :
  place s n k -> place s n k' -> climbs m x k -> climbs m' x k' -> m = m' /\ k = k'.
Proof using no_root.
  intros Hk Hk' Hx Hx'. assert (m + n = m' + n)%nat.
  { eapply place_unique; eapply climbs_place; eauto. }
  assert (m = m') as <- by lia. split; [done|]. by eapply climbs_fun.
Qed.

Lemma below_not n k ks x m : Forall (place s n) (k :: ks) -> k ∉ ks -> climbs m x k -> ~ below ks x.
Proof using no_root.
  intros [Hk Hks]%Forall_cons Hnot Hx (k' & m' & Hk' & Hx'). apply Hnot.
  destruct (below_apart n k k' x m m') as [_ ->]; auto. by apply (proj1 (list.Forall_forall _ _) Hks).
Qed.

Lemma kids_place n p : place s n p -> Forall (place s (S n)) (kids s p).
Proof. intros Hp. apply list.Forall_forall. intros k (e & He & <-)%kids_spec. by econstructor. Qed.

(** ** Every element once *)

Lemma concat_NoDup n (f : bytes -> option (list bytes)) ks ls :
  (forall k l x, f k = Some l -> x ∈ l <-> exists m, climbs (S m) x k) ->
  (forall k l, place s n k -> f k = Some l -> NoDup l) ->
  Forall2 (fun k l => f k = Some l) ks ls -> Forall (place s n) ks -> NoDup ks -> NoDup (concat (zip_with cons ks ls)).
Proof using no_root.
  intros Hf Hnd E. induction E as [|k l ks ls Hv E IH]; cbn; intros Hks Hndk; [constructor|].
  apply NoDup_cons in Hndk as [Hk Hndk]. pose proof Hks as Hks'. apply Forall_cons in Hks' as [Hpk Hpks].
  assert (forall x, (exists m, climbs m x k) -> x ∉ concat (zip_with cons ks ls)) as Hout.
  { intros x (m & Hx). rewrite (concat_spec f) by eauto. by eapply below_not. }
  apply NoDup_cons. split.
  - rewrite elem_of_app. intros [(m & Hm)%(Hf _ _ _ Hv)|Hin]; [|eapply Hout; [eauto using climbs_here|exact Hin]].
    by destruct (below_apart n k k k (S m) 0 Hpk Hpk Hm (climbs_here k)).
  - apply NoDup_app. split; [by eapply Hnd|]. split; [|by apply IH].
    intros x (m & Hm)%(Hf _ _ _ Hv). eauto.
Qed.

Lemma visits_NoDup fuel n p l : place s n p -> visits fuel p = Some l -> NoDup l.
Proof using no_root.
  revert n p l. induction fuel as [|fuel IH]; intros n p l Hp; [done|]. cbn [visits].
  destruct (mapM (visits fuel) (kids s p)) as [ls|] eqn:E; cbn; [|done]. intros [= <-].
  apply mapM_Some in E. eapply (concat_NoDup (S n) (visits fuel)); [intros; by apply visits_spec with fuel
    |intros; by eapply IH|exact E|by apply kids_place|apply NoDup_kids].
Qed.

(** ** Behind its anchor *)

(** Every element of the list is anchored at one before it. *)
Fixpoint anchored (before : list bytes) (l : list bytes) : Prop :=
  match l with
  | [] => True
  | x :: l => (exists e, s !! x = Some e /\ after e ∈ before) /\ anchored (x :: before) l
  end.

Lemma anchored_weaken b b' l : b ⊆ b' -> anchored b l -> anchored b' l.
Proof.
  revert b b'. induction l as [|x l IH]; intros b b' Hb; cbn; [done|]. intros [(e & He & Ha) Hl].
  split; [eauto|]. eapply IH; [|exact Hl]. set_solver.
Qed.

Lemma anchored_app b l l' : anchored b l -> anchored b l' -> anchored b (l ++ l').
Proof.
  revert b. induction l as [|x l IH]; intros b; cbn; [done|]. intros [Hx Hl] Hl'. split; [done|].
  apply IH; [done|]. eapply anchored_weaken; [|exact Hl']. set_solver.
Qed.

Lemma visits_anchored fuel p l b : p ∈ b -> visits fuel p = Some l -> anchored b l.
Proof.
  revert p l b. induction fuel as [|fuel IH]; intros p l b Hp; [done|]. cbn [visits].
  destruct (mapM (visits fuel) (kids s p)) as [ls|] eqn:E; cbn; [|done]. intros [= <-]. apply mapM_Some in E.
  assert (Forall (fun k => exists e, s !! k = Some e /\ after e ∈ b) (kids s p)) as Hks.
  { apply list.Forall_forall. intros k (e & He & <-)%kids_spec. eauto. }
  revert Hks. induction E as [|k l ks ls Hv E IHE]; cbn; [done|]. intros [Hk Hks]%Forall_cons.
  split; [done|]. apply anchored_app; [eapply IH; [|exact Hv]; set_solver|].
  eapply anchored_weaken; [|by apply IHE]. set_solver.
Qed.

(** ** Among its siblings *)

Definition anchor (x : bytes) : option bytes := after <$> s !! x.

Lemma anchor_climbs x q : anchor x = Some q <-> climbs 1 x q.
Proof.
  unfold anchor. rewrite fmap_Some. split.
  - intros (e & He & ->). econstructor; [exact He|constructor].
  - intros H. inversion H as [|? ? e ? He Hc]; subst. inversion Hc; subst. eauto.
Qed.

(** The siblings of a place in what is read below [ks]. *)
Lemma concat_siblings n q (f : bytes -> option (list bytes)) ks ls :
  (forall k l x, f k = Some l -> x ∈ l <-> exists m, climbs (S m) x k) ->
  (forall k l, k ∈ ks -> f k = Some l ->
     filter (fun x => anchor x = Some q) l = if decide (q ∈ k :: l) then kids s q else []) ->
  (forall k, k ∈ ks -> anchor k <> Some q) ->
  Forall2 (fun k l => f k = Some l) ks ls -> Forall (place s n) ks -> NoDup ks ->
  filter (fun x => anchor x = Some q) (concat (zip_with cons ks ls))
    = if decide (q ∈ concat (zip_with cons ks ls)) then kids s q else [].
Proof using no_root.
  intros Hf Hq Hne E. induction E as [|k l ks ls Hv E IH]; cbn [zip_with concat app]; intros Hks Hnd; [rewrite decide_False by set_solver; done|].
  apply NoDup_cons in Hnd as [Hk Hnd]. pose proof Hks as Hks'. apply Forall_cons in Hks' as [_ Hks'].
  rewrite filter_cons, decide_False by (apply Hne; set_solver). rewrite filter_app, (Hq k l (list_elem_of_here _ _) Hv).
  rewrite IH; [|intros; apply Hq; set_solver|intros; apply Hne; set_solver|done|done].
  destruct (decide (q ∈ k :: l)) as [Hin|Hout].
  - assert (q ∉ concat (zip_with cons ks ls)) as Hno.
    { rewrite (concat_spec f) by eauto. apply elem_of_cons in Hin. rewrite (Hf _ _ q Hv), <- climbs_or_here in Hin.
      destruct Hin as [m Hm]. by eapply below_not. }
    rewrite (decide_False (P := q ∈ concat _)) by done. rewrite app_nil_r, decide_True by set_solver. done.
  - cbn [app]. destruct (decide (q ∈ concat _)), (decide (q ∈ k :: l ++ _)); set_solver.
Qed.

Lemma visits_siblings fuel n p l q : place s n p -> visits fuel p = Some l ->
  filter (fun x => anchor x = Some q) l = if decide (q ∈ p :: l) then kids s q else [].
Proof using no_root.
  revert n p l. induction fuel as [|fuel IH]; intros n p l Hp; [done|]. cbn [visits].
  destruct (mapM (visits fuel) (kids s p)) as [ls|] eqn:E; cbn [mbind option_bind]; [|done]. intros [= <-].
  apply mapM_Some in E. pose proof (kids_place n p Hp) as Hks.
  assert (forall k l x, visits fuel k = Some l -> x ∈ l <-> exists m, climbs (S m) x k) as Hf
    by (intros; by apply visits_spec with fuel).
  destruct (decide (q = p)) as [->|Hne].
  - rewrite decide_True by set_solver. clear IH. revert Hks. 
    assert (forall k, k ∈ kids s p -> anchor k = Some p) as Ha.
    { intros k (e & He & <-)%kids_spec. unfold anchor. by rewrite He. }
    revert Ha. induction E as [|k l ks ls Hv E IH]; intros Ha Hks; [done|].
    apply Forall_cons in Hks as [Hk Hks]. cbn [zip_with concat app].
    rewrite filter_cons, decide_True by (apply Ha; set_solver). f_equal.
    rewrite filter_app, IH; [|intros; apply Ha; set_solver|done].
    rewrite filter_nil_Forall; [done|]. apply list.Forall_forall. intros x (m & Hm)%(Hf _ _ _ Hv) Hx%anchor_climbs.
    pose proof (climbs_place _ _ _ _ Hm Hk). pose proof (climbs_place _ _ _ _ Hx Hp).
    assert (S m + S n = 1 + n)%nat by (by eapply place_unique). lia.
  - rewrite (concat_siblings (S n) q (visits fuel)); [|done| |  |done|done|apply NoDup_kids].
    + destruct (decide (q ∈ concat _)), (decide (q ∈ p :: concat _)); set_solver.
    + intros k l Hk Hv. eapply (IH (S n)); [|done]. by apply (proj1 (list.Forall_forall _ _) Hks).
    + intros k (e & He & <-)%kids_spec. unfold anchor. rewrite He. cbn. congruence.
Qed.
End places.

Lemma StronglySorted_end {A} (R : A -> A -> Prop) l x :
  StronglySorted R l -> Forall (fun y => R y x) l -> StronglySorted R (l ++ [x]).
Proof.
  induction 1 as [|y l Hl IH Hy]; cbn; intros Hx; [repeat constructor|].
  apply Forall_cons in Hx as [Hyx Hx]. constructor; [by apply IH|]. apply Forall_app. auto.
Qed.

Lemma StronglySorted_reverse {A} (R : A -> A -> Prop) l :
  StronglySorted R l -> StronglySorted (flip R) (reverse l).
Proof.
  induction 1 as [|x l Hl IH Hx]; [constructor|]. rewrite reverse_cons. apply StronglySorted_end; [done|].
  by apply Forall_reverse.
Qed.

Lemma kids_descending s p : StronglySorted (fun a b => bytes_le b a = true) (kids s p).
Proof.
  unfold kids. apply (StronglySorted_reverse (fun a b => bytes_le a b = true)), sort_by_sorted.
  - intros a b. apply bytes_le_total.
  - intros a b c. apply bytes_le_trans.
Qed.

(** ** The sequence *)

(** [ids] is the order in which a replica shows its elements. *)
Record reading (s : Rga) (ids : list bytes) : Prop := {
  reads_once : ids ≡ₚ map_keys s;
  reads_behind_anchors : anchored s [root] ids;
  reads_siblings : forall q,
    StronglySorted (fun a b => bytes_le b a = true) (filter (fun id => anchor s id = Some q) ids);
}.

Lemma text_reads s : well_formed s -> exists ids,
  text s = Some (concat (map (shown s) ids)) /\ reading s ids.
Proof.
  intros [Hr Hg]. destruct (visits_total s Hr (S (size s)) 0 root (place_root s) ltac:(lia)) as [ids E].
  exists ids. unfold text. rewrite walk_visits, E by done. split; [done|].
  assert (forall x, x ∈ ids <-> is_Some (s !! x)) as Hin.
  { intros x. rewrite (visits_spec s Hr _ _ _ x E). split.
    - intros (m & Hm). inversion Hm; eauto.
    - intros [e He]. destruct (Hg _ _ He) as ([|n] & Hp); [inversion Hp; subst; congruence|].
      exists n. by apply place_climbs. }
  split.
  - apply NoDup_Permutation; [eapply visits_NoDup; [exact Hr|apply place_root|exact E]|apply NoDup_map_keys|].
    intros x. rewrite Hin. by rewrite list_elem_of_map_keys.
  - eapply (visits_anchored s Hr); [|exact E]. set_solver.
  - intros q. rewrite (visits_siblings s Hr _ 0 root ids q (place_root s) E).
    destruct (decide _); [apply kids_descending|constructor].
Qed.

(** ** A state that carries an element called root

  [insert] refuses the name; [merge] does not, and the walk below such an element
  never ends: the topic does not answer. *)

Lemma root_element_never_ends (s : Rga) e fuel out : s !! root = Some e -> after e = root -> walk fuel s root out = None.
Proof.
  intros He Ha. assert (root ∈ kids s root) as Hin by (apply kids_spec; eauto).
  revert out. induction fuel as [|fuel IH]; intros out; [done|]. cbn [walk].
  generalize (Some out) as acc. clear out. induction (kids s root) as [|k ks IHk]; intros acc; [set_solver|]. cbn [foldl].
  destruct (decide (k = root)) as [->|Hne]; [|apply IHk; set_solver].
  assert ((out ← acc; match s !! root with None => Some out
    | Some e => walk fuel s root (if deleted e then out else out ++ ch e) end) = None) as ->.
  { destruct acc as [b|]; [|done]. cbn [mbind option_bind]. rewrite He. apply IH. }
  clear. induction ks as [|k ks IH]; cbn; [done|exact IH].
Qed.

Lemma merged_root_never_answers `{JsonText} : exists incoming,
  get (str "e") incoming ≫= as_object <> None /\
  forall raw, from_str raw = Ok incoming -> Rga_step (str "merge") [[]; raw] ∅ = None.
Proof.
  exists (Rga_state {[root := mkElem [] root false]}). split; [done|]. intros raw E. unfold Rga_step.
  rewrite !decide_False, decide_True by done. cbn [word lookup list_lookup ok_or reply].
  assert (json_arg [[]; raw] 1 = Ok (Rga_state {[root := mkElem [] root false]})) as ->
    by (unfold json_arg, word; cbn; by rewrite E).
  cbn [reply].
  assert (get (str "e") (Rga_state {[root := mkElem [] root false]}) ≫= as_object =
    Some [(root, elem_to_json (mkElem [] root false))]) as -> by (vm_compute; reflexivity).
  cbv iota beta. unfold text_answer, text. rewrite (root_element_never_ends _ (mkElem [] root false)); [done| |done].
  vm_compute. reflexivity.
Qed.
