(* ===== verification/CrdtNet.v ===== *)
(** * The replicated data types on the network

  Each state of [Crdt] is a join semilattice in the sense of [Replicas]: a counter
  is its two maps of totals, a register the stamp of its write, a set its tags and
  its tombstones, a sequence its elements' tombstones. *)

From S2P Require Import Text OrdMap Topic Crdt Replicas RgaWalk Prelude.

(** ** What a state ships reads back *)


(** Taking entries in one at a time joins the map they make. *)
Lemma join_insert {A} `{Join A} (m m' : gmap bytes A) k a :
  m' !! k = None -> <[k := match m !! k with Some b => b ⊔ a | None => a end]> m ⊔ m' = m ⊔ <[k := a]> m'.
Proof.
  intros Hk. apply map_eq. intros i. rewrite !lookup_join. destruct (decide (i = k)) as [->|Hne].
  - rewrite !lookup_insert_eq, Hk. by destruct (m !! k).
  - by rewrite !lookup_insert_ne by done.
Qed.

Lemma join_nothing {A} `{JoinLaws A} (m : gmap bytes A) : m ⊔ ∅ = m.
Proof. change (m ⊔ ⊥ = m). apply (right_id _ _). Qed.


Lemma join_pair {A B} `{Join A, Join B} (a a' : A) (b b' : B) : (a, b) ⊔ (a', b') = (a ⊔ a', b ⊔ b').
Proof. done. Qed.

Section instances.
Context `{JsonText}.

(** ** Counters *)

Definition counts_ok (m : gmap bytes Z) : Prop := map_Forall (fun _ z => 0 <= z < 2 ^ 63) m.

Lemma counts_ok_join m m' : counts_ok m -> counts_ok m' -> counts_ok (m ⊔ m').
Proof.
  intros Hm Hm' k z. rewrite lookup_join.
  destruct (m !! k) as [a|] eqn:E, (m' !! k) as [b|] eqn:E'; cbn; intros [= <-]; eauto.
  pose proof (Hm _ _ E). pose proof (Hm' _ _ E'). cbn in *. unfold join, Z_join. lia.
Qed.

Lemma number_int z : 0 <= z < 2 ^ 63 -> number (VInt z) = Some z.
Proof. intros Hz. cbn. unfold fits_i64. rewrite (proj2 (andb_true_iff _ _)); [done|]. lia. Qed.

Lemma merge_counts_join l dst : NoDup l.*1 -> counts_ok dst -> Forall (fun p => 0 <= p.2 < 2 ^ 63) l ->
  merge_counts dst (map (fun p => (p.1, VInt p.2)) l) = (Ok tt, dst ⊔ list_to_map l).
Proof.
  revert dst. induction l as [|[k z] l IH]; intros dst; cbn [map merge_counts fst snd].
  - intros. f_equal. symmetry. apply join_nothing.
  - rewrite fmap_cons, list_to_map_cons. cbn [fst snd].
    intros [Hk Hl]%NoDup_cons Hd [Hz Hzs]%Forall_cons. rewrite number_int by done.
    assert (Z.max (default 0 (dst !! k)) z = match dst !! k with Some b => b ⊔ z | None => z end) as ->.
    { cbn in Hz. destruct (dst !! k); cbn; [done|lia]. }
    rewrite IH; [|done| |done].
    + f_equal. apply join_insert. by apply not_elem_of_list_to_map.
    + intros i x. destruct (decide (i = k)) as [->|]; [rewrite lookup_insert_eq|rewrite lookup_insert_ne by done; apply Hd].
      intros [= <-]. destruct (dst !! k) as [b|] eqn:E; [|done]. specialize (Hd _ _ E). cbn in *.
      unfold join, Z_join. lia.
Qed.

Lemma merge_max_join m m' : counts_ok m -> counts_ok m' ->
  merge_max m (Some (counts_to_json m')) = (Ok tt, m ⊔ m').
Proof.
  intros Hm Hm'. cbn [merge_max counts_to_json as_object].
  rewrite merge_counts_join; [by rewrite list_to_map_entries|apply NoDup_map_keys|done|].
  apply list.Forall_forall. intros [k z] Hkz%list_elem_of_entries. by apply (Hm' k).
Qed.

Definition amount (args : list bytes) : Z := default 0 (args !! 1%nat ≫= parse_i64).
Definition total_of (m : gmap bytes Z) (args : list bytes) : Z :=
  default 0 (m !! nth 0 args []) + amount args.

(** Updates by an amount that parses, is not negative, and does not overflow the
  replica's own total. *)
Definition counter_writes (c : bytes) (args : list bytes) (s : Counter) : Prop :=
  match args with
  | _ :: raw :: _ =>
      match parse_i64 raw with
      | Some by_ => 0 <= by_ /\
          (c = str "inc" /\ total_of (p_half s) args < 2 ^ 63 \/
           c = str "dec" /\ signed s = true /\ total_of (n_half s) args < 2 ^ 63)
      | None => False
      end
  | _ => False
  end.

Lemma counter_writes_inv c args s : counter_writes c args s ->
  exists replica raw rest by_, args = replica :: raw :: rest /\ parse_i64 raw = Some by_ /\ 0 <= by_ /\
    (c = str "inc" /\ total_of (p_half s) args < 2 ^ 63 \/
     c = str "dec" /\ signed s = true /\ total_of (n_half s) args < 2 ^ 63).
Proof.
  destruct args as [|r [|raw rest]]; cbn [counter_writes]; [done..|].
  destruct (parse_i64 raw) as [by_|] eqn:E; [|done]. intros [Hb Hc]. by exists r, raw, rest, by_.
Qed.

Definition bumped (m : gmap bytes Z) (args : list bytes) : gmap bytes Z := {[nth 0 args [] := total_of m args]}.

Definition counter_delta (c : bytes) (args : list bytes) (s : Counter) : gmap bytes Z * gmap bytes Z :=
  if decide (c = str "inc") then (bumped (p_half s) args, ∅) else (∅, bumped (n_half s) args).

Definition counter_valid (sg : bool) (s : Counter) : Prop :=
  signed s = sg /\ (sg = false -> n_half s = ∅) /\ counts_ok (p_half s) /\ counts_ok (n_half s).

Definition counter_replicated (sg : bool) : Replicated Counter (gmap bytes Z * gmap bytes Z) := {|
  step := fun c args s => Some (Counter_step c args s);
  initial := Counter_new sg;
  valid := counter_valid sg;
  view := fun s => (p_half s, n_half s);
  shipped := Counter_state;
  writes := counter_writes;
  delta := counter_delta;
  asks := fun c => c = str "value";
|}.

Lemma bump_joins m args by_ : counts_ok m -> amount args = by_ -> 0 <= by_ -> total_of m args < 2 ^ 63 ->
  bump (nth 0 args []) by_ m = m ⊔ bumped m args /\ counts_ok (bumped m args).
Proof.
  intros Hm <- Hb Hlt. assert (0 <= default 0 (m !! nth 0 args [])) as H0.
  { destruct (m !! _) as [b|] eqn:E; cbn; [|lia]. by apply (Hm _ _ E). }
  split.
  - unfold bump, bumped. change (default 0 (m !! nth 0 args []) + amount args) with (total_of m args).
    rewrite wrap_s_small; [|lia|unfold in_s, total_of in *; lia].
    apply map_eq. intros i. rewrite lookup_join. destruct (decide (i = nth 0 args [])) as [->|Hne].
    + rewrite lookup_insert_eq, lookup_singleton_eq. unfold total_of. destruct (m !! _); cbn in *; [|done].
      f_equal. unfold join, Z_join. lia.
    + rewrite lookup_insert_ne, lookup_singleton_ne by done. by destruct (m !! i).
  - apply map_Forall_singleton. unfold total_of in *. lia.
Qed.

Lemma counts_ok_empty : counts_ok ∅.
Proof. apply map_Forall_empty. Qed.

Lemma total_of_amount args r raw rest by_ :
  args = r :: raw :: rest -> parse_i64 raw = Some by_ -> nth 0 args [] = r /\ amount args = by_.
Proof. intros -> E. split; [done|]. unfold amount. cbn. by rewrite E. Qed.

Lemma int_read (args : list bytes) i raw z : args !! i = Some raw -> parse_i64 raw = Some z -> int args i = Ok z.
Proof. intros Ha Hz. unfold int, word. rewrite Ha. cbn. by rewrite Hz. Qed.

Lemma counter_write_step sg c args s : counter_valid sg s -> counter_writes c args s ->
  exists v s', Counter_step c args s = (v, s') /\ counter_valid sg s' /\
    (p_half s', n_half s') = (p_half s, n_half s) ⊔ counter_delta c args s.
Proof.
  intros (Hs & Hn0 & Hp & Hn) (r & raw & rest & by_ & Ea & Eb & Hb & Hc)%counter_writes_inv.
  destruct (total_of_amount _ _ _ _ _ Ea Eb) as [E0 Eam]. unfold counter_delta.
  assert (Counter_step c args s = (value_answer (if decide (c = str "inc") then inc r by_ s else dec_by r by_ s),
    if decide (c = str "inc") then inc r by_ s else dec_by r by_ s)) as ->.
  { unfold Counter_step, counter_write. rewrite decide_True by (destruct Hc as [[-> _]|[-> _]]; tauto).
    rewrite (int_read args 1 raw by_) by (by subst). subst args. cbn [word lookup list_lookup ok_or answer].
    rewrite (proj2 (Z.ltb_ge _ _) Hb).
    destruct Hc as [[-> _]|(-> & Hsg & _)]; [done|]. by rewrite Hsg. }
  eexists _, _. split; [done|]. destruct Hc as [[-> Ht]|(-> & Hsg & Ht)].
  - rewrite !decide_True by done. destruct (bump_joins (p_half s) args by_ Hp Eam Hb Ht) as [E Hok]. rewrite E0 in E.
    split; [|rewrite join_pair, join_nothing; cbn [inc dec_by p_half n_half]; by rewrite E].
    unfold counter_valid; cbn [inc dec_by signed p_half n_half]. rewrite E. split; [done|]. split; [done|].
    split; [by apply counts_ok_join|done].
  - rewrite !decide_False by done. destruct (bump_joins (n_half s) args by_ Hn Eam Hb Ht) as [E Hok]. rewrite E0 in E.
    split; [|rewrite join_pair, join_nothing; cbn [inc dec_by p_half n_half]; by rewrite E].
    unfold counter_valid; cbn [inc dec_by signed p_half n_half]. rewrite E. split; [done|]. split; [congruence|].
    split; [done|by apply counts_ok_join].
Qed.

Lemma merge_step (S : Type) (args : list bytes) w raw v :
  from_str raw = Ok v -> word (w :: raw :: args) 0 = Ok w /\ json_arg (w :: raw :: args) 1 = Ok v.
Proof. intros E. split; [done|]. unfold json_arg, word. cbn. by rewrite E. Qed.

Lemma counter_merge sg s s' : counter_valid sg s -> counter_valid sg s' ->
  Counter_merge (Counter_state s') s = (Ok tt, mkCounter sg (p_half s ⊔ p_half s') (n_half s ⊔ n_half s')).
Proof.
  intros (Hs & Hn0 & Hp & Hn) (Hs' & Hn0' & Hp' & Hn'). unfold Counter_merge, Counter_state. rewrite Hs, Hs'.
  destruct sg.
  - change (get (str "p") _) with (Some (counts_to_json (p_half s'))).
    change (get (str "n") _) with (Some (counts_to_json (n_half s'))). by rewrite !merge_max_join.
  - change (get (str "p") _) with (Some (counts_to_json (p_half s'))).
    change (get (str "n") _) with (@None Value). rewrite merge_max_join by done. cbn [merge_max].
    by rewrite (Hn0' eq_refl), join_nothing.
Qed.

Lemma counter_laws sg : ReplicatedLaws Counter _ (H2 := counter_replicated sg).
Proof.
  split; cbn [valid view step initial shipped writes delta asks counter_replicated].
  - apply _.
  - split; [done|]. split; [done|]. split; apply counts_ok_empty.
  - done.
  - intros c args s Hv Hw. destruct (counter_write_step sg c args s Hv Hw) as (v & s' & -> & Hs'). eauto.
  - done.
  - intros w raw args s s' Hv Hv' E. destruct (merge_step Counter args w raw _ E) as [E0 E1].
    unfold Counter_step. rewrite !decide_False, decide_True by (intros [?|?] || idtac; done).
    rewrite E0, E1. cbn [answer]. rewrite (counter_merge sg) by done. eexists _, _. split; [done|].
    destruct Hv as (_ & Hn0 & Hp & Hn), Hv' as (_ & Hn0' & Hp' & Hn'). split; [|done].
    split; [done|]. split; [|by split; apply counts_ok_join].
    cbn. intros Hsg. by rewrite (Hn0 Hsg), (Hn0' Hsg).
  - intros c w args s s' (Hs & _) (Hs' & _) -> Ev. injection Ev as Ep En. eexists. unfold Counter_step.
    rewrite !decide_False, decide_True by (intros [?|?] || idtac; done). cbn. split; [done|].
    unfold value_answer, value. by rewrite Ep, En.
Qed.
End instances.

(** ** Registers *)

(** What decides between two writes: the timestamp, then the name. *)
Record Stamp : Type := mkStamp {
  at_time : Z;
  by_replica : bytes;
}.

#[export] Instance Stamp_eq_dec : EqDecision Stamp.
Proof. solve_decision. Defined.

Definition stamp_le (a b : Stamp) : bool :=
  (at_time a <? at_time b) || ((at_time a =? at_time b) && bytes_le (by_replica a) (by_replica b)).

#[export] Instance stamp_join : Join Stamp := fun a b => if stamp_le a b then b else a.

Lemma stamp_le_spec a b : stamp_le a b = true <->
  at_time a < at_time b \/ at_time a = at_time b /\ bytes_le (by_replica a) (by_replica b) = true.
Proof. unfold stamp_le. rewrite orb_true_iff, andb_true_iff, Z.ltb_lt, Z.eqb_eq. done. Qed.

Lemma stamp_le_refl a : stamp_le a a = true.
Proof. apply stamp_le_spec. right. split; [done|apply bytes_le_refl]. Qed.

Lemma stamp_le_total a b : stamp_le a b = false -> stamp_le b a = true.
Proof.
  intros Hab. apply stamp_le_spec. destruct (Z.lt_trichotomy (at_time b) (at_time a)) as [?|[E|?]]; [by left| |].
  - right. split; [done|]. apply bytes_le_total. apply not_true_is_false. intros Hle.
    rewrite (proj2 (stamp_le_spec a b)) in Hab; [done|]. right. auto.
  - rewrite (proj2 (stamp_le_spec a b)) in Hab; [done|]. by left.
Qed.

Lemma stamp_le_antisymm a b : stamp_le a b = true -> stamp_le b a = true -> a = b.
Proof.
  rewrite !stamp_le_spec. destruct a, b; cbn. intros [?|[-> ?]] [?|[? ?]]; try lia. f_equal. by apply bytes_le_antisym.
Qed.

Lemma stamp_le_trans a b c : stamp_le a b = true -> stamp_le b c = true -> stamp_le a c = true.
Proof.
  rewrite !stamp_le_spec. intros [?|[? ?]] [?|[? ?]]; try (left; lia). right. split; [lia|].
  by eapply bytes_le_trans.
Qed.

#[export] Instance stamp_laws : JoinLaws Stamp.
Proof.
  split; hnf; unfold join, stamp_join.
  - intros a b. destruct (stamp_le a b) eqn:E, (stamp_le b a) eqn:E'; try done.
    + by apply stamp_le_antisymm.
    + apply stamp_le_total in E. congruence.
  - intros a b c. destruct (stamp_le b c) eqn:E, (stamp_le a b) eqn:E'; rewrite ?E, ?E'; try done.
    + by rewrite (stamp_le_trans a b c).
    + destruct (stamp_le a c) eqn:E''; [|done].
      by rewrite (stamp_le_trans a c b E'' (stamp_le_total _ _ E)) in E'.
  - intros a. by destruct (stamp_le a a).
Qed.

#[export] Instance option_join `{Join A} : Join (option A) := opt_join.
#[export] Instance option_bottom {A} : Bottom (option A) := None.
#[export] Instance option_semilattice `{JoinLaws A} : Semilattice (option A).
Proof.
  split; hnf; change (@join (option A) _) with (@opt_join A _).
  - intros [a|] [b|]; cbn; try done. f_equal. apply (comm _).
  - intros [a|] [b|] [c|]; cbn; try done. f_equal. apply (assoc _).
  - intros [a|]; cbn; [|done]. f_equal. apply (idemp _).
  - done.
Qed.

Definition stamp (s : Lww) : Stamp := mkStamp (ts s) (lww_replica s).
(** The stamp of a register nobody has written. *)
Definition origin : Stamp := mkStamp 0 [].

(** A stamp no later than the origin never wins a register. *)
Definition winning (a : Stamp) : option Stamp := if stamp_le a origin then None else Some a.

Lemma winning_join a b : winning a ⊔ winning b = winning (a ⊔ b).
Proof.
  change (opt_join (winning a) (winning b) = winning (if stamp_le a b then b else a)).
  destruct (stamp_le a b) eqn:E; unfold winning;
    destruct (stamp_le a origin) eqn:Ea, (stamp_le b origin) eqn:Eb; cbn; try done.
  - by rewrite (stamp_le_trans a b origin E Eb) in Ea.
  - unfold join, stamp_join. by rewrite E.
  - by rewrite (stamp_le_trans b a origin (stamp_le_total _ _ E) Ea) in Eb.
  - unfold join, stamp_join. by rewrite E.
Qed.

Lemma beats_stamp t r s : beats t r s = negb (stamp_le (mkStamp t r) (stamp s)).
Proof.
  unfold beats, stamp_le, stamp; cbn.
  destruct (Z.ltb_spec (ts s) t), (Z.ltb_spec t (ts s)), (Z.eqb_spec t (ts s)); cbn; try lia; try done.
  destruct (bytes_le r (lww_replica s)) eqn:E; cbn.
  - destruct (bytes_le (lww_replica s) r) eqn:E'; cbn; [|done].
    rewrite (bytes_le_antisym _ _ E E'). by rewrite bool_decide_true.
  - rewrite (bytes_le_total _ _ E). cbn. rewrite bool_decide_false; [done|]. intros <-.
    by rewrite bytes_le_refl in E.
Qed.

Section lww.
Context `{JsonText}.
(** The value written under a stamp: no replica writes twice under one timestamp. *)
Context (written : Stamp -> Value).

Definition lww_valid (s : Lww) : Prop :=
  stamp_le origin (stamp s) = true /\ in_s 64 (ts s) /\ lww_value s = if decide (stamp s = origin) then VNull else written (stamp s).

Definition set_stamp (args : list bytes) : Stamp := mkStamp (default 0 (args !! 2%nat ≫= parse_i64)) (nth 0 args []).

Definition lww_writes (c : bytes) (args : list bytes) (s : Lww) : Prop :=
  c = str "set" /\ exists replica v raw rest t, args = replica :: v :: raw :: rest /\ parse_i64 raw = Some t /\
    written (mkStamp t replica) = VString v.

#[local] Instance lww_replicated : Replicated Lww (option Stamp) := {|
  step := fun c args s => Some (Lww_step c args s);
  initial := Lww_default;
  valid := lww_valid;
  view := fun s => winning (stamp s);
  shipped := Lww_state;
  writes := lww_writes;
  delta := fun _ args _ => winning (set_stamp args);
  asks := fun c => c = str "value";
|}.

Lemma parse_i64_range raw z : parse_i64 raw = Some z -> in_s 64 z.
Proof.
  unfold parse_i64. destruct (match raw with x2d :: rest => (true, rest) | x2b :: rest => (false, rest) | _ => (false, raw) end)
    as [neg ds]. destruct ds as [|d ds]; [done|]. destruct (digits_value _ _) as [n|]; cbn; [|done].
  destruct (fits_i64 _) eqn:E; [|done]. intros [= <-]. unfold fits_i64 in E. unfold in_s. lia.
Qed.

Lemma lww_take_joins v t r s : lww_valid s -> in_s 64 t ->
  (stamp_le (mkStamp t r) origin = true \/ written (mkStamp t r) = v) ->
  lww_valid (lww_take v t r s) /\ winning (stamp (lww_take v t r s)) = winning (stamp s) ⊔ winning (mkStamp t r).
Proof.
  intros (Ho & Hts & Hv) Ht Hw. rewrite winning_join, (comm (⊔)). unfold lww_take, join, stamp_join. rewrite beats_stamp.
  destruct (stamp_le (mkStamp t r) (stamp s)) eqn:E; cbn [negb]; [done|]. split; [|done].
  assert (stamp_le (stamp s) (mkStamp t r) = true) as Hlt by by apply stamp_le_total.
  split; [by eapply stamp_le_trans|]. split; [done|]. cbn [lww_value].
  destruct Hw as [Hw|Hw]; [by rewrite (stamp_le_trans _ origin (stamp s) Hw Ho) in E|].
  rewrite decide_False; [by symmetry|]. unfold stamp at 1; cbn. intros Heq. rewrite Heq in E. congruence.
Qed.

Lemma lww_ship s s' : lww_valid s -> lww_valid s' ->
  lww_valid (Lww_merge (Lww_state s') s) /\
  winning (stamp (Lww_merge (Lww_state s') s)) = winning (stamp s) ⊔ winning (stamp s').
Proof.
  intros Hs Hs'. pose proof Hs' as (Ho & Hts & Hv).
  assert (Lww_merge (Lww_state s') s = lww_take (lww_value s') (ts s') (lww_replica s') s) as ->.
  { unfold Lww_merge. change (get (str "ts") _ ≫= number) with (number (VInt (ts s'))).
    assert (number (VInt (ts s')) = Some (ts s')) as ->; [|done].
    cbn. unfold fits_i64. rewrite (proj2 (andb_true_iff _ _)); [done|]. unfold in_s in Hts. lia. }
  apply lww_take_joins; [done|done|]. rewrite Hv. change (mkStamp _ _) with (stamp s').
  destruct (decide (stamp s' = origin)) as [->|]; [left; apply stamp_le_refl|by right].
Qed.

Lemma lww_laws : ReplicatedLaws Lww (option Stamp).
Proof.
  split; cbn [valid view step initial shipped writes delta asks lww_replicated].
  - apply _.
  - split; [apply stamp_le_refl|]. split; [|done]. unfold in_s. cbn. lia.
  - done.
  - intros c args s Hs (-> & r & v & raw & rest & t & -> & Et & Hw). unfold Lww_step. rewrite decide_True by done.
    rewrite (int_read _ 2 raw t) by done. cbn [word lookup list_lookup ok_or answer].
    eexists _, _. split; [done|]. unfold set_stamp. cbn [lookup list_lookup mbind option_bind nth]. rewrite Et.
    apply lww_take_joins; [done|by eapply parse_i64_range|by right].
  - done.
  - intros w raw args s s' Hs Hs' E. destruct (merge_step Lww args w raw _ E) as [E0 E1].
    unfold Lww_step. rewrite !decide_False, decide_True by done. rewrite E0, E1. cbn [answer].
    eexists _, _. split; [done|]. by apply lww_ship.
  - intros c w args s s' (Ho & _ & Hv) (Ho' & _ & Hv') -> Ew. unfold winning in Ew.
    assert (stamp s = stamp s') as Es.
    { destruct (stamp_le (stamp s) origin) eqn:E, (stamp_le (stamp s') origin) eqn:E'; try done; [|by apply (inj Some) in Ew].
      transitivity origin; [|symmetry]; by apply stamp_le_antisymm. }
    eexists. unfold Lww_step. rewrite !decide_False, decide_True by done. cbn. split; [done|].
    unfold lww_answer. rewrite Hv, Hv', Es. unfold stamp in Es. by injection Es as <- _.
Qed.
End lww.

(** ** Sets *)

Lemma list_to_set_entries (X : gset bytes) : list_to_set (set_entries X) = X.
Proof. apply set_eq. intros x. unfold set_entries. rewrite elem_of_list_to_set, sort_by_perm. by rewrite elem_of_elements. Qed.

Lemma string_list_strings (l : list bytes) : string_list (Some (strings l)) = Ok l.
Proof. cbn. induction l as [|x l IH]; cbn; [done|]. by rewrite IH. Qed.

Lemma merge_adds_join l m : NoDup l.*1 ->
  merge_adds (map (fun p => (p.1, strings (set_entries p.2))) l) m = (Ok tt, m ⊔ list_to_map l).
Proof.
  revert m. induction l as [|[k X] l IH]; intros m; cbn [map merge_adds fst snd].
  - intros _. f_equal. symmetry. apply join_nothing.
  - rewrite fmap_cons, list_to_map_cons, string_list_strings, list_to_set_entries. intros [Hk Hl]%NoDup_cons.
    assert (default ∅ (m !! k) ∪ X = match m !! k with Some b => b ⊔ X | None => X end) as ->.
    { destruct (m !! k); cbn; [done|set_solver]. }
    rewrite IH by done. f_equal. apply join_insert. by apply not_elem_of_list_to_map.
Qed.

Lemma OrSet_merge_join s s' :
  OrSet_merge (OrSet_state s') s = (Ok tt, mkOrSet (Crdt.seq s) (adds s ⊔ adds s') (removed s ∪ removed s')).
Proof.
  unfold OrSet_merge, OrSet_state. change (get (str "r") _) with (Some (strings (set_entries (removed s')))).
  change (get (str "a") _) with (Some (VObject (map (fun p => (p.1, strings (set_entries p.2))) (OrdMap.entries (adds s'))))).
  cbn [merge_add_half as_object]. rewrite merge_adds_join by apply NoDup_map_keys.
  rewrite string_list_strings, list_to_set_entries. by rewrite list_to_map_entries.
Qed.

Section or_set.
Context `{JsonText}.

Definition or_writes (c : bytes) (args : list bytes) (s : OrSet) : Prop :=
  (c = str "add" \/ c = str "remove") /\ exists replica element rest, args = replica :: element :: rest.

Definition add_tag (args : list bytes) (s : OrSet) : bytes := mint (nth 0 args []) (wrap_u 64 (Crdt.seq s + 1)).

Definition or_delta (c : bytes) (args : list bytes) (s : OrSet) : gmap bytes (gset bytes) * gset bytes :=
  if decide (c = str "add") then ({[nth 1 args [] := {[add_tag args s]}]}, ∅) else (∅, tags_of s (nth 1 args [])).

Definition or_view (s : OrSet) : gmap bytes (gset bytes) * gset bytes := (adds s, removed s).

#[export] Instance or_set_replicated : Replicated OrSet (gmap bytes (gset bytes) * gset bytes) := {|
  step := fun c args s => Some (OrSet_step c args s);
  initial := OrSet_default;
  valid := fun _ => True;
  view := or_view;
  shipped := OrSet_state;
  writes := or_writes;
  delta := or_delta;
  asks := fun c => c = str "elements";
|}.

Lemma or_add_join r e s : adds (or_add r e s) = adds s ⊔ {[e := {[mint r (wrap_u 64 (Crdt.seq s + 1))]}]}.
Proof.
  cbn [or_add adds]. unfold tags_of. apply map_eq. intros i. rewrite lookup_join. destruct (decide (i = e)) as [->|Hne].
  - rewrite lookup_insert_eq, lookup_singleton_eq. destruct (adds s !! e); cbn; [done|]. f_equal. set_solver.
  - rewrite lookup_insert_ne, lookup_singleton_ne by done. by destruct (adds s !! i).
Qed.

Lemma or_write_step c args s : or_writes c args s -> exists s',
  OrSet_step c args s = (elements_answer s', s') /\ or_view s' = or_view s ⊔ or_delta c args s /\
  Crdt.seq s' = if decide (c = str "add") then wrap_u 64 (Crdt.seq s + 1) else Crdt.seq s.
Proof.
  intros (Hc & r & e & rest & ->). unfold or_view, or_delta, add_tag. cbn [nth].
  destruct Hc as [-> | ->]; unfold OrSet_step; cbn [word lookup list_lookup ok_or answer].
  - rewrite !decide_True by done. eexists. split; [done|]. split; [|done].
    rewrite or_add_join. cbn [removed or_add]. rewrite join_pair. f_equal.
    change (removed s = removed s ∪ ∅). set_solver.
  - rewrite !decide_False, decide_True by done. eexists. split; [done|]. split; [|done].
    cbn [adds removed or_remove]. rewrite decide_False by done. by rewrite join_pair, join_nothing.
Qed.

#[export] Instance or_set_laws : ReplicatedLaws OrSet (gmap bytes (gset bytes) * gset bytes).
Proof.
  split; cbn [valid view step initial shipped writes delta asks or_set_replicated].
  - apply _.
  - done.
  - done.
  - intros c args s _ Hw. destruct (or_write_step c args s Hw) as (s' & -> & Hv & _). eauto.
  - done.
  - intros w raw args s s' _ _ E. destruct (merge_step OrSet args w raw _ E) as [E0 E1].
    unfold OrSet_step. rewrite !decide_False, decide_True by done. rewrite E0, E1. cbn [answer].
    rewrite OrSet_merge_join. eauto.
  - intros c w args s s' _ _ -> Ev. injection Ev as Ea Er. eexists. unfold OrSet_step.
    rewrite !decide_False, decide_True by done. cbn [word lookup list_lookup ok_or answer]. split; [done|].
    unfold elements_answer, Crdt.elements, live. by rewrite Ea, Er.
Qed.
End or_set.

(** ** Sequences *)

(** What [merge] makes of an element both sides have. *)
#[export] Instance Elem_join : Join Elem := fun a b => mkElem (ch a) (after a) (deleted a || deleted b).

Lemma merge_elems_join l s : NoDup l.*1 ->
  merge_elems (map (fun p => (p.1, elem_to_json p.2)) l) s = s ⊔ list_to_map l.
Proof.
  revert s. induction l as [|[k e] l IH]; intros s.
  - intros _. apply map_eq. intros i. rewrite lookup_join. cbn. rewrite lookup_empty. by destruct (s !! i).
  - rewrite fmap_cons, list_to_map_cons. intros [Hk Hl]%NoDup_cons. cbn [map merge_elems foldl fst snd].
    change (merge_elems (map (fun p => (p.1, elem_to_json p.2)) l) (merge_elem k (elem_to_json e) s)
      = s ⊔ <[k := e]> (list_to_map l)).
    rewrite IH by done. rewrite <- (join_insert s) by by apply not_elem_of_list_to_map. f_equal.
    unfold merge_elem. destruct (s !! k); cbn; [done|]. by destruct e.
Qed.

Section rga.
Context `{JsonText}.
(** What is inserted under an id, and behind what: an id is used for one element. *)
Context (planted : bytes -> bytes * bytes).

Definition as_planted (s : Rga) : Prop := forall id e, s !! id = Some e -> planted id = (ch e, after e).
Definition rga_valid (s : Rga) : Prop := well_formed s /\ as_planted s.

Definition rga_writes (c : bytes) (args : list bytes) (s : Rga) : Prop :=
  (c = str "insert" /\ exists replica a id t rest, args = replica :: a :: id :: t :: rest /\
     (id = root \/ is_Some (s !! id) \/ planted id = (t, a))) \/
  (c = str "delete" /\ exists replica id rest, args = replica :: id :: rest).

Definition rga_delta (c : bytes) (args : list bytes) (s : Rga) : gmap bytes bool :=
  if decide (c = str "insert") then
    let id := nth 2 args [] in
    let a := nth 1 args [] in
    if decide (id = root \/ is_Some (s !! id) \/ (a <> root /\ ~ is_Some (s !! a))) then ∅ else {[id := false]}
  else
    let id := nth 1 args [] in
    if decide (is_Some (s !! id)) then {[id := true]} else ∅.

#[local] Instance rga_replicated : Replicated Rga (gmap bytes bool) := {|
  step := Rga_step;
  initial := ∅;
  valid := rga_valid;
  view := fun s => deleted <$> s;
  shipped := Rga_state;
  writes := rga_writes;
  delta := rga_delta;
  asks := fun c => c = str "text";
|}.

Lemma place_mono s s' n id : (forall id e, s !! id = Some e -> exists e', s' !! id = Some e' /\ after e' = after e) ->
  place s n id -> place s' n id.
Proof.
  intros Hs. induction 1 as [|n id e He Hp IH]; [constructor|].
  destruct (Hs _ _ He) as (e' & He' & Ha). econstructor; [exact He'|]. by rewrite Ha.
Qed.

Lemma well_formed_text s : well_formed s -> exists v, text_answer s = Some (v, s).
Proof. intros (ids & E & _)%text_reads. unfold text_answer. rewrite E. cbn. eauto. Qed.

Lemma insert_valid s id c a : rga_valid s -> id <> root -> s !! id = None -> (a = root \/ is_Some (s !! a)) ->
  planted id = (c, a) -> rga_valid (<[id := mkElem c a false]> s).
Proof.
  intros [[Hr Hg] Hp] Hid Hnone Ha Hpl.
  assert (forall n x, place s n x -> place (<[id := mkElem c a false]> s) n x) as Hmono.
  { intros n x. apply place_mono. intros i e He. exists e. split; [|done]. rewrite lookup_insert_ne; congruence. }
  assert (exists n, place s n a) as [n Hn].
  { destruct Ha as [->|[e He]]; [exists 0%nat; constructor|by apply (Hg _ e)]. }
  split; [split|].
  - by rewrite lookup_insert_ne.
  - intros i e. destruct (decide (i = id)) as [->|Hne].
    + rewrite lookup_insert_eq. intros _. exists (S n). eapply place_next; [apply lookup_insert_eq|]. by apply Hmono.
    + rewrite lookup_insert_ne by done. intros He. destruct (Hg _ _ He) as [m Hm]. exists m. by apply Hmono.
  - intros i e. destruct (decide (i = id)) as [->|Hne].
    + rewrite lookup_insert_eq. by intros [= <-].
    + rewrite lookup_insert_ne by done. apply Hp.
Qed.

Lemma set_deleted_valid s id e : rga_valid s -> s !! id = Some e -> rga_valid (<[id := set_deleted e]> s).
Proof.
  intros [[Hr Hg] Hp] He. assert (id <> root) as Hid by congruence.
  assert (forall n x, place s n x -> place (<[id := set_deleted e]> s) n x) as Hmono.
  { intros n x. apply place_mono. intros i e' He'. destruct (decide (i = id)) as [->|Hne].
    - exists (set_deleted e). rewrite lookup_insert_eq. split; [done|]. by simplify_eq.
    - exists e'. by rewrite lookup_insert_ne. }
  split; [split|].
  - by rewrite lookup_insert_ne.
  - intros i e' Hi. assert (is_Some (s !! i)) as [e0 He0].
    { destruct (decide (i = id)) as [->|]; [eauto|]. rewrite lookup_insert_ne in Hi by done. eauto. }
    destruct (Hg _ _ He0) as [m Hm]. exists m. by apply Hmono.
  - intros i e'. destruct (decide (i = id)) as [->|Hne].
    + rewrite lookup_insert_eq. intros [= <-]. by apply (Hp id e).
    + rewrite lookup_insert_ne by done. apply Hp.
Qed.

Lemma join_valid s s' : rga_valid s -> rga_valid s' ->
  rga_valid (s ⊔ s') /\ deleted <$> (s ⊔ s') = (deleted <$> s) ⊔ (deleted <$> s').
Proof.
  intros [[Hr Hg] Hp] [[Hr' Hg'] Hp']. split; [split; [split|]|].
  - by rewrite lookup_join, Hr, Hr'.
  - intros id e. rewrite lookup_join. destruct (s !! id) as [a|] eqn:E.
    + intros _. destruct (Hg _ _ E) as [n Hn]. exists n. eapply place_mono; [|exact Hn].
      intros i e0 He0. rewrite lookup_join, He0. destruct (s' !! i); cbn; eauto.
    + cbn. intros E'. destruct (Hg' _ _ E') as [n Hn]. exists n. eapply place_mono; [|exact Hn].
      intros i e0 He0. rewrite lookup_join, He0. destruct (s !! i) as [e1|] eqn:E1; cbn; [|eauto].
      eexists. split; [done|]. cbn. pose proof (Hp _ _ E1). pose proof (Hp' _ _ He0). congruence.
  - intros id e. rewrite lookup_join. destruct (s !! id) as [a|] eqn:E; [|by apply Hp'].
    destruct (s' !! id); cbn; intros [= <-]; cbn; by apply Hp.
  - apply map_eq. intros i. rewrite lookup_fmap, !lookup_join, !lookup_fmap. by destruct (s !! i), (s' !! i).
Qed.

Lemma singleton_joins (s : Rga) id e b : (s !! id = None /\ deleted e = b \/ exists old, s !! id = Some old /\ deleted e = deleted old || b) ->
  deleted <$> <[id := e]> s = (deleted <$> s) ⊔ {[id := b]}.
Proof.
  intros He. apply map_eq. intros i. rewrite lookup_fmap, lookup_join, lookup_fmap. destruct (decide (i = id)) as [->|Hne].
  - rewrite lookup_insert_eq, lookup_singleton_eq. destruct He as [[-> <-]|(old & -> & Hd)]; cbn; [done|]. by rewrite Hd.
  - rewrite lookup_insert_ne, lookup_singleton_ne by done. by destruct (s !! i).
Qed.

Lemma rga_write_step c args s : rga_valid s -> rga_writes c args s ->
  exists v s', Rga_step c args s = Some (v, s') /\ rga_valid s' /\ deleted <$> s' = (deleted <$> s) ⊔ rga_delta c args s.
Proof.
  intros Hv [(-> & r & a & id & t & rest & -> & Hpl)|(-> & r & id & rest & ->)]; unfold Rga_step, rga_delta;
    cbn [word lookup list_lookup ok_or reply nth].
  - rewrite !decide_True by done. unfold rga_insert.
    destruct (decide (id = root)) as [->|Hid]; [rewrite decide_True by tauto; eexists _, _; by rewrite join_nothing|].
    destruct (decide (is_Some (s !! id))) as [Hs|Hs]; [rewrite decide_True by tauto; eexists _, _; by rewrite join_nothing|].
    destruct (decide (a <> root /\ ~ is_Some (s !! a))) as [Ha|Ha];
      [rewrite decide_True by tauto; eexists _, _; by rewrite join_nothing|]. rewrite decide_False by tauto.
    assert (rga_valid (<[id := mkElem t a false]> s)) as Hv'.
    { apply insert_valid; [done..|by apply eq_None_not_Some| |tauto].
      destruct (decide (a = root)), (decide (is_Some (s !! a))); tauto. }
    destruct (well_formed_text _ (proj1 Hv')) as [v ->]. eexists _, _. split; [done|]. split; [done|].
    apply singleton_joins. left. split; [by apply eq_None_not_Some|done].
  - rewrite !(decide_False (P := str "delete" = str "insert")) by done. rewrite (decide_True (P := str "delete" = _)) by done.
    unfold rga_delete. destruct (s !! id) as [e|] eqn:E.
    + rewrite decide_True by eauto. pose proof (set_deleted_valid s id e Hv E) as Hv'.
      destruct (well_formed_text _ (proj1 Hv')) as [v ->]. eexists _, _. split; [done|]. split; [done|].
      apply singleton_joins. right. exists e. split; [done|]. cbn. by rewrite orb_true_r.
    + rewrite decide_False by (intros [? ?]; congruence). eexists _, _. by rewrite join_nothing.
Qed.

Lemma rga_laws : ReplicatedLaws Rga (gmap bytes bool).
Proof.
  split; cbn [valid view step initial shipped writes delta asks rga_replicated].
  - apply _.
  - split; [split|]; [apply lookup_empty|intros id e; by rewrite lookup_empty|intros id e; by rewrite lookup_empty].
  - apply fmap_empty.
  - apply rga_write_step.
  - done.
  - intros w raw args s s' Hs Hs' E. destruct (merge_step Rga args w raw _ E) as [E0 E1].
    unfold Rga_step. rewrite !decide_False, decide_True by done. rewrite E0, E1. cbn [reply].
    change (get (str "e") (Rga_state s') ≫= as_object) with
      (Some (map (fun p => (p.1, elem_to_json p.2)) (OrdMap.entries s'))). cbv iota beta.
    rewrite merge_elems_join by apply NoDup_map_keys. rewrite list_to_map_entries.
    destruct (join_valid s s' Hs Hs') as [Hv Ev]. destruct (well_formed_text _ (proj1 Hv)) as [v ->]. eauto.
  - intros c w args s s' Hs Hs' -> Ev. assert (s = s') as <-.
    { apply map_eq. intros i. apply (f_equal (.!! i)) in Ev. rewrite !lookup_fmap in Ev.
      destruct (s !! i) as [[c1 a1 d1]|] eqn:E, (s' !! i) as [[c2 a2 d2]|] eqn:E'; try done.
      pose proof (proj2 Hs _ _ E) as P. pose proof (proj2 Hs' _ _ E') as P'. cbn in *. congruence. }
    destruct (well_formed_text s (proj1 Hs)) as [v Ev']. exists v. unfold Rga_step.
    rewrite !decide_False, decide_True by done. done.
Qed.
End rga.
