(* ===== verification/CrdtMeaning.v ===== *)
(** * What the replicated data types mean

  On any run of the network: replicas that know the same writes answer the same; a
  counter counts every increment and decrement its replica knows exactly once; an
  element is in a set when the replica knows an add of it that no remove it knows
  had seen; a sequence reads each element once, behind its anchor. *)

From S2P Require Import Text OrdMap Topic Crdt Replicas RgaWalk CrdtNet Prelude.

(** ** Sums over the writes a replica knows *)

Fixpoint tally_from (n : nat) (l : list Event) (X : gset nat) (weight : Event -> Z) : Z :=
  match l with
  | [] => 0
  | e :: l => (if decide (n ∈ X) then weight e else 0) + tally_from (S n) l X weight
  end.
Definition tally (l : list Event) (X : gset nat) (weight : Event -> Z) : Z := tally_from 0 l X weight.

Lemma tally_from_ext n l X Y f g :
  (forall k e, l !! k = Some e ->
     (if decide ((n + k)%nat ∈ X) then f e else 0) = if decide ((n + k)%nat ∈ Y) then g e else 0) ->
  tally_from n l X f = tally_from n l Y g.
Proof.
  revert n. induction l as [|e l IH]; intros n Hf; cbn; [done|]. f_equal.
  - specialize (Hf 0%nat e eq_refl). by rewrite Nat.add_0_r in Hf.
  - apply IH. intros k e' He. specialize (Hf (S k) e' He). by rewrite Nat.add_succ_r in Hf.
Qed.

Lemma tally_ext l X Y f g :
  (forall k e, l !! k = Some e -> (if decide (k ∈ X) then f e else 0) = if decide (k ∈ Y) then g e else 0) ->
  tally l X f = tally l Y g.
Proof. intros Hf. by apply tally_from_ext. Qed.

Lemma tally_from_le n l X Y f : (forall e, e ∈ l -> 0 <= f e) -> X ⊆ Y -> tally_from n l X f <= tally_from n l Y f.
Proof.
  revert n. induction l as [|e l IH]; intros n Hf Hs; cbn; [lia|].
  specialize (IH (S n) ltac:(set_solver) Hs). specialize (Hf e ltac:(set_solver)).
  destruct (decide (n ∈ X)), (decide (n ∈ Y)); try set_solver; lia.
Qed.

Lemma tally_from_app n l l' X f : tally_from n (l ++ l') X f = tally_from n l X f + tally_from (n + length l) l' X f.
Proof.
  revert n. induction l as [|e l IH]; intros n; cbn; [by rewrite Nat.add_0_r|].
  rewrite IH. replace (n + S (length l))%nat with (S n + length l)%nat by lia. lia.
Qed.

Lemma tally_snoc l e X f :
  tally (l ++ [e]) X f = tally l X f + if decide (length l ∈ X) then f e else 0.
Proof. unfold tally. rewrite tally_from_app. cbn. lia. Qed.

Lemma tally_empty l f : tally l ∅ f = 0.
Proof.
  unfold tally. generalize 0%nat. induction l as [|e l IH]; intros n; cbn; [done|].
  rewrite IH, decide_False by set_solver. done.
Qed.

(** What one writer contributes. *)
Definition of_writer (i : nat) (f : Event -> Z) (e : Event) : Z := if decide (writer e = i) then f e else 0.

(** The known writes of one writer are comparable, so their sums are too. *)
Lemma tally_union l X Y i f : prefixes l X -> prefixes l Y -> (forall e, e ∈ l -> 0 <= f e) ->
  tally l (X ∪ Y) (of_writer i f) = Z.max (tally l X (of_writer i f)) (tally l Y (of_writer i f)).
Proof.
  intros [HX Hp] [HY Hq] Hf.
  assert (forall A B, (forall k e, l !! k = Some e -> writer e = i -> k ∈ B -> k ∈ A) ->
    tally l (A ∪ B) (of_writer i f) = tally l A (of_writer i f) /\ tally l B (of_writer i f) <= tally l A (of_writer i f)) as G.
  { intros A B HAB. assert (tally l (A ∪ B) (of_writer i f) = tally l A (of_writer i f)) as E.
    { apply tally_ext. intros k e He. unfold of_writer. pose proof (HAB k e He).
      destruct (decide (writer e = i)), (decide (k ∈ A ∪ B)), (decide (k ∈ A)); set_solver. }
    split; [done|]. rewrite <- E. apply tally_from_le; [|set_solver].
    intros e He. unfold of_writer. destruct (decide _); [by apply Hf|lia]. }
  destruct (decide (filter (fun k => writer <$> l !! k = Some i) (Y ∖ X) = ∅)) as [He|He].
  - destruct (G X Y) as [-> Hle]; [|lia]. intros k e Hk <- Hin. destruct (decide (k ∈ X)) as [|Hno]; [done|].
    assert (k ∈ filter (fun k => writer <$> l !! k = Some (writer e)) (Y ∖ X)); [|set_solver].
    apply elem_of_filter. rewrite Hk. set_solver.
  - apply set_choose_L in He as [k0 [Hw0 Hk0]%elem_of_filter]. apply fmap_Some in Hw0 as (e0 & E0 & ->).
    rewrite (comm_L (∪)), Z.max_comm. destruct (G Y X) as [-> Hle]; [|lia]. intros k e Hk Hw Hin.
    destruct (Nat.lt_trichotomy k k0) as [Hlt|[ ->|Hlt]]; [eapply Hq; [|exact E0|exact Hk| |exact Hlt]; set_solver|set_solver|].
    assert (k0 ∈ X) by (eapply Hp; [exact Hin|exact Hk|exact E0|done|done]). set_solver.
Qed.

Lemma tally_old l e X f : (forall k, k ∈ X -> (k < length l)%nat) -> tally (l ++ [e]) X f = tally l X f.
Proof.
  intros HX. rewrite tally_snoc, decide_False; [lia|]. intros Hin%HX. lia.
Qed.

Lemma tally_new l e X f : (forall k, k ∈ X -> (k < length l)%nat) ->
  tally (l ++ [e]) (X ∪ {[length l]}) f = tally l X f + f e.
Proof.
  intros HX. rewrite tally_snoc, decide_True by set_solver. f_equal. apply tally_ext. intros k e' Hk.
  apply lookup_lt_Some in Hk. destruct (decide (k ∈ X)), (decide (k ∈ X ∪ {[length l]})); try done; [set_solver|].
  assert (k = length l) by set_solver. lia.
Qed.

(** ** Counters *)

(** What an event adds to the half its command is for. *)
Definition weight (c : bytes) (e : Event) : Z :=
  if decide (command e = c) then default 0 (arguments e !! 0%nat ≫= parse_i64) else 0.

(** The sum over the first replicas. *)
Fixpoint upto (n : nat) (f : nat -> Z) : Z := match n with O => 0 | S n => upto n f + f n end.

Lemma upto_ext n f g : (forall i, (i < n)%nat -> f i = g i) -> upto n f = upto n g.
Proof. induction n as [|n IH]; intros Hf; cbn; [done|]. rewrite Hf, IH by auto with lia. done. Qed.

Lemma upto_add n f g : upto n (fun i => f i + g i) = upto n f + upto n g.
Proof. induction n as [|n IH]; cbn; lia. Qed.

Lemma upto_zero n : upto n (fun _ => 0) = 0.
Proof. induction n as [|n IH]; cbn; lia. Qed.

Lemma upto_one n k z : (k < n)%nat -> upto n (fun i => if decide (k = i) then z else 0) = z.
Proof.
  intros Hk. induction n as [|n IH]; cbn; [lia|]. destruct (decide (k = n)) as [->|Hne].
  - rewrite (upto_ext n _ (fun _ => 0)), upto_zero; [lia|]. intros i Hi. rewrite decide_False; lia.
  - rewrite IH by lia. lia.
Qed.

Lemma upto_tally n l X f : (forall e, e ∈ l -> (writer e < n)%nat) ->
  upto n (fun i => tally l X (of_writer i f)) = tally l X f.
Proof.
  unfold tally. generalize 0%nat. induction l as [|e l IH]; intros k Hw; cbn; [apply upto_zero|].
  rewrite upto_add, IH by set_solver. f_equal. destruct (decide (k ∈ X)); [|apply upto_zero].
  apply upto_one. set_solver.
Qed.

Lemma foldr_add_perm (l l' : list Z) : l ≡ₚ l' -> foldr Z.add 0 l = foldr Z.add 0 l'.
Proof. induction 1; cbn; lia. Qed.

Lemma total_list (m : gmap bytes Z) : Crdt.total m = foldr Z.add 0 (map_to_list m).*2.
Proof. apply foldr_add_perm, fmap_Permutation, sort_by_perm. Qed.

Lemma total_insert m k z : m !! k = None -> Crdt.total (<[k := z]> m) = z + Crdt.total m.
Proof. intros Hk. rewrite !total_list. by rewrite (foldr_add_perm _ _ (fmap_Permutation snd _ _ (map_to_list_insert m k z Hk))). Qed.

Lemma total_upto (name : nat -> bytes) `{!Inj (=) (=) name} (n : nat) (m : gmap bytes Z) :
  (forall r, is_Some (m !! r) -> exists i, (i < n)%nat /\ r = name i) ->
  Crdt.total m = upto n (fun i => default 0 (m !! name i)).
Proof.
  revert m. induction n as [|n IH]; intros m Hm.
  - assert (m = ∅) as ->; [|done]. apply map_empty. intros r. apply eq_None_not_Some. intros (i & ? & _)%Hm. lia.
  - cbn. destruct (m !! name n) as [z|] eqn:E; cbn.
    + rewrite <- (insert_delete_id m (name n) z E), total_insert, IH by
        first [apply lookup_delete_eq|intros r [z' Hr]; apply lookup_delete_Some in Hr as [Hne Hr];
          destruct (Hm r) as (i & Hi & ->); [eauto|]; exists i; split; [|done];
          assert (i <> n) by congruence; lia].
      rewrite Z.add_comm. f_equal. apply upto_ext. intros i Hi.
      assert (name n <> name i) by (intros ?%(inj name); lia).
      by rewrite lookup_insert_ne by done.
    + rewrite IH; [lia|]. intros r Hr. destruct (Hm r Hr) as (i & Hi & ->). exists i. split; [|done].
      assert (i <> n) by (intros ->; rewrite E in Hr; by destruct Hr). lia.
Qed.

Section counters.
Context `{JsonText} (sg : bool) (name : nat -> bytes) `{!Inj (=) (=) name}.
#[local] Instance counter_here : Replicated Counter (gmap bytes Z * gmap bytes Z) := counter_replicated sg.
#[local] Instance counter_here_laws : ReplicatedLaws Counter (gmap bytes Z * gmap bytes Z) := counter_laws sg.

(** One half: every entry is what its replica's known updates add up to. *)
Definition half_counts (c : bytes) (l : list Event) (m : gmap bytes Z) (X : gset nat) : Prop :=
  (forall i, default 0 (m !! name i) = tally l X (of_writer i (weight c))) /\
  (forall r, is_Some (m !! r) -> exists e, e ∈ l /\ r = name (writer e)) /\
  (forall e, e ∈ l -> 0 <= weight c e).

Lemma half_counts_start c : half_counts c [] ∅ ∅.
Proof. split; [done|]. split; [intros r [? Hr]; by rewrite lookup_empty in Hr|set_solver]. Qed.

Lemma half_counts_snoc c l e m X : 0 <= weight c e -> (forall k, k ∈ X -> (k < length l)%nat) ->
  half_counts c l m X -> half_counts c (l ++ [e]) m X.
Proof.
  intros He HX (Hm & Hd & Hw). split; [intros i; by rewrite tally_old|]. split; [|set_solver].
  intros r (e' & ? & ?)%Hd. exists e'. set_solver.
Qed.

Lemma half_counts_idle c l e m X : weight c e = 0 -> (forall k, k ∈ X -> (k < length l)%nat) ->
  half_counts c l m X -> half_counts c (l ++ [e]) m (X ∪ {[length l]}).
Proof.
  intros He HX (Hm & Hd & Hw). split; [|split; [|set_solver by lia]].
  - intros i. rewrite tally_new by done. unfold of_writer at 2. rewrite He, Hm. destruct (decide _); lia.
  - intros r (e' & ? & ?)%Hd. exists e'. set_solver.
Qed.

Lemma half_counts_bump c l e m X args : weight c e = amount args -> 0 <= amount args -> nth 0 args [] = name (writer e) ->
  (forall k, k ∈ X -> (k < length l)%nat) -> counts_ok m -> half_counts c l m X ->
  half_counts c (l ++ [e]) (m ⊔ bumped m args) (X ∪ {[length l]}).
Proof.
  intros He Ha Hn HX Hok (Hm & Hd & Hw). unfold bumped, total_of. rewrite Hn. split; [|split].
  - intros i. rewrite tally_new, <- Hm by done. unfold of_writer. rewrite lookup_join.
    destruct (decide (writer e = i)) as [<-|Hne].
    + rewrite lookup_singleton_eq, He. destruct (m !! _); cbn; [unfold join, Z_join|]; lia.
    + rewrite lookup_singleton_ne by (intros E%(inj name); congruence). destruct (m !! _); cbn; lia.
  - intros r. rewrite lookup_join. destruct (decide (r = name (writer e))) as [->|Hne].
    + intros _. exists e. set_solver.
    + rewrite lookup_singleton_ne by done. intros Hr. destruct (Hd r) as (e' & ? & ?); [by destruct (m !! r)|].
      exists e'. set_solver.
  - intros e' [?| ->%list_elem_of_singleton]%elem_of_app; [auto|lia].
Qed.

Lemma half_counts_join c l m m' X Y : counts_ok m -> counts_ok m' -> prefixes l X -> prefixes l Y ->
  half_counts c l m X -> half_counts c l m' Y -> half_counts c l (m ⊔ m') (X ∪ Y).
Proof.
  intros Hok Hok' HX HY (Hm & Hd & Hw) (Hm' & Hd' & _). split; [|split; [|done]].
  - intros i. rewrite tally_union, <- Hm, <- Hm' by done. rewrite lookup_join.
    destruct (m !! name i) as [a|] eqn:E, (m' !! name i) as [b|] eqn:E'; cbn; try lia; [done| |].
    + specialize (Hok _ _ E). cbn in Hok. lia.
    + specialize (Hok' _ _ E'). cbn in Hok'. lia.
  - intros r. rewrite lookup_join. destruct (m !! r) eqn:E; [intros _; apply Hd; eauto|]. apply Hd'.
Qed.

Definition counts (l : list Event) (v : gmap bytes Z * gmap bytes Z) (X : gset nat) : Prop :=
  half_counts (str "inc") l v.1 X /\ half_counts (str "dec") l v.2 X.

Lemma counter_write_counts l i c args s X : counter_valid sg s -> prefixes l X -> counts l (p_half s, n_half s) X ->
  counter_writes c (name i :: args) s -> forall v s', Counter_step c (name i :: args) s = (v, s') ->
  counts (l ++ [mkEvent i c args X]) (p_half s', n_half s') (X ∪ {[length l]}).
Proof using Inj0.
  intros Hv [HX _] [Hp Hn] Hw v s' Hs. destruct (counter_write_step sg c _ s Hv Hw) as (v0 & s0 & E & _ & Ev).
  rewrite Hs in E. injection E as <- <-. cbn [fst snd] in Hp, Hn. rewrite Ev.
  apply counter_writes_inv in Hw as (r & raw & rest & by_ & [= <- ->] & Eb & Hb & Hc). destruct Hv as (_ & _ & Hokp & Hokn).
  assert (amount (name i :: raw :: rest) = by_) as Ea by (unfold amount; cbn; by rewrite Eb).
  unfold counter_delta, counts.
  destruct Hc as [[-> _]|[-> _]]; [rewrite decide_True by done|rewrite decide_False by done];
    rewrite join_pair, join_nothing; cbn [fst snd]; split.
  - apply half_counts_bump; [|lia|done|done|done|done]. unfold weight. by rewrite decide_True.
  - apply half_counts_idle; [|done|done]. unfold weight. by rewrite decide_False.
  - apply half_counts_idle; [|done|done]. unfold weight. by rewrite decide_False.
  - apply half_counts_bump; [|lia|done|done|done|done]. unfold weight. by rewrite decide_True.
Qed.

Lemma reachable_counts n N : reachable name n N -> known_holds counts (fun _ _ _ => True) N.
Proof using Inj0.
  apply reachable_known; [split; apply half_counts_start|done| |done| | |done].
  - intros l e [p m] X [s Hw] _ HX [Hp Hn]. apply counter_writes_inv in Hw as (r & raw & rest & by_ & [= <- E] & Eb & Hb & Hc).
    assert (forall c, 0 <= weight c e) as H0.
    { intros c. unfold weight. rewrite E. cbn. rewrite Eb. by destruct (decide _). }
    split; by apply half_counts_snoc.
  - intros l i c args s X v s' Hv HX _ HP _ Hw [= Hs]. split; [|done].
    eapply counter_write_counts; [exact Hv|exact HX|exact HP|exact Hw|by destruct (Counter_step _ _ _); simplify_eq].
  - intros l s s' X Y (_ & _ & Hp & Hn) (_ & _ & Hp' & Hn') HX HY [P1 P2] [P1' P2'].
    split; by apply half_counts_join.
Qed.

Lemma half_counts_total c l m X n : half_counts c l m X -> (forall e, e ∈ l -> (writer e < n)%nat) ->
  Crdt.total m = tally l X (weight c).
Proof using Inj0.
  intros (Hm & Hd & _) Hl. rewrite (total_upto name n).
  - rewrite <- (upto_tally n) by done. apply upto_ext. intros i _. apply Hm.
  - intros r (e & He & ->)%Hd. eauto.
Qed.

Lemma known_value n N i s X : reachable name n N -> nodes N !! i = Some (s, X) ->
  value s = wrap_s 64 (tally (log N) X (weight (str "inc")) - tally (log N) X (weight (str "dec"))).
Proof using Inj0.
  intros HN Hi. pose proof (causal_log _ (reachable_causal _ _ _ HN)) as Hl.
  destruct (proj1 (reachable_counts n N HN) i s X Hi) as [[Hp Hn] _]. cbn [view counter_here counter_replicated fst snd] in Hp, Hn.
  assert (forall e, e ∈ log N -> (writer e < length (nodes N))%nat) as Hw.
  { intros e (k & Hk)%list_elem_of_lookup. by apply (Hl k e). }
  unfold value. by rewrite (half_counts_total _ _ _ _ _ Hp Hw), (half_counts_total _ _ _ _ _ Hn Hw).
Qed.
End counters.

(** ** Sets *)

Section sets.
Context `{JsonText} (name : nat -> bytes) `{!Inj (=) (=) name}.

Definition adds_of (element : bytes) (e : Event) : Prop := command e = str "add" /\ arguments e !! 0%nat = Some element.
Definition removes (element : bytes) (e : Event) : Prop := command e = str "remove" /\ arguments e !! 0%nat = Some element.

(** The adds a replica has made. *)
Definition minted (i : nat) (l : list Event) : Z :=
  zlen (filter (fun e => writer e = i /\ command e = str "add") l).

(** The tag of the add at a position of the log. *)
Definition tag (l : list Event) (k : nat) (e : Event) : bytes := mint (name (writer e)) (wrap_u 64 (minted (writer e) (take k l) + 1)).

(** The tags of the adds of an element among some writes, and of the adds that
  removes of the same element among them had seen. *)
Definition added (l : list Event) (X : gset nat) (element t : bytes) : Prop :=
  exists k e, k ∈ X /\ l !! k = Some e /\ adds_of element e /\ t = tag l k e.
Definition tombed (l : list Event) (X : gset nat) (t : bytes) : Prop :=
  exists k e element, k ∈ X /\ l !! k = Some e /\ removes element e /\ added l (known e) element t.

Definition tags_known (l : list Event) (v : gmap bytes (gset bytes) * gset bytes) (X : gset nat) : Prop :=
  (forall element t, t ∈ default ∅ (v.1 !! element) <-> added l X element t) /\
  (forall t, t ∈ v.2 <-> tombed l X t) /\
  (forall e k, e ∈ l -> k ∈ known e -> (k < length l)%nat).

Lemma tag_old l l' k e : (k < length l)%nat -> tag (l ++ l') k e = tag l k e.
Proof. intros Hk. unfold tag. by rewrite take_app_le by lia. Qed.

Lemma added_old l e X element t : (forall k, k ∈ X -> (k < length l)%nat) ->
  added (l ++ [e]) X element t <-> added l X element t.
Proof.
  intros HX. unfold added. split; intros (k & e' & Hk & He & Ha & ->); exists k, e'; specialize (HX k Hk).
  - rewrite lookup_app_l in He by done. by rewrite tag_old.
  - by rewrite lookup_app_l, tag_old.
Qed.

Lemma added_new l e X element t : (forall k, k ∈ X -> (k < length l)%nat) ->
  added (l ++ [e]) (X ∪ {[length l]}) element t <-> added l X element t \/ adds_of element e /\ t = tag l (length l) e.
Proof.
  intros HX. rewrite <- (added_old l e X) by done. unfold added. split.
  - intros (k & e' & [Hk|Hk%elem_of_singleton]%elem_of_union & He & Ha & ->); [left; eauto 10|].
    subst k. rewrite lookup_app_r, Nat.sub_diag in He by done. cbn in He. simplify_eq. right. split; [done|].
    unfold tag. by rewrite take_app_le by lia.
  - intros [(k & e' & Hk & He & Ha & ->)|[Ha ->]]; [exists k, e'; set_solver|].
    exists (length l), e. split; [set_solver|]. rewrite lookup_app_r, Nat.sub_diag by done. split; [done|].
    split; [done|]. unfold tag. by rewrite take_app_le by lia.
Qed.

Lemma tombed_old l e X t : (forall k, k ∈ X -> (k < length l)%nat) ->
  (forall e k, e ∈ l -> k ∈ known e -> (k < length l)%nat) ->
  tombed (l ++ [e]) X t <-> tombed l X t.
Proof.
  intros HX Hl. unfold tombed. split; intros (k & e' & element & Hk & He & Hr & Ha); exists k, e', element; specialize (HX k Hk).
  - rewrite lookup_app_l in He by done. rewrite added_old in Ha; [done|].
    intros k' Hk'. eapply Hl; [by eapply list_elem_of_lookup_2|done].
  - rewrite lookup_app_l, added_old; [done| |done].
    intros k' Hk'. eapply Hl; [by eapply list_elem_of_lookup_2|done].
Qed.

Lemma tombed_new l e X t : (forall k, k ∈ X -> (k < length l)%nat) ->
  (forall e k, e ∈ l -> k ∈ known e -> (k < length l)%nat) -> (forall k, k ∈ known e -> (k < length l)%nat) ->
  tombed (l ++ [e]) (X ∪ {[length l]}) t <-> tombed l X t \/ exists element, removes element e /\ added l (known e) element t.
Proof.
  intros HX Hl He. rewrite <- (tombed_old l e X) by done. unfold tombed. split.
  - intros (k & e' & element & [Hk|Hk%elem_of_singleton]%elem_of_union & E & Hr & Ha); [left; eauto 10|].
    subst k. rewrite lookup_app_r, Nat.sub_diag in E by done. cbn in E. simplify_eq. right.
    rewrite added_old in Ha by done. eauto.
  - intros [(k & e' & element & Hk & E & Hr & Ha)|(element & Hr & Ha)]; [exists k, e', element; set_solver|].
    exists (length l), e, element. split; [set_solver|]. rewrite lookup_app_r, Nat.sub_diag, added_old by done. done.
Qed.

Lemma tags_known_snoc l e v X : (forall k, k ∈ known e -> (k < length l)%nat) -> (forall k, k ∈ X -> (k < length l)%nat) ->
  tags_known l v X -> tags_known (l ++ [e]) v X.
Proof.
  intros He HX (Ha & Hr & Hl). split; [intros; by rewrite added_old|]. split; [intros; by rewrite tombed_old|].
  intros e' k Hin Hk. rewrite length_app. apply elem_of_app in Hin as [Hin|Hin%list_elem_of_singleton].
  - specialize (Hl e' k Hin Hk). lia.
  - subst. specialize (He k Hk). lia.
Qed.

Lemma tags_known_join l v v' X Y : tags_known l v X -> tags_known l v' Y -> tags_known l (v ⊔ v') (X ∪ Y).
Proof.
  intros (Ha & Hr & Hl) (Ha' & Hr' & _). destruct v as [a r], v' as [a' r']. rewrite join_pair. cbn [fst snd] in *.
  split; [|split; [|done]].
  - intros element t. cbn [fst]. rewrite lookup_join. transitivity (t ∈ default ∅ (a !! element) \/ t ∈ default ∅ (a' !! element)).
    + destruct (a !! element), (a' !! element); cbn; [apply elem_of_union|set_solver..].
    + rewrite Ha, Ha'. unfold added. set_solver.
  - intros t. cbn [snd]. transitivity (t ∈ r \/ t ∈ r'); [apply elem_of_union|]. rewrite Hr, Hr'. unfold tombed. set_solver.
Qed.

Definition seq_minted (l : list Event) (i : nat) (s : OrSet) : Prop := Crdt.seq s = wrap_u 64 (minted i l).

Lemma minted_snoc i l e :
  minted i (l ++ [e]) = minted i l + if decide (writer e = i /\ command e = str "add") then 1 else 0.
Proof. unfold minted. rewrite filter_app, zlen_app. f_equal. rewrite filter_cons. by destruct (decide _). Qed.

Lemma wrap_u_succ a : wrap_u 64 (wrap_u 64 a + 1) = wrap_u 64 (a + 1).
Proof. unfold wrap_u. by rewrite Zplus_mod_idemp_l. Qed.

Lemma or_write_known l i c args s X : prefixes l X -> tags_known l (or_view s) X -> seq_minted l i s ->
  or_writes c (name i :: args) s -> forall v s', OrSet_step c (name i :: args) s = (v, s') ->
  tags_known (l ++ [mkEvent i c args X]) (or_view s') (X ∪ {[length l]}) /\ seq_minted (l ++ [mkEvent i c args X]) i s'.
Proof.
  intros [HX _] (Ha & Hr & Hl) Hq Hw v s' Hs. set (e := mkEvent i c args X).
  destruct (or_write_step c _ s Hw) as (s0 & E & Ev & Es). rewrite Hs in E. injection E as _ <-.
  destruct Hw as (Hc & r & element & rest & [= <- Eargs]). unfold or_delta in Ev. rewrite Eargs in Ev. cbn [nth] in Ev.
  assert (forall e' k, e' ∈ l ++ [e] -> k ∈ known e' -> (k < length (l ++ [e]))%nat) as Hl'.
  { intros e' k [Hin|Hin%list_elem_of_singleton]%elem_of_app Hk; rewrite length_app; cbn;
      [specialize (Hl e' k Hin Hk)|subst; specialize (HX k Hk)]; lia. }
  assert (forall el, removes el e <-> c = str "remove" /\ el = element) as Hrem.
  { intros el. unfold removes. cbn [command arguments e]. rewrite Eargs. cbn [lookup list_lookup].
    split; [by intros [-> [= ->]]|by intros [-> ->]]. }
  assert (forall el, adds_of el e <-> c = str "add" /\ el = element) as Hadd.
  { intros el. unfold adds_of. cbn [command arguments e]. rewrite Eargs. cbn [lookup list_lookup].
    split; [by intros [-> [= ->]]|by intros [-> ->]]. }
  unfold seq_minted in *. rewrite minted_snoc. cbn [writer command e].
  destruct Hc as [-> | ->]; first [rewrite decide_True in Ev by done|rewrite decide_False in Ev by done];
    first [rewrite decide_True in Es by done|rewrite decide_False in Es by done]; unfold or_view in Ev; rewrite join_pair in Ev.
  - rewrite decide_True by done. split; [|by rewrite Es, Hq, wrap_u_succ]. unfold or_view. rewrite Ev. split; [|split; [|done]].
    + intros el t. cbn [fst]. rewrite added_new, <- Ha, Hadd by done. cbn [fst or_view]. unfold add_tag, tag. cbn [nth writer e].
      rewrite Hq, wrap_u_succ, take_ge by done. rewrite lookup_join. destruct (decide (el = element)) as [->|Hne].
      * rewrite lookup_singleton_eq. destruct (adds s !! element); cbn; [rewrite elem_of_union|]; set_solver.
      * rewrite lookup_singleton_ne by done. destruct (adds s !! el); cbn; set_solver.
    + intros t. cbn [snd]. rewrite tombed_new, <- Hr by done. transitivity (t ∈ removed s \/ t ∈ (∅ : gset bytes)); [apply elem_of_union|].
      cbn [snd or_view]. split; [set_solver|]. intros [?|(el & [? ?]%Hrem & _)]; [by left|done].
  - rewrite decide_False by naive_solver. split; [|by rewrite Es, Hq, Z.add_0_r]. unfold or_view. rewrite Ev. split; [|split; [|done]].
    + intros el t. cbn [fst]. rewrite join_nothing, added_new, <- Ha by done. cbn [fst or_view]. rewrite Hadd. naive_solver.
    + intros t. cbn [snd]. rewrite tombed_new, <- Hr by done. transitivity (t ∈ removed s \/ t ∈ tags_of s element); [apply elem_of_union|].
      unfold tags_of. rewrite (Ha element t). cbn [snd or_view]. setoid_rewrite Hrem. cbn [known e]. naive_solver.
Qed.

Lemma reachable_tags n N : reachable name n N -> known_holds tags_known seq_minted N.
Proof.
  apply reachable_known.
  - split; [|split; [|set_solver]]; intros; cbn; rewrite ?lookup_empty; unfold added, tombed; set_solver.
  - done.
  - intros l e a X _. apply tags_known_snoc.
  - intros l e i s Hne. unfold seq_minted. rewrite minted_snoc, decide_False by naive_solver. by rewrite Z.add_0_r.
  - intros l i c args s X v s' _ HX _ HP HQ Hw [= Hs].
    eapply or_write_known; [exact HX|exact HP|exact HQ|exact Hw|by destruct (OrSet_step _ _ _); simplify_eq].
  - intros l s s' X Y _ _ _ _. apply tags_known_join.
  - intros l i raw v s s' Hq [= Hs]. unfold seq_minted in *. rewrite <- Hq. revert Hs. unfold OrSet_step.
    rewrite !decide_False, decide_True by done. cbn [word lookup list_lookup ok_or answer].
    destruct (json_arg _ _) as [incoming|]; cbn [answer]; [|by intros [= _ <-]]. unfold OrSet_merge.
    destruct (merge_add_half _ _) as [[?|?] a]; [destruct (string_list _)|]; by intros [= _ <-].
Qed.

(** ** Tags name adds *)

Lemma digits_no_dot bs acc z : digits_value acc bs = Some z -> x2e ∉ bs.
Proof.
  revert acc. induction bs as [|b bs IH]; intros acc; cbn; [set_solver|].
  destruct (digit_val b) as [d|] eqn:E; cbn; [|done]. intros Hd. apply not_elem_of_cons. split; [|by eapply IH].
  intros <-. done.
Qed.

Lemma dot_inj (a a' b b' : bytes) : x2e ∉ b -> x2e ∉ b' -> a ++ x2e :: b = a' ++ x2e :: b' -> a = a' /\ b = b'.
Proof.
  intros Hb Hb'. revert a'. induction a as [|x a IH]; intros [|x' a']; cbn; intros E; simplify_eq; [done|set_solver..|].
  destruct (IH a' ltac:(done)) as [-> ->]. done.
Qed.

Lemma mint_inj r r' n n' : 0 <= n -> 0 <= n' -> mint r n = mint r' n' -> r = r' /\ n = n'.
Proof.
  intros Hn Hn' E. destruct (dot_inj r r' (dec n) (dec n')) as [-> Ed]; [| |exact E|].
  - eapply digits_no_dot, digits_value_dec, Hn.
  - eapply digits_no_dot, digits_value_dec, Hn'.
  - split; [done|]. by apply dec_inj.
Qed.

Lemma minted_range i l : 0 <= minted i l <= zlen l.
Proof. unfold minted, zlen. pose proof (length_filter (fun e => writer e = i /\ command e = str "add") l). lia. Qed.

Lemma minted_app i l l' : minted i (l ++ l') = minted i l + minted i l'.
Proof. unfold minted. by rewrite filter_app, zlen_app. Qed.

Lemma minted_lt l k k' e : (k < k')%nat -> l !! k = Some e -> command e = str "add" ->
  minted (writer e) (take k l) < minted (writer e) (take k' l).
Proof.
  intros Hlt He Hc. assert (take k' l = take k l ++ e :: drop (S k) (take k' l)) as ->.
  { rewrite <- (take_drop_middle (take k' l) k e) at 1; [|by rewrite lookup_take_lt]. by rewrite take_take, Nat.min_l by lia. }
  rewrite minted_app. unfold minted at 3. rewrite filter_cons, decide_True by done. rewrite zlen_cons.
  pose proof (zlen_nonneg (filter (fun e0 => writer e0 = writer e /\ command e0 = str "add") (drop (S k) (take k' l)))). lia.
Qed.

Lemma tag_inj l k k' e e' el el' : zlen l < 2 ^ 64 -> l !! k = Some e -> l !! k' = Some e' ->
  adds_of el e -> adds_of el' e' -> tag l k e = tag l k' e' -> k = k'.
Proof using Inj0.
  intros Hl Hk Hk' [Hc _] [Hc' _]. unfold tag.
  assert (forall i k, (k < length l)%nat -> 0 <= minted i (take k l) + 1 < 2 ^ 64) as Hr.
  { intros i j Hj. pose proof (minted_range i (take j l)). unfold zlen in *. rewrite length_take in *. lia. }
  pose proof (Hr (writer e) k (lookup_lt_Some _ _ _ Hk)). pose proof (Hr (writer e') k' (lookup_lt_Some _ _ _ Hk')).
  unfold wrap_u. rewrite !Z.mod_small by done. intros [Ew%(inj name) En]%mint_inj; [|lia..]. rewrite Ew in En.
  destruct (Nat.lt_trichotomy k k') as [Hlt|[->|Hlt]]; [|done|].
  - pose proof (minted_lt l k k' e Hlt Hk Hc). rewrite Ew in *. lia.
  - pose proof (minted_lt l k' k e' Hlt Hk' Hc'). lia.
Qed.

Lemma elements_spec s element : element ∈ Crdt.elements s <->
  exists t, t ∈ default ∅ (adds s !! element) /\ t ∉ removed s.
Proof.
  unfold Crdt.elements. rewrite list_elem_of_In, in_map_iff. split.
  - intros ([el tags] & <- & [Hin Hl]%filter_In). apply list_elem_of_In, list_elem_of_entries in Hin.
    apply existsb_exists in Hl as (t & Ht & Hn). exists t. cbn. rewrite Hin. cbn.
    apply list_elem_of_In in Ht. rewrite <- (list_to_set_entries tags), elem_of_list_to_set. split; [done|].
    apply negb_true_iff, bool_decide_eq_false in Hn. done.
  - intros (t & Ht & Hn). destruct (adds s !! element) as [tags|] eqn:E; [|set_solver]. exists (element, tags).
    split; [done|]. apply filter_In. split; [by apply list_elem_of_In, list_elem_of_entries|].
    apply existsb_exists. exists t. split; [|by apply negb_true_iff, bool_decide_eq_false].
    apply list_elem_of_In. cbn in Ht. by rewrite <- (list_to_set_entries tags), elem_of_list_to_set in Ht.
Qed.

(** The specification: a known add that no known remove of the element had seen. *)
Definition survives (l : list Event) (X : gset nat) (element : bytes) : Prop :=
  exists k e, k ∈ X /\ l !! k = Some e /\ adds_of element e /\
    forall k' e', k' ∈ X -> l !! k' = Some e' -> removes element e' -> k ∉ known e'.

Lemma known_survives l s X element : zlen l < 2 ^ 64 -> tags_known l (or_view s) X ->
  element ∈ Crdt.elements s <-> survives l X element.
Proof using Inj0.
  intros Hl (Ha & Hr & _). rewrite elements_spec. unfold or_view in *. cbn [fst snd] in *. setoid_rewrite Ha. setoid_rewrite Hr.
  split.
  - intros (t & (k & e & Hk & He & Hadd & ->) & Hn). exists k, e. repeat (split; [done|]).
    intros k' e' Hk' He' Hrem Hin. apply Hn. exists k', e', element. repeat (split; [done|]). by exists k, e.
  - intros (k & e & Hk & He & Hadd & Hs). exists (tag l k e). split; [by exists k, e|].
    intros (k' & e' & el & Hk' & He' & Hrem & (k2 & e2 & Hk2 & He2 & Hadd2 & Et)).
    assert (k = k2) as <- by (by eapply tag_inj). rewrite He in He2. injection He2 as <-.
    assert (el = element) as -> by (destruct Hadd, Hadd2; congruence). by eapply Hs.
Qed.
End sets.

(** ** The claims *)

Section claims.
Context `{JsonText} (name : nat -> bytes) `{!Inj (=) (=) name}.

(** C22: on any run in which replicas write under their own names, ship their states
  and merge shipped states late, twice or in any order, every command comes back and
  two replicas that know the same writes give the same answers: the counters, the
  register (when no replica writes two values under one timestamp), the set and the
  sequence (when an id is inserted once). *)
Theorem crdts_converge n :
  (forall sg N, reachable (H2 := counter_replicated sg) name n N ->
     no_command_fails (H2 := counter_replicated sg) name N /\
     same_knowledge_same_answers (H2 := counter_replicated sg) N) /\
  (forall written N, reachable (H2 := lww_replicated written) name n N ->
     no_command_fails (H2 := lww_replicated written) name N /\
     same_knowledge_same_answers (H2 := lww_replicated written) N) /\
  (forall N, reachable (H2 := or_set_replicated) name n N ->
     no_command_fails (H2 := or_set_replicated) name N /\
     same_knowledge_same_answers (H2 := or_set_replicated) N) /\
  (forall planted N, reachable (H2 := rga_replicated planted) name n N ->
     no_command_fails (H2 := rga_replicated planted) name N /\
     same_knowledge_same_answers (H2 := rga_replicated planted) N).
Proof.
  split; [|split; [|split]].
  - intros sg N. apply (holds_answers (H3 := counter_laws sg)).
  - intros written N. apply (holds_answers (H3 := lww_laws written)).
  - intros N. apply (holds_answers (H3 := or_set_laws)).
  - intros planted N. apply (holds_answers (H3 := rga_laws planted)).
Qed.

(** C23: on any run the value a counter answers is the sum of the increments its
  replica knows less the sum of the decrements it knows, each counted once however
  often the states that carried it were merged. *)
Theorem counters_count_every_write sg n N i s X :
  reachable (H2 := counter_replicated sg) name n N -> nodes N !! i = Some (s, X) ->
  Counter_step (str "value") [name i] s = (VObject [(str "value",
    VInt (wrap_s 64 (tally (log N) X (weight (str "inc")) - tally (log N) X (weight (str "dec")))))], s).
Proof.
  intros HN Hi. rewrite <- (known_value sg name n N i s X HN Hi). reflexivity.
Qed.

(** C24: on any run an element is in a set exactly when its replica knows an add of
  it that none of the removes it knows had seen: a concurrent add wins, and a
  removed element can be added again. *)
Theorem or_set_observes_removes n N i s X element :
  reachable name n N -> zlen (log N) < 2 ^ 64 -> nodes N !! i = Some (s, X) ->
  element ∈ Crdt.elements s <-> survives (log N) X element.
Proof using Inj0.
  intros HN Hl Hi. apply (known_survives name); [done..|]. apply (proj1 (reachable_tags name n N HN) i s X Hi).
Qed.

(** C25: on any run the recursion that reads a sequence ends, and what it reads is
  every element once, behind the one it was inserted after, and among the elements
  inserted after the same one the largest id first; deleted ones show nothing. *)
Theorem rga_reads_every_element (s : Rga) planted n N i X :
  reachable (H2 := rga_replicated planted) name n N -> nodes N !! i = Some (s, X) ->
  exists ids, text s = Some (concat (map (shown s) ids)) /\ reading s ids.
Proof.
  intros HN Hi. apply text_reads.
  pose proof (reachable_holds (H3 := rga_laws planted) name n N HN) as [Hn _].
  apply (Forall_lookup_1 _ _ _ _ Hn Hi).
Qed.
End claims.

(** ** Runs of two replicas *)

(** A parser that reads one text. *)
Definition one_text (v : Value) : JsonText := {|
  from_str := fun raw => if decide (raw = str "s") then Ok v else Err [];
  show_value := fun _ => [];
  debug_str := fun s => s;
|}.

(** Names told apart by their length. *)
Definition tallied (i : nat) : bytes := replicate i x61.

#[export] Instance tallied_inj : Inj (=) (=) tallied.
Proof. intros i j E. apply (f_equal length) in E. unfold tallied in E. by rewrite !length_replicate in E. Qed.

Definition or_texts : JsonText := one_text (OrSet_state (or_add [] (str "x") OrSet_default)).

(** Replica 1 merges an add of replica 0, twice, and removes the element, while
  replica 0 adds it again. *)
Definition or_script : list Action := [
  Writes 0 (str "add") [str "x"]; Ships 0; Delivers 1 0 (str "s"); Delivers 1 0 (str "s");
  Writes 1 (str "remove") [str "x"]; Writes 0 (str "add") [str "x"]].

Definition or_run : option (Net (S := OrSet)) := let J := or_texts in run tallied or_script (net_init 2).

(** The side conditions of a run, once computed. *)
Ltac check_run :=
  vm_compute; repeat match goal with
  | |- _ /\ _ => split
  | |- exists _, _ => eexists
  | |- _ \/ _ => first [left; solve [check_run]|right; solve [check_run]]
  | |- _ = _ => reflexivity
  | |- True => exact I
  | |- _ -> False => let E := fresh in intros E; discriminate E
  end.

Lemma or_run_reaches : let J := or_texts in
  match or_run with Some N => reachable tallied 2 N | None => False end.
Proof.
  intros J. destruct or_run as [N|] eqn:E; [|discriminate E].
  eapply run_reachable; [apply reach_init|exact E|check_run].
Qed.

(** What a computed run gives of its end. *)
Lemma run_gives {A B} (f : A -> B) (o : option A) (a : A) b : o = Some a -> f <$> o = Some b -> f a = b.
Proof. intros ->. by intros [= ->]. Qed.

Lemma or_set_observes_removes_witness : let J := or_texts in
  exists N s X, or_run = Some N /\ nodes N !! 0%nat = Some (s, X) /\ Crdt.elements s = [str "x"] /\
    (str "x" ∈ Crdt.elements s <-> survives (log N) X (str "x")).
Proof.
  intros J. pose proof or_run_reaches as HN. destruct or_run as [N|] eqn:E; [|contradiction]. cbn zeta in HN.
  assert ((fun N => zlen (log N)) <$> or_run = Some 3) as Hl by (vm_compute; reflexivity).
  assert ((fun N : Net => (fun p => Crdt.elements p.1) <$> nodes N !! 0%nat) <$> or_run = Some (Some [str "x"])) as Hs
    by (vm_compute; reflexivity).
  apply (run_gives _ _ _ _ E) in Hl, Hs. cbn beta in Hl, Hs. destruct (nodes N !! 0%nat) as [[s X]|] eqn:Hi; [|discriminate Hs]. injection Hs as Hs.
  exists N, s, X. split; [reflexivity|]. split; [exact Hi|]. split; [exact Hs|].
  apply (or_set_observes_removes tallied 2 N 0 s X); [exact HN|rewrite Hl; reflexivity|exact Hi].
Defined.

Lemma crdts_converge_witness : let J := or_texts in
  exists N, or_run = Some N /\ no_command_fails tallied N /\ same_knowledge_same_answers N.
Proof.
  intros J. pose proof or_run_reaches as HN. destruct or_run as [N|] eqn:E; [|contradiction].
  exists N. split; [reflexivity|]. apply (proj1 (proj2 (proj2 (crdts_converge tallied 2))) N HN).
Defined.

(** Replica 1 merges an increment of replica 0 twice. *)
Definition counter_texts : JsonText := one_text (Counter_state (inc [] 5 (Counter_new true))).
Definition counter_script : list Action := [
  Writes 0 (str "inc") [str "5"]; Ships 0; Delivers 1 0 (str "s"); Delivers 1 0 (str "s"); Writes 1 (str "dec") [str "2"]].
Definition counter_run : option (Net (S := Counter)) :=
  let J := counter_texts in run (H2 := counter_replicated true) tallied counter_script (net_init (H2 := counter_replicated true) 2).

Lemma counter_run_reaches : let J := counter_texts in
  match counter_run with Some N => reachable (H2 := counter_replicated true) tallied 2 N | None => False end.
Proof.
  intros J. destruct counter_run as [N|] eqn:E; [|discriminate E].
  eapply (run_reachable (H3 := counter_laws true)); [apply reach_init|exact E|check_run].
Qed.

Lemma counters_count_every_write_witness : let J := counter_texts in
  exists N s X, counter_run = Some N /\ nodes N !! 1%nat = Some (s, X) /\
    Counter_step (str "value") [tallied 1] s = (VObject [(str "value", VInt 3)], s).
Proof.
  intros J. pose proof counter_run_reaches as HN. destruct counter_run as [N|] eqn:E; [|contradiction]. cbn zeta in HN.
  assert ((fun N : Net => (fun p => tally (log N) p.2 (weight (str "inc")) - tally (log N) p.2 (weight (str "dec")))
    <$> nodes N !! 1%nat) <$> counter_run = Some (Some 3)) as Hs by (vm_compute; reflexivity).
  apply (run_gives _ _ _ _ E) in Hs. cbn beta in Hs. destruct (nodes N !! 1%nat) as [[s X]|] eqn:Hi; [|discriminate Hs]. injection Hs as Hs.
  exists N, s, X. split; [reflexivity|]. split; [exact Hi|].
  pose proof (counters_count_every_write tallied true 2 N 1 s X HN Hi) as Hv. cbn [snd] in Hs. rewrite Hs in Hv. exact Hv.
Defined.

(** Replica 1 merges what replica 0 inserted. *)
Definition rga_texts : JsonText := one_text (Rga_state {[str "i" := mkElem (str "a") root false]}).
Definition rga_script : list Action := [
  Writes 0 (str "insert") [root; str "i"; str "a"]; Ships 0; Delivers 1 0 (str "s")].
Definition rga_planted (_ : bytes) : bytes * bytes := (str "a", root).
Definition rga_run : option (Net (S := Rga)) :=
  let J := rga_texts in run (H2 := rga_replicated rga_planted) tallied rga_script (net_init (H2 := rga_replicated rga_planted) 2).

Lemma rga_run_reaches : let J := rga_texts in
  match rga_run with Some N => reachable (H2 := rga_replicated rga_planted) tallied 2 N | None => False end.
Proof.
  intros J. destruct rga_run as [N|] eqn:E; [|discriminate E].
  eapply (run_reachable (H3 := rga_laws rga_planted)); [apply reach_init|exact E|].
  vm_compute. split; [|repeat split]. left. split; [reflexivity|]. do 5 eexists. split; [reflexivity|]. do 2 right. reflexivity.
Qed.

Lemma rga_reads_every_element_witness : let J := rga_texts in
  exists N s X ids, rga_run = Some N /\ nodes N !! 1%nat = Some (s, X) /\
    text s = Some (str "a") /\ text s = Some (concat (map (shown s) ids)) /\ reading s ids.
Proof.
  intros J. pose proof rga_run_reaches as HN. destruct rga_run as [N|] eqn:E; [|contradiction]. cbn zeta in HN.
  assert ((fun N : Net => nodes N !! 1%nat ≫= (fun p => text p.1)) <$> rga_run = Some (Some (str "a"))) as Hs
    by (vm_compute; reflexivity).
  apply (run_gives _ _ _ _ E) in Hs. cbn beta in Hs. destruct (nodes N !! 1%nat) as [[s X]|] eqn:Hi; [|discriminate Hs]. cbn [mbind option_bind fst] in Hs.
  destruct (rga_reads_every_element tallied s rga_planted 2 N 1 X HN Hi) as (ids & Et & Hr).
  exists N, s, X, ids. split; [reflexivity|]. split; [exact Hi|]. split; [exact Hs|]. split; [exact Et|exact Hr].
Defined.
