(* ===== verification/Proxy.v ===== *)
(** * The fault injector ([disttest/src/cluster/proxy.rs] and [cluster/mod.rs])

  The table of what is wrong with each link, the operations of the cluster that
  fill it, the judgement on a new connection, and the loop that copies one
  direction of a connection: whole, held back, repeated, or not at all.

  What the loop waits for, and the table as it stands at each of its looks, are
  its input; [Rng] and [random] are the generator of the [rand] crate. *)

From Stdlib Require Import QArith.
From S2P Require Import Prelude Text.

(** ** Links and faults *)

Notation Link := (nat * nat)%type.

Definition link (a b : nat) : Link := if (a <=? b)%nat then (a, b) else (b, a).

(** A probability is the rational number a float is; a delay is in nanoseconds. *)
Record LinkFault : Type := mkFault {
  cut : bool;
  delay : Z;
  drop_connection : Q;
  duplicate : Q;
  reorder : Q;
}.

Definition clean : LinkFault := mkFault false 0 0 0 0.
Definition with_cut (f : LinkFault) : LinkFault := mkFault true (delay f) (drop_connection f) (duplicate f) (reorder f).

Definition Qlt_bool (x y : Q) : bool := negb (Qle_bool y x).

Definition message_mode (f : LinkFault) : bool := Qlt_bool 0 (duplicate f) || Qlt_bool 0 (reorder f).
Definition is_clean (f : LinkFault) : bool :=
  negb (cut f) && (delay f =? 0) && Qeq_bool (drop_connection f) 0 && Qeq_bool (duplicate f) 0 && Qeq_bool (reorder f) 0.

(** ** The table *)

Notation FaultTable := (gmap Link LinkFault).

Definition get (t : FaultTable) (a b : nat) : LinkFault := default clean (t !! link a b).
Definition set (t : FaultTable) (a b : nat) (f : LinkFault) : FaultTable :=
  if is_clean f then delete (link a b) t else <[link a b := f]> t.
Definition clear (_ : FaultTable) : FaultTable := ∅.

(** The links between different groups. *)
Fixpoint partition_links (groups : list (list nat)) : gset Link :=
  match groups with
  | [] => ∅
  | g :: rest =>
      list_to_set (a ← g; b ← concat rest; [link a b]) ∪ partition_links rest
  end.

(** ** What the cluster does to the table *)

Definition cut_link (t : FaultTable) (a b : nat) : FaultTable := set t a b (with_cut (get t a b)).

Definition cut_unattributable (members : nat) (t : FaultTable) : FaultTable :=
  foldl (fun t i => cut_link t i i) t (seq 0 members).

Definition partition (members : nat) (groups : list (list nat)) (t : FaultTable) : FaultTable :=
  cut_unattributable members
    (foldl (fun t l => cut_link t l.1 l.2) t (elements (partition_links groups))).

Definition isolate (members i : nat) (t : FaultTable) : FaultTable :=
  cut_unattributable members
    (foldl (fun t j => if decide (j = i) then t else cut_link t i j) t (seq 0 members)).

Definition link_fault (a b : nat) (f : LinkFault) (t : FaultTable) : FaultTable := set t a b f.

Definition every_link (members : nat) (f : LinkFault) (t : FaultTable) : FaultTable :=
  foldl (fun t i => foldl (fun t j => set t i j f) t (seq (S i) (members - S i))) t (seq 0 members).

Definition heal (t : FaultTable) : FaultTable := clear t.

(** ** Counters *)

Record ProxyStats : Type := mkStats {
  accepted : Z;
  blocked : Z;
  bytes_ : Z;
  delayed : Z;
  duplicated : Z;
  reordered : Z;
  unidentified : Z;
  unframed : Z;
}.
Definition no_stats : ProxyStats := mkStats 0 0 0 0 0 0 0 0.

(** [fetch_add] wraps. *)
Definition bump (z n : Z) : Z := wrap_u 64 (z + n).
Definition add_accepted (s : ProxyStats) := mkStats (bump (accepted s) 1) (blocked s) (bytes_ s) (delayed s) (duplicated s) (reordered s) (unidentified s) (unframed s).
Definition add_blocked (s : ProxyStats) := mkStats (accepted s) (bump (blocked s) 1) (bytes_ s) (delayed s) (duplicated s) (reordered s) (unidentified s) (unframed s).
Definition add_bytes (n : Z) (s : ProxyStats) := mkStats (accepted s) (blocked s) (bump (bytes_ s) n) (delayed s) (duplicated s) (reordered s) (unidentified s) (unframed s).
Definition add_delayed (s : ProxyStats) := mkStats (accepted s) (blocked s) (bytes_ s) (bump (delayed s) 1) (duplicated s) (reordered s) (unidentified s) (unframed s).
Definition add_duplicated (s : ProxyStats) := mkStats (accepted s) (blocked s) (bytes_ s) (delayed s) (bump (duplicated s) 1) (reordered s) (unidentified s) (unframed s).
Definition add_reordered (s : ProxyStats) := mkStats (accepted s) (blocked s) (bytes_ s) (delayed s) (duplicated s) (bump (reordered s) 1) (unidentified s) (unframed s).
Definition add_unidentified (s : ProxyStats) := mkStats (accepted s) (blocked s) (bytes_ s) (delayed s) (duplicated s) (reordered s) (bump (unidentified s) 1) (unframed s).
Definition add_unframed (s : ProxyStats) := mkStats (accepted s) (blocked s) (bytes_ s) (delayed s) (duplicated s) (reordered s) (unidentified s) (bump (unframed s) 1).

(** ** Messages *)

(** [find]: the first window equal to the needle. *)
Definition find (haystack needle : bytes) : option nat := find_bytes haystack needle.

Definition CRLF2 : bytes := [x0d; x0a; x0d; x0a].

Definition lower (b : byte) : byte := if between 65 90 b then z2b (b2z b + 32) else b.
Definition head_text (head : bytes) : bytes := map lower (utf8_lossy head).
Fixpoint find_map {A B} (f : A -> option B) (l : list A) : option B :=
  match l with
  | [] => None
  | a :: l => match f a with Some b => Some b | None => find_map f l end
  end.

Definition content_length (head : bytes) : Z :=
  default 0 (find_map (strip_prefix (str "content-length:")) (lines head) ≫= (fun v => parse_usize (trim v))).

(** The sum is a [usize]. *)
Definition http_message_len (buf : bytes) : option nat :=
  i ← find buf CRLF2;
  let head_end := (i + 4)%nat in
  let head := head_text (take head_end buf) in
  if contains head (str "transfer-encoding:") then None
  else
    let total := wrap_u 64 (Z.of_nat head_end + content_length head) in
    if total <=? zlen buf then Some (Z.to_nat total) else None.

Definition has_body (msg : bytes) : bool :=
  match find msg CRLF2 with Some i => bool_decide (i + 4 < length msg)%nat | None => false end.

Definition is_ascii_uppercase (b : byte) : bool := between 65 90 b.

Fixpoint position (f : byte -> bool) (bs : bytes) : option nat :=
  match bs with
  | [] => None
  | b :: bs => if f b then Some 0%nat else S <$> position f bs
  end.

Definition unframeable (buf : bytes) : bool :=
  if 2 ^ 20 <? zlen buf then true
  else
    let chunked := match find buf CRLF2 with
                   | Some i => contains (head_text (take i buf)) (str "transfer-encoding:")
                   | None => false
                   end in
    if chunked then true
    else
      let probe := take 9 buf in
      match position (fun b => bool_decide (b = space)) probe with
      | Some O => true
      | Some i => negb (forallb is_ascii_uppercase (take i probe))
      | None => bool_decide (length probe = 9%nat) || negb (forallb is_ascii_uppercase probe)
      end.

(** ** The stream written to *)

(** What went out, and how much more the other end will take before it fails. *)
Record Sink : Type := mkSink {
  sent : bytes;
  room : option nat;
}.

Definition write_all (bs : bytes) (s : Sink) : bool * Sink :=
  match room s with
  | None => (true, mkSink (sent s ++ bs) None)
  | Some n =>
      if bool_decide (length bs <= n)%nat then (true, mkSink (sent s ++ bs) (Some (n - length bs)%nat))
      else (false, mkSink (sent s ++ take n bs) (Some 0%nat))
  end.

(** ** One direction of a connection *)

Section pump.
Context {Rng : Type} (random : Rng -> Q * Rng).

(** [side] holds the messages sent a second time on connections of their own. *)
Record Pump : Type := mkPump {
  framed : bool;
  pending : bytes;
  held : option bytes;
  rng : Rng;
  sink : Sink;
  side : list bytes;
  stats : ProxyStats;
}.

Definition with_framed (b : bool) (p : Pump) := mkPump b (pending p) (held p) (rng p) (sink p) (side p) (stats p).
Definition with_pending (b : bytes) (p : Pump) := mkPump (framed p) b (held p) (rng p) (sink p) (side p) (stats p).
Definition with_held (h : option bytes) (p : Pump) := mkPump (framed p) (pending p) h (rng p) (sink p) (side p) (stats p).
Definition with_rng (r : Rng) (p : Pump) := mkPump (framed p) (pending p) (held p) r (sink p) (side p) (stats p).
Definition with_sink (s : Sink) (p : Pump) := mkPump (framed p) (pending p) (held p) (rng p) s (side p) (stats p).
Definition with_side (l : list bytes) (p : Pump) := mkPump (framed p) (pending p) (held p) (rng p) (sink p) l (stats p).
Definition counting (f : ProxyStats -> ProxyStats) (p : Pump) := mkPump (framed p) (pending p) (held p) (rng p) (sink p) (side p) (f (stats p)).

(** Whether the loop goes on. *)
Inductive Flow : Type :=
| Going (p : Pump)
| Stopped (p : Pump).

(** Write, and go on with [k] unless it failed. *)
Definition write (bs : bytes) (p : Pump) (k : Pump -> Flow) : Flow :=
  let '(ok, s) := write_all bs (sink p) in
  if ok then k (with_sink s p) else Stopped (with_sink s p).

(** Let the held message go. *)
Definition flush_held (p : Pump) (k : Pump -> Flow) : Flow :=
  match held p with
  | Some earlier => write earlier (with_held None p) k
  | None => k p
  end.

(** [probability > 0.0 && rng.random() < probability]. *)
Definition chance (q : Q) (p : Pump) : bool * Pump :=
  if Qlt_bool 0 q then let '(x, r) := random (rng p) in (Qlt_bool x q, with_rng r p) else (false, p).

(** A message went through: it may go through a second time. *)
Definition repeat_message (side_channel : bool) (fault : LinkFault) (msg : bytes) (p : Pump) : Pump :=
  if has_body msg then
    let '(again, p) := chance (duplicate fault) p in
    if again && side_channel then with_side (side p ++ [msg]) (counting add_duplicated p) else p
  else p.

(** The messages that are complete, one by one; [None] when the fuel runs out. *)
Fixpoint frames (fuel : nat) (side_channel : bool) (fault : LinkFault) (p : Pump) : option Flow :=
  match fuel with
  | O => None
  | S fuel =>
      match http_message_len (pending p) with
      | None =>
          Some (if unframeable (pending p) then
                  flush_held (with_framed false (counting add_unframed p)) (fun p =>
                  write (pending p) p (fun p => Going (with_pending [] p)))
                else Going p)
      | Some len =>
          let msg := take len (pending p) in
          let p := with_pending (drop len (pending p)) p in
          match held p with
          | Some earlier =>
              match write msg (counting add_reordered (with_held None p)) (fun p => write earlier p Going) with
              | Going p => frames fuel side_channel fault p
              | Stopped p => Some (Stopped p)
              end
          | None =>
              let '(late, p) := chance (reorder fault) p in
              if late then frames fuel side_channel fault (with_held (Some msg) p)
              else
                match write msg p Going with
                | Going p => frames fuel side_channel fault (repeat_message side_channel fault msg p)
                | Stopped p => Some (Stopped p)
                end
          end
      end
  end.

(** What [select!] may give. *)
Inductive Seen : Type :=
| Read (chunk : bytes)
| Ended
| Changed
| Waited.

(** One round: the fault at the top of the loop, what was waited for, the fault
  after the read, and after the delay. *)
Record Turn : Type := mkTurn {
  top : LinkFault;
  seen : Seen;
  mid : LinkFault;
  after_delay : LinkFault;
}.

(** After the loop: what is left goes out, failing or not. *)
Definition finish (p : Pump) : Pump :=
  let p := match held p with Some earlier => with_sink (write_all earlier (sink p)).2 (with_held None p) | None => p end in
  if decide (pending p = []) then p else with_sink (write_all (pending p) (sink p)).2 p.

Definition frame_fuel (p : Pump) : nat := S (length (pending p)).

Definition turn (side_channel : bool) (t : Turn) (p : Pump) : option Flow :=
  if cut (top t) then Some (Stopped (counting add_blocked p))
  else match seen t with
  | Changed => Some (Going p)
  | Ended => Some (Stopped (finish p))
  | Waited => Some (flush_held p Going)
  | Read chunk =>
      if cut (mid t) then Some (Stopped (counting add_blocked p))
      else
        let p := counting (add_bytes (zlen chunk)) p in
        let late := negb (delay (mid t) =? 0) in
        let p := if late then counting add_delayed p else p in
        if late && cut (after_delay t) then Some (Stopped p)
        else if negb (framed p) then
          Some (match write chunk p Going with Going p => Going p | Stopped p => Stopped (finish p) end)
        else
          let p := with_pending (pending p ++ chunk) p in
          frames (frame_fuel p) side_channel (mid t) p
  end.

(** The loop over what happens; it is still waiting when the list ends. *)
Fixpoint pump (side_channel : bool) (turns : list Turn) (p : Pump) : option Flow :=
  match turns with
  | [] => Some (Going p)
  | t :: turns =>
      match turn side_channel t p with
      | Some (Going p) => pump side_channel turns p
      | r => r
      end
  end.

Definition Pump_new (framed : bool) (r : Rng) (s : Sink) (st : ProxyStats) : Pump := mkPump framed [] None r s [] st.

(** ** A new connection *)

Context (seed_from_u64 : Z -> Rng).

(** The fault a dialer is judged by: one that could not be identified has only the
  destination's own link. *)
Definition fault_now (source : option nat) (member : nat) (t : FaultTable) : LinkFault :=
  match source with Some s => get t s member | None => get t member member end.

(** Refused, or open with the loops of both directions. *)
Inductive Connection : Type :=
| Refused
| Opened (there back : Pump).

Definition handle (source : option nat) (member : nat) (t : FaultTable) (reached : bool) (seed : Z)
    (there back : Sink) (st : ProxyStats) : Connection * ProxyStats :=
  let st := match source with None => add_unidentified st | Some _ => st end in
  let f := fault_now source member t in
  let dropped := Qlt_bool 0 (drop_connection f) && Qlt_bool (random (seed_from_u64 seed)).1 (drop_connection f) in
  if cut f || dropped then (Refused, add_blocked st)
  else if negb reached then (Refused, add_blocked st)
  else (Opened (Pump_new (message_mode f) (seed_from_u64 (Z.lxor seed 1)) there st)
               (Pump_new false (seed_from_u64 (Z.lxor seed 2)) back st), st).

(** The seed of the connection that is accepted [conn_id]th. *)
Definition connection_seed (seed conn_id : Z) : Z := Z.lxor seed (wrap_u 64 (conn_id * 0x9e3779b97f4a7c15)).
End pump.

Arguments Pump : clear implicits.
Arguments Flow : clear implicits.

Example two_requests : http_message_len (str "GET /a HTTP/1.1" ++ CRLF2 ++ str "GET /b HTTP/1.1" ++ CRLF2) = Some 19%nat.
Proof. vm_compute. reflexivity. Qed.
Example a_request_with_a_body :
  http_message_len (str "POST /raft HTTP/1.1" ++ [x0d; x0a] ++ str "Content-Length: 3" ++ CRLF2 ++ str "abc") = Some 45%nat.
Proof. vm_compute. reflexivity. Qed.
Example a_chunked_stream :
  http_message_len (str "POST /x HTTP/1.1" ++ [x0d; x0a] ++ str "Transfer-Encoding: chunked" ++ CRLF2) = None
  /\ unframeable (str "POST /x HTTP/1.1" ++ [x0d; x0a] ++ str "Transfer-Encoding: chunked" ++ CRLF2) = true.
Proof. split; vm_compute; reflexivity. Qed.
