(* ===== verification/ProxySafe.v ===== *)
(** * What the fault injector does to the traffic

  A partition cuts exactly the crossing links and everything whose dialer is
  unknown, until the cluster is healed.  What is not cut is delivered: every byte,
  whole messages at a time, in order except for the held message that the next one
  overtook, however the stream is cut into chunks. *)

From Stdlib Require Import QArith.
From S2P Require Import Prelude Text Proxy.
#[local] Open Scope Z_scope.

(** ** The table *)

Lemma link_sym a b : link a b = link b a.
Proof. unfold link. destruct (Nat.leb_spec a b), (Nat.leb_spec b a); try done; [|lia]. by assert (a = b) as -> by lia. Qed.

Lemma link_again a b : link (link a b).1 (link a b).2 = link a b.
Proof. unfold link. destruct (Nat.leb_spec a b) as [H|H]; cbn; [by rewrite (proj2 (Nat.leb_le a b) H)|]. by rewrite (proj2 (Nat.leb_le b a) ltac:(lia)). Qed.

Lemma link_inj a b c d : link a b = link c d -> (a = c /\ b = d) \/ (a = d /\ b = c).
Proof. unfold link. destruct (Nat.leb_spec a b), (Nat.leb_spec c d); intros [= -> ->]; auto. Qed.

Lemma get_set t a b f c d :
  get (set t a b f) c d = if decide (link c d = link a b) then (if is_clean f then clean else f) else get t c d.
Proof.
  unfold get, set. destruct (is_clean f), (decide (link c d = link a b)) as [->|Hne].
  - by rewrite lookup_delete_eq.
  - by rewrite lookup_delete_ne by congruence.
  - by rewrite lookup_insert_eq.
  - by rewrite lookup_insert_ne by congruence.
Qed.

Lemma get_cut_link t a b c d :
  get (cut_link t a b) c d = if decide (link c d = link a b) then with_cut (get t c d) else get t c d.
Proof.
  unfold cut_link. rewrite get_set. destruct (decide _) as [E|]; [|done]. cbn.
  unfold get. by rewrite E.
Qed.

Lemma with_cut_idem f : with_cut (with_cut f) = with_cut f.
Proof. done. Qed.

(** Cutting links one after the other. *)
Definition cut_links (t : FaultTable) (ls : list Link) : FaultTable := foldl (fun t l => cut_link t l.1 l.2) t ls.

Lemma get_cut_links ls t c d :
  get (cut_links t ls) c d =
    if decide (link c d ∈ (fun l => link l.1 l.2) <$> ls) then with_cut (get t c d) else get t c d.
Proof.
  revert t. induction ls as [|[a b] ls IH]; intros t; cbn [cut_links foldl fst snd].
  - rewrite decide_False by set_solver. done.
  - change (get (cut_links (cut_link t a b) ls) c d = if decide (link c d ∈ link a b :: ((fun l => link l.1 l.2) <$> ls))
      then with_cut (get t c d) else get t c d).
    rewrite IH, get_cut_link. repeat destruct (decide _); set_solver.
Qed.

Lemma cut_unattributable_links n t : cut_unattributable n t = cut_links t ((fun i => (i, i)) <$> seq 0 n).
Proof. unfold cut_unattributable, cut_links. generalize (seq 0 n) as l. intros l. revert t. induction l; intros t; cbn; auto. Qed.

Lemma get_cut_unattributable n t c d :
  get (cut_unattributable n t) c d = if decide (c = d /\ (c < n)%nat) then with_cut (get t c d) else get t c d.
Proof.
  rewrite cut_unattributable_links, get_cut_links, <- list_fmap_compose.
  assert (link c d ∈ ((fun l => link l.1 l.2) ∘ (fun i : nat => (i, i))) <$> seq 0 n <-> c = d /\ (c < n)%nat) as E.
  { rewrite list_elem_of_fmap. split.
    - intros (i & Hl & Hi). apply elem_of_seq in Hi. cbn in Hl. apply link_inj in Hl. lia.
    - intros [<- Hc]. exists c. split; [done|]. apply elem_of_seq. lia. }
  repeat destruct (decide _); tauto.
Qed.

(** Two members a grouping puts apart. *)
Definition apart (groups : list (list nat)) (a b : nat) : Prop :=
  exists i j g h, (i < j)%nat /\ groups !! i = Some g /\ groups !! j = Some h /\
    ((a ∈ g /\ b ∈ h) \/ (b ∈ g /\ a ∈ h)).

Lemma partition_links_spec groups a b : link a b ∈ partition_links groups <-> apart groups a b.
Proof.
  induction groups as [|g rest IH]; cbn [partition_links].
  - split; [set_solver|]. intros (i & j & ? & ? & ? & Hg & _). by destruct i.
  - rewrite elem_of_union, elem_of_list_to_set, IH, list_elem_of_bind. split.
    + intros [(x & Hl & Hx)|(i & j & g' & h & Hij & Hg & Hh & Hab)].
      * apply list_elem_of_bind in Hl as (y & Hl & Hy). apply list_elem_of_singleton, link_inj in Hl.
        apply list_elem_of_In, in_concat in Hy as (h & Hh & Hy). apply list_elem_of_In in Hh, Hy.
        apply list_elem_of_lookup in Hh as [j Hj]. exists 0%nat, (S j), g, h. split; [lia|]. split; [done|]. split; [done|].
        destruct Hl as [[-> ->]|[-> ->]]; auto.
      * exists (S i), (S j), g', h. split; [lia|]. auto.
    + intros ([|i] & [|j] & g' & h & Hij & Hg & Hh & Hab); try lia.
      * left. cbn in Hg, Hh. simplify_eq.
        assert (forall y, y ∈ h -> y ∈ concat rest) as Hc.
        { intros y Hy. apply list_elem_of_In, in_concat. exists h. split; apply list_elem_of_In; [|done].
          by eapply list_elem_of_lookup_2. }
        destruct Hab as [[Ha Hb]|[Hb Ha]]; [exists a|exists b]; (split; [|done]); apply list_elem_of_bind;
          [exists b|exists a]; (split; [|by apply Hc]); apply list_elem_of_singleton; [done|apply link_sym].
      * right. exists i, j, g', h. split; [lia|]. auto.
Qed.

Lemma partition_links_normal groups l : l ∈ partition_links groups -> link l.1 l.2 = l.
Proof.
  induction groups as [|g rest IH]; cbn [partition_links]; [set_solver|].
  rewrite elem_of_union, elem_of_list_to_set, list_elem_of_bind. intros [(x & Hl & Hx)|Hl]; [|by apply IH].
  apply list_elem_of_bind in Hl as (y & Hl & Hy). apply list_elem_of_singleton in Hl as ->. apply link_again.
Qed.

Lemma get_partition n groups t a b :
  (apart groups a b \/ (a = b /\ (a < n)%nat) -> get (partition n groups t) a b = with_cut (get t a b)) /\
  (~ apart groups a b -> ~ (a = b /\ (a < n)%nat) -> get (partition n groups t) a b = get t a b).
Proof.
  unfold partition. change (foldl _ t _) with (cut_links t (elements (partition_links groups))).
  rewrite get_cut_unattributable, get_cut_links.
  assert (link a b ∈ (fun l : Link => link l.1 l.2) <$> elements (partition_links groups) <-> apart groups a b) as E.
  { rewrite <- partition_links_spec, list_elem_of_fmap. split.
    - intros (l & -> & Hl%elem_of_elements). by rewrite (partition_links_normal groups).
    - intros Hl. exists (link a b). split; [by rewrite link_again|by apply elem_of_elements]. }
  split.
  - intros Hc. destruct (decide (a = b /\ _)), (decide (link a b ∈ _)); try done; tauto.
  - intros Ha Hs. rewrite decide_False by done. by rewrite decide_False by tauto.
Qed.

Lemma get_isolate n i t a b :
  (a = i /\ b <> i /\ (b < n)%nat \/ b = i /\ a <> i /\ (a < n)%nat \/ (a = b /\ (a < n)%nat) ->
     get (isolate n i t) a b = with_cut (get t a b)) /\
  (a <> i -> b <> i -> a <> b -> get (isolate n i t) a b = get t a b).
Proof.
  unfold isolate. rewrite get_cut_unattributable.
  assert (forall l, foldl (fun t j => if decide (j = i) then t else cut_link t i j) t l
    = cut_links t ((fun j => (i, j)) <$> filter (fun j => j <> i) l)) as ->.
  { intros l. revert t. induction l as [|j l IH]; intros t; cbn [foldl]; [done|]. rewrite filter_cons.
    destruct (decide (j = i)); [rewrite decide_False by tauto|rewrite decide_True by done]; apply IH. }
  rewrite get_cut_links, <- list_fmap_compose.
  assert (link a b ∈ ((fun l => link l.1 l.2) ∘ (fun j => (i, j))) <$> filter (fun j => j <> i) (seq 0 n) <->
    a = i /\ b <> i /\ (b < n)%nat \/ b = i /\ a <> i /\ (a < n)%nat) as E.
  { rewrite list_elem_of_fmap. split.
    - intros (j & Hl & [Hj Hn%elem_of_seq]%list_elem_of_filter). cbn in Hl. apply link_inj in Hl. naive_solver lia.
    - intros [(-> & Hb & Hn)|(-> & Ha & Hn)]; [exists b|exists a]; (split; [cbn; auto using link_sym|]);
        apply list_elem_of_filter; (split; [done|]); apply elem_of_seq; lia. }
  split.
  - intros Hc. destruct (decide (a = b /\ _)), (decide (link a b ∈ _)); try done; tauto.
  - intros Ha Hb Hab. rewrite !decide_False by tauto. done.
Qed.

(** ** Finding messages *)

Lemma message_len_bound buf n : http_message_len buf = Some n -> (n <= length buf)%nat.
Proof.
  unfold http_message_len. destruct (find buf CRLF2) as [i|]; cbn; [|done].
  destruct (contains _ _); [done|]. destruct (Z.leb_spec (wrap_u 64 (Z.of_nat (i + 4) + content_length (head_text (take (i + 4) buf)))) (zlen buf)) as [H|]; [|done].
  intros [= <-]. unfold zlen in H. lia.
Qed.

(** ** Delivery *)

(** [vs] is [us] but for neighbours that changed places. *)
Inductive shuffled : list bytes -> list bytes -> Prop :=
| shuffled_nil : shuffled [] []
| shuffled_keep us vs u : shuffled us vs -> shuffled (us ++ [u]) (vs ++ [u])
| shuffled_swap us vs a b : shuffled us vs -> shuffled (us ++ [a; b]) (vs ++ [b; a]).

Section delivery.
Context {Rng : Type} (random : Rng -> Q * Rng).

(** After the bytes [input]: what was written out, piece by piece, and what waits. *)
Record delivered (ordered : bool) (input : bytes) (p : Pump Rng) : Prop := {
  del_room : room (sink p) = None;
  del_pieces : exists us vs, shuffled us vs /\ input = concat us ++ default [] (held p) ++ pending p /\
    sent (sink p) = concat vs /\ (forall m, m ∈ side p -> m ∈ us /\ has_body m = true) /\ (ordered = true -> vs = us);
  del_ordered : ordered = true -> held p = None;
  del_unframed : framed p = false -> held p = None /\ pending p = [];
}.

Definition going (fl : Flow Rng) (P : Pump Rng -> Prop) : Prop := match fl with Going p => P p | Stopped _ => False end.

Lemma write_delivers (bs : bytes) (p : Pump Rng) k P : room (sink p) = None ->
  going (k (with_sink (mkSink (sent (sink p) ++ bs) None) p)) P -> going (write bs p k) P.
Proof. intros Hr Hk. unfold write, write_all. by rewrite Hr. Qed.

Lemma chance_keeps q (p : Pump Rng) b p' : chance random q p = (b, p') ->
  framed p' = framed p /\ pending p' = pending p /\ held p' = held p /\ sink p' = sink p /\ side p' = side p /\
  (b = true -> Qlt_bool 0 q = true).
Proof.
  unfold chance. destruct (Qlt_bool 0 q); [destruct (random (rng p)) as [x r]|]; intros [= <- <-]; by repeat split.
Qed.

Lemma repeat_delivers ordered input fault msg sc (p : Pump Rng) us vs :
  room (sink p) = None -> shuffled us vs -> input = concat us ++ default [] (held p) ++ pending p ->
  sent (sink p) = concat vs -> (forall m, m ∈ side p -> m ∈ us /\ has_body m = true) -> (ordered = true -> vs = us) ->
  (ordered = true -> held p = None) -> framed p = true -> msg ∈ us ->
  delivered ordered input (repeat_message random sc fault msg p) /\ framed (repeat_message random sc fault msg p) = true /\
  pending (repeat_message random sc fault msg p) = pending p.
Proof.
  intros Hr Hs Hi Hv Hside Ho Hh Hf Hm. unfold repeat_message. destruct (has_body msg) eqn:Eb.
  - destruct (chance _ _ _) as [again p'] eqn:E. apply chance_keeps in E as (Ef & Ep & Eh & Es & Esd & _).
    destruct (again && sc); cbn; rewrite ?Ef, ?Ep; (split; [|done]); split; cbn; rewrite ?Ef, ?Ep, ?Eh, ?Es, ?Esd; try done.
    + exists us, vs. split; [done|]. split; [done|]. split; [done|]. split; [|done].
      intros m [Hin| ->%list_elem_of_singleton]%elem_of_app; auto.
    + congruence.
    + exists us, vs. auto.
    + congruence.
  - split; [|done]. split; [done|exists us, vs; auto|done|congruence].
Qed.

(** The complete messages of the buffer, provided none announces a length that wraps to nothing. *)
Lemma frames_delivers fuel sc fault ordered input (p : Pump Rng) :
  delivered ordered input p -> framed p = true -> (ordered = true -> Qlt_bool 0 (reorder fault) = false) ->
  (forall buf, buf `suffix_of` pending p -> http_message_len buf <> Some 0%nat) -> (length (pending p) < fuel)%nat ->
  exists fl, frames random fuel sc fault p = Some fl /\ going fl (fun p => delivered ordered input p).
Proof.
  revert p. induction fuel as [|fuel IH]; intros p Hd Hf Hre Hno Hfuel; [lia|]. cbn [frames].
  destruct (http_message_len (pending p)) as [len|] eqn:El.
  - pose proof (message_len_bound _ _ El) as Hle.
    assert (len <> 0%nat) as Hnz by (intros ->; by apply (Hno (pending p))).
    assert (forall buf, buf `suffix_of` drop len (pending p) -> http_message_len buf <> Some 0%nat) as Hno'.
    { intros buf Hb. apply Hno. etransitivity; [exact Hb|]. apply suffix_drop. }
    assert (length (drop len (pending p)) < fuel)%nat as Hfuel' by (rewrite length_drop; lia).
    destruct Hd as [Hr (us & vs & Hs & Hi & Hv & Hside & Ho) Hh Hu].
    cbn [with_pending held]. destruct (held p) as [earlier|] eqn:Eh.
    + assert (ordered = false) as -> by (destruct ordered; [by discriminate Hh|done]).
      unfold write at 1, write_all. cbn [with_held with_pending counting sink]. rewrite Hr.
      unfold write, write_all. cbn [with_sink sink room sent with_held with_pending counting]. apply IH; cbn; try done.
      split; cbn; [done| |done|congruence]. exists (us ++ [earlier; take len (pending p)]), (vs ++ [take len (pending p); earlier]).
      split; [by constructor|]. rewrite !concat_app, Hi, Hv. cbn. rewrite !app_nil_r, <- !app_assoc, take_drop.
      split; [done|]. split; [done|]. split; [|done]. intros m Hm%Hside. set_solver.
    + destruct (chance _ _ _) as [late p'] eqn:Ec. apply chance_keeps in Ec as (Ef & Ep & Ehd & Es & Esd & Hlate).
      cbn [with_pending framed pending held sink side] in Ef, Ep, Ehd, Es, Esd. destruct late.
      * specialize (Hlate eq_refl). assert (ordered = false) as -> by (destruct ordered; [rewrite Hre in Hlate|]; done).
        apply IH; cbn; rewrite ?Ep; try done; [|congruence].
        { split; cbn; rewrite ?Ep, ?Es, ?Esd, ?Ef; [done| |done|congruence]. exists us, vs. split; [done|]. split; [|done].
          rewrite Hi. cbn. by rewrite take_drop. }

      * unfold write, write_all. rewrite Es, Hr.
        set (p2 := with_sink _ p').
        destruct (repeat_delivers ordered input fault (take len (pending p)) sc p2
          (us ++ [take len (pending p)]) (vs ++ [take len (pending p)])) as (Hd2 & Hf2 & Hp2);
          subst p2; cbn [with_sink sink sent room held pending framed side]; rewrite ?Ehd, ?Ep, ?Esd, ?Ef; try done.
        -- by constructor.
        -- rewrite Eh, concat_app, Hi. cbn. by rewrite app_nil_r, <- app_assoc, take_drop.
        -- by rewrite concat_app, Hv; cbn; rewrite app_nil_r.
        -- intros m Hm%Hside. set_solver.
        -- intros E. by rewrite (Ho E).
        -- set_solver.
        -- apply IH; [done|done|done| |]; rewrite Hp2; cbn; by rewrite Ep.
  - destruct (unframeable _); [|eexists; by split].
    eexists. split; [done|]. destruct Hd as [Hr (us & vs & Hs & Hi & Hv & Hside & Ho) Hh Hu].
    unfold flush_held. cbn [with_framed counting held].
    assert (forall us2 vs2 (q : Pump Rng), room (sink q) = None -> shuffled us2 vs2 -> held q = None -> framed q = false ->
      input = concat us2 ++ pending q -> sent (sink q) = concat vs2 ->
      (forall m, m ∈ side q -> m ∈ us2 /\ has_body m = true) -> (ordered = true -> vs2 = us2) ->
      going (write (pending q) q (fun p => Going (with_pending [] p))) (fun p => delivered ordered input p)) as Hfin.
    { intros us2 vs2 q Hqr Hqs Hqh Hqf Hqi Hqv Hqside Hqo. apply write_delivers; [done|]. cbn.
      split; cbn; [done| |done|done]. exists (us2 ++ [pending q]), (vs2 ++ [pending q]).
      split; [by constructor|]. rewrite Hqh, !concat_app, <- Hqv, Hqi. cbn. rewrite !app_nil_r.
      split; [done|]. split; [done|]. split; [intros m Hm%Hqside; set_solver|]. intros E. by rewrite (Hqo E). }
    destruct (held p) as [earlier|] eqn:Eh.
    + apply write_delivers; [done|]. apply (Hfin (us ++ [earlier]) (vs ++ [earlier])); cbn; try done.
      * by constructor.
      * rewrite concat_app, Hi. cbn. by rewrite app_nil_r, <- app_assoc.
      * rewrite concat_app, Hv. cbn. by rewrite app_nil_r.
      * intros m Hm%Hside. set_solver.
      * intros E. by rewrite (Ho E).
    + by apply (Hfin us vs).
Qed.

(** ** A run of the loop *)

Definition chunk_of (t : Turn) : bytes := match seen t with Read c => c | _ => [] end.
(** What was read. *)
Definition read (turns : list Turn) : bytes := concat (map chunk_of turns).

(** Nothing is cut, and the stream has not ended. *)
Definition calm (t : Turn) : Prop :=
  cut (top t) = false /\ cut (mid t) = false /\ cut (after_delay t) = false /\ seen t <> Ended.

(** No part of the stream announces a body so long that its message has length zero. *)
Definition no_overflow (input : bytes) : Prop :=
  forall a b c, input = a ++ b ++ c -> http_message_len b <> Some 0%nat.

Lemma delivered_pending ordered input chunk (p : Pump Rng) : delivered ordered input p -> framed p = true ->
  delivered ordered (input ++ chunk) (with_pending (pending p ++ chunk) p).
Proof.
  intros [Hr (us & vs & Hs & Hi & Hv & Hside & Ho) Hh Hu] Hf. split; cbn; [done| |done|congruence].
  exists us, vs. split; [done|]. by rewrite Hi, <- !app_assoc.
Qed.

Lemma delivered_plain ordered input chunk (p : Pump Rng) : delivered ordered input p -> framed p = false ->
  going (write chunk p Going) (fun p => delivered ordered (input ++ chunk) p /\ framed p = false).
Proof.
  intros [Hr (us & vs & Hs & Hi & Hv & Hside & Ho) Hh Hu] Hf. apply write_delivers; [done|].
  destruct (Hu Hf) as [Eh Ep]. split; [|done]. split; cbn; [done| |done|done].
  exists (us ++ [chunk]), (vs ++ [chunk]). split; [by constructor|]. rewrite !concat_app, <- Hv, Hi, Eh, Ep. cbn.
  rewrite !app_nil_r. split; [done|]. split; [done|]. split; [intros m Hm%Hside; set_solver|].
  intros E. by rewrite (Ho E).
Qed.

Lemma delivered_flush ordered input (p : Pump Rng) : delivered ordered input p ->
  going (flush_held p Going) (fun q => delivered ordered input q /\ framed q = framed p).
Proof.
  intros Hd. unfold flush_held. destruct (held p) as [earlier|] eqn:Eh; [|by split].
  destruct Hd as [Hr (us & vs & Hs & Hi & Hv & Hside & Ho) Hh Hu]. apply write_delivers; [done|]. split; [|done].
  rewrite Eh in Hi. split; cbn; [done| |done|intros Hf; by destruct (Hu Hf)].
  exists (us ++ [earlier]), (vs ++ [earlier]). split; [by constructor|]. rewrite !concat_app, <- Hv, Hi. cbn.
  rewrite !app_nil_r, <- !app_assoc. split; [done|]. split; [done|]. split; [intros m Hm%Hside; set_solver|].
  intros E. by rewrite (Ho E).
Qed.

Lemma counting_delivered ordered input f (p : Pump Rng) : delivered ordered input p -> delivered ordered input (counting f p).
Proof. by intros [Hr Hp Hh Hu]. Qed.

(** Message order is kept: an unframed stream, or one no fault reorders. *)
Definition in_order (framed : bool) (turns : list Turn) : bool :=
  negb framed || forallb (fun t => negb (Qlt_bool 0 (reorder (mid t)))) turns.

Lemma turn_delivers sc ordered input t (p : Pump Rng) :
  delivered ordered input p -> calm t -> (ordered = true -> in_order (framed p) [t] = true) ->
  no_overflow (input ++ chunk_of t) ->
  exists q, turn random sc t p = Some (Going q) /\ delivered ordered (input ++ chunk_of t) q /\
    (framed p = false -> framed q = false).
Proof.
  intros Hd (Htop & Hmid & Haft & Hend) Hord Hno. unfold turn, chunk_of in *. rewrite Htop.
  destruct (seen t) as [chunk| | |]; [|done| |].
  - rewrite Hmid, Haft, andb_false_r.
    set (p2 := if negb (delay (mid t) =? 0) then _ else _).
    assert (delivered ordered input p2 /\ framed p2 = framed p) as [Hd2 Efr].
    { subst p2. destruct (negb _); split; by repeat apply counting_delivered. }
    rewrite <- Efr in Hord |- *. clear Efr. clearbody p2.
    destruct (framed p2) eqn:Ef; cbn [negb].
    + destruct (frames_delivers (frame_fuel (with_pending (pending p2 ++ chunk) p2)) sc (mid t) ordered (input ++ chunk)
        (with_pending (pending p2 ++ chunk) p2)) as (fl & -> & Hg).
      * by apply delivered_pending.
      * done.
      * intros E. specialize (Hord E). unfold in_order in Hord. cbn in Hord; try rewrite Ef in Hord. by destruct (Qlt_bool _ _).
      * cbn. intros buf [pre Hbuf]. destruct Hd2 as [_ (us & vs & _ & Hi & _) _ _].
        apply (Hno (concat us ++ default [] (held p2) ++ pre) buf []). rewrite Hi, <- !app_assoc, Hbuf. by rewrite app_nil_r.
      * unfold frame_fuel. lia.
      * destruct fl as [q|q]; cbn in Hg; [|done]. by exists q.
    + pose proof (delivered_plain ordered input chunk p2 Hd2 Ef) as Hg. destruct (write chunk p2 Going) as [q|q]; [|done].
      destruct Hg as [Hq Hf]. by exists q.
  - exists p. by rewrite app_nil_r.
  - pose proof (delivered_flush ordered input p Hd) as Hg. rewrite app_nil_r.
    destruct (flush_held p Going) as [q|q]; [|done]. destruct Hg as [Hq Hf]. exists q. split; [done|]. split; [done|congruence].
Qed.

Lemma pump_delivers sc ordered turns input (p : Pump Rng) :
  delivered ordered input p -> Forall calm turns -> (ordered = true -> in_order (framed p) turns = true) ->
  no_overflow (input ++ read turns) ->
  exists q, pump random sc turns p = Some (Going q) /\ delivered ordered (input ++ read turns) q.
Proof.
  intros Hd Hc. revert input p Hd. induction Hc as [|t turns Ht Hc IH]; intros input p Hd Hord Hno.
  - exists p. split; [done|]. by rewrite app_nil_r.
  - change (read (t :: turns)) with (chunk_of t ++ read turns) in *. rewrite app_assoc in *. cbn [pump].
    destruct (turn_delivers sc ordered input t p Hd Ht) as (q & -> & Hq & Hf).
    + intros E. specialize (Hord E). unfold in_order in *. cbn in *. destruct (framed p), (Qlt_bool _ _); cbn in *; done.
    + intros a b c E. apply (Hno a b (c ++ read turns)). by rewrite E, <- !app_assoc.
    + apply IH; [done| |done]. intros E. specialize (Hord E). unfold in_order in *. cbn [forallb] in Hord.
      apply orb_true_iff in Hord as [Hp|[_ Hp]%andb_true_iff]; [|by rewrite Hp, orb_true_r].
      rewrite Hf; [done|]. by destruct (framed p).
Qed.

Lemma finish_delivers ordered input (p : Pump Rng) : delivered ordered input p -> exists us vs,
  shuffled us vs /\ concat us = input /\ sent (sink (finish p)) = concat vs /\
  (forall m, m ∈ side (finish p) -> m ∈ us /\ has_body m = true) /\ (ordered = true -> vs = us).
Proof.
  intros [Hr (us & vs & Hs & Hi & Hv & Hside & Ho) Hh Hu]. unfold finish, write_all.
  set (us1 := us ++ match held p with Some e => [e] | None => [] end). set (vs1 := vs ++ match held p with Some e => [e] | None => [] end).
  assert (shuffled us1 vs1) as Hs1 by (subst us1 vs1; destruct (held p); [by constructor|by rewrite !app_nil_r]).
  set (p1 := match held p with Some _ => _ | None => p end).
  assert (sink p1 = mkSink (concat vs1) None /\ pending p1 = pending p /\ side p1 = side p) as (Es & Ep & Esd).
  { subst p1 vs1. destruct (held p); cbn; rewrite ?Hr; cbn; rewrite ?concat_app, ?Hv, ?app_nil_r; cbn; rewrite ?app_nil_r;
      (split; [|done]); [done|]. by destruct (sink p); cbn in *; subst. }
  assert (concat us1 ++ pending p = input) as Hi1.
  { rewrite Hi. subst us1. destruct (held p); cbn; rewrite concat_app; cbn; rewrite ?app_nil_r, <- ?app_assoc; done. }
  assert (ordered = true -> vs1 = us1) as Ho1 by (intros E; subst us1 vs1; by rewrite (Ho E)).
  assert (forall m, m ∈ side p1 -> m ∈ us1 /\ has_body m = true) as Hside1.
  { intros m. rewrite Esd. intros [??]%Hside. subst us1. set_solver. }
  rewrite Ep, Es. cbn [room]. destruct (decide (pending p = [])) as [E|E].
  - exists us1, vs1. rewrite E, app_nil_r in Hi1. rewrite Es. auto.
  - exists (us1 ++ [pending p]), (vs1 ++ [pending p]). rewrite !concat_app. cbn. rewrite !app_nil_r.
    split; [by constructor|]. split; [done|]. split; [done|]. split; [intros m Hm%Hside1; set_solver|].
    intros E'. by rewrite (Ho1 E').
Qed.
End delivery.

(** ** The claims *)

Section claims.
Context {Rng : Type} (random : Rng -> Q * Rng) (seed_from_u64 : Z -> Rng).


(** The loop whose look at the table finds the link cut. *)
Definition sees_cut (f : LinkFault) (t : Turn) : Prop :=
  top t = f \/ (exists chunk, seen t = Read chunk) /\ mid t = f.

(** C15: after a partition a new connection between members it puts apart is refused,
  and so is one whose dialer could not be identified; an open one writes nothing
  more from the next time its loop looks; links inside a group keep the faults
  they had, and healing clears every fault. *)
Theorem partition_isolates members groups t :
  let t' := partition members groups t in
  (forall a b, apart groups a b -> forall source, source = Some a \/ source = None /\ (b < members)%nat ->
     (forall reached seed there back st, (handle random seed_from_u64 source b t' reached seed there back st).1 = Refused) /\
     (forall sc p r, sees_cut (fault_now source b t') r ->
        exists q, turn random sc r p = Some (Stopped q) /\ sink q = sink p /\ side q = side p)) /\
  (forall a b, ~ apart groups a b -> ~ (a = b /\ (a < members)%nat) -> get t' a b = get t a b) /\
  (forall a b, get (heal t') a b = clean).
Proof.
  intros t'. split; [|split; [apply get_partition|done]].
  intros a b Hab source Hsrc.
  assert (cut (fault_now source b t') = true) as Hcut.
  { destruct Hsrc as [->|[-> Hb]]; cbn [fault_now]; subst t'; by rewrite (proj1 (get_partition members groups t _ _)) by auto. }
  split.
  - intros reached seed there back st. unfold handle. by rewrite Hcut.
  - intros sc p r [Ht|[[chunk Hr] Hm]]; unfold turn.
    + rewrite Ht, Hcut. by eexists.
    + destruct (cut (top r)); [by eexists|]. rewrite Hr, Hm, Hcut. by eexists.
Qed.
End claims.

(** Every part of a short stream, for the examples. *)
Definition parts_ok (input : bytes) : bool :=
  forallb (fun i => forallb (fun n => negb (bool_decide (http_message_len (take n (drop i input)) = Some 0%nat)))
    (seq 0 (S (length input)))) (seq 0 (S (length input))).

Lemma parts_ok_no_overflow input : parts_ok input = true -> no_overflow input.
Proof.
  intros H a b c E Hb. unfold parts_ok in H. rewrite forallb_forall in H.
  specialize (H (length a)). rewrite forallb_forall in H.
  assert (In (length a) (seq 0 (S (length input)))) as Ha by (apply in_seq; rewrite E, !length_app; lia).
  assert (In (length b) (seq 0 (S (length input)))) as Hl by (apply in_seq; rewrite E, !length_app; lia).
  specialize (H Ha _ Hl). rewrite E, drop_app_length, take_app_length, Hb in H. done.
Qed.

Definition always_low (r : unit) : Q * unit := (0%Q, r).
Definition reordering : LinkFault := mkFault false 0 0 0 1.
Definition request (path : string) : bytes := str "GET " ++ str path ++ str " HTTP/1.1" ++ CRLF2.
(** Two requests in three chunks. *)
Definition late_turns : list Turn :=
  (fun c => mkTurn reordering (Read c) reordering reordering) <$>
    [take 5 (request "/a"); drop 5 (request "/a") ++ take 7 (request "/b"); drop 7 (request "/b")].


Lemma partition_isolates_witness :
  (handle always_low (fun _ => tt) (Some 0%nat) 2 (partition 3 [[0%nat]; [1%nat; 2%nat]] ∅) true 1
     (mkSink [] None) (mkSink [] None) no_stats).1 = Refused /\
  get (partition 3 [[0%nat]; [1%nat; 2%nat]] ∅) 1 2 = clean.
Proof.
  destruct (partition_isolates always_low (fun _ => tt) 3 [[0%nat]; [1%nat; 2%nat]] ∅) as (Hcut & Hkeep & _).
  assert (apart [[0%nat]; [1%nat; 2%nat]] 0 2) as Hab.
  { exists 0%nat, 1%nat, [0%nat], [1%nat; 2%nat]. split; [lia|]. split; [reflexivity|]. split; [reflexivity|].
    left. split; [left|right; left]. }
  assert (~ apart [[0%nat]; [1%nat; 2%nat]] 1 2) as Hnot.
  { rewrite <- partition_links_spec. vm_compute. intros E. discriminate E. }
  split.
  - apply (Hcut 0%nat 2%nat Hab). left. reflexivity.
  - rewrite Hkeep; [reflexivity|exact Hnot|]. intros [E _]. discriminate E.
Defined.

(** ** A length that wraps

  The sum of a head's length and its announced body is a [usize]; announced just
  below the limit it is zero, and the loop takes empty messages for ever. *)

Definition wrapping_request : bytes :=
  str "POST / HTTP/1.1" ++ [x0d; x0a] ++ str "content-length: 18446744073709551560" ++ CRLF2.

Lemma wrapping_request_is_empty : http_message_len (wrapping_request ++ [x61]) = Some 1%nat /\
  http_message_len (str "POST / HTTP/1.1" ++ [x0d; x0a] ++ str "content-length: 18446744073709551559" ++ CRLF2) = Some 0%nat.
Proof. split; vm_compute; reflexivity. Qed.

Lemma empty_message_never_ends {Rng} (random : Rng -> Q * Rng) fuel sc (p : Pump Rng) :
  http_message_len (pending p) = Some 0%nat -> held p = None -> room (sink p) = None ->
  frames random fuel sc clean p = None.
Proof.
  revert p. induction fuel as [|fuel IH]; intros p El Hh Hr; [done|]. cbn [frames]. rewrite El. cbn [with_pending held].
  rewrite Hh. change (chance random (reorder clean) (with_pending (drop 0 (pending p)) p)) with
    (false, with_pending (drop 0 (pending p)) p).
  unfold write, write_all. cbn [with_pending sink]. rewrite Hr. unfold repeat_message. cbn [take].
  destruct (has_body []) eqn:Eb; [discriminate Eb|]. by apply IH.
Qed.
