(* ===== verification/Workload.v ===== *)
(** * The fault schedule ([disttest/src/cluster/workload.rs])

  What a schedule does to the cluster, the seeded schedule, and that it can be
  survived: a partition places every member and leaves one side a majority, and
  when every event has fired no link is at fault and every member runs.

  [range] is [random_range] of the [rand] crate; processes and the search for the
  leader are arguments. *)

From Stdlib Require Import QArith.
From S2P Require Import Prelude Text Proxy ProxySafe.
#[local] Open Scope Z_scope.

Inductive FaultEvent : Type :=
| Partition (groups : list (list nat))
| Isolate (i : nat)
| KillLeader
| Kill (i : nat)
| RestartStopped
| DelayAll (d : Z)
| LossyAll (p : Q)
| MangleAll (duplicate reorder : Q)
| Heal.

(** Times are in milliseconds. *)
Definition FaultSchedule : Type := list (Z * FaultEvent).

(** ** The seeded schedule *)

Section random.
Context {Rng : Type} (range : Z -> Z -> Rng -> Z * Rng).

Definition index (n : nat) (r : Rng) : nat * Rng := let '(z, r) := range 0 (Z.of_nat n) r in (Z.to_nat z, r).

Definition swap (l : list nat) (i j : nat) : list nat :=
  match l !! i, l !! j with
  | Some x, Some y => <[i := y]> (<[j := x]> l)
  | _, _ => l
  end.

(** [for i in (1..len).rev()]. *)
Fixpoint shuffle (i : nat) (l : list nat) (r : Rng) : list nat * Rng :=
  match i with
  | O => (l, r)
  | S i' => let '(j, r) := index (S i) r in shuffle i' (swap l i j) r
  end.

Definition random_event (members : nat) (r : Rng) : FaultEvent * Rng :=
  let majority := (members / 2 + 1)%nat in
  let '(choice, r) := range 0 5 r in
  if choice =? 0 then let '(victim, r) := index members r in (Isolate victim, r)
  else if choice =? 1 then
    let '(idx, r) := shuffle (pred members) (seq 0 members) r in
    (Partition [take (members - majority) idx; drop (members - majority) idx], r)
  else if choice =? 2 then (KillLeader, r)
  else if choice =? 3 then let '(d, r) := range 20 120 r in (DelayAll d, r)
  else (LossyAll (1 # 10), r).

(** The rounds from [round] on: a fault, then its recovery. *)
Fixpoint random_rounds (n : nat) (round slot : Z) (members : nat) (r : Rng) : FaultSchedule :=
  match n with
  | O => []
  | S n =>
      let '(event, r) := random_event members r in
      (slot * (round * 2 + 1), event) :: (slot * (round * 2 + 2), Heal) :: (slot * (round * 2 + 2) + 1, RestartStopped)
        :: random_rounds n (round + 1) slot members r
  end.

Definition rounds : nat := 3.
Definition slot_of (duration : Z) : Z := duration / Z.max (Z.of_nat rounds * 2 + 1) 1.

Definition random (members : nat) (duration : Z) (r : Rng) : FaultSchedule :=
  random_rounds rounds 0 (slot_of duration) members r.
End random.

(** [sort_by_key] on the times is stable. *)
Definition sorted (s : FaultSchedule) : FaultSchedule := sort_by (fun p q => p.1 <=? q.1) s.

(** ** Applying it *)

(** The cluster as the schedule sees it: the table, and the members that run. *)
Record Cluster : Type := mkCluster {
  members : nat;
  initial_size : nat;
  faults : FaultTable;
  running : gset nat;
}.

Definition with_faults (t : FaultTable) (c : Cluster) : Cluster := mkCluster (members c) (initial_size c) t (running c).
Definition with_running (x : gset nat) (c : Cluster) : Cluster := mkCluster (members c) (initial_size c) (faults c) x.

Definition kill (i : nat) (c : Cluster) : Cluster := with_running (running c ∖ {[i]}) c.

Section apply.
(** Whether a member comes up when it is started, and who leads. *)
Context (starts : nat -> Cluster -> bool) (leader : Cluster -> option nat).

Definition start_member (i : nat) (c : Cluster) : option Cluster :=
  if starts i c then Some (with_running (running c ∪ {[i]}) c) else None.

(** The members to start are those that were stopped at the beginning. *)
Definition restart_stopped (c : Cluster) : option Cluster :=
  foldl (fun c i => c ← c; start_member i c) (Some c) (filter (fun i => i ∉ running c) (seq 0 (initial_size c))).

(** [None] is the failure of a member that does not start. *)
Definition apply (e : FaultEvent) (c : Cluster) : option Cluster :=
  match e with
  | Partition groups => Some (with_faults (partition (members c) groups (faults c)) c)
  | Isolate i => Some (with_faults (isolate (members c) i (faults c)) c)
  | Kill i => Some (kill i c)
  | KillLeader => Some (match leader c with Some l => kill l c | None => c end)
  | RestartStopped => restart_stopped c
  | DelayAll d => Some (with_faults (every_link (members c) (mkFault false (d * 1000000) 0 0 0) (faults c)) c)
  | LossyAll p => Some (with_faults (every_link (members c) (mkFault false 0 p 0 0) (faults c)) c)
  | MangleAll d o => Some (with_faults (every_link (members c) (mkFault false 0 0 d o) (faults c)) c)
  | Heal => Some (with_faults (heal (faults c)) c)
  end.

(** Every event, in the order it fires. *)
Fixpoint apply_all (s : FaultSchedule) (c : Cluster) : option Cluster :=
  match s with
  | [] => Some c
  | (_, e) :: s => c ← apply e c; apply_all s c
  end.
End apply.

(** ** Partitions keep a majority *)

Section survives.
Context {Rng : Type} (range : Z -> Z -> Rng -> Z * Rng).
(** [random_range] draws from its range. *)
Context (in_range : forall lo hi r, lo < hi -> lo <= (range lo hi r).1 < hi).

Lemma index_lt n r : (0 < n)%nat -> ((index range n r).1 < n)%nat.
Proof using in_range.
  intros Hn. unfold index. pose proof (in_range 0 (Z.of_nat n) r ltac:(lia)).
  destruct (range 0 (Z.of_nat n) r) as [z r']. cbn in *. lia.
Qed.

Lemma swap_shuffles l i j : swap l i j ≡ₚ l.
Proof.
  unfold swap. destruct (l !! i) as [x|] eqn:Ei, (l !! j) as [y|] eqn:Ej; try done.
  by rewrite Permutation_insert_swap.
Qed.

Lemma shuffle_perm i l r : (shuffle range i l r).1 ≡ₚ l.
Proof.
  revert l r. induction i as [|i IH]; intros l r; cbn; [done|].
  destruct (index range (S (S i)) r) as [j r']. rewrite IH. apply swap_shuffles.
Qed.

(** Every member on one side, and one side with a majority. *)
Definition keeps_majority (members : nat) (groups : list (list nat)) : Prop :=
  concat groups ≡ₚ seq 0 members /\ exists g, g ∈ groups /\ (members < 2 * length g)%nat.

Lemma random_event_survivable members r groups : (0 < members)%nat ->
  (random_event range members r).1 = Partition groups -> keeps_majority members groups.
Proof.
  intros Hm. unfold random_event. destruct (range 0 5 r) as [choice r1].
  destruct (choice =? 0); [by destruct (index range members r1)|]. destruct (choice =? 1).
  - pose proof (shuffle_perm (pred members) (seq 0 members) r1) as Hp.
    destruct (shuffle range (pred members) (seq 0 members) r1) as [idx r2]. cbn in Hp |- *. intros [= <-].
    pose proof (Permutation_length Hp) as Hl. rewrite length_seq in Hl. cbn in Hl.
    pose proof (Nat.div_mod members 2 ltac:(lia)). pose proof (Nat.mod_upper_bound members 2 ltac:(lia)).
    split; [cbn; by rewrite app_nil_r, take_drop|].
    exists (drop (members - (members / 2 + 1)) idx). split; [set_solver|]. rewrite length_drop. 
    destruct (decide (members = 1%nat)) as [->|]; [cbn; lia|]. 
    assert (members / 2 + 1 <= members)%nat by (pose proof (Nat.div_lt members 2); lia). lia.
  - destruct (choice =? 2); [done|]. destruct (choice =? 3); [by destruct (range 20 120 r1)|done].
Qed.

(** What a round does to the cluster. *)
Definition is_fault (e : FaultEvent) : Prop :=
  match e with RestartStopped | Heal => False | _ => True end.

Lemma random_event_fault members r : is_fault (random_event range members r).1.
Proof.
  unfold random_event. destruct (range 0 5 r) as [choice r1].
  destruct (choice =? 0); [by destruct (index range members r1)|].
  destruct (choice =? 1); [by destruct (shuffle _ _ _ _)|].
  destruct (choice =? 2); [done|]. destruct (choice =? 3); [by destruct (range 20 120 r1)|done].
Qed.

(** The three rounds, whatever was drawn. *)
Lemma random_shape members duration r : exists e1 e2 e3,
  let slot := slot_of duration in
  random range members duration r =
    [(slot * 1, e1); (slot * 2, Heal); (slot * 2 + 1, RestartStopped);
     (slot * 3, e2); (slot * 4, Heal); (slot * 4 + 1, RestartStopped);
     (slot * 5, e3); (slot * 6, Heal); (slot * 6 + 1, RestartStopped)] /\
  Forall (fun e => exists r, e = (random_event range members r).1) [e1; e2; e3].
Proof.
  unfold random, rounds. set (slot := slot_of duration). cbn [random_rounds].
  destruct (random_event range members r) as [e1 r1] eqn:E1.
  destruct (random_event range members r1) as [e2 r2] eqn:E2.
  destruct (random_event range members r2) as [e3 r3] eqn:E3.
  exists e1, e2, e3. cbn. split; [done|].
  repeat constructor; [exists r|exists r1|exists r2]; by rewrite ?E1, ?E2, ?E3.
Qed.
End survives.

(** ** Every schedule ends healed *)

Section heals.
Context (starts : nat -> Cluster -> bool) (leader : Cluster -> option nat).
Context (always_starts : forall i c, starts i c = true).

Lemma restart_runs c : exists c', restart_stopped starts c = Some c' /\ faults c' = faults c /\
  initial_size c' = initial_size c /\ members c' = members c /\ running c ⊆ running c' /\
  forall i, (i < initial_size c)%nat -> i ∈ running c'.
Proof using All.
  unfold restart_stopped.
  assert (forall l c, exists c', foldl (fun c i => c ← c; start_member starts i c) (Some c) l = Some c' /\
    faults c' = faults c /\ initial_size c' = initial_size c /\ members c' = members c /\
    running c' = running c ∪ list_to_set l) as G.
  { induction l as [|i l IH]; intros c0; cbn [foldl mbind option_bind].
    - exists c0. repeat (split; [done|]). set_solver.
    - unfold start_member at 2. rewrite always_starts.
      destruct (IH (with_running (running c0 ∪ {[i]}) c0)) as (c' & E & Ef & Ei & Em & Er).
      exists c'. repeat (split; [done|]). rewrite Er. cbn. set_solver. }
  destruct (G (filter (fun i => i ∉ running c) (seq 0 (initial_size c))) c) as (c' & E & Ef & Ei & Em & Er).
  exists c'. repeat (split; [done|]). rewrite Er. split; [set_solver|]. intros i Hi.
  rewrite elem_of_union, elem_of_list_to_set, list_elem_of_filter, elem_of_seq.
  destruct (decide (i ∈ running c)); [by left|right]. split; [done|lia].
Qed.

Lemma apply_runs e c : exists c', apply starts leader e c = Some c' /\ initial_size c' = initial_size c.
Proof using All.
  destruct e; cbn [apply]; try by eexists.
  - eexists. split; [done|]. by destruct (leader c).
  - destruct (restart_runs c) as (c' & E & _ & Ei & _). eauto.
Qed.

Lemma apply_all_app s s' c : apply_all starts leader (s ++ s') c = c' ← apply_all starts leader s c; apply_all starts leader s' c'.
Proof. revert c. induction s as [|[t e] s IH]; intros c; cbn [apply_all app]; [done|]. by destruct (apply _ _ e c); cbn. Qed.

Lemma apply_all_runs s c : exists c', apply_all starts leader s c = Some c' /\ initial_size c' = initial_size c.
Proof using All.
  revert c. induction s as [|[t e] s IH]; intros c; cbn [apply_all]; [eauto|].
  destruct (apply_runs e c) as (c1 & -> & E1). cbn. destruct (IH c1) as (c' & E & Ei). exists c'. split; [done|congruence].
Qed.

(** No link is at fault, and every member runs. *)
Definition healed (c : Cluster) : Prop :=
  (forall a b, get (faults c) a b = clean) /\ forall i, (i < initial_size c)%nat -> i ∈ running c.

Lemma ends_healed pre t restarts c :
  restarts <> [] -> Forall (fun p => p.2 = RestartStopped) restarts ->
  exists c', apply_all starts leader (pre ++ (t, Heal) :: restarts) c = Some c' /\ healed c' /\ initial_size c' = initial_size c.
Proof using All.
  intros Hne Hr. rewrite apply_all_app. destruct (apply_all_runs pre c) as (c1 & -> & E1). cbn [mbind option_bind apply_all apply].
  rewrite <- E1. clear E1 c. assert (faults (with_faults (heal (faults c1)) c1) = ∅) as Hf by done.
  revert Hf. change (initial_size c1) with (initial_size (with_faults (heal (faults c1)) c1)).
  generalize (with_faults (heal (faults c1)) c1) as c. clear c1. intros c Hf.
  destruct Hr as [|[t' e] rest He Hr]; [done|]. cbn in He. subst e. cbn [apply_all apply].
  destruct (restart_runs c) as (c2 & -> & Ef & Ei & _ & _ & Hup). cbn [mbind option_bind]. rewrite <- Ei.
  assert (healed c2) as Hh.
  { split; [|by rewrite Ei]. intros a b. by rewrite Ef, Hf. }
  clear Hup Ef Ei Hne Hf c. revert c2 Hh. induction Hr as [|[t2 e] rest He Hr IH]; intros c Hh; [by exists c|].
  cbn in He. subst e. cbn [apply_all apply]. destruct (restart_runs c) as (c2 & -> & Ef & Ei & _ & Hs & Hup). cbn [mbind option_bind].
  destruct (IH c2) as (c' & E & Hc & Ei'); [|exists c'; split; [done|split; [done|congruence]]].
  split; [|by rewrite Ei]. intros a b. rewrite Ef. apply Hh.
Qed.
End heals.

Lemma sorted_shape slot e1 e2 e3 : 0 <= slot -> exists pre t restarts,
  sorted [(slot * 1, e1); (slot * 2, Heal); (slot * 2 + 1, RestartStopped);
     (slot * 3, e2); (slot * 4, Heal); (slot * 4 + 1, RestartStopped);
     (slot * 5, e3); (slot * 6, Heal); (slot * 6 + 1, RestartStopped)] = pre ++ (t, Heal) :: restarts /\
  restarts <> [] /\ Forall (fun p => p.2 = RestartStopped) restarts.
Proof.
  intros Hs. destruct (decide (slot = 0)) as [->|H0].
  { exists [(0, e1); (0, Heal); (0, e2); (0, Heal); (0, e3)], 0, [(1, RestartStopped); (1, RestartStopped); (1, RestartStopped)].
    split; [reflexivity|]. split; [done|by repeat constructor]. }
  destruct (decide (slot = 1)) as [->|H1].
  { exists [(1, e1); (2, Heal); (3, RestartStopped); (3, e2); (4, Heal); (5, RestartStopped); (5, e3)], 6, [(7, RestartStopped)].
    split; [reflexivity|]. split; [done|by repeat constructor]. }
  exists [(slot * 1, e1); (slot * 2, Heal); (slot * 2 + 1, RestartStopped); (slot * 3, e2); (slot * 4, Heal);
    (slot * 4 + 1, RestartStopped); (slot * 5, e3)], (slot * 6), [(slot * 6 + 1, RestartStopped)].
  split; [|split; [done|by repeat constructor]].
  unfold sorted. rewrite sort_by_id; [done|].
  repeat first [apply SSorted_nil|apply SSorted_cons|apply Forall_cons|apply Forall_nil|split|cbn; apply Z.leb_le; lia].
Qed.

Section claim.
Context {Rng : Type} (range : Z -> Z -> Rng -> Z * Rng) (starts : nat -> Cluster -> bool) (leader : Cluster -> option nat).

(** C16: whatever the seed draws, a random schedule can be survived: every partition
  in it puts each member on one side and leaves a majority together, and when all
  its events have fired, in the order of their times, no link is at fault and every
  member runs, provided the members come up when they are started. *)
Theorem random_schedule_heals members_ duration r c :
  (forall lo hi r, lo < hi -> lo <= (range lo hi r).1 < hi) -> (forall i c, starts i c = true) ->
  (0 < members_)%nat -> 0 <= duration ->
  (forall t groups, (t, Partition groups) ∈ random range members_ duration r -> keeps_majority members_ groups) /\
  exists c', apply_all starts leader (sorted (random range members_ duration r)) c = Some c' /\ healed c'.
Proof.
  intros Hr Hs Hm Hd. destruct (random_shape range members_ duration r) as (e1 & e2 & e3 & E & He). cbn zeta in E. split.
  - intros t groups. rewrite E. rewrite list.Forall_forall in He.
    assert (forall e, e ∈ [e1; e2; e3] -> e = Partition groups -> keeps_majority members_ groups) as G.
    { intros e [r' ->]%He Ep. by eapply random_event_survivable. }
    intros Hin%(list_elem_of_fmap_2 snd). cbn [fmap list_fmap snd] in Hin.
    assert (Partition groups = e1 \/ Partition groups = e2 \/ Partition groups = e3) as Hc.
    { rewrite !elem_of_cons in Hin. destruct Hin as [?|[?|[?|[?|[?|[?|[?|[?|[?|?]]]]]]]]]; try discriminate; auto.
      by apply elem_of_nil in H. }
    destruct Hc as [<-|[<-|<-]]; (eapply G; [|reflexivity]); rewrite !elem_of_cons; auto.
  - rewrite E. destruct (sorted_shape (slot_of duration) e1 e2 e3) as (pre & t & restarts & -> & Hne & Hres).
    { unfold slot_of. apply Z.div_pos; [done|]. unfold rounds. lia. }
    destruct (ends_healed starts leader Hs pre t restarts c Hne Hres) as (c' & Ec & Hh & _). eauto.
Qed.
End claim.

(** A generator for the example: it counts up. *)
Definition counting_range (lo hi : Z) (r : Z) : Z * Z := (if lo <? hi then lo + r mod (hi - lo) else lo, r + 1).

Lemma random_schedule_heals_witness :
  (forall t groups, (t, Partition groups) ∈ random counting_range 5 6000 1 -> keeps_majority 5 groups) /\
  exists c', apply_all (fun _ _ => true) (fun _ => Some 2%nat) (sorted (random counting_range 5 6000 1))
    (mkCluster 5 5 ∅ ∅) = Some c' /\ healed c'.
Proof.
  apply (random_schedule_heals counting_range (fun _ _ => true) (fun _ => Some 2%nat) 5 6000 1 (mkCluster 5 5 ∅ ∅)).
  - intros lo hi r H. unfold counting_range. rewrite (proj2 (Z.ltb_lt _ _) H). cbn. pose proof (Z.mod_pos_bound r (hi - lo)). lia.
  - reflexivity.
  - lia.
  - lia.
Defined.
