(* ===== verification/Commit.v ===== *)
(** * Atomic commit ([disttest/examples/alg/commit.rs])

  The topics [two-phase-commit], [three-phase-commit] and [commit-recovery]: the
  coordinator and every participant of one transaction in one state, and the log
  of one participant across a crash.  Every command that does more than read has
  a handler on parsed arguments; the [_step] functions parse and dispatch. *)

From S2P Require Import Prelude Text OrdMap Topic.

Inductive PState : Type := Working | Prepared | PreCommitted | Committed | Aborted.

#[global] Instance PState_eq_dec : EqDecision PState.
Proof. solve_decision. Defined.

Definition PState_as_str (s : PState) : bytes :=
  match s with
  | Working => str "working"
  | Prepared => str "prepared"
  | PreCommitted => str "pre-committed"
  | Committed => str "committed"
  | Aborted => str "aborted"
  end.

Definition settled (s : PState) : option bytes :=
  match s with
  | Committed => Some (str "commit")
  | Aborted => Some (str "abort")
  | _ => None
  end.

(** The state [settle] gives for a decision. *)
Definition target (d : bytes) : PState := if decide (d = str "commit") then Committed else Aborted.

Definition map_of {A} (f : A -> Value) (m : gmap bytes A) : Value :=
  VObject (map (fun p => (p.1, f p.2)) (OrdMap.entries m)).

Definition state_answer (s : PState) : Value := VObject [(str "state", VString (PState_as_str s))].

Definition settled_answer (d : option bytes) (blocked : bool) (reason : bytes) : Value :=
  VObject [(str "decision", json_opt VString d); (str "blocked", VBool blocked); (str "reason", VString reason)].

Definition vote_text (yes : bool) : bytes := if yes then str "yes" else str "no".
Definition voted_state (yes : bool) : PState := if yes then Prepared else Aborted.

(** The entries of [init]: every name working. *)
Definition all_working (names : list bytes) : gmap bytes PState :=
  foldl (fun m p => <[p := Working]> m) ∅ names.

(** [entry(p).or_insert_with]. *)
Definition or_no (p : bytes) (votes : gmap bytes bytes) : gmap bytes bytes :=
  if bool_decide (is_Some (votes !! p)) then votes else <[p := str "no"]> votes.

(** ** [two-phase-commit] *)

Record TwoPhase : Type := mkTwo {
  participants : list bytes;
  state : bytes;
  decision : option bytes;
  votes : gmap bytes bytes;
  p_state : gmap bytes PState;
  coordinator_up : bool;
  broadcast : bool;
}.

Definition TwoPhase_default : TwoPhase := mkTwo [] (str "init") None ∅ ∅ true false.

Section two_phase.
Context `{JsonText}.

Definition known (s : TwoPhase) (p : bytes) : bool := existsb (fun x => bool_decide (x = p)) (participants s).
Definition pstate (s : TwoPhase) (p : bytes) : PState := default Working (p_state s !! p).

Definition set_pstate (p : bytes) (x : PState) (s : TwoPhase) : TwoPhase :=
  mkTwo (participants s) (state s) (decision s) (votes s) (<[p := x]> (p_state s)) (coordinator_up s) (broadcast s).
Definition set_votes (v : gmap bytes bytes) (s : TwoPhase) : TwoPhase :=
  mkTwo (participants s) (state s) (decision s) v (p_state s) (coordinator_up s) (broadcast s).
Definition set_decision (d : bytes) (st : bytes) (s : TwoPhase) : TwoPhase :=
  mkTwo (participants s) st (Some d) (votes s) (p_state s) (coordinator_up s) (broadcast s).

Definition any_no (v : gmap bytes bytes) : bool := existsb (fun q => bool_decide (q.2 = str "no")) (OrdMap.entries v).

Definition reconsider (s : TwoPhase) : TwoPhase :=
  match decision s with
  | Some _ => s
  | None =>
      if any_no (votes s) then set_decision (str "abort") (str "aborted") s
      else if negb (bool_decide (participants s = [])) && bool_decide (size (votes s) = length (participants s))
      then set_decision (str "commit") (str "committed") s
      else s
  end.

Definition settle (p d : bytes) (s : TwoPhase) : TwoPhase :=
  match settled (pstate s p) with
  | Some _ => s
  | None => set_pstate p (target d) s
  end.

Definition state_value (s : TwoPhase) : Value :=
  VObject [(str "state", VString (state s)); (str "decision", json_opt VString (decision s));
           (str "votes", map_of VString (votes s));
           (str "coordinator", VString (if coordinator_up s then str "up" else str "crashed"))].

Definition init_two (names : list bytes) : TwoPhase :=
  mkTwo names (str "init") None ∅ (all_working names) true false.

Definition prepare_two (s : TwoPhase) : TwoPhase :=
  if coordinator_up s && bool_decide (state s = str "init")
  then mkTwo (participants s) (str "preparing") (decision s) (votes s) (p_state s) (coordinator_up s) (broadcast s)
  else s.

Definition prepare_sent (s : TwoPhase) : nat := if coordinator_up s then length (participants s) else 0.

(** The command [vote]: the first one stands. *)
Definition vote_two (p : bytes) (yes : bool) (s : TwoPhase) : TwoPhase :=
  if bool_decide (is_Some (votes s !! p)) then s
  else reconsider (set_pstate p (voted_state yes) (set_votes (<[p := vote_text yes]> (votes s)) s)).

Definition vote_answer (state : bytes) (votes : gmap bytes bytes) (decision : option bytes) : Value :=
  VObject [(str "state", VString state); (str "votes", VInt (Z.of_nat (size votes)));
           (str "decision", json_opt VString decision)].

(** The command [decide]. *)
Definition decide_two (s : TwoPhase) : Value * TwoPhase :=
  match coordinator_up s, decision s with
  | true, Some d =>
      (VObject [(str "decision", VString d); (str "sent", VInt (Z.of_nat (length (participants s))))],
       mkTwo (participants s) (state s) (decision s) (votes s) (p_state s) (coordinator_up s) true)
  | _, _ => (VObject [(str "decision", VNull); (str "sent", VInt 0)], s)
  end.

Definition deliver_two (p : bytes) (s : TwoPhase) : TwoPhase :=
  match broadcast s, decision s with
  | true, Some d => settle p d s
  | _, _ => s
  end.

(** A participant that has promised nothing aborts, and its vote is a no. *)
Definition bow_out (p : bytes) (s : TwoPhase) : TwoPhase :=
  let s := set_pstate p Aborted s in reconsider (set_votes (or_no p (votes s)) s).

(** The command [p-timeout]. *)
Definition timeout_two (p : bytes) (s : TwoPhase) : Value * TwoPhase :=
  match settled (pstate s p) with
  | Some d => (settled_answer (Some d) false (str "already decided"), s)
  | None =>
      if decide (pstate s p = Prepared)
      then (settled_answer None true (str "prepared, waiting for the coordinator"), s)
      else (settled_answer (Some (str "abort")) false (str "has not voted"), bow_out p s)
  end.

(** The first decision among the peers. *)
Fixpoint peer_decision (s : TwoPhase) (peers : list bytes) : option bytes :=
  match peers with
  | [] => None
  | peer :: peers =>
      match settled (pstate s peer) with
      | Some d => Some d
      | None => peer_decision s peers
      end
  end.

Definition peers_of (s : TwoPhase) (p : bytes) : list bytes := filter (fun x => x <> p) (participants s).

(** The command [p-consult]. *)
Definition consult (p : bytes) (s : TwoPhase) : Value * TwoPhase :=
  match settled (pstate s p) with
  | Some d => (settled_answer (Some d) false (str "already decided"), s)
  | None =>
      if decide (pstate s p = Working)
      then (settled_answer (Some (str "abort")) false (str "has not voted"), bow_out p s)
      else
        match peer_decision s (peers_of s p) with
        | Some d => (settled_answer (Some d) false (str "a peer already decided"), settle p d s)
        | None =>
            if existsb (fun x => bool_decide (pstate s x = Working)) (peers_of s p)
            then (settled_answer (Some (str "abort")) false (str "a peer never voted"), set_pstate p Aborted s)
            else (settled_answer None true (str "every peer is prepared"), s)
        end
  end.

Definition crash_two (s : TwoPhase) : TwoPhase :=
  mkTwo (participants s) (state s) (decision s) (votes s) (p_state s) false (broadcast s).

Definition crashed_answer : Value := VObject [(str "ok", VBool true); (str "coordinator", VString (str "crashed"))].
Definition cannot_crash (what : bytes) : Value := err (str "only the coordinator can crash, not " ++ debug_str what).
Definition not_a_participant (p : bytes) : Value := err (debug_str p ++ str " is not a participant").

(** A participant named by the first argument. *)
Definition at_known (args : list bytes) (s : TwoPhase) (k : bytes -> Value * TwoPhase) : Value * TwoPhase :=
  answer (word args 0) s (fun p => if known s p then k p else (not_a_participant p, s)).

Definition TwoPhase_step (command : bytes) (args : list bytes) (s : TwoPhase) : Value * TwoPhase :=
  if decide (command = str "init") then
    answer (word_list args 0) s (fun names =>
      (VObject [(str "state", VString (str "init")); (str "participants", VArray (map VString names))], init_two names))
  else if decide (command = str "prepare") then
    let s' := prepare_two s in
    (VObject [(str "state", VString (state s')); (str "sent", VInt (Z.of_nat (prepare_sent s)))], s')
  else if decide (command = str "vote") then
    at_known args s (fun p => answer (flag args 1 (str "yes") (str "no")) s (fun yes =>
      let s := vote_two p yes s in (vote_answer (state s) (votes s) (decision s), s)))
  else if decide (command = str "decide") then decide_two s
  else if decide (command = str "deliver") then
    at_known args s (fun p => let s := deliver_two p s in (state_answer (pstate s p), s))
  else if decide (command = str "p-state") then at_known args s (fun p => (state_answer (pstate s p), s))
  else if decide (command = str "p-timeout") then at_known args s (fun p => timeout_two p s)
  else if decide (command = str "p-consult") then at_known args s (fun p => consult p s)
  else if decide (command = str "crash") then
    answer (word args 0) s (fun what =>
      if decide (what = str "coordinator") then (crashed_answer, crash_two s) else (cannot_crash what, s))
  else if decide (command = str "state") then (state_value s, s)
  else (unknown_command command, s).
End two_phase.

(** ** [three-phase-commit] *)

Module Three.

Record ThreePhase : Type := mkThree {
  participants : list bytes;
  state : bytes;
  decision : option bytes;
  votes : gmap bytes bytes;
  p_state : gmap bytes PState;
  acks : gset bytes;
  coordinator_up : bool;
  broadcast : bool;
  cut_off : gset bytes;
  split : bool;
}.

Definition ThreePhase_default : ThreePhase := mkThree [] (str "init") None ∅ ∅ ∅ true false ∅ false.

Section three_phase.
Context `{JsonText}.

Definition known (s : ThreePhase) (p : bytes) : bool := existsb (fun x => bool_decide (x = p)) (participants s).
Definition pstate (s : ThreePhase) (p : bytes) : PState := default Working (p_state s !! p).
Definition reachable (s : ThreePhase) (p : bytes) : bool := negb (split s) || negb (bool_decide (p ∈ cut_off s)).
Definition majority (s : ThreePhase) : nat := length (participants s) / 2 + 1.

Definition all_yes (s : ThreePhase) : bool :=
  negb (bool_decide (participants s = [])) && bool_decide (size (votes s) = length (participants s)) &&
  forallb (fun q => bool_decide (q.2 = str "yes")) (OrdMap.entries (votes s)).

Definition set_pstate (p : bytes) (x : PState) (s : ThreePhase) : ThreePhase :=
  mkThree (participants s) (state s) (decision s) (votes s) (<[p := x]> (p_state s)) (acks s) (coordinator_up s)
    (broadcast s) (cut_off s) (split s).
Definition set_votes (v : gmap bytes bytes) (s : ThreePhase) : ThreePhase :=
  mkThree (participants s) (state s) (decision s) v (p_state s) (acks s) (coordinator_up s)
    (broadcast s) (cut_off s) (split s).
Definition set_state (x : bytes) (s : ThreePhase) : ThreePhase :=
  mkThree (participants s) x (decision s) (votes s) (p_state s) (acks s) (coordinator_up s)
    (broadcast s) (cut_off s) (split s).
(** The coordinator decides, and says so. *)
Definition announce (d st : bytes) (s : ThreePhase) : ThreePhase :=
  mkThree (participants s) st (Some d) (votes s) (p_state s) (acks s) (coordinator_up s)
    true (cut_off s) (split s).
Definition set_network (cut : gset bytes) (b : bool) (s : ThreePhase) : ThreePhase :=
  mkThree (participants s) (state s) (decision s) (votes s) (p_state s) (acks s) (coordinator_up s)
    (broadcast s) cut b.

Definition settle (p d : bytes) (s : ThreePhase) : ThreePhase :=
  match settled (pstate s p) with
  | Some _ => s
  | None => set_pstate p (target d) s
  end.

Definition init_three (names : list bytes) : ThreePhase :=
  mkThree names (str "init") None ∅ (all_working names) ∅ true false ∅ false.

(** The command [vote]. *)
Definition vote (p : bytes) (yes : bool) (s : ThreePhase) : ThreePhase :=
  if bool_decide (is_Some (votes s !! p)) then s
  else
    let s := set_pstate p (voted_state yes) (set_votes (<[p := vote_text yes]> (votes s)) s) in
    let s := if decide (state s = str "init") then set_state (str "voting") s else s in
    if negb yes && bool_decide (decision s = None) then announce (str "abort") (str "aborted") s else s.

Definition pre_commit_answer (ok : bool) (state : bytes) (sent : nat) (error : option bytes) : Value :=
  VObject [(str "ok", VBool ok); (str "state", VString state); (str "sent", VInt (Z.of_nat sent));
           (str "error", json_opt VString error)].

(** The command [pre-commit]. *)
Definition pre_commit (s : ThreePhase) : Value * ThreePhase :=
  if negb (coordinator_up s) then (pre_commit_answer false (state s) 0 (Some (str "the coordinator has crashed")), s)
  else if negb (all_yes s) then
    (pre_commit_answer false (state s) 0 (Some (str "not every participant has voted yes")), s)
  else
    let s := set_state (str "pre-committed") s in
    (pre_commit_answer true (str "pre-committed") (length (filter (fun p => reachable s p = true) (participants s))) None, s).

(** The command [p-precommit]. *)
Definition p_precommit (p : bytes) (s : ThreePhase) : ThreePhase :=
  if bool_decide (state s = str "pre-committed") && reachable s p && bool_decide (pstate s p = Prepared)
  then set_pstate p PreCommitted s else s.

(** The command [ack]. *)
Definition ack (p : bytes) (s : ThreePhase) : ThreePhase :=
  if bool_decide (pstate s p = PreCommitted) && reachable s p
  then mkThree (participants s) (state s) (decision s) (votes s) (p_state s) ({[p]} ∪ acks s) (coordinator_up s)
         (broadcast s) (cut_off s) (split s)
  else s.

Definition commit_answer (ok : bool) (d error : option bytes) : Value :=
  VObject [(str "ok", VBool ok); (str "decision", json_opt VString d); (str "error", json_opt VString error)].

(** The command [commit]. *)
Definition commit (s : ThreePhase) : Value * ThreePhase :=
  if negb (coordinator_up s) then (commit_answer false None (Some (str "the coordinator has crashed")), s)
  else if negb (bool_decide (state s = str "pre-committed")) then
    (commit_answer false None (Some (str "no pre-commit round has finished")), s)
  else if (size (acks s) <? majority s)%nat then
    (commit_answer false None (Some (str "fewer than a majority have acknowledged the pre-commit")), s)
  else (commit_answer true (Some (str "commit")) None, announce (str "commit") (str "committed") s).

(** The command [deliver]. *)
Definition deliver (p : bytes) (s : ThreePhase) : ThreePhase :=
  match broadcast s && reachable s p, decision s with
  | true, Some d => settle p d s
  | _, _ => s
  end.

(** The command [p-timeout]. *)
Definition timeout (p : bytes) (s : ThreePhase) : Value * ThreePhase :=
  match settled (pstate s p) with
  | Some d => (settled_answer (Some d) false (str "already decided"), s)
  | None =>
      match pstate s p with
      | PreCommitted =>
          (settled_answer (Some (str "commit")) false (str "pre-commit received, every participant voted yes"),
           set_pstate p Committed s)
      | Prepared =>
          (settled_answer (Some (str "abort")) false (str "no pre-commit received"), set_pstate p Aborted s)
      | _ =>
          let s := set_pstate p Aborted s in
          (settled_answer (Some (str "abort")) false (str "has not voted"), set_votes (or_no p (votes s)) s)
      end
  end.

Definition crash (s : ThreePhase) : ThreePhase :=
  mkThree (participants s) (state s) (decision s) (votes s) (p_state s) (acks s) false
    (broadcast s) (cut_off s) (split s).

Definition names (l : list bytes) : Value := VArray (map VString l).

(** The command [partition]: the first unknown name is refused. *)
Definition partition (group : list bytes) (s : ThreePhase) : Value * ThreePhase :=
  match list_find (fun p => known s p = false) group with
  | Some (_, p) => (not_a_participant p, s)
  | None =>
      let s := set_network (list_to_set group) true s in
      let rest := filter (fun p => p ∉ cut_off s) (participants s) in
      (VObject [(str "split", VBool true); (str "groups", VArray [names group; names rest])], s)
  end.

Definition any_in (x : PState) (s : ThreePhase) : bool :=
  existsb (fun p => bool_decide (pstate s p = x)) (participants s).

(** Whether the command [decisions] answers [inconsistent]. *)
Definition inconsistent (s : ThreePhase) : bool := any_in Committed s && any_in Aborted s.

Definition decisions (s : ThreePhase) : Value :=
  VObject [(str "decisions",
             map_of (json_opt VString) (list_to_map (map (fun p => (p, settled (pstate s p))) (participants s))));
           (str "inconsistent", VBool (inconsistent s))].

Definition at_known (args : list bytes) (s : ThreePhase) (k : bytes -> Value * ThreePhase) : Value * ThreePhase :=
  answer (word args 0) s (fun p => if known s p then k p else (not_a_participant p, s)).

Definition ThreePhase_step (command : bytes) (args : list bytes) (s : ThreePhase) : Value * ThreePhase :=
  if decide (command = str "init") then
    answer (word_list args 0) s (fun ns =>
      (VObject [(str "state", VString (str "init")); (str "participants", names ns)], init_three ns))
  else if decide (command = str "vote") then
    at_known args s (fun p => answer (flag args 1 (str "yes") (str "no")) s (fun yes =>
      let s := vote p yes s in (vote_answer (state s) (votes s) (decision s), s)))
  else if decide (command = str "pre-commit") then pre_commit s
  else if decide (command = str "p-precommit") then
    at_known args s (fun p => let s := p_precommit p s in (state_answer (pstate s p), s))
  else if decide (command = str "ack") then
    at_known args s (fun p => let s := ack p s in (VObject [(str "acks", VInt (Z.of_nat (size (acks s))))], s))
  else if decide (command = str "commit") then commit s
  else if decide (command = str "deliver") then
    at_known args s (fun p => let s := deliver p s in (state_answer (pstate s p), s))
  else if decide (command = str "p-state") then at_known args s (fun p => (state_answer (pstate s p), s))
  else if decide (command = str "p-timeout") then at_known args s (fun p => timeout p s)
  else if decide (command = str "crash") then
    answer (word args 0) s (fun what =>
      if decide (what = str "coordinator") then (crashed_answer, crash s) else (cannot_crash what, s))
  else if decide (command = str "partition") then answer (word_list args 0) s (fun group => partition group s)
  else if decide (command = str "heal") then
    (VObject [(str "split", VBool false); (str "groups", VArray [])], set_network ∅ false s)
  else if decide (command = str "decisions") then (decisions s, s)
  else (unknown_command command, s).
End three_phase.
End Three.

(** ** [commit-recovery] *)

Module Log.

Record Recovery : Type := mkRecovery {
  participant : bytes;
  log : list bytes;
  applied : gset bytes;
  states : gmap bytes bytes;
  crashed : bool;
}.

Definition Recovery_default : Recovery := mkRecovery [] [] ∅ ∅ false.

Section recovery.
Context `{JsonText}.

Definition record (kind tx : bytes) : bytes := kind ++ [x3a] ++ tx.

Definition logged (s : Recovery) (kind tx : bytes) : bool := existsb (fun r => bool_decide (r = record kind tx)) (log s).

(** What follows the first colon. *)
Fixpoint after_colon (r : bytes) : option bytes :=
  match r with
  | [] => None
  | b :: r => if decide (b = x3a) then Some r else after_colon r
  end.

Definition add_transaction (out : list bytes) (r : bytes) : list bytes :=
  match after_colon r with
  | Some tx => if existsb (fun x => bool_decide (x = tx)) out then out else out ++ [tx]
  | None => out
  end.

Definition transactions (s : Recovery) : list bytes := foldl add_transaction [] (log s).

(** The state the log gives, and the action of the recovery. *)
Definition state_from_log (s : Recovery) (tx : bytes) : bytes * bytes :=
  if logged s (str "commit") tx then
    if bool_decide (tx ∈ applied s) then (str "committed", str "none") else (str "committed", str "redo")
  else if logged s (str "abort") tx then (str "aborted", str "none")
  else if logged s (str "prepared") tx then (str "prepared", str "ask-coordinator")
  else (str "aborted", str "abort").

(** A record is forced out, then the state follows. *)
Definition note (kind tx st : bytes) (s : Recovery) : Recovery :=
  mkRecovery (participant s) (log s ++ [record kind tx]) (applied s) (<[tx := st]> (states s)) (crashed s).
Definition apply (tx : bytes) (s : Recovery) : Recovery :=
  mkRecovery (participant s) (log s) ({[tx]} ∪ applied s) (states s) (crashed s).
Definition crash (s : Recovery) : Recovery := mkRecovery (participant s) (log s) (applied s) ∅ true.

Definition prepare (tx : bytes) (yes : bool) (s : Recovery) : Recovery :=
  if yes then note (str "prepared") tx (str "prepared") s else note (str "abort") tx (str "aborted") s.
Definition prepare_answer (yes : bool) : Value :=
  if yes
  then VObject [(str "vote", VString (str "yes")); (str "logged", VString (str "prepared")); (str "state", VString (str "prepared"))]
  else VObject [(str "vote", VString (str "no")); (str "logged", VString (str "abort")); (str "state", VString (str "aborted"))].

Definition kind_of (commit : bool) : bytes := if commit then str "commit" else str "abort".
Definition state_of (commit : bool) : bytes := if commit then str "committed" else str "aborted".

Definition conclude (tx : bytes) (commit : bool) (s : Recovery) : Recovery := note (kind_of commit) tx (state_of commit) s.

(** The command [coordinator-says]. *)
Definition coordinator_says (tx : bytes) (commit : bool) (s : Recovery) : Recovery :=
  let s := conclude tx commit s in if commit then apply tx s else s.

(** What [recover] collects: the states, the pending and the decided transactions, and the actions. *)
Record Recovered : Type := mkRecovered {
  new_states : gmap bytes bytes;
  pending : list bytes;
  decided : list bytes;
  actions : list (bytes * bytes);
}.

Definition recover_one (s : Recovery) (r : Recovered) (tx : bytes) : Recovered :=
  let '(st, action) := state_from_log s tx in
  let waits := bool_decide (st = str "prepared") in
  mkRecovered (<[tx := st]> (new_states r))
    (if waits then pending r ++ [tx] else pending r) (if waits then decided r else decided r ++ [tx])
    (actions r ++ [(tx, action)]).

Definition recovered (s : Recovery) : Recovered := foldl (recover_one s) (mkRecovered ∅ [] [] []) (transactions s).

Definition recover (s : Recovery) : Recovery :=
  mkRecovery (participant s) (log s) (applied s) (new_states (recovered s)) false.

Definition names (l : list bytes) : Value := VArray (map VString l).

Definition recover_answer (r : Recovered) : Value :=
  VObject [(str "pending", names (pending r)); (str "decided", names (decided r));
           (str "actions", map_of VString (list_to_map (actions r)))].

Definition outcome (s : Recovery) (tx : bytes) : bytes :=
  if crashed s then str "unknown" else default (str "unknown") (states s !! tx).

Definition conclude_answer (commit : bool) : Value :=
  VObject [(str "state", VString (state_of commit)); (str "logged", VString (kind_of commit))].

Definition ok_answer : Value := VObject [(str "ok", VBool true)].

Definition Recovery_step (command : bytes) (args : list bytes) (s : Recovery) : Value * Recovery :=
  if decide (command = str "init") then
    answer (word args 0) s (fun name =>
      (VObject [(str "ok", VBool true); (str "log", VArray [])], mkRecovery name [] ∅ ∅ false))
  else if decide (command = str "begin") then
    answer (word args 0) s (fun tx =>
      (VObject [(str "state", VString (str "working"))], note (str "begin") tx (str "working") s))
  else if decide (command = str "prepare") then
    answer (word args 0) s (fun tx => answer (flag args 1 (str "yes") (str "no")) s (fun yes =>
      (prepare_answer yes, prepare tx yes s)))
  else if decide (command = str "vote-sent") then answer (word args 0) s (fun _ => (ok_answer, s))
  else if decide (command = str "decide") then
    answer (word args 0) s (fun tx => answer (flag args 1 (str "commit") (str "abort")) s (fun commit =>
      (conclude_answer commit, conclude tx commit s)))
  else if decide (command = str "apply") then
    answer (word args 0) s (fun tx => (VObject [(str "applied", VBool true)], apply tx s))
  else if decide (command = str "crash") then
    (VObject [(str "ok", VBool true); (str "lost", VString (str "volatile state"))], crash s)
  else if decide (command = str "recover") then (recover_answer (recovered s), recover s)
  else if decide (command = str "outcome") then
    answer (word args 0) s (fun tx =>
      (VObject [(str "state", VString (outcome s tx)); (str "applied", VBool (bool_decide (tx ∈ applied s)))], s))
  else if decide (command = str "coordinator-says") then
    answer (word args 0) s (fun tx => answer (flag args 1 (str "commit") (str "abort")) s (fun commit =>
      let s := coordinator_says tx commit s in
      (VObject [(str "state", VString (state_of commit)); (str "applied", VBool (bool_decide (tx ∈ applied s)))], s)))
  else if decide (command = str "log") then
    (VObject [(str "records", names (log s)); (str "participant", VString (participant s))], s)
  else (unknown_command command, s).
End recovery.
End Log.
