(* ===== verification/CommitSafe.v ===== *)
(** * What atomic commit promises

  The transaction of the literature - participants that prepare, and then commit
  together or abort - as a specification, and the two protocols of [Commit] as
  implementations of it; where they block; and what a participant gets back from
  its log. *)

From S2P Require Import Prelude Text OrdMap Topic Stage Commit.

(** ** The specification *)

(** One participant moves: it prepares; it commits when nobody is left that has not
  prepared; it aborts when nobody has committed. *)
Inductive tc_step (m : gmap bytes PState) : gmap bytes PState -> Prop :=
| tc_prepare p : m !! p = Some Working -> tc_step m (<[p := Prepared]> m)
| tc_commit p : m !! p = Some Prepared -> (forall q x, m !! q = Some x -> x = Prepared \/ x = Committed) ->
    tc_step m (<[p := Committed]> m)
| tc_abort p : m !! p = Some Working \/ m !! p = Some Prepared -> (forall q, m !! q <> Some Committed) ->
    tc_step m (<[p := Aborted]> m).

Definition together (m : gmap bytes PState) : Prop :=
  forall p q, m !! p = Some Committed -> m !! q = Some Aborted -> False.

Lemma tc_together m m' : tc_step m m' -> together m -> together m'.
Proof.
  intros Hs Ht a b. destruct Hs as [p Hp|p Hp Hall|p Hp Hno];
    (destruct (decide (a = p)) as [->|]; destruct (decide (b = p)) as [->|];
     rewrite ?lookup_insert_eq, ?lookup_insert_ne by done; try done; eauto).
  - intros _ Hb. by destruct (Hall _ _ Hb).
  - by intros Ha%Hno.
Qed.

Lemma tc_rtc_together m m' : rtc tc_step m m' -> together m -> together m'.
Proof. induction 1 as [|m1 m2 m3 Hs _ IH]; [done|]. intros Ht. by apply IH, (tc_together m1). Qed.

Lemma tc_settled m m' p x : rtc tc_step m m' -> m !! p = Some x -> is_Some (settled x) -> m' !! p = Some x.
Proof.
  induction 1 as [|m1 m2 m3 Hs _ IH]; [done|]. intros Hp Hx. apply IH; [|done].
  destruct Hs as [q Hq|q Hq _|q Hq _]; (destruct (decide (q = p)) as [->|]; [|by rewrite lookup_insert_ne]);
    rewrite Hp in Hq; try (destruct Hq as [Hq|Hq]); simplify_eq; by destruct Hx.
Qed.

Lemma tc_dom m m' : rtc tc_step m m' -> dom m' = dom m.
Proof.
  induction 1 as [|m1 m2 m3 Hs _ IH]; [done|]. rewrite IH.
  destruct Hs as [p Hp|p Hp _|p [Hp|Hp] _]; rewrite dom_insert_L; apply elem_of_dom_2 in Hp; set_solver.
Qed.

Lemma lookup_all_working names p : all_working names !! p = if decide (p ∈ names) then Some Working else None.
Proof.
  unfold all_working. assert (forall m : gmap bytes PState, foldl (fun m p => <[p := Working]> m) m names !! p =
    if decide (p ∈ names) then Some Working else m !! p) as ->.
  { induction names as [|q names IH]; intros m; cbn [foldl].
    - by rewrite decide_False by (by apply not_elem_of_nil).
    - rewrite IH. destruct (decide (p = q)) as [->|].
      + rewrite lookup_insert_eq. rewrite (decide_True (P := q ∈ q :: names)) by left. by destruct (decide _).
      + rewrite lookup_insert_ne by done. destruct (decide (p ∈ names)).
        * by rewrite decide_True by (by right).
        * rewrite decide_False; [done|]. by rewrite elem_of_cons; intros [?|?]. }
  by destruct (decide _).
Qed.

Lemma all_working_together names : together (all_working names).
Proof. intros p q. rewrite lookup_all_working. by destruct (decide _). Qed.

(** ** Runs that keep a rule *)

Section along.
Context {S : Type} (step : bytes -> list bytes -> S -> Value * S).

(** Every command of the run satisfies [ok] in the state it meets. *)
Fixpoint along (ok : S -> bytes -> list bytes -> Prop) (s : S) (cs : list (bytes * list bytes)) : Prop :=
  match cs with
  | [] => True
  | c :: cs => ok s c.1 c.2 /\ along ok (step c.1 c.2 s).2 cs
  end.

Lemma ask_cons s c cs : (ask step s (c :: cs)).2 = (ask step (step c.1 c.2 s).2 cs).2.
Proof. cbn. destruct (step c.1 c.2 s) as [a s1]. cbn. by destruct (ask step s1 cs). Qed.

(** An invariant that carries a view along a run of the specification. *)
Lemma along_refines (view : S -> gmap bytes PState) (inv : S -> Prop) ok :
  (forall s c args, inv s -> ok s c args -> inv (step c args s).2 /\ rtc tc_step (view s) (view (step c args s).2)) ->
  forall cs s, inv s -> along ok s cs -> inv (ask step s cs).2 /\ rtc tc_step (view s) (view (ask step s cs).2).
Proof.
  intros Hstep. induction cs as [|[c args] cs IH]; intros s Hi Hok; [by cbn; auto using rtc_refl|].
  rewrite ask_cons. destruct Hok as [Hc Hok]. cbn [fst snd] in *.
  destruct (Hstep s c args Hi Hc) as [Hi' Ht]. destruct (IH _ Hi' Hok) as [Hi2 Ht2].
  split; [done|]. by transitivity (view (step c args s).2).
Qed.
End along.

Lemma size_names (l : list bytes) : (size (list_to_set l : gset bytes) <= length l)%nat.
Proof.
  induction l as [|p l IH]; cbn [list_to_set length]; [by rewrite size_empty|].
  pose proof (size_union_alt ({[p]} : gset bytes) (list_to_set l)) as E. rewrite size_singleton in E.
  pose proof (subseteq_size ((list_to_set l : gset bytes) ∖ {[p]}) (list_to_set l) ltac:(set_solver)). lia.
Qed.

(** [size] of a map on a list of names: when it is the length, every name is there. *)
Lemma full_map {A} (m : gmap bytes A) (l : list bytes) :
  (forall p, is_Some (m !! p) -> p ∈ l) -> size m = length l -> forall p, p ∈ l -> is_Some (m !! p).
Proof.
  intros Hsub Hsize p Hp.
  assert (dom m = list_to_set l) as E.
  { apply set_subseteq_size_eq.
    - intros q Hq%elem_of_dom. by apply elem_of_list_to_set, Hsub.
    - rewrite size_dom, Hsize. apply size_names. }
  apply elem_of_dom. by rewrite E, elem_of_list_to_set.
Qed.

(** ** Two-phase commit *)

Section two.
Context `{JsonText}.
Implicit Types s : TwoPhase.

(** What holds in every state, whatever was sent. *)
Record two_base s : Prop := {
  b_dom p : is_Some (p_state s !! p) <-> p ∈ participants s;
  b_votes p v : votes s !! p = Some v -> p ∈ participants s /\ (v = str "yes" \/ v = str "no");
  b_voted p : is_Some (votes s !! p) -> p_state s !! p <> Some Working;
  b_prepared p : p_state s !! p = Some Prepared -> is_Some (votes s !! p);
  b_two p : p_state s !! p <> Some PreCommitted;
}.

Lemma known_iff s p : known s p = true <-> p ∈ participants s.
Proof.
  unfold known. rewrite existsb_exists. setoid_rewrite bool_decide_eq_true.
  setoid_rewrite <- list_elem_of_In. split; [by intros (x & Hx & ->)|eauto].
Qed.

Lemma pstate_lookup s p : two_base s -> p ∈ participants s -> p_state s !! p = Some (pstate s p).
Proof. intros Hb [x Hx]%(b_dom s Hb). unfold pstate. by rewrite Hx. Qed.

(** [reconsider] only decides. *)
Lemma reconsider_same s :
  participants (reconsider s) = participants s /\ votes (reconsider s) = votes s /\
  p_state (reconsider s) = p_state s /\ coordinator_up (reconsider s) = coordinator_up s /\
  broadcast (reconsider s) = broadcast s.
Proof. unfold reconsider. destruct (decision s); [done|]. destruct (any_no _); [done|]. by destruct (_ && _). Qed.

Lemma two_base_eq s s' : participants s' = participants s -> votes s' = votes s -> p_state s' = p_state s ->
  two_base s -> two_base s'.
Proof. intros E1 E2 E3 [? ? ? ? ?]. split; by rewrite ?E1, ?E2, ?E3. Qed.

Lemma two_base_reconsider s : two_base s -> two_base (reconsider s).
Proof. destruct (reconsider_same s) as (E1 & E2 & E3 & _). by apply two_base_eq. Qed.

(** A participant moves on. *)
Lemma two_base_move p x s : two_base s -> p ∈ participants s -> x <> Working -> x <> PreCommitted ->
  (x = Prepared -> is_Some (votes s !! p)) -> two_base (set_pstate p x s).
Proof.
  intros [Hd Hv Hw Hp Ht] Hin Hx1 Hx2 Hx3. split; cbn [participants votes p_state set_pstate]; [|done|..].
  - intros q. destruct (decide (q = p)) as [->|]; [|by rewrite lookup_insert_ne]. by rewrite lookup_insert_eq.
  - intros q Hq. destruct (decide (q = p)) as [->|]; [rewrite lookup_insert_eq; congruence|].
    rewrite lookup_insert_ne by done. by apply Hw.
  - intros q. destruct (decide (q = p)) as [->|]; [|rewrite lookup_insert_ne by done; apply Hp].
    rewrite lookup_insert_eq. intros [= ->]. by apply Hx3.
  - intros q. destruct (decide (q = p)) as [->|]; [rewrite lookup_insert_eq; congruence|].
    rewrite lookup_insert_ne by done. apply Ht.
Qed.

(** A vote comes in from a participant that is not working any more. *)
Lemma two_base_vote p v s : two_base s -> p ∈ participants s -> v = str "yes" \/ v = str "no" ->
  pstate s p <> Working -> two_base (set_votes (<[p := v]> (votes s)) s).
Proof.
  intros Hb Hin Hv0 Hx. pose proof (pstate_lookup s p Hb Hin) as Hp0. destruct Hb as [Hd Hv Hw Hp Ht].
  split; cbn [participants votes p_state set_votes]; [done|..|done].
  - intros q w. destruct (decide (q = p)) as [->|]; [|rewrite lookup_insert_ne by done; apply Hv].
    rewrite lookup_insert_eq. by intros [= <-].
  - intros q. destruct (decide (q = p)) as [->|]; [|rewrite lookup_insert_ne by done; apply Hw].
    intros _. by rewrite Hp0; intros [= ?].
  - intros q Hq. destruct (decide (q = p)) as [->|]; [by rewrite lookup_insert_eq|].
    rewrite lookup_insert_ne by done. by apply Hp.
Qed.

Lemma pstate_moved p x s : pstate (set_pstate p x s) p = x.
Proof. unfold pstate. cbn. by rewrite lookup_insert_eq. Qed.

Lemma vote_pieces p yes s :
  set_pstate p (voted_state yes) (set_votes (<[p := vote_text yes]> (votes s)) s) =
  set_votes (<[p := vote_text yes]> (votes (set_pstate p Aborted s))) (set_pstate p (voted_state yes) s).
Proof. done. Qed.

Lemma two_base_voted p yes s : two_base s -> p ∈ participants s ->
  two_base (set_pstate p (voted_state yes) (set_votes (<[p := vote_text yes]> (votes s)) s)).
Proof.
  intros Hb Hin. set (s1 := set_votes (<[p := vote_text yes]> (votes (set_pstate p Aborted s))) (set_pstate p Aborted s)).
  assert (two_base s1) as Hb1.
  { apply two_base_vote; [|done|by destruct yes; auto|by rewrite pstate_moved].
    by apply two_base_move. }
  assert (two_base (set_pstate p (voted_state yes) s1)) as Hb2.
  { apply two_base_move; [done|done|by destruct yes|by destruct yes|].
    intros _. cbn. by rewrite lookup_insert_eq. }
  revert Hb2. apply two_base_eq; [done|done|]. cbn. by rewrite insert_insert_eq.
Qed.

Lemma or_no_some p v : is_Some (v !! p) -> or_no p v = v.
Proof. intros Hp. unfold or_no. by rewrite bool_decide_true. Qed.
Lemma or_no_none p v : v !! p = None -> or_no p v = <[p := str "no"]> v.
Proof. intros Hp. unfold or_no. rewrite bool_decide_false; [done|]. rewrite Hp. by intros [? ?]. Qed.

Lemma two_base_bow_out p s : two_base s -> p ∈ participants s -> two_base (bow_out p s).
Proof.
  intros Hb Hin. unfold bow_out. apply two_base_reconsider.
  assert (two_base (set_pstate p Aborted s)) as Hb1 by (by apply two_base_move).
  destruct (votes s !! p) eqn:E.
  - rewrite or_no_some by (cbn; rewrite E; eauto). revert Hb1. by apply two_base_eq.
  - rewrite or_no_none by done. apply two_base_vote; [done|done|by right|by rewrite pstate_moved].
Qed.
(** What holds while the participants only do what the protocol allows. *)
Record two_good s : Prop := {
  g_base : two_base s;
  g_dec d : decision s = Some d ->
    (d = str "commit" /\ forall p, p ∈ participants s -> votes s !! p = Some (str "yes")) \/ d = str "abort";
  g_committed p : p_state s !! p = Some Committed -> decision s = Some (str "commit");
  g_aborted p : p_state s !! p = Some Aborted -> decision s = Some (str "abort") \/ votes s !! p = Some (str "no");
}.

Lemma any_no_iff (v : gmap bytes bytes) : any_no v = true <-> exists p, v !! p = Some (str "no").
Proof.
  unfold any_no. rewrite existsb_exists. setoid_rewrite bool_decide_eq_true. setoid_rewrite <- list_elem_of_In. split.
  - intros ([p x] & Hp & E). cbn in E. subst x. exists p. by apply list_elem_of_entries.
  - intros [p Hp]. exists (p, str "no"). by rewrite list_elem_of_entries.
Qed.

Lemma commit_all_yes s p v : two_good s -> decision s = Some (str "commit") -> votes s !! p = Some v -> v = str "yes".
Proof.
  intros Hg Hd Hv. destruct (g_dec s Hg _ Hd) as [[_ Hall]|?]; [|done].
  destruct (b_votes s (g_base s Hg) _ _ Hv) as [Hin _]. rewrite (Hall _ Hin) in Hv. congruence.
Qed.

(** After [reconsider] every no has been noticed. *)
Definition noticed s : Prop := forall p, votes s !! p = Some (str "no") -> decision s = Some (str "abort").

Lemma reconsider_good s : two_good s -> two_good (reconsider s) /\ noticed (reconsider s).
Proof.
  intros Hg. pose proof (two_base_reconsider s (g_base s Hg)) as Hb. pose proof (g_dec s Hg) as Hdec.
  pose proof (fun p => commit_all_yes s p (str "no") Hg) as Hyes. revert Hb. unfold reconsider, noticed.
  destruct (decision s) as [d|] eqn:Ed; intros Hb.
  - split; [done|]. intros p Hp. rewrite Ed. destruct (Hdec d eq_refl) as [[-> _]| ->]; [|done].
    by specialize (Hyes p eq_refl Hp).
  - pose proof (g_committed s Hg) as Hc. pose proof (g_aborted s Hg) as Ha. rewrite Ed in Hc, Ha.
    destruct (any_no (votes s)) eqn:En.
    + split; [|done]. split; [done|intros d [= <-]; by right| |by left]. intros p Hp%Hc. done.
    + assert (forall p, votes s !! p <> Some (str "no")) as Hno.
      { intros p Hp. assert (any_no (votes s) = true) by (apply any_no_iff; eauto). congruence. }
      destruct (_ && _) eqn:Ef; [|split; [done|by intros p Hp%Hno]].
      apply andb_true_iff in Ef as [_ Ef%bool_decide_eq_true].
      split; [|by intros p Hp%Hno]. split; [done| | |].
      * intros d [= <-]. left. split; [done|]. intros p Hp.
        destruct (full_map (votes s) (participants s)) with p as [v Hv]; [|done|done|].
        { intros q [v Hv]. by apply (b_votes s (g_base s Hg) q v). }
        cbn. rewrite Hv. destruct (b_votes s (g_base s Hg) p v Hv) as [_ [->| ->]]; [done|by destruct (Hno p)].
      * by intros p Hp%Hc.
      * intros p Hp. cbn. destruct (Ha p Hp) as [?|Hn]; [done|by destruct (Hno p)].
Qed.

(** A participant without a vote that has not settled is still working. *)
Lemma unvoted_working s p : two_base s -> p ∈ participants s -> votes s !! p = None ->
  settled (pstate s p) = None -> p_state s !! p = Some Working.
Proof.
  intros Hb Hin Hv Hs. rewrite (pstate_lookup s p Hb Hin). pose proof (b_prepared s Hb p) as Hp.
  pose proof (b_two s Hb p) as Ht. rewrite (pstate_lookup s p Hb Hin) in Hp, Ht.
  destruct (pstate s p); try done. rewrite Hv in Hp. by destruct (Hp eq_refl).
Qed.

Lemma working_unvoted s p : two_base s -> p_state s !! p = Some Working -> votes s !! p = None.
Proof. intros Hb Hp. destruct (votes s !! p) eqn:E; [|done]. destruct (b_voted s Hb p); [by rewrite E|done]. Qed.

Lemma not_all_voted s p : two_good s -> p ∈ participants s -> votes s !! p = None ->
  decision s <> Some (str "commit").
Proof. intros Hg Hin Hv Hd. destruct (g_dec s Hg _ Hd) as [[_ Hall]|?]; [|done]. rewrite Hall in Hv by done. done. Qed.

(** A working participant votes, or gives up: both put its vote in and move it. *)
Lemma vote_good p yes s : two_good s -> p ∈ participants s -> p_state s !! p = Some Working ->
  two_good (set_pstate p (voted_state yes) (set_votes (<[p := vote_text yes]> (votes s)) s)) /\
  tc_step (p_state s) (<[p := voted_state yes]> (p_state s)).
Proof.
  intros Hg Hin Hw. pose proof (working_unvoted s p (g_base s Hg) Hw) as Hv.
  pose proof (not_all_voted s p Hg Hin Hv) as Hd. split.
  - split; [by apply two_base_voted; [apply g_base|]|..]; cbn [decision participants votes p_state set_pstate set_votes].
    + intros d E. destruct (g_dec s Hg d E) as [[-> _]|?]; [done|by right].
    + intros q. destruct (decide (q = p)) as [->|]; [rewrite lookup_insert_eq; by destruct yes|].
      rewrite lookup_insert_ne by done. intros Hq%(g_committed s Hg). done.
    + intros q. destruct (decide (q = p)) as [->|]; [rewrite !lookup_insert_eq; by destruct yes; [|right]|].
      rewrite !lookup_insert_ne by done. apply (g_aborted s Hg).
  - destruct yes; [by apply tc_prepare|]. apply tc_abort; [by left|]. by intros q Hq%(g_committed s Hg).
Qed.

(** What a command may do: keep the invariant, with at most one step of the specification. *)
Definition two_moves s s' : Prop :=
  two_good s' /\ noticed s' /\ (p_state s' = p_state s \/ tc_step (p_state s) (p_state s')).

Lemma two_stay s s' : two_good s -> noticed s -> participants s' = participants s -> votes s' = votes s ->
  p_state s' = p_state s -> decision s' = decision s -> two_moves s s'.
Proof.
  intros Hg Hn E1 E2 E3 E4. split; [|split; [|by left]].
  - split; [apply (two_base_eq s); [done..|apply g_base, Hg]|..]; rewrite ?E1, ?E2, ?E3, ?E4; apply Hg.
  - unfold noticed. by rewrite E2, E4.
Qed.

Lemma vote_moves p yes s : two_good s -> noticed s -> p ∈ participants s ->
  (votes s !! p = None -> settled (pstate s p) = None) -> two_moves s (vote_two p yes s).
Proof.
  intros Hg Hn Hin Hf. unfold vote_two. case_bool_decide as Ev; [by apply two_stay|].
  apply eq_None_not_Some in Ev. pose proof (unvoted_working s p (g_base s Hg) Hin Ev (Hf Ev)) as Hw.
  destruct (vote_good p yes s Hg Hin Hw) as [Hg' Ht]. destruct (reconsider_good _ Hg') as [Hg2 Hn2].
  split; [done|]. split; [done|right]. by destruct (reconsider_same (set_pstate p (voted_state yes)
    (set_votes (<[p := vote_text yes]> (votes s)) s))) as (_ & _ & -> & _).
Qed.

Lemma bow_out_vote p s : votes s !! p = None ->
  bow_out p s = reconsider (set_pstate p (voted_state false) (set_votes (<[p := vote_text false]> (votes s)) s)).
Proof. intros Hv. unfold bow_out. by rewrite or_no_none. Qed.

Lemma bow_out_moves p s : two_good s -> noticed s -> p ∈ participants s -> pstate s p = Working ->
  two_moves s (bow_out p s).
Proof.
  intros Hg Hn Hin Hp. assert (votes s !! p = None) as Hv.
  { apply working_unvoted; [apply Hg|]. by rewrite pstate_lookup, Hp by (done || apply Hg). }
  assert (bow_out p s = vote_two p false s) as ->.
  { rewrite bow_out_vote by done. unfold vote_two. rewrite bool_decide_false; [done|]. by rewrite Hv; intros [? ?]. }
  apply vote_moves; [done..|]. by rewrite Hp.
Qed.

Lemma settle_moves p d s : two_good s -> noticed s -> p ∈ participants s -> decision s = Some d ->
  two_moves s (settle p d s).
Proof.
  intros Hg Hn Hin Hd. unfold settle. destruct (settled (pstate s p)) eqn:Es; [by apply two_stay|].
  pose proof (g_base s Hg) as Hb. pose proof (pstate_lookup s p Hb Hin) as Hp. destruct (g_dec s Hg d Hd) as [[-> Hall]| ->].
  - assert (forall q x, p_state s !! q = Some x -> x = Prepared \/ x = Committed) as Hready.
    { intros q x Hq. assert (q ∈ participants s) as Hqin by (apply (b_dom s Hb); eauto).
      pose proof (b_voted s Hb q ltac:(rewrite Hall; eauto)) as Hw. pose proof (b_two s Hb q) as Ht.
      destruct x; [congruence|by left|congruence|by right|]. destruct (g_aborted s Hg q Hq) as [E|E]; [by rewrite Hd in E|].
      rewrite Hall in E by done. done. }
    split; [|split; [exact Hn|right; apply tc_commit; [|done]]].
    + split; [apply two_base_move; done|..]; cbn [decision participants votes p_state set_pstate].
      * apply Hg.
      * intros q _. done.
      * intros q. destruct (decide (q = p)) as [->|]; [by rewrite lookup_insert_eq|].
        rewrite lookup_insert_ne by done. apply Hg.
    + rewrite Hp. destruct (Hready _ _ Hp) as [->|E]; [done|]. by rewrite E in Es.
  - assert (forall q, p_state s !! q <> Some Committed) as Hno by (intros q Hq%(g_committed s Hg); by rewrite Hd in Hq).
    split; [|split; [exact Hn|right; apply tc_abort; [|done]]].
    + split; [apply two_base_move; done|..]; cbn [decision participants votes p_state set_pstate].
      * apply Hg.
      * intros q. destruct (decide (q = p)) as [->|]; [by rewrite lookup_insert_eq|].
        rewrite lookup_insert_ne by done. apply Hg.
      * intros q _. by left.
    + pose proof (b_two s Hb p) as Ht. rewrite Hp in Ht |- *. destruct (pstate s p); auto; done.
Qed.

Lemma peer_decision_known s peers d : peer_decision s peers = Some d ->
  exists q, q ∈ peers /\ settled (pstate s q) = Some d.
Proof.
  induction peers as [|q peers IH]; cbn; [done|]. destruct (settled (pstate s q)) eqn:E.
  - intros [= ->]. exists q. split; [by left|done].
  - intros (r & ? & ?)%IH. exists r. split; [by right|done].
Qed.

Lemma settled_decision s q d : two_good s -> noticed s -> q ∈ participants s -> settled (pstate s q) = Some d ->
  decision s = Some d.
Proof.
  intros Hg Hn Hin Hs. pose proof (pstate_lookup s q (g_base s Hg) Hin) as Hq.
  destruct (pstate s q); try done; cbn in Hs; injection Hs as <-; [by apply (g_committed s Hg q)|].
  destruct (g_aborted s Hg q Hq) as [?|?]; [done|by apply (Hn q)].
Qed.

Lemma consult_moves p s : two_good s -> noticed s -> p ∈ participants s ->
  Topic.get (str "reason") (consult p s).1 <> Some (VString (str "a peer never voted")) ->
  two_moves s (consult p s).2.
Proof.
  intros Hg Hn Hin. unfold consult. destruct (settled (pstate s p)); [by intros _; apply two_stay|].
  case_decide as Hw; [by intros _; apply bow_out_moves|]. destruct (peer_decision s (peers_of s p)) as [d|] eqn:Ep.
  - intros _. apply settle_moves; [done..|]. apply peer_decision_known in Ep as (q & Hq & Hs).
    apply list_elem_of_filter in Hq as [_ Hq]. by apply (settled_decision s q).
  - destruct (existsb _ _); [by intros []|]. intros _. by apply two_stay.
Qed.

(** The rule of a run: one transaction; a participant that has been told the decision
  does not vote any more; and nobody aborts because a peer has not voted yet. *)
Definition orderly_two s (c : bytes) (args : list bytes) : Prop :=
  c <> str "init" /\
  (c = str "vote" -> match args !! 0%nat with Some p => votes s !! p = None -> settled (pstate s p) = None | None => True end) /\
  (c = str "p-consult" ->
     Topic.get (str "reason") (TwoPhase_step c args s).1 <> Some (VString (str "a peer never voted"))).

Lemma answer_cases {S A} (P : S -> Prop) (r : Result Value A) (s : S) k :
  P s -> (forall a, r = Ok a -> P (k a).2) -> P (answer r s k).2.
Proof. intros Hs Hk. destruct r; cbn; [by apply Hk|done]. Qed.

Lemma at_known_cases (P : TwoPhase -> Prop) args s k :
  P s -> (forall p, args !! 0%nat = Some p -> p ∈ participants s -> P (k p).2) -> P (at_known args s k).2.
Proof.
  intros Hs Hk. unfold at_known. apply answer_cases; [done|]. intros p Hp%ok_or_Ok_inv.
  destruct (known s p) eqn:E; [|done]. by apply Hk, known_iff.
Qed.

Lemma two_step_moves s c args : two_good s -> noticed s -> orderly_two s c args ->
  two_moves s (TwoPhase_step c args s).2.
Proof.
  intros Hg Hn (Hi & Hv & Hc). assert (two_moves s s) as Hstay by (by apply two_stay). unfold TwoPhase_step.
  rewrite decide_False by done. case_decide; [|case_decide as Ev; [|case_decide; [|case_decide; [|case_decide; [|
    case_decide; [|case_decide as Ec; [|case_decide; [|by case_decide]]]]]]]].
  - cbn [snd]. unfold prepare_two. destruct (_ && _); [by apply two_stay|done].
  - apply at_known_cases; [done|]. intros p Hp Hin. apply answer_cases; [done|]. intros yes _. cbn.
    apply vote_moves; [done..|]. specialize (Hv Ev). by rewrite Hp in Hv.
  - unfold decide_two. destruct (coordinator_up s), (decision s) eqn:Ed; cbn [snd]; apply two_stay; by rewrite ?Ed.
  - apply at_known_cases; [done|]. intros p Hp Hin. cbn. unfold deliver_two. destruct (broadcast s); [|done].
    destruct (decision s) eqn:Ed; [|done]. by apply settle_moves.
  - by apply at_known_cases.
  - apply at_known_cases; [done|]. intros p Hp Hin. unfold timeout_two. destruct (settled (pstate s p)) eqn:Es; [done|].
    case_decide; [done|]. apply bow_out_moves; [done..|]. pose proof (b_two s (g_base s Hg) p) as Ht.
    rewrite (pstate_lookup s p (g_base s Hg) Hin) in Ht. by destruct (pstate s p).
  - subst c. specialize (Hc eq_refl). revert Hc. unfold TwoPhase_step.
    rewrite !(decide_False (P := str "p-consult" = _)) by done. rewrite decide_True by done. unfold at_known.
    destruct (word args 0) as [p|] eqn:Ew; cbn [answer]; [|done]. destruct (known s p) eqn:Ek; [|done].
    apply consult_moves; [done..|]. by apply known_iff.
  - apply answer_cases; [done|]. intros what _. case_decide; [|done]. by apply two_stay.
Qed.

Lemma init_two_good names : two_good (init_two names) /\ noticed (init_two names).
Proof.
  split; [|done]. assert (forall p x, p_state (init_two names) !! p = Some x -> x = Working) as Hw.
  { intros p x. cbn. rewrite lookup_all_working. case_decide; by intros [= <-]. }
  split; [split|..]; cbn [decision votes participants init_two].
  - intros p. cbn. rewrite lookup_all_working. case_decide; [done|]. split; [by intros [? ?]|done].
  - done.
  - by intros p [? ?].
  - by intros p ?%Hw.
  - by intros p ?%Hw.
  - done.
  - by intros p ?%Hw.
  - by intros p ?%Hw.
Qed.

(** C10: two-phase commit is atomic commit: as long as nobody votes after being told the decision, and nobody is told by [p-consult] to abort because a peer has not voted, every command moves the participants by at most one step of the specification - from working to prepared, from prepared to committed when all are, to aborted when none has committed - so no two of them end differently, what is settled stays settled, and whoever has committed did so on a yes of every participant. *)
Theorem two_phase_refines_commit names cs :
  along TwoPhase_step orderly_two (init_two names) cs ->
  let s := (ask TwoPhase_step (init_two names) cs).2 in
  rtc tc_step (all_working names) (p_state s) /\ together (p_state s) /\
  (forall p, p_state s !! p = Some Committed ->
     decision s = Some (str "commit") /\ forall q, q ∈ names -> votes s !! q = Some (str "yes")).
Proof.
  intros Hok. destruct (along_refines TwoPhase_step p_state (fun s => two_good s /\ noticed s) orderly_two) with cs (init_two names)
    as [[Hg _] Ht].
  - intros s c args [Hg Hn] Hc. destruct (two_step_moves s c args Hg Hn Hc) as (? & ? & [E|?]); (split; [done|]).
    + rewrite E. apply rtc_refl.
    + by apply rtc_once.
  - apply init_two_good.
  - done.
  - split; [exact Ht|]. split; [by apply (tc_rtc_together (all_working names)), all_working_together|].
    intros p Hp%(g_committed _ Hg). split; [done|]. intros q Hq.
    destruct (g_dec _ Hg _ Hp) as [[_ Hall]|?]; [|done]. apply Hall, (b_dom _ (g_base _ Hg)).
    apply elem_of_dom. rewrite (tc_dom _ _ Ht), elem_of_dom. cbn. rewrite lookup_all_working.
    by rewrite decide_True.
Qed.

(** Without the last rule it is not: the peer that had not voted votes yes. *)
Example consult_guesses : let s := (ask TwoPhase_step (init_two [str "a"; str "b"])
    [(str "vote", [str "a"; str "yes"]); (str "p-consult", [str "a"]); (str "vote", [str "b"; str "yes"]);
     (str "decide", []); (str "deliver", [str "b"])]).2 in
  pstate s (str "a") = Aborted /\ pstate s (str "b") = Committed /\ decision s = Some (str "commit").
Proof. by vm_compute. Qed.

(** Without the first, what is settled does not stay: a late vote takes an abort back. *)
Example late_vote_unsettles : let cs := [(str "vote", [str "a"; str "no"]); (str "decide", []); (str "deliver", [str "b"])] in
  pstate (ask TwoPhase_step (init_two [str "a"; str "b"]) cs).2 (str "b") = Aborted /\
  pstate (ask TwoPhase_step (init_two [str "a"; str "b"]) (cs ++ [(str "vote", [str "b"; str "yes"])])).2 (str "b") = Prepared.
Proof. by vm_compute. Qed.

(** *** Where it blocks *)

Lemma two_base_step s c args : two_base s -> two_base (TwoPhase_step c args s).2.
Proof.
  intros Hb. unfold TwoPhase_step.
  assert (forall p d, p ∈ participants s -> two_base (settle p d s)) as Hs.
  { intros p d Hin. unfold settle. destruct (settled _); [done|]. by apply two_base_move; unfold target; try case_decide. }
  case_decide; [|case_decide; [|case_decide; [|case_decide; [|case_decide; [|case_decide; [|
    case_decide; [|case_decide; [|case_decide; [|by case_decide]]]]]]]]].
  - apply answer_cases; [done|]. intros names _. apply init_two_good.
  - cbn [snd]. unfold prepare_two. destruct (_ && _); [by revert Hb; apply two_base_eq|done].
  - apply at_known_cases; [done|]. intros p Hp Hin. apply answer_cases; [done|]. intros yes _. cbn [snd]. unfold vote_two.
    case_bool_decide; [done|]. by apply two_base_reconsider, two_base_voted.
  - unfold decide_two. destruct (coordinator_up s), (decision s); cbn [snd]; [by revert Hb; apply two_base_eq|done..].
  - apply at_known_cases; [done|]. intros p Hp Hin. cbn [snd]. unfold deliver_two. destruct (broadcast s), (decision s); auto.
  - by apply at_known_cases.
  - apply at_known_cases; [done|]. intros p Hp Hin. unfold timeout_two. destruct (settled _); [done|].
    case_decide; [done|]. by apply two_base_bow_out.
  - apply at_known_cases; [done|]. intros p Hp Hin. unfold consult. destruct (settled (pstate s p)) eqn:Es; [done|].
    case_decide; [by apply two_base_bow_out|]. destruct (peer_decision _ _); [by apply Hs|].
    destruct (existsb _ _); [|done]. by apply two_base_move.
  - apply answer_cases; [done|]. intros what _. case_decide; [by revert Hb; apply two_base_eq|done].
Qed.

Lemma two_base_run cs s : two_base s -> two_base (ask TwoPhase_step s cs).2.
Proof. revert s. induction cs as [|c cs IH]; intros s Hb; [done|]. rewrite ask_cons. by apply IH, two_base_step. Qed.

(** The coordinator is gone, it has told nobody, and everybody is prepared. *)
Definition stuck s : Prop :=
  coordinator_up s = false /\ broadcast s = false /\ forall p, p ∈ participants s -> pstate s p = Prepared.

(** The participant [args] names asks what to do. *)
Definition asks s (c : bytes) (args : list bytes) : Prop :=
  (c = str "p-timeout" \/ c = str "p-consult") /\ exists p, args !! 0%nat = Some p /\ p ∈ participants s.

Definition blocked (a : Value) : Prop := Topic.get (str "blocked") a = Some (VBool true).

Lemma peers_undecided s peers : (forall q, q ∈ peers -> pstate s q = Prepared) -> peer_decision s peers = None /\
  existsb (fun x => bool_decide (pstate s x = Working)) peers = false.
Proof.
  induction peers as [|q peers IH]; intros Hp; [done|]. cbn. rewrite (Hp q ltac:(by left)). cbn.
  apply IH. intros r Hr. apply Hp. by right.
Qed.

Lemma stuck_consult p s : stuck s -> p ∈ participants s ->
  consult p s = (settled_answer None true (str "every peer is prepared"), s).
Proof.
  intros (_ & _ & Hall) Hin. unfold consult. rewrite (Hall p Hin). cbn [settled]. rewrite decide_False by done.
  destruct (peers_undecided s (peers_of s p)) as [-> ->]; [|done].
  intros q [_ Hq]%list_elem_of_filter. by apply Hall.
Qed.

Lemma stuck_timeout p s : stuck s -> p ∈ participants s ->
  timeout_two p s = (settled_answer None true (str "prepared, waiting for the coordinator"), s).
Proof. intros (_ & _ & Hall) Hin. unfold timeout_two. rewrite (Hall p Hin). cbn [settled]. by rewrite decide_True. Qed.

Lemma stuck_step s c args : two_base s -> stuck s -> c <> str "init" ->
  p_state (TwoPhase_step c args s).2 = p_state s /\ participants (TwoPhase_step c args s).2 = participants s /\
  stuck (TwoPhase_step c args s).2.
Proof.
  intros Hb Hs Hi. pose proof Hs as (Hu & Hr & Hall).
  pose (P s' := p_state s' = p_state s /\ participants s' = participants s /\ stuck s').
  change (P (TwoPhase_step c args s).2). assert (P s) as Hself by done. unfold TwoPhase_step. rewrite decide_False by done.
  case_decide; [|case_decide; [|case_decide; [|case_decide; [|case_decide; [|
    case_decide; [|case_decide; [|case_decide; [|by case_decide]]]]]]]].
  - cbn [snd]. unfold prepare_two. by rewrite Hu.
  - apply at_known_cases; [done|]. intros p Hp Hin. apply answer_cases; [done|]. intros yes _. cbn [snd]. unfold vote_two.
    rewrite bool_decide_true; [done|]. apply (b_prepared s Hb). by rewrite pstate_lookup, Hall.
  - unfold decide_two. by rewrite Hu.
  - apply at_known_cases; [done|]. intros p Hp Hin. cbn [snd]. unfold deliver_two. by rewrite Hr.
  - by apply at_known_cases.
  - apply at_known_cases; [done|]. intros p Hp Hin. by rewrite stuck_timeout.
  - apply at_known_cases; [done|]. intros p Hp Hin. by rewrite stuck_consult.
  - apply answer_cases; [done|]. intros what _. by case_decide.
Qed.

Lemma stuck_blocks s c args : stuck s -> asks s c args -> blocked (TwoPhase_step c args s).1.
Proof.
  intros Hs ([-> | ->] & p & Hp & Hin); dispatch TwoPhase_step; unfold at_known; rewrite (word_at _ _ _ Hp); cbn [answer];
    apply known_iff in Hin as Hk; rewrite Hk; by rewrite ?stuck_timeout, ?stuck_consult by done.
Qed.

Lemma stuck_run cs s : two_base s -> stuck s -> Forall (fun c => c.1 <> str "init") cs ->
  p_state (ask TwoPhase_step s cs).2 = p_state s /\
  Forall2 (fun c a => asks s c.1 c.2 -> blocked a) cs (ask TwoPhase_step s cs).1.
Proof.
  revert s. induction cs as [|[c args] cs IH]; intros s Hb Hs Hi; [by split; [|constructor]|].
  apply Forall_cons in Hi as [Hc Hi]. cbn [fst] in Hc. destruct (stuck_step s c args Hb Hs Hc) as (Ep & Ek & Hs').
  destruct (IH (TwoPhase_step c args s).2 (two_base_step _ _ _ Hb) Hs' Hi) as [E Hf]. rewrite ask_cons. cbn [fst snd].
  split; [congruence|]. pose proof (stuck_blocks s c args Hs) as Hbl. cbn [ask fst snd].
  destruct (TwoPhase_step c args s) as [a s1]. cbn [fst snd] in *. destruct (ask _ s1 cs) as [l s2].
  constructor; [done|]. cbn [fst] in Hf. eapply Forall2_impl; [exact Hf|]. intros [c' args'] a' Ha Hask. apply Ha.
  unfold asks in *. by rewrite Ek.
Qed.

(** Asking around helps whenever it can. *)
Lemma consult_blocked_iff p s : two_base s -> p ∈ participants s ->
  blocked (consult p s).1 <-> forall q, q ∈ participants s -> pstate s q = Prepared.
Proof.
  intros Hb Hin. assert (forall q, q ∈ participants s -> pstate s q <> PreCommitted) as Hpc.
  { intros q Hq E. apply (b_two s Hb q). by rewrite pstate_lookup, E. }
  split.
  - unfold consult. destruct (settled (pstate s p)) eqn:Es; [done|]. case_decide as Hw; [done|].
    destruct (peer_decision s (peers_of s p)) eqn:Ep; [done|]. destruct (existsb _ _) eqn:Ew; [done|]. intros _ q Hq.
    destruct (decide (q = p)) as [->|Hne]; [specialize (Hpc p Hin); by destruct (pstate s p)|].
    assert (q ∈ peers_of s p) as Hqp by (by apply list_elem_of_filter). specialize (Hpc q Hq).
    assert (pstate s q <> Working) as Hqw.
    { intros E. apply not_true_iff_false in Ew. apply Ew, existsb_exists. exists q.
      split; [by apply list_elem_of_In|by apply bool_decide_eq_true]. }
    assert (settled (pstate s q) = None) as Hqs.
    { clear -Ep Hqp. revert Ep Hqp. induction (peers_of s p) as [|x peers IH]; [by intros _ ?%not_elem_of_nil|].
      cbn. destruct (settled (pstate s x)) eqn:E; [done|]. intros Ep [->|Hq]%elem_of_cons; auto. }
    by destruct (pstate s q).
  - intros Hall. unfold consult. rewrite (Hall p Hin). cbn [settled]. rewrite decide_False by done.
    destruct (peers_undecided s (peers_of s p)) as [-> ->]; [|done].
    intros q [_ Hq]%list_elem_of_filter. by apply Hall.
Qed.
End two.

Lemma two_phase_refines_commit_witness :
  let s := (ask (@TwoPhase_step no_text) (init_two [str "a"; str "b"])
    [(str "prepare", []); (str "vote", [str "a"; str "yes"]); (str "vote", [str "b"; str "yes"]); (str "decide", []);
     (str "deliver", [str "b"]); (str "crash", [str "coordinator"]); (str "p-consult", [str "a"])]).2 in
  together (p_state s) /\ p_state s !! str "a" = Some Committed.
Proof.
  split; [|by vm_compute]. apply (@two_phase_refines_commit no_text).
  vm_compute. repeat split; intros; discriminate.
Defined.
