(* ===== verification/CommitThree.v ===== *)
(** * Three-phase commit

  It is atomic commit as long as silence means what its rule takes it to mean,
  and it never blocks; two-phase commit, which is always right, does. *)

From S2P Require Import Prelude Text OrdMap Topic Stage Commit CommitSafe.
Import Commit.Three.

(** A pre-commit is the protocol's own: to the specification it is prepared. *)
Definition calm (x : PState) : PState := match x with PreCommitted => Prepared | _ => x end.
Definition view (s : ThreePhase) : gmap bytes PState := calm <$> p_state s.

Section three.
Context `{JsonText}.
Implicit Types s : ThreePhase.

Definition everyone s : Prop := forall p, p ∈ participants s -> votes s !! p = Some (str "yes").
Definition refused s : Prop := exists p, votes s !! p = Some (str "no").

(** [silence] says which of the two assumptions the run keeps: that silence is never
  taken for an abort, or that nobody is ever pre-committed. *)
Record three_good (silence : bool) s : Prop := {
  t_dom p : is_Some (p_state s !! p) <-> p ∈ participants s;
  t_votes p v : votes s !! p = Some v -> p ∈ participants s /\ (v = str "yes" \/ v = str "no");
  t_voted p : is_Some (votes s !! p) -> p_state s !! p <> Some Working;
  t_prepared p : p_state s !! p = Some Prepared \/ p_state s !! p = Some PreCommitted -> is_Some (votes s !! p);
  t_round : state s = str "pre-committed" -> everyone s;
  t_committed p : p_state s !! p = Some PreCommitted \/ p_state s !! p = Some Committed -> everyone s;
  t_dec d : decision s = Some d -> (d = str "commit" /\ everyone s) \/ (d = str "abort" /\ refused s);
  t_heard p : silence = false -> p_state s !! p = Some Aborted -> refused s;
  t_silent : silence = true ->
    acks s = ∅ /\ decision s <> Some (str "commit") /\ forall p, p_state s !! p <> Some Committed;
}.

Lemma known_iff3 s p : known s p = true <-> p ∈ participants s.
Proof.
  unfold known. rewrite existsb_exists. setoid_rewrite bool_decide_eq_true.
  setoid_rewrite <- list_elem_of_In. split; [by intros (x & Hx & ->)|eauto].
Qed.

Lemma pstate_lookup3 b s p : three_good b s -> p ∈ participants s -> p_state s !! p = Some (pstate s p).
Proof. intros Hg [x Hx]%(t_dom b s Hg). unfold pstate. by rewrite Hx. Qed.

Lemma all_yes_everyone b s : three_good b s -> all_yes s = true -> everyone s.
Proof.
  intros Hg [[_ Hl%bool_decide_eq_true]%andb_true_iff Ha]%andb_true_iff p Hp. rewrite forallb_forall in Ha.
  destruct (full_map (votes s) (participants s)) with p as [v Hv]; [|done|done|].
  { intros q [v Hv]. by apply (t_votes b s Hg q v). }
  specialize (Ha (p, v)). rewrite bool_decide_eq_true in Ha. rewrite Hv. f_equal.
  by apply Ha, list_elem_of_In, list_elem_of_entries.
Qed.

Lemma everyone_not_refused b s : three_good b s -> everyone s -> refused s -> False.
Proof. intros Hg He [p Hp]. destruct (t_votes b s Hg p _ Hp) as [Hin _]. rewrite (He p Hin) in Hp. done. Qed.

Lemma everyone_not_working b s p : three_good b s -> everyone s -> p_state s !! p <> Some Working.
Proof.
  intros Hg He Hp. assert (p ∈ participants s) as Hin by (apply (t_dom b s Hg); eauto).
  destruct (t_voted b s Hg p); [|done]. rewrite He by done. eauto.
Qed.

(** Everyone said yes, and silence means nothing: all are ready. *)
Lemma everyone_ready s : three_good false s -> everyone s ->
  forall q x, view s !! q = Some x -> x = Prepared \/ x = Committed.
Proof.
  intros Hg He q x. unfold view. rewrite lookup_fmap. destruct (p_state s !! q) as [y|] eqn:E; [|done].
  intros [= <-]. destruct y; cbn; auto; [by destruct (everyone_not_working false s q)|].
  destruct (everyone_not_refused false s); [done..|]. by apply (t_heard false s Hg q).
Qed.

(** Only what the invariant does not look at changes. *)
Lemma three_same b s s' : three_good b s -> participants s' = participants s -> votes s' = votes s ->
  p_state s' = p_state s -> acks s' = acks s -> decision s' = decision s ->
  (state s' = state s \/ state s' <> str "pre-committed" \/ everyone s) -> three_good b s'.
Proof.
  intros [? ? ? ? Hr ? ? ? ?] E1 E2 E3 E4 E5 E6. assert (everyone s' <-> everyone s) as He by (unfold everyone; by rewrite E1, E2).
  assert (refused s' <-> refused s) as Hf by (unfold refused; by rewrite E2).
  split; rewrite ?E1, ?E2, ?E3, ?E4, ?E5, ?He, ?Hf; try done; try (intros; rewrite ?He, ?Hf; eauto; done).
  intros Hst. destruct E6 as [E6|[E6|E6]]; [|done|done]. apply Hr. congruence.
Qed.

(** A participant moves, to a state its vote allows. *)
Lemma three_move b p x s : three_good b s -> p ∈ participants s -> x <> Working ->
  (x = Prepared \/ x = PreCommitted -> is_Some (votes s !! p)) ->
  (x = PreCommitted \/ x = Committed -> everyone s) ->
  (x = Aborted -> b = false -> refused s) -> (x = Committed -> b = true -> False) ->
  three_good b (set_pstate p x s).
Proof.
  intros [Hd Hv Hw Hp Hr Hc Hdec Hh Hs] Hin H1 H2 H3 H4 H5.
  split; cbn [participants votes p_state acks decision state set_pstate]; try done.
  - intros q. destruct (decide (q = p)) as [->|]; [|by rewrite lookup_insert_ne]. by rewrite lookup_insert_eq.
  - intros q Hq. destruct (decide (q = p)) as [->|]; [rewrite lookup_insert_eq; congruence|].
    rewrite lookup_insert_ne by done. by apply Hw.
  - intros q. destruct (decide (q = p)) as [->|]; [|rewrite lookup_insert_ne by done; apply Hp].
    rewrite lookup_insert_eq. intros [[= ->]|[= ->]]; auto.
  - intros q. destruct (decide (q = p)) as [->|]; [|rewrite lookup_insert_ne by done; apply Hc].
    rewrite lookup_insert_eq. intros [[= ->]|[= ->]]; apply H3; auto.
  - intros q Hb. destruct (decide (q = p)) as [->|]; [|rewrite lookup_insert_ne by done; by apply Hh].
    rewrite lookup_insert_eq. intros [= ->]. by apply H4.
  - intros Hb. destruct (Hs Hb) as (? & ? & Hno). split; [done|]. split; [done|]. intros q.
    destruct (decide (q = p)) as [->|]; [|by rewrite lookup_insert_ne]. rewrite lookup_insert_eq. intros [= ->]. by apply H5.
Qed.

(** A working participant votes and moves. *)
Lemma three_vote b p yes s : three_good b s -> p_state s !! p = Some Working ->
  three_good b (set_pstate p (voted_state yes) (set_votes (<[p := vote_text yes]> (votes s)) s)).
Proof.
  intros Hg Hw. assert (p ∈ participants s) as Hin by (apply (t_dom b s Hg); eauto).
  assert (votes s !! p = None) as Hn.
  { destruct (votes s !! p) eqn:E; [|done]. by destruct (t_voted b s Hg p); [rewrite E|]. }
  assert (~ everyone s) as Hne by (intros He; rewrite He in Hn by done; done).
  set (s' := set_pstate p _ _). assert (refused s -> refused s') as Hrf.
  { intros [q Hq]. exists q. cbn. rewrite lookup_insert_ne; [done|congruence]. }
  destruct Hg as [Hd Hv Hvd Hp Hr Hc Hdec Hh Hs].
  split; subst s'; cbn [participants votes p_state acks decision state set_pstate set_votes] in *.
  - intros q. destruct (decide (q = p)) as [->|]; [|by rewrite lookup_insert_ne]. by rewrite lookup_insert_eq.
  - intros q v. destruct (decide (q = p)) as [->|]; [|rewrite lookup_insert_ne by done; apply Hv].
    rewrite lookup_insert_eq. intros [= <-]. split; [done|]. destruct yes; auto.
  - intros q. destruct (decide (q = p)) as [->|]; [|rewrite !lookup_insert_ne by done; apply Hvd].
    intros _. rewrite lookup_insert_eq. by destruct yes.
  - intros q. destruct (decide (q = p)) as [->|]; [|rewrite !lookup_insert_ne by done; apply Hp].
    rewrite !lookup_insert_eq. eauto.
  - by intros ?%Hr.
  - intros q. destruct (decide (q = p)) as [->|]; [|rewrite lookup_insert_ne by done; by intros ?%Hc].
    rewrite lookup_insert_eq. by destruct yes; intros [?|?].
  - intros d Hdd. destruct (Hdec d Hdd) as [[_ ?]|[-> ?]]; [done|]. right. split; [done|by apply Hrf].
  - intros q Hb. destruct (decide (q = p)) as [->|]; [|rewrite lookup_insert_ne by done; intros Hq; by apply Hrf, (Hh q)].
    rewrite lookup_insert_eq. intros Ha. exists p. cbn. rewrite lookup_insert_eq. by destruct yes.
  - intros Hb. destruct (Hs Hb) as (? & ? & Hno). split; [done|]. split; [done|]. intros q.
    destruct (decide (q = p)) as [->|]; [|by rewrite lookup_insert_ne]. rewrite lookup_insert_eq. by destruct yes.
Qed.

Lemma view_move p x s : view (set_pstate p x s) = <[p := calm x]> (view s).
Proof. unfold view. cbn. by rewrite fmap_insert. Qed.

Lemma view_lookup p x s : p_state s !! p = Some x -> view s !! p = Some (calm x).
Proof. intros E. unfold view. by rewrite lookup_fmap, E. Qed.

Lemma view_committed p s : view s !! p = Some Committed -> p_state s !! p = Some Committed.
Proof. unfold view. rewrite lookup_fmap. destruct (p_state s !! p) as [[]|]; cbn; congruence. Qed.

Definition three_moves b s s' : Prop := three_good b s' /\ rtc tc_step (view s) (view s').

Lemma three_stay b s s' : three_good b s' -> p_state s' = p_state s -> three_moves b s s'.
Proof. intros Hg E. split; [done|]. unfold view. rewrite E. apply rtc_refl. Qed.

(** An abort: nobody has committed. *)
Lemma abort_moves b p s s' : three_good b s -> p ∈ participants s -> (b = false -> ~ everyone s) ->
  settled (pstate s p) = None -> pstate s p <> PreCommitted ->
  three_good b s' -> p_state s' = <[p := Aborted]> (p_state s) -> three_moves b s s'.
Proof.
  intros Hg Hin Hne Hs Hpc Hg' E. split; [done|]. unfold view. rewrite E, fmap_insert. apply rtc_once, tc_abort.
  - pose proof (pstate_lookup3 b s p Hg Hin) as Hp. rewrite lookup_fmap, Hp. destruct (pstate s p); try done; auto.
  - intros q Hq%view_committed. destruct b.
    + by destruct (t_silent _ s Hg eq_refl) as (_ & _ & Hno); apply (Hno q).
    + apply (Hne eq_refl), (t_committed _ s Hg q). by right.
Qed.

(** A commit, when nobody can have taken silence for an answer. *)
Lemma commit_moves p s : three_good false s -> p ∈ participants s -> everyone s -> settled (pstate s p) = None ->
  three_moves false s (set_pstate p Committed s).
Proof.
  intros Hg Hin He Hs. split; [apply three_move; try done; by intros [?|?]|]. rewrite view_move.
  pose proof (view_lookup p _ s (pstate_lookup3 _ s p Hg Hin)) as Hv.
  apply rtc_once, tc_commit; [|by apply everyone_ready]. rewrite Hv.
  destruct (everyone_ready s Hg He _ _ Hv) as [->|E]; [done|]. by destruct (pstate s p).
Qed.

Lemma settle_moves3 b p d s : three_good b s -> p ∈ participants s -> decision s = Some d ->
  three_moves b s (settle p d s).
Proof.
  intros Hg Hin Hd. unfold settle. destruct (settled (pstate s p)) eqn:Es; [by apply three_stay|].
  destruct (t_dec b s Hg d Hd) as [[-> He]|[-> Hr]].
  - destruct b; [by destruct (t_silent _ s Hg eq_refl) as (_ & ? & _)|]. by apply commit_moves.
  - assert (~ everyone s) as Hne by (intros He; by apply (everyone_not_refused b s)).
    apply (abort_moves b p); [done..| | |done].
    + intros Hp. apply Hne, (t_committed b s Hg p). left. by rewrite (pstate_lookup3 b s p Hg Hin), Hp.
    + by apply three_move; try done; intros [?|?].
Qed.

Lemma vote_moves3 b p yes s : three_good b s -> p ∈ participants s ->
  (votes s !! p = None -> settled (pstate s p) = None) -> three_moves b s (vote p yes s).
Proof.
  intros Hg Hin Hf. unfold vote. case_bool_decide as Ev; [by apply three_stay|].
  apply eq_None_not_Some in Ev. pose proof (pstate_lookup3 b s p Hg Hin) as Hp.
  assert (p_state s !! p = Some Working) as Hw.
  { rewrite Hp. pose proof (t_prepared b s Hg p) as Hpr. rewrite Hp, Ev in Hpr. specialize (Hf Ev).
    destruct (pstate s p); try done; destruct Hpr as [? ?]; auto; done. }
  pose proof (three_vote b p yes s Hg Hw) as Hg1. assert (~ everyone s) as Hne.
  { intros He. rewrite He in Ev by done. done. }
  set (s1 := set_pstate p (voted_state yes) (set_votes (<[p := vote_text yes]> (votes s)) s)) in *.
  set (s2 := if decide (state s1 = str "init") then set_state (str "voting") s1 else s1).
  assert (three_good b s2) as Hg2.
  { unfold s2. case_decide; [|done]. apply (three_same b s1); try done. by right; left. }
  assert (forall s', three_good b s' -> p_state s' = p_state s1 -> three_moves b s s') as Hall.
  { intros s' Hg' E. split; [done|]. unfold view. rewrite E. unfold s1. cbn [p_state set_pstate set_votes].
    rewrite fmap_insert. apply rtc_once. pose proof (view_lookup p _ s Hw) as Hvw. destruct yes; [by apply tc_prepare|].
    apply tc_abort; [by left|]. intros q Hq%view_committed. apply Hne, (t_committed b s Hg q). by right. }
  assert (p_state s2 = p_state s1 /\ decision s2 = decision s1 /\ votes s2 = votes s1) as (E1 & E2 & E3) by (unfold s2; by case_decide).
  destruct (negb yes && bool_decide (decision s2 = None)) eqn:Ed; [|by apply Hall].
  apply Hall; [|done]. apply andb_true_iff in Ed as [Hy Ed%bool_decide_eq_true].
  assert (refused s2) as Hr.
  { exists p. rewrite E3. unfold s1. cbn. rewrite lookup_insert_eq. by destruct yes. }
  destruct Hg2 as [? ? ? ? Hrd ? Hdec Hh Hs]. split; try done.
  - cbn. intros d [= <-]. right. by split.
  - intros Hb. destruct (Hs Hb) as (? & ? & ?). done.
Qed.

Lemma timeout_moves b p s : three_good b s -> p ∈ participants s ->
  (b = false -> Topic.get (str "reason") (timeout p s).1 <> Some (VString (str "no pre-commit received"))) ->
  (b = true -> pstate s p <> PreCommitted) -> three_moves b s (timeout p s).2.
Proof.
  intros Hg Hin Hr Hpc. pose proof (pstate_lookup3 b s p Hg Hin) as Hp. revert Hr. unfold timeout.
  destruct (settled (pstate s p)) eqn:Es; [intros _; by apply three_stay|].
  destruct (pstate s p) eqn:E; try done; cbn [snd fst].
  - intros _. pose proof (three_vote b p false s Hg Hp) as Hg1. assert (votes s !! p = None) as Hn.
    { destruct (votes s !! p) eqn:Ev; [|done]. by destruct (t_voted b s Hg p); [rewrite Ev|]. }
    cbn [votes set_pstate]. rewrite or_no_none by done.
    apply (abort_moves b p); rewrite ?E; try done. intros _ He. rewrite He in Hn by done. done.
  - intros Hr. destruct b; [|by destruct (Hr eq_refl)]. apply (abort_moves true p); rewrite ?E; try done.
    by apply three_move; try done; intros [?|?].
  - intros _. destruct b; [by destruct (Hpc eq_refl)|].
    apply commit_moves; [done..| |by rewrite E]. apply (t_committed _ s Hg p). by left.
Qed.

(** The rules of a run: one transaction, no vote after the decision, and one of the
  two assumptions about silence. *)
Definition orderly_three s (c : bytes) (args : list bytes) : Prop :=
  c <> str "init" /\
  (c = str "vote" -> match args !! 0%nat with Some p => votes s !! p = None -> settled (pstate s p) = None | None => True end).

Definition silence_means_nothing s (c : bytes) (args : list bytes) : Prop :=
  orderly_three s c args /\
  (c = str "p-timeout" ->
     Topic.get (str "reason") (ThreePhase_step c args s).1 <> Some (VString (str "no pre-commit received"))).

Definition nobody_precommitted s (c : bytes) (args : list bytes) : Prop :=
  orderly_three s c args /\ Forall (fun p => pstate s p <> PreCommitted) (participants s).

Lemma at_known_cases3 (P : ThreePhase -> Prop) args s k :
  P s -> (forall p, args !! 0%nat = Some p -> p ∈ participants s -> P (k p).2) -> P (at_known args s k).2.
Proof.
  intros Hs Hk. unfold at_known. apply answer_cases; [done|]. intros p Hp%ok_or_Ok_inv.
  destruct (known s p) eqn:E; [|done]. by apply Hk, known_iff3.
Qed.

Lemma three_step_moves b s c args : three_good b s ->
  (if b then nobody_precommitted s c args else silence_means_nothing s c args) ->
  three_moves b s (ThreePhase_step c args s).2.
Proof.
  intros Hg Hrule. assert (three_moves b s s) as Hstay by (by apply three_stay).
  assert (orderly_three s c args) as (Hi & Hv) by (by destruct b, Hrule).
  assert (forall p, p ∈ participants s -> b = true -> pstate s p <> PreCommitted) as Hpc.
  { intros p Hin ->. destruct Hrule as [_ Hf]. by apply (proj1 (list.Forall_forall _ _) Hf). }
  assert (forall s', three_good b s' -> p_state s' = p_state s -> three_moves b s s') as Hst by (by intros; apply three_stay).
  assert (b = false -> c = str "p-timeout" ->
    Topic.get (str "reason") (ThreePhase_step c args s).1 <> Some (VString (str "no pre-commit received"))) as Hto.
  { intros -> ?. by apply Hrule. }
  revert Hto. unfold ThreePhase_step at 2. rewrite decide_False by done.
  case_decide as Ev; [|case_decide; [|case_decide; [|case_decide; [|case_decide; [|case_decide; [|case_decide; [|
    case_decide as Et; [|case_decide; [|case_decide; [|case_decide; [|by case_decide]]]]]]]]]]]; intros Hto.
  - apply at_known_cases3; [done|]. intros p Hp Hin. apply answer_cases; [done|]. intros yes _. cbn [snd].
    apply vote_moves3; [done..|]. specialize (Hv Ev). by rewrite Hp in Hv.
  - unfold pre_commit. destruct (coordinator_up s); [|done]. destruct (all_yes s) eqn:Ea; [|done]. cbn [negb snd].
    apply Hst; [|done]. apply (three_same b s); try done. right. right. by apply (all_yes_everyone b).
  - apply at_known_cases3; [done|]. intros p Hp Hin. cbn [snd]. unfold p_precommit. destruct (_ && _) eqn:E; [|done].
    apply andb_true_iff in E as [[E1%bool_decide_eq_true _]%andb_true_iff E2%bool_decide_eq_true].
    pose proof (pstate_lookup3 b s p Hg Hin) as Hps. rewrite E2 in Hps. split.
    + apply three_move; try done; [|intros _; by apply (t_round b s Hg)].
      intros _. apply (t_prepared b s Hg). by left.
    + rewrite view_move. cbn [calm]. rewrite insert_id; [apply rtc_refl|]. by apply (view_lookup p Prepared).
  - apply at_known_cases3; [done|]. intros p Hp Hin. cbn [snd]. unfold ack. destruct (_ && _) eqn:E; [|done].
    apply andb_true_iff in E as [E%bool_decide_eq_true _]. apply Hst; [|done].
    destruct Hg as [? ? ? ? ? ? ? ? Hs]. split; try done. intros ->. by destruct (Hpc p Hin eq_refl).
  - unfold commit. destruct (coordinator_up s); [|done]. cbn [negb]. case_bool_decide as Es; [|done]. cbn [negb].
    destruct (Nat.ltb_spec (size (acks s)) (majority s)) as [|Hm]; [done|]. cbn [snd]. apply Hst; [|done].
    destruct b.
    + destruct (t_silent _ s Hg eq_refl) as (Ha & _). rewrite Ha, size_empty in Hm. unfold majority in Hm. lia.
    + pose proof (t_round _ s Hg Es) as He. destruct Hg as [? ? ? ? ? ? ? ? Hs]. split; try done.
      cbn. intros d [= <-]. left. by split.
  - apply at_known_cases3; [done|]. intros p Hp Hin. cbn [snd]. unfold deliver. destruct (_ && _); [|done].
    destruct (decision s) eqn:Ed; [|done]. by apply settle_moves3.
  - by apply at_known_cases3.
  - subst c. unfold at_known. revert Hto. dispatch ThreePhase_step. unfold at_known.
    destruct (word args 0) as [p|] eqn:Ew; cbn [answer]; [|done]. destruct (known s p) eqn:Ek; [|done]. intros Hto.
    apply known_iff3 in Ek. apply timeout_moves; auto.
  - apply answer_cases; [done|]. intros what _. case_decide; [|done]. apply Hst; [|done]. apply (three_same b s); auto.
  - apply answer_cases; [done|]. intros group _. unfold partition. destruct (list_find _ _) as [[i q]|]; [done|].
    cbn [snd]. apply Hst; [|done]. apply (three_same b s); auto.
  - cbn [snd]. apply Hst; [|done]. apply (three_same b s); auto.
Qed.

Lemma init_three_good b names : three_good b (init_three names).
Proof.
  assert (forall p x, p_state (init_three names) !! p = Some x -> x = Working) as Hw.
  { intros p x. cbn. rewrite lookup_all_working. case_decide; by intros [= <-]. }
  split; cbn [decision votes participants acks state init_three]; try done.
  - intros p. cbn. rewrite lookup_all_working. case_decide; [done|]. split; [by intros [? ?]|done].
  - by intros p [? ?].
  - by intros p [?%Hw|?%Hw].
  - by intros p [?%Hw|?%Hw].
  - by intros p _ ?%Hw.
  - intros _. split; [done|]. split; [done|]. by intros p ?%Hw.
Qed.

Lemma view_working names : view (init_three names) = all_working names.
Proof. apply map_eq. intros p. unfold view. cbn. rewrite lookup_fmap, lookup_all_working. by destruct (decide _). Qed.

Lemma three_run (b : bool) names cs :
  along ThreePhase_step (fun s c args => if b then nobody_precommitted s c args else silence_means_nothing s c args)
    (init_three names) cs ->
  let s := (ask ThreePhase_step (init_three names) cs).2 in
  three_good b s /\ rtc tc_step (all_working names) (view s).
Proof.
  intros Hok. rewrite <- (view_working names). apply (along_refines ThreePhase_step view (three_good b)
    (fun s c args => if b then nobody_precommitted s c args else silence_means_nothing s c args)); [|apply init_three_good|done].
  intros s c args Hg Hc. by apply three_step_moves.
Qed.

Lemma any_in_iff b x s : three_good b s -> any_in x s = true -> exists p, p_state s !! p = Some x.
Proof.
  intros Hg (p & Hp%list_elem_of_In & E%bool_decide_eq_true)%existsb_exists. exists p. by rewrite (pstate_lookup3 b), E.
Qed.

Lemma together_consistent b s : three_good b s -> together (view s) -> inconsistent s = false.
Proof.
  intros Hg Ht. apply not_true_iff_false. intros [Hc Ha]%andb_true_iff.
  destruct (any_in_iff b _ s Hg Hc) as [p Hp%view_lookup], (any_in_iff b _ s Hg Ha) as [q Hq%view_lookup].
  by apply (Ht p q).
Qed.

(** C11: three-phase commit is atomic commit under what its rule assumes of silence: if no prepared participant ever takes silence for an abort, or if nobody is ever pre-committed, every command moves the participants by at most one step of the specification (a pre-committed one counting as prepared), [decisions] never answers [inconsistent], and whoever has committed did so on a yes of every participant - whatever is cut off, crashes or times out. *)
Theorem three_phase_refines_commit names cs :
  along ThreePhase_step silence_means_nothing (init_three names) cs \/
  along ThreePhase_step nobody_precommitted (init_three names) cs ->
  let s := (ask ThreePhase_step (init_three names) cs).2 in
  rtc tc_step (all_working names) (view s) /\ inconsistent s = false /\
  (forall p, p_state s !! p = Some Committed -> forall q, q ∈ participants s -> votes s !! q = Some (str "yes")).
Proof.
  intros Hok. assert (exists b, three_good b (ask ThreePhase_step (init_three names) cs).2 /\
    rtc tc_step (all_working names) (view (ask ThreePhase_step (init_three names) cs).2)) as (b & Hg & Ht).
  { destruct Hok as [Hok|Hok]; [exists false|exists true]; by apply three_run. }
  split; [done|]. split.
  - apply (together_consistent b); [done|]. apply (tc_rtc_together _ _ Ht), all_working_together.
  - intros p Hp. apply (t_committed _ _ Hg p). by right.
Qed.

(** Nothing weaker will do: a pre-commit that reached one participant, and two timeouts. *)
Example silence_is_not_proof : let s := (ask ThreePhase_step (init_three [str "a"; str "b"])
    [(str "vote", [str "a"; str "yes"]); (str "vote", [str "b"; str "yes"]); (str "pre-commit", []);
     (str "p-precommit", [str "a"]); (str "crash", [str "coordinator"]); (str "p-timeout", [str "a"]);
     (str "p-timeout", [str "b"])]).2 in
  inconsistent s = true.
Proof. by vm_compute. Qed.

Lemma timeout_settles p s : exists d, Topic.get (str "decision") (timeout p s).1 = Some (VString d) /\
  Topic.get (str "blocked") (timeout p s).1 = Some (VBool false) /\ settled (pstate (timeout p s).2 p) = Some d.
Proof.
  assert (forall x s', pstate (set_votes x (set_pstate p Aborted s')) p = Aborted) as Ha.
  { intros x s'. unfold pstate. cbn. by rewrite lookup_insert_eq. }
  assert (forall x, pstate (set_pstate p x s) p = x) as Hm by (intros x; unfold pstate; cbn; by rewrite lookup_insert_eq).
  unfold timeout. destruct (settled (pstate s p)) eqn:Es; [by eauto|].
  destruct (pstate s p) eqn:E; try done; cbn [fst snd]; eexists; (split; [done|]); (split; [done|]); by rewrite ?Ha, ?Hm.
Qed.

End three.

Lemma three_phase_refines_commit_witness :
  inconsistent (ask (@ThreePhase_step no_text) (init_three [str "a"; str "b"])
    [(str "vote", [str "a"; str "yes"]); (str "vote", [str "b"; str "yes"]); (str "pre-commit", []);
     (str "crash", [str "coordinator"]); (str "p-timeout", [str "a"]); (str "p-timeout", [str "b"])]).2 = false.
Proof.
  apply (@three_phase_refines_commit no_text). right. vm_compute. repeat first [split|constructor]; intros; discriminate.
Defined.

