(* ===== verification/CommitLog.v ===== *)
(** * What a participant gets back from its log

  The records of [commit-recovery] against the state they stand for: a crash at any
  moment, and the recovery, lose nothing that was promised or decided. *)

From S2P Require Import Prelude Text OrdMap Topic Stage Commit CommitSafe.
Import Commit.Log.

(** ** Records *)

Definition plain_kind (kind : bytes) : Prop := x3a ∉ kind.

Lemma after_colon_record kind tx : plain_kind kind -> after_colon (record kind tx) = Some tx.
Proof.
  unfold plain_kind, record. induction kind as [|b kind IH]; intros Hk; cbn; [done|].
  rewrite decide_False; [apply IH|]; intros E; apply Hk; [by right|subst; by left].
Qed.

Lemma record_inj k k' tx tx' : plain_kind k -> plain_kind k' -> record k tx = record k' tx' -> k = k' /\ tx = tx'.
Proof.
  intros Hk Hk' E. assert (tx = tx') as <-.
  { apply (f_equal after_colon) in E. rewrite !after_colon_record in E by done. congruence. }
  split; [|done]. unfold record in E. by apply app_inv_tail in E.
Qed.

Ltac colon_free := apply (bool_decide_eq_true_1 _); vm_compute; reflexivity.

Lemma logged_iff s kind tx : logged s kind tx = true <-> record kind tx ∈ log s.
Proof.
  unfold logged. rewrite existsb_exists. setoid_rewrite bool_decide_eq_true. setoid_rewrite <- list_elem_of_In.
  split; [by intros (x & Hx & <-)|eauto].
Qed.

Lemma logged_note s kind tx st k tx' : plain_kind kind -> plain_kind k ->
  logged (note kind tx st s) k tx' = logged s k tx' || bool_decide (k = kind /\ tx' = tx).
Proof.
  intros Hk Hk'. unfold logged. cbn [log note]. rewrite existsb_app. cbn. f_equal. rewrite orb_false_r.
  apply bool_decide_ext. split; [|by intros [-> ->]]. intros E. apply record_inj in E as [-> ->]; done.
Qed.

(** ** The transactions of a log *)

Section recovery.
Context `{JsonText}.
Implicit Types s : Recovery.

Definition well_formed (r : bytes) : Prop := exists kind tx, r = record kind tx /\ plain_kind kind.
Definition about (tx r : bytes) : Prop := after_colon r = Some tx.

Lemma add_transaction_in out r tx : tx ∈ add_transaction out r <-> tx ∈ out \/ about tx r.
Proof.
  unfold add_transaction, about. destruct (after_colon r) as [t|]; [|naive_solver].
  destruct (existsb _ out) eqn:E.
  - apply existsb_exists in E as (x & Hx%list_elem_of_In & ->%bool_decide_eq_true). naive_solver.
  - rewrite elem_of_app, list_elem_of_singleton. naive_solver.
Qed.

Lemma add_transaction_nodup out r : NoDup out -> NoDup (add_transaction out r).
Proof.
  intros Hn. unfold add_transaction. destruct (after_colon r) as [t|]; [|done]. destruct (existsb _ out) eqn:E; [done|].
  apply NoDup_app. split; [done|]. split; [|apply NoDup_singleton]. intros x Hx ->%list_elem_of_singleton.
  apply not_true_iff_false in E. apply E, existsb_exists. exists t. by rewrite <- list_elem_of_In, bool_decide_eq_true.
Qed.

Lemma transactions_spec l out : NoDup out -> NoDup (foldl add_transaction out l) /\
  forall tx, tx ∈ foldl add_transaction out l <-> tx ∈ out \/ exists r, r ∈ l /\ about tx r.
Proof.
  revert out. induction l as [|r l IH]; intros out Hn; cbn [foldl].
  - split; [done|]. intros tx. split; [by left|]. by intros [?|(? & ?%not_elem_of_nil & _)].
  - destruct (IH (add_transaction out r) (add_transaction_nodup out r Hn)) as [Hn' Hi]. split; [done|].
    intros tx. rewrite Hi, add_transaction_in. setoid_rewrite elem_of_cons. naive_solver.
Qed.

Lemma transactions_nodup s : NoDup (transactions s).
Proof. apply transactions_spec, NoDup_nil_2. Qed.

Lemma transactions_in s tx : tx ∈ transactions s <-> exists r, r ∈ log s /\ about tx r.
Proof.
  unfold transactions. rewrite (proj2 (transactions_spec (log s) [] NoDup_nil_2)). rewrite elem_of_nil. naive_solver.
Qed.

Lemma transactions_note s kind tx st tx' : plain_kind kind ->
  tx' ∈ transactions (note kind tx st s) <-> tx' ∈ transactions s \/ tx' = tx.
Proof.
  intros Hk. rewrite !transactions_in. cbn [log note]. setoid_rewrite elem_of_app. setoid_rewrite list_elem_of_singleton.
  split.
  - intros (r & [Hr| ->] & Ha); [left; eauto|right]. unfold about in Ha. rewrite after_colon_record in Ha by done. congruence.
  - intros [(r & Hr & Ha)| ->]; [eauto|]. exists (record kind tx). split; [by right|]. by apply after_colon_record.
Qed.

Lemma logged_transaction s kind tx : plain_kind kind -> logged s kind tx = true -> tx ∈ transactions s.
Proof. intros Hk Hl%logged_iff. apply transactions_in. exists (record kind tx). split; [done|]. by apply after_colon_record. Qed.

(** ** The recovery loop *)

Definition status s tx : bytes := (state_from_log s tx).1.
Definition action s tx : bytes := (state_from_log s tx).2.

Lemma recover_loop s txs r :
  foldl (recover_one s) r txs = mkRecovered
    (foldl (fun m tx => <[tx := status s tx]> m) (new_states r) txs)
    (pending r ++ filter (fun tx => status s tx = str "prepared") txs)
    (decided r ++ filter (fun tx => status s tx <> str "prepared") txs)
    (actions r ++ map (fun tx => (tx, action s tx)) txs).
Proof.
  revert r. induction txs as [|tx txs IH]; intros r; cbn [foldl map].
  - rewrite !app_nil_r. by destruct r.
  - rewrite IH. rewrite !filter_cons. unfold recover_one, status, action. destruct (state_from_log s tx) as [st a]. cbn [fst snd].
    case_bool_decide as E; cbn [new_states pending decided actions].
    + rewrite (decide_True (P := st = str "prepared")), (decide_False (P := st <> str "prepared")) by auto.
      by rewrite <- !app_assoc.
    + rewrite (decide_False (P := st = str "prepared")), (decide_True (P := st <> str "prepared")) by auto.
      by rewrite <- !app_assoc.
Qed.

Lemma lookup_insert_all (f : bytes -> bytes) (txs : list bytes) (m : gmap bytes bytes) tx :
  foldl (fun m tx => <[tx := f tx]> m) m txs !! tx = if decide (tx ∈ txs) then Some (f tx) else m !! tx.
Proof.
  revert m. induction txs as [|t txs IH]; intros m; cbn [foldl].
  - by rewrite decide_False by (by apply not_elem_of_nil).
  - rewrite IH. destruct (decide (tx ∈ txs)); [by rewrite decide_True by (by right)|].
    destruct (decide (tx = t)) as [->|].
    + by rewrite lookup_insert_eq, decide_True by left.
    + rewrite lookup_insert_ne by done. rewrite decide_False; [done|]. by rewrite elem_of_cons; intros [?|?].
Qed.

Lemma recovered_states s tx :
  new_states (recovered s) !! tx = if decide (tx ∈ transactions s) then Some (status s tx) else None.
Proof. unfold recovered. rewrite recover_loop. cbn [new_states]. by rewrite lookup_insert_all. Qed.

Lemma recovered_pending s tx : tx ∈ pending (recovered s) <-> tx ∈ transactions s /\ status s tx = str "prepared".
Proof. unfold recovered. rewrite recover_loop. cbn [pending app]. rewrite list_elem_of_filter. naive_solver. Qed.

Lemma recovered_decided s tx : tx ∈ decided (recovered s) <-> tx ∈ transactions s /\ status s tx <> str "prepared".
Proof. unfold recovered. rewrite recover_loop. cbn [decided app]. rewrite list_elem_of_filter. naive_solver. Qed.

Lemma recovered_actions s tx a : (tx, a) ∈ actions (recovered s) <-> tx ∈ transactions s /\ a = action s tx.
Proof.
  unfold recovered. rewrite recover_loop. cbn [actions app]. change (map ?f ?l) with (f <$> l).
  rewrite list_elem_of_fmap. naive_solver.
Qed.

(** ** The state and the log *)

(** A running process believes what its log says; a transaction that has only begun is
  still working. *)
Definition believes s : Prop := crashed s = false -> forall tx,
  (tx ∈ transactions s ->
     states s !! tx = Some (status s tx) \/ states s !! tx = Some (str "working") /\ status s tx = str "aborted") /\
  (tx ∉ transactions s -> states s !! tx = None).

Lemma status_note s kind tx st tx' : plain_kind kind -> tx' <> tx -> status (note kind tx st s) tx' = status s tx'.
Proof.
  intros Hk Hne. unfold status, state_from_log. rewrite !logged_note by (done || colon_free).
  rewrite (bool_decide_false (_ = kind /\ tx' = tx)) by (by intros [_ ?]).
  rewrite (bool_decide_false (_ = kind /\ tx' = tx)) by (by intros [_ ?]).
  rewrite (bool_decide_false (_ = kind /\ tx' = tx)) by (by intros [_ ?]). by rewrite !orb_false_r.
Qed.

Lemma believes_note s kind tx st : plain_kind kind -> believes s ->
  (st = status (note kind tx st s) tx \/ st = str "working" /\ status (note kind tx st s) tx = str "aborted") ->
  believes (note kind tx st s).
Proof.
  intros Hk Hb Hst Hc tx'. rewrite transactions_note by done. cbn [states note]. destruct (decide (tx' = tx)) as [->|Hne].
  - rewrite lookup_insert_eq. split; [|by intros []; right]. intros _. destruct Hst as [Hst|[-> Hst]]; [left; congruence|by right].
  - rewrite lookup_insert_ne by done. rewrite status_note by done. destruct (Hb Hc tx') as [H1 H2].
    split; [by intros [?|?]; auto|]. intros Hn. apply H2. by intros ?; apply Hn; left.
Qed.

(** The status a new record gives its own transaction. *)
Lemma status_own s kind tx st :
  plain_kind kind -> status (note kind tx st s) tx =
    if logged s (str "commit") tx || bool_decide (kind = str "commit") then str "committed"
    else if logged s (str "abort") tx || bool_decide (kind = str "abort") then str "aborted"
    else if logged s (str "prepared") tx || bool_decide (kind = str "prepared") then str "prepared"
    else str "aborted".
Proof.
  intros Hk. unfold status, state_from_log. rewrite !logged_note by (done || colon_free).
  assert (forall k, bool_decide (k = kind /\ tx = tx) = bool_decide (kind = k)) as E.
  { intros k. apply bool_decide_ext. split; [by intros [-> _]|by intros ->]. }
  rewrite !E. destruct (_ || bool_decide (kind = str "commit")); [by case_bool_decide|].
  destruct (_ || bool_decide (kind = str "abort")); [done|]. by destruct (_ || _).
Qed.

Lemma believes_conclude s tx commit : believes s -> (commit = false -> logged s (str "commit") tx = false) ->
  believes (conclude tx commit s).
Proof.
  intros Hb Hc. unfold conclude. destruct commit; cbn [kind_of state_of].
  - apply believes_note; [colon_free|done|left]. rewrite status_own by colon_free. by rewrite orb_true_r.
  - apply believes_note; [colon_free|done|left]. rewrite status_own by colon_free. rewrite Hc by done. cbn.
    by rewrite orb_true_r.
Qed.

Lemma believes_apply s tx : believes s -> believes (apply tx s).
Proof.
  intros Hb Hc tx'. destruct (Hb Hc tx') as [H1 H2]. split; [|exact H2]. intros Ht. cbn [states apply].
  assert (status (apply tx s) tx' = status s tx') as ->; [|by apply H1].
  unfold status, state_from_log. cbn [log apply]. change (logged (apply tx s)) with (logged s).
  destruct (logged s (str "commit") tx'); [by do 2 case_bool_decide|]. destruct (logged s (str "abort") tx'); [done|].
  by destruct (logged s (str "prepared") tx').
Qed.

Lemma believes_recover s : believes (recover s).
Proof.
  intros _ tx. cbn [states recover]. change (transactions (recover s)) with (transactions s).
  change (status (recover s) tx) with (status s tx). rewrite recovered_states. split; intros Ht.
  - left. by rewrite decide_True.
  - by rewrite decide_False.
Qed.

(** What may be asked of a participant: a transaction begins once, nobody prepares
  what is decided, and nothing that has committed is aborted. *)
Definition lawful s (c : bytes) (args : list bytes) : Prop :=
  c <> str "init" /\
  (c = str "begin" -> match args !! 0%nat with Some tx => tx ∉ transactions s | None => True end) /\
  (c = str "prepare" ->
     match args !! 0%nat, args !! 1%nat with
     | Some tx, Some v => logged s (str "commit") tx = false /\ (v = str "yes" -> logged s (str "abort") tx = false)
     | _, _ => True
     end) /\
  (c = str "decide" \/ c = str "coordinator-says" ->
     match args !! 0%nat, args !! 1%nat with
     | Some tx, Some v => v = str "abort" -> logged s (str "commit") tx = false
     | _, _ => True
     end).

Lemma flag_Ok_inv args i a b v : flag args i a b = Ok v -> args !! i = Some (if v then a else b).
Proof.
  unfold flag. intros (w & Hw%ok_or_Ok_inv & E)%result_bind_Ok_inv. rewrite Hw. f_equal.
  repeat case_decide; by simplify_eq.
Qed.

Lemma fresh_logged s kind tx : plain_kind kind -> tx ∉ transactions s -> logged s kind tx = false.
Proof. intros Hk Hn. apply not_true_iff_false. intros Hl. by apply Hn, (logged_transaction s kind). Qed.

Lemma lawful_step s c args : believes s -> lawful s c args -> believes (Recovery_step c args s).2.
Proof.
  intros Hb (Hi & Hbegin & Hprep & Hdec). unfold Recovery_step. rewrite decide_False by done.
  case_decide as E1; [|case_decide as E2; [|case_decide; [|case_decide as E4; [|case_decide; [|case_decide; [|case_decide; [|
    case_decide; [|case_decide as E9; [|by case_decide]]]]]]]]].
  - apply answer_cases; [done|]. intros tx Htx%ok_or_Ok_inv. specialize (Hbegin E1). rewrite Htx in Hbegin. cbn [snd].
    apply believes_note; [colon_free|done|right]. split; [done|]. rewrite status_own by colon_free.
    by rewrite !fresh_logged by (done || colon_free).
  - apply answer_cases; [done|]. intros tx Htx%ok_or_Ok_inv. apply answer_cases; [done|]. intros yes Hy%flag_Ok_inv.
    specialize (Hprep E2). rewrite Htx, Hy in Hprep. destruct Hprep as [Hc Ha]. cbn [snd]. unfold prepare. destruct yes.
    + apply believes_note; [colon_free|done|left]. rewrite status_own, Hc, Ha by (done || colon_free). cbn. by rewrite orb_true_r.
    + apply believes_note; [colon_free|done|left]. rewrite status_own, Hc by colon_free. cbn. by rewrite orb_true_r.
  - by apply answer_cases.
  - apply answer_cases; [done|]. intros tx Htx%ok_or_Ok_inv. apply answer_cases; [done|]. intros commit Hy%flag_Ok_inv.
    specialize (Hdec (or_introl E4)). rewrite Htx, Hy in Hdec. cbn [snd]. apply believes_conclude; [done|].
    intros ->. by apply Hdec.
  - apply answer_cases; [done|]. intros tx _. by apply believes_apply.
  - by intros ?.
  - apply believes_recover.
  - by apply answer_cases.
  - apply answer_cases; [done|]. intros tx Htx%ok_or_Ok_inv. apply answer_cases; [done|]. intros commit Hy%flag_Ok_inv.
    specialize (Hdec (or_intror E9)). rewrite Htx, Hy in Hdec. cbn [snd]. unfold coordinator_says.
    assert (believes (conclude tx commit s)) by (apply believes_conclude; [done|]; intros ->; by apply Hdec).
    destruct commit; [by apply believes_apply|done].
Qed.

Lemma lawful_run cs s : believes s -> along Recovery_step lawful s cs -> believes (ask Recovery_step s cs).2.
Proof.
  revert s. induction cs as [|[c args] cs IH]; intros s Hb Hl; [done|]. destruct Hl as [Hc Hl]. rewrite ask_cons.
  apply IH; [by apply lawful_step|done].
Qed.

Lemma outcome_recover s tx : outcome (recover s) tx = if decide (tx ∈ transactions s) then status s tx else str "unknown".
Proof. unfold outcome. cbn [crashed recover states]. rewrite recovered_states. by destruct (decide _). Qed.

Lemma action_cases s tx :
  (action s tx = str "redo" <-> status s tx = str "committed" /\ tx ∉ applied s) /\
  (action s tx = str "ask-coordinator" <-> status s tx = str "prepared") /\
  (action s tx = str "abort" <->
     logged s (str "commit") tx = false /\ logged s (str "abort") tx = false /\ logged s (str "prepared") tx = false).
Proof.
  unfold action, status, state_from_log. destruct (logged s (str "commit") tx); [case_bool_decide; naive_solver|].
  destruct (logged s (str "abort") tx); [naive_solver|]. destruct (logged s (str "prepared") tx); naive_solver.
Qed.

Definition init_log (name : bytes) : Recovery := mkRecovery name [] ∅ ∅ false.

Lemma believes_init name : believes (init_log name).
Proof. intros _ tx. split; [|done]. intros Ht. by apply not_elem_of_nil in Ht. Qed.

End recovery.

