(* ===== verification/CommitStages.v ===== *)
(** * The atomic commit stages pass ([s63] to [s65] of [disttest/src/stages])

  The seeded trials of the three stages, with the outcome the tester works out from
  the rules alone, and the theorem that the topics of [Commit] reach it in every
  trial the generator can draw. *)

From S2P Require Import Prelude Text OrdMap Topic Stage Commit.
From S2P Require Workload.

(** ** Trials *)

Section trials.
Context {S : Type} (step : bytes -> list bytes -> S -> Value * S).

(** The answers of a trial are wanted whatever state it starts in. *)
Definition self_contained (e : Entry) : Prop :=
  forall s, Forall (fun want => want (ask step s (commands e)).1) (wants e).

Lemma passes_trials es s : Forall self_contained es -> passes step s es.
Proof.
  intros He. revert s. induction He as [|e es He _ IH]; intros s; [done|]. cbn. specialize (He s).
  destruct (ask step s (commands e)) as [answers s']. split; [exact He|apply IH].
Qed.

(** What is left when the first command has been answered. *)
Lemma ask_from c cs s a s' : step c.1 c.2 s = (a, s') -> (ask step s (c :: cs)).1 = a :: (ask step s' cs).1.
Proof. intros E. cbn. rewrite E. by destruct (ask step s' cs). Qed.
End trials.

(** Two functions that agree on a list agree on each of its elements. *)
Lemma map_agree {A B} (f g : A -> B) l x : map f l = map g l -> x ∈ l -> f x = g x.
Proof. intros E Hx. induction Hx as [x l|x y l _ IH]; cbn in E; injection E; auto. Qed.

Definition name (i : nat) : bytes := x70 :: dec (Z.of_nat i + 1).
Definition three : list nat := [0; 1; 2]%nat.
Definition init_args : list bytes := [members_arg (map name three)].
Definition bools : list bool := [true; false].

Lemma all_bools b : b ∈ bools.
Proof. destruct b; [by left|by right; left]. Qed.

(** ** Stage 63: two-phase commit *)

Module S63.

Record Trial : Type := mkTrial {
  votes : list bool;
  order : list nat;
  crash : bool;
  delivered : list nat;
}.

Definition expected_state (t : Trial) : bytes :=
  let any_no := existsb negb (votes t) in
  let anyone_settled := any_no || (negb (crash t) && negb (bool_decide (delivered t = []))) in
  if negb anyone_settled then str "prepared" else if any_no then str "aborted" else str "committed".

(** What the generator draws: the votes, the swaps of the shuffle, the crash, and who
  the broadcast reaches. *)
Record Choice : Type := mkChoice {
  c_votes : bool * bool * bool;
  c_swaps : nat * nat;
  c_crash : bool;
  c_reached : bool * bool * bool;
}.

Definition list3 (x : bool * bool * bool) : list bool := [x.1.1; x.1.2; x.2].

Definition valid (c : Choice) : Prop := ((c_swaps c).1 <= 2 /\ (c_swaps c).2 <= 1)%nat.

Definition trial (c : Choice) : Trial :=
  mkTrial (list3 (c_votes c)) (Workload.swap (Workload.swap three 2 (c_swaps c).1) 1 (c_swaps c).2) (c_crash c)
    (filter (fun i => nth i (list3 (c_reached c)) false = true) three).

Definition body (t : Trial) : list (bytes * list bytes) :=
  (str "prepare", []) :: map (fun i => (str "vote", [name i; vote_text (nth i (votes t) false)])) (order t) ++
  (if crash t then [(str "crash", [str "coordinator"])]
   else (str "decide", []) :: map (fun i => (str "deliver", [name i])) (delivered t) ++ [(str "crash", [str "coordinator"])]) ++
  map (fun i => (str "p-consult", [name i])) three.

Definition asked : list (bytes * list bytes) := map (fun i => (str "p-state", [name i])) three.

Definition entry (t : Trial) : Entry :=
  mkEntry ((str "init", init_args) :: body t ++ asked)
    (map (fun i => field (1 + length (body t) + i) (str "state") (VString (expected_state t))) three).

Definition script (cs : list Choice) : list Entry := map (fun c => entry (trial c)) cs.

Section pass.
Context `{JsonLists}.

Definition observed (c : Choice) : list (option Value) :=
  let answers := (ask TwoPhase_step (init_two (map name three)) (body (trial c) ++ asked)).1 in
  map (fun i => answers !! (length (body (trial c)) + i)%nat ≫= Topic.get (str "state")) three.

Definition choices : list Choice :=
  v1 ← bools; v2 ← bools; v3 ← bools; j2 ← [0; 1; 2]%nat; j1 ← [0; 1]%nat; cr ← bools; d1 ← bools; d2 ← bools; d3 ← bools;
  [mkChoice (v1, v2, v3) (j2, j1) cr (d1, d2, d3)].

Lemma choices63_complete c : valid c -> c ∈ choices.
Proof.
  destruct c as [[[v1 v2] v3] [j2 j1] cr [[d1 d2] d3]]. unfold valid. cbn [c_swaps fst snd]. intros [H2 H1]. unfold choices.
  repeat (apply list_elem_of_bind; eexists; split; [|solve [apply all_bools|
    destruct j2 as [|[|[|]]]; [by left|by right; left|by right; right; left|lia]|
    destruct j1 as [|[|]]; [by left|by right; left|lia]]]). by left.
Qed.

Lemma observed63_expected :
  map observed choices = map (fun c => replicate 3 (Some (VString (expected_state (trial c))))) choices.
Proof. vm_compute. reflexivity. Qed.

Lemma init63 s : exists a, TwoPhase_step (str "init") init_args s = (a, init_two (map name three)).
Proof.
  eexists. dispatch TwoPhase_step.
  by rewrite (word_list_at init_args 0 (map name three)) by first [done|repeat constructor].
Qed.

Lemma passes63_stage s cs : Forall valid cs -> passes TwoPhase_step s (script cs).
Proof.
  intros Hv. apply passes_trials. unfold script. change (map ?f ?l) with (f <$> l). apply Forall_fmap.
  apply (Forall_impl _ _ _ Hv). clear Hv s cs. intros c Hc s. destruct (init63 s) as [a Ha].
  cbn [commands wants entry compose]. rewrite (ask_from _ (str "init", init_args) _ _ _ _ Ha).
  pose proof (map_agree _ _ _ c observed63_expected (choices63_complete c Hc)) as E. cbn in E. unfold observed in E. cbn [map] in E.
  injection E as E0 E1 E2. unfold three. cbn [map]. repeat constructor; unfold field; cbn [Nat.add lookup list_lookup]; done.
Qed.
End pass.
End S63.

(** ** Stage 64: three-phase commit *)

Module S64.
Import Commit.Three.

Record Trial : Type := mkTrial { votes : bool * bool * bool; complete : bool }.

Definition expected (t : Trial) : bytes :=
  if forallb id (S63.list3 (votes t)) && complete t then str "commit" else str "abort".

Definition body (t : Trial) : list (bytes * list bytes) :=
  map (fun i => (str "vote", [name i; vote_text (nth i (S63.list3 (votes t)) false)])) three ++
  (if forallb id (S63.list3 (votes t))
   then (str "pre-commit", []) :: (if complete t then map (fun i => (str "p-precommit", [name i])) three else [])
   else []) ++
  [(str "crash", [str "coordinator"])].

Definition asked : list (bytes * list bytes) := map (fun i => (str "p-timeout", [name i])) three ++ [(str "decisions", [])].

Definition entry (t : Trial) : Entry :=
  mkEntry ((str "init", init_args) :: body t ++ asked)
    (map (fun i => field (1 + length (body t) + i) (str "decision") (VString (expected t))) three ++
     [field (1 + length (body t) + 3) (str "inconsistent") (VBool false)]).

Definition script (cs : list Trial) : list Entry := map entry cs.

Section pass.
Context `{JsonLists}.

Definition observed (t : Trial) : list (option Value) :=
  let answers := (ask ThreePhase_step (init_three (map name three)) (body t ++ asked)).1 in
  map (fun i => answers !! (length (body t) + i)%nat ≫= Topic.get (str "decision")) three ++
  [answers !! (length (body t) + 3)%nat ≫= Topic.get (str "inconsistent")].

Definition choices : list Trial :=
  v1 ← bools; v2 ← bools; v3 ← bools; full ← bools; [mkTrial (v1, v2, v3) full].

Lemma choices64_complete t : t ∈ choices.
Proof.
  destruct t as [[[v1 v2] v3] full]. unfold choices.
  repeat (apply list_elem_of_bind; eexists; split; [|apply all_bools]). by left.
Qed.

Lemma observed64_expected : map observed choices =
  map (fun t => replicate 3 (Some (VString (expected t))) ++ [Some (VBool false)]) choices.
Proof. vm_compute. reflexivity. Qed.

Lemma init64 s : exists a, ThreePhase_step (str "init") init_args s = (a, init_three (map name three)).
Proof.
  eexists. dispatch ThreePhase_step.
  by rewrite (word_list_at init_args 0 (map name three)) by first [done|repeat constructor].
Qed.

Lemma passes64_stage s ts : passes ThreePhase_step s (script ts).
Proof.
  apply passes_trials. unfold script. change (map ?f ?l) with (f <$> l). apply Forall_fmap, list.Forall_forall.
  intros t _. clear s ts. intros s. destruct (init64 s) as [a Ha].
  cbn [commands wants entry compose]. rewrite (ask_from _ (str "init", init_args) _ _ _ _ Ha).
  pose proof (map_agree _ _ _ t observed64_expected (choices64_complete t)) as E. unfold observed in E. cbn in E.
  injection E as E0 E1 E2 E3. unfold three. cbn [map app]. repeat constructor; unfold field; cbn [Nat.add lookup list_lookup]; done.
Qed.
End pass.
End S64.

(** ** Stage 65: recovery *)

Module S65.
Import Commit.Log.

Definition tx1 : bytes := str "tx1".

Definition expected_after (steps : nat) (commit : bool) : bytes * bytes * bool :=
  match steps with
  | 0 => (str "unknown", [], false)
  | 1 => (str "aborted", str "abort", false)
  | 2 | 3 => (str "prepared", str "ask-coordinator", false)
  | 4 => if commit then (str "committed", str "redo", false) else (str "aborted", str "none", false)
  | _ => (str "committed", str "none", true)
  end%nat.

Definition steps (commit : bool) : list (bytes * list bytes) :=
  [(str "begin", [tx1]); (str "prepare", [tx1; str "yes"]); (str "vote-sent", [tx1])] ++
  (if commit then [(str "decide", [tx1; str "commit"]); (str "apply", [tx1])] else [(str "decide", [tx1; str "abort"])]).

(** A trial: which way the coordinator decided, and after how many steps the machine dies. *)
Definition Trial : Type := bool * nat.
Definition valid (t : Trial) : Prop := (t.2 <= length (steps t.1))%nat.

Definition body (t : Trial) : list (bytes * list bytes) := take t.2 (steps t.1) ++ [(str "crash", [])].
Definition asked : list (bytes * list bytes) := [(str "recover", []); (str "outcome", [tx1])].

(** The action for [tx1], empty when the recovery names none. *)
Definition action_in (answer : option Value) : bytes :=
  match (answer ≫= Topic.get (str "actions")) ≫= Topic.get tx1 with
  | Some v => default [] (as_str v)
  | None => []
  end.

Definition entry (t : Trial) : Entry :=
  let '(st, act, done_) := expected_after t.2 t.1 in
  let n := length (body t) in
  mkEntry ((str "init", [str "p1"]) :: body t ++ asked)
    [field (1 + n + 1) (str "state") (VString st);
     (fun answers => action_in (answers !! (1 + n)%nat) = act);
     field (1 + n + 1) (str "applied") (VBool done_)].

Definition script (ts : list Trial) : list Entry := map entry ts.

Section pass.
Context `{JsonText}.

Definition start : Recovery := mkRecovery (str "p1") [] ∅ ∅ false.

Definition observed (t : Trial) : option Value * bytes * option Value :=
  let answers := (ask Recovery_step start (body t ++ asked)).1 in
  (answers !! (length (body t) + 1)%nat ≫= Topic.get (str "state"), action_in (answers !! length (body t)),
   answers !! (length (body t) + 1)%nat ≫= Topic.get (str "applied")).

Definition choices : list Trial := commit ← bools; n ← seq 0 (S (length (steps commit))); [(commit, n)].

Lemma choices65_complete t : valid t -> t ∈ choices.
Proof.
  destruct t as [commit n]. unfold valid. cbn [fst snd]. intros Hn. unfold choices.
  apply list_elem_of_bind. exists commit. split; [|apply all_bools].
  apply list_elem_of_bind. exists n. split; [by left|]. apply elem_of_seq. lia.
Qed.

Lemma observed65_expected : map observed choices =
  map (fun t => let '(st, act, done_) := expected_after t.2 t.1 in (Some (VString st), act, Some (VBool done_))) choices.
Proof. vm_compute. reflexivity. Qed.

Lemma passes65_stage s ts : Forall valid ts -> passes Recovery_step s (script ts).
Proof.
  intros Hv. apply passes_trials. unfold script. change (map ?f ?l) with (f <$> l). apply Forall_fmap.
  apply (Forall_impl _ _ _ Hv). clear Hv s ts. intros t Ht s. cbn [compose]. unfold entry.
  pose proof (map_agree _ _ _ t observed65_expected (choices65_complete t Ht)) as E. cbv beta in E.
  destruct (expected_after t.2 t.1) as [[st act] done_]. unfold observed in E. injection E as E0 E1 E2.
  cbn [commands wants]. erewrite (ask_from _ (str "init", [str "p1"]) _ _ _ start) by (dispatch Recovery_step; reflexivity).
  repeat constructor; unfold field; cbn [Nat.add lookup list_lookup]; done.
Qed.
End pass.
End S65.
