(* ===== verification/Stages.v ===== *)
(** * The reference passes the seeded stages

  The ten stages [s56] to [s65] together: Raft, Paxos and atomic commit. *)

From S2P Require Import Prelude Text OrdMap Topic Raft Paxos Commit Stage RaftStages PaxosStages CommitStages.

(** Whatever is drawn, up to the length that keeps numbers in [i64]. *)
Definition always {S C} (step : bytes -> list bytes -> S -> Value * S) (valid : C -> Prop) (script : list C -> list Entry)
    : Prop :=
  forall s cs, Forall valid cs -> Z.of_nat (length cs) <= max_rounds -> passes step s (script cs).

(** C9: the reference passes the seeded runs of the ten stages on Raft, Paxos and atomic commit: for every sequence of draws of the generator within its ranges, of any length up to 2^60 rounds, the topics, started in any state and sent the conversation the stage works out with a model of its own, give each answer the stage compares - Raft states, terms and votes, conflict, last and commit indices and whole logs, the shape of a compacted log, verdicts, phases, members and quorums; what Paxos acceptors promise, what is learned at the end and the gaps below the highest chosen slot; how a transaction ends for every order of votes, crash and broadcast, and what is left of it after a crash at every step. *)
Theorem seeded_stages_pass `{JsonLists} :
  (always Election_step S56.valid S56.script /\ always LogReplication_step S57.valid S57.script /\
   always Commitment_step S58.valid S58.script /\ always Snapshots_step S59.valid S59.script /\
   always Membership_step (fun _ => True) S60.script) /\
  (always Paxos_step S61.valid S61.script /\ always MultiPaxos_step S62.valid S62.script) /\
  (always TwoPhase_step S63.valid S63.script /\ always Three.ThreePhase_step (fun _ => True) S64.script /\
   always Log.Recovery_step S65.valid S65.script).
Proof.
  split; [|split].
  - split; [exact S56.passes56_stage|]. split; [exact S57.passes57_stage|]. split; [exact S58.passes58_stage|].
    split; [exact S59.passes59_stage|]. intros s cs _. apply S60.passes60_stage.
  - split; [exact S61.passes61_stage|exact S62.passes62_stage].
  - split; [intros s cs Hv _; by apply S63.passes63_stage|]. split; [intros s cs _ _; apply S64.passes64_stage|].
    intros s cs Hv _. by apply S65.passes65_stage.
Qed.

Lemma seeded_stages_pass_witness :
  @JsonLists list_text /\
  passes (@LogReplication_step list_text) (mkLog 0 [] 0)
    (S57.script [S57.mkChoice 1 3 None 2 [4; 4]; S57.mkChoice (-1) 0 (Some 2) 0 []]) /\
  passes (@MultiPaxos_step list_text) (mkMulti [] 0 false false ∅)
    (S62.script [S62.CPrepare 1; S62.CPropose 3 2; S62.CAccepted 3 0; S62.CAccepted 3 4; S62.CPreempt 2; S62.CApplied]) /\
  passes (@TwoPhase_step list_text) TwoPhase_default
    (S63.script [S63.mkChoice (true, true, true) (0, 1)%nat false (false, true, false);
                 S63.mkChoice (true, false, true) (2, 0)%nat true (false, false, false)]).
Proof.
  split; [apply list_text_lists|].
  destruct (@seeded_stages_pass list_text list_text_lists) as ((_ & HR & _) & (_ & HP) & HC & _).
  split; [apply HR; [|vm_compute; discriminate]|split; [apply HP; [|vm_compute; discriminate]|apply HC; [|vm_compute; discriminate]]].
  - constructor; [|constructor; [|constructor]]; (split; [cbn; lia|]; split; [|split; [cbn; lia|]]);
      try (intros g [= <-]; lia); repeat constructor; lia.
  - repeat constructor; lia.
  - repeat constructor.
Defined.
